(* ===== verification/_CoqProject ===== *)
-Q . S2P
Prelude.v
GoLib.v
Tx.v
Model.v
TaskRepo.v
InstanceRepo.v
JobRepo.v
Trigger.v
Dispatcher.v
ResultSaver.v
Settler.v
StopController.v
Checker.v
RpcErrors.v
JobLogic.v
Logic.v
Protocol.v
Transitions.v
RepoRules.v
Registration.v
Stopping.v
Triggering.v
Management.v
System.v
Guarantees.v
Runs.v
Snapshot.v
Responses.v
Progress.v
Outcomes.v
Scans.v
ResultQueue.v
HintSpec.v
StopQueue.v
CheckQueue.v
Loops.v
StopRecovery.v
CheckRecovery.v
SettleRuntime.v
DispatchRuntime.v
DispatchInv.v
GoText.v
Executor.v
Reporter.v
ExecutorRuntime.v
ExecutorInv.v
ExecutionRPC.v
Agreement.v
GroupCache.v
GroupCacheInv.v
JobRequests.v
TriggerQueue.v
Scheduler.v
SchedulerInv.v
Cancellation.v
GroupClients.v
Redis.v
Sessions.v
SessionsInv.v
SessionsDemo.v
SessionRevocation.v
LoginProtection.v
Notifier.v
NotifierInv.v
NotifierDelivery.v
SysModel.v
UserRepo.v
RoleRepo.v
MenuRepo.v
Accounts.v
SysLogic.v
SysAudit.v
SysProtocol.v
SysRules.v
SysOps.v
SysTrees.v
Forests.v
SysGuarantees.v
Dictionaries.v
DictionaryCache.v
