(* ===== verification/Prelude.v ===== *)
(** * DogX: a verification library for its scheduling and administration services

    ** The program

    DogX is a Go backend in two domains over PostgreSQL and Redis.  The Job domain
    (src/apps/job) schedules work: a Job definition is triggered by its Cron rule
    or by hand, which creates an Instance (one round) with a frozen snapshot of
    its settings; the Instance is started by creating its Task; each execution
    attempt of the Task is registered in the database, sent to an executor once,
    and closed by the executor's answer, by its report, by settlement when nothing
    was heard, or by stopping the round.  Any number of nodes run the same code
    concurrently against one database, with no other coordination than row locks,
    conditional updates, unique indexes and one elected leader for triggers.
    Executors link the SDK src/pkg/jobexecutor, which admits attempts, runs them and
    reports results.  The System domain (src/apps/system) keeps users, roles,
    departments, menus and the Casbin policies that say which API a role may call, and
    the login sessions of users; a user's sessions end before its rights change, and
    one super administrator cannot be removed.  This library models these parts and
    proves what they achieve together.

    ** How the code is modelled

    Code over PostgreSQL is sequential between statements.  [Tx] gives its
    operations: a computation [Tx.M] takes a database, a supply of [Event]s that the
    environment decides, and returns a Go result with the new database, the messages
    it handed out and the commits it made.  One SQL statement is one [exec] or
    [query]; the handle it runs on decides whether it commits by itself or belongs to
    a transaction, which [transact] begins, rolls back or commits.  An event says
    what other sessions committed before a statement ([ev_others], which knows the
    rows the transaction has locked), the clock, whether the statement fails and, for
    a commit, whether it took effect although its confirmation was lost
    ([ev_fault]), whether a NOWAIT lock or a creation permit is taken ([ev_locked]),
    and whether the context is done ([ev_done]).  Every error branch of the source is
    a branch of the model.  [Model.DB] is the four [job_*] tables as finite maps by
    primary key, with their sequences; Model.v instantiates [Tx] for it.  [SysModel.DB] is
    the tables of the System domain, with its own instance.  Redis sessions, login locks,
    token issuing and the login log, which a System handler calls between statements, are
    [Services] there: they answer at each call, and what they were told is a message.

    Code with goroutines over shared memory is a state machine: its fields are a
    record, each critical section under a mutex is one operation, and an inductive
    [step] interleaves goroutines, callers, timers, contexts and, where the component
    reads it, the database.  Code over Redis is a program of commands ([Redis]) whose
    calls interleave command by command.

    ** Files that model code

    Shared: Prelude (results and error chains, tactics, ordered tables, pages), GoLib
    and GoText (instants, integer widths, UTF-8, host:port, JSON, text packages), Tx.

    src/apps/job/internal:
    - Model: model/*.go and repository/transaction.go.  TaskRepo, InstanceRepo,
      JobRepo: the repositories, one definition per method under the method's name
      ([CreateJob], [CreateGroup] where two repositories share one); row updates
      ([busy_row]) and SQL predicates ([register_guard]) are definitions of their own.
    - Trigger: schedule/cron.go, trigger/creator.go.  Dispatcher: dispatch/
      registrar.go and dispatcher.go.  DispatchRuntime: dispatch/runtime.go.
    - ResultSaver, ResultQueue: taskresult.  Settler, SettleRuntime: taskrecovery.
    - StopController, StopQueue, Loops, StopRecovery (over any source of its pages; the
      repository is one): instancestop.  Checker,
      CheckQueue, CheckRecovery: instancecheck.  GroupCache: groupcache/cache.go.
    A Go method body that is one transaction is split where the callback is one
    definition ([start_body]) and the method around it another ([StartOrdinary]).

    src/apps/job/rpc/internal:
    - JobLogic: logic (validation, projections, one operation per RPC).
    - TriggerQueue, Scheduler: scheduler (queue, terms, election).
    - ExecutionRPC: execution/dispatch.go, receiver.go, group_auth.go.  Cancellation:
      cancel.go.  GroupClients: group_clients.go.  Notifier: notification.go.

    src/pkg: RpcErrors (bizerror, subcode); Executor, Reporter, ExecutorRuntime
    (jobexecutor: auth, registry, processor, rpc; reporter; runtime).

    src/apps/system/internal:
    - Redis (the commands used), Sessions (authn: session.go, refresh_result.go,
      token.go), LoginProtection (loginprotection).
    - SysModel: model/*.go and the constraints of the migrations.  UserRepo, MenuRepo:
      the repositories of users and of departments, menus and the menus of roles.
      RoleRepo: role_repository.go, api_repository.go and authorization/model.go,
      policy_service.go.
    - Accounts: authn/username.go, password.go and bootstrapadmin/service.go.
    - Dictionaries: dictcache/cache.go and the dictionary repositories and handlers; its
      programs mix SQL statements, each its own transaction, and Redis commands.

    src/apps/system/rpc/internal/logic:
    - SysLogic: users, roles, API policies, login, logout, password and profile;
      departments, menus, the menus of roles and the caller's navigation; and every
      operation that changes rows or sessions as one type, with [run].

    ** The proof library

    - Logic: a rely-guarantee program logic over an abstract [Protocol] (an
      invariant, a preorder of allowed changes, and what locks protect), which is
      the interface between an operation and all other sessions; [wp] for
      operations, [tx] inside a transaction.
    - Protocol: its instance for the Job tables: well-formed rows, a Task agrees with
      its parent Instance, live Jobs and active Instances refer to live rows, finished
      rows never change.  Transitions: every conditional update keeps it.  RepoRules:
      the rules of the repository calls, with the hint databases [safe] and [silent].
    - Registration, Stopping, Triggering, Management: the components
      against the protocol.  System: all operations, interleaved steps, reachability.
    - HintSpec: the class [HintQueue], the abstract promise of a queue of hints, which
      StopQueue and CheckQueue implement.  Loops: how discovery loops end.
    - Runs: undisturbed runs as functions, and what an operation may commit whatever the
      database looks like.
    - SysProtocol, SysRules, SysOps: the same interface for the System tables: the instance
      and the changes that keep it, the rules of the handlers, and that every operation
      keeps it.  SysAudit: a logic for what an operation has announced before it commits.
    - DispatchInv, ExecutorInv, GroupCacheInv, SchedulerInv, SessionsInv, NotifierInv:
      the invariants of the state machines.  The first part of System, the
      last of SysOps, and SessionsDemo: concrete deployments and runs on which the theorems are instantiated.

    ** What is proved

    - Guarantees: system-wide safety over every interleaving of every operation:
      the invariant of the tables, the attempt budget, one send per attempt,
      finality of finished rows, no attempt after a stop, unique trigger
      identities, the fixed deadline, the life of an attempt.
    - Outcomes: what the answer of one operation means while the others interfere.
    - Progress, Responses, SettleRuntime: what operations achieve when nothing
      interferes: cancellation converges, checks complete or time out, a start happens
      once, evidence is recorded once, settlement clears its backlog.
    - Snapshot: the JSON snapshot round-trips.  Scans: paged scans visit every
      candidate once, filters are literal, pages partition the rows.
    - The queues and runtimes: bounds, deduplication, fairness, no lost results, clean
      drains, and that no discovery loop stalls.  Agreement: what the scheduler sends the
      executor understands, and back.  JobRequests: what validation accepts can be
      stored, enabled, dispatched and authenticated.
    - SchedulerInv, TriggerQueue: one Cron entry per registered rule; the ring buffer is
      a first-in first-out list.  NotifierDelivery: exact accounting of targets, and a
      stop decision reaches every saved executor address.
    - SysGuarantees: every interleaving of System operations keeps the protocol, the
      administrator stays what it is, a replacement of policies is exact, and sessions end
      before rights change, and a login hands out credentials only for a valid password.
      SysTrees: a granted menu comes with its ancestors, and the navigation walk is exact.
      Forests: operations that nobody disturbs keep both trees; two concurrent moves can
      make a cycle.
    - DictionaryCache: reading dictionaries through the Redis cache refines reading the
      tables, also when Redis fails; a reader beside a change can leave an old entry.
    - SessionsInv, SessionRevocation: a refresh token is spent once, a revoked session
      stays dead; among any other calls but a second one for the same user, [RevokeAll]
      ends every indexed session whose login had returned.  LoginProtection: locks
      are exact over the integers cjson prints in full.

    ** Conventions and limits

    - Isolation is READ COMMITTED: other sessions act before every statement, also
      inside a transaction until its first write.  They never change a row the
      transaction has locked; that they also neither register attempts of a locked
      Instance nor create Instances of a locked Job is not PostgreSQL's doing but
      the code's, and the first theorem proves it of every operation.  From its
      first write on a transaction is shown no further commits of others: they
      touch none of the rows it has locked or written, and the Job code reads after a
      write only to explain a write that changed nothing.  In the System domain the
      first-administrator command reads departments, and [DeleteRole] deletes other rows,
      after a first write: the model shows them what was there at that write.
    - Requests of the RPC logic are never nil, and the projection of a row onto its wire
      message is not modelled where it only copies fields.  The password comparison the
      login runs for an unknown name has no effect but its duration.
    - A rolled-back transaction restores the sequences too (PostgreSQL leaves
      gaps); identifiers are only ever compared and ordered.
    - Instants are integers of nanoseconds with 0 for Go's zero time; PostgreSQL's
      rounding to microseconds appears only in the parameter [PgLib].  Durations
      computed by the code stay in int64 where a theorem needs it.
    - [fmt.Errorf] with [%w] is represented by the causes it keeps; messages are
      not compared.  Logging has no effect.
    - JSON member names are matched exactly; Go also matches them without case,
      which differs only on snapshots this program never writes.
    - Soft deletion sets [deleted_at].  Text columns reject NUL bytes and invalid
      UTF-8.  Jitter is computed exactly where Go rounds a float64.
    - Fuel occurs in loops whose bound the code gives (response writes, preview
      entries, discovery passes) and in [walk], whose theorems ask for more fuel than
      the table has rows: each page but the last holds at least one new row.
      [RevokeAll] runs as long as its cursor does; its theorem takes as hypotheses the
      scan's documented guarantee, that no call names a session before its login returned
      (the IDs are random), and that the index does not expire before the session.
    - [Marshal] is read back whatever the document; encoding/json replaces invalid UTF-8,
      so this describes documents of valid text, the only ones the code writes.
    - Parameters, for code outside the repository: [UuidLib], [UuidRandom]
      (google/uuid), [PgLib] (PostgreSQL functions; [collation_ordered] is its text
      order), [CronLib], [CronEngine] (robfig/cron), [Sender] (the executor RPC),
      [GrpcLib], [ProtoLib], [TimestampLib] (gRPC and protobuf), [TimeText],
      [TimeParse] (time formats), [NetipLib], [JsonText], [JwtLib] and the
      cryptography of Sessions, [PgText] (LOWER), [BcryptLib], [MailLib] (net/mail),
      [UrlLib] (net/url), [CasbinAdapter] (the policy adapter; [adapter_documented] is
      what its documentation says) and [PolicyNotifier].  The demos and the witnesses
      instantiate each by an executable definition.

    ** Not modelled

    Of the System domain: the login log and the security settings, handlers that only
    read rows and copy them into an answer, the Casbin reloader, watcher and readiness,
    the HTTP layer, and the cached configuration of loginprotection/runtime.go.  gRPC and
    HTTP construction and configuration (execution/client.go, server.go,
    jobexecutor/client.go, config.go, server.go, rpc/internal/config), generated code
    (rpc/jobclient, rpc/types, rpc/internal/server, the API's types and routes), the
    dependency wiring of rpc/internal/svc and cmd, migrations as such (their
    constraints are in the repositories), logging, metrics and process plumbing in
    src/pkg carry no logic a theorem could be about. *)

From stdpp Require Export base tactics option list numbers sorting gmap strings fin_maps.

(** ** Results

    A Go function returning [(T, error)] is modelled by [Result T]: exactly one
    of the value and the error is meaningful to its callers. *)

Declare Scope go_scope.
Delimit Scope go_scope with go.

(** One cause of a Go error chain.  [fmt.Errorf("...: %w", err)] keeps the causes
    of [err]; [errors.Join] and a format with two [%w] verbs concatenate them;
    [errors.Is] is membership. *)
Inductive Cause : Type :=
| Sentinel (name : string)   (* a package-level [errors.New] variable *)
| Text (message : string)    (* an anonymous [errors.New] value *)
| PgError (code constraint : string) (* *pgconn.PgError: SQLSTATE and constraint *)
| ContextErr                 (* context.Canceled or context.DeadlineExceeded *)
| Driver                     (* a transport failure or lost commit confirmation *)
| StatusErr (code : Z) (message : string) (reasons : list string) (* a gRPC status with its ErrorInfo reasons *)
| BizErr (code : Z) (subcode message : string). (* *bizerror.Error *)

#[global] Instance cause_eq_dec : EqDecision Cause.
Proof. solve_decision. Defined.

Abbreviation Error := (list Cause).

Inductive Result (A : Type) : Type :=
| Ok (a : A)
| Fail (e : Error).
Arguments Ok {A} _.
Arguments Fail {A} _.

#[global] Instance result_eq_dec `{EqDecision A} : EqDecision (Result A).
Proof. solve_decision. Defined.

Definition result_bind {A B} (r : Result A) (f : A → Result B) : Result B :=
  match r with Ok a => f a | Fail e => Fail e end.

Definition result_map {A B} (f : A → B) (r : Result A) : Result B :=
  match r with Ok a => Ok (f a) | Fail e => Fail e end.

(** [errors.Is] and [errors.As] for the driver's error type. *)
Definition errors_is (e : Error) (c : Cause) : bool := bool_decide (c ∈ e).

Fixpoint pg_code (e : Error) : option (string * string) :=
  match e with
  | [] => None
  | PgError code constraint :: _ => Some (code, constraint)
  | _ :: e' => pg_code e'
  end.

(** ** Tactics *)

(** Facts about ordered tables, for [auto with tables]. *)
Create HintDb tables.

(** Split every [match] of the goal or of a hypothesis, and close the cases whose
    equations are contradictory. *)
Ltac break_hyp H :=
  repeat (simplify_eq/=; match type of H with context [match ?x with _ => _ end] =>
    let E := fresh "E" in destruct x eqn:E end); simplify_eq/=.

Ltac break_goal :=
  repeat (simplify_eq/=; case_match); simplify_eq/=.

(** Turn the boolean tests of the source into propositions. *)
Ltac to_prop :=
  repeat match goal with
  | H : _ && _ = true |- _ => apply andb_true_iff in H as [? ?]
  | H : _ || _ = false |- _ => apply orb_false_iff in H as [? ?]
  | H : negb _ = true |- _ => apply negb_true_iff in H
  | H : negb _ = false |- _ => apply negb_false_iff in H
  | H : bool_decide _ = true |- _ => apply bool_decide_eq_true in H
  | H : bool_decide _ = false |- _ => apply bool_decide_eq_false in H
  | H : (_ =? _)%Z = true |- _ => apply Z.eqb_eq in H
  | H : (_ =? _)%Z = false |- _ => apply Z.eqb_neq in H
  | H : (_ <? _)%Z = true |- _ => apply Z.ltb_lt in H
  | H : (_ <? _)%Z = false |- _ => apply Z.ltb_ge in H
  | H : (_ <=? _)%Z = true |- _ => apply Z.leb_le in H
  | H : (_ <=? _)%Z = false |- _ => apply Z.leb_gt in H
  end.

(** The same, splitting the disjunctions too. *)
Ltac to_cases :=
  repeat (to_prop; match goal with
  | H : _ && _ = false |- _ => apply andb_false_iff in H as [H|H]
  | H : _ || _ = true |- _ => apply orb_true_iff in H as [H|H]
  end); to_prop.

(** Close an equation of closed executable terms. *)
Ltac evaluate := vm_compute; reflexivity.

(** ** Ordered lists and pagination

    Every candidate query of the repositories has the shape
    [WHERE key > cursor ORDER BY key LIMIT n] over a total order of keys.  The
    lemmas below say that walking such pages visits each row exactly once. *)

Section pages.
Context {A : Type} (R : relation A) `{!RelDecision R}.
Context (Rtrans : Transitive R) (Rirr : ∀ x, ¬ R x x).

Definition after (c : option A) (x : A) : Prop :=
  match c with None => True | Some y => R y x end.
#[global] Instance after_dec c x : Decision (after c x).
Proof. destruct c; simpl; apply _. Defined.

Definition page (l : list A) (c : option A) (limit : nat) : list A :=
  take limit (filter (after c) l).

(** A traversal: fetch a page, stop on a short one, else continue after its
    last row. *)
Fixpoint walk (fetch : option A → list A) (limit fuel : nat) (c : option A) : list A :=
  match fuel with
  | O => []
  | S fuel' =>
      let p := fetch c in
      if (length p <? limit)%nat then p else p ++ walk fetch limit fuel' (last p)
  end.

Lemma StronglySorted_filter (P : A → Prop) `{!∀ x, Decision (P x)} (l : list A) :
  StronglySorted R l → StronglySorted R (filter P l).
Proof.
  induction 1 as [|x l Hs IH Hf]; [constructor|].
  rewrite filter_cons. case_decide; [|done].
  constructor; [done|]. apply Forall_forall. intros y Hy.
  apply list_elem_of_filter in Hy as [_ Hy]. by eapply Forall_forall in Hf.
Qed.

Lemma StronglySorted_split (l k : list A) x y :
  StronglySorted R (l ++ k) → x ∈ l → y ∈ k → R x y.
Proof.
  induction l as [|z l IH]; simpl; intros Hs Hx Hy; [by apply elem_of_nil in Hx|].
  inversion Hs as [|? ? Hs' Hf]; subst.
  apply elem_of_cons in Hx as [->|Hx]; [|by apply IH].
  eapply Forall_forall in Hf; [done|]. apply elem_of_app. by right.
Qed.

Lemma StronglySorted_app_inv_l (l k : list A) : StronglySorted R (l ++ k) → StronglySorted R l.
Proof.
  induction l as [|z l IH]; simpl; intros Hs; [constructor|].
  inversion Hs as [|? ? Hs' Hf]; subst. apply Forall_app in Hf as [??].
  constructor; [by apply IH|done].
Qed.

Lemma filter_all (P : A → Prop) `{!∀ x, Decision (P x)} (l : list A) :
  (∀ x, x ∈ l → P x) → filter P l = l.
Proof.
  intros Hall. induction l as [|x l IH]; [done|].
  rewrite filter_cons_True by (apply Hall; left). f_equal. apply IH. intros. apply Hall. by right.
Qed.

Lemma filter_none (P : A → Prop) `{!∀ x, Decision (P x)} (l : list A) :
  (∀ x, x ∈ l → ¬ P x) → filter P l = [].
Proof.
  intros Hall. induction l as [|x l IH]; [done|].
  rewrite filter_cons_False by (apply Hall; left). apply IH. intros. apply Hall. by right.
Qed.

Lemma filter_after_last (l : list A) c k y r :
  StronglySorted R l → filter (after c) l = (k ++ [y]) ++ r →
  filter (after (Some y)) l = r.
Proof.
  intros Hl Hm.
  pose proof (StronglySorted_filter (after c) l Hl) as Hs. rewrite Hm in Hs.
  assert (y ∈ filter (after c) l) as Hy by (rewrite Hm; set_solver).
  apply list_elem_of_filter in Hy as [Hcy _].
  assert (filter (after (Some y)) l = filter (after (Some y)) (filter (after c) l)) as ->.
  { rewrite list_filter_filter. apply list_filter_iff. intros x.
    split; [|by intros [??]]. intros Hyx. split; [done|].
    destruct c; simpl in *; [|done]. by etrans. }
  rewrite Hm, filter_app, filter_none, filter_all; [done| |].
  - intros x Hx. eapply StronglySorted_split; [done| |done]. set_solver.
  - intros x Hx Hyx. apply elem_of_app in Hx as [Hx|Hx].
    + apply StronglySorted_app_inv_l in Hs.
      assert (R x y) by (eapply StronglySorted_split; [done|done|set_solver]).
      eapply Rirr, Rtrans; eauto.
    + apply list_elem_of_singleton in Hx as ->. by eapply Rirr.
Qed.

Lemma walk_page (l : list A) limit fuel c :
  StronglySorted R l → (0 < limit)%nat → (length (filter (after c) l) < fuel)%nat →
  walk (λ c, page l c limit) limit fuel c = filter (after c) l.
Proof.
  intros Hl Hlim. revert c. induction fuel as [|fuel IH]; intros c Hf; [lia|].
  simpl. set (m := filter (after c) l) in *. unfold page. fold m.
  rewrite length_take. case_match eqn:E.
  - apply Nat.ltb_lt in E. rewrite take_ge; [done|lia].
  - apply Nat.ltb_ge in E.
    destruct (last (take limit m)) as [y|] eqn:Hlast.
    + apply last_Some in Hlast as [k Hk].
      assert (m = (k ++ [y]) ++ drop limit m) as Hm by (rewrite <-Hk, take_drop; done).
      pose proof (filter_after_last l c k y _ Hl Hm) as Hnext.
      assert (length m = length (k ++ [y]) + length (drop limit m))%nat
        by (rewrite Hm at 1; apply length_app).
      rewrite length_app in *; simpl in *.
      change (λ c0 : option A, take limit (filter (after c0) l)) with (λ c0, page l c0 limit).
      rewrite IH; rewrite Hnext; [by rewrite take_drop|lia].
    + apply last_None in Hlast. apply (f_equal length) in Hlast.
      rewrite length_take in Hlast. simpl in Hlast. lia.
Qed.
End pages.

(** ** Rows of a table

    A table is a finite map from its primary key; [rows] lists it in primary-key
    order, and [order_by] sorts a projection by a two-column key.  These are the
    only orderings the SQL of the repositories asks for. *)

Definition lexlt (x y : Z * Z) : Prop := (x.1 < y.1 ∨ (x.1 = y.1 ∧ x.2 < y.2))%Z.
Definition lexle (x y : Z * Z) : Prop := (x.1 < y.1 ∨ (x.1 = y.1 ∧ x.2 ≤ y.2))%Z.

#[global] Instance lexlt_dec : RelDecision lexlt.
Proof. intros ??. unfold lexlt. apply _. Defined.
#[global] Instance lexle_dec : RelDecision lexle.
Proof. intros ??. unfold lexle. apply _. Defined.

(** [(a, b) > (?, ?)] of an optional cursor. *)
Definition after_key (c : option (Z * Z)) (k : Z * Z) : Prop :=
  match c with Some c => lexlt c k | None => True end.
#[global] Instance after_key_dec c k : Decision (after_key c k).
Proof. unfold after_key. destruct c; apply _. Defined.

Section order_by.
Context {A : Type} (key : A → Z * Z).

Definition key_lt (x y : A) : Prop := lexlt (key x) (key y).
Definition key_le (x y : A) : Prop := lexle (key x) (key y).
#[global] Instance key_lt_dec : RelDecision key_lt.
Proof. intros ??. unfold key_lt. apply _. Defined.
#[global] Instance key_le_dec : RelDecision key_le.
Proof. intros ??. unfold key_le. apply _. Defined.
#[global] Instance key_lt_trans : Transitive key_lt.
Proof. intros ???. unfold key_lt, lexlt. lia. Qed.
#[global] Instance key_le_trans : Transitive key_le.
Proof. intros ???. unfold key_le, lexle. lia. Qed.
#[global] Instance key_le_total : Total key_le.
Proof. intros ??. unfold key_le, lexle. lia. Qed.

Lemma key_lt_irrefl x : ¬ key_lt x x.
Proof. unfold key_lt, lexlt. lia. Qed.

Definition order_by (l : list A) : list A := merge_sort key_le l.

Lemma order_by_perm l : order_by l ≡ₚ l.
Proof. apply merge_sort_Permutation. Qed.

Lemma elem_of_order_by x l : x ∈ order_by l ↔ x ∈ l.
Proof. by rewrite (order_by_perm l). Qed.

Lemma order_by_strict l : NoDup (key <$> l) → StronglySorted key_lt (order_by l).
Proof.
  intros Hnd. rewrite <-(order_by_perm l) in Hnd.
  pose proof (StronglySorted_merge_sort key_le l) as Hs. fold (order_by l) in Hs.
  induction Hs as [|x k Hs IH Hf]; [constructor|].
  rewrite fmap_cons in Hnd. apply NoDup_cons in Hnd as [Hx Hnd].
  constructor; [by apply IH|]. apply Forall_forall. intros y Hy.
  eapply Forall_forall in Hf; [|done]. unfold key_le, key_lt, lexle, lexlt in *.
  destruct (decide (key x = key y)) as [He|Hne].
  - exfalso. apply Hx. rewrite He. apply list_elem_of_fmap. eauto.
  - destruct (key x), (key y); simpl in *.
    destruct (decide (z = z1)); destruct (decide (z0 = z2)); subst; [done|lia..].
Qed.
End order_by.

Definition row_key {A} (r : Z * A) : Z * Z := (r.1, 0%Z).

Definition rows {A} (m : gmap Z A) : list (Z * A) := order_by row_key (map_to_list m).

Lemma elem_of_rows {A} (m : gmap Z A) i a : (i, a) ∈ rows m ↔ m !! i = Some a.
Proof. unfold rows. by rewrite elem_of_order_by, elem_of_map_to_list. Qed.

Lemma NoDup_map_to_list_key {A} (m : gmap Z A) : NoDup (row_key <$> map_to_list m).
Proof.
  change (@row_key A) with ((λ i, (i, 0%Z)) ∘ (fst : Z * A → Z)).
  rewrite list_fmap_compose.
  apply NoDup_fmap_2; [intros ?? [=]; done|apply NoDup_fst_map_to_list].
Qed.

Lemma rows_sorted {A} (m : gmap Z A) : StronglySorted (key_lt row_key) (rows m).
Proof. apply order_by_strict, NoDup_map_to_list_key. Qed.

Lemma NoDup_rows {A} (m : gmap Z A) : NoDup (rows m).*1.
Proof. unfold rows. rewrite (order_by_perm row_key (map_to_list m)). apply NoDup_fst_map_to_list. Qed.

(** The primary keys of the rows that satisfy a predicate, in ascending order. *)
Definition ids_where {A} (P : Z → A → bool) (m : gmap Z A) : list Z :=
  (filter (λ r, P r.1 r.2 = true) (rows m)).*1.

Lemma elem_of_ids_where {A} (P : Z → A → bool) (m : gmap Z A) i :
  i ∈ ids_where P m ↔ ∃ a, m !! i = Some a ∧ P i a = true.
Proof.
  unfold ids_where. rewrite list_elem_of_fmap. split.
  - intros ([j a] & -> & Hr). apply list_elem_of_filter in Hr as [? Hr].
    apply elem_of_rows in Hr. eauto.
  - intros (a & Hi & HP). exists (i, a). split; [done|].
    apply list_elem_of_filter. split; [done|]. by apply elem_of_rows.
Qed.

Lemma ids_where_sorted {A} (P : Z → A → bool) (m : gmap Z A) :
  StronglySorted Z.lt (ids_where P m).
Proof.
  unfold ids_where.
  pose proof (StronglySorted_filter (key_lt row_key) (λ r, P r.1 r.2 = true) _ (rows_sorted m)) as Hs.
  induction Hs as [|x k Hs IH Hf]; [constructor|]. rewrite fmap_cons.
  constructor; [done|]. apply Forall_forall. intros y Hy.
  apply list_elem_of_fmap in Hy as (r & -> & Hr).
  eapply Forall_forall in Hf; [|done]. unfold key_lt, lexlt, row_key in Hf. simpl in Hf. lia.
Qed.

Lemma StronglySorted_lt_NoDup (l : list Z) : StronglySorted Z.lt l → NoDup l.
Proof.
  induction 1 as [|x l Hs IH Hf]; constructor; [|done].
  intros Hx. eapply Forall_forall in Hf; [|exact Hx]. lia.
Qed.

(** The last element bounds a strictly sorted list. *)
Lemma StronglySorted_last_max (l : list Z) x y :
  StronglySorted Z.lt l → last l = Some y → x ∈ l → (x ≤ y)%Z.
Proof.
  intros Hs Hl Hx. apply last_Some in Hl as [k ->].
  apply elem_of_app in Hx as [Hx|Hx].
  - assert (x < y)%Z; [|lia]. eapply StronglySorted_split; [done|done|set_solver].
  - apply list_elem_of_singleton in Hx. lia.
Qed.

#[export] Hint Resolve rows_sorted NoDup_rows order_by_strict ids_where_sorted StronglySorted_lt_NoDup
  StronglySorted_filter : tables.

(** ** How tables change *)

(** No row disappears, and each changes only as [R] allows. *)
Definition table_evolves {A} (R : relation A) (m m' : gmap Z A) : Prop :=
  ∀ id a, m !! id = Some a → ∃ a', m' !! id = Some a' ∧ R a a'.

#[global] Instance table_evolves_preorder {A} (R : relation A) `{!PreOrder R} : PreOrder (table_evolves R).
Proof.
  split; [intros m id a Ha; exists a; split; [done|reflexivity]|].
  intros x y z H1 H2 id a Ha. destruct (H1 _ _ Ha) as (a' & Ha' & ?).
  destruct (H2 _ _ Ha') as (a'' & ? & ?). eexists. split; [done|by etrans].
Qed.

Lemma table_evolves_insert {A} (R : relation A) `{!PreOrder R} (m : gmap Z A) id a a' :
  m !! id = Some a → R a a' → table_evolves R m (<[id := a']> m).
Proof.
  intros Ha HR k b Hb. destruct (decide (k = id)) as [->|Hk].
  - rewrite lookup_insert_eq. simplify_eq. eauto.
  - rewrite lookup_insert_ne by done. exists b. split; [done|reflexivity].
Qed.

Lemma table_evolves_fresh {A} (R : relation A) `{!PreOrder R} (m : gmap Z A) id a :
  m !! id = None → table_evolves R m (<[id := a]> m).
Proof.
  intros Ha k b Hb. rewrite lookup_insert_ne by congruence. exists b. split; [done|reflexivity].
Qed.

Lemma fresh_lookup {A} (m : gmap Z A) n : (∀ id a, m !! id = Some a → (0 < id < n)%Z) → m !! n = None.
Proof. intros Hm. destruct (m !! n) eqn:E; [|done]. apply Hm in E. lia. Qed.

(** Splitting a lookup in an updated table. *)
Ltac lookup_cases H :=
  first [apply lookup_insert_Some in H as [[? ?]|[? H]]]; simplify_eq/=.
