(* ===== verification/GoLib.v ===== *)
(** * What the sources use of Go and its standard library

    Instants and durations, integer widths, UTF-8 strings ([unicode/utf8],
    [unicode], [strings]), host:port addresses ([net]) and the part of
    [encoding/json] that decodes frozen execution snapshots. *)

From S2P Require Import Prelude.

Open Scope Z_scope.

(** ** Time

    A [time.Time] is the number of nanoseconds since Go's zero time, so that
    [IsZero] tests for 0; a [time.Duration] is a number of nanoseconds. *)
Abbreviation Time := Z.
Abbreviation Duration := Z.

Definition is_zero (t : Time) : bool := t =? 0.
Definition before (a b : Time) : bool := a <? b.
Definition is_after (a b : Time) : bool := b <? a.
Definition Millisecond : Duration := 1000000.
Definition Second : Duration := 1000000000.

(** A nil [*time.Time] or the zero instant. *)
Definition nil_or_zero (t : option Time) : bool :=
  match t with None => true | Some t => is_zero t end.

(** ** Integer widths *)
Definition MaxInt16 : Z := 32767.
Definition MaxInt32 : Z := 2147483647.
Definition MaxInt64 : Z := 9223372036854775807.
Definition in_int16 (z : Z) : bool := (- MaxInt16 - 1 <=? z) && (z <=? MaxInt16).
Definition in_int32 (z : Z) : bool := (- MaxInt32 - 1 <=? z) && (z <=? MaxInt32).
Definition in_int64 (z : Z) : bool := (- MaxInt64 - 1 <=? z) && (z <=? MaxInt64).

(** ** Strings as bytes *)
Definition byte_of (c : Ascii.ascii) : Z := Z.of_N (Ascii.N_of_ascii c).
Definition bytes (s : string) : list Z := byte_of <$> String.list_ascii_of_string s.
Definition of_bytes (l : list Z) : string :=
  String.string_of_list_ascii ((λ b, Ascii.ascii_of_N (Z.to_N b)) <$> l).

Definition between (lo hi b : Z) : bool := (lo <=? b) && (b <=? hi).
Definition cont (b : Z) : bool := between 128 191 b.

(** The second-byte ranges of [unicode/utf8]'s acceptance table. *)
Definition lead2 (b0 : Z) : bool := between 194 223 b0.
Definition lead3 (b0 b1 : Z) : bool :=
  ((b0 =? 224) && between 160 191 b1) || (between 225 236 b0 && cont b1) ||
  ((b0 =? 237) && between 128 159 b1) || (between 238 239 b0 && cont b1).
Definition lead4 (b0 b1 : Z) : bool :=
  ((b0 =? 240) && between 144 191 b1) || (between 241 243 b0 && cont b1) ||
  ((b0 =? 244) && between 128 143 b1).

(** The runes of a byte string, each with its encoding; an invalid byte yields
    [None], as [utf8.DecodeRune] returns RuneError with width one. *)
Fixpoint runes (l : list Z) : list (option Z * list Z) :=
  match l with
  | [] => []
  | b0 :: t0 =>
      if b0 <? 128 then (Some b0, [b0]) :: runes t0
      else match t0 with
      | [] => (None, [b0]) :: runes t0
      | b1 :: t1 =>
          if lead2 b0 && cont b1
          then (Some ((b0 - 192) * 64 + (b1 - 128)), [b0; b1]) :: runes t1
          else match t1 with
          | [] => (None, [b0]) :: runes t0
          | b2 :: t2 =>
              if lead3 b0 b1 && cont b2
              then (Some ((b0 - 224) * 4096 + (b1 - 128) * 64 + (b2 - 128)), [b0; b1; b2]) :: runes t2
              else match t2 with
              | [] => (None, [b0]) :: runes t0
              | b3 :: t3 =>
                  if lead4 b0 b1 && cont b2 && cont b3
                  then (Some ((b0 - 240) * 262144 + (b1 - 128) * 4096 + (b2 - 128) * 64 + (b3 - 128)),
                        [b0; b1; b2; b3]) :: runes t3
                  else (None, [b0]) :: runes t0
              end
          end
      end
  end.

Definition ValidString (s : string) : bool :=
  forallb (λ r, bool_decide (is_Some r.1)) (runes (bytes s)).
Definition RuneCountInString (s : string) : Z := Z.of_nat (length (runes (bytes s))).
Definition ContainsNul (s : string) : bool := existsb (Z.eqb 0) (bytes s).

(** [unicode.IsSpace] and [unicode.IsControl]. *)
Definition IsSpace (r : Z) : bool :=
  between 9 13 r || (r =? 32) || (r =? 133) || (r =? 160) || (r =? 5760) || between 8192 8202 r ||
  (r =? 8232) || (r =? 8233) || (r =? 8239) || (r =? 8287) || (r =? 12288).
Definition IsControl (r : Z) : bool := between 0 31 r || between 127 159 r.
Definition space_rune (r : option Z * list Z) : bool :=
  match r.1 with Some c => IsSpace c | None => false end.

Fixpoint drop_while {A} (p : A → bool) (l : list A) : list A :=
  match l with [] => [] | x :: t => if p x then drop_while p t else l end.

Definition TrimSpace (s : string) : string :=
  of_bytes (mjoin (snd <$> reverse (drop_while space_rune (reverse (drop_while space_rune (runes (bytes s))))))).

(** The number of [strings.Fields]: maximal runs of non-space runes. *)
Fixpoint fields_from (inside : bool) (l : list (option Z * list Z)) : Z :=
  match l with
  | [] => 0
  | r :: t => if space_rune r then fields_from false t
              else (if inside then 0 else 1) + fields_from true t
  end.
Definition FieldsCount (s : string) : Z := fields_from false (runes (bytes s)).

Definition HasPrefix (s p : string) : bool := String.prefix p s.

(** ** Addresses: [net.SplitHostPort], [net.JoinHostPort], [net.ParseIP] *)

Definition colon : Z := 58.
Definition has (b : Z) (l : list Z) : bool := existsb (Z.eqb b) l.

(** Text before and after the first occurrence of a byte. *)
Fixpoint cut (b : Z) (l : list Z) : option (list Z * list Z) :=
  match l with
  | [] => None
  | x :: t => if x =? b then Some ([], t)
              else match cut b t with Some (p, q) => Some (x :: p, q) | None => None end
  end.
(** Text before and after the last occurrence of a byte. *)
Definition cut_last (b : Z) (l : list Z) : option (list Z * list Z) :=
  match cut b (reverse l) with Some (p, q) => Some (reverse q, reverse p) | None => None end.

(** [SplitHostPort]: [None] stands for every address error. *)
Definition SplitHostPort (a : list Z) : option (list Z * list Z) :=
  match cut_last colon a with
  | None => None
  | Some (pre, port) =>
      match a with
      | 91 :: rest =>
          match cut 93 rest with
          | None => None
          | Some (host, tail) =>
              (* the first closing bracket must be followed by the last colon *)
              if bool_decide (tail = colon :: port) then
                if has 91 rest || has 93 tail then None else Some (host, port)
              else None
          end
      | _ => if has colon pre || has 91 a || has 93 a then None else Some (pre, port)
      end
  end.

Definition JoinHostPort (host port : list Z) : list Z :=
  if has colon host then [91] ++ host ++ [93; colon] ++ port else host ++ [colon] ++ port.

Definition is_digit (b : Z) : bool := between 48 57 b.
Definition is_hex (b : Z) : bool := is_digit b || between 97 102 b || between 65 70 b.

Definition decimal (l : list Z) : Z := foldl (λ acc b, acc * 10 + (b - 48)) 0 l.

(** [strconv.ParseUint(s, 10, 16)] on a string of digits. *)
Definition ParsePort (l : list Z) : option Z :=
  match l with
  | [] => None
  | _ => if forallb is_digit l && (decimal l <=? 65535) then Some (decimal l) else None
  end.

Fixpoint take_while {A} (p : A → bool) (l : list A) : list A * list A :=
  match l with
  | [] => ([], [])
  | x :: t => if p x then let '(a, b) := take_while p t in (x :: a, b) else ([], l)
  end.

(** The four decimal fields of an IPv4 address: no empty field, no leading zero,
    at most 255. *)
Definition ipv4_field (l : list Z) : bool :=
  match l with
  | [] => false
  | [b] => true
  | b :: _ => negb (b =? 48) && (length l <=? 3)%nat && (decimal l <=? 255)
  end.
Fixpoint ipv4_fields (n : nat) (l : list Z) : bool :=
  let '(d, rest) := take_while is_digit l in
  ipv4_field d &&
  match n, rest with
  | O, [] => true
  | S n', 46 :: rest' => ipv4_fields n' rest'
  | _, _ => false
  end.

(** The loop of [netip.parseIPv6]: [i] bytes of the address are filled, [ell]
    records whether an ellipsis was seen.  Each turn fills two of sixteen bytes,
    so eight turns of fuel are what the loop itself allows. *)
Fixpoint ipv6_loop (fuel : nat) (i : Z) (ell : bool) (s : list Z) : bool :=
  let finish i ell s := bool_decide (s = []) && (if i <? 16 then ell else negb ell) in
  match fuel with
  | O => finish i ell s
  | S fuel' =>
      let '(h, rest) := take_while is_hex s in
      if (length h =? 0)%nat || (4 <? length h)%nat then false
      else match rest with
      | 46 :: _ => (* a dot: the rest must be an embedded IPv4 address *)
          if (negb ell && negb (i =? 12)) || (16 <? i + 4) then false
          else if ipv4_fields 3 s then finish (i + 4) ell [] else false
      | [] => finish (i + 2) ell []
      | c :: t =>
          if negb (c =? colon) then false
          else match t with
          | [] => false
          | 58 :: t' =>
              if ell then false
              else match t' with [] => finish (i + 2) true [] | _ => ipv6_loop fuel' (i + 2) true t' end
          | _ => ipv6_loop fuel' (i + 2) ell t
          end
      end
  end.

(** [net.ParseIP(s) != nil] for a string that contains a colon: an IPv4 address
    cannot, so a dot before the first colon refuses it, and [ParseIP] refuses zones. *)
Definition ParseIP (s : list Z) : bool :=
  match cut colon s with
  | None => ipv4_fields 3 s
  | Some (pre, _) =>
      if has 46 pre || has 37 s then false
      else match s with
      | 58 :: 58 :: [] => true
      | 58 :: 58 :: rest => ipv6_loop 8 0 true rest
      | _ => ipv6_loop 8 0 false s
      end
  end.

(** ** JSON values and [json.Unmarshal]

    The value of a JSONB column.  PostgreSQL keeps one member per key; a number
    written without fraction or exponent is [JInt], any other number [JNumber]. *)
Inductive json : Type :=
| JNull
| JBool (b : bool)
| JInt (z : Z)
| JNumber (literal : string)
| JString (s : string)
| JArray (items : list json)
| JObject (members : list (string * json)).

Fixpoint jget (k : string) (l : list (string * json)) : option json :=
  match l with
  | [] => None
  | (k', v) :: t => if bool_decide (k = k') then Some v else jget k t
  end.

Lemma jget_hd k v l : jget k ((k, v) :: l) = Some v.
Proof. simpl. by rewrite bool_decide_eq_true_2. Qed.
Lemma jget_tl k k' v l : k ≠ k' → jget k ((k', v) :: l) = jget k l.
Proof. intros Hk. simpl. by rewrite bool_decide_eq_false_2. Qed.

(** Look members up in a literal object. *)
Ltac jget_simpl := repeat first [rewrite jget_hd | rewrite jget_tl by done].

(** Decoding one member into a struct field that holds [cur].  A missing member
    or JSON null keeps the field; a value of another type, or out of range, is an
    UnmarshalTypeError, here [None]. *)
Section decode.
Context {A : Type}.
Definition decode_with (f : json → option A) (cur : A) (m : option json) : option A :=
  match m with None | Some JNull => Some cur | Some j => f j end.

(** A pointer field distinguishes an absent or null member. *)
Definition decode_ptr (f : json → option A) (m : option json) : option (option A) :=
  match m with
  | None | Some JNull => Some None
  | Some j => match f j with Some a => Some (Some a) | None => None end
  end.

(** [json.Unmarshal(raw, &ptr)] of a [json.RawMessage] member: a missing
    member leaves the message empty, which is a syntax error. *)
Definition decode_raw (f : json → option A) (m : option json) : option (option A) :=
  match m with None => None | Some _ => decode_ptr f m end.
End decode.

Definition as_int (ok : Z → bool) (j : json) : option Z :=
  match j with JInt z => if ok z then Some z else None | _ => None end.
Definition as_int16 := as_int in_int16.
Definition as_int32 := as_int in_int32.
Definition as_bool (j : json) : option bool := match j with JBool b => Some b | _ => None end.
Definition as_string (j : json) : option string := match j with JString s => Some s | _ => None end.

(** The members of a document decoded into a struct: JSON null decodes as an
    object without members, any other non-object is an error. *)
Definition members (j : json) : option (list (string * json)) :=
  match j with JObject l => Some l | JNull => Some [] | _ => None end.

(** ** [json.Valid]

    The scanner of encoding/json on bytes: it checks syntax and nesting depth, not
    UTF-8.  Every turn consumes a byte, so the length of the text is enough fuel. *)
Definition ws (b : Z) : bool := (b =? 32) || (b =? 9) || (b =? 10) || (b =? 13).
Definition skip_ws (l : list Z) : list Z := drop_while ws l.

Fixpoint scan_string (l : list Z) : option (list Z) :=
  match l with
  | [] => None
  | 34 :: t => Some t
  | 92 :: 117 :: a :: b :: c :: e :: t =>
      if is_hex a && is_hex b && is_hex c && is_hex e then scan_string t else None
  | 92 :: x :: t => if has x [98; 102; 110; 114; 116; 92; 47; 34] then scan_string t else None
  | x :: t => if (x <? 32) || (x =? 92) then None else scan_string t
  end.

Definition digits1 (l : list Z) : option (list Z) :=
  match take_while is_digit l with ([], _) => None | (_, r) => Some r end.
Definition scan_int (l : list Z) : option (list Z) :=
  match l with 48 :: t => Some t | _ => digits1 l end.
Definition scan_frac (l : list Z) : option (list Z) :=
  match l with 46 :: t => digits1 t | _ => Some l end.
Definition scan_exp (l : list Z) : option (list Z) :=
  match l with
  | x :: t => if (x =? 101) || (x =? 69)
              then digits1 (match t with 43 :: u | 45 :: u => u | _ => t end) else Some l
  | [] => Some l
  end.
Definition scan_number (l : list Z) : option (list Z) :=
  r ← scan_int (match l with 45 :: t => t | _ => l end); r ← scan_frac r; scan_exp r.
Definition scan_literal (w : string) (l : list Z) : option (list Z) :=
  if bool_decide (take (length (bytes w)) l = bytes w) then Some (drop (length (bytes w)) l) else None.

Definition maxNestingDepth : Z := 10000.

Inductive json_goal := GValue | GMembers | GElements.

Fixpoint scan (fuel : nat) (g : json_goal) (depth : Z) (l : list Z) : option (list Z) :=
  match fuel with
  | O => None
  | S fuel' =>
      match g with
      | GValue =>
          match skip_ws l with
          | 123 :: t => if maxNestingDepth <? depth + 1 then None else
                        match skip_ws t with 125 :: r => Some r | _ => scan fuel' GMembers (depth + 1) t end
          | 91 :: t => if maxNestingDepth <? depth + 1 then None else
                       match skip_ws t with 93 :: r => Some r | _ => scan fuel' GElements (depth + 1) t end
          | 34 :: t => scan_string t
          | 116 :: _ => scan_literal "true" (skip_ws l)
          | 102 :: _ => scan_literal "false" (skip_ws l)
          | 110 :: _ => scan_literal "null" (skip_ws l)
          | l' => scan_number l'
          end
      | GMembers =>
          match skip_ws l with
          | 34 :: t =>
              r ← scan_string t;
              match skip_ws r with
              | 58 :: r =>
                  r ← scan fuel' GValue depth r;
                  match skip_ws r with
                  | 44 :: r => scan fuel' GMembers depth r
                  | 125 :: r => Some r
                  | _ => None
                  end
              | _ => None
              end
          | _ => None
          end
      | GElements =>
          r ← scan fuel' GValue depth l;
          match skip_ws r with
          | 44 :: r => scan fuel' GElements depth r
          | 93 :: r => Some r
          | _ => None
          end
      end
  end.

Definition JsonValid (s : string) : bool :=
  match scan (S (2 * length (bytes s))) GValue 0 (bytes s) with
  | Some r => bool_decide (skip_ws r = [])
  | None => false
  end.

(** ** Sanity of the address and rune models *)

Lemma cut_Some b l p q : cut b l = Some (p, q) → l = p ++ b :: q ∧ has b p = false.
Proof.
  revert p. induction l as [|x l IH]; intros p; simpl; [done|].
  destruct (x =? b) eqn:Hx; intros H.
  - simplify_eq. apply Z.eqb_eq in Hx as ->. done.
  - destruct (cut b l) as [[p' q']|] eqn:Hc; simplify_eq.
    destruct (IH p' eq_refl) as [-> Hp]. split; [done|]. simpl.
    rewrite Z.eqb_sym, Hx. done.
Qed.

Lemma cut_last_Some b l p q : cut_last b l = Some (p, q) → l = p ++ b :: q ∧ has b q = false.
Proof.
  unfold cut_last. destruct (cut b (reverse l)) as [[p' q']|] eqn:Hc; intros H; simplify_eq.
  apply cut_Some in Hc as [Hl Hh]. split.
  - rewrite <-(reverse_involutive l), Hl, reverse_app, reverse_cons, <-app_assoc. done.
  - unfold has in *. rewrite <-Hh. clear -p'. unfold reverse.
    destruct (existsb (Z.eqb b) p') eqn:E.
    + apply existsb_exists in E as (x & Hx & Hb). apply existsb_exists. exists x.
      split; [|done]. rewrite rev_append_rev, app_nil_r. by apply in_rev in Hx.
    + destruct (existsb (Z.eqb b) (rev_append p' [])) eqn:E2; [|done].
      apply existsb_exists in E2 as (x & Hx & Hb).
      rewrite rev_append_rev, app_nil_r in Hx. apply in_rev in Hx.
      assert (existsb (Z.eqb b) p' = true) by (apply existsb_exists; eauto). congruence.
Qed.

(** The port of an accepted address has no colon. *)
Lemma SplitHostPort_no_colon_port a host port :
  SplitHostPort a = Some (host, port) → has colon port = false.
Proof.
  unfold SplitHostPort. destruct (cut_last colon a) as [[pre q]|] eqn:Hc; [|done].
  apply cut_last_Some in Hc as [_ Hq]. intros H. break_hyp H; done.
Qed.
