(* ===== verification/Tx.v ===== *)
(** * Database sessions

    Every operation of the services talks to PostgreSQL through short statements, some
    grouped in one transaction, which runs at READ COMMITTED.  An operation is a
    computation [M] over a [World]: the shared database, the events the environment
    decides, and the messages the operation hands out.  The database, the row locks and
    the messages are parameters: Model.v instantiates them for the Job tables and
    SysModel.v for the System tables.

    Before every statement other sessions may have committed work of their own
    ([ev_others]), inside a transaction too; they know which rows the transaction
    has locked.  From the first write of a transaction on nothing more is shown:
    its own writes are hidden until it commits, and the later commits of others
    touch none of the rows it has written or locked.  A statement may be refused,
    and a commit may take effect although its confirmation is lost ([ev_fault]). *)

From S2P Require Import Prelude GoLib.
From coqutil Require Export Datatypes.RecordSettersUsingExistingGetters.

#[global] Arguments const {E} newValue _ /.

Open Scope Z_scope.

Section sessions.
(** The database, the rows held by [SELECT ... FOR UPDATE], and the messages. *)
Context {DB Lock Output : Type}.

Record Event := {
  ev_others : list Lock → DB → DB;    (* what other sessions committed meanwhile *)
  ev_clock : Time;                    (* clock_timestamp() or time.Now() *)
  ev_fault : option (bool * Error);   (* the error, and whether the commit took effect *)
  ev_locked : bool;                   (* NOWAIT finds the row locked *)
  ev_done : bool;                     (* the context is done *)
  ev_random : Z;
}.

(** An event without interference or failure, at a given database time. *)
Definition quiet (t : Time) : Event :=
  {| ev_others := λ _ d, d; ev_clock := t; ev_fault := None; ev_locked := false; ev_done := false; ev_random := 0 |}.

(** What a session committed, the rows it held locked then, and the messages it had
    handed out before. *)
Record Commit := { c_locks : list Lock; c_before : DB; c_after : DB; c_out : list Output }.

Record World := {
  w_db : DB;              (* the database as this session sees it *)
  w_base : DB;            (* the committed database under uncommitted writes *)
  w_dirty : bool;         (* the open transaction has written *)
  w_locks : list Lock;    (* rows the open transaction has locked *)
  w_env : nat → Event;
  w_at : nat;             (* events consumed so far *)
  w_out : list Output;    (* oldest first *)
  w_commits : list Commit;
}.

Definition start (d : DB) (env : nat → Event) : World :=
  {| w_db := d; w_base := d; w_dirty := false; w_locks := []; w_env := env; w_at := 0; w_out := []; w_commits := [] |}.

Definition M (A : Type) : Type := World → World * Result A.

#[global] Instance M_ret : MRet M := λ A a w, (w, Ok a).
#[global] Instance M_bind : MBind M := λ A B f m w,
  match m w with
  | (w', Ok a) => f a w'
  | (w', Fail e) => (w', Fail e)
  end.

Definition fail {A} (e : Error) : M A := λ w, (w, Fail e).

(** [x, err := m()]: the error becomes a value. *)
Definition attempt {A} (m : M A) : M (Result A) := λ w, let '(w', r) := m w in (w', Ok r).

Definition lift {A} (r : Result A) : M A := λ w, (w, r).

(** [if err := m(); err != nil { return f(err) }] *)
Definition map_error {A} (f : Error → Error) (m : M A) : M A :=
  r ← attempt m; match r with Ok a => mret a | Fail e => fail (f e) end.

Definition pop : M Event := λ w, ({ w with w_at := S (w_at w) }, Ok (w_env w (w_at w))).

Definition emit (o : Output) : M unit := λ w, ({ w with w_out := w_out w ++ [o] }, Ok tt).

(** The answer of a remote call made at this point. *)
Definition rpc {A} (f : nat → Result A) : M A := λ w, ({ w with w_at := S (w_at w) }, f (w_at w)).

(** [ctx.Err()] *)
Definition ctx_err : M unit := e ← pop; if ev_done e then fail [ContextErr] else mret ().

(** The handle a repository is bound to: independently committing, or a
    transaction's.  [inTransaction] inspects GORM's connection pool. *)
Inductive Handle := Auto | InTx.
Definition inTransaction (h : Handle) : bool := match h with InTx => true | Auto => false end.

Definition commit (L : list Lock) (d d' : DB) (w : World) : World :=
  { w with w_db := d'; w_commits := w_commits w ++ [{| c_locks := L; c_before := d; c_after := d'; c_out := w_out w |}] }.

(** A statement that commits by itself. *)
Definition stmt {A} (f : Event → DB → DB * Result A) : M A := λ w,
  let ev := w_env w (w_at w) in
  let w := { w with w_at := S (w_at w); w_db := ev_others ev [] (w_db w) } in
  let '(d', r) := f ev (w_db w) in
  match ev_fault ev with
  | None => (commit [] (w_db w) d' w, r)
  | Some (true, e) => (commit [] (w_db w) d' w, Fail e)
  | Some (false, e) => (w, Fail e)
  end.

(** What a statement of a transaction finds. *)
Definition refresh (w : World) : World :=
  { w with w_at := S (w_at w);
           w_db := if w_dirty w then w_db w else ev_others (w_env w (w_at w)) (w_locks w) (w_db w) }.

(** A read of a transaction; a locking read that finds its row holds it from then on. *)
Definition tread {A} (held : A → list Lock) (f : Event → DB → Result A) : M A := λ w,
  let ev := w_env w (w_at w) in
  let w := refresh w in
  match ev_fault ev with
  | None =>
      match f ev (w_db w) with
      | Ok a => ({ w with w_locks := held a ++ w_locks w }, Ok a)
      | Fail e => (w, Fail e)
      end
  | Some (_, e) => (w, Fail e)
  end.

(** A write of a transaction; the first one fixes what it is going to replace. *)
Definition twrite {A} (f : Event → DB → DB * Result A) : M A := λ w,
  let ev := w_env w (w_at w) in
  let w := refresh w in
  match ev_fault ev with
  | None =>
      let '(d', r) := f ev (w_db w) in
      ({ w with w_db := d'; w_base := if w_dirty w then w_base w else w_db w; w_dirty := true }, r)
  | Some (_, e) => (w, Fail e)
  end.

Definition exec {A} (h : Handle) (f : Event → DB → DB * Result A) : M A :=
  match h with Auto => stmt f | InTx => twrite f end.

Definition query {A} (h : Handle) (f : Event → DB → Result A) : M A :=
  match h with Auto => stmt (λ ev d, (d, f ev d)) | InTx => tread (λ _, []) f end.

(** [SELECT ... FOR UPDATE] of one row. *)
Definition lock {A} (h : Handle) (l : Lock) (f : Event → DB → Result (option A)) : M (option A) :=
  match h with
  | Auto => stmt (λ ev d, (d, f ev d))
  | InTx => tread (λ row, match row with Some _ => [l] | None => [] end) f
  end.


(** The committed database under the session's view. *)
Definition settled (w : World) : DB := if w_dirty w then w_base w else w_db w.

(** The transaction is over and its locks are released. *)
Definition closed (d : DB) (w : World) : World := { w with w_db := d; w_dirty := false; w_locks := [] }.

(** [TransactionRunner]: begin, run the callback, roll back on its error, else
    commit; only a nil error confirms the commit. *)
Definition transact {A} (body : M A) : M A := λ w,
  let ev := w_env w (w_at w) in
  let d0 := ev_others ev [] (w_db w) in
  let w0 := closed d0 { w with w_at := S (w_at w) } in
  match ev_fault ev with
  | Some (_, e) => (w0, Fail e)
  | None =>
      let '(w1, r) := body w0 in
      match r with
      | Fail e => (closed (settled w1) w1, Fail e)
      | Ok a =>
          let ev1 := w_env w1 (w_at w1) in
          let w2 := { w1 with w_at := S (w_at w1) } in
          let done := commit (w_locks w1) (settled w1) (w_db w1) (closed (w_db w1) w2) in
          match ev_fault ev1 with
          | None => (done, Ok a)
          | Some (true, e) => (done, Fail e)
          | Some (false, e) => (closed (settled w1) w2, Fail e)
          end
      end
  end.

(** [math/rand/v2.Int64N]. *)
Definition Int64N (n : Z) : M Z := e ← pop; mret (ev_random e mod n).

(** [time.Now()]. *)
Definition Now : M Time := e ← pop; mret (ev_clock e).

End sessions.
Arguments Event : clear implicits.
Arguments Commit : clear implicits.
Arguments World : clear implicits.
Arguments M : clear implicits.
#[global] Arguments exec : simpl never.
#[global] Arguments query : simpl never.
#[global] Arguments lock : simpl never.
