(* ===== verification/Model.v ===== *)
(** * Persistent data of the Job domain

    The GORM models of apps/job/internal/model and pkg/model: enumerations with
    their column codes, table rows, the JSONB execution snapshot, and the four
    [job_*] tables of one PostgreSQL database.  The last part is the statements and
    locks of repository/transaction.go over these tables. *)

From S2P Require Import Prelude GoLib.
From coqutil Require Export Datatypes.RecordSettersUsingExistingGetters.
From S2P Require Import Tx.

Open Scope Z_scope.

(** Updated fields simplify to their new value. *)
#[global] Arguments RecordSettersUsingExistingGetters.const {_} _ _ /.

Open Scope Z_scope.

(** ** Enumerations

    Every Go enumeration is an int16 stored in a SMALLINT column without a check
    constraint.  A code the source gives no name is kept by the last constructor,
    so that the [default] branches of the source stay reachable. *)

Inductive RecordStatus := RecordStatusDisabled | RecordStatusEnabled | RecordStatusCode (code : Z).

Inductive ExecutionMode := ExecutionModeNormal | ExecutionModeSharded | ExecutionModeCode (code : Z).
Inductive MisfirePolicy := MisfireIgnore | MisfireOnce | MisfirePolicyCode (code : Z).
Inductive BlockPolicy := BlockDiscard | BlockParallel | BlockPolicyCode (code : Z).

Inductive TriggerType := TriggerScheduled | TriggerMisfire | TriggerManual | TriggerTypeCode (code : Z).
Inductive InstanceStatus :=
| InstanceWaiting | InstanceRunning | InstanceSucceeded | InstanceFailed | InstanceCanceled
| InstanceStopping | InstanceStatusCode (code : Z).

Inductive TaskType :=
| TaskTypeOrdinary | TaskTypePrepare | TaskTypeShard | TaskTypePost | TaskTypeCode (code : Z).
Inductive TaskStatus :=
| TaskWaiting | TaskRunning | TaskRetryWaiting | TaskSucceeded | TaskFailed | TaskCanceled
| TaskStatusCode (code : Z).

#[global] Instance RecordStatus_eq_dec : EqDecision RecordStatus.
Proof. solve_decision. Defined.
#[global] Instance ExecutionMode_eq_dec : EqDecision ExecutionMode.
Proof. solve_decision. Defined.
#[global] Instance MisfirePolicy_eq_dec : EqDecision MisfirePolicy.
Proof. solve_decision. Defined.
#[global] Instance BlockPolicy_eq_dec : EqDecision BlockPolicy.
Proof. solve_decision. Defined.
#[global] Instance TriggerType_eq_dec : EqDecision TriggerType.
Proof. solve_decision. Defined.
#[global] Instance InstanceStatus_eq_dec : EqDecision InstanceStatus.
Proof. solve_decision. Defined.
#[global] Instance TaskType_eq_dec : EqDecision TaskType.
Proof. solve_decision. Defined.
#[global] Instance TaskStatus_eq_dec : EqDecision TaskStatus.
Proof. solve_decision. Defined.

(** The JSON and SQL code of an execution mode, and back. *)
Definition ExecutionMode_code (m : ExecutionMode) : Z :=
  match m with ExecutionModeNormal => 1 | ExecutionModeSharded => 2 | ExecutionModeCode c => c end.
Definition ExecutionMode_of (c : Z) : ExecutionMode :=
  if c =? 1 then ExecutionModeNormal else if c =? 2 then ExecutionModeSharded else ExecutionModeCode c.

(** Stable end reasons. *)
Definition EndReasonSuccess : string := "success".
Definition EndReasonExecutionFailed : string := "execution_failed".
Definition EndReasonDispatchRejected : string := "dispatch_rejected".
Definition EndReasonResultUnknown : string := "result_unknown".
Definition EndReasonManualStop : string := "manual_stop".
Definition EndReasonInstanceTimeout : string := "instance_timeout".

(** SQL predicates the queries spell with literal codes. *)
Definition unfinished (s : TaskStatus) : bool := (* status IN (1, 2, 3) *)
  match s with TaskWaiting | TaskRunning | TaskRetryWaiting => true | _ => false end.
Definition active (s : InstanceStatus) : bool := (* status IN (1, 2, 6) *)
  match s with InstanceWaiting | InstanceRunning | InstanceStopping => true | _ => false end.
Definition terminal_status (s : InstanceStatus) : bool :=
  match s with InstanceSucceeded | InstanceFailed | InstanceCanceled => true | _ => false end.

(** ** UUIDs

    github.com/google/uuid is not part of the repository: a UUID is a 128-bit
    number and its accessors are parameters. *)
Class UuidLib := {
  Version : Z → Z;
  VariantRFC4122 : Z → bool;
  ParseUUID : string → option Z;
  StringUUID : Z → string;
}.

(** ** The execution snapshot *)

Record ExecutionConfig := {
  SchemaVersion : Z;
  ProcessorName : string;
  Mode : ExecutionMode;
  PostEnabled : bool;
  Params : string;
  MaxRetries : Z;
  RetryIntervalSeconds : Z;
  TimeoutSeconds : Z;
}.

#[global] Instance ExecutionConfig_eq_dec : EqDecision ExecutionConfig.
Proof. solve_decision. Defined.

(** [ExecutionConfig.Value]: every member is serialized. *)
Definition Value (c : ExecutionConfig) : json :=
  JObject [("schema_version", JInt (SchemaVersion c)); ("processor_name", JString (ProcessorName c));
    ("execution_mode", JInt (ExecutionMode_code (Mode c))); ("post_enabled", JBool (PostEnabled c));
    ("params", JString (Params c)); ("max_retries", JInt (MaxRetries c));
    ("retry_interval_seconds", JInt (RetryIntervalSeconds c)); ("timeout_seconds", JInt (TimeoutSeconds c))]%string.

Definition empty_config : ExecutionConfig :=
  {| SchemaVersion := 0; ProcessorName := ""; Mode := ExecutionModeCode 0; PostEnabled := false;
     Params := ""; MaxRetries := 0; RetryIntervalSeconds := 0; TimeoutSeconds := 0 |}.

(** [ExecutionConfig.Scan]: [json.Unmarshal] into a zero snapshot. *)
Definition Scan (data : json) : option ExecutionConfig :=
  l ← members data;
  sv ← decode_with as_int32 0 (jget "schema_version" l);
  pn ← decode_with as_string "" (jget "processor_name" l);
  em ← decode_with as_int16 0 (jget "execution_mode" l);
  pe ← decode_with as_bool false (jget "post_enabled" l);
  pa ← decode_with as_string "" (jget "params" l);
  mr ← decode_with as_int32 0 (jget "max_retries" l);
  ri ← decode_with as_int32 0 (jget "retry_interval_seconds" l);
  ts ← decode_with as_int32 0 (jget "timeout_seconds" l);
  Some {| SchemaVersion := sv; ProcessorName := pn; Mode := ExecutionMode_of em; PostEnabled := pe;
          Params := pa; MaxRetries := mr; RetryIntervalSeconds := ri; TimeoutSeconds := ts |}.

(** ** Rows

    The primary key of a row is its key in the table. *)

Record ExecutorGroup := {
  g_name : string; g_discovery_key : string; g_token : string;
  g_created_at : Time; g_updated_at : Time; g_deleted_at : option Time;
}.

Record JobDefinition := {
  j_name : string; j_remark : string; j_executor_group_id : Z; j_processor_name : string;
  j_execution_mode : ExecutionMode; j_post_enabled : bool; j_params : string; j_cron_expr : string;
  j_status : RecordStatus; j_misfire_policy : MisfirePolicy; j_block_policy : BlockPolicy;
  j_max_retries : Z; j_retry_interval_seconds : Z; j_timeout_seconds : Z;
  j_next_trigger_at : option Time;
  j_created_at : Time; j_updated_at : Time; j_deleted_at : option Time;
}.

Record JobInstance := {
  i_job_id : Z; i_job_name : string; i_executor_group_id : Z; i_trigger_type : TriggerType;
  i_scheduled_at : option Time; i_request_id : option Z; i_params_overridden : bool;
  i_triggered_by : option Z; i_execution_config : json; i_status : InstanceStatus;
  i_started_at : option Time; i_deadline_at : option Time; i_finished_at : option Time;
  i_end_reason : option string; i_result_summary : option string;
  i_created_at : Time; i_updated_at : Time;
}.

Record JobTask := {
  t_instance_id : Z; t_task_type : TaskType; t_status : TaskStatus;
  t_attempt_no : Z; t_used_attempts : Z;
  t_attempt_registered_at : option Time; t_next_dispatch_at : option Time;
  t_executor_instance_id : option Z; t_executor_address : option string;
  t_result_data : option string; t_result_summary : option string; t_end_reason : option string;
  t_started_at : option Time; t_finished_at : option Time;
  t_created_at : Time; t_updated_at : Time;
}.

(** ** The database: the four tables and their identity sequences *)
Record DB := {
  groups : gmap Z ExecutorGroup;
  jobs : gmap Z JobDefinition;
  instances : gmap Z JobInstance;
  tasks : gmap Z JobTask;
  next_group : Z; next_job : Z; next_instance : Z; next_task : Z;
}.

Definition empty_db : DB :=
  {| groups := ∅; jobs := ∅; instances := ∅; tasks := ∅;
     next_group := 1; next_job := 1; next_instance := 1; next_task := 1 |}.

Definition set_task (id : Z) (t : JobTask) (d : DB) : DB := { d with tasks := <[id := t]> (tasks d) }.
Definition set_instance (id : Z) (i : JobInstance) (d : DB) : DB :=
  { d with instances := <[id := i]> (instances d) }.
Definition set_job (id : Z) (j : JobDefinition) (d : DB) : DB := { d with jobs := <[id := j]> (jobs d) }.
Definition set_group (id : Z) (g : ExecutorGroup) (d : DB) : DB := { d with groups := <[id := g]> (groups d) }.

(** * Database sessions of the Job domain

    The sessions of Tx.v over the Job tables; [transact] is [NewTransactionRunner]
    (apps/job/internal/repository/transaction.go). *)

(** A row held by [SELECT ... FOR UPDATE] until the transaction ends. *)
Inductive Lock := InstanceRow (id : Z) | JobRow (id : Z) | GroupRow (id : Z).

#[global] Instance Lock_eq_dec : EqDecision Lock.
Proof. solve_decision. Defined.

(** Messages handed to other components: local hints, executor RPCs, stop
    notifications, requests to resume database cancellation, and the notification
    of other nodes that Job definitions changed. *)
Inductive Output :=
| Hinted (instanceID : Z)
| Sent (taskID instanceID attemptNo : Z)
| StopPublished (instanceID groupID : Z)
| StopResumed (instanceID : Z)
| JobsChanged.

#[global] Instance Output_eq_dec : EqDecision Output.
Proof. solve_decision. Defined.

Abbreviation Event := (Tx.Event DB Lock).
Abbreviation Commit := (Tx.Commit DB Lock Output).
Abbreviation World := (Tx.World DB Lock Output).
Abbreviation M := (Tx.M DB Lock Output).

(** ** PostgreSQL

    What the statements rely on beyond SQL itself: the rounding of an interval
    multiplication to the timestamp precision, whether a text is representable
    as JSONB (the SQLSTATE otherwise), the collation of address columns, the text
    of a non-string JSON value, and case folding of [ILIKE]. *)
Class PgLib := {
  interval_of_seconds : Duration → Duration;
  jsonb_error : string → option string;
  collation_le : string → string → bool;
  json_text : json → string;
  fold_case : Z → Z;
}.

(** A value of a TEXT or VARCHAR column: valid UTF-8 without NUL bytes. *)
Definition pg_text (s : string) : bool := ValidString s && negb (ContainsNul s).
Definition invalid_text {A} : Result A := Fail [PgError "22021" ""].
