(* ===== verification/TaskRepo.v ===== *)
(** * The Task repository

    apps/job/internal/repository/job_task_repository.go: input records, the
    conditional updates that close or register execution attempts, and the
    bounded candidate queries.  Each SQL statement is one [exec] or [query]. *)

From S2P Require Import Prelude GoLib Tx Model.

Open Scope Z_scope.

(** ** Inputs and projections *)

Record ExecutorBinding := {
  eb_TaskID : Z; eb_InstanceID : Z; eb_AttemptNo : Z;
  eb_ExecutorInstanceID : Z; eb_ExecutorAddress : string;
}.

Record DispatchBusyWrite := {
  bw_TaskID : Z; bw_InstanceID : Z; bw_AttemptNo : Z; bw_Delay : Duration;
}.

Record DispatchRejectionWrite := {
  rj_TaskID : Z; rj_InstanceID : Z; rj_AttemptNo : Z;
  rj_MaxRetries : Z; rj_RetryIntervalSeconds : Z; rj_Summary : string;
}.

Record TaskResultTarget := {
  rt_TaskID : Z; rt_InstanceID : Z; rt_JobID : Z; rt_ExecutorGroupID : Z; rt_AttemptNo : Z;
  rt_TaskType : TaskType; rt_Status : TaskStatus; rt_UsedAttempts : Z;
  rt_ExecutorInstanceID : option Z; rt_ExecutionConfig : json;
}.

Record TaskResultWrite := {
  rw_TaskID : Z; rw_InstanceID : Z; rw_AttemptNo : Z; rw_ExecutorInstanceID : Z;
  rw_Status : TaskStatus; rw_Data : option string; rw_Summary : string; rw_RetryIntervalSeconds : Z;
}.

Record UnboundCandidate := {
  uc_TaskID : Z; uc_InstanceID : Z; uc_AttemptNo : Z; uc_AttemptRegisteredAt : Time;
}.

Record UnboundCursor := { ucur_AttemptRegisteredAt : Time; ucur_TaskID : Z }.

Record UnboundTarget := {
  ut_TaskID : Z; ut_InstanceID : Z; ut_AttemptNo : Z; ut_TaskType : TaskType; ut_Status : TaskStatus;
  ut_ExecutorInstanceID : option Z; ut_ExecutorAddress : option string;
  ut_AttemptRegisteredAt : option Time; ut_InstanceStatus : InstanceStatus;
  ut_StartedAt : option Time; ut_DeadlineAt : option Time; ut_ExecutionConfig : json;
}.

Record UnknownSettlement := {
  us_TaskID : Z; us_InstanceID : Z; us_ExpectedAttemptNo : Z; us_MaxAttempts : Z;
  us_ProcessedAt : Time; us_ObservationCutoff : Time; us_RetryAt : Time;
}.

Record SettledTask := {
  st_TaskID : Z; st_InstanceID : Z; st_AttemptNo : Z; st_Status : TaskStatus;
}.

Record TaskCancellation := {
  tc_InstanceID : Z; tc_TaskIDs : list Z; tc_Reason : string; tc_Summary : string; tc_ProcessedAt : Time;
}.

Definition unknownResultSummary : string :=
  "execution result is unknown; executor binding and result were not recorded".

Record RetryCandidate := {
  rc_TaskID : Z; rc_InstanceID : Z; rc_AttemptNo : Z; rc_NextDispatchAt : Time;
}.

Record RetryCursor := { rcur_NextDispatchAt : Time; rcur_TaskID : Z }.

Record RetryRegistration := {
  rr_TaskID : Z; rr_InstanceID : Z; rr_ExpectedAttemptNo : Z; rr_MaxAttempts : Z; rr_RegisteredAt : Time;
}.

Record RegisteredTask := {
  rg_TaskID : Z; rg_InstanceID : Z; rg_AttemptNo : Z; rg_UsedAttempts : Z; rg_RegisteredAt : Time;
}.

Definition ErrInvalidDispatchWrite : Cause := Sentinel "invalid dispatch response write".
Definition ErrDispatchWriteRejected : Cause := Sentinel "dispatch response write rejected".

(** [UPDATE job_task SET ... WHERE id = ? AND ...]: at most one row matches. *)
Definition update_task (id : Z) (P : JobTask → bool) (upd : JobTask → JobTask) (d : DB) : DB * Z :=
  match tasks d !! id with
  | Some t => if P t then (set_task id (upd t) d, 1) else (d, 0)
  | None => (d, 0)
  end.

Section repository.
Context `{UuidLib, PgLib}.

(** [dispatchWriteError] *)
Definition dispatchWriteError (e : Error) : Error :=
  match pg_code e with
  | Some (code, _) =>
      if (String.length code =? 5)%nat &&
         bool_decide (String.substring 0 2 code ∈ ["22"; "23"; "42"]%string)
      then ErrDispatchWriteRejected :: e else e
  | None => e
  end.

(** Wrap the driver error of a dispatch-response statement. *)
Definition dispatch_write {A} (m : M A) : M A :=
  r ← attempt m;
  match r with Ok a => mret a | Fail e => fail (dispatchWriteError e) end.

Definition validExecutorAddress (address : string) : bool :=
  if negb (ValidString address) || (255 <? RuneCountInString address) ||
     existsb (λ r, match r.1 with Some c => IsSpace c || IsControl c | None => false end) (runes (bytes address))
  then false
  else match SplitHostPort (bytes address) with
  | None => false
  | Some (host, port) =>
      if bool_decide (host = []) || existsb (λ b, has b (bytes "/\?#@")) host ||
         negb (bool_decide (JoinHostPort host port = bytes address))
      then false
      else
        let ip_ok :=
          if has colon host then
            let '(ip, zone) := match cut 37 host with Some (a, b) => (a, b) | None => (host, []) end in
            ParseIP ip && negb (has 37 host && bool_decide (zone = []))
          else true in
        if negb ip_ok then false
        else if negb (forallb is_digit port) then false
        else match ParsePort port with Some number => 0 <? number | None => false end
  end.

Definition valid_executor_uuid (u : Z) : bool := (Version u =? 4) && VariantRFC4122 u.

(** ** Queries and updates, in the order of the file *)

(** The recursive query seeks the next distinct address [limit] times, in the
    column's collation order. *)
Definition address_le (a b : string) : Prop := collation_le a b = true.
#[global] Instance address_le_dec : RelDecision address_le.
Proof. intros ??. unfold address_le. apply _. Defined.

Definition addresses_after (after : string) (instanceID : Z) (d : DB) : list string :=
  merge_sort address_le (remove_dups (omap (λ r : Z * JobTask,
    if t_instance_id r.2 =? instanceID then
      match t_executor_address r.2 with
      | Some a => if negb (collation_le a after) then Some a else None
      | None => None
      end
    else None) (rows (tasks d)))).

Definition ListCancelTargets (h : Handle) (instanceID : Z) (after : string) (limit : Z) : M (list string) :=
  if (instanceID <=? 0) || (limit <? 1) || (32 <? limit) || negb (ValidString after) ||
     (255 <? RuneCountInString after)
  then fail [Text "invalid cancellation target query"]
  else query h (λ _ d, if negb (pg_text after) then invalid_text
                       else Ok (take (Z.to_nat limit) (addresses_after after instanceID d))).

Definition ListUnfinishedIDs (h : Handle) (instanceID limit : Z) : M (list Z) :=
  if (instanceID <=? 0) || (limit <=? 0) then fail [Text "invalid unfinished task query"]
  else if negb (inTransaction h) then fail [Text "unfinished task query requires an explicit parent transaction"]
  else query h (λ _ d, Ok (take (Z.to_nat limit)
         (ids_where (λ _ t, (t_instance_id t =? instanceID) && unfinished (t_status t)) (tasks d)))).

Definition cancel_row (write : TaskCancellation) (t : JobTask) : JobTask :=
  { t with t_status := TaskCanceled; t_next_dispatch_at := None;
           t_finished_at := Some (tc_ProcessedAt write); t_end_reason := Some (tc_Reason write);
           t_result_data := None; t_result_summary := Some (tc_Summary write);
           t_updated_at := tc_ProcessedAt write }.

(** [WHERE id IN ?]: each listed row is considered once. *)
Fixpoint cancel_rows (write : TaskCancellation) (ids : list Z) (d : DB) : DB * Z :=
  match ids with
  | [] => (d, 0)
  | id :: rest =>
      let '(d1, n1) := update_task id (λ t, (t_instance_id t =? tc_InstanceID write) && unfinished (t_status t))
                         (cancel_row write) d in
      let '(d2, n2) := cancel_rows write rest d1 in (d2, n1 + n2)
  end.

Definition CancelUnfinished (h : Handle) (write : TaskCancellation) : M Z :=
  if (tc_InstanceID write <=? 0) || bool_decide (tc_TaskIDs write = []) || is_zero (tc_ProcessedAt write) ||
     negb (bool_decide (tc_Reason write = EndReasonManualStop) || bool_decide (tc_Reason write = EndReasonInstanceTimeout))
  then fail [Text "invalid task cancellation"]
  else if existsb (λ id, id <=? 0) (tc_TaskIDs write) then fail [Text "canceled task IDs must be positive"]
  else if negb (inTransaction h) then fail [Text "task cancellation requires an explicit parent transaction"]
  else exec h (λ _ d,
    if negb (pg_text (tc_Summary write)) then (d, invalid_text)
    else let '(d', n) := cancel_rows write (tc_TaskIDs write) d in (d', Ok n)).

(** Parents eligible for settlement: running, with a valid and unexpired deadline. *)
Definition unbound_parent (scanNow : Time) (i : JobInstance) : bool :=
  bool_decide (i_status i = InstanceRunning) &&
  match i_started_at i, i_deadline_at i with
  | Some s, Some dl => (s <? dl) && (scanNow <? dl)
  | _, _ => false
  end.

Definition unbound_candidate (d : DB) (scanNow cutoff : Time) (r : Z * JobTask) : option UnboundCandidate :=
  let '(id, t) := r in
  match t_attempt_registered_at t, instances d !! t_instance_id t with
  | Some at_, Some i =>
      if bool_decide (t_status t = TaskRunning) && bool_decide (t_executor_instance_id t = None) &&
         bool_decide (t_executor_address t = None) && (at_ <=? cutoff) && unbound_parent scanNow i
      then Some {| uc_TaskID := id; uc_InstanceID := t_instance_id t; uc_AttemptNo := t_attempt_no t;
                   uc_AttemptRegisteredAt := at_ |}
      else None
  | _, _ => None
  end.

Definition uc_key (c : UnboundCandidate) : Z * Z := (uc_AttemptRegisteredAt c, uc_TaskID c).
Definition ucur_key (c : UnboundCursor) : Z * Z := (ucur_AttemptRegisteredAt c, ucur_TaskID c).

Definition unbound_candidates (d : DB) (scanNow cutoff : Time) : list UnboundCandidate :=
  order_by uc_key (omap (unbound_candidate d scanNow cutoff) (rows (tasks d))).

Definition ListUnboundCandidates (h : Handle) (scanNow cutoff : Time) (cursor : option UnboundCursor)
    (limit : Z) : M (list UnboundCandidate) :=
  if is_zero scanNow || is_zero cutoff || negb (before cutoff scanNow) || (limit <? 1) ||
     match cursor with
     | Some c => (ucur_TaskID c <=? 0) || is_zero (ucur_AttemptRegisteredAt c) ||
                 is_after (ucur_AttemptRegisteredAt c) cutoff
     | None => false
     end
  then fail [Text "invalid unbound candidate query"]
  else query h (λ _ d, Ok (take (Z.to_nat limit)
         (filter (λ c, after_key (ucur_key <$> cursor) (uc_key c))
            (unbound_candidates d scanNow cutoff)))).

Definition project_member (l : list (string * json)) (k : string) : string * json :=
  (k, match jget k l with Some v => v | None => JNull end).
Definition project_config (j : json) : json :=
  match j with
  | JObject l => JObject (project_member l <$>
      ["schema_version"; "execution_mode"; "max_retries"; "retry_interval_seconds"]%string)
  | _ => JNull
  end.

Definition unbound_target (d : DB) (r : Z * JobTask) : option UnboundTarget :=
  let '(id, t) := r in
  match instances d !! t_instance_id t with
  | Some i =>
      Some {| ut_TaskID := id; ut_InstanceID := t_instance_id t; ut_AttemptNo := t_attempt_no t;
              ut_TaskType := t_task_type t; ut_Status := t_status t;
              ut_ExecutorInstanceID := t_executor_instance_id t; ut_ExecutorAddress := t_executor_address t;
              ut_AttemptRegisteredAt := t_attempt_registered_at t; ut_InstanceStatus := i_status i;
              ut_StartedAt := i_started_at i; ut_DeadlineAt := i_deadline_at i;
              ut_ExecutionConfig := project_config (i_execution_config i) |}
  | None => None
  end.

Definition FindUnboundTargets (h : Handle) (taskIDs : list Z) : M (list UnboundTarget) :=
  if 16 <? Z.of_nat (length taskIDs) then fail [Text "unbound target batch exceeds 16 tasks"]
  else if existsb (λ id, id <=? 0) taskIDs then fail [Text "unbound target task IDs must be positive"]
  else if bool_decide (taskIDs = []) then mret []
  else query h (λ _ d, Ok (omap (unbound_target d) (filter (λ r, r.1 ∈ taskIDs) (rows (tasks d))))).

Definition settle_row (write : UnknownSettlement) (t : JobTask) : JobTask :=
  let again := t_used_attempts t <? us_MaxAttempts write in
  { t with t_status := if again then TaskRetryWaiting else TaskFailed;
           t_next_dispatch_at := if again then Some (us_RetryAt write) else None;
           t_finished_at := if again then None else Some (us_ProcessedAt write);
           t_end_reason := if again then None else Some EndReasonResultUnknown;
           t_result_data := None; t_result_summary := Some unknownResultSummary;
           t_updated_at := us_ProcessedAt write }.

Definition SettleOrdinaryUnknown (h : Handle) (write : UnknownSettlement) : M (option SettledTask) :=
  if (us_TaskID write <=? 0) || (us_InstanceID write <=? 0) || (us_ExpectedAttemptNo write <=? 0) ||
     (us_MaxAttempts write <=? 0) || is_zero (us_ProcessedAt write) || is_zero (us_ObservationCutoff write) ||
     is_zero (us_RetryAt write) || negb (before (us_ObservationCutoff write) (us_ProcessedAt write)) ||
     negb (is_after (us_RetryAt write) (us_ProcessedAt write))
  then fail [Text "invalid ordinary unknown-result settlement"]
  else if inTransaction h then
    fail [Text "unknown-result settlement requires an independently committing database handle"]
  else transact (
    let id := us_TaskID write in
    row ← exec InTx (λ _ d,
      let '(d', n) := update_task id (λ t,
        (t_instance_id t =? us_InstanceID write) && bool_decide (t_task_type t = TaskTypeOrdinary) &&
        (t_attempt_no t =? us_ExpectedAttemptNo write) && bool_decide (t_status t = TaskRunning) &&
        bool_decide (t_executor_instance_id t = None) && bool_decide (t_executor_address t = None) &&
        match t_attempt_registered_at t with Some at_ => at_ <=? us_ObservationCutoff write | None => false end)
        (settle_row write) d in
      (d', Ok (if n =? 1 then tasks d' !! id else None)));
    match row with
    | None => mret None
    | Some t =>
        if negb (t_instance_id t =? us_InstanceID write) || negb (t_attempt_no t =? us_ExpectedAttemptNo write) ||
           negb (bool_decide (t_status t = TaskRetryWaiting) || bool_decide (t_status t = TaskFailed))
        then fail [Text "unknown-result settlement returned invalid facts"]
        else mret (Some {| st_TaskID := id; st_InstanceID := t_instance_id t; st_AttemptNo := t_attempt_no t;
                           st_Status := t_status t |})
    end).

Definition retry_candidate (d : DB) (scanNow : Time) (r : Z * JobTask) : option RetryCandidate :=
  let '(id, t) := r in
  match t_next_dispatch_at t, instances d !! t_instance_id t with
  | Some at_, Some i =>
      if bool_decide (t_status t = TaskRetryWaiting) && (at_ <=? scanNow) &&
         bool_decide (i_status i = InstanceRunning) &&
         match i_deadline_at i with Some dl => scanNow <? dl | None => false end
      then Some {| rc_TaskID := id; rc_InstanceID := t_instance_id t; rc_AttemptNo := t_attempt_no t;
                   rc_NextDispatchAt := at_ |}
      else None
  | _, _ => None
  end.

Definition rc_key (c : RetryCandidate) : Z * Z := (rc_NextDispatchAt c, rc_TaskID c).
Definition rcur_key (c : RetryCursor) : Z * Z := (rcur_NextDispatchAt c, rcur_TaskID c).

Definition retry_candidates (d : DB) (scanNow : Time) : list RetryCandidate :=
  order_by rc_key (omap (retry_candidate d scanNow) (rows (tasks d))).

Definition ListRetryCandidates (h : Handle) (scanNow : Time) (cursor : option RetryCursor) (limit : Z)
    : M (list RetryCandidate) :=
  if is_zero scanNow || (limit <? 1) || (128 <? limit) ||
     match cursor with
     | Some c => (rcur_TaskID c <=? 0) || is_zero (rcur_NextDispatchAt c) || is_after (rcur_NextDispatchAt c) scanNow
     | None => false
     end
  then fail [Text "invalid retry candidate query"]
  else query h (λ _ d, Ok (take (Z.to_nat limit)
         (filter (λ c, after_key (rcur_key <$> cursor) (rc_key c))
            (retry_candidates d scanNow)))).

Definition register_row (write : RetryRegistration) (t : JobTask) : JobTask :=
  { t with t_status := TaskRunning; t_attempt_no := t_attempt_no t + 1;
           t_used_attempts := t_used_attempts t + 1;
           t_attempt_registered_at := Some (rr_RegisteredAt write); t_next_dispatch_at := None;
           t_executor_instance_id := None; t_executor_address := None; t_result_data := None;
           t_finished_at := None; t_end_reason := None; t_updated_at := rr_RegisteredAt write }.

Definition register_guard (write : RetryRegistration) (t : JobTask) : bool :=
  (t_instance_id t =? rr_InstanceID write) && bool_decide (t_task_type t = TaskTypeOrdinary) &&
  bool_decide (t_status t = TaskRetryWaiting) && (t_attempt_no t =? rr_ExpectedAttemptNo write) &&
  match t_next_dispatch_at t with Some at_ => at_ <=? rr_RegisteredAt write | None => false end &&
  (t_used_attempts t <? rr_MaxAttempts write).

(** The increments are computed at the column widths, BIGINT and INTEGER:
    PostgreSQL reports numeric_value_out_of_range instead of wrapping. *)
Definition RegisterOrdinaryRetry (h : Handle) (write : RetryRegistration) : M (option RegisteredTask) :=
  if (rr_TaskID write <=? 0) || (rr_InstanceID write <=? 0) || (rr_ExpectedAttemptNo write <=? 0) ||
     (rr_MaxAttempts write <=? 0) || is_zero (rr_RegisteredAt write)
  then fail [Text "invalid ordinary retry registration"]
  else if negb (inTransaction h) then fail [Text "ordinary retry registration requires an explicit transaction"]
  else
    let id := rr_TaskID write in
    row ← exec h (λ _ d,
      match tasks d !! id with
      | Some t =>
          if register_guard write t then
            if in_int64 (t_attempt_no t + 1) && in_int32 (t_used_attempts t + 1)
            then (set_task id (register_row write t) d, Ok (Some (register_row write t)))
            else (d, Fail [PgError "22003" ""])
          else (d, Ok None)
      | None => (d, Ok None)
      end);
    match row with
    | None => mret None
    | Some t =>
        match t_attempt_registered_at t with
        | None => fail [Text "ordinary retry registration returned invalid facts"]
        | Some at_ => mret (Some {| rg_TaskID := id; rg_InstanceID := t_instance_id t;
                                    rg_AttemptNo := t_attempt_no t; rg_UsedAttempts := t_used_attempts t;
                                    rg_RegisteredAt := at_ |})
        end
    end.

(** The management projection omits result_data, which [None] stands for. *)
Definition TaskSummary (t : JobTask) : JobTask := { t with t_result_data := None }.

Definition ListByInstance (h : Handle) (instanceID page pageSize : Z) : M (list (Z * JobTask) * Z) :=
  if (instanceID <=? 0) || (page <? 1) || (pageSize <? 1) || (200 <? pageSize) ||
     (MaxInt64 / pageSize <? page - 1)
  then fail [Text "invalid task list pagination"]
  else
    let matching d := filter (λ r : Z * JobTask, t_instance_id r.2 = instanceID) (rows (tasks d)) in
    total ← query h (λ _ d, Ok (Z.of_nat (length (matching d))));
    items ← query h (λ _ d, Ok ((λ r, (r.1, TaskSummary r.2)) <$>
      take (Z.to_nat pageSize) (drop (Z.to_nat ((page - 1) * pageSize)) (matching d))));
    mret (items, total).

Definition ordinary_row (instanceID : Z) (startedAt : Time) : JobTask :=
  {| t_instance_id := instanceID; t_task_type := TaskTypeOrdinary; t_status := TaskRunning;
     t_attempt_no := 1; t_used_attempts := 1; t_attempt_registered_at := Some startedAt;
     t_next_dispatch_at := None; t_executor_instance_id := None; t_executor_address := None;
     t_result_data := None; t_result_summary := None; t_end_reason := None;
     t_started_at := Some startedAt; t_finished_at := None;
     t_created_at := startedAt; t_updated_at := startedAt |}.

(** uq_job_task_singleton: one ordinary, prepare or post Task per Instance. *)
Definition singleton_conflict (d : DB) (instanceID : Z) (ty : TaskType) : bool :=
  existsb (λ r : Z * JobTask, (t_instance_id r.2 =? instanceID) && bool_decide (t_task_type r.2 = ty)) (rows (tasks d)).

Definition InsertOrdinary (h : Handle) (instanceID : Z) (startedAt : Time) : M Z :=
  if (instanceID <=? 0) || is_zero startedAt then fail [Text "invalid ordinary task start"]
  else exec h (λ _ d,
    if singleton_conflict d instanceID TaskTypeOrdinary then (d, Fail [PgError "23505" "uq_job_task_singleton"])
    else ({ set_task (next_task d) (ordinary_row instanceID startedAt) d with next_task := next_task d + 1 },
          Ok (next_task d))).

Definition attempt_matches (instanceID attemptNo : Z) (t : JobTask) : bool :=
  (t_instance_id t =? instanceID) && (t_attempt_no t =? attemptNo) && bool_decide (t_status t = TaskRunning).
Definition unbound (t : JobTask) : bool :=
  bool_decide (t_executor_instance_id t = None) && bool_decide (t_executor_address t = None).

Definition bind_row (binding : ExecutorBinding) (now : Time) (t : JobTask) : JobTask :=
  { t with t_executor_instance_id := Some (eb_ExecutorInstanceID binding);
           t_executor_address := Some (eb_ExecutorAddress binding); t_updated_at := now }.

Definition BindExecutor (h : Handle) (binding : ExecutorBinding) : M bool :=
  if (eb_TaskID binding <=? 0) || (eb_InstanceID binding <=? 0) || (eb_AttemptNo binding <=? 0) ||
     negb (valid_executor_uuid (eb_ExecutorInstanceID binding)) ||
     negb (validExecutorAddress (eb_ExecutorAddress binding))
  then fail [ErrInvalidDispatchWrite]
  else dispatch_write (exec h (λ ev d,
    let '(d', n) := update_task (eb_TaskID binding)
      (λ t, attempt_matches (eb_InstanceID binding) (eb_AttemptNo binding) t && unbound t)
      (bind_row binding (ev_clock ev)) d in
    (d', Ok (n =? 1)))).

Definition busySummary : string := "executor is busy; task was not accepted".

(** An unbound running ordinary attempt that occupies an opportunity. *)
Definition response_guard (instanceID attemptNo : Z) (t : JobTask) : bool :=
  attempt_matches instanceID attemptNo t && bool_decide (t_task_type t = TaskTypeOrdinary) &&
  (0 <? t_used_attempts t) && unbound t.

Definition busy_row (write : DispatchBusyWrite) (now : Time) (t : JobTask) : JobTask :=
  { t with t_status := TaskRetryWaiting; t_used_attempts := t_used_attempts t - 1;
           t_next_dispatch_at := Some (now + interval_of_seconds (bw_Delay write));
           t_result_data := None; t_result_summary := Some busySummary;
           t_finished_at := None; t_end_reason := None; t_updated_at := now }.

Definition SaveDispatchBusy (h : Handle) (write : DispatchBusyWrite) : M bool :=
  if (bw_TaskID write <=? 0) || (bw_InstanceID write <=? 0) || (bw_AttemptNo write <=? 0) || (bw_Delay write <=? 0)
  then fail [ErrInvalidDispatchWrite]
  else if inTransaction h then fail [ErrInvalidDispatchWrite]
  else dispatch_write (exec h (λ ev d,
    let '(d', n) := update_task (bw_TaskID write) (response_guard (bw_InstanceID write) (bw_AttemptNo write))
      (busy_row write (ev_clock ev)) d in
    (d', Ok (n =? 1)))).

Definition reject_row (write : DispatchRejectionWrite) (now : Time) (t : JobTask) : JobTask :=
  let totalAttempts := rj_MaxRetries write + 1 in
  let again := t_used_attempts t <? totalAttempts in
  { t with t_status := if again then TaskRetryWaiting else TaskFailed;
           t_next_dispatch_at := if again then Some (now + rj_RetryIntervalSeconds write * Second) else None;
           t_finished_at := if again then None else Some now;
           t_end_reason := if again then None else Some EndReasonDispatchRejected;
           t_result_data := None; t_result_summary := Some (rj_Summary write); t_updated_at := now }.

Definition SaveDispatchRejection (h : Handle) (write : DispatchRejectionWrite) : M bool :=
  if (rj_TaskID write <=? 0) || (rj_InstanceID write <=? 0) || (rj_AttemptNo write <=? 0) ||
     (rj_MaxRetries write <? 0) || (rj_RetryIntervalSeconds write <=? 0)
  then fail [ErrInvalidDispatchWrite]
  else if inTransaction h then fail [ErrInvalidDispatchWrite]
  else dispatch_write (exec h (λ ev d,
    if negb (pg_text (rj_Summary write)) then (d, invalid_text) else
    let '(d', n) := update_task (rj_TaskID write) (response_guard (rj_InstanceID write) (rj_AttemptNo write))
      (reject_row write (ev_clock ev)) d in
    (d', Ok (n =? 1)))).

Definition FindResultTarget (h : Handle) (taskID : Z) : M (option TaskResultTarget) :=
  if taskID <=? 0 then fail [Text "result task ID must be positive"]
  else query h (λ _ d, Ok (
    t ← tasks d !! taskID;
    i ← instances d !! t_instance_id t;
    Some {| rt_TaskID := taskID; rt_InstanceID := t_instance_id t; rt_JobID := i_job_id i;
            rt_ExecutorGroupID := i_executor_group_id i; rt_AttemptNo := t_attempt_no t;
            rt_TaskType := t_task_type t; rt_Status := t_status t; rt_UsedAttempts := t_used_attempts t;
            rt_ExecutorInstanceID := t_executor_instance_id t; rt_ExecutionConfig := i_execution_config i |})).

Definition result_row (write : TaskResultWrite) (now : Time) (t : JobTask) : JobTask :=
  let t := { t with t_status := rw_Status write; t_result_data := None; t_result_summary := Some (rw_Summary write);
                    t_finished_at := Some now; t_next_dispatch_at := None;
                    t_end_reason := Some EndReasonExecutionFailed; t_updated_at := now } in
  match rw_Status write with
  | TaskSucceeded => { t with t_result_data := rw_Data write; t_end_reason := Some EndReasonSuccess }
  | TaskRetryWaiting =>
      { t with t_finished_at := None; t_end_reason := None;
               t_next_dispatch_at := Some (now + rw_RetryIntervalSeconds write * Second) }
  | _ => t
  end.

(** The output value is converted by [TaskResultData.Value], then by
    PostgreSQL's JSONB input function. *)
Definition result_data_error (write : TaskResultWrite) : option Error :=
  match rw_Status write, rw_Data write with
  | TaskSucceeded, Some data =>
      if negb (JsonValid data) then Some [Text "invalid task result JSON"]
      else match jsonb_error data with Some code => Some [PgError code ""] | None => None end
  | _, _ => None
  end.

Definition result_guard (write : TaskResultWrite) (t : JobTask) : bool :=
  attempt_matches (rw_InstanceID write) (rw_AttemptNo write) t &&
  match t_executor_instance_id t with None => true | Some u => u =? rw_ExecutorInstanceID write end.

Definition SaveResult (h : Handle) (write : TaskResultWrite) : M bool :=
  if (rw_TaskID write <=? 0) || (rw_InstanceID write <=? 0) || (rw_AttemptNo write <=? 0) ||
     negb (valid_executor_uuid (rw_ExecutorInstanceID write)) ||
     negb (bool_decide (rw_Status write = TaskSucceeded) || bool_decide (rw_Status write = TaskRetryWaiting) ||
           bool_decide (rw_Status write = TaskFailed)) ||
     (bool_decide (rw_Status write = TaskRetryWaiting) && (rw_RetryIntervalSeconds write <=? 0))
  then fail [Text "invalid task result write"]
  else if inTransaction h then fail [Text "task result save requires an independently committing database handle"]
  else exec h (λ ev d,
    match result_data_error write with
    | Some e => (d, Fail e)
    | None =>
        if negb (pg_text (rw_Summary write)) then (d, invalid_text) else
        let '(d', n) := update_task (rw_TaskID write) (result_guard write) (result_row write (ev_clock ev)) d in
        (d', Ok (n =? 1))
    end).

Definition CheckResultData (h : Handle) (data : option string) : M bool :=
  match data with
  | None => fail [Text "result JSON data is absent"]
  | Some data => query h (λ _ _, Ok (bool_decide (jsonb_error data = None)))
  end.
End repository.
