(* ===== verification/InstanceRepo.v ===== *)
(** * The Instance repository

    apps/job/internal/repository/job_instance_repository.go: parent locks, the
    conditional transitions of an execution round, trigger-identity insertion,
    and the candidate queries of recovery. *)

From S2P Require Import Prelude GoLib Tx Model.

Open Scope Z_scope.

Definition ErrInstanceLocked : Cause := Sentinel "job instance is locked".
Definition ErrInstanceNotFound : Cause := Sentinel "job instance not found".

(** ** Projections *)

Record ManualIdentity := { mi_ID : Z; mi_ParamsOverridden : bool; mi_OverrideParams : option string }.

Record WaitingInstance := {
  wi_ID : Z; wi_JobID : Z; wi_ExecutorGroupID : Z; wi_Status : InstanceStatus; wi_ExecutionConfig : ExecutionConfig;
}.

Record ExecutionInstance := {
  ei_ID : Z; ei_JobID : Z; ei_ExecutorGroupID : Z; ei_Status : InstanceStatus; ei_ExecutionConfig : json;
  ei_StartedAt : option Time; ei_DeadlineAt : option Time; ei_FinishedAt : option Time;
}.

Record StoppingInstance := {
  si_ID : Z; si_ExecutorGroupID : Z; si_Status : InstanceStatus; si_EndReason : option string;
  si_StartedAt : option Time; si_DeadlineAt : option Time; si_FinishedAt : option Time;
}.

Record RunningCandidate := { rn_ID : Z; rn_StartedAt : Time }.

Record InstanceCompletion := {
  ic_ID : Z; ic_Status : InstanceStatus; ic_ExecutionConfig : json; ic_DeadlineAt : option Time;
  ic_TaskID : option Z; ic_TaskStatus : option TaskStatus; ic_ResultSummary : option string;
}.

(** [UPDATE job_instance SET ... WHERE id = ? AND ...]: at most one row matches. *)
Definition update_instance (id : Z) (P : JobInstance → bool) (upd : JobInstance → JobInstance) (d : DB) : DB * Z :=
  match instances d !! id with
  | Some i => if P i then (set_instance id (upd i) d, 1) else (d, 0)
  | None => (d, 0)
  end.

(** [SELECT EXISTS (SELECT 1 FROM job_instance WHERE ...)]. *)
Definition exists_instance (P : JobInstance → bool) (d : DB) : bool :=
  existsb (λ r : Z * JobInstance, P r.2) (rows (instances d)).

(** [ORDER BY id DESC LIMIT 1], zero when no row matches. *)
Definition max_id (P : JobInstance → bool) (d : DB) : Z :=
  match last (ids_where (λ _ i, P i) (instances d)) with Some id => id | None => 0 end.

Section repository.
Context `{PgLib}.

(** A NOWAIT lock that another transaction holds is reported as 55P03. *)
Definition lock_row {A} (ev : Event) (nowait : bool) (row : option A) : Result (option A) :=
  if nowait && ev_locked ev && bool_decide (is_Some row) then Fail [PgError "55P03" ""] else Ok row.

(** [executionInstanceLockError]: keep the driver cause, name the contention. *)
Definition executionInstanceLockError (e : Error) : Error :=
  match pg_code e with
  | Some (code, _) => if bool_decide (code = "55P03"%string) then ErrInstanceLocked :: e else e
  | None => e
  end.

Definition stopping_instance (id : Z) (i : JobInstance) : StoppingInstance :=
  {| si_ID := id; si_ExecutorGroupID := i_executor_group_id i; si_Status := i_status i;
     si_EndReason := i_end_reason i; si_StartedAt := i_started_at i; si_DeadlineAt := i_deadline_at i;
     si_FinishedAt := i_finished_at i |}.

Definition LockForStop (h : Handle) (id : Z) (nowait : bool) : M (option StoppingInstance) :=
  if id <=? 0 then fail [Text "stop instance ID must be positive"]
  else if negb (inTransaction h) then fail [Text "stop instance lock requires an explicit transaction"]
  else
    r ← attempt (lock h (InstanceRow id) (λ ev d, lock_row ev nowait (stopping_instance id <$> instances d !! id)));
    match r with
    | Ok row => mret row
    | Fail e => fail (if nowait then executionInstanceLockError e else e)
    end.

Definition running_candidate (eligibleBefore : Time) (r : Z * JobInstance) : option RunningCandidate :=
  match i_started_at r.2 with
  | Some s =>
      if bool_decide (i_status r.2 = InstanceRunning) && (s <? eligibleBefore)
      then Some {| rn_ID := r.1; rn_StartedAt := s |} else None
  | None => None
  end.

Definition rn_key (c : RunningCandidate) : Z * Z := (rn_StartedAt c, rn_ID c).

Definition running_candidates (d : DB) (eligibleBefore : Time) : list RunningCandidate :=
  order_by rn_key (omap (running_candidate eligibleBefore) (rows (instances d))).

Definition ListRunningCandidates (h : Handle) (eligibleBefore : Time) (after : option RunningCandidate)
    (limit : Z) : M (list RunningCandidate) :=
  if is_zero eligibleBefore || (limit <=? 0) ||
     match after with
     | Some c => (rn_ID c <=? 0) || is_zero (rn_StartedAt c) || negb (before (rn_StartedAt c) eligibleBefore)
     | None => false
     end
  then fail [Text "invalid running instance candidate bounds"]
  else query h (λ _ d, Ok (take (Z.to_nat limit)
         (filter (λ c, after_key (rn_key <$> after) (rn_key c)) (running_candidates d eligibleBefore)))).

Definition is_stopping (i : JobInstance) : bool := bool_decide (i_status i = InstanceStopping).

Definition StoppingUpperID (h : Handle) : M Z := query h (λ _ d, Ok (max_id is_stopping d)).

Definition ListStoppingCandidates (h : Handle) (afterID upperID limit : Z) : M (list Z) :=
  if (afterID <? 0) || (upperID <=? 0) || (upperID <? afterID) || (limit <=? 0)
  then fail [Text "invalid stopping candidate bounds"]
  else query h (λ _ d, Ok (take (Z.to_nat limit)
         (ids_where (λ id i, is_stopping i && (afterID <? id) && (id <=? upperID)) (instances d)))).

Definition record_stop_row (reason summary : string) (decidedAt : Time) (i : JobInstance) : JobInstance :=
  { i with i_status := InstanceStopping; i_finished_at := None; i_end_reason := Some reason;
           i_result_summary := Some summary; i_updated_at := decidedAt }.

Definition RecordStop (h : Handle) (id : Z) (expected : InstanceStatus) (reason summary : string)
    (decidedAt : Time) : M bool :=
  if (id <=? 0) || is_zero decidedAt ||
     (negb (bool_decide (expected = InstanceWaiting)) && negb (bool_decide (expected = InstanceRunning))) ||
     (negb (bool_decide (reason = EndReasonManualStop)) && negb (bool_decide (reason = EndReasonInstanceTimeout))) ||
     (bool_decide (reason = EndReasonInstanceTimeout) && negb (bool_decide (expected = InstanceRunning)))
  then fail [Text "invalid instance stop decision"]
  else if negb (inTransaction h) then fail [Text "instance stop decision requires an explicit transaction"]
  else exec h (λ _ d,
    if negb (pg_text summary) then (d, invalid_text) else
    let '(d', n) := update_instance id (λ i, bool_decide (i_status i = expected) &&
        (bool_decide (i_status i = InstanceWaiting) || bool_decide (i_status i = InstanceRunning)))
      (record_stop_row reason summary decidedAt) d in
    (d', Ok (n =? 1))).

Definition has_unfinished (d : DB) (instanceID : Z) : bool :=
  existsb (λ r : Z * JobTask, (t_instance_id r.2 =? instanceID) && unfinished (t_status r.2)) (rows (tasks d)).

Definition stop_target (reason : string) : InstanceStatus :=
  if bool_decide (reason = EndReasonInstanceTimeout) then InstanceFailed else InstanceCanceled.

Definition finish_stop_row (reason : string) (now : Time) (i : JobInstance) : JobInstance :=
  { i with i_status := stop_target reason; i_finished_at := Some now; i_updated_at := now }.

Definition FinishStop (h : Handle) (id : Z) (reason : string) : M bool :=
  if (id <=? 0) ||
     (negb (bool_decide (reason = EndReasonManualStop)) && negb (bool_decide (reason = EndReasonInstanceTimeout)))
  then fail [Text "invalid instance stop completion"]
  else if negb (inTransaction h) then fail [Text "instance stop completion requires an explicit transaction"]
  else exec h (λ ev d,
    let '(d', n) := update_instance id (λ i, is_stopping i && bool_decide (i_end_reason i = Some reason) &&
        negb (has_unfinished d id))
      (finish_stop_row reason (ev_clock ev)) d in
    (d', Ok (n =? 1))).

Definition Exists (h : Handle) (id : Z) : M bool :=
  if id <=? 0 then fail [Text "job instance ID must be positive"]
  else query h (λ _ d, Ok (bool_decide (is_Some (instances d !! id)))).

(** The row with its snapshot decoded by [ExecutionConfig.Scan]. *)
Definition FindByID (h : Handle) (id : Z) : M (JobInstance * ExecutionConfig) :=
  if id <=? 0 then fail [Text "job instance ID must be positive"]
  else query h (λ _ d,
    match instances d !! id with
    | None => Fail [ErrInstanceNotFound]
    | Some i => match Scan (i_execution_config i) with Some c => Ok (i, c) | None => Fail [Text "json"] end
    end).

(** The ordinary Task joined to a parent; uq_job_task_singleton allows one. *)
Definition ordinary_task (d : DB) (instanceID : Z) : option (Z * JobTask) :=
  head (filter (λ r : Z * JobTask, t_instance_id r.2 = instanceID ∧ t_task_type r.2 = TaskTypeOrdinary)
          (rows (tasks d))).

Definition FindCompletion (h : Handle) (id : Z) : M (option InstanceCompletion) :=
  if id <=? 0 then fail [Text "completion instance ID must be positive"]
  else query h (λ _ d, Ok (
    i ← instances d !! id;
    let task := ordinary_task d id in
    Some {| ic_ID := id; ic_Status := i_status i; ic_ExecutionConfig := i_execution_config i;
            ic_DeadlineAt := i_deadline_at i; ic_TaskID := fst <$> task;
            ic_TaskStatus := (λ r, t_status r.2) <$> task;
            ic_ResultSummary := task ≫= (λ r, t_result_summary r.2) |})).

Definition complete_row (target : InstanceStatus) (summary : option string) (now : Time) (i : JobInstance)
    : JobInstance :=
  { i with i_status := target;
           i_end_reason := Some (if bool_decide (target = InstanceFailed) then EndReasonExecutionFailed
                                 else EndReasonSuccess);
           i_result_summary := summary; i_finished_at := Some now; i_updated_at := now }.

Definition Complete (h : Handle) (id : Z) (target : InstanceStatus) (summary : option string) : M bool :=
  if (id <=? 0) ||
     (negb (bool_decide (target = InstanceSucceeded)) && negb (bool_decide (target = InstanceFailed)))
  then fail [Text "invalid job instance completion"]
  else if inTransaction h then
    fail [Text "instance completion requires an independently committing database handle"]
  else transact (exec InTx (λ ev d,
    if match summary with Some s => negb (pg_text s) | None => false end then (d, invalid_text) else
    let '(d', n) := update_instance id (λ i, bool_decide (i_status i = InstanceRunning))
      (complete_row target summary (ev_clock ev)) d in
    (d', Ok (n =? 1)))).

Definition execution_instance (id : Z) (i : JobInstance) : ExecutionInstance :=
  {| ei_ID := id; ei_JobID := i_job_id i; ei_ExecutorGroupID := i_executor_group_id i;
     ei_Status := i_status i; ei_ExecutionConfig := i_execution_config i;
     ei_StartedAt := i_started_at i; ei_DeadlineAt := i_deadline_at i; ei_FinishedAt := i_finished_at i |}.

Definition LockForExecution (h : Handle) (id : Z) : M (option ExecutionInstance) :=
  r ← attempt (lock h (InstanceRow id) (λ ev d, lock_row ev true (execution_instance id <$> instances d !! id)));
  match r with Ok row => mret row | Fail e => fail (executionInstanceLockError e) end.

Definition DatabaseTime (h : Handle) : M Time := query h (λ ev _, Ok (ev_clock ev)).

Definition start_row (startedAt deadlineAt : Time) (i : JobInstance) : JobInstance :=
  { i with i_status := InstanceRunning; i_started_at := Some startedAt; i_deadline_at := Some deadlineAt;
           i_updated_at := startedAt }.

Definition start_guard (i : JobInstance) : bool :=
  bool_decide (i_status i = InstanceWaiting) && bool_decide (i_started_at i = None) &&
  bool_decide (i_deadline_at i = None) && bool_decide (i_finished_at i = None).

Definition StartExecution (h : Handle) (id : Z) (startedAt deadlineAt : Time) : M bool :=
  exec h (λ _ d,
    let '(d', n) := update_instance id start_guard (start_row startedAt deadlineAt) d in (d', Ok (n =? 1))).

Definition HasActive (h : Handle) (jobID : Z) : M bool :=
  query h (λ _ d, Ok (exists_instance (λ i, (i_job_id i =? jobID) && active (i_status i)) d)).

Definition HasActiveForGroup (h : Handle) (groupID : Z) : M bool :=
  query h (λ _ d, Ok (exists_instance (λ i, (i_executor_group_id i =? groupID) && active (i_status i)) d)).

(** [execution_config->>'params'] *)
Definition params_text (j : json) : option string :=
  match j with
  | JObject l =>
      match jget "params" l with
      | None | Some JNull => None
      | Some (JString s) => Some s
      | Some v => Some (json_text v)
      end
  | _ => None
  end.

Definition manual_identity (r : Z * JobInstance) : ManualIdentity :=
  {| mi_ID := r.1; mi_ParamsOverridden := i_params_overridden r.2;
     mi_OverrideParams := if i_params_overridden r.2 then params_text (i_execution_config r.2) else None |}.

Definition manual_rows (d : DB) (jobID request : Z) : list (Z * JobInstance) :=
  filter (λ r : Z * JobInstance, i_job_id r.2 = jobID ∧ i_request_id r.2 = Some request) (rows (instances d)).

Definition FindManual (h : Handle) (jobID request : Z) : M (option ManualIdentity) :=
  query h (λ _ d, Ok (manual_identity <$> head (manual_rows d jobID request))).

(** ck_job_instance_trigger_identity *)
Definition trigger_identity (i : JobInstance) : bool :=
  match i_trigger_type i with
  | TriggerScheduled | TriggerMisfire =>
      bool_decide (i_scheduled_at i ≠ None) && bool_decide (i_request_id i = None) &&
      negb (i_params_overridden i) && bool_decide (i_triggered_by i = None)
  | TriggerManual =>
      bool_decide (i_scheduled_at i = None) && bool_decide (i_request_id i ≠ None) &&
      bool_decide (i_triggered_by i ≠ None)
  | TriggerTypeCode _ => false
  end.

(** The partial unique indexes on (job_id, scheduled_at) and (job_id, request_id). *)
Definition same_schedule (i i' : JobInstance) : bool :=
  (i_job_id i' =? i_job_id i) && bool_decide (i_scheduled_at i ≠ None) &&
  bool_decide (i_scheduled_at i' = i_scheduled_at i).
Definition same_request (i i' : JobInstance) : bool :=
  (i_job_id i' =? i_job_id i) && bool_decide (i_request_id i ≠ None) &&
  bool_decide (i_request_id i' = i_request_id i).

(** The selected columns of the input, with the columns the database fills. *)
Definition waiting_row (i : JobInstance) (now : Time) : JobInstance :=
  {| i_job_id := i_job_id i; i_job_name := i_job_name i; i_executor_group_id := i_executor_group_id i;
     i_trigger_type := i_trigger_type i; i_scheduled_at := i_scheduled_at i; i_request_id := i_request_id i;
     i_params_overridden := i_params_overridden i; i_triggered_by := i_triggered_by i;
     i_execution_config := i_execution_config i; i_status := InstanceWaiting;
     i_started_at := None; i_deadline_at := None; i_finished_at := None;
     i_end_reason := None; i_result_summary := None; i_created_at := now; i_updated_at := now |}.

(** [Some id] reports an insertion, [None] an ignored identity conflict.  JSONB
    has no representation of a NUL character. *)
Definition Insert (h : Handle) (i : JobInstance) : M (option Z) :=
  exec h (λ ev d,
    let row := waiting_row i (ev_clock ev) in
    let manual := bool_decide (i_trigger_type i = TriggerManual) in
    let conflict same := exists_instance (same row) d in
    if negb (pg_text (i_job_name i)) then (d, invalid_text)
    else if 128 <? RuneCountInString (i_job_name i) then (d, Fail [PgError "22001" ""])
    else if match Scan (i_execution_config i) with
            | Some c => ContainsNul (Params c) || ContainsNul (ProcessorName c)
            | None => false
            end
    then (d, Fail [PgError "22P05" ""])
    else if negb (trigger_identity row) then (d, Fail [PgError "23514" "ck_job_instance_trigger_identity"])
    else if conflict (if manual then same_request else same_schedule) then (d, Ok None)
    else if conflict (if manual then same_schedule else same_request) then
      (d, Fail [PgError "23505" (if manual then "uq_job_instance_auto_identity" else "uq_job_instance_manual_identity")])
    else ({ set_instance (next_instance d) row d with next_instance := next_instance d + 1 },
          Ok (Some (next_instance d)))).

Definition is_waiting (i : JobInstance) : bool := bool_decide (i_status i = InstanceWaiting).

Definition MaxWaitingID (h : Handle) : M Z := query h (λ _ d, Ok (max_id is_waiting d)).

Definition ListWaitingIDs (h : Handle) (cursor upperID limit : Z) : M (list Z) :=
  if (cursor <? 0) || (upperID <? 0) || (upperID <? cursor) || (limit <? 1) || (128 <? limit)
  then fail [Text "invalid waiting candidate batch"]
  else if cursor =? upperID then mret []
  else query h (λ _ d, Ok (take (Z.to_nat limit)
         (ids_where (λ id i, is_waiting i && (cursor <? id) && (id <=? upperID)) (instances d)))).

Definition waiting_instance (r : Z * JobInstance) : option WaitingInstance :=
  c ← Scan (i_execution_config r.2);
  Some {| wi_ID := r.1; wi_JobID := i_job_id r.2; wi_ExecutorGroupID := i_executor_group_id r.2;
          wi_Status := i_status r.2; wi_ExecutionConfig := c |}.

(** One snapshot that cannot be decoded fails the whole read.  The query leaves the
    order of its rows open; here they come in primary-key order. *)
Definition LoadWaiting (h : Handle) (ids : list Z) : M (list WaitingInstance) :=
  if bool_decide (ids = []) then mret []
  else if 1024 <? Z.of_nat (length ids) then fail [Text "waiting configuration batch exceeds 1024"]
  else query h (λ _ d,
    match mapM waiting_instance (filter (λ r : Z * JobInstance, r.1 ∈ ids ∧ is_waiting r.2 = true) (rows (instances d))) with
    | Some items => Ok items
    | None => Fail [Text "json"]
    end).
End repository.
