(* ===== verification/JobRepo.v ===== *)
(** * Job definitions and executor groups

    apps/job/internal/repository/job_definition_repository.go and
    executor_group_repository.go.  Both tables are soft-deleted: GORM adds
    [deleted_at IS NULL] to every statement except the two coordinating locks. *)

From S2P Require Import Prelude GoLib Tx Model.

Open Scope Z_scope.

Definition ErrJobNotFound : Cause := Sentinel "job definition not found".
Definition ErrJobStateNotAllowed : Cause := Sentinel "job definition state does not allow this operation".
Definition ErrExecutorGroupUnavailable : Cause := Sentinel "executor group is unavailable".
Definition ErrExecutorGroupNameExists : Cause := Sentinel "executor group name exists".
Definition ErrExecutorGroupDiscoveryKeyExists : Cause := Sentinel "executor group discovery key exists".

(** ** Literal substring patterns *)

(** The characters of a text value. *)
Definition codes (s : string) : list Z := omap fst (runes (bytes s)).

(** [literalContains]: escape the pattern characters, match anywhere. *)
Fixpoint escape_pattern (s : string) : string :=
  match s with
  | EmptyString => EmptyString
  | String c s' =>
      if has (byte_of c) (bytes "!%_") then String (Ascii.ascii_of_N 33) (String c (escape_pattern s')) else String c (escape_pattern s')
  end.
Definition literalContains (value : string) : string := "%" +:+ escape_pattern value +:+ "%".

(** [LIKE pattern ESCAPE '!']: percent matches any run of characters, underscore
    one character, and an exclamation mark quotes the character after it. *)
Fixpoint like (p s : list Z) {struct p} : bool :=
  match p with
  | [] => bool_decide (s = [])
  | 37 :: p' =>
      (fix anywhere (s : list Z) : bool :=
         like p' s || match s with [] => false | _ :: s' => anywhere s' end) s
  | 95 :: p' => match s with _ :: s' => like p' s' | [] => false end
  | 33 :: c :: p' => match s with x :: s' => (x =? c) && like p' s' | [] => false end
  | c :: p' => match s with x :: s' => (x =? c) && like p' s' | [] => false end
  end.

(** ** Filters and projections *)

Record JobFilter := {
  jf_Page : Z; jf_PageSize : Z; jf_ID : option Z; jf_Name : string;
  jf_ExecutorGroupID : option Z; jf_Status : option RecordStatus;
}.

Record JobListItem := {
  jl_ID : Z; jl_Name : string; jl_ExecutorGroupID : Z; jl_ExecutorGroupName : option string;
  jl_ProcessorName : string; jl_ExecutionMode : ExecutionMode; jl_CronExpr : string; jl_Status : RecordStatus;
  jl_NextTriggerAt : option Time; jl_CreatedAt : Time; jl_UpdatedAt : Time;
}.

Record JobDetail := { jd_ID : Z; jd_Job : JobDefinition; jd_ExecutorGroupName : option string }.
Record Rule := { ru_ID : Z; ru_CronExpr : string }.
Record DueJob := { du_ID : Z; du_NextTriggerAt : Time }.

Record ExecutorGroupFilter := { gf_Page : Z; gf_PageSize : Z; gf_Name : string }.
Record ExecutorGroupListItem := {
  gl_ID : Z; gl_Name : string; gl_DiscoveryKey : string; gl_CreatedAt : Time; gl_UpdatedAt : Time;
}.
Record ExecutorGroupConfig := { gc_ID : Z; gc_Name : string; gc_DiscoveryKey : string; gc_Token : string }.

(** The soft-delete scope. *)
Definition live_job (j : JobDefinition) : bool := bool_decide (j_deleted_at j = None).
Definition live_group (g : ExecutorGroup) : bool := bool_decide (g_deleted_at g = None).

(** One-based pagination shared by the management lists. *)
Definition invalid_pagination (page pageSize : Z) : bool :=
  (page <? 1) || (pageSize <? 1) || (200 <? pageSize) || (MaxInt64 / pageSize <? page - 1).
Definition page_of {A} (page pageSize : Z) (l : list A) : list A :=
  take (Z.to_nat pageSize) (drop (Z.to_nat ((page - 1) * pageSize)) l).

Definition opt_eqb {A} `{EqDecision A} (o : option A) (a : A) : bool :=
  match o with Some b => bool_decide (b = a) | None => true end.

(** A character-limited text column. *)
Definition varchar_error (limit : Z) (s : string) : option Error :=
  if negb (pg_text s) then Some [PgError "22021" ""]
  else if limit <? RuneCountInString s then Some [PgError "22001" ""] else None.
Definition first_error (l : list (option Error)) : option Error := head (omap id l).

(** [UPDATE job_definition SET ... WHERE id = ? AND ... AND deleted_at IS NULL] *)
Definition update_job (id : Z) (P : JobDefinition → bool) (upd : JobDefinition → JobDefinition) (d : DB) : DB * Z :=
  match jobs d !! id with
  | Some j => if P j && live_job j then (set_job id (upd j) d, 1) else (d, 0)
  | None => (d, 0)
  end.

Section repository.
Context `{PgLib}.

Definition ILike (s pattern : string) : bool := like (fold_case <$> codes pattern) (fold_case <$> codes s).

(** ** Job definitions *)

Definition group_name (d : DB) (id : Z) : option string :=
  g ← groups d !! id; if live_group g then Some (g_name g) else None.

Definition job_matches (f : JobFilter) (r : Z * JobDefinition) : bool :=
  live_job r.2 && opt_eqb (jf_ID f) r.1 &&
  (bool_decide (jf_Name f = "") || ILike (j_name r.2) (literalContains (jf_Name f))) &&
  opt_eqb (jf_ExecutorGroupID f) (j_executor_group_id r.2) && opt_eqb (jf_Status f) (j_status r.2).

(** Management projections show the stored progress of enabled Jobs only. *)
Definition shown_next (j : JobDefinition) : option Time :=
  if bool_decide (j_status j = RecordStatusEnabled) then j_next_trigger_at j else None.

Definition job_item (d : DB) (r : Z * JobDefinition) : JobListItem :=
  {| jl_ID := r.1; jl_Name := j_name r.2; jl_ExecutorGroupID := j_executor_group_id r.2;
     jl_ExecutorGroupName := group_name d (j_executor_group_id r.2);
     jl_ProcessorName := j_processor_name r.2; jl_ExecutionMode := j_execution_mode r.2;
     jl_CronExpr := j_cron_expr r.2; jl_Status := j_status r.2; jl_NextTriggerAt := shown_next r.2;
     jl_CreatedAt := j_created_at r.2; jl_UpdatedAt := j_updated_at r.2 |}.

Definition matching_jobs (f : JobFilter) (d : DB) : list (Z * JobDefinition) :=
  reverse (filter (λ r, job_matches f r = true) (rows (jobs d))).

Definition ListJobs (h : Handle) (f : JobFilter) : M (list JobListItem * Z) :=
  if invalid_pagination (jf_Page f) (jf_PageSize f) then fail [Text "invalid job pagination"]
  else
    total ← query h (λ _ d, Ok (Z.of_nat (length (matching_jobs f d))));
    items ← query h (λ _ d, Ok (job_item d <$> page_of (jf_Page f) (jf_PageSize f) (matching_jobs f d)));
    mret (items, total).

Definition GetJob (h : Handle) (id : Z) : M JobDetail :=
  query h (λ _ d,
    match jobs d !! id with
    | Some j =>
        if live_job j
        then Ok {| jd_ID := id; jd_Job := { j with j_next_trigger_at := shown_next j };
                   jd_ExecutorGroupName := group_name d (j_executor_group_id j) |}
        else Fail [ErrJobNotFound]
    | None => Fail [ErrJobNotFound]
    end).

Definition HasGroupReferences (h : Handle) (groupID : Z) : M bool :=
  query h (λ _ d, Ok (existsb (λ r : Z * JobDefinition, live_job r.2 && (j_executor_group_id r.2 =? groupID)) (rows (jobs d)))).

(** The columns a lock selects: management fields are not read. *)
Definition locked_job (j : JobDefinition) : JobDefinition :=
  { j with j_remark := ""; j_created_at := 0; j_updated_at := 0 }.

Definition LockJob (h : Handle) (id : Z) : M JobDefinition :=
  row ← lock h (JobRow id) (λ _ d, Ok (jobs d !! id));
  match row with
  | Some j => if live_job j then mret (locked_job j) else fail [ErrJobNotFound]
  | None => fail [ErrJobNotFound]
  end.

Definition job_error (j : JobDefinition) : option Error :=
  first_error [varchar_error 128 (j_name j); varchar_error 500 (j_remark j);
    varchar_error 128 (j_processor_name j); varchar_error 128 (j_cron_expr j);
    if pg_text (j_params j) then None else Some [PgError "22021" ""]].

Definition CreateJob (h : Handle) (j : JobDefinition) : M Z :=
  exec h (λ ev d,
    match job_error j with
    | Some e => (d, Fail e)
    | None =>
        let row := { j with j_created_at := ev_clock ev; j_updated_at := ev_clock ev; j_deleted_at := None } in
        ({ set_job (next_job d) row d with next_job := next_job d + 1 }, Ok (next_job d))
    end).

Definition checkWrite (h : Handle) (id : Z) (write : M Z) : M unit :=
  n ← write;
  if n =? 1 then mret ()
  else if negb (n =? 0) then fail [Text "job write affected several rows"]
  else query h (λ _ d,
    match jobs d !! id with
    | Some j => if live_job j then Fail [ErrJobStateNotAllowed] else Fail [ErrJobNotFound]
    | None => Fail [ErrJobNotFound]
    end).

Definition has_status (s : RecordStatus) (j : JobDefinition) : bool := bool_decide (j_status j = s).

(** A conditional update; GORM maintains updated_at. *)
Definition write_job (h : Handle) (id : Z) (P : JobDefinition → bool) (upd : JobDefinition → JobDefinition) : M unit :=
  checkWrite h id (exec h (λ ev d,
    let '(d', n) := update_job id P (λ j, { upd j with j_updated_at := ev_clock ev }) d in (d', Ok n))).

Definition config_row (i j : JobDefinition) : JobDefinition :=
  { j with j_name := j_name i; j_remark := j_remark i; j_executor_group_id := j_executor_group_id i;
           j_processor_name := j_processor_name i; j_execution_mode := j_execution_mode i;
           j_post_enabled := j_post_enabled i; j_params := j_params i; j_cron_expr := j_cron_expr i;
           j_misfire_policy := j_misfire_policy i; j_block_policy := j_block_policy i;
           j_max_retries := j_max_retries i; j_retry_interval_seconds := j_retry_interval_seconds i;
           j_timeout_seconds := j_timeout_seconds i }.

Definition UpdateJob (h : Handle) (id : Z) (j : JobDefinition) : M unit :=
  checkWrite h id (exec h (λ ev d,
    let '(d', n) := update_job id (has_status RecordStatusDisabled)
      (λ row, { config_row j row with j_updated_at := ev_clock ev }) d in
    match job_error j with
    | Some e => if n =? 1 then (d, Fail e) else (d, Ok n)
    | None => (d', Ok n)
    end)).

Definition EnableJob (h : Handle) (id : Z) (next : Time) : M unit :=
  write_job h id (has_status RecordStatusDisabled)
    (λ j, { j with j_status := RecordStatusEnabled; j_next_trigger_at := Some next }).

Definition DisableJob (h : Handle) (id : Z) : M unit :=
  write_job h id (λ _, true) (λ j, { j with j_status := RecordStatusDisabled }).

(** Soft deletion sets [deleted_at] alone. *)
Definition DeleteJob (h : Handle) (id : Z) : M unit :=
  checkWrite h id (exec h (λ ev d,
    let '(d', n) := update_job id (has_status RecordStatusDisabled)
      (λ j, { j with j_deleted_at := Some (ev_clock ev) }) d in (d', Ok n))).

Definition Advance (h : Handle) (id : Z) (next : Time) : M unit :=
  write_job h id (has_status RecordStatusEnabled) (λ j, { j with j_next_trigger_at := Some next }).

Definition LoadRules (h : Handle) : M (list Rule) :=
  query h (λ _ d, Ok ((λ r : Z * JobDefinition, {| ru_ID := r.1; ru_CronExpr := j_cron_expr r.2 |}) <$>
    filter (λ r : Z * JobDefinition, (live_job r.2 && has_status RecordStatusEnabled r.2) = true) (rows (jobs d)))).

Definition due_job (at_ : Time) (r : Z * JobDefinition) : option DueJob :=
  match j_next_trigger_at r.2 with
  | Some next =>
      if live_job r.2 && has_status RecordStatusEnabled r.2 && (next <=? at_)
      then Some {| du_ID := r.1; du_NextTriggerAt := next |} else None
  | None => None
  end.
Definition du_key (j : DueJob) : Z * Z := (du_NextTriggerAt j, du_ID j).

Definition ListDue (h : Handle) (at_ : Time) (limit : Z) : M (list DueJob) :=
  if limit <? 1 then fail [Text "due job batch must contain at least one candidate"]
  else query h (λ _ d, Ok (take (Z.to_nat limit) (order_by du_key (omap (due_job at_) (rows (jobs d)))))).

(** ** Executor groups *)

Definition group_error (g : ExecutorGroup) : option Error :=
  first_error [varchar_error 128 (g_name g); varchar_error 255 (g_discovery_key g); varchar_error 32 (g_token g)].

Definition mapExecutorGroupWriteError (e : Error) : Error :=
  match pg_code e with
  | Some (code, constraint) =>
      if bool_decide (code = "23505"%string) then
        if bool_decide (constraint = "uq_job_executor_group_name"%string) then [ErrExecutorGroupNameExists]
        else if bool_decide (constraint = "uq_job_executor_group_discovery_key"%string)
        then [ErrExecutorGroupDiscoveryKeyExists] else e
      else e
  | None => e
  end.

(** The unique constraints cover soft-deleted groups too. *)
Definition group_conflict (g : ExecutorGroup) (d : DB) : option string :=
  if existsb (λ r : Z * ExecutorGroup, bool_decide (g_name r.2 = g_name g)) (rows (groups d))
  then Some "uq_job_executor_group_name"
  else if existsb (λ r : Z * ExecutorGroup, bool_decide (g_discovery_key r.2 = g_discovery_key g)) (rows (groups d))
  then Some "uq_job_executor_group_discovery_key" else None.

Definition CreateGroup (h : Handle) (g : ExecutorGroup) : M Z :=
  r ← attempt (exec h (λ ev d,
    match group_error g with
    | Some e => (d, Fail e)
    | None =>
        match group_conflict g d with
        | Some c => (d, Fail [PgError "23505" c])
        | None =>
            let row := { g with g_created_at := ev_clock ev; g_updated_at := ev_clock ev; g_deleted_at := None } in
            ({ set_group (next_group d) row d with next_group := next_group d + 1 }, Ok (next_group d))
        end
    end));
  match r with Ok id => mret id | Fail e => fail (mapExecutorGroupWriteError e) end.

(** Rows of the soft-delete scope selected by a predicate. *)
Definition take_group {A} (h : Handle) (P : Z * ExecutorGroup → bool) (f : Z * ExecutorGroup → A) : M A :=
  query h (λ _ d,
    match filter (λ r, (P r && live_group r.2) = true) (rows (groups d)) with
    | r :: _ => Ok (f r)
    | [] => Fail [ErrExecutorGroupUnavailable]
    end).

Definition FindGroupByID (h : Handle) (id : Z) : M (Z * ExecutorGroup) := take_group h (λ r, r.1 =? id) (λ r, r).

Definition DeleteGroup (h : Handle) (id : Z) : M unit :=
  n ← exec h (λ ev d,
    match groups d !! id with
    | Some g => if live_group g then (set_group id { g with g_deleted_at := Some (ev_clock ev) } d, Ok 1) else (d, Ok 0)
    | None => (d, Ok 0)
    end);
  if n =? 0 then fail [ErrExecutorGroupUnavailable]
  else if negb (n =? 1) then fail [Text "executor group deletion affected several rows"] else mret ().

Definition group_item (r : Z * ExecutorGroup) : ExecutorGroupListItem :=
  {| gl_ID := r.1; gl_Name := g_name r.2; gl_DiscoveryKey := g_discovery_key r.2;
     gl_CreatedAt := g_created_at r.2; gl_UpdatedAt := g_updated_at r.2 |}.

Definition matching_groups (f : ExecutorGroupFilter) (d : DB) : list (Z * ExecutorGroup) :=
  reverse (filter (λ r : Z * ExecutorGroup, (live_group r.2 &&
    (bool_decide (gf_Name f = "") || ILike (g_name r.2) (literalContains (gf_Name f)))) = true) (rows (groups d))).

Definition ListGroups (h : Handle) (f : ExecutorGroupFilter) : M (list ExecutorGroupListItem * Z) :=
  if invalid_pagination (gf_Page f) (gf_PageSize f) then fail [Text "invalid executor group pagination"]
  else
    total ← query h (λ _ d, Ok (Z.of_nat (length (matching_groups f d))));
    items ← query h (λ _ d, Ok (group_item <$> page_of (gf_Page f) (gf_PageSize f) (matching_groups f d)));
    mret (items, total).

Definition group_config (r : Z * ExecutorGroup) : ExecutorGroupConfig :=
  {| gc_ID := r.1; gc_Name := g_name r.2; gc_DiscoveryKey := g_discovery_key r.2; gc_Token := g_token r.2 |}.

Definition LoadExecutionGroups (h : Handle) : M (list ExecutorGroupConfig) :=
  query h (λ _ d, Ok (group_config <$> filter (λ r : Z * ExecutorGroup, live_group r.2 = true) (rows (groups d)))).

Definition FindExecutionGroupByID (h : Handle) (id : Z) : M ExecutorGroupConfig :=
  take_group h (λ r, r.1 =? id) group_config.
Definition FindExecutionGroupByName (h : Handle) (name : string) : M ExecutorGroupConfig :=
  take_group h (λ r, bool_decide (g_name r.2 = name)) group_config.

Definition LockAvailable (h : Handle) (id : Z) : M unit :=
  row ← lock h (GroupRow id) (λ _ d, Ok (groups d !! id));
  match row with
  | Some g => if live_group g then mret () else fail [ErrExecutorGroupUnavailable]
  | None => fail [ErrExecutorGroupUnavailable]
  end.

Definition Available (h : Handle) (id : Z) : M bool :=
  query h (λ _ d, Ok (match groups d !! id with Some g => live_group g | None => false end)).
End repository.
