(* ===== verification/Trigger.v ===== *)
(** * Cron schedules and Instance creation

    apps/job/internal/schedule/cron.go and apps/job/internal/trigger/creator.go:
    a trigger locks its Job, decides, inserts at most one Instance and, for an
    automatic trigger, advances the Job's progress in the same transaction. *)

From S2P Require Import Prelude GoLib Tx Model InstanceRepo JobRepo.

Open Scope Z_scope.

(** ** Cron

    github.com/robfig/cron parses the expression and searches the next occurrence
    in the process's local time zone; the zero time reports none. *)
Class CronLib := {
  Schedule : Type;
  cron_parse : string → option Schedule;
  cron_next : Schedule → Time → Time;
}.

Section schedule.
Context `{CronLib}.

Definition Parse (expr : string) : Result Schedule :=
  let expr := TrimSpace expr in
  if negb (ValidString expr) || ContainsNul expr || (128 <? RuneCountInString expr) || negb (FieldsCount expr =? 6)
  then Fail [Text "cron must contain six fields and at most 128 characters"]
  else if HasPrefix expr "TZ=" || HasPrefix expr "CRON_TZ=" then Fail [Text "cron timezone prefixes are not supported"]
  else match cron_parse expr with Some s => Ok s | None => Fail [Text "cron"] end.

Definition no_occurrence : Error := [Text "cron has no next occurrence within the supported search range"].

Definition Next (expr : string) (after : Time) : Result Time :=
  result_bind (Parse expr) (λ s,
    let next := cron_next s after in
    if is_zero next || negb (is_after next after) then Fail no_occurrence else Ok next).

(** The loop of [Preview], with the occurrences already found. *)
Fixpoint preview_loop (n : nat) (s : Schedule) (times : list Time) (after : Time) : Result (list Time) :=
  match n with
  | O => Ok times
  | S n =>
      let next := cron_next s after in
      if is_zero next || negb (is_after next after)
      then if bool_decide (times = []) then Fail no_occurrence else Ok times
      else preview_loop n s (times ++ [next]) next
  end.

Definition Preview (expr : string) (after : Time) : Result (list Time) :=
  result_bind (Parse expr) (λ s, preview_loop 5 s [] after).
End schedule.

(** ** Errors of the trigger package *)

Definition ErrInvalidInput : Cause := Sentinel "invalid trigger input".
Definition ErrBlocked : Cause := Sentinel "job trigger blocked by an active instance".
Definition ErrRequestConflict : Cause := Sentinel "request identity already used with different parameters".
Definition ErrCapacityBusy : Cause := Sentinel "instance creation capacity is busy".
Definition ErrIndeterminate : Cause := Sentinel "trigger identity conflict could not be resolved".

Definition MisfireTolerance : Duration := 5 * Second.

(** The configuration of a [Creator]: whether a hint callback is set.  The number
    of permits in use belongs to the other goroutines of the process. *)
Record Creator := { cr_hint : bool; cr_capacity : Z; cr_budget : Duration }.

Record ManualTrigger := {
  mt_JobID : Z; mt_RequestID : Z; mt_ParamsOverridden : bool; mt_Params : string; mt_OperatorID : Z;
}.

Record AutomaticResult := { ar_InstanceID : Z; ar_Created : bool; ar_Reason : string }.

Section trigger.
Context `{PgLib, CronLib}.

(** [New]: the options applied to the defaults must be usable. *)
Definition NewCreator (hint : bool) (capacity : Z) (budget : Duration) : Result Creator :=
  if (capacity <=? 0) || (budget <=? 0) then Fail [Text "invalid job trigger clock or creation limits"]
  else Ok {| cr_hint := hint; cr_capacity := capacity; cr_budget := budget |}.

(** A permit is free or not at the moment it is asked for; an automatic trigger
    waits for one until its context is done. *)
Definition acquire (wait : bool) : M unit :=
  ctx_err;;
  e ← pop;
  if wait then if ev_done e then fail [ContextErr] else mret ()
  else if ev_locked e then fail [ErrCapacityBusy] else mret ().

Definition availableGroup (id : Z) : M unit :=
  available ← Available InTx id;
  if available : bool then mret () else fail [ErrExecutorGroupUnavailable].

Definition replay (prior : ManualIdentity) (input : ManualTrigger) : Result Z :=
  if negb (Bool.eqb (mi_ParamsOverridden prior) (mt_ParamsOverridden input)) ||
     (mt_ParamsOverridden input && negb (bool_decide (mi_OverrideParams prior = Some (mt_Params input))))
  then Fail [ErrRequestConflict]
  else Ok (mi_ID prior).

Definition snapshot_config (job : JobDefinition) : ExecutionConfig :=
  {| SchemaVersion := 1; ProcessorName := j_processor_name job; Mode := j_execution_mode job;
     PostEnabled := j_post_enabled job; Params := j_params job; MaxRetries := j_max_retries job;
     RetryIntervalSeconds := j_retry_interval_seconds job; TimeoutSeconds := j_timeout_seconds job |}.

(** The Instance a trigger inserts: the identity columns differ between the two
    kinds of trigger. *)
Definition snapshot (jobID : Z) (job : JobDefinition) (config : ExecutionConfig) (type : TriggerType)
    (scheduledAt : option Time) (request : option Z) (overridden : bool) (operator : option Z) : JobInstance :=
  {| i_job_id := jobID; i_job_name := j_name job; i_executor_group_id := j_executor_group_id job;
     i_trigger_type := type; i_scheduled_at := scheduledAt; i_request_id := request;
     i_params_overridden := overridden; i_triggered_by := operator; i_execution_config := Value config;
     i_status := InstanceWaiting; i_started_at := None; i_deadline_at := None; i_finished_at := None;
     i_end_reason := None; i_result_summary := None; i_created_at := 0; i_updated_at := 0 |}.

Definition normalizeParams (value : string) : Result string :=
  if negb (ValidString value) || ContainsNul value then Fail [ErrInvalidInput] else Ok (TrimSpace value).

Definition manual_config (job : JobDefinition) (input : ManualTrigger) : ExecutionConfig :=
  let c := snapshot_config job in
  if mt_ParamsOverridden input then { c with Params := mt_Params input } else c.

Definition manual_instance (job : JobDefinition) (input : ManualTrigger) : JobInstance :=
  snapshot (mt_JobID input) job (manual_config job input) TriggerManual None (Some (mt_RequestID input))
    (mt_ParamsOverridden input) (Some (mt_OperatorID input)).

(** The transaction callback: the Instance and whether it is new. *)
Definition manual_body (input : ManualTrigger) : M (Z * bool) :=
  job ← LockJob InTx (mt_JobID input);
  prior ← FindManual InTx (mt_JobID input) (mt_RequestID input);
  match prior with
  | Some prior => id ← lift (replay prior input); mret (id, false)
  | None =>
      availableGroup (j_executor_group_id job);;
      blocked ← (if bool_decide (j_block_policy job = BlockDiscard) then HasActive InTx (mt_JobID input)
                 else mret false);
      if blocked : bool then fail [ErrBlocked]
      else
        inserted ← Insert InTx (manual_instance job input);
        match inserted with
        | Some id => mret (id, true)
        | None =>
            prior ← FindManual InTx (mt_JobID input) (mt_RequestID input);
            match prior with
            | None => fail [ErrIndeterminate]
            | Some prior => id ← lift (replay prior input); mret (id, false)
            end
        end
  end.

Definition hint (s : Creator) (created : bool) (id : Z) : M unit :=
  if created && cr_hint s then emit (Hinted id) else mret ().

Definition TriggerManualJob (s : Creator) (input : ManualTrigger) : M Z :=
  if (mt_JobID input <=? 0) || (mt_OperatorID input <=? 0) ||
     (negb (mt_ParamsOverridden input) && negb (bool_decide (mt_Params input = "")))
  then fail [ErrInvalidInput]
  else
    params ← lift (normalizeParams (mt_Params input));
    let input := { input with mt_Params := params } in
    acquire false;;
    r ← transact (manual_body input);
    hint s r.2 r.1;;
    mret r.1.

Definition skipped (reason : string) : AutomaticResult :=
  {| ar_InstanceID := 0; ar_Created := false; ar_Reason := reason |}.

(** What to do with a due occurrence. *)
Definition misfired (scheduledAt decisionAt : Time) : bool := MisfireTolerance <? decisionAt - scheduledAt.
Definition trigger_type (scheduledAt decisionAt : Time) : TriggerType :=
  if misfired scheduledAt decisionAt then TriggerMisfire else TriggerScheduled.

Definition automatic_instance (id : Z) (job : JobDefinition) (scheduledAt decisionAt : Time) : JobInstance :=
  snapshot id job (snapshot_config job) (trigger_type scheduledAt decisionAt) (Some scheduledAt) None false None.

(** The decision for a due Job: ignored, blocked, duplicate or created. *)
Definition due_result (id : Z) (job : JobDefinition) (scheduledAt decisionAt : Time) : M AutomaticResult :=
  if misfired scheduledAt decisionAt && bool_decide (j_misfire_policy job = MisfireIgnore)
  then mret (skipped "misfire_ignored")
  else
    blocked ← (if bool_decide (j_block_policy job = BlockDiscard) then HasActive InTx id else mret false);
    if blocked : bool then mret (skipped "blocked")
    else
      inserted ← Insert InTx (automatic_instance id job scheduledAt decisionAt);
      mret match inserted with
           | Some new => {| ar_InstanceID := new; ar_Created := true; ar_Reason := "created" |}
           | None => skipped "duplicate"
           end.

Definition automatic_body (id : Z) : M AutomaticResult :=
  r ← attempt (LockJob InTx id);
  match r with
  | Fail e => if errors_is e ErrJobNotFound then mret (skipped "not_found") else fail e
  | Ok job =>
      decisionAt ← Now;
      if negb (bool_decide (j_status job = RecordStatusEnabled)) then mret (skipped "disabled")
      else match j_next_trigger_at job with
      | None => mret (skipped "not_due")
      | Some scheduledAt =>
          if is_after scheduledAt decisionAt then mret (skipped "not_due")
          else
            next ← lift (Next (j_cron_expr job) decisionAt);
            result ← due_result id job scheduledAt decisionAt;
            Advance InTx id next;;
            mret result
      end
  end.

Definition TriggerAutomatic (s : Creator) (id : Z) : M AutomaticResult :=
  if id <=? 0 then fail [ErrInvalidInput]
  else
    acquire true;;
    result ← transact (automatic_body id);
    hint s (ar_Created result) (ar_InstanceID result);;
    mret result.
End trigger.
