(* ===== verification/Dispatcher.v ===== *)
(** * Execution registration

    apps/job/internal/dispatch/registrar.go: the two short transactions that
    authorize an execution attempt under the parent lock.  The second part is dispatcher.go: one
    attempt, registered, sent once and its answer recorded. *)

From S2P Require Import Prelude GoLib Tx Model TaskRepo InstanceRepo.

Open Scope Z_scope.

Definition ErrInvalidInstanceState : Cause := Sentinel "invalid instance execution state".
Definition ErrInvalidExecutionConfig : Cause := Sentinel "invalid instance execution configuration".

Record RegisteredAttempt := {
  ra_JobID : Z; ra_InstanceID : Z; ra_ExecutorGroupID : Z; ra_TaskID : Z; ra_AttemptNo : Z;
  ra_ExecutionConfig : ExecutionConfig; ra_RegisteredAt : Time; ra_DeadlineAt : Time;
}.

(** Whether a parent-check hint is configured. *)
Record Registrar := { reg_hint : bool }.

(** [strings.TrimSpace(name) == ""], length, encoding. *)
Definition valid_processor_name (s : string) : bool :=
  negb (bool_decide (TrimSpace s = "")) && (RuneCountInString s <=? 128) && ValidString s && negb (ContainsNul s).

Definition decodeConfig (data : json) : Result ExecutionConfig :=
  match Scan data with
  | None => Fail [ErrInvalidExecutionConfig; Text "json"]
  | Some config =>
      if negb (SchemaVersion config =? 1) then Fail [ErrInvalidExecutionConfig]
      else if bool_decide (Mode config = ExecutionModeSharded) then Ok config
      else if negb (bool_decide (Mode config = ExecutionModeNormal)) || PostEnabled config ||
              (MaxRetries config <? 0) || (RetryIntervalSeconds config <=? 0) || (TimeoutSeconds config <=? 0) ||
              negb (valid_processor_name (ProcessorName config)) ||
              negb (ValidString (Params config)) || ContainsNul (Params config)
      then Fail [ErrInvalidExecutionConfig]
      else Ok config
  end.

Section registrar.
Context `{UuidLib, PgLib}.

Definition sharded (c : ExecutionConfig) : bool := bool_decide (Mode c = ExecutionModeSharded).

Definition start_body (instanceID : Z) : M (option RegisteredAttempt) :=
  row ← LockForExecution InTx instanceID;
  match row with
  | None => mret None
  | Some instance =>
      if negb (bool_decide (ei_Status instance = InstanceWaiting)) then mret None
      else if negb (ei_ID instance =? instanceID) || negb (bool_decide (ei_StartedAt instance = None)) ||
              negb (bool_decide (ei_DeadlineAt instance = None)) || negb (bool_decide (ei_FinishedAt instance = None))
      then fail [ErrInvalidInstanceState]
      else
        config ← lift (decodeConfig (ei_ExecutionConfig instance));
        if sharded config then mret None
        else if (ei_JobID instance <=? 0) || (ei_ExecutorGroupID instance <=? 0) then fail [ErrInvalidInstanceState]
        else
          startedAt ← DatabaseTime InTx;
          if is_zero startedAt then fail [Text "database returned an empty execution start time"]
          else
            let deadlineAt := startedAt + TimeoutSeconds config * Second in
            changed ← StartExecution InTx instanceID startedAt deadlineAt;
            if negb changed then fail [ErrInvalidInstanceState]
            else
              taskID ← InsertOrdinary InTx instanceID startedAt;
              if taskID <=? 0 then fail [Text "task repository returned an invalid inserted ID"]
              else mret (Some {| ra_JobID := ei_JobID instance; ra_InstanceID := instanceID;
                     ra_ExecutorGroupID := ei_ExecutorGroupID instance; ra_TaskID := taskID; ra_AttemptNo := 1;
                     ra_ExecutionConfig := config; ra_RegisteredAt := startedAt; ra_DeadlineAt := deadlineAt |})
  end.

Definition StartOrdinary (instanceID : Z) : M (option RegisteredAttempt) :=
  if instanceID <=? 0 then fail [Text "dispatch instance ID must be positive"]
  else ctx_err;; transact (start_body instanceID).

(** The fixed start facts a running parent must have. *)
Definition valid_running (instance : ExecutionInstance) (registeredAt : Time) : option Time :=
  match ei_StartedAt instance, ei_DeadlineAt instance with
  | Some s, Some dl =>
      if is_zero registeredAt || is_zero s || negb (is_after dl s) ||
         negb (bool_decide (ei_FinishedAt instance = None)) || (ei_JobID instance <=? 0) ||
         (ei_ExecutorGroupID instance <=? 0)
      then None else Some dl
  | _, _ => None
  end.

Definition retry_write (candidate : RetryCandidate) (config : ExecutionConfig) (registeredAt : Time) : RetryRegistration :=
  {| rr_TaskID := rc_TaskID candidate; rr_InstanceID := rc_InstanceID candidate;
     rr_ExpectedAttemptNo := rc_AttemptNo candidate; rr_MaxAttempts := MaxRetries config + 1;
     rr_RegisteredAt := registeredAt |}.

(** The registered attempt and whether the parent needs a check. *)
Definition retry_body (candidate : RetryCandidate) : M (option RegisteredAttempt * bool) :=
  row ← LockForExecution InTx (rc_InstanceID candidate);
  match row with
  | None => mret (None, false)
  | Some instance =>
      if negb (ei_ID instance =? rc_InstanceID candidate) then fail [ErrInvalidInstanceState]
      else if negb (bool_decide (ei_Status instance = InstanceRunning)) then
        mret (None, bool_decide (ei_Status instance = InstanceStopping))
      else
        registeredAt ← DatabaseTime InTx;
        match valid_running instance registeredAt with
        | None => fail [ErrInvalidInstanceState]
        | Some deadlineAt =>
            if negb (before registeredAt deadlineAt) then mret (None, true)
            else
              config ← lift (decodeConfig (ei_ExecutionConfig instance));
              if sharded config then mret (None, false)
              else
                let maxAttempts := MaxRetries config + 1 in
                task ← RegisterOrdinaryRetry InTx (retry_write candidate config registeredAt);
                match task with
                | None => mret (None, false)
                | Some task =>
                    if negb (rg_TaskID task =? rc_TaskID candidate) ||
                       negb (rg_InstanceID task =? rc_InstanceID candidate) ||
                       (rg_AttemptNo task <=? rc_AttemptNo candidate) ||
                       negb (rg_AttemptNo task - rc_AttemptNo candidate =? 1) ||
                       (rg_UsedAttempts task <=? 0) || (maxAttempts <? rg_UsedAttempts task) ||
                       negb (rg_RegisteredAt task =? registeredAt)
                    then fail [ErrInvalidInstanceState]
                    else mret (Some {| ra_JobID := ei_JobID instance; ra_InstanceID := ei_ID instance;
                           ra_ExecutorGroupID := ei_ExecutorGroupID instance; ra_TaskID := rg_TaskID task;
                           ra_AttemptNo := rg_AttemptNo task; ra_ExecutionConfig := config;
                           ra_RegisteredAt := rg_RegisteredAt task; ra_DeadlineAt := deadlineAt |}, false)
                end
        end
  end.

Definition RetryOrdinary (r : Registrar) (candidate : RetryCandidate) : M (option RegisteredAttempt) :=
  if (rc_TaskID candidate <=? 0) || (rc_InstanceID candidate <=? 0) || (rc_AttemptNo candidate <=? 0)
  then fail [Text "retry candidate identities must be positive"]
  else
    ctx_err;;
    result ← transact (retry_body candidate);
    (if (result.2 : bool) && reg_hint r then emit (Hinted (rc_InstanceID candidate)) else mret ());;
    mret result.1.
End registrar.

(** * Dispatch of one attempt

    apps/job/internal/dispatch/dispatcher.go: register, send once, and persist the
    admission evidence with a bounded number of identical conditional writes. *)

Definition responseWriteAttempts : nat := 3.

Inductive Outcome := OutcomeUnknown | OutcomeAccepted | OutcomeBusy | OutcomeRejected | OutcomeCode (code : Z).
#[global] Instance Outcome_eq_dec : EqDecision Outcome.
Proof. solve_decision. Defined.

Record Response := {
  rs_Outcome : Outcome; rs_ExecutorInstanceID : Z; rs_ExecutorAddress : string; rs_Summary : string;
}.

(** The sender is the execution RPC client: the answer of the call made when
    [n] events have been consumed. *)
Class Sender := send_result : RegisteredAttempt → nat → Result Response.

Record DispatchResult := { dr_Registered : bool; dr_Outcome : Outcome; dr_Applied : bool }.

Record Dispatcher := { dp_registrar : Registrar; dp_hint : bool; dp_totalTimeout : Duration; dp_busyDelay : Duration }.

Definition NewDispatcher (r : Registrar) (hint : bool) (totalTimeout busyDelay : Duration) : Result Dispatcher :=
  if (totalTimeout <=? 0) || (busyDelay <=? 0) || (MaxInt64 / 6 * 5 <? busyDelay)
  then Fail [Text "dispatch total timeout and BUSY delay must be positive and representable with jitter"]
  else Ok {| dp_registrar := r; dp_hint := hint; dp_totalTimeout := totalTimeout; dp_busyDelay := busyDelay |}.

Section dispatcher.
Context `{UuidLib, PgLib, Sender}.

(** [Sender.Dispatch]: the request leaves the process whatever its answer is. *)
Definition Dispatch (a : RegisteredAttempt) : M Response :=
  emit (Sent (ra_TaskID a) (ra_InstanceID a) (ra_AttemptNo a));;
  rpc (send_result a).

(** Up to [n] writes of the same evidence; between two of them the context may
    end while the retry timer runs. *)
Fixpoint save_loop (n : nat) (lastErr : Error) (write : M bool) : M bool :=
  match n with
  | O => fail lastErr
  | S n' =>
      live ← attempt ctx_err;
      match live with
      | Fail e => fail (lastErr ++ e)
      | Ok _ =>
          r ← attempt write;
          match r with
          | Ok applied => mret applied
          | Fail e =>
              if errors_is e ErrInvalidDispatchWrite || errors_is e ErrDispatchWriteRejected then fail e
              else match n' with
              | O => fail e
              | S _ =>
                  waited ← attempt ctx_err;
                  match waited with Fail e' => fail (e ++ e') | Ok _ => save_loop n' e write end
              end
          end
      end
  end.

Definition saveResponse (write : M bool) : M bool := save_loop responseWriteAttempts [] write.

(** The jittered BUSY delay, chosen once. *)
Definition busy_delay (d : Dispatcher) : M Duration :=
  let jitter := Z.quot (dp_busyDelay d) 5 in
  r ← Int64N (2 * jitter + 1);
  mret (dp_busyDelay d - jitter + r).

Definition binding_of (a : RegisteredAttempt) (r : Response) : ExecutorBinding :=
  {| eb_TaskID := ra_TaskID a; eb_InstanceID := ra_InstanceID a; eb_AttemptNo := ra_AttemptNo a;
     eb_ExecutorInstanceID := rs_ExecutorInstanceID r; eb_ExecutorAddress := rs_ExecutorAddress r |}.
Definition busy_of (a : RegisteredAttempt) (delay : Duration) : DispatchBusyWrite :=
  {| bw_TaskID := ra_TaskID a; bw_InstanceID := ra_InstanceID a; bw_AttemptNo := ra_AttemptNo a; bw_Delay := delay |}.
Definition rejection_of (a : RegisteredAttempt) (r : Response) : DispatchRejectionWrite :=
  {| rj_TaskID := ra_TaskID a; rj_InstanceID := ra_InstanceID a; rj_AttemptNo := ra_AttemptNo a;
     rj_MaxRetries := MaxRetries (ra_ExecutionConfig a);
     rj_RetryIntervalSeconds := RetryIntervalSeconds (ra_ExecutionConfig a); rj_Summary := rs_Summary r |}.

(** The conditional write an outcome calls for; no write for the others. *)
Definition response_write (d : Dispatcher) (a : RegisteredAttempt) (r : Response) : M (option (M bool)) :=
  match rs_Outcome r with
  | OutcomeAccepted => mret (Some (BindExecutor Auto (binding_of a r)))
  | OutcomeBusy => delay ← busy_delay d; mret (Some (SaveDispatchBusy Auto (busy_of a delay)))
  | OutcomeRejected => mret (Some (SaveDispatchRejection Auto (rejection_of a r)))
  | OutcomeUnknown | OutcomeCode _ => mret None
  end.

(** The reported facts accompany an error. *)
Definition dispatch (d : Dispatcher) (register : M (option RegisteredAttempt)) : M (DispatchResult * option Error) :=
  let result registered outcome applied :=
    {| dr_Registered := registered; dr_Outcome := outcome; dr_Applied := applied |} in
  live ← attempt ctx_err;
  match live with
  | Fail e => mret (result false OutcomeUnknown false, Some e)
  | Ok _ =>
      reg ← attempt register;
      match reg with
      | Fail e => mret (result false OutcomeUnknown false, Some e)
      | Ok None => mret (result false OutcomeUnknown false, None)
      | Ok (Some a) =>
          live ← attempt ctx_err;
          match live with
          | Fail e => mret (result true OutcomeUnknown false, Some e)
          | Ok _ =>
              sent ← attempt (Dispatch a);
              match sent with
              | Fail e => mret (result true OutcomeUnknown false, Some e)
              | Ok response =>
                  let outcome := rs_Outcome response in
                  write ← response_write d a response;
                  match write with
                  | None =>
                      if bool_decide (outcome = OutcomeUnknown) then mret (result true OutcomeUnknown false, None)
                      else mret (result true OutcomeUnknown false, Some [Text "invalid dispatch outcome"])
                  | Some write =>
                      saved ← attempt (saveResponse write);
                      match saved with
                      | Fail e => mret (result true outcome false, Some e)
                      | Ok applied =>
                          (if (applied : bool) && negb (bool_decide (outcome = OutcomeAccepted)) && dp_hint d
                           then emit (Hinted (ra_InstanceID a)) else mret ());;
                          mret (result true outcome applied, None)
                      end
                  end
              end
          end
      end
  end.

Definition no_result : DispatchResult :=
  {| dr_Registered := false; dr_Outcome := OutcomeUnknown; dr_Applied := false |}.

Definition DispatchOrdinary (d : Dispatcher) (instanceID : Z) : M (DispatchResult * option Error) :=
  if instanceID <=? 0 then mret (no_result, Some [Text "dispatch instance ID must be positive"])
  else dispatch d (StartOrdinary instanceID).

Definition DispatchRetry (d : Dispatcher) (candidate : RetryCandidate) : M (DispatchResult * option Error) :=
  if (rc_TaskID candidate <=? 0) || (rc_InstanceID candidate <=? 0) || (rc_AttemptNo candidate <=? 0)
  then mret (no_result, Some [Text "retry candidate identities must be positive"])
  else dispatch d (RetryOrdinary (dp_registrar d) candidate).
End dispatcher.
