(* ===== verification/ResultSaver.v ===== *)
(** * Saving task results

    apps/job/internal/taskresult: [Report] and [Saver.Save], which validates one
    executor report against persisted ownership and saves it conditionally. *)

From S2P Require Import Prelude GoLib Tx Model TaskRepo.

Open Scope Z_scope.

Definition ErrInvalidStoredState : Cause := Sentinel "invalid persisted task execution state".
Definition ErrInvalidResultConfig : Cause := Sentinel "invalid task result execution configuration".
Definition ErrUnsupportedTaskType : Cause := Sentinel "task result type is not supported by this saver".

Inductive ReportOutcome := OutcomeSuccess | OutcomeFailure | ReportOutcomeCode (code : Z).
#[global] Instance ReportOutcome_eq_dec : EqDecision ReportOutcome.
Proof. solve_decision. Defined.

Record Report := {
  rp_GroupID : Z; rp_JobID : Z; rp_InstanceID : Z; rp_TaskID : Z; rp_AttemptNo : Z;
  rp_ExecutorInstanceID : string; rp_Outcome : ReportOutcome; rp_Summary : string;
  rp_Data : option string; rp_PreparedItems : option (list string);
}.

Record SaveOutcome := { sr_Applied : bool; sr_Reason : string }.

Record Saver := { sv_hint : bool; sv_timeout : Duration }.

Definition NewSaver (hint : bool) (timeout : Duration) : Result Saver :=
  if timeout <=? 0 then Fail [Text "task result save timeout must be positive"]
  else Ok {| sv_hint := hint; sv_timeout := timeout |}.

(** The members of a frozen snapshot that closing an attempt reads: the retry
    settings stay raw until they are needed. *)
Record FrozenConfig := {
  fc_SchemaVersion : Z; fc_Mode : ExecutionMode; fc_MaxRetries : option json; fc_RetryInterval : option json;
}.

Definition decode_frozen (data : json) : option FrozenConfig :=
  l ← members data;
  sv ← decode_with as_int32 0 (jget "schema_version" l);
  em ← decode_with as_int16 0 (jget "execution_mode" l);
  Some {| fc_SchemaVersion := sv; fc_Mode := ExecutionMode_of em;
          fc_MaxRetries := jget "max_retries" l; fc_RetryInterval := jget "retry_interval_seconds" l |}.

(** Both retry settings, present and in range. *)
Definition retry_settings (c : FrozenConfig) : option (Z * Z) :=
  match decode_raw as_int32 (fc_MaxRetries c), decode_raw as_int32 (fc_RetryInterval c) with
  | Some (Some retries), Some (Some interval) =>
      if (retries <? 0) || (interval <=? 0) then None else Some (retries, interval)
  | _, _ => None
  end.

Section saver.
Context `{UuidLib, PgLib}.

Definition finished (s : Saver) (instanceID : Z) (applied : bool) (reason : string) : M SaveOutcome :=
  (if sv_hint s then emit (Hinted instanceID) else mret ());;
  mret {| sr_Applied := applied; sr_Reason := reason |}.

Definition discardResult (reason : string) : M SaveOutcome := mret {| sr_Applied := false; sr_Reason := reason |}.

Definition result_write (report : Report) (identity : Z) (status : TaskStatus) (data : option string)
    (interval : Z) : TaskResultWrite :=
  {| rw_TaskID := rp_TaskID report; rw_InstanceID := rp_InstanceID report; rw_AttemptNo := rp_AttemptNo report;
     rw_ExecutorInstanceID := identity; rw_Status := status; rw_Data := data; rw_Summary := rp_Summary report;
     rw_RetryIntervalSeconds := interval |}.

Definition resultWrite (target : TaskResultTarget) (report : Report) (identity : Z) : Result TaskResultWrite :=
  match decode_frozen (rt_ExecutionConfig target) with
  | None => Fail [ErrInvalidResultConfig; Text "json"]
  | Some config =>
      if negb (fc_SchemaVersion config =? 1) || negb (bool_decide (fc_Mode config = ExecutionModeNormal))
      then Fail [ErrInvalidResultConfig]
      else if bool_decide (rp_Outcome report = OutcomeSuccess)
      then Ok (result_write report identity TaskSucceeded (rp_Data report) 0)
      else match retry_settings config with
      | None => Fail [ErrInvalidResultConfig]
      | Some (maxRetries, interval) =>
          if rt_UsedAttempts target <=? 0 then Fail [ErrInvalidStoredState]
          else if rt_UsedAttempts target <? maxRetries + 1
          then Ok (result_write report identity TaskRetryWaiting None interval)
          else Ok (result_write report identity TaskFailed None 0)
      end
  end.

(** The canonical UUIDv4 of a report. *)
Definition report_identity (report : Report) : option Z :=
  u ← ParseUUID (rp_ExecutorInstanceID report);
  if valid_executor_uuid u && bool_decide (StringUUID u = rp_ExecutorInstanceID report) then Some u else None.

Definition valid_report (report : Report) : option Z :=
  if (rp_GroupID report <=? 0) || (rp_JobID report <=? 0) || (rp_InstanceID report <=? 0) ||
     (rp_TaskID report <=? 0) || (rp_AttemptNo report <=? 0) ||
     negb (bool_decide (rp_Outcome report = OutcomeSuccess) || bool_decide (rp_Outcome report = OutcomeFailure))
  then None else report_identity report.

Definition valid_output (report : Report) : bool :=
  ValidString (rp_Summary report) && negb (ContainsNul (rp_Summary report)) &&
  (negb (bool_decide (rp_Outcome report = OutcomeSuccess)) ||
   (bool_decide (rp_PreparedItems report = None) &&
    match rp_Data report with Some data => ValidString data && JsonValid data | None => true end)).

(** A failed write of successful output is probed once: only PostgreSQL's own
    refusal of the value discards the report. *)
Definition save_failure (report : Report) (e : Error) : M SaveOutcome :=
  live ← attempt ctx_err;
  match live, rp_Data report, pg_code e with
  | Ok _, Some data, Some (code, _) =>
      if bool_decide (rp_Outcome report = OutcomeSuccess) && HasPrefix code "22" then
        r ← attempt (CheckResultData Auto (Some data));
        match r with
        | Ok valid => if valid : bool then fail e else discardResult "invalid_output"
        | Fail e' => fail (e ++ e')
        end
      else fail e
  | _, _, _ => fail e
  end.

Definition save_write (s : Saver) (target : TaskResultTarget) (report : Report) (write : TaskResultWrite)
    : M SaveOutcome :=
  r ← attempt (SaveResult Auto write);
  match r with
  | Fail e => save_failure report e
  | Ok applied => if applied : bool then finished s (rt_InstanceID target) true "saved"
                  else finished s (rt_InstanceID target) false "no_match"
  end.

(** The checks of a report against its persisted target, in order. *)
Definition save_target (s : Saver) (report : Report) (identity : Z) (target : TaskResultTarget) : M SaveOutcome :=
  if negb (rt_TaskID target =? rp_TaskID report) || negb (rt_InstanceID target =? rp_InstanceID report) ||
     negb (rt_JobID target =? rp_JobID report) || negb (rt_ExecutorGroupID target =? rp_GroupID report)
  then discardResult "ownership_mismatch"
  else if negb (rt_AttemptNo target =? rp_AttemptNo report) then finished s (rt_InstanceID target) false "stale_attempt"
  else match rt_Status target with
  | TaskStatusCode _ => fail [ErrInvalidStoredState]
  | TaskWaiting | TaskRetryWaiting | TaskSucceeded | TaskFailed | TaskCanceled =>
      finished s (rt_InstanceID target) false "task_closed"
  | TaskRunning =>
      if match rt_ExecutorInstanceID target with Some u => negb (u =? identity) | None => false end
      then finished s (rt_InstanceID target) false "executor_mismatch"
      else if negb (bool_decide (rt_TaskType target = TaskTypeOrdinary)) then fail [ErrUnsupportedTaskType]
      else if negb (valid_output report) then discardResult "invalid_output"
      else
        write ← lift (resultWrite target report identity);
        save_write s target report write
  end.

Definition Save (s : Saver) (report : Report) : M SaveOutcome :=
  ctx_err;;
  match valid_report report with
  | None => discardResult "invalid_report"
  | Some identity =>
      target ← FindResultTarget Auto (rp_TaskID report);
      match target with
      | None => discardResult "missing_target"
      | Some target => save_target s report identity target
      end
  end.
End saver.
