(* ===== verification/Settler.v ===== *)
(** * Settlement of unknown results

    apps/job/internal/taskrecovery/settler.go: an attempt that stayed unbound for
    the observation period is closed as unknown, and retried within its budget. *)

From S2P Require Import Prelude GoLib Tx Model TaskRepo InstanceRepo ResultSaver.

Open Scope Z_scope.

Definition MaxBatchSize : nat := 16.
Definition ErrInvalidFacts : Cause := Sentinel "invalid unknown-settlement facts".
Definition ErrInvalidConfig : Cause := Sentinel "invalid unknown-settlement configuration".

Record BatchResult := { br_Processed : Z; br_Applied : Z }.

Record Settler := { se_observationPeriod : Duration; se_operationTimeout : Duration; se_hint : bool }.

Definition NewSettler (period timeout : Duration) (hint : bool) : Result Settler :=
  if (period <=? 0) || (timeout <=? 0) then Fail [Text "unknown-settlement periods must be positive"]
  else Ok {| se_observationPeriod := period; se_operationTimeout := timeout; se_hint := hint |}.

(** [frozenBudget]: the attempt budget and retry interval of an ordinary
    snapshot, [None] for a sharded one. *)
Definition frozenBudget (data : json) : Result (option (Z * Duration)) :=
  match decode_frozen data with
  | None => Fail [ErrInvalidConfig; Text "json"]
  | Some config =>
      if negb (fc_SchemaVersion config =? 1) then Fail [ErrInvalidConfig]
      else match fc_Mode config with
      | ExecutionModeSharded => Ok None
      | ExecutionModeNormal =>
          match retry_settings config with
          | None => Fail [ErrInvalidConfig]
          | Some (retries, interval) => Ok (Some (retries + 1, interval * Second))
          end
      | ExecutionModeCode _ => Fail [ErrInvalidConfig]
      end
  end.

Section settler.
Context `{UuidLib, PgLib}.

Definition hintInstance (s : Settler) (id : Z) : M unit := if se_hint s then emit (Hinted id) else mret ().

Definition valid_times (target : UnboundTarget) : option Time :=
  match ut_StartedAt target, ut_DeadlineAt target with
  | Some st, Some dl => if is_zero st || negb (is_after dl st) then None else Some dl
  | _, _ => None
  end.

(** The parent's part of the decision, for an attempt past its observation. *)
Definition prepare_parent (s : Settler) (candidate : UnboundCandidate) (target : UnboundTarget)
    (processedAt : Time) : M (option UnknownSettlement) :=
  match ut_InstanceStatus target with
  | InstanceSucceeded | InstanceFailed | InstanceCanceled | InstanceWaiting => mret None
  | InstanceStopping => hintInstance s (uc_InstanceID candidate);; mret None
  | InstanceStatusCode _ => fail [ErrInvalidFacts]
  | InstanceRunning =>
      match valid_times target with
      | None => mret None
      | Some deadlineAt =>
          if negb (before processedAt deadlineAt) then hintInstance s (uc_InstanceID candidate);; mret None
          else
            budget ← lift (frozenBudget (ut_ExecutionConfig target));
            mret match budget with
                 | None => None
                 | Some (maxAttempts, retryInterval) =>
                     Some {| us_TaskID := uc_TaskID candidate; us_InstanceID := uc_InstanceID candidate;
                             us_ExpectedAttemptNo := uc_AttemptNo candidate; us_MaxAttempts := maxAttempts;
                             us_ProcessedAt := processedAt;
                             us_ObservationCutoff := processedAt - se_observationPeriod s;
                             us_RetryAt := processedAt + retryInterval |}
                 end
      end
  end.

(** [Some write] for an eligible candidate. *)
Definition prepare (s : Settler) (candidate : UnboundCandidate) (target : UnboundTarget) (processedAt : Time)
    : M (option UnknownSettlement) :=
  if negb (ut_InstanceID target =? uc_InstanceID candidate) || negb (ut_AttemptNo target =? uc_AttemptNo candidate)
  then mret None
  else match ut_TaskType target, ut_Status target with
  | TaskTypeCode _, _ => fail [ErrInvalidFacts]
  | (TaskTypePrepare | TaskTypeShard | TaskTypePost), _ => mret None
  | TaskTypeOrdinary, TaskStatusCode _ => fail [ErrInvalidFacts]
  | TaskTypeOrdinary, (TaskWaiting | TaskRetryWaiting | TaskSucceeded | TaskFailed | TaskCanceled) => mret None
  | TaskTypeOrdinary, TaskRunning =>
      if negb (bool_decide (ut_ExecutorInstanceID target = None)) || negb (bool_decide (ut_ExecutorAddress target = None))
      then mret None
      else
        let cutoff := processedAt - se_observationPeriod s in
        match ut_AttemptRegisteredAt target with
        | None => mret None
        | Some registeredAt =>
            if is_zero registeredAt || is_after registeredAt cutoff then mret None
            else prepare_parent s candidate target processedAt
        end
  end.

Definition valid_candidate (c : UnboundCandidate) : bool :=
  negb ((uc_TaskID c <=? 0) || (uc_InstanceID c <=? 0) || (uc_AttemptNo c <=? 0) || is_zero (uc_AttemptRegisteredAt c)).

(** Index the targets; an unrequested or repeated Task is a broken read. *)
Fixpoint index_targets (ids : list Z) (targets : list UnboundTarget) (acc : gmap Z UnboundTarget)
    : option (gmap Z UnboundTarget) :=
  match targets with
  | [] => Some acc
  | t :: rest =>
      if bool_decide (ut_TaskID t ∈ ids) && bool_decide (acc !! ut_TaskID t = None)
      then index_targets ids rest (<[ut_TaskID t := t]> acc) else None
  end.

Definition processed (r : BatchResult) : BatchResult := { r with br_Processed := br_Processed r + 1 }.

Definition settled_matches (candidate : UnboundCandidate) (st : SettledTask) : bool :=
  (st_TaskID st =? uc_TaskID candidate) && (st_InstanceID st =? uc_InstanceID candidate) &&
  (st_AttemptNo st =? uc_AttemptNo candidate) &&
  (bool_decide (st_Status st = TaskRetryWaiting) || bool_decide (st_Status st = TaskFailed)).

(** One eligible candidate: the new tally, and the error that ends the batch. *)
Definition settle_one (s : Settler) (candidate : UnboundCandidate) (write : UnknownSettlement) (r : BatchResult)
    : M (BatchResult * option Error) :=
  settled ← attempt (SettleOrdinaryUnknown Auto write);
  operation ← attempt ctx_err;
  let r := processed r in
  let expired := match operation with Fail e => Some e | Ok _ => None end in
  match settled with
  | Fail e => mret (r, Some e)
  | Ok None => mret (r, expired)
  | Ok (Some st) =>
      if negb (settled_matches candidate st) then mret (r, Some [ErrInvalidFacts])
      else
        hintInstance s (uc_InstanceID candidate);;
        mret ({ r with br_Applied := br_Applied r + 1 }, expired)
  end.

Fixpoint settle_loop (s : Settler) (byID : gmap Z UnboundTarget) (processedAt : Time)
    (candidates : list UnboundCandidate) (r : BatchResult) : M (BatchResult * option Error) :=
  match candidates with
  | [] => mret (r, None)
  | candidate :: rest =>
      live ← attempt ctx_err;
      match live with
      | Fail e => mret (r, Some e)
      | Ok _ =>
          match byID !! uc_TaskID candidate with
          | None => settle_loop s byID processedAt rest (processed r)
          | Some target =>
              prepared ← attempt (prepare s candidate target processedAt);
              match prepared with
              | Fail e => mret (r, Some e)
              | Ok None => settle_loop s byID processedAt rest (processed r)
              | Ok (Some write) =>
                  live ← attempt ctx_err;
                  match live with
                  | Fail e => mret (r, Some e)
                  | Ok _ =>
                      step ← settle_one s candidate write r;
                      match step.2 with
                      | Some e => mret (step.1, Some e)
                      | None => settle_loop s byID processedAt rest step.1
                      end
                  end
              end
          end
      end
  end.

(** One database call under its own budget: a late answer is an error. *)
Definition operation {A} (m : M A) : M A := a ← m; ctx_err;; mret a.

Definition empty_batch : BatchResult := {| br_Processed := 0; br_Applied := 0 |}.

Definition settle_reads (candidates : list UnboundCandidate) : M (Time * gmap Z UnboundTarget) :=
  ctx_err;;
  processedAt ← operation (DatabaseTime Auto);
  if is_zero processedAt then fail [ErrInvalidFacts]
  else
    targets ← operation (FindUnboundTargets Auto (uc_TaskID <$> candidates));
    match index_targets (uc_TaskID <$> candidates) targets ∅ with
    | None => fail [ErrInvalidFacts]
    | Some byID => mret (processedAt, byID)
    end.

Definition SettleBatch (s : Settler) (candidates : list UnboundCandidate) : M (BatchResult * option Error) :=
  if (MaxBatchSize <? length candidates)%nat
  then mret (empty_batch, Some [Text "unknown-settlement batch exceeds its limit"])
  else if bool_decide (candidates = []) then mret (empty_batch, None)
  else if negb (forallb valid_candidate candidates)
  then mret (empty_batch, Some [Text "invalid unknown-settlement candidate"])
  else
    reads ← attempt (settle_reads candidates);
    match reads with
    | Fail e => mret (empty_batch, Some e)
    | Ok (processedAt, byID) => settle_loop s byID processedAt candidates empty_batch
    end.
End settler.
