(* ===== verification/StopController.v ===== *)
(** * Stopping an Instance

    apps/job/internal/instancestop/controller.go: the stop decision under the
    parent lock, and the bounded cancellation batches that converge a stopping
    Instance. *)

From S2P Require Import Prelude GoLib Tx Model TaskRepo InstanceRepo.

Open Scope Z_scope.

Definition ErrInvalidState : Cause := Sentinel "invalid instance stop state".
Definition manualStopSummary : string := "Manual stop requested for this instance.".
Definition timeoutSummary : string := "Instance execution deadline reached.".

Record Decision := {
  de_InstanceID : Z; de_ExecutorGroupID : Z; de_Status : InstanceStatus; de_EndReason : option string; de_New : bool;
}.

Record StopBatch := {
  sb_InstanceID : Z; sb_Status : InstanceStatus; sb_Canceled : Z; sb_More : bool; sb_Completed : bool;
}.

Record Controller := { co_sqlTimeout : Duration; co_batchSize : Z }.

Definition NewController (sqlTimeout : Duration) (batchSize : Z) : Result Controller :=
  if (sqlTimeout <=? 0) || (batchSize <=? 0) then Fail [Text "instance stop settings must be positive"]
  else Ok {| co_sqlTimeout := sqlTimeout; co_batchSize := batchSize |}.

Section controller.
Context `{UuidLib, PgLib}.

(** [sqlCall]: no statement after the context ended, no use of a late answer. *)
Definition sqlCall {A} (call : M A) : M A := ctx_err;; a ← call; ctx_err;; mret a.

Definition observedDecision (instance : StoppingInstance) : Decision :=
  {| de_InstanceID := si_ID instance; de_ExecutorGroupID := si_ExecutorGroupID instance;
     de_Status := si_Status instance; de_EndReason := si_EndReason instance; de_New := false |}.

Definition validActiveTimes (instance : StoppingInstance) : bool :=
  if negb (bool_decide (si_FinishedAt instance = None)) then false
  else if bool_decide (si_Status instance = InstanceWaiting)
  then bool_decide (si_StartedAt instance = None) && bool_decide (si_DeadlineAt instance = None)
  else match si_StartedAt instance, si_DeadlineAt instance with
  | Some s, Some dl => negb (is_zero s) && is_after dl s
  | _, _ => false
  end.

Definition stopOutcome (reason : option string) : option (InstanceStatus * string) :=
  match reason with
  | Some r =>
      if bool_decide (r = EndReasonManualStop)
      then Some (InstanceCanceled, "Task canceled because its instance was manually stopped."%string)
      else if bool_decide (r = EndReasonInstanceTimeout)
      then Some (InstanceFailed, "Task canceled because its instance timed out."%string)
      else None
  | None => None
  end.

Fixpoint ordered_from (previous : Z) (ids : list Z) : bool :=
  match ids with [] => true | id :: rest => (previous <? id) && ordered_from id rest end.
Definition validOrderedIDs (ids : list Z) (limit : Z) : bool :=
  (Z.of_nat (length ids) <=? limit) && ordered_from 0 ids.

(** Whether a locked parent's state lets the decision go on. *)
Definition stop_eligible (status : InstanceStatus) (timeout : bool) : option bool :=
  match status with
  | InstanceStopping | InstanceSucceeded | InstanceFailed | InstanceCanceled => Some false
  | InstanceWaiting => Some (negb timeout)
  | InstanceRunning => Some true
  | InstanceStatusCode _ => None
  end.

Definition decide_stop (instance : StoppingInstance) (timeout : bool) (now : Time) : M Decision :=
  let observed := observedDecision instance in
  let early := match si_DeadlineAt instance with Some dl => before now dl | None => false end in
  if timeout && early then mret observed
  else
    let reason := if timeout then EndReasonInstanceTimeout else EndReasonManualStop in
    let summary := if timeout then timeoutSummary else manualStopSummary in
    changed ← sqlCall (RecordStop InTx (si_ID instance) (si_Status instance) reason summary now);
    if negb changed then fail [ErrInvalidState]
    else mret { observed with de_Status := InstanceStopping; de_EndReason := Some reason; de_New := true }.

Definition stop_body (id : Z) (timeout : bool) : M Decision :=
  row ← sqlCall (LockForStop InTx id false);
  match row with
  | None => fail [ErrInstanceNotFound]
  | Some instance =>
      if negb (si_ID instance =? id) then fail [ErrInvalidState]
      else match stop_eligible (si_Status instance) timeout with
      | None => fail [ErrInvalidState]
      | Some false => mret (observedDecision instance)
      | Some true =>
          now ← sqlCall (DatabaseTime InTx);
          if is_zero now || (si_ExecutorGroupID instance <=? 0) then fail [ErrInvalidState]
          else if negb (validActiveTimes instance) then fail [ErrInvalidState]
          else decide_stop instance timeout now
      end
  end.

Definition requestStop (id : Z) (timeout : bool) : M Decision :=
  if id <=? 0 then fail [Text "instance stop ID must be positive"]
  else ctx_err;; transact (stop_body id timeout).

Definition RequestManual (id : Z) : M Decision := requestStop id false.
Definition RequestTimeout (id : Z) : M Decision := requestStop id true.

Definition stop_batch (id : Z) (status : InstanceStatus) (canceled : Z) (more completed : bool) : StopBatch :=
  {| sb_InstanceID := id; sb_Status := status; sb_Canceled := canceled; sb_More := more; sb_Completed := completed |}.

Definition cancellation (id : Z) (ids : list Z) (reason summary : string) (now : Time) : TaskCancellation :=
  {| tc_InstanceID := id; tc_TaskIDs := ids; tc_Reason := reason; tc_Summary := summary; tc_ProcessedAt := now |}.

(** One batch of a parent that is stopping for a known reason. *)
Definition converge (c : Controller) (id : Z) (reason : string) (target : InstanceStatus) (summary : string)
    : M StopBatch :=
  ids ← sqlCall (ListUnfinishedIDs InTx id (co_batchSize c));
  if negb (validOrderedIDs ids (co_batchSize c)) then fail [ErrInvalidState]
  else if bool_decide (ids = []) then
    changed ← sqlCall (FinishStop InTx id reason);
    mret (if changed : bool then stop_batch id target 0 false true else stop_batch id InstanceStopping 0 false false)
  else
    now ← sqlCall (DatabaseTime InTx);
    if is_zero now then fail [ErrInvalidState]
    else
      canceled ← sqlCall (CancelUnfinished InTx (cancellation id ids reason summary now));
      if (canceled <? 0) || (Z.of_nat (length ids) <? canceled) then fail [ErrInvalidState]
      else mret (stop_batch id InstanceStopping canceled true false).

Definition batch_body (c : Controller) (id : Z) : M StopBatch :=
  row ← sqlCall (LockForStop InTx id true);
  match row with
  | None => mret (stop_batch 0 (InstanceStatusCode 0) 0 false false)
  | Some instance =>
      if negb (si_ID instance =? id) then fail [ErrInvalidState]
      else match si_Status instance with
      | InstanceStatusCode _ => fail [ErrInvalidState]
      | InstanceStopping =>
          match stopOutcome (si_EndReason instance), si_EndReason instance with
          | Some (target, summary), Some reason =>
              if bool_decide (si_FinishedAt instance = None) then converge c id reason target summary
              else fail [ErrInvalidState]
          | _, _ => fail [ErrInvalidState]
          end
      | status => mret (stop_batch id status 0 false false)
      end
  end.

Definition ProcessBatch (c : Controller) (id : Z) : M StopBatch :=
  if id <=? 0 then fail [Text "instance stop ID must be positive"]
  else ctx_err;; transact (batch_body c id).
End controller.
