(* ===== verification/Checker.v ===== *)
(** * Instance completion checks

    apps/job/internal/instancecheck/checker.go: one finite check reads the parent
    with its ordinary Task, completes it on final facts, and otherwise may request
    a timeout stop. *)

From S2P Require Import Prelude GoLib Tx Model TaskRepo InstanceRepo StopController.

Open Scope Z_scope.

Definition ErrInvalidCompletion : Cause := Sentinel "invalid instance completion facts".
Definition ErrInvalidCompletionConfig : Cause := Sentinel "invalid instance completion configuration".

Inductive CheckOutcome :=
| OutcomeSkipped | OutcomeNotReady | OutcomeStopping | OutcomeNotApplied | OutcomeTerminal.
#[global] Instance CheckOutcome_eq_dec : EqDecision CheckOutcome.
Proof. solve_decision. Defined.

(** [WithStopping] configures all three callbacks together. *)
Record Checker := { ck_stopping : bool }.

(** The settings that take part in completion. *)
Record CompletionConfig := {
  cc_SchemaVersion : option Z; cc_Mode : option ExecutionMode; cc_PostEnabled : option bool;
}.

Definition decode_completion (data : json) : option CompletionConfig :=
  l ← members data;
  sv ← decode_ptr as_int32 (jget "schema_version" l);
  em ← decode_ptr as_int16 (jget "execution_mode" l);
  pe ← decode_ptr as_bool (jget "post_enabled" l);
  Some {| cc_SchemaVersion := sv; cc_Mode := ExecutionMode_of <$> em; cc_PostEnabled := pe |}.

(** Whether the snapshot is an ordinary one: [Ok false] for a sharded one. *)
Definition ordinary_config (data : json) : Result bool :=
  match decode_completion data with
  | None => Fail [ErrInvalidCompletionConfig; Text "json"]
  | Some config =>
      if negb (bool_decide (cc_SchemaVersion config = Some 1)) then Fail [ErrInvalidCompletionConfig]
      else match cc_Mode config with
      | None | Some (ExecutionModeCode _) => Fail [ErrInvalidCompletionConfig]
      | Some ExecutionModeSharded => Ok false
      | Some ExecutionModeNormal =>
          if bool_decide (cc_PostEnabled config = Some false) then Ok true else Fail [ErrInvalidCompletionConfig]
      end
  end.

Section checker.
Context `{UuidLib, PgLib}.

(** A panicking callback is recovered: [handoff] always returns. *)
Definition resumeStopping (c : Checker) (id : Z) : M unit :=
  if ck_stopping c then emit (StopResumed id) else mret ().

Definition valid_decision (id : Z) (d : Decision) : bool :=
  (de_InstanceID d =? id) &&
  (negb (de_New d) ||
   (bool_decide (de_Status d = InstanceStopping) && (0 <? de_ExecutorGroupID d) &&
    bool_decide (de_EndReason d = Some EndReasonInstanceTimeout))).

Definition timeout_outcome (c : Checker) (id : Z) (d : Decision) : M CheckOutcome :=
  if negb (valid_decision id d) then fail [ErrInvalidCompletion]
  else match de_Status d with
  | InstanceStopping =>
      (if de_New d then emit (StopPublished id (de_ExecutorGroupID d)) else resumeStopping c id);;
      mret OutcomeStopping
  | InstanceSucceeded | InstanceFailed | InstanceCanceled => mret OutcomeTerminal
  | InstanceWaiting => mret OutcomeSkipped
  | InstanceRunning => mret OutcomeNotReady
  | InstanceStatusCode _ => fail [ErrInvalidCompletion]
  end.

Definition notReady (c : Checker) (facts : InstanceCompletion) : M CheckOutcome :=
  if negb (ck_stopping c) then mret OutcomeNotReady
  else match ic_DeadlineAt facts with
  | None => fail [ErrInvalidCompletion]
  | Some deadlineAt =>
      if is_zero deadlineAt then fail [ErrInvalidCompletion]
      else
        ctx_err;;
        now ← DatabaseTime Auto;
        ctx_err;;
        if is_zero now then fail [ErrInvalidCompletion]
        else if before now deadlineAt then mret OutcomeNotReady
        else
          decision ← RequestTimeout (ic_ID facts);
          timeout_outcome c (ic_ID facts) decision
  end.

Definition complete_instance (facts : InstanceCompletion) (target : InstanceStatus) : M CheckOutcome :=
  changed ← Complete Auto (ic_ID facts) target (ic_ResultSummary facts);
  mret (if changed : bool then OutcomeTerminal else OutcomeNotApplied).

(** A running ordinary parent: its Task decides. *)
Definition check_task (c : Checker) (facts : InstanceCompletion) : M CheckOutcome :=
  match ic_TaskID facts with
  | None => notReady c facts
  | Some taskID =>
      if taskID <=? 0 then fail [ErrInvalidCompletion]
      else match ic_TaskStatus facts with
      | None | Some (TaskStatusCode _) => fail [ErrInvalidCompletion]
      | Some (TaskWaiting | TaskRunning | TaskRetryWaiting | TaskCanceled) => notReady c facts
      | Some TaskSucceeded => complete_instance facts InstanceSucceeded
      | Some TaskFailed => complete_instance facts InstanceFailed
      end
  end.

Definition Check (c : Checker) (id : Z) : M CheckOutcome :=
  if id <=? 0 then fail [Text "instance check ID must be positive"]
  else
    ctx_err;;
    row ← FindCompletion Auto id;
    match row with
    | None => mret OutcomeSkipped
    | Some facts =>
        if negb (ic_ID facts =? id) then fail [ErrInvalidCompletion]
        else match ic_Status facts with
        | InstanceSucceeded | InstanceFailed | InstanceCanceled => mret OutcomeTerminal
        | InstanceWaiting => mret OutcomeSkipped
        | InstanceStopping => resumeStopping c id;; mret OutcomeStopping
        | InstanceStatusCode _ => fail [ErrInvalidCompletion]
        | InstanceRunning =>
            ordinary ← lift (ordinary_config (ic_ExecutionConfig facts));
            if ordinary : bool then check_task c facts else mret OutcomeSkipped
        end
    end.
End checker.
