(* ===== verification/RpcErrors.v ===== *)
(** * Errors at RPC boundaries

    pkg/bizerror/error.go and interceptor.go: business failures carry a stable
    subcode across internal RPC boundaries as an extended status code with an
    ErrorInfo reason.  pkg/subcode/common.go names the shared subcodes.  The gRPC
    library is a parameter: [GrpcLib] is what status.Convert returns for an error. *)

From S2P Require Import Prelude GoLib Model.

Open Scope string_scope.
Open Scope list_scope.
Open Scope Z_scope.

(** ** Status codes and statuses *)

Definition codes_Canceled : Z := 1.
Definition codes_InvalidArgument : Z := 3.
Definition codes_DeadlineExceeded : Z := 4.
Definition codes_PermissionDenied : Z := 7.
Definition codes_ResourceExhausted : Z := 8.
Definition codes_Internal : Z := 13.
Definition codes_Unavailable : Z := 14.
Definition codes_Unauthenticated : Z := 16.

Record Status := { st_code : Z; st_message : string; st_reasons : list string }.

(** [status.Error]: a status without details. *)
Definition status_error (code : Z) (message : string) : Error := [StatusErr code message []].

(** google.golang.org/grpc/status: the status an error stands for. *)
Class GrpcLib := Convert : Error → Status.

(** Documented behaviour of status.Convert: an error that is a status converts to it. *)
Definition grpc_convert_status `{GrpcLib} : Prop :=
  ∀ code message reasons, Convert [StatusErr code message reasons] = {| st_code := code; st_message := message; st_reasons := reasons |}.

(** ** Business errors *)

Definition MinCode : Z := 100000.
Definition DefaultCode : Z := 100001.
Definition MaxCode : Z := 2 ^ 31 - 1.

Definition InvalidRequest : string := "common.invalid_request".
Definition ResourceNotFound : string := "common.resource_not_found".

Definition NewCode (code : Z) (subcode message : string) : Error := [BizErr code subcode message].
Definition New (subcode message : string) : Error := NewCode DefaultCode subcode message.

(** [From]: the first business error of the chain. *)
Fixpoint From (e : Error) : option (Z * string * string) :=
  match e with
  | [] => None
  | BizErr code subcode message :: _ => Some (code, subcode, message)
  | _ :: rest => From rest
  end.

Definition IsCode (code : Z) : bool := (MinCode <=? code) && (code <=? MaxCode).

(** [subcodePattern] as an automaton: at least two segments separated by dots, each a
    lower-case letter followed by lower-case letters, digits and underscores.
    [segment] is true inside a segment, [dots] once a separator has been read. *)
Definition lower (b : Z) : bool := between 97 122 b.
Definition word (b : Z) : bool := lower b || is_digit b || (b =? 95).
Fixpoint matches (segment dots : bool) (l : list Z) : bool :=
  match l with
  | [] => segment && dots
  | b :: rest =>
      if segment then (if word b then matches true dots rest else (b =? 46) && matches false true rest)
      else lower b && matches true dots rest
  end.
Definition IsSubcode (subcode : string) : bool := matches false false (bytes subcode).

Definition SubcodeFromStatus (st : Status) : option string :=
  if negb (IsCode (st_code st)) then None else List.find IsSubcode (st_reasons st).

(** [UnaryServerInterceptor]: what leaves the server for the handler's result. *)
Definition UnaryServerInterceptor {A} (r : Result A) : Result A :=
  match r with
  | Ok a => Ok a
  | Fail e =>
      match From e with
      | None => Fail e
      | Some (code, subcode, message) =>
          if negb (IsCode code) then Fail (status_error codes_Internal "internal server error")
          else if negb (IsSubcode subcode) then Fail (status_error codes_Internal "internal server error")
          else Fail [StatusErr code message [subcode]]
      end
  end.

(** ** The error boundary *)

(** A business error crosses an RPC boundary with its code, subcode and message, and
    only a valid one does: anything else arrives as an internal error. *)
Lemma interceptor_business `{GrpcLib} {A} code subcode message e :
  grpc_convert_status → From e = Some (code, subcode, message) →
  ∃ e', UnaryServerInterceptor (Fail e : Result A) = Fail e' ∧
    (IsCode code = true ∧ IsSubcode subcode = true →
       SubcodeFromStatus (Convert e') = Some subcode ∧ st_code (Convert e') = code ∧ st_message (Convert e') = message) ∧
    (IsCode code = false ∨ IsSubcode subcode = false →
       SubcodeFromStatus (Convert e') = None ∧ st_code (Convert e') = codes_Internal).
Proof.
  intros Hc Hf. unfold UnaryServerInterceptor. rewrite Hf. unfold status_error.
  destruct (IsCode code) eqn:E1, (IsSubcode subcode) eqn:E2; simpl; eexists; (split; [done|]); rewrite !Hc; simpl;
    (split; [intros [? ?]; try done|intros [?|?]; done]).
  unfold SubcodeFromStatus. simpl. by rewrite E1, E2.
Qed.

Lemma From_none_not_biz e : From e = None → ∀ code subcode message, BizErr code subcode message ∉ e.
Proof.
  induction e as [|c e IH]; intros Hf code subcode message; [apply not_elem_of_nil|].
  destruct c; simplify_eq/=; rewrite not_elem_of_cons; split; try done; by apply IH.
Qed.
