(* ===== verification/JobLogic.v ===== *)
(** * The handlers of the Job RPC service

    apps/job/rpc/internal/logic: request validation (validation.go, executorgroup.go),
    the error mapping of management operations (jobmanagement.go, executionquery.go),
    the projections of rows onto responses (projection.go, executionquery.go) and one
    operation per RPC.  A handler that changes rows runs its statements in one
    transaction and notifies other nodes only after the confirmed commit. *)

From S2P Require Import Prelude GoLib Tx Model TaskRepo InstanceRepo JobRepo Trigger StopController RpcErrors.

Open Scope string_scope.
Open Scope list_scope.
Open Scope Z_scope.

(** ** Requests *)

(** An absent optional field is [None]; a nil message too. *)
Record JobInput := {
  ji_Name : string; ji_Remark : string; ji_ExecutorGroupId : Z; ji_ProcessorName : string;
  ji_ExecutionMode : option Z; ji_PostEnabled : option bool; ji_Params : string; ji_CronExpr : string;
  ji_MisfirePolicy : option Z; ji_BlockPolicy : option Z; ji_MaxRetries : option Z; ji_RetryIntervalSeconds : option Z;
  ji_TimeoutSeconds : Z;
}.
Record ListJobsRequest := {
  lj_Page : Z; lj_PageSize : Z; lj_Id : option Z; lj_Name : string; lj_ExecutorGroupId : option Z; lj_Status : option Z;
}.
Record TriggerJobRequest := {
  tj_Id : Z; tj_RequestId : string; tj_ParamsOverridden : option bool; tj_Params : option string; tj_OperatorId : Z;
}.

(** ** Validation *)

Definition invalidInput {A} : Result A := Fail (status_error codes_InvalidArgument "invalid job request").

Definition normalizeText (value : string) (required : bool) (capacity : Z) : Result string :=
  if negb (ValidString value) || ContainsNul value then invalidInput
  else
    let value := TrimSpace value in
    if (required && bool_decide (value = "")) || ((0 <? capacity) && (capacity <? RuneCountInString value)) then invalidInput
    else Ok value.

Definition MisfirePolicy_of (c : Z) : MisfirePolicy :=
  if c =? 0 then MisfireIgnore else if c =? 1 then MisfireOnce else MisfirePolicyCode c.
Definition BlockPolicy_of (c : Z) : BlockPolicy :=
  if c =? 0 then BlockDiscard else if c =? 1 then BlockParallel else BlockPolicyCode c.
Definition RecordStatus_of (c : Z) : RecordStatus :=
  if c =? 0 then RecordStatusDisabled else if c =? 1 then RecordStatusEnabled else RecordStatusCode c.

Definition absent {A} (o : option A) : bool := match o with None => true | Some _ => false end.
Definition missing_required (input : JobInput) : bool :=
  absent (ji_ExecutionMode input) || absent (ji_PostEnabled input) || absent (ji_MisfirePolicy input) ||
  absent (ji_BlockPolicy input) || absent (ji_MaxRetries input) || absent (ji_RetryIntervalSeconds input).

Definition maxSeconds : Z := MaxInt64 / Second.

Section validation.
Context `{UuidLib, CronLib}.

(** A new definition is disabled and has no progress. *)
Definition normalizeInput (input : option JobInput) (create : bool) (now : Time) : Result JobDefinition :=
  match input with
  | None => invalidInput
  | Some input =>
      if (ji_ExecutorGroupId input <=? 0) || (ji_TimeoutSeconds input <=? 0) then invalidInput
      else if negb create && missing_required input then invalidInput
      else
        let execution := default 1 (ji_ExecutionMode input) in
        let post := default false (ji_PostEnabled input) in
        let misfire := default 0 (ji_MisfirePolicy input) in
        let block := default 0 (ji_BlockPolicy input) in
        let retries := default 3 (ji_MaxRetries input) in
        let interval := default 10 (ji_RetryIntervalSeconds input) in
        if (negb (execution =? 1) && negb (execution =? 2)) || ((execution =? 1) && post) ||
           (negb (misfire =? 0) && negb (misfire =? 1)) || (negb (block =? 0) && negb (block =? 1)) ||
           (retries <? 0) || (interval <=? 0)
        then invalidInput
        else if (maxSeconds <? interval) || (maxSeconds <? ji_TimeoutSeconds input) then invalidInput
        else
          result_bind (normalizeText (ji_Name input) true 128) (λ name,
          result_bind (normalizeText (ji_Remark input) false 500) (λ remark,
          result_bind (normalizeText (ji_ProcessorName input) true 128) (λ processor,
          result_bind (normalizeText (ji_Params input) false 0) (λ params,
          result_bind (normalizeText (ji_CronExpr input) true 128) (λ cron,
          match Next cron now with
          | Fail _ => invalidInput
          | Ok _ =>
              Ok {| j_name := name; j_remark := remark; j_executor_group_id := ji_ExecutorGroupId input;
                    j_processor_name := processor; j_execution_mode := ExecutionMode_of execution; j_post_enabled := post;
                    j_params := params; j_cron_expr := cron; j_status := RecordStatusDisabled;
                    j_misfire_policy := MisfirePolicy_of misfire; j_block_policy := BlockPolicy_of block;
                    j_max_retries := retries; j_retry_interval_seconds := interval; j_timeout_seconds := ji_TimeoutSeconds input;
                    j_next_trigger_at := None; j_created_at := 0; j_updated_at := 0; j_deleted_at := None |}
          end)))))
  end.

Definition validStatus (value : Z) : bool := (value =? 0) || (value =? 1).
Definition not_positive (o : option Z) : bool := match o with Some v => v <=? 0 | None => false end.

(** [in.Page-1 > math.MaxInt64/in.PageSize] and the other limits of a page. *)
Definition bad_page (page pageSize : Z) : bool :=
  (page <? 1) || (pageSize <? 1) || (200 <? pageSize) || (MaxInt64 / pageSize <? page - 1).

Definition normalizeFilter (input : ListJobsRequest) : Result JobFilter :=
  if bad_page (lj_Page input) (lj_PageSize input) || not_positive (lj_Id input) || not_positive (lj_ExecutorGroupId input) ||
     match lj_Status input with Some s => negb (validStatus s) | None => false end
  then invalidInput
  else result_bind (normalizeText (lj_Name input) false 128) (λ name,
    Ok {| jf_Page := lj_Page input; jf_PageSize := lj_PageSize input; jf_ID := lj_Id input; jf_Name := name;
          jf_ExecutorGroupID := lj_ExecutorGroupId input; jf_Status := RecordStatus_of <$> lj_Status input |}).

Definition normalizeTrigger (input : TriggerJobRequest) : Result ManualTrigger :=
  match tj_ParamsOverridden input with
  | None => invalidInput
  | Some overridden =>
      if (tj_Id input <=? 0) || (tj_OperatorId input <=? 0) then invalidInput
      else if (overridden && absent (tj_Params input)) || (negb overridden && negb (absent (tj_Params input))) then invalidInput
      else match ParseUUID (tj_RequestId input) with
      | None => invalidInput
      | Some requestID =>
          if negb (Z.of_nat (String.length (tj_RequestId input)) =? 36) then invalidInput
          else
            result_bind (match tj_Params input with Some params => normalizeText params false 0 | None => Ok "" end) (λ params,
              Ok {| mt_JobID := tj_Id input; mt_RequestID := requestID; mt_ParamsOverridden := overridden; mt_Params := params;
                    mt_OperatorID := tj_OperatorId input |})
      end
  end.

(** A stored definition before it is enabled. *)
Definition validateStoredDefinition (d : JobDefinition) : Result unit :=
  result_bind (normalizeText (j_name d) true 128) (λ _,
  result_bind (normalizeText (j_remark d) false 500) (λ _,
  result_bind (normalizeText (j_processor_name d) true 128) (λ _,
  result_bind (normalizeText (j_params d) false 0) (λ _,
  result_bind (normalizeText (j_cron_expr d) true 128) (λ _,
    if (j_executor_group_id d <=? 0) ||
       (negb (bool_decide (j_execution_mode d = ExecutionModeNormal)) && negb (bool_decide (j_execution_mode d = ExecutionModeSharded))) ||
       (bool_decide (j_execution_mode d = ExecutionModeNormal) && j_post_enabled d) ||
       (negb (bool_decide (j_misfire_policy d = MisfireIgnore)) && negb (bool_decide (j_misfire_policy d = MisfireOnce))) ||
       (negb (bool_decide (j_block_policy d = BlockDiscard)) && negb (bool_decide (j_block_policy d = BlockParallel))) ||
       (j_max_retries d <? 0) || (j_retry_interval_seconds d <=? 0) || (j_timeout_seconds d <=? 0)
    then invalidInput else Ok ()))))).
End validation.

Definition validGroupIdentity (value : string) (capacity : Z) : bool :=
  negb (bool_decide (value = "")) && bool_decide (value = TrimSpace value) && ValidString value && negb (ContainsNul value) &&
  (RuneCountInString value <=? capacity).

(** ** Errors *)

Definition JobNotFound : string := "job.definition.not_found".
Definition JobStateNotAllowed : string := "job.definition.state_not_allowed".
Definition JobActiveInstances : string := "job.definition.active_instances".
Definition JobExecutorGroupUnavailable : string := "job.definition.executor_group_unavailable".
Definition JobTriggerBlocked : string := "job.trigger.blocked".
Definition JobTriggerRequestConflict : string := "job.trigger.request_conflict".
Definition JobTriggerCapacityBusy : string := "job.trigger.capacity_busy".
Definition InstanceNotFound : string := "job.instance.not_found".
Definition ExecutorGroupNotFound : string := "job.executor_group.not_found".
Definition ExecutorGroupNameExists : string := "job.executor_group.name_exists".
Definition ExecutorGroupDiscoveryKeyExists : string := "job.executor_group.discovery_key_exists".
Definition ExecutorGroupInUse : string := "job.executor_group.in_use".

(** [ContextErr] stands for both context errors, the status for what FromContextError
    makes of either. *)
Definition rpcOperationError (operation : string) (e : Error) : Error :=
  if errors_is e ContextErr then Text operation :: StatusErr codes_Canceled "context error" [] :: e else Text operation :: e.

Definition jobManagementError (operation : string) (e : Error) : Error :=
  if errors_is e ErrJobNotFound then New JobNotFound "任务不存在"
  else if errors_is e ErrJobStateNotAllowed then New JobStateNotAllowed "请先停用任务再进行修改"
  else if errors_is e ErrExecutorGroupUnavailable then New JobExecutorGroupUnavailable "执行器组不可用"
  else rpcOperationError operation e.

Definition executorGroupError (operation : string) (e : Error) : Error :=
  if errors_is e ErrExecutorGroupUnavailable then New ExecutorGroupNotFound "执行器组不存在"
  else if errors_is e ErrExecutorGroupNameExists then New ExecutorGroupNameExists "执行器组名称已存在"
  else if errors_is e ErrExecutorGroupDiscoveryKeyExists then New ExecutorGroupDiscoveryKeyExists "执行器组发现 Key 已存在"
  else rpcOperationError operation e.

Definition instanceNotFound : Error := New InstanceNotFound "任务实例不存在".
Definition instanceQueryError (operation : string) (e : Error) : Error :=
  if errors_is e ErrInstanceNotFound then instanceNotFound else rpcOperationError operation e.

Definition invalid_input_error : Error := status_error codes_InvalidArgument "invalid job request".
Definition manualTriggerError (e : Error) : Error :=
  if errors_is e ErrInvalidInput then invalid_input_error
  else if errors_is e ErrJobNotFound then New JobNotFound "任务不存在"
  else if errors_is e ErrExecutorGroupUnavailable then New JobExecutorGroupUnavailable "执行器组不可用"
  else if errors_is e ErrBlocked then New JobTriggerBlocked "存在未结束的实例，本次触发被阻塞"
  else if errors_is e ErrRequestConflict then New JobTriggerRequestConflict "请求标识已被用于不同的参数"
  else if errors_is e ErrCapacityBusy then New JobTriggerCapacityBusy "实例创建繁忙，请稍后重试"
  else rpcOperationError "trigger job manually" e.

(** ** Responses *)

(** [time.Time.Format(time.RFC3339Nano)]: the text depends on the location a time carries. *)
Class TimeText := RFC3339Nano : Time → string.

(** Enumerations stand for the codes the messages carry. *)

Record JobListItemResponse := {
  lr_Id : Z; lr_Name : string; lr_ExecutorGroupId : Z; lr_ExecutorGroupName : option string; lr_ProcessorName : string;
  lr_ExecutionMode : ExecutionMode; lr_CronExpr : string; lr_Status : RecordStatus; lr_NextTriggerAt : option string;
  lr_CreatedAt : string; lr_UpdatedAt : string;
}.
Record JobInfo := {
  jo_Item : JobListItemResponse; jo_Remark : string; jo_PostEnabled : bool; jo_Params : string; jo_MisfirePolicy : MisfirePolicy;
  jo_BlockPolicy : BlockPolicy; jo_MaxRetries : Z; jo_RetryIntervalSeconds : Z; jo_TimeoutSeconds : Z;
}.
Record InstanceInfo := {
  ii_Id : Z; ii_JobId : Z; ii_JobName : string; ii_ExecutorGroupId : Z; ii_TriggerType : TriggerType;
  ii_ScheduledAt : option string; ii_RequestId : option string; ii_ParamsOverridden : bool; ii_TriggeredBy : option Z;
  ii_ExecutionConfig : ExecutionConfig; ii_Status : InstanceStatus; ii_StartedAt : option string; ii_DeadlineAt : option string;
  ii_FinishedAt : option string; ii_EndReason : option string; ii_ResultSummary : option string; ii_CreatedAt : string; ii_UpdatedAt : string;
}.
Record TaskListItem := {
  tl_Id : Z; tl_InstanceId : Z; tl_TaskType : TaskType; tl_Status : TaskStatus; tl_AttemptNo : Z; tl_UsedAttempts : Z;
  tl_AttemptRegisteredAt : option string; tl_NextDispatchAt : option string; tl_ExecutorInstanceId : option string;
  tl_ExecutorAddress : option string; tl_ResultSummary : option string; tl_EndReason : option string;
  tl_StartedAt : option string; tl_FinishedAt : option string; tl_CreatedAt : string; tl_UpdatedAt : string;
}.
Record ExecutorGroupInfo := {
  gi_Id : Z; gi_Name : string; gi_DiscoveryKey : string; gi_Token : string; gi_CreatedAt : string; gi_UpdatedAt : string;
}.

Section responses.
Context `{UuidLib, TimeText}.

Definition nextTime (status : RecordStatus) (value : option Time) : option string :=
  if negb (bool_decide (status = RecordStatusEnabled)) then None else RFC3339Nano <$> value.

Definition listItem (value : JobListItem) : JobListItemResponse :=
  {| lr_Id := jl_ID value; lr_Name := jl_Name value; lr_ExecutorGroupId := jl_ExecutorGroupID value;
     lr_ExecutorGroupName := jl_ExecutorGroupName value; lr_ProcessorName := jl_ProcessorName value;
     lr_ExecutionMode := jl_ExecutionMode value; lr_CronExpr := jl_CronExpr value; lr_Status := jl_Status value;
     lr_NextTriggerAt := nextTime (jl_Status value) (jl_NextTriggerAt value);
     lr_CreatedAt := RFC3339Nano (jl_CreatedAt value); lr_UpdatedAt := RFC3339Nano (jl_UpdatedAt value) |}.

Definition jobInfo (value : JobDetail) : JobInfo :=
  let j := jd_Job value in
  {| jo_Item := {| lr_Id := jd_ID value; lr_Name := j_name j; lr_ExecutorGroupId := j_executor_group_id j;
       lr_ExecutorGroupName := jd_ExecutorGroupName value; lr_ProcessorName := j_processor_name j;
       lr_ExecutionMode := j_execution_mode j; lr_CronExpr := j_cron_expr j; lr_Status := j_status j;
       lr_NextTriggerAt := nextTime (j_status j) (j_next_trigger_at j);
       lr_CreatedAt := RFC3339Nano (j_created_at j); lr_UpdatedAt := RFC3339Nano (j_updated_at j) |};
     jo_Remark := j_remark j; jo_PostEnabled := j_post_enabled j; jo_Params := j_params j; jo_MisfirePolicy := j_misfire_policy j;
     jo_BlockPolicy := j_block_policy j; jo_MaxRetries := j_max_retries j; jo_RetryIntervalSeconds := j_retry_interval_seconds j;
     jo_TimeoutSeconds := j_timeout_seconds j |}.

Definition executionTime (value : option Time) : option string := RFC3339Nano <$> value.
Definition executionUUID (value : option Z) : option string := StringUUID <$> value.

Definition instanceInfo (id : Z) (value : JobInstance) (config : ExecutionConfig) : InstanceInfo :=
  {| ii_Id := id; ii_JobId := i_job_id value; ii_JobName := i_job_name value; ii_ExecutorGroupId := i_executor_group_id value;
     ii_TriggerType := i_trigger_type value; ii_ScheduledAt := executionTime (i_scheduled_at value);
     ii_RequestId := executionUUID (i_request_id value); ii_ParamsOverridden := i_params_overridden value;
     ii_TriggeredBy := i_triggered_by value; ii_ExecutionConfig := config; ii_Status := i_status value;
     ii_StartedAt := executionTime (i_started_at value); ii_DeadlineAt := executionTime (i_deadline_at value);
     ii_FinishedAt := executionTime (i_finished_at value); ii_EndReason := i_end_reason value; ii_ResultSummary := i_result_summary value;
     ii_CreatedAt := RFC3339Nano (i_created_at value); ii_UpdatedAt := RFC3339Nano (i_updated_at value) |}.

Definition taskListItem (r : Z * JobTask) : TaskListItem :=
  let value := r.2 in
  {| tl_Id := r.1; tl_InstanceId := t_instance_id value; tl_TaskType := t_task_type value; tl_Status := t_status value;
     tl_AttemptNo := t_attempt_no value; tl_UsedAttempts := t_used_attempts value;
     tl_AttemptRegisteredAt := executionTime (t_attempt_registered_at value); tl_NextDispatchAt := executionTime (t_next_dispatch_at value);
     tl_ExecutorInstanceId := executionUUID (t_executor_instance_id value); tl_ExecutorAddress := t_executor_address value;
     tl_ResultSummary := t_result_summary value; tl_EndReason := t_end_reason value;
     tl_StartedAt := executionTime (t_started_at value); tl_FinishedAt := executionTime (t_finished_at value);
     tl_CreatedAt := RFC3339Nano (t_created_at value); tl_UpdatedAt := RFC3339Nano (t_updated_at value) |}.
End responses.

(** ** Handlers *)

(** github.com/google/uuid: the identity drawn at an event, or the failure of the source. *)
Class UuidRandom := NewRandom : nat → Result Z.

(** The service context: the creator of Instances, and whether callbacks are set. *)
Record ServiceContext := { sc_Trigger : Creator; sc_NotifyJobChanged : bool; sc_AfterInstanceStopped : bool }.

(** [strings.ReplaceAll(s, "-", "")] *)
Definition remove_hyphens (s : string) : string := of_bytes (filter (λ b, b ≠ 45) (bytes s)).

Section handlers.
Context `{UuidLib, PgLib, CronLib, TimeText, UuidRandom} (sc : ServiceContext).

(** A failed notification is only logged. *)
Definition notifyJobChanged : M unit :=
  if negb (sc_NotifyJobChanged sc) then mret ()
  else e ← pop; if ev_done e then mret () else emit JobsChanged.

Definition create_job_body (definition : JobDefinition) : M Z :=
  LockAvailable InTx (j_executor_group_id definition);;
  definition ← (if bool_decide (j_status definition = RecordStatusEnabled) then
                  now ← Now;
                  match Next (j_cron_expr definition) now with
                  | Ok next => mret { definition with j_next_trigger_at := Some next }
                  | Fail _ => fail invalid_input_error
                  end
                else mret definition);
  CreateJob InTx definition.

Definition CreateJobLogic (status : option Z) (config : option JobInput) : M Z :=
  if match status with Some s => negb (validStatus s) | None => false end then lift invalidInput
  else
    now ← Now;
    definition ← lift (normalizeInput config true now);
    let definition := match status with Some s => { definition with j_status := RecordStatus_of s } | None => definition end in
    id ← map_error (jobManagementError "create job") (transact (create_job_body definition));
    notifyJobChanged;;
    mret id.

Definition update_job_body (id : Z) (definition : JobDefinition) : M unit :=
  LockAvailable InTx (j_executor_group_id definition);; UpdateJob InTx id definition.

Definition UpdateJobLogic (id : Z) (config : option JobInput) : M unit :=
  if id <=? 0 then lift invalidInput
  else
    now ← Now;
    definition ← lift (normalizeInput config false now);
    map_error (jobManagementError "update job") (transact (update_job_body id definition));;
    notifyJobChanged.

Definition enable_job_body (id : Z) : M unit :=
  definition ← LockJob InTx id;
  if bool_decide (j_status definition = RecordStatusEnabled) then mret ()
  else
    available ← Available InTx (j_executor_group_id definition);
    if negb available then fail (New JobExecutorGroupUnavailable "执行器组不可用")
    else
      lift (validateStoredDefinition definition);;
      now ← Now;
      match Next (j_cron_expr definition) now with
      | Fail _ => fail invalid_input_error
      | Ok next => EnableJob InTx id next
      end.

Definition UpdateJobStatusLogic (id : Z) (status : option Z) : M unit :=
  match status with
  | None => lift invalidInput
  | Some s =>
      if (id <=? 0) || negb (validStatus s) then lift invalidInput
      else
        map_error (jobManagementError "update job status")
          (if bool_decide (RecordStatus_of s = RecordStatusDisabled) then DisableJob Auto id else transact (enable_job_body id));;
        notifyJobChanged
  end.

Definition delete_job_body (id : Z) : M unit :=
  definition ← LockJob InTx id;
  if negb (bool_decide (j_status definition = RecordStatusDisabled)) then fail (New JobStateNotAllowed "请先停用任务再进行修改")
  else
    active ← HasActive InTx id;
    if active : bool then fail (New JobActiveInstances "存在未结束的实例，不能删除任务")
    else DeleteJob InTx id.

Definition DeleteJobLogic (id : Z) : M unit :=
  if id <=? 0 then lift invalidInput
  else
    map_error (jobManagementError "delete job") (transact (delete_job_body id));;
    notifyJobChanged.

Definition GetJobLogic (id : Z) : M JobInfo :=
  if id <=? 0 then lift invalidInput
  else item ← map_error (jobManagementError "get job") (GetJob Auto id); mret (jobInfo item).

Definition ListJobsLogic (input : ListJobsRequest) : M (list JobListItemResponse * Z) :=
  filter ← lift (normalizeFilter input);
  r ← map_error (rpcOperationError "list jobs") (ListJobs Auto filter);
  mret (listItem <$> r.1, r.2).

Definition PreviewJobCronLogic (expr : string) : M (list string) :=
  expression ← lift (normalizeText expr true 128);
  now ← Now;
  match Preview expression now with
  | Fail _ => lift invalidInput
  | Ok times => mret (RFC3339Nano <$> times)
  end.

Definition TriggerJobLogic (input : TriggerJobRequest) : M Z :=
  request ← lift (normalizeTrigger input);
  map_error manualTriggerError (TriggerManualJob (sc_Trigger sc) request).

Definition StopInstanceLogic (id : Z) : M (Z * InstanceStatus * option string) :=
  if id <=? 0 then lift invalidInput
  else
    decision ← map_error (instanceQueryError "stop job instance") (RequestManual id);
    (if de_New decision && sc_AfterInstanceStopped sc
     then emit (StopPublished (de_InstanceID decision) (de_ExecutorGroupID decision)) else mret ());;
    mret (de_InstanceID decision, de_Status decision, de_EndReason decision).

Definition GetInstanceLogic (id : Z) : M InstanceInfo :=
  if id <=? 0 then lift invalidInput
  else
    r ← map_error (instanceQueryError "get job instance") (FindByID Auto id);
    let config := r.2 in
    if negb (SchemaVersion config =? 1) ||
       (negb (bool_decide (Mode config = ExecutionModeNormal)) && negb (bool_decide (Mode config = ExecutionModeSharded)))
    then fail (status_error codes_Internal "stored instance execution configuration is invalid")
    else mret (instanceInfo id r.1 config).

Definition ListInstanceTasksLogic (instanceID page pageSize : Z) : M (list TaskListItem * Z) :=
  if (instanceID <=? 0) || bad_page page pageSize then lift invalidInput
  else
    exists_ ← map_error (instanceQueryError "find job instance for task list") (Exists Auto instanceID);
    if negb exists_ then fail instanceNotFound
    else
      r ← map_error (rpcOperationError "list instance tasks") (ListByInstance Auto instanceID page pageSize);
      mret (taskListItem <$> r.1, r.2).

(** ** Executor groups *)

Definition new_group (name discoveryKey : string) (identity : Z) : ExecutorGroup :=
  {| g_name := name; g_discovery_key := discoveryKey; g_token := remove_hyphens (StringUUID identity);
     g_created_at := 0; g_updated_at := 0; g_deleted_at := None |}.

Definition CreateExecutorGroupLogic (name discoveryKey : string) : M Z :=
  if negb (validGroupIdentity name 128) || negb (validGroupIdentity discoveryKey 255) then lift invalidInput
  else
    identity ← map_error (rpcOperationError "generate executor group credential") (rpc NewRandom);
    id ← map_error (executorGroupError "create executor group") (CreateGroup Auto (new_group name discoveryKey identity));
    if id <=? 0 then fail (status_error codes_Internal "executor group repository returned an invalid identity without an error")
    else mret id.

Definition in_use : Error := New ExecutorGroupInUse "执行器组仍被引用，不能删除".

Definition delete_group_body (id : Z) : M unit :=
  LockAvailable InTx id;;
  referenced ← HasGroupReferences InTx id;
  if referenced : bool then fail in_use
  else
    active ← HasActiveForGroup InTx id;
    if active : bool then fail in_use else DeleteGroup InTx id.

Definition DeleteExecutorGroupLogic (id : Z) : M unit :=
  if id <=? 0 then lift invalidInput
  else map_error (executorGroupError "delete executor group") (transact (delete_group_body id)).

Definition GetExecutorGroupLogic (id : Z) : M ExecutorGroupInfo :=
  if id <=? 0 then lift invalidInput
  else
    r ← map_error (executorGroupError "get executor group") (FindGroupByID Auto id);
    mret {| gi_Id := r.1; gi_Name := g_name r.2; gi_DiscoveryKey := g_discovery_key r.2; gi_Token := g_token r.2;
            gi_CreatedAt := RFC3339Nano (g_created_at r.2); gi_UpdatedAt := RFC3339Nano (g_updated_at r.2) |}.

(** List items carry no token. *)
Definition ListExecutorGroupsLogic (page pageSize : Z) (name : string) : M (list (Z * string * string * string * string) * Z) :=
  if bad_page page pageSize then lift invalidInput
  else
    name ← lift (normalizeText name false 128);
    r ← map_error (rpcOperationError "list executor groups") (ListGroups Auto {| gf_Page := page; gf_PageSize := pageSize; gf_Name := name |});
    mret ((λ g, (gl_ID g, gl_Name g, gl_DiscoveryKey g, RFC3339Nano (gl_CreatedAt g), RFC3339Nano (gl_UpdatedAt g))) <$> r.1, r.2).
End handlers.
