(* ===== verification/Logic.v ===== *)
(** * A program logic for database sessions

    Other sessions interfere between the statements of an operation, commits may
    be lost, and every node runs the same code.  A [Protocol] names what all
    sessions share: an invariant of the database, a preorder by which it may
    evolve, what sessions leave alone while a row is locked, and which locks a
    change needs.  [wp m d o Q] says that [m], started in a database [d] with
    outputs [o], keeps the protocol in every commit of its own, whatever the other
    sessions do within it, and ends with [Q].  [tx] is the same inside one
    transaction, whose [View] is clean until its first write. *)

From S2P Require Import Prelude GoLib Tx.

Class Protocol {DB Lock : Type} := {
  Inv : DB → Prop;
  evolves : relation DB;
  respects : list Lock → relation DB;     (* others, while these rows are locked *)
  disciplined : list Lock → relation DB;  (* a commit made holding these rows *)
  evolves_preorder :: PreOrder evolves;
  respects_preorder L :: PreOrder (respects L);
  disciplined_refl L :: Reflexive (disciplined L);
}.

(** No assumption about the database or the other sessions at all. *)
Definition anything {DB Lock : Type} : Protocol (DB := DB) (Lock := Lock).
Proof. refine {| Inv := λ _, True; evolves := λ _ _, True; respects := λ _ _ _, True; disciplined := λ _ _ _, True |}; done. Defined.

Section views.
Context {DB Lock Output : Type}.

(** What a transaction sees: the committed database, or its own writes over the
    committed database they will replace; and the rows it holds. *)
Inductive View := Clean (L : list Lock) (d : DB) | Dirty (L : list Lock) (base d : DB).

Definition committed (v : View) : DB := match v with Clean _ d => d | Dirty _ b _ => b end.
Definition current (v : View) : DB := match v with Clean _ d => d | Dirty _ _ d => d end.
Definition held_rows (v : View) : list Lock := match v with Clean L _ => L | Dirty L _ _ => L end.

Definition view (w : World DB Lock Output) : View :=
  if w_dirty w then Dirty (w_locks w) (w_base w) (w_db w) else Clean (w_locks w) (w_db w).
End views.
Arguments View : clear implicits.

Section logic.
Context {DB Lock Output : Type} `{!Protocol (DB := DB) (Lock := Lock)}.
#[local] Abbreviation Event := (Tx.Event DB Lock).
#[local] Abbreviation Commit := (Tx.Commit DB Lock Output).
#[local] Abbreviation M := (Tx.M DB Lock Output).
#[local] Abbreviation View := (Logic.View DB Lock).

(** The guarantee of one commit, and the reliance on the environment's. *)
Definition guarantee (L : list Lock) (d d' : DB) : Prop := Inv d → Inv d' ∧ evolves d d' ∧ disciplined L d d'.
Definition keeps (c : Commit) : Prop := guarantee (c_locks c) (c_before c) (c_after c).
Definition rely (env : nat → Event) : Prop :=
  ∀ n L d, Inv d → Inv (ev_others (env n) L d) ∧ evolves d (ev_others (env n) L d) ∧ respects L d (ev_others (env n) L d).

Definition wp {A} (m : M A) (d : DB) (o : list Output) (Q : Result A → DB → list Output → Prop) : Prop :=
  ∀ w, w_db w = d → w_out w = o → rely (w_env w) → Inv d →
  let '(w', r) := m w in
  w_env w' = w_env w ∧
  (∃ l, w_commits w' = w_commits w ++ l ∧ Forall keeps l) ∧
  Inv (w_db w') ∧ evolves d (w_db w') ∧ Q r (w_db w') (w_out w').

Definition tx {A} (m : M A) (v : View) (Q : A → View → Prop) : Prop :=
  ∀ w, view w = v → rely (w_env w) → Inv (committed v) →
  let '(w', r) := m w in
  w_env w' = w_env w ∧ w_commits w' = w_commits w ∧ w_out w' = w_out w ∧
  Inv (committed (view w')) ∧ evolves (committed v) (committed (view w')) ∧
  match r with Ok a => Q a (view w') | Fail _ => True end.

(** ** Structural rules *)

Lemma wp_ret {A} (a : A) d o Q : Q (Ok a) d o → wp (mret a) d o Q.
Proof. intros HQ w <- <- _ HI. simpl. split_and!; [done|exists []; by rewrite app_nil_r|done|done|done]. Qed.

Lemma wp_lift {A} (r : Result A) d o Q : Q r d o → wp (lift r) d o Q.
Proof. intros HQ w <- <- _ HI. simpl. split_and!; [done|exists []; by rewrite app_nil_r|done|done|done]. Qed.

Lemma wp_fail {A} e d o (Q : Result A → _) : Q (Fail e) d o → wp (fail e) d o Q.
Proof. apply (wp_lift (Fail e)). Qed.

Lemma wp_bind {A B} (m : M A) (k : A → M B) d o Q :
  wp m d o (λ r d' o', match r with Ok a => wp (k a) d' o' Q | Fail e => Q (Fail e) d' o' end) →
  wp (mbind k m) d o Q.
Proof.
  intros Hm w Hd Ho Hr HI. specialize (Hm w Hd Ho Hr HI). unfold mbind, M_bind.
  destruct (m w) as [w1 [a|e]]; destruct Hm as (He & (l & Hl & Hf) & HI1 & Hev & HQ).
  - rewrite <-He in Hr. specialize (HQ w1 eq_refl eq_refl Hr HI1).
    destruct (k a w1) as [w2 r]. destruct HQ as (He2 & (l2 & Hl2 & Hf2) & HI2 & Hev2 & HQ).
    split_and!; [congruence| |done|by etrans|done].
    exists (l ++ l2). split; [by rewrite Hl2, Hl, app_assoc|by apply Forall_app].
  - split_and!; [done|eauto|done|done|done].
Qed.

Lemma wp_attempt {A} (m : M A) d o Q : wp m d o (λ r, Q (Ok r)) → wp (attempt m) d o Q.
Proof. intros Hm w Hd Ho Hr HI. specialize (Hm w Hd Ho Hr HI). unfold attempt. by destruct (m w). Qed.

Lemma wp_mono {A} (m : M A) d o (Q Q' : Result A → DB → list Output → Prop) :
  wp m d o Q → (∀ r d' o', Inv d' → evolves d d' → Q r d' o' → Q' r d' o') → wp m d o Q'.
Proof.
  intros Hm HQ w Hd Ho Hr HI. specialize (Hm w Hd Ho Hr HI). destruct (m w).
  destruct Hm as (?&?&?&?&?). split_and!; auto.
Qed.

Lemma wp_emit x d o Q : Q (Ok tt) d (o ++ [x]) → wp (emit x) d o Q.
Proof. intros HQ w <- <- _ HI. simpl. split_and!; [done|exists []; by rewrite app_nil_r|done|done|done]. Qed.

Lemma wp_pop d o Q : (∀ ev, Q (Ok ev) d o) → wp pop d o Q.
Proof. intros HQ w <- <- _ HI. simpl. split_and!; [done|exists []; by rewrite app_nil_r|done|done|done]. Qed.

Lemma wp_rpc {A} (f : nat → Result A) d o Q : (∀ n, Q (f n) d o) → wp (rpc f) d o Q.
Proof. intros HQ w <- <- _ HI. simpl. split_and!; [done|exists []; by rewrite app_nil_r|done|done|done]. Qed.

Lemma wp_ctx_err d o Q : Q (Ok tt) d o → Q (Fail [ContextErr]) d o → wp ctx_err d o Q.
Proof. intros HQ HF. apply wp_bind, wp_pop. intros ev. destruct (ev_done ev); [by apply wp_fail|by apply wp_ret]. Qed.

(** The run of an operation of a fresh session. *)
Lemma wp_start {A} (m : M A) d env w r Q :
  wp m d [] Q → rely env → Inv d → m (start d env) = (w, r) →
  Inv (w_db w) ∧ evolves d (w_db w) ∧ Q r (w_db w) (w_out w).
Proof.
  intros Hm Hr HI E. specialize (Hm (start d env) eq_refl eq_refl Hr HI). rewrite E in Hm.
  by destruct Hm as (_ & _ & ? & ? & ?).
Qed.

(** ** Statements *)

Lemma wp_stmt {A} (f : Event → DB → DB * Result A) d o Q :
  (∀ ev d1, Inv d1 → evolves d d1 →
     guarantee [] d1 (f ev d1).1 ∧ Q (f ev d1).2 (f ev d1).1 o ∧
     ∀ e, Q (Fail e) d1 o ∧ Q (Fail e) (f ev d1).1 o) →
  wp (stmt f) d o Q.
Proof.
  intros Hf w <- <- Hr HI. unfold stmt.
  destruct (Hr (w_at w) [] (w_db w) HI) as (HI1 & He1 & _).
  set (ev := w_env w (w_at w)) in *. simpl.
  destruct (Hf ev _ HI1 He1) as (Hg & HQ & HF).
  destruct (f ev (ev_others ev [] (w_db w))) as [d2 r] eqn:E. simpl in *. destruct (Hg HI1) as (HI2 & He2 & _).
  assert (evolves (w_db w) d2) by (by etrans).
  destruct (ev_fault ev) as [[[] e]|]; simpl;
    (split_and!; [done| |done|done|first [done|apply HF]]).
  - eexists. split; [done|]. by constructor.
  - exists []. by rewrite app_nil_r.
  - eexists. split; [done|]. by constructor.
Qed.

Lemma wp_query {A} (f : Event → DB → Result A) d o Q :
  (∀ ev d1, Inv d1 → evolves d d1 → Q (f ev d1) d1 o ∧ ∀ e, Q (Fail e) d1 o) →
  wp (query Auto f) d o Q.
Proof.
  intros Hf. apply wp_stmt. intros ev d1 HI He. destruct (Hf ev d1 HI He). simpl. split_and!; [|done|auto].
  intros _. split_and!; [done|reflexivity|reflexivity].
Qed.

(** ** Transactions *)

(** A transaction leaves the committed database or replaces it by its view. *)
Lemma wp_transact {A} (body : M A) d o Q :
  (∀ d1, Inv d1 → evolves d d1 → ∀ e, Q (Fail e) d1 o) →
  (∀ d1, Inv d1 → evolves d d1 → tx body (Clean [] d1) (λ a v,
     guarantee (held_rows v) (committed v) (current v) ∧ Q (Ok a) (current v) o)) →
  wp (transact body) d o Q.
Proof.
  intros HF Hb w <- <- Hr HI. unfold transact.
  destruct (Hr (w_at w) [] (w_db w) HI) as (HI1 & He1 & _).
  set (ev := w_env w (w_at w)) in *. simpl.
  destruct (ev_fault ev) as [[b e]|]; simpl.
  { split_and!; [done|exists []; by rewrite app_nil_r|done|done|auto]. }
  match goal with |- context [body ?w0] =>
    specialize (Hb _ HI1 He1 w0 eq_refl Hr HI1); destruct (body w0) as [w1 r] eqn:E end; simpl in *.
  destruct Hb as (He & Hc & Ho & HIc & Hec & Hq).
  assert (committed (view w1) = settled w1) as Es by (unfold view, settled; by destruct (w_dirty w1)).
  assert (current (view w1) = w_db w1) as Ec by (unfold view; by destruct (w_dirty w1)).
  assert (held_rows (view w1) = w_locks w1) as El by (unfold view; by destruct (w_dirty w1)).
  rewrite Es, ?Ec, ?El in *. assert (evolves (w_db w) (settled w1)) by (by etrans).
  destruct r as [a|e]; simpl.
  2:{ rewrite Hc, Ho. split_and!; [done|exists []; by rewrite app_nil_r|done|done|auto]. }
  destruct Hq as [Hg HQ]. destruct (Hg HIc) as (HI2 & He2 & Hd2). assert (evolves (w_db w) (w_db w1)) by (by etrans).
  destruct (ev_fault (w_env w1 (w_at w1))) as [[[] e]|]; simpl; rewrite ?Hc, ?Ho;
    (split_and!; [done| |done|done|by auto]).
  - eexists. split; [done|]. by constructor.
  - exists []. by rewrite app_nil_r.
  - eexists. split; [done|]. by constructor.
Qed.

Ltac tx_same := intros w <- Hr HI; simpl; split_and!; try done; try reflexivity.

Lemma tx_ret {A} (a : A) v Q : Q a v → tx (mret a) v Q.
Proof. intros HQ. tx_same. Qed.
Lemma tx_lift {A} (r : Result A) v Q : (∀ a, r = Ok a → Q a v) → tx (lift r) v Q.
Proof. intros HQ. tx_same. destruct r; auto. Qed.
Lemma tx_fail {A} e v (Q : A → View → Prop) : tx (fail e) v Q.
Proof. tx_same. Qed.
Lemma tx_pop v Q : (∀ ev, Q ev v) → tx pop v Q.
Proof. intros HQ. tx_same. Qed.

Lemma tx_bind {A B} (m : M A) (k : A → M B) v Q : tx m v (λ a v', tx (k a) v' Q) → tx (mbind k m) v Q.
Proof.
  intros Hm w Hv Hr HI. specialize (Hm w Hv Hr HI). unfold mbind, M_bind.
  destruct (m w) as [w1 [a|e]]; destruct Hm as (He & Hc & Ho & HI1 & He1 & HQ); [|done].
  rewrite <-He in Hr. specialize (HQ w1 eq_refl Hr HI1). destruct (k a w1) as [w2 r].
  destruct HQ as (?&?&?&?&?&?). split_and!; [congruence..|done|by etrans|done].
Qed.

Lemma tx_mono {A} (m : M A) v (Q Q' : A → View → Prop) :
  tx m v Q → (∀ a v', Inv (committed v') → evolves (committed v) (committed v') → Q a v' → Q' a v') → tx m v Q'.
Proof.
  intros Hm HQ w Hv Hr HI. specialize (Hm w Hv Hr HI). destruct (m w) as [w' [a|e]]; [|done].
  destruct Hm as (?&?&?&?&?&?). split_and!; auto.
Qed.

(** The databases the next statement of a transaction may find. *)
Definition finds (v : View) (v' : View) : Prop :=
  match v with
  | Clean L d => ∃ d', v' = Clean L d' ∧ Inv d' ∧ evolves d d' ∧ respects L d d'
  | Dirty _ _ _ => v' = v
  end.

Lemma refresh_finds (w : World DB Lock Output) : rely (w_env w) → Inv (committed (view w)) → finds (view w) (view (refresh w)).
Proof.
  intros Hr HI. unfold view, refresh in *. simpl. destruct (w_dirty w); simpl in *; [done|].
  destruct (Hr (w_at w) (w_locks w) _ HI) as (?&?&?). eauto.
Qed.

Lemma finds_committed v v' : Inv (committed v) → finds v v' → Inv (committed v') ∧ evolves (committed v) (committed v').
Proof. destruct v; simpl; [intros _ (d' & -> & ? & ? & _); done|by intros ? ->]. Qed.

Definition hold (l : list Lock) (v : View) : View :=
  match v with Clean L d => Clean (l ++ L) d | Dirty L b d => Dirty (l ++ L) b d end.

Lemma tx_attempt_read {A} held (f : Event → DB → Result A) v Q :
  (∀ ev v', finds v v' → match f ev (current v') with Ok a => Q (Ok a) (hold (held a) v') | Fail e => Q (Fail e) v' end) →
  (∀ e v', finds v v' → Q (Fail e) v') →
  tx (attempt (tread held f)) v Q.
Proof.
  intros Hok Hf w <- Hr HI. unfold attempt, tread.
  pose proof (refresh_finds w Hr HI) as Hv. destruct (finds_committed _ _ HI Hv) as [HI' He].
  assert (current (view (refresh w)) = w_db (refresh w)) as Ec by (unfold view; by destruct (w_dirty _)).
  destruct (ev_fault _) as [[b e]|]; [split_and!; auto|].
  specialize (Hok (w_env w (w_at w)) _ Hv). rewrite Ec in Hok.
  destruct (f _ (w_db (refresh w))) as [a|e]; [|by split_and!].
  assert (view { refresh w with w_locks := held a ++ w_locks (refresh w) } = hold (held a) (view (refresh w))) as Eh
    by (unfold view; simpl; by destruct (w_dirty w)).
  rewrite Eh. assert (committed (hold (held a) (view (refresh w))) = committed (view (refresh w))) as Ehc
    by (by destruct (view (refresh w))).
  rewrite Ehc. by split_and!.
Qed.

Lemma tx_attempt_bind {A B} (m : M A) (k : A → M B) v Q :
  tx (attempt m) v (λ r v', match r with Ok a => tx (attempt (k a)) v' Q | Fail e => Q (Fail e) v' end) →
  tx (attempt (mbind k m)) v Q.
Proof.
  intros Hm w Hv Hr HI. specialize (Hm w Hv Hr HI). unfold attempt, mbind, M_bind in *.
  destruct (m w) as [w1 [a|e]]; destruct Hm as (He & Hc & Ho & HI1 & He1 & HQ); [|done].
  rewrite <-He in Hr. specialize (HQ w1 eq_refl Hr HI1). unfold attempt in HQ. destruct (k a w1) as [w2 r].
  destruct HQ as (?&?&?&?&?&?). split_and!; [congruence..|done|by etrans|done].
Qed.
Lemma tx_attempt_ret {A} (a : A) v Q : Q (Ok a) v → tx (attempt (mret a)) v Q.
Proof. intros HQ. tx_same. Qed.
Lemma tx_attempt_fail {A} e v (Q : Result A → View → Prop) : Q (Fail e) v → tx (attempt (fail e)) v Q.
Proof. intros HQ. tx_same. Qed.

Lemma tx_read {A} held (f : Event → DB → Result A) v Q :
  (∀ ev v' a, finds v v' → f ev (current v') = Ok a → Q a (hold (held a) v')) → tx (tread held f) v Q.
Proof.
  intros HQ w Hv Hr HI.
  assert (tx (attempt (tread held f)) v (λ r v', match r with Ok a => Q a v' | Fail _ => True end)) as Ha.
  { apply tx_attempt_read; [|done]. intros ev v' Hf. destruct (f _ _) eqn:E; [eauto|done]. }
  specialize (Ha w Hv Hr HI). unfold attempt in Ha. by destruct (tread held f w).
Qed.

Lemma tx_query {A} (f : Event → DB → Result A) v Q :
  (∀ ev v' a, finds v v' → f ev (current v') = Ok a → Q a v') → tx (query InTx f) v Q.
Proof. intros HQ. apply tx_read. intros ev v' a Hf E. specialize (HQ ev v' a Hf E). by destruct v'. Qed.

(** After a write the transaction sees its own database. *)
Definition written (v : View) (d' : DB) : View := Dirty (held_rows v) (committed v) d'.

Lemma tx_exec {A} (f : Event → DB → DB * Result A) v Q :
  (∀ ev v' a, finds v v' → (f ev (current v')).2 = Ok a → Q a (written v' (f ev (current v')).1)) →
  tx (exec InTx f) v Q.
Proof.
  intros HQ w <- Hr HI. unfold exec, twrite.
  pose proof (refresh_finds w Hr HI) as Hv. destruct (finds_committed _ _ HI Hv) as [HI' He].
  destruct (ev_fault _) as [[b e]|]; [by split_and!|].
  assert (current (view (refresh w)) = w_db (refresh w)) as Ec by (unfold view; by destruct (w_dirty _)).
  pose proof (λ a, HQ (w_env w (w_at w)) (view (refresh w)) a Hv) as HQ'. rewrite Ec in HQ'.
  destruct (f _ (w_db (refresh w))) as [d' r]. cbn [fst snd] in HQ'.
  assert (view { refresh w with w_db := d'; w_base := if w_dirty (refresh w) then w_base (refresh w) else w_db (refresh w);
                 w_dirty := true } = written (view (refresh w)) d') as Ev
    by (unfold view, written; simpl; by destruct (w_dirty w)).
  rewrite Ev. split_and!; try done. destruct r; auto.
Qed.

Lemma tx_ctx_err v Q : Q tt v → tx ctx_err v Q.
Proof. intros HQ. apply tx_bind, tx_pop. intros ev. destruct (ev_done ev); [apply tx_fail|by apply tx_ret]. Qed.
End logic.

#[global] Typeclasses Opaque wp tx.

(** Symbolic execution: one structural rule per step, branching on the tests the
    code makes.  Statements and transactions are left to their own lemmas. *)
Ltac wp_step :=
  lazymatch goal with
  | |- wp (mret _) _ _ _ => apply wp_ret
  | |- wp (fail _) _ _ _ => apply wp_fail
  | |- wp (lift _) _ _ _ => apply wp_lift
  | |- wp (mbind _ _) _ _ _ => apply wp_bind
  | |- wp (attempt _) _ _ _ => apply wp_attempt
  | |- wp (emit _) _ _ _ => apply wp_emit
  | |- wp pop _ _ _ => apply wp_pop; intros ?
  | |- wp ctx_err _ _ _ => apply wp_ctx_err
  | |- wp (match ?x with _ => _ end) _ _ _ => let E := fresh "E" in destruct x eqn:E
  | |- match ?x with Ok _ => wp _ _ _ _ | Fail _ => _ end => let E := fresh "E" in destruct x eqn:E
  | |- tx (mret _) _ _ => apply tx_ret
  | |- tx (fail _) _ _ => apply tx_fail
  | |- tx (lift _) _ _ => apply tx_lift; intros ? ?
  | |- tx (mbind _ _) _ _ => apply tx_bind
  | |- tx pop _ _ => apply tx_pop; intros ?
  | |- tx ctx_err _ _ => apply tx_ctx_err
  | |- tx (match ?x with _ => _ end) _ _ => let E := fresh "E" in destruct x eqn:E
  end.

(** Branch on the first test of an operation. *)
Tactic Notation "guard" "as" ident(E) :=
  lazymatch goal with
  | |- wp (match ?x with _ => _ end) _ _ _ => destruct x eqn:E
  | |- tx (match ?x with _ => _ end) _ _ => destruct x eqn:E
  | |- _ (match ?x with _ => _ end) => destruct x eqn:E
  end.

(** ** Operations that keep the protocol *)

Create HintDb safe.

Section safety.
Context {DB Lock Output : Type} `{!Protocol (DB := DB) (Lock := Lock)}.
#[local] Abbreviation Event := (Tx.Event DB Lock).
#[local] Abbreviation M := (Tx.M DB Lock Output).

(** An operation keeps the protocol, whatever it returns. *)
Definition safe {A} (m : M A) : Prop := ∀ d o, wp m d o (λ _ _ _, True).

Lemma safe_wp {A} (m : M A) d o : safe m → wp m d o (λ _ _ _, True).
Proof. auto. Qed.

Lemma wp_safe {A} (m : M A) d o Q : wp m d o Q → wp m d o (λ _ _ _, True).
Proof. intros Hm. by eapply wp_mono. Qed.

Lemma safe_ret {A} (a : A) : safe (mret a).
Proof. intros d o. by apply wp_ret. Qed.
Lemma safe_fail {A} e : safe (fail (A:=A) e).
Proof. intros d o. by apply wp_fail. Qed.
Lemma safe_lift {A} (r : Result A) : safe (lift r).
Proof. intros d o. by apply wp_lift. Qed.
Lemma safe_emit x : safe (emit x).
Proof. intros d o. by apply wp_emit. Qed.
Lemma safe_pop : safe pop.
Proof. intros d o. by apply wp_pop. Qed.
Lemma safe_rpc {A} (f : nat → Result A) : safe (rpc f).
Proof. intros d o. by apply wp_rpc. Qed.
Lemma safe_ctx_err : safe ctx_err.
Proof. intros d o. by apply wp_ctx_err. Qed.
Lemma safe_attempt {A} (m : M A) : safe m → safe (attempt m).
Proof. intros Hm d o. apply wp_attempt, Hm. Qed.
Lemma safe_bind {A B} (m : M A) (k : A → M B) : safe m → (∀ a, safe (k a)) → safe (mbind k m).
Proof.
  intros Hm Hk d o. apply wp_bind. eapply wp_mono; [apply Hm|]. intros [a|e] d' o' _ _ _; [apply Hk|done].
Qed.
Lemma safe_query {A} (f : Event → DB → Result A) : safe (query Auto f).
Proof. intros d o. by apply wp_query. Qed.

Lemma guarantee_refl L d : guarantee L d d.
Proof. intros HI. split_and!; [done|reflexivity|reflexivity]. Qed.

Lemma guarantee_intro L d d' :
  (Inv d → Inv d' ∧ evolves d d') → disciplined L d d' → guarantee L d d'.
Proof. intros Hs Hd HI. destruct (Hs HI). by split_and!. Qed.

(** A single statement whose update keeps the protocol. *)
Lemma safe_stmt {A} (f : Event → DB → DB * Result A) : (∀ ev d, guarantee [] d (f ev d).1) → safe (stmt f).
Proof. intros Hf d o. apply wp_stmt. intros ev d1 HI _. by split_and!. Qed.

(** A statement that is refused. *)
Lemma safe_refused {A} (r : Event → DB → Result A) : safe (stmt (λ ev d, (d, r ev d))).
Proof. apply safe_stmt. intros ev d. apply guarantee_refl. Qed.

Lemma safe_map_error {A} f (m : M A) : safe m → safe (map_error f m).
Proof. intros Hm. apply safe_bind; [by apply safe_attempt|]. intros [a|e]; [apply safe_ret|apply safe_fail]. Qed.
Lemma safe_Now : safe Now.
Proof. apply safe_bind; [apply safe_pop|intros ev; apply safe_ret]. Qed.

(** A transaction whose final view may replace what is committed. *)
Lemma safe_transact {A} (body : M A) :
  (∀ d, Inv d → tx body (Clean [] d) (λ _ v, guarantee (held_rows v) (committed v) (current v))) → safe (transact body).
Proof.
  intros Hb d o. apply wp_transact; [done|]. intros d1 HI _. eapply tx_mono; [by apply Hb|]. by intros.
Qed.

End safety.

#[export] Hint Resolve safe_ret safe_fail safe_lift safe_emit safe_pop safe_rpc safe_ctx_err safe_attempt safe_query safe_Now
  : safe.

(** Prove [safe] along the structure of an operation. *)
Ltac safe_step :=
  lazymatch goal with
  | |- safe (mbind _ _) => apply safe_bind; [|intros ?]
  | |- safe (match ?x with _ => _ end) => destruct x
  | |- safe (if ?x then _ else _) => destruct x
  | |- safe _ => solve [eauto with safe]
  end.
Ltac safe_auto := repeat safe_step.
