(* ===== verification/Protocol.v ===== *)
(** * The protocol of the Job tables

    What every session may rely on and must keep: the well-formedness of Task and
    Instance rows, the coherence of a Task with its parent, the uniqueness of
    Tasks and trigger identities, and the directions in which rows may change. *)

From S2P Require Import Prelude GoLib Tx Model TaskRepo InstanceRepo JobRepo Logic.

Open Scope Z_scope.

Abbreviation View := (Logic.View DB Lock).

(** ** Rows *)

Definition stop_reason (r : string) : Prop := r = EndReasonManualStop ∨ r = EndReasonInstanceTimeout.
Definition failure_reason (r : string) : Prop :=
  r = EndReasonExecutionFailed ∨ r = EndReasonDispatchRejected ∨ r = EndReasonResultUnknown.

Definition task_status_wf (t : JobTask) : Prop :=
  match t_status t with
  | TaskRunning =>
      1 ≤ t_used_attempts t ∧ is_Some (t_attempt_registered_at t) ∧ t_next_dispatch_at t = None ∧
      t_finished_at t = None ∧ t_end_reason t = None ∧ t_result_data t = None
  | TaskRetryWaiting =>
      is_Some (t_next_dispatch_at t) ∧ t_finished_at t = None ∧ t_end_reason t = None ∧ t_result_data t = None
  | TaskSucceeded =>
      t_next_dispatch_at t = None ∧ is_Some (t_finished_at t) ∧ t_end_reason t = Some EndReasonSuccess
  | TaskFailed =>
      t_next_dispatch_at t = None ∧ is_Some (t_finished_at t) ∧ t_result_data t = None ∧
      ∃ r, t_end_reason t = Some r ∧ failure_reason r
  | TaskCanceled =>
      t_next_dispatch_at t = None ∧ is_Some (t_finished_at t) ∧ t_result_data t = None ∧
      ∃ r, t_end_reason t = Some r ∧ stop_reason r
  | TaskWaiting | TaskStatusCode _ => False
  end.

Record task_wf (t : JobTask) : Prop := {
  tw_type : t_task_type t = TaskTypeOrdinary;
  tw_attempt : 1 ≤ t_attempt_no t;
  tw_used : 0 ≤ t_used_attempts t ≤ t_attempt_no t;
  tw_binding : is_Some (t_executor_instance_id t) ↔ is_Some (t_executor_address t);
  tw_status : task_status_wf t;
}.

Definition inst_status_wf (i : JobInstance) : Prop :=
  match i_status i with
  | InstanceWaiting =>
      i_started_at i = None ∧ i_finished_at i = None ∧ i_end_reason i = None
  | InstanceRunning => is_Some (i_started_at i) ∧ i_finished_at i = None ∧ i_end_reason i = None
  | InstanceStopping =>
      i_finished_at i = None ∧ ∃ r, i_end_reason i = Some r ∧ stop_reason r ∧
      (r = EndReasonInstanceTimeout → is_Some (i_started_at i))
  | InstanceSucceeded =>
      is_Some (i_started_at i) ∧ is_Some (i_finished_at i) ∧ i_end_reason i = Some EndReasonSuccess
  | InstanceFailed =>
      is_Some (i_started_at i) ∧ is_Some (i_finished_at i) ∧
      (i_end_reason i = Some EndReasonExecutionFailed ∨ i_end_reason i = Some EndReasonInstanceTimeout)
  | InstanceCanceled => is_Some (i_finished_at i) ∧ i_end_reason i = Some EndReasonManualStop
  | InstanceStatusCode _ => False
  end.

(** The round deadline is the first start plus the frozen timeout. *)
Definition inst_times_wf (i : JobInstance) : Prop :=
  match i_started_at i, i_deadline_at i with
  | None, None => True
  | Some s, Some dl =>
      s ≠ 0 ∧ ∃ c, Scan (i_execution_config i) = Some c ∧ 0 < TimeoutSeconds c ∧ dl = s + TimeoutSeconds c * Second
  | _, _ => False
  end.

Record inst_wf (i : JobInstance) : Prop := {
  iw_status : inst_status_wf i;
  iw_times : inst_times_wf i;
  iw_identity : trigger_identity i = true;
  iw_config : ∃ c, i_execution_config i = Value c;
}.

(** A Task and its parent. *)
Record coherent (i : JobInstance) (t : JobTask) : Prop := {
  co_started : i_status i ≠ InstanceWaiting;
  co_start : t_started_at t = i_started_at i;
  co_budget : ∃ c, Scan (i_execution_config i) = Some c ∧ SchemaVersion c = 1 ∧ Mode c = ExecutionModeNormal ∧
                   PostEnabled c = false ∧ 0 ≤ MaxRetries c ∧ t_used_attempts t ≤ MaxRetries c + 1;
  co_open : unfinished (t_status t) = true → terminal_status (i_status i) = false;
  co_canceled : t_status t = TaskCanceled →
    (i_status i = InstanceStopping ∨ i_status i = InstanceCanceled ∨
     (i_status i = InstanceFailed ∧ i_end_reason i = Some EndReasonInstanceTimeout)) ∧
    t_end_reason t = i_end_reason i;
  co_succeeded : i_status i = InstanceSucceeded →
    t_status t = TaskSucceeded ∧ i_result_summary i = t_result_summary t;
  co_failed : i_status i = InstanceFailed → i_end_reason i = Some EndReasonExecutionFailed →
    t_status t = TaskFailed ∧ i_result_summary i = t_result_summary t;
}.

(** ** The invariant *)

(** The group exists and is not deleted. *)
Definition group_live (d : DB) (g : Z) : Prop := ∃ row, groups d !! g = Some row ∧ live_group row = true.

Definition job_live (d : DB) (id : Z) : Prop := ∃ j, jobs d !! id = Some j ∧ live_job j = true.

(** A live Job belongs to the group. *)
Definition referenced (d : DB) (g : Z) : Prop :=
  ∃ id j, jobs d !! id = Some j ∧ live_job j = true ∧ j_executor_group_id j = g.

Record db_inv (d : DB) : Prop := {
  inv_task_id : ∀ id t, tasks d !! id = Some t → 0 < id < next_task d;
  inv_inst_id : ∀ id i, instances d !! id = Some i → 0 < id < next_instance d;
  inv_job_id : ∀ id j, jobs d !! id = Some j → 0 < id < next_job d;
  inv_group_id : ∀ id g, groups d !! id = Some g → 0 < id < next_group d;
  inv_next : 0 < next_task d ∧ 0 < next_instance d ∧ 0 < next_job d ∧ 0 < next_group d;
  inv_task : ∀ id t, tasks d !! id = Some t → task_wf t;
  inv_inst : ∀ id i, instances d !! id = Some i → inst_wf i;
  inv_parent : ∀ id t, tasks d !! id = Some t →
    ∃ i, instances d !! t_instance_id t = Some i ∧ coherent i t;
  inv_single : ∀ id id' t t', tasks d !! id = Some t → tasks d !! id' = Some t' →
    t_instance_id t = t_instance_id t' → id = id';
  inv_child : ∀ id i, instances d !! id = Some i → is_Some (i_started_at i) →
    ∃ tid t, tasks d !! tid = Some t ∧ t_instance_id t = id;
  inv_schedule : ∀ id id' i i', instances d !! id = Some i → instances d !! id' = Some i' →
    i_job_id i = i_job_id i' → i_scheduled_at i ≠ None → i_scheduled_at i = i_scheduled_at i' → id = id';
  inv_request : ∀ id id' i i', instances d !! id = Some i → instances d !! id' = Some i' →
    i_job_id i = i_job_id i' → i_request_id i ≠ None → i_request_id i = i_request_id i' → id = id';
  inv_job_group : ∀ id j, jobs d !! id = Some j → live_job j = true → group_live d (j_executor_group_id j);
  inv_inst_group : ∀ id i, instances d !! id = Some i → active (i_status i) = true → group_live d (i_executor_group_id i);
  inv_inst_job : ∀ id i, instances d !! id = Some i → active (i_status i) = true → job_live d (i_job_id i);
}.

(** ** How rows evolve *)

(** The trigger snapshot never changes. *)
Definition frozen (i : JobInstance) :=
  (i_job_id i, i_job_name i, i_executor_group_id i, i_trigger_type i, i_scheduled_at i, i_request_id i,
   i_params_overridden i, i_triggered_by i, i_execution_config i, i_created_at i).

(** Statuses reachable from a status, itself included. *)
Definition inst_next (s s' : InstanceStatus) : bool :=
  match s, s' with
  | InstanceWaiting, InstanceStatusCode _ => false
  | InstanceWaiting, _ => true
  | InstanceRunning, (InstanceWaiting | InstanceStatusCode _) => false
  | InstanceRunning, _ => true
  | InstanceStopping, (InstanceStopping | InstanceFailed | InstanceCanceled) => true
  | InstanceSucceeded, InstanceSucceeded | InstanceFailed, InstanceFailed | InstanceCanceled, InstanceCanceled => true
  | InstanceStatusCode c, InstanceStatusCode c' => c =? c'
  | _, _ => false
  end.

Record inst_evolves (i i' : JobInstance) : Prop := {
  ie_frozen : frozen i' = frozen i;
  ie_started : ∀ s, i_started_at i = Some s → i_started_at i' = Some s;
  ie_deadline : ∀ s, i_deadline_at i = Some s → i_deadline_at i' = Some s;
  ie_status : inst_next (i_status i) (i_status i') = true;
  ie_stop : i_status i = InstanceStopping → i_end_reason i' = i_end_reason i ∧ i_result_summary i' = i_result_summary i;
  ie_terminal : terminal_status (i_status i) = true → i' = i;
}.

(** The same attempt: its registration and binding are kept, its opportunity is
    refunded at most once and only when it closes, and it never reopens. *)
Record same_attempt (t t' : JobTask) : Prop := {
  sa_registered : t_attempt_registered_at t' = t_attempt_registered_at t;
  sa_executor : ∀ u, t_executor_instance_id t = Some u → t_executor_instance_id t' = Some u;
  sa_address : ∀ a, t_executor_address t = Some a → t_executor_address t' = Some a;
  sa_used : t_used_attempts t' = t_used_attempts t ∨
    (t_used_attempts t' = t_used_attempts t - 1 ∧ t_status t = TaskRunning ∧ t_status t' ≠ TaskRunning);
  sa_closed : t_status t ≠ TaskRunning → t_status t' ≠ TaskRunning;
  sa_waiting : t_status t = TaskRetryWaiting → t_status t' = TaskRetryWaiting ∨ t_status t' = TaskCanceled;
  sa_canceled : t_status t = TaskCanceled → t_status t' = TaskCanceled;
}.

Record task_evolves (t t' : JobTask) : Prop := {
  te_identity : (t_instance_id t', t_task_type t', t_started_at t', t_created_at t') =
                (t_instance_id t, t_task_type t, t_started_at t, t_created_at t);
  te_attempt : t_attempt_no t ≤ t_attempt_no t';
  te_finished : unfinished (t_status t) = false → t' = t;
  te_same : t_attempt_no t' = t_attempt_no t → same_attempt t t';
}.

Definition job_evolves (j j' : JobDefinition) : Prop := j_deleted_at j ≠ None → j' = j.
Definition group_evolves (g g' : ExecutorGroup) : Prop :=
  (g_name g', g_discovery_key g', g_token g', g_created_at g') = (g_name g, g_discovery_key g, g_token g, g_created_at g) ∧
  (g_deleted_at g ≠ None → g' = g).

(** A parent that may still be given attempts. *)
Definition authorizing (s : InstanceStatus) : bool :=
  match s with InstanceWaiting | InstanceRunning => true | _ => false end.

Record db_evolves (d d' : DB) : Prop := {
  dbe_instances : table_evolves inst_evolves (instances d) (instances d');
  dbe_tasks : table_evolves task_evolves (tasks d) (tasks d');
  dbe_jobs : table_evolves job_evolves (jobs d) (jobs d');
  dbe_groups : table_evolves group_evolves (groups d) (groups d');
  dbe_next : next_task d ≤ next_task d' ∧ next_instance d ≤ next_instance d' ∧
             next_job d ≤ next_job d' ∧ next_group d ≤ next_group d';
  dbe_authorized : ∀ tid t', tasks d' !! tid = Some t' →
    ∀ i, instances d !! t_instance_id t' = Some i → authorizing (i_status i) = false →
    ∃ t, tasks d !! tid = Some t ∧ t_attempt_no t = t_attempt_no t';
}.

Lemma inst_next_authorizing s s' :
  inst_next s s' = true → authorizing s = false → authorizing s' = false.
Proof. by destruct s, s'. Qed.

#[global] Instance inst_evolves_preorder : PreOrder inst_evolves.
Proof.
  split.
  - intros i. split; try done. by destruct (i_status i); simpl; rewrite ?Z.eqb_refl.
  - intros i i' i'' [F1 S1 D1 N1 P1 T1] [F2 S2 D2 N2 P2 T2]. split.
    + congruence.
    + eauto.
    + eauto.
    + destruct (i_status i), (i_status i'), (i_status i''); simpl in *; try done.
      by apply Z.eqb_eq in N1 as ->.
    + intros E. destruct (P1 E) as [<- <-]. rewrite E in N1.
      destruct (i_status i') eqn:E'; simpl in N1; try done; first [by apply P2 | by rewrite T2].
    + intros E. rewrite (T1 E) in *. eauto.
Qed.

#[global] Instance same_attempt_preorder : PreOrder same_attempt.
Proof.
  split; [intros t; split; auto|].
  intros t t' t'' [R1 X1 A1 U1 C1 W1 K1] [R2 X2 A2 U2 C2 W2 K2]. split; auto.
  - congruence.
  - destruct U1 as [U1|(U1&?&?)], U2 as [U2|(U2&?&?)]; try done.
    + left. congruence.
    + right. split_and!; [lia| |done]. destruct (decide (t_status t = TaskRunning)); [done|]. by destruct C1.
    + right. split_and!; [lia|done|auto].
  - intros E. destruct (W1 E); auto.
Qed.

#[global] Instance task_evolves_preorder : PreOrder task_evolves.
Proof.
  split; [intros t; split; done || lia|].
  intros t t' t'' [I1 A1 F1 S1] [I2 A2 F2 S2]. split.
  - congruence.
  - lia.
  - intros E. rewrite (F1 E) in *. auto.
  - intros E. assert (t_attempt_no t' = t_attempt_no t) by lia.
    etrans; [apply S1|apply S2]; lia.
Qed.

#[global] Instance job_evolves_preorder : PreOrder job_evolves.
Proof. split; [done|]. intros j j' j'' H1 H2 E. rewrite (H1 E) in *. auto. Qed.

#[global] Instance group_evolves_preorder : PreOrder group_evolves.
Proof.
  split; [done|]. intros g g' g'' [E1 D1] [E2 D2]. split; [congruence|].
  intros E. rewrite (D1 E) in *. auto.
Qed.

#[global] Instance db_evolves_preorder : PreOrder db_evolves.
Proof.
  split; [intros d; split; first [reflexivity|lia|eauto]|].
  intros d d' d'' [I1 T1 J1 G1 N1 A1] [I2 T2 J2 G2 N2 A2]. split; [by etrans..|lia|].
  intros tid t'' Ht'' i Hi Hs. destruct (I1 _ _ Hi) as (i' & Hi' & [_ _ _ Hn _ _]).
  assert (authorizing (i_status i') = false) as Hs' by (by eapply inst_next_authorizing).
  destruct (A2 _ _ Ht'' _ Hi' Hs') as (t' & Ht' & <-).
  destruct (T2 _ _ Ht') as (u & Hu & [Hid _ _ _]). assert (u = t'') as -> by congruence.
  injection Hid as E _ _ _. rewrite E in Hi. eapply A1; eauto.
Qed.

(** ** Locks *)

(** Nobody creates or registers an attempt of the Instance. *)
Definition no_new_attempt (id : Z) (d d' : DB) : Prop :=
  ∀ tid t', tasks d' !! tid = Some t' → t_instance_id t' = id →
  ∃ t, tasks d !! tid = Some t ∧ t_instance_id t = id ∧ t_attempt_no t = t_attempt_no t'.

(** Nobody creates an Instance of the Job. *)
Definition no_new_instance (job : Z) (d d' : DB) : Prop :=
  ∀ id i', instances d' !! id = Some i' → i_job_id i' = job → ∃ i, instances d !! id = Some i ∧ i_job_id i = job.

(** PostgreSQL keeps other sessions from changing a locked row. *)
Definition same_row (l : Lock) (d d' : DB) : Prop :=
  match l with
  | InstanceRow id => instances d' !! id = instances d !! id
  | JobRow id => jobs d' !! id = jobs d !! id
  | GroupRow id => groups d' !! id = groups d !! id
  end.

(** Nobody begins to reference the group, and while no live Job references it nobody
    creates an Instance of it. *)
Definition no_new_user (g : Z) (d d' : DB) : Prop :=
  (referenced d' g → referenced d g) ∧
  (¬ referenced d g → ∀ id i', instances d' !! id = Some i' → i_executor_group_id i' = g →
     ∃ i, instances d !! id = Some i ∧ i_executor_group_id i = g).

(** Beyond that, the code uses the parent lock to authorize attempts, the Job lock to
    create Instances and the group lock to reference a group, so a holder is also
    protected from these. *)
Definition guarded_by (l : Lock) (d d' : DB) : Prop :=
  match l with InstanceRow id => no_new_attempt id d d' | JobRow id => no_new_instance id d d' | GroupRow g => no_new_user g d d' end.

Definition lock_respects (L : list Lock) (d d' : DB) : Prop := ∀ l, l ∈ L → same_row l d d' ∧ guarded_by l d d'.

(** The other side: a commit does these things only under the lock. *)
Definition lock_disciplined (L : list Lock) (d d' : DB) : Prop := ∀ l, l ∉ L → guarded_by l d d'.

(** A disciplined commit respects the locks of a session it does not conflict with. *)
Lemma disciplined_respects L L' d d' :
  lock_disciplined L' d d' → (∀ l, l ∈ L → l ∉ L') → (∀ l, l ∈ L → same_row l d d') → lock_respects L d d'.
Proof. intros Hd Hdis Hrow l Hl. split; [by apply Hrow|by apply Hd, Hdis]. Qed.

#[global] Instance guarded_by_preorder l : PreOrder (guarded_by l).
Proof.
  destruct l as [id|id|id]; split; simpl; try done.
  - intros d tid t Ht Hid. eauto.
  - intros d1 d2 d3 H1 H2 tid t3 Ht Hid. destruct (H2 _ _ Ht Hid) as (t2 & Ht2 & Hid2 & E2).
    destruct (H1 _ _ Ht2 Hid2) as (t1 & Ht1 & Hid1 & E1). exists t1. split_and!; congruence.
  - intros d k i Hi Hj. eauto.
  - intros d1 d2 d3 H1 H2 k i3 Hi Hj. destruct (H2 _ _ Hi Hj) as (i2 & Hi2 & Hj2). eauto.
  - intros d. split; [done|]. eauto.
  - intros d1 d2 d3 [A1 B1] [A2 B2]. split; [auto|]. intros Hn k i3 Hi Hg.
    destruct (B2 (λ Hr, Hn (A1 Hr)) _ _ Hi Hg) as (i2 & Hi2 & Hg2). eauto.
Qed.

#[global] Instance same_row_preorder l : PreOrder (same_row l).
Proof. destruct l; split; try done; intros ??? E1 E2; simpl in *; congruence. Qed.

#[global] Instance lock_respects_preorder L : PreOrder (lock_respects L).
Proof.
  split; [intros d l _; split; reflexivity|]. intros d1 d2 d3 H1 H2 l Hl. destruct (H1 l Hl), (H2 l Hl).
  split; by etrans.
Qed.

#[global] Instance lock_disciplined_preorder L : PreOrder (lock_disciplined L).
Proof. split; [intros d l _; reflexivity|]. intros d1 d2 d3 H1 H2 l Hl. etrans; [by apply H1|by apply H2]. Qed.

#[global] Instance job_protocol : Protocol :=
  {| Inv := db_inv; evolves := db_evolves; respects := lock_respects; disciplined := lock_disciplined |}.

Lemma empty_db_inv : db_inv empty_db.
Proof. split; try (intros *; unfold empty_db; simpl; rewrite lookup_empty; done). done. Qed.
