(* ===== verification/Transitions.v ===== *)
(** * Atomic transitions

    Each conditional update of the repositories, as a change of one row or two,
    keeps the protocol: the invariant holds afterwards and the database has
    evolved only in the allowed directions. *)

From S2P Require Import Prelude GoLib Tx Model TaskRepo InstanceRepo JobRepo Logic Protocol.

Open Scope Z_scope.

(** ** Tables *)

(** ** One Task changes *)

Lemma set_task_evolves d id t t' :
  tasks d !! id = Some t → task_evolves t t' →
  (∀ i, instances d !! t_instance_id t = Some i → t_attempt_no t' = t_attempt_no t ∨ i_status i = InstanceRunning) →
  db_evolves d (set_task id t' d).
Proof.
  intros Ht He Ha. split; simpl; try reflexivity; [|lia|].
  - by eapply table_evolves_insert; [apply _|..].
  - intros k u Hu i Hi Hs. lookup_cases Hu; [|by eauto].
    destruct He as [Hid _ _ _]. injection Hid as E _ _ _. rewrite E in Hi.
    exists t. split; [done|]. destruct (Ha i Hi) as [->|Hr]; [done|]. by rewrite Hr in Hs.
Qed.

Lemma set_task_inv d id t t' :
  db_inv d → tasks d !! id = Some t → task_evolves t t' → task_wf t' →
  (∀ i, instances d !! t_instance_id t = Some i → coherent i t → coherent i t') →
  db_inv (set_task id t' d).
Proof.
  intros HI Ht He Hw Hc. destruct He as [Hid _ _ _]. injection Hid as Hin _ _ _.
  destruct HI. split; simpl; try done.
  - intros k u Hu. lookup_cases Hu; eauto.
  - intros k u Hu. lookup_cases Hu; eauto.
  - intros k u Hu. lookup_cases Hu; [|eauto].
    destruct (inv_parent _ _ Ht) as (i & Hi & Hco). rewrite Hin. eauto.
  - intros k k' u u' Hu Hu' E. lookup_cases Hu; lookup_cases Hu'; try done; rewrite ?Hin in E.
    + by eapply inv_single.
    + by eapply inv_single.
    + by eapply inv_single.
  - intros k i Hi Hr. destruct (inv_child _ _ Hi Hr) as (tid & u & Hu & E).
    destruct (decide (tid = id)) as [->|].
    + exists id, t'. rewrite lookup_insert_eq. split; [done|]. congruence.
    + exists tid, u. by rewrite lookup_insert_ne.
Qed.

(** ** One Instance changes *)

Lemma set_instance_evolves d id i i' :
  instances d !! id = Some i → inst_evolves i i' → db_evolves d (set_instance id i' d).
Proof.
  intros Ht He. split; simpl; try reflexivity; [|lia|by eauto]. by eapply table_evolves_insert; [apply _|..].
Qed.

Lemma frozen_identity i i' :
  frozen i' = frozen i →
  i_job_id i' = i_job_id i ∧ i_scheduled_at i' = i_scheduled_at i ∧ i_request_id i' = i_request_id i ∧
  i_executor_group_id i' = i_executor_group_id i.
Proof. unfold frozen. intros. by simplify_eq. Qed.

(** An Instance that is active was active before. *)
Lemma active_before i i' : inst_evolves i i' → inst_wf i → active (i_status i') = true → active (i_status i) = true.
Proof.
  intros [_ _ _ Hn _ Ht] [Hw _ _ _] Ha. destruct (i_status i) eqn:E; try done; try (rewrite Ht in Ha by done; congruence).
  unfold inst_status_wf in Hw. by rewrite E in Hw.
Qed.

Lemma set_instance_inv d id i i' :
  db_inv d → instances d !! id = Some i → inst_evolves i i' → inst_wf i' →
  (∀ tid t, tasks d !! tid = Some t → t_instance_id t = id → coherent i t → coherent i' t) →
  i_started_at i' = i_started_at i →
  db_inv (set_instance id i' d).
Proof.
  intros HI Hi Hev Hw Hc Hr. destruct (frozen_identity _ _ (ie_frozen _ _ Hev)) as (Hj & Hs & Hq & Hg).
  destruct HI. split; simpl; try done.
  - intros k u Hu. lookup_cases Hu; eauto.
  - intros k u Hu. lookup_cases Hu; eauto.
  - intros k t Ht. destruct (inv_parent _ _ Ht) as (j & Hj' & Hco).
    destruct (decide (t_instance_id t = id)) as [E|].
    + rewrite E, lookup_insert_eq. exists i'. split; [done|]. rewrite E in Hj'. simplify_eq. eauto.
    + rewrite lookup_insert_ne by done. eauto.
  - intros k u Hu E. lookup_cases Hu; [|by eauto]. rewrite Hr in E. eauto.
  - intros k k' u u' Hu Hu' E1 E2 E3. lookup_cases Hu; lookup_cases Hu'; try done;
      rewrite ?Hj, ?Hs in *; by eapply inv_schedule.
  - intros k k' u u' Hu Hu' E1 E2 E3. lookup_cases Hu; lookup_cases Hu'; try done;
      rewrite ?Hj, ?Hq in *; by eapply inv_request.
  - intros k u Hu Ha. lookup_cases Hu; [|by eapply inv_inst_group]. rewrite Hg. eapply inv_inst_group; [done|].
    eapply active_before; eauto.
  - intros k u Hu Ha. lookup_cases Hu; [|by eapply inv_inst_job]. rewrite Hj. eapply inv_inst_job; [done|].
    eapply active_before; eauto.
Qed.

(** ** Task transitions *)

(** A Task row may become [t'] below its parent [i]. *)
Record task_step (i : JobInstance) (t t' : JobTask) : Prop := {
  ts_wf : task_wf t';
  ts_evolves : task_evolves t t';
  ts_coherent : coherent i t';
  ts_authorized : t_attempt_no t' = t_attempt_no t ∨ i_status i = InstanceRunning;
}.

Lemma update_task_step d id P upd :
  db_inv d →
  (∀ t i, tasks d !! id = Some t → instances d !! t_instance_id t = Some i → P t = true →
     task_wf t → inst_wf i → coherent i t → task_step i t (upd t)) →
  db_inv (update_task id P upd d).1 ∧ db_evolves d (update_task id P upd d).1.
Proof.
  intros HI Hstep. unfold update_task. destruct (tasks d !! id) as [t|] eqn:Ht; [|by split].
  destruct (P t) eqn:HP; [simpl|by split].
  destruct (inv_parent _ HI _ _ Ht) as (i & Hi & Hco).
  destruct (Hstep t i eq_refl Hi HP) as [Hw He Hc Ha];
    [by eapply inv_task|by eapply inv_inst|done|].
  split; [|eapply set_task_evolves; [done..|]; intros; by simplify_eq].
  eapply set_task_inv; [done..|]. intros. by simplify_eq.
Qed.

(** Everything of an attempt that closing it keeps. *)
Definition attempt_facts (t : JobTask) :=
  (t_instance_id t, t_task_type t, t_started_at t, t_created_at t, t_attempt_no t, t_attempt_registered_at t,
   t_executor_instance_id t, t_executor_address t).

Lemma close_running i t t' :
  task_wf t → coherent i t → t_status t = TaskRunning → attempt_facts t' = attempt_facts t →
  t_status t' ≠ TaskRunning → t_status t' ≠ TaskCanceled → task_status_wf t' →
  (t_used_attempts t' = t_used_attempts t ∨ t_used_attempts t' = t_used_attempts t - 1) →
  task_step i t t'.
Proof.
  intros [Wt Wa Wu Wb Ws] [Cs Cst Cb Co Cc Csu Cf] Hr Hf Hn Hnc Hw Hu. unfold attempt_facts in Hf. simplify_eq.
  unfold task_status_wf in Ws. rewrite Hr in Ws.
  assert (terminal_status (i_status i) = false) as Hopen by (apply Co; by rewrite Hr).
  split.
  - split; [congruence|lia|lia| |done].
    replace (t_executor_instance_id t') with (t_executor_instance_id t) by congruence.
    by replace (t_executor_address t') with (t_executor_address t) by congruence.
  - split; [congruence|lia|by rewrite Hr|]. intros _. split; try congruence. intuition.
  - split; try done; try congruence.
    + destruct Cb as (c & ? & ? & ? & ? & ? & ?). exists c. split_and!; [done..|lia].
    + intros E. by rewrite E in Hopen.
    + intros E. by rewrite E in Hopen.
  - left. congruence.
Qed.

Section rows.
Context `{UuidLib, PgLib}.

Lemma attempt_matches_running inst n t :
  attempt_matches inst n t = true → t_instance_id t = inst ∧ t_attempt_no t = n ∧ t_status t = TaskRunning.
Proof. unfold attempt_matches. intros. by to_prop. Qed.

(** The obligations of [close_running] for a concrete row update. *)
Ltac close_row :=
  apply close_running; [done|done|done|reflexivity|simpl|simpl|unfold task_status_wf; simpl|simpl].

Lemma busy_step write now t i :
  task_wf t → coherent i t → response_guard (bw_InstanceID write) (bw_AttemptNo write) t = true →
  task_step i t (busy_row write now t).
Proof.
  intros Hw Hc Hg. unfold response_guard in Hg. to_prop. apply attempt_matches_running in H1 as (_ & _ & Hr).
  close_row; [discriminate|discriminate|by eauto|by right].
Qed.

Lemma reject_step write now t i :
  task_wf t → coherent i t → response_guard (rj_InstanceID write) (rj_AttemptNo write) t = true →
  task_step i t (reject_row write now t).
Proof.
  intros Hw Hc Hg. unfold response_guard in Hg. to_prop. apply attempt_matches_running in H1 as (_ & _ & Hr).
  close_row; [by destruct (_ <? _)..| |by left].
  destruct (_ <? _); [by eauto|]. split_and!; [done|by eauto|done|].
  eexists. split; [done|]. right. by left.
Qed.

Lemma settle_step write t i :
  task_wf t → coherent i t → t_status t = TaskRunning → task_step i t (settle_row write t).
Proof.
  intros Hw Hc Hr. close_row; [by destruct (_ <? _)..| |by left].
  destruct (_ <? _); [by eauto|]. split_and!; [done|by eauto|done|].
  eexists. split; [done|]. right. by right.
Qed.

Lemma result_step write now t i :
  task_wf t → coherent i t → result_guard write t = true →
  rw_Status write = TaskSucceeded ∨ rw_Status write = TaskRetryWaiting ∨ rw_Status write = TaskFailed →
  task_step i t (result_row write now t).
Proof.
  intros Hw Hc Hg Hs. unfold result_guard in Hg. to_prop. apply attempt_matches_running in H1 as (_ & _ & Hr).
  unfold result_row. destruct Hs as [E|[E|E]]; rewrite E; close_row;
    try discriminate; try (by left); split_and!; try reflexivity; try (by eauto).
  all: eexists; split; [done|by left].
Qed.

Lemma bind_step binding now t i :
  task_wf t → coherent i t →
  attempt_matches (eb_InstanceID binding) (eb_AttemptNo binding) t && unbound t = true →
  task_step i t (bind_row binding now t).
Proof.
  intros [Wt Wa Wu Wb Ws] Hc Hg. unfold unbound in Hg. to_prop.
  apply attempt_matches_running in H1 as (_ & _ & Hr).
  split.
  - by split; simpl; eauto.
  - split; simpl; [done|lia|by rewrite Hr|]. intros _. split; simpl; try done; [congruence|congruence|by left|by left].
  - destruct Hc. by split.
  - by left.
Qed.

(** Registration needs an opportunity left in the frozen budget. *)
Lemma register_step write t i c :
  task_wf t → coherent i t → register_guard write t = true → i_status i = InstanceRunning →
  Scan (i_execution_config i) = Some c → rr_MaxAttempts write = MaxRetries c + 1 →
  task_step i t (register_row write t).
Proof.
  intros [Wt Wa Wu Wb Ws] [Cs Cst Cb Co Cc Csu Cf] Hg Hi Hs Hm. unfold register_guard in Hg. to_prop.
  destruct Cb as (c' & ? & ? & ? & ? & ? & ?). simplify_eq.
  split.
  - split; simpl; [done|lia|lia|by split; intros []|].
    unfold task_status_wf; simpl. split_and!; [lia|by eauto|done..].
  - split; simpl; [done|lia| |intros; lia].
    by replace (t_status t) with TaskRetryWaiting.
  - split; simpl; try done; try congruence; [|by rewrite Hi].
    eexists. split_and!; [done..|lia].
  - by right.
Qed.

Lemma cancel_step write t i :
  task_wf t → coherent i t → unfinished (t_status t) = true → i_status i = InstanceStopping →
  i_end_reason i = Some (tc_Reason write) → stop_reason (tc_Reason write) →
  task_step i t (cancel_row write t).
Proof.
  intros [Wt Wa Wu Wb Ws] [Cs Cst Cb Co Cc Csu Cf] Hu Hi Hr Hs.
  split.
  - split; simpl; try done. unfold task_status_wf; simpl. split_and!; try done; by eauto.
  - split; simpl; [done|lia|by rewrite Hu|]. intros _. split; simpl; try done; [by left|by right].
  - split; simpl; try done; try congruence. intros _. by split; [left|].
  - by left.
Qed.

Lemma cancel_rows_step write ids d i :
  db_inv d → instances d !! tc_InstanceID write = Some i → i_status i = InstanceStopping →
  i_end_reason i = Some (tc_Reason write) → stop_reason (tc_Reason write) →
  db_inv (cancel_rows write ids d).1 ∧ db_evolves d (cancel_rows write ids d).1.
Proof.
  intros HI Hi Hs Hr Hst. revert d HI Hi. induction ids as [|id ids IH]; intros d HI Hi; [by split|]. simpl.
  match goal with |- context [update_task id ?P ?u d] =>
    destruct (update_task_step d id P u HI) as [HI1 He1];
    [|destruct (update_task id P u d) as [d1 n1] eqn:E; simpl in *] end.
  { intros t j Ht Hj HP Hw _ Hc. to_prop. assert (j = i) as -> by congruence. by apply cancel_step. }
  assert (instances d1 = instances d) as Hsame.
  { unfold update_task in E. destruct (tasks d !! id); [destruct (_ && _)|]; injection E as <- _; done. }
  destruct (IH d1) as [HI2 He2]; [done|by rewrite Hsame|].
  destruct (cancel_rows write ids d1). simpl in *. split; [done|by etrans].
Qed.
End rows.

(** ** Instance transitions *)

(** The trigger identity and the snapshot only depend on frozen columns. *)
Lemma frozen_wf i i' :
  frozen i' = frozen i → inst_wf i → inst_status_wf i' → inst_times_wf i' → inst_wf i'.
Proof.
  intros Hf [? ? Hid Hcfg] ? ?. unfold frozen in Hf. injection Hf as _ _ _ Ety Esc Erq Epo Etb Ecf _.
  split; try done.
  - unfold trigger_identity in *. by rewrite Ety, Esc, Erq, Epo, Etb.
  - by rewrite Ecf.
Qed.

Lemma times_wf_same i i' :
  i_started_at i' = i_started_at i → i_deadline_at i' = i_deadline_at i →
  i_execution_config i' = i_execution_config i → inst_times_wf i → inst_times_wf i'.
Proof. unfold inst_times_wf. by intros -> -> ->. Qed.

(** An Instance row may become [i'], given the Tasks below it. *)
Record inst_step (d : DB) (id : Z) (i i' : JobInstance) : Prop := {
  is_wf : inst_wf i';
  is_evolves : inst_evolves i i';
  is_coherent : ∀ tid t, tasks d !! tid = Some t → t_instance_id t = id → coherent i t → coherent i' t;
  is_started : i_started_at i' = i_started_at i;
}.

Lemma update_instance_step d id P upd :
  db_inv d →
  (∀ i, instances d !! id = Some i → P i = true → inst_wf i → inst_step d id i (upd i)) →
  db_inv (update_instance id P upd d).1 ∧ db_evolves d (update_instance id P upd d).1.
Proof.
  intros HI Hstep. unfold update_instance. destruct (instances d !! id) as [i|] eqn:Hi; [|by split].
  destruct (P i) eqn:HP; [simpl|by split].
  destruct (Hstep i eq_refl HP) as [Hw He Hc Hr]; [by eapply inv_inst|].
  split; [|by eapply set_instance_evolves].
  by eapply set_instance_inv.
Qed.

(** A stop decision freezes its reason; Tasks keep running until they converge. *)
Lemma record_stop_step d id i reason summary now :
  inst_wf i → stop_reason reason →
  (i_status i = InstanceWaiting ∨ i_status i = InstanceRunning) →
  (reason = EndReasonInstanceTimeout → i_status i = InstanceRunning) →
  inst_step d id i (record_stop_row reason summary now i).
Proof.
  intros Hw Hr Hs Ht. pose proof Hw as [Ws Wt Wi Wc]. split.
  - apply (frozen_wf i); [done|done| |by apply (times_wf_same i)].
    unfold inst_status_wf; simpl. split; [done|]. eexists. split_and!; [done|done|].
    intros E. unfold inst_status_wf in Ws. rewrite (Ht E) in Ws. by destruct Ws.
  - split; simpl; try done; [by destruct Hs as [-> | ->]|by destruct Hs as [-> | ->]..].
  - intros tid t _ _ [Cs Cst Cb Co Cc Csu Cf]. split; simpl; try done.
    intros E. destruct (Cc E) as [Hst _]. destruct Hs as [E'|E']; rewrite E' in Hst; intuition congruence.
  - done.
Qed.

Lemma has_unfinished_false d id :
  has_unfinished d id = false →
  ∀ tid t, tasks d !! tid = Some t → t_instance_id t = id → unfinished (t_status t) = false.
Proof.
  unfold has_unfinished. intros Hn tid t Ht E.
  destruct (unfinished (t_status t)) eqn:Hu; [|done]. exfalso.
  enough (existsb (λ r : Z * JobTask, (t_instance_id r.2 =? id) && unfinished (t_status r.2)) (rows (tasks d)) = true)
    by congruence.
  apply existsb_exists. exists (tid, t). split.
  - apply list_elem_of_In, elem_of_rows. done.
  - simpl. by rewrite E, Z.eqb_refl, Hu.
Qed.

Lemma stop_target_cases reason :
  stop_reason reason →
  (reason = EndReasonInstanceTimeout ∧ stop_target reason = InstanceFailed) ∨
  (reason = EndReasonManualStop ∧ stop_target reason = InstanceCanceled).
Proof. intros [->| ->]; [by right|by left]. Qed.

Lemma finish_stop_step d id i reason now :
  inst_wf i → is_stopping i = true → i_end_reason i = Some reason → has_unfinished d id = false →
  inst_step d id i (finish_stop_row reason now i).
Proof.
  intros Hw Hs Hr Hn. pose proof Hw as [Ws Wt Wi Wc]. unfold is_stopping in Hs. to_prop.
  unfold inst_status_wf in Ws. rewrite Hs in Ws. destruct Ws as (_ & r & Er & Hst & Hti).
  assert (r = reason) as -> by congruence.
  assert (i_status (finish_stop_row reason now i) = stop_target reason) as Est by done.
  pose proof (stop_target_cases reason Hst) as Hcases.
  split.
  - apply (frozen_wf i); [done|done| |by apply (times_wf_same i)].
    unfold inst_status_wf. rewrite Est.
    destruct Hcases as [[E ->]|[E ->]]; simpl; rewrite ?Hr, E; split_and!; eauto.
  - split; try done; [|by rewrite Hs].
    rewrite Hs, Est. by destruct Hcases as [[_ ->]|[_ ->]].
  - intros tid t Ht Hid [Cs Cst Cb Co Cc Csu Cf].
    pose proof (has_unfinished_false d id Hn tid t Ht Hid) as Hu.
    split; rewrite ?Est; try done.
    + by destruct Hcases as [[_ ->]|[_ ->]].
    + by rewrite Hu.
    + intros E. destruct (Cc E) as [_ ->]. split; [|done]. simpl.
      destruct Hcases as [[E' ->]|[_ ->]]; rewrite ?Hr, ?E'; auto.
    + by destruct Hcases as [[_ ->]|[_ ->]].
    + destruct Hcases as [[E' ->]|[_ ->]]; [|done]. simpl. rewrite Hr, E'. done.
  - done.
Qed.

(** Completion: the only Task of the parent has the final status. *)
Definition final_task (d : DB) (id : Z) (target : InstanceStatus) (summary : option string) : Prop :=
  ∃ tid t, tasks d !! tid = Some t ∧ t_instance_id t = id ∧ t_result_summary t = summary ∧
    ((target = InstanceSucceeded ∧ t_status t = TaskSucceeded) ∨ (target = InstanceFailed ∧ t_status t = TaskFailed)).

Lemma complete_step d id i target summary now :
  db_inv d → inst_wf i → i_status i = InstanceRunning → final_task d id target summary →
  inst_step d id i (complete_row target summary now i).
Proof.
  intros HI Hw Hs (tid & t & Ht & Hid & Hsum & Htar). pose proof Hw as [Ws Wt Wi Wc].
  unfold inst_status_wf in Ws. rewrite Hs in Ws. destruct Ws as (Wst & _ & _).
  split.
  - apply (frozen_wf i); [done|done| |by apply (times_wf_same i)].
    unfold inst_status_wf; simpl. destruct Htar as [[-> _]|[-> _]]; simpl; split_and!; try done; by eauto.
  - split; simpl; try done; rewrite Hs; [|done|done]. by destruct Htar as [[-> _]|[-> _]].
  - intros tid' t' Ht' Hid' [Cs Cst Cb Co Cc Csu Cf].
    assert (tid' = tid) as -> by (eapply inv_single; [done..|congruence]). simplify_eq.
    destruct Htar as [[-> E]|[-> E]]; split; simpl; try done; rewrite E; try done.
  - done.
Qed.

(** ** New rows *)

(** The first start: the parent begins to run and its only Task appears. *)
Definition started_db (d : DB) (id : Z) (i : JobInstance) (startedAt deadlineAt : Time) : DB :=
  let d1 := set_instance id (start_row startedAt deadlineAt i) d in
  { set_task (next_task d1) (ordinary_row id startedAt) d1 with next_task := next_task d1 + 1 }.

Lemma no_task_while_waiting d id i tid t :
  db_inv d → instances d !! id = Some i → i_status i = InstanceWaiting →
  tasks d !! tid = Some t → t_instance_id t ≠ id.
Proof.
  intros HI Hi Hs Ht E. destruct (inv_parent _ HI _ _ Ht) as (j & Hj & [Cs _ _ _ _ _ _]). congruence.
Qed.

Lemma start_row_wf i c startedAt :
  inst_wf i → startedAt ≠ 0 → Scan (i_execution_config i) = Some c → 0 < TimeoutSeconds c →
  i_status i = InstanceWaiting →
  inst_wf (start_row startedAt (startedAt + TimeoutSeconds c * Second) i).
Proof.
  intros Hw Hz Hc Ht Hs. pose proof Hw as [Ws _ _ _]. unfold inst_status_wf in Ws. rewrite Hs in Ws.
  apply (frozen_wf i); [done|done| |].
  - unfold inst_status_wf; simpl. destruct Ws as (?&?&?). split_and!; eauto.
  - unfold inst_times_wf; simpl. split; [done|]. eauto.
Qed.

Lemma started_step d id i c startedAt :
  db_inv d → instances d !! id = Some i → i_status i = InstanceWaiting → startedAt ≠ 0 →
  Scan (i_execution_config i) = Some c → SchemaVersion c = 1 → Mode c = ExecutionModeNormal → PostEnabled c = false →
  0 ≤ MaxRetries c → 0 < TimeoutSeconds c →
  let d' := started_db d id i startedAt (startedAt + TimeoutSeconds c * Second) in
  db_inv d' ∧ db_evolves d d'.
Proof.
  intros HI Hi Hs Hz Hc Hsv Hm Hp Hr Ht d'.
  pose proof (fresh_lookup (tasks d) (next_task d) (inv_task_id d HI)) as Hfresh.
  pose proof (no_task_while_waiting d id i) as Hno.
  pose proof (inv_inst _ HI _ _ Hi) as Hw.
  pose proof (start_row_wf i c startedAt Hw Hz Hc Ht Hs) as Hw'.
  split.
  - destruct HI as [I1 I2 I3 I4 I5 I6 I7 I8 I9 I10 I11 I12 I13 I14 I15].
    assert (db_inv d) as HI by by split.
    split; simpl.
    + intros k u Hu. lookup_cases Hu; [lia|]. apply I1 in Hu. lia.
    + intros k u Hu. lookup_cases Hu; eauto.
    + done.
    + done.
    + lia.
    + intros k u Hu. lookup_cases Hu; [|eauto].
      by split; simpl.
    + intros k u Hu. lookup_cases Hu; eauto.
    + intros k u Hu. lookup_cases Hu.
      * rewrite lookup_insert_eq. eexists. split; [done|].
        split; simpl; try done. exists c. split_and!; [done..|lia].
      * destruct (I8 _ _ Hu) as (j & Hj & Hco). rewrite lookup_insert_ne; [eauto|].
        intros E. by eapply Hno.
    + intros k k' u u' Hu Hu' E. lookup_cases Hu; lookup_cases Hu'; try done; [..|eauto]; exfalso; by eapply Hno.
    + intros k j Hj E. lookup_cases Hj.
      * eexists (next_task d), _. by rewrite lookup_insert_eq.
      * destruct (I10 _ _ Hj E) as (tid & t & Htt & Et). exists tid, t.
        rewrite lookup_insert_ne; [done|]. apply I1 in Htt. lia.
    + intros k k' u u' Hu Hu' E1 E2 E3. lookup_cases Hu; lookup_cases Hu'; try done; by eapply I11.
    + intros k k' u u' Hu Hu' E1 E2 E3. lookup_cases Hu; lookup_cases Hu'; try done; by eapply I12.
    + done.
    + intros k u Hu Ha. lookup_cases Hu; [|by eapply I14]. eapply I14; [done|by rewrite Hs].
    + intros k u Hu Ha. lookup_cases Hu; [|by eapply I15]. eapply I15; [done|by rewrite Hs].
  - split; simpl; try reflexivity; [| |lia|].
    + eapply table_evolves_insert; [apply _|done|].
      destruct Hw as [Ws Wt _ _]. unfold inst_status_wf in Ws. rewrite Hs in Ws. destruct Ws as (W1 & _).
      unfold inst_times_wf in Wt. rewrite W1 in Wt.
      split; simpl; try done; rewrite ?Hs, ?W1; try done. by destruct (i_deadline_at i).
    + by apply table_evolves_fresh; [apply _|].
    + intros k u Hu j Hj Hsj. lookup_cases Hu; [by rewrite Hs in Hsj|]. eauto.
Qed.

Definition inserted_db (d : DB) (row : JobInstance) : DB :=
  { set_instance (next_instance d) row d with next_instance := next_instance d + 1 }.

Lemma exists_instance_false P d id i :
  exists_instance P d = false → instances d !! id = Some i → P i = false.
Proof.
  unfold exists_instance. intros Hn Hi. destruct (P i) eqn:E; [|done]. exfalso.
  enough (existsb (λ r : Z * JobInstance, P r.2) (rows (instances d)) = true) by congruence.
  apply existsb_exists. exists (id, i). split; [|done]. apply list_elem_of_In, elem_of_rows. done.
Qed.

Lemma exists_instance_true P d :
  exists_instance P d = true → ∃ id i, instances d !! id = Some i ∧ P i = true.
Proof.
  unfold exists_instance. intros Hn. apply existsb_exists in Hn as ([id i] & Hin & HP).
  apply list_elem_of_In, elem_of_rows in Hin. eauto.
Qed.

Lemma same_schedule_spec row i :
  same_schedule row i = false → i_job_id i = i_job_id row → i_scheduled_at row ≠ None →
  i_scheduled_at i ≠ i_scheduled_at row.
Proof.
  unfold same_schedule. intros E Ej Hn Hs. rewrite Ej, Z.eqb_refl in E. simpl in E.
  by rewrite !bool_decide_eq_true_2 in E by done.
Qed.

Lemma same_request_spec row i :
  same_request row i = false → i_job_id i = i_job_id row → i_request_id row ≠ None →
  i_request_id i ≠ i_request_id row.
Proof.
  unfold same_request. intros E Ej Hn Hs. rewrite Ej, Z.eqb_refl in E. simpl in E.
  by rewrite !bool_decide_eq_true_2 in E by done.
Qed.

Lemma inserted_step d row :
  db_inv d → inst_wf row → i_status row = InstanceWaiting → group_live d (i_executor_group_id row) → job_live d (i_job_id row) →
  exists_instance (same_schedule row) d = false → exists_instance (same_request row) d = false →
  db_inv (inserted_db d row) ∧ db_evolves d (inserted_db d row).
Proof.
  intros HI Hw Hs Hgl Hjl Hc1 Hc2.
  pose proof (fresh_lookup (instances d) (next_instance d) (inv_inst_id d HI)) as Hfresh.
  split.
  - destruct HI. split; simpl; try done.
    + intros k u Hu. lookup_cases Hu; [lia|]. apply inv_inst_id in Hu. lia.
    + lia.
    + intros k u Hu. lookup_cases Hu; eauto.
    + intros k t Ht. destruct (inv_parent _ _ Ht) as (j & Hj & Hco). exists j.
      rewrite lookup_insert_ne; [done|]. apply inv_inst_id in Hj. lia.
    + intros k j Hj E. lookup_cases Hj; [|eauto].
      destruct Hw as [Ws _ _ _]. unfold inst_status_wf in Ws. rewrite Hs in Ws. destruct Ws as [Ws _].
      rewrite Ws in E. by destruct E.
    + intros k k' u u' Hu Hu' E1 E2 E3. lookup_cases Hu; lookup_cases Hu'; try done; [..|by eapply inv_schedule];
        exfalso; (eapply same_schedule_spec; [by eapply exists_instance_false|..]); congruence.
    + intros k k' u u' Hu Hu' E1 E2 E3. lookup_cases Hu; lookup_cases Hu'; try done; [..|by eapply inv_request];
        exfalso; (eapply same_request_spec; [by eapply exists_instance_false|..]); congruence.
    + intros k u Hu Ha. lookup_cases Hu; [done|by eapply inv_inst_group].
    + intros k u Hu Ha. lookup_cases Hu; [done|by eapply inv_inst_job].
  - split; simpl; try reflexivity; [|lia|by eauto]. by apply table_evolves_fresh; [apply _|].
Qed.

(** ** Job definitions and groups *)

(** Only the Job table or its sequence differs. *)
Lemma jobs_step d m n :
  db_inv d → table_evolves job_evolves (jobs d) m → next_job d ≤ n →
  (∀ id j, m !! id = Some j → 0 < id < n) →
  (∀ id j, m !! id = Some j → live_job j = true → group_live d (j_executor_group_id j)) →
  (∀ id i, instances d !! id = Some i → active (i_status i) = true → ∃ j, m !! i_job_id i = Some j ∧ live_job j = true) →
  db_inv { d with jobs := m; next_job := n } ∧ db_evolves d { d with jobs := m; next_job := n }.
Proof.
  intros HI Hm Hn Hid Hg Hact. split.
  - destruct HI. split; simpl; try done. lia.
  - split; simpl; try reflexivity; [done|lia|by eauto].
Qed.

(** A group may only disappear without users. *)
Lemma groups_step d m n :
  db_inv d → table_evolves group_evolves (groups d) m → next_group d ≤ n →
  (∀ id g, m !! id = Some g → 0 < id < n) →
  (∀ g row, groups d !! g = Some row → live_group row = true →
     (∃ row', m !! g = Some row' ∧ live_group row' = true) ∨
     (¬ referenced d g ∧ ∀ id i, instances d !! id = Some i → i_executor_group_id i = g → active (i_status i) = false)) →
  db_inv { d with groups := m; next_group := n } ∧ db_evolves d { d with groups := m; next_group := n }.
Proof.
  intros HI Hm Hn Hid Hlive. split.
  - destruct HI. split; simpl; try done; [lia| |].
    + intros id j Hj Hl. destruct (inv_job_group _ _ Hj Hl) as (row & Hr & Hrl).
      destruct (Hlive _ _ Hr Hrl) as [?|[Hno _]]; [done|]. destruct Hno. by exists id, j.
    + intros id i Hi Ha. destruct (inv_inst_group _ _ Hi Ha) as (row & Hr & Hrl).
      destruct (Hlive _ _ Hr Hrl) as [?|[_ Hno]]; [done|]. by rewrite (Hno _ _ Hi eq_refl) in Ha.
  - split; simpl; try reflexivity; [done|lia|by eauto].
Qed.

Lemma update_job_step d id P upd :
  db_inv d →
  (∀ j, jobs d !! id = Some j → P j = true → live_job j = true → live_job (upd j) = true → group_live d (j_executor_group_id (upd j))) →
  (∀ j, jobs d !! id = Some j → P j = true → live_job j = true → live_job (upd j) = true ∨
     ∀ k i, instances d !! k = Some i → i_job_id i = id → active (i_status i) = false) →
  db_inv (update_job id P upd d).1 ∧ db_evolves d (update_job id P upd d).1.
Proof.
  intros HI Hg Ha. unfold update_job. destruct (jobs d !! id) as [j|] eqn:Hj; [|by split].
  destruct (P j && live_job j) eqn:HP; [simpl|by split]. apply andb_true_iff in HP as [HP Hlj].
  change (set_job id (upd j) d) with ({ d with jobs := <[id := upd j]> (jobs d); next_job := next_job d }).
  apply jobs_step; [done| |lia| | |].
  - eapply table_evolves_insert; [apply _|done|]. unfold live_job in Hlj. to_prop. by intros ?.
  - intros k u Hu. lookup_cases Hu; by eapply inv_job_id.
  - intros k u Hu Hl. lookup_cases Hu; [by apply Hg|by eapply inv_job_group].
  - intros k i Hi Hac. destruct (inv_inst_job _ HI _ _ Hi Hac) as (j' & Hj' & Hl').
    destruct (decide (i_job_id i = id)) as [E|Hne]; [|exists j'; by rewrite lookup_insert_ne].
    rewrite E, lookup_insert_eq. exists (upd j). split; [done|]. destruct (Ha j eq_refl HP Hlj) as [?|Hno]; [done|].
    by rewrite (Hno _ _ Hi E) in Hac.
Qed.

(** The group of a Job that keeps it. *)
Lemma kept_group d id j j' :
  db_inv d → jobs d !! id = Some j → live_job j = true → j_executor_group_id j' = j_executor_group_id j →
  group_live d (j_executor_group_id j').
Proof. intros HI Hj Hl ->. by eapply inv_job_group. Qed.

(** ** Locks

    Which locks each change needs. *)

Lemma no_new_user_refl g d : no_new_user g d d.
Proof. split; [done|]. eauto. Qed.

Lemma no_new_user_tables g d d' :
  jobs d' = jobs d → (∀ id i', instances d' !! id = Some i' → ∃ i, instances d !! id = Some i ∧ i_executor_group_id i = i_executor_group_id i') →
  no_new_user g d d'.
Proof.
  intros Ej Hi. split; [unfold referenced; by rewrite Ej|]. intros _ id i' Hi' Hg. destruct (Hi _ _ Hi') as (i & ? & ?). exists i. split; [done|congruence].
Qed.

(** Changes of the Job table: references need the lock of the group. *)
Lemma disciplined_tables L d d' :
  tasks d' = tasks d → instances d' = instances d → (∀ g, GroupRow g ∉ L → referenced d' g → referenced d g) → lock_disciplined L d d'.
Proof.
  intros Et Ei Hr l Hl. destruct l as [id|id|id]; simpl.
  - intros tid t. rewrite Et. eauto.
  - intros k i. rewrite Ei. eauto.
  - split; [by apply Hr|]. rewrite Ei. eauto.
Qed.

Lemma disciplined_set_task L d id t t' :
  tasks d !! id = Some t → t_instance_id t' = t_instance_id t →
  t_attempt_no t' = t_attempt_no t ∨ InstanceRow (t_instance_id t) ∈ L → lock_disciplined L d (set_task id t' d).
Proof.
  intros Ht Ei Ha l Hl. destruct l as [k|k|k]; simpl; [|by intros ???; eauto|by apply no_new_user_tables; eauto].
  intros tid u Hu Hid. simpl in Hu. lookup_cases Hu; [|by eauto]. exists t. split_and!; [done|congruence|].
  destruct Ha as [->|Ha]; [done|]. destruct Hl. by rewrite Ei.
Qed.

Lemma disciplined_update_task L d id P upd :
  (∀ t, t_instance_id (upd t) = t_instance_id t ∧ t_attempt_no (upd t) = t_attempt_no t) →
  lock_disciplined L d (update_task id P upd d).1.
Proof.
  intros Hu. unfold update_task. destruct (tasks d !! id) as [t|] eqn:Ht; [|reflexivity].
  destruct (P t); [|reflexivity]. destruct (Hu t). apply (disciplined_set_task L d id t); auto.
Qed.

Lemma disciplined_cancel_rows `{UuidLib} L write ids d : lock_disciplined L d (cancel_rows write ids d).1.
Proof.
  revert d. induction ids as [|id ids IH]; intros d; [reflexivity|]. simpl.
  match goal with |- context [update_task id ?P ?u d] =>
    pose proof (disciplined_update_task L d id P u) as Hs; destruct (update_task id P u d) as [d1 n1]; simpl in * end.
  specialize (IH d1). destruct (cancel_rows write ids d1). simpl in *. etrans; [|done]. by apply Hs.
Qed.

Lemma disciplined_set_instance L d id i i' :
  instances d !! id = Some i → i_job_id i' = i_job_id i → i_executor_group_id i' = i_executor_group_id i →
  lock_disciplined L d (set_instance id i' d).
Proof.
  intros Hi Ej Eg l _. destruct l as [k|k|k]; simpl; [by intros ???; eauto| |].
  - intros n u Hu Hj. simpl in Hu. lookup_cases Hu; [|by eauto]. exists i. split; congruence.
  - apply no_new_user_tables; [done|]. intros n u Hu. simpl in Hu. lookup_cases Hu; eauto.
Qed.

Lemma disciplined_started L d id i startedAt deadlineAt :
  instances d !! id = Some i → InstanceRow id ∈ L → lock_disciplined L d (started_db d id i startedAt deadlineAt).
Proof.
  intros Hi Hin. etrans; [by apply (disciplined_set_instance L d id i (start_row startedAt deadlineAt i))|].
  intros l Hl. destruct l as [k|k|k]; simpl; [|by intros ???; eauto|by apply no_new_user_tables; eauto].
  intros tid u Hu Hid. simpl in Hu. lookup_cases Hu; [done|by eauto].
Qed.

Lemma disciplined_inserted L d row :
  JobRow (i_job_id row) ∈ L → referenced d (i_executor_group_id row) → lock_disciplined L d (inserted_db d row).
Proof.
  intros Hin Href l Hl. destruct l as [k|k|k]; simpl; [by intros ???; eauto| |].
  - intros n u Hu Hj. simpl in Hu. lookup_cases Hu; [done|by eauto].
  - split; [done|]. intros Hn n u Hu Hg. simpl in Hu. lookup_cases Hu; [done|by eauto].
Qed.
