(* ===== verification/RepoRules.v ===== *)
(** * Rules for repository statements

    The Hoare rule of every repository operation that a component calls: on its
    own handle ([wp]) the statement keeps the protocol under interference; inside
    a transaction ([tx]) it describes the row it reads or writes. *)

From S2P Require Import Prelude GoLib Tx Model TaskRepo InstanceRepo JobRepo Logic Protocol Transitions.

Open Scope Z_scope.

(** [safe] of operations on the Job tables. *)
Abbreviation safe := (Logic.safe (DB := DB) (Lock := Lock) (Output := Output)).

Section rules.
Context `{UuidLib, PgLib}.

(** ** Task statements *)

Lemma dispatch_write_safe {A} (m : M A) : safe m → safe (dispatch_write m).
Proof. intros Hm. unfold dispatch_write. safe_auto. Qed.

(** A statement that only runs [update_task]. *)
Lemma safe_update_task {A} id P (upd : Event → JobTask → JobTask) (k : Z → Result A) :
  (∀ ev t i, P t = true → task_wf t → coherent i t → task_step i t (upd ev t)) →
  (∀ ev t, t_instance_id (upd ev t) = t_instance_id t ∧ t_attempt_no (upd ev t) = t_attempt_no t) →
  safe (stmt (λ ev d, let '(d', n) := update_task id P (upd ev) d in (d', k n))).
Proof.
  intros Hstep Hsame. apply safe_stmt. intros ev d.
  assert (guarantee [] d (update_task id P (upd ev) d).1) as Hg.
  { apply guarantee_intro; [|by apply disciplined_update_task]. intros HI. apply update_task_step; by eauto. }
  by destruct (update_task id P (upd ev) d).
Qed.

Lemma BindExecutor_safe b : safe (BindExecutor Auto b).
Proof.
  unfold BindExecutor. safe_step; [eauto with safe|]. apply dispatch_write_safe.
  apply (safe_update_task _ _ (λ ev, bind_row b (ev_clock ev)) (λ n, Ok (n =? 1))); [intros; by apply bind_step|done].
Qed.

Lemma SaveDispatchBusy_safe b : safe (SaveDispatchBusy Auto b).
Proof.
  unfold SaveDispatchBusy. safe_step; [eauto with safe|]. apply dispatch_write_safe.
  apply (safe_update_task _ _ (λ ev, busy_row b (ev_clock ev)) (λ n, Ok (n =? 1))); [intros; by apply busy_step|done].
Qed.

Lemma SaveDispatchRejection_safe b : safe (SaveDispatchRejection Auto b).
Proof.
  unfold SaveDispatchRejection. safe_step; [eauto with safe|]. apply dispatch_write_safe. simpl.
  destruct (pg_text (rj_Summary b)); [|apply safe_refused].
  apply (safe_update_task _ _ (λ ev, reject_row b (ev_clock ev)) (λ n, Ok (n =? 1))); [intros; by apply reject_step|done].
Qed.

Lemma SaveResult_safe b : safe (SaveResult Auto b).
Proof.
  unfold SaveResult. guard as E; [eauto with safe|]. simpl.
  destruct (result_data_error b); [apply safe_refused|].
  destruct (pg_text (rw_Summary b)); [|apply safe_refused].
  apply (safe_update_task _ _ (λ ev, result_row b (ev_clock ev)) (λ n, Ok (n =? 1)));
    [intros; apply result_step; [done..|]; to_cases; auto|].
  intros ev t. unfold result_row. by destruct (rw_Status b).
Qed.

Lemma SettleOrdinaryUnknown_safe b : safe (SettleOrdinaryUnknown Auto b).
Proof.
  unfold SettleOrdinaryUnknown. guard as E; [eauto with safe|]. simpl.
  intros d o. apply wp_transact; [done|]. intros d1 HI He.
  apply tx_bind, tx_exec. intros ev v row Hv.
  match goal with |- context [update_task ?id ?P ?u (current v)] =>
    assert (guarantee (held_rows v) (current v) (update_task id P u (current v)).1) as Hg;
    [|destruct (update_task id P u (current v)) as [d2 n]; simpl in *] end.
  { apply guarantee_intro; [|by apply disciplined_update_task]. intros HI1. apply update_task_step; [done|].
    intros t i _ _ HP Hw _ Hc. to_prop. by apply settle_step. }
  destruct Hv as (d1' & -> & _). simpl in *.
  intros _. destruct row as [t|]; [|by apply tx_ret]. guard as E2; [apply tx_fail|by apply tx_ret].
Qed.

(** ** Instance statements *)

(** Completion is safe once the parent's Task is final, which no other session
    can take back. *)
Lemma final_task_stable d d' id target summary :
  db_evolves d d' → final_task d id target summary → final_task d' id target summary.
Proof.
  intros He (tid & t & Ht & Hid & Hs & Hf). destruct (dbe_tasks _ _ He _ _ Ht) as (t' & Ht' & [_ _ Hfin _]).
  assert (t' = t) as -> by (apply Hfin; destruct Hf as [[_ ->]|[_ ->]]; done).
  by exists tid, t.
Qed.

(** [Ok true] confirms the transition of this very call. *)
Lemma Complete_wp id target summary d o :
  final_task d id target summary →
  wp (Complete Auto id target summary) d o (λ r d' o', o' = o ∧
    (r = Ok true → ∃ i now, instances d' !! id = Some (complete_row target summary now i) ∧
      (target = InstanceSucceeded ∨ target = InstanceFailed))).
Proof.
  intros Hfin. unfold Complete. guard as E; [by apply wp_fail|]. simpl.
  apply wp_transact; [done|]. intros d1 HI He.
  apply tx_exec. intros ev v n Hv. destruct Hv as (d2 & -> & HI2 & He2 & _). simpl.
  destruct (match summary with Some _ => _ | None => _ end); [done|].
  assert (final_task d2 id target summary) as Hfin1 by (eapply final_task_stable; [|done]; by etrans).
  match goal with |- context [update_instance ?i ?P ?u d2] =>
    destruct (update_instance_step d2 i P u HI2) as [HI' He'] end.
  { intros i Hi HP Hw. to_prop. by apply complete_step. }
  unfold update_instance in *. destruct (instances d2 !! id) as [i|] eqn:Hi; simpl in *.
  2:{ intros [= <-]. split; [apply guarantee_refl|done]. }
  destruct (bool_decide (i_status i = InstanceRunning)); simpl in *; intros [= <-]; [|split; [apply guarantee_refl|done]].
  split; [apply guarantee_intro; [done|]; by eapply disciplined_set_instance|]. split; [done|].
  intros _. exists i, (ev_clock ev). rewrite lookup_insert_eq. split; [done|].
  destruct Hfin as (?&?&_&_&_&[[-> _]|[-> _]]); auto.
Qed.

(** ** Reads inside a transaction *)

(** A held parent keeps its row, whatever other sessions commit. *)
Lemma held_instance L id d d' : lock_respects L d d' → InstanceRow id ∈ L → instances d' !! id = instances d !! id.
Proof. intros Hr Hin. apply (Hr _ Hin). Qed.
Lemma held_job L id d d' : lock_respects L d d' → JobRow id ∈ L → jobs d' !! id = jobs d !! id.
Proof. intros Hr Hin. apply (Hr _ Hin). Qed.

(** The parent lock, as both kinds of callers take it: the row as it is when the
    lock is granted, held from then on. *)
Lemma tx_lock_instance {A B} (row : JobInstance → A) nowait id L d (k : Result (option A) → M B) Q :
  (∀ e d', tx (k (Fail e)) (Clean L d') Q) →
  (∀ d', instances d' !! id = None → tx (k (Ok None)) (Clean L d') Q) →
  (∀ d' i, instances d' !! id = Some i → db_inv d' → db_evolves d d' →
     tx (k (Ok (Some (row i)))) (Clean (InstanceRow id :: L) d') Q) →
  tx (r ← attempt (lock InTx (InstanceRow id) (λ ev d, lock_row ev nowait (row <$> instances d !! id))); k r) (Clean L d) Q.
Proof.
  intros HF HN HS. apply tx_bind, tx_attempt_read.
  - intros ev v (d' & -> & HI & He & _). simpl. unfold lock_row.
    destruct (instances d' !! id) as [i|] eqn:Hi; simpl; [|rewrite andb_false_r; by apply HN].
    destruct (_ && _); [apply HF|by apply HS].
  - intros e v (d' & -> & _). apply HF.
Qed.

Lemma tx_LockForExecution id L d Q :
  (∀ d', instances d' !! id = None → Q None (Clean L d')) →
  (∀ d' i, instances d' !! id = Some i → db_inv d' → db_evolves d d' →
     Q (Some (execution_instance id i)) (Clean (InstanceRow id :: L) d')) →
  tx (LockForExecution InTx id) (Clean L d) Q.
Proof.
  intros HN HS. apply tx_lock_instance; intros; [apply tx_fail|apply tx_ret; by apply HN|apply tx_ret; by apply HS].
Qed.

Lemma tx_LockForStop id nowait L d Q :
  (∀ d', instances d' !! id = None → Q None (Clean L d')) →
  (∀ d' i, instances d' !! id = Some i → db_inv d' → db_evolves d d' →
     Q (Some (stopping_instance id i)) (Clean (InstanceRow id :: L) d')) →
  tx (LockForStop InTx id nowait) (Clean L d) Q.
Proof.
  intros HN HS. unfold LockForStop. destruct (id <=? 0); [apply tx_fail|]. simpl.
  apply tx_lock_instance; intros; [apply tx_fail|apply tx_ret; by apply HN|apply tx_ret; by apply HS].
Qed.

Lemma tx_DatabaseTime L d Q :
  (∀ now d', db_inv d' → db_evolves d d' → lock_respects L d d' → Q now (Clean L d')) →
  tx (DatabaseTime InTx) (Clean L d) Q.
Proof. intros HQ. apply tx_query. intros ev v now (d' & -> & ? & ? & ?) _. by apply HQ. Qed.
End rules.

#[export] Hint Resolve BindExecutor_safe SaveDispatchBusy_safe SaveDispatchRejection_safe SaveResult_safe
  SettleOrdinaryUnknown_safe : safe.

(** ** Operations without outputs *)

Definition silent {A} (m : M A) : Prop := ∀ w, w_out (m w).1 = w_out w.

Lemma silent_ret {A} (a : A) : silent (mret a). Proof. done. Qed.
Lemma silent_fail {A} e : silent (fail (A:=A) e). Proof. done. Qed.
Lemma silent_lift {A} (r : Result A) : silent (lift r). Proof. done. Qed.
Lemma silent_pop : silent pop. Proof. done. Qed.
Lemma silent_rpc {A} (f : nat → Result A) : silent (rpc f). Proof. done. Qed.
Lemma silent_bind {A B} (m : M A) (k : A → M B) : silent m → (∀ a, silent (k a)) → silent (mbind k m).
Proof.
  intros Hm Hk w. specialize (Hm w). unfold mbind, M_bind. destruct (m w) as [w1 [a|e]]; [|done].
  by rewrite Hk.
Qed.
Lemma silent_attempt {A} (m : M A) : silent m → silent (attempt m).
Proof. intros Hm w. specialize (Hm w). unfold attempt. by destruct (m w). Qed.
Lemma silent_ctx_err : silent ctx_err.
Proof. apply silent_bind; [done|]. intros ev. by destruct (ev_done ev). Qed.
Lemma silent_exec {A} h (f : Event → DB → DB * Result A) : silent (exec h f).
Proof.
  destruct h; intros w; unfold exec, stmt, twrite; simpl.
  - destruct (f _ _), (ev_fault _) as [[[]]|]; done.
  - destruct (ev_fault _) as [[]|]; [done|]. by destruct (f _ _).
Qed.
Lemma silent_read {A} held (f : Event → DB → Result A) : silent (tread held f).
Proof. intros w. unfold tread. destruct (ev_fault _) as [[]|]; [done|]. by destruct (f _ _). Qed.
Lemma silent_stmt {A} (f : Event → DB → DB * Result A) : silent (stmt f).
Proof. apply (silent_exec Auto). Qed.
Lemma silent_query {A} h (f : Event → DB → Result A) : silent (query h f).
Proof. destruct h; [apply silent_stmt|apply silent_read]. Qed.
Lemma silent_transact {A} (m : M A) : silent m → silent (transact m).
Proof.
  intros Hm w. unfold transact. simpl. destruct (ev_fault _) as [[]|]; [done|].
  match goal with |- context [m ?w0] => pose proof (Hm w0) as Hw; destruct (m w0) as [w1 [a|e]] end; simpl in *; [|done].
  by destruct (ev_fault _) as [[[]]|].
Qed.

Create HintDb silent.
#[export] Hint Resolve silent_ret silent_fail silent_lift silent_pop silent_rpc silent_attempt silent_ctx_err
  silent_exec silent_stmt silent_query silent_transact : silent.

Ltac silent_step :=
  lazymatch goal with
  | |- silent (mbind _ _) => apply silent_bind; [|intros ?]
  | |- silent (match ?x with _ => _ end) => destruct x
  | |- silent (if ?x then _ else _) => destruct x
  | |- silent (dispatch_write _) => unfold dispatch_write
  | |- silent _ => solve [eauto with silent]
  end.
Ltac silent_auto := repeat silent_step.

Lemma wp_silent {A} (m : M A) d o : safe m → silent m → wp m d o (λ _ _ o', o' = o).
Proof.
  intros Hm Hs w Hd Ho Hr HI. specialize (Hm d o w Hd Ho Hr HI). specialize (Hs w).
  destruct (m w) as [w' r]. simpl in *. destruct Hm as (?&?&?&?&_). split_and!; try done. congruence.
Qed.

Section silent.
Context `{UuidLib, PgLib}.
Lemma BindExecutor_silent h b : silent (BindExecutor h b).
Proof. unfold BindExecutor. silent_auto. Qed.
Lemma SaveDispatchBusy_silent h b : silent (SaveDispatchBusy h b).
Proof. unfold SaveDispatchBusy. silent_auto. Qed.
Lemma SaveDispatchRejection_silent h b : silent (SaveDispatchRejection h b).
Proof. unfold SaveDispatchRejection. silent_auto. Qed.
Lemma SettleOrdinaryUnknown_silent h b : silent (SettleOrdinaryUnknown h b).
Proof. unfold SettleOrdinaryUnknown. do 2 silent_step; try silent_auto. apply silent_transact. silent_auto. Qed.
End silent.
#[export] Hint Resolve BindExecutor_silent SaveDispatchBusy_silent SaveDispatchRejection_silent
  SettleOrdinaryUnknown_silent : silent.
