(* ===== verification/Registration.v ===== *)
(** * Correctness of registration and dispatch

    What a confirmed registration means, and that an attempt is sent at most once:
    no two sends, on any nodes, carry the same Task and attempt number. *)

From S2P Require Import Prelude GoLib Tx Model TaskRepo InstanceRepo JobRepo Dispatcher Logic.
From S2P Require Import Protocol Transitions RepoRules.

Open Scope Z_scope.

(** A usable ordinary snapshot. *)
Lemma decodeConfig_ordinary data c :
  decodeConfig data = Ok c → sharded c = false →
  Scan data = Some c ∧ SchemaVersion c = 1 ∧ Mode c = ExecutionModeNormal ∧ PostEnabled c = false ∧
  0 ≤ MaxRetries c ∧ 0 < RetryIntervalSeconds c ∧ 0 < TimeoutSeconds c.
Proof.
  unfold decodeConfig, sharded. destruct (Scan data) as [c'|]; [|done].
  destruct (negb (SchemaVersion c' =? 1)) eqn:E1; [done|].
  destruct (bool_decide (Mode c' = ExecutionModeSharded)) eqn:E2; [by intros [= ->]; rewrite E2|].
  match goal with |- (if ?b then _ else _) = _ → _ => destruct b eqn:E3 end; [done|].
  intros [= ->] _. to_prop. split_and!; done || lia.
Qed.

(** The attempt [a] was newly created between [d] and [d']. *)
Record registered (d : DB) (a : RegisteredAttempt) (d' : DB) : Prop := {
  rd_new : ∀ t, tasks d !! ra_TaskID a = Some t → t_attempt_no t < ra_AttemptNo a;
  rd_task : ∃ t, tasks d' !! ra_TaskID a = Some t ∧ t_instance_id t = ra_InstanceID a ∧
    t_attempt_no t = ra_AttemptNo a ∧ t_status t = TaskRunning ∧
    t_attempt_registered_at t = Some (ra_RegisteredAt a) ∧ t_executor_instance_id t = None ∧
    1 ≤ t_used_attempts t ≤ MaxRetries (ra_ExecutionConfig a) + 1;
  rd_parent : ∃ i, instances d' !! ra_InstanceID a = Some i ∧ i_status i = InstanceRunning ∧
    i_deadline_at i = Some (ra_DeadlineAt a) ∧ decodeConfig (i_execution_config i) = Ok (ra_ExecutionConfig a) ∧
    i_job_id i = ra_JobID a ∧ i_executor_group_id i = ra_ExecutorGroupID a;
  rd_before : ra_RegisteredAt a < ra_DeadlineAt a;
}.

(** The part later sessions cannot undo. *)
Lemma registered_persists d a d' d'' :
  registered d a d' → db_evolves d' d'' →
  ∃ t, tasks d'' !! ra_TaskID a = Some t ∧ ra_AttemptNo a ≤ t_attempt_no t.
Proof.
  intros [_ (t & Ht & _ & <- & _) _ _] He. destruct (dbe_tasks _ _ He _ _ Ht) as (t' & Ht' & [_ ? _ _]). eauto.
Qed.

(** A later registration is of another attempt. *)
Lemma registered_once d0 a d1 d2 a' d3 :
  registered d0 a d1 → db_evolves d1 d2 → registered d2 a' d3 →
  (ra_TaskID a', ra_AttemptNo a') ≠ (ra_TaskID a, ra_AttemptNo a).
Proof.
  intros Ha He [Hn _ _ _] E. injection E as Et En.
  destruct (registered_persists _ _ _ _ Ha He) as (t & Ht & Hle). rewrite <-Et in Ht. apply Hn in Ht. lia.
Qed.

Section registration.
Context `{UuidLib, PgLib}.

Lemma singleton_conflict_false d id tid t :
  singleton_conflict d id TaskTypeOrdinary = false → tasks d !! tid = Some t → task_wf t → t_instance_id t ≠ id.
Proof.
  unfold singleton_conflict. intros Hn Ht [Hty _ _ _ _] E.
  enough (existsb (λ r : Z * JobTask, (t_instance_id r.2 =? id) && bool_decide (t_task_type r.2 = TaskTypeOrdinary))
    (rows (tasks d)) = true) by congruence.
  apply existsb_exists. exists (tid, t). split; [by apply list_elem_of_In, elem_of_rows|]. simpl.
  by rewrite E, Hty, Z.eqb_refl.
Qed.

(** What a registering transaction leaves: a disciplined commit, and a new attempt
    when it answers one. *)
Definition registers (r : option RegisteredAttempt) (v : View) : Prop :=
  guarantee (held_rows v) (committed v) (current v) ∧ ∀ a, r = Some a → registered (committed v) a (current v).

Lemma registers_nothing L d : registers None (Clean L d).
Proof. split; [apply guarantee_refl|done]. Qed.

Lemma tx_start_body id d : tx (start_body id) (Clean [] d) registers.
Proof.
  unfold start_body. apply tx_bind, tx_LockForExecution; [intros; apply tx_ret, registers_nothing|].
  intros d1 i Hi HI1 _. simpl.
  guard as E1; [apply tx_ret, registers_nothing|]. guard as E2; [apply tx_fail|]. apply tx_bind, tx_lift. intros c Hc.
  guard as E3; [apply tx_ret, registers_nothing|]. guard as E4; [apply tx_fail|].
  apply tx_bind, tx_DatabaseTime. intros now d2 HI2 _ Hr2. apply (held_instance _ id) in Hr2; [|by left].
  guard as E5; [apply tx_fail|]. apply tx_bind, tx_exec. intros ev v changed (d3 & -> & HI3 & _ & Hr3).
  apply (held_instance _ id) in Hr3; [|by left]. rewrite Hr2, Hi in Hr3. clear d1 d2 HI1 HI2 Hr2 Hi. rename Hr3 into Hi.
  unfold is_zero in E5. to_prop. simpl. unfold update_instance. rewrite Hi.
  destruct (start_guard i) eqn:Hg; simpl; intros [= <-]; [|apply tx_fail].
  apply tx_bind. unfold InsertOrdinary. guard as E6; [apply tx_fail|]. apply tx_exec. intros ev' v tid ->. simpl.
  destruct (singleton_conflict _ _ _) eqn:E7; simpl; [done|]. intros [= <-].
  destruct (decodeConfig_ordinary _ _ Hc E3) as (Hsc & Hsv & Hm & Hp & Hr & _ & Ht).
  destruct (started_step d3 id i c now) as [HI' He']; [done..|].
  pose proof (inv_next _ HI3) as Hnext.
  guard as E8; [apply tx_fail|]. apply tx_ret. split; simpl.
  { apply guarantee_intro; [done|]. apply (disciplined_started [InstanceRow id]); [done|by left]. }
  intros a [= <-]. split; simpl.
  - intros t Htt. apply (inv_task_id _ HI3) in Htt. lia.
  - eexists. rewrite lookup_insert_eq. split_and!; try done. simpl. lia.
  - eexists. rewrite lookup_insert_eq. by split_and!.
  - unfold Second. lia.
Qed.

Lemma StartOrdinary_wp id d o :
  wp (StartOrdinary id) d o (λ r d' o', o' = o ∧
    ∀ a, r = Ok (Some a) → ∃ d0, db_evolves d d0 ∧ registered d0 a d').
Proof.
  unfold StartOrdinary. guard as E; [by apply wp_fail|]. apply wp_bind, wp_ctx_err; [|done].
  apply wp_transact; [done|]. intros d1 HI He.
  eapply tx_mono; [apply tx_start_body|]. intros r v _ He2 [Hg Hr]. split; [done|]. split; [done|].
  intros a [= ->]. exists (committed v). split; [by etrans|]. by apply Hr.
Qed.

Lemma tx_retry_body c d : tx (retry_body c) (Clean [] d) (λ r, registers r.1).
Proof.
  unfold retry_body. apply tx_bind, tx_LockForExecution; [intros; apply tx_ret, registers_nothing|].
  intros d1 i Hi HI1 _. simpl.
  guard as E1; [apply tx_fail|]. guard as E2; [apply tx_ret, registers_nothing|].
  apply tx_bind, tx_DatabaseTime. intros now d2 HI2 _ Hr2. apply (held_instance _ (rc_InstanceID c)) in Hr2; [|by left].
  guard as E3; [|apply tx_fail]. guard as E4; [apply tx_ret, registers_nothing|]. apply tx_bind, tx_lift. intros cfg Hc.
  guard as E5; [apply tx_ret, registers_nothing|]. apply tx_bind. unfold RegisterOrdinaryRetry.
  guard as E6; [apply tx_fail|]. simpl. apply tx_bind, tx_exec. intros ev v row (d3 & -> & HI3 & _ & Hr3).
  apply (held_instance _ (rc_InstanceID c)) in Hr3; [|by left]. rewrite Hr2, Hi in Hr3.
  clear d1 d2 HI1 HI2 Hr2 Hi. rename Hr3 into Hi. simpl.
  assert (∀ L, registers None (Dirty L d3 d3)) as Hnone by (split; [apply guarantee_refl|done]).
  destruct (tasks d3 !! rc_TaskID c) as [t|] eqn:Ht; simpl.
  2:{ intros [= <-]. apply tx_ret. by apply tx_ret. }
  destruct (register_guard _ t) eqn:Hg; simpl.
  2:{ intros [= <-]. apply tx_ret. by apply tx_ret. }
  destruct (in_int64 _ && _); simpl; [|done]. intros [= <-]. simpl. apply tx_ret.
  guard as E8; [apply tx_fail|]. apply tx_ret. to_prop.
  destruct (decodeConfig_ordinary _ _ Hc E5) as (Hsc & _ & Hm & _ & Hr & _ & _).
  destruct (inv_parent _ HI3 _ _ Ht) as (i' & Hi' & Hco).
  pose proof Hg as Hg'. unfold register_guard in Hg'. to_prop. simpl in *.
  assert (i' = i) as -> by congruence.
  destruct (register_step (retry_write c cfg now) t i cfg) as [Hw He Hco' Hau]; try done; [by eapply inv_task|].
  unfold valid_running in E3. simpl in E3.
  destruct (i_started_at i) as [s|] eqn:Es; [|done]. destruct (i_deadline_at i) as [dl|] eqn:Ed; [|done].
  match type of E3 with (if ?b then _ else _) = _ => destruct b; [done|] end. injection E3 as <-.
  split; [apply guarantee_intro; simpl|].
  { split; [eapply set_task_inv|eapply set_task_evolves]; try done; intros; by simplify_eq. }
  { eapply disciplined_set_task; [done..|]. right. rewrite H7. by left. }
  intros a [= <-]. unfold before in *. to_prop. split; simpl.
  - intros t0 Ht0. assert (t0 = t) as -> by congruence. lia.
  - eexists. rewrite lookup_insert_eq. split_and!; try done; simpl; lia.
  - exists i. by split_and!.
  - done.
Qed.

Lemma RetryOrdinary_wp r c d o :
  wp (RetryOrdinary r c) d o (λ res d' o', (o' = o ∨ o' = o ++ [Hinted (rc_InstanceID c)]) ∧
    ∀ a, res = Ok (Some a) → ∃ d0, db_evolves d d0 ∧ registered d0 a d').
Proof.
  assert (∀ e d' o', o' = o → (o' = o ∨ o' = o ++ [Hinted (rc_InstanceID c)]) ∧
    ∀ a, Fail e = Ok (Some a) → ∃ d0, db_evolves d d0 ∧ registered d0 a d') as HF by (intros; split; [by left|done]).
  unfold RetryOrdinary. guard as E; [by apply wp_fail, HF|].
  apply wp_bind, wp_ctx_err; [|by apply HF]. apply wp_bind, wp_transact; [intros; by apply HF|]. intros d1 HI He.
  eapply tx_mono; [apply tx_retry_body|]. intros [res b] v _ He2 [Hg Hr]. split; [done|]. apply wp_bind. simpl in *.
  assert (db_evolves d (committed v)) by (by etrans).
  guard as E2; [apply wp_emit|apply wp_ret]; apply wp_ret; (split; [by auto|]);
    intros a [= ->]; eauto.
Qed.
End registration.

(** ** Dispatch *)

(** The sends among the outputs. *)
Definition sends (o : list Output) : list (Z * Z * Z) :=
  omap (λ x, match x with Sent t i n => Some (t, i, n) | _ => None end) o.

Definition send_of (a : RegisteredAttempt) : Z * Z * Z := (ra_TaskID a, ra_InstanceID a, ra_AttemptNo a).

Section dispatch.
Context `{UuidLib, PgLib, Sender}.

Lemma save_loop_safe n e write : safe write → safe (save_loop n e write).
Proof.
  intros Hw. revert e. induction n as [|n IH]; intros e; simpl; [eauto with safe|]. safe_auto; eauto with safe.
Qed.

Lemma save_loop_silent n e write : silent write → silent (save_loop n e write).
Proof.
  intros Hw. revert e. induction n as [|n IH]; intros e; simpl; [eauto with silent|]. silent_auto; eauto with silent.
Qed.

(** The write chosen for a response keeps the protocol and sends nothing. *)
Lemma response_write_wp dp a r d o :
  wp (response_write dp a r) d o (λ res _ o', o' = o ∧ ∀ write, res = Ok (Some write) → safe write ∧ silent write).
Proof.
  unfold response_write. destruct (rs_Outcome r); try (apply wp_ret; split; [done|]; intros ? [=]; subst);
    [eauto with safe silent|..|eauto with safe silent].
  unfold busy_delay, Int64N. repeat wp_step. split; [done|]. intros ? [=]. subst. eauto with safe silent.
Qed.

(** What a dispatch may have done between [d] and [d']: no send, or one send of
    an attempt that one of its transactions registered. *)
Definition dispatched (d : DB) (o : list Output) (d' : DB) (o' : list Output) : Prop :=
  sends o' = sends o ∨
  ∃ a d0 d1, sends o' = sends o ++ [send_of a] ∧ db_evolves d d0 ∧ registered d0 a d1 ∧ db_evolves d1 d'.

Lemma dispatch_wp dp register d o :
  wp register d o (λ r d' o', sends o' = sends o ∧
    ∀ a, r = Ok (Some a) → ∃ d0, db_evolves d d0 ∧ registered d0 a d') →
  wp (dispatch dp register) d o (λ _ d' o', dispatched d o d' o').
Proof.
  intros Hreg. unfold dispatch. repeat wp_step; [|by left].
  eapply wp_mono; [exact Hreg|]. intros r d1 o1 HI1 He1 [Ho1 Hr].
  destruct r as [[a|]|e]; [|by apply wp_ret; left..].
  destruct (Hr a eq_refl) as (d0 & He0 & Hreg0).
  repeat wp_step; [|by left].
  assert (sends (o1 ++ [Sent (ra_TaskID a) (ra_InstanceID a) (ra_AttemptNo a)]) = sends o ++ [send_of a]) as Hsent.
  { unfold sends in *. by rewrite omap_app, Ho1. }
  unfold Dispatch. apply wp_bind, wp_emit, wp_rpc. intros n.
  assert (∀ d' o', sends o' = sends o ++ [send_of a] → db_evolves d1 d' → dispatched d o d' o') as Hdone.
  { intros d' o' Hs' He'. right. by exists a, d0, d1. }
  destruct (send_result a n) as [resp|e]; [|by apply wp_ret, Hdone].
  apply wp_bind. eapply wp_mono; [apply response_write_wp|]. intros res d2 o2 HI2 He2 [-> Hw].
  destruct res as [[write|]|e]; [|guard as E; by apply wp_ret, Hdone|by apply Hdone].
  destruct (Hw write eq_refl) as [Hsafe Hsil]. apply wp_bind, wp_attempt.
  eapply wp_mono;
    [exact (wp_silent _ _ _ (save_loop_safe _ _ _ Hsafe) (save_loop_silent _ _ _ Hsil))|].
  intros [applied|e] d3 o3 HI3 He3 ->; [|apply wp_ret, Hdone; [done|by etrans]].
  apply wp_bind. guard as E; [apply wp_emit|apply wp_ret]; apply wp_ret, Hdone; try (by etrans).
  unfold sends. rewrite omap_app. simpl. rewrite app_nil_r. exact Hsent.
Qed.

Lemma DispatchOrdinary_wp dp id d o :
  wp (DispatchOrdinary dp id) d o (λ _ d' o', dispatched d o d' o').
Proof.
  unfold DispatchOrdinary. guard as E; [by apply wp_ret; left|]. apply dispatch_wp.
  eapply wp_mono; [apply StartOrdinary_wp|]. by intros r d' o' _ _ [-> Hr].
Qed.

Lemma DispatchRetry_wp dp c d o :
  wp (DispatchRetry dp c) d o (λ _ d' o', dispatched d o d' o').
Proof.
  unfold DispatchRetry. guard as E; [by apply wp_ret; left|]. apply dispatch_wp.
  eapply wp_mono; [apply RetryOrdinary_wp|]. intros r d' o' _ _ [[-> | ->] Hr]; split; try done.
  unfold sends. rewrite omap_app. simpl. apply app_nil_r.
Qed.
End dispatch.
