(* ===== verification/Stopping.v ===== *)
(** * Correctness of stopping

    A stop decision is recorded once, under the parent lock, and cancellation
    batches bring a stopping Instance to its final state.  The second part is the completion
    check of an Instance. *)

From S2P Require Import Prelude GoLib Tx Model TaskRepo InstanceRepo StopController Logic Protocol.
From S2P Require Import Transitions RepoRules.
From S2P Require Import ResultSaver Settler.
From S2P Require Import Checker.

Open Scope Z_scope.

Section stopping.
Context `{UuidLib, PgLib}.

Lemma tx_sqlCall {A} (m : M A) v Q : tx m v Q → tx (sqlCall m) v Q.
Proof.
  intros Hm. unfold sqlCall. apply tx_bind, tx_ctx_err, tx_bind. eapply tx_mono; [done|].
  intros a v' _ _ Ha. apply tx_bind, tx_ctx_err. by apply tx_ret.
Qed.

(** The statement rules of the two parent transitions, under the parent lock. *)
Lemma tx_RecordStop id i reason summary now L d Q :
  instances d !! id = Some i → InstanceRow id ∈ L →
  (∀ d', db_inv d' → instances d' !! id = Some i → stop_reason reason →
   (i_status i = InstanceWaiting ∨ i_status i = InstanceRunning) →
   (reason = EndReasonInstanceTimeout → i_status i = InstanceRunning) →
   Q true (Dirty L d' (set_instance id (record_stop_row reason summary now i) d'))) →
  (∀ d', Q false (Dirty L d' d')) → tx (RecordStop InTx id (i_status i) reason summary now) (Clean L d) Q.
Proof.
  intros Hi Hin Ht Hf. unfold RecordStop. guard as E; [apply tx_fail|]. simpl.
  apply tx_exec. intros ev v changed (d' & -> & HI' & _ & Hr). apply (held_instance _ id) in Hr; [|done].
  rewrite Hi in Hr. simpl. destruct (pg_text summary); simpl; [|done]. unfold update_instance. rewrite Hr.
  match goal with |- context [if ?b then _ else _] => destruct b eqn:Hg end; simpl; intros [= <-]; [|apply Hf].
  to_cases; try done; apply Ht; unfold stop_reason; auto; intros ->; congruence.
Qed.

Lemma tx_FinishStop id i reason L d Q :
  instances d !! id = Some i → InstanceRow id ∈ L →
  (∀ d' now, db_inv d' → instances d' !! id = Some i → is_stopping i = true → i_end_reason i = Some reason →
     has_unfinished d' id = false → Q true (Dirty L d' (set_instance id (finish_stop_row reason now i) d'))) →
  (∀ d', Q false (Dirty L d' d')) → tx (FinishStop InTx id reason) (Clean L d) Q.
Proof.
  intros Hi Hin Ht Hf. unfold FinishStop. guard as E; [apply tx_fail|]. simpl.
  apply tx_exec. intros ev v changed (d' & -> & HI' & _ & Hr). apply (held_instance _ id) in Hr; [|done].
  rewrite Hi in Hr. simpl. unfold update_instance. rewrite Hr.
  match goal with |- context [if ?b then _ else _] => destruct b eqn:Hg end; simpl; intros [= <-]; [|apply Hf].
  to_prop. by apply Ht.
Qed.

Lemma tx_ListUnfinishedIDs id limit L d Q :
  (∀ ids d', lock_respects L d d' → Q ids (Clean L d')) → tx (ListUnfinishedIDs InTx id limit) (Clean L d) Q.
Proof.
  intros HQ. unfold ListUnfinishedIDs. guard as E; [apply tx_fail|]. simpl. apply tx_query.
  intros ev v a (d' & -> & _ & _ & Hr) _. by apply HQ.
Qed.

Lemma tx_CancelUnfinished write L d Q :
  (∀ d', db_inv d' → lock_respects L d d' → stop_reason (tc_Reason write) →
   Q (cancel_rows write (tc_TaskIDs write) d').2 (Dirty L d' (cancel_rows write (tc_TaskIDs write) d').1)) →
  tx (CancelUnfinished InTx write) (Clean L d) Q.
Proof.
  intros HQ. unfold CancelUnfinished. guard as E; [apply tx_fail|]. guard as E2; [apply tx_fail|]. simpl.
  apply tx_exec. intros ev v n (d' & -> & HI' & _ & Hr). simpl.
  destruct (pg_text (tc_Summary write)); simpl; [|done].
  specialize (HQ d' HI' Hr). destruct (cancel_rows _ _ _) as [d2 k]. simpl. intros [= <-].
  apply HQ. unfold stop_reason. to_cases; auto.
Qed.

(** What a stop request did: nothing, or the first stop decision of the round. *)
Definition stop_decided (id : Z) (timeout : bool) (d : DB) (dec : Decision) (d' : DB) : Prop :=
  if de_New dec then
    ∃ i now, instances d !! id = Some i ∧
      (i_status i = InstanceRunning ∨ (i_status i = InstanceWaiting ∧ timeout = false)) ∧
      (timeout = true → ∃ dl, i_deadline_at i = Some dl ∧ dl ≤ now) ∧
      d' = set_instance id (record_stop_row (if timeout then EndReasonInstanceTimeout else EndReasonManualStop)
                              (if timeout then timeoutSummary else manualStopSummary) now i) d ∧
      dec = {| de_InstanceID := id; de_ExecutorGroupID := i_executor_group_id i; de_Status := InstanceStopping;
               de_EndReason := Some (if timeout then EndReasonInstanceTimeout else EndReasonManualStop);
               de_New := true |}
  else d' = d ∧ ∃ i, instances d !! id = Some i ∧ dec = observedDecision (stopping_instance id i).

Lemma tx_decide_stop id i timeout now L d :
  instances d !! id = Some i → InstanceRow id ∈ L → stop_eligible (i_status i) timeout = Some true →
  validActiveTimes (stopping_instance id i) = true →
  tx (decide_stop (stopping_instance id i) timeout now) (Clean L d)
    (λ dec v, stop_decided id timeout (committed v) dec (current v)).
Proof.
  intros Hi Hin Hel Hv. unfold decide_stop. simpl. guard as E1.
  { apply tx_ret. split; [done|]. eauto. }
  apply tx_bind, tx_sqlCall, tx_RecordStop; [done|done| |intros; apply tx_fail].
  intros d' _ Hi' Hr Hs Hto. apply tx_ret. exists i, now. split_and!; [done| | |done|done].
  - destruct (i_status i) eqn:Es; simpl in Hel; destruct timeout; simplify_eq; auto; destruct Hs; congruence.
  - intros ->. unfold validActiveTimes in Hv. simpl in Hv. rewrite (Hto eq_refl) in Hv.
    destruct (bool_decide (i_finished_at i = None)); [|done]. simpl in Hv.
    destruct (i_started_at i); [|done]. destruct (i_deadline_at i) as [dl|]; [|done].
    exists dl. split; [done|]. unfold before in E1. simpl in E1. to_prop. lia.
Qed.

Lemma tx_stop_body id timeout d :
  tx (stop_body id timeout) (Clean [] d) (λ dec v, stop_decided id timeout (committed v) dec (current v)).
Proof.
  unfold stop_body. apply tx_bind, tx_sqlCall, tx_LockForStop; [intros; apply tx_fail|].
  intros d1 i Hi _ _. simpl. rewrite Z.eqb_refl. simpl.
  guard as E1; [|apply tx_fail]. destruct b.
  - apply tx_bind, tx_sqlCall, tx_DatabaseTime. intros now d2 _ _ Hr. guard as E2; [apply tx_fail|].
    guard as E3; [apply tx_fail|]. apply negb_false_iff in E3. apply (held_instance _ id) in Hr; [|by left].
    apply tx_decide_stop; [congruence|by left|done|done].
  - apply tx_ret. split; [done|]. eauto.
Qed.

Lemma stop_decided_step id timeout d dec d' :
  stop_decided id timeout d dec d' → ∀ L, guarantee L d d'.
Proof.
  unfold stop_decided. destruct (de_New dec); [|intros [-> _] L; apply guarantee_refl].
  intros (i & now & Hi & Hs & Ht & -> & _) L. apply guarantee_intro; [|by eapply disciplined_set_instance]. intros HI.
  destruct (record_stop_step d id i (if timeout then EndReasonInstanceTimeout else EndReasonManualStop)
    (if timeout then timeoutSummary else manualStopSummary) now) as [Hw He Hc Hr].
  - by eapply inv_inst.
  - destruct timeout; [by right|by left].
  - destruct Hs as [->|[-> _]]; auto.
  - destruct timeout; [|done]. by destruct Hs as [|[_ ?]].
  - split; [|by eapply set_instance_evolves]. by eapply set_instance_inv.
Qed.

Lemma requestStop_wp id timeout d o :
  wp (requestStop id timeout) d o (λ r d' o', o' = o ∧
    ∀ dec, r = Ok dec → ∃ d1, db_inv d1 ∧ db_evolves d d1 ∧ stop_decided id timeout d1 dec d').
Proof.
  unfold requestStop. guard as E; [by apply wp_fail|]. apply wp_bind, wp_ctx_err; [|done].
  apply wp_transact; [done|]. intros d1 HI He. eapply tx_mono; [apply tx_stop_body|]. intros dec v HI2 He2 Hdec.
  split; [exact (stop_decided_step _ _ _ _ _ Hdec _)|]. split; [done|]. intros ? [= <-].
  exists (committed v). split_and!; [done|by etrans|done].
Qed.

(** ** Cancellation batches *)

Lemma stopOutcome_reason r target summary :
  stopOutcome (Some r) = Some (target, summary) → stop_reason r ∧ target = stop_target r.
Proof.
  unfold stopOutcome, stop_target, stop_reason. intros E.
  destruct (decide (r = EndReasonManualStop)) as [->|H1]; [simpl in E; simplify_eq; by auto|].
  destruct (decide (r = EndReasonInstanceTimeout)) as [->|H2]; [simpl in E; simplify_eq; by auto|].
  by rewrite !bool_decide_eq_false_2 in E.
Qed.

(** The effect of one committed batch. *)
Definition batch_effect (id : Z) (d : DB) (b : StopBatch) (d' : DB) : Prop :=
  (d' = d ∧ sb_More b = false ∧ sb_Completed b = false) ∨
  (∃ i reason now, instances d !! id = Some i ∧ i_end_reason i = Some reason ∧ is_stopping i = true ∧
     has_unfinished d id = false ∧ d' = set_instance id (finish_stop_row reason now i) d ∧
     b = stop_batch id (stop_target reason) 0 false true) ∨
  (∃ i reason now summary ids, instances d !! id = Some i ∧ i_end_reason i = Some reason ∧
     is_stopping i = true ∧ stop_reason reason ∧
     (d', sb_Canceled b) = cancel_rows (cancellation id ids reason summary now) ids d ∧
     sb_More b = true ∧ sb_Completed b = false ∧ sb_Status b = InstanceStopping).

Lemma tx_converge c id i reason target summary L d :
  instances d !! id = Some i → InstanceRow id ∈ L → is_stopping i = true → i_end_reason i = Some reason →
  stopOutcome (Some reason) = Some (target, summary) →
  tx (converge c id reason target summary) (Clean L d) (λ b v, batch_effect id (committed v) b (current v)).
Proof.
  intros Hi Hin Hs Hr Ho. destruct (stopOutcome_reason _ _ _ Ho) as [Hst ->]. unfold converge.
  apply tx_bind, tx_sqlCall, tx_ListUnfinishedIDs. intros ids d1 Hr1. apply (held_instance _ id) in Hr1; [|done].
  guard as E1; [apply tx_fail|]. guard as E2.
  - apply tx_bind, tx_sqlCall, (tx_FinishStop _ i); [congruence|done| |].
    + intros d2 now _ Hi2 _ _ Hn. apply tx_ret. right. left. exists i, reason, now. by split_and!.
    + intros d2. apply tx_ret. by left.
  - apply tx_bind, tx_sqlCall, tx_DatabaseTime. intros now d2 _ _ Hr2. apply (held_instance _ id) in Hr2; [|done].
    guard as E3; [apply tx_fail|].
    apply tx_bind, tx_sqlCall, tx_CancelUnfinished. intros d3 _ Hr3 _. apply (held_instance _ id) in Hr3; [|done].
    guard as E4; [apply tx_fail|]. apply tx_ret. right. right. simpl. eexists i, reason, now, summary, _.
    split_and!; try done; [congruence|]. simpl. by rewrite <-surjective_pairing.
Qed.

Lemma tx_batch_body c id d :
  tx (batch_body c id) (Clean [] d) (λ b v, batch_effect id (committed v) b (current v)).
Proof.
  unfold batch_body. apply tx_bind, tx_sqlCall, tx_LockForStop; [intros; apply tx_ret; by left|].
  intros d1 i Hi _ _. simpl. rewrite Z.eqb_refl. simpl.
  guard as E1; try (by apply tx_ret; left); [|apply tx_fail].
  guard as E2; [|apply tx_fail]. destruct p as [target summary].
  destruct (i_end_reason i) as [reason|] eqn:Er; [|apply tx_fail]. guard as E3; [|apply tx_fail].
  apply (tx_converge _ _ i); try done; [by left|]. unfold is_stopping. by rewrite bool_decide_eq_true_2.
Qed.

Lemma batch_effect_step id d b d' : batch_effect id d b d' → ∀ L, guarantee L d d'.
Proof.
  intros [[-> _]|[(i & r & now & Hi & Hr & Hs & Hn & -> & _)|
                  (i & r & now & sm & ids & Hi & Hr & Hs & Hst & Hc & _)]] L; [apply guarantee_refl|..].
  - apply guarantee_intro; [|by eapply disciplined_set_instance]. intros HI.
    destruct (finish_stop_step d id i r now) as [Hw He Hco Hru]; try done; [by eapply inv_inst|].
    split; [|by eapply set_instance_evolves]. by eapply set_instance_inv.
  - unfold is_stopping in Hs. to_prop.
    pose proof (disciplined_cancel_rows L (cancellation id ids r sm now) ids d) as Hd.
    pose proof (cancel_rows_step (cancellation id ids r sm now) ids d i) as Hstep.
    rewrite <-Hc in Hd, Hstep. apply guarantee_intro; [|done]. intros HI. by apply Hstep.
Qed.

Lemma ProcessBatch_wp c id d o :
  wp (ProcessBatch c id) d o (λ r d' o', o' = o ∧
    ∀ b, r = Ok b → ∃ d1, db_inv d1 ∧ db_evolves d d1 ∧ batch_effect id d1 b d').
Proof.
  unfold ProcessBatch. guard as E; [by apply wp_fail|]. apply wp_bind, wp_ctx_err; [|done].
  apply wp_transact; [done|]. intros d1 HI He. eapply tx_mono; [apply tx_batch_body|]. intros b v HI2 He2 Hb.
  split; [exact (batch_effect_step _ _ _ _ Hb _)|]. split; [done|]. intros ? [= <-].
  exists (committed v). split_and!; [done|by etrans|done].
Qed.
End stopping.

(** * Correctness of results, settlement and completion

    Saving a report, settling an unknown result and completing an Instance keep the
    protocol under interference, and a check reports a terminal Instance only when
    it is one. *)

Section completion.
Context `{UuidLib, PgLib}.

(** ** Saving and settling *)

Lemma Save_safe s report : safe (Save s report).
Proof.
  unfold Save, save_target, save_write, save_failure, finished, discardResult, FindResultTarget, CheckResultData.
  safe_auto.
Qed.

Lemma settle_one_safe s c w r : safe (settle_one s c w r).
Proof. unfold settle_one, hintInstance. safe_auto. Qed.

Lemma prepare_safe s c t now : safe (prepare s c t now).
Proof. unfold prepare, prepare_parent, hintInstance. safe_auto. Qed.

Lemma settle_loop_safe s m now cs r : safe (settle_loop s m now cs r).
Proof.
  revert r. induction cs as [|c cs IH]; intros r; simpl; [eauto with safe|].
  pose proof prepare_safe. pose proof settle_one_safe. safe_auto; eauto with safe.
Qed.

Lemma settle_reads_safe cs : safe (settle_reads cs).
Proof. unfold settle_reads, operation, DatabaseTime, FindUnboundTargets. safe_auto. Qed.

Lemma SettleBatch_safe s candidates : safe (SettleBatch s candidates).
Proof. unfold SettleBatch. pose proof settle_reads_safe. pose proof settle_loop_safe. safe_auto. Qed.

(** ** Completion *)

Lemma ordinary_task_lookup d id tid t :
  ordinary_task d id = Some (tid, t) → tasks d !! tid = Some t ∧ t_instance_id t = id.
Proof.
  unfold ordinary_task. intros E. apply head_Some_elem_of, list_elem_of_filter in E as [[? _] E].
  apply elem_of_rows in E. done.
Qed.

(** A read of completion facts describes one database state. *)
Record completion_facts (d : DB) (id : Z) (f : InstanceCompletion) : Prop := {
  cf_id : ic_ID f = id;
  cf_instance : ∃ i, instances d !! id = Some i ∧ ic_Status f = i_status i ∧ ic_DeadlineAt f = i_deadline_at i;
  cf_final : ∀ s target, ic_TaskStatus f = Some s →
    (s = TaskSucceeded ∧ target = InstanceSucceeded) ∨ (s = TaskFailed ∧ target = InstanceFailed) →
    final_task d id target (ic_ResultSummary f);
}.

Lemma FindCompletion_wp id d o :
  wp (FindCompletion Auto id) d o (λ r d' o', o' = o ∧ ∀ f, r = Ok (Some f) → completion_facts d' id f).
Proof.
  unfold FindCompletion. guard as E; [by apply wp_fail|]. apply wp_query. intros ev d1 HI He. split; [|done].
  split; [done|]. intros f Hf. injection Hf as Hf.
  destruct (instances d1 !! id) as [i|] eqn:Hi; simpl in Hf; [|done]. injection Hf as <-.
  split; simpl; [done|by eauto|]. intros s target Hs Ht.
  destruct (ordinary_task d1 id) as [[tid t]|] eqn:Ho; simpl in *; [|done]. injection Hs as <-.
  apply ordinary_task_lookup in Ho as [Htt Hid]. exists tid, t. split_and!; try done.
  destruct Ht as [[-> ->]|[-> ->]]; auto.
Qed.

Lemma terminal_persists d d' id i :
  db_evolves d d' → instances d !! id = Some i → terminal_status (i_status i) = true →
  instances d' !! id = Some i.
Proof.
  intros He Hi Ht. destruct (dbe_instances _ _ He _ _ Hi) as (i' & Hi' & [_ _ _ _ _ Hte]).
  by rewrite (Hte Ht) in Hi'.
Qed.

(** What a check may claim and hand over. *)
Record checked (id : Z) (d : DB) (o : list Output) (r : Result CheckOutcome) (d' : DB) (o' : list Output) : Prop := {
  ch_terminal : r = Ok OutcomeTerminal → ∃ i, instances d' !! id = Some i ∧ terminal_status (i_status i) = true;
  ch_outputs : o' = o ∨ o' = o ++ [StopResumed id] ∨
    ∃ dec d1, o' = o ++ [StopPublished id (de_ExecutorGroupID dec)] ∧ de_New dec = true ∧
      db_inv d1 ∧ db_evolves d d1 ∧ stop_decided id true d1 dec d';
}.

Lemma checked_same id d o r d' : r ≠ Ok OutcomeTerminal → checked id d o r d' o.
Proof. intros Hr. split; [done|by left]. Qed.

Lemma resumeStopping_wp c id d o :
  wp (resumeStopping c id) d o (λ r d' o', r = Ok tt ∧ d' = d ∧ (o' = o ∨ o' = o ++ [StopResumed id])).
Proof. unfold resumeStopping. guard as E; [apply wp_emit|apply wp_ret]; auto. Qed.

Lemma timeout_outcome_wp c id dec d0 d1 d o :
  db_inv d1 → db_evolves d0 d1 → stop_decided id true d1 dec d →
  wp (timeout_outcome c id dec) d o (checked id d0 o).
Proof.
  intros HI He Hd. unfold timeout_outcome. guard as E; [by apply wp_fail, checked_same|].
  assert (terminal_status (de_Status dec) = true →
    ∃ i, instances d !! id = Some i ∧ terminal_status (i_status i) = true) as Hterm.
  { intros Ht. unfold stop_decided in Hd. destruct (de_New dec).
    - destruct Hd as (i & now & _ & _ & _ & _ & ->). done.
    - destruct Hd as [-> (i & Hi & ->)]. eauto. }
  destruct (de_Status dec) eqn:Es;
    [by apply wp_ret, checked_same|by apply wp_ret, checked_same
    |apply wp_ret; split; [by auto|by left]..| |by apply wp_fail, checked_same].
  apply wp_bind. destruct (de_New dec) eqn:En.
  - apply wp_emit, wp_ret. split; [done|]. right. right. exists dec, d1. by split_and!.
  - eapply wp_mono; [apply resumeStopping_wp|]. intros ? ? o' _ _ (-> & -> & Ho). apply wp_ret.
    split; [done|]. destruct Ho; auto.
Qed.

Lemma notReady_wp c id f d0 d o :
  db_evolves d0 d → completion_facts d id f → wp (notReady c f) d o (checked id d0 o).
Proof.
  intros He Hf. unfold notReady. guard as E1; [by apply wp_ret, checked_same|].
  guard as E2; [|by apply wp_fail, checked_same]. guard as E3; [by apply wp_fail, checked_same|].
  apply wp_bind, wp_ctx_err; [|by apply checked_same]. apply wp_bind, wp_query. intros ev d1 HI1 He1.
  split; [|by intros; apply checked_same]. apply wp_bind, wp_ctx_err; [|by apply checked_same].
  guard as E4; [by apply wp_fail, checked_same|]. guard as E5; [by apply wp_ret, checked_same|].
  rewrite (cf_id _ _ _ Hf). apply wp_bind. eapply wp_mono; [apply requestStop_wp|].
  intros [dec|e] d2 o2 HI2 He2 [-> Hd]; [|by apply checked_same].
  destruct (Hd dec eq_refl) as (d3 & HI3 & He3 & Hdec).
  eapply timeout_outcome_wp; [exact HI3| |done]. etrans; [done|]. by etrans.
Qed.

Lemma complete_instance_wp id f target d0 d o :
  completion_facts d id f → final_task d id target (ic_ResultSummary f) →
  wp (complete_instance f target) d o (checked id d0 o).
Proof.
  intros Hf Hfin. unfold complete_instance. rewrite (cf_id _ _ _ Hf). apply wp_bind.
  eapply wp_mono; [by apply Complete_wp|]. intros [[]|e] d1 o1 HI1 He1 [-> Hc]; [|by apply wp_ret, checked_same|by apply checked_same].
  apply wp_ret. destruct (Hc eq_refl) as (i & now & Hi & Ht).
  split; [|by left]. intros _. eexists. split; [done|]. by destruct Ht as [->| ->].
Qed.

Lemma Check_wp c id d o : wp (Check c id) d o (checked id d o).
Proof.
  unfold Check. guard as E1; [by apply wp_fail, checked_same|].
  apply wp_bind, wp_ctx_err; [|by apply checked_same].
  apply wp_bind. eapply wp_mono; [apply FindCompletion_wp|].
  intros [[f|]|e] d1 o1 HI1 He1 [-> Hf]; [|by apply wp_ret, checked_same|by apply checked_same].
  specialize (Hf f eq_refl). pose proof Hf as [Hid (i & Hi & Hs & _) Hfin].
  guard as E2; [by apply wp_fail, checked_same|].
  guard as E3; try (by apply wp_ret, checked_same); try (by apply wp_fail, checked_same);
    try (apply wp_ret; split; [intros _; exists i; by rewrite <-Hs|by left]).
  - apply wp_bind, wp_lift. destruct (ordinary_config _) as [ord|e]; [|by apply checked_same].
    destruct ord; [|by apply wp_ret, checked_same].
    unfold check_task. guard as E4; [|by eapply notReady_wp]. guard as E5; [by apply wp_fail, checked_same|].
    guard as E6; [|by apply wp_fail, checked_same].
    destruct t; try (by eapply notReady_wp); try (by apply wp_fail, checked_same);
      (eapply complete_instance_wp; [done|]); eapply Hfin; eauto.
  - apply wp_bind. eapply wp_mono; [apply resumeStopping_wp|]. intros ? ? o' _ _ (-> & -> & Ho). apply wp_ret.
    split; [done|]. destruct Ho; auto.
Qed.
End completion.
