(* ===== verification/Triggering.v ===== *)
(** * Correctness of triggers and Job management

    The effect of a committed trigger, that both kinds keep the protocol, and that
    the management statements do too. *)

From S2P Require Import Prelude GoLib Tx Model InstanceRepo JobRepo Trigger Logic Protocol Transitions.
From S2P Require Import RepoRules.

Open Scope Z_scope.

#[local] Arguments Insert : simpl never.
#[local] Arguments HasActive : simpl never.
#[local] Arguments Advance : simpl never.

Section triggering.
Context `{PgLib, CronLib}.

(** ** Statement rules *)

(** The Job lock: the live row as it is when the lock is granted. *)
Lemma tx_attempt_LockJob id L d Q :
  (∀ e L' d', Q (Fail e) (Clean L' d')) →
  (∀ d' j, jobs d' !! id = Some j → live_job j = true → db_evolves d d' → Q (Ok (locked_job j)) (Clean (JobRow id :: L) d')) →
  tx (attempt (LockJob InTx id)) (Clean L d) Q.
Proof.
  intros HF HQ. apply tx_attempt_bind, tx_attempt_read; [|intros e v (d' & -> & _); apply HF].
  intros ev v (d' & -> & _ & He & _). simpl. destruct (jobs d' !! id) as [j|] eqn:Hj; simpl; [|apply tx_attempt_fail, HF].
  destruct (live_job j) eqn:Hl; [by apply tx_attempt_ret, HQ|apply tx_attempt_fail, HF].
Qed.

Lemma tx_LockJob id L d Q :
  (∀ d' j, jobs d' !! id = Some j → live_job j = true → db_evolves d d' → Q (locked_job j) (Clean (JobRow id :: L) d')) →
  tx (LockJob InTx id) (Clean L d) Q.
Proof.
  intros HQ. apply tx_bind, tx_read. intros ev v row (d' & -> & _ & He & _) [= <-]. simpl.
  destruct (jobs d' !! id) as [j|] eqn:Hj; simpl; [|apply tx_fail].
  destruct (live_job j) eqn:Hl; [by apply tx_ret, HQ|apply tx_fail].
Qed.

Lemma tx_HasActive id L d Q :
  (∀ d', db_evolves d d' → lock_respects L d d' →
     Q (exists_instance (λ i, (i_job_id i =? id) && active (i_status i)) d') (Clean L d')) →
  tx (HasActive InTx id) (Clean L d) Q.
Proof. intros HQ. apply tx_query. intros ev v a (d' & -> & _ & ? & ?) [= <-]. by apply HQ. Qed.

Lemma tx_availableGroup id L d Q :
  (∀ d' g, db_evolves d d' → lock_respects L d d' → groups d' !! id = Some g → live_group g = true → Q tt (Clean L d')) →
  tx (availableGroup id) (Clean L d) Q.
Proof.
  intros HQ. unfold availableGroup. apply tx_bind, tx_query. intros ev v a (d' & -> & _ & He & Hr) [= <-]. simpl.
  destruct (groups d' !! id) as [g|] eqn:Hg; [|apply tx_fail]. guard as E; [|apply tx_fail]. by eapply tx_ret, HQ.
Qed.

Lemma tx_FindManual id request v Q :
  (∀ v', finds v v' → Q (manual_identity <$> head (manual_rows (current v') id request)) v') →
  tx (FindManual InTx id request) v Q.
Proof. intros HQ. apply tx_query. intros ev v' a Hf [= <-]. by apply HQ. Qed.

(** An insertion: a fresh waiting row, or an identity that already exists. *)
Lemma tx_Insert i L d Q :
  (∀ d' now, let row := waiting_row i now in db_evolves d d' → lock_respects L d d' → trigger_identity row = true →
     exists_instance (same_schedule row) d' = false → exists_instance (same_request row) d' = false →
     Q (Some (next_instance d')) (Dirty L d' (inserted_db d' row))) →
  (∀ d' now, db_evolves d d' → lock_respects L d d' →
     exists_instance ((if bool_decide (i_trigger_type i = TriggerManual) then same_request else same_schedule)
            (waiting_row i now)) d' = true → Q None (Dirty L d' d')) →
  tx (Insert InTx i) (Clean L d) Q.
Proof.
  intros Hnew Hold. unfold Insert. apply tx_exec. intros ev v a (d' & -> & _ & He & Hr). simpl.
  repeat match goal with |- (if ?b then _ else _).2 = _ → _ => destruct b eqn:?; try done end; simpl.
  - intros [= <-]. by eapply Hold.
  - intros [= <-]. apply negb_false_iff in Heqb2.
    destruct (bool_decide _); by apply Hnew.
Qed.

Lemma tx_Advance id next v Q :
  (∀ v' j now, finds v v' → jobs (current v') !! id = Some j → live_job j = true → j_status j = RecordStatusEnabled →
     Q tt (written v' (set_job id { j with j_next_trigger_at := Some next; j_updated_at := now } (current v')))) →
  tx (Advance InTx id next) v Q.
Proof.
  intros HQ. unfold Advance, write_job, checkWrite. apply tx_bind. simpl. apply tx_exec. intros ev v' n Hf.
  unfold update_job. destruct (jobs (current v') !! id) as [j|] eqn:Hj; simpl.
  2:{ intros [= <-]. simpl. apply tx_query. intros ev' v2 a ->. simpl. by rewrite Hj. }
  destruct (has_status RecordStatusEnabled j && live_job j) eqn:E; simpl; intros [= <-]; simpl.
  - apply tx_ret. unfold has_status in E. to_prop. by apply HQ.
  - apply tx_query. intros ev' v2 a ->. simpl. rewrite Hj. by destruct (live_job j).
Qed.

(** Under the Job lock a Job without active Instances stays without. *)
Lemma no_active_stable id L d d' :
  db_evolves d d' → lock_respects L d d' → JobRow id ∈ L →
  exists_instance (λ i, (i_job_id i =? id) && active (i_status i)) d = false →
  exists_instance (λ i, (i_job_id i =? id) && active (i_status i)) d' = false.
Proof.
  intros He Hr Hin Hno. apply not_true_iff_false. intros (k & i' & Hi' & Ha)%exists_instance_true. to_prop.
  destruct (Hr _ Hin) as [_ Hnew]. destruct (Hnew k i') as (i & Hi & Hj); [done..|].
  pose proof (exists_instance_false _ _ _ _ Hno Hi) as Hn. simpl in Hn. rewrite Hj, Z.eqb_refl in Hn. simpl in Hn.
  destruct (dbe_instances _ _ He _ _ Hi) as (i2 & Hi2 & [_ _ _ Hs _ _]). assert (i2 = i') as -> by congruence.
  by destruct (i_status i), (i_status i').
Qed.

(** ** Manual triggers *)

Lemma waiting_row_wf i now :
  trigger_identity (waiting_row i now) = true → (∃ c, i_execution_config i = Value c) → inst_wf (waiting_row i now).
Proof. intros Ht Hc. split; simpl; try done. Qed.

Lemma inserted_row_step i now d :
  db_inv d → group_live d (i_executor_group_id i) → job_live d (i_job_id i) → trigger_identity (waiting_row i now) = true → (∃ c, i_execution_config i = Value c) →
  exists_instance (same_schedule (waiting_row i now)) d = false →
  exists_instance (same_request (waiting_row i now)) d = false →
  db_inv (inserted_db d (waiting_row i now)) ∧ db_evolves d (inserted_db d (waiting_row i now)).
Proof. intros. apply inserted_step; [done|by apply waiting_row_wf|done..]. Qed.

Lemma manual_rows_head d id request r :
  head (manual_rows d id request) = Some r →
  instances d !! r.1 = Some r.2 ∧ i_job_id r.2 = id ∧ i_request_id r.2 = Some request.
Proof.
  unfold manual_rows. intros E. apply head_Some_elem_of, list_elem_of_filter in E as [[? ?] E].
  destruct r. apply elem_of_rows in E. done.
Qed.

(** The replayed Instance answers the same request: same override, same text. *)
Definition same_manual (input : ManualTrigger) (i : JobInstance) : Prop :=
  i_job_id i = mt_JobID input ∧ i_request_id i = Some (mt_RequestID input) ∧
  i_params_overridden i = mt_ParamsOverridden input ∧
  (mt_ParamsOverridden input = true → params_text (i_execution_config i) = Some (mt_Params input)).

Definition manual_effect (input : ManualTrigger) (d : DB) (r : Z * bool) (d' : DB) : Prop :=
  if r.2 then
    ∃ j now, jobs d !! mt_JobID input = Some j ∧ live_job j = true ∧
      (∃ d0 g, db_evolves d0 d ∧ groups d0 !! j_executor_group_id j = Some g ∧ live_group g = true) ∧
      (j_block_policy j = BlockDiscard →
         exists_instance (λ i, (i_job_id i =? mt_JobID input) && active (i_status i)) d = false) ∧
      exists_instance (same_request (waiting_row (manual_instance (locked_job j) input) now)) d = false ∧
      trigger_identity (waiting_row (manual_instance (locked_job j) input) now) = true ∧
      r.1 = next_instance d ∧ d' = inserted_db d (waiting_row (manual_instance (locked_job j) input) now)
  else d' = d ∧ ∃ i, instances d !! r.1 = Some i ∧ same_manual input i.

Lemma replay_same d input r id :
  head (manual_rows d (mt_JobID input) (mt_RequestID input)) = Some r →
  replay (manual_identity r) input = Ok id → manual_effect input d (id, false) d.
Proof.
  intros Hr E. destruct (manual_rows_head _ _ _ _ Hr) as (Hi & Hj & Hq). unfold replay in E.
  match type of E with (if ?b then _ else _) = _ => destruct b eqn:Hb end; [done|]. injection E as <-. simpl in *.
  split; [done|]. exists r.2. split; [done|]. split_and!; [done|done|..].
  - to_prop. by apply eqb_prop.
  - intros Ho. to_prop. rewrite Ho in *. apply eqb_prop in H1. rewrite H1 in *. simpl in *. by to_prop.
Qed.

Lemma tx_manual_body input d :
  tx (manual_body input) (Clean [] d) (λ r v, manual_effect input (committed v) r (current v) ∧
    JobRow (mt_JobID input) ∈ held_rows v).
Proof.
  unfold manual_body. apply tx_bind, tx_LockJob. intros d1 j Hj Hl _. apply tx_bind, tx_FindManual.
  intros v (d2 & -> & _ & _ & Hr2). apply (held_job _ (mt_JobID input)) in Hr2; [|by left]. simpl.
  destruct (head (manual_rows _ _ _)) as [r|] eqn:Hr; cbn [fmap option_fmap option_map].
  { apply tx_bind, tx_lift. intros id Hid. apply tx_ret. split; [by eapply replay_same|by left]. }
  apply tx_bind, tx_availableGroup. intros d3 g _ Hr3 Hg Hgl. apply (held_job _ (mt_JobID input)) in Hr3; [|by left].
  apply tx_bind.
  assert (tx (if bool_decide (j_block_policy (locked_job j) = BlockDiscard) then HasActive InTx (mt_JobID input) else mret false)
    (Clean [JobRow (mt_JobID input)] d3) (λ b v, ∃ d4, v = Clean [JobRow (mt_JobID input)] d4 ∧ db_evolves d3 d4 ∧
       lock_respects [JobRow (mt_JobID input)] d3 d4 ∧ (j_block_policy j = BlockDiscard →
       exists_instance (λ i, (i_job_id i =? mt_JobID input) && active (i_status i)) d4 = b))) as Hblk.
  { simpl. case_bool_decide; [apply tx_HasActive; intros d4 ? ?; by exists d4|apply tx_ret; by exists d3]. }
  eapply tx_mono; [exact Hblk|]. intros blocked v _ _ (d4 & -> & He4 & Hr4 & Hb). destruct blocked; [apply tx_fail|].
  apply (held_job _ (mt_JobID input)) in Hr4; [|by left].
  apply tx_bind, tx_Insert; simpl.
  - intros d5 now He5 Hr5 Hid Hs Hq. apply tx_ret. split; [|by left]. simpl. exists j, now.
    pose proof (held_job _ (mt_JobID input) _ _ Hr5) as Hj5. rewrite Hj5, Hr4, Hr3, Hr2 by (by left).
    split_and!; try done.
    + exists d3, g. split_and!; [by etrans|done|done].
    + intros Hp. eapply no_active_stable; [done|done|by left|by apply Hb].
  - intros d5 now _ _ _. apply tx_bind, tx_FindManual. intros v ->. simpl.
    destruct (head (manual_rows d5 _ _)) as [r|] eqn:Hr'; simpl; [|apply tx_fail].
    apply tx_bind, tx_lift. intros id Hid. apply tx_ret. split; [by eapply replay_same|by left].
Qed.

(** The other unique index cannot conflict: a manual row has no schedule. *)
Lemma manual_no_schedule job input now d :
  exists_instance (same_schedule (waiting_row (manual_instance job input) now)) d = false.
Proof.
  unfold exists_instance. apply not_true_iff_false. intros E. apply existsb_exists in E as (r & _ & E).
  unfold same_schedule in E. simpl in E. by rewrite andb_false_r in E.
Qed.

Lemma automatic_no_request id job at_ now t d :
  exists_instance (same_request (waiting_row (automatic_instance id job at_ now) t)) d = false.
Proof.
  unfold exists_instance. apply not_true_iff_false. intros E. apply existsb_exists in E as (r & _ & E).
  unfold same_request in E. simpl in E. by rewrite andb_false_r in E.
Qed.

Lemma manual_effect_step input d r d' L :
  manual_effect input d r d' → JobRow (mt_JobID input) ∈ L → guarantee L d d'.
Proof.
  unfold manual_effect. destruct r as [id []]; simpl; [|intros [-> _] _; apply guarantee_refl].
  intros (j & now & Hj & Hl & _ & _ & Hq & Ht & _ & ->) Hin.
  apply guarantee_intro; [|apply disciplined_inserted; [done|by exists (mt_JobID input), j]].
  intros HI. apply inserted_row_step; [done|exact (inv_job_group _ HI _ _ Hj Hl)|by exists j|done|by eexists|apply manual_no_schedule|done].
Qed.

Definition normalized (input : ManualTrigger) : ManualTrigger := { input with mt_Params := TrimSpace (mt_Params input) }.

Lemma TriggerManualJob_wp s input d o :
  wp (TriggerManualJob s input) d o (λ r d' o',
    (∀ id, r = Ok id → ∃ d1 created, db_inv d1 ∧ db_evolves d d1 ∧ manual_effect (normalized input) d1 (id, created) d' ∧
       o' = if created && cr_hint s then o ++ [Hinted id] else o) ∧
    (∀ e, r = Fail e → o' = o)).
Proof.
  unfold TriggerManualJob. guard as E; [by apply wp_fail|]. apply wp_bind, wp_lift.
  destruct (normalizeParams (mt_Params input)) as [ps|e] eqn:Hn; [|done].
  unfold normalizeParams in Hn.
  match type of Hn with (if ?b then _ else _) = _ => destruct b; [done|] end. injection Hn as <-.
  change ({ input with mt_Params := TrimSpace (mt_Params input) }) with (normalized input).
  apply wp_bind. unfold acquire. apply wp_bind, wp_ctx_err; [|done]. apply wp_bind, wp_pop. intros ev.
  guard as E2; [by apply wp_fail|]. apply wp_ret, wp_bind, wp_transact; [done|]. intros d0 _ He0.
  eapply tx_mono; [apply tx_manual_body|]. intros [id created] v HI He [Heff Hin].
  split; [exact (manual_effect_step _ _ _ _ _ Heff Hin)|]. set (d1 := committed v) in *.
  assert (db_evolves d d1) by (by etrans). apply wp_bind. unfold hint. simpl.
  destruct (created && cr_hint s) eqn:Eh; [apply wp_emit|apply wp_ret]; apply wp_ret; (split; [|done]);
    intros ? [= <-]; exists d1, created; by rewrite Eh.
Qed.

(** ** Automatic triggers *)

(** The decision on a due occurrence of [j], before progress advances: [d] is the
    database when it was taken up, [b] the one it is committed over. *)
Definition due_effect (id : Z) (j : JobDefinition) (scheduledAt decisionAt : Time) (d b : DB)
    (r : AutomaticResult) (d' : DB) : Prop :=
  let ignored := misfired scheduledAt decisionAt && bool_decide (j_misfire_policy j = MisfireIgnore) in
  let busy := exists_instance (λ i, (i_job_id i =? id) && active (i_status i)) in
  (ignored = true ∧ d' = b ∧ r = skipped "misfire_ignored") ∨
  (ignored = false ∧ j_block_policy j = BlockDiscard ∧
     (∃ d0, db_evolves d d0 ∧ db_evolves d0 b ∧ busy d0 = true) ∧ d' = b ∧ r = skipped "blocked") ∨
  (ignored = false ∧ d' = b ∧ r = skipped "duplicate" ∧
     ∃ old i, instances b !! old = Some i ∧ i_job_id i = id ∧ i_scheduled_at i = Some scheduledAt) ∨
  (ignored = false ∧ (j_block_policy j = BlockDiscard → busy b = false) ∧
     ∃ now, let row := waiting_row (automatic_instance id (locked_job j) scheduledAt decisionAt) now in
       trigger_identity row = true ∧ exists_instance (same_schedule row) b = false ∧
       d' = inserted_db b row ∧
       r = {| ar_InstanceID := next_instance b; ar_Created := true; ar_Reason := "created" |}).

Definition automatic_effect (id : Z) (d b : DB) (r : AutomaticResult) (d' : DB) : Prop :=
  (d' = b ∧ ar_Created r = false ∧
    ((ar_Reason r = "not_found"%string) ∨
     (ar_Reason r = "disabled"%string ∧ ∃ j, jobs b !! id = Some j ∧ live_job j = true ∧ j_status j ≠ RecordStatusEnabled) ∨
     (ar_Reason r = "not_due"%string ∧ ∃ j, jobs b !! id = Some j ∧ live_job j = true ∧ j_status j = RecordStatusEnabled))) ∨
  (∃ j scheduledAt decisionAt next d1 now, jobs b !! id = Some j ∧ live_job j = true ∧
     j_status j = RecordStatusEnabled ∧ j_next_trigger_at j = Some scheduledAt ∧ scheduledAt ≤ decisionAt ∧
     Next (j_cron_expr j) decisionAt = Ok next ∧ due_effect id j scheduledAt decisionAt d b r d1 ∧
     d' = set_job id { j with j_next_trigger_at := Some next; j_updated_at := now } d1).

Lemma due_effect_jobs id j s t d b r d' : due_effect id j s t d b r d' → jobs d' = jobs b.
Proof. intros [(_&->&_)|[(_&_&_&->&_)|[(_&->&_)|(_&_&now&_&_&->&_)]]]; done. Qed.

(** What is left to advance after the decision, as the next statement finds it. *)
Definition due_view (id : Z) (j : JobDefinition) (scheduledAt decisionAt : Time) (L : list Lock) (d : DB)
    (r : AutomaticResult) (v : View) : Prop :=
  held_rows v = L ∧ lock_respects L d (committed v) ∧
  ∀ v', finds v v' → due_effect id j scheduledAt decisionAt d (committed v') r (current v').

Lemma tx_due_result id j scheduledAt decisionAt L d :
  JobRow id ∈ L →
  tx (due_result id (locked_job j) scheduledAt decisionAt) (Clean L d) (due_view id j scheduledAt decisionAt L d).
Proof.
  intros Hin. unfold due_result. simpl. guard as E1.
  { apply tx_ret. split_and!; [done|reflexivity|]. intros v (d' & -> & _). by left. }
  apply tx_bind.
  assert (tx (if bool_decide (j_block_policy j = BlockDiscard) then HasActive InTx id else mret false)
    (Clean L d) (λ b v, ∃ d1, v = Clean L d1 ∧ db_evolves d d1 ∧ lock_respects L d d1 ∧
       bool_decide (j_block_policy j = BlockDiscard) &&
       exists_instance (λ i, (i_job_id i =? id) && active (i_status i)) d1 = b)) as Hblk.
  { destruct (bool_decide (j_block_policy j = BlockDiscard));
      [apply tx_HasActive; intros d1 ? ?; by exists d1|apply tx_ret; by exists d]. }
  eapply tx_mono; [exact Hblk|]. intros blocked v _ _ (d1 & -> & He1 & Hr1 & Hb).
  destruct blocked.
  { apply tx_ret. split_and!; [done|done|]. intros v (d' & -> & _ & He' & _). right. left. to_prop.
    split_and!; [done|done| |done|done]. by exists d1. }
  apply tx_bind, tx_Insert; simpl.
  - intros d2 now He2 Hr2 Ht Hs _. apply tx_ret. split_and!; [done|by etrans|]. intros v ->. simpl.
    right. right. right. split_and!; [done| |by exists now]. intros Hp. rewrite bool_decide_eq_true_2 in Hb by done.
    by eapply no_active_stable.
  - intros d2 now He2 Hr2 Hdup. apply tx_ret. split_and!; [done|by etrans|]. intros v ->. simpl.
    right. right. left. split_and!; [done..|].
    assert (bool_decide (trigger_type scheduledAt decisionAt = TriggerManual) = false) as Hm
      by (unfold trigger_type; by destruct (misfired _ _)).
    rewrite Hm in Hdup. apply exists_instance_true in Hdup as (old & i & Hi & Hsame).
    unfold same_schedule in Hsame. simpl in Hsame. to_prop. eauto.
Qed.

Lemma tx_automatic_body id d :
  tx (automatic_body id) (Clean [] d) (λ r v, automatic_effect id d (committed v) r (current v) ∧
    (committed v = current v ∨ JobRow id ∈ held_rows v)).
Proof.
  unfold automatic_body. apply tx_bind, tx_attempt_LockJob.
  { intros e L d'. guard as E; [|apply tx_fail]. apply tx_ret. split; [|by left]. left. split_and!; auto. }
  intros d1 j Hj Hl He1. apply tx_bind. unfold Now. apply tx_bind, tx_pop. intros ev. apply tx_ret.
  generalize (ev_clock ev) as decisionAt. intros decisionAt. simpl.
  guard as E1; [apply tx_ret; split; [|by left]; left; split_and!; [done|done|right; left; split; [done|]]|].
  { exists j. to_prop. by split_and!. }
  to_prop.
  destruct (j_next_trigger_at j) as [scheduledAt|] eqn:En;
    [|apply tx_ret; split; [|by left]; left; split_and!; [done|done|right; right; eauto]].
  guard as E2; [apply tx_ret; split; [|by left]; left; split_and!; [done|done|right; right; eauto]|].
  apply tx_bind, tx_lift. intros next Hnext. apply tx_bind.
  eapply tx_mono; [apply tx_due_result; by left|]. intros r v _ _ (Hh & Hr & Hdue).
  apply tx_bind, tx_Advance. intros v' j' now Hf Hj' _ _. apply tx_ret. specialize (Hdue v' Hf).
  assert (lock_respects [JobRow id] (committed v) (committed v') ∧ held_rows v' = [JobRow id]) as [Hr' Hh'].
  { destruct v; simpl in *; [|by subst]. destruct Hf as (d' & -> & _ & _ & Hr'). subst. done. }
  split; [|right; simpl; rewrite Hh'; by left]. right. simpl.
  pose proof (due_effect_jobs _ _ _ _ _ _ _ _ Hdue) as Hjobs.
  assert (jobs (committed v') !! id = Some j) as Hjv.
  { rewrite (held_job _ id _ _ Hr') by (by left). rewrite (held_job _ id _ _ Hr) by (by left). done. }
  rewrite Hjobs in Hj'. assert (j' = j) as -> by congruence.
  exists j, scheduledAt, decisionAt, next, (current v'), now. unfold is_after in E2. to_prop.
  split_and!; try done.
  destruct Hdue as [Hd|[(Hi & Hp & (d0 & He & Hb & Hx) & Hd)|[Hd|Hd]]]; [by left| |by right; right; left|by right; right; right].
  right. left. split_and!; [done|done| |apply Hd..]. exists d0. split_and!; [by etrans|done|done].
Qed.

Lemma set_job_step d id j j' :
  db_inv d → jobs d !! id = Some j → live_job j = true → j_executor_group_id j' = j_executor_group_id j → live_job j' = true →
  db_inv (set_job id j' d) ∧ db_evolves d (set_job id j' d).
Proof.
  intros HI Hj Hl Hg Hl'. destruct (update_job_step d id (λ _, true) (λ _, j') HI) as [HI' He].
  - intros _ _ _ _ _. by eapply kept_group.
  - intros _ _ _ _. by left.
  - unfold update_job in *. by rewrite Hj, Hl in *.
Qed.

Lemma set_job_references d id j j' g :
  jobs d !! id = Some j → live_job j = true → j_executor_group_id j' = j_executor_group_id j →
  referenced (set_job id j' d) g → referenced d g.
Proof.
  intros Hj Hl Hg (k & u & Hu & Hul & Hug). simpl in Hu.
  apply lookup_insert_Some in Hu as [[<- <-]|[_ Hu]]; [exists id, j|exists k, u]; split_and!; congruence.
Qed.

Lemma automatic_effect_step id d b r d' L :
  automatic_effect id d b r d' → b = d' ∨ JobRow id ∈ L → guarantee L b d'.
Proof.
  intros [[-> _]|(j & s & t & next & d1 & now & Hj & Hl & _ & _ & _ & _ & Hdue & ->)] Hin; [apply guarantee_refl|].
  destruct Hin as [<-|Hin]; [apply guarantee_refl|].
  assert (guarantee L b d1) as Hg.
  { destruct Hdue as [(_&->&_)|[(_&_&_&->&_)|[(_&->&_)|(_&_&now'&Ht&Hs&->&_)]]]; [apply guarantee_refl..|].
    apply guarantee_intro; [|apply disciplined_inserted; [done|by exists id, j]].
    intros HI. apply inserted_row_step; [done|exact (inv_job_group _ HI _ _ Hj Hl)|by exists j|done|by eexists|done|apply automatic_no_request]. }
  rewrite <-(due_effect_jobs _ _ _ _ _ _ _ _ Hdue) in Hj. intros HI. destruct (Hg HI) as (HI1 & He1 & Hd1).
  match goal with |- context [set_job id ?j' d1] => destruct (set_job_step d1 id j j' HI1 Hj Hl eq_refl Hl) end.
  split_and!; [done|by etrans|]. simpl. etrans; [exact Hd1|]. apply disciplined_tables; [done|done|]. intros g _. by eapply set_job_references.
Qed.

Lemma TriggerAutomatic_wp s id d o :
  wp (TriggerAutomatic s id) d o (λ r d' o',
    (∀ res, r = Ok res → ∃ d0 d1, db_evolves d d0 ∧ db_evolves d0 d1 ∧ db_inv d1 ∧ automatic_effect id d0 d1 res d' ∧
       o' = if ar_Created res && cr_hint s then o ++ [Hinted (ar_InstanceID res)] else o) ∧
    (∀ e, r = Fail e → o' = o)).
Proof.
  unfold TriggerAutomatic. guard as E; [by apply wp_fail|].
  apply wp_bind. unfold acquire. apply wp_bind, wp_ctx_err; [|done]. apply wp_bind, wp_pop. intros ev.
  guard as E2; [by apply wp_fail|]. apply wp_ret, wp_bind, wp_transact; [done|]. intros d0 _ He0.
  eapply tx_mono; [apply tx_automatic_body|]. intros res v HI He [Heff Hin].
  split; [exact (automatic_effect_step _ _ _ _ _ _ Heff Hin)|]. set (d1 := committed v) in *.
  apply wp_bind. unfold hint.
  destruct (ar_Created res && cr_hint s) eqn:Eh; [apply wp_emit|apply wp_ret]; apply wp_ret; (split; [|done]);
    intros ? [= <-]; exists d0, d1; by rewrite Eh.
Qed.
End triggering.
