(* ===== verification/Management.v ===== *)
(** * Job and group management keeps the protocol

    The handlers of JobLogic.v that change rows, under interference: each transaction
    references a group only while it holds the group's row, and deletes a group only
    when no live Job and no active Instance uses it. *)

From S2P Require Import Prelude GoLib Tx Model TaskRepo InstanceRepo JobRepo Trigger StopController RpcErrors JobLogic.
From S2P Require Import Logic Protocol Transitions RepoRules Stopping Triggering.

Open Scope Z_scope.

#[local] Arguments HasActive : simpl never.

Section management.
Context `{UuidLib, PgLib, CronLib}.

(** ** Statements *)

Lemma tx_LockAvailable id L d Q :
  (∀ d' g, groups d' !! id = Some g → live_group g = true → db_inv d' → db_evolves d d' → lock_respects L d d' → Q tt (Clean (GroupRow id :: L) d')) →
  tx (LockAvailable InTx id) (Clean L d) Q.
Proof.
  intros HQ. apply tx_bind, tx_read. intros ev v row (d' & -> & HI & He & Hr) [= <-]. simpl.
  destruct (groups d' !! id) as [g|] eqn:Hg; simpl; [|apply tx_fail].
  destruct (live_group g) eqn:Hl; [by apply tx_ret; eapply HQ|apply tx_fail].
Qed.

(** Only a write of one row gets past [checkWrite]. *)
Lemma tx_checkWrite id (m : M Z) v Q : tx m v (λ n v', n = 1 → Q tt v') → tx (checkWrite InTx id m) v Q.
Proof.
  intros Hm. unfold checkWrite. apply tx_bind. eapply tx_mono; [exact Hm|]. intros n v' _ _ HQ.
  destruct (Z.eqb_spec n 1); [apply tx_ret; auto|]. guard as E; [apply tx_fail|].
  apply tx_query. intros ev v2 a _ Ha. by repeat case_match.
Qed.

Lemma held_group L g d d' : lock_respects L d d' → GroupRow g ∈ L → groups d' !! g = groups d !! g.
Proof. intros Hr Hin. apply (Hr _ Hin). Qed.

(** Conditional updates of a Job that keeps its group, and stays live or has no active
    Instance. *)
Lemma update_job_keeps L d id P upd :
  (∀ j, j_executor_group_id (upd j) = j_executor_group_id j) →
  (∀ j, live_job (upd j) = live_job j) ∨ (∀ k i, instances d !! k = Some i → i_job_id i = id → active (i_status i) = false) →
  guarantee L d (update_job id P upd d).1.
Proof.
  intros Hg Ha. apply guarantee_intro.
  - intros HI. apply update_job_step; [done| |].
    + intros j Hj _ Hl _. by eapply kept_group.
    + intros j Hj _ Hl. destruct Ha as [Ha|Ha]; [left; by rewrite Ha|by right].
  - unfold update_job. destruct (jobs d !! id) as [j|] eqn:Hj; [|reflexivity]. destruct (P j && live_job j) eqn:E; [|reflexivity].
    apply andb_true_iff in E as [_ Hl]. apply disciplined_tables; [done|done|]. intros g _. by eapply set_job_references.
Qed.

Lemma tx_write_job id P upd v :
  (∀ j, j_executor_group_id (upd j) = j_executor_group_id j) → (∀ j, live_job (upd j) = live_job j) → (∃ L d, v = Clean L d) →
  tx (write_job InTx id P upd) v (λ _ v', guarantee (held_rows v') (committed v') (current v')).
Proof.
  intros Hg Hl (L & d & ->). apply tx_checkWrite, tx_exec. intros ev v n (d' & -> & _). simpl.
  match goal with |- context [update_job id P ?u d'] =>
    pose proof (update_job_keeps L d' id P u) as Hk; destruct (update_job id P u d') end. intros _ _. apply Hk; [done|by left].
Qed.

(** ** Jobs *)

Lemma group_held_live L g d d' row :
  lock_respects L d d' → GroupRow g ∈ L → groups d !! g = Some row → live_group row = true → group_live d' g.
Proof. intros Hr Hin Hg Hl. exists row. by rewrite (held_group _ _ _ _ Hr Hin). Qed.

(** Writing a Job below a group whose row is held. *)
Lemma jobs_write_disciplined L d m n id j :
  (∀ k u, m !! k = Some u → k = id ∧ u = j ∨ jobs d !! k = Some u) → GroupRow (j_executor_group_id j) ∈ L →
  lock_disciplined L d { d with jobs := m; next_job := n }.
Proof.
  intros Hm Hin. apply disciplined_tables; [done|done|]. intros g Hg (k & u & Hu & Hl & Hug). simpl in Hu.
  destruct (Hm _ _ Hu) as [[-> ->]|Hold]; [by subst|by exists k, u].
Qed.

Lemma created_job_keeps L d j :
  GroupRow (j_executor_group_id j) ∈ L → group_live d (j_executor_group_id j) →
  guarantee L d { set_job (next_job d) j d with next_job := next_job d + 1 }.
Proof.
  intros Hin Hg. apply guarantee_intro.
  - intros HI. apply (jobs_step d (<[next_job d := j]> (jobs d)) (next_job d + 1)); [done| |lia| | |].
    + apply table_evolves_fresh; [apply _|]. by apply fresh_lookup, inv_job_id.
    + pose proof (inv_next _ HI). intros k u Hu. lookup_cases Hu; [lia|]. apply (inv_job_id _ HI) in Hu. lia.
    + intros k u Hu Hl. lookup_cases Hu; [done|by eapply inv_job_group].
    + intros k i Hi Ha. destruct (inv_inst_job _ HI _ _ Hi Ha) as (j' & Hj' & Hl'). exists j'. split; [|done].
      rewrite lookup_insert_ne; [done|]. apply (inv_job_id _ HI) in Hj'. lia.
  - eapply (jobs_write_disciplined L d (<[next_job d := j]> (jobs d)) (next_job d + 1) (next_job d) j); [|done].
    intros k u [[<- <-]|[_ ?]]%lookup_insert_Some; auto.
Qed.

Lemma create_job_body_tx definition d :
  tx (create_job_body definition) (Clean [] d) (λ _ v, guarantee (held_rows v) (committed v) (current v)).
Proof.
  unfold create_job_body. set (g := j_executor_group_id definition). apply tx_bind, tx_LockAvailable. intros d1 row Hg Hl _ _ _.
  assert (∀ definition', j_executor_group_id definition' = g →
    tx (CreateJob InTx definition') (Clean [GroupRow g] d1) (λ _ v, guarantee (held_rows v) (committed v) (current v))) as Hcreate.
  { intros definition' Hd. apply tx_exec. intros ev v id (d2 & -> & _ & _ & Hr). simpl. destruct (job_error definition'); [done|]. intros _.
    assert (group_live d2 g) as Hlive by (eapply (group_held_live [GroupRow g]); [done|by left|done|done]).
    apply created_job_keeps; simpl; rewrite Hd; [by left|done]. }
  apply tx_bind. guard as E; [|apply tx_ret; by apply Hcreate].
  apply tx_bind. unfold Now. apply tx_bind, tx_pop. intros ev. apply tx_ret.
  destruct (Next _ _); [apply tx_ret; by apply Hcreate|apply tx_fail].
Qed.

Lemma update_job_body_tx id definition d :
  tx (update_job_body id definition) (Clean [] d) (λ _ v, guarantee (held_rows v) (committed v) (current v)).
Proof.
  unfold update_job_body. set (g := j_executor_group_id definition). apply tx_bind, tx_LockAvailable. intros d1 row Hg Hl _ _ _.
  apply tx_checkWrite, tx_exec. intros ev v n (d2 & -> & HI2 & _ & Hr). simpl.
  assert (group_live d2 g) as Hlive by (eapply (group_held_live [GroupRow g]); [done|by left|done|done]).
  match goal with |- context [update_job id ?P ?u d2] => set (P0 := P); set (upd := u) end.
  assert (guarantee [GroupRow g] d2 (update_job id P0 upd d2).1) as Hk.
  { apply guarantee_intro; [intros HI; apply update_job_step; [done|by intros|by intros; left]|].
    unfold update_job. destruct (jobs d2 !! id) as [j|] eqn:Hj; [|reflexivity]. destruct (P0 j && live_job j); [|reflexivity].
    eapply (jobs_write_disciplined _ d2 (<[id := upd j]> (jobs d2)) (next_job d2) id (upd j)); [|by left].
    intros k u [[<- <-]|[_ ?]]%lookup_insert_Some; auto. }
  destruct (update_job id P0 upd d2) as [d3 k]. simpl in Hk. destruct (job_error definition); [|done].
  destruct (k =? 1); [done|]. intros _ _. apply guarantee_refl.
Qed.

Lemma enable_job_body_tx id d :
  tx (enable_job_body id) (Clean [] d) (λ _ v, guarantee (held_rows v) (committed v) (current v)).
Proof.
  unfold enable_job_body. apply tx_bind, tx_LockJob. intros d1 j Hj Hl _. guard as E; [apply tx_ret, guarantee_refl|].
  apply tx_bind, tx_query. intros ev v available (d2 & -> & _) _. destruct available; cbn [negb]; [|apply tx_fail].
  apply tx_bind, tx_lift. intros _ _. apply tx_bind. unfold Now. apply tx_bind, tx_pop. intros ev'. apply tx_ret.
  destruct (Next _ _); [|apply tx_fail]. apply tx_write_job; [done|done|by eexists _, _].
Qed.

Lemma delete_job_body_tx id d :
  tx (delete_job_body id) (Clean [] d) (λ _ v, guarantee (held_rows v) (committed v) (current v)).
Proof.
  unfold delete_job_body. apply tx_bind, tx_LockJob. intros d1 j Hj Hl _. guard as E; [apply tx_fail|].
  apply tx_bind, tx_HasActive. intros d2 _ _. guard as E2; [apply tx_fail|].
  apply tx_checkWrite, tx_exec. intros ev v n (d3 & -> & _ & He3 & Hr3). simpl.
  match goal with |- context [update_job id ?P ?u d3] =>
    pose proof (update_job_keeps [JobRow id] d3 id P u) as Hk; destruct (update_job id P u d3) end. intros _ _.
  apply Hk; [done|]. right. intros k i Hi Hid.
  pose proof (no_active_stable id [JobRow id] d2 d3 He3 Hr3 (list_elem_of_here _ _) E2) as Hno.
  apply (exists_instance_false _ _ _ _ Hno) in Hi. by rewrite Hid, Z.eqb_refl in Hi.
Qed.

(** ** Groups *)

(** While the row of an unreferenced group is held, its Instances can only end. *)
Lemma no_active_group_stable g L d d' :
  db_inv d → db_evolves d d' → lock_respects L d d' → GroupRow g ∈ L → ¬ referenced d g →
  exists_instance (λ i, (i_executor_group_id i =? g) && active (i_status i)) d = false →
  ∀ id i, instances d' !! id = Some i → i_executor_group_id i = g → active (i_status i) = false.
Proof.
  intros HI He Hr Hin Hn Hno id i' Hi' Hg. destruct (active (i_status i')) eqn:Ha; [|done]. exfalso.
  destruct (Hr _ Hin) as [_ [_ Hnew]]. destruct (Hnew Hn _ _ Hi' Hg) as (i & Hi & Hig).
  pose proof (exists_instance_false _ _ _ _ Hno Hi) as Hx. simpl in Hx. rewrite Hig, Z.eqb_refl in Hx. simpl in Hx.
  destruct (dbe_instances _ _ He _ _ Hi) as (i2 & Hi2 & Hev). assert (i2 = i') as -> by congruence.
  by rewrite (active_before _ _ Hev (inv_inst _ HI _ _ Hi) Ha) in Hx.
Qed.

Lemma not_referenced d g :
  existsb (λ r : Z * JobDefinition, live_job r.2 && (j_executor_group_id r.2 =? g)) (rows (jobs d)) = false → ¬ referenced d g.
Proof.
  intros Hn (id & j & Hj & Hl & Hg). enough (existsb (λ r : Z * JobDefinition, live_job r.2 && (j_executor_group_id r.2 =? g)) (rows (jobs d)) = true) by congruence.
  apply existsb_exists. exists (id, j). split; [by apply list_elem_of_In, elem_of_rows|]. simpl. by rewrite Hl, Hg, Z.eqb_refl.
Qed.

Lemma deleted_group_keeps L d g row row' :
  groups d !! g = Some row → live_group row = true → group_evolves row row' → ¬ referenced d g →
  (∀ id i, instances d !! id = Some i → i_executor_group_id i = g → active (i_status i) = false) →
  guarantee L d (set_group g row' d).
Proof.
  intros Hg Hl Hev Hn Hi. apply guarantee_intro; [|by apply disciplined_tables]. intros HI.
  change (set_group g row' d) with ({ d with groups := <[g := row']> (groups d); next_group := next_group d }).
  apply groups_step; [done| |lia| |].
  - by eapply table_evolves_insert; [apply _|..].
  - intros k u Hu. lookup_cases Hu; by eapply inv_group_id.
  - intros k u Hu Hul. destruct (decide (k = g)) as [->|]; [by right|]. left. exists u. by rewrite lookup_insert_ne.
Qed.

Lemma delete_group_body_tx id d :
  tx (delete_group_body id) (Clean [] d) (λ _ v, guarantee (held_rows v) (committed v) (current v)).
Proof.
  unfold delete_group_body. apply tx_bind, tx_LockAvailable. intros d1 row Hg Hl _ _ _.
  apply tx_bind, tx_query. intros ev v refs (d2 & -> & HI2 & _ & Hr2) [= <-]. simpl. guard as E1; [apply tx_fail|].
  apply not_referenced in E1. apply tx_bind, tx_query. intros ev' v act (d3 & -> & HI3 & _ & Hr3) [= <-]. simpl. guard as E2; [apply tx_fail|].
  assert (GroupRow id ∈ [GroupRow id]) as Hin by (by left).
  assert (¬ referenced d3 id) as Hn3 by (destruct (Hr3 _ Hin) as [_ [Hx _]]; auto).
  unfold DeleteGroup. apply tx_bind, tx_exec. intros ev2 v n (d4 & -> & _ & He4 & Hr4). simpl.
  rewrite (held_group _ _ _ _ Hr4 Hin), (held_group _ _ _ _ Hr3 Hin), (held_group _ _ _ _ Hr2 Hin), Hg, Hl. simpl. intros [= <-]. simpl.
  apply tx_ret. eapply deleted_group_keeps; [|exact Hl|unfold live_group in Hl; to_prop; by split| |].
  - by rewrite (held_group _ _ _ _ Hr4 Hin), (held_group _ _ _ _ Hr3 Hin), (held_group _ _ _ _ Hr2 Hin).
  - destruct (Hr4 _ Hin) as [_ [Hx _]]. auto.
  - by eapply no_active_group_stable.
Qed.

Lemma created_group_keeps L d row : guarantee L d { set_group (next_group d) row d with next_group := next_group d + 1 }.
Proof.
  apply guarantee_intro; [|by apply disciplined_tables]. intros HI.
  apply (groups_step d (<[next_group d := row]> (groups d)) (next_group d + 1)); [done| |lia| |].
  - apply table_evolves_fresh; [apply _|]. by apply fresh_lookup, inv_group_id.
  - pose proof (inv_next _ HI). intros k u Hu. lookup_cases Hu; [lia|]. apply (inv_group_id _ HI) in Hu. lia.
  - intros k u Hu Hl. left. exists u. split; [|done]. rewrite lookup_insert_ne; [done|]. intros <-. apply (inv_group_id _ HI) in Hu. lia.
Qed.

Lemma CreateGroup_safe g : safe (CreateGroup Auto g).
Proof.
  unfold CreateGroup. apply safe_bind; [|intros []; eauto with safe]. apply safe_attempt, safe_stmt. intros ev d.
  destruct (group_error g); [apply guarantee_refl|]. destruct (group_conflict g d); [apply guarantee_refl|]. apply created_group_keeps.
Qed.
End management.

(** ** Handlers *)

Section handlers.
Context `{UuidLib, PgLib, CronLib, TimeText, UuidRandom} (sc : ServiceContext).

Lemma notifyJobChanged_safe : safe (notifyJobChanged sc).
Proof. unfold notifyJobChanged. safe_auto. Qed.
Hint Resolve notifyJobChanged_safe CreateGroup_safe : safe.

Lemma CreateJobLogic_safe status config : safe (CreateJobLogic sc status config).
Proof.
  unfold CreateJobLogic. guard as E; [eauto with safe|]. safe_step; [eauto with safe|]. safe_step; [eauto with safe|].
  safe_step; [|safe_auto]. apply safe_map_error, safe_transact. intros d _. apply create_job_body_tx.
Qed.

Lemma UpdateJobLogic_safe id config : safe (UpdateJobLogic sc id config).
Proof.
  unfold UpdateJobLogic. guard as E; [eauto with safe|]. safe_step; [eauto with safe|]. safe_step; [eauto with safe|].
  safe_step; [|safe_auto]. apply safe_map_error, safe_transact. intros d _. apply update_job_body_tx.
Qed.

Lemma DisableJob_safe id : safe (DisableJob Auto id).
Proof.
  unfold DisableJob, write_job, checkWrite. safe_step; [|safe_auto]. apply safe_stmt. intros ev d.
  match goal with |- context [update_job id ?P ?u d] =>
    pose proof (update_job_keeps [] d id P u) as Hk; destruct (update_job id P u d) end. apply Hk; [done|by left].
Qed.

Lemma UpdateJobStatusLogic_safe id status : safe (UpdateJobStatusLogic sc id status).
Proof.
  unfold UpdateJobStatusLogic. destruct status; [|eauto with safe]. guard as E; [eauto with safe|]. safe_step; [|eauto with safe].
  apply safe_map_error. guard as E2; [apply DisableJob_safe|]. apply safe_transact. intros d _. apply enable_job_body_tx.
Qed.

Lemma DeleteJobLogic_safe id : safe (DeleteJobLogic sc id).
Proof.
  unfold DeleteJobLogic. guard as E; [eauto with safe|]. safe_step; [|eauto with safe].
  apply safe_map_error, safe_transact. intros d _. apply delete_job_body_tx.
Qed.

Lemma CreateExecutorGroupLogic_safe name key : safe (CreateExecutorGroupLogic name key).
Proof.
  unfold CreateExecutorGroupLogic. guard as E; [eauto with safe|]. safe_step; [apply safe_map_error; eauto with safe|].
  safe_step; [apply safe_map_error; eauto with safe|]. safe_auto.
Qed.

Lemma DeleteExecutorGroupLogic_safe id : safe (DeleteExecutorGroupLogic id).
Proof.
  unfold DeleteExecutorGroupLogic. guard as E; [eauto with safe|]. apply safe_map_error, safe_transact. intros d _. apply delete_group_body_tx.
Qed.

Lemma TriggerJobLogic_safe input : safe (TriggerJobLogic sc input).
Proof.
  unfold TriggerJobLogic. safe_step; [eauto with safe|]. apply safe_map_error. intros d o. eapply wp_safe, TriggerManualJob_wp.
Qed.

Lemma StopInstanceLogic_safe id : safe (StopInstanceLogic sc id).
Proof.
  unfold StopInstanceLogic. guard as E; [eauto with safe|]. safe_step; [|safe_auto]. apply safe_map_error. intros d o.
  eapply wp_safe, requestStop_wp.
Qed.
End handlers.
