(* ===== verification/System.v ===== *)
(** * A concrete deployment

    Executable instances of the parameters (UUIDs, PostgreSQL, Cron, the executor)
    and a small run of the system, used to exhibit inputs on which the theorems
    apply.  The second part is the whole system: all operations, interleaved. *)

From S2P Require Import Prelude GoLib Tx Model TaskRepo InstanceRepo JobRepo Trigger Dispatcher.
From S2P Require Import ResultSaver Settler StopController Checker RpcErrors JobLogic.
From S2P Require Import Logic Protocol Transitions RepoRules.
From S2P Require Import Registration Stopping Triggering Management.

Open Scope Z_scope.

#[global] Instance demo_uuid : UuidLib :=
  {| Version := λ u, u mod 16; VariantRFC4122 := λ u, 0 <? u;
     ParseUUID := λ s, if bool_decide (s = "executor-4"%string) then Some 4 else None;
     StringUUID := λ u, if u =? 4 then "executor-4"%string else ""%string |}.

#[global] Instance demo_pg : PgLib :=
  {| interval_of_seconds := id; jsonb_error := λ _, None; collation_le := λ a b, bool_decide (String.leb a b = true);
     json_text := λ _, ""%string; fold_case := id |}.

(** Every expression fires ten seconds after the given time. *)
#[global] Instance demo_cron : CronLib :=
  {| Schedule := unit; cron_parse := λ _, Some tt; cron_next := λ _ t, t + 10 * Second |}.

(** The executor accepts first attempts and is busy afterwards. *)
#[global] Instance demo_sender : Sender := λ a _,
  Ok {| rs_Outcome := if ra_AttemptNo a =? 1 then OutcomeAccepted else OutcomeBusy;
        rs_ExecutorInstanceID := 4; rs_ExecutorAddress := "10.0.0.1:8080"; rs_Summary := "" |}.

#[global] Instance demo_time_text : TimeText := λ _, "2026"%string.
#[global] Instance demo_random : UuidRandom := λ _, Ok 4.
Definition demo_service : ServiceContext :=
  {| sc_Trigger := {| cr_hint := true; cr_capacity := 16; cr_budget := Second |}; sc_NotifyJobChanged := true; sc_AfterInstanceStopped := true |}.
Definition demo_job_input : JobInput :=
  {| ji_Name := "nightly"; ji_Remark := ""; ji_ExecutorGroupId := 1; ji_ProcessorName := "copy"; ji_ExecutionMode := Some 1;
     ji_PostEnabled := Some false; ji_Params := "{}"; ji_CronExpr := "0 0 3 * * *"; ji_MisfirePolicy := Some 1; ji_BlockPolicy := Some 0;
     ji_MaxRetries := Some 1; ji_RetryIntervalSeconds := Some 30; ji_TimeoutSeconds := 3600 |}.

Definition demo_job : JobDefinition :=
  {| j_name := "nightly"; j_remark := ""; j_executor_group_id := 1; j_processor_name := "copy";
     j_execution_mode := ExecutionModeNormal; j_post_enabled := false; j_params := "{}"; j_cron_expr := "0 0 3 * * *";
     j_status := RecordStatusEnabled; j_misfire_policy := MisfireOnce; j_block_policy := BlockDiscard;
     j_max_retries := 1; j_retry_interval_seconds := 30; j_timeout_seconds := 3600;
     j_next_trigger_at := Some 1000; j_created_at := 0; j_updated_at := 0; j_deleted_at := None |}.

Definition demo_creator : Creator := {| cr_hint := true; cr_capacity := 16; cr_budget := Second |}.
Definition demo_dispatcher : Dispatcher :=
  {| dp_registrar := {| reg_hint := true |}; dp_hint := true; dp_totalTimeout := 10 * Second; dp_busyDelay := 5 * Second |}.
Definition demo_saver : Saver := {| sv_hint := true; sv_timeout := 2 * Second |}.
Definition demo_checker : Checker := {| ck_stopping := true |}.
Definition demo_controller : Controller := {| co_sqlTimeout := Second; co_batchSize := 256 |}.
Definition demo_settler : Settler :=
  {| se_observationPeriod := 30 * Second; se_operationTimeout := Second; se_hint := true |}.

Definition demo_input : ManualTrigger :=
  {| mt_JobID := 1; mt_RequestID := 77; mt_ParamsOverridden := true; mt_Params := " x "; mt_OperatorID := 9 |}.

Definition demo_report : Report :=
  {| rp_GroupID := 1; rp_JobID := 1; rp_InstanceID := 1; rp_TaskID := 1; rp_AttemptNo := 1;
     rp_ExecutorInstanceID := "executor-4"; rp_Outcome := OutcomeSuccess; rp_Summary := "copied";
     rp_Data := Some "[1]"%string; rp_PreparedItems := None |}.

(** Nothing interferes and nothing fails; the clock is fixed during an operation. *)
Definition calm (t : Time) : nat → Event := λ _, quiet t.

Definition after_run {A} (m : M A) (t : Time) (d : DB) : DB := w_db (m (start d (calm t))).1.
Definition result_of {A} (m : M A) (t : Time) (d : DB) : Result A := (m (start d (calm t))).2.

(** * The whole system

    Every operation of every node over one database.  The operations keep the
    protocol commit by commit, so they are themselves admissible interference, and
    the invariant holds in every reachable database.  The theorems below read the
    promises of the Job domain off the protocol. *)

(** ** Operations of a node *)

Inductive Op :=
| OpTriggerManual (s : Creator) (input : ManualTrigger)
| OpTriggerAutomatic (s : Creator) (id : Z)
| OpDispatch (d : Dispatcher) (instanceID : Z)
| OpRetry (d : Dispatcher) (candidate : RetryCandidate)
| OpSave (s : Saver) (report : Report)
| OpSettle (s : Settler) (candidates : list UnboundCandidate)
| OpStop (id : Z)
| OpTimeout (id : Z)
| OpProcessBatch (c : Controller) (id : Z)
| OpCheck (c : Checker) (id : Z)
| OpCreateJob (sc : ServiceContext) (status : option Z) (config : option JobInput)
| OpUpdateJob (sc : ServiceContext) (id : Z) (config : option JobInput)
| OpUpdateJobStatus (sc : ServiceContext) (id : Z) (status : option Z)
| OpDeleteJob (sc : ServiceContext) (id : Z)
| OpTriggerJob (sc : ServiceContext) (input : TriggerJobRequest)
| OpStopInstance (sc : ServiceContext) (id : Z)
| OpCreateGroup (name discoveryKey : string)
| OpDeleteGroup (id : Z).

Section system.
Context `{UuidLib, PgLib, CronLib, Sender, TimeText, UuidRandom}.

Definition discard {A} (m : M A) : M unit := m;; mret ().

Definition run (op : Op) : M unit :=
  match op with
  | OpTriggerManual s input => discard (TriggerManualJob s input)
  | OpTriggerAutomatic s id => discard (TriggerAutomatic s id)
  | OpDispatch d id => discard (DispatchOrdinary d id)
  | OpRetry d c => discard (DispatchRetry d c)
  | OpSave s r => discard (Save s r)
  | OpSettle s cs => discard (SettleBatch s cs)
  | OpStop id => discard (RequestManual id)
  | OpTimeout id => discard (RequestTimeout id)
  | OpProcessBatch c id => discard (ProcessBatch c id)
  | OpCheck c id => discard (Check c id)
  | OpCreateJob sc status config => discard (CreateJobLogic sc status config)
  | OpUpdateJob sc id config => UpdateJobLogic sc id config
  | OpUpdateJobStatus sc id status => UpdateJobStatusLogic sc id status
  | OpDeleteJob sc id => DeleteJobLogic sc id
  | OpTriggerJob sc input => discard (TriggerJobLogic sc input)
  | OpStopInstance sc id => discard (StopInstanceLogic sc id)
  | OpCreateGroup name key => discard (CreateExecutorGroupLogic name key)
  | OpDeleteGroup id => DeleteExecutorGroupLogic id
  end.

Lemma discard_safe {A} (m : M A) : safe m → safe (discard m).
Proof. intros Hm. unfold discard. safe_auto. Qed.

Lemma discard_world {A} (m : M A) w : (discard m w).1 = (m w).1.
Proof. unfold discard, mbind, M_bind. by destruct (m w) as [? []]. Qed.

Lemma run_safe op : safe (run op).
Proof.
  destruct op; simpl; try apply discard_safe; try intros d0 o0; try (eapply wp_safe).
  - apply TriggerManualJob_wp.
  - apply TriggerAutomatic_wp.
  - apply DispatchOrdinary_wp.
  - apply DispatchRetry_wp.
  - apply Save_safe.
  - apply SettleBatch_safe.
  - apply requestStop_wp.
  - apply requestStop_wp.
  - apply ProcessBatch_wp.
  - apply Check_wp.
  - apply CreateJobLogic_safe.
  - apply UpdateJobLogic_safe.
  - apply UpdateJobStatusLogic_safe.
  - apply DeleteJobLogic_safe.
  - apply TriggerJobLogic_safe.
  - apply StopInstanceLogic_safe.
  - apply CreateExecutorGroupLogic_safe.
  - apply DeleteExecutorGroupLogic_safe.
Qed.

(** Operations of any nodes, one after the other, each with interference. *)
Inductive steps : relation DB :=
| steps_refl d : steps d d
| steps_op d d1 op env w r :
    steps d d1 → rely env → run op (start d1 env) = (w, r) → steps d (w_db w).

Definition reachable (d : DB) : Prop := steps empty_db d.

Lemma run_start op d env w r :
  rely env → db_inv d → run op (start d env) = (w, r) →
  Forall keeps (w_commits w) ∧ db_inv (w_db w) ∧ db_evolves d (w_db w).
Proof.
  intros Hr HI E. pose proof (run_safe op d [] (start d env) eq_refl eq_refl Hr HI) as Hs. rewrite E in Hs.
  destruct Hs as (_ & (l & Hl & Hf) & HI' & He & _). simpl in Hl. subst l. done.
Qed.

Lemma steps_evolves d d' : steps d d' → db_inv d → db_inv d' ∧ db_evolves d d'.
Proof.
  induction 1 as [|d d1 op env w r Hst IH Hr E]; intros HI; [by split|].
  destruct (IH HI) as [HI1 He1]. destruct (run_start _ _ _ _ _ Hr HI1 E) as (_ & HI2 & He2).
  split; [done|by etrans].
Qed.

Lemma reachable_db_inv d : reachable d → db_inv d.
Proof. intros Hr. by apply (steps_evolves _ _ Hr), empty_db_inv. Qed.

Lemma steps_trans d d1 d2 : steps d d1 → steps d1 d2 → steps d d2.
Proof. intros Hs. induction 1; [done|]. eapply steps_op; [by auto|done|done]. Qed.
End system.

(** The concrete run used by the witnesses: nothing interferes. *)
Lemma calm_rely t : rely (calm t).
Proof. intros n L d HI. split_and!; [done|reflexivity|reflexivity]. Qed.

(** An environment where another node runs a whole operation before event [k]. *)
Definition meanwhile (k : nat) (op : Op) (t : Time) : nat → Event := λ n,
  { quiet t with ev_others := λ L d, if bool_decide (n = k ∧ L = []) then after_run (run op) t d else d }.

Lemma meanwhile_rely k op t : rely (meanwhile k op t).
Proof.
  intros n L d HI. simpl. case_bool_decide as E; [|by apply (calm_rely t n L d HI)]. destruct E as [_ ->].
  unfold after_run. destruct (run op (start d (calm t))) as [w r] eqn:E.
  destruct (run_start _ _ _ _ _ (calm_rely t) HI E) as (_ & ? & ?). split_and!; [done|done|].
  intros l Hl. by apply elem_of_nil in Hl.
Qed.

Fixpoint demo_run (ops : list (Op * Time)) (d : DB) : DB :=
  match ops with [] => d | (op, t) :: rest => demo_run rest (after_run (run op) t d) end.

Lemma demo_run_steps ops d : steps d (demo_run ops d).
Proof.
  revert d. induction ops as [|[op t] ops IH]; intros d; [constructor|]. simpl.
  eapply steps_trans; [|apply IH]. unfold after_run.
  destruct (run op (start d (calm t))) as [w r] eqn:E. simpl.
  eapply steps_op; [constructor|apply calm_rely|done].
Qed.

Lemma demo_reachable ops d : reachable d → reachable (demo_run ops d).
Proof. intros Hr. eapply steps_trans; [exact Hr|apply demo_run_steps]. Qed.

Lemma empty_reachable : reachable empty_db.
Proof. constructor. Qed.

Definition create_job (input : JobInput) : Op := OpCreateJob demo_service (Some 1) (Some input).
Definition create_demo_job : Op := create_job demo_job_input.
Definition create_demo_group : Op := OpCreateGroup "g" "k".

(** A round that succeeds, and one that is stopped. *)
Definition demo_setup : list (Op * Time) :=
  [(create_demo_group, 100); (create_demo_job, 100);
   (OpTriggerManual demo_creator demo_input, 200); (OpDispatch demo_dispatcher 1, 300)].
Abbreviation demo_running := (demo_run demo_setup empty_db).
Abbreviation demo_done :=
  (demo_run [(OpSave demo_saver demo_report, 400); (OpCheck demo_checker 1, 500)] demo_running).
Abbreviation demo_stopping := (demo_run [(OpStop 1, 350)] demo_running).
Abbreviation demo_canceled :=
  (demo_run [(OpProcessBatch demo_controller 1, 360); (OpProcessBatch demo_controller 1, 370)] demo_stopping).

Lemma demo_running_reachable : reachable demo_running.
Proof. apply demo_reachable, empty_reachable. Qed.
Lemma demo_done_reachable : reachable demo_done.
Proof. apply demo_reachable, demo_running_reachable. Qed.
Lemma demo_stopping_reachable : reachable demo_stopping.
Proof. apply demo_reachable, demo_running_reachable. Qed.
