(* ===== verification/Guarantees.v ===== *)
(** * What the Job domain promises

    System-wide theorems: they hold in every database that any sequence of
    operations, with any admissible interference, lost commits and failures, can
    reach.  Each theorem is followed by a concrete instance. *)

From S2P Require Import Prelude GoLib Tx Model TaskRepo InstanceRepo JobRepo Trigger Dispatcher.
From S2P Require Import ResultSaver Settler StopController Checker Logic Protocol Transitions RepoRules.
From S2P Require Import Registration Stopping Triggering System.

Open Scope Z_scope.

Section guarantees.
Context `{UuidLib, PgLib, CronLib, Sender, TimeText, UuidRandom}.

(** C1: Every commit of every operation keeps the protocol: whatever the other
    sessions commit between its statements, and although statements fail and
    commit confirmations get lost, each transaction it commits takes a consistent
    database to a consistent one in the allowed directions, creates or registers
    attempts only while it holds the parent row and Instances only while it holds
    the Job row.  So each commit is admissible interference for every other
    session: it respects the locks of any session it does not conflict with. *)
Theorem commits_keep_protocol op d env w r :
  rely env → db_inv d → run op (start d env) = (w, r) →
  db_inv (w_db w) ∧ db_evolves d (w_db w) ∧
  ∀ c, c ∈ w_commits w → db_inv (c_before c) →
    db_inv (c_after c) ∧ db_evolves (c_before c) (c_after c) ∧
    ∀ L, (∀ l, l ∈ L → l ∉ c_locks c ∧ same_row l (c_before c) (c_after c)) → lock_respects L (c_before c) (c_after c).
Proof.
  intros Hr HI E. destruct (run_start _ _ _ _ _ Hr HI E) as (Hc & HI' & He).
  split_and!; [done..|]. intros c Hin HIc. rewrite Forall_forall in Hc.
  destruct (Hc c Hin HIc) as (? & ? & Hd). split_and!; [done..|]. intros L HL.
  eapply disciplined_respects; [exact Hd|intros l Hl; by apply HL..].
Qed.

(** C2: In every reachable database every row is well-formed for its status, every
    Task belongs to a started Instance that agrees with it, no Instance has two
    Tasks, every started Instance has one, and no unfinished Task has a finished
    parent. *)
Theorem reachable_consistent d :
  reachable d → db_inv d.
Proof. apply reachable_db_inv. Qed.

(** C3: An attempt is never granted beyond the frozen budget: the opportunities a
    Task has used are at most its snapshot's retries plus the first execution, and
    never more than its attempt number. *)
Theorem attempt_budget d tid t :
  reachable d → tasks d !! tid = Some t →
  ∃ i c, instances d !! t_instance_id t = Some i ∧ Scan (i_execution_config i) = Some c ∧
    0 ≤ t_used_attempts t ≤ MaxRetries c + 1 ∧ t_used_attempts t ≤ t_attempt_no t.
Proof.
  intros HI%reachable_db_inv Ht. destruct (inv_parent _ HI _ _ Ht) as (i & Hi & Hc).
  destruct (co_budget _ _ Hc) as (c & Hs & _ & _ & _ & _ & Hu). pose proof (tw_used _ (inv_task _ HI _ _ Ht)).
  exists i, c. split_and!; done || lia.
Qed.

(** C5: Final facts are final: a finished Task and a terminal Instance are never
    changed again, whichever operations run later on any node. *)
Theorem final_rows_frozen d d' :
  reachable d → steps d d' →
  (∀ tid t, tasks d !! tid = Some t → unfinished (t_status t) = false → tasks d' !! tid = Some t) ∧
  (∀ id i, instances d !! id = Some i → terminal_status (i_status i) = true → instances d' !! id = Some i).
Proof.
  intros HI%reachable_db_inv [_ He]%steps_evolves; [|done]. split.
  - intros tid t Ht Hf. destruct (dbe_tasks _ _ He _ _ Ht) as (t' & Ht' & Hev).
    by rewrite (te_finished _ _ Hev Hf) in Ht'.
  - intros id i Hi Ht. by eapply terminal_persists.
Qed.

(** C8: Nothing in use is deleted: in every reachable database every live Job belongs to a
    group that exists and is not deleted, and so does every active Instance, whose Job is
    live too, although groups, Jobs and Instances are checked, created, moved and deleted
    by concurrent transactions. *)
Theorem references_never_dangle d :
  reachable d →
  (∀ id j, jobs d !! id = Some j → live_job j = true → ∃ g, groups d !! j_executor_group_id j = Some g ∧ live_group g = true) ∧
  (∀ id i, instances d !! id = Some i → active (i_status i) = true →
     (∃ g, groups d !! i_executor_group_id i = Some g ∧ live_group g = true) ∧
     (∃ j, jobs d !! i_job_id i = Some j ∧ live_job j = true)).
Proof.
  intros HI%reachable_db_inv. split; [exact (inv_job_group _ HI)|]. intros id i Hi Ha.
  split; [exact (inv_inst_group _ HI _ _ Hi Ha)|exact (inv_inst_job _ HI _ _ Hi Ha)].
Qed.

(** A round reports what its Task reports: a succeeded Instance has a succeeded
    Task, a failed one without timeout a failed Task, with the same summary; a
    terminal Instance has no unfinished Task; and a Task is canceled only by a stop
    of its own parent, for the same reason. *)
Theorem round_agrees_with_task d id i :
  reachable d → instances d !! id = Some i →
  (i_status i = InstanceSucceeded → ∃ tid t, tasks d !! tid = Some t ∧ t_instance_id t = id ∧
     t_status t = TaskSucceeded ∧ t_result_summary t = i_result_summary i) ∧
  (i_status i = InstanceFailed → i_end_reason i = Some EndReasonExecutionFailed →
     ∃ tid t, tasks d !! tid = Some t ∧ t_instance_id t = id ∧
     t_status t = TaskFailed ∧ t_result_summary t = i_result_summary i) ∧
  (∀ tid t, tasks d !! tid = Some t → t_instance_id t = id →
     (terminal_status (i_status i) = true → unfinished (t_status t) = false) ∧
     (t_status t = TaskCanceled → t_end_reason t = i_end_reason i)).
Proof.
  intros HI%reachable_db_inv Hi. pose proof (iw_status _ (inv_inst _ HI _ _ Hi)) as Hw. unfold inst_status_wf in Hw.
  assert (∀ tid t, tasks d !! tid = Some t → t_instance_id t = id → coherent i t) as Hco.
  { intros tid t Ht <-. destruct (inv_parent _ HI _ _ Ht) as (i' & Hi' & ?). by simplify_eq. }
  split_and!.
  - intros Hs. rewrite Hs in Hw. destruct (inv_child _ HI _ _ Hi (proj1 Hw)) as (tid & t & Ht & Hid).
    destruct (co_succeeded _ _ (Hco _ _ Ht Hid) Hs). eauto 10.
  - intros Hs Hr. rewrite Hs in Hw. destruct (inv_child _ HI _ _ Hi (proj1 Hw)) as (tid & t & Ht & Hid).
    destruct (co_failed _ _ (Hco _ _ Ht Hid) Hs Hr). eauto 10.
  - intros tid t Ht Hid. pose proof (Hco _ _ Ht Hid) as Hc. split.
    + intros Hterm. destruct (unfinished (t_status t)) eqn:Hu; [|done]. by rewrite (co_open _ _ Hc Hu) in Hterm.
    + intros Hcan. by destruct (co_canceled _ _ Hc Hcan).
Qed.

(** The round deadline is fixed at the first start: it is the start plus the
    frozen timeout, and neither it, the start nor the snapshot ever changes, however
    many retries follow. *)
Theorem deadline_fixed d d' id i s :
  reachable d → steps d d' → instances d !! id = Some i → i_started_at i = Some s →
  ∃ c i', Scan (i_execution_config i) = Some c ∧ 0 < TimeoutSeconds c ∧
    i_deadline_at i = Some (s + TimeoutSeconds c * Second) ∧
    instances d' !! id = Some i' ∧ i_started_at i' = i_started_at i ∧ i_deadline_at i' = i_deadline_at i ∧
    i_execution_config i' = i_execution_config i.
Proof.
  intros HI%reachable_db_inv [_ He]%steps_evolves Hi Hs; [|done].
  pose proof (iw_times _ (inv_inst _ HI _ _ Hi)) as Ht. unfold inst_times_wf in Ht. rewrite Hs in Ht.
  destruct (i_deadline_at i) as [dl|] eqn:Ed; [|done]. destruct Ht as (_ & c & Hc & Hpos & ->).
  destruct (dbe_instances _ _ He _ _ Hi) as (i' & Hi' & [Hf Hst Hdl _ _ _]).
  exists c, i'. split_and!; [done|done|done|done|rewrite Hs; eauto|eauto|].
  unfold frozen in Hf. congruence.
Qed.

(** C4: An attempt is sent at most once.  A dispatch sends nothing, or exactly one
    attempt that a transaction of its own newly registered; any registration that
    commits after that one, during this dispatch or later, on this node or another,
    is of a different attempt. *)
Theorem sent_once op d env w r :
  rely env → db_inv d → run op (start d env) = (w, r) →
  match op with OpDispatch _ _ | OpRetry _ _ => True | _ => False end →
  sends (w_out w) = [] ∨
  ∃ a d0 d1, sends (w_out w) = [send_of a] ∧ db_evolves d d0 ∧ registered d0 a d1 ∧ db_evolves d1 (w_db w) ∧
    ∀ a' d2 d3, db_evolves d1 d2 → registered d2 a' d3 →
      (ra_TaskID a', ra_AttemptNo a') ≠ (ra_TaskID a, ra_AttemptNo a).
Proof.
  intros Hr HI E Hop.
  assert (dispatched d [] (w_db w) (w_out w)) as Hd.
  { apply (f_equal fst) in E. destruct op; try done; simpl in E; rewrite discard_world in E.
    - pose proof (DispatchOrdinary_wp d0 instanceID d [] (start d env) eq_refl eq_refl Hr HI) as Hwp.
      destruct (DispatchOrdinary _ _ _) as [w1 res]. simpl in E. subst w1. apply Hwp.
    - pose proof (DispatchRetry_wp d0 candidate d [] (start d env) eq_refl eq_refl Hr HI) as Hwp.
      destruct (DispatchRetry _ _ _) as [w1 res]. simpl in E. subst w1. apply Hwp. }
  destruct Hd as [Hd|(a & d0 & d1 & Hs & He0 & Hreg & He1)]; [by left|right].
  exists a, d0, d1. split_and!; try done. intros a' d2 d3 He2 Hreg'. by eapply registered_once.
Qed.

(** C15: The life of an attempt: a Task's attempt number never decreases; while it
    stays the same, the registration time and a recorded executor are kept, the
    opportunity is given back at most once and only by closing the attempt, and a
    closed attempt is never reopened. *)
Theorem attempt_lifecycle d d' tid t :
  reachable d → steps d d' → tasks d !! tid = Some t →
  ∃ t', tasks d' !! tid = Some t' ∧ t_instance_id t' = t_instance_id t ∧ t_attempt_no t ≤ t_attempt_no t' ∧
    (t_attempt_no t' = t_attempt_no t →
       t_attempt_registered_at t' = t_attempt_registered_at t ∧
       (∀ u, t_executor_instance_id t = Some u → t_executor_instance_id t' = Some u) ∧
       t_used_attempts t - 1 ≤ t_used_attempts t' ≤ t_used_attempts t ∧
       (t_used_attempts t' < t_used_attempts t → t_status t = TaskRunning ∧ t_status t' ≠ TaskRunning) ∧
       (t_status t ≠ TaskRunning → t_status t' ≠ TaskRunning)).
Proof.
  intros HI%reachable_db_inv [_ He]%steps_evolves Ht; [|done].
  destruct (dbe_tasks _ _ He _ _ Ht) as (t' & Ht' & [Hid Ha _ Hs]). injection Hid as Hin _ _ _.
  exists t'. split_and!; [done..|]. intros Eq. destruct (Hs Eq) as [S1 S2 _ S4 S5 _ _].
  split_and!; try done; destruct S4 as [->|(-> & ? & ?)]; done || lia.
Qed.

(** C6: A stop decision ends authorization: once an Instance is stopping or
    terminal no later operation creates or registers an attempt for it, its reason
    never changes, and it can only end as the reason demands. *)
Theorem no_attempt_after_stop d d' id i :
  reachable d → steps d d' → instances d !! id = Some i → i_status i = InstanceStopping →
  (∀ tid t', tasks d' !! tid = Some t' → t_instance_id t' = id →
     ∃ t, tasks d !! tid = Some t ∧ t_attempt_no t = t_attempt_no t') ∧
  ∃ i', instances d' !! id = Some i' ∧ i_end_reason i' = i_end_reason i ∧
    (i_status i' = InstanceStopping ∨
     (i_status i' = InstanceFailed ∧ i_end_reason i = Some EndReasonInstanceTimeout) ∨
     (i_status i' = InstanceCanceled ∧ i_end_reason i = Some EndReasonManualStop)).
Proof.
  intros HI%reachable_db_inv [HI' He]%steps_evolves Hi Hs; [|done]. split.
  - intros tid t' Ht' <-. eapply dbe_authorized; [done..|]. by rewrite Hs.
  - destruct (dbe_instances _ _ He _ _ Hi) as (i' & Hi' & [_ _ _ Hn Hst _]).
    destruct (Hst Hs) as [Hr _]. exists i'. split_and!; [done|done|]. rewrite Hs in Hn.
    pose proof (iw_status _ (inv_inst _ HI' _ _ Hi')) as Hw. unfold inst_status_wf in Hw. rewrite Hr in Hw.
    pose proof (iw_status _ (inv_inst _ HI _ _ Hi)) as Hw0. unfold inst_status_wf in Hw0. rewrite Hs in Hw0.
    destruct Hw0 as (_ & r & Er & Hsr & _). rewrite Er in *.
    destruct (i_status i') eqn:Es; try done; [right; left|right; right|by left].
    + destruct Hw as (_ & _ & [E|E]); [|done]. destruct Hsr; simplify_eq.
    + by destruct Hw as [_ E].
Qed.

(** C7: Triggers are never duplicated: in a reachable database two Instances of one
    Job never share a scheduled time or a manual request identity. *)
Theorem trigger_identity_unique d id id' i i' :
  reachable d → instances d !! id = Some i → instances d !! id' = Some i' → i_job_id i = i_job_id i' →
  (∃ s, i_scheduled_at i = Some s ∧ i_scheduled_at i' = Some s) ∨
  (∃ q, i_request_id i = Some q ∧ i_request_id i' = Some q) → id = id'.
Proof.
  intros HI%reachable_db_inv Hi Hi' Hj [(s & Es & Es')|(q & Eq & Eq')].
  - eapply (inv_schedule _ HI); [done..|congruence|congruence].
  - eapply (inv_request _ HI); [done..|congruence|congruence].
Qed.
End guarantees.

(** ** Instances *)

(** The run of a dispatch from the state before it. *)
Abbreviation demo_waiting :=
  (demo_run [(create_demo_group, 100); (create_demo_job, 100);
             (OpTriggerManual demo_creator demo_input, 200)] empty_db).

Lemma demo_waiting_inv : db_inv demo_waiting.
Proof. apply reachable_db_inv, demo_reachable, empty_reachable. Qed.

(** Another node stops the round between the registration of the attempt, under the
    parent lock, and the binding of its executor. *)
Lemma commits_keep_protocol_witness :
  ∃ w r, run (OpDispatch demo_dispatcher 1) (start demo_waiting (meanwhile 11 (OpStop 1) 300)) = (w, r) ∧
    c_locks <$> w_commits w = [[InstanceRow 1]; []] ∧
    (i_status <$> instances (w_db w) !! 1) = Some InstanceStopping ∧ db_inv (w_db w).
Proof.
  eexists _, _. split; [vm_compute; reflexivity|]. split; [reflexivity|]. split; [reflexivity|].
  eapply (commits_keep_protocol (OpDispatch demo_dispatcher 1) demo_waiting (meanwhile 11 (OpStop 1) 300));
    [apply meanwhile_rely|apply demo_waiting_inv|vm_compute; reflexivity].
Defined.

Lemma references_never_dangle_witness :
  (∃ g, groups demo_running !! 1 = Some g ∧ live_group g = true) ∧ (∃ j, jobs demo_running !! 1 = Some j ∧ live_job j = true).
Proof.
  destruct (references_never_dangle demo_running demo_running_reachable) as [_ Hi].
  destruct (instances demo_running !! 1) as [i|] eqn:E; [|exfalso; vm_compute in E; discriminate E].
  assert (active (i_status i) = true ∧ i_executor_group_id i = 1 ∧ i_job_id i = 1) as (Ha & Hg & Hj)
    by (vm_compute in E; injection E as <-; done).
  specialize (Hi 1 i E Ha). by rewrite Hg, Hj in Hi.
Defined.

Lemma reachable_consistent_witness : size (tasks demo_done) = 1%nat ∧ db_inv demo_done.
Proof. split; [evaluate|]. apply reachable_consistent, demo_done_reachable. Defined.

Lemma attempt_budget_witness :
  ∃ t, tasks demo_running !! 1 = Some t ∧
    ∃ i c, instances demo_running !! t_instance_id t = Some i ∧ Scan (i_execution_config i) = Some c ∧
      0 ≤ t_used_attempts t ≤ MaxRetries c + 1 ∧ t_used_attempts t ≤ t_attempt_no t.
Proof.
  eexists. split; [evaluate|]. apply (attempt_budget demo_running 1); [apply demo_running_reachable|evaluate].
Defined.

(** After the round is done, a stop request and another report change nothing. *)
Lemma final_rows_frozen_witness :
  ∃ i t, instances demo_done !! 1 = Some i ∧ tasks demo_done !! 1 = Some t ∧
    instances (demo_run [(OpStop 1, 600); (OpSave demo_saver demo_report, 700)] demo_done) !! 1 = Some i ∧
    tasks (demo_run [(OpStop 1, 600); (OpSave demo_saver demo_report, 700)] demo_done) !! 1 = Some t.
Proof.
  eexists _, _. split; [evaluate|]. split; [evaluate|].
  destruct (final_rows_frozen demo_done _ demo_done_reachable
    (demo_run_steps [(OpStop 1, 600); (OpSave demo_saver demo_report, 700)] demo_done)) as [Ht Hi].
  split; [apply Hi; evaluate|apply Ht; evaluate].
Defined.

Lemma round_agrees_with_task_witness :
  ∃ i, instances demo_done !! 1 = Some i ∧
    ∃ tid t, tasks demo_done !! tid = Some t ∧ t_instance_id t = 1 ∧ t_status t = TaskSucceeded ∧
      t_result_summary t = i_result_summary i.
Proof.
  eexists. split; [evaluate|].
  apply (round_agrees_with_task demo_done 1); [apply demo_done_reachable|evaluate|reflexivity].
Defined.

Lemma deadline_fixed_witness :
  ∃ i, instances demo_running !! 1 = Some i ∧
    ∃ c i', Scan (i_execution_config i) = Some c ∧ 0 < TimeoutSeconds c ∧
      i_deadline_at i = Some (300 + TimeoutSeconds c * Second) ∧
      instances demo_stopping !! 1 = Some i' ∧ i_started_at i' = i_started_at i ∧
      i_deadline_at i' = i_deadline_at i ∧ i_execution_config i' = i_execution_config i.
Proof.
  eexists. split; [evaluate|].
  apply (deadline_fixed demo_running demo_stopping 1);
    [apply demo_running_reachable|apply demo_run_steps|evaluate|reflexivity].
Defined.

Lemma sent_once_witness :
  ∃ w r, run (OpDispatch demo_dispatcher 1) (start demo_waiting (calm 300)) = (w, r) ∧
    sends (w_out w) = [(1, 1, 1)] ∧
    (sends (w_out w) = [] ∨
     ∃ a d0 d1, sends (w_out w) = [send_of a] ∧ db_evolves demo_waiting d0 ∧ registered d0 a d1 ∧ db_evolves d1 (w_db w) ∧
       ∀ a' d2 d3, db_evolves d1 d2 → registered d2 a' d3 →
         (ra_TaskID a', ra_AttemptNo a') ≠ (ra_TaskID a, ra_AttemptNo a)).
Proof.
  eexists _, _. split; [vm_compute; reflexivity|]. split; [reflexivity|].
  eapply (sent_once (OpDispatch demo_dispatcher 1) demo_waiting (calm 300));
    [apply calm_rely|apply demo_waiting_inv|vm_compute; reflexivity|exact I].
Defined.

Lemma attempt_lifecycle_witness :
  ∃ t, tasks demo_running !! 1 = Some t ∧
    ∃ t', tasks demo_done !! 1 = Some t' ∧ t_instance_id t' = t_instance_id t ∧ t_attempt_no t ≤ t_attempt_no t'.
Proof.
  eexists. split; [evaluate|].
  edestruct (attempt_lifecycle demo_running demo_done 1) as (t' & Ht' & Hid & Ha & _);
    [apply demo_running_reachable|apply demo_run_steps|evaluate|].
  exists t'. split; [exact Ht'|]. split; [exact Hid|exact Ha].
Defined.

Lemma no_attempt_after_stop_witness :
  ∃ i, instances demo_stopping !! 1 = Some i ∧
    ∃ i', instances demo_canceled !! 1 = Some i' ∧ i_end_reason i' = i_end_reason i ∧
      (i_status i' = InstanceStopping ∨
       (i_status i' = InstanceFailed ∧ i_end_reason i = Some EndReasonInstanceTimeout) ∨
       (i_status i' = InstanceCanceled ∧ i_end_reason i = Some EndReasonManualStop)).
Proof.
  eexists. split; [evaluate|].
  apply (no_attempt_after_stop demo_stopping demo_canceled 1);
    [apply demo_stopping_reachable|apply demo_run_steps|evaluate|reflexivity].
Defined.

Lemma trigger_identity_unique_witness :
  ∃ i, instances demo_running !! 1 = Some i ∧ i_request_id i = Some 77 ∧ 1 = 1.
Proof.
  eexists. split; [evaluate|]. split; [reflexivity|].
  eapply (trigger_identity_unique demo_running 1 1);
    [apply demo_running_reachable|evaluate|evaluate|reflexivity|].
  right. exists 77. split; reflexivity.
Defined.
