(* ===== verification/Runs.v ===== *)
(** * Undisturbed executions

    When nothing interferes, fails or is canceled, and the database clock shows
    [t], an operation is a function of the database.  [calm_to t m d d' r o] says
    that [m] takes [d] to [d'], returns [r] and hands out [o].  The theorems about
    what operations achieve, rather than what they never do, are stated with it.  The
    second part is what an operation may commit whatever the database looks like. *)

From S2P Require Import Prelude GoLib Tx Model TaskRepo InstanceRepo System.
From S2P Require Import JobRepo Logic Protocol RepoRules.
From S2P Require Import ResultSaver Settler.

Open Scope Z_scope.

Definition calm_to {A} (t : Time) (m : M A) (d d' : DB) (r : Result A) (o : list Output) : Prop :=
  ∀ w, w_env w = calm t → w_db w = d →
  let '(w', r') := m w in w_env w' = calm t ∧ w_db w' = d' ∧ r' = r ∧ w_out w' = w_out w ++ o.

Section calm.
Context {A B : Type} (t : Time).
Implicit Types (m : M A) (k : A → M B).

Lemma calm_ret (a : A) d : calm_to t (mret a) d d (Ok a) [].
Proof. intros w He Hd. simpl. by rewrite app_nil_r. Qed.
Lemma calm_lift (r : Result A) d : calm_to t (lift r) d d r [].
Proof. intros w He Hd. simpl. by rewrite app_nil_r. Qed.
Lemma calm_fail e d : calm_to t (fail (A:=A) e) d d (Fail e) [].
Proof. intros w He Hd. simpl. by rewrite app_nil_r. Qed.
Lemma calm_emit x d : calm_to t (emit x) d d (Ok tt) [x].
Proof. intros w He Hd. done. Qed.
Lemma calm_pop d : calm_to t pop d d (Ok (quiet t)) [].
Proof. intros w He Hd. simpl. rewrite app_nil_r, He. done. Qed.

Lemma calm_bind m k d d1 d2 a r o o' :
  calm_to t m d d1 (Ok a) o → calm_to t (k a) d1 d2 r o' → calm_to t (mbind k m) d d2 r (o ++ o').
Proof.
  intros Hm Hk w He Hd. specialize (Hm w He Hd). unfold mbind, M_bind. destruct (m w) as [w1 r1].
  destruct Hm as (He1 & Hd1 & -> & Ho1). specialize (Hk w1 He1 Hd1). destruct (k a w1).
  destruct Hk as (?&?&?&Ho2). split_and!; try done. by rewrite Ho2, Ho1, app_assoc.
Qed.
Lemma calm_bind_fail m k d d1 e o :
  calm_to t m d d1 (Fail e) o → calm_to t (mbind k m) d d1 (Fail e) o.
Proof.
  intros Hm w He Hd. specialize (Hm w He Hd). unfold mbind, M_bind. destruct (m w) as [w1 r1].
  by destruct Hm as (He1 & Hd1 & -> & Ho1).
Qed.
Lemma calm_attempt m d d' r o : calm_to t m d d' r o → calm_to t (attempt m) d d' (Ok r) o.
Proof.
  intros Hm w He Hd. specialize (Hm w He Hd). unfold attempt. destruct (m w).
  destruct Hm as (?&?&->&?). done.
Qed.

Lemma calm_refresh (b : bool) (d : DB) : (if b then d else d) = d.
Proof. by destruct b. Qed.

Lemma calm_exec h (f : Event → DB → DB * Result A) d :
  calm_to t (exec h f) d (f (quiet t) d).1 (f (quiet t) d).2 [].
Proof.
  intros w He <-. unfold exec. destruct h; unfold stmt, twrite, refresh; rewrite He; simpl;
    change (calm t (w_at w)) with (quiet t : Event); simpl; rewrite ?calm_refresh;
    destruct (f (quiet t) (w_db w)) as [d' r]; simpl; by rewrite He, app_nil_r.
Qed.
Lemma calm_read held (f : Event → DB → Result A) d : calm_to t (tread held f) d d (f (quiet t) d) [].
Proof.
  intros w He <-. unfold tread, refresh. rewrite He. simpl. change (calm t (w_at w)) with (quiet t : Event). simpl.
  rewrite calm_refresh. destruct (f (quiet t) (w_db w)); simpl; by rewrite He, app_nil_r.
Qed.
Lemma calm_query h (f : Event → DB → Result A) d : calm_to t (query h f) d d (f (quiet t) d) [].
Proof. destruct h; [apply (calm_exec Auto (λ ev d, (d, f ev d)))|apply calm_read]. Qed.

Lemma calm_transact (m : M A) d d' a :
  calm_to t m d d' (Ok a) [] → calm_to t (transact m) d d' (Ok a) [].
Proof.
  intros Hm w He Hd. unfold transact. rewrite He. simpl.
  match goal with |- context [m ?w0] => specialize (Hm w0); simpl in Hm; destruct (m w0) as [w1 r1] end.
  destruct Hm as (He1 & Hd1 & -> & Ho1); [done|done|]. rewrite He1. simpl. by split_and!.
Qed.

Lemma calm_eq m d d' d2 r r2 o o2 :
  calm_to t m d d' r o → d' = d2 → r = r2 → o = o2 → calm_to t m d d2 r2 o2.
Proof. by intros ? -> -> ->. Qed.

(** The run itself, from any starting world. *)
Lemma calm_run m d d' r o :
  calm_to t m d d' r o →
  w_db (m (start d (calm t))).1 = d' ∧ (m (start d (calm t))).2 = r ∧ w_out (m (start d (calm t))).1 = o.
Proof.
  intros Hm. specialize (Hm (start d (calm t)) eq_refl eq_refl).
  destruct (m (start d (calm t))) as [w' r']. simpl in *. by destruct Hm as (_ & ? & ? & ?).
Qed.
Lemma calm_after m d d' r o : calm_to t m d d' r o → after_run m t d = d'.
Proof. intros Hm. apply (calm_run _ _ _ _ _ Hm). Qed.
Lemma calm_result m d d' r o : calm_to t m d d' r o → result_of m t d = r.
Proof. intros Hm. apply (calm_run _ _ _ _ _ Hm). Qed.
End calm.

Lemma calm_ctx_err t d : calm_to t ctx_err d d (Ok tt) [].
Proof. intros w He Hd. unfold ctx_err, pop, mbind, M_bind. simpl. rewrite He. simpl. by rewrite He, app_nil_r. Qed.

(** The same with the emptied output lists of reads and failures. *)
Lemma calm_bind0 {A B} t (m : M A) (k : A → M B) d d1 d2 a r o :
  calm_to t m d d1 (Ok a) [] → calm_to t (k a) d1 d2 r o → calm_to t (mbind k m) d d2 r o.
Proof. apply calm_bind with (o := []). Qed.

Section calm_repository.
Context `{PgLib}.

Lemma calm_LockForExecution t id d :
  calm_to t (LockForExecution InTx id) d d (Ok (execution_instance id <$> instances d !! id)) [].
Proof.
  unfold LockForExecution. eapply calm_bind0; [apply calm_attempt, calm_read|]. simpl.
  unfold lock_row. simpl. apply calm_ret.
Qed.

Lemma calm_LockForStop t id nowait d :
  0 < id → calm_to t (LockForStop InTx id nowait) d d (Ok (stopping_instance id <$> instances d !! id)) [].
Proof.
  intros Hid. unfold LockForStop. rewrite (proj2 (Z.leb_gt id 0)) by lia. simpl.
  eapply calm_bind0; [apply calm_attempt, calm_read|].
  unfold lock_row. simpl. rewrite andb_false_r. simpl. apply calm_ret.
Qed.

Lemma calm_DatabaseTime t h d : calm_to t (DatabaseTime h) d d (Ok t) [].
Proof. apply (calm_query t h (λ ev _, Ok (ev_clock ev))). Qed.
End calm_repository.

(** * Auditing the commits of an operation

    [audit env m P Q]: in the environment [env], every transaction [m] commits,
    whatever the database looks like at that moment, satisfies [P], and an answer
    of [m] satisfies [Q].  Reads commit without a change.  Unlike [wp], nothing is
    assumed about the database or the other sessions. *)

Section audit.
Context (env : nat → Event) (P : DB → DB → Prop).

Definition audit {A} (m : M A) (Q : A → Prop) : Prop :=
  ∀ w, w_env w = env →
  let '(w', r) := m w in
  w_env w' = env ∧ (∃ l, w_commits w' = w_commits w ++ l ∧ Forall (λ c, P (c_before c) (c_after c)) l) ∧ ∀ a, r = Ok a → Q a.

Lemma audit_lift {A} (r : Result A) (Q : A → Prop) : (∀ a, r = Ok a → Q a) → audit (lift r) Q.
Proof. intros HQ w He. simpl. split_and!; [done|exists []; by rewrite app_nil_r|done]. Qed.
Lemma audit_ret {A} (a : A) (Q : A → Prop) : Q a → audit (mret a) Q.
Proof. intros HQ. apply (audit_lift (Ok a)). by intros ? [= <-]. Qed.
Lemma audit_fail {A} e (Q : A → Prop) : audit (fail e) Q.
Proof. by apply (audit_lift (Fail e)). Qed.
Lemma audit_emit x (Q : unit → Prop) : Q tt → audit (emit x) Q.
Proof. intros HQ w He. simpl. split_and!; [done|exists []; by rewrite app_nil_r|by intros []]. Qed.
Lemma audit_pop (Q : Event → Prop) : (∀ n, Q (env n)) → audit pop Q.
Proof.
  intros HQ w He. simpl. split_and!; [done|exists []; by rewrite app_nil_r|]. intros a [= <-]. by rewrite He.
Qed.

Lemma audit_bind {A B} (m : M A) (k : A → M B) Q : audit m (λ a, audit (k a) Q) → audit (mbind k m) Q.
Proof.
  intros Hm w He. specialize (Hm w He). unfold mbind, M_bind. destruct (m w) as [w1 [a|e]].
  - destruct Hm as (He1 & (l & Hl & Hf) & Ha). specialize (Ha a eq_refl w1 He1). destruct (k a w1).
    destruct Ha as (He2 & (l2 & Hl2 & Hf2) & Hq). split_and!; [done| |done].
    exists (l ++ l2). rewrite Hl2, Hl, app_assoc. split; [done|by apply Forall_app].
  - destruct Hm as (?&?&_). split_and!; done.
Qed.

Lemma audit_attempt {A} (m : M A) (Q : Result A → Prop) :
  audit m (λ a, Q (Ok a)) → (∀ e, Q (Fail e)) → audit (attempt m) Q.
Proof.
  intros Hm HF w He. specialize (Hm w He). unfold attempt. destruct (m w) as [w1 [a|e]];
    destruct Hm as (?&?&Hq); (split_and!; [done|done|]); intros ? [= <-]; auto.
Qed.

Lemma audit_mono {A} (m : M A) (Q Q' : A → Prop) : audit m Q → (∀ a, Q a → Q' a) → audit m Q'.
Proof. intros Hm HQ w He. specialize (Hm w He). destruct (m w). destruct Hm as (?&?&?). split_and!; auto. Qed.

Lemma audit_stmt {A} (f : Event → DB → DB * Result A) (Q : A → Prop) :
  (∀ n d, P d (f (env n) d).1 ∧ ∀ a, (f (env n) d).2 = Ok a → Q a) → audit (stmt f) Q.
Proof.
  intros Hf w He. unfold stmt. rewrite He. simpl.
  destruct (Hf (w_at w) (ev_others (env (w_at w)) [] (w_db w))) as [HP HQ].
  destruct (f (env (w_at w)) _) as [d' r]. simpl in *.
  destruct (ev_fault (env (w_at w))) as [[[] e]|]; simpl; (split_and!; [done| |by auto || done]).
  - eexists. split; [done|]. by constructor.
  - exists []. by rewrite app_nil_r.
  - eexists. split; [done|]. by constructor.
Qed.

Lemma audit_query {A} (f : Event → DB → Result A) (Q : A → Prop) :
  (∀ d, P d d) → (∀ n d a, f (env n) d = Ok a → Q a) → audit (query Auto f) Q.
Proof. intros HP HQ. apply audit_stmt. simpl. eauto. Qed.

Lemma audit_transact {A} (body : M A) (Q : A → Prop) :
  (∀ d, @tx DB Lock Output anything A body (Clean [] d) (λ a v, P (committed v) (current v) ∧ Q a)) → audit (transact body) Q.
Proof.
  intros Hb w He. unfold transact. rewrite He. simpl.
  destruct (ev_fault (env (w_at w))) as [[b e]|]; simpl.
  { split_and!; [done|exists []; by rewrite app_nil_r|done]. }
  match goal with |- context [body ?w0] =>
    specialize (Hb _ w0 eq_refl); destruct (body w0) as [w1 r] end; simpl in *.
  destruct Hb as (He1 & Hc & _ & _ & _ & Hq); [done|done|].
  assert (committed (view w1) = settled w1) as Es by (unfold view, settled; by destruct (w_dirty w1)).
  assert (current (view w1) = w_db w1) as Ec by (unfold view; by destruct (w_dirty w1)).
  rewrite Es, Ec in Hq. destruct r as [a|e]; simpl.
  - destruct Hq as [HP HQ]. destruct (ev_fault (w_env w1 (w_at w1))) as [[[] e]|]; simpl; rewrite Hc, He1;
      (split_and!; [done| |by intros ? [= <-] || done]).
    + eexists. split; [done|]. by constructor.
    + exists []. by rewrite app_nil_r.
    + eexists. split; [done|]. by constructor.
  - rewrite Hc, He1. split_and!; [done|exists []; by rewrite app_nil_r|done].
Qed.

Lemma audit_ctx_err (Q : unit → Prop) : Q tt → audit ctx_err Q.
Proof. intros HQ. apply audit_bind, audit_pop. intros n. destruct (ev_done _); [apply audit_fail|by apply audit_ret]. Qed.

(** All the commits of a run. *)
Lemma audit_run {A} (m : M A) Q d w r :
  audit m Q → m (start d env) = (w, r) →
  (∀ c, c ∈ w_commits w → P (c_before c) (c_after c)) ∧ ∀ a, r = Ok a → Q a.
Proof.
  intros Hm E. specialize (Hm (start d env) eq_refl). rewrite E in Hm.
  destruct Hm as (_ & (l & Hl & Hf) & HQ). simpl in Hl. split; [|done].
  intros c Hin. rewrite Hl, Forall_forall in *. exact (Hf c Hin).
Qed.
End audit.

(** One structural step; statements are left. *)
Ltac audit_step :=
  lazymatch goal with
  | |- audit _ _ (mret _) _ => apply audit_ret
  | |- audit _ _ (fail _) _ => apply audit_fail
  | |- audit _ _ (lift _) _ => apply audit_lift; intros ? ?
  | |- audit _ _ (mbind _ _) _ => apply audit_bind
  | |- audit _ _ (emit _) _ => apply audit_emit
  | |- audit _ _ ctx_err _ => apply audit_ctx_err
  | |- audit _ _ (match ?x with _ => _ end) _ => let E := fresh "E" in destruct x eqn:E
  end.

(** ** Reports close the attempt they belong to *)

Section saving.
Context `{UuidLib, PgLib}.

(** The change a report makes: its own attempt, still running and not bound to
    another executor, gets the row of the write. *)
Definition saves (report : Report) (d d' : DB) : Prop :=
  d' = d ∨
  ∃ t identity write now, tasks d !! rp_TaskID report = Some t ∧ t_instance_id t = rp_InstanceID report ∧
    t_attempt_no t = rp_AttemptNo report ∧ t_status t = TaskRunning ∧
    report_identity report = Some identity ∧
    (t_executor_instance_id t = None ∨ t_executor_instance_id t = Some identity) ∧
    rw_Summary write = rp_Summary report ∧
    (rw_Status write = TaskSucceeded ↔ rp_Outcome report = OutcomeSuccess) ∧
    d' = set_task (rp_TaskID report) (result_row write now t) d.

Lemma resultWrite_spec target report identity write :
  resultWrite target report identity = Ok write →
  rw_TaskID write = rp_TaskID report ∧ rw_InstanceID write = rp_InstanceID report ∧
  rw_AttemptNo write = rp_AttemptNo report ∧ rw_ExecutorInstanceID write = identity ∧
  rw_Summary write = rp_Summary report ∧ (rw_Status write = TaskSucceeded ↔ rp_Outcome report = OutcomeSuccess).
Proof.
  unfold resultWrite. destruct (decode_frozen _); [|done].
  match goal with |- (if ?b then _ else _) = _ → _ => destruct b; [done|] end.
  destruct (bool_decide (rp_Outcome report = OutcomeSuccess)) eqn:E; to_prop; [by intros [= <-]|].
  destruct (retry_settings _) as [[mr iv]|]; [|done].
  destruct (_ <=? _); [done|]. destruct (_ <? _); intros [= <-]; simpl; split_and!; try done.
Qed.

Lemma audit_save_failure env report e :
  audit env (saves report) (save_failure report e) (λ _, True).
Proof.
  unfold save_failure, CheckResultData, discardResult. audit_step. apply audit_attempt; [apply audit_ctx_err|intros].
  all: repeat (audit_step; try done).
  all: apply audit_attempt; [|intros; repeat audit_step].
  all: apply audit_query; [by left|]. all: intros; repeat (audit_step; try done).
Qed.

Lemma audit_SaveResult env report write identity :
  report_identity report = Some identity →
  rw_TaskID write = rp_TaskID report → rw_InstanceID write = rp_InstanceID report →
  rw_AttemptNo write = rp_AttemptNo report → rw_ExecutorInstanceID write = identity →
  rw_Summary write = rp_Summary report → (rw_Status write = TaskSucceeded ↔ rp_Outcome report = OutcomeSuccess) →
  audit env (saves report) (SaveResult Auto write) (λ _, True).
Proof.
  intros Hid Et Ei Ea Eu Es Eo. unfold SaveResult. audit_step; [apply audit_fail|]. audit_step; [apply audit_fail|].
  apply audit_stmt. intros n d. split; [|done].
  destruct (result_data_error write); [by left|]. destruct (negb (pg_text _)); [by left|].
  unfold update_task. rewrite Et. destruct (tasks d !! rp_TaskID report) as [t|] eqn:Ht; [|by left].
  destruct (result_guard write t) eqn:Hg; [|by left]. simpl. right.
  unfold result_guard, attempt_matches in Hg. rewrite Ei, Ea, Eu in Hg. to_prop.
  exists t, identity, write, (ev_clock (env n)). split_and!; try done.
  destruct (t_executor_instance_id t); [right|by left]. by to_prop; subst.
Qed.

Lemma audit_Save env s report : audit env (saves report) (Save s report) (λ _, True).
Proof.
  unfold Save. audit_step. apply audit_ctx_err. destruct (valid_report report) as [identity|] eqn:Hv; [|by apply audit_ret].
  assert (report_identity report = Some identity) as Hid.
  { unfold valid_report in Hv. by match type of Hv with (if ?b then _ else _) = _ => destruct b end. }
  audit_step. unfold FindResultTarget. audit_step; [apply audit_fail|]. apply audit_query; [by left|].
  intros n d target _. destruct target as [target|]; [|by apply audit_ret].
  unfold save_target, finished, discardResult. repeat (audit_step; try done).
  destruct (resultWrite_spec _ _ _ _ H1) as (?&?&?&?&?&?).
  unfold save_write. audit_step. apply audit_attempt; [|intros; apply audit_save_failure].
  eapply audit_mono; [by eapply audit_SaveResult|]. intros applied _. unfold finished. repeat (audit_step; try done).
Qed.
End saving.

(** ** Settlement waits for the observation period *)

Section settling.
Context `{UuidLib, PgLib}.

(** An unbound running attempt of a candidate, registered at least the observation
    period before a database time the batch read, is closed as unknown. *)
Definition settles (env : nat → Event) (period : Duration) (candidates : list UnboundCandidate) (d d' : DB) : Prop :=
  d' = d ∨
  ∃ c t n registeredAt write, c ∈ candidates ∧ tasks d !! uc_TaskID c = Some t ∧
    t_attempt_no t = uc_AttemptNo c ∧ t_status t = TaskRunning ∧
    t_executor_instance_id t = None ∧ t_executor_address t = None ∧
    t_attempt_registered_at t = Some registeredAt ∧ registeredAt + period ≤ ev_clock (env n) ∧
    us_ProcessedAt write = ev_clock (env n) ∧ ev_clock (env n) < us_RetryAt write ∧
    d' = set_task (uc_TaskID c) (settle_row write t) d.

Lemma prepare_write env P s c target now Q :
  (∀ w, us_TaskID w = uc_TaskID c → us_ExpectedAttemptNo w = uc_AttemptNo c → us_ProcessedAt w = now →
     us_ObservationCutoff w = now - se_observationPeriod s → Q (Some w)) →
  Q None → audit env P (prepare s c target now) Q.
Proof.
  intros HQ HN. unfold prepare, prepare_parent, hintInstance.
  repeat (audit_step; try done). destruct a as [[]|]; [by apply HQ|done].
Qed.

Lemma audit_SettleOrdinaryUnknown env s cs c n w :
  c ∈ cs → us_TaskID w = uc_TaskID c → us_ExpectedAttemptNo w = uc_AttemptNo c → us_ProcessedAt w = ev_clock (env n) →
  us_ObservationCutoff w = ev_clock (env n) - se_observationPeriod s →
  audit env (settles env (se_observationPeriod s) cs) (SettleOrdinaryUnknown Auto w) (λ _, True).
Proof.
  intros Hc Et Ea Ep Eo. unfold SettleOrdinaryUnknown. audit_step; [apply audit_fail|]. audit_step; [done|].
  apply audit_transact. intros d0. apply tx_bind, tx_exec. intros ev v row (d & -> & _) _. simpl.
  match goal with |- context [update_task ?id ?G ?u d] =>
    assert (settles env (se_observationPeriod s) cs d (update_task id G u d).1) as Hset end.
  { unfold update_task. rewrite Et. destruct (tasks d !! uc_TaskID c) as [t|] eqn:Ht; [|by left].
    match goal with |- context [if ?b then _ else _] => destruct b eqn:Hg end; [|by left].
    simpl. right. unfold is_after in *. to_prop. rewrite Ea in *. rewrite Eo in *. rewrite Ep in *.
    destruct (t_attempt_registered_at t) as [at_|] eqn:Er; [|done]. to_prop.
    exists c, t, n, at_, w. split_and!; try done; lia. }
  destruct (update_task _ _ _ _) as [d' k]. simpl in *. destruct row as [t|]; [|by apply tx_ret].
  guard as E2; [apply tx_fail|by apply tx_ret].
Qed.

Lemma audit_settle_loop env s all m n cs r :
  (∀ c, c ∈ cs → c ∈ all) →
  audit env (settles env (se_observationPeriod s) all) (settle_loop s m (ev_clock (env n)) cs r) (λ _, True).
Proof.
  revert r. induction cs as [|c cs IH]; intros r Hsub; simpl; [by apply audit_ret|].
  assert (∀ r, audit env (settles env (se_observationPeriod s) all) (settle_loop s m (ev_clock (env n)) cs r) (λ _, True))
    as Hrest by (intros; apply IH; set_solver).
  audit_step. apply audit_attempt; [apply audit_ctx_err|intros; by apply audit_ret].
  destruct (m !! uc_TaskID c) as [target|]; [|done].
  audit_step. apply audit_attempt; [|intros; by apply audit_ret]. apply prepare_write; [|done].
  intros w Et Ea Ep Eo. audit_step. apply audit_attempt; [apply audit_ctx_err|intros; by apply audit_ret].
  audit_step. unfold settle_one, hintInstance. audit_step. apply audit_attempt.
  2:{ intros e. audit_step. apply audit_attempt; [apply audit_ctx_err|intros]; repeat (audit_step; try done). }
  eapply audit_mono; [apply (audit_SettleOrdinaryUnknown env s all c n); [set_solver|done..]|].
  intros st _. audit_step. apply audit_attempt; [apply audit_ctx_err|intros]; repeat (audit_step; try done).
Qed.

Lemma audit_SettleBatch env s cs :
  audit env (settles env (se_observationPeriod s) cs) (SettleBatch s cs) (λ _, True).
Proof.
  unfold SettleBatch. repeat (audit_step; try done). apply audit_attempt; [|intros; by apply audit_ret].
  unfold settle_reads, operation. audit_step. apply audit_ctx_err. audit_step. audit_step.
  apply audit_query; [by left|]. intros n d now [= <-]. audit_step. apply audit_ctx_err, audit_ret.
  audit_step; [apply audit_fail|]. audit_step. audit_step.
  unfold FindUnboundTargets. audit_step; [apply audit_fail|]. audit_step; [apply audit_fail|].
  assert (∀ targets, audit env (settles env (se_observationPeriod s) cs)
    (ctx_err;; mret targets) (λ targets, audit env (settles env (se_observationPeriod s) cs)
       match index_targets (uc_TaskID <$> cs) targets ∅ with
       | Some byID => mret (ev_clock (env n), byID)
       | None => fail [ErrInvalidFacts]
       end (λ a, audit env (settles env (se_observationPeriod s) cs)
          (let '(processedAt, byID) := a in settle_loop s byID processedAt cs empty_batch) (λ _, True)))) as Hk.
  { intros targets. audit_step. apply audit_ctx_err, audit_ret.
    destruct (index_targets _ _ _); [|apply audit_fail]. apply audit_ret. by apply audit_settle_loop. }
  audit_step; [by apply audit_ret, Hk|]. apply audit_query; [by left|]. intros; apply Hk.
Qed.
End settling.
