(* ===== verification/Snapshot.v ===== *)
(** * The execution snapshot and its decoders

    The snapshot is written once by [ExecutionConfig.Value] and read by five
    decoders, each of which looks at the members it needs.  They agree. *)

From S2P Require Import Prelude GoLib Tx Model TaskRepo Dispatcher ResultSaver Settler StopController Checker.
From S2P Require Import Registration.

Open Scope Z_scope.

(** The Go types of the members. *)
Definition config_ranged (c : ExecutionConfig) : bool :=
  in_int32 (SchemaVersion c) && in_int16 (ExecutionMode_code (Mode c)) && in_int32 (MaxRetries c) &&
  in_int32 (RetryIntervalSeconds c) && in_int32 (TimeoutSeconds c).

Lemma config_ranged_spec c : config_ranged c = true →
  in_int32 (SchemaVersion c) = true ∧ in_int16 (ExecutionMode_code (Mode c)) = true ∧ in_int32 (MaxRetries c) = true ∧
  in_int32 (RetryIntervalSeconds c) = true ∧ in_int32 (TimeoutSeconds c) = true.
Proof. unfold config_ranged. rewrite !andb_true_iff. tauto. Qed.

(** Look every member of a literal object up, leaving the range checks. *)
Ltac read_members :=
  simpl members; cbv beta iota; unfold mbind, option_bind; jget_simpl; simpl; unfold as_int32, as_int16, as_int.

Definition canonical_mode (c : ExecutionConfig) : Prop := ExecutionMode_of (ExecutionMode_code (Mode c)) = Mode c.

Lemma Scan_Value_eq c :
  Scan (Value c) = if config_ranged c then Some { c with Mode := ExecutionMode_of (ExecutionMode_code (Mode c)) } else None.
Proof.
  unfold Scan, Value, config_ranged. read_members.
  destruct (in_int32 (SchemaVersion c)), (in_int16 (ExecutionMode_code (Mode c))), (in_int32 (MaxRetries c)),
    (in_int32 (RetryIntervalSeconds c)), (in_int32 (TimeoutSeconds c)); reflexivity.
Qed.

(** A snapshot survives storage: decoding the stored form of a configuration
    whose numbers fit their Go types returns that very configuration. *)
Theorem Scan_Value_roundtrip c :
  config_ranged c = true → canonical_mode c → Scan (Value c) = Some c.
Proof. intros Hr Hm. rewrite Scan_Value_eq, Hr, Hm. by destruct c. Qed.

Definition demo_config : ExecutionConfig :=
  {| SchemaVersion := 1; ProcessorName := "copy"; Mode := ExecutionModeNormal; PostEnabled := false; Params := "{}";
     MaxRetries := MaxInt32; RetryIntervalSeconds := 30; TimeoutSeconds := 3600 |}.

Lemma Scan_Value_roundtrip_witness : Scan (Value demo_config) = Some demo_config.
Proof. apply Scan_Value_roundtrip; reflexivity. Defined.

Lemma Scan_Value_members c c' :
  Scan (Value c') = Some c →
  config_ranged c' = true ∧ SchemaVersion c = SchemaVersion c' ∧ Mode c = ExecutionMode_of (ExecutionMode_code (Mode c')) ∧
  PostEnabled c = PostEnabled c' ∧ MaxRetries c = MaxRetries c' ∧ RetryIntervalSeconds c = RetryIntervalSeconds c'.
Proof. rewrite Scan_Value_eq. destruct (config_ranged c'); [|done]. intros [= <-]. done. Qed.

(** Completion reads an ordinary snapshot as ordinary. *)
Lemma ordinary_config_Value c c' :
  Scan (Value c') = Some c → SchemaVersion c = 1 → Mode c = ExecutionModeNormal → PostEnabled c = false →
  ordinary_config (Value c') = Ok true.
Proof.
  intros Hs Hv Hm Hp. destruct (Scan_Value_members _ _ Hs) as (Hr & Ev & Em & Ep & _).
  apply config_ranged_spec in Hr as (Hv1 & Hm1 & _). unfold ordinary_config, decode_completion, Value. read_members.
  rewrite Hv1, Hm1. cbn. by rewrite <-Ev, <-Em, <-Ep, Hv, Hm, Hp.
Qed.

Lemma retry_settings_Value c c' fc :
  Scan (Value c') = Some c → 0 ≤ MaxRetries c → 0 < RetryIntervalSeconds c →
  fc_MaxRetries fc = Some (JInt (MaxRetries c')) → fc_RetryInterval fc = Some (JInt (RetryIntervalSeconds c')) →
  retry_settings fc = Some (MaxRetries c, RetryIntervalSeconds c).
Proof.
  intros Hs Hm Hi E1 E2. destruct (Scan_Value_members _ _ Hs) as (Hr & _ & _ & _ & Em & Ei).
  apply config_ranged_spec in Hr as (_ & _ & Hm1 & Hi1 & _). unfold retry_settings. rewrite E1, E2. read_members.
  rewrite Hm1, Hi1. cbn.
  rewrite <-Em, <-Ei. rewrite (proj2 (Z.ltb_ge _ 0)), (proj2 (Z.leb_gt _ 0)) by lia. done.
Qed.

(** The closing decoder of results and settlement reads the same settings from
    the snapshot and from its projection. *)
Lemma decode_frozen_Value c c' j :
  decodeConfig (Value c') = Ok c → sharded c = false → j = Value c' ∨ j = project_config (Value c') →
  ∃ fc, decode_frozen j = Some fc ∧ fc_SchemaVersion fc = 1 ∧ fc_Mode fc = ExecutionModeNormal ∧
    retry_settings fc = Some (MaxRetries c, RetryIntervalSeconds c).
Proof.
  intros Hd Hsh Hj. destruct (decodeConfig_ordinary _ _ Hd Hsh) as (Hs & Hv & Hm & Hp & Hr & Hi & _).
  destruct (Scan_Value_members _ _ Hs) as (Hrg & Ev & Em & _).
  apply config_ranged_spec in Hrg as (Hv1 & Hm1 & _). eexists. split.
  - destruct Hj as [-> | ->]; unfold decode_frozen, project_config, project_member, Value; simpl fmap; read_members;
      rewrite Hv1, Hm1; reflexivity.
  - cbn. split_and!; [congruence|congruence|]. by eapply retry_settings_Value.
Qed.

(** All components act on the same frozen settings.  If registration accepts a
    stored snapshot as an ordinary one, then completion takes it as ordinary,
    settlement computes the same attempt budget and retry interval from its
    projection, and saving a result uses the same two retry settings. *)
Theorem decoders_agree c c' :
  decodeConfig (Value c') = Ok c → sharded c = false →
  ordinary_config (Value c') = Ok true ∧
  frozenBudget (project_config (Value c')) = Ok (Some (MaxRetries c + 1, RetryIntervalSeconds c * Second)) ∧
  ∃ fc, decode_frozen (Value c') = Some fc ∧ fc_SchemaVersion fc = 1 ∧ fc_Mode fc = ExecutionModeNormal ∧
    retry_settings fc = Some (MaxRetries c, RetryIntervalSeconds c).
Proof.
  intros Hd Hsh. destruct (decodeConfig_ordinary _ _ Hd Hsh) as (Hs & Hv & Hm & Hp & _).
  split_and!; [by eapply ordinary_config_Value| |by eapply decode_frozen_Value; [..|left]].
  destruct (decode_frozen_Value c c' (project_config (Value c')) Hd Hsh) as (fc & Hfd & Hfs & Hfm & Hfr); [by right|].
  unfold frozenBudget. by rewrite Hfd, Hfs, Hfm, Hfr.
Qed.

Lemma decoders_agree_witness :
  decodeConfig (Value demo_config) = Ok demo_config ∧
  frozenBudget (project_config (Value demo_config)) = Ok (Some (2147483648, 30 * Second)).
Proof.
  split; [reflexivity|].
  destruct (decoders_agree demo_config demo_config) as (_ & Hb & _); [reflexivity|reflexivity|]. exact Hb.
Defined.
