(* ===== verification/Responses.v ===== *)
(** * Admission evidence and reports in undisturbed runs

    What the conditional writes that close an attempt do to its row, and that
    delivering the same evidence again changes nothing. *)

From S2P Require Import Prelude GoLib Tx Model TaskRepo InstanceRepo JobRepo Dispatcher ResultSaver.
From S2P Require Import Settler StopController Checker Logic Protocol Transitions RepoRules Registration System.
From S2P Require Import Trigger Runs Snapshot.

Open Scope Z_scope.

Section responses.
Context `{UuidLib, PgLib}.

Lemma calm_dispatch_write {A} t (m : M A) d d' a :
  calm_to t m d d' (Ok a) [] → calm_to t (dispatch_write m) d d' (Ok a) [].
Proof. intros Hm. unfold dispatch_write. eapply calm_bind0; [by apply calm_attempt|]. apply calm_ret. Qed.

(** One statement of the form [UPDATE job_task ... WHERE id = ? AND guard]. *)
Lemma calm_update_task now id (P : JobTask → bool) (upd : Time → JobTask → JobTask) d :
  calm_to now (exec Auto (λ ev d, let '(d', n) := update_task id P (upd (ev_clock ev)) d in (d', Ok (n =? 1)))) d
    (update_task id P (upd now) d).1 (Ok ((update_task id P (upd now) d).2 =? 1)) [].
Proof.
  eapply calm_eq; [apply (calm_exec now Auto)|..]; simpl; try done; by destruct (update_task _ _ _ _).
Qed.

Lemma update_task_hit id P upd d t :
  tasks d !! id = Some t → P t = true → update_task id P upd d = (set_task id (upd t) d, 1).
Proof. intros Ht HP. unfold update_task. by rewrite Ht, HP. Qed.

Lemma update_task_miss id P upd d t :
  tasks d !! id = Some t → P t = false → update_task id P upd d = (d, 0).
Proof. intros Ht HP. unfold update_task. by rewrite Ht, HP. Qed.

Lemma calm_SaveDispatchBusy now w d t :
  0 < bw_TaskID w → 0 < bw_InstanceID w → 0 < bw_AttemptNo w → 0 < bw_Delay w → tasks d !! bw_TaskID w = Some t →
  let hit := response_guard (bw_InstanceID w) (bw_AttemptNo w) t in
  calm_to now (SaveDispatchBusy Auto w) d (if hit then set_task (bw_TaskID w) (busy_row w now t) d else d) (Ok hit) [].
Proof.
  intros H1 H2 H3 H4 Ht hit. unfold SaveDispatchBusy. rewrite !(proj2 (Z.leb_gt _ 0)) by done. simpl orb. cbv iota.
  simpl inTransaction. cbv iota. apply calm_dispatch_write.
  eapply calm_eq; [apply (calm_update_task now _ _ (busy_row w))|..]; try done; subst hit;
    destruct (response_guard _ _ t) eqn:E;
    (rewrite (update_task_hit _ _ _ d t) by done) || (rewrite (update_task_miss _ _ _ d t) by done); done.
Qed.

(** A BUSY answer gives the opportunity back exactly once.  For an unbound
    running attempt the write makes the Task wait for the jittered delay with one
    used attempt less, and repeating the write, as after a lost confirmation,
    reports no match and changes nothing. *)
Theorem busy_refunds_once now now' w d t :
  0 < bw_TaskID w → 0 < bw_InstanceID w → 0 < bw_AttemptNo w → 0 < bw_Delay w → tasks d !! bw_TaskID w = Some t →
  response_guard (bw_InstanceID w) (bw_AttemptNo w) t = true →
  let d' := after_run (SaveDispatchBusy Auto w) now d in
  result_of (SaveDispatchBusy Auto w) now d = Ok true ∧
  (∃ t', tasks d' !! bw_TaskID w = Some t' ∧ t_status t' = TaskRetryWaiting ∧
     t_used_attempts t' = t_used_attempts t - 1 ∧ t_attempt_no t' = t_attempt_no t ∧
     t_next_dispatch_at t' = Some (now + interval_of_seconds (bw_Delay w))) ∧
  result_of (SaveDispatchBusy Auto w) now' d' = Ok false ∧ after_run (SaveDispatchBusy Auto w) now' d' = d'.
Proof.
  intros H1 H2 H3 H4 Ht Hg d'.
  destruct (calm_run _ _ _ _ _ _ (calm_SaveDispatchBusy now w d t H1 H2 H3 H4 Ht)) as (Hd & Hr & _). rewrite Hg in *.
  assert (d' = set_task (bw_TaskID w) (busy_row w now t) d) as -> by exact Hd.
  pose proof (calm_SaveDispatchBusy now' w (set_task (bw_TaskID w) (busy_row w now t) d) (busy_row w now t)
    H1 H2 H3 H4 (lookup_insert_eq _ _ _)) as Hc. simpl in Hc.
  assert (response_guard (bw_InstanceID w) (bw_AttemptNo w) (busy_row w now t) = false) as Hn.
  { unfold response_guard, attempt_matches. simpl. by rewrite !andb_false_r. }
  rewrite Hn in Hc. destruct (calm_run _ _ _ _ _ _ Hc) as (Hd' & Hr' & _).
  split_and!; try done. eexists. split; [apply lookup_insert_eq|]. done.
Qed.

(** ** Reports *)

(** What a report asks for under the frozen settings [c]: a failure is retried
    while the budget lasts. *)
Definition decided_write (c : ExecutionConfig) (report : Report) (identity used : Z) : TaskResultWrite :=
  if bool_decide (rp_Outcome report = OutcomeSuccess) then result_write report identity TaskSucceeded (rp_Data report) 0
  else if used <? MaxRetries c + 1 then result_write report identity TaskRetryWaiting None (RetryIntervalSeconds c)
  else result_write report identity TaskFailed None 0.

Record report_applies (d : DB) (report : Report) (identity : Z) (t : JobTask) (i : JobInstance) : Prop := {
  ra_valid : valid_report report = Some identity;
  ra_task : tasks d !! rp_TaskID report = Some t;
  ra_parent : instances d !! rp_InstanceID report = Some i;
  ra_owner : t_instance_id t = rp_InstanceID report ∧ i_job_id i = rp_JobID report ∧
             i_executor_group_id i = rp_GroupID report;
  ra_attempt : t_attempt_no t = rp_AttemptNo report ∧ t_status t = TaskRunning;
  ra_executor : t_executor_instance_id t = None ∨ t_executor_instance_id t = Some identity;
  ra_output : valid_output report = true;
  ra_jsonb : ∀ data, rp_Data report = Some data → jsonb_error data = None;
}.

Definition report_target (report : Report) (t : JobTask) (i : JobInstance) : TaskResultTarget :=
  {| rt_TaskID := rp_TaskID report; rt_InstanceID := t_instance_id t; rt_JobID := i_job_id i;
     rt_ExecutorGroupID := i_executor_group_id i; rt_AttemptNo := t_attempt_no t; rt_TaskType := t_task_type t;
     rt_Status := t_status t; rt_UsedAttempts := t_used_attempts t;
     rt_ExecutorInstanceID := t_executor_instance_id t; rt_ExecutionConfig := i_execution_config i |}.

Lemma valid_report_spec report identity :
  valid_report report = Some identity →
  0 < rp_InstanceID report ∧ 0 < rp_TaskID report ∧ 0 < rp_AttemptNo report ∧ valid_executor_uuid identity = true ∧
  (rp_Outcome report = OutcomeSuccess ∨ rp_Outcome report = OutcomeFailure).
Proof.
  unfold valid_report, report_identity. intros Hv.
  match type of Hv with (if ?b then _ else _) = _ => destruct b eqn:E; [done|] end.
  destruct (ParseUUID _) as [u|]; simpl in Hv; [|done].
  match type of Hv with (if ?b then _ else _) = _ => destruct b eqn:E2; [|done] end. injection Hv as <-.
  to_cases; split_and!; auto.
Qed.

(** Reading the target and passing every check leaves the decision and the write. *)
Lemma calm_Save_target s now d report identity t i d' r o :
  valid_report report = Some identity → tasks d !! rp_TaskID report = Some t → instances d !! t_instance_id t = Some i →
  calm_to now (save_target s report identity (report_target report t i)) d d' r o →
  calm_to now (Save s report) d d' r o.
Proof.
  intros Hv Ht Hi Hk. destruct (valid_report_spec _ _ Hv) as (_ & Htid & _).
  unfold Save. eapply calm_bind0; [apply calm_ctx_err|]. rewrite Hv.
  apply (calm_bind0 _ _ _ _ d _ (Some (report_target report t i))); [|exact Hk].
  unfold FindResultTarget. rewrite (proj2 (Z.leb_gt _ 0)) by lia.
  eapply calm_eq; [apply calm_query|done| |done]. simpl. rewrite Ht. simpl. by rewrite Hi.
Qed.

Lemma calm_finished s now id applied reason d :
  calm_to now (finished s id applied reason) d d (Ok {| sr_Applied := applied; sr_Reason := reason |})
    (if sv_hint s then [Hinted id] else []).
Proof.
  unfold finished. destruct (sv_hint s).
  - eapply (calm_bind _ _ _ _ _ _ _ _ [Hinted id] []); [apply calm_emit|apply calm_ret].
  - eapply calm_bind0; [apply calm_ret|apply calm_ret].
Qed.

Lemma resultWrite_decided report t i identity c c' :
  i_execution_config i = Value c' → decodeConfig (Value c') = Ok c → sharded c = false → 0 < t_used_attempts t →
  resultWrite (report_target report t i) report identity = Ok (decided_write c report identity (t_used_attempts t)).
Proof.
  intros Hc Hd Hsh Hu. destruct (decode_frozen_Value c c' (Value c') Hd Hsh) as (fc & Hfd & Hfs & Hfm & Hfr); [by left|].
  unfold resultWrite, report_target, decided_write. simpl. rewrite Hc, Hfd, Hfs, Hfm, Hfr. simpl.
  rewrite (proj2 (Z.leb_gt _ 0)) by done. destruct (bool_decide _); [done|]. by destruct (_ <? _).
Qed.

Lemma decided_write_spec c report identity used :
  let w := decided_write c report identity used in
  rw_TaskID w = rp_TaskID report ∧ rw_InstanceID w = rp_InstanceID report ∧ rw_AttemptNo w = rp_AttemptNo report ∧
  rw_ExecutorInstanceID w = identity ∧ rw_Summary w = rp_Summary report.
Proof. unfold decided_write. destruct (bool_decide _); [done|]. by destruct (_ <? _). Qed.

Lemma valid_output_spec report :
  valid_output report = true →
  pg_text (rp_Summary report) = true ∧
  (rp_Outcome report = OutcomeSuccess → ∀ data, rp_Data report = Some data → JsonValid data = true).
Proof.
  unfold valid_output, pg_text. intros [Hs Ho]%andb_true_iff. split; [done|]. intros E data Ed.
  rewrite bool_decide_eq_true_2, Ed in Ho by done. simpl in Ho. by to_prop.
Qed.

Lemma decided_write_data c report identity used :
  valid_output report = true → (∀ data, rp_Data report = Some data → jsonb_error data = None) →
  result_data_error (decided_write c report identity used) = None.
Proof.
  intros [_ Hv]%valid_output_spec Hj. unfold result_data_error, decided_write.
  case_bool_decide as Ho; [|by destruct (_ <? _)]. simpl.
  destruct (rp_Data report) as [data|]; [|done]. by rewrite (Hv Ho data), (Hj data).
Qed.

Lemma decided_write_status c report identity used :
  0 < RetryIntervalSeconds c →
  let w := decided_write c report identity used in
  negb (bool_decide (rw_Status w = TaskSucceeded) || bool_decide (rw_Status w = TaskRetryWaiting) ||
        bool_decide (rw_Status w = TaskFailed)) = false ∧
  bool_decide (rw_Status w = TaskRetryWaiting) && (rw_RetryIntervalSeconds w <=? 0) = false.
Proof.
  intros Hri. unfold decided_write. destruct (bool_decide (rp_Outcome report = _)); [done|].
  destruct (_ <? _); [|done]. simpl. by rewrite (proj2 (Z.leb_gt _ 0)).
Qed.

Lemma calm_SaveResult now d report identity t i c :
  report_applies d report identity t i → 0 < RetryIntervalSeconds c →
  let w := decided_write c report identity (t_used_attempts t) in
  calm_to now (SaveResult Auto w) d (set_task (rp_TaskID report) (result_row w now t) d) (Ok true) [].
Proof.
  intros [Hv Ht _ (Ho & _) (Ha & Hs) Hx Hout Hj] Hri w.
  destruct (valid_report_spec _ _ Hv) as (H1 & H2 & H3 & H4 & _).
  destruct (decided_write_spec c report identity (t_used_attempts t)) as (E1 & E2 & E3 & E4 & E5).
  destruct (decided_write_status c report identity (t_used_attempts t) Hri) as [E6 E7].
  pose proof (decided_write_data c report identity (t_used_attempts t) Hout Hj) as E8.
  destruct (valid_output_spec _ Hout) as [E9 _]. fold w in E1, E2, E3, E4, E5, E6, E7, E8.
  assert (result_guard w t = true) as Hg.
  { unfold result_guard, attempt_matches. rewrite E2, E3, E4, Ho, Ha, Hs, !Z.eqb_refl. simpl.
    destruct Hx as [-> | ->]; [done|apply Z.eqb_refl]. }
  unfold SaveResult. rewrite E1, E2, E3, E4, E6, E7, H4, !(proj2 (Z.leb_gt _ 0)) by done. simpl orb. cbv iota. simpl inTransaction.
  cbv iota. eapply calm_eq; [apply (calm_exec now Auto)|..]; try done; cbv beta; rewrite E8, E5, E9; simpl negb; cbv iota;
    by rewrite (update_task_hit _ _ _ d t).
Qed.

Lemma calm_save_target s now d report identity t i c c' :
  report_applies d report identity t i → task_wf t → i_execution_config i = Value c' →
  decodeConfig (Value c') = Ok c → sharded c = false →
  calm_to now (save_target s report identity (report_target report t i)) d
    (set_task (rp_TaskID report) (result_row (decided_write c report identity (t_used_attempts t)) now t) d)
    (Ok {| sr_Applied := true; sr_Reason := "saved" |}) (if sv_hint s then [Hinted (rp_InstanceID report)] else []).
Proof.
  intros Hra Hw Hc Hd Hsh. pose proof Hra as [_ _ _ (Ho & Hj & Hg) (Ha & Hs) Hx Hout _].
  destruct (decodeConfig_ordinary _ _ Hd Hsh) as (_ & _ & _ & _ & _ & Hri & _).
  pose proof (tw_status _ Hw) as Hst. unfold task_status_wf in Hst. rewrite Hs in Hst.
  set (target := report_target report t i). unfold save_target.
  replace (negb (rt_TaskID target =? rp_TaskID report) || negb (rt_InstanceID target =? rp_InstanceID report) ||
    negb (rt_JobID target =? rp_JobID report) || negb (rt_ExecutorGroupID target =? rp_GroupID report)) with false
    by (simpl; by rewrite Ho, Hj, Hg, !Z.eqb_refl).
  replace (negb (rt_AttemptNo target =? rp_AttemptNo report)) with false by (simpl; by rewrite Ha, Z.eqb_refl).
  replace (rt_Status target) with TaskRunning by done. cbv iota.
  replace (match rt_ExecutorInstanceID target with Some u => negb (u =? identity) | None => false end) with false
    by (simpl; destruct Hx as [-> | ->]; [done|by rewrite Z.eqb_refl]).
  replace (negb (bool_decide (rt_TaskType target = TaskTypeOrdinary))) with false by (simpl; by rewrite (tw_type _ Hw)).
  rewrite Hout. simpl negb. cbv iota. unfold target. rewrite (resultWrite_decided report t i identity c c') by (done || lia).
  eapply calm_bind0; [apply calm_lift|]. unfold save_write.
  eapply calm_bind0; [by eapply calm_attempt, calm_SaveResult|]. cbv iota. simpl rt_InstanceID. rewrite Ho. apply calm_finished.
Qed.

(** A report for a Task that has left its running state. *)
Lemma calm_Save_closed s now d report identity t i :
  valid_report report = Some identity → tasks d !! rp_TaskID report = Some t → instances d !! rp_InstanceID report = Some i →
  t_instance_id t = rp_InstanceID report → i_job_id i = rp_JobID report → i_executor_group_id i = rp_GroupID report →
  t_attempt_no t = rp_AttemptNo report →
  t_status t = TaskRetryWaiting ∨ t_status t = TaskSucceeded ∨ t_status t = TaskFailed →
  calm_to now (Save s report) d d (Ok {| sr_Applied := false; sr_Reason := "task_closed" |})
    (if sv_hint s then [Hinted (rp_InstanceID report)] else []).
Proof.
  intros Hv Ht Hi Ho Hj Hg Ha Hs. eapply calm_Save_target; [done|done|by rewrite Ho|]. unfold save_target. simpl.
  rewrite Ho, Hj, Hg, Ha, !Z.eqb_refl. simpl. destruct Hs as [-> | [-> | ->]]; apply calm_finished.
Qed.

Lemma decided_row_closed c report identity now t :
  let t' := result_row (decided_write c report identity (t_used_attempts t)) now t in
  t_instance_id t' = t_instance_id t ∧ t_attempt_no t' = t_attempt_no t ∧
  (t_status t' = TaskRetryWaiting ∨ t_status t' = TaskSucceeded ∨ t_status t' = TaskFailed).
Proof.
  unfold decided_write. destruct (bool_decide _); [by split_and!; auto|]. destruct (_ <? _); by split_and!; auto.
Qed.

(** A report closes its attempt as the frozen budget decides.  For a running
    attempt the report names, an undisturbed save answers saved, asks for a check,
    and gives the Task the row of the report: success, a retry while attempts are
    left, or failure.  Delivering the report again is answered as closed and changes
    nothing. *)
Theorem report_saved s now now' d report identity t i c c' :
  report_applies d report identity t i → db_inv d → i_execution_config i = Value c' →
  decodeConfig (Value c') = Ok c → sharded c = false →
  let d' := after_run (Save s report) now d in
  result_of (Save s report) now d = Ok {| sr_Applied := true; sr_Reason := "saved" |} ∧
  d' = set_task (rp_TaskID report) (result_row (decided_write c report identity (t_used_attempts t)) now t) d ∧
  w_out (Save s report (start d (calm now))).1 = (if sv_hint s then [Hinted (rp_InstanceID report)] else []) ∧
  result_of (Save s report) now' d' = Ok {| sr_Applied := false; sr_Reason := "task_closed" |} ∧
  after_run (Save s report) now' d' = d'.
Proof.
  intros Hra HI Hc Hd Hsh d'. pose proof Hra as [Hv Ht Hi (Ho & Hj & Hg) (Ha & Hs) _ _ _].
  pose proof (inv_task _ HI _ _ Ht) as Hw. set (t' := result_row (decided_write c report identity (t_used_attempts t)) now t).
  assert (calm_to now (Save s report) d (set_task (rp_TaskID report) t' d)
    (Ok {| sr_Applied := true; sr_Reason := "saved" |}) (if sv_hint s then [Hinted (rp_InstanceID report)] else [])) as Hc1
    by (eapply calm_Save_target; [done|done|by rewrite Ho|by eapply calm_save_target]).
  destruct (calm_run _ _ _ _ _ _ Hc1) as (Hd1 & Hr1 & Ho1).
  assert (d' = set_task (rp_TaskID report) t' d) as -> by exact Hd1.
  destruct (decided_row_closed c report identity now t) as (D1 & D2 & D3).
  destruct (calm_run _ _ _ _ _ _ (calm_Save_closed s now' (set_task (rp_TaskID report) t' d) report identity t' i
    Hv (lookup_insert_eq _ _ _) Hi (eq_trans D1 Ho) Hj Hg (eq_trans D2 Ha) D3)) as (Hd2 & Hr2 & _).
  by split_and!.
Qed.

(** ** The jittered delay *)

(** The BUSY delay stays near its setting and in range.  For a constructed
    dispatcher every delay lies within a fifth of the configured one, is positive,
    and neither it nor the argument of the random draw leaves a 64-bit integer. *)
Theorem busy_delay_bounds r hint total busy dp w w' delay :
  NewDispatcher r hint total busy = Ok dp → busy_delay dp w = (w', Ok delay) →
  0 < busy - busy / 5 ≤ delay ∧ delay ≤ busy + busy / 5 ≤ MaxInt64 ∧ 0 < 2 * (busy / 5) + 1 ≤ MaxInt64.
Proof.
  unfold NewDispatcher. intros Hn Hd. match type of Hn with (if ?b then _ else _) = _ => destruct b eqn:E; [done|] end.
  injection Hn as <-. unfold busy_delay, Int64N, pop, mbind, M_bind in Hd. simpl in Hd. injection Hd as _ <-.
  to_prop. rewrite Z.quot_div_nonneg by lia. unfold MaxInt64 in *.
  pose proof (Z.mod_pos_bound (ev_random (w_env w (w_at w))) (2 * (busy / 5) + 1)) as Hm.
  assert (9223372036854775807 / 6 * 5 = 7686143364045646505) as Hc by reflexivity.
  pose proof (Z.div_mod busy 5 ltac:(lia)). pose proof (Z.mod_pos_bound busy 5 ltac:(lia)).
  assert (0 ≤ busy / 5) by (apply Z.div_pos; lia). lia.
Qed.
End responses.

(** ** Instances *)

Definition demo_busy : DispatchBusyWrite :=
  {| bw_TaskID := 1; bw_InstanceID := 1; bw_AttemptNo := 1; bw_Delay := 5 * Second |}.
Abbreviation demo_started := (after_run (StartOrdinary 1) 300
  (demo_run [(create_demo_group, 100); (create_demo_job, 100);
             (OpTriggerManual demo_creator demo_input, 200)] empty_db)).

Lemma busy_refunds_once_witness :
  result_of (SaveDispatchBusy Auto demo_busy) 320 (after_run (SaveDispatchBusy Auto demo_busy) 310 demo_started) = Ok false.
Proof.
  edestruct (busy_refunds_once 310 320 demo_busy demo_started) as (_ & _ & Hr & _);
    [reflexivity|reflexivity|reflexivity|reflexivity|evaluate|reflexivity|exact Hr].
Defined.

Lemma demo_report_applies :
  ∃ t i, tasks demo_running !! 1 = Some t ∧ instances demo_running !! 1 = Some i ∧
    report_applies demo_running demo_report 4 t i.
Proof.
  eexists _, _. split; [evaluate|]. split; [evaluate|].
  split; [reflexivity|evaluate|evaluate|by split_and!|by split|by right|reflexivity|done].
Qed.

Lemma report_saved_witness :
  result_of (Save demo_saver demo_report) 400 demo_running = Ok {| sr_Applied := true; sr_Reason := "saved" |}.
Proof.
  destruct demo_report_applies as (t & i & Ht & Hi & Hra).
  assert (i_execution_config <$> instances demo_running !! 1 =
    Some (Value { snapshot_config demo_job with Params := "x"%string })) as Hc by evaluate.
  rewrite Hi in Hc. injection Hc as Hc.
  edestruct (report_saved demo_saver 400 410 demo_running demo_report 4 t i) as (Hr & _);
    [exact Hra|apply reachable_db_inv, demo_running_reachable|exact Hc|reflexivity|reflexivity|exact Hr].
Defined.

Lemma busy_delay_bounds_witness :
  ∃ w' delay, busy_delay demo_dispatcher (start empty_db (calm 0)) = (w', Ok delay) ∧
    0 < 5 * Second - 5 * Second / 5 ≤ delay.
Proof.
  eexists _, _. split; [reflexivity|].
  eapply (busy_delay_bounds {| reg_hint := true |} true (10 * Second) (5 * Second) demo_dispatcher (start empty_db (calm 0)));
    reflexivity.
Defined.
