(* ===== verification/Progress.v ===== *)
(** * Progress in undisturbed runs

    What operations achieve when nothing interferes or fails: cancellation
    converges, a final Task completes its Instance, an expired round is stopped,
    and a waiting Instance is started once. *)

From S2P Require Import Prelude GoLib Tx Model TaskRepo InstanceRepo JobRepo Dispatcher ResultSaver Settler.
From S2P Require Import StopController Checker Logic Protocol Transitions RepoRules Registration Stopping.
From S2P Require Import System Trigger Runs Snapshot.

Open Scope Z_scope.

(** ** Cancellation batches in an undisturbed run *)

Section convergence.
Context `{UuidLib, PgLib}.

Definition unfinished_ids (d : DB) (id : Z) : list Z :=
  ids_where (λ _ t, (t_instance_id t =? id) && unfinished (t_status t)) (tasks d).

Lemma has_unfinished_ids d id : unfinished_ids d id = [] → has_unfinished d id = false.
Proof.
  intros E. unfold has_unfinished. apply not_true_iff_false. intros Hex.
  apply existsb_exists in Hex as ([tid t] & Hin & Hu). apply list_elem_of_In, elem_of_rows in Hin.
  assert (tid ∈ unfinished_ids d id) as Hm by (apply elem_of_ids_where; eauto). by rewrite E in Hm; apply elem_of_nil in Hm.
Qed.

(** A consistent Instance has at most one unfinished Task. *)
Lemma unfinished_ids_single d id :
  db_inv d → unfinished_ids d id = [] ∨
  ∃ tid t, unfinished_ids d id = [tid] ∧ tasks d !! tid = Some t ∧ t_instance_id t = id ∧
    unfinished (t_status t) = true ∧ 0 < tid.
Proof.
  intros HI. destruct (unfinished_ids d id) as [|tid rest] eqn:E; [by left|right].
  assert (∀ k, k ∈ tid :: rest → ∃ t, tasks d !! k = Some t ∧ t_instance_id t = id ∧ unfinished (t_status t) = true) as Hm.
  { intros k Hk. rewrite <-E in Hk. apply elem_of_ids_where in Hk as (t & Ht & HP). to_prop. eauto. }
  destruct (Hm tid) as (t & Ht & Hid & Hu); [by left|].
  exists tid, t. split_and!; try done; [|by eapply inv_task_id].
  destruct rest as [|k rest]; [done|]. exfalso. destruct (Hm k) as (t' & Ht' & Hid' & _); [by right; left|].
  assert (k = tid) as -> by (eapply inv_single; [done..|congruence]).
  assert (NoDup (ids_where (λ _ t, (t_instance_id t =? id) && unfinished (t_status t)) (tasks d))) as Hnd by auto with tables.
  fold (unfinished_ids d id) in Hnd. rewrite E in Hnd. apply NoDup_cons in Hnd as [Hn _]. by destruct Hn; left.
Qed.

Lemma calm_sqlCall {A} t (m : M A) d d' a :
  calm_to t m d d' (Ok a) [] → calm_to t (sqlCall m) d d' (Ok a) [].
Proof.
  intros Hm. unfold sqlCall. eapply calm_bind0; [apply calm_ctx_err|]. eapply calm_bind0; [exact Hm|].
  eapply calm_bind0; [apply calm_ctx_err|apply calm_ret].
Qed.

Lemma calm_ListUnfinishedIDs t id limit d :
  0 < id → 0 < limit →
  calm_to t (ListUnfinishedIDs InTx id limit) d d (Ok (take (Z.to_nat limit) (unfinished_ids d id))) [].
Proof.
  intros Hid Hl. unfold ListUnfinishedIDs. rewrite !(proj2 (Z.leb_gt _ 0)) by lia. apply (calm_query t InTx).
Qed.

Lemma stop_reason_guard (r : string) :
  stop_reason r →
  negb (bool_decide (r = EndReasonManualStop)) && negb (bool_decide (r = EndReasonInstanceTimeout)) = false.
Proof. by intros [-> | ->]. Qed.

(** The last batch: nothing is left, the parent takes its final state. *)
Lemma calm_converge_last c t id i reason target summary d :
  0 < id → 0 < co_batchSize c → instances d !! id = Some i → is_stopping i = true → i_end_reason i = Some reason →
  stop_reason reason → unfinished_ids d id = [] →
  calm_to t (converge c id reason target summary) d (set_instance id (finish_stop_row reason t i) d)
    (Ok (stop_batch id target 0 false true)) [].
Proof.
  intros Hid Hb Hi Hs Hr Hst Hu. unfold converge.
  eapply calm_bind0; [apply calm_sqlCall, calm_ListUnfinishedIDs; lia|]. rewrite Hu, take_nil. simpl.
  unfold validOrderedIDs. simpl. rewrite (proj2 (Z.leb_le 0 _)) by lia. simpl.
  apply (calm_bind0 _ _ _ _ (set_instance id (finish_stop_row reason t i) d) _ true);
    [apply calm_sqlCall|apply calm_ret].
  unfold FinishStop. rewrite stop_reason_guard by done. rewrite (proj2 (Z.leb_gt _ 0)) by lia. simpl.
  eapply calm_eq; [apply calm_exec|..]; try done; unfold update_instance; rewrite Hi, Hs, Hr; simpl;
    rewrite bool_decide_eq_true_2 by done; by rewrite has_unfinished_ids.
Qed.

(** A batch that cancels the remaining Task. *)
Lemma calm_converge_cancel c t id i reason target summary d tid tk :
  0 < id → 0 < co_batchSize c → t ≠ 0 → instances d !! id = Some i → stop_reason reason → pg_text summary = true →
  unfinished_ids d id = [tid] → 0 < tid → tasks d !! tid = Some tk → t_instance_id tk = id →
  unfinished (t_status tk) = true →
  calm_to t (converge c id reason target summary) d
    (set_task tid (cancel_row (cancellation id [tid] reason summary t) tk) d)
    (Ok (stop_batch id InstanceStopping 1 true false)) [].
Proof.
  intros Hid Hb Ht Hi Hst Hp Hu Htid Htk Htkid Htku. unfold converge.
  eapply calm_bind0; [apply calm_sqlCall, calm_ListUnfinishedIDs; lia|]. rewrite Hu.
  destruct (Z.to_nat (co_batchSize c)) as [|k] eqn:Ek; [lia|]. simpl. rewrite take_nil.
  unfold validOrderedIDs. simpl. rewrite (proj2 (Z.leb_le 1 _)), (proj2 (Z.ltb_lt 0 tid)) by lia. simpl.
  eapply calm_bind0; [apply calm_sqlCall, calm_DatabaseTime|]. unfold is_zero.
  rewrite (proj2 (Z.eqb_neq t 0)) by done.
  apply (calm_bind0 _ _ _ _ (set_task tid (cancel_row (cancellation id [tid] reason summary t) tk) d) _ 1);
    [apply calm_sqlCall|apply calm_ret]. unfold CancelUnfinished. simpl. unfold is_zero.
  rewrite !(proj2 (Z.leb_gt _ 0)), (proj2 (Z.eqb_neq t 0)) by lia. simpl.
  replace (negb (bool_decide (reason = EndReasonManualStop) || bool_decide (reason = EndReasonInstanceTimeout)))
    with false by (by destruct Hst as [-> | ->]). rewrite Hp. simpl.
  eapply calm_eq; [apply calm_exec|..]; try done; unfold update_task; simpl; rewrite Htk;
    rewrite Htkid, Z.eqb_refl, Htku; done.
Qed.

Lemma calm_ProcessBatch c t id i reason target summary d d' b :
  0 < id → instances d !! id = Some i → i_status i = InstanceStopping → i_end_reason i = Some reason →
  stopOutcome (Some reason) = Some (target, summary) → i_finished_at i = None →
  calm_to t (converge c id reason target summary) d d' (Ok b) [] →
  calm_to t (ProcessBatch c id) d d' (Ok b) [].
Proof.
  intros Hid Hi Hs Hr Ho Hf Hc. unfold ProcessBatch. rewrite (proj2 (Z.leb_gt _ 0)) by lia.
  eapply calm_bind0; [apply calm_ctx_err|]. apply calm_transact. unfold batch_body.
  eapply calm_bind0; [by apply calm_sqlCall, calm_LockForStop|]. rewrite Hi. simpl.
  rewrite Z.eqb_refl, Hs, Hr, Ho, Hf. simpl. exact Hc.
Qed.

Lemma stopOutcome_total r :
  stop_reason r → ∃ summary, stopOutcome (Some r) = Some (stop_target r, summary) ∧ pg_text summary = true.
Proof. intros [-> | ->]; by eexists. Qed.

Lemma stopping_facts d id i :
  db_inv d → instances d !! id = Some i → i_status i = InstanceStopping →
  0 < id ∧ i_finished_at i = None ∧ ∃ reason, i_end_reason i = Some reason ∧ stop_reason reason.
Proof.
  intros HI Hi Hs. pose proof (iw_status _ (inv_inst _ HI _ _ Hi)) as Hw. unfold inst_status_wf in Hw. rewrite Hs in Hw.
  destruct Hw as (Hf & r & Hr & Hst & _). split_and!; [by eapply inv_inst_id|done|eauto].
Qed.

Lemma unfinished_ids_cancel d id tid tk write :
  db_inv d → tasks d !! tid = Some tk → t_instance_id tk = id →
  unfinished_ids (set_task tid (cancel_row write tk) d) id = [].
Proof.
  intros HI Htk Hid. unfold unfinished_ids.
  match goal with |- ids_where ?P ?m = [] => destruct (ids_where P m) as [|k l] eqn:E end; [done|exfalso].
  assert (k ∈ ids_where (λ _ t, (t_instance_id t =? id) && unfinished (t_status t))
    (tasks (set_task tid (cancel_row write tk) d))) as Hk by (rewrite E; by left).
  apply elem_of_ids_where in Hk as (u & Hu & HP). simpl in Hu. lookup_cases Hu; to_prop; [done|].
  assert (k = tid) by (eapply inv_single; [done..|congruence]). done.
Qed.

(** The two batches of a stopping Instance: cancel its unfinished Task, if there is
    one, then finish the Instance. *)
Lemma calm_batch_last c t d id i reason :
  0 < id → 0 < co_batchSize c → instances d !! id = Some i → i_status i = InstanceStopping → i_end_reason i = Some reason →
  stop_reason reason → i_finished_at i = None → unfinished_ids d id = [] →
  calm_to t (ProcessBatch c id) d (set_instance id (finish_stop_row reason t i) d)
    (Ok (stop_batch id (stop_target reason) 0 false true)) [].
Proof.
  intros Hid Hb Hi Hs Hr Hst Hf Hu. destruct (stopOutcome_total _ Hst) as (summary & Ho & _).
  eapply calm_ProcessBatch; [done..|]. apply calm_converge_last; try done. unfold is_stopping. by rewrite bool_decide_eq_true_2.
Qed.

Lemma calm_batch_first c t d id i reason tid tk :
  0 < id → 0 < co_batchSize c → t ≠ 0 → instances d !! id = Some i → i_status i = InstanceStopping →
  i_end_reason i = Some reason → stop_reason reason → i_finished_at i = None → unfinished_ids d id = [tid] → 0 < tid →
  tasks d !! tid = Some tk → t_instance_id tk = id → unfinished (t_status tk) = true →
  ∃ write, calm_to t (ProcessBatch c id) d (set_task tid (cancel_row write tk) d) (Ok (stop_batch id InstanceStopping 1 true false)) [].
Proof.
  intros Hid Hb Ht Hi Hs Hr Hst Hf Hu Htid Htk Htkid Htku. destruct (stopOutcome_total _ Hst) as (summary & Ho & Hp).
  eexists. eapply calm_ProcessBatch; [done..|]. by apply (calm_converge_cancel _ _ _ i).
Qed.

(** Stopping converges.  In an undisturbed run two cancellation batches take
    every stopping Instance of a consistent database to the terminal state its
    reason demands, with no unfinished Task left. *)
Theorem stop_converges c t d id i reason :
  db_inv d → t ≠ 0 → 0 < co_batchSize c → instances d !! id = Some i → i_status i = InstanceStopping →
  i_end_reason i = Some reason →
  ∃ i', instances (after_run (ProcessBatch c id) t (after_run (ProcessBatch c id) t d)) !! id = Some i' ∧
    i_status i' = stop_target reason ∧ terminal_status (i_status i') = true ∧
    i_finished_at i' = Some t ∧ i_end_reason i' = Some reason ∧
    has_unfinished (after_run (ProcessBatch c id) t (after_run (ProcessBatch c id) t d)) id = false.
Proof.
  intros HI Ht Hb Hi Hs Hr. destruct (stopping_facts _ _ _ HI Hi Hs) as (Hid & Hf & r & Hr' & Hst).
  assert (r = reason) as -> by congruence.
  assert (terminal_status (stop_target reason) = true) as Hterm by (by destruct Hst as [-> | ->]).
  destruct (unfinished_ids_single d id HI) as [Hu|(tid & tk & Hu & Htk & Htkid & Htku & Htid)].
  - (* already converged: the second batch observes the terminal parent *)
    rewrite (calm_after _ _ _ _ _ _ (calm_batch_last c t d id i reason Hid Hb Hi Hs Hr Hst Hf Hu)). set (d1 := set_instance id (finish_stop_row reason t i) d).
    assert (after_run (ProcessBatch c id) t d1 = d1) as ->.
    { apply (calm_run t _ _ _ (Ok (stop_batch id (stop_target reason) 0 false false)) []).
      unfold ProcessBatch. rewrite (proj2 (Z.leb_gt _ 0)) by lia.
      eapply calm_bind0; [apply calm_ctx_err|]. apply calm_transact. unfold batch_body.
      eapply calm_bind0; [by apply calm_sqlCall, calm_LockForStop|].
      unfold d1. simpl. rewrite lookup_insert_eq. simpl. rewrite Z.eqb_refl. simpl.
      destruct Hst as [-> | ->]; simpl; apply calm_ret. }
    exists (finish_stop_row reason t i). unfold d1. simpl. rewrite lookup_insert_eq.
    split_and!; try done. by apply has_unfinished_ids.
  - destruct (calm_batch_first c t d id i reason tid tk) as (write & Hfirst); [done..|].
    rewrite (calm_after _ _ _ _ _ _ Hfirst).
    rewrite (calm_after _ _ _ _ _ _ (calm_batch_last c t (set_task tid (cancel_row write tk) d) id i reason Hid Hb Hi Hs Hr Hst Hf (unfinished_ids_cancel _ _ _ _ _ HI Htk Htkid))).
    exists (finish_stop_row reason t i). simpl. rewrite lookup_insert_eq. split_and!; try done.
    apply (has_unfinished_ids (set_task _ _ d)). by apply unfinished_ids_cancel.
Qed.
End convergence.

(** ** Completion and timeout *)

Section completion_progress.
Context `{UuidLib, PgLib}.

Lemma ordinary_task_of d id tid t :
  db_inv d → tasks d !! tid = Some t → t_instance_id t = id → ordinary_task d id = Some (tid, t).
Proof.
  intros HI Ht Hid. unfold ordinary_task.
  match goal with |- head (filter ?P ?l) = _ => destruct (filter P l) as [|[tid' t'] rest] eqn:E end.
  - exfalso. assert ((tid, t) ∈ filter (λ r : Z * JobTask, t_instance_id r.2 = id ∧ t_task_type r.2 = TaskTypeOrdinary)
      (rows (tasks d))) as Hin.
    { apply list_elem_of_filter. split; [|by apply elem_of_rows]. split; [done|]. by eapply tw_type, inv_task. }
    rewrite E in Hin. by apply elem_of_nil in Hin.
  - destruct (ordinary_task_lookup d id tid' t') as [Ht' Hid']; [by unfold ordinary_task; rewrite E|].
    assert (tid' = tid) as -> by (eapply inv_single; [done..|congruence]). simpl. congruence.
Qed.

(** The Task of a running Instance, and its usable snapshot. *)
Lemma running_task d id i :
  db_inv d → instances d !! id = Some i → i_status i = InstanceRunning →
  0 < id ∧ ordinary_config (i_execution_config i) = Ok true ∧
  ∃ tid t, tasks d !! tid = Some t ∧ t_instance_id t = id ∧ 0 < tid.
Proof.
  intros HI Hi Hs. pose proof (inv_inst _ HI _ _ Hi) as Hw. pose proof (iw_status _ Hw) as Hst.
  unfold inst_status_wf in Hst. rewrite Hs in Hst. destruct Hst as [Hstart _].
  destruct (inv_child _ HI _ _ Hi Hstart) as (tid & t & Ht & Hid).
  destruct (inv_parent _ HI _ _ Ht) as (i' & Hi' & Hco). assert (i' = i) as -> by congruence.
  destruct (co_budget _ _ Hco) as (c & Hsc & Hv & Hm & Hp & _). destruct (iw_config _ Hw) as [c' Hc'].
  split_and!; [by eapply inv_inst_id| |].
  - rewrite Hc' in *. by eapply ordinary_config_Value.
  - exists tid, t. split_and!; [done..|]. by eapply inv_task_id.
Qed.

Lemma calm_FindCompletion now id i tid t d :
  db_inv d → 0 < id → instances d !! id = Some i → tasks d !! tid = Some t → t_instance_id t = id →
  calm_to now (FindCompletion Auto id) d d
    (Ok (Some {| ic_ID := id; ic_Status := i_status i; ic_ExecutionConfig := i_execution_config i;
                 ic_DeadlineAt := i_deadline_at i; ic_TaskID := Some tid; ic_TaskStatus := Some (t_status t);
                 ic_ResultSummary := t_result_summary t |})) [].
Proof.
  intros HI Hid Hi Ht Htid. unfold FindCompletion. rewrite (proj2 (Z.leb_gt _ 0)) by lia.
  eapply calm_eq; [apply calm_query|done| |done]. simpl. rewrite Hi. simpl.
  by rewrite (ordinary_task_of d id tid t).
Qed.

(** A check of a running Instance reads its Task and goes on with it. *)
Lemma calm_Check_running c now d id i tid t d' r o :
  db_inv d → instances d !! id = Some i → i_status i = InstanceRunning →
  tasks d !! tid = Some t → t_instance_id t = id →
  calm_to now (check_task c {| ic_ID := id; ic_Status := i_status i; ic_ExecutionConfig := i_execution_config i;
                 ic_DeadlineAt := i_deadline_at i; ic_TaskID := Some tid; ic_TaskStatus := Some (t_status t);
                 ic_ResultSummary := t_result_summary t |}) d d' r o →
  calm_to now (Check c id) d d' r o.
Proof.
  intros HI Hi Hs Ht Htid Hk. destruct (running_task _ _ _ HI Hi Hs) as (Hid & Hord & _).
  unfold Check. rewrite (proj2 (Z.leb_gt _ 0)) by lia. eapply calm_bind0; [apply calm_ctx_err|].
  eapply calm_bind0; [by eapply calm_FindCompletion|]. cbn -[check_task]. rewrite Z.eqb_refl. simpl negb. cbv iota.
  rewrite Hs, Hord in *. eapply calm_bind0; [apply calm_lift|]. exact Hk.
Qed.

Definition final_status (s : TaskStatus) : option InstanceStatus :=
  match s with TaskSucceeded => Some InstanceSucceeded | TaskFailed => Some InstanceFailed | _ => None end.

(** A finished Task finishes its round.  In an undisturbed run one check of a
    running Instance of a consistent database whose Task succeeded or failed gives
    the Instance the same verdict and summary and answers terminal. *)
Theorem check_completes c now d id i tid t target :
  db_inv d → instances d !! id = Some i → i_status i = InstanceRunning →
  tasks d !! tid = Some t → t_instance_id t = id → final_status (t_status t) = Some target →
  (∀ s, t_result_summary t = Some s → pg_text s = true) →
  result_of (Check c id) now d = Ok OutcomeTerminal ∧
  after_run (Check c id) now d = set_instance id (complete_row target (t_result_summary t) now i) d.
Proof.
  intros HI Hi Hs Ht Htid Hf Htext. destruct (inv_task_id _ HI _ _ Ht) as [Hpos _].
  destruct (running_task _ _ _ HI Hi Hs) as (Hid & _ & _).
  assert (target = InstanceSucceeded ∨ target = InstanceFailed) as Htg by (destruct (t_status t); naive_solver).
  destruct (calm_run now (Check c id) d (set_instance id (complete_row target (t_result_summary t) now i) d)
    (Ok OutcomeTerminal) []) as (Hd & Hr & _); [|done].
  eapply calm_Check_running; [done..|]. unfold check_task. simpl.
  rewrite (proj2 (Z.leb_gt _ 0)) by lia.
  assert (calm_to now (complete_instance {| ic_ID := id; ic_Status := i_status i; ic_ExecutionConfig := i_execution_config i;
      ic_DeadlineAt := i_deadline_at i; ic_TaskID := Some tid; ic_TaskStatus := Some (t_status t);
      ic_ResultSummary := t_result_summary t |} target) d
      (set_instance id (complete_row target (t_result_summary t) now i) d) (Ok OutcomeTerminal) []) as Hc.
  { unfold complete_instance. simpl.
    eapply (calm_bind0 _ _ _ _ (set_instance id (complete_row target (t_result_summary t) now i) d) _ true); [|apply calm_ret].
    unfold Complete. rewrite (proj2 (Z.leb_gt _ 0)) by lia.
    replace (negb (bool_decide (target = InstanceSucceeded)) && negb (bool_decide (target = InstanceFailed)))
      with false by (by destruct Htg as [-> | ->]). simpl.
    apply calm_transact. eapply calm_eq; [apply (calm_exec now InTx)|..]; try done;
      (destruct (t_result_summary t) as [sm|] eqn:Esm; [rewrite (Htext sm eq_refl)|]); unfold update_instance;
      simpl; rewrite Hi, Hs; done. }
  destruct (t_status t); try done; injection Hf as <-; exact Hc.
Qed.

Lemma running_times d id i :
  db_inv d → instances d !! id = Some i → i_status i = InstanceRunning →
  validActiveTimes (stopping_instance id i) = true ∧ ∃ s dl, i_started_at i = Some s ∧ i_deadline_at i = Some dl ∧ s < dl.
Proof.
  intros HI Hi Hs. pose proof (inv_inst _ HI _ _ Hi) as Hw. pose proof (iw_status _ Hw) as Hst.
  unfold inst_status_wf in Hst. rewrite Hs in Hst. destruct Hst as ([s Es] & Hfin & _).
  pose proof (iw_times _ Hw) as Ht. unfold inst_times_wf in Ht. rewrite Es in Ht.
  destruct (i_deadline_at i) as [dl|] eqn:Ed; [|done]. destruct Ht as (Hne & c & _ & Hto & ->).
  assert (s < s + TimeoutSeconds c * Second) as Hlt by (unfold Second; lia).
  split; [|by eauto]. unfold validActiveTimes. simpl. rewrite Hfin, Hs, Es, Ed. simpl. unfold is_zero, is_after.
  rewrite (proj2 (Z.eqb_neq _ _)) by done. by rewrite (proj2 (Z.ltb_lt _ _)).
Qed.

(** The decision of an undisturbed timeout request. *)
Lemma calm_RequestTimeout now d id i dl :
  db_inv d → instances d !! id = Some i → i_status i = InstanceRunning → 0 < i_executor_group_id i →
  i_deadline_at i = Some dl → dl ≤ now → now ≠ 0 →
  calm_to now (RequestTimeout id) d (set_instance id (record_stop_row EndReasonInstanceTimeout timeoutSummary now i) d)
    (Ok {| de_InstanceID := id; de_ExecutorGroupID := i_executor_group_id i; de_Status := InstanceStopping;
           de_EndReason := Some EndReasonInstanceTimeout; de_New := true |}) [].
Proof.
  intros HI Hi Hs Hg Hdl Hle Hn. destruct (inv_inst_id _ HI _ _ Hi) as [Hid _].
  destruct (running_times _ _ _ HI Hi Hs) as [Hv _].
  unfold RequestTimeout, requestStop. rewrite (proj2 (Z.leb_gt id 0)) by lia.
  eapply calm_bind0; [apply calm_ctx_err|]. apply calm_transact. unfold stop_body.
  eapply calm_bind0; [by apply calm_sqlCall, calm_LockForStop|]. rewrite Hi. simpl fmap. cbv iota.
  simpl si_ID. rewrite Z.eqb_refl. simpl negb. cbv iota. simpl si_Status. rewrite Hs. simpl stop_eligible. cbv iota.
  eapply calm_bind0; [apply calm_sqlCall, calm_DatabaseTime|]. unfold is_zero. simpl si_ExecutorGroupID.
  rewrite (proj2 (Z.eqb_neq _ _)), (proj2 (Z.leb_gt _ 0)), Hv by done. simpl orb. simpl negb. cbv iota.
  unfold decide_stop. simpl. rewrite Hdl. unfold before. rewrite (proj2 (Z.ltb_ge _ _)) by done.
  apply (calm_bind0 _ _ _ _ (set_instance id (record_stop_row EndReasonInstanceTimeout timeoutSummary now i) d) _ true);
    [apply calm_sqlCall|apply calm_ret].
  unfold RecordStop. rewrite Hs. simpl. unfold is_zero.
  rewrite (proj2 (Z.eqb_neq _ _)), (proj2 (Z.leb_gt _ 0)) by done. simpl.
  eapply calm_eq; [apply (calm_exec now InTx)|..]; try done; unfold update_instance; simpl; by rewrite Hi, Hs.
Qed.

(** An expired round is stopped.  In an undisturbed run a check of a running
    Instance past its deadline, whose Task is not finished, records the timeout
    stop, publishes it for the Instance's group and answers stopping. *)
Theorem check_times_out c now d id i tid t dl :
  db_inv d → ck_stopping c = true → instances d !! id = Some i → i_status i = InstanceRunning →
  0 < i_executor_group_id i → i_deadline_at i = Some dl → dl ≤ now → dl ≠ 0 → now ≠ 0 →
  tasks d !! tid = Some t → t_instance_id t = id → unfinished (t_status t) = true →
  result_of (Check c id) now d = Ok OutcomeStopping ∧
  after_run (Check c id) now d = set_instance id (record_stop_row EndReasonInstanceTimeout timeoutSummary now i) d ∧
  w_out (Check c id (start d (calm now))).1 = [StopPublished id (i_executor_group_id i)].
Proof.
  intros HI Hc Hi Hs Hg Hdl Hle Hdz Hnz Ht Htid Hu. destruct (inv_task_id _ HI _ _ Ht) as [Hpos _].
  destruct (calm_run now (Check c id) d (set_instance id (record_stop_row EndReasonInstanceTimeout timeoutSummary now i) d)
    (Ok OutcomeStopping) [StopPublished id (i_executor_group_id i)]) as (Hd & Hr & Ho); [|done].
  eapply calm_Check_running; [done..|]. unfold check_task. simpl. rewrite (proj2 (Z.leb_gt _ 0)) by lia.
  match goal with |- context [notReady c ?f] => assert (calm_to now (notReady c f) d
    (set_instance id (record_stop_row EndReasonInstanceTimeout timeoutSummary now i) d)
    (Ok OutcomeStopping) [StopPublished id (i_executor_group_id i)]) as Hnr end.
  { unfold notReady. rewrite Hc. simpl negb. cbv iota. simpl ic_DeadlineAt. rewrite Hdl. unfold is_zero, before.
    rewrite (proj2 (Z.eqb_neq dl 0)) by done. eapply calm_bind0; [apply calm_ctx_err|].
    eapply calm_bind0; [apply calm_DatabaseTime|]. eapply calm_bind0; [apply calm_ctx_err|].
    rewrite (proj2 (Z.eqb_neq now 0)), (proj2 (Z.ltb_ge _ _)) by done.
    eapply calm_bind0; [by apply (calm_RequestTimeout now d id i dl)|].
    unfold timeout_outcome, valid_decision. simpl. rewrite Z.eqb_refl, (proj2 (Z.ltb_lt 0 _)) by done. simpl.
    eapply (calm_bind _ _ _ _ _ _ _ _ [StopPublished id (i_executor_group_id i)] []); [apply calm_emit|apply calm_ret]. }
  destruct (t_status t); done.
Qed.
End completion_progress.

(** ** The first attempt *)

Section start_progress.
Context `{UuidLib, PgLib}.

Lemma no_task_of_waiting d id i :
  db_inv d → instances d !! id = Some i → i_status i = InstanceWaiting → singleton_conflict d id TaskTypeOrdinary = false.
Proof.
  intros HI Hi Hs. unfold singleton_conflict. apply not_true_iff_false. intros E.
  apply existsb_exists in E as ([tid t] & Hin & E). apply list_elem_of_In, elem_of_rows in Hin. simpl in E. to_prop.
  destruct (inv_parent _ HI _ _ Hin) as (i' & Hi' & Hco). destruct (co_started _ _ Hco). congruence.
Qed.

Definition first_attempt (d : DB) (id : Z) (i : JobInstance) (c : ExecutionConfig) (now : Time) : RegisteredAttempt :=
  {| ra_JobID := i_job_id i; ra_InstanceID := id; ra_ExecutorGroupID := i_executor_group_id i;
     ra_TaskID := next_task d; ra_AttemptNo := 1; ra_ExecutionConfig := c; ra_RegisteredAt := now;
     ra_DeadlineAt := now + TimeoutSeconds c * Second |}.

Definition started_db (d : DB) (id : Z) (i : JobInstance) (c : ExecutionConfig) (now : Time) : DB :=
  { set_task (next_task d) (ordinary_row id now)
      (set_instance id (start_row now (now + TimeoutSeconds c * Second) i) d) with next_task := next_task d + 1 }.

Lemma calm_StartOrdinary now d id i c :
  db_inv d → instances d !! id = Some i → i_status i = InstanceWaiting →
  decodeConfig (i_execution_config i) = Ok c → sharded c = false →
  0 < i_job_id i → 0 < i_executor_group_id i → now ≠ 0 →
  calm_to now (StartOrdinary id) d (started_db d id i c now) (Ok (Some (first_attempt d id i c now))) [].
Proof.
  intros HI Hi Hs Hc Hsh Hj Hg Hn. destruct (inv_inst_id _ HI _ _ Hi) as [Hid _].
  pose proof (inv_inst _ HI _ _ Hi) as Hw. pose proof (iw_status _ Hw) as Hst. unfold inst_status_wf in Hst.
  rewrite Hs in Hst. destruct Hst as (Hst & Hfin & _). pose proof (iw_times _ Hw) as Htm. unfold inst_times_wf in Htm.
  rewrite Hst in Htm. destruct (i_deadline_at i) eqn:Hdl; [done|].
  unfold StartOrdinary. rewrite (proj2 (Z.leb_gt id 0)) by lia. eapply calm_bind0; [apply calm_ctx_err|].
  apply calm_transact. unfold start_body. eapply calm_bind0; [apply calm_LockForExecution|]. rewrite Hi.
  cbn [fmap option_fmap option_map execution_instance ei_Status ei_ID ei_StartedAt ei_DeadlineAt ei_FinishedAt
       ei_ExecutionConfig ei_JobID ei_ExecutorGroupID].
  rewrite Hs, Hst, Hdl, Hfin, Hc, Z.eqb_refl. simpl orb. simpl negb. cbv iota.
  eapply calm_bind0; [apply calm_lift|]. rewrite Hsh. rewrite !(proj2 (Z.leb_gt _ 0)) by done. simpl orb. cbv iota.
  eapply calm_bind0; [apply calm_DatabaseTime|]. unfold is_zero. rewrite (proj2 (Z.eqb_neq now 0)) by done.
  cbv zeta. apply (calm_bind0 _ _ _ _ (set_instance id (start_row now (now + TimeoutSeconds c * Second) i) d) _ true).
  { unfold StartExecution. eapply calm_eq; [apply (calm_exec now InTx)|..]; try done;
      unfold update_instance, start_guard; simpl; by rewrite Hi, Hs, Hst, Hdl, Hfin. }
  simpl negb. cbv iota. apply (calm_bind0 _ _ _ _ (started_db d id i c now) _ (next_task d)).
  { unfold InsertOrdinary, is_zero. rewrite (proj2 (Z.leb_gt id 0)), (proj2 (Z.eqb_neq now 0)) by done.
    simpl orb. cbv iota. pose proof (no_task_of_waiting d id i HI Hi Hs) as Hsc. unfold singleton_conflict in Hsc.
    eapply calm_eq; [apply (calm_exec now InTx)|..]; try done; unfold singleton_conflict; simpl tasks; by rewrite Hsc. }
  rewrite (proj2 (Z.leb_gt _ 0)) by (apply (inv_next _ HI)). apply calm_ret.
Qed.

(** Any other state is left alone. *)
Lemma calm_StartOrdinary_skip now d id i :
  0 < id → instances d !! id = Some i → i_status i ≠ InstanceWaiting → calm_to now (StartOrdinary id) d d (Ok None) [].
Proof.
  intros Hid Hi Hs. unfold StartOrdinary. rewrite (proj2 (Z.leb_gt id 0)) by lia. eapply calm_bind0; [apply calm_ctx_err|].
  apply calm_transact. unfold start_body. eapply calm_bind0; [apply calm_LockForExecution|]. rewrite Hi. simpl.
  rewrite bool_decide_eq_false_2 by done. apply calm_ret.
Qed.

(** A waiting Instance is started exactly once.  In an undisturbed run the
    start of a waiting ordinary Instance of a consistent database registers attempt
    one of a new Task, due at the database time plus the frozen timeout; starting
    the Instance again registers nothing and changes nothing. *)
Theorem start_once now now' d id i c :
  db_inv d → instances d !! id = Some i → i_status i = InstanceWaiting →
  decodeConfig (i_execution_config i) = Ok c → sharded c = false →
  0 < i_job_id i → 0 < i_executor_group_id i → now ≠ 0 →
  let d' := after_run (StartOrdinary id) now d in
  result_of (StartOrdinary id) now d = Ok (Some (first_attempt d id i c now)) ∧
  tasks d' = <[next_task d := ordinary_row id now]> (tasks d) ∧
  instances d' = <[id := start_row now (now + TimeoutSeconds c * Second) i]> (instances d) ∧
  result_of (StartOrdinary id) now' d' = Ok None ∧ after_run (StartOrdinary id) now' d' = d'.
Proof.
  intros HI Hi Hs Hc Hsh Hj Hg Hn d'. destruct (inv_inst_id _ HI _ _ Hi) as [Hid _].
  destruct (calm_run _ _ _ _ _ _ (calm_StartOrdinary now d id i c HI Hi Hs Hc Hsh Hj Hg Hn)) as (Hd & Hr & _).
  assert (d' = started_db d id i c now) as -> by exact Hd.
  destruct (calm_run _ _ _ _ _ _ (calm_StartOrdinary_skip now' (started_db d id i c now) id
    (start_row now (now + TimeoutSeconds c * Second) i) Hid (lookup_insert_eq _ _ _) ltac:(done))) as (Hd' & Hr' & _).
  by split_and!.
Qed.
End start_progress.

(** ** Instances *)

Lemma demo_stopping_inv : db_inv demo_stopping.
Proof. apply reachable_db_inv, demo_stopping_reachable. Qed.

Lemma stop_converges_witness :
  ∃ i', instances (after_run (ProcessBatch demo_controller 1) 360 (after_run (ProcessBatch demo_controller 1) 360 demo_stopping)) !! 1
          = Some i' ∧ i_status i' = InstanceCanceled.
Proof.
  edestruct (stop_converges demo_controller 360 demo_stopping 1) as (i' & Hi' & Hs & _);
    [apply demo_stopping_inv|discriminate|reflexivity|evaluate|reflexivity|reflexivity|].
  exists i'. split; [exact Hi'|exact Hs].
Defined.

(** The Task has succeeded, the Instance is still running. *)
Abbreviation demo_reported := (demo_run [(OpSave demo_saver demo_report, 400)] demo_running).

Lemma check_completes_witness : result_of (Check demo_checker 1) 500 demo_reported = Ok OutcomeTerminal.
Proof.
  eapply (check_completes demo_checker 500 demo_reported 1 _ 1);
    [apply reachable_db_inv, demo_reachable, demo_running_reachable|evaluate|reflexivity|evaluate|reflexivity|reflexivity|].
  intros s Hs. injection Hs as <-. reflexivity.
Defined.

Lemma check_times_out_witness :
  w_out (Check demo_checker 1 (start demo_running (calm (300 + 3600 * Second)))).1 = [StopPublished 1 1].
Proof.
  edestruct check_times_out with (c := demo_checker) (now := 300 + 3600 * Second) (d := demo_running) (id := 1) (tid := 1)
    as (_ & _ & Ho);
    [apply reachable_db_inv, demo_running_reachable|reflexivity|evaluate|reflexivity|reflexivity|reflexivity
    |discriminate|discriminate|discriminate|evaluate|reflexivity|reflexivity|]. exact Ho.
Defined.

Lemma start_once_witness :
  result_of (StartOrdinary 1) 310 (after_run (StartOrdinary 1) 300
    (demo_run [(create_demo_group, 100); (create_demo_job, 100);
               (OpTriggerManual demo_creator demo_input, 200)] empty_db)) = Ok None.
Proof.
  eapply (start_once 300 310 (demo_run [(create_demo_group, 100); (create_demo_job, 100);
               (OpTriggerManual demo_creator demo_input, 200)] empty_db) 1);
    [apply reachable_db_inv, demo_reachable, empty_reachable|evaluate|reflexivity|evaluate|reflexivity|reflexivity|reflexivity|discriminate].
Defined.
