(* ===== verification/Outcomes.v ===== *)
(** * What single operations report

    Theorems on one operation of one node while all other nodes interfere: what
    its answer says about the database it leaves. *)

From S2P Require Import Prelude GoLib Tx Model TaskRepo InstanceRepo JobRepo Trigger Dispatcher.
From S2P Require Import ResultSaver Settler StopController Checker Logic Protocol Transitions RepoRules.
From S2P Require Import Registration Stopping Triggering System Runs.

Open Scope Z_scope.

Section outcomes.
Context `{UuidLib, PgLib, CronLib, Sender, TimeText, UuidRandom}.

(** C33: A stop request decides at most once.  Whatever other nodes do, a request
    that answers with a new decision found the Instance still running (or waiting,
    for a manual stop), past its deadline for a timeout, and recorded exactly that
    decision; any other answer describes the stored row, which it left alone. *)
Theorem stop_request_effect id timeout d env w dec :
  rely env → db_inv d → requestStop id timeout (start d env) = (w, Ok dec) →
  w_out w = [] ∧ ∃ d1, db_inv d1 ∧ db_evolves d d1 ∧ stop_decided id timeout d1 dec (w_db w).
Proof.
  intros Hr HI E. destruct (wp_start _ _ _ _ _ _ (requestStop_wp id timeout d []) Hr HI E) as (_ & _ & Ho & Hd).
  split; [done|]. by apply Hd.
Qed.

(** A check never lies: it answers terminal only for an Instance that is
    terminal in the database it leaves, and it publishes a stop only after this
    very check committed a timeout decision. *)
Theorem check_sound c id d env w r :
  rely env → db_inv d → Check c id (start d env) = (w, r) → checked id d [] r (w_db w) (w_out w).
Proof. intros Hr HI E. by destruct (wp_start _ _ _ _ _ _ (Check_wp c id d []) Hr HI E) as (_ & _ & ?). Qed.

(** A report only closes the attempt it belongs to.  In every commit of a save,
    whatever the database contains, either nothing changes or the one row changes
    whose Task, Instance and attempt number the report names, while that attempt is
    running and bound to nobody else; it succeeds exactly when the report does. *)
Theorem save_only_current_attempt s report d env w r c :
  Save s report (start d env) = (w, r) → c ∈ w_commits w → saves report (c_before c) (c_after c).
Proof. intros E Hin. destruct (audit_run _ _ _ _ _ _ _ (audit_Save env s report) E) as [Hc _]. auto. Qed.

(** An attempt is declared unknown only after the observation period.  Every
    commit of a settlement batch changes nothing, or closes an unbound running
    attempt of a candidate that was registered at least the observation period
    before a database time of the batch. *)
Theorem settle_after_observation s candidates d env w r c :
  SettleBatch s candidates (start d env) = (w, r) → c ∈ w_commits w →
  settles env (se_observationPeriod s) candidates (c_before c) (c_after c).
Proof. intros E Hin. destruct (audit_run _ _ _ _ _ _ _ (audit_SettleBatch env s candidates) E) as [Hc _]. auto. Qed.

(** ** Triggers *)

Lemma params_text_Value c : params_text (Value c) = Some (Params c).
Proof. unfold params_text, Value. jget_simpl. done. Qed.

(** Either way the returned Instance answers the request. *)
Lemma manual_effect_same input d id created d' :
  db_inv d → manual_effect input d (id, created) d' → ∃ i, instances d' !! id = Some i ∧ same_manual input i.
Proof.
  intros HI. unfold manual_effect. destruct created; simpl; [|by intros [-> Hi]].
  intros (j & now & _ & _ & _ & _ & _ & _ & -> & ->). eexists. split; [apply lookup_insert_eq|].
  split_and!; [done|done|done|]. intros Ho. etrans; [apply params_text_Value|]. unfold manual_config.
  by rewrite Ho.
Qed.

Lemma same_manual_evolves input d d' id i :
  db_evolves d d' → instances d !! id = Some i → same_manual input i →
  ∃ i', instances d' !! id = Some i' ∧ same_manual input i'.
Proof.
  intros He Hi Hs. destruct (dbe_instances _ _ He _ _ Hi) as (i' & Hi' & [Hf _ _ _ _ _]). exists i'. split; [done|].
  unfold same_manual in *. injection Hf as -> _ _ _ _ -> -> _ -> _. done.
Qed.

(** A manual request creates at most one Instance.  When a request identity
    has been answered, every later answered call with that Job and identity, on any
    node, returns the same Instance, and asks for the same parameters. *)
Theorem manual_request_once s s' input input' d env env' w w' id id' :
  rely env → rely env' → db_inv d →
  mt_JobID input' = mt_JobID input → mt_RequestID input' = mt_RequestID input →
  TriggerManualJob s input (start d env) = (w, Ok id) →
  TriggerManualJob s' input' (start (w_db w) env') = (w', Ok id') →
  id' = id ∧ mt_ParamsOverridden input' = mt_ParamsOverridden input ∧
  (mt_ParamsOverridden input = true → TrimSpace (mt_Params input') = TrimSpace (mt_Params input)).
Proof.
  intros Hr Hr' HI Ej Eq E E'.
  destruct (wp_start _ _ _ _ _ _ (TriggerManualJob_wp s input d []) Hr HI E) as (HIw & _ & Hok & _).
  destruct (Hok id eq_refl) as (d1 & created & HI1 & _ & Heff & _).
  destruct (wp_start _ _ _ _ _ _ (TriggerManualJob_wp s' input' _ []) Hr' HIw E') as (HIw' & _ & Hok' & _).
  destruct (Hok' id' eq_refl) as (d2 & created' & HI2 & He2 & Heff' & _).
  destruct (manual_effect_same _ _ _ _ _ HI1 Heff) as (i & Hi & Hs).
  assert (guarantee [JobRow (mt_JobID input')] d2 (w_db w')) as Hg by (eapply manual_effect_step; [exact Heff'|]; by left).
  destruct (Hg HI2) as (_ & He3 & _).
  destruct (same_manual_evolves _ _ _ _ _ (transitivity He2 He3) Hi Hs) as (i1 & Hi1 & Hs1).
  destruct (manual_effect_same _ _ _ _ _ HI2 Heff') as (i2 & Hi2 & Hs2).
  destruct Hs1 as (J1 & Q1 & O1 & T1), Hs2 as (J2 & Q2 & O2 & T2). simpl in *.
  assert (id' = id) as -> by (eapply (inv_request _ HIw'); [done|done|congruence..]).
  assert (i2 = i1) as -> by congruence. split_and!; [done|congruence|].
  intros Ho. assert (Some (TrimSpace (mt_Params input')) = Some (TrimSpace (mt_Params input))) by
    (rewrite <-T1, <-T2 by congruence; done). by simplify_eq.
Qed.

Lemma Next_after expr t next : Next expr t = Ok next → t < next.
Proof.
  unfold Next, result_bind. destruct (Parse expr); [|done]. destruct (is_zero _ || _) eqn:E; [done|].
  intros [= <-]. unfold is_after in E. to_prop. done.
Qed.

(** A due occurrence is consumed exactly once.  When an automatic trigger
    answers that it acted, it moved the Job's next trigger time strictly past the
    occurrence in the same commit; the occurrence then has its Instance, or it was
    skipped because the misfire policy or the block policy says so. *)
Theorem automatic_progress s id d env w res :
  rely env → db_inv d → TriggerAutomatic s id (start d env) = (w, Ok res) →
  ar_Reason res ∉ ["not_found"; "disabled"; "not_due"]%string →
  ∃ d1 j j' scheduledAt next, db_evolves d d1 ∧ db_evolves d1 (w_db w) ∧
    jobs d1 !! id = Some j ∧ j_status j = RecordStatusEnabled ∧ j_next_trigger_at j = Some scheduledAt ∧
    jobs (w_db w) !! id = Some j' ∧ j_next_trigger_at j' = Some next ∧ scheduledAt < next ∧
    ((ar_Reason res = "misfire_ignored"%string ∧ j_misfire_policy j = MisfireIgnore) ∨
     (ar_Reason res = "blocked"%string ∧ j_block_policy j = BlockDiscard ∧
        ∃ d0 k i, db_evolves d d0 ∧ db_evolves d0 d1 ∧
          instances d0 !! k = Some i ∧ i_job_id i = id ∧ active (i_status i) = true) ∨
     ∃ k i, instances (w_db w) !! k = Some i ∧ i_job_id i = id ∧ i_scheduled_at i = Some scheduledAt ∧
       (ar_Created res = true → k = ar_InstanceID res ∧ i_status i = InstanceWaiting)).
Proof.
  intros Hr HI E Hacted.
  destruct (wp_start _ _ _ _ _ _ (TriggerAutomatic_wp s id d []) Hr HI E) as (_ & _ & Hok & _).
  destruct (Hok res eq_refl) as (d0 & d1 & He0 & He1 & HI1 & Heff & _).
  assert (guarantee [JobRow id] d1 (w_db w)) as Hg by (eapply automatic_effect_step; [exact Heff|]; right; by left).
  destruct (Hg HI1) as (_ & Hev & _).
  destruct Heff as [(_ & _ & Hno)|(j & at_ & now & next & d2 & upd & Hj & _ & Hen & Hat & Hle & Hnext & Hdue & Hw)].
  { destruct Hacted. destruct Hno as [-> | [[-> _] | [-> _]]]; set_solver. }
  apply Next_after in Hnext. exists d1, j. eexists _, at_, next. rewrite Hw in *. simpl. rewrite lookup_insert_eq.
  split_and!; try done; [by etrans|lia|].
  destruct Hdue as [(Hi & _ & ->)|[(_ & Hb & (dx & Hx1 & Hx2 & Hex) & _ & ->)|[(_ & -> & -> & k & i & Hi & Hji & Hsi)|(_ & _ & t & _ & _ & -> & ->)]]].
  - left. by to_prop.
  - right. left. split_and!; [done..|].
    apply exists_instance_true in Hex as (k & i & Hi & Ha). to_prop. exists dx, k, i. split_and!; [by etrans|done..].
  - right. right. exists k, i. by split_and!.
  - right. right. eexists _, _. split; [apply lookup_insert_eq|]. by split_and!.
Qed.

(** ** Cron previews *)

Lemma preview_loop_chain expr sch n times r x :
  Parse expr = Ok sch → preview_loop n sch times x = Ok r →
  ∃ more, r = times ++ more ∧ (length more ≤ n)%nat ∧ (r = [] → n = O) ∧
    (∀ k y z, (x :: more) !! k = Some y → (x :: more) !! S k = Some z → Next expr y = Ok z) ∧
    (∀ y, (length more < n)%nat → last (x :: more) = Some y → Next expr y = Fail no_occurrence).
Proof.
  intros Hp. revert times x. induction n as [|n IH]; intros times x; simpl.
  - intros [= <-]. exists []. rewrite app_nil_r. split_and!; [done|done|done| |intros; simpl in *; lia].
    intros [|k] y z; by destruct k || done.
  - assert (Next expr x = if is_zero (cron_next sch x) || negb (is_after (cron_next sch x) x)
      then Fail no_occurrence else Ok (cron_next sch x)) as Hn by (unfold Next, result_bind; by rewrite Hp).
    destruct (is_zero _ || _).
    + case_bool_decide as Ht; [done|]. intros [= <-]. exists []. rewrite app_nil_r.
      split_and!; [done|simpl; lia|done|intros [|k]; done|]. by intros y _ [= <-].
    + intros Hr. apply IH in Hr as (more & -> & Hlen & _ & Hch & Hend).
      exists (cron_next sch x :: more). rewrite <-app_assoc. split_and!; [done|simpl; lia|by intros []%app_nil| |].
      * intros [|k] y z; simpl; [intros [= <-] [= <-]; done|]. apply Hch.
      * intros y Hl' Hy. apply (Hend y); [simpl in *; lia|]. done.
Qed.

(** A preview is the iteration of [Next]: at most five times, each the next
    occurrence after its predecessor and hence strictly later, and fewer than five
    only when the last one has no successor. *)
Theorem preview_iterates_next expr after times :
  Preview expr after = Ok times →
  (1 ≤ length times ≤ 5)%nat ∧
  (∀ k x y, (after :: times) !! k = Some x → (after :: times) !! S k = Some y → Next expr x = Ok y ∧ x < y) ∧
  (∀ x, (length times < 5)%nat → last times = Some x → Next expr x = Fail no_occurrence).
Proof.
  unfold Preview, result_bind. destruct (Parse expr) as [sch|] eqn:Hp; [|done]. intros Hl.
  destruct (preview_loop_chain expr sch 5 [] times after Hp Hl)
    as (more & -> & Hlen & Hne & Hch & Hend). simpl app in *.
  assert (more ≠ []) as Hm by (intros ->; by specialize (Hne eq_refl)). split_and!.
  - destruct more; [done|simpl; lia].
  - done.
  - intros k x y Hx Hy. specialize (Hch k x y Hx Hy). split; [done|by eapply Next_after].
  - intros x Hlt Hx. apply (Hend x Hlt). destruct more; [done|]. by rewrite last_cons_cons.
Qed.
End outcomes.

(** ** Instances *)

Lemma demo_running_inv : db_inv demo_running.
Proof. apply reachable_db_inv, demo_running_reachable. Qed.

Lemma stop_request_effect_witness :
  ∃ w dec, requestStop 1 false (start demo_running (calm 350)) = (w, Ok dec) ∧ de_New dec = true ∧
    ∃ d1, db_inv d1 ∧ db_evolves demo_running d1 ∧ stop_decided 1 false d1 dec (w_db w).
Proof.
  eexists _, _. split; [evaluate|]. split; [reflexivity|].
  eapply (stop_request_effect 1 false demo_running (calm 350)); [apply calm_rely|apply demo_running_inv|evaluate].
Defined.

(** The round's deadline is an hour after its start. *)
Abbreviation demo_late := (300 + 3600 * Second).

Lemma check_sound_witness :
  ∃ w r, Check demo_checker 1 (start demo_running (calm demo_late)) = (w, r) ∧ w_out w = [StopPublished 1 1] ∧
    checked 1 demo_running [] r (w_db w) (w_out w).
Proof.
  eexists _, _. split; [evaluate|]. split; [reflexivity|].
  eapply (check_sound demo_checker 1 demo_running (calm demo_late)); [apply calm_rely|apply demo_running_inv|evaluate].
Defined.

Lemma save_only_current_attempt_witness :
  ∃ w r c, Save demo_saver demo_report (start demo_running (calm 400)) = (w, r) ∧ last (w_commits w) = Some c ∧
    saves demo_report (c_before c) (c_after c).
Proof.
  eexists _, _, _. split; [evaluate|]. split; [reflexivity|].
  eapply (save_only_current_attempt demo_saver demo_report demo_running (calm 400)); [evaluate|].
  apply list_elem_of_In. right. left. reflexivity.
Defined.

(** The dispatching node died after registering: nothing was bound. *)
Abbreviation demo_orphan := (after_run (StartOrdinary 1) 300
  (demo_run [(create_demo_group, 100); (create_demo_job, 100);
             (OpTriggerManual demo_creator demo_input, 200)] empty_db)).
Definition demo_candidate : UnboundCandidate :=
  {| uc_TaskID := 1; uc_InstanceID := 1; uc_AttemptNo := 1; uc_AttemptRegisteredAt := 300 |}.

Lemma settle_after_observation_witness :
  ∃ w r c, SettleBatch demo_settler [demo_candidate] (start demo_orphan (calm (300 + 30 * Second))) = (w, r) ∧
    last (w_commits w) = Some c ∧ (t_status <$> tasks (c_after c) !! 1) = Some TaskRetryWaiting ∧
    settles (calm (300 + 30 * Second)) (30 * Second) [demo_candidate] (c_before c) (c_after c).
Proof.
  eexists _, _, _. split; [evaluate|]. split; [reflexivity|]. split; [reflexivity|].
  eapply (settle_after_observation demo_settler [demo_candidate] demo_orphan (calm (300 + 30 * Second))); [evaluate|].
  apply list_elem_of_In. right. right. left. reflexivity.
Defined.

(** The same request again, with parameters that differ in surrounding blanks. *)
Lemma manual_request_once_witness :
  ∃ w w', TriggerManualJob demo_creator demo_input (start
      (demo_run [(create_demo_group, 100); (create_demo_job, 100)] empty_db) (calm 200)) = (w, Ok 1) ∧
    TriggerManualJob demo_creator { demo_input with mt_Params := "x"%string } (start (w_db w) (calm 210)) = (w', Ok 1) ∧
    TrimSpace "x" = TrimSpace (mt_Params demo_input).
Proof.
  eexists _, _. split; [evaluate|]. split; [evaluate|].
  edestruct (manual_request_once demo_creator demo_creator demo_input { demo_input with mt_Params := "x"%string }
    (demo_run [(create_demo_group, 100); (create_demo_job, 100)] empty_db) (calm 200) (calm 210))
    as (_ & _ & Hp);
    [apply calm_rely|apply calm_rely|apply reachable_db_inv, demo_reachable, empty_reachable|reflexivity|reflexivity
    |evaluate|evaluate|]. exact (Hp eq_refl).
Defined.

Lemma automatic_progress_witness :
  ∃ w res, TriggerAutomatic demo_creator 1 (start
      (demo_run [(create_demo_group, 100); (create_demo_job, 100)] empty_db) (calm (100 + 10 * Second))) = (w, Ok res) ∧
    ar_Created res = true ∧
    ∃ j' next, jobs (w_db w) !! 1 = Some j' ∧ j_next_trigger_at j' = Some next ∧ (100 + 10 * Second) < next.
Proof.
  eexists _, _. split; [evaluate|]. split; [reflexivity|].
  edestruct (automatic_progress demo_creator 1
    (demo_run [(create_demo_group, 100); (create_demo_job, 100)] empty_db) (calm (100 + 10 * Second)))
    as (d1 & j & j' & at_ & next & _ & _ & _ & _ & _ & Hj' & Hn & _);
    [apply calm_rely|apply reachable_db_inv, demo_reachable, empty_reachable|evaluate| |].
  - apply (bool_decide_unpack _). exact I.
  - exists j', next. split; [exact Hj'|]. split; [exact Hn|]. injection Hj' as <-. injection Hn as <-. reflexivity.
Defined.

Definition demo_times : list Time := (λ k : Z, k * 10 * Second) <$> [1; 2; 3; 4; 5].

Lemma preview_iterates_next_witness :
  Preview "0 0 3 * * *" 0 = Ok demo_times ∧ (1 ≤ length demo_times ≤ 5)%nat.
Proof.
  split; [evaluate|].
  apply (preview_iterates_next "0 0 3 * * *" 0). evaluate.
Defined.
