(* ===== verification/Scans.v ===== *)
(** * Candidate scans visit every row once

    The background loops of the Job domain walk their candidates page by page,
    each page starting after the last row of the previous one.  In an unchanged
    database such a walk visits every eligible row exactly once.  The second
    part is the filters and pages of the management lists. *)

From S2P Require Import Prelude GoLib Tx Model TaskRepo InstanceRepo JobRepo Dispatcher ResultSaver.
From S2P Require Import JobLogic.
From S2P Require Import Settler StopController Checker Logic Protocol Registration System Trigger Runs.

Open Scope Z_scope.

(** A walk only asks for pages after rows it has seen. *)
Lemma walk_ext {A} (R : relation A) `{!RelDecision R} (l : list A) (fetch : option A → list A) limit fuel c :
  (∀ c, (∀ x, c = Some x → x ∈ l) → fetch c = page R l c limit) → (∀ x, c = Some x → x ∈ l) →
  walk fetch limit fuel c = walk (λ c, page R l c limit) limit fuel c.
Proof.
  intros Hf. revert c. induction fuel as [|fuel IH]; intros c Hc; [done|]. simpl. rewrite (Hf c Hc).
  destruct (_ <? _)%nat; [done|]. f_equal. apply IH. intros x Hx.
  apply last_Some in Hx as [k Hk]. assert (x ∈ page R l c limit) as Hin by (rewrite Hk; set_solver).
  unfold page in Hin. apply elem_of_take in Hin as (n & Hn & _). apply list_elem_of_lookup_2, list_elem_of_filter in Hn. tauto.
Qed.

(** ** Candidates projected from a table and ordered by a time and the row id *)

Section candidates.
Context {B C : Type} (m : gmap Z B) (f : Z * B → option C) (key : C → Z * Z).
Hypothesis Hid : ∀ r c, f r = Some c → (key c).2 = r.1.

Definition candidates : list C := order_by key (omap f (rows m)).

Lemma elem_of_candidates c : c ∈ candidates ↔ ∃ id b, m !! id = Some b ∧ f (id, b) = Some c.
Proof.
  unfold candidates. rewrite elem_of_order_by, list_elem_of_omap. split.
  - intros ([id b] & Hin & Hf). exists id, b. by rewrite <-elem_of_rows.
  - intros (id & b & Hm & Hf). exists (id, b). by rewrite elem_of_rows.
Qed.

Lemma NoDup_omap_ids (l : list (Z * B)) : NoDup l.*1 → NoDup (snd ∘ key <$> omap f l).
Proof.
  induction l as [|r l IH]; simpl; [constructor|]. intros [Hr Hl]%NoDup_cons.
  destruct (f r) as [c|] eqn:E; [|by apply IH]. simpl. constructor; [|by apply IH].
  intros Hin. apply list_elem_of_fmap in Hin as (c' & E' & Hc'). apply list_elem_of_omap in Hc' as (r' & Hr' & Ef).
  apply Hr. simpl in E'. rewrite (Hid _ _ E), (Hid _ _ Ef) in E'. rewrite E'. by apply list_elem_of_fmap_2.
Qed.

Lemma NoDup_candidates : NoDup (snd ∘ key <$> candidates).
Proof.
  unfold candidates. rewrite (order_by_perm key (omap f (rows m))). apply NoDup_omap_ids. auto with tables.
Qed.

Lemma candidates_sorted : StronglySorted (key_lt key) candidates.
Proof.
  apply order_by_strict. apply (NoDup_fmap_1 snd). rewrite <-list_fmap_compose. apply NoDup_omap_ids. auto with tables.
Qed.

Lemma length_omap_le (l : list (Z * B)) : (length (omap f l) ≤ length l)%nat.
Proof. induction l as [|r l IH]; csimpl; [lia|]. destruct (f r); csimpl; lia. Qed.

Lemma length_candidates : (length candidates ≤ size m)%nat.
Proof.
  unfold candidates. rewrite (Permutation_length (order_by_perm key _)). etrans; [apply length_omap_le|].
  unfold rows. by rewrite (Permutation_length (order_by_perm row_key _)), length_map_to_list.
Qed.

(** Walking the pages of a query over the candidates returns all of them. *)
Lemma scan_candidates (fetch : option C → list C) limit fuel :
  (0 < limit)%nat → (size m < fuel)%nat →
  (∀ c, (∀ x, c = Some x → x ∈ candidates) → fetch c = page (key_lt key) candidates c limit) →
  walk fetch limit fuel None = candidates.
Proof.
  intros Hl Hs Hf. rewrite (walk_ext (key_lt key) candidates) by done.
  rewrite walk_page; [by apply filter_all|apply _|apply key_lt_irrefl|apply candidates_sorted|done|].
  rewrite filter_all by done. pose proof length_candidates. lia.
Qed.

(** ... each row once, and no others. *)
Lemma scan_visits (fetch : option C → list C) limit fuel :
  (0 < limit)%nat → (size m < fuel)%nat →
  (∀ c, (∀ x, c = Some x → x ∈ candidates) → fetch c = page (key_lt key) candidates c limit) →
  let visited := walk fetch limit fuel None in
  NoDup (snd ∘ key <$> visited) ∧
  ∀ id, id ∈ (snd ∘ key <$> visited) ↔ ∃ b, m !! id = Some b ∧ is_Some (f (id, b)).
Proof.
  intros Hl Hs Hf visited. unfold visited. rewrite scan_candidates by done. split; [apply NoDup_candidates|].
  intros id. rewrite list_elem_of_fmap. split.
  - intros (c & -> & (id' & b & Hb & Hc)%elem_of_candidates). exists b. simpl. rewrite (Hid _ _ Hc). by eauto.
  - intros (b & Hb & c & Hc). exists c. simpl. rewrite (Hid _ _ Hc). split; [done|]. apply elem_of_candidates. eauto.
Qed.
End candidates.

(** The rows of an answer; a failed query has none. *)
Definition answer {A} (r : Result (list A)) : list A := match r with Ok l => l | Fail _ => [] end.

Section scans.
Context `{UuidLib, PgLib}.

Lemma calm_answer {A} now (m : M (list A)) d l : calm_to now m d d (Ok l) [] → answer (result_of m now d) = l.
Proof. intros Hm. destruct (calm_run _ _ _ _ _ _ Hm) as (_ & Hr & _). unfold result_of. by rewrite Hr. Qed.

(** A due retry: waiting, at its time, of a running Instance before its deadline. *)
Definition due_retry (d : DB) (scanNow : Time) (id : Z) : Prop :=
  ∃ t i at_ dl, tasks d !! id = Some t ∧ t_status t = TaskRetryWaiting ∧ t_next_dispatch_at t = Some at_ ∧ at_ ≤ scanNow ∧
    instances d !! t_instance_id t = Some i ∧ i_status i = InstanceRunning ∧ i_deadline_at i = Some dl ∧ scanNow < dl.

Lemma retry_candidate_spec d scanNow r c :
  retry_candidate d scanNow r = Some c →
  ∃ t, r = (rc_TaskID c, t) ∧ t_next_dispatch_at t = Some (rc_NextDispatchAt c) ∧ rc_NextDispatchAt c ≤ scanNow.
Proof.
  unfold retry_candidate. destruct r as [id t]. destruct (t_next_dispatch_at t) as [at_|] eqn:Ea; [|done].
  destruct (instances d !! _) as [i|]; [|done].
  match goal with |- (if ?b then _ else _) = _ → _ => destruct b eqn:E; [|done] end. intros [= <-]. to_prop. simpl. eauto.
Qed.

Lemma retry_candidate_due d scanNow id :
  (∃ t, tasks d !! id = Some t ∧ is_Some (retry_candidate d scanNow (id, t))) ↔ due_retry d scanNow id.
Proof.
  unfold retry_candidate. split.
  - intros (t & Ht & c & Hc). destruct (t_next_dispatch_at t) as [at_|] eqn:Ea; [|done].
    destruct (instances d !! t_instance_id t) as [i|] eqn:Ei; [|done].
    match type of Hc with (if ?b then _ else _) = _ => destruct b eqn:E; [|done] end. to_prop.
    destruct (i_deadline_at i) as [dl|] eqn:Ed; [|done]. to_prop. exists t, i, at_, dl. by split_and!.
  - intros (t & i & at_ & dl & Ht & Hs & Ha & Hle & Hi & Hr & Hdl & Hlt). exists t. split; [done|].
    rewrite Ha, Hi, Hs, Hr, Hdl. rewrite (proj2 (Z.leb_le _ _)), (proj2 (Z.ltb_lt _ _)) by done. by eexists.
Qed.

Definition retry_cursor (c : RetryCandidate) : RetryCursor :=
  {| rcur_NextDispatchAt := rc_NextDispatchAt c; rcur_TaskID := rc_TaskID c |}.

(** The retry scan is complete.  In an unchanged database, walking the pages of
    the retry query from the beginning, with any page size it accepts, visits every
    Task whose retry is due, none twice, and no other. *)
Theorem retry_scan_complete d scanNow now limit fuel :
  db_inv d → scanNow ≠ 0 → 1 ≤ limit ≤ 128 → (∀ id t, tasks d !! id = Some t → t_next_dispatch_at t ≠ Some 0) →
  (size (tasks d) < fuel)%nat →
  let visited := walk (λ c, answer (result_of (ListRetryCandidates Auto scanNow (retry_cursor <$> c) limit) now d))
                   (Z.to_nat limit) fuel None in
  NoDup (rc_TaskID <$> visited) ∧ ∀ id, id ∈ rc_TaskID <$> visited ↔ due_retry d scanNow id.
Proof.
  intros HI Hn Hl Hz Hs. intros visited.
  assert (∀ r c, (retry_candidate d scanNow) r = Some c → (rc_key c).2 = r.1) as Hid by (by intros r c (t & -> & _)%retry_candidate_spec).
  destruct (scan_visits (tasks d) (retry_candidate d scanNow) rc_key Hid
    (λ c, answer (result_of (ListRetryCandidates Auto scanNow (retry_cursor <$> c) limit) now d)) (Z.to_nat limit) fuel) as [Hnd Hv];
    [lia|done| |split; [exact Hnd|intros id; rewrite <-retry_candidate_due; apply Hv]].
  intros c Hc. apply calm_answer. unfold ListRetryCandidates.
  match goal with |- context [if ?b then fail _ else _] => replace b with false end.
  - eapply calm_eq; [apply calm_query|done| |done]. unfold page, retry_candidates, candidates. do 2 f_equal.
    apply list_filter_iff. intros x. by destruct c.
  - unfold is_zero, is_after. rewrite (proj2 (Z.eqb_neq scanNow 0)), !(proj2 (Z.ltb_ge _ _)) by lia. simpl.
    destruct c as [c|]; [|done]. simpl. destruct (proj1 (elem_of_candidates _ _ _ _) (Hc c eq_refl)) as (id & t & Ht & Hf).
    destruct (retry_candidate_spec _ _ _ _ Hf) as (t' & [= -> ->] & Ha & Hle).
    destruct (inv_task_id _ HI _ _ Ht) as [Hp _]. specialize (Hz _ _ Ht).
    rewrite (proj2 (Z.leb_gt _ 0)), (proj2 (Z.eqb_neq _ 0)), (proj2 (Z.ltb_ge _ _)) by (done || congruence). done.
Qed.

(** An unbound attempt past the observation cutoff, whose round is not over. *)
Definition unknown_attempt (d : DB) (scanNow cutoff : Time) (id : Z) : Prop :=
  ∃ t i at_ s dl, tasks d !! id = Some t ∧ t_status t = TaskRunning ∧ t_executor_instance_id t = None ∧
    t_executor_address t = None ∧ t_attempt_registered_at t = Some at_ ∧ at_ ≤ cutoff ∧
    instances d !! t_instance_id t = Some i ∧ i_status i = InstanceRunning ∧
    i_started_at i = Some s ∧ i_deadline_at i = Some dl ∧ s < dl ∧ scanNow < dl.

Lemma unbound_candidate_spec d scanNow cutoff r c :
  unbound_candidate d scanNow cutoff r = Some c →
  ∃ t, r = (uc_TaskID c, t) ∧ t_attempt_registered_at t = Some (uc_AttemptRegisteredAt c) ∧ uc_AttemptRegisteredAt c ≤ cutoff.
Proof.
  unfold unbound_candidate. destruct r as [id t]. destruct (t_attempt_registered_at t) as [at_|] eqn:Ea; [|done].
  destruct (instances d !! _) as [i|]; [|done].
  match goal with |- (if ?b then _ else _) = _ → _ => destruct b eqn:E; [|done] end. intros [= <-]. to_prop. simpl. eauto.
Qed.

Lemma unbound_candidate_unknown d scanNow cutoff id :
  (∃ t, tasks d !! id = Some t ∧ is_Some (unbound_candidate d scanNow cutoff (id, t))) ↔ unknown_attempt d scanNow cutoff id.
Proof.
  unfold unbound_candidate, unbound_parent. split.
  - intros (t & Ht & c & Hc). destruct (t_attempt_registered_at t) as [at_|] eqn:Ea; [|done].
    destruct (instances d !! t_instance_id t) as [i|] eqn:Ei; [|done].
    match type of Hc with (if ?b then _ else _) = _ => destruct b eqn:E; [|done] end. to_prop.
    destruct (i_started_at i) as [s|] eqn:Es; [|done]. destruct (i_deadline_at i) as [dl|] eqn:Ed; [|done]. to_prop.
    exists t, i, at_, s, dl. by split_and!.
  - intros (t & i & at_ & s & dl & Ht & Hs & Hu & Hx & Ha & Hle & Hi & Hr & Hst & Hdl & H1 & H2). exists t. split; [done|].
    rewrite Ha, Hi, Hs, Hu, Hx, Hr, Hst, Hdl. rewrite (proj2 (Z.leb_le _ _)), !(proj2 (Z.ltb_lt _ _)) by done. by eexists.
Qed.

Definition unbound_cursor (c : UnboundCandidate) : UnboundCursor :=
  {| ucur_AttemptRegisteredAt := uc_AttemptRegisteredAt c; ucur_TaskID := uc_TaskID c |}.

(** The recovery scan is complete: walking the pages of the unbound-attempt query
    visits exactly the attempts whose result is unknown at the cutoff, each once. *)
Theorem unbound_scan_complete d scanNow cutoff now limit fuel :
  db_inv d → cutoff ≠ 0 → scanNow ≠ 0 → cutoff < scanNow → 1 ≤ limit →
  (∀ id t, tasks d !! id = Some t → t_attempt_registered_at t ≠ Some 0) → (size (tasks d) < fuel)%nat →
  let visited := walk (λ c, answer (result_of (ListUnboundCandidates Auto scanNow cutoff (unbound_cursor <$> c) limit) now d))
                   (Z.to_nat limit) fuel None in
  NoDup (uc_TaskID <$> visited) ∧ ∀ id, id ∈ uc_TaskID <$> visited ↔ unknown_attempt d scanNow cutoff id.
Proof.
  intros HI Hc0 Hn Hlt Hl Hz Hs. intros visited.
  assert (∀ r c, (unbound_candidate d scanNow cutoff) r = Some c → (uc_key c).2 = r.1) as Hid by (by intros r c (t & -> & _)%unbound_candidate_spec).
  destruct (scan_visits (tasks d) (unbound_candidate d scanNow cutoff) uc_key Hid
    (λ c, answer (result_of (ListUnboundCandidates Auto scanNow cutoff (unbound_cursor <$> c) limit) now d)) (Z.to_nat limit) fuel) as [Hnd Hv];
    [lia|done| |split; [exact Hnd|intros id; rewrite <-unbound_candidate_unknown; apply Hv]].
  intros c Hc. apply calm_answer. unfold ListUnboundCandidates.
  match goal with |- context [if ?b then fail _ else _] => replace b with false end.
  - eapply calm_eq; [apply calm_query|done| |done]. unfold page, unbound_candidates, candidates. do 2 f_equal.
    apply list_filter_iff. intros x. by destruct c.
  - unfold is_zero, is_after, before.
    rewrite (proj2 (Z.eqb_neq scanNow 0)), (proj2 (Z.eqb_neq cutoff 0)), (proj2 (Z.ltb_lt cutoff scanNow)), (proj2 (Z.ltb_ge limit 1)) by lia.
    simpl. destruct c as [c|]; [|done]. simpl.
    destruct (proj1 (elem_of_candidates _ _ _ _) (Hc c eq_refl)) as (id & t & Ht & Hf).
    destruct (unbound_candidate_spec _ _ _ _ _ Hf) as (t' & [= -> ->] & Ha & Hle).
    destruct (inv_task_id _ HI _ _ Ht) as [Hp _]. specialize (Hz _ _ Ht).
    rewrite (proj2 (Z.leb_gt _ 0)), (proj2 (Z.eqb_neq _ 0)), (proj2 (Z.ltb_ge _ _)) by (done || congruence). done.
Qed.

(** ** Scans by primary key up to a fixed upper bound *)

Lemma max_id_bound P d id i :
  instances d !! id = Some i → P i = true → id ≤ max_id P d.
Proof.
  intros Hi HP. unfold max_id. assert (id ∈ ids_where (λ _ i, P i) (instances d)) as Hin by (apply elem_of_ids_where; eauto).
  destruct (last _) as [y|] eqn:E; [exact (StronglySorted_last_max _ _ _ (ids_where_sorted _ _) E Hin)|].
  apply last_None in E. rewrite E in Hin. by apply elem_of_nil in Hin.
Qed.

(** The query's bounds select what follows the cursor. *)
Lemma ids_where_upto (P : JobInstance → bool) d c upper :
  db_inv d → (∀ id i, instances d !! id = Some i → P i = true → id ≤ upper) →
  ids_where (λ id i, P i && (default 0 c <? id) && (id <=? upper)) (instances d) =
  filter (after Z.lt c) (ids_where (λ _ i, P i) (instances d)).
Proof.
  intros HI Hup. unfold ids_where.
  assert (∀ r, r ∈ rows (instances d) → 0 < r.1 ∧ (P r.2 = true → r.1 ≤ upper)) as Hr.
  { intros [id i] Hin%elem_of_rows. split; [by eapply inv_inst_id|intros; by eapply Hup]. }
  induction (rows (instances d)) as [|[id i] l IH]; [done|].
  destruct (Hr (id, i)) as [Hpos Hle]; [by left|]. simpl in *. specialize (IH (λ r Hin, Hr r (list_elem_of_further _ _ _ Hin))).
  assert (after Z.lt c id ↔ (default 0 c <? id) = true) as Hiff
    by (rewrite Z.ltb_lt; destruct c; simpl; [done|split; [by intros|done]]).
  destruct (P i) eqn:HP.
  - rewrite (filter_cons_True (λ r : Z * JobInstance, P r.2 = true)) by done. rewrite fmap_cons. simpl.
    destruct (default 0 c <? id) eqn:Ec.
    + rewrite !filter_cons_True; [|by apply Hiff|simpl; rewrite HP, Ec; simpl; by apply Z.leb_le; auto].
      rewrite fmap_cons. simpl. by f_equal.
    + rewrite !filter_cons_False; [exact IH|by intros ?%Hiff|simpl; by rewrite HP, Ec].
  - rewrite (filter_cons_False (λ r : Z * JobInstance, P r.2 = true)) by (simpl; congruence).
    rewrite filter_cons_False by (simpl; by rewrite HP). exact IH.
Qed.

(** The walk of an id-ordered query with a numeric cursor, zero at the start. *)
Lemma scan_ids (P : JobInstance → bool) d limit fuel (fetch : option Z → list Z) :
  (0 < limit)%nat → (size (instances d) < fuel)%nat →
  (∀ c, (∀ x, c = Some x → x ∈ ids_where (λ _ i, P i) (instances d)) →
     fetch c = page Z.lt (ids_where (λ _ i, P i) (instances d)) c limit) →
  walk fetch limit fuel None = ids_where (λ _ i, P i) (instances d).
Proof.
  intros Hl Hs Hf. rewrite (walk_ext Z.lt (ids_where (λ _ i, P i) (instances d))) by done.
  rewrite walk_page; [by apply filter_all|apply _|lia|auto with tables|done|].
  rewrite filter_all by done. unfold ids_where. rewrite length_fmap.
  pose proof (length_filter (λ r : Z * JobInstance, P r.2 = true) (rows (instances d))).
  assert (length (rows (instances d)) = size (instances d)) by
    (unfold rows; by rewrite (Permutation_length (order_by_perm row_key _)), length_map_to_list). lia.
Qed.

(** The waiting scan is complete: walking the pages of waiting Instances up to
    the largest waiting id read at the start returns exactly the waiting Instances,
    in ascending order. *)
Theorem waiting_scan_complete d now limit fuel upper :
  db_inv d → 1 ≤ limit ≤ 128 → (size (instances d) < fuel)%nat → result_of (MaxWaitingID Auto) now d = Ok upper →
  walk (λ c, answer (result_of (ListWaitingIDs Auto (default 0 c) upper limit) now d)) (Z.to_nat limit) fuel None =
  ids_where (λ _ i, is_waiting i) (instances d).
Proof.
  intros HI Hl Hs Hu. assert (upper = max_id is_waiting d) as ->.
  { destruct (calm_run _ _ _ _ _ _ (calm_query now Auto (λ _ d, Ok (max_id is_waiting d)) d)) as (_ & Hr & _).
    change (result_of (MaxWaitingID Auto) now d = Ok (max_id is_waiting d)) in Hr. congruence. }
  apply scan_ids; [lia|done|]. intros c Hc.
  assert (∀ x, c = Some x → 0 < x ≤ max_id is_waiting d) as Hx.
  { intros x ->. destruct (proj1 (elem_of_ids_where _ _ _) (Hc x eq_refl)) as (i & Hi & Hw).
    split; [by eapply inv_inst_id|by eapply max_id_bound]. }
  assert (0 ≤ max_id is_waiting d) as Hm.
  { unfold max_id. destruct (last _) as [y|] eqn:E; [|done]. apply last_Some in E as [k Hk].
    assert (y ∈ ids_where (λ _ i, is_waiting i) (instances d)) as Hy by (rewrite Hk; apply elem_of_app; right; left).
    apply elem_of_ids_where in Hy as (i & Hi & _). apply (inv_inst_id _ HI) in Hi. lia. }
  assert (page Z.lt (ids_where (λ _ i, is_waiting i) (instances d)) c (Z.to_nat limit) =
    take (Z.to_nat limit) (ids_where (λ id i, is_waiting i && (default 0 c <? id) && (id <=? max_id is_waiting d)) (instances d))) as ->.
  { unfold page. f_equal. symmetry. apply ids_where_upto; [done|]. intros x i Hi Hw. by eapply max_id_bound. }
  apply calm_answer. unfold ListWaitingIDs.
  rewrite !(proj2 (Z.ltb_ge _ _)) by (destruct c as [x|]; simpl; [specialize (Hx x eq_refl)|]; lia). simpl orb. cbv iota.
  destruct (_ =? _) eqn:E; [|apply calm_query]. to_prop. rewrite E.
  match goal with |- calm_to _ _ _ _ (Ok (take _ ?l)) _ => replace l with (@nil Z); [rewrite take_nil; apply calm_ret|] end.
  symmetry. match goal with |- ?l = [] => destruct l as [|k l'] eqn:Ek end; [done|exfalso].
  assert (k ∈ k :: l') as Hk by left. rewrite <-Ek in Hk. apply elem_of_ids_where in Hk as (i & _ & Hk). to_prop. lia.
Qed.
End scans.

(** ** Instances *)

Abbreviation demo_retrying := (demo_run [(OpSave demo_saver { demo_report with rp_Outcome := OutcomeFailure }, 400)] demo_running).

Lemma retry_scan_complete_witness :
  1 ∈ rc_TaskID <$> walk (λ c, answer (result_of (ListRetryCandidates Auto (31 * Second) (retry_cursor <$> c) 1) 0 demo_retrying))
        (Z.to_nat 1) 2 None.
Proof.
  apply (retry_scan_complete demo_retrying (31 * Second) 0 1 2).
  - apply reachable_db_inv, demo_reachable, demo_running_reachable.
  - discriminate.
  - done.
  - intros id t Ht Hn. apply elem_of_rows in Ht. apply list_elem_of_In in Ht. vm_compute in Ht.
    destruct Ht as [Ht|[]]. injection Ht as <- <-. discriminate.
  - change (size (tasks demo_retrying)) with (length (map_to_list (tasks demo_retrying))). evaluate.
  - eexists _, _, _, _. split; [evaluate|]. split; [reflexivity|]. split; [reflexivity|]. split; [discriminate|].
    split; [evaluate|]. split; [reflexivity|]. split; [reflexivity|]. reflexivity.
Defined.

(** The node died after registering the first attempt. *)
Abbreviation demo_lost := (after_run (StartOrdinary 1) 300
  (demo_run [(create_demo_group, 100); (create_demo_job, 100);
             (OpTriggerManual demo_creator demo_input, 200)] empty_db)).

Lemma demo_lost_inv : db_inv demo_lost.
Proof.
  unfold after_run. destruct (StartOrdinary 1 (start _ (calm 300))) as [w r] eqn:E.
  refine (proj1 (wp_start _ _ _ _ _ _ (StartOrdinary_wp 1 _ []) (calm_rely 300) _ E)).
  apply reachable_db_inv, demo_reachable, empty_reachable.
Qed.

Lemma unbound_scan_complete_witness :
  1 ∈ uc_TaskID <$> walk (λ c, answer (result_of (ListUnboundCandidates Auto 1000 500 (unbound_cursor <$> c) 1) 0 demo_lost))
        (Z.to_nat 1) 2 None.
Proof.
  apply (unbound_scan_complete demo_lost 1000 500 0 1 2).
  - apply demo_lost_inv.
  - discriminate.
  - discriminate.
  - reflexivity.
  - discriminate.
  - intros id t Ht Hn. apply elem_of_rows in Ht. apply list_elem_of_In in Ht. vm_compute in Ht.
    destruct Ht as [Ht|[]]. injection Ht as <- <-. discriminate.
  - change (size (tasks demo_lost)) with (length (map_to_list (tasks demo_lost))). evaluate.
  - eexists _, _, _, _, _. split; [evaluate|]. split; [reflexivity|]. split; [reflexivity|]. split; [reflexivity|].
    split; [reflexivity|]. split; [discriminate|]. split; [evaluate|]. split; [reflexivity|]. split; [reflexivity|].
    split; [reflexivity|]. split; reflexivity.
Defined.

Abbreviation demo_queued := (demo_run [(create_demo_group, 100); (create_job { demo_job_input with ji_BlockPolicy := Some 1 }, 100);
  (OpTriggerManual demo_creator demo_input, 200);
  (OpTriggerManual demo_creator { demo_input with mt_RequestID := 78 }, 210)] empty_db).

Lemma waiting_scan_complete_witness :
  walk (λ c, answer (result_of (ListWaitingIDs Auto (default 0 c) 2 1) 0 demo_queued)) (Z.to_nat 1) 3 None = [1; 2] ∧
  walk (λ c, answer (result_of (ListWaitingIDs Auto (default 0 c) 2 1) 0 demo_queued)) (Z.to_nat 1) 3 None =
    ids_where (λ _ i, is_waiting i) (instances demo_queued).
Proof.
  split; [evaluate|]. apply (waiting_scan_complete demo_queued 0 1 3 2).
  - apply reachable_db_inv, demo_reachable, empty_reachable.
  - done.
  - change (size (instances demo_queued)) with (length (map_to_list (instances demo_queued))). evaluate.
  - evaluate.
Defined.

(** * Management lists: literal name filters and pages

    A name filter matches the text the user typed, whatever pattern characters it
    contains, and the pages of a list partition its rows. *)

(** ** Patterns *)

(** The characters [LIKE ... ESCAPE '!'] treats specially. *)
Definition special (c : Z) : bool := has c [33; 37; 95].

Definition escape_codes (l : list Z) : list Z := l ≫= (λ c, if special c then [33; c] else [c]).

Lemma special_cases c : special c = true → c = 33 ∨ c = 37 ∨ c = 95.
Proof. unfold special, has. simpl. rewrite !orb_true_iff, !Z.eqb_eq. intuition discriminate. Qed.

Lemma like_anywhere p s : like (37 :: p) s = true ↔ ∃ pre s', s = pre ++ s' ∧ like p s' = true.
Proof.
  split.
  - induction s as [|x s IH]; intros Hl.
    + exists [], []. split; [done|]. simpl in Hl. by rewrite orb_false_r in Hl.
    + change (like p (x :: s) || like (37 :: p) s = true) in Hl. apply orb_true_iff in Hl as [Hl|Hl]; [by exists [], (x :: s)|].
      destruct (IH Hl) as (pre & s' & -> & Hs). by exists (x :: pre), s'.
  - intros (pre & s' & -> & Hs). induction pre as [|x pre IH].
    + destruct s'; simpl in *; by rewrite Hs.
    + change (like p (x :: pre ++ s') || like (37 :: p) (pre ++ s') = true). rewrite IH. apply orb_true_r.
Qed.

Lemma like_quoted c p s : like (33 :: c :: p) s = match s with x :: s' => (x =? c) && like p s' | [] => false end.
Proof. done. Qed.

Lemma like_plain c p s : special c = false →
  like (c :: p) s = match s with x :: s' => (x =? c) && like p s' | [] => false end.
Proof.
  intros Hc. unfold special, has in Hc. simpl in Hc. to_prop.
  destruct c as [|c|c]; try done. do 7 (destruct c as [c|c|]; try done).
Qed.

Lemma like_escaped l p s : like (escape_codes l ++ p) s = true ↔ ∃ s', s = l ++ s' ∧ like p s' = true.
Proof.
  revert s. induction l as [|c l IH]; intros s; simpl.
  - split; [by eauto|]. by intros (s' & -> & Hs).
  - assert (like ((if special c then [33; c] else [c]) ++ (escape_codes l ++ p)) s =
      match s with x :: s' => (x =? c) && like (escape_codes l ++ p) s' | [] => false end) as Hstep
      by (destruct (special c) eqn:Hc; [apply like_quoted|by apply like_plain]).
    unfold escape_codes in *. simpl. rewrite <-app_assoc. rewrite Hstep. destruct s as [|x s]; split.
    + done.
    + by intros (s' & ? & _).
    + intros [Hx Hl]%andb_true_iff. apply Z.eqb_eq in Hx as ->. apply IH in Hl as (s' & -> & Hs). eauto.
    + intros (s' & [= -> ->] & Hs). rewrite Z.eqb_refl. apply IH. eauto.
Qed.

Lemma like_contains l s : like ([37] ++ escape_codes l ++ [37]) s = true ↔ ∃ pre suf, s = pre ++ l ++ suf.
Proof.
  change ([37] ++ escape_codes l ++ [37]) with (37 :: (escape_codes l ++ [37])). rewrite like_anywhere. split.
  - intros (pre & s' & -> & (suf & -> & _)%like_escaped). eauto.
  - intros (pre & suf & ->). exists pre, (l ++ suf). split; [done|]. apply like_escaped. exists suf. split; [done|].
    apply like_anywhere. exists suf, []. by rewrite app_nil_r.
Qed.

(** ** Escaping and UTF-8 *)

Definition escape_bytes (l : list Z) : list Z := l ≫= (λ b, if special b then [33; b] else [b]).

Lemma bytes_app s s' : bytes (s +:+ s') = bytes s ++ bytes s'.
Proof. unfold bytes. induction s as [|c s IH]; [done|]. simpl. by f_equal. Qed.

Lemma escape_bytes_cons b l : escape_bytes (b :: l) = (if special b then [33; b] else [b]) ++ escape_bytes l.
Proof. done. Qed.

Lemma bytes_escape s : bytes (escape_pattern s) = escape_bytes (bytes s).
Proof.
  induction s as [|c s IH]; [done|]. change (bytes (String c s)) with (byte_of c :: bytes s).
  rewrite escape_bytes_cons, <-IH. change (special (byte_of c)) with (has (byte_of c) (bytes "!%_")).
  cbn [escape_pattern]. by destruct (has _ _).
Qed.

(** Decoding looks at continuation bytes only, never beyond an ASCII byte. *)
Definition low_head (l : list Z) : Prop := match l with [] => True | b :: _ => (b <? 128) = true end.

Lemma low_not_cont b : (b <? 128) = true → cont b = false.
Proof. intros Hb. unfold cont, between. to_prop. by rewrite (proj2 (Z.leb_gt 128 b)). Qed.
Lemma low_not_lead b0 b : (b <? 128) = true → lead3 b0 b = false ∧ lead4 b0 b = false.
Proof.
  intros Hb. unfold lead3, lead4. rewrite (low_not_cont b Hb). to_prop. unfold between.
  rewrite !(proj2 (Z.leb_gt _ b)) by lia. by rewrite !andb_false_r.
Qed.

Lemma runes_low0 b0 r : (b0 <? 128) = false → low_head r → runes (b0 :: r) = (None, [b0]) :: runes r.
Proof.
  intros H0 Hr. simpl. rewrite H0. destruct r as [|b1 r]; [done|]. simpl in Hr.
  destruct (low_not_lead b0 b1 Hr) as [-> ->]. rewrite (low_not_cont b1 Hr), andb_false_r. simpl. by destruct r as [|b2 [|b3 r]].
Qed.

Lemma runes_low1 b0 b1 r : (b0 <? 128) = false → low_head r →
  runes (b0 :: b1 :: r) =
  if lead2 b0 && cont b1 then (Some ((b0 - 192) * 64 + (b1 - 128)), [b0; b1]) :: runes r else (None, [b0]) :: runes (b1 :: r).
Proof.
  intros H0 Hr. cbn [runes]. rewrite H0. destruct (lead2 b0 && cont b1); [done|]. destruct r as [|b2 r]; [done|]. simpl in Hr.
  rewrite (low_not_cont b2 Hr), !andb_false_r. by destruct r.
Qed.

Lemma runes_low2 b0 b1 b2 r : (b0 <? 128) = false → low_head r →
  runes (b0 :: b1 :: b2 :: r) =
  if lead2 b0 && cont b1 then (Some ((b0 - 192) * 64 + (b1 - 128)), [b0; b1]) :: runes (b2 :: r)
  else if lead3 b0 b1 && cont b2
  then (Some ((b0 - 224) * 4096 + (b1 - 128) * 64 + (b2 - 128)), [b0; b1; b2]) :: runes r
  else (None, [b0]) :: runes (b1 :: b2 :: r).
Proof.
  intros H0 Hr. cbn [runes]. rewrite H0. destruct (lead2 b0 && cont b1); [done|]. destruct (lead3 b0 b1 && cont b2); [done|].
  destruct r as [|b3 r]; [done|]. simpl in Hr. by rewrite (low_not_cont b3 Hr), !andb_false_r.
Qed.

Lemma runes_high b0 b1 b2 b3 t : (b0 <? 128) = false →
  runes (b0 :: b1 :: b2 :: b3 :: t) =
  if lead2 b0 && cont b1 then (Some ((b0 - 192) * 64 + (b1 - 128)), [b0; b1]) :: runes (b2 :: b3 :: t)
  else if lead3 b0 b1 && cont b2
  then (Some ((b0 - 224) * 4096 + (b1 - 128) * 64 + (b2 - 128)), [b0; b1; b2]) :: runes (b3 :: t)
  else if lead4 b0 b1 && cont b2 && cont b3
  then (Some ((b0 - 240) * 262144 + (b1 - 128) * 4096 + (b2 - 128) * 64 + (b3 - 128)), [b0; b1; b2; b3]) :: runes t
  else (None, [b0]) :: runes (b1 :: b2 :: b3 :: t).
Proof. intros L0. cbn [runes]. by rewrite L0. Qed.

(** Escaping a text quotes its special characters and keeps the others. *)
Definition escape_rune (r : option Z * list Z) : list (option Z * list Z) :=
  match r.1 with Some c => if special c then [(Some 33, [33]); r] else [r] | None => [r] end.

Lemma high_plain b : (b <? 128) = false → special b = false.
Proof. intros Hb. destruct (special b) eqn:E; [|done]. by apply special_cases in E as [->|[->| ->]]. Qed.
Lemma escape_high b l : (b <? 128) = false → escape_bytes (b :: l) = b :: escape_bytes l.
Proof. intros Hb. rewrite escape_bytes_cons. by rewrite (high_plain b Hb). Qed.
Lemma escape_low_head l : low_head l → low_head (escape_bytes l).
Proof. destruct l as [|b l]; [done|]. intros Hb. rewrite escape_bytes_cons. by destruct (special b). Qed.
Lemma escape_rune_high c l : 128 ≤ c → escape_rune (Some c, l) = [(Some c, l)].
Proof. intros Hc. unfold escape_rune. simpl. rewrite high_plain; [done|]. by apply Z.ltb_ge. Qed.
Lemma lead2_bound b0 b1 : lead2 b0 && cont b1 = true → 128 ≤ (b0 - 192) * 64 + (b1 - 128).
Proof. unfold lead2, cont, between. intros. to_prop. lia. Qed.
Lemma lead3_bound b0 b1 b2 : lead3 b0 b1 && cont b2 = true → 128 ≤ (b0 - 224) * 4096 + (b1 - 128) * 64 + (b2 - 128).
Proof. unfold lead3, cont, between. intros. to_cases; lia. Qed.
Lemma lead4_bound b0 b1 b2 b3 : lead4 b0 b1 && cont b2 && cont b3 = true →
  128 ≤ (b0 - 240) * 262144 + (b1 - 128) * 4096 + (b2 - 128) * 64 + (b3 - 128).
Proof. unfold lead4, cont, between. intros. to_cases; lia. Qed.

Lemma low_head_cases l : low_head l ∨ ∃ b t, l = b :: t ∧ (b <? 128) = false.
Proof. destruct l as [|b t]; [by left|]. destruct (b <? 128) eqn:E; [by left|right; eauto]. Qed.

Definition escapes (l : list Z) : Prop := runes (escape_bytes l) = runes l ≫= escape_rune.

(** A step that consumes one rune [r] and leaves [t]. *)
Lemma escapes_step l t r l' :
  runes l = r :: runes t → runes l' = r :: runes (escape_bytes t) → escape_rune r = [r] → escapes t →
  runes l' = runes l ≫= escape_rune.
Proof. intros -> -> Hr Ht. rewrite bind_cons, Hr, Ht. done. Qed.

Lemma runes_escape n l : (length l ≤ n)%nat → escapes l.
Proof.
  revert l. induction n as [|n IH]; intros l Hn; [by destruct l; [|simpl in Hn; lia]|].
  destruct l as [|b0 t0]; [done|]. simpl in Hn.
  assert (∀ t, (length t ≤ length t0)%nat → escapes t) as IH' by (intros; apply IH; lia). clear IH. unfold escapes.
  destruct (b0 <? 128) eqn:L0.
  { rewrite escape_bytes_cons. pose proof (IH' t0 ltac:(lia)) as IH0. destruct (special b0) eqn:S0; simpl; rewrite L0, IH0;
      unfold escape_rune at 2; simpl; by rewrite S0. }
  rewrite escape_high by done. destruct (low_head_cases t0) as [H0|(b1 & t1 & -> & L1)].
  { pose proof (escape_low_head _ H0). eapply (escapes_step _ t0); rewrite ?runes_low0 by done; auto. }
  rewrite escape_high by done. destruct (low_head_cases t1) as [H1|(b2 & t2 & -> & L2)].
  { pose proof (escape_low_head _ H1). destruct (lead2 b0 && cont b1) eqn:E.
    - eapply (escapes_step _ t1); rewrite ?runes_low1, ?E by done; [done|done|by apply escape_rune_high, lead2_bound|apply IH'; simpl; lia].
    - eapply (escapes_step _ (b1 :: t1)); rewrite ?runes_low1, ?E, ?escape_high by done; auto. }
  rewrite escape_high by done. destruct (low_head_cases t2) as [H2|(b3 & t3 & -> & L3)].
  { pose proof (escape_low_head _ H2). destruct (lead2 b0 && cont b1) eqn:E.
    { eapply (escapes_step _ (b2 :: t2)); rewrite ?runes_low2, ?E, ?escape_high by done;
        [done|done|by apply escape_rune_high, lead2_bound|apply IH'; simpl; lia]. }
    destruct (lead3 b0 b1 && cont b2) eqn:E'.
    - eapply (escapes_step _ t2); rewrite ?runes_low2, ?E, ?E' by done;
        [done|done|by apply escape_rune_high, lead3_bound|apply IH'; simpl; lia].
    - eapply (escapes_step _ (b1 :: b2 :: t2)); rewrite ?runes_low2, ?E, ?E', ?escape_high by done; auto. }
  rewrite escape_high by done. destruct (lead2 b0 && cont b1) eqn:E.
  { eapply (escapes_step _ (b2 :: b3 :: t3)); rewrite ?runes_high, ?E, ?escape_high by done;
      [done|done|by apply escape_rune_high, lead2_bound|apply IH'; simpl; lia]. }
  destruct (lead3 b0 b1 && cont b2) eqn:E'.
  { eapply (escapes_step _ (b3 :: t3)); rewrite ?runes_high, ?E, ?E', ?escape_high by done;
      [done|done|by apply escape_rune_high, lead3_bound|apply IH'; simpl; lia]. }
  destruct (lead4 b0 b1 && cont b2 && cont b3) eqn:E4.
  - eapply (escapes_step _ t3); rewrite ?runes_high, ?E, ?E', ?E4 by done;
      [done|done|by apply escape_rune_high, lead4_bound|apply IH'; simpl; lia].
  - eapply (escapes_step _ (b1 :: b2 :: b3 :: t3)); rewrite ?runes_high, ?E, ?E', ?E4, ?escape_high by done; auto.
Qed.

(** A final ASCII byte is a rune of its own. *)
Lemma runes_snoc n l b : (length l ≤ n)%nat → (b <? 128) = true → runes (l ++ [b]) = runes l ++ [(Some b, [b])].
Proof.
  intros Hn Hb. revert l Hn. induction n as [|n IH]; intros l Hn.
  { destruct l; [|simpl in Hn; lia]. simpl. by rewrite Hb. }
  destruct l as [|b0 t0]; [simpl; by rewrite Hb|]. simpl in Hn.
  assert (∀ t, (length t ≤ length t0)%nat → runes (t ++ [b]) = runes t ++ [(Some b, [b])]) as IH' by (intros; apply IH; lia).
  assert (∀ t, low_head t → low_head (t ++ [b])) as Hlow by (by intros [|? ?]). clear IH.
  destruct (b0 <? 128) eqn:L0.
  { pose proof (IH' t0 ltac:(lia)) as E. simpl. by rewrite L0, E. }
  destruct (low_head_cases t0) as [H0|(b1 & t1 & -> & L1)].
  { simpl app at 1. rewrite !runes_low0 by auto. by rewrite IH' by lia. }
  pose proof (IH' (b1 :: t1) ltac:(simpl; lia)) as I1. pose proof (IH' t1 ltac:(simpl; lia)) as I2. simpl app in I1.
  destruct (low_head_cases t1) as [H1|(b2 & t2 & -> & L2)].
  { simpl app at 1. rewrite !runes_low1 by auto. destruct (lead2 b0 && cont b1); [by rewrite I2|by rewrite I1]. }
  pose proof (IH' t2 ltac:(simpl; lia)) as I3. simpl app in I1, I2.
  destruct (low_head_cases t2) as [H2|(b3 & t3 & -> & L3)].
  { simpl app at 1. rewrite !runes_low2 by auto. destruct (lead2 b0 && cont b1); [by rewrite I2|].
    destruct (lead3 b0 b1 && cont b2); [by rewrite I3|by rewrite I1]. }
  pose proof (IH' t3 ltac:(simpl; lia)) as I4. simpl app in I1, I2, I3. simpl app at 1. rewrite !runes_high by done.
  destruct (lead2 b0 && cont b1); [by rewrite I2|]. destruct (lead3 b0 b1 && cont b2); [by rewrite I3|].
  destruct (lead4 b0 b1 && cont b2 && cont b3); [by rewrite I4|by rewrite I1].
Qed.

(** ** The literal filter *)

Lemma codes_escape s : codes (escape_pattern s) = escape_codes (codes s).
Proof.
  unfold codes. rewrite bytes_escape, (runes_escape (length (bytes s))) by done.
  induction (runes (bytes s)) as [|[[c|] bs] l IH]; [done|..]; rewrite bind_cons, omap_app, IH; [|done].
  unfold escape_rune, escape_codes. simpl. by destruct (special c).
Qed.

Lemma codes_literalContains s : codes (literalContains s) = [37] ++ escape_codes (codes s) ++ [37].
Proof.
  rewrite <-codes_escape. unfold literalContains, codes. rewrite !bytes_app. change (bytes "%") with [37].
  simpl. rewrite (runes_snoc _ _ 37 (le_n _)) by done. by rewrite omap_app.
Qed.

(** Case folding maps letters to letters: the pattern characters stay, and no other
    character becomes one. *)
Definition folds_letters `{PgLib} : Prop :=
  ∀ c, special (fold_case c) = special c ∧ (special c = true → fold_case c = c).

(** The name filter is literal.  A text matches the pattern built from a filter
    value exactly when it contains the value, up to case, even if the value contains
    pattern characters. *)
Theorem literal_filter_exact `{PgLib} text value :
  folds_letters →
  ILike text (literalContains value) = true ↔
  ∃ pre suf, fold_case <$> codes text = pre ++ (fold_case <$> codes value) ++ suf.
Proof.
  intros Hf. unfold ILike. rewrite codes_literalContains, !fmap_app. simpl fmap.
  assert (fold_case <$> escape_codes (codes value) = escape_codes (fold_case <$> codes value)) as ->.
  { unfold escape_codes. induction (codes value) as [|c l IH]; [done|]. rewrite bind_cons, fmap_app, IH.
    rewrite fmap_cons, bind_cons. f_equal. destruct (Hf c) as [-> Hc]. destruct (special c); [|done].
    simpl. destruct (Hf 33) as [_ H33]. by rewrite (H33 eq_refl). }
  destruct (Hf 37) as [_ H37]. rewrite (H37 eq_refl). apply like_contains.
Qed.

(** ** Pages *)

Section pages.
Context `{PgLib}.

Lemma invalid_pagination_false page pageSize :
  invalid_pagination page pageSize = false → 1 ≤ page ∧ 1 ≤ pageSize ≤ 200 ∧ 0 ≤ (page - 1) * pageSize ≤ MaxInt64.
Proof.
  unfold invalid_pagination. intros E. to_prop. split; [lia|]. split; [lia|]. split; [nia|].
  transitivity (MaxInt64 / pageSize * pageSize); [nia|]. rewrite Z.mul_comm. apply Z.mul_div_le. lia.
Qed.

Lemma pages_of_all {A} (l : list A) pageSize n :
  0 < pageSize →
  mjoin ((λ p, page_of (Z.of_nat p) pageSize l) <$> seq 1 n) = take (n * Z.to_nat pageSize) l.
Proof.
  intros Hp. induction n as [|n IH]; [done|].
  rewrite seq_S, fmap_app, join_app, IH. simpl. rewrite app_nil_r. unfold page_of.
  replace (Z.of_nat (S n) - 1) with (Z.of_nat n) by lia. rewrite Z2Nat.inj_mul, Nat2Z.id by lia.
  rewrite take_take_drop. f_equal. lia.
Qed.

Lemma calm_ListJobs now d f :
  invalid_pagination (jf_Page f) (jf_PageSize f) = false →
  result_of (ListJobs Auto f) now d =
    Ok (job_item d <$> page_of (jf_Page f) (jf_PageSize f) (matching_jobs f d), Z.of_nat (length (matching_jobs f d))).
Proof.
  intros E. assert (calm_to now (ListJobs Auto f) d d (Ok (job_item d <$> page_of (jf_Page f) (jf_PageSize f) (matching_jobs f d),
    Z.of_nat (length (matching_jobs f d)))) []) as Hc; [|by destruct (calm_run _ _ _ _ _ _ Hc) as (_ & Hr & _)].
  unfold ListJobs. rewrite E.
  eapply (calm_bind0 _ _ _ _ d _ (Z.of_nat (length (matching_jobs f d)))); [apply (calm_query now Auto)|].
  eapply (calm_bind0 _ _ _ _ d _ (job_item d <$> page_of (jf_Page f) (jf_PageSize f) (matching_jobs f d))); [apply (calm_query now Auto)|].
  apply calm_ret.
Qed.

(** The pages of the Job list partition it.  In an unchanged database every
    accepted page reports the number of matching Jobs, its offset is a 64-bit number,
    and the pages one to n put together are the first n pages' worth of the matching
    Jobs, newest first. *)
Theorem job_pages_partition now d f n :
  (∀ p, (1 ≤ p ≤ n)%nat → invalid_pagination (Z.of_nat p) (jf_PageSize f) = false) →
  let page p := result_of (ListJobs Auto { f with jf_Page := Z.of_nat p }) now d in
  let items r := match r with Ok (l, _) => l | Fail _ => [] end in
  (∀ p, (1 ≤ p ≤ n)%nat → 0 ≤ (Z.of_nat p - 1) * jf_PageSize f ≤ MaxInt64 ∧
     ∃ l, page p = Ok (l, Z.of_nat (length (matching_jobs f d)))) ∧
  mjoin ((λ p, items (page p)) <$> seq 1 n) =
    take (n * Z.to_nat (jf_PageSize f)) (job_item d <$> matching_jobs f d).
Proof.
  intros Hv page items.
  assert (∀ p, (1 ≤ p ≤ n)%nat → page p = Ok (job_item d <$> page_of (Z.of_nat p) (jf_PageSize f) (matching_jobs f d),
    Z.of_nat (length (matching_jobs f d)))) as Hp.
  { intros p Hp. exact (calm_ListJobs now d { f with jf_Page := Z.of_nat p } (Hv p Hp)). }
  split.
  - intros p Hp'. split; [by apply invalid_pagination_false, Hv|]. rewrite Hp by done. by eexists.
  - assert ((λ p, items (page p)) <$> seq 1 n =
      (λ p, page_of (Z.of_nat p) (jf_PageSize f) (job_item d <$> matching_jobs f d)) <$> seq 1 n) as ->.
    { apply list_fmap_ext. intros i p Hi. apply list_elem_of_lookup_2, elem_of_seq in Hi. rewrite Hp by lia. simpl.
      unfold page_of. by rewrite fmap_take, fmap_drop. }
    destruct n as [|n]; [done|]. destruct (invalid_pagination_false _ _ (Hv 1%nat ltac:(lia))) as (_ & Hs & _).
    apply pages_of_all. lia.
Qed.
End pages.

(** ** Instances *)

Lemma literal_filter_exact_witness : folds_letters ∧ ILike "a_100%!b" (literalContains "_100%!") = true.
Proof.
  split; [intros c; split; done|]. apply literal_filter_exact; [intros c; split; done|].
  exists (codes "a"), (codes "b"). reflexivity.
Defined.

Definition demo_filter : JobFilter :=
  {| jf_Page := 1; jf_PageSize := 1; jf_ID := None; jf_Name := "ight"; jf_ExecutorGroupID := None; jf_Status := None |}.
Definition demo_jobs : DB :=
  after_run (CreateJob Auto demo_job) 10 (after_run (CreateJob Auto demo_job) 5 empty_db).

Lemma job_pages_partition_witness :
  mjoin ((λ p, match result_of (ListJobs Auto { demo_filter with jf_Page := Z.of_nat p }) 20 demo_jobs with
               | Ok (l, _) => l | Fail _ => [] end) <$> seq 1 2) =
    take (2 * Z.to_nat (jf_PageSize demo_filter)) (job_item demo_jobs <$> matching_jobs demo_filter demo_jobs) ∧
  length (matching_jobs demo_filter demo_jobs) = 2%nat.
Proof.
  split; [|evaluate]. apply (job_pages_partition 20 demo_jobs demo_filter 2).
  intros p Hp. destruct p as [|[|[|p]]]; [lia|reflexivity|reflexivity|lia].
Defined.
