(* ===== verification/ResultQueue.v ===== *)
(** * The in-memory result queue

    apps/job/internal/taskresult/queue.go: bounded retention of accepted reports,
    concurrent save workers, backoff, and shutdown.  Every critical section under
    the queue's mutex is one operation on the state; workers, callers and the
    shutdown context interleave between them, which [step] describes. *)

From S2P Require Import Prelude GoLib Tx Model TaskRepo ResultSaver.

Open Scope Z_scope.

Definition DefaultQueueCapacity : Z := 512.
Definition DefaultSaveConcurrency : Z := 8.
Definition ErrNotReady : Cause := Sentinel "task result queue is not ready".

Record retainedResult := { re_report : Report; re_due : Time; re_sequence : Z; re_failures : Z }.

(** Where a worker goroutine is: waiting in [take], inside [save] with an entry it
    removed from the heap, or returned. *)
Inductive Worker := Idle | Saving (entry : retainedResult) | Exited.

(** [runCtx] is canceled or not; [drainCtx] is set or not.  [finish] runs in two
    critical sections: [q_finishing] holds after the first. *)
Record Queue := {
  q_capacity : Z; q_concurrency : Z;
  q_started : bool; q_stopping : bool; q_completed : bool;
  q_retained : Z; q_sequence : Z; q_pending : list retainedResult;
  q_canceled : bool; q_drainCtx : bool; q_drainErr : option Error;
  q_workers : list Worker; q_finishing : bool;
}.

Definition NewQueue (capacity concurrency : Z) : Result Queue :=
  if (capacity <? 0) || (concurrency <? 0) then Fail [Text "task result queue settings must not be negative"]
  else Ok {| q_capacity := if capacity =? 0 then DefaultQueueCapacity else capacity;
             q_concurrency := if concurrency =? 0 then DefaultSaveConcurrency else concurrency;
             q_started := false; q_stopping := false; q_completed := false;
             q_retained := 0; q_sequence := 0; q_pending := [];
             q_canceled := false; q_drainCtx := false; q_drainErr := None;
             q_workers := []; q_finishing := false |}.

(** [resultHeap.Less]: by due time, then by admission. *)
Definition Less (a b : retainedResult) : bool :=
  if re_due a =? re_due b then re_sequence a <? re_sequence b else before (re_due a) (re_due b).

(** container/heap keeps a minimum at the front; the layout of the rest is not
    observed.  Here the entries are kept in order. *)
Fixpoint heap_push (e : retainedResult) (l : list retainedResult) : list retainedResult :=
  match l with
  | [] => [e]
  | x :: t => if Less e x then e :: x :: t else x :: heap_push e t
  end.

Definition Start (q : Queue) : Result Queue :=
  if q_started q || q_stopping q then Fail [Text "task result queue has already started or stopped"]
  else Ok { q with q_started := true; q_workers := replicate (Z.to_nat (q_concurrency q)) Idle }.

(** The sequence is a uint64. *)
Definition new_entry (q : Queue) (report : Report) (now : Time) : retainedResult :=
  {| re_report := report; re_due := now; re_sequence := (q_sequence q + 1) mod 2 ^ 64; re_failures := 0 |}.

Definition Accept (q : Queue) (ctxErr : option Error) (report : Report) (now : Time) : Queue * Result bool :=
  match ctxErr with
  | Some e => (q, Fail e)
  | None =>
      if negb (q_started q) || q_stopping q then (q, Fail [ErrNotReady])
      else if q_retained q =? q_capacity q then (q, Ok false)
      else
        let entry := new_entry q report now in
        ({ q with q_sequence := re_sequence entry; q_pending := heap_push entry (q_pending q);
                  q_retained := q_retained q + 1 }, Ok true)
  end.

Definition Stop (q : Queue) : Queue :=
  let q := { q with q_stopping := true } in
  if negb (q_started q) && negb (q_completed q)
  then { q with q_completed := true; q_canceled := true } else q.

(** [Drain] up to its wait: the answer of a completed queue, or the first caller's
    context becomes the shared budget. *)
Definition Drain (q : Queue) : Queue * option (option Error) :=
  let q := Stop q in
  if q_completed q then (q, Some (q_drainErr q))
  else if q_drainCtx q then (q, None)
  else ({ q with q_drainCtx := true }, None).

(** [Drain] after its wait: once the workers are done it returns the recorded error. *)
Definition Drain_return (q : Queue) : option (option Error) := if q_completed q then Some (q_drainErr q) else None.

(** The shared budget expired: [AfterFunc] or the first caller cancels the workers. *)
Definition cancelRun (q : Queue) : Queue := { q with q_canceled := true }.

Inductive Taken := TakeExit | TakeEntry (entry : retainedResult) | TakeWait.

Definition take_entry (q : Queue) (now : Time) : Queue * Taken :=
  if q_canceled q || (q_stopping q && (q_retained q =? 0)) then (q, TakeExit)
  else match q_pending q with
  | [] => (q, TakeWait)
  | entry :: rest => if re_due entry <=? now then ({ q with q_pending := rest }, TakeEntry entry) else (q, TakeWait)
  end.

(** The backoff steps, jittered by the draw [k] of [rand.Float64] as [k / 2^53]; the
    product is exact here, where the code rounds to a float64. *)
Definition retry_step (failures : Z) : Duration :=
  let index := Z.min (Z.max (failures - 1) 0) 5 in
  Second * (nth (Z.to_nat index) [1; 2; 4; 8; 16; 30] 0).
Definition saveRetryDelay (failures k : Z) : Duration :=
  retry_step failures * (8 * 2 ^ 53 + 4 * k) / (10 * 2 ^ 53).

(** The section of [work] after a save: a nil error releases the entry, an error
    while the queue runs puts it back. *)
Definition afterSave (q : Queue) (entry : retainedResult) (err : option Error) (finishedAt k : Z) : Queue :=
  match err with
  | None => { q with q_retained := q_retained q - 1 }
  | Some _ =>
      if q_canceled q then q
      else
        let failures := if re_failures entry <? 6 then re_failures entry + 1 else re_failures entry in
        let entry := { entry with re_failures := failures; re_due := finishedAt + saveRetryDelay failures k } in
        { q with q_pending := heap_push entry (q_pending q) }
  end.

(** The first section of [finish]; [drainDone] is the error of an expired drain
    context. *)
Definition finish (q : Queue) (drainDone : option Error) : Queue :=
  let err :=
    if q_retained q =? 0 then q_drainErr q
    else match (if q_drainCtx q then drainDone else None) with
    | Some e => Some e
    | None => Some (if q_canceled q then [ContextErr] else [Text "task result workers exited with unsaved reports"])
    end in
  { q with q_drainErr := err; q_pending := []; q_retained := 0; q_canceled := true; q_finishing := true }.

(** ** Interleavings *)

Inductive Label := Enqueued (report : Report) | Released (report : Report) | Silent.

Definition set_worker (k : nat) (s : Worker) (q : Queue) : Queue := { q with q_workers := <[k := s]> (q_workers q) }.

Inductive step : Queue → Label → Queue → Prop :=
| step_start q q' : Start q = Ok q' → step q Silent q'
| step_accept q ctxErr report now q' r :
    Accept q ctxErr report now = (q', r) → step q (if bool_decide (r = Ok true) then Enqueued report else Silent) q'
| step_stop q : step q Silent (Stop q)
| step_drain q q' r : Drain q = (q', r) → step q Silent q'
| step_expire q : q_drainCtx q = true → step q Silent (cancelRun q)
| step_take q k now q' e :
    q_workers q !! k = Some Idle → take_entry q now = (q', TakeEntry e) → step q Silent (set_worker k (Saving e) q')
| step_exit q k now q' :
    q_workers q !! k = Some Idle → take_entry q now = (q', TakeExit) → step q Silent (set_worker k Exited q')
| step_saved q k e err finishedAt rnd :
    q_workers q !! k = Some (Saving e) →
    step q (match err with None => Released (re_report e) | Some _ => Silent end)
      (set_worker k Idle (afterSave q e err finishedAt rnd))
| step_finish q drainDone :
    q_started q = true → q_finishing q = false → Forall (λ s, s = Exited) (q_workers q) → step q Silent (finish q drainDone)
| step_done q : q_finishing q = true → step q Silent { q with q_completed := true }.

(** A run, with the reports accepted and the reports whose save succeeded. *)
Inductive runs : Queue → list Report → list Report → Queue → Prop :=
| runs_nil q : runs q [] [] q
| runs_step q acc rel q1 l q2 :
    runs q acc rel q1 → step q1 l q2 →
    runs q (match l with Enqueued r => r :: acc | _ => acc end) (match l with Released r => r :: rel | _ => rel end) q2.

(** ** The invariant *)

Definition entry_of (s : Worker) : option retainedResult := match s with Saving e => Some e | _ => None end.
Definition in_flight (q : Queue) : list retainedResult := omap entry_of (q_workers q).
Definition held (q : Queue) : list Report := re_report <$> q_pending q ++ in_flight q.

Record queue_inv (acc rel : list Report) (q : Queue) : Prop := {
  qi_settings : 0 < q_capacity q ∧ 0 < q_concurrency q;
  qi_bound : 0 ≤ q_retained q ≤ q_capacity q;
  qi_workers : if q_started q then length (q_workers q) = Z.to_nat (q_concurrency q)
               else q_workers q = [] ∧ q_pending q = [] ∧ q_retained q = 0 ∧ q_finishing q = false;
  qi_lost : ∃ lost, acc ≡ₚ rel ++ held q ++ lost ∧
    (q_finishing q = false → q_retained q = Z.of_nat (length (held q ++ lost)) ∧ q_drainErr q = None ∧
       (q_canceled q = false → lost = [])) ∧
    (q_finishing q = true → held q = [] ∧ (q_drainErr q = None → lost = []));
  qi_canceled : q_canceled q = true → q_stopping q = true;
  qi_drain : q_drainCtx q = true → q_stopping q = true;
  qi_exited : Exited ∈ q_workers q → q_stopping q = true ∧ (q_canceled q = true ∨ q_retained q = 0);
  qi_finishing : q_finishing q = true → q_canceled q = true ∧ Forall (λ s, s = Exited) (q_workers q);
  qi_completed : q_completed q = true → q_stopping q = true ∧ (q_started q = true → q_finishing q = true);
}.

Lemma heap_push_perm e l : heap_push e l ≡ₚ e :: l.
Proof. induction l as [|x l IH]; simpl; [done|]. destruct (Less e x); [done|]. rewrite IH. apply Permutation_swap. Qed.

Lemma in_flight_set q k s :
  ∀ s0, q_workers q !! k = Some s0 →
  option_list (entry_of s0) ++ in_flight (set_worker k s q) ≡ₚ option_list (entry_of s) ++ in_flight q.
Proof.
  intros s0 Hk. unfold in_flight, set_worker. simpl.
  rewrite <-(take_drop_middle _ _ _ Hk) at 2. rewrite insert_take_drop by (by eapply lookup_lt_Some).
  assert (∀ x l, omap entry_of (x :: l) = option_list (entry_of x) ++ omap entry_of l) as E
    by (intros x l; csimpl; by destruct (entry_of x)).
  rewrite !omap_app, !E. solve_Permutation.
Qed.

Lemma elem_of_insert_cases (k : nat) (s s' : Worker) (l : list Worker) : s' ∈ <[k := s]> l → s' = s ∨ s' ∈ l.
Proof.
  intros [j Hj]%list_elem_of_lookup. apply list_lookup_insert_Some in Hj as [(_ & -> & _)|[_ Hj]]; [by left|].
  right. by eapply list_elem_of_lookup_2.
Qed.

Lemma NewQueue_inv capacity concurrency q : NewQueue capacity concurrency = Ok q → queue_inv [] [] q.
Proof.
  unfold NewQueue. match goal with |- (if ?b then _ else _) = _ → _ => destruct b eqn:E; [done|] end.
  intros [= <-]. to_prop. unfold DefaultQueueCapacity, DefaultSaveConcurrency.
  split; simpl; try done.
  - destruct (capacity =? 0) eqn:E1, (concurrency =? 0) eqn:E2; to_prop; lia.
  - destruct (capacity =? 0) eqn:E1; to_prop; lia.
  - exists []. done.
  - intros Hin. by apply elem_of_nil in Hin.
Qed.

Lemma Start_inv acc rel q q' : queue_inv acc rel q → Start q = Ok q' → queue_inv acc rel q'.
Proof.
  unfold Start. intros [H1 H2 H3 H4 H5 H6 H7 H8 H9] E. destruct (q_started q || q_stopping q) eqn:Es; [done|].
  injection E as <-. to_prop. rewrite H in H3. destruct H3 as (Hw & Hp & Hr & Hf).
  assert (in_flight { q with q_started := true; q_workers := replicate (Z.to_nat (q_concurrency q)) Idle } = in_flight q) as Hi.
  { unfold in_flight. simpl. rewrite Hw. by induction (Z.to_nat _). }
  split; simpl; try done.
  - by rewrite length_replicate.
  - unfold held in *. rewrite Hi. exact H4.
  - intros Hin. apply elem_of_replicate in Hin as [? _]. done.
  - rewrite Hf. done.
  - intros Hc. destruct (H9 Hc) as [? _]. congruence.
Qed.

Lemma Accept_inv acc rel q ctxErr report now q' r :
  queue_inv acc rel q → Accept q ctxErr report now = (q', r) →
  queue_inv (if bool_decide (r = Ok true) then report :: acc else acc) rel q'.
Proof.
  unfold Accept. intros HI E. destruct ctxErr as [e|]; [by injection E as <- <-|].
  destruct (negb (q_started q) || q_stopping q) eqn:Es; [by injection E as <- <-|].
  destruct (q_retained q =? q_capacity q) eqn:Ef; [by injection E as <- <-|]. injection E as <- <-. to_prop. simpl.
  destruct HI as [H1 H2 H3 H4 H5 H6 H7 H8 H9]. rewrite H in H3.
  assert (q_finishing q = false) as Hnf by (destruct (q_finishing q); [|done]; destruct (H8 eq_refl) as [?%H5 _]; congruence).
  split; simpl; try done.
  - lia.
  - by rewrite H.
  - rewrite Hnf in *. destruct H4 as (lost & Hp & Hrun & _). destruct (Hrun eq_refl) as (Hr & Hd & Hl). exists lost.
    assert (held { q with q_sequence := re_sequence (new_entry q report now);
      q_pending := heap_push (new_entry q report now) (q_pending q); q_retained := q_retained q + 1 } ≡ₚ report :: held q) as Hh.
    { unfold held. change (in_flight _) with (in_flight q). simpl. by rewrite heap_push_perm. }
    split_and!; [rewrite Hh, Hp; solve_Permutation| |done]. intros _. split_and!; [|done|done].
    transitivity (Z.of_nat (length ((report :: held q) ++ lost))); [simpl; lia|].
    f_equal. symmetry. by apply Permutation_length, Permutation_app_tail.
  - intros [? ?]%H7. congruence.
Qed.

Lemma Stop_inv acc rel q : queue_inv acc rel q → queue_inv acc rel (Stop q).
Proof.
  unfold Stop. intros [H1 H2 H3 H4 H5 H6 H7 H8 H9]. simpl.
  destruct (negb (q_started q) && negb (q_completed q)) eqn:E; to_prop.
  - rewrite H in H3. destruct H3 as (Hw & Hp & Hr & Hf). split; simpl; try done.
    + by rewrite H.
    + destruct H4 as (lost & Hacc & Hrun & Hfin). exists lost. split_and!; [done| |done].
      intros Hx. destruct (Hrun Hx) as (Hl & Hd & _). split_and!; [done|done|]. intros [=].
    + intros Hin. destruct (H7 Hin). auto.
    + intros Hx. destruct (H8 Hx). done.
    + intros _. split; [done|]. congruence.
  - split; simpl; try done; [by intros Hin; destruct (H7 Hin); auto|]. intros Hc. destruct (H9 Hc). done.
Qed.

Lemma Drain_inv acc rel q q' r : queue_inv acc rel q → Drain q = (q', r) → queue_inv acc rel q'.
Proof.
  intros HI%Stop_inv. unfold Drain. destruct (q_completed (Stop q)); [by intros [= <- _]|].
  destruct (q_drainCtx (Stop q)); [by intros [= <- _]|]. intros [= <- _].
  assert (q_stopping (Stop q) = true) as Hs by (unfold Stop; simpl; by destruct (_ && _)).
  by destruct HI; split.
Qed.

Lemma cancelRun_inv acc rel q : queue_inv acc rel q → q_drainCtx q = true → queue_inv acc rel (cancelRun q).
Proof.
  intros [H1 H2 H3 H4 H5 H6 H7 H8 H9] Hd. split; simpl; try done; auto.
  - destruct H4 as (lost & Hacc & Hrun & Hfin). exists lost. split_and!; [done| |done].
    intros Hx. destruct (Hrun Hx) as (Hl & Hde & _). split_and!; [done|done|]. intros [=].
  - intros Hx. destruct (H8 Hx). done.
Qed.

(** A running worker means the queue is neither finishing nor unstarted. *)
Lemma worker_running acc rel q k s :
  queue_inv acc rel q → q_workers q !! k = Some s → s ≠ Exited → q_started q = true ∧ q_finishing q = false.
Proof.
  intros HI Hk Hs. destruct HI as [_ _ H3 _ _ _ _ H8 _]. destruct (q_started q).
  - split; [done|]. destruct (q_finishing q) eqn:E; [|done]. destruct (H8 eq_refl) as [_ Hall].
    rewrite Forall_forall in Hall. by destruct Hs; eapply Hall, list_elem_of_lookup_2.
  - destruct H3 as (Hw & _). by rewrite Hw in Hk.
Qed.


(** One worker moves and the accounts are settled. *)
Definition same_control (q q' : Queue) : Prop :=
  (q_capacity q', q_concurrency q', q_started q', q_stopping q', q_completed q', q_canceled q', q_drainCtx q',
   q_drainErr q', q_finishing q') =
  (q_capacity q, q_concurrency q, q_started q, q_stopping q, q_completed q, q_canceled q, q_drainCtx q,
   q_drainErr q, q_finishing q).

Lemma worker_step acc rel rel' q q' k s s0 lost :
  queue_inv acc rel q → q_workers q !! k = Some s0 → s0 ≠ Exited →
  same_control q q' → q_workers q' = <[k := s]> (q_workers q) →
  (s = Exited → q_stopping q = true ∧ (q_canceled q = true ∨ q_retained q' = 0)) →
  q_retained q' ≤ q_retained q → acc ≡ₚ rel' ++ held q' ++ lost → q_retained q' = Z.of_nat (length (held q' ++ lost)) →
  (q_canceled q = false → lost = []) → queue_inv acc rel' q'.
Proof.
  intros HI Hk Hs0 Hsame Hw Hex Hle Hacc Hlen Hlost.
  destruct (worker_running _ _ _ _ _ HI Hk Hs0) as [Hst Hnf].
  destruct HI as [H1 H2 H3 H4 H5 H6 H7 H8 H9]. destruct H4 as (lost0 & _ & Hrun & _). destruct (Hrun Hnf) as (_ & Hd & _).
  injection Hsame as E1 E2 E3 E4 E5 E6 E7 E8 E9. split; rewrite ?E1, ?E2, ?E3, ?E4, ?E5, ?E6, ?E7, ?E8, ?E9; try done.
  - lia.
  - rewrite Hst in *. by rewrite Hw, length_insert.
  - exists lost. split_and!; [done|by intros; split_and!|by rewrite Hnf].
  - rewrite Hw. intros [<-|Hin]%elem_of_insert_cases; [by apply Hex|]. destruct (H7 Hin) as [? [?|?]]; [by auto|].
    split; [done|]. right. lia.
  - by rewrite Hnf.
Qed.

Lemma accounts acc rel q : queue_inv acc rel q → q_finishing q = false →
  ∃ lost, acc ≡ₚ rel ++ held q ++ lost ∧ q_retained q = Z.of_nat (length (held q ++ lost)) ∧ (q_canceled q = false → lost = []).
Proof. intros HI Hf. destruct (qi_lost _ _ _ HI) as (lost & ? & Hrun & _). destruct (Hrun Hf) as (? & _ & ?). eauto. Qed.

Lemma take_inv acc rel q k now q' e :
  queue_inv acc rel q → q_workers q !! k = Some Idle → take_entry q now = (q', TakeEntry e) →
  queue_inv acc rel (set_worker k (Saving e) q').
Proof.
  intros HI Hk Ht. destruct (worker_running _ _ _ _ _ HI Hk ltac:(done)) as [Hst Hnf].
  destruct (accounts _ _ _ HI Hnf) as (lost & Hacc & Hlen & Hlost).
  unfold take_entry in Ht. destruct (q_canceled q || _) eqn:E; [done|].
  destruct (q_pending q) as [|e' rest] eqn:Hp; [done|]. destruct (re_due e' <=? now); [|done]. injection Ht as <- <-.
  assert (held (set_worker k (Saving e') { q with q_pending := rest }) ≡ₚ held q) as Hh.
  { unfold held. rewrite Hp. apply fmap_Permutation. simpl.
    pose proof (in_flight_set { q with q_pending := rest } k (Saving e') Idle Hk) as Hi. simpl in Hi.
    rewrite Hi. change (in_flight { q with q_pending := rest }) with (in_flight q). solve_Permutation. }
  eapply (worker_step acc rel _ q _ k (Saving e') Idle lost); try done; [by rewrite Hh|].
  simpl. rewrite Hlen. f_equal. symmetry. by apply Permutation_length, Permutation_app_tail.
Qed.

Lemma exit_inv acc rel q k now q' :
  queue_inv acc rel q → q_workers q !! k = Some Idle → take_entry q now = (q', TakeExit) →
  queue_inv acc rel (set_worker k Exited q').
Proof.
  intros HI Hk Ht. destruct (worker_running _ _ _ _ _ HI Hk ltac:(done)) as [Hst Hnf].
  destruct (accounts _ _ _ HI Hnf) as (lost & Hacc & Hlen & Hlost).
  unfold take_entry in Ht. destruct (q_canceled q || _) eqn:E.
  2:{ destruct (q_pending q); [done|]. by destruct (_ <=? _). }
  injection Ht as <-.
  assert (held (set_worker k Exited q) ≡ₚ held q) as Hh
    by (unfold held; apply fmap_Permutation, Permutation_app_head, (in_flight_set q k Exited Idle Hk)).
  eapply (worker_step acc rel _ q _ k Exited Idle lost); try done; [|by rewrite Hh|].
  - intros _. pose proof (qi_canceled _ _ _ HI). to_cases; auto.
  - simpl. rewrite Hlen. f_equal. symmetry. by apply Permutation_length, Permutation_app_tail.
Qed.

Lemma saved_inv acc rel q k e err finishedAt rnd :
  queue_inv acc rel q → q_workers q !! k = Some (Saving e) →
  queue_inv acc (match err with None => re_report e :: rel | Some _ => rel end)
    (set_worker k Idle (afterSave q e err finishedAt rnd)).
Proof.
  intros HI Hk. destruct (worker_running _ _ _ _ _ HI Hk ltac:(done)) as [Hst Hnf].
  destruct (accounts _ _ _ HI Hnf) as (lost & Hacc & Hlen & Hlost).
  pose proof (in_flight_set q k Idle (Saving e) Hk) as Hi. simpl in Hi.
  set (others := re_report <$> q_pending q ++ in_flight (set_worker k Idle q)).
  assert (held q ≡ₚ re_report e :: others) as Hh
    by (unfold held, others; rewrite <-Hi, <-fmap_cons; apply fmap_Permutation; solve_Permutation).
  rewrite Hh in Hacc. rewrite (Permutation_length (Permutation_app_tail lost Hh)) in Hlen. simpl in Hlen.
  unfold afterSave. destruct err as [err|]; [destruct (q_canceled q) eqn:Ec|].
  - (* dropped: shutdown *)
    apply (worker_step acc rel rel q _ k Idle (Saving e) (re_report e :: lost)); try done.
    + change (held (set_worker k Idle q)) with others. rewrite Hacc. solve_Permutation.
    + change (held (set_worker k Idle q)) with others. simpl. rewrite Hlen, !length_app. simpl. lia.
    + congruence.
  - (* back to the heap *)
    match goal with |- context [heap_push ?e' _] => set (e1 := e') end.
    assert (held (set_worker k Idle { q with q_pending := heap_push e1 (q_pending q) }) ≡ₚ re_report e :: others) as Hh1.
    { unfold held, others. change (in_flight _) with (in_flight (set_worker k Idle q)) at 1. simpl. by rewrite heap_push_perm. }
    apply (worker_step acc rel rel q _ k Idle (Saving e) lost); try done; [by rewrite Hh1| |by rewrite Ec].
    rewrite (Permutation_length (Permutation_app_tail lost Hh1)). simpl. lia.
  - (* released *)
    apply (worker_step acc rel _ q _ k Idle (Saving e) lost); try done.
    + simpl. lia.
    + change (held _) with others. rewrite Hacc. solve_Permutation.
    + change (held _) with others. simpl. lia.
Qed.

Lemma finish_inv acc rel q drainDone :
  queue_inv acc rel q → q_started q = true → q_finishing q = false → Forall (λ s, s = Exited) (q_workers q) →
  queue_inv acc rel (finish q drainDone).
Proof.
  intros HI Hst Hnf Hall. destruct (accounts _ _ _ HI Hnf) as (lost & Hacc & Hlen & Hlost).
  destruct HI as [H1 H2 H3 H4 H5 H6 H7 H8 H9]. destruct H4 as (lost0 & _ & Hrun & _). destruct (Hrun Hnf) as (_ & Hd & _).
  assert (in_flight q = []) as Hi.
  { unfold in_flight. clear -Hall. induction Hall as [|s l -> Hall IH]; [done|]. exact IH. }
  assert (q_stopping q = true) as Hs.
  { apply H7. rewrite Hst in H3. destruct (q_workers q) as [|s l]; [simpl in H3; lia|]. inversion Hall; subst. by left. }
  split; simpl; try done.
  - lia.
  - by rewrite Hst in *.
  - exists (held q ++ lost). change (held (finish q drainDone)) with (re_report <$> [] ++ in_flight q). rewrite Hi. simpl.
    split_and!; [done|done|]. intros _. split; [done|]. destruct (q_retained q =? 0) eqn:E.
    + intros _. to_prop. apply nil_length_inv. lia.
    + by destruct (if q_drainCtx q then drainDone else None).
  - intros _. auto.
Qed.

Lemma step_inv acc rel q l q' :
  queue_inv acc rel q → step q l q' →
  queue_inv (match l with Enqueued r => r :: acc | _ => acc end) (match l with Released r => r :: rel | _ => rel end) q'.
Proof.
  intros HI. destruct 1 as [q q' E|q c r now q' b E|q|q q' r E|q E|q k now q' e Hk E|q k now q' Hk E|q k e err f rnd Hk|q dd Hs Hf Ha|q Hf].
  - by eapply Start_inv.
  - pose proof (Accept_inv _ _ _ _ _ _ _ _ HI E) as H. by destruct (bool_decide (b = Ok true)).
  - by apply Stop_inv.
  - by eapply Drain_inv.
  - by apply cancelRun_inv.
  - by eapply take_inv.
  - by eapply exit_inv.
  - pose proof (saved_inv _ _ _ _ _ err f rnd HI Hk) as H. by destruct err.
  - by apply finish_inv.
  - destruct HI as [H1 H2 H3 H4 H5 H6 H7 H8 H9]. split; simpl; try done. intros _. split; [|done]. by apply H5, H8.
Qed.

Lemma runs_inv q0 acc rel q : queue_inv [] [] q0 → runs q0 acc rel q → queue_inv acc rel q.
Proof. intros H0. induction 1 as [|q acc rel q1 l q2 Hr IH Hs]; [done|]. by eapply step_inv; [apply IH|]. Qed.

Lemma completed_clean acc rel q : queue_inv acc rel q → q_completed q = true → q_drainErr q = None → acc ≡ₚ rel.
Proof.
  intros Hs Ec Hde. destruct (qi_lost _ _ _ Hs) as (lost & Hacc & Hrun & Hfin). destruct (q_finishing q) eqn:Ef.
  - destruct (Hfin eq_refl) as [Hh Hl]. rewrite Hh, (Hl Hde) in Hacc. simpl in Hacc. by rewrite app_nil_r in Hacc.
  - assert (q_started q = false) as Est by (destruct (q_started _) eqn:E; [|done]; destruct (qi_completed _ _ _ Hs Ec); intuition congruence).
    pose proof (qi_workers _ _ _ Hs) as Hw. rewrite Est in Hw. destruct Hw as (_ & _ & Hz & _).
    destruct (Hrun eq_refl) as (Hl & _). rewrite Hz in Hl.
    assert (held q ++ lost = []) as E by (apply nil_length_inv; lia). rewrite E in Hacc. by rewrite app_nil_r in Hacc.
Qed.

(** ** What the queue promises *)

Section promises.
Context (capacity concurrency : Z) (q0 : Queue) (Hnew : NewQueue capacity concurrency = Ok q0).

Lemma reached_inv acc rel q : runs q0 acc rel q → queue_inv acc rel q.
Proof. apply runs_inv. by eapply NewQueue_inv. Qed.

(** Retention is bounded: at any moment the waiting and the in-flight reports
    together stay within the retained count, which stays within the capacity, and no
    more saves are active than configured. *)
Theorem queue_bounded acc rel q :
  runs q0 acc rel q →
  0 ≤ Z.of_nat (length (q_pending q) + length (in_flight q)) ≤ q_retained q ∧ q_retained q ≤ q_capacity q ∧
  Z.of_nat (length (in_flight q)) ≤ q_concurrency q.
Proof.
  intros Hr%reached_inv. destruct Hr as [H1 H2 H3 H4 _ _ _ _ _].
  assert (length (held q) = length (q_pending q) + length (in_flight q))%nat as Hh
    by (unfold held; by rewrite length_fmap, length_app).
  assert (length (in_flight q) ≤ length (q_workers q))%nat as Hw.
  { unfold in_flight. clear. induction (q_workers q) as [|s l IH]; csimpl; [lia|]. destruct s; csimpl; lia. }
  split_and!; [lia| |lia|].
  - destruct H4 as (lost & _ & Hrun & Hfin). destruct (q_finishing q).
    + destruct (Hfin eq_refl) as [Hn _]. rewrite Hn in Hh. simpl in Hh. lia.
    + destruct (Hrun eq_refl) as (Hl & _). rewrite length_app in Hl. lia.
  - destruct (q_started q); [lia|]. destruct H3 as (Hn & _). rewrite Hn in Hw. simpl in Hw. lia.
Qed.

(** C27: No acknowledged report is lost.  Until the shutdown budget cancels the
    workers, the accepted reports are exactly those whose save succeeded and those
    the queue still holds, each as often as it was accepted. *)
Theorem no_report_lost acc rel q :
  runs q0 acc rel q → q_canceled q = false → acc ≡ₚ rel ++ held q.
Proof.
  intros Hr%reached_inv Hc.
  assert (q_finishing q = false) as Hf by (destruct (q_finishing q) eqn:E; [|done]; destruct (qi_finishing _ _ _ Hr E); congruence).
  destruct (accounts _ _ _ Hr Hf) as (lost & Hacc & _ & Hlost). rewrite (Hlost Hc), app_nil_r in Hacc. done.
Qed.

(** A clean drain saved everything: when [Drain] answers without an
    error, at once or after its wait, every
    accepted report has been saved. *)
Theorem drained_all_saved acc rel q q' :
  runs q0 acc rel q → Drain q = (q', Some None) ∨ Drain_return q = Some None → acc ≡ₚ rel.
Proof.
  intros Hr%reached_inv [Hd|Hd].
  - apply Stop_inv in Hr. unfold Drain in Hd.
    destruct (q_completed (Stop q)) eqn:Ec; [|by destruct (q_drainCtx (Stop q))]. injection Hd as _ Hde. by eapply completed_clean.
  - unfold Drain_return in Hd. destruct (q_completed q) eqn:Ec; [|done]. injection Hd as Hde. by eapply completed_clean.
Qed.
End promises.

(** ** Draining can always complete *)

Lemma runs_one q l q' :
  step q l q' → runs q (match l with Enqueued r => [r] | _ => [] end) (match l with Released r => [r] | _ => [] end) q'.
Proof. intros Hs. pose proof (runs_step q [] [] q l q' (runs_nil q) Hs). by destruct l. Qed.

Lemma runs_trans q acc rel q1 acc' rel' q2 :
  runs q acc rel q1 → runs q1 acc' rel' q2 → runs q (acc' ++ acc) (rel' ++ rel) q2.
Proof.
  intros H1. induction 1 as [|q1 acc' rel' q2 l q3 Hr IH Hs]; [done|].
  specialize (IH H1). pose proof (runs_step _ _ _ _ _ _ IH Hs) as H. by destruct l.
Qed.

(** States from which the queue is draining without a cancellation. *)
Definition draining (q : Queue) : Prop :=
  q_started q = true ∧ q_stopping q = true ∧ q_canceled q = false ∧ q_finishing q = false.

Lemma release_step acc rel q k e :
  queue_inv acc rel q → draining q → q_workers q !! k = Some (Saving e) →
  ∃ rel' q', runs q [] rel' q' ∧ draining q' ∧ q_retained q' = q_retained q - 1 ∧ queue_inv acc (rel' ++ rel) q'.
Proof.
  intros HI Hd Hk. pose proof (step_saved q k e None 0 0 Hk) as Hs. exists [re_report e]. eexists.
  split; [by apply (runs_one _ _ _ Hs)|]. split; [exact Hd|]. split; [done|]. exact (step_inv _ _ _ _ _ HI Hs).
Qed.

Lemma drain_one acc rel q :
  queue_inv acc rel q → draining q → 0 < q_retained q →
  ∃ rel' q', runs q [] rel' q' ∧ draining q' ∧ q_retained q' = q_retained q - 1 ∧ queue_inv acc (rel' ++ rel) q'.
Proof.
  intros HI Hd Hpos. pose proof Hd as (Hst & Hsp & Hc & Hf).
  destruct (in_flight q) as [|e l] eqn:Hi.
  - destruct (accounts _ _ _ HI Hf) as (lost & _ & Hlen & Hlost). rewrite (Hlost Hc), app_nil_r in Hlen.
    unfold held in Hlen. rewrite Hi, app_nil_r, length_fmap in Hlen.
    destruct (q_pending q) as [|e rest] eqn:Hp; [simpl in Hlen; lia|].
    pose proof (qi_workers _ _ _ HI) as Hw. rewrite Hst in Hw. pose proof (qi_settings _ _ _ HI) as [_ Hcc].
    destruct (q_workers q) as [|s ws] eqn:Ew; [simpl in Hw; lia|].
    assert (s = Idle) as ->.
    { destruct s as [|e'|]; [done| |].
      - unfold in_flight in Hi. by rewrite Ew in Hi.
      - destruct (qi_exited _ _ _ HI) as [_ [?|?]]; [rewrite Ew; by left|congruence|lia]. }
    assert (take_entry q (re_due e) = ({ q with q_pending := rest }, TakeEntry e)) as Ht.
    { unfold take_entry. rewrite Hc, Hsp, Hp. rewrite (proj2 (Z.eqb_neq (q_retained q) 0)) by lia. simpl. by rewrite Z.leb_refl. }
    assert (q_workers q !! 0%nat = Some Idle) as Hk by (by rewrite Ew).
    pose proof (step_take q 0 _ _ _ Hk Ht) as Hs1. pose proof (step_inv _ _ _ _ _ HI Hs1) as HI1.
    destruct (release_step acc rel _ 0 e HI1) as (r1 & q2 & Hr & Hd2 & Hret & HI2);
      [exact Hd|unfold set_worker; simpl; by rewrite Ew|].
    exists r1, q2. split_and!; [|done|done|done].
    pose proof (runs_trans _ _ _ _ _ _ _ (runs_one _ _ _ Hs1) Hr) as H. rewrite (app_nil_r r1) in H. exact H.
  - assert (e ∈ in_flight q) as He by (rewrite Hi; by left). unfold in_flight in He.
    apply list_elem_of_omap in He as (s & Hin & Es). apply list_elem_of_lookup in Hin as [k Hk].
    destruct s; try done. injection Es as ->. by eapply release_step.
Qed.

Lemma drain_all n acc rel q :
  queue_inv acc rel q → draining q → q_retained q = Z.of_nat n →
  ∃ rel' q', runs q [] rel' q' ∧ draining q' ∧ q_retained q' = 0 ∧ queue_inv acc (rel' ++ rel) q'.
Proof.
  revert acc rel q. induction n as [|n IH]; intros acc rel q HI Hd Hn.
  { exists [], q. split_and!; try done. constructor. }
  destruct (drain_one _ _ _ HI Hd) as (r1 & q1 & Hr1 & Hd1 & Hn1 & HI1); [lia|].
  destruct (IH _ _ _ HI1 Hd1) as (r2 & q2 & Hr2 & Hd2 & Hn2 & HI2); [lia|].
  exists (r2 ++ r1), q2. rewrite <-app_assoc. split_and!; [exact (runs_trans _ _ _ _ _ _ _ Hr1 Hr2)|done|done|done].
Qed.

(** With nothing retained every worker returns. *)
Lemma exit_all n acc rel q :
  queue_inv acc rel q → draining q → q_retained q = 0 → (n ≤ length (q_workers q))%nat →
  ∃ q', runs q [] [] q' ∧ draining q' ∧ q_retained q' = 0 ∧ queue_inv acc rel q' ∧
    length (q_workers q') = length (q_workers q) ∧ ∀ k, (k < n)%nat → q_workers q' !! k = Some Exited.
Proof.
  intros HI Hd Hz. induction n as [|n IH]; intros Hn; [exists q; split_and!; try done; [constructor|lia]|].
  destruct IH as (q1 & Hr & Hd1 & Hz1 & HI1 & Hlen & Hex); [lia|]. pose proof Hd1 as (Hst & Hsp & Hc & Hf).
  destruct (accounts _ _ _ HI1 Hf) as (lost & _ & Hl & _). rewrite Hz1, length_app in Hl.
  assert (in_flight q1 = []) as Hi.
  { apply nil_length_inv. unfold held in Hl. rewrite length_fmap, length_app in Hl. lia. }
  destruct (lookup_lt_is_Some_2 (q_workers q1) n) as [s Hk]; [lia|]. destruct s as [|e|].
  - assert (take_entry q1 0 = (q1, TakeExit)) as Ht by (unfold take_entry; rewrite Hc, Hsp, Hz1; done).
    pose proof (step_exit q1 n 0 q1 Hk Ht) as Hs. exists (set_worker n Exited q1).
    split_and!; [exact (runs_trans _ _ _ _ _ _ _ Hr (runs_one _ _ _ Hs))|exact Hd1|exact Hz1|exact (step_inv _ _ _ _ _ HI1 Hs)| |].
    + simpl. by rewrite length_insert.
    + intros k Hkn. simpl. destruct (decide (k = n)) as [->|Hne].
      * apply list_lookup_insert_eq. lia.
      * rewrite list_lookup_insert_ne by done. apply Hex. lia.
  - assert (e ∈ in_flight q1) as He by (apply list_elem_of_omap; exists (Saving e); split; [by eapply list_elem_of_lookup_2|done]).
    rewrite Hi in He. by apply elem_of_nil in He.
  - exists q1. split_and!; try done. intros k Hkn. destruct (decide (k = n)) as [->|Hne]; [done|]. apply Hex. lia.
Qed.

(** Draining can always complete.  From every state of a started queue that is
    stopping and not canceled, the workers can bring it to completion without an
    error and without further admissions, with every accepted report saved: no
    interleaving blocks the shutdown. *)
Theorem drain_can_complete capacity concurrency q0 acc rel q :
  NewQueue capacity concurrency = Ok q0 → runs q0 acc rel q →
  q_started q = true → q_stopping q = true → q_canceled q = false →
  ∃ rel' q', runs q [] rel' q' ∧ q_completed q' = true ∧ q_drainErr q' = None ∧ acc ≡ₚ rel' ++ rel.
Proof.
  intros Hnew Hr Hst Hsp Hc. pose proof (reached_inv _ _ _ Hnew _ _ _ Hr) as HI.
  assert (draining q) as Hd.
  { split_and!; try done. destruct (q_finishing q) eqn:E; [|done]. destruct (qi_finishing _ _ _ HI E). congruence. }
  destruct (drain_all (Z.to_nat (q_retained q)) _ _ _ HI Hd) as (r1 & q1 & Hr1 & Hd1 & Hz1 & HI1);
    [pose proof (qi_bound _ _ _ HI); lia|].
  destruct (exit_all (length (q_workers q1)) _ _ _ HI1 Hd1 Hz1 (le_n _)) as (q2 & Hr2 & Hd2 & Hz2 & HI2 & Hlen & Hex).
  pose proof Hd2 as (Hst2 & _ & _ & Hf2).
  assert (Forall (λ s, s = Exited) (q_workers q2)) as Hall.
  { apply Forall_forall. intros s [k Hk]%list_elem_of_lookup. pose proof (lookup_lt_Some _ _ _ Hk).
    rewrite Hex in Hk by lia. congruence. }
  pose proof (runs_one _ _ _ (step_finish q2 None Hst2 Hf2 Hall)) as Hr3.
  pose proof (runs_one _ _ _ (step_done (finish q2 None) eq_refl)) as Hr4.
  pose proof (runs_trans _ _ _ _ _ _ _ (runs_trans _ _ _ _ _ _ _ (runs_trans _ _ _ _ _ _ _ Hr1 Hr2) Hr3) Hr4) as Hrun.
  simpl in Hrun. eexists r1, _. split; [exact Hrun|]. split; [done|].
  assert (q_drainErr (finish q2 None) = None) as He.
  { simpl. rewrite Hz2. simpl. destruct (qi_lost _ _ _ HI2) as (lost & _ & Hx & _). by destruct (Hx Hf2) as (_ & ? & _). }
  pose proof (step_inv _ _ _ _ _ (finish_inv _ _ _ None HI2 Hst2 Hf2 Hall) (step_done (finish q2 None) eq_refl)) as HI4.
  split; [exact He|]. exact (completed_clean _ _ _ HI4 eq_refl He).
Qed.

(** ** Order and backoff *)

Definition not_before (a b : retainedResult) : Prop := Less b a = false.

Lemma Less_trans_false a b c : Less b a = false → Less c b = false → Less c a = false.
Proof.
  unfold Less, before. destruct (re_due b =? re_due a) eqn:E1, (re_due c =? re_due b) eqn:E2, (re_due c =? re_due a) eqn:E3;
    intros; to_prop; rewrite ?Z.ltb_ge; lia.
Qed.

Lemma heap_push_sorted e l : StronglySorted not_before l → StronglySorted not_before (heap_push e l).
Proof.
  induction 1 as [|x l Hs IH Hf]; simpl; [by repeat constructor|]. destruct (Less e x) eqn:E.
  - assert (Less x e = false) as E'.
    { unfold Less, before in *. destruct (re_due e =? re_due x) eqn:E1, (re_due x =? re_due e) eqn:E2; to_prop; rewrite ?Z.ltb_ge; lia. }
    constructor; [by constructor|]. constructor; [done|]. eapply Forall_impl; [exact Hf|]. intros y Hy. by eapply Less_trans_false.
  - constructor; [done|]. rewrite (heap_push_perm e l). by constructor.
Qed.

Lemma step_sorted q l q' : StronglySorted not_before (q_pending q) → step q l q' → StronglySorted not_before (q_pending q').
Proof.
  intros Hs. destruct 1 as [q q' E|q c r now q' b E|q|q q' r E|q E|q k now q' e Hk E|q k now q' Hk E|q k e err f rnd Hk|q dd Hst Hf Ha|q Hf];
    simpl; try done.
  - unfold Start in E. destruct (_ || _); [done|]. by injection E as <-.
  - unfold Accept in E. destruct c; [by injection E as <- _|]. destruct (negb _ || _); [by injection E as <- _|].
    destruct (_ =? _); injection E as <- _; [done|]. by apply heap_push_sorted.
  - unfold Stop. simpl. by destruct (_ && _).
  - unfold Drain, Stop in E. simpl in E. destruct (negb _ && _); simpl in E; [by injection E as <- _|].
    destruct (q_completed q); [by injection E as <- _|]. destruct (q_drainCtx q); by injection E as <- _.
  - unfold take_entry in E. destruct (_ || _); [done|]. destruct (q_pending q) as [|x rest] eqn:Ep; [done|].
    destruct (_ <=? _); [|done]. injection E as <- _. by inversion Hs.
  - unfold take_entry in E. destruct (_ || _); [by injection E as <-|]. destruct (q_pending q); [done|]. by destruct (_ <=? _).
  - unfold afterSave. destruct err; [|done]. destruct (q_canceled q); [done|]. by apply heap_push_sorted.
  - constructor.
Qed.

(** Workers take reports in the order they are due.  A worker never takes a
    report before its time, and none of the remaining ones is due earlier, or due at
    the same time and accepted earlier. *)
Theorem take_in_order capacity concurrency q0 acc rel q now q' e :
  NewQueue capacity concurrency = Ok q0 → runs q0 acc rel q → take_entry q now = (q', TakeEntry e) →
  re_due e ≤ now ∧ ∀ e', e' ∈ q_pending q' →
    re_due e < re_due e' ∨ (re_due e = re_due e' ∧ re_sequence e ≤ re_sequence e').
Proof.
  intros Hnew Hr Ht. assert (StronglySorted not_before (q_pending q)) as Hs.
  { clear Ht. induction Hr as [q0|q0 acc rel q1 l q2 Hr IH Hs]; [|by eapply step_sorted; [apply IH|]].
    unfold NewQueue in Hnew. destruct (_ || _); [done|]. injection Hnew as <-. constructor. }
  unfold take_entry in Ht. destruct (_ || _); [done|]. destruct (q_pending q) as [|x rest] eqn:Ep; [done|].
  destruct (re_due x <=? now) eqn:E; [|done]. injection Ht as <- <-. to_prop. split; [done|]. simpl. intros e' He'.
  inversion Hs as [|? ? _ Hf]; subst. eapply Forall_forall in Hf; [|exact He'].
  unfold not_before, Less, before in Hf. destruct (re_due e' =? re_due x) eqn:Ed; to_prop; lia.
Qed.

(** The backoff is bounded: with any random draw the delay of a retained failure
    lies within a fifth of its step, between 0.8 and 36 seconds. *)
Theorem save_retry_delay_bounds failures k :
  0 ≤ k < 2 ^ 53 →
  retry_step failures * 8 / 10 ≤ saveRetryDelay failures k ≤ retry_step failures * 12 / 10 ∧
  800 * Millisecond ≤ saveRetryDelay failures k ≤ 36 * Second.
Proof.
  intros Hk. assert (Second ≤ retry_step failures ≤ 30 * Second) as Hstep.
  { unfold retry_step. assert (0 ≤ Z.min (Z.max (failures - 1) 0) 5 ≤ 5) as Hi by lia.
    generalize dependent (Z.min (Z.max (failures - 1) 0) 5). intros i Hi.
    assert (i = 0 ∨ i = 1 ∨ i = 2 ∨ i = 3 ∨ i = 4 ∨ i = 5) as [->|[->|[->|[->|[->| ->]]]]] by lia; simpl; unfold Second; lia. }
  unfold saveRetryDelay. set (s := retry_step failures) in *.
  assert (s * 8 / 10 ≤ s * (8 * 2 ^ 53 + 4 * k) / (10 * 2 ^ 53)) as Hlo.
  { rewrite <-(Z.div_mul_cancel_r (s * 8) 10 (2 ^ 53)) by done. apply Z.div_le_mono; [done|]. unfold Second in *. nia. }
  assert (s * (8 * 2 ^ 53 + 4 * k) / (10 * 2 ^ 53) ≤ s * 12 / 10) as Hhi.
  { rewrite <-(Z.div_mul_cancel_r (s * 12) 10 (2 ^ 53)) by done. apply Z.div_le_mono; [done|]. unfold Second in *. nia. }
  split; [done|]. split.
  - etrans; [|exact Hlo]. unfold Millisecond, Second in *. apply Z.div_le_lower_bound; lia.
  - etrans; [exact Hhi|]. unfold Second in *. apply Z.div_le_upper_bound; lia.
Qed.

(** ** Instances *)

Definition sample_report : Report :=
  {| rp_GroupID := 1; rp_JobID := 1; rp_InstanceID := 1; rp_TaskID := 1; rp_AttemptNo := 1; rp_ExecutorInstanceID := "";
     rp_Outcome := OutcomeFailure; rp_Summary := ""; rp_Data := None; rp_PreparedItems := None |}.
Definition sample_entry : retainedResult :=
  {| re_report := sample_report; re_due := 5; re_sequence := 1; re_failures := 0 |}.

(** One worker, two places: new, with a waiting report, saving it, and after a
    clean shutdown. *)
Definition sample_new : Queue :=
  {| q_capacity := 2; q_concurrency := 1; q_started := false; q_stopping := false; q_completed := false;
     q_retained := 0; q_sequence := 0; q_pending := []; q_canceled := false; q_drainCtx := false; q_drainErr := None;
     q_workers := []; q_finishing := false |}.
Definition sample_waiting : Queue :=
  { sample_new with q_started := true; q_workers := [Idle]; q_sequence := 1; q_pending := [sample_entry]; q_retained := 1 }.
Definition sample_saving : Queue := { sample_waiting with q_pending := []; q_workers := [Saving sample_entry] }.
Definition sample_stopping : Queue := { sample_saving with q_stopping := true }.
Definition sample_done : Queue :=
  { sample_stopping with q_retained := 0; q_workers := [Exited]; q_canceled := true; q_finishing := true; q_completed := true }.

Lemma sample_waiting_runs : runs sample_new [sample_report] [] sample_waiting.
Proof.
  set (q1 := { sample_new with q_started := true; q_workers := [Idle] }).
  assert (runs sample_new [] [] q1) as Hr by (apply (runs_one _ Silent); by apply step_start).
  exact (runs_step _ [] [] q1 (Enqueued sample_report) sample_waiting Hr
    (step_accept q1 None sample_report 5 sample_waiting (Ok true) eq_refl)).
Qed.

Lemma sample_saving_runs : runs sample_new [sample_report] [] sample_saving.
Proof.
  eapply (runs_step _ _ _ _ Silent); [apply sample_waiting_runs|].
  exact (step_take sample_waiting 0 5 _ sample_entry eq_refl eq_refl).
Qed.

Lemma sample_stopping_runs : runs sample_new [sample_report] [] sample_stopping.
Proof. eapply (runs_step _ _ _ _ Silent); [apply sample_saving_runs|]. exact (step_stop sample_saving). Qed.

Lemma sample_done_runs : runs sample_new [sample_report] [sample_report] sample_done.
Proof.
  assert (runs sample_stopping [] [sample_report] sample_done) as Hr; [|exact (runs_trans _ _ _ _ _ _ _ sample_stopping_runs Hr)].
  eapply (runs_step _ [] _ (finish (set_worker 0 Exited (set_worker 0 Idle (afterSave sample_stopping sample_entry None 0 0))) None) Silent);
    [|exact (step_done (finish _ None) eq_refl)].
  eapply (runs_step _ [] _ _ Silent); [|apply step_finish; [reflexivity|reflexivity|by repeat constructor]].
  eapply (runs_step _ [] _ _ Silent); [|exact (step_exit (set_worker 0 Idle (afterSave sample_stopping sample_entry None 0 0)) 0 0 _ eq_refl eq_refl)].
  exact (runs_step _ [] [] _ (Released sample_report) _ (runs_nil _) (step_saved sample_stopping 0 sample_entry None 0 0 eq_refl)).
Qed.

Lemma queue_bounded_witness : Z.of_nat (length (in_flight sample_saving)) ≤ q_concurrency sample_saving.
Proof. apply (queue_bounded 2 1 sample_new eq_refl [sample_report] [] sample_saving sample_saving_runs). Defined.

Lemma no_report_lost_witness : [sample_report] ≡ₚ [] ++ held sample_saving.
Proof. apply (no_report_lost 2 1 sample_new eq_refl); [apply sample_saving_runs|reflexivity]. Defined.

Lemma drained_all_saved_witness : Drain sample_done = (sample_done, Some None) ∧ [sample_report] ≡ₚ [sample_report].
Proof.
  split; [reflexivity|]. apply (drained_all_saved 2 1 sample_new eq_refl _ _ sample_done sample_done); [apply sample_done_runs|by left].
Defined.

Lemma drain_can_complete_witness :
  ∃ rel' q', runs sample_stopping [] rel' q' ∧ q_completed q' = true ∧ q_drainErr q' = None ∧ [sample_report] ≡ₚ rel' ++ [].
Proof.
  apply (drain_can_complete 2 1 sample_new [sample_report] [] sample_stopping);
    [reflexivity|apply sample_stopping_runs|reflexivity|reflexivity|reflexivity].
Defined.

Lemma take_in_order_witness : re_due sample_entry ≤ 5.
Proof.
  eapply (take_in_order 2 1 sample_new [sample_report] [] sample_waiting 5); [reflexivity|apply sample_waiting_runs|reflexivity].
Defined.

Lemma save_retry_delay_bounds_witness : saveRetryDelay 9 0 ≤ 36 * Second.
Proof. apply save_retry_delay_bounds. split; [discriminate|reflexivity]. Defined.
