(* ===== verification/HintSpec.v ===== *)
(** * What a queue of instance hints promises

    The stop queue (apps/job/internal/instancestop/queue.go) and the check queue
    (apps/job/internal/instancecheck/queue.go) hold instance IDs for fixed pools of
    workers.  They differ in when an ID becomes eligible; both promise the same
    thing to the components that hint them, and [hint_step] states it without
    lists, timers or workers: a bounded set of owed IDs, of which some are being
    worked on.  The class [HintQueue] is that promise; its consequences are proved
    here once, from traces of the specification. *)

From S2P Require Import Prelude GoLib Model.

Open Scope Z_scope.

(** ** Runs of a labelled transition system *)

Section traces.
Context {S L : Type} (step : S → L → S → Prop).

(** A run and the labels it shows, oldest first. *)
Inductive traces : S → list L → S → Prop :=
| traces_nil s : traces s [] s
| traces_snoc s tr s1 l s2 : traces s tr s1 → step s1 l s2 → traces s (tr ++ [l]) s2.

Lemma traces_one s l s' : step s l s' → traces s [l] s'.
Proof. intros Hs. exact (traces_snoc s [] s l s' (traces_nil s) Hs). Qed.

Lemma traces_app s tr s1 tr' s2 : traces s tr s1 → traces s1 tr' s2 → traces s (tr ++ tr') s2.
Proof.
  intros H1 H2. induction H2 as [s1|s1 tr' s2 l s3 H2 IH Hs]; [by rewrite app_nil_r|].
  rewrite app_assoc. eapply traces_snoc; [by apply IH|done].
Qed.

Lemma traces_cons s l s1 tr s2 : step s l s1 → traces s1 tr s2 → traces s (l :: tr) s2.
Proof. intros Hs Ht. exact (traces_app _ [l] _ _ _ (traces_one _ _ _ Hs) Ht). Qed.

Lemma traces_snoc_inv s tr l s2 : traces s (tr ++ [l]) s2 → ∃ s1, traces s tr s1 ∧ step s1 l s2.
Proof.
  remember (tr ++ [l]) as k eqn:Ek. destruct 1 as [s|s tr0 s1 l0 s2 Ht Hs].
  - by apply symmetry, app_nil in Ek as [_ [=]].
  - apply app_inj_tail in Ek as [-> ->]. eauto.
Qed.

Lemma traces_nil_inv s s2 : traces s [] s2 → s2 = s.
Proof.
  remember [] as k eqn:Ek. destruct 1 as [s|s tr s1 l s2 Ht Hs]; [done|]. by apply app_nil in Ek as [_ [=]].
Qed.

Lemma traces_split s tr tr' s2 : traces s (tr ++ tr') s2 → ∃ s1, traces s tr s1 ∧ traces s1 tr' s2.
Proof.
  revert s2. induction tr' as [|l tr' IH] using rev_ind; intros s2 Ht.
  { rewrite app_nil_r in Ht. exists s2. split; [done|constructor]. }
  rewrite app_assoc in Ht. apply traces_snoc_inv in Ht as (s1 & (s0 & H1 & H2)%IH & Hs).
  exists s0. split; [done|]. by eapply traces_snoc.
Qed.

Lemma traces_cons_inv s l tr s2 : traces s (l :: tr) s2 → ∃ s1, step s l s1 ∧ traces s1 tr s2.
Proof.
  intros (s1 & H1 & H2)%(traces_split _ [l] tr). exists s1. split; [|done].
  apply (traces_snoc_inv _ []) in H1 as (s0 & ->%traces_nil_inv & Hs). done.
Qed.

Lemma traces_inv (I : S → Prop) s tr s' :
  (∀ s l s', I s → step s l s' → I s') → I s → traces s tr s' → I s'.
Proof. intros Hstep HI Ht. induction Ht; eauto. Qed.
End traces.
Arguments traces_nil {_ _ _} _.

(** ** Worker goroutines *)

(** Where a worker is: waiting for work, busy with a piece of it, or returned. *)
Inductive Worker (A : Type) := Idle | Busy (a : A) | Exited.
Arguments Idle {A}.
Arguments Busy {A} a.
Arguments Exited {A}.

Section workers.
Context {A : Type}.
Implicit Types ws : list (Worker A).

Definition work_of (w : Worker A) : option A := match w with Busy a => Some a | _ => None end.
Definition busy ws : list A := omap work_of ws.
Definition exited (w : Worker A) : bool := match w with Exited => true | _ => false end.

Lemma busy_replicate n : busy (replicate n Idle) = [].
Proof. by induction n. Qed.

Lemma elem_of_busy ws a : a ∈ busy ws ↔ ∃ k, ws !! k = Some (Busy a).
Proof.
  unfold busy. rewrite list_elem_of_omap. split.
  - intros (w & [k Hk]%list_elem_of_lookup & Hw). destruct w; simplify_eq/=. eauto.
  - intros [k Hk%list_elem_of_lookup_2]. by exists (Busy a).
Qed.

Lemma busy_insert ws k w w' :
  ws !! k = Some w →
  option_list (work_of w) ++ busy (<[k := w']> ws) ≡ₚ option_list (work_of w') ++ busy ws.
Proof.
  intros Hk. unfold busy. rewrite insert_take_drop by (by eapply lookup_lt_Some). rewrite <-(take_drop_middle ws k w) at 3 by done.
  assert (∀ x l, omap work_of (x :: l) = option_list (work_of x) ++ omap work_of l) as E
    by (intros x l; csimpl; by destruct (work_of x)).
  rewrite !omap_app, !E. solve_Permutation.
Qed.

Lemma busy_take ws k a : ws !! k = Some Idle → busy (<[k := Busy a]> ws) ≡ₚ a :: busy ws.
Proof. intros Hk. exact (busy_insert ws k Idle (Busy a) Hk). Qed.
Lemma busy_release ws k a w : ws !! k = Some (Busy a) → work_of w = None → busy ws ≡ₚ a :: busy (<[k := w]> ws).
Proof. intros Hk Hw. pose proof (busy_insert ws k (Busy a) w Hk) as H. rewrite Hw in H. simpl in H. by symmetry. Qed.
Lemma busy_exit ws k : ws !! k = Some Idle → busy (<[k := Exited]> ws) ≡ₚ busy ws.
Proof. intros Hk. exact (busy_insert ws k Idle Exited Hk). Qed.

Lemma busy_exited ws : forallb exited ws = true → busy ws = [].
Proof. induction ws as [|[] ws IH]; csimpl; done. Qed.

Lemma exited_lookup ws k w : forallb exited ws = true → ws !! k = Some w → w = Exited.
Proof.
  revert k. induction ws as [|w' ws IH]; intros [|k] Hf Hk; simpl in *; try done.
  - apply andb_true_iff in Hf as [Hw _]. by destruct w'; simplify_eq/=.
  - apply andb_true_iff in Hf as [_ Hf]. by eapply IH.
Qed.

Lemma exited_insert ws k w : Exited ∈ <[k := w]> ws → w = Exited ∨ Exited ∈ ws.
Proof.
  intros [j Hj]%list_elem_of_lookup. apply list_lookup_insert_Some in Hj as [(_ & <- & _)|[_ Hj]]; [by left|].
  right. by eapply list_elem_of_lookup_2.
Qed.

Lemma length_busy ws : (length (busy ws) ≤ length ws)%nat.
Proof. induction ws as [|[] ws IH]; csimpl; lia. Qed.
End workers.

(** ** The specification *)

Inductive Phase := Unstarted | Accepting | Draining | Finished.

Record HintSpec := { hs_phase : Phase; hs_owed : gset Z; hs_active : gset Z }.

(** What can be seen of a queue: the answer to a hint, a worker starting on an ID
    and returning from it, with [kept] when the ID stays owed and [settled] when the
    work reported without error that nothing is left to do. *)
Inductive HintLabel :=
| Offered (id : Z) (accepted : bool)
| Began (id : Z)
| Ended (id : Z) (kept settled : bool)
| Internal.

Definition spec_new : HintSpec := {| hs_phase := Unstarted; hs_owed := ∅; hs_active := ∅ |}.

Inductive hint_step (capacity : Z) : HintSpec → HintLabel → HintSpec → Prop :=
| hint_start s :
    hs_phase s = Unstarted → hint_step capacity s Internal { s with hs_phase := Accepting }
| hint_accept s id :
    hs_phase s = Accepting → 0 < id → id ∈ hs_owed s ∨ Z.of_nat (size (hs_owed s)) < capacity →
    hint_step capacity s (Offered id true) { s with hs_owed := {[id]} ∪ hs_owed s }
| hint_refuse s id :
    id ≤ 0 ∨ hs_phase s ≠ Accepting ∨ (id ∉ hs_owed s ∧ capacity ≤ Z.of_nat (size (hs_owed s))) →
    hint_step capacity s (Offered id false) s
| hint_begin s id :
    hs_phase s = Accepting ∨ hs_phase s = Draining → id ∈ hs_owed s → id ∉ hs_active s →
    hint_step capacity s (Began id) { s with hs_active := {[id]} ∪ hs_active s }
| hint_end s id kept settled :
    id ∈ hs_active s →
    hint_step capacity s (Ended id kept settled)
      { s with hs_owed := if kept : bool then hs_owed s else hs_owed s ∖ {[id]}; hs_active := hs_active s ∖ {[id]} }
| hint_close s :
    hint_step capacity s Internal
      { s with hs_phase := match hs_phase s with Unstarted => Finished | Accepting => Draining | p => p end }
| hint_finish s :
    hs_phase s = Draining → hs_active s = ∅ →
    hint_step capacity s Internal {| hs_phase := Finished; hs_owed := ∅; hs_active := ∅ |}
| hint_idle s : hint_step capacity s Internal s.

Record spec_inv (capacity : Z) (s : HintSpec) : Prop := {
  si_active : hs_active s ⊆ hs_owed s;
  si_bound : Z.of_nat (size (hs_owed s)) ≤ capacity;
  si_positive : ∀ id, id ∈ hs_owed s → 0 < id;
}.

Lemma spec_inv_step capacity s l s' : spec_inv capacity s → hint_step capacity s l s' → spec_inv capacity s'.
Proof.
  intros [Ha Hb Hp]. destruct 1 as [s Hph|s id Hph Hid Hroom|s id Hr|s id Hph Ho Hn|s id kept settled Hi|s|s Hph He|s];
    try (by constructor); constructor; simpl; try set_solver.
  - destruct Hroom as [Hin|Hlt].
    + assert ({[id]} ∪ hs_owed s = hs_owed s) as -> by set_solver. done.
    + pose proof (size_union_alt {[id]} (hs_owed s)) as Hs. rewrite size_singleton in Hs.
      pose proof (subseteq_size (hs_owed s ∖ {[id]}) (hs_owed s) ltac:(set_solver)). lia.
  - destruct kept; set_solver.
  - destruct kept; [done|]. pose proof (subseteq_size (hs_owed s ∖ {[id]}) (hs_owed s) ltac:(set_solver)). lia.
  - destruct kept; set_solver.
  - change (Z.of_nat (size (∅ : gset Z)) ≤ capacity). rewrite size_empty. lia.
Qed.

Lemma spec_inv_new capacity : 0 < capacity → spec_inv capacity spec_new.
Proof. intros Hc. constructor; [done| |set_solver]. change (Z.of_nat (size (∅ : gset Z)) ≤ capacity). rewrite size_empty. lia. Qed.

(** ** Consequences, on traces *)

Definition spec_runs (capacity : Z) : HintSpec → list HintLabel → HintSpec → Prop := traces (hint_step capacity).

Lemma spec_runs_inv capacity s tr s' : spec_inv capacity s → spec_runs capacity s tr s' → spec_inv capacity s'.
Proof. intros HI. apply traces_inv; [apply spec_inv_step|done]. Qed.

(** An ID being worked on stays so until a worker returns from it. *)
Lemma active_until capacity s tr s' id :
  spec_runs capacity s tr s' → id ∈ hs_active s → id ∉ hs_active s' → ∃ kept settled, Ended id kept settled ∈ tr.
Proof.
  induction 1 as [s|s tr s1 l s2 Ht IH Hs]; intros Hin Hout; [done|].
  destruct (decide (id ∈ hs_active s1)) as [Hin1|Hout1].
  - destruct Hs as [s1|s1 id'|s1 id'|s1 id'|s1 id' kept settled|s1|s1 Hp He|s1]; cbn [hs_active] in Hout; try set_solver.
    destruct (decide (id' = id)) as [->|Hne]; [exists kept, settled|exfalso]; set_solver.
  - destruct (IH Hin Hout1) as (kept & settled & Hk). exists kept, settled. set_solver.
Qed.

(** No two workers are ever busy with the same ID. *)
Lemma spec_exclusive capacity s tr1 tr2 tr3 s' id :
  spec_runs capacity s (tr1 ++ Began id :: tr2 ++ Began id :: tr3) s' → ∃ kept settled, Ended id kept settled ∈ tr2.
Proof.
  intros (s1 & _ & (s2 & Hb & Ht)%traces_cons_inv)%traces_split. apply traces_split in Ht as (s3 & Ht & (s4 & Hb' & _)%traces_cons_inv).
  inversion Hb; subst. inversion Hb'; subst. eapply active_until; [exact Ht| |done]. set_solver.
Qed.

(** An owed ID was offered and accepted before. *)
Lemma spec_owed_offered capacity s tr s' id :
  spec_runs capacity s tr s' → id ∈ hs_owed s' → id ∉ hs_owed s → Offered id true ∈ tr.
Proof.
  induction 1 as [s|s tr s1 l s2 Ht IH Hs]; intros Hin Hout; [done|]. apply elem_of_app.
  destruct (decide (id ∈ hs_owed s1)) as [Hin1|Hout1]; [left; by apply IH|right].
  destruct Hs as [s1|s1 id'|s1 id'|s1 id'|s1 id' kept settled|s1|s1 Hp He|s1]; cbn [hs_owed] in Hin; try set_solver. destruct kept; set_solver.
Qed.

(** An accepted ID stays owed until a worker returns from it for good or the queue
    has finished. *)
Lemma spec_kept capacity s tr s' id :
  spec_runs capacity s tr s' → id ∈ hs_owed s → id ∈ hs_owed s' ∨ (∃ settled, Ended id false settled ∈ tr) ∨ hs_phase s' = Finished.
Proof.
  induction 1 as [s|s tr s1 l s2 Ht IH Hs]; intros Hin; [by left|].
  destruct (IH Hin) as [Hin1|[[settled He]|Hf]]; [|right; left; exists settled; set_solver|].
  - destruct Hs as [s1|s1 id'|s1 id'|s1 id'|s1 id' kept settled|s1|s1 Hp He|s1]; cbn [hs_owed hs_phase]; try (left; set_solver); [|by right; right].
    destruct kept; [by left|]. destruct (decide (id = id')) as [->|Hne]; [right; left; exists settled|left]; set_solver.
  - right; right. destruct Hs as [s1|s1 id'|s1 id'|s1 id'|s1 id' kept settled|s1|s1 Hp He|s1]; simpl; first [done|congruence|by rewrite Hf].
Qed.

(** ** The interface *)

Class HintQueue (Q : Type) := {
  hq_capacity : Q → Z;
  hq_fresh : Q → Prop;
  hq_step : Q → HintLabel → Q → Prop;
  hq_inv : Q → Prop;
  hq_spec : Q → HintSpec;
  hq_fresh_ok q : hq_fresh q → hq_inv q ∧ hq_spec q = spec_new ∧ 0 < hq_capacity q;
  hq_step_ok q l q' :
    hq_inv q → hq_step q l q' → hq_inv q' ∧ hq_capacity q' = hq_capacity q ∧ hint_step (hq_capacity q) (hq_spec q) l (hq_spec q');
}.

Section queues.
Context `{HintQueue Q}.

Definition hq_runs : Q → list HintLabel → Q → Prop := traces hq_step.

(** Every run of an implementation is a run of the specification. *)
Lemma hint_queue_refines q tr q' :
  hq_fresh q → hq_runs q tr q' →
  hq_inv q' ∧ hq_capacity q' = hq_capacity q ∧ spec_runs (hq_capacity q) spec_new tr (hq_spec q').
Proof.
  intros (HI & Hn & _)%hq_fresh_ok. induction 1 as [q|q tr q1 l q2 Ht IH Hs].
  { split_and!; [done|done|]. rewrite Hn. constructor. }
  destruct (IH HI Hn) as (HI1 & Hc & Hr). destruct (hq_step_ok _ _ _ HI1 Hs) as (HI2 & Hc2 & Hst).
  split_and!; [done|congruence|]. eapply traces_snoc; [done|]. by rewrite <-Hc.
Qed.

Lemma hint_queue_bounded q tr q' :
  hq_fresh q → hq_runs q tr q' → spec_inv (hq_capacity q) (hq_spec q').
Proof.
  intros Hf Hr. destruct (hint_queue_refines _ _ _ Hf Hr) as (_ & _ & Hs). destruct (hq_fresh_ok _ Hf) as (_ & _ & Hc).
  eapply spec_runs_inv; [by apply spec_inv_new|done].
Qed.
End queues.
