(* ===== verification/StopQueue.v ===== *)
(** * The stop queue

    apps/job/internal/instancestop/queue.go: instance IDs waiting for database
    cancellation, a fixed pool of workers, bounded turns with rotation to the tail,
    and shutdown.  Each critical section under the queue's mutex is one operation;
    [step] interleaves callers, workers and the shutdown context.  The queue
    implements the specification of HintSpec.v. *)

From S2P Require Import Prelude GoLib Tx Model TaskRepo InstanceRepo StopController HintSpec.

Open Scope Z_scope.

Record Config := { Capacity : Z; Concurrency : Z; RunTimeout : Duration; MaxBatches : Z }.

(** [sq_canceled]: [runCtx] is done; [sq_drainCtx]: a drain context is installed. *)
Record Queue := {
  sq_config : Config;
  sq_started : bool; sq_stopping : bool; sq_completed : bool; sq_fullLogged : bool;
  sq_entries : gset Z; sq_pending : list Z;
  sq_canceled : bool; sq_drainCtx : bool; sq_drainErr : option Error;
  sq_workers : list (Worker Z);
}.

Definition NewQueue (config : Config) : Result Queue :=
  if (Capacity config <=? 0) || (Concurrency config <=? 0) || (RunTimeout config <=? 0) || (MaxBatches config <=? 0)
  then Fail [Text "instance stop queue settings must be positive"]
  else Ok {| sq_config := config; sq_started := false; sq_stopping := false; sq_completed := false; sq_fullLogged := false;
             sq_entries := ∅; sq_pending := []; sq_canceled := false; sq_drainCtx := false; sq_drainErr := None;
             sq_workers := [] |}.

Definition Start (q : Queue) : Result Queue :=
  if sq_started q || sq_stopping q then Fail [Text "instance stop queue has already started or stopped"]
  else Ok { q with sq_started := true; sq_workers := replicate (Z.to_nat (Concurrency (sq_config q))) Idle }.

Definition Hint (q : Queue) (id : Z) : Queue * bool :=
  if (id <=? 0) || negb (sq_started q) || sq_stopping q then (q, false)
  else if bool_decide (id ∈ sq_entries q) then (q, true)
  else if Z.of_nat (size (sq_entries q)) =? Capacity (sq_config q) then ({ q with sq_fullLogged := true }, false)
  else ({ q with sq_entries := {[id]} ∪ sq_entries q; sq_pending := sq_pending q ++ [id] }, true).

Definition Stop (q : Queue) : Queue :=
  if sq_stopping q then q
  else
    let q := { q with sq_stopping := true } in
    if negb (sq_started q) then { q with sq_completed := true; sq_canceled := true } else q.

(** [Drain] up to its wait: the answer of a completed queue, or the first caller's
    context, done already or not, becomes the shared budget. *)
Definition Drain (q : Queue) (ctxDone : bool) : Queue * option (option Error) :=
  let q := Stop q in
  if sq_completed q then (q, Some (sq_drainErr q))
  else if sq_drainCtx q then (q, None)
  else ({ q with sq_drainCtx := true; sq_canceled := sq_canceled q || ctxDone }, None).

(** [Drain] after its wait. *)
Definition Drain_return (q : Queue) : option (option Error) := if sq_completed q then Some (sq_drainErr q) else None.

(** The shared budget expired: [AfterFunc] or the first caller cancels the workers. *)
Definition cancelRun (q : Queue) : Queue := { q with sq_canceled := true }.

Inductive Taken := TakeExit | TakeID (id : Z) | TakeWait.

Definition take (q : Queue) : Queue * Taken :=
  if sq_canceled q || (sq_stopping q && bool_decide (sq_entries q = ∅)) then (q, TakeExit)
  else match sq_pending q with
  | id :: rest => ({ q with sq_pending := rest }, TakeID id)
  | [] => (q, TakeWait)
  end.

Definition complete (q : Queue) (id : Z) (more : bool) : Queue :=
  if more && negb (sq_canceled q) then { q with sq_pending := sq_pending q ++ [id] }
  else { q with sq_entries := sq_entries q ∖ {[id]}; sq_fullLogged := false }.

(** [drainDone] is the error of an expired drain context. *)
Definition finish (q : Queue) (drainDone : option Error) : Queue :=
  let err :=
    match (if sq_drainCtx q then drainDone else None) with
    | Some e => Some e
    | None => sq_drainErr q
    end in
  let err :=
    if bool_decide (sq_entries q ≠ ∅) && bool_decide (err = None)
    then Some (if sq_canceled q then [ContextErr] else [Text "instance stop workers exited with pending hints"])
    else err in
  { q with sq_drainErr := err; sq_pending := []; sq_entries := ∅; sq_canceled := true; sq_completed := true }.

(** ** A worker's turn *)

Section turns.
Context `{UuidLib, PgLib}.

(** The loop of [process] from its [batch]-th round, [n] rounds before [MaxBatches]. *)
Fixpoint process_from (c : Controller) (id : Z) (until : Time) (n : nat) : M bool :=
  match n with
  | O => mret true
  | S n =>
      ctx_err;;
      result ← ProcessBatch c id;
      if negb (sb_More result) then mret false
      else
        now ← pop;
        if negb (before (ev_clock now) until) then mret true else process_from c id until n
  end.

Definition process (config : Config) (c : Controller) (id : Z) : M bool :=
  now ← pop;
  process_from c id (ev_clock now + RunTimeout config) (Z.to_nat (MaxBatches config)).

(** What a worker reports of a turn: [err == nil && more]. *)
Definition turn_more (r : Result bool) : bool := match r with Ok more => more | Fail _ => false end.
End turns.

(** ** Interleavings *)

Definition set_worker (k : nat) (w : Worker Z) (q : Queue) : Queue := { q with sq_workers := <[k := w]> (sq_workers q) }.

Inductive step : Queue → HintLabel → Queue → Prop :=
| step_start q q' : Start q = Ok q' → step q Internal q'
| step_hint q id q' b : Hint q id = (q', b) → step q (Offered id b) q'
| step_stop q : step q Internal (Stop q)
| step_drain q done q' r : Drain q done = (q', r) → step q Internal q'
| step_expire q : sq_drainCtx q = true → step q Internal (cancelRun q)
| step_take q k q' id : sq_workers q !! k = Some Idle → take q = (q', TakeID id) → step q (Began id) (set_worker k (Busy id) q')
| step_exit q k q' : sq_workers q !! k = Some Idle → take q = (q', TakeExit) → step q Internal (set_worker k Exited q')
| step_complete q k id r :
    sq_workers q !! k = Some (Busy id) →
    step q (Ended id (turn_more r && negb (sq_canceled q)) (bool_decide (r = Ok false))) (set_worker k Idle (complete q id (turn_more r)))
| step_finish q drainDone :
    sq_started q = true → sq_completed q = false → forallb exited (sq_workers q) = true → step q Internal (finish q drainDone).

(** ** The invariant *)

Definition phase (q : Queue) : Phase :=
  if sq_completed q then Finished else if sq_stopping q then Draining else if sq_started q then Accepting else Unstarted.

Definition spec_of (q : Queue) : HintSpec :=
  {| hs_phase := phase q; hs_owed := sq_entries q; hs_active := list_to_set (busy (sq_workers q)) |}.

Record queue_inv (q : Queue) : Prop := {
  qi_config : 0 < Capacity (sq_config q) ∧ 0 < Concurrency (sq_config q);
  qi_unstarted : sq_started q = false → sq_workers q = [] ∧ sq_entries q = ∅ ∧ sq_completed q = sq_stopping q;
  qi_workers : sq_started q = true → length (sq_workers q) = Z.to_nat (Concurrency (sq_config q));
  qi_entries : sq_entries q = list_to_set (sq_pending q ++ busy (sq_workers q));
  qi_once : NoDup (sq_pending q ++ busy (sq_workers q));
  qi_bound : Z.of_nat (size (sq_entries q)) ≤ Capacity (sq_config q);
  qi_exited : Exited ∈ sq_workers q → sq_canceled q = true ∨ (sq_stopping q = true ∧ sq_entries q = ∅);
  qi_stopping : sq_canceled q = true ∨ sq_drainCtx q = true ∨ sq_completed q = true → sq_stopping q = true;
  qi_completed : sq_completed q = true → forallb exited (sq_workers q) = true ∧ sq_pending q = [];
}.

(** One step of the queue, as the specification sees it. *)
Definition simulated (q : Queue) (l : HintLabel) (q' : Queue) : Prop :=
  queue_inv q' ∧ sq_config q' = sq_config q ∧ hint_step (Capacity (sq_config q)) (spec_of q) l (spec_of q').

Lemma sq_new_inv config q : NewQueue config = Ok q → queue_inv q ∧ spec_of q = spec_new ∧ sq_config q = config ∧ 0 < Capacity config.
Proof.
  unfold NewQueue. destruct (_ || _) eqn:E; [done|]. intros [= <-]. to_prop. split_and!; try done.
  constructor; simpl; try done; try lia; try set_solver; [constructor|].
  change (Z.of_nat (size (∅ : gset Z)) ≤ Capacity config). rewrite size_empty. lia.
Qed.

Lemma sq_start_sim q q' : queue_inv q → Start q = Ok q' → simulated q Internal q'.
Proof.
  intros HI. unfold Start. destruct (sq_started q) eqn:Es, (sq_stopping q) eqn:Ep; try done. simpl. intros [= <-].
  destruct (qi_unstarted _ HI Es) as (Hw & He & Hc). rewrite Ep in Hc.
  assert (sq_pending q = []) as Hpd.
  { pose proof (qi_entries _ HI) as Hq. rewrite He, Hw in Hq. destruct (sq_pending q); [done|]. set_solver. }
  split_and!; [|done|].
  - destruct HI. constructor; simpl; try done.
    + intros _. by rewrite length_replicate.
    + by rewrite He, Hpd, busy_replicate.
    + rewrite Hpd, busy_replicate. constructor.
    + intros Hin. apply elem_of_replicate in Hin as [[=] _].
    + congruence.
  - unfold spec_of, phase. simpl. rewrite Ep, Es, Hc, Hw, busy_replicate. by apply (hint_start _ {| hs_phase := Unstarted |}).
Qed.

Lemma sq_hint_sim q id q' b : queue_inv q → Hint q id = (q', b) → simulated q (Offered id b) q'.
Proof.
  intros HI. unfold Hint. destruct ((id <=? 0) || negb (sq_started q) || sq_stopping q) eqn:Eg.
  { intros [= <- <-]. split_and!; [done|done|]. apply hint_refuse. unfold spec_of, phase. simpl. to_cases; [by left|right; left..].
    - destruct (qi_unstarted _ HI Eg) as (_ & _ & Hc). rewrite Hc, Eg. by destruct (sq_stopping q).
    - rewrite Eg. by destruct (sq_completed q). }
  apply orb_false_iff in Eg as [Eg Ep]. apply orb_false_iff in Eg as [Eid Es]. to_prop.
  assert (phase q = Accepting) as Hph.
  { unfold phase. rewrite Ep, Es. destruct (sq_completed q) eqn:Ec; [|done]. rewrite (qi_stopping _ HI) in Ep by auto. done. }
  case_bool_decide as Hin.
  { intros [= <- <-]. split_and!; [done|done|].
    assert ({[id]} ∪ sq_entries q = sq_entries q) as E by set_solver.
    pose proof (hint_accept (Capacity (sq_config q)) (spec_of q) id Hph Eid (or_introl Hin)) as Hs. simpl in Hs. by rewrite E in Hs. }
  destruct (Z.eqb_spec (Z.of_nat (size (sq_entries q))) (Capacity (sq_config q))) as [Ef|Ef]; intros [= <- <-].
  { split_and!; [|done|]; [destruct HI; by constructor|]. apply hint_refuse. simpl. right; right. split; [done|lia]. }
  pose proof (qi_bound _ HI) as Hb. split_and!; [|done|].
  - destruct HI as [H1 H2 H3 H4 H5 _ H7 H8 H9]. constructor; simpl; try done.
    + by rewrite Es.
    + rewrite H4. set_solver.
    + rewrite (Permutation_app_comm (sq_pending q) [id]). simpl. constructor; [|done]. rewrite H4 in Hin. set_solver.
    + rewrite size_union, size_singleton by set_solver. lia.
    + intros Hex. destruct (H7 Hex) as [?|[? _]]; [by left|congruence].
    + intros Hc. rewrite H8 in Ep by auto. done.
  - apply (hint_accept _ (spec_of q)); simpl; auto. right. lia.
Qed.

Lemma sq_stop_sim q : queue_inv q → simulated q Internal (Stop q).
Proof.
  intros HI. unfold Stop. destruct (sq_stopping q) eqn:Ep. { split_and!; [done|done|apply hint_idle]. } simpl.
  assert (sq_completed q = false) as Ec by (destruct (sq_completed q) eqn:Ec; [rewrite (qi_stopping _ HI) in Ep by auto|]; done).
  destruct (sq_started q) eqn:Es; simpl.
  - split_and!; [|done|].
    + destruct HI as [H1 H2 H3 H4 H5 H6 H7 H8 H9]. constructor; simpl; try done; [congruence|].
      intros Hex. destruct (H7 Hex) as [?|[? _]]; [by left|congruence].
    + assert (spec_of { q with sq_stopping := true } = { spec_of q with hs_phase :=
        match hs_phase (spec_of q) with Unstarted => Finished | Accepting => Draining | p => p end }) as ->; [|apply hint_close].
      unfold spec_of, phase. simpl. by rewrite Ec, Ep, Es.
  - destruct (qi_unstarted _ HI Es) as (Hw & He & _). split_and!; [|done|].
    + destruct HI as [H1 H2 H3 H4 H5 H6 H7 H8 H9]. constructor; simpl; try done.
      * by left.
      * rewrite Hw. intros _. split; [done|]. rewrite He, Hw in H4. destruct (sq_pending q); [done|]. set_solver.
    + assert (spec_of { q with sq_stopping := true; sq_completed := true; sq_canceled := true } = { spec_of q with hs_phase :=
        match hs_phase (spec_of q) with Unstarted => Finished | Accepting => Draining | p => p end }) as ->; [|apply hint_close].
      unfold spec_of, phase. simpl. by rewrite Ec, Ep, Es.
Qed.

(** Canceling, or installing the shutdown context, only concerns a stopping queue. *)
Lemma sq_lifecycle_sim q drain canceled :
  queue_inv q → sq_stopping q = true → canceled = sq_canceled q ∨ canceled = true →
  simulated q Internal { q with sq_drainCtx := drain; sq_canceled := canceled }.
Proof.
  intros HI Ep Hc. split_and!; [|done|apply hint_idle].
  destruct HI as [H1 H2 H3 H4 H5 H6 H7 H8 H9]. constructor; simpl; try done. intros Hex. destruct Hc as [->| ->]; auto.
Qed.

Lemma sq_stop_stopping q : sq_stopping (Stop q) = true.
Proof. unfold Stop. destruct (sq_stopping q) eqn:E; [done|]. simpl. by destruct (negb (sq_started q)). Qed.

Lemma sq_drain_sim q done_ q' r : queue_inv q → Drain q done_ = (q', r) → simulated q Internal q'.
Proof.
  intros HI. pose proof (sq_stop_sim q HI) as (HI' & Hc & Hs). unfold Drain. cbv zeta.
  destruct (sq_completed (Stop q)) eqn:Ec; [by intros [= <- _]|]. destruct (sq_drainCtx (Stop q)) eqn:Ed; intros [= <- _]; [done|].
  destruct (sq_lifecycle_sim (Stop q) true (sq_canceled (Stop q) || done_) HI' (sq_stop_stopping q)) as (HI'' & Hc' & _).
  { destruct done_; [right; by rewrite orb_true_r|left; by rewrite orb_false_r]. }
  split_and!; [done|by rewrite Hc'|done].
Qed.

(** A worker that moves from [w] to [w'] without touching the rest. *)
Lemma sq_worker_exit_sim q k q' :
  queue_inv q → sq_workers q !! k = Some Idle → take q = (q', TakeExit) → simulated q Internal (set_worker k Exited q').
Proof.
  intros HI Hk. unfold take. destruct (sq_canceled q || _) eqn:Ex; [|by destruct (sq_pending q)]. intros [= <-].
  split_and!; [|done|].
  - pose proof (busy_exit _ _ Hk) as Hb. destruct HI as [H1 H2 H3 H4 H5 H6 H7 H8 H9]. constructor; simpl; try done.
    + intros Hs. destruct (H2 Hs) as (Hw & _). by rewrite Hw in Hk.
    + rewrite length_insert. exact H3.
    + by rewrite Hb.
    + by rewrite Hb.
    + intros _. apply orb_true_iff in Ex as [?|[? He]%andb_true_iff]; [by left|]. right. by apply bool_decide_eq_true in He.
    + intros Hc. destruct (H9 Hc) as [Hf Hp]. by apply (exited_lookup _ _ _ Hf) in Hk.
  - unfold spec_of. simpl. assert (list_to_set (busy (<[k:=Exited]> (sq_workers q))) =@{gset Z} list_to_set (busy (sq_workers q))) as ->.
    { by rewrite (busy_exit _ _ Hk). }
    apply hint_idle.
Qed.

Lemma sq_take_sim q k q' id :
  queue_inv q → sq_workers q !! k = Some Idle → take q = (q', TakeID id) → simulated q (Began id) (set_worker k (Busy id) q').
Proof.
  intros HI Hk. unfold take. destruct (sq_canceled q || _) eqn:Ex; [done|]. destruct (sq_pending q) as [|x rest] eqn:Ep; [done|].
  intros [= <- ->]. pose proof (busy_take _ _ id Hk) as Hb. pose proof (qi_once _ HI) as Hnd. rewrite Ep in Hnd.
  assert (sq_started q = true) as Hs.
  { destruct (sq_started q) eqn:Es; [done|]. destruct (qi_unstarted _ HI Es) as (Hw & _). by rewrite Hw in Hk. }
  assert (sq_completed q = false) as Hc.
  { destruct (sq_completed q) eqn:Ec; [|done]. destruct (qi_completed _ HI Ec) as [_ Hp]. congruence. }
  assert (rest ++ busy (<[k:=Busy id]> (sq_workers q)) ≡ₚ sq_pending q ++ busy (sq_workers q)) as Hperm.
  { rewrite Hb, Ep. solve_Permutation. }
  split_and!; [|done|].
  - destruct HI as [H1 H2 H3 H4 H5 H6 H7 H8 H9]. constructor; simpl; try done; try congruence.
    + rewrite length_insert. exact H3.
    + by rewrite Hperm.
    + by rewrite Hperm.
    + intros [[=]|Hex]%exited_insert. by apply H7.
  - assert (spec_of (set_worker k (Busy id) { q with sq_pending := rest }) =
      { spec_of q with hs_active := {[id]} ∪ hs_active (spec_of q) }) as ->.
    { unfold spec_of, phase. simpl. f_equal. by rewrite Hb. }
    apply hint_begin; simpl.
    + unfold phase. rewrite Hc, Hs. destruct (sq_stopping q); auto.
    + rewrite (qi_entries _ HI), Ep. set_solver.
    + inversion Hnd as [|? ? Hn _]; subst. set_solver.
Qed.

Lemma sq_complete_sim q k id more settled :
  queue_inv q → sq_workers q !! k = Some (Busy id) →
  simulated q (Ended id (more && negb (sq_canceled q)) settled) (set_worker k Idle (complete q id more)).
Proof.
  intros HI Hk. pose proof (busy_release _ _ _ Idle Hk eq_refl) as Hb. pose proof (qi_once _ HI) as Hnd.
  assert (id ∈ busy (sq_workers q)) as Hin by (apply elem_of_busy; eauto).
  assert (sq_completed q = false) as Hc.
  { destruct (sq_completed q) eqn:Ec; [|done]. destruct (qi_completed _ HI Ec) as [Hf _]. by apply (exited_lookup _ _ _ Hf) in Hk. }
  assert (sq_started q = true) as Hs.
  { destruct (sq_started q) eqn:Es; [done|]. destruct (qi_unstarted _ HI Es) as (Hw & _). by rewrite Hw in Hk. }
  set (ws := <[k:=Idle]> (sq_workers q)) in *.
  assert (NoDup (id :: sq_pending q ++ busy ws)) as Hnd' by (rewrite Hb in Hnd; by rewrite <-Permutation_middle in Hnd).
  apply NoDup_cons in Hnd' as [Hfresh Hnd'].
  assert (list_to_set (busy ws) =@{gset Z} list_to_set (busy (sq_workers q)) ∖ {[id]}) as Hact.
  { rewrite Hb. simpl. set_solver. }
  unfold complete. destruct (more && negb (sq_canceled q)) eqn:Em.
  - assert ((sq_pending q ++ [id]) ++ busy ws ≡ₚ sq_pending q ++ busy (sq_workers q)) as Hperm by (rewrite Hb; solve_Permutation).
    split_and!; [|done|].
    + destruct HI as [H1 H2 H3 H4 H5 H6 H7 H8 H9]. constructor; simpl; try done; try congruence.
      * rewrite length_insert. exact H3.
      * fold ws. by rewrite Hperm.
      * fold ws. by rewrite Hperm.
      * intros [[=]|Hex]%exited_insert. by apply H7.
    + pose proof (hint_end (Capacity (sq_config q)) (spec_of q) id true settled) as He. simpl in He. rewrite <-Hact in He. apply He. set_solver.
  - split_and!; [|done|].
    + destruct HI as [H1 H2 H3 H4 H5 H6 H7 H8 H9]. constructor; simpl; try done; try congruence.
      * rewrite length_insert. exact H3.
      * fold ws. rewrite H4, Hb. set_solver.
      * pose proof (subseteq_size (sq_entries q ∖ {[id]}) (sq_entries q) ltac:(set_solver)). lia.
      * intros [[=]|Hex]%exited_insert. destruct (H7 Hex) as [?|[? He]]; [by left|]. right. split; [done|]. set_solver.
    + pose proof (hint_end (Capacity (sq_config q)) (spec_of q) id false settled) as He. simpl in He. rewrite <-Hact in He. apply He. set_solver.
Qed.

Lemma sq_finish_sim q drainDone :
  queue_inv q → sq_started q = true → sq_completed q = false → forallb exited (sq_workers q) = true →
  simulated q Internal (finish q drainDone).
Proof.
  intros HI Hs Hc Hall. pose proof (busy_exited _ Hall) as Hb.
  assert (sq_stopping q = true) as Hp.
  { pose proof (qi_workers _ HI Hs) as Hl. pose proof (qi_config _ HI) as [_ Hcc].
    destruct (sq_workers q) as [|w ws] eqn:Ew; [simpl in Hl; lia|]. simpl in Hall. apply andb_true_iff in Hall as [Hw _]. destruct w; try done.
    destruct (qi_exited _ HI) as [Hx|[Hx _]]; [rewrite Ew; by left| |done]. apply (qi_stopping _ HI). by left. }
  split_and!; [|done|].
  - destruct HI as [H1 H2 H3 H4 H5 H6 H7 H8 H9]. constructor; simpl; try done; try congruence.
    + by rewrite Hb.
    + rewrite Hb. constructor.
    + change (Z.of_nat (size (∅ : gset Z)) ≤ Capacity (sq_config q)). rewrite size_empty. lia.
    + by left.
  - assert (spec_of (finish q drainDone) = {| hs_phase := Finished; hs_owed := ∅; hs_active := ∅ |}) as ->.
    { unfold spec_of, phase. simpl. by rewrite Hb. }
    apply hint_finish; unfold spec_of, phase; simpl; [by rewrite Hc, Hp|by rewrite Hb].
Qed.

Lemma sq_step_sim q l q' : queue_inv q → step q l q' → simulated q l q'.
Proof.
  intros HI. destruct 1 as [q q' E|q id q' b E|q|q done_ q' r E|q E|q k q' id Hk E|q k q' Hk E|q k id r Hk|q dd Hs Hc Hall].
  - by apply sq_start_sim.
  - by apply sq_hint_sim.
  - by apply sq_stop_sim.
  - by eapply sq_drain_sim.
  - replace (cancelRun q) with { q with sq_drainCtx := sq_drainCtx q; sq_canceled := true } by (by destruct q).
    apply sq_lifecycle_sim; [done| |by right]. apply (qi_stopping _ HI). auto.
  - by eapply sq_take_sim.
  - by eapply sq_worker_exit_sim.
  - by apply sq_complete_sim.
  - by apply sq_finish_sim.
Qed.

#[export, refine] Instance stop_hint_queue : HintQueue Queue := {
  hq_capacity q := Capacity (sq_config q);
  hq_fresh q := ∃ config, NewQueue config = Ok q;
  hq_step := step;
  hq_inv := queue_inv;
  hq_spec := spec_of;
  hq_fresh_ok := _;
  hq_step_ok := _;
}.
Proof.
  - intros q [config Hn]. destruct (sq_new_inv _ _ Hn) as (HI & Hs & -> & Hc). auto.
  - intros q l q' HI Hst. destruct (sq_step_sim _ _ _ HI Hst) as (HI' & Hc & Hs). by rewrite Hc.
Defined.

Lemma stop_fresh config q : NewQueue config = Ok q → hq_fresh q.
Proof. intros Hn. by exists config. Qed.

(** ** The contract of the queue *)

(** The stop queue implements the hint specification.  Every interleaving of
    hints, workers, shutdown calls and expiring budgets is a run of the abstract
    machine with the same visible events: an ID is accepted exactly when admission
    is open and it is already owed or room is left, it is handed to one worker at a
    time and only while owed, a turn that reports more work keeps its place, and
    the queue completes only when every worker has returned.  At no time are more
    than [Capacity] IDs held or more than [Concurrency] workers busy. *)
Theorem stop_queue_refines config q0 tr q :
  NewQueue config = Ok q0 → traces step q0 tr q →
  spec_runs (Capacity config) spec_new tr (spec_of q) ∧
  Z.of_nat (size (sq_entries q)) ≤ Capacity config ∧ Z.of_nat (length (busy (sq_workers q))) ≤ Concurrency config ∧
  (sq_completed q = true → busy (sq_workers q) = []).
Proof.
  intros Hnew Hr. destruct (sq_new_inv _ _ Hnew) as (_ & _ & Hc0 & _).
  destruct (hint_queue_refines q0 tr q (stop_fresh _ _ Hnew) Hr) as (HI & _ & Hs). simpl in HI, Hs. rewrite Hc0 in Hs.
  assert (sq_config q = config) as Hc.
  { rewrite <-Hc0. symmetry. eapply (traces_inv step (λ q, queue_inv q ∧ sq_config q0 = sq_config q)); [|split; [apply (sq_new_inv _ _ Hnew)|done]|exact Hr].
    intros q1 l q2 [HI1 E] (? & E2 & _)%sq_step_sim; [|done]. split; [done|congruence]. }
  split_and!; [done| | |].
  - rewrite <-Hc. apply (qi_bound _ HI).
  - pose proof (length_busy (sq_workers q)) as Hl. pose proof (qi_config _ HI) as [_ Hcc]. rewrite Hc in Hcc.
    destruct (sq_started q) eqn:Es; [rewrite (qi_workers _ HI Es), Hc in Hl; lia|].
    destruct (qi_unstarted _ HI Es) as (Hw & _). rewrite Hw. simpl. lia.
  - intros Ec. apply busy_exited. apply (qi_completed _ HI Ec).
Qed.

(** So no two workers run a turn for the same Instance at once, and none runs one
    for an ID that was never accepted. *)
Lemma stop_turns_exclusive config q0 tr1 tr2 tr3 q id :
  NewQueue config = Ok q0 → traces step q0 (tr1 ++ Began id :: tr2 ++ Began id :: tr3) q →
  (∃ kept settled, Ended id kept settled ∈ tr2) ∧ Offered id true ∈ tr1.
Proof.
  intros Hnew Hr. destruct (hint_queue_refines q0 _ q (stop_fresh _ _ Hnew) Hr) as (_ & _ & Hs). split.
  - exact (spec_exclusive _ _ _ _ _ _ _ Hs).
  - apply traces_split in Hs as (s1 & H1 & (s2 & Hb & _)%traces_cons_inv). inversion Hb; subst.
    eapply spec_owed_offered; [exact H1|done|]. apply not_elem_of_empty.
Qed.

(** ** An instance *)

Definition sample_config : Config := {| Capacity := 2; Concurrency := 1; RunTimeout := 10; MaxBatches := 3 |}.
Definition sample_new : Queue :=
  {| sq_config := sample_config; sq_started := false; sq_stopping := false; sq_completed := false; sq_fullLogged := false;
     sq_entries := ∅; sq_pending := []; sq_canceled := false; sq_drainCtx := false; sq_drainErr := None; sq_workers := [] |}.
Definition sample_open : Queue := { sample_new with sq_started := true; sq_workers := [Idle] }.
Definition sample_hinted : Queue := { sample_open with sq_entries := {[7]}; sq_pending := [7] }.
Definition sample_busy : Queue := { sample_hinted with sq_pending := []; sq_workers := [Busy 7] }.

(** Start, a hint, and a worker takes it. *)
Lemma sample_busy_traces : traces step sample_new [Internal; Offered 7 true; Began 7] sample_busy.
Proof.
  eapply traces_cons; [by apply (step_start sample_new sample_open)|].
  eapply traces_cons; [by apply (step_hint sample_open 7 sample_hinted true)|].
  apply traces_one. exact (step_take sample_hinted 0 { sample_hinted with sq_pending := [] } 7 eq_refl eq_refl).
Qed.

Lemma stop_queue_refines_witness : spec_runs 2 spec_new [Internal; Offered 7 true; Began 7] (spec_of sample_busy).
Proof. apply (stop_queue_refines sample_config sample_new); [reflexivity|apply sample_busy_traces]. Defined.
