(* ===== verification/CheckQueue.v ===== *)
(** * The check queue

    apps/job/internal/instancecheck/queue.go: instance IDs waiting for a completion
    check after a merge window, hints that arrive during a check and ask for
    another one, recovery admission that waits for room, a fixed pool of workers,
    and shutdown.  Each critical section is one operation; [step] interleaves them.
    The queue implements the specification of HintSpec.v. *)

From S2P Require Import Prelude GoLib Tx Model InstanceRepo StopController Checker HintSpec.

Open Scope Z_scope.

Definition mergeWindow : Duration := 100 * Millisecond.

Record Config := { Capacity : Z; Concurrency : Z; Timeout : Duration }.

(** An entry is shared by pointer between the map, the list and the worker; an ID
    has one live entry, so the list and the workers name it by its ID. *)
Record checkEntry := { ce_due : Time; ce_processing : bool; ce_nextDue : Time }.

(** [cq_canceled]: [runCtx] is done; [cq_drainCtx]: the installed drain context, with
    its deadline if it has one. *)
Record Queue := {
  cq_config : Config;
  cq_started : bool; cq_stopping : bool; cq_completed : bool; cq_fullLogged : bool;
  cq_entries : gmap Z checkEntry; cq_pending : list Z;
  cq_canceled : bool; cq_drainCtx : option (option Time); cq_drainErr : option Error;
  cq_workers : list (Worker Z);
}.

Definition NewQueue (config : Config) : Result Queue :=
  if (Capacity config <=? 0) || (Concurrency config <=? 0) || (Timeout config <=? 0)
  then Fail [Text "instance check queue settings must be positive"]
  else Ok {| cq_config := config; cq_started := false; cq_stopping := false; cq_completed := false; cq_fullLogged := false;
             cq_entries := ∅; cq_pending := []; cq_canceled := false; cq_drainCtx := None; cq_drainErr := None;
             cq_workers := [] |}.

Definition Start (q : Queue) : Result Queue :=
  if cq_started q || cq_stopping q then Fail [Text "instance check queue has already started or stopped"]
  else Ok { q with cq_started := true; cq_workers := replicate (Z.to_nat (Concurrency (cq_config q))) Idle }.

(** [None]: the ID has no entry. *)
Definition mergeLocked (q : Queue) (id : Z) (now : Time) : option Queue :=
  match cq_entries q !! id with
  | None => None
  | Some e =>
      if ce_processing e && is_zero (ce_nextDue e)
      then Some { q with cq_entries := <[id := { e with ce_nextDue := now + mergeWindow }]> (cq_entries q) }
      else Some q
  end.

Definition addLocked (q : Queue) (id : Z) (now : Time) : Queue :=
  { q with cq_entries := <[id := {| ce_due := now + mergeWindow; ce_processing := false; ce_nextDue := 0 |}]> (cq_entries q);
           cq_pending := cq_pending q ++ [id] }.

Definition Hint (q : Queue) (id : Z) (now : Time) : Queue * bool :=
  if (id <=? 0) || negb (cq_started q) || cq_stopping q then (q, false)
  else match mergeLocked q id now with
  | Some q => (q, true)
  | None =>
      if Z.of_nat (size (cq_entries q)) =? Capacity (cq_config q) then ({ q with cq_fullLogged := true }, false)
      else (addLocked q id now, true)
  end.

(** One pass of [waitRecovery] under the lock: [None] when the caller has to wait
    for a change and try again. *)
Definition waitRecovery (q : Queue) (ctxErr : option Error) (id : Z) (now : Time) : Queue * option (Result unit) :=
  match ctxErr with
  | Some e => (q, Some (Fail e))
  | None =>
      if negb (cq_started q) || cq_stopping q || cq_canceled q
      then (q, Some (Fail [Text "instance check recovery admission is unavailable"]))
      else match (if 0 <? id then mergeLocked q id now else None) with
      | Some q => (q, Some (Ok ()))
      | None =>
          if Z.of_nat (size (cq_entries q)) <? Z.max 1 (Capacity (cq_config q) `quot` 2)
          then ((if 0 <? id then addLocked q id now else q), Some (Ok ()))
          else (q, None)
      end
  end.

Definition WaitRecoveryCapacity (q : Queue) (ctxErr : option Error) (now : Time) : Queue * option (Result unit) :=
  waitRecovery q ctxErr 0 now.

Definition HintRecovery (q : Queue) (ctxErr : option Error) (id : Z) (now : Time) : Queue * option (Result unit) :=
  if id <=? 0 then (q, Some (Fail [Text "instance check recovery ID must be positive"]))
  else waitRecovery q ctxErr id now.

Definition Stop (q : Queue) : Queue :=
  if cq_stopping q then q
  else
    let q := { q with cq_stopping := true } in
    if negb (cq_started q) then { q with cq_completed := true; cq_canceled := true } else q.

(** [Drain] up to its wait, with the deadline of the caller's context and whether it
    is done already. *)
Definition Drain (q : Queue) (deadline : option Time) (ctxDone : bool) : Queue * option (option Error) :=
  let q := Stop q in
  if cq_completed q then (q, Some (cq_drainErr q))
  else match cq_drainCtx q with
  | Some _ => (q, None)
  | None => ({ q with cq_drainCtx := Some deadline; cq_canceled := cq_canceled q || ctxDone }, None)
  end.

(** [Drain] after its wait. *)
Definition Drain_return (q : Queue) : option (option Error) := if cq_completed q then Some (cq_drainErr q) else None.

(** The shared budget expired: [AfterFunc] or the first caller cancels the workers. *)
Definition cancelRun (q : Queue) : Queue := { q with cq_canceled := true }.

(** The first listed entry that is due, and the list without it. *)
Fixpoint first_due (entries : gmap Z checkEntry) (now : Time) (pending : list Z) : option (Z * list Z) :=
  match pending with
  | [] => None
  | id :: rest =>
      match entries !! id with
      | Some e =>
          if negb (is_after (ce_due e) now) then Some (id, rest)
          else match first_due entries now rest with Some (x, rest') => Some (x, id :: rest') | None => None end
      | None => None
      end
  end.

(** When the list has no due entry, the worker sleeps until the earliest one. *)
Definition earliest (entries : gmap Z checkEntry) (pending : list Z) : Time :=
  foldl (λ t id, match entries !! id with
    | Some e => if is_zero t || before (ce_due e) t then ce_due e else t
    | None => t end) 0 pending.

Inductive Taken := TakeExit | TakeEntry (id : Z) | TakeWait (wakeAt : Time).

Definition take (q : Queue) (now : Time) : Queue * Taken :=
  if cq_canceled q || (cq_stopping q && bool_decide (cq_entries q = ∅)) then (q, TakeExit)
  else match first_due (cq_entries q) now (cq_pending q) with
  | Some (id, rest) =>
      ({ q with cq_pending := rest;
                cq_entries := alter (λ e, { e with ce_processing := true }) id (cq_entries q) }, TakeEntry id)
  | None => (q, TakeWait (earliest (cq_entries q) (cq_pending q)))
  end.

(** The deadline of one check. *)
Definition checkContext (q : Queue) (now : Time) : Time :=
  let deadline := now + Timeout (cq_config q) in
  match cq_drainCtx q with
  | Some (Some shared) => if before shared deadline then shared else deadline
  | _ => deadline
  end.

Definition complete (q : Queue) (id : Z) (terminal : bool) : Queue :=
  let release := { q with cq_entries := delete id (cq_entries q); cq_fullLogged := false } in
  match cq_entries q !! id with
  | Some e =>
      if negb terminal && negb (is_zero (ce_nextDue e)) && negb (cq_canceled q)
      then { q with cq_entries := <[id := {| ce_due := ce_nextDue e; ce_processing := false; ce_nextDue := 0 |}]> (cq_entries q);
                    cq_pending := cq_pending q ++ [id] }
      else release
  | None => release
  end.

(** [drainDone] is the error of an expired drain context. *)
Definition finish (q : Queue) (drainDone : option Error) : Queue :=
  let err :=
    match (if bool_decide (is_Some (cq_drainCtx q)) then drainDone else None) with
    | Some e => Some e
    | None => cq_drainErr q
    end in
  let err :=
    if bool_decide (cq_entries q ≠ ∅) && bool_decide (err = None)
    then Some (if cq_canceled q then [ContextErr] else [Text "instance check workers exited with pending hints"])
    else err in
  { q with cq_drainErr := err; cq_pending := []; cq_entries := ∅; cq_canceled := true; cq_completed := true }.

Section checks.
Context `{UuidLib, PgLib}.
(** One check of a worker; the queue turns a panic into an error too. *)
Definition check (c : Checker) (id : Z) : M CheckOutcome := ctx_err;; Check c id.
End checks.

(** [err == nil && outcome == OutcomeTerminal] *)
Definition terminal (r : Result CheckOutcome) : bool := bool_decide (r = Ok OutcomeTerminal).

(** ** Interleavings *)

Definition set_worker (k : nat) (w : Worker Z) (q : Queue) : Queue := { q with cq_workers := <[k := w]> (cq_workers q) }.

(** The clock is past Go's zero time. *)
Inductive step : Queue → HintLabel → Queue → Prop :=
| step_start q q' : Start q = Ok q' → step q Internal q'
| step_hint q id now q' b : 0 < now → Hint q id now = (q', b) → step q (Offered id b) q'
| step_capacity q ctxErr now q' r : WaitRecoveryCapacity q ctxErr now = (q', r) → step q Internal q'
| step_recovery q ctxErr id now q' r :
    0 < now → HintRecovery q ctxErr id now = (q', r) →
    step q (if bool_decide (r = Some (Ok ())) then Offered id true else Internal) q'
| step_stop q : step q Internal (Stop q)
| step_drain q deadline done q' r : Drain q deadline done = (q', r) → step q Internal q'
| step_expire q : is_Some (cq_drainCtx q) → step q Internal (cancelRun q)
| step_take q k now q' id : cq_workers q !! k = Some Idle → take q now = (q', TakeEntry id) → step q (Began id) (set_worker k (Busy id) q')
| step_exit q k now q' : cq_workers q !! k = Some Idle → take q now = (q', TakeExit) → step q Internal (set_worker k Exited q')
| step_complete q k id r :
    cq_workers q !! k = Some (Busy id) →
    step q (Ended id (bool_decide (is_Some (cq_entries (complete q id (terminal r)) !! id))) (terminal r))
      (set_worker k Idle (complete q id (terminal r)))
| step_finish q drainDone :
    cq_started q = true → cq_completed q = false → forallb exited (cq_workers q) = true → step q Internal (finish q drainDone).

(** ** The invariant *)

Definition phase (q : Queue) : Phase :=
  if cq_completed q then Finished else if cq_stopping q then Draining else if cq_started q then Accepting else Unstarted.

Definition spec_of (q : Queue) : HintSpec :=
  {| hs_phase := phase q; hs_owed := dom (cq_entries q); hs_active := list_to_set (busy (cq_workers q)) |}.

Record queue_inv (q : Queue) : Prop := {
  qi_config : 0 < Capacity (cq_config q) ∧ 0 < Concurrency (cq_config q);
  qi_unstarted : cq_started q = false → cq_workers q = [] ∧ cq_pending q = [] ∧ cq_completed q = cq_stopping q;
  qi_workers : cq_started q = true → length (cq_workers q) = Z.to_nat (Concurrency (cq_config q));
  qi_entries : dom (cq_entries q) = list_to_set (cq_pending q ++ busy (cq_workers q));
  qi_once : NoDup (cq_pending q ++ busy (cq_workers q));
  qi_waiting : ∀ id, id ∈ cq_pending q → ∃ e, cq_entries q !! id = Some e ∧ ce_processing e = false ∧ ce_nextDue e = 0;
  qi_checking : ∀ id, id ∈ busy (cq_workers q) → ∃ e, cq_entries q !! id = Some e ∧ ce_processing e = true;
  qi_bound : Z.of_nat (size (cq_entries q)) ≤ Capacity (cq_config q);
  qi_exited : Exited ∈ cq_workers q → cq_canceled q = true ∨ (cq_stopping q = true ∧ cq_entries q = ∅);
  qi_stopping : cq_canceled q = true ∨ is_Some (cq_drainCtx q) ∨ cq_completed q = true → cq_stopping q = true;
  qi_completed : cq_completed q = true → forallb exited (cq_workers q) = true ∧ cq_pending q = [];
}.

Definition simulated (q : Queue) (l : HintLabel) (q' : Queue) : Prop :=
  queue_inv q' ∧ cq_config q' = cq_config q ∧ hint_step (Capacity (cq_config q)) (spec_of q) l (spec_of q').

Lemma size_entries q : size (cq_entries q) = size (dom (cq_entries q)).
Proof. by rewrite size_dom. Qed.

Lemma entry_cases q id : queue_inv q → is_Some (cq_entries q !! id) → id ∈ cq_pending q ∨ id ∈ busy (cq_workers q).
Proof.
  intros HI Hs%elem_of_dom. rewrite (qi_entries _ HI) in Hs. apply elem_of_list_to_set, elem_of_app in Hs. done.
Qed.

Lemma cq_new_inv config q : NewQueue config = Ok q → queue_inv q ∧ spec_of q = spec_new ∧ cq_config q = config ∧ 0 < Capacity config.
Proof.
  unfold NewQueue. destruct (_ || _) eqn:E; [done|]. intros [= <-]. to_prop. split_and!; try done.
  constructor; simpl; try done; try lia; try set_solver; [constructor|rewrite map_size_empty; lia].
Qed.

Lemma cq_start_sim q q' : queue_inv q → Start q = Ok q' → simulated q Internal q'.
Proof.
  intros HI. unfold Start. destruct (cq_started q) eqn:Es, (cq_stopping q) eqn:Ep; try done. simpl. intros [= <-].
  destruct (qi_unstarted _ HI Es) as (Hw & Hpd & Hc). rewrite Ep in Hc.
  split_and!; [|done|].
  - destruct HI as [H1 H2 H3 H4 H5 H6 H7 H8 H9 H10 H11]. rewrite Hw in *. constructor; simpl; rewrite ?busy_replicate; try done.
    + intros _. by rewrite length_replicate.
    + intros Hin. apply elem_of_replicate in Hin as [[=] _].
    + congruence.
  - unfold spec_of, phase. simpl. rewrite Ep, Es, Hc, Hw, busy_replicate. by apply (hint_start _ {| hs_phase := Unstarted |}).
Qed.

Lemma open_facts q : queue_inv q → cq_started q = true → cq_stopping q = false → phase q = Accepting ∧ cq_completed q = false ∧ cq_canceled q = false.
Proof.
  intros HI Es Ep. unfold phase. rewrite Ep, Es.
  destruct (cq_completed q) eqn:Ec; [rewrite (qi_stopping _ HI) in Ep by auto; done|].
  destruct (cq_canceled q) eqn:Ex; [rewrite (qi_stopping _ HI) in Ep by auto; done|done].
Qed.

(** Merging into an entry, and adding one. *)
Lemma merge_sim q id now q' :
  queue_inv q → cq_started q = true → cq_stopping q = false → 0 < id → mergeLocked q id now = Some q' →
  simulated q (Offered id true) q'.
Proof.
  intros HI Es Ep Hid. destruct (open_facts _ HI Es Ep) as (Hph & _ & _).
  unfold mergeLocked. destruct (cq_entries q !! id) as [e|] eqn:Ee; [|done].
  assert (id ∈ dom (cq_entries q)) as Hin by (apply elem_of_dom; eauto).
  assert ({[id]} ∪ dom (cq_entries q) = dom (cq_entries q)) as Eu by set_solver.
  pose proof (hint_accept (Capacity (cq_config q)) (spec_of q) id Hph Hid (or_introl Hin)) as Hs. simpl in Hs. rewrite Eu in Hs.
  destruct (ce_processing e && is_zero (ce_nextDue e)) eqn:Em; intros [= <-]; [|by split_and!].
  to_prop. set (m := <[id:=_]> (cq_entries q)).
  assert (dom m = dom (cq_entries q)) as Hdom by (unfold m; rewrite dom_insert_L; done).
  split_and!; [|done|].
  - destruct HI as [H1 H2 H3 H4 H5 H6 H7 H8 H9 H10 H11]. constructor; simpl; try done.
    + fold m. by rewrite Hdom.
    + intros id' Hid'. destruct (H6 id' Hid') as (e' & He' & Hp & Hn). exists e'. split; [|done].
      unfold m. rewrite lookup_insert_ne; [done|]. intros ->. congruence.
    + intros id' Hid'. destruct (H7 id' Hid') as (e' & He' & Hp). destruct (decide (id = id')) as [->|Hne].
      * unfold m. rewrite lookup_insert_eq. eexists. split; [done|]. simpl. congruence.
      * unfold m. rewrite lookup_insert_ne by done. eauto.
    + fold m. by rewrite <-size_dom, Hdom, size_dom.
    + intros Hex. destruct (H9 Hex) as [?|[? He]]; [by left|]. rewrite He in Ee. by rewrite lookup_empty in Ee.
  - unfold spec_of, phase. simpl. fold m. by rewrite Hdom.
Qed.

Lemma add_sim q id now :
  queue_inv q → cq_started q = true → cq_stopping q = false → 0 < id → cq_entries q !! id = None →
  Z.of_nat (size (cq_entries q)) < Capacity (cq_config q) → simulated q (Offered id true) (addLocked q id now).
Proof.
  intros HI Es Ep Hid Hn Hroom. destruct (open_facts _ HI Es Ep) as (Hph & _ & _).
  assert (id ∉ dom (cq_entries q)) as Hnin by (by apply not_elem_of_dom).
  pose proof (hint_accept (Capacity (cq_config q)) (spec_of q) id Hph Hid) as Hs. simpl in Hs.
  split_and!; [|done|].
  - destruct HI as [H1 H2 H3 H4 H5 H6 H7 H8 H9 H10 H11]. rewrite H4 in Hnin. constructor; simpl; try done.
    + by rewrite Es.
    + rewrite dom_insert_L, H4. set_solver.
    + rewrite (Permutation_app_comm (cq_pending q) [id]). simpl. constructor; [|done]. set_solver.
    + intros id' [Hid'|Hid']%elem_of_app.
      * rewrite lookup_insert_ne by set_solver. by apply H6.
      * apply list_elem_of_singleton in Hid' as ->. rewrite lookup_insert_eq. by eexists.
    + intros id' Hid'. rewrite lookup_insert_ne by set_solver. by apply H7.
    + rewrite map_size_insert_None by done. lia.
    + intros Hex. destruct (H9 Hex) as [?|[? _]]; [by left|congruence].
    + intros Hc. rewrite H10 in Ep by auto. done.
  - unfold spec_of, phase, addLocked. simpl. rewrite dom_insert_L. apply Hs. right. by rewrite size_dom.
Qed.

Lemma cq_hint_sim q id now q' b : queue_inv q → Hint q id now = (q', b) → simulated q (Offered id b) q'.
Proof.
  intros HI. unfold Hint. destruct ((id <=? 0) || negb (cq_started q) || cq_stopping q) eqn:Eg.
  { intros [= <- <-]. split_and!; [done|done|]. apply hint_refuse. unfold spec_of, phase. simpl. to_cases; [by left|right; left..].
    - destruct (qi_unstarted _ HI Eg) as (_ & _ & Hc). rewrite Hc, Eg. by destruct (cq_stopping q).
    - rewrite Eg. by destruct (cq_completed q). }
  apply orb_false_iff in Eg as [Eg Ep]. apply orb_false_iff in Eg as [Eid Es]. to_prop.
  destruct (mergeLocked q id now) as [q1|] eqn:Em; [intros [= <- <-]; by eapply merge_sim|].
  assert (cq_entries q !! id = None) as Hn.
  { unfold mergeLocked in Em. destruct (cq_entries q !! id); [|done]. by destruct (_ && _). }
  destruct (Z.eqb_spec (Z.of_nat (size (cq_entries q))) (Capacity (cq_config q))) as [Ef|Ef]; intros [= <- <-].
  { split_and!; [|done|]; [destruct HI; by constructor|]. apply hint_refuse. simpl. right; right. split; [by apply not_elem_of_dom|].
    rewrite size_dom. lia. }
  pose proof (qi_bound _ HI) as Hb. apply add_sim; try done. lia.
Qed.

(** Recovery admission: an accepted ID, or nothing changes. *)
Lemma recovery_sim q ctxErr id now q' r :
  queue_inv q → waitRecovery q ctxErr id now = (q', r) →
  if bool_decide (r = Some (Ok ()) ∧ 0 < id) then simulated q (Offered id true) q' else q' = q.
Proof.
  intros HI. unfold waitRecovery. destruct ctxErr as [e|]; [by intros [= <- <-]; rewrite bool_decide_eq_false_2 by (by intros [[=] _])|].
  destruct (negb (cq_started q) || cq_stopping q || cq_canceled q) eqn:Eg.
  { intros [= <- <-]. by rewrite bool_decide_eq_false_2 by (by intros [[=] _]). }
  apply orb_false_iff in Eg as [Eg _]. apply orb_false_iff in Eg as [Es Ep]. to_prop.
  destruct (0 <? id) eqn:Eid; to_prop.
  - destruct (mergeLocked q id now) as [q1|] eqn:Em.
    { intros [= <- <-]. rewrite bool_decide_eq_true_2 by done. by eapply merge_sim. }
    assert (cq_entries q !! id = None) as Hn.
    { unfold mergeLocked in Em. destruct (cq_entries q !! id); [|done]. by destruct (_ && _). }
    destruct (_ <? _) eqn:El; intros [= <- <-]; [|by rewrite bool_decide_eq_false_2 by (by intros [[=] _])].
    to_prop. rewrite bool_decide_eq_true_2 by done. apply add_sim; try done.
    pose proof (qi_config _ HI) as [Hc _]. pose proof (Z.quot_lt (Capacity (cq_config q)) 2 Hc ltac:(lia)). lia.
  - rewrite bool_decide_eq_false_2 by lia. by destruct (_ <? _); intros [= <- <-].
Qed.

Lemma cq_stop_sim q : queue_inv q → simulated q Internal (Stop q).
Proof.
  intros HI. unfold Stop. destruct (cq_stopping q) eqn:Ep. { split_and!; [done|done|apply hint_idle]. } simpl.
  assert (cq_completed q = false) as Ec by (destruct (cq_completed q) eqn:Ec; [rewrite (qi_stopping _ HI) in Ep by auto|]; done).
  destruct (cq_started q) eqn:Es; simpl.
  - split_and!; [|done|].
    + destruct HI as [H1 H2 H3 H4 H5 H6 H7 H8 H9 H10 H11]. constructor; simpl; try done; [congruence|].
      intros Hex. destruct (H9 Hex) as [?|[? _]]; [by left|congruence].
    + assert (spec_of { q with cq_stopping := true } = { spec_of q with hs_phase :=
        match hs_phase (spec_of q) with Unstarted => Finished | Accepting => Draining | p => p end }) as ->; [|apply hint_close].
      unfold spec_of, phase. simpl. by rewrite Ec, Ep, Es.
  - destruct (qi_unstarted _ HI Es) as (Hw & Hp & _). split_and!; [|done|].
    + destruct HI as [H1 H2 H3 H4 H5 H6 H7 H8 H9 H10 H11]. rewrite Hw in *. constructor; simpl; rewrite ?Hw; try done; by left.
    + assert (spec_of { q with cq_stopping := true; cq_completed := true; cq_canceled := true } = { spec_of q with hs_phase :=
        match hs_phase (spec_of q) with Unstarted => Finished | Accepting => Draining | p => p end }) as ->; [|apply hint_close].
      unfold spec_of, phase. simpl. by rewrite Ec, Ep, Es.
Qed.

Lemma cq_lifecycle_sim q drain canceled :
  queue_inv q → cq_stopping q = true → canceled = cq_canceled q ∨ canceled = true →
  simulated q Internal { q with cq_drainCtx := drain; cq_canceled := canceled }.
Proof.
  intros HI Ep Hc. split_and!; [|done|apply hint_idle].
  destruct HI as [H1 H2 H3 H4 H5 H6 H7 H8 H9 H10 H11]. constructor; simpl; try done. intros Hex. destruct Hc as [->| ->]; auto.
Qed.

Lemma cq_stop_stopping q : cq_stopping (Stop q) = true.
Proof. unfold Stop. destruct (cq_stopping q) eqn:E; [done|]. simpl. by destruct (negb (cq_started q)). Qed.

Lemma cq_drain_sim q deadline done_ q' r : queue_inv q → Drain q deadline done_ = (q', r) → simulated q Internal q'.
Proof.
  intros HI. pose proof (cq_stop_sim q HI) as (HI' & Hc & Hs). unfold Drain. cbv zeta.
  destruct (cq_completed (Stop q)) eqn:Ec; [by intros [= <- _]|]. destruct (cq_drainCtx (Stop q)) eqn:Ed; intros [= <- _]; [done|].
  destruct (cq_lifecycle_sim (Stop q) (Some deadline) (cq_canceled (Stop q) || done_) HI' (cq_stop_stopping q)) as (HI'' & Hc' & _).
  { destruct done_; [right; by rewrite orb_true_r|left; by rewrite orb_false_r]. }
  split_and!; [done|by rewrite Hc'|done].
Qed.

Lemma first_due_spec entries now pending id rest :
  first_due entries now pending = Some (id, rest) →
  pending ≡ₚ id :: rest ∧ ∃ e, entries !! id = Some e ∧ ce_due e ≤ now.
Proof.
  revert rest. induction pending as [|x l IH]; intros rest; simpl; [done|].
  destruct (entries !! x) as [e|] eqn:Ee; [|done]. unfold is_after. destruct (negb (now <? ce_due e)) eqn:Ed.
  - intros [= <- <-]. split; [done|]. exists e. to_prop. auto.
  - destruct (first_due entries now l) as [[y rest']|] eqn:Ef; [|done]. intros [= -> <-].
    destruct (IH rest' eq_refl) as (Hp & He). split; [|done]. rewrite Hp. apply Permutation_swap.
Qed.

Lemma running_worker q k w : queue_inv q → cq_workers q !! k = Some w → cq_started q = true.
Proof.
  intros HI Hk. destruct (cq_started q) eqn:Es; [done|]. destruct (qi_unstarted _ HI Es) as (Hw & _). by rewrite Hw in Hk.
Qed.

Lemma running_queue q k w : queue_inv q → cq_workers q !! k = Some w → w ≠ Exited → cq_completed q = false.
Proof.
  intros HI Hk Hw. destruct (cq_completed q) eqn:Ec; [|done]. destruct (qi_completed _ HI Ec) as [Hf _].
  by apply (exited_lookup _ _ _ Hf) in Hk.
Qed.

Lemma cq_worker_exit_sim q k now q' :
  queue_inv q → cq_workers q !! k = Some Idle → take q now = (q', TakeExit) → simulated q Internal (set_worker k Exited q').
Proof.
  intros HI Hk. unfold take. destruct (cq_canceled q || _) eqn:Ex; [|by destruct (first_due _ _ _) as [[? ?]|]]. intros [= <-].
  pose proof (busy_exit _ _ Hk) as Hb. split_and!; [|done|].
  - pose proof (running_worker _ _ _ HI Hk) as Hs. pose proof (running_queue _ _ _ HI Hk ltac:(done)) as Hc.
    destruct HI as [H1 H2 H3 H4 H5 H6 H7 H8 H9 H10 H11]. constructor; simpl; try done; try congruence.
    + rewrite length_insert. exact H3.
    + by rewrite Hb.
    + by rewrite Hb.
    + intros id. rewrite Hb. apply H7.
    + intros _. apply orb_true_iff in Ex as [?|[? He]%andb_true_iff]; [by left|]. right. by apply bool_decide_eq_true in He.
  - unfold spec_of. simpl. assert (list_to_set (busy (<[k:=Exited]> (cq_workers q))) =@{gset Z} list_to_set (busy (cq_workers q))) as ->.
    { by rewrite Hb. }
    apply hint_idle.
Qed.

Lemma cq_take_sim q k now q' id :
  queue_inv q → cq_workers q !! k = Some Idle → take q now = (q', TakeEntry id) → simulated q (Began id) (set_worker k (Busy id) q').
Proof.
  intros HI Hk. unfold take. destruct (cq_canceled q || _) eqn:Ex; [done|].
  destruct (first_due _ _ _) as [[x rest]|] eqn:Ef; [|done]. intros [= <- ->].
  destruct (first_due_spec _ _ _ _ _ Ef) as (Hp & e & He & _). pose proof (busy_take _ _ id Hk) as Hb.
  pose proof (running_worker _ _ _ HI Hk) as Hs. pose proof (running_queue _ _ _ HI Hk ltac:(done)) as Hc.
  assert (rest ++ busy (<[k:=Busy id]> (cq_workers q)) ≡ₚ cq_pending q ++ busy (cq_workers q)) as Hperm.
  { rewrite Hb, Hp. solve_Permutation. }
  assert (id ∉ rest ++ busy (cq_workers q)) as Hfresh.
  { pose proof (qi_once _ HI) as Hnd. rewrite Hp in Hnd. simpl in Hnd. by apply NoDup_cons in Hnd as [? _]. }
  split_and!; [|done|].
  - destruct HI as [H1 H2 H3 H4 H5 H6 H7 H8 H9 H10 H11]. constructor; simpl; try done; try congruence.
    + rewrite length_insert. exact H3.
    + by rewrite dom_alter_L, Hperm.
    + by rewrite Hperm.
    + intros id' Hid'. rewrite lookup_alter_ne by set_solver. apply H6. rewrite Hp. by right.
    + intros id'. rewrite Hb. intros [->|Hid']%elem_of_cons.
      * rewrite lookup_alter_eq, He. by eexists.
      * rewrite lookup_alter_ne by set_solver. by apply H7.
    + by rewrite <-size_dom, dom_alter_L, size_dom.
    + intros [[=]|Hex]%exited_insert. destruct (H9 Hex) as [?|[_ He0]]; [by left|]. rewrite He0 in He. by rewrite lookup_empty in He.
  - pose proof (hint_begin (Capacity (cq_config q)) (spec_of q) id) as Hh.
    assert (list_to_set (busy (<[k:=Busy id]> (cq_workers q))) =@{gset Z} {[id]} ∪ list_to_set (busy (cq_workers q))) as Hact.
    { by rewrite Hb. }
    unfold spec_of at 2, set_worker, phase. simpl. rewrite dom_alter_L, Hact. apply Hh; simpl.
    + unfold phase. rewrite Hc, Hs. destruct (cq_stopping q); auto.
    + apply elem_of_dom. eauto.
    + set_solver.
Qed.

Lemma cq_complete_sim q k id term settled :
  queue_inv q → cq_workers q !! k = Some (Busy id) →
  simulated q (Ended id (bool_decide (is_Some (cq_entries (complete q id term) !! id))) settled) (set_worker k Idle (complete q id term)).
Proof.
  intros HI Hk. pose proof (busy_release _ _ _ Idle Hk eq_refl) as Hb. pose proof (qi_once _ HI) as Hnd.
  assert (id ∈ busy (cq_workers q)) as Hin by (apply elem_of_busy; eauto).
  pose proof (running_worker _ _ _ HI Hk) as Hs. pose proof (running_queue _ _ _ HI Hk ltac:(done)) as Hc.
  set (ws := <[k:=Idle]> (cq_workers q)) in *.
  assert (NoDup (id :: cq_pending q ++ busy ws)) as Hnd' by (rewrite Hb in Hnd; by rewrite <-Permutation_middle in Hnd).
  apply NoDup_cons in Hnd' as [Hfresh Hnd'].
  assert (list_to_set (busy ws) =@{gset Z} list_to_set (busy (cq_workers q)) ∖ {[id]}) as Hact by (rewrite Hb; simpl; set_solver).
  destruct (qi_checking _ HI id Hin) as (e & He & _). unfold complete. cbv zeta. rewrite He.
  assert (id ∈ dom (cq_entries q)) as Hdom by (apply elem_of_dom; eauto).
  destruct (negb term && negb (is_zero (ce_nextDue e)) && negb (cq_canceled q)) eqn:Em; simpl.
  - assert ((cq_pending q ++ [id]) ++ busy ws ≡ₚ cq_pending q ++ busy (cq_workers q)) as Hperm by (rewrite Hb; solve_Permutation).
    rewrite lookup_insert_eq, bool_decide_eq_true_2 by (by eexists). split_and!; [|done|].
    + destruct HI as [H1 H2 H3 H4 H5 H6 H7 H8 H9 H10 H11]. constructor; simpl; try done; try congruence; fold ws.
      * unfold ws. rewrite length_insert. exact H3.
      * rewrite dom_insert_L, Hperm, <-H4. set_solver.
      * by rewrite Hperm.
      * intros id' [Hid'|Hid']%elem_of_app.
        -- rewrite lookup_insert_ne by set_solver. by apply H6.
        -- apply list_elem_of_singleton in Hid' as ->. rewrite lookup_insert_eq. by eexists.
      * intros id' Hid'. rewrite lookup_insert_ne by set_solver. apply H7. rewrite Hb. by right.
      * rewrite map_size_insert_Some by done. done.
      * intros [[=]|Hex]%exited_insert. destruct (H9 Hex) as [?|[_ He0]]; [by left|]. rewrite He0 in He. by rewrite lookup_empty in He.
    + pose proof (hint_end (Capacity (cq_config q)) (spec_of q) id true settled) as Hh. simpl in Hh. rewrite <-Hact in Hh.
      unfold spec_of at 2, set_worker, phase. simpl. rewrite dom_insert_L. fold ws.
      assert ({[id]} ∪ dom (cq_entries q) = dom (cq_entries q)) as -> by set_solver. apply Hh. set_solver.
  - rewrite lookup_delete_eq, bool_decide_eq_false_2 by (by intros [? [=]]). split_and!; [|done|].
    + destruct HI as [H1 H2 H3 H4 H5 H6 H7 H8 H9 H10 H11]. constructor; simpl; try done; try congruence; fold ws.
      * unfold ws. rewrite length_insert. exact H3.
      * rewrite dom_delete_L, H4, Hb. set_solver.
      * intros id' Hid'. rewrite lookup_delete_ne by set_solver. by apply H6.
      * intros id' Hid'. rewrite lookup_delete_ne by set_solver. apply H7. rewrite Hb. by right.
      * pose proof (map_size_delete id (cq_entries q)). rewrite He in *. lia.
      * intros [[=]|Hex]%exited_insert. destruct (H9 Hex) as [?|[_ He0]]; [by left|]. rewrite He0 in He. by rewrite lookup_empty in He.
    + pose proof (hint_end (Capacity (cq_config q)) (spec_of q) id false settled) as Hh. simpl in Hh. rewrite <-Hact in Hh.
      unfold spec_of at 2, set_worker, phase. simpl. rewrite dom_delete_L. fold ws. apply Hh. set_solver.
Qed.

Lemma cq_finish_sim q drainDone :
  queue_inv q → cq_started q = true → cq_completed q = false → forallb exited (cq_workers q) = true →
  simulated q Internal (finish q drainDone).
Proof.
  intros HI Hs Hc Hall. pose proof (busy_exited _ Hall) as Hb.
  assert (cq_stopping q = true) as Hp.
  { pose proof (qi_workers _ HI Hs) as Hl. pose proof (qi_config _ HI) as [_ Hcc].
    destruct (cq_workers q) as [|w ws] eqn:Ew; [simpl in Hl; lia|]. simpl in Hall. apply andb_true_iff in Hall as [Hw _]. destruct w; try done.
    destruct (qi_exited _ HI) as [Hx|[Hx _]]; [rewrite Ew; by left| |done]. apply (qi_stopping _ HI). by left. }
  split_and!; [|done|].
  - destruct HI as [H1 H2 H3 H4 H5 H6 H7 H8 H9 H10 H11]. constructor; simpl; rewrite ?Hb; try done; try congruence.
    + constructor.
    + intros id Hid. by apply elem_of_nil in Hid.
    + intros id Hid. by apply elem_of_nil in Hid.
    + rewrite map_size_empty. lia.
    + by left.
  - assert (spec_of (finish q drainDone) = {| hs_phase := Finished; hs_owed := ∅; hs_active := ∅ |}) as ->.
    { unfold spec_of, phase. simpl. by rewrite Hb, dom_empty_L. }
    apply hint_finish; unfold spec_of, phase; simpl; [by rewrite Hc, Hp|by rewrite Hb].
Qed.

Lemma cq_step_sim q l q' : queue_inv q → step q l q' → simulated q l q'.
Proof.
  assert (∀ q, queue_inv q → simulated q Internal q) as Hidle by (intros; split_and!; [done|done|apply hint_idle]).
  intros HI. destruct 1 as [q q' E|q id now q' b Hn E|q c now q' r E|q c id now q' r Hn E|q|q dl done_ q' r E|q E|q k now q' id Hk E|q k now q' Hk E|q k id r Hk|q dd Hs Hc Hall].
  - by apply cq_start_sim.
  - by eapply cq_hint_sim.
  - unfold WaitRecoveryCapacity in E. apply recovery_sim in E; [|done]. rewrite bool_decide_eq_false_2 in E by lia. subst q'. by apply Hidle.
  - unfold HintRecovery in E. destruct (Z.leb_spec id 0) as [Hid|Hid]; [injection E as <- <-; by apply Hidle|].
    apply recovery_sim in E; [|done]. destruct (decide (r = Some (Ok ()))) as [->|Hr].
    + rewrite bool_decide_eq_true_2 in E by done. by rewrite bool_decide_eq_true_2.
    + rewrite bool_decide_eq_false_2 in E by tauto. rewrite bool_decide_eq_false_2 by done. subst q'. by apply Hidle.
  - by apply cq_stop_sim.
  - by eapply cq_drain_sim.
  - replace (cancelRun q) with { q with cq_drainCtx := cq_drainCtx q; cq_canceled := true } by (by destruct q).
    apply cq_lifecycle_sim; [done| |by right]. apply (qi_stopping _ HI). auto.
  - by eapply cq_take_sim.
  - by eapply cq_worker_exit_sim.
  - by apply cq_complete_sim.
  - by apply cq_finish_sim.
Qed.

#[export, refine] Instance check_hint_queue : HintQueue Queue := {
  hq_capacity q := Capacity (cq_config q);
  hq_fresh q := ∃ config, NewQueue config = Ok q;
  hq_step := step;
  hq_inv := queue_inv;
  hq_spec := spec_of;
  hq_fresh_ok := _;
  hq_step_ok := _;
}.
Proof.
  - intros q [config Hn]. destruct (cq_new_inv _ _ Hn) as (HI & Hs & -> & Hc). auto.
  - intros q l q' HI Hst. destruct (cq_step_sim _ _ _ HI Hst) as (HI' & Hc & Hs). by rewrite Hc.
Defined.

Lemma check_fresh config q : NewQueue config = Ok q → hq_fresh q.
Proof. intros Hn. by exists config. Qed.

Lemma cq_reached_inv config q0 tr q : NewQueue config = Ok q0 → traces step q0 tr q → queue_inv q ∧ cq_config q = config.
Proof.
  intros Hnew. destruct (cq_new_inv _ _ Hnew) as (HI0 & _ & <- & _).
  apply (traces_inv step (λ q, queue_inv q ∧ cq_config q = cq_config q0)); [|done].
  intros q1 l q2 [HI1 E] (? & E2 & _)%cq_step_sim; [|done]. split; [done|congruence].
Qed.

(** ** The contract of the queue *)

(** The check queue implements the hint specification, with recovery admission
    as a further way to offer IDs: every interleaving is a run of the abstract
    machine with the same visible events, at most [Capacity] IDs are held, and no
    more than [Concurrency] checks run. *)
Theorem check_queue_refines config q0 tr q :
  NewQueue config = Ok q0 → traces step q0 tr q →
  spec_runs (Capacity config) spec_new tr (spec_of q) ∧
  Z.of_nat (size (cq_entries q)) ≤ Capacity config ∧ Z.of_nat (length (busy (cq_workers q))) ≤ Concurrency config ∧
  (cq_completed q = true → busy (cq_workers q) = []).
Proof.
  intros Hnew Hr. destruct (cq_new_inv _ _ Hnew) as (_ & _ & Hc0 & _). destruct (cq_reached_inv _ _ _ _ Hnew Hr) as [HI Hc].
  destruct (hint_queue_refines q0 tr q (check_fresh _ _ Hnew) Hr) as (_ & _ & Hs). simpl in Hs. rewrite Hc0 in Hs.
  split_and!; [done| | |].
  - rewrite <-Hc. apply (qi_bound _ HI).
  - pose proof (length_busy (cq_workers q)) as Hl. pose proof (qi_config _ HI) as [_ Hcc]. rewrite Hc in Hcc.
    destruct (cq_started q) eqn:Es; [rewrite (qi_workers _ HI Es), Hc in Hl; lia|].
    destruct (qi_unstarted _ HI Es) as (Hw & _). rewrite Hw. simpl. lia.
  - intros Ec. apply busy_exited. apply (qi_completed _ HI Ec).
Qed.

(** ** Hints are followed by a check *)

(** A check of the ID is still to begin: it waits in the list, or the running check
    is to be followed by another one. *)
Definition scheduled (q : Queue) (id : Z) : Prop :=
  ∃ e, cq_entries q !! id = Some e ∧ (ce_processing e = false ∨ ce_nextDue e ≠ 0).

Lemma merge_entry q id now q' :
  mergeLocked q id now = Some q' →
  cq_canceled q' = cq_canceled q ∧ cq_workers q' = cq_workers q ∧
  ∃ e, cq_entries q !! id = Some e ∧
    cq_entries q' = <[id := if ce_processing e && is_zero (ce_nextDue e) then { e with ce_nextDue := now + mergeWindow } else e]> (cq_entries q).
Proof.
  unfold mergeLocked. destruct (cq_entries q !! id) as [e|] eqn:Ee; [|done].
  destruct (_ && _) eqn:Em; intros [= <-]; split_and!; try done; exists e; rewrite ?Em; (split; [done|]); [done|].
  by rewrite insert_id.
Qed.

Lemma merge_scheduled q id now q' : 0 < now → mergeLocked q id now = Some q' → scheduled q' id.
Proof.
  intros Hn (_ & _ & e & He & Hq)%merge_entry. unfold scheduled. rewrite Hq, lookup_insert_eq. eexists. split; [done|].
  unfold is_zero. destruct (ce_processing e) eqn:Ep; simpl; [|by left].
  destruct (ce_nextDue e =? 0) eqn:Ez; simpl; right; [unfold mergeWindow, Millisecond; lia|by to_prop].
Qed.

Lemma add_scheduled q id now : scheduled (addLocked q id now) id.
Proof. unfold scheduled. simpl. rewrite lookup_insert_eq. eexists. split; [done|by left]. Qed.

Lemma hint_scheduled q id now q' : 0 < now → Hint q id now = (q', true) → scheduled q' id.
Proof.
  intros Hn. unfold Hint. destruct (_ || _); [done|]. destruct (mergeLocked q id now) as [q1|] eqn:Em.
  { intros [= <-]. by eapply merge_scheduled. }
  destruct (_ =? _); [done|]. intros [= <-]. apply add_scheduled.
Qed.

(** Admission of an ID keeps what is scheduled. *)
Lemma merge_keeps q id now q' x : 0 < now → scheduled q x → mergeLocked q id now = Some q' → scheduled q' x.
Proof.
  intros Hn (e & He & Hs) Hm. destruct (decide (x = id)) as [->|Hne]; [by eapply merge_scheduled|].
  apply merge_entry in Hm as (_ & _ & e' & _ & Hq). exists e. split; [|done]. by rewrite Hq, lookup_insert_ne.
Qed.
Lemma add_keeps q id now x : scheduled q x → scheduled (addLocked q id now) x.
Proof.
  intros (e & He & Hs). destruct (decide (x = id)) as [->|Hne]; [apply add_scheduled|].
  exists e. split; [|done]. simpl. by rewrite lookup_insert_ne.
Qed.

Lemma recovery_keeps q c id now q' r x : 0 < now → scheduled q x → waitRecovery q c id now = (q', r) → scheduled q' x.
Proof.
  intros Hn Hs. unfold waitRecovery. destruct c; [by intros [= <- _]|]. destruct (_ || _ || _); [by intros [= <- _]|].
  destruct (0 <? id); [destruct (mergeLocked q id now) as [q1|] eqn:Em; [intros [= <- _]; by eapply merge_keeps|]|];
    destruct (_ <? _); intros [= <- _]; try done. by apply add_keeps.
Qed.

Lemma recovery_capacity q c now q' r : WaitRecoveryCapacity q c now = (q', r) → q' = q.
Proof.
  unfold WaitRecoveryCapacity, waitRecovery. destruct c; [by intros [= <- _]|]. destruct (_ || _ || _); [by intros [= <- _]|].
  simpl. by destruct (_ <? _); intros [= <- _].
Qed.

Lemma stop_entries q : cq_entries (Stop q) = cq_entries q.
Proof. unfold Stop. destruct (cq_stopping q); [done|]. simpl. by destruct (negb (cq_started q)). Qed.

Lemma drain_entries q dl done_ q' r : Drain q dl done_ = (q', r) → cq_entries q' = cq_entries q.
Proof.
  unfold Drain. cbv zeta. rewrite <-(stop_entries q). destruct (cq_completed _); [by intros [= <- _]|].
  by destruct (cq_drainCtx _); intros [= <- _].
Qed.

(** One step: a scheduled check stays scheduled until it begins, unless a terminal
    answer makes it superfluous or the queue is canceled. *)
Lemma step_scheduled q l q' id :
  queue_inv q → scheduled q id → step q l q' → l ≠ Began id → l ≠ Ended id false true → cq_canceled q' = false →
  scheduled q' id.
Proof.
  intros HI Hs Hst. destruct Hst as [q q' E|q x now q' b Hn E|q c now q' r E|q c x now q' r Hn E|q|q dl done_ q' r E|q E|q k now q' x Hk E|q k now q' Hk E|q k x r Hk|q dd Hst Hc Hall];
    intros Hl1 Hl2 Hcan.
  - unfold Start in E. destruct (_ || _); [done|]. by injection E as <-.
  - unfold Hint in E. destruct (_ || _ || _); [by injection E as <- _|]. destruct (mergeLocked q x now) as [q1|] eqn:Em.
    { injection E as <- _. by eapply merge_keeps. }
    destruct (_ =? _); injection E as <- _; [done|]. by apply add_keeps.
  - apply recovery_capacity in E as ->. done.
  - unfold HintRecovery in E. destruct (x <=? 0); [by injection E as <- _|]. by eapply recovery_keeps.
  - unfold scheduled. by rewrite stop_entries.
  - unfold scheduled. by rewrite (drain_entries _ _ _ _ _ E).
  - done.
  - unfold take in E. destruct (_ || _); [done|]. destruct (first_due _ _ _) as [[y rest]|]; [|done]. injection E as <- ->.
    destruct Hs as (e & He & Hs). exists e. split; [|done]. simpl. rewrite lookup_alter_ne; [done|]. intros ->. done.
  - unfold take in E. destruct (_ || _); [by injection E as <-|]. by destruct (first_due _ _ _) as [[y rest]|].
  - destruct Hs as (e & He & Hs). unfold scheduled, set_worker in *. simpl in *. unfold complete in *. cbv zeta in *.
    destruct (qi_checking _ HI x) as (e' & He' & Hp); [apply elem_of_busy; eauto|]. rewrite He' in *.
    destruct (negb (terminal r) && negb (is_zero (ce_nextDue e')) && negb (cq_canceled q)) eqn:Em; simpl in *.
    + destruct (decide (x = id)) as [->|Hne]; [rewrite lookup_insert_eq; eexists; split; [done|by left]|].
      rewrite lookup_insert_ne by done. eauto.
    + destruct (decide (x = id)) as [->|Hne]; [|rewrite lookup_delete_ne by done; eauto]. exfalso.
      rewrite lookup_delete_eq, bool_decide_eq_false_2 in Hl2 by (by intros [? [=]]).
      simplify_eq. destruct Hs as [Hs|Hs]; [congruence|]. unfold is_zero in Em. rewrite (proj2 (Z.eqb_neq _ 0) Hs), Hcan in Em.
      simpl in Em. by destruct (terminal r).
  - done.
Qed.

Lemma canceled_stays q l q' : step q l q' → cq_canceled q = true → cq_canceled q' = true.
Proof.
  destruct 1 as [q q' E|q x now q' b Hn E|q c now q' r E|q c x now q' r Hn E|q|q dl done_ q' r E|q E|q k now q' x Hk E|q k now q' Hk E|q k x r Hk|q dd Hst Hc Hall];
    intros Hcan; try done.
  - unfold Start in E. destruct (_ || _); [done|]. by injection E as <-.
  - unfold Hint in E. destruct (_ || _ || _); [by injection E as <- _|]. destruct (mergeLocked q x now) as [q1|] eqn:Em.
    { injection E as <- _. apply merge_entry in Em as (-> & _). done. }
    by destruct (_ =? _); injection E as <- _.
  - by apply recovery_capacity in E as ->.
  - unfold HintRecovery in E. destruct (x <=? 0); [by injection E as <- _|]. unfold waitRecovery in E.
    destruct c; [by injection E as <- _|]. rewrite Hcan, orb_true_r in E. by injection E as <- _.
  - unfold Stop. destruct (cq_stopping q); [done|]. simpl. by destruct (negb _).
  - unfold Drain, Stop in E. cbv zeta in E. revert E. destruct (cq_stopping q); simpl; [|destruct (negb (cq_started q)); simpl; [by intros [= <- _]|]];
      (destruct (cq_completed q); [by intros [= <- _]|]); destruct (cq_drainCtx q); intros [= <- _]; simpl; by rewrite ?Hcan.
  - unfold take in E. rewrite Hcan in E. done.
  - unfold take in E. rewrite Hcan in E. by injection E as <-.
  - simpl. unfold complete. destruct (cq_entries q !! x); [|done]. by destruct (_ && _).
Qed.

(** A hint is never absorbed by a check that began before it.  After an
    accepted hint, until a check of the Instance begins, the queue keeps one
    scheduled, whatever callers and workers do meanwhile: the ID waits in the list,
    or it is being checked and marked for another check.  Only a check that found
    the Instance terminal, or a canceled shutdown, ends the obligation. *)
Theorem check_follows_hint config q0 tr q id now q1 tr' q2 :
  NewQueue config = Ok q0 → traces step q0 tr q → 0 < now → Hint q id now = (q1, true) → traces step q1 tr' q2 →
  Began id ∉ tr' → Ended id false true ∉ tr' → cq_canceled q2 = false →
  scheduled q2 id ∧ (id ∈ cq_pending q2 ∨ id ∈ busy (cq_workers q2)).
Proof.
  intros Hnew Hr Hn Hh Hr' Hb He Hcan.
  assert (traces step q0 (tr ++ [Offered id true]) q1) as Hr1 by (eapply traces_snoc; [done|by eapply step_hint]).
  assert (queue_inv q2) as HI2 by (apply (cq_reached_inv _ _ _ _ Hnew (traces_app _ _ _ _ _ _ Hr1 Hr'))).
  assert (scheduled q2 id) as Hs; [|split; [done|]; destruct Hs as (e & Hq & _); apply (entry_cases _ _ HI2); eauto].
  clear HI2. induction Hr' as [q1|q1 tr' q2 l q3 Hr' IH Hs]; [by eapply hint_scheduled|].
  assert (cq_canceled q2 = false) as Hcan2 by (destruct (cq_canceled q2) eqn:E; [rewrite (canceled_stays _ _ _ Hs E) in Hcan|]; done).
  eapply step_scheduled; [apply (cq_reached_inv _ _ _ _ Hnew (traces_app _ _ _ _ _ _ Hr1 Hr'))| |exact Hs| | |done]; set_solver.
Qed.

(** ** Instances *)

Definition sample_config : Config := {| Capacity := 2; Concurrency := 1; Timeout := Second |}.
Definition sample_new : Queue :=
  {| cq_config := sample_config; cq_started := false; cq_stopping := false; cq_completed := false; cq_fullLogged := false;
     cq_entries := ∅; cq_pending := []; cq_canceled := false; cq_drainCtx := None; cq_drainErr := None; cq_workers := [] |}.
Definition sample_open : Queue := { sample_new with cq_started := true; cq_workers := [Idle] }.
Definition sample_entry : checkEntry := {| ce_due := 5 + mergeWindow; ce_processing := false; ce_nextDue := 0 |}.
Definition sample_hinted : Queue := { sample_open with cq_entries := {[7 := sample_entry]}; cq_pending := [7] }.
Definition sample_checking : Queue :=
  { sample_hinted with cq_entries := {[7 := { sample_entry with ce_processing := true }]}; cq_pending := []; cq_workers := [Busy 7] }.
(** A hint at time 6 + mergeWindow, while the check runs; then the check ends without
    a verdict and the entry waits again. *)
Definition sample_merged : Queue := (Hint sample_checking 7 (6 + mergeWindow)).1.
Definition sample_again : Queue := set_worker 0 Idle (complete sample_merged 7 false).

Lemma sample_checking_traces : traces step sample_new [Internal; Offered 7 true; Began 7] sample_checking.
Proof.
  eapply traces_cons; [by apply (step_start sample_new sample_open)|].
  eapply traces_cons; [by apply (step_hint sample_open 7 5 sample_hinted true)|].
  apply traces_one.
  exact (step_take sample_hinted 0 (5 + mergeWindow) { sample_hinted with
    cq_entries := {[7 := { sample_entry with ce_processing := true }]}; cq_pending := [] } 7 eq_refl eq_refl).
Qed.

Lemma check_queue_refines_witness : spec_runs 2 spec_new [Internal; Offered 7 true; Began 7] (spec_of sample_checking).
Proof. apply (check_queue_refines sample_config sample_new); [reflexivity|apply sample_checking_traces]. Defined.

Lemma check_follows_hint_witness : scheduled sample_again 7.
Proof.
  eapply (check_follows_hint sample_config sample_new [Internal; Offered 7 true; Began 7] sample_checking 7 (6 + mergeWindow) sample_merged
    [Ended 7 true false] sample_again); [reflexivity|apply sample_checking_traces|reflexivity|reflexivity| |set_solver|set_solver|reflexivity].
  apply traces_one. exact (step_complete sample_merged 0 7 (Ok OutcomeSkipped) eq_refl).
Defined.
