(* ===== verification/Loops.v ===== *)
(** * Turns of the stop workers

    The batches of apps/job/internal/instancestop/controller.go as the workers of
    queue.go run them: a turn repeats [ProcessBatch] until nothing is left, the
    turn's time is used up, or its number of batches is reached.  The second part
    is the loops of discovery that walk pages under a budget. *)

From S2P Require Import Prelude GoLib Tx Model TaskRepo InstanceRepo StopController Protocol System Runs Progress HintSpec StopQueue.
From S2P Require Import RepoRules.

Open Scope Z_scope.

Section turns.
Context `{UuidLib, PgLib}.

Lemma calm_turn_step c id until n t d d1 d2 b r :
  t < until → calm_to t (ProcessBatch c id) d d1 (Ok b) [] →
  (if negb (sb_More b) then d2 = d1 ∧ r = Ok false else calm_to t (process_from c id until n) d1 d2 r []) →
  calm_to t (process_from c id until (S n)) d d2 r [].
Proof.
  intros Hu Hb Hk. simpl. eapply calm_bind0; [apply calm_ctx_err|]. eapply calm_bind0; [exact Hb|].
  destruct (negb (sb_More b)); [destruct Hk as [-> ->]; apply calm_ret|].
  eapply calm_bind0; [apply calm_pop|]. simpl. unfold before. by rewrite (proj2 (Z.ltb_lt t until)).
Qed.

(** A turn of a stop worker converges.  With at least two batches per turn, an
    undisturbed turn for a stopping Instance of a consistent database ends with the
    Instance in the terminal state its reason demands and no unfinished Task, and
    reports that nothing more is to do, so that the queue releases the ID. *)
Theorem stop_turn_converges config c t d id i reason :
  db_inv d → t ≠ 0 → 0 < co_batchSize c → 2 ≤ MaxBatches config → 0 < RunTimeout config →
  instances d !! id = Some i → i_status i = InstanceStopping → i_end_reason i = Some reason →
  result_of (process config c id) t d = Ok false ∧
  ∃ i', instances (after_run (process config c id) t d) !! id = Some i' ∧
    i_status i' = stop_target reason ∧ terminal_status (i_status i') = true ∧ i_end_reason i' = Some reason ∧
    has_unfinished (after_run (process config c id) t d) id = false.
Proof.
  intros HI Ht Hb Hm Hrun Hi Hs Hr. destruct (stopping_facts _ _ _ HI Hi Hs) as (Hid & Hf & r & Hr' & Hst).
  assert (r = reason) as -> by congruence.
  assert (terminal_status (stop_target reason) = true) as Hterm by (by destruct Hst as [-> | ->]).
  destruct (Z.to_nat (MaxBatches config)) as [|[|n]] eqn:En; [lia..|].
  assert (∃ d', calm_to t (process config c id) d (set_instance id (finish_stop_row reason t i) d') (Ok false) [] ∧ unfinished_ids d' id = [])
    as (d' & Hc & Hu).
  { destruct (unfinished_ids_single d id HI) as [Hu|(tid & tk & Hu & Htk & Htkid & Htku & Htid)].
    - exists d. split; [|done]. unfold process. eapply calm_bind0; [apply calm_pop|]. rewrite En.
      eapply calm_turn_step; [simpl; lia|by apply calm_batch_last|done].
    - destruct (calm_batch_first c t d id i reason tid tk) as (write & Hfirst); [done..|].
      pose proof (unfinished_ids_cancel _ _ _ _ write HI Htk Htkid) as Hu'. exists (set_task tid (cancel_row write tk) d). split; [|done].
      unfold process. eapply calm_bind0; [apply calm_pop|]. rewrite En. eapply calm_turn_step; [simpl; lia|exact Hfirst|]. simpl.
      eapply calm_turn_step; [lia|by apply (calm_batch_last c t (set_task tid (cancel_row write tk) d) id i)|done]. }
  split; [exact (calm_result _ _ _ _ _ _ Hc)|]. rewrite (calm_after _ _ _ _ _ _ Hc).
  exists (finish_stop_row reason t i). simpl. rewrite lookup_insert_eq. split_and!; try done. by apply (has_unfinished_ids d').
Qed.
End turns.

Definition demo_turns : Config := {| Capacity := 4; Concurrency := 1; RunTimeout := Second; MaxBatches := 2 |}.

Lemma stop_turn_converges_witness : result_of (process demo_turns demo_controller 1) 360 demo_stopping = Ok false.
Proof.
  eapply (stop_turn_converges demo_turns demo_controller 360 demo_stopping 1);
    [apply demo_stopping_inv|discriminate|reflexivity|discriminate|reflexivity|evaluate|reflexivity|reflexivity].
Defined.

(** * Background loops

    What the models of the discovery loops share: how a loop with fuel ends, how the
    waits between two passes end, and how a computation that cannot fail runs in an
    arbitrary or an undisturbed world. *)

(** How a loop run with fuel ended: with the position it leaves and the error it
    returns, or by running out of fuel. *)
Inductive Pass (P : Type) := Returned (position : P) (err : option Error) | OutOfFuel.
Arguments Returned {P} position err.
Arguments OutOfFuel {P}.

(** What ends the wait between two passes: a tick, a closed tick channel, or the
    end of the elected term. *)
Inductive Wake := Tick | TicksClosed | TermEnded.

Lemma bind_ok {A B} (m : M A) (k : A → M B) w w' a : m w = (w', Ok a) → mbind k m w = k a w'.
Proof. intros E. unfold mbind, M_bind. by rewrite E. Qed.

Lemma attempt_ok {A} (m : M A) w : ∃ w' r, attempt m w = (w', Ok r).
Proof. unfold attempt. destruct (m w) as [w' r]. eauto. Qed.

Lemma attempt_silent {A} (m : M A) w : silent m → ∃ w' r, attempt m w = (w', Ok r) ∧ w_out w' = w_out w.
Proof.
  intros Hm. destruct (attempt_ok m w) as (w' & r & E). exists w', r. split; [done|].
  pose proof (silent_attempt _ Hm w) as Ho. by rewrite E in Ho.
Qed.

(** A world in which nothing interferes; the queue's answers are still arbitrary. *)
Definition undisturbed (t : Time) (d : DB) (w : World) : Prop := w_env w = calm t ∧ w_db w = d.

Lemma undisturbed_run {A} t d (m : M A) w r :
  undisturbed t d w → calm_to t m d d r [] → ∃ w', attempt m w = (w', Ok r) ∧ undisturbed t d w' ∧ w_out w' = w_out w.
Proof.
  intros [He Hd] Hm. specialize (Hm w He Hd). unfold attempt. destruct (m w) as [w' r']. destruct Hm as (? & ? & -> & Ho).
  exists w'. rewrite app_nil_r in Ho. done.
Qed.

(** ** Ordered pages *)

Lemma sorted_app (l k : list Z) a :
  StronglySorted Z.lt l → StronglySorted Z.lt k → (∀ x, x ∈ l → x ≤ a) → (∀ x, x ∈ k → a < x) → StronglySorted Z.lt (l ++ k).
Proof.
  intros Hl Hk Ha Hb. induction Hl as [|x l Hl IH Hf]; simpl; [done|]. constructor.
  - apply IH. set_solver.
  - apply Forall_app. split; [done|]. apply Forall_forall. intros y Hy.
    pose proof (Ha x ltac:(set_solver)). pose proof (Hb y Hy). lia.
Qed.

Lemma sorted_take (l : list Z) n : StronglySorted Z.lt l → StronglySorted Z.lt (firstn n l).
Proof. intros Hs. rewrite <-(take_drop n l) in Hs. by eapply StronglySorted_app_inv_l. Qed.

Lemma ids_where_filter {A} (P : Z → A → bool) (Q : Z → bool) (m : gmap Z A) :
  ids_where (λ id a, P id a && Q id) m = filter (λ id, Q id = true) (ids_where P m).
Proof.
  unfold ids_where. induction (rows m) as [|[id a] l IH]; [done|].
  rewrite (filter_cons (λ r, P r.1 r.2 && Q r.1 = true)), (filter_cons (λ r, P r.1 r.2 = true)). simpl.
  destruct (P id a) eqn:EP; simpl.
  - rewrite filter_cons. change (list_fmap _ _ fst) with (fmap (M := list) (fst : Z * A → Z)). rewrite <-IH.
    by destruct (decide (Q id = true)).
  - exact IH.
Qed.
