(* ===== verification/StopRecovery.v ===== *)
(** * Discovery of stopping Instances

    apps/job/internal/instancestop/recovery.go: one elected node walks the STOPPING
    Instances page by page and hands their IDs to the stop queue.  A pass ends at the
    tail, when the queue refuses an ID, on an error or when its budget is used up;
    the position it leaves lets the next pass go on. *)

From S2P Require Import Prelude GoLib Tx Model TaskRepo InstanceRepo StopController Logic Protocol RepoRules System Runs Progress Loops.

Open Scope Z_scope.

Record RecoveryConfig := { PageSize : Z; RunTimeout : Duration; SQLTimeout : Duration }.
Record Recovery := { rc_config : RecoveryConfig; rc_active : bool }.
Record stoppingPosition := { upper : Z; after_id : Z }.
Definition no_position : stoppingPosition := {| upper := 0; after_id := 0 |}.

Definition NewRecovery (config : RecoveryConfig) : Result Recovery :=
  if (PageSize config <=? 0) || (RunTimeout config <=? 0) || (SQLTimeout config <=? 0)
  then Fail [Text "stopping recovery settings must be positive"]
  else Ok {| rc_config := config; rc_active := false |}.

(** Where the IDs come from.  The interface leaves it to the implementation; discovery relies
    only on a source that queries and returns. *)
Class stoppingSource := {
  source_StoppingUpperID : M Z;
  source_ListStoppingCandidates : Z → Z → Z → M (list Z);
}.
Class SourceLaws `{stoppingSource} : Prop := {
  upper_silent : silent source_StoppingUpperID;
  list_silent : ∀ afterID upperID limit, silent (source_ListStoppingCandidates afterID upperID limit);
}.

(** The instance repository of the scheduler. *)
Definition repository_source `{PgLib} : stoppingSource :=
  {| source_StoppingUpperID := StoppingUpperID Auto; source_ListStoppingCandidates := ListStoppingCandidates Auto |}.
Lemma repository_laws `{PgLib} : SourceLaws (H := repository_source).
Proof. constructor; intros; simpl; unfold StoppingUpperID, ListStoppingCandidates; silent_auto. Qed.

(** The admission function of the stop queue: its answers depend on what the other
    goroutines have done by then. *)
Class StopAdmission := stop_hint : nat → Z → bool.

Section recovery.
Context `{stoppingSource, StopAdmission}.

Definition offer (id : Z) : M bool := λ w,
  let ok := stop_hint (w_at w) id in
  ({ w with w_at := S (w_at w); w_out := w_out w ++ (if ok then [StopResumed id] else []) }, Ok ok).

(** The IDs of one page.  [Some err]: the pass returns with it. *)
Fixpoint hint_page (position : stoppingPosition) (ids : list Z) : M (stoppingPosition * option (option Error)) :=
  match ids with
  | [] => mret (position, None)
  | id :: rest =>
      live ← attempt ctx_err;
      match live with
      | Fail e => mret (position, Some (Some e))
      | Ok _ =>
          ok ← offer id;
          if negb ok then mret (position, Some None) else hint_page { position with after_id := id } rest
      end
  end.

Definition valid_page (config : RecoveryConfig) (position : stoppingPosition) (ids : list Z) : bool :=
  validOrderedIDs ids (PageSize config) &&
  match head ids, last ids with
  | Some first, Some final => negb ((first <=? after_id position) || (upper position <? final))
  | _, _ => true
  end.

Fixpoint scan_pages (config : RecoveryConfig) (fuel : nat) (position : stoppingPosition) : M (Pass stoppingPosition) :=
  match fuel with
  | O => mret OutOfFuel
  | S fuel =>
      page ← attempt (sqlCall (source_ListStoppingCandidates (after_id position) (upper position) (PageSize config)));
      match page with
      | Fail e => mret (Returned position (Some e))
      | Ok ids =>
          if negb (valid_page config position ids) then mret (Returned position (Some [ErrInvalidState]))
          else if bool_decide (ids = []) then mret (Returned no_position None)
          else
            stop ← hint_page position ids;
            match stop.2 with
            | Some err => mret (Returned stop.1 err)
            | None =>
                if after_id stop.1 =? upper stop.1 then mret (Returned no_position None)
                else scan_pages config fuel stop.1
            end
      end
  end.

Definition scan (config : RecoveryConfig) (fuel : nat) (position : stoppingPosition) : M (Pass stoppingPosition) :=
  if upper position =? 0 then
    bound ← attempt (sqlCall source_StoppingUpperID);
    match bound with
    | Fail e => mret (Returned position (Some e))
    | Ok u =>
        if u <? 0 then mret (Returned position (Some [ErrInvalidState]))
        else if u =? 0 then mret (Returned position None)
        else scan_pages config fuel { position with upper := u }
    end
  else scan_pages config fuel position.

(** The passes of one term; each is followed by a wait.  [None]: still waiting. *)
Fixpoint passes (config : RecoveryConfig) (fuel : nat) (position : stoppingPosition) (wakes : list Wake) : M (option Error) :=
  live ← attempt ctx_err;
  match live with
  | Fail e => mret (Some e)
  | Ok _ =>
      pass ← scan config fuel position;
      let position := match pass with Returned p _ => p | OutOfFuel => position end in
      match wakes with
      | [] => mret None
      | TermEnded :: _ => mret (Some [ContextErr])
      | TicksClosed :: _ => mret (Some [Text "stopping recovery ticks closed"])
      | Tick :: rest => passes config fuel position rest
      end
  end.

Definition Run (r : Recovery) (fuel : nat) (wakes : list Wake) : M (option Error) :=
  if rc_active r then mret (Some [Text "stopping recovery is already running"])
  else passes (rc_config r) fuel no_position wakes.
End recovery.

Section passes_proofs.
Context `{SourceLaws, StopAdmission}.

(** What the IDs of a page leave: a prefix was accepted, and the position stands at
    its end. *)
Definition page_outcome (position : stoppingPosition) (ids : list Z) (n : nat) (w w' : World)
    (r : stoppingPosition * option (option Error)) : Prop :=
  (n ≤ length ids)%nat ∧ w_out w' = w_out w ++ (StopResumed <$> take n ids) ∧
  r.1 = { position with after_id := default (after_id position) (last (take n ids)) } ∧
  (r.2 = None ↔ n = length ids).

Lemma page_outcome_none position ids w w' err :
  w_out w' = w_out w → err ≠ None ∨ ids = [] → page_outcome position ids 0 w w' (position, if bool_decide (ids = []) then None else err).
Proof.
  intros Ho He. unfold page_outcome. simpl. rewrite app_nil_r. split_and!; [lia|done|by destruct position|].
  case_bool_decide as Hi; [subst; done|]. destruct ids; [done|]. simpl. destruct He; split; intros; simplify_eq; done || lia.
Qed.

Lemma hint_page_spec position ids w :
  ∃ n w' r, hint_page position ids w = (w', Ok r) ∧ page_outcome position ids n w w' r.
Proof.
  revert position w. induction ids as [|id rest IH]; intros position w; simpl.
  { exists 0%nat, w, (position, None). split; [done|]. exact (page_outcome_none position [] w w None eq_refl (or_intror eq_refl)). }
  destruct (attempt_silent ctx_err w silent_ctx_err) as (w1 & live & E1 & Ho1). rewrite (bind_ok _ _ _ _ _ E1). destruct live as [u|e].
  2: { exists 0%nat, w1, (position, Some (Some e)). split; [done|]. apply (page_outcome_none position (id :: rest) w w1 (Some (Some e)) Ho1). by left. }
  unfold offer. destruct (stop_hint (w_at w1) id) eqn:Eh.
  - erewrite bind_ok; [|unfold offer; rewrite Eh; reflexivity]. simpl.
    match goal with |- context [hint_page _ rest ?w2] => destruct (IH { position with after_id := id } w2) as (n & w' & r & E & Hn & Hout & Hpos & Hend) end.
    exists (S n), w', r. split; [exact E|]. unfold page_outcome. simpl. split_and!.
    + lia.
    + rewrite Hout. simpl. rewrite Ho1, <-app_assoc. done.
    + rewrite Hpos, last_cons. by destruct (last (take n rest)).
    + rewrite Hend. lia.
  - erewrite bind_ok; [|unfold offer; rewrite Eh; reflexivity]. simpl.
    eexists 0%nat, _, (position, Some None). split; [done|]. apply (page_outcome_none position (id :: rest) w _ (Some None)); [|by left].
    simpl. by rewrite app_nil_r.
Qed.

Lemma ordered_from_sorted p ids : ordered_from p ids = true → StronglySorted Z.lt ids ∧ ∀ x, x ∈ ids → p < x.
Proof.
  revert p. induction ids as [|x l IH]; intros p; simpl; [split; [constructor|set_solver]|].
  intros [Hx%Z.ltb_lt Hl]%andb_true_iff. destruct (IH x Hl) as [Hs Hb]. split.
  - constructor; [done|]. by apply Forall_forall.
  - intros y [->|Hy]%elem_of_cons; [done|]. pose proof (Hb y Hy). lia.
Qed.

(** A valid page ascends strictly between the cursor and the upper bound. *)
Lemma valid_page_sorted config position ids :
  valid_page config position ids = true →
  StronglySorted Z.lt ids ∧ (∀ x, x ∈ ids → after_id position < x ≤ upper position) ∧ Z.of_nat (length ids) ≤ PageSize config.
Proof.
  unfold valid_page, validOrderedIDs. intros [[Hl Ho]%andb_true_iff Hb]%andb_true_iff. to_prop.
  destruct (ordered_from_sorted _ _ Ho) as [Hs _]. split_and!; [done| |done]. intros x Hx.
  destruct ids as [|f l]; [by apply elem_of_nil in Hx|]. simpl head in Hb.
  destruct (last (f :: l)) as [z|] eqn:El; [|by apply last_None in El].
  apply negb_true_iff, orb_false_iff in Hb as [Hf Hz]. to_prop. split.
  - inversion Hs as [|? ? Hs' Hall]; subst. apply elem_of_cons in Hx as [->|Hx]; [done|].
    eapply Forall_forall in Hall; [|exact Hx]. lia.
  - pose proof (StronglySorted_last_max _ x z Hs El Hx). lia.
Qed.

(** What a pass within the bound [u] has done when it returns: the IDs it offered ascend
    between the cursor it started with and the bound, and the position it leaves is that of
    the last accepted ID, or of a traversal that is over, or was never begun. *)
Definition pass_outcome (u : Z) (position : stoppingPosition) (w w' : World) (position' : stoppingPosition) : Prop :=
  ∃ ids, w_out w' = w_out w ++ (StopResumed <$> ids) ∧ StronglySorted Z.lt ids ∧
    (∀ id, id ∈ ids → after_id position < id ≤ u) ∧
    (position' = no_position ∨ position' = {| upper := u; after_id := default (after_id position) (last ids) |} ∨ ids = [] ∧ position' = position).

Lemma pass_outcome_none u position w w' position' :
  w_out w' = w_out w → position' = no_position ∨ position' = position → pass_outcome u position w w' position'.
Proof. intros Ho Hp. exists []. simpl. rewrite app_nil_r. split_and!; [done|constructor|set_solver|tauto]. Qed.

(** Pages that follow one another ascend. *)
Lemma pass_outcome_page u position w w1 w2 position1 position2 ids :
  upper position = u → StronglySorted Z.lt ids → (∀ id, id ∈ ids → after_id position < id ≤ u) →
  w_out w1 = w_out w ++ (StopResumed <$> ids) → position1 = { position with after_id := default (after_id position) (last ids) } →
  pass_outcome u position1 w1 w2 position2 → pass_outcome u position w w2 position2.
Proof.
  intros Hu Hs Hb Ho -> (ids' & Ho' & Hs' & Hb' & Hp). exists (ids ++ ids'). rewrite fmap_app, Ho', Ho, <-app_assoc. simpl in Hb', Hp.
  destruct (last ids) as [a|] eqn:El; simpl in *.
  - assert (∀ x, x ∈ ids → x ≤ a) as Hmax by (intros x Hx; exact (StronglySorted_last_max ids x a Hs El Hx)).
    assert (a ∈ ids) as Ha by (apply last_Some in El as [k ->]; set_solver). split_and!; [done| | |].
    + apply (sorted_app _ _ a); try done. intros x Hx. by apply Hb'.
    + intros x [Hx|Hx]%elem_of_app; [by apply Hb|]. pose proof (Hb a Ha). pose proof (Hb' x Hx). lia.
    + destruct Hp as [->|[->|[-> ->]]]; [by left|right; left|right; left].
      * rewrite last_app. by destruct (last ids') eqn:E'; rewrite ?El.
      * rewrite app_nil_r, El. by subst u.
  - apply last_None in El as ->. destruct position as [up af]. simpl in *. subst. by split_and!.
Qed.

Lemma scan_pages_returns config fuel position w :
  (Z.to_nat (upper position - after_id position) < fuel)%nat →
  ∃ w' position' err, scan_pages config fuel position w = (w', Ok (Returned position' err)) ∧ pass_outcome (upper position) position w w' position'.
Proof.
  revert position w. induction fuel as [|fuel IH]; intros position w Hfuel; [lia|]. simpl.
  destruct (attempt_silent (sqlCall (source_ListStoppingCandidates (after_id position) (upper position) (PageSize config))) w) as (w1 & r & E1 & Ho1).
  { unfold sqlCall. pose proof list_silent. silent_auto; auto. }
  rewrite (bind_ok _ _ _ _ _ E1). destruct r as [ids|e].
  2: { eexists _, _, _. split; [reflexivity|]. apply pass_outcome_none; auto. }
  destruct (valid_page config position ids) eqn:Ev; simpl.
  2: { eexists _, _, _. split; [reflexivity|]. apply pass_outcome_none; auto. }
  case_bool_decide as Hids. { eexists _, _, _. split; [reflexivity|]. apply pass_outcome_none; auto. }
  destruct (valid_page_sorted _ _ _ Ev) as (Hs & Hb & _).
  destruct (hint_page_spec position ids w1) as (n & w2 & stop & E2 & Hn & Hout & Hpos & Hend). rewrite (bind_ok _ _ _ _ _ E2).
  assert (upper stop.1 = upper position) as Hup by (by rewrite Hpos).
  assert (∀ w3 position3, pass_outcome (upper stop.1) stop.1 w2 w3 position3 → pass_outcome (upper position) position w w3 position3) as Hpage.
  { intros w3 position3. rewrite Hup. apply (pass_outcome_page _ _ _ _ _ _ _ (take n ids) eq_refl).
    - by apply sorted_take.
    - intros id Hid. apply Hb. apply elem_of_take in Hid as (? & ? & _). by eapply list_elem_of_lookup_2.
    - by rewrite Hout, Ho1.
    - done. }
  destruct (stop.2) as [err|] eqn:Estop.
  { eexists _, _, _. split; [reflexivity|]. apply Hpage, pass_outcome_none; auto. }
  destruct (after_id stop.1 =? upper stop.1) eqn:Eu.
  { eexists _, _, _. split; [reflexivity|]. apply Hpage, pass_outcome_none; auto. }
  rewrite (proj1 Hend eq_refl), firstn_all in Hpos.
  destruct (last ids) as [z|] eqn:El; [|by apply last_None in El]. simpl in Hpos.
  assert (z ∈ ids) as Hz by (apply last_Some in El as [k ->]; set_solver). pose proof (Hb z Hz) as Hzb.
  destruct (IH stop.1 w2) as (w3 & position3 & err & E3 & Ho3); [rewrite Hpos; simpl; lia|].
  exists w3, position3, err. split; [exact E3|by apply Hpage].
Qed.

(** The upper bound of a pass: the one its traversal has, or the one the source answers. *)
Definition pass_bound (position : stoppingPosition) (w : World) : Z :=
  if upper position =? 0 then match (attempt (sqlCall source_StoppingUpperID) w).2 with Ok (Ok u) => u | _ => 0 end
  else upper position.

(** C34: A discovery pass always returns, whatever the source answers: even one that ignores
    the bounds it is given, repeats IDs, or answers pages out of order or too long.  The pass
    turns at most once more than there are identifiers between its cursor and its upper
    bound, because a page that does not ascend strictly within them ends it.  When it
    returns, the IDs it offered to the queue ascend between the cursor and the bound, and the
    cursor it leaves is the last accepted one unless the traversal is over: a refused or
    unqueried ID is never skipped. *)
Theorem stop_scan_terminates config position w fuel :
  (Z.to_nat (pass_bound position w - after_id position) < fuel)%nat →
  ∃ w' position' err, scan config fuel position w = (w', Ok (Returned position' err)) ∧
    pass_outcome (pass_bound position w) position w w' position'.
Proof.
  unfold scan, pass_bound. destruct (Z.eqb_spec (upper position) 0) as [Hu|Hu]; [|by apply scan_pages_returns].
  destruct (attempt_silent (sqlCall source_StoppingUpperID) w) as (w1 & r & E1 & Ho1).
  { unfold sqlCall. pose proof upper_silent. silent_auto; auto. }
  rewrite (bind_ok _ _ _ _ _ E1), E1. simpl. destruct r as [u|e]; intros Hfuel.
  2: { eexists _, _, _. split; [reflexivity|]. apply pass_outcome_none; auto. }
  destruct (u <? 0). { eexists _, _, _. split; [reflexivity|]. apply pass_outcome_none; auto. }
  destruct (u =? 0). { eexists _, _, _. split; [reflexivity|]. apply pass_outcome_none; auto. }
  destruct (scan_pages_returns config fuel { position with upper := u } w1) as (w' & position' & err & E & ids & Ho & Hs & Hb & Hp); [simpl; lia|].
  exists w', position', err. split; [exact E|]. exists ids. rewrite Ho, Ho1. split_and!; [done..|]. simpl in Hp.
  destruct Hp as [?|[->|[-> ->]]]; [by left|by right; left|right; left]. by destruct position.
Qed.
End passes_proofs.

Section repository_proofs.
Context `{PgLib, StopAdmission}.
#[local] Existing Instance repository_source.

(** ** Undisturbed passes *)

Definition bound (d : DB) (position : stoppingPosition) : Z :=
  if upper position =? 0 then max_id is_stopping d else upper position.

(** The stopping Instances a traversal still has to offer. *)
Definition remaining (d : DB) (position : stoppingPosition) : list Z :=
  ids_where (λ id i, is_stopping i && (after_id position <? id) && (id <=? bound d position)) (instances d).

(** After the prefix [k ++ [z]] of what remained, the rest remains. *)
Lemma remaining_after d position z k rest :
  upper position ≠ 0 → remaining d position = (k ++ [z]) ++ rest → remaining d { position with after_id := z } = rest.
Proof.
  intros Hu Hr. unfold remaining, bound in *. simpl. destruct (upper position =? 0) eqn:E; [by to_prop|].
  set (P := λ (id : Z) i, is_stopping i && (id <=? upper position)).
  assert (∀ a, ids_where (λ id i, is_stopping i && (a <? id) && (id <=? upper position)) (instances d) =
    filter (after Z.lt (Some a)) (ids_where P (instances d))) as Hf.
  { intros a. transitivity (filter (λ id, (a <? id) = true) (ids_where P (instances d))).
    - rewrite <-ids_where_filter. unfold ids_where, P. f_equal. apply list_filter_iff. intros x. rewrite !andb_true_iff. tauto.
    - apply list_filter_iff. intros x. simpl. by rewrite Z.ltb_lt. }
  rewrite Hf in *. exact (filter_after_last Z.lt _ Z.lt_irrefl _ _ _ _ _ (ids_where_sorted P (instances d)) Hr).
Qed.

(** A position a traversal can stand at. *)
Definition position_wf (position : stoppingPosition) : Prop :=
  0 ≤ after_id position ∧ (upper position = 0 ∧ after_id position = 0 ∨ after_id position ≤ upper position ∧ 0 < upper position).

Lemma calm_page config t d position :
  position_wf position → 0 < PageSize config → upper position ≠ 0 →
  calm_to t (sqlCall (ListStoppingCandidates Auto (after_id position) (upper position) (PageSize config))) d d
    (Ok (take (Z.to_nat (PageSize config)) (remaining d position))) [].
Proof.
  intros [Ha Hw] Hp Hu. unfold sqlCall. eapply calm_bind0; [apply calm_ctx_err|].
  eapply calm_bind0; [|eapply calm_bind0; [apply calm_ctx_err|apply calm_ret]].
  unfold ListStoppingCandidates. rewrite (proj2 (Z.ltb_ge _ _)), (proj2 (Z.leb_gt (upper position) 0)), (proj2 (Z.ltb_ge _ _)), (proj2 (Z.leb_gt _ _)) by lia.
  unfold remaining, bound. rewrite (proj2 (Z.eqb_neq _ _) Hu). apply calm_query.
Qed.

Lemma remaining_sorted d position : StronglySorted Z.lt (remaining d position).
Proof. apply ids_where_sorted. Qed.

Lemma remaining_range d position id : id ∈ remaining d position → after_id position < id ≤ bound d position.
Proof. intros (i & _ & Hi)%elem_of_ids_where. to_prop. done. Qed.

Lemma sorted_ordered p ids : StronglySorted Z.lt ids → (∀ x, x ∈ ids → p < x) → ordered_from p ids = true.
Proof.
  intros Hs. revert p. induction Hs as [|x l Hs IH Hf]; intros p Hb; [done|]. simpl.
  rewrite (proj2 (Z.ltb_lt p x)) by (apply Hb; by left). simpl. apply IH. by apply Forall_forall.
Qed.

Lemma valid_page_calm config d position :
  position_wf position → 0 < PageSize config → upper position ≠ 0 →
  valid_page config position (take (Z.to_nat (PageSize config)) (remaining d position)) = true.
Proof.
  intros [Ha Hw] Hp Hu. set (ids := take _ _).
  assert (∀ x, x ∈ ids → after_id position < x ≤ upper position) as Hr.
  { intros x Hx. apply elem_of_take in Hx as (? & Hx & _). apply list_elem_of_lookup_2, remaining_range in Hx.
    unfold bound in Hx. by rewrite (proj2 (Z.eqb_neq _ _) Hu) in Hx. }
  unfold valid_page, validOrderedIDs. rewrite (proj2 (Z.leb_le _ _)), sorted_ordered.
  - simpl. destruct (head ids) as [f|] eqn:Eh; [|done]. destruct (last ids) as [z|] eqn:El; [|done].
    assert (f ∈ ids) as Hf by (destruct ids; simplify_eq/=; by left).
    assert (z ∈ ids) as Hz by (apply last_Some in El as [k ->]; set_solver).
    pose proof (Hr f Hf). pose proof (Hr z Hz). apply negb_true_iff, orb_false_iff. rewrite Z.leb_gt, Z.ltb_ge. lia.
  - apply sorted_take, remaining_sorted.
  - intros x Hx. pose proof (Hr x Hx). lia.
  - unfold ids. rewrite length_take. lia.
Qed.

(** The IDs of a page in an undisturbed world: all accepted, or a refused one. *)
Lemma hint_page_calm t d position ids w :
  undisturbed t d w →
  ∃ n w' stop, hint_page position ids w = (w', Ok stop) ∧ page_outcome position ids n w w' stop ∧ undisturbed t d w' ∧
    (stop.2 = None ∨ stop.2 = Some None ∧ ∃ at_ id, stop_hint at_ id = false).
Proof.
  intros Hu. destruct (hint_page_spec position ids w) as (n & w' & stop & E & Ho). exists n, w', stop. split_and!; [done|done| |].
  all: clear Ho; revert position w Hu E; induction ids as [|id rest IH]; intros position w Hu E; simpl in E;
    [injection E as <- <-; by auto|];
    destruct (undisturbed_run t d ctx_err w _ Hu (calm_ctx_err t d)) as (w1 & E1 & Hu1 & _);
    rewrite (bind_ok _ _ _ _ _ E1) in E;
    destruct (stop_hint (w_at w1) id) eqn:Eh;
    (erewrite bind_ok in E; [|unfold offer; rewrite Eh; reflexivity]); simpl in E.
  - eapply IH; [|exact E]. by destruct Hu1.
  - injection E as <- <-. by destruct Hu1.
  - eapply IH; [|exact E]. by destruct Hu1.
  - injection E as <- <-. right. eauto.
Qed.

(** From [position] the accepted [ids] are a prefix of what remained; the traversal is
    over with all of them, or the queue refused an ID and the rest remains. *)
Definition traversed (d : DB) (position : stoppingPosition) (ids : list Z) (position' : stoppingPosition) : Prop :=
  position' = no_position ∧ remaining d position = ids ∨
  position' ≠ no_position ∧ position_wf position' ∧ remaining d position = ids ++ remaining d position' ∧
    ∃ at_ id, stop_hint at_ id = false.

Lemma traversed_page d position n ids' position' :
  upper position ≠ 0 →
  let ids := take n (remaining d position) in
  let position1 := { position with after_id := default (after_id position) (last ids) } in
  traversed d position1 ids' position' → traversed d position (ids ++ ids') position'.
Proof.
  intros Hu ids position1 Ht.
  assert (remaining d position = ids ++ remaining d position1) as Hr.
  { unfold position1. destruct (last ids) as [z|] eqn:El; simpl.
    - apply last_Some in El as [k Hk].
      assert (remaining d position = (k ++ [z]) ++ drop n (remaining d position)) as Hs by (rewrite <-Hk; unfold ids; by rewrite take_drop).
      by rewrite (remaining_after _ _ _ _ _ Hu Hs), Hk.
    - apply last_None in El. rewrite El. simpl. by destruct position. }
  destruct Ht as [[-> Ht]|(Hne & Hw & Ht & Hf)]; [left|right]; rewrite Hr, Ht; [done|]. split_and!; try done. by rewrite app_assoc.
Qed.

Lemma scan_pages_calm config t d fuel position w :
  undisturbed t d w → position_wf position → upper position ≠ 0 → 0 < PageSize config → (length (remaining d position) < fuel)%nat →
  ∃ w' position' ids, scan_pages config fuel position w = (w', Ok (Returned position' None)) ∧ undisturbed t d w' ∧
    w_out w' = w_out w ++ (StopResumed <$> ids) ∧ traversed d position ids position'.
Proof.
  revert position w. induction fuel as [|fuel IH]; intros position w Hw Hp Hu Hs Hf; [lia|]. simpl.
  destruct (undisturbed_run t d _ w _ Hw (calm_page config t d position Hp Hs Hu)) as (w1 & E1 & Hw1 & Ho1). rewrite (bind_ok _ _ _ _ _ E1).
  rewrite valid_page_calm by done. simpl. case_bool_decide as Hids.
  { eexists _, _, []. split; [reflexivity|]. split_and!; [done|by rewrite app_nil_r|]. left. split; [done|].
    destruct (remaining d position); [done|]. destruct (Z.to_nat (PageSize config)) eqn:E; [lia|done]. }
  set (ids := take _ (remaining d position)) in *.
  destruct (hint_page_calm t d position ids w1 Hw1) as (n & w2 & stop & E2 & (Hn & Hout & Hpos & Hend) & Hw2 & Hstop). rewrite (bind_ok _ _ _ _ _ E2).
  assert (take n ids = take (n `min` Z.to_nat (PageSize config)) (remaining d position)) as Htake by (unfold ids; by rewrite take_take).
  rewrite Htake in Hout, Hpos. set (m := (n `min` _)%nat) in *.
  assert (∀ ids' position', traversed d stop.1 ids' position' → traversed d position (take m (remaining d position) ++ ids') position') as Hpage.
  { intros ids' position'. rewrite Hpos. by apply traversed_page. }
  assert (upper stop.1 = upper position) as Hus by (by rewrite Hpos).
  assert (∀ z, last (take m (remaining d position)) = Some z → after_id position < z ≤ upper position) as Hlast.
  { intros z [k Hk]%last_Some. assert (z ∈ take m (remaining d position)) as Hz by (rewrite Hk; set_solver).
    apply elem_of_take in Hz as (? & Hz & _). apply list_elem_of_lookup_2, remaining_range in Hz. unfold bound in Hz.
    by rewrite (proj2 (Z.eqb_neq _ _) Hu) in Hz. }
  assert (position_wf stop.1) as Hpw.
  { destruct Hp as [Ha Hb]. rewrite Hpos. unfold position_wf. simpl. destruct (last (take m _)) as [z|] eqn:El; simpl; [|done].
    pose proof (Hlast z eq_refl). lia. }
  destruct Hstop as [Hstop|[Hstop Hfull]]; rewrite Hstop.
  2: { eexists _, _, (take m (remaining d position)). split; [reflexivity|]. split_and!; [done|by rewrite Hout, Ho1|].
       rewrite <-(app_nil_r (take m _)). apply Hpage. right. split_and!; try done. intros E. rewrite E in Hus. done. }
  assert (m = Z.to_nat (PageSize config) `min` length (remaining d position))%nat as Hm.
  { unfold m. rewrite (proj1 Hend Hstop). unfold ids. rewrite length_take. lia. }
  destruct (last (take m (remaining d position))) as [z|] eqn:El.
  2: { apply last_None in El. unfold ids in Hids. apply (f_equal length) in El. rewrite length_take in El.
       destruct (remaining d position) as [|y l] eqn:Er; [by rewrite take_nil in Hids|]. simpl in *. lia. }
  simpl in Hpos. pose proof (Hlast z eq_refl) as Hz. destruct (after_id stop.1 =? upper stop.1) eqn:Eu.
  - to_prop. eexists _, _, (take m (remaining d position)). split; [reflexivity|]. split_and!; [done|by rewrite Hout, Ho1|].
    rewrite <-(app_nil_r (take m _)). apply Hpage. left. split; [done|].
    destruct (remaining d stop.1) as [|y l] eqn:Er; [done|]. exfalso.
    assert (y ∈ remaining d stop.1) as Hy by (rewrite Er; by left). apply remaining_range in Hy. unfold bound in Hy.
    rewrite Hus, (proj2 (Z.eqb_neq _ _) Hu) in *. lia.
  - assert (length (remaining d stop.1) < fuel)%nat as Hlen.
    { apply last_Some in El as [k Hk].
      assert (remaining d position = (k ++ [z]) ++ drop m (remaining d position)) as Hsplit by (rewrite <-Hk; by rewrite take_drop).
      rewrite Hpos, (remaining_after _ _ _ _ _ Hu Hsplit). rewrite Hsplit, !length_app in Hf. simpl in Hf. lia. }
    destruct (IH stop.1 w2 Hw2 Hpw ltac:(congruence) Hs Hlen) as (w3 & position3 & ids3 & E3 & Hw3 & Ho3 & Ht3).
    exists w3, position3, (take m (remaining d position) ++ ids3). split_and!; [exact E3|done| |by apply Hpage].
    by rewrite Ho3, Hout, Ho1, fmap_app, <-app_assoc.
Qed.

Lemma max_id_nonneg d : db_inv d → 0 ≤ max_id is_stopping d.
Proof.
  intros HI. unfold max_id. destruct (last _) as [z|] eqn:El; [|done]. apply last_Some in El as [k Hk].
  assert (z ∈ ids_where (λ _ i, is_stopping i) (instances d)) as Hz by (rewrite Hk; set_solver).
  apply elem_of_ids_where in Hz as (i & Hi & _). pose proof (inv_inst_id _ HI _ _ Hi). lia.
Qed.

(** A discovery pass offers exactly what remains, and a later pass goes on where
    it ended.  In an undisturbed pass the accepted IDs are a prefix of the stopping
    Instances that remained at the start, in order and each once; the pass is over
    with all of them, or the queue refused an ID and precisely the others remain for
    the next pass. *)
Theorem stop_scan_resumes config t d position w fuel :
  db_inv d → undisturbed t d w → position_wf position → 0 < PageSize config → (length (remaining d position) < fuel)%nat →
  ∃ w' position' ids, scan config fuel position w = (w', Ok (Returned position' None)) ∧
    w_out w' = w_out w ++ (StopResumed <$> ids) ∧ traversed d position ids position'.
Proof.
  intros HI Hw Hp Hs Hf. unfold scan. destruct (upper position =? 0) eqn:Eu; to_prop.
  2: { destruct (scan_pages_calm config t d fuel position w) as (w' & position' & ids & E & _ & Ho & Ht); eauto 10. }
  destruct Hp as [Ha [[_ Hz]|Hb]]; [|lia].
  assert (calm_to t (sqlCall (StoppingUpperID Auto)) d d (Ok (max_id is_stopping d)) []) as Hm by (apply calm_sqlCall, calm_query).
  destruct (undisturbed_run t d _ w _ Hw Hm) as (w1 & E1 & Hw1 & Ho1). rewrite (bind_ok _ _ _ _ _ E1).
  pose proof (max_id_nonneg d HI) as Hnn. rewrite (proj2 (Z.ltb_ge _ 0) Hnn).
  assert (bound d position = max_id is_stopping d) as Hbd by (unfold bound; by rewrite Eu).
  destruct (max_id is_stopping d =? 0) eqn:Em; to_prop.
  - exists w1, position, []. split; [done|]. rewrite app_nil_r. split; [done|]. left. split.
    + destruct position. simpl in *. by subst.
    + destruct (remaining d position) as [|y l] eqn:Er; [done|]. exfalso.
      assert (y ∈ remaining d position) as Hy by (rewrite Er; by left). apply remaining_range in Hy. lia.
  - set (position1 := { position with upper := max_id is_stopping d }).
    assert (remaining d position1 = remaining d position) as Hrem.
    { unfold remaining. rewrite Hbd. unfold bound, position1. simpl. by rewrite (proj2 (Z.eqb_neq _ _) Em). }
    destruct (scan_pages_calm config t d fuel position1 w1) as (w' & position' & ids & E & _ & Ho & Ht); try done.
    + unfold position_wf, position1. simpl. lia.
    + by rewrite Hrem.
    + exists w', position', ids. split_and!; [exact E|by rewrite Ho, Ho1|]. unfold traversed in *. by rewrite Hrem in Ht.
Qed.
End repository_proofs.

(** ** An instance: a queue that accepts everything *)

Definition accept_all : StopAdmission := λ _ _, true.
Definition demo_scan : RecoveryConfig := {| PageSize := 1; RunTimeout := Second; SQLTimeout := Second |}.

Lemma stop_scan_resumes_witness :
  ∃ w' position' ids, scan (H := repository_source) (H0 := accept_all) demo_scan 2 no_position (start demo_stopping (calm 360)) = (w', Ok (Returned position' None)) ∧
    w_out w' = [] ++ (StopResumed <$> ids) ∧ traversed (H0 := accept_all) demo_stopping no_position ids position'.
Proof.
  apply (stop_scan_resumes demo_scan 360 demo_stopping no_position (start demo_stopping (calm 360)) 2 (H0 := accept_all));
    [apply demo_stopping_inv|split; reflexivity|split; [reflexivity|left; split; reflexivity]|reflexivity|vm_compute; lia].
Defined.

(** A source that answers the same ID again and again, whatever it is asked. *)
Definition stuck_source : stoppingSource := {| source_StoppingUpperID := mret 3; source_ListStoppingCandidates := λ _ _ _, mret [1] |}.
Lemma stuck_laws : SourceLaws (H := stuck_source).
Proof. by constructor. Qed.

(** Witness: the pass over it returns, after the first page. *)
Lemma stop_scan_terminates_witness :
  ∃ w' position' err, scan (H := stuck_source) (H0 := accept_all) demo_scan 4 no_position (start demo_stopping (calm 360)) = (w', Ok (Returned position' err)) ∧
    pass_outcome 3 no_position (start demo_stopping (calm 360)) w' position'.
Proof.
  apply (stop_scan_terminates (H := stuck_source) (H0 := stuck_laws) (H1 := accept_all) demo_scan no_position (start demo_stopping (calm 360)) 4).
  vm_compute. lia.
Defined.

Example stuck_pass : (scan (H := stuck_source) (H0 := accept_all) demo_scan 4 no_position (start demo_stopping (calm 360))).2 =
  Ok (Returned {| upper := 3; after_id := 1 |} (Some [ErrInvalidState])).
Proof. by vm_compute. Qed.
