(* ===== verification/CheckRecovery.v ===== *)
(** * Discovery of running Instances

    apps/job/internal/instancecheck/recovery.go: one elected node walks the older
    RUNNING Instances in order of start time and hands them to the check queue,
    waiting for room.  The eligibility bound is fixed for a traversal; a pass that
    ends early leaves the last admitted candidate as its cursor. *)

From S2P Require Import Prelude GoLib Tx Model TaskRepo InstanceRepo StopController Checker Logic Protocol RepoRules System Runs.
From S2P Require Import Progress Scans Loops.

Open Scope Z_scope.

Record RecoveryConfig := { PageSize : Z; RunTimeout : Duration; SQLTimeout : Duration; MinAge : Duration }.
Record Recovery := { rc_config : RecoveryConfig; rc_active : bool }.
Record runningPosition := { eligibleBefore : Time; after_candidate : option RunningCandidate }.
Definition no_position : runningPosition := {| eligibleBefore := 0; after_candidate := None |}.

Definition NewRecovery (config : RecoveryConfig) : Result Recovery :=
  if (PageSize config <=? 0) || (RunTimeout config <=? 0) || (SQLTimeout config <=? 0) || (MinAge config <=? 0)
  then Fail [Text "running recovery settings must be positive"]
  else Ok {| rc_config := config; rc_active := false |}.

(** [recoveryAdmission]: waiting for room and handing over an ID end with an error when
    the pass's budget is used up or the queue closes. *)
Class RecoveryAdmission := {
  wait_capacity : nat → option Error;
  hint_recovery : nat → Z → option Error;
}.

(** [candidate.StartedAt], [candidate.ID] against the previous candidate or cursor. *)
Definition follows (previous : option RunningCandidate) (c : RunningCandidate) : bool :=
  match previous with
  | None => true
  | Some p => negb (before (rn_StartedAt c) (rn_StartedAt p) || (rn_StartedAt c =? rn_StartedAt p) && (rn_ID c <=? rn_ID p))
  end.

Fixpoint valid_from (eligible : Time) (previous : option RunningCandidate) (l : list RunningCandidate) : bool :=
  match l with
  | [] => true
  | c :: rest =>
      negb ((rn_ID c <=? 0) || is_zero (rn_StartedAt c) || negb (before (rn_StartedAt c) eligible)) &&
      follows previous c && valid_from eligible (Some c) rest
  end.

Definition validRunningCandidates (candidates : list RunningCandidate) (position : runningPosition) (limit : Z) : bool :=
  (Z.of_nat (length candidates) <=? limit) && valid_from (eligibleBefore position) (after_candidate position) candidates.

Definition recoveryQuery {A} (call : M A) : M A := ctx_err;; a ← call; ctx_err;; mret a.

Section recovery.
Context `{PgLib, RecoveryAdmission}.

Definition WaitRecoveryCapacity : M (option Error) := λ w, ({ w with w_at := S (w_at w) }, Ok (wait_capacity (w_at w))).

Definition HintRecovery (id : Z) : M (option Error) := λ w,
  let err := hint_recovery (w_at w) id in
  ({ w with w_at := S (w_at w); w_out := w_out w ++ (match err with None => [Hinted id] | Some _ => [] end) }, Ok err).

Fixpoint hint_page (position : runningPosition) (candidates : list RunningCandidate) : M (runningPosition * option Error) :=
  match candidates with
  | [] => mret (position, None)
  | c :: rest =>
      err ← HintRecovery (rn_ID c);
      match err with
      | Some e => mret (position, Some e)
      | None => hint_page { position with after_candidate := Some c } rest
      end
  end.

(** The eligibility bound of the traversal, fixed by its first pass. *)
Definition fix_bound (config : RecoveryConfig) (position : runningPosition) : M runningPosition :=
  if is_zero (eligibleBefore position) then
    now ← recoveryQuery (DatabaseTime Auto);
    if is_zero now then fail [ErrInvalidCompletion] else mret { position with eligibleBefore := now - MinAge config }
  else mret position.

Fixpoint scan (config : RecoveryConfig) (fuel : nat) (position : runningPosition) : M (Pass runningPosition) :=
  match fuel with
  | O => mret OutOfFuel
  | S fuel =>
      room ← WaitRecoveryCapacity;
      match room with
      | Some e => mret (Returned position (Some e))
      | None =>
          fixed ← attempt (fix_bound config position);
          match fixed with
          | Fail e => mret (Returned position (Some e))
          | Ok position =>
              page ← attempt (recoveryQuery (ListRunningCandidates Auto (eligibleBefore position) (after_candidate position) (PageSize config)));
              match page with
              | Fail e => mret (Returned position (Some e))
              | Ok candidates =>
                  if negb (validRunningCandidates candidates position (PageSize config))
                  then mret (Returned position (Some [ErrInvalidCompletion]))
                  else if bool_decide (candidates = []) then mret (Returned no_position None)
                  else
                    stop ← hint_page position candidates;
                    match stop.2 with
                    | Some e => mret (Returned stop.1 (Some e))
                    | None => scan config fuel stop.1
                    end
              end
          end
      end
  end.

(** The passes of one term.  [None]: still waiting. *)
Fixpoint passes (config : RecoveryConfig) (fuel : nat) (position : runningPosition) (wakes : list Wake) : M (option Error) :=
  live ← attempt ctx_err;
  match live with
  | Fail e => mret (Some e)
  | Ok _ =>
      pass ← scan config fuel position;
      let position := match pass with Returned p _ => p | OutOfFuel => position end in
      match wakes with
      | [] => mret None
      | TermEnded :: _ => mret (Some [ContextErr])
      | TicksClosed :: _ =>
          ended ← attempt ctx_err;
          mret (Some (match ended with Fail e => e | Ok _ => [Text "running recovery tick stream closed"] end))
      | Tick :: rest => passes config fuel position rest
      end
  end.

Definition Run (r : Recovery) (fuel : nat) (wakes : list Wake) : M (option Error) :=
  if rc_active r then mret (Some [Text "running recovery is already running"])
  else passes (rc_config r) fuel no_position wakes.
End recovery.

Section passes_proofs.
Context `{PgLib, RecoveryAdmission}.

(** ** Pages *)

Lemma running_candidates_sorted d eligible : StronglySorted (key_lt rn_key) (running_candidates d eligible).
Proof.
  apply (candidates_sorted (instances d) (running_candidate eligible) rn_key). intros r c. unfold running_candidate.
  destruct (i_started_at r.2); [|done]. destruct (_ && _); [|done]. by intros [= <-].
Qed.

(** What a traversal still has to hand over when it stands at [position]. *)
Definition bound (config : RecoveryConfig) (t : Time) (position : runningPosition) : Time :=
  if is_zero (eligibleBefore position) then t - MinAge config else eligibleBefore position.
Definition remaining_from (d : DB) (eligible : Time) (cursor : option RunningCandidate) : list RunningCandidate :=
  filter (λ c, after_key (rn_key <$> cursor) (rn_key c)) (running_candidates d eligible).
Definition remaining (config : RecoveryConfig) (t : Time) (d : DB) (position : runningPosition) : list RunningCandidate :=
  remaining_from d (bound config t position) (after_candidate position).

Lemma remaining_alt d eligible cursor :
  remaining_from d eligible cursor = filter (after (key_lt rn_key) cursor) (running_candidates d eligible).
Proof. apply list_filter_iff. intros c. by destruct cursor. Qed.

Lemma running_remaining_after d eligible cursor k z rest :
  remaining_from d eligible cursor = (k ++ [z]) ++ rest → remaining_from d eligible (Some z) = rest.
Proof.
  rewrite !remaining_alt. apply filter_after_last; [apply _|apply key_lt_irrefl|apply running_candidates_sorted].
Qed.

Lemma remaining_take d eligible cursor n :
  let ids := take n (remaining_from d eligible cursor) in
  remaining_from d eligible cursor = ids ++ remaining_from d eligible (if last ids is Some z then Some z else cursor).
Proof.
  intros ids. destruct (last ids) as [z|] eqn:El.
  - apply last_Some in El as [k Hk].
    assert (remaining_from d eligible cursor = (k ++ [z]) ++ drop n (remaining_from d eligible cursor)) as Hs by (rewrite <-Hk; unfold ids; by rewrite take_drop).
    by rewrite (running_remaining_after _ _ _ _ _ _ Hs), Hk.
  - apply last_None in El. by rewrite El.
Qed.

(** A candidate the queries return and the loop accepts. *)
Definition candidate_ok (eligible : Time) (c : RunningCandidate) : Prop :=
  0 < rn_ID c ∧ rn_StartedAt c ≠ 0 ∧ rn_StartedAt c < eligible.

Lemma remaining_ok d eligible cursor c : db_inv d → c ∈ remaining_from d eligible cursor → candidate_ok eligible c.
Proof.
  intros HI [_ Hc]%list_elem_of_filter. apply elem_of_order_by, list_elem_of_omap in Hc as ([id i] & Hr & Hf).
  apply elem_of_rows in Hr. unfold running_candidate in Hf. simpl in Hf. destruct (i_started_at i) as [s|] eqn:Es; [|done].
  destruct (_ && _) eqn:E; [|done]. injection Hf as <-. to_prop. pose proof (inv_inst_id _ HI _ _ Hr) as Hid.
  pose proof (iw_times _ (inv_inst _ HI _ _ Hr)) as Ht. unfold inst_times_wf in Ht. rewrite Es in Ht.
  destruct (i_deadline_at i); [|done]. destruct Ht as [Hs _]. unfold candidate_ok. simpl. lia.
Qed.

Lemma valid_sorted eligible cursor l :
  StronglySorted (key_lt rn_key) l → (∀ c, c ∈ l → candidate_ok eligible c) →
  (∀ c, c ∈ l → after (key_lt rn_key) cursor c) → valid_from eligible cursor l = true.
Proof.
  intros Hs. revert cursor. induction Hs as [|c l Hs IH Hf]; intros cursor Hok Ha; [done|]. simpl.
  destruct (Hok c ltac:(by left)) as (Hid & Hst & Hb). unfold is_zero, before.
  rewrite (proj2 (Z.leb_gt _ _) Hid), (proj2 (Z.eqb_neq _ _) Hst), (proj2 (Z.ltb_lt _ _) Hb). simpl.
  rewrite IH; [|set_solver|by apply Forall_forall]. rewrite andb_true_r.
  pose proof (Ha c ltac:(by left)) as Hc. destruct cursor as [p|]; [|done]. simpl in *. unfold key_lt, lexlt in Hc. simpl in Hc.
  unfold before. apply negb_true_iff, orb_false_iff. rewrite Z.ltb_ge. split; [lia|]. apply andb_false_iff. rewrite Z.eqb_neq, Z.leb_gt. lia.
Qed.

(** ** One page *)

Lemma running_hint_page_calm t d position l w :
  undisturbed t d w →
  ∃ n w' stop, hint_page position l w = (w', Ok stop) ∧ undisturbed t d w' ∧ (n ≤ length l)%nat ∧
    w_out w' = w_out w ++ (Hinted <$> (rn_ID <$> take n l)) ∧
    stop.1 = { position with after_candidate := if last (take n l) is Some z then Some z else after_candidate position } ∧
    (stop.2 = None ↔ n = length l).
Proof.
  revert position w. induction l as [|c l IH]; intros position w Hw; simpl.
  { exists 0%nat, w, (position, None). split; [done|]. simpl. rewrite app_nil_r. split_and!; try done. by destruct position. }
  destruct (hint_recovery (w_at w) (rn_ID c)) as [e|] eqn:Eh; (erewrite bind_ok; [|unfold HintRecovery; rewrite Eh; reflexivity]); simpl.
  - eexists 0%nat, _, (position, Some e). split; [reflexivity|]. simpl. split_and!; try done; try lia. by destruct position.
  - match goal with |- context [hint_page ?p1 l ?w1] => destruct (IH p1 w1) as (n & w' & stop & E & Hw' & Hn & Ho & Hp & Hend) end.
    { by destruct Hw. }
    exists (S n), w', stop. split; [exact E|]. simpl. split_and!; [done|lia| | |].
    + rewrite Ho. simpl. by rewrite <-app_assoc.
    + rewrite Hp, last_cons. by destruct (last (take n l)).
    + rewrite Hend. lia.
Qed.

Lemma calm_recoveryQuery {A} t (m : M A) d a : calm_to t m d d (Ok a) [] → calm_to t (recoveryQuery m) d d (Ok a) [].
Proof.
  intros Hm. unfold recoveryQuery. eapply calm_bind0; [apply calm_ctx_err|]. eapply calm_bind0; [exact Hm|].
  eapply calm_bind0; [apply calm_ctx_err|apply calm_ret].
Qed.

Definition position_wf (position : runningPosition) : Prop :=
  match after_candidate position with None => True | Some c => candidate_ok (eligibleBefore position) c ∧ eligibleBefore position ≠ 0 end.

Lemma calm_fix_bound config t d position :
  t ≠ 0 → calm_to t (fix_bound config position) d d (Ok { position with eligibleBefore := bound config t position }) [].
Proof.
  intros Ht. unfold fix_bound, bound. destruct (is_zero (eligibleBefore position)) eqn:Ez.
  - eapply calm_bind0; [apply calm_recoveryQuery, calm_DatabaseTime|]. unfold is_zero. rewrite (proj2 (Z.eqb_neq _ _) Ht). apply calm_ret.
  - destruct position. apply calm_ret.
Qed.

Lemma running_calm_page config t d position :
  position_wf position → 0 < PageSize config → eligibleBefore position ≠ 0 →
  calm_to t (recoveryQuery (ListRunningCandidates Auto (eligibleBefore position) (after_candidate position) (PageSize config))) d d
    (Ok (take (Z.to_nat (PageSize config)) (remaining_from d (eligibleBefore position) (after_candidate position)))) [].
Proof.
  intros Hw Hp He. apply calm_recoveryQuery. unfold ListRunningCandidates, is_zero.
  rewrite (proj2 (Z.eqb_neq _ _) He), (proj2 (Z.leb_gt _ _) Hp). simpl. unfold position_wf in Hw.
  destruct (after_candidate position) as [c|]; [|apply calm_query]. destruct Hw as [(Hid & Hs & Hb) _]. unfold before.
  rewrite (proj2 (Z.leb_gt _ _) Hid), (proj2 (Z.eqb_neq _ _) Hs), (proj2 (Z.ltb_lt _ _) Hb). apply calm_query.
Qed.

(** From [position] the candidates handed over are a prefix of what remained: all of
    it when the pass ended well, and otherwise exactly the rest remains. *)
Definition traversed (config : RecoveryConfig) (t : Time) (d : DB) (position : runningPosition) (l : list RunningCandidate)
    (position' : runningPosition) (err : option Error) : Prop :=
  match err with
  | None => position' = no_position ∧ remaining config t d position = l
  | Some _ => position_wf position' ∧ remaining config t d position = l ++ remaining config t d position'
  end.

Lemma bound_fixed config t position : eligibleBefore position ≠ 0 → bound config t position = eligibleBefore position.
Proof. intros He. unfold bound, is_zero. by rewrite (proj2 (Z.eqb_neq _ _) He). Qed.

Lemma page_valid config d position :
  db_inv d → 0 < PageSize config →
  validRunningCandidates (take (Z.to_nat (PageSize config)) (remaining_from d (eligibleBefore position) (after_candidate position)))
    position (PageSize config) = true.
Proof.
  intros HI Hs. unfold validRunningCandidates. rewrite (proj2 (Z.leb_le _ _)) by (rewrite length_take; lia). simpl.
  set (page := take _ _).
  assert (∀ c, c ∈ page → c ∈ remaining_from d (eligibleBefore position) (after_candidate position)) as Hin.
  { intros c (? & Hc & _)%elem_of_take. by eapply list_elem_of_lookup_2. }
  apply valid_sorted.
  - unfold page. rewrite remaining_alt.
    pose proof (StronglySorted_filter (key_lt rn_key) (after (key_lt rn_key) (after_candidate position)) _
      (running_candidates_sorted d (eligibleBefore position))) as Hso.
    rewrite <-(take_drop (Z.to_nat (PageSize config)) (filter _ _)) in Hso. by eapply StronglySorted_app_inv_l.
  - intros c Hc. by eapply remaining_ok, Hin.
  - intros c Hc%Hin. rewrite remaining_alt in Hc. by apply list_elem_of_filter in Hc as [? _].
Qed.

(** The position once its bound is fixed. *)
Lemma fixed_position config t d position :
  t ≠ MinAge config → position_wf position →
  let fixed := { position with eligibleBefore := bound config t position } in
  eligibleBefore fixed ≠ 0 ∧ position_wf fixed ∧
  remaining_from d (eligibleBefore fixed) (after_candidate fixed) = remaining config t d position.
Proof.
  intros Hm Hp fixed. assert (eligibleBefore fixed ≠ 0) as He.
  { unfold fixed, bound, is_zero. simpl. destruct (eligibleBefore position =? 0) eqn:E; to_prop; lia. }
  split_and!; [done| |done]. unfold position_wf in *. unfold fixed. simpl. destruct (after_candidate position) as [c|]; [|done].
  destruct Hp as [Hc Hne]. unfold bound, is_zero. by rewrite (proj2 (Z.eqb_neq _ _) Hne).
Qed.

(** What is left after a prefix of a page. *)
Lemma page_rest config t d fixed n position' :
  db_inv d → eligibleBefore fixed ≠ 0 → position_wf fixed →
  let R := remaining_from d (eligibleBefore fixed) (after_candidate fixed) in
  position' = { fixed with after_candidate := if last (take n R) is Some z then Some z else after_candidate fixed } →
  position_wf position' ∧ R = take n R ++ remaining config t d position'.
Proof.
  intros HI He Hpf R ->. split.
  - unfold position_wf. simpl. destruct (last (take n R)) as [z|] eqn:El; [|exact Hpf]. split; [|exact He].
    apply last_Some in El as [k Hk]. apply (remaining_ok d _ (after_candidate fixed)); [done|].
    assert (z ∈ take n R) as (? & Hz & _)%elem_of_take by (rewrite Hk; set_solver). by eapply list_elem_of_lookup_2.
  - unfold remaining. rewrite bound_fixed by done. apply (remaining_take d (eligibleBefore fixed) (after_candidate fixed) n).
Qed.

(** A discovery pass of running Instances hands over exactly what remains, and a
    later pass goes on where it ended.  In an undisturbed pass, whatever the queue
    answers, the Instances handed over are a prefix of the older running Instances
    that remained, in order of start time and each once; a pass that ends without an
    error has handed over all of them, and one that the queue or its budget ended
    leaves a position from which precisely the others remain. *)
Theorem running_scan_resumes config t d position w fuel :
  db_inv d → undisturbed t d w → t ≠ 0 → t ≠ MinAge config → position_wf position → 0 < PageSize config →
  (length (remaining config t d position) < fuel)%nat →
  ∃ w' position' err l, scan config fuel position w = (w', Ok (Returned position' err)) ∧
    w_out w' = w_out w ++ (Hinted <$> (rn_ID <$> l)) ∧ traversed config t d position l position' err.
Proof.
  intros HI Hw Ht Hm Hp Hs. revert position w Hw Hp. induction fuel as [|fuel IH]; intros position w Hw Hp Hf; [lia|]. simpl.
  erewrite bind_ok; [|unfold WaitRecoveryCapacity; reflexivity].
  set (w1 := { w with w_at := S (w_at w) }). assert (undisturbed t d w1) as Hw1 by (by destruct Hw).
  destruct (wait_capacity (w_at w)) as [e|].
  { exists w1, position, (Some e), []. simpl. rewrite app_nil_r. split_and!; done. }
  destruct (undisturbed_run t d _ w1 _ Hw1 (calm_fix_bound config t d position Ht)) as (w2 & E2 & Hw2 & Ho2). rewrite (bind_ok _ _ _ _ _ E2).
  destruct (fixed_position config t d position Hm Hp) as (He & Hpf & Hfr). set (fixed := { position with eligibleBefore := _ }) in *.
  destruct (undisturbed_run t d _ w2 _ Hw2 (running_calm_page config t d fixed Hpf Hs He)) as (w3 & E3 & Hw3 & Ho3). rewrite (bind_ok _ _ _ _ _ E3).
  assert (w_out w3 = w_out w) as Hout3 by (by rewrite Ho3, Ho2).
  pose proof (page_valid config d fixed HI Hs) as Hv. rewrite Hfr in *. set (R := remaining config t d position) in *.
  set (page := take (Z.to_nat (PageSize config)) R) in *.
  rewrite Hv. simpl. case_bool_decide as Hnil.
  { exists w3, no_position, None, []. simpl. rewrite app_nil_r. split_and!; try done. fold R. unfold page in Hnil.
    destruct R; [done|]. destruct (Z.to_nat (PageSize config)) eqn:E; [lia|done]. }
  destruct (running_hint_page_calm t d fixed page w3 Hw3) as (n & w4 & stop & E4 & Hw4 & Hn & Ho4 & Hpos & Hend). rewrite (bind_ok _ _ _ _ _ E4).
  set (m := (n `min` Z.to_nat (PageSize config))%nat).
  assert (take n page = take m R) as Htake by (unfold page, m; by rewrite take_take). rewrite Htake in Ho4, Hpos.
  destruct (page_rest config t d fixed m stop.1 HI He Hpf) as [Hps Hsplit]; rewrite Hfr in *; [done|]. fold R in Hsplit.
  destruct (stop.2) as [e|] eqn:Estop.
  { exists w4, stop.1, (Some e), (take m R). split_and!; [done|by rewrite Ho4, Hout3|]. by split. }
  assert (m = length (take m R) ∧ 0 < m)%nat as [Hlen Hpos0].
  { rewrite <-Htake, (proj1 Hend eq_refl), firstn_all. destruct page as [|c l] eqn:Ep; [done|].
    unfold m. rewrite (proj1 Hend eq_refl), <-Ep. unfold page. rewrite length_take.
    assert (length page = length (c :: l)) as El by (by rewrite Ep). unfold page in El. rewrite length_take in El. simpl in El. lia. }
  destruct (IH stop.1 w4 Hw4 Hps) as (w5 & position5 & err & l5 & E5 & Ho5 & Ht5).
  { rewrite Hsplit, length_app in Hf. lia. }
  exists w5, position5, err, (take m R ++ l5). split_and!; [exact E5|by rewrite Ho5, Ho4, Hout3, !fmap_app, <-app_assoc|].
  unfold traversed in *. fold R. destruct err as [e|].
  - destruct Ht5 as [? Hr5]. split; [done|]. by rewrite Hsplit, Hr5, <-app_assoc at 1.
  - destruct Ht5 as [-> Hr5]. split; [done|]. by rewrite Hsplit, Hr5 at 1.
Qed.
End passes_proofs.

(** ** An instance: a queue with room *)

Definition with_room : RecoveryAdmission := {| wait_capacity := λ _, None; hint_recovery := λ _ _, None |}.
Definition demo_scan : RecoveryConfig := {| PageSize := 2; RunTimeout := Second; SQLTimeout := Second; MinAge := 50 |}.

Lemma running_demo_inv : db_inv demo_running.
Proof. apply reachable_db_inv, demo_running_reachable. Qed.

Lemma running_scan_resumes_witness :
  ∃ w' position' err l, scan (H0 := with_room) demo_scan 2 no_position (start demo_running (calm 400)) = (w', Ok (Returned position' err)) ∧
    w_out w' = [] ++ (Hinted <$> (rn_ID <$> l)) ∧ traversed demo_scan 400 demo_running no_position l position' err.
Proof.
  apply (running_scan_resumes demo_scan 400 demo_running no_position (start demo_running (calm 400)) 2 (H0 := with_room));
    [apply running_demo_inv|split; reflexivity|discriminate|discriminate|exact I|reflexivity|vm_compute; lia].
Defined.
