(* ===== verification/SettleRuntime.v ===== *)
(** * The settlement runtime

    apps/job/internal/taskrecovery/runtime.go: every node walks the attempts whose
    result stayed unknown past the observation period, page by page, and settles
    them in batches of at most sixteen.  A traversal keeps its scan time and cutoff;
    its cursor advances over processed candidates only.  The second part proves
    that a calm traversal settles all of its candidates. *)

From S2P Require Import Prelude GoLib Tx Model TaskRepo InstanceRepo Settler Loops.
From S2P Require Import Logic Protocol Dispatcher Registration RepoRules System Runs.
From S2P Require Import Progress Snapshot Scans.

Open Scope Z_scope.

Definition DefaultScanInterval : Duration := 10 * Second.
Definition DefaultPageSize : Z := 128.
Definition DefaultRunTimeout : Duration := 5 * Second.

Record Config := {
  ScanInterval : Duration; PageSize : Z; RunTimeout : Duration; OperationTimeout : Duration; ObservationPeriod : Duration;
}.

Record Runtime := { rt_config : Config; rt_started : bool; rt_stopped : bool; rt_canceled : bool; rt_done : bool }.

Record traversal := { scanNow : Time; cutoff : Time; cursor : option UnboundCursor }.
Definition no_traversal : traversal := {| scanNow := 0; cutoff := 0; cursor := None |}.

Definition NewRuntime (config : Config) : Result Runtime :=
  if (ScanInterval config <=? 0) || (PageSize config <=? 0) || (RunTimeout config <=? 0) || (OperationTimeout config <=? 0) ||
     (ObservationPeriod config <=? 0)
  then Fail [Text "unbound recovery settings must be positive"]
  else if MaxInt64 `quot` 6 * 5 <? ScanInterval config then Fail [Text "unbound recovery interval is too large for jitter"]
  else Ok {| rt_config := config; rt_started := false; rt_stopped := false; rt_canceled := false; rt_done := false |}.

Definition Start (r : Runtime) : Result Runtime :=
  if rt_started r || rt_stopped r then Fail [Text "unbound recovery has already started or stopped"]
  else Ok { r with rt_started := true }.

Definition Stop (r : Runtime) : Runtime :=
  if rt_stopped r then r
  else { r with rt_stopped := true; rt_canceled := true; rt_done := rt_done r || negb (rt_started r) }.

(** The pause before the next run, with the draw [k] of [rand.Int64N]. *)
Definition pause (config : Config) (k : Z) : Duration :=
  let base := ScanInterval config in
  let jitter := base `quot` 5 in
  base - jitter + k `mod` (2 * jitter + 1).

Definition follows (previous : option UnboundCursor) (c : UnboundCandidate) : bool :=
  match previous with
  | None => true
  | Some p =>
      negb (before (uc_AttemptRegisteredAt c) (ucur_AttemptRegisteredAt p) ||
            (uc_AttemptRegisteredAt c =? ucur_AttemptRegisteredAt p) && (uc_TaskID c <=? ucur_TaskID p))
  end.

Definition cursor_of (c : UnboundCandidate) : UnboundCursor :=
  {| ucur_AttemptRegisteredAt := uc_AttemptRegisteredAt c; ucur_TaskID := uc_TaskID c |}.

Fixpoint valid_from (limit : Time) (previous : option UnboundCursor) (l : list UnboundCandidate) : bool :=
  match l with
  | [] => true
  | c :: rest =>
      negb ((uc_TaskID c <=? 0) || (uc_InstanceID c <=? 0) || (uc_AttemptNo c <=? 0) || is_zero (uc_AttemptRegisteredAt c) ||
            is_after (uc_AttemptRegisteredAt c) limit) &&
      follows previous c && valid_from limit (Some (cursor_of c)) rest
  end.

Definition validUnboundPage (page : list UnboundCandidate) (state : traversal) (limit : Z) : bool :=
  (Z.of_nat (length page) <=? limit) && valid_from (cutoff state) (cursor state) page.

Section runtime.
Context `{UuidLib, PgLib}.

(** The batches of one page, [n] the number of candidates not yet looked at; [Some err]
    ends the run. *)
Fixpoint settle_page (s : Settler) (n : nat) (state : traversal) (page : list UnboundCandidate)
    : M (traversal * option Error) :=
  match n, page with
  | _, [] | O, _ => mret (state, None)
  | S n, _ =>
      live ← attempt ctx_err;
      match live with
      | Fail e => mret (state, Some e)
      | Ok _ =>
          let batch := take MaxBatchSize page in
          outcome ← SettleBatch s batch;
          let '(result, err) := outcome in
          let len := Z.of_nat (length batch) in
          if (br_Processed result <? 0) || (len <? br_Processed result) || (br_Applied result <? 0) ||
             (br_Processed result <? br_Applied result) || (bool_decide (err = None) && negb (br_Processed result =? len))
          then mret (state, Some [ErrInvalidFacts])
          else
            let state :=
              match batch !! Z.to_nat (br_Processed result - 1) with
              | Some last => if 0 <? br_Processed result then { state with cursor := Some (cursor_of last) } else state
              | None => state
              end in
            match err with
            | Some e => mret (state, Some e)
            | None => settle_page s n state (drop (Z.to_nat (br_Processed result)) page)
            end
      end
  end.

Fixpoint scan_pages (config : Config) (s : Settler) (fuel : nat) (state : traversal) : M (Pass traversal) :=
  match fuel with
  | O => mret OutOfFuel
  | S fuel =>
      live ← attempt ctx_err;
      match live with
      | Fail e => mret (Returned state (Some e))
      | Ok _ =>
          read ← attempt (operation (ListUnboundCandidates Auto (scanNow state) (cutoff state) (cursor state) (PageSize config)));
          match read with
          | Fail e => mret (Returned state (Some e))
          | Ok page =>
              if negb (validUnboundPage page state (PageSize config)) then mret (Returned state (Some [ErrInvalidFacts]))
              else
                stop ← settle_page s (length page) state page;
                match stop.2 with
                | Some e => mret (Returned stop.1 (Some e))
                | None =>
                    if Z.of_nat (length page) <? PageSize config then mret (Returned no_traversal None)
                    else scan_pages config s fuel stop.1
                end
          end
      end
  end.

Definition scan (config : Config) (s : Settler) (fuel : nat) (state : traversal) : M (Pass traversal) :=
  live ← attempt ctx_err;
  match live with
  | Fail e => mret (Returned state (Some e))
  | Ok _ =>
      if is_zero (scanNow state) then
        read ← attempt (operation (DatabaseTime Auto));
        match read with
        | Fail e => mret (Returned state (Some e))
        | Ok now =>
            let limit := now - ObservationPeriod config in
            if is_zero now || is_zero limit then mret (Returned state (Some [ErrInvalidFacts]))
            else scan_pages config s fuel { state with scanNow := now; cutoff := limit }
        end
      else scan_pages config s fuel state
  end.

(** [run] forgives the error of an expired run budget. *)
Definition run (config : Config) (s : Settler) (fuel : nat) (state : traversal) : M (Pass traversal) :=
  pass ← scan config s fuel state;
  expired ← attempt ctx_err;
  mret match pass, expired with
       | Returned state (Some e), Fail _ => Returned state (if errors_is e ContextErr then None else Some e)
       | _, _ => pass
       end.

(** The goroutine's loop: runs separated by jittered pauses until the runtime's context
    is canceled.  The answer tells whether it has returned, and with which traversal. *)
Fixpoint loop (config : Config) (s : Settler) (fuel : nat) (state : traversal) (wakes : list Wake) : M (traversal * bool) :=
  live ← attempt ctx_err;
  match live with
  | Fail _ => mret (state, true)
  | Ok _ =>
      pass ← run config s fuel state;
      let state := match pass with Returned state _ => state | OutOfFuel => state end in
      live ← attempt ctx_err;
      match live, wakes with
      | Fail _, _ => mret (state, true)
      | Ok _, [] => mret (state, false)
      | Ok _, Tick :: rest => loop config s fuel state rest
      | Ok _, _ :: _ => mret (state, true)
      end
  end.
End runtime.

(** * A settlement run clears the backlog

    The runtime of apps/job/internal/taskrecovery composed with its settler and the
    Task repository: an undisturbed run settles every attempt whose result has been
    unknown for the observation period. *)

Section progress.
Context `{UuidLib, PgLib}.
Context (t : Time) (s : Settler).
Let limit : Time := t - se_observationPeriod s.
Hypothesis (Hperiod : 0 < se_observationPeriod s) (Hclock : 0 < limit).

(** An attempt whose result is unknown, with the settings its settlement uses. *)
Record settleable (d : DB) (c : UnboundCandidate) (tk : JobTask) (i : JobInstance) (attempts : Z) (interval : Duration) : Prop := {
  sl_task : tasks d !! uc_TaskID c = Some tk;
  sl_instance : instances d !! uc_InstanceID c = Some i;
  sl_parent : t_instance_id tk = uc_InstanceID c;
  sl_attempt : t_attempt_no tk = uc_AttemptNo c;
  sl_type : t_task_type tk = TaskTypeOrdinary;
  sl_status : t_status tk = TaskRunning;
  sl_unbound : t_executor_instance_id tk = None ∧ t_executor_address tk = None;
  sl_registered : t_attempt_registered_at tk = Some (uc_AttemptRegisteredAt c);
  sl_age : uc_AttemptRegisteredAt c ≤ limit ∧ uc_AttemptRegisteredAt c ≠ 0;
  sl_running : i_status i = InstanceRunning;
  sl_times : ∃ st dl, i_started_at i = Some st ∧ i_deadline_at i = Some dl ∧ st ≠ 0 ∧ st < dl ∧ t < dl;
  sl_budget : frozenBudget (project_config (i_execution_config i)) = Ok (Some (attempts, interval)) ∧ 0 < attempts ∧ 0 < interval;
  sl_ids : 0 < uc_TaskID c ∧ 0 < uc_InstanceID c ∧ 0 < uc_AttemptNo c;
}.

Definition settlement (c : UnboundCandidate) (attempts : Z) (interval : Duration) : UnknownSettlement :=
  {| us_TaskID := uc_TaskID c; us_InstanceID := uc_InstanceID c; us_ExpectedAttemptNo := uc_AttemptNo c; us_MaxAttempts := attempts;
     us_ProcessedAt := t; us_ObservationCutoff := limit; us_RetryAt := t + interval |}.

Definition target_of (c : UnboundCandidate) (tk : JobTask) (i : JobInstance) : UnboundTarget :=
  {| ut_TaskID := uc_TaskID c; ut_InstanceID := t_instance_id tk; ut_AttemptNo := t_attempt_no tk; ut_TaskType := t_task_type tk;
     ut_Status := t_status tk; ut_ExecutorInstanceID := t_executor_instance_id tk; ut_ExecutorAddress := t_executor_address tk;
     ut_AttemptRegisteredAt := t_attempt_registered_at tk; ut_InstanceStatus := i_status i; ut_StartedAt := i_started_at i;
     ut_DeadlineAt := i_deadline_at i; ut_ExecutionConfig := project_config (i_execution_config i) |}.

Lemma calm_prepare d d0 c tk i attempts interval :
  settleable d0 c tk i attempts interval →
  calm_to t (prepare s c (target_of c tk i) t) d d (Ok (Some (settlement c attempts interval))) [].
Proof.
  intros [Ht Hi Hp Ha Hty Hs [Hx Hy] Hr [Hage Hz] Hrun (st & dl & Hst & Hdl & Hst0 & Hlt & Hlive) (Hb & _ & _) _].
  unfold prepare, prepare_parent, valid_times, target_of. simpl. rewrite Hp, Ha, !Z.eqb_refl, Hty, Hs, Hx, Hy, Hr. simpl.
  unfold is_zero, is_after, before. fold limit. rewrite (proj2 (Z.eqb_neq _ _) Hz), (proj2 (Z.ltb_ge _ _) Hage). simpl.
  rewrite Hrun, Hst, Hdl, (proj2 (Z.eqb_neq _ _) Hst0), (proj2 (Z.ltb_lt _ _) Hlt). simpl. rewrite (proj2 (Z.ltb_lt _ _) Hlive). simpl.
  rewrite Hb. eapply calm_bind0; [apply calm_lift|apply calm_ret].
Qed.

Lemma calm_SettleOrdinaryUnknown d d0 c tk i attempts interval :
  settleable d0 c tk i attempts interval → tasks d !! uc_TaskID c = Some tk →
  let row := settle_row (settlement c attempts interval) tk in
  calm_to t (SettleOrdinaryUnknown Auto (settlement c attempts interval)) d (set_task (uc_TaskID c) row d)
    (Ok (Some {| st_TaskID := uc_TaskID c; st_InstanceID := uc_InstanceID c; st_AttemptNo := uc_AttemptNo c; st_Status := t_status row |})) [].
Proof.
  intros [_ Hi Hp Ha Hty Hs [Hx Hy] Hr [Hage Hz] _ _ (_ & Hat & Hin) (Hid & Hiid & Hno)] Htk row.
  unfold SettleOrdinaryUnknown. simpl. unfold is_zero, before, is_after.
  rewrite !(proj2 (Z.leb_gt _ 0)) by lia. rewrite !(proj2 (Z.eqb_neq _ 0)) by (unfold limit in *; lia).
  rewrite (proj2 (Z.ltb_lt limit t)), (proj2 (Z.ltb_lt t _)) by (unfold limit; lia). simpl.
  apply calm_transact. apply (calm_bind0 _ _ _ _ (set_task (uc_TaskID c) row d) _ (Some row)).
  - eapply calm_eq; [apply calm_exec|..]; try done; simpl; unfold update_task; rewrite Htk, Hp, Ha, Hty, Hs, Hx, Hy, Hr, !Z.eqb_refl; simpl;
      rewrite (proj2 (Z.leb_le _ _) Hage); simpl; [done|]. by rewrite lookup_insert_eq.
  - unfold row. simpl. rewrite Hp, Ha, !Z.eqb_refl. simpl. destruct (t_used_attempts tk <? attempts); simpl; apply calm_ret.
Qed.

(** ** What a settled list of candidates leaves *)

(** The listed attempts are closed, with a retry or for good; nothing else changed. *)
Record settled (d : DB) (l : list UnboundCandidate) (d' : DB) : Prop := {
  se_instances : instances d' = instances d;
  se_others : ∀ id, id ∉ (uc_TaskID <$> l) → tasks d' !! id = tasks d !! id;
  se_closed : ∀ c, c ∈ l → ∃ tk', tasks d' !! uc_TaskID c = Some tk' ∧ (t_status tk' = TaskRetryWaiting ∨ t_status tk' = TaskFailed) ∧
    t_attempt_no tk' = uc_AttemptNo c ∧ t_result_summary tk' = Some unknownResultSummary;
}.

Lemma settled_nil d : settled d [] d.
Proof. constructor; [done|done|]. set_solver. Qed.

Lemma settled_step d l d' c tk i attempts interval :
  settled d l d' → settleable d c tk i attempts interval → uc_TaskID c ∉ (uc_TaskID <$> l) →
  settled d (l ++ [c]) (set_task (uc_TaskID c) (settle_row (settlement c attempts interval) tk) d').
Proof.
  intros [Hi Ho Hc] Hs Hnew. constructor; simpl.
  - done.
  - intros id Hid. rewrite fmap_app in Hid. rewrite lookup_insert_ne by set_solver. apply Ho. set_solver.
  - intros c' [Hc'|Hc']%elem_of_app.
    + rewrite lookup_insert_ne; [by apply Hc|]. intros E. apply Hnew. rewrite E. by apply list_elem_of_fmap_2.
    + apply list_elem_of_singleton in Hc' as ->. rewrite lookup_insert_eq. eexists. split; [done|]. simpl.
      split_and!; [|by rewrite (sl_attempt _ _ _ _ _ _ Hs)|done]. destruct (_ <? _); auto.
Qed.

(** The hints a settled list leaves for the completion checks. *)
Definition hints (l : list UnboundCandidate) : list Output := if se_hint s then Hinted <$> (uc_InstanceID <$> l) else [].

Lemma calm_hint id d : calm_to t (hintInstance s id) d d (Ok tt) (if se_hint s then [Hinted id] else []).
Proof. unfold hintInstance. destruct (se_hint s); [apply calm_emit|apply calm_ret]. Qed.

Lemma calm_settle_one d0 l d c tk i attempts interval r :
  settled d0 l d → settleable d0 c tk i attempts interval → uc_TaskID c ∉ (uc_TaskID <$> l) →
  ∃ d', calm_to t (settle_one s c (settlement c attempts interval) r) d d'
      (Ok ({| br_Processed := br_Processed r + 1; br_Applied := br_Applied r + 1 |}, None)) (hints [c]) ∧ settled d0 (l ++ [c]) d'.
Proof.
  intros Hset Hs Hnew. eexists. split; [|by eapply settled_step].
  assert (tasks d !! uc_TaskID c = Some tk) as Htk by (rewrite (se_others _ _ _ Hset _ Hnew); apply (sl_task _ _ _ _ _ _ Hs)).
  unfold settle_one. eapply calm_bind0; [by eapply calm_attempt, calm_SettleOrdinaryUnknown|].
  eapply calm_bind0; [apply calm_attempt, calm_ctx_err|]. simpl. unfold settled_matches. simpl. rewrite !Z.eqb_refl.
  replace (bool_decide _ || bool_decide _) with true by (by destruct (t_used_attempts tk <? attempts)). simpl.
  unfold hints. simpl. rewrite <-(app_nil_r (if se_hint s then _ else _)). eapply calm_bind; [apply calm_hint|apply calm_ret].
Qed.

Definition settleable_in (d : DB) (c : UnboundCandidate) : Prop := ∃ tk i attempts interval, settleable d c tk i attempts interval.

Lemma hints_app l k : hints (l ++ k) = hints l ++ hints k.
Proof. unfold hints. destruct (se_hint s); [by rewrite !fmap_app|done]. Qed.

Lemma settled_trans d l d1 k d2 :
  NoDup (uc_TaskID <$> l ++ k) → settled d l d1 → settled d1 k d2 → settled d (l ++ k) d2.
Proof.
  rewrite fmap_app. intros Hnd [Hi Ho Hc] [Hi' Ho' Hc']. constructor.
  - congruence.
  - intros id Hid. rewrite fmap_app in Hid. rewrite Ho', Ho by set_solver. done.
  - intros c [Hin|Hin]%elem_of_app; [|by apply Hc']. rewrite Ho'; [by apply Hc|].
    apply NoDup_app in Hnd as (_ & Hd & _). apply Hd. by apply list_elem_of_fmap_2.
Qed.

Lemma settleable_settled d l d' c : settled d l d' → uc_TaskID c ∉ (uc_TaskID <$> l) → settleable_in d c → settleable_in d' c.
Proof.
  intros [Hi Ho _] Hnew (tk & i & a & iv & [Ht ? ? ? ? ? ? ? ? ? ? ? ?]). exists tk, i, a, iv.
  constructor; try done; [by rewrite Ho|by rewrite Hi].
Qed.

Lemma calm_settle_loop d0 byID cs l d r :
  settled d0 l d → NoDup (uc_TaskID <$> l ++ cs) →
  (∀ c, c ∈ cs → ∃ tk i attempts interval, settleable d0 c tk i attempts interval ∧ byID !! uc_TaskID c = Some (target_of c tk i)) →
  ∃ d', calm_to t (settle_loop s byID t cs r) d d'
      (Ok ({| br_Processed := br_Processed r + Z.of_nat (length cs); br_Applied := br_Applied r + Z.of_nat (length cs) |}, None)) (hints cs) ∧
    settled d0 (l ++ cs) d'.
Proof.
  revert l d r. induction cs as [|c cs IH]; intros l d r Hset Hnd Hall.
  { exists d. rewrite app_nil_r. split; [|done]. simpl. rewrite !Z.add_0_r. destruct r. unfold hints. destruct (se_hint s); apply calm_ret. }
  destruct (Hall c ltac:(by left)) as (tk & i & a & iv & Hs & Hby).
  assert (uc_TaskID c ∉ (uc_TaskID <$> l)) as Hnew.
  { rewrite fmap_app in Hnd. apply NoDup_app in Hnd as (_ & Hd & _). intros Hin. apply (Hd _ Hin). by left. }
  destruct (calm_settle_one d0 l d c tk i a iv r Hset Hs Hnew) as (d1 & H1 & Hset1).
  destruct (IH (l ++ [c]) d1 {| br_Processed := br_Processed r + 1; br_Applied := br_Applied r + 1 |} Hset1) as (d2 & H2 & Hset2).
  { by rewrite <-app_assoc. }
  { intros c' Hc'. apply Hall. by right. }
  exists d2. rewrite <-app_assoc in Hset2. split; [|done].
  simpl. eapply calm_bind0; [apply calm_attempt, calm_ctx_err|]. rewrite Hby.
  eapply calm_bind0; [by eapply calm_attempt, calm_prepare|]. simpl.
  eapply calm_bind0; [apply calm_attempt, calm_ctx_err|]. change (hints (c :: cs)) with (hints ([c] ++ cs)). rewrite hints_app.
  eapply calm_bind; [exact H1|]. simpl. eapply calm_eq; [exact H2|done| |done]. simpl. do 2 f_equal. f_equal; lia.
Qed.

(** ** Reading the targets of a batch *)

Lemma index_targets_spec ids targets acc :
  (∀ x, x ∈ targets → ut_TaskID x ∈ ids) → NoDup (ut_TaskID <$> targets) → (∀ x, x ∈ targets → acc !! ut_TaskID x = None) →
  ∃ m, index_targets ids targets acc = Some m ∧ (∀ x, x ∈ targets → m !! ut_TaskID x = Some x) ∧
    ∀ k, k ∉ (ut_TaskID <$> targets) → m !! k = acc !! k.
Proof.
  revert acc. induction targets as [|x l IH]; intros acc Hids Hnd Hacc; simpl.
  { exists acc. split_and!; [done|set_solver|done]. }
  apply NoDup_cons in Hnd as [Hx Hnd]. rewrite !bool_decide_eq_true_2 by (apply Hids || apply Hacc; by left). simpl.
  destruct (IH (<[ut_TaskID x := x]> acc)) as (m & Hm & Hl & Hk).
  - intros y Hy. apply Hids. by right.
  - done.
  - intros y Hy. rewrite lookup_insert_ne; [apply Hacc; by right|]. intros E. apply Hx. rewrite E. by apply list_elem_of_fmap_2.
  - exists m. split_and!; [done| |].
    + intros y [->|Hy]%elem_of_cons; [|by apply Hl]. rewrite Hk by done. by rewrite lookup_insert_eq.
    + intros k Hnk. rewrite Hk, lookup_insert_ne by set_solver. done.
Qed.

Lemma unbound_target_id d r x : unbound_target d r = Some x → ut_TaskID x = r.1.
Proof. destruct r as [id tk]. unfold unbound_target. destruct (instances d !! _); [|done]. by intros [= <-]. Qed.

Lemma NoDup_omap_targets d (l : list (Z * JobTask)) : NoDup l.*1 → NoDup (ut_TaskID <$> omap (unbound_target d) l).
Proof.
  induction l as [|r l IH]; simpl; [constructor|]. intros [Hr Hl]%NoDup_cons.
  destruct (unbound_target d r) as [x|] eqn:E; [|by apply IH]. simpl. constructor; [|by apply IH].
  intros (x' & E' & (r' & Hr' & Ex)%list_elem_of_omap)%list_elem_of_fmap. apply Hr.
  rewrite <-(unbound_target_id _ _ _ E), E', (unbound_target_id _ _ _ Ex). by apply list_elem_of_fmap_2.
Qed.

Lemma calm_settle_reads d cs :
  cs ≠ [] → (length cs ≤ MaxBatchSize)%nat → (∀ c, c ∈ cs → settleable_in d c) →
  ∃ byID, calm_to t (settle_reads cs) d d (Ok (t, byID)) [] ∧
    ∀ c, c ∈ cs → ∃ tk i attempts interval, settleable d c tk i attempts interval ∧ byID !! uc_TaskID c = Some (target_of c tk i).
Proof.
  intros Hne Hlen Hall. set (ids := uc_TaskID <$> cs).
  set (targets := omap (unbound_target d) (filter (λ r, r.1 ∈ ids) (rows (tasks d)))).
  destruct (index_targets_spec ids targets ∅) as (byID & Hidx & Hby & _).
  - intros x (r & Hr & Hx)%list_elem_of_omap. apply list_elem_of_filter in Hr as [Hr _]. by rewrite (unbound_target_id _ _ _ Hx).
  - apply NoDup_omap_targets. eapply sublist_NoDup; [apply (NoDup_rows (tasks d))|]. apply fmap_sublist, sublist_filter.
  - intros x _. apply lookup_empty.
  - exists byID. split.
    + unfold settle_reads, operation. eapply calm_bind0; [apply calm_ctx_err|].
      eapply calm_bind0; [eapply calm_bind0; [apply calm_DatabaseTime|eapply calm_bind0; [apply calm_ctx_err|apply calm_ret]]|].
      unfold is_zero. rewrite (proj2 (Z.eqb_neq t 0)) by (unfold limit in *; lia).
      eapply calm_bind0; [eapply calm_bind0; [|eapply calm_bind0; [apply calm_ctx_err|apply calm_ret]]|].
      * unfold FindUnboundTargets. rewrite (proj2 (Z.ltb_ge _ _)) by (rewrite length_fmap; unfold MaxBatchSize in Hlen; lia).
        assert (existsb (λ id, id <=? 0) (uc_TaskID <$> cs) = false) as ->.
        { apply not_true_iff_false. intros (x & Hx & Hle)%existsb_exists. apply list_elem_of_In, list_elem_of_fmap in Hx as (c & -> & Hc).
          destruct (Hall c Hc) as (? & ? & ? & ? & Hs). pose proof (sl_ids _ _ _ _ _ _ Hs). to_prop. lia. }
        rewrite bool_decide_eq_false_2 by (by destruct cs). exact (calm_query t Auto _ d).
      * simpl. fold ids. fold targets. rewrite Hidx. apply calm_ret.
    + intros c Hc. destruct (Hall c Hc) as (tk & i & a & iv & Hs). exists tk, i, a, iv. split; [done|].
      assert (target_of c tk i ∈ targets) as Hin; [|by apply (Hby _ Hin)].
      apply list_elem_of_omap. exists (uc_TaskID c, tk). split.
      * apply list_elem_of_filter. split; [by apply (list_elem_of_fmap_2 uc_TaskID)|]. apply elem_of_rows, (sl_task _ _ _ _ _ _ Hs).
      * unfold unbound_target, target_of. by rewrite (sl_parent _ _ _ _ _ _ Hs), (sl_instance _ _ _ _ _ _ Hs).
Qed.

(** ** Batches and pages *)

Lemma calm_SettleBatch d cs :
  cs ≠ [] → (length cs ≤ MaxBatchSize)%nat → NoDup (uc_TaskID <$> cs) → (∀ c, c ∈ cs → settleable_in d c) →
  ∃ d', calm_to t (SettleBatch s cs) d d'
      (Ok ({| br_Processed := Z.of_nat (length cs); br_Applied := Z.of_nat (length cs) |}, None)) (hints cs) ∧ settled d cs d'.
Proof.
  intros Hne Hlen Hnd Hall. destruct (calm_settle_reads d cs Hne Hlen Hall) as (byID & Hr & Hby).
  destruct (calm_settle_loop d byID cs [] d empty_batch (settled_nil d) Hnd Hby) as (d' & Hl & Hset). exists d'. split; [|done].
  unfold SettleBatch. rewrite (proj2 (Nat.ltb_ge _ _)), bool_decide_eq_false_2 by done.
  assert (forallb valid_candidate cs = true) as ->.
  { apply forallb_forall. intros c Hc%list_elem_of_In. destruct (Hall c Hc) as (? & ? & ? & ? & Hs).
    pose proof (sl_ids _ _ _ _ _ _ Hs) as (H1 & H2 & H3). pose proof (sl_age _ _ _ _ _ _ Hs) as [_ H4].
    unfold valid_candidate, is_zero. rewrite !(proj2 (Z.leb_gt _ 0)), (proj2 (Z.eqb_neq _ 0)) by lia. done. }
  simpl. eapply calm_bind0; [by apply calm_attempt|]. simpl. exact Hl.
Qed.

Lemma last_lookup {A} (l : list A) : l !! (length l - 1)%nat = last l.
Proof. by rewrite last_lookup, Nat.sub_1_r. Qed.

Lemma settle_page_step n state page :
  page ≠ [] →
  settle_page s (S n) state page =
    (live ← attempt ctx_err;
     match live with
     | Fail e => mret (state, Some e)
     | Ok _ =>
         outcome ← SettleBatch s (take MaxBatchSize page);
         let '(result, err) := outcome in
         let len := Z.of_nat (length (take MaxBatchSize page)) in
         if (br_Processed result <? 0) || (len <? br_Processed result) || (br_Applied result <? 0) ||
            (br_Processed result <? br_Applied result) || (bool_decide (err = None) && negb (br_Processed result =? len))
         then mret (state, Some [ErrInvalidFacts])
         else
           let state :=
             match take MaxBatchSize page !! Z.to_nat (br_Processed result - 1) with
             | Some last => if 0 <? br_Processed result then { state with cursor := Some (cursor_of last) } else state
             | None => state
             end in
           match err with
           | Some e => mret (state, Some e)
           | None => settle_page s n state (drop (Z.to_nat (br_Processed result)) page)
           end
     end).
Proof. by destruct page. Qed.

Lemma calm_settle_page n d state page :
  (length page ≤ n)%nat → NoDup (uc_TaskID <$> page) → (∀ c, c ∈ page → settleable_in d c) →
  ∃ d', calm_to t (settle_page s n state page) d d'
      (Ok ({ state with cursor := if last page is Some z then Some (cursor_of z) else cursor state }, None)) (hints page) ∧ settled d page d'.
Proof.
  revert d state page. induction n as [|n IH]; intros d state page Hn Hnd Hall.
  { destruct page; [|simpl in Hn; lia]. exists d. split; [|apply settled_nil]. simpl. unfold hints. destruct state, (se_hint s); apply calm_ret. }
  destruct page as [|c0 rest] eqn:Ep.
  { exists d. split; [|apply settled_nil]. simpl. unfold hints. destruct state, (se_hint s); apply calm_ret. }
  rewrite <-Ep in *. assert (page ≠ []) as Hne by (by rewrite Ep). clear Ep.
  set (batch := take MaxBatchSize page).
  assert (length batch = MaxBatchSize `min` length page)%nat as Hlb by (unfold batch; by rewrite length_take).
  assert (0 < length page)%nat as Hpos by (destruct page; [done|simpl; lia]).
  assert (batch ≠ []) as Hbne by (intros E; rewrite E in Hlb; cbn [length] in Hlb; unfold MaxBatchSize in Hlb; lia).
  assert (NoDup (uc_TaskID <$> batch ++ drop MaxBatchSize page)) as Hnd' by (unfold batch; by rewrite take_drop).
  pose proof Hnd' as Hsplit. rewrite fmap_app in Hsplit. apply NoDup_app in Hsplit as (Hnd1 & Hdisj & Hnd2).
  destruct (calm_SettleBatch d batch Hbne) as (d1 & H1 & Hset1); [lia|done| |].
  { intros c (? & Hc & _)%elem_of_take. apply Hall. by eapply list_elem_of_lookup_2. }
  assert (∃ z, last batch = Some z) as (z & Hz) by (destruct (last batch) eqn:E; [eauto|by apply last_None in E]).
  destruct (IH d1 { state with cursor := Some (cursor_of z) } (drop MaxBatchSize page)) as (d2 & H2 & Hset2).
  { rewrite length_drop. unfold MaxBatchSize. lia. }
  { done. }
  { intros c Hc. eapply settleable_settled; [exact Hset1| |].
    - intros Hin. apply (Hdisj _ Hin). by apply list_elem_of_fmap_2.
    - apply Hall. rewrite <-(take_drop MaxBatchSize page). apply elem_of_app. by right. }
  exists d2. split; [|rewrite <-(take_drop MaxBatchSize page); by eapply settled_trans].
  rewrite settle_page_step by done. fold batch.
  eapply calm_bind0; [apply calm_attempt, calm_ctx_err|].
  replace (hints page) with (hints batch ++ hints (drop MaxBatchSize page)) by (rewrite <-hints_app; unfold batch; by rewrite take_drop).
  eapply calm_bind; [exact H1|].
  cbn [br_Processed br_Applied].
  rewrite (proj2 (Z.ltb_ge (Z.of_nat (length batch)) 0)), Z.ltb_irrefl, Z.eqb_refl, bool_decide_eq_true_2 by lia || done. cbn [negb andb orb].
  replace (Z.to_nat (Z.of_nat (length batch) - 1)) with (length batch - 1)%nat by lia. rewrite last_lookup, Hz.
  rewrite (proj2 (Z.ltb_lt 0 _)) by (unfold MaxBatchSize in Hlb; lia). rewrite Nat2Z.id.
  assert (drop (length batch) page = drop MaxBatchSize page) as ->.
  { rewrite Hlb. destruct (decide (MaxBatchSize ≤ length page)%nat); [by rewrite Nat.min_l|]. rewrite Nat.min_r, !drop_ge by lia. done. }
  eapply calm_eq; [exact H2|done| |done]. simpl.
  assert (last page = last (batch ++ drop MaxBatchSize page)) as -> by (unfold batch; by rewrite take_drop).
  rewrite last_app, Hz. by destruct (last (drop MaxBatchSize page)).
Qed.

(** ** The backlog *)

Definition backlog (d : DB) : list UnboundCandidate := unbound_candidates d t limit.

Lemma backlog_id r c d : unbound_candidate d t limit r = Some c → (uc_key c).2 = r.1.
Proof.
  destruct r as [id tk]. unfold unbound_candidate. destruct (t_attempt_registered_at tk); [|done]. destruct (instances d !! _); [|done].
  destruct (_ && _); [|done]. by intros [= <-].
Qed.

Lemma backlog_sorted d : StronglySorted (key_lt uc_key) (backlog d).
Proof. apply (candidates_sorted (tasks d) (unbound_candidate d t limit) uc_key). intros r c. apply backlog_id. Qed.

Lemma backlog_NoDup d : NoDup (uc_TaskID <$> backlog d).
Proof. apply (NoDup_candidates (tasks d) (unbound_candidate d t limit) uc_key). intros r c. apply backlog_id. Qed.

Lemma elem_of_backlog d c : c ∈ backlog d ↔ ∃ tk, tasks d !! uc_TaskID c = Some tk ∧ unbound_candidate d t limit (uc_TaskID c, tk) = Some c.
Proof.
  unfold backlog, unbound_candidates. rewrite elem_of_order_by, list_elem_of_omap. split.
  - intros ([id tk] & Hr%elem_of_rows & Hc). pose proof (backlog_id _ _ _ Hc) as Hid. simpl in Hid. subst id. eauto.
  - intros (tk & Ht & Hc). exists (uc_TaskID c, tk). by rewrite elem_of_rows.
Qed.

Lemma backlog_settled d l d' :
  settled d l d' → backlog d' = filter (λ c, uc_TaskID c ∉ (uc_TaskID <$> l)) (backlog d).
Proof.
  intros [Hi Ho Hc]. eapply (StronglySorted_unique_strong (key_lt uc_key)).
  - intros x y _ _ Hxy Hyx. destruct (key_lt_irrefl uc_key x). by etrans.
  - apply backlog_sorted.
  - apply StronglySorted_filter, backlog_sorted.
  - apply NoDup_Permutation.
    + apply (NoDup_fmap_1 uc_TaskID), backlog_NoDup.
    + apply NoDup_filter, (NoDup_fmap_1 uc_TaskID), backlog_NoDup.
    + intros c. rewrite list_elem_of_filter, !elem_of_backlog. unfold unbound_candidate. rewrite Hi. split.
      * intros (tk & Htk & Hu). assert (uc_TaskID c ∉ (uc_TaskID <$> l)) as Hn; [|split; [done|]; rewrite <-Ho by done; eauto].
        intros (c' & Hid & Hin)%list_elem_of_fmap. destruct (Hc c' Hin) as (tk' & Htk' & Hst & _). rewrite <-Hid in Htk'.
        assert (tk' = tk) as -> by congruence. destruct (t_attempt_registered_at tk); [|done]. destruct (instances d !! _); [|done].
        rewrite (bool_decide_eq_false_2 (t_status tk = TaskRunning)) in Hu by (destruct Hst; congruence). done.
      * intros (Hn & tk & Htk & Hu). exists tk. by rewrite Ho.
Qed.

Lemma filter_done (done_ rest : list UnboundCandidate) :
  NoDup (uc_TaskID <$> done_ ++ rest) → filter (λ c, uc_TaskID c ∉ (uc_TaskID <$> done_)) (done_ ++ rest) = rest.
Proof.
  rewrite fmap_app. intros (_ & Hd & _)%NoDup_app. rewrite filter_app, filter_none, filter_all; [done| |].
  - intros c Hc Hin. apply (Hd _ Hin). by apply list_elem_of_fmap_2.
  - intros c Hc Hn. apply Hn. by apply list_elem_of_fmap_2.
Qed.

Lemma sorted_app_r {A} (R : relation A) (l k : list A) : StronglySorted R (l ++ k) → StronglySorted R k.
Proof. induction l as [|x l IH]; [done|]. intros Hs. inversion Hs; subst. by apply IH. Qed.

Lemma cursor_of_key c : ucur_key (cursor_of c) = uc_key c.
Proof. done. Qed.

(** Where a traversal stands when [done_] has been processed. *)
Definition at_cursor (state : traversal) (done_ : list UnboundCandidate) : Prop :=
  scanNow state = t ∧ cutoff state = limit ∧ cursor state = (if last done_ is Some z then Some (cursor_of z) else None).

Lemma rest_after d done_ rest state c :
  backlog d = done_ ++ rest → at_cursor state done_ → c ∈ rest → after_key (ucur_key <$> cursor state) (uc_key c).
Proof.
  intros Hb (_ & _ & Hcur) Hc. rewrite Hcur. destruct (last done_) as [z|] eqn:El; [|done].
  apply last_Some in El as [k ->]. pose proof (backlog_sorted d) as Hs. rewrite Hb in Hs.
  apply (StronglySorted_split (key_lt uc_key) _ _ z c Hs); [set_solver|done].
Qed.

Lemma calm_list config d0 done_ rest d state :
  0 < PageSize config → (∀ c, c ∈ done_ → 0 < uc_TaskID c ∧ uc_AttemptRegisteredAt c ≠ 0 ∧ uc_AttemptRegisteredAt c ≤ limit) →
  backlog d0 = done_ ++ rest → settled d0 done_ d → at_cursor state done_ →
  calm_to t (operation (ListUnboundCandidates Auto (scanNow state) (cutoff state) (cursor state) (PageSize config))) d d
    (Ok (take (Z.to_nat (PageSize config)) rest)) [].
Proof.
  intros Hp Hok Hb Hset Hat. pose proof Hat as (Hn & Hl & Hcur). unfold operation.
  eapply calm_bind0; [|eapply calm_bind0; [apply calm_ctx_err|apply calm_ret]].
  unfold ListUnboundCandidates, is_zero, before, is_after. rewrite Hn, Hl.
  rewrite (proj2 (Z.eqb_neq t 0)), (proj2 (Z.eqb_neq limit 0)), (proj2 (Z.ltb_lt limit t)), (proj2 (Z.ltb_ge (PageSize config) 1)) by (unfold limit in *; lia).
  assert (match cursor state with
     | Some c => (ucur_TaskID c <=? 0) || (ucur_AttemptRegisteredAt c =? 0) || (limit <? ucur_AttemptRegisteredAt c) | None => false end = false) as ->.
  { rewrite Hcur. destruct (last done_) as [z|] eqn:El; [|done]. apply last_Some in El as [k Hk].
    destruct (Hok z) as (H1 & H2 & H3); [rewrite Hk; set_solver|]. simpl.
    by rewrite (proj2 (Z.leb_gt _ _) H1), (proj2 (Z.eqb_neq _ _) H2), (proj2 (Z.ltb_ge _ _) H3). }
  simpl. eapply calm_eq; [apply calm_query|done| |done]. simpl. do 2 f_equal.
  change (unbound_candidates d t limit) with (backlog d). rewrite (backlog_settled _ _ _ Hset), Hb, filter_done.
  - apply filter_all. intros c Hc. by eapply rest_after.
  - rewrite <-Hb. apply backlog_NoDup.
Qed.

(** What registration guarantees of an attempt it made. *)
Definition registrable (d : DB) (c : UnboundCandidate) : Prop :=
  uc_AttemptRegisteredAt c ≠ 0 ∧
  ∃ i config, instances d !! uc_InstanceID c = Some i ∧ decodeConfig (i_execution_config i) = Ok config ∧ sharded config = false.

Lemma backlog_settleable d c : db_inv d → c ∈ backlog d → registrable d c → settleable_in d c.
Proof.
  intros HI (tk & Htk & Hu)%elem_of_backlog (Hz & i & config & Hi & Hd & Hsh). unfold unbound_candidate in Hu.
  destruct (t_attempt_registered_at tk) as [at_|] eqn:Eat; [|done].
  destruct (instances d !! t_instance_id tk) as [i'|] eqn:Ei; [|done].
  match type of Hu with (if ?b then _ else _) = _ => destruct b eqn:E; [|done] end.
  injection Hu as Hc. assert (t_instance_id tk = uc_InstanceID c) as Hpar by (by rewrite <-Hc).
  assert (i' = i) as -> by congruence. unfold unbound_parent in E. apply andb_true_iff in E as [E Hparent].
  apply andb_true_iff in Hparent as [Hrun Htimes]. to_prop.
  destruct (i_started_at i) as [st|] eqn:Est; [|done]. destruct (i_deadline_at i) as [dl|] eqn:Edl; [|done]. to_prop.
  pose proof (inv_task _ HI _ _ Htk) as Hw. pose proof (inv_inst _ HI _ _ Hi) as Hiw.
  destruct (iw_config _ Hiw) as [c' Hc']. rewrite Hc' in Hd.
  destruct (decodeConfig_ordinary _ _ Hd Hsh) as (_ & _ & _ & _ & Hr & Hiv & _).
  destruct (decode_frozen_Value config c' (project_config (Value c')) Hd Hsh) as (fc & Hfd & Hfs & Hfm & Hfr); [by right|].
  exists tk, i, (MaxRetries config + 1), (RetryIntervalSeconds config * Second). constructor; try done.
  - by rewrite <-Hc.
  - apply (tw_type _ Hw).
  - by rewrite Eat, <-Hc.
  - split; [rewrite <-Hc; simpl; lia|done].
  - exists st, dl. pose proof (iw_times _ Hiw) as Ht. unfold inst_times_wf in Ht. rewrite Est, Edl in Ht. destruct Ht as [? _].
    split_and!; try done; lia.
  - rewrite Hc'. split_and!; [|lia|unfold Second; lia]. unfold frozenBudget. by rewrite Hfd, Hfs, Hfm, Hfr.
  - pose proof (inv_task_id _ HI _ _ Htk). pose proof (inv_inst_id _ HI _ _ Hi). pose proof (tw_attempt _ Hw) as Ha.
    assert (t_attempt_no tk = uc_AttemptNo c) by (by rewrite <-Hc). lia.
Qed.

Lemma unbound_valid_sorted lim previous l :
  StronglySorted (key_lt uc_key) l → (∀ c, c ∈ l → after_key (ucur_key <$> previous) (uc_key c)) →
  (∀ c, c ∈ l → 0 < uc_TaskID c ∧ 0 < uc_InstanceID c ∧ 0 < uc_AttemptNo c ∧ uc_AttemptRegisteredAt c ≠ 0 ∧ uc_AttemptRegisteredAt c ≤ lim) →
  valid_from lim previous l = true.
Proof.
  intros Hs. revert previous. induction Hs as [|c l Hs IH Hf]; intros previous Ha Hok; [done|]. simpl.
  destruct (Hok c ltac:(by left)) as (H1 & H2 & H3 & H4 & H5). unfold is_zero, is_after.
  rewrite !(proj2 (Z.leb_gt _ 0)), (proj2 (Z.eqb_neq _ _) H4), (proj2 (Z.ltb_ge _ _) H5) by lia. simpl.
  rewrite IH; [|by apply Forall_forall|set_solver]. rewrite andb_true_r. pose proof (Ha c ltac:(by left)) as Hc.
  destruct previous as [p|]; [|done]. simpl in *. unfold lexlt in Hc. simpl in Hc. unfold before.
  apply negb_true_iff, orb_false_iff. rewrite Z.ltb_ge. split; [lia|]. apply andb_false_iff. rewrite Z.eqb_neq, Z.leb_gt. lia.
Qed.

Lemma settleable_valid d c :
  settleable_in d c → 0 < uc_TaskID c ∧ 0 < uc_InstanceID c ∧ 0 < uc_AttemptNo c ∧ uc_AttemptRegisteredAt c ≠ 0 ∧ uc_AttemptRegisteredAt c ≤ limit.
Proof.
  intros (? & ? & ? & ? & Hs). pose proof (sl_ids _ _ _ _ _ _ Hs). pose proof (sl_age _ _ _ _ _ _ Hs). tauto.
Qed.

Lemma backlog_page_valid config d done_ rest state n :
  backlog d = done_ ++ rest → (∀ c, c ∈ backlog d → settleable_in d c) → at_cursor state done_ → Z.of_nat n ≤ PageSize config →
  validUnboundPage (take n rest) state (PageSize config) = true.
Proof.
  intros Hb Hall Hat Hn. unfold validUnboundPage. rewrite (proj2 (Z.leb_le _ _)) by (rewrite length_take; lia). simpl.
  assert (∀ c, c ∈ take n rest → c ∈ rest) as Hpage by (intros c (? & Hc & _)%elem_of_take; by eapply list_elem_of_lookup_2).
  pose proof Hat as (_ & -> & _). apply unbound_valid_sorted.
  - pose proof (backlog_sorted d) as Hs. rewrite Hb in Hs. apply sorted_app_r in Hs.
    rewrite <-(take_drop n rest) in Hs. by eapply StronglySorted_app_inv_l.
  - intros c Hc%Hpage. by eapply rest_after.
  - intros c Hc%Hpage. apply (settleable_valid d), Hall. rewrite Hb. set_solver.
Qed.

Lemma calm_scan_pages config d0 fuel done_ rest d state :
  0 < PageSize config → backlog d0 = done_ ++ rest → (∀ c, c ∈ backlog d0 → settleable_in d0 c) →
  settled d0 done_ d → at_cursor state done_ → (length rest < fuel)%nat →
  ∃ d', calm_to t (scan_pages config s fuel state) d d' (Ok (Returned no_traversal None)) (hints rest) ∧ settled d0 (done_ ++ rest) d'.
Proof.
  intros Hp. revert done_ rest d state. induction fuel as [|fuel IH]; intros done_ rest d state Hb Hall Hset Hat Hf; [lia|].
  pose proof (backlog_NoDup d0) as Hnd. rewrite Hb in Hnd. pose proof Hnd as Hsplit. rewrite fmap_app in Hsplit.
  apply NoDup_app in Hsplit as (_ & Hdisj & Hndr).
  set (n := Z.to_nat (PageSize config)). set (page := take n rest).
  assert (∀ c, c ∈ rest → c ∈ backlog d0 ∧ uc_TaskID c ∉ (uc_TaskID <$> done_)) as Hrest.
  { intros c Hc. rewrite Hb. split; [set_solver|]. intros Hin. apply (Hdisj _ Hin). by apply list_elem_of_fmap_2. }
  assert (∀ c, c ∈ page → c ∈ rest) as Hpage by (intros c (? & Hc & _)%elem_of_take; by eapply list_elem_of_lookup_2).
  pose proof (backlog_page_valid config d0 done_ rest state n Hb Hall Hat ltac:(unfold n; lia)) as Hv. fold page in Hv.
  assert (NoDup (uc_TaskID <$> page)) as Hndp.
  { eapply sublist_NoDup; [exact Hndr|]. unfold page. apply fmap_sublist, sublist_take. }
  destruct (calm_settle_page (length page) d state page (le_n _) Hndp) as (d1 & Hpg & Hset1).
  { intros c Hc%Hpage. destruct (Hrest c Hc) as [Hin Hn]. eapply settleable_settled; [done|done|by apply Hall]. }
  assert (settled d0 (done_ ++ page) d1) as Hset2.
  { eapply settled_trans; [|exact Hset|exact Hset1]. eapply sublist_NoDup; [exact Hnd|]. apply fmap_sublist, sublist_app; [done|].
    unfold page. apply sublist_take. }
  assert (∀ dk r o, calm_to t (if Z.of_nat (length page) <? PageSize config then mret (Returned no_traversal None)
      else scan_pages config s fuel { state with cursor := if last page is Some z then Some (cursor_of z) else cursor state }) d1 dk r o →
    calm_to t (scan_pages config s (S fuel) state) d dk r (hints page ++ o)) as Hscan.
  { intros dk r o Hk. simpl. eapply calm_bind0; [apply calm_attempt, calm_ctx_err|].
    eapply calm_bind0; [eapply calm_attempt, (calm_list config d0 done_ rest d state); try done|].
    { intros c Hc. destruct (settleable_valid d0 c) as (? & _ & _ & ? & ?); [apply Hall; rewrite Hb; set_solver|done]. }
    fold n. fold page. cbv beta iota. rewrite Hv. simpl. eapply calm_bind; [exact Hpg|]. exact Hk. }
  destruct (Z.of_nat (length page) <? PageSize config) eqn:El; to_prop.
  - exists d1. assert (page = rest) as Ep by (unfold page in *; rewrite length_take in El; apply take_ge; lia).
    rewrite Ep in *. split; [|done]. rewrite <-(app_nil_r (hints rest)). apply Hscan. apply calm_ret.
  - assert (length page = n) as Hlen by (unfold page in *; rewrite length_take in *; lia).
    destruct (last page) as [z|] eqn:Ez; [|apply last_None in Ez; rewrite Ez in Hlen; simpl in Hlen; unfold n in Hlen; lia].
    destruct (IH (done_ ++ page) (drop n rest) d1 { state with cursor := Some (cursor_of z) }) as (d2 & H2 & Hset3).
    + rewrite <-app_assoc. unfold page. by rewrite take_drop.
    + done.
    + done.
    + destruct Hat as (? & ? & ?). split_and!; try done. simpl. by rewrite last_app, Ez.
    + rewrite length_drop. unfold page in Hlen. rewrite length_take in Hlen. unfold n in *. lia.
    + exists d2. rewrite <-app_assoc in Hset3. unfold page in Hset3. rewrite take_drop in Hset3. split; [|done].
      replace (hints rest) with (hints page ++ hints (drop n rest)) by (rewrite <-hints_app; unfold page; by rewrite take_drop).
      apply Hscan. exact H2.
Qed.
End progress.

(** C35: A settlement run clears the backlog.  An undisturbed run of a fresh traversal
    over a consistent database, whose unknown attempts were registered with snapshots
    registration accepts, returns without an error at the end of the traversal; every
    attempt whose result had been unknown for the observation period is closed, with a
    retry or for good, and none is left to settle. *)
Theorem settlement_run_clears `{UuidLib, PgLib} config s t d fuel :
  db_inv d → 0 < PageSize config → ObservationPeriod config = se_observationPeriod s →
  0 < se_observationPeriod s → se_observationPeriod s < t →
  let candidates d := unbound_candidates d t (t - se_observationPeriod s) in
  (∀ c, c ∈ candidates d → registrable d c) → (length (candidates d) < fuel)%nat →
  let d' := after_run (run config s fuel no_traversal) t d in
  result_of (run config s fuel no_traversal) t d = Ok (Returned no_traversal None) ∧ candidates d' = [] ∧
  ∀ c, c ∈ candidates d → ∃ tk, tasks d' !! uc_TaskID c = Some tk ∧ (t_status tk = TaskRetryWaiting ∨ t_status tk = TaskFailed) ∧
    t_attempt_no tk = uc_AttemptNo c ∧ t_result_summary tk = Some unknownResultSummary.
Proof.
  intros HI Hp Hper Hpos Hclk candidates Hreg Hf d'.
  assert (0 < t - se_observationPeriod s) as Hlim by lia.
  set (state := {| scanNow := t; cutoff := t - se_observationPeriod s; cursor := None |}).
  destruct (calm_scan_pages t s Hpos Hlim config d fuel [] (candidates d) d state) as (d1 & H1 & Hset); try done.
  { intros c Hc. apply backlog_settleable; [done..|by apply Hreg]. }
  { constructor; [done|done|set_solver]. }
  assert (calm_to t (run config s fuel no_traversal) d d1 (Ok (Returned no_traversal None)) (hints s (candidates d))) as Hrun.
  { unfold run. rewrite <-(app_nil_r (hints _ _)). eapply calm_bind.
    - unfold scan. eapply calm_bind0; [apply calm_attempt, calm_ctx_err|]. simpl.
      eapply calm_bind0; [apply calm_attempt; unfold operation; eapply calm_bind0;
        [apply calm_DatabaseTime|eapply calm_bind0; [apply calm_ctx_err|apply calm_ret]]|].
      simpl. unfold is_zero. rewrite Hper, !(proj2 (Z.eqb_neq _ 0)) by lia. exact H1.
    - eapply calm_bind0; [apply calm_attempt, calm_ctx_err|apply calm_ret]. }
  unfold d'. rewrite (calm_after _ _ _ _ _ _ Hrun). split_and!; [exact (calm_result _ _ _ _ _ _ Hrun)| |].
  - change (backlog t s d1 = []). rewrite (backlog_settled _ _ _ _ _ Hset). apply filter_none. intros c Hc Hn. apply Hn. by apply list_elem_of_fmap_2.
  - apply (se_closed _ _ _ Hset).
Qed.

(** ** An instance: the attempt was sent, its answer was lost *)

Definition lost_answer (n : nat) : Event := { quiet 300 with ev_done := (9 <=? n)%nat }.
Abbreviation demo_waiting_round := (demo_run [(create_demo_group, 100); (create_demo_job, 100);
  (OpTriggerManual demo_creator demo_input, 200)] empty_db).
Abbreviation demo_unanswered := (w_db (System.run (OpDispatch demo_dispatcher 1) (start demo_waiting_round lost_answer)).1).

Lemma lost_answer_rely : rely lost_answer.
Proof. intros n L d HI. split_and!; [done|reflexivity|reflexivity]. Qed.

Lemma demo_unanswered_inv : db_inv demo_unanswered.
Proof.
  apply reachable_db_inv. destruct (System.run (OpDispatch demo_dispatcher 1) (start demo_waiting_round lost_answer)) as [w r] eqn:E.
  eapply steps_op; [apply demo_reachable, empty_reachable|apply lost_answer_rely|exact E].
Qed.

Definition demo_runtime : Config :=
  {| ScanInterval := 10 * Second; PageSize := 1; RunTimeout := 5 * Second; OperationTimeout := Second; ObservationPeriod := 30 * Second |}.
Definition demo_later : Time := 300 + 30 * Second.

Lemma settlement_run_clears_witness :
  unbound_candidates demo_unanswered demo_later (demo_later - 30 * Second) ≠ [] ∧
  result_of (run demo_runtime demo_settler 2 no_traversal) demo_later demo_unanswered = Ok (Returned no_traversal None).
Proof.
  split; [vm_compute; discriminate|].
  apply (settlement_run_clears demo_runtime demo_settler demo_later demo_unanswered 2);
    [apply demo_unanswered_inv|reflexivity|reflexivity|reflexivity|reflexivity| |vm_compute; lia].
  assert (unbound_candidates demo_unanswered demo_later (demo_later - 30 * Second) =
    [{| uc_TaskID := 1; uc_InstanceID := 1; uc_AttemptNo := 1; uc_AttemptRegisteredAt := 300 |}]) as E by evaluate.
  intros c Hc. change (c ∈ unbound_candidates demo_unanswered demo_later (demo_later - 30 * Second)) in Hc. rewrite E in Hc.
  apply list_elem_of_singleton in Hc as ->. split; [discriminate|]. eexists _, _. split; [evaluate|]. split; reflexivity.
Defined.
