(* ===== verification/DispatchRuntime.v ===== *)
(** * The dispatch runtime

    apps/job/internal/dispatch/runtime.go: one scanner discovers waiting Instances and
    due retries page by page, a bounded set holds them, and fixed workers dispatch
    them.  Candidates are deduplicated by identity until their dispatch returns, a
    parent has one registration at a time, and parents found locked by another node
    are suppressed for a while.  Each critical section under the runtime's mutex is
    one operation; [step] interleaves scanner, workers, callers and shutdown. *)

From S2P Require Import Prelude GoLib Tx Model TaskRepo InstanceRepo Dispatcher HintSpec.

Open Scope Z_scope.

Definition dispatchPageLimit : Z := 128.
Definition dispatchPageBudget : Z := 4.
Definition dispatchParentShare : nat := 8.
Definition errScanPaused : Cause := Text "dispatch candidate scan paused for contention".

Inductive ScanKind := waitingScan | retryScan.
#[global] Instance ScanKind_eq_dec : EqDecision ScanKind.
Proof. solve_decision. Defined.
Definition other (kind : ScanKind) : ScanKind := match kind with waitingScan => retryScan | retryScan => waitingScan end.

Record RuntimeConfig := {
  Concurrency : Z; WaitingCapacity : Z; ScanInterval : Duration; QueryTimeout : Duration; TotalTimeout : Duration; BusyDelay : Duration;
}.

(** A first dispatch is named by its Instance, a retry by its Task and attempt. *)
Record candidateKey := { ck_instanceID : Z; ck_taskID : Z; ck_attemptNo : Z }.
#[global] Instance candidateKey_eq_dec : EqDecision candidateKey.
Proof. solve_decision. Defined.
#[global] Instance candidateKey_countable : Countable candidateKey.
Proof.
  refine (inj_countable' (λ k, (ck_instanceID k, ck_taskID k, ck_attemptNo k))
    (λ k, {| ck_instanceID := k.1.1; ck_taskID := k.1.2; ck_attemptNo := k.2 |}) _). by intros [].
Defined.

(** [wc_retry] is absent for a first dispatch; [wc_scan] names the traversal that found
    the candidate, if a traversal did. *)
Record waitingCandidate := {
  wc_sequence : Z; wc_instanceID : Z; wc_retry : option RetryCandidate; wc_scan : option (ScanKind * Z);
}.
#[global] Instance RetryCandidate_eq_dec : EqDecision RetryCandidate.
Proof. solve_decision. Defined.
#[global] Instance waitingCandidate_eq_dec : EqDecision waitingCandidate.
Proof. solve_decision. Defined.

Definition key (c : waitingCandidate) : candidateKey :=
  match wc_retry c with
  | Some r => {| ck_instanceID := 0; ck_taskID := rc_TaskID r; ck_attemptNo := rc_AttemptNo r |}
  | None => {| ck_instanceID := wc_instanceID c; ck_taskID := 0; ck_attemptNo := 0 |}
  end.

Record candidateScan := {
  cs_upperID : Z; cs_cursor : Z; cs_scanNow : Time; cs_retryCursor : option RetryCursor; cs_generation : Z; cs_readyAt : Time;
}.
Definition no_scan (readyAt : Time) : candidateScan :=
  {| cs_upperID := 0; cs_cursor := 0; cs_scanNow := 0; cs_retryCursor := None; cs_generation := 0; cs_readyAt := readyAt |}.

(** Where the scanner is: choosing a page, reading one for which space is reserved
    (charged to the budget or not yet), holding what it read, or returned. *)
Inductive Scanner :=
| Choosing
| Reading (kind : ScanKind) (limit : Z) (charged : bool)
| HasRead (kind : ScanKind) (limit : Z) (result : Result (list waitingCandidate * bool))
| ScanExited.

Record Runtime := {
  rt_config : RuntimeConfig;
  rt_started : bool; rt_stopping : bool; rt_completed : bool;
  rt_waiting : Z; rt_reserved : Z; rt_pending : list waitingCandidate;
  rt_owned : gmap candidateKey Z; rt_registering : gmap Z waitingCandidate;
  rt_lastParent : Z; rt_parentShare : nat;
  rt_sequence : Z; rt_generation : ScanKind → Z;
  rt_pagesLeft : Z; rt_budgetResumeAt : Time;
  rt_conflicted : gmap Z Time; rt_conflictUntil : Time; rt_conflictFull : bool;
  rt_scanCanceled : bool; rt_workCanceled : bool; rt_drainCtx : bool; rt_drainErr : option Error;
  rt_workers : list (Worker waitingCandidate);
  rt_scanner : Scanner; rt_scans : ScanKind → candidateScan; rt_next : ScanKind;
}.

Definition NewRuntime (config : RuntimeConfig) : Result Runtime :=
  if (Concurrency config <=? 0) || (WaitingCapacity config <=? 0) || (ScanInterval config <=? 0) || (QueryTimeout config <=? 0) ||
     (TotalTimeout config <=? 0) || (BusyDelay config <=? 0)
  then Fail [Text "dispatch runtime settings must be positive"]
  else if (MaxInt64 `quot` 6 * 5 <? ScanInterval config) || (MaxInt64 - WaitingCapacity config <? Concurrency config)
  then Fail [Text "dispatch runtime settings are too large"]
  else Ok {| rt_config := config; rt_started := false; rt_stopping := false; rt_completed := false;
             rt_waiting := 0; rt_reserved := 0; rt_pending := []; rt_owned := ∅; rt_registering := ∅;
             rt_lastParent := 0; rt_parentShare := 0; rt_sequence := 0; rt_generation := λ _, 0;
             rt_pagesLeft := dispatchPageBudget; rt_budgetResumeAt := 0;
             rt_conflicted := ∅; rt_conflictUntil := 0; rt_conflictFull := false;
             rt_scanCanceled := false; rt_workCanceled := false; rt_drainCtx := false; rt_drainErr := None;
             rt_workers := []; rt_scanner := Choosing; rt_scans := λ _, no_scan 0; rt_next := waitingScan |}.

Definition Start (r : Runtime) : Result Runtime :=
  if rt_started r || rt_stopping r then Fail [Text "dispatch runtime has already started or stopped"]
  else Ok { r with rt_started := true; rt_workers := replicate (Z.to_nat (Concurrency (rt_config r))) Idle }.

(** ** Conflicts *)

Definition earlier (a b : Time) : Time := if is_zero a || before b a then b else a.

(** Parents whose suppression is over at [now] leave the map; the earliest remaining
    deadline is recomputed.  (Go ranges over the map in any order: [earlier] does not
    depend on it.) *)
Definition expireConflictsLocked (r : Runtime) (now : Time) : Runtime :=
  if negb (is_zero (rt_conflictUntil r)) && negb (before now (rt_conflictUntil r)) then
    let kept := filter (λ p, before now p.2 = true) (rt_conflicted r) in
    { r with rt_conflicted := kept;
             rt_conflictUntil := map_fold (λ _ until acc, earlier acc until) 0 kept;
             rt_conflictFull := WaitingCapacity (rt_config r) <=? Z.of_nat (size kept) }
  else r.

Definition blockParentLocked (r : Runtime) (id : Z) (now : Time) (delay : Duration) : Runtime :=
  let r := expireConflictsLocked r now in
  let r :=
    match rt_conflicted r !! id with
    | Some _ => r
    | None => { r with rt_conflicted := <[id := now + delay]> (rt_conflicted r);
                       rt_conflictUntil := earlier (rt_conflictUntil r) (now + delay) }
    end in
  let dropped := filter (λ c, wc_instanceID c = id) (rt_pending r) in
  { r with rt_conflictFull := WaitingCapacity (rt_config r) <=? Z.of_nat (size (rt_conflicted r));
           rt_owned := foldl (λ m c, delete (key c) m) (rt_owned r) dropped;
           rt_waiting := rt_waiting r - Z.of_nat (length dropped);
           rt_pending := filter (λ c, wc_instanceID c ≠ id) (rt_pending r) }.

Definition scanDelay (config : RuntimeConfig) (k : Z) : Duration :=
  let base := ScanInterval config in
  base - base `quot` 5 + k `mod` (base `quot` 5 * 2 + 1).

(** ** Admission *)

Definition Hint (r : Runtime) (instanceID : Z) (now : Time) : Runtime * bool :=
  if (instanceID <=? 0) || negb (rt_started r) || rt_stopping r then (r, false)
  else
    let r := expireConflictsLocked r now in
    let seq := (rt_sequence r + 1) mod 2 ^ 64 in
    let c := {| wc_sequence := seq; wc_instanceID := instanceID; wc_retry := None; wc_scan := None |} in
    if bool_decide (is_Some (rt_owned r !! key c)) then (r, true)
    else if bool_decide (is_Some (rt_conflicted r !! instanceID)) then (r, false)
    else if rt_waiting r =? WaitingCapacity (rt_config r) then (r, false)
    else ({ r with rt_sequence := seq; rt_pending := rt_pending r ++ [c]; rt_owned := <[key c := seq]> (rt_owned r);
                   rt_waiting := rt_waiting r + 1 }, true).

(** The candidates of a page that are neither owned nor suppressed, numbered and owned. *)
Fixpoint claim (r : Runtime) (kind : ScanKind) (generation : Z) (page : list waitingCandidate) : Runtime * list waitingCandidate :=
  match page with
  | [] => (r, [])
  | c :: rest =>
      if bool_decide (is_Some (rt_owned r !! key c)) || bool_decide (is_Some (rt_conflicted r !! wc_instanceID c))
      then claim r kind generation rest
      else
        let seq := (rt_sequence r + 1) mod 2 ^ 64 in
        let c := { c with wc_sequence := seq; wc_scan := Some (kind, generation) } in
        let r := { r with rt_sequence := seq; rt_owned := <[key c := seq]> (rt_owned r); rt_waiting := rt_waiting r + 1 } in
        let '(r, l) := claim r kind generation rest in
        (r, c :: l)
  end.

(** [groups] and [parents]: the claimed candidates of each parent, parents in order of
    first appearance. *)
Fixpoint add_to_group (c : waitingCandidate) (groups : list (Z * list waitingCandidate)) : list (Z * list waitingCandidate) :=
  match groups with
  | [] => [(wc_instanceID c, [c])]
  | (id, l) :: rest => if id =? wc_instanceID c then (id, l ++ [c]) :: rest else (id, l) :: add_to_group c rest
  end.
Definition group_by_parent (l : list waitingCandidate) : list (Z * list waitingCandidate) :=
  foldl (λ groups c, add_to_group c groups) [] l.

(** Deal the groups out in rounds of at most eight candidates per parent. *)
Fixpoint deal (fuel : nat) (groups : list (list waitingCandidate)) : list waitingCandidate :=
  match fuel with
  | O => []
  | S fuel =>
      mjoin (take dispatchParentShare <$> groups) ++
      (if existsb (λ g, (dispatchParentShare <? length g)%nat) groups then deal fuel (drop dispatchParentShare <$> groups) else [])
  end.

Definition rotate {A} (start : nat) (l : list A) : list A := drop start l ++ take start l.

Definition admitPage (r : Runtime) (page : list waitingCandidate) (kind : ScanKind) (generation : Z) (now : Time) (rnd : Z)
    : Runtime * bool :=
  let r := { r with rt_waiting := rt_waiting r - rt_reserved r; rt_reserved := 0 } in
  if rt_stopping r then (r, false)
  else
    let r := expireConflictsLocked r now in
    let '(r, claimed) := claim r kind generation page in
    let groups := snd <$> group_by_parent claimed in
    let start := Z.to_nat (rnd `mod` Z.of_nat (length groups)) in
    ({ r with rt_pending := rt_pending r ++ deal (S (length claimed)) (rotate start groups) }, true).

Definition releasePage (r : Runtime) : Runtime := { r with rt_waiting := rt_waiting r - rt_reserved r; rt_reserved := 0 }.

(** ** Choosing and charging pages *)

Inductive NextPage := PageStop | PageOf (kind : ScanKind) (limit : Z) | PageWait (wakeAt : Time).

Definition set_fun {A} (kind : ScanKind) (a : A) (f : ScanKind → A) : ScanKind → A := λ k, if decide (k = kind) then a else f k.

(** A spent page budget is restored when its pause is over. *)
Definition refill (r : Runtime) (now : Time) : Runtime :=
  if (rt_pagesLeft r =? 0) && negb (is_zero (rt_budgetResumeAt r)) && negb (before now (rt_budgetResumeAt r))
  then { r with rt_pagesLeft := dispatchPageBudget; rt_budgetResumeAt := 0 } else r.

Definition nextPage (r : Runtime) (now : Time) : Runtime * NextPage :=
  if rt_stopping r then (r, PageStop)
  else
    let r := refill (expireConflictsLocked r now) now in
    let ready kind := negb (is_after (cs_readyAt (rt_scans r kind)) now) in
    let kinds := [rt_next r; other (rt_next r)] in
    let wakeAt := foldl (λ t kind, if ready kind then t else earlier t (cs_readyAt (rt_scans r kind))) 0 kinds in
    let wakeAt := if rt_pagesLeft r =? 0 then earlier wakeAt (rt_budgetResumeAt r) else wakeAt in
    let wakeAt := if rt_conflictFull r then earlier wakeAt (rt_conflictUntil r) else wakeAt in
    match find ready kinds with
    | Some kind =>
        if (0 <? rt_pagesLeft r) && negb (rt_conflictFull r) && (rt_waiting r <? WaitingCapacity (rt_config r)) then
          let reserved := Z.min dispatchPageLimit (WaitingCapacity (rt_config r) - rt_waiting r) in
          let r := { r with rt_reserved := reserved; rt_waiting := rt_waiting r + reserved; rt_next := other kind } in
          let scan := rt_scans r kind in
          let r := if cs_generation scan =? 0 then
                     let g := (rt_generation r kind + 1) mod 2 ^ 64 in
                     { r with rt_generation := set_fun kind g (rt_generation r);
                              rt_scans := set_fun kind { scan with cs_generation := g } (rt_scans r) }
                   else r in
          (r, PageOf kind reserved)
        else (r, PageWait wakeAt)
    | None => (r, PageWait wakeAt)
    end.

Definition chargePage (r : Runtime) (now : Time) : Runtime * option Error :=
  if rt_stopping r then (r, Some [ContextErr])
  else
    let r := expireConflictsLocked r now in
    if rt_conflictFull r then (r, Some [errScanPaused])
    else
      let left := rt_pagesLeft r - 1 in
      ({ r with rt_pagesLeft := left; rt_budgetResumeAt := if left =? 0 then 0 else rt_budgetResumeAt r }, None).

(** The section of [scan] after a page has been read: the pause of a spent budget
    starts now. *)
Definition startPause (r : Runtime) (now : Time) (delay : Duration) : Runtime :=
  if (rt_pagesLeft r =? 0) && is_zero (rt_budgetResumeAt r) then { r with rt_budgetResumeAt := now + delay } else r.

(** ** Workers *)

Inductive Taken := TakeExit | TakeCandidate (c : waitingCandidate) | TakeWait (wakeAt : Time).

(** The position of the candidate to take: the first whose parent is not registering,
    unless that parent has had its share and another parent waits behind it. *)
Fixpoint pick (registering : gmap Z waitingCandidate) (lastParent : Z) (share : nat) (pos : nat) (best : option nat)
    (pending : list waitingCandidate) : option nat :=
  match pending with
  | [] => best
  | c :: rest =>
      if bool_decide (is_Some (registering !! wc_instanceID c)) then pick registering lastParent share (S pos) best rest
      else
        let best := match best with None => Some pos | Some b => Some b end in
        if (dispatchParentShare <=? share)%nat && negb (wc_instanceID c =? lastParent) then Some pos
        else if (share <? dispatchParentShare)%nat then best
        else pick registering lastParent share (S pos) best rest
  end.

Definition take (r : Runtime) (now : Time) : Runtime * Taken :=
  if rt_stopping r then (r, TakeExit)
  else
    let r := expireConflictsLocked r now in
    let index := if rt_conflictFull r then None else pick (rt_registering r) (rt_lastParent r) (rt_parentShare r) 0 None (rt_pending r) in
    match index ≫= λ i, (λ c, (i, c)) <$> rt_pending r !! i with
    | Some (i, c) =>
        let id := wc_instanceID c in
        ({ r with rt_pending := delete i (rt_pending r); rt_waiting := rt_waiting r - 1;
                  rt_registering := <[id := c]> (rt_registering r);
                  rt_parentShare := if rt_lastParent r =? id then ((rt_parentShare r + 1) `min` dispatchParentShare)%nat else 1%nat;
                  rt_lastParent := id }, TakeCandidate c)
    | None => (r, TakeWait (if rt_conflictFull r then rt_conflictUntil r else 0))
    end.

(** [registrationCandidate]: whether the registrar may go on for the parent. *)
Definition registrationCandidate (r : Runtime) (id : Z) (now : Time) : Runtime * (option waitingCandidate * bool) :=
  let r' := expireConflictsLocked r now in
  let c := rt_registering r !! id in
  (r', (c, bool_decide (is_Some c) && negb (rt_stopping r))).

Definition registrationFinished (r : Runtime) (c : waitingCandidate) (confirmed : bool) (err : option Error) (now : Time) (delay : Duration)
    : Runtime :=
  if bool_decide (rt_registering r !! wc_instanceID c = Some c) then
    let r := { r with rt_registering := delete (wc_instanceID c) (rt_registering r) } in
    let r := match err with
             | Some e => if errors_is e ErrInstanceLocked then blockParentLocked r (wc_instanceID c) now delay else r
             | None => r
             end in
    match wc_scan c with
    | Some (kind, generation) =>
        if confirmed && negb (generation =? 0) && (generation =? rt_generation r kind)
        then { r with rt_pagesLeft := dispatchPageBudget; rt_budgetResumeAt := 0 } else r
    | None => r
    end
  else r.

(** The end of a worker's round: the identity is free again. *)
Definition releaseOwned (r : Runtime) (c : waitingCandidate) : Runtime :=
  if bool_decide (rt_owned r !! key c = Some (wc_sequence c)) then { r with rt_owned := delete (key c) (rt_owned r) } else r.

(** ** Lifecycle *)

Definition Stop (r : Runtime) : Runtime :=
  if rt_stopping r then r
  else
    let r := { r with rt_stopping := true;
                      rt_owned := foldl (λ m c, delete (key c) m) (rt_owned r) (rt_pending r);
                      rt_waiting := rt_waiting r - Z.of_nat (length (rt_pending r)); rt_pending := []; rt_scanCanceled := true } in
    if negb (rt_started r) then { r with rt_completed := true; rt_workCanceled := true } else r.

Definition Drain (r : Runtime) (ctxDone : bool) : Runtime * option (option Error) :=
  let r := Stop r in
  if rt_completed r then (r, Some (rt_drainErr r))
  else if rt_drainCtx r then (r, None)
  else ({ r with rt_drainCtx := true; rt_workCanceled := rt_workCanceled r || ctxDone }, None).

Definition finish (r : Runtime) (drainDone : option Error) : Runtime :=
  let err := match (if rt_drainCtx r then drainDone else None) with Some e => Some e | None => rt_drainErr r end in
  { r with rt_drainErr := err; rt_scanCanceled := true; rt_workCanceled := true; rt_completed := true }.

(** ** Pages and their validation *)

Fixpoint ascending (cursor upperID : Z) (ids : list Z) : bool :=
  match ids with
  | [] => true
  | id :: rest => negb ((id <=? cursor) || (upperID <? id)) && ascending id upperID rest
  end.
Definition validWaitingPage (ids : list Z) (cursor upperID limit : Z) : bool :=
  (Z.of_nat (length ids) <=? limit) && ascending cursor upperID ids.

Fixpoint valid_retries (scanNow : Time) (cursor : option RetryCursor) (rows : list RetryCandidate) : bool :=
  match rows with
  | [] => true
  | row :: rest =>
      negb ((rc_TaskID row <=? 0) || (rc_InstanceID row <=? 0) || (rc_AttemptNo row <=? 0) || is_zero (rc_NextDispatchAt row) ||
            is_after (rc_NextDispatchAt row) scanNow) &&
      match cursor with
      | Some c => negb (before (rc_NextDispatchAt row) (rcur_NextDispatchAt c) ||
                        (rc_NextDispatchAt row =? rcur_NextDispatchAt c) && (rc_TaskID row <=? rcur_TaskID c))
      | None => true
      end &&
      valid_retries scanNow (Some {| rcur_NextDispatchAt := rc_NextDispatchAt row; rcur_TaskID := rc_TaskID row |}) rest
  end.
Definition validRetryPage (rows : list RetryCandidate) (scanNow : Time) (cursor : option RetryCursor) (limit : Z) : bool :=
  (Z.of_nat (length rows) <=? limit) && valid_retries scanNow cursor rows.

Definition first_candidate (id : Z) : waitingCandidate := {| wc_sequence := 0; wc_instanceID := id; wc_retry := None; wc_scan := None |}.
Definition retry_waiting (r : RetryCandidate) : waitingCandidate :=
  {| wc_sequence := 0; wc_instanceID := rc_InstanceID r; wc_retry := Some r; wc_scan := None |}.

(** The answers of [chargePage] during a read. *)
Class PageBudget := charge_answer : nat → option Error.

Section reading.
Context `{PgLib, PageBudget}.

(** One source call under its own budget. *)
Definition sourceCall {A} (m : M A) : M A := a ← m; ctx_err;; mret a.

Definition charge : M unit := λ w,
  ({ w with w_at := S (w_at w) }, match charge_answer (w_at w) with None => Ok () | Some e => Fail e end).

(** [readPage] with the state it leaves: the upper bound or scan time, once read, is
    kept even when a later call fails. *)
Definition read_waiting (state : candidateScan) (limit : Z) : M (list waitingCandidate * bool) :=
  charge;;
  ids ← sourceCall (ListWaitingIDs Auto (cs_cursor state) (cs_upperID state) limit);
  if negb (validWaitingPage ids (cs_cursor state) (cs_upperID state) limit)
  then fail [Text "waiting query returned an invalid page"]
  else mret (first_candidate <$> ids,
             (Z.of_nat (length ids) <? limit) || bool_decide (last ids = Some (cs_upperID state))).

Definition read_retries (state : candidateScan) (limit : Z) : M (list waitingCandidate * bool) :=
  charge;;
  rows ← sourceCall (ListRetryCandidates Auto (cs_scanNow state) (cs_retryCursor state) limit);
  if negb (validRetryPage rows (cs_scanNow state) (cs_retryCursor state) limit)
  then fail [Text "retry query returned an invalid page"]
  else mret (retry_waiting <$> rows, Z.of_nat (length rows) <? limit).

Definition readPage (kind : ScanKind) (state : candidateScan) (limit : Z)
    : M (candidateScan * Result (list waitingCandidate * bool)) :=
  match kind with
  | waitingScan =>
      if cs_upperID state =? 0 then
        read ← attempt (sourceCall (MaxWaitingID Auto));
        match read with
        | Fail e => mret (state, Fail e)
        | Ok upper =>
            if upper <? 0 then mret (state, Fail [Text "waiting query returned an invalid upper bound"])
            else if upper =? 0 then mret (state, Ok ([], true))
            else
              let state := { state with cs_upperID := upper } in
              page ← attempt (read_waiting state limit); mret (state, page)
        end
      else page ← attempt (read_waiting state limit); mret (state, page)
  | retryScan =>
      if is_zero (cs_scanNow state) then
        read ← attempt (sourceCall (DatabaseTime Auto));
        match read with
        | Fail e => mret (state, Fail e)
        | Ok now =>
            if is_zero now then mret (state, Fail [Text "retry scan database time is empty"])
            else
              let state := { state with cs_scanNow := now } in
              page ← attempt (read_retries state limit); mret (state, page)
        end
      else page ← attempt (read_retries state limit); mret (state, page)
  end.
End reading.

(** The part of [scan] that moves the traversal after its page was taken in. *)
Definition advance (kind : ScanKind) (state : candidateScan) (page : list waitingCandidate) (atEnd : bool) (now : Time) (delay : Duration)
    : candidateScan :=
  let state :=
    match last page, kind with
    | Some c, waitingScan => { state with cs_cursor := wc_instanceID c }
    | Some c, retryScan =>
        match wc_retry c with
        | Some r => { state with cs_retryCursor := Some {| rcur_NextDispatchAt := rc_NextDispatchAt r; rcur_TaskID := rc_TaskID r |} }
        | None => state
        end
    | None, _ => state
    end in
  if atEnd then no_scan (now + delay) else state.

(** After a failed read the traversal pauses, unless contention stopped it. *)
Definition after_failure (state : candidateScan) (e : Error) (now : Time) (delay : Duration) : candidateScan :=
  if errors_is e errScanPaused then state else { state with cs_readyAt := now + delay }.

(** ** Interleavings *)

Definition set_worker (k : nat) (w : Worker waitingCandidate) (r : Runtime) : Runtime := { r with rt_workers := <[k := w]> (rt_workers r) }.
Definition set_scan (kind : ScanKind) (state : candidateScan) (r : Runtime) : Runtime := { r with rt_scans := set_fun kind state (rt_scans r) }.
Definition set_scanner (s : Scanner) (r : Runtime) : Runtime := { r with rt_scanner := s }.

(** What a read may return: nothing that exceeds the reservation, and rows only after
    the page has been charged. *)
Definition may_return (limit : Z) (charged : bool) (result : Result (list waitingCandidate * bool)) : Prop :=
  match result with
  | Ok (page, _) => Z.of_nat (length page) ≤ limit ∧ (charged = true ∨ page = [])
  | Fail _ => True
  end.

(** Clock readings and jittered delays are positive. *)
Inductive step : Runtime → Runtime → Prop :=
| step_start r r' : Start r = Ok r' → step r r'
| step_hint r id now r' b : 0 < now → Hint r id now = (r', b) → step r r'
| step_next r now r' kind limit :
    rt_started r = true → rt_scanner r = Choosing → 0 < now → nextPage r now = (r', PageOf kind limit) →
    step r (set_scanner (Reading kind limit false) r')
| step_next_wait r now r' wakeAt :
    rt_started r = true → rt_scanner r = Choosing → 0 < now → nextPage r now = (r', PageWait wakeAt) → step r r'
| step_next_stop r now r' :
    rt_started r = true → rt_scanner r = Choosing → nextPage r now = (r', PageStop) → step r (set_scanner ScanExited r')
| step_charge r kind limit now r' err :
    rt_scanner r = Reading kind limit false → 0 < now → chargePage r now = (r', err) →
    step r (match err with Some _ => r' | None => set_scanner (Reading kind limit true) r' end)
| step_read r kind limit charged state result now delay :
    rt_scanner r = Reading kind limit charged → may_return limit charged result → 0 < now → 0 < delay →
    step r (set_scanner (HasRead kind limit result) (set_scan kind state (startPause r now delay)))
| step_page_failed r kind limit e now delay :
    rt_scanner r = HasRead kind limit (Fail e) →
    step r (set_scanner Choosing (set_scan kind (after_failure (rt_scans r kind) e now delay) (releasePage r)))
| step_page r kind limit page atEnd now rnd delay r' ok :
    rt_scanner r = HasRead kind limit (Ok (page, atEnd)) → 0 < now →
    admitPage r page kind (cs_generation (rt_scans r kind)) now rnd = (r', ok) →
    step r (set_scanner (if ok : bool then Choosing else ScanExited)
             (set_scan kind (advance kind (rt_scans r kind) page atEnd now delay) r'))
| step_take r k now r' c :
    rt_workers r !! k = Some Idle → 0 < now → take r now = (r', TakeCandidate c) → step r (set_worker k (Busy c) r')
| step_take_wait r k now r' wakeAt :
    rt_workers r !! k = Some Idle → 0 < now → take r now = (r', TakeWait wakeAt) → step r r'
| step_take_exit r k now r' :
    rt_workers r !! k = Some Idle → take r now = (r', TakeExit) → step r (set_worker k Exited r')
| step_may_register r id now r' res : 0 < now → registrationCandidate r id now = (r', res) → step r r'
| step_registered r k c confirmed err now delay :
    rt_workers r !! k = Some (Busy c) → 0 < now → 0 < delay → step r (registrationFinished r c confirmed err now delay)
| step_release r k c :
    rt_workers r !! k = Some (Busy c) → rt_registering r !! wc_instanceID c ≠ Some c → step r (set_worker k Idle (releaseOwned r c))
| step_stop r : step r (Stop r)
| step_drain r done r' res : Drain r done = (r', res) → step r r'
| step_expire r : rt_drainCtx r = true → step r { r with rt_workCanceled := true }
| step_finish r drainDone :
    rt_started r = true → rt_completed r = false → rt_scanner r = ScanExited → forallb exited (rt_workers r) = true →
    step r (finish r drainDone).

(** ** The invariant *)

(** Everything the runtime holds: waiting candidates and those in a worker. *)
Definition holding (r : Runtime) : list waitingCandidate := rt_pending r ++ busy (rt_workers r).

Record sets_inv (r : Runtime) : Prop := {
  si_waiting : rt_waiting r = Z.of_nat (length (rt_pending r)) + rt_reserved r;
  si_bound : rt_waiting r ≤ WaitingCapacity (rt_config r);
  si_reserved : match rt_scanner r with Reading _ limit _ | HasRead _ limit _ => rt_reserved r = limit ∧ 0 < limit | _ => rt_reserved r = 0 end;
  si_owned : dom (rt_owned r) = list_to_set (key <$> holding r);
  si_once : NoDup (key <$> holding r);
  si_sequence : ∀ c, c ∈ holding r → rt_owned r !! key c = Some (wc_sequence c);
  si_registering : ∀ id c, rt_registering r !! id = Some c → wc_instanceID c = id ∧ c ∈ busy (rt_workers r);
  si_stopped : rt_stopping r = true → rt_pending r = [];
  si_read : match rt_scanner r with HasRead _ limit (Ok (page, _)) => Z.of_nat (length page) ≤ limit | _ => True end;
}.

Record conflict_inv (r : Runtime) : Prop := {
  ci_full : rt_conflictFull r = (WaitingCapacity (rt_config r) <=? Z.of_nat (size (rt_conflicted r)));
  ci_bound : Z.of_nat (size (rt_conflicted r)) + Z.of_nat (size (rt_registering r)) ≤ WaitingCapacity (rt_config r) - 1 + Concurrency (rt_config r);
  ci_until : ∀ id until, rt_conflicted r !! id = Some until → 0 < rt_conflictUntil r ≤ until;
  ci_none : rt_conflicted r = ∅ → rt_conflictUntil r = 0;
}.

Record budget_inv (r : Runtime) : Prop := {
  bi_range : 0 ≤ rt_pagesLeft r ≤ dispatchPageBudget ∧ 0 ≤ rt_budgetResumeAt r;
  bi_resume : match rt_scanner r with
    | Choosing | HasRead _ _ _ => rt_pagesLeft r = 0 → 0 < rt_budgetResumeAt r
    | Reading _ _ false => 0 < rt_pagesLeft r
    | _ => True end;
}.

Record life_inv (r : Runtime) : Prop := {
  li_config : 0 < Concurrency (rt_config r) ∧ 0 < WaitingCapacity (rt_config r) ∧ 0 < ScanInterval (rt_config r);
  li_unstarted : rt_started r = false → rt_workers r = [] ∧ rt_pending r = [] ∧ rt_scanner r = Choosing;
  li_workers : rt_started r = true → length (rt_workers r) = Z.to_nat (Concurrency (rt_config r));
  li_exited : Exited ∈ rt_workers r ∨ rt_scanner r = ScanExited ∨ rt_completed r = true → rt_stopping r = true;
  li_completed : rt_completed r = true → forallb exited (rt_workers r) = true;
}.

Record runtime_inv (r : Runtime) : Prop := {
  ri_sets : sets_inv r; ri_conflicts : conflict_inv r; ri_budget : budget_inv r; ri_life : life_inv r;
}.
