(* ===== verification/DispatchInv.v ===== *)
(** * What the dispatch runtime guarantees

    Invariants of every interleaving of apps/job/internal/dispatch/runtime.go: the
    bounds of its sets, deduplication of candidates, one registration per parent,
    fairness among parents, and a scanner that never stalls. *)

From S2P Require Import Prelude GoLib Tx Model TaskRepo InstanceRepo Dispatcher RepoRules HintSpec Loops DispatchRuntime.

Open Scope Z_scope.

(** ** Conflicts *)

Lemma earlier_pos a b : 0 ≤ a → 0 < b → 0 < earlier a b ∧ earlier a b ≤ b ∧ (0 < a → earlier a b ≤ a).
Proof.
  intros Ha Hb. unfold earlier, is_zero, before. destruct (Z.eqb_spec a 0), (Z.ltb_spec b a); simpl; lia.
Qed.

(** The recomputed deadline is the earliest one left. *)
Lemma earliest_fold (m : gmap Z Time) :
  (∀ id u, m !! id = Some u → 0 < u) →
  let e := map_fold (λ _ until acc, earlier acc until) 0 m in
  0 ≤ e ∧ (m ≠ ∅ → 0 < e) ∧ (∀ id u, m !! id = Some u → e ≤ u) ∧ (m = ∅ → e = 0).
Proof.
  intros Hpos. cbv zeta. revert Hpos.
  apply (map_fold_weak_ind (λ e m, (∀ id u, m !! id = Some u → 0 < u) →
    0 ≤ e ∧ (m ≠ ∅ → 0 < e) ∧ (∀ id u, m !! id = Some u → e ≤ u) ∧ (m = ∅ → e = 0))).
  - intros _. split_and!; [lia|done|intros id u Hu; by rewrite lookup_empty in Hu|done].
  - intros id u m' e Hnone IH Hpos.
    assert (0 < u) as Hu by (apply (Hpos id); by rewrite lookup_insert_eq).
    destruct IH as (H1 & H2 & H3 & H4).
    { intros id' u' Hu'. apply (Hpos id'). rewrite lookup_insert_ne; [done|]. intros ->. congruence. }
    destruct (earlier_pos e u H1 Hu) as (He1 & He2 & He3). split_and!; [lia|lia| |].
    + intros id' u' [[-> <-]|[Hne Hu']]%lookup_insert_Some; [done|]. pose proof (H3 _ _ Hu').
      assert (m' ≠ ∅) as Hne' by (intros ->; by rewrite lookup_empty in Hu'). pose proof (H2 Hne'). lia.
    + intros Hx. by apply insert_non_empty in Hx.
Qed.

Lemma earlier_after now a b : (a = 0 ∨ now < a) → now < b → earlier a b = 0 ∨ now < earlier a b.
Proof. intros Ha Hb. unfold earlier, is_zero, before. destruct (Z.eqb_spec a 0), (Z.ltb_spec b a); simpl; lia. Qed.

Lemma earliest_after now (m : gmap Z Time) :
  (∀ id u, m !! id = Some u → now < u) →
  let e := map_fold (λ _ until acc, earlier acc until) 0 m in e = 0 ∨ now < e.
Proof.
  cbv zeta. apply (map_fold_weak_ind (λ e m, (∀ id u, m !! id = Some u → now < u) → e = 0 ∨ now < e)); [by left|].
  intros id u m' e Hnone IH Hall. apply earlier_after.
  - apply IH. intros i v Hi. apply (Hall i). rewrite lookup_insert_ne; [done|]. intros ->. congruence.
  - apply (Hall id). by rewrite lookup_insert_eq.
Qed.

Lemma expire_fields r now :
  let r' := expireConflictsLocked r now in
  rt_config r' = rt_config r ∧ rt_started r' = rt_started r ∧ rt_stopping r' = rt_stopping r ∧ rt_completed r' = rt_completed r ∧
  rt_waiting r' = rt_waiting r ∧ rt_reserved r' = rt_reserved r ∧ rt_pending r' = rt_pending r ∧ rt_owned r' = rt_owned r ∧
  rt_registering r' = rt_registering r ∧ rt_workers r' = rt_workers r ∧ rt_scanner r' = rt_scanner r ∧
  rt_pagesLeft r' = rt_pagesLeft r ∧ rt_budgetResumeAt r' = rt_budgetResumeAt r ∧ rt_scans r' = rt_scans r ∧
  rt_lastParent r' = rt_lastParent r ∧ rt_parentShare r' = rt_parentShare r ∧ rt_next r' = rt_next r.
Proof. unfold expireConflictsLocked. destruct (_ && _); done. Qed.

Lemma expire_conflicts r now : conflict_inv r → 0 < WaitingCapacity (rt_config r) → conflict_inv (expireConflictsLocked r now).
Proof.
  intros [Hf Hb Hu Hn] Hc. unfold expireConflictsLocked. destruct (_ && _); [|done].
  set (kept := filter (λ p : Z * Time, before now p.2 = true) (rt_conflicted r)).
  assert (kept ⊆ rt_conflicted r) as Hsub by apply map_filter_subseteq.
  destruct (earliest_fold kept) as (He1 & He2 & He3 & He4).
  { intros id u Hk. eapply lookup_weaken in Hk; [|exact Hsub]. pose proof (Hu _ _ Hk). lia. }
  pose proof (map_subseteq_size _ _ Hsub). constructor; simpl; [done|lia| |exact He4].
  intros id u Hk. split; [|by eapply He3]. apply He2. intros E. by rewrite E, lookup_empty in Hk.
Qed.

Lemma expire_inv r now : runtime_inv r → runtime_inv (expireConflictsLocked r now).
Proof.
  intros [[? ? ? ? ? ? ? ? ?] Hc [? ?] Hl]. pose proof (expire_fields r now) as E. cbv zeta in E.
  destruct E as (E1 & E2 & E3 & E4 & E5 & E6 & E7 & E8 & E9 & E10 & E11 & E12 & E13 & _).
  split; [| |by constructor; rewrite ?E11, ?E12, ?E13|].
  - constructor; unfold holding; by rewrite ?E1, ?E3, ?E5, ?E6, ?E7, ?E8, ?E9, ?E10, ?E11.
  - apply expire_conflicts; [done|]. apply Hl.
  - destruct Hl. constructor; by rewrite ?E1, ?E2, ?E3, ?E4, ?E7, ?E10, ?E11.
Qed.

(** Once every suppression is over, the map is empty again. *)
Lemma expire_all r now :
  conflict_inv r → (∀ id u, rt_conflicted r !! id = Some u → u ≤ now) → rt_conflicted (expireConflictsLocked r now) = ∅.
Proof.
  intros [_ _ Hu Hn] Hall. unfold expireConflictsLocked, is_zero, before.
  destruct (decide (rt_conflicted r = ∅)) as [He|Hne].
  { destruct (_ && _); [|done]. simpl. by rewrite He, map_filter_empty. }
  destruct (map_choose _ Hne) as (id & u & Hid). pose proof (Hu _ _ Hid). pose proof (Hall _ _ Hid).
  rewrite (proj2 (Z.eqb_neq _ _)), (proj2 (Z.ltb_ge now _)) by lia. simpl. apply map_empty.
  intros id'. apply map_lookup_filter_None_2. right. intros u' Hid' Hx. pose proof (Hall _ _ Hid'). simpl in Hx. to_prop. lia.
Qed.

(** ** Pages *)

Lemma claim_spec page : ∀ r kind generation r' l,
  claim r kind generation page = (r', l) →
  dom (rt_owned r') = dom (rt_owned r) ∪ list_to_set (key <$> l) ∧
  NoDup (key <$> l) ∧ (∀ c, c ∈ l → key c ∉ dom (rt_owned r)) ∧
  (∀ k s, rt_owned r !! k = Some s → rt_owned r' !! k = Some s) ∧
  (∀ c, c ∈ l → rt_owned r' !! key c = Some (wc_sequence c)) ∧
  (length l ≤ length page)%nat ∧
  r' = { r with rt_sequence := rt_sequence r'; rt_owned := rt_owned r'; rt_waiting := rt_waiting r + Z.of_nat (length l) }.
Proof.
  induction page as [|c page IH]; intros r kind generation r' l Hc; simpl in Hc.
  { simplify_eq. split_and!; try done; [set_solver|constructor|set_solver|set_solver|].
    rewrite Z.add_0_r. by destruct r'. }
  case_bool_decide as Ho; simpl in Hc.
  { destruct (IH _ _ _ _ _ Hc) as (H1 & H2 & H3 & H4 & H5 & H6 & H7). split_and!; try done. simpl. lia. }
  case_bool_decide as Hb; simpl in Hc.
  { destruct (IH _ _ _ _ _ Hc) as (H1 & H2 & H3 & H4 & H5 & H6 & H7). split_and!; try done. simpl. lia. }
  set (seq := (rt_sequence r + 1) mod 2 ^ 64) in *.
  destruct (claim _ kind generation page) as [r1 l1] eqn:E. simplify_eq.
  destruct (IH _ _ _ _ _ E) as (H1 & H2 & H3 & H4 & H5 & H6 & H7). simpl in *. clear E IH.
  set (c' := { c with wc_sequence := seq; wc_scan := Some (kind, generation) }) in *.
  assert (rt_owned r !! key c' = None) as Hn by (by apply eq_None_not_Some).
  rewrite dom_insert_L in H1, H3. split_and!.
  - set_solver.
  - constructor; [|done]. intros (c0 & Ec & Hc0)%list_elem_of_fmap. apply (H3 _ Hc0). set_solver.
  - intros c0 [->|Hc0]%elem_of_cons; [by apply not_elem_of_dom|]. specialize (H3 _ Hc0). set_solver.
  - intros k s Hk. apply H4. rewrite lookup_insert_ne; [done|congruence].
  - intros c0 [->|Hc0]%elem_of_cons; [|by apply H5]. apply H4. by rewrite lookup_insert_eq.
  - lia.
  - replace (rt_waiting r + _) with (rt_waiting r + 1 + Z.of_nat (length l1)) by lia. exact H7.
Qed.

Lemma add_to_group_permutation c groups : mjoin (snd <$> add_to_group c groups) ≡ₚ c :: mjoin (snd <$> groups).
Proof.
  induction groups as [|[id l] groups IH]; csimpl; [done|]. destruct (id =? wc_instanceID c); csimpl.
  - solve_Permutation.
  - rewrite IH. solve_Permutation.
Qed.

Lemma group_by_parent_permutation l : mjoin (snd <$> group_by_parent l) ≡ₚ l.
Proof.
  assert (∀ groups, mjoin (snd <$> foldl (λ g c, add_to_group c g) groups l) ≡ₚ l ++ mjoin (snd <$> groups)) as H.
  { induction l as [|c l IH]; intros groups; csimpl; [done|]. rewrite IH, add_to_group_permutation. solve_Permutation. }
  rewrite (H []). by rewrite app_nil_r.
Qed.

Lemma rotate_permutation {A} n (l : list A) : rotate n l ≡ₚ l.
Proof. unfold rotate. rewrite Permutation_app_comm. by rewrite take_drop. Qed.

Lemma take_drop_groups n (groups : list (list waitingCandidate)) :
  mjoin (firstn n <$> groups) ++ mjoin (drop n <$> groups) ≡ₚ mjoin groups.
Proof.
  induction groups as [|g groups IH]; csimpl; [done|]. rewrite <-IH. rewrite <-(take_drop n g) at 3. solve_Permutation.
Qed.

Lemma short_groups n (groups : list (list waitingCandidate)) :
  existsb (λ g, (n <? length g)%nat) groups = false → firstn n <$> groups = groups.
Proof.
  induction groups as [|g groups IH]; csimpl; [done|]. intros [Hl%Nat.ltb_ge ?]%orb_false_iff. by rewrite take_ge, IH.
Qed.

(** With as many rounds as the longest group needs, dealing loses nobody. *)
Lemma deal_permutation fuel : ∀ groups,
  Forall (λ g, (length g < fuel)%nat) groups → deal fuel groups ≡ₚ mjoin groups.
Proof.
  induction fuel as [|fuel IH]; intros groups Hg.
  { destruct Hg; [done|lia]. }
  cbn [deal]. destruct (existsb _ groups) eqn:E.
  - apply existsb_exists in E as (g0 & Hg0%list_elem_of_In & Hlong%Nat.ltb_lt).
    pose proof (proj1 (Forall_forall _ _) Hg _ Hg0) as Hshort. simpl in Hshort. unfold dispatchParentShare in *.
    rewrite IH; [apply take_drop_groups|]. apply Forall_fmap. eapply Forall_impl; [exact Hg|].
    intros g Hl. simpl in *. rewrite length_drop. lia.
  - by rewrite app_nil_r, short_groups.
Qed.

Lemma group_length l : Forall (λ g, (length g < S (length l))%nat) (snd <$> group_by_parent l).
Proof.
  apply Forall_forall. intros g Hg. pose proof (Permutation_length (group_by_parent_permutation l)) as Hl.
  rewrite <-Hl. clear Hl. induction (snd <$> group_by_parent l) as [|g' gs IH]; [by apply elem_of_nil in Hg|].
  csimpl. rewrite length_app. apply elem_of_cons in Hg as [->|Hg]; [lia|]. specialize (IH Hg). lia.
Qed.

(** What joins the queue is what was claimed. *)
Lemma dealt_permutation start l : deal (S (length l)) (rotate start (snd <$> group_by_parent l)) ≡ₚ l.
Proof.
  rewrite deal_permutation; [|by rewrite rotate_permutation; apply group_length].
  assert (∀ gs gs' : list (list waitingCandidate), gs ≡ₚ gs' → mjoin gs ≡ₚ mjoin gs') as Hj.
  { intros gs gs' Hp. induction Hp; csimpl; [done|by f_equiv| |by etrans]. solve_Permutation. }
  rewrite (Hj _ _ (rotate_permutation _ _)). apply group_by_parent_permutation.
Qed.

(** ** Every step keeps the invariant *)

Lemma dispatch_new_inv config r : NewRuntime config = Ok r → runtime_inv r.
Proof.
  unfold NewRuntime. break_goal; intros [= <-]. to_prop. split; constructor; simpl; try done; try lia.
  - constructor.
  - intros c Hc. by apply elem_of_nil in Hc.
  - rewrite map_size_empty. symmetry. apply Z.leb_gt. lia.
  - rewrite !map_size_empty. lia.
  - intros [H'|[H'|H']]; [by apply elem_of_nil in H'|done|done].
Qed.

Lemma start_inv r r' : Start r = Ok r' → runtime_inv r → runtime_inv r'.
Proof.
  unfold Start. destruct (rt_started r) eqn:Es; [done|]. destruct (rt_stopping r) eqn:Est; [done|]. simpl. intros [= <-] [Hs Hc Hb Hl].
  destruct (li_unstarted _ Hl Es) as (Hw & Hp & Hsc). destruct Hs, Hc, Hb, Hl. unfold holding in *. rewrite Hw in *. simpl in *.
  split; constructor; unfold holding; simpl; rewrite ?busy_replicate; try done.
  - intros _. by rewrite length_replicate.
  - intros [[]%elem_of_replicate|[?|?]]; [done|congruence|auto].
  - intros Hx. rewrite li_exited in Est by auto. done.
Qed.

(** Adding waiting candidates under fresh keys. *)
Lemma sets_add r r' l :
  sets_inv r → rt_stopping r = false →
  rt_config r' = rt_config r → rt_reserved r' = rt_reserved r → rt_scanner r' = rt_scanner r → rt_stopping r' = rt_stopping r →
  rt_registering r' = rt_registering r → rt_workers r' = rt_workers r →
  rt_pending r' ≡ₚ rt_pending r ++ l → rt_waiting r' = rt_waiting r + Z.of_nat (length l) →
  rt_waiting r' ≤ WaitingCapacity (rt_config r) →
  dom (rt_owned r') = dom (rt_owned r) ∪ list_to_set (key <$> l) →
  NoDup (key <$> l) → (∀ c, c ∈ l → key c ∉ dom (rt_owned r)) →
  (∀ k s, rt_owned r !! k = Some s → rt_owned r' !! k = Some s) →
  (∀ c, c ∈ l → rt_owned r' !! key c = Some (wc_sequence c)) →
  sets_inv r'.
Proof.
  intros [H1 H2 H3 H4 H5 H6 H7 H8 H9] Hst E1 E2 E3 E4 E5 E6 Hp Hw Hcap Hd Hnd Hfresh Hkeep Hnew.
  assert (holding r' ≡ₚ l ++ holding r) as Hh by (unfold holding; rewrite E6, Hp; solve_Permutation).
  assert (∀ c, c ∈ holding r' ↔ c ∈ l ∨ c ∈ holding r) as Hin by (intros c; by rewrite Hh, elem_of_app).
  constructor; rewrite ?E1, ?E2, ?E3, ?E4, ?E5, ?E6; try done.
  - rewrite Hw, Hp, length_app. lia.
  - rewrite Hd, H4. apply set_eq. intros k. rewrite elem_of_union, !elem_of_list_to_set, Hh, fmap_app, elem_of_app. tauto.
  - rewrite Hh, fmap_app. apply NoDup_app. split_and!; [done| |done].
    intros k (c & -> & Hc)%list_elem_of_fmap Hk. apply (Hfresh _ Hc). rewrite H4. by apply elem_of_list_to_set.
  - intros c [Hc|Hc]%Hin; auto.
  - rewrite Hst. done.
Qed.

Lemma hint_inv r id now r' b : Hint r id now = (r', b) → runtime_inv r → runtime_inv r'.
Proof.
  unfold Hint. intros Hh HI. destruct (_ || rt_stopping r) eqn:Eg; [by simplify_eq|].
  apply orb_false_iff in Eg as [Eg Est]. apply orb_false_iff in Eg as [_ Eg]. apply negb_false_iff in Eg.
  pose proof (expire_inv r now HI) as HI'. pose proof (expire_fields r now) as (E1 & E2 & E3 & _). revert HI' Hh.
  generalize dependent (expireConflictsLocked r now). intros r0 E1 E2 E3 HI' Hh.
  case_bool_decide as Ho; [by simplify_eq|]. case_bool_decide as Hc; [by simplify_eq|].
  destruct (Z.eqb_spec (rt_waiting r0) (WaitingCapacity (rt_config r0))); [by simplify_eq|]. simplify_eq.
  destruct HI' as [Hs Hcf Hb Hl]. split; [| |by destruct Hb; constructor|].
  - eapply (sets_add r0 _ [_] Hs); simpl; try done; try congruence.
    + pose proof (si_bound _ Hs). lia.
    + rewrite dom_insert_L. set_solver.
    + apply NoDup_singleton.
    + intros c ->%list_elem_of_singleton. by apply not_elem_of_dom, eq_None_not_Some.
    + intros k s Hk. rewrite lookup_insert_ne; [done|]. intros <-. apply Ho. by rewrite Hk.
    + intros c ->%list_elem_of_singleton. by rewrite lookup_insert_eq.
  - by destruct Hcf; constructor.
  - destruct Hl; constructor; simpl; try done. congruence.
Qed.

(** Operations that leave the sets, the conflicts or the workers alone. *)
Lemma sets_same r r' :
  sets_inv r → rt_config r' = rt_config r → rt_waiting r' = rt_waiting r → rt_reserved r' = rt_reserved r →
  rt_scanner r' = rt_scanner r → rt_pending r' = rt_pending r → rt_owned r' = rt_owned r →
  rt_registering r' = rt_registering r → rt_workers r' = rt_workers r → rt_stopping r' = rt_stopping r → sets_inv r'.
Proof.
  intros [? ? ? ? ? ? ? ? ?] E1 E2 E3 E4 E5 E6 E7 E8 E9. constructor; unfold holding in *; by rewrite ?E1, ?E2, ?E3, ?E4, ?E5, ?E6, ?E7, ?E8, ?E9.
Qed.

(** A full budget is always good. *)
Lemma full_budget_inv r : runtime_inv r → runtime_inv { r with rt_pagesLeft := dispatchPageBudget; rt_budgetResumeAt := 0 }.
Proof.
  intros [Hs Hc [_ _] Hl]. split; [by eapply sets_same|by destruct Hc; constructor| |by destruct Hl; constructor].
  constructor; simpl; [unfold dispatchPageBudget; lia|].
  destruct (rt_scanner r) as [|? ? []| |]; unfold dispatchPageBudget; try done; lia.
Qed.

Lemma refill_fields r now :
  rt_scanner (refill r now) = rt_scanner r ∧ rt_started (refill r now) = rt_started r ∧ rt_scans (refill r now) = rt_scans r ∧
  rt_next (refill r now) = rt_next r ∧ rt_waiting (refill r now) = rt_waiting r ∧ rt_config (refill r now) = rt_config r ∧
  rt_conflictFull (refill r now) = rt_conflictFull r.
Proof. unfold refill. destruct (_ && _); done. Qed.

Lemma refill_inv r now : runtime_inv r → runtime_inv (refill r now).
Proof. intros HI. unfold refill. destruct (_ && _); [by apply full_budget_inv|done]. Qed.

Lemma next_wait_inv r now r' wakeAt : nextPage r now = (r', PageWait wakeAt) → runtime_inv r → runtime_inv r'.
Proof.
  unfold nextPage. intros Hn HI. destruct (rt_stopping r) eqn:Est; [done|].
  pose proof (refill_inv _ now (expire_inv r now HI)) as HI'. break_hyp Hn; done.
Qed.

(** Reserving space for a page. *)
Lemma reserve_inv r kind n :
  runtime_inv r → rt_scanner r = Choosing → rt_started r = true → 0 < rt_pagesLeft r → 0 < n → rt_waiting r + n ≤ WaitingCapacity (rt_config r) →
  runtime_inv (set_scanner (Reading kind n false) { r with rt_reserved := n; rt_waiting := rt_waiting r + n; rt_next := other kind }).
Proof.
  intros [[H1 H2 H3 H4 H5 H6 H7 H8 H9] Hc [Hb1 Hb2] Hl] Hsc Hst Hp Hn Hcap. rewrite Hsc in *.
  split; [|by destruct Hc; constructor|by constructor|].
  - constructor; unfold holding in *; simpl; try done; lia.
  - destruct Hl. constructor; simpl; try done; [congruence|]. intros [?|[?|?]]; [auto|done|auto].
Qed.

Lemma next_inv r now r' kind limit :
  nextPage r now = (r', PageOf kind limit) → rt_scanner r = Choosing → rt_started r = true → runtime_inv r →
  runtime_inv (set_scanner (Reading kind limit false) r').
Proof.
  unfold nextPage. intros Hn Hsc Hst HI. destruct (rt_stopping r) eqn:Est; [done|].
  pose proof (refill_inv _ now (expire_inv r now HI)) as HI'.
  assert (rt_scanner (refill (expireConflictsLocked r now) now) = Choosing ∧ rt_started (refill (expireConflictsLocked r now) now) = true) as [E1 E2].
  { pose proof (expire_fields r now) as (_ & E2 & _ & _ & _ & _ & _ & _ & _ & _ & E1 & _).
    destruct (refill_fields (expireConflictsLocked r now) now) as (F1 & F2 & _). split; congruence. }
  revert HI' E1 E2 Hn. generalize (refill (expireConflictsLocked r now) now). clear. intros r HI Hsc Hst Hn.
  destruct (find _ _) as [k|]; [|done]. destruct (_ && (rt_waiting r <? _)) eqn:Eg; [|done]. to_prop.
  assert (runtime_inv (set_scanner (Reading k (Z.min dispatchPageLimit (WaitingCapacity (rt_config r) - rt_waiting r)) false)
    { r with rt_reserved := Z.min dispatchPageLimit (WaitingCapacity (rt_config r) - rt_waiting r);
             rt_waiting := rt_waiting r + Z.min dispatchPageLimit (WaitingCapacity (rt_config r) - rt_waiting r); rt_next := other k })) as HI'.
  { apply reserve_inv; try done; unfold dispatchPageLimit; lia. }
  simplify_eq. destruct (_ =? 0); [|done]. destruct HI' as [Hs Hc Hb Hl].
  split; [by eapply sets_same|by destruct Hc; constructor|by destruct Hb; constructor|by destruct Hl; constructor].
Qed.

Lemma charge_inv r kind limit now r' err :
  rt_scanner r = Reading kind limit false → chargePage r now = (r', err) → runtime_inv r →
  runtime_inv (match err with Some _ => r' | None => set_scanner (Reading kind limit true) r' end).
Proof.
  unfold chargePage. intros Hsc Hc HI. destruct (rt_stopping r) eqn:Est; [by simplify_eq|].
  pose proof (expire_inv r now HI) as HI'. pose proof (expire_fields r now) as (_ & _ & _ & _ & _ & _ & _ & _ & _ & _ & E & _).
  revert HI' E Hc. generalize (expireConflictsLocked r now). intros r0 HI' E Hc. rewrite Hsc in E. clear HI Hsc Est.
  destruct (rt_conflictFull r0); simplify_eq; [done|]. destruct HI' as [Hs Hcf [Hb1 Hb2] Hl]. rewrite E in Hb2.
  split; [|by destruct Hcf; constructor| |].
  - destruct Hs; constructor; unfold holding in *; simpl; try done; by rewrite E in *.
  - constructor; simpl; [|done]. destruct (_ =? 0); lia.
  - destruct Hl; constructor; simpl; try done.
    + intros Hx. apply li_unstarted in Hx as (_ & _ & Hx). congruence.
    + intros [?|[?|?]]; [auto|done|auto].
Qed.

(** The scanner moving on with the sets, conflicts and budget of [r'] unchanged. *)
Lemma life_scanner r r' :
  life_inv r → rt_config r' = rt_config r → rt_started r' = rt_started r → rt_stopping r' = rt_stopping r →
  rt_completed r' = rt_completed r → rt_workers r' = rt_workers r →
  rt_started r = true → (rt_scanner r' = ScanExited → rt_stopping r = true) → life_inv r'.
Proof.
  intros [? ? ? ? ?] E1 E2 E3 E4 E5 Hst Hx. constructor; rewrite ?E1, ?E2, ?E3, ?E4, ?E5; try done; [congruence|].
  intros [?|[?|?]]; auto.
Qed.

Lemma conflicts_same r r' :
  conflict_inv r → rt_config r' = rt_config r → rt_conflicted r' = rt_conflicted r → rt_conflictUntil r' = rt_conflictUntil r →
  rt_conflictFull r' = rt_conflictFull r → rt_registering r' = rt_registering r → conflict_inv r'.
Proof. intros [? ? ? ?] E1 E2 E3 E4 E5. constructor; by rewrite ?E1, ?E2, ?E3, ?E4, ?E5. Qed.

Lemma started_scanning r : life_inv r → rt_scanner r ≠ Choosing → rt_started r = true.
Proof. intros Hl Hsc. destruct (rt_started r) eqn:E; [done|]. by destruct (li_unstarted _ Hl E) as (_ & _ & ?). Qed.

Lemma read_inv r kind limit charged state result now delay :
  rt_scanner r = Reading kind limit charged → may_return limit charged result → 0 < now → 0 < delay → runtime_inv r →
  runtime_inv (set_scanner (HasRead kind limit result) (set_scan kind state (startPause r now delay))).
Proof.
  intros Hsc Hm Hn Hd [Hs Hc [Hb1 Hb2] Hl].
  assert (rt_started r = true) as Hst by (apply started_scanning; congruence).
  unfold startPause. rewrite Hsc in Hb2.
  assert (match result with Ok (page, _) => Z.of_nat (length page) ≤ limit | Fail _ => True end) as Hlen
    by (destruct result as [[page ?]|]; [by destruct Hm|done]).
  destruct ((rt_pagesLeft r =? 0) && is_zero (rt_budgetResumeAt r)) eqn:E; unfold is_zero in E.
  - split; [|by eapply conflicts_same| |by eapply life_scanner].
    + destruct Hs; constructor; unfold holding in *; simpl; rewrite ?Hsc in *; done.
    + constructor; simpl; lia.
  - split; [|by eapply conflicts_same| |by eapply life_scanner].
    + destruct Hs; constructor; unfold holding in *; simpl; rewrite ?Hsc in *; done.
    + constructor; simpl; [done|]. to_cases; lia.
Qed.

(** The reservation given back. *)
Lemma release_page_sets r s :
  sets_inv r → (match s with Choosing | ScanExited => True | _ => False end) → sets_inv (set_scanner s (releasePage r)).
Proof.
  intros [H1 H2 H3 H4 H5 H6 H7 H8 H9] Hs.
  assert (0 ≤ rt_reserved r) by (destruct (rt_scanner r); lia).
  destruct s; try done; constructor; unfold holding in *; simpl; try done; lia.
Qed.

Lemma page_failed_inv r kind limit e state :
  rt_scanner r = HasRead kind limit (Fail e) → runtime_inv r →
  runtime_inv (set_scanner Choosing (set_scan kind state (releasePage r))).
Proof.
  intros Hsc [Hs Hc [Hb1 Hb2] Hl]. assert (rt_started r = true) as Hst by (apply started_scanning; congruence). rewrite Hsc in Hb2.
  split; [|by eapply conflicts_same|by constructor|by eapply life_scanner].
  eapply sets_same; [apply (release_page_sets r Choosing Hs); done|..]; done.
Qed.

Lemma page_inv r kind limit page atEnd generation now rnd state r' ok :
  rt_scanner r = HasRead kind limit (Ok (page, atEnd)) → admitPage r page kind generation now rnd = (r', ok) → runtime_inv r →
  runtime_inv (set_scanner (if ok : bool then Choosing else ScanExited) (set_scan kind state r')).
Proof.
  intros Hsc Ha HI. pose proof HI as [Hs Hc [Hb1 Hb2] Hl]. assert (rt_started r = true) as Hst by (apply started_scanning; congruence).
  rewrite Hsc in Hb2. pose proof (si_read _ Hs) as Hlen. pose proof (si_reserved _ Hs) as Hres. rewrite Hsc in Hlen, Hres.
  unfold admitPage in Ha. fold (releasePage r) in Ha. cbv zeta in Ha.
  change (rt_stopping (releasePage r)) with (rt_stopping r) in Ha. destruct (rt_stopping r) eqn:Est.
  { simplify_eq. split; [|by eapply conflicts_same|by constructor|by eapply life_scanner].
    eapply sets_same; [apply (release_page_sets r ScanExited Hs); done|..]; done. }
  assert (runtime_inv (set_scanner Choosing (releasePage r))) as HI0.
  { split; [by apply release_page_sets|by eapply conflicts_same|by constructor|by eapply life_scanner]. }
  assert (set_scanner Choosing (expireConflictsLocked (releasePage r) now) = expireConflictsLocked (set_scanner Choosing (releasePage r)) now) as Ee
    by (unfold expireConflictsLocked; simpl; destruct (_ && _); done).
  pose proof (expire_inv _ now HI0) as HI1. rewrite <-Ee in HI1. clear HI0 Ee.
  pose proof (expire_fields (releasePage r) now) as (E1 & E2 & E3 & _ & E5 & _ & _). simpl in E1, E2, E3, E5.
  revert HI1 E1 E2 E3 E5 Ha. generalize (expireConflictsLocked (releasePage r) now). intros r0 HI1 E1 E2 E3 E5 Ha.
  destruct (claim r0 kind generation page) as [r1 l] eqn:Ecl. simplify_eq.
  apply claim_spec in Ecl as (H1 & H2 & H3 & H4 & H5 & H6 & H7). destruct HI1 as [Hs1 Hc1 Hb' Hl1].
  pose proof (si_bound _ Hs) as Hcap.
  remember (rt_owned r1) as owned eqn:Eo. remember (rt_sequence r1) as sequence eqn:Eq. clear Eo Eq. subst r1.
  split; [|by eapply conflicts_same|by destruct Hb'; constructor|eapply life_scanner; [exact Hl1|..]; try done; simpl; congruence].
  apply (sets_add _ _ l Hs1); simpl; try done; try congruence.
  - apply Permutation_app_head, dealt_permutation.
  - rewrite E1, E5. lia.
Qed.

(** ** Taking a candidate *)

Lemma pick_spec registering lastParent share pending : ∀ pos best i,
  pick registering lastParent share pos best pending = Some i →
  best = Some i ∨ ∃ c, (pos ≤ i)%nat ∧ pending !! (i - pos)%nat = Some c ∧ registering !! wc_instanceID c = None.
Proof.
  induction pending as [|c rest IH]; intros pos best i; simpl; [by left|].
  case_bool_decide as Hr.
  - intros [->|(c' & ? & Hl & ?)]%IH; [by left|]. right. exists c'. split_and!; [lia| |done].
    replace (i - pos)%nat with (S (i - S pos)) by lia. done.
  - apply eq_None_not_Some in Hr.
    assert (∃ c', (pos ≤ pos)%nat ∧ (c :: rest) !! (pos - pos)%nat = Some c' ∧ registering !! wc_instanceID c' = None) as Hhere
      by (exists c; by rewrite Nat.sub_diag).
    destruct (_ && _); [intros [= <-]; by right|]. destruct (_ <? _)%nat.
    + destruct best as [b|]; intros [= <-]; [by left|by right].
    + intros [Hb|(c' & ? & Hl & ?)]%IH; [destruct best; simplify_eq; [by left|by right]|]. right. exists c'. split_and!; [lia| |done].
      replace (i - pos)%nat with (S (i - S pos)) by lia. done.
Qed.

Lemma size_list_to_set_le (l : list Z) : (size (list_to_set l : gset Z) ≤ length l)%nat.
Proof.
  induction l as [|x l IH]; [done|]. simpl list_to_set.
  rewrite size_union_alt, size_singleton. simpl length.
  pose proof (subseteq_size (list_to_set l ∖ {[x]} : gset Z) (list_to_set l) ltac:(set_solver)). lia.
Qed.

Lemma size_registering r : sets_inv r → (size (rt_registering r) ≤ length (busy (rt_workers r)))%nat.
Proof.
  intros Hs. rewrite <-size_dom. etrans; [|rewrite <-(length_fmap wc_instanceID); apply size_list_to_set_le].
  apply subseteq_size. intros id [c Hc]%elem_of_dom. apply (si_registering _ Hs) in Hc as [<- Hc].
  apply elem_of_list_to_set, list_elem_of_fmap. eauto.
Qed.

(** What [take] does when it hands out a candidate. *)
Lemma take_spec r now r' c :
  take r now = (r', TakeCandidate c) → let r0 := expireConflictsLocked r now in
  rt_stopping r = false ∧ rt_conflictFull r0 = false ∧ rt_registering r0 !! wc_instanceID c = None ∧
  ∃ i, rt_pending r0 !! i = Some c ∧ pick (rt_registering r0) (rt_lastParent r0) (rt_parentShare r0) 0 None (rt_pending r0) = Some i ∧
  r' = { r0 with rt_pending := delete i (rt_pending r0); rt_waiting := rt_waiting r0 - 1;
                 rt_registering := <[wc_instanceID c := c]> (rt_registering r0);
                 rt_parentShare := if rt_lastParent r0 =? wc_instanceID c then ((rt_parentShare r0 + 1) `min` dispatchParentShare)%nat else 1%nat;
                 rt_lastParent := wc_instanceID c }.
Proof.
  unfold take. destruct (rt_stopping r); [done|]. cbv zeta. generalize (expireConflictsLocked r now). intros r0 Ht.
  destruct (rt_conflictFull r0); [done|]. destruct (pick _ _ _ _ _ _) as [i|] eqn:Ep; [|done]. simpl in Ht.
  destruct (rt_pending r0 !! i) as [c'|] eqn:Ec; simplify_eq/=. split_and!; [done|done| |eauto].
  apply pick_spec in Ep as [[=]|(c' & _ & Hc' & Hr)]. rewrite Nat.sub_0_r in Hc'. by simplify_eq.
Qed.

Lemma dispatch_take_inv r k now r' c :
  rt_workers r !! k = Some Idle → take r now = (r', TakeCandidate c) → runtime_inv r → runtime_inv (set_worker k (Busy c) r').
Proof.
  intros Hk Ht HI. apply take_spec in Ht as (Hst & Hfull & Hreg & i & Hi & _ & ->). pose proof (expire_inv r now HI) as HI'.
  pose proof (expire_fields r now) as (_ & _ & Es & _ & _ & _ & _ & _ & _ & E & _). rewrite <-E in Hk. rewrite <-Es in Hst.
  revert HI' Hk Hst Hfull Hreg Hi. generalize (expireConflictsLocked r now). clear. intros r [Hs Hc Hb Hl] Hk Hst Hfull Hreg Hi.
  set (ws := <[k := Busy c]> (rt_workers r)).
  assert (busy ws ≡ₚ c :: busy (rt_workers r)) as Hbusy by (by apply busy_take).
  pose proof (delete_Permutation _ _ _ Hi) as Hdel. pose proof (Permutation_length Hdel) as Hlen. simpl in Hlen.
  assert (delete i (rt_pending r) ++ busy ws ≡ₚ holding r) as Hh.
  { unfold holding. rewrite Hbusy, (Permutation_app_tail (busy (rt_workers r)) Hdel). solve_Permutation. }
  assert (sets_inv (set_worker k (Busy c) { r with rt_pending := delete i (rt_pending r); rt_waiting := rt_waiting r - 1;
    rt_registering := <[wc_instanceID c := c]> (rt_registering r) })) as Hs'.
  { destruct Hs. constructor; unfold holding; simpl; fold ws; try done; try lia.
    - rewrite si_owned. apply set_eq. intros x. by rewrite !elem_of_list_to_set, Hh.
    - by rewrite Hh.
    - intros c0. rewrite Hh. auto.
    - intros id c0 [[<- <-]|[_ Hid]]%lookup_insert_Some; rewrite Hbusy; [split; [done|by left]|].
      apply si_registering in Hid as [-> ?]. split; [done|by right].
    - congruence. }
  split; [by eapply sets_same| |by destruct Hb; constructor|].
  - pose proof (size_registering _ Hs') as Hsz. pose proof (length_busy ws) as Hlb. destruct Hc, Hl. constructor; simpl in *; try done.
    rewrite Hfull in ci_full. symmetry in ci_full. apply Z.leb_gt in ci_full.
    destruct (rt_started r) eqn:Est; [|destruct li_unstarted as (Hw & _); [done|]; by rewrite Hw in Hk].
    unfold ws in Hlb at 2. rewrite length_insert, li_workers in Hlb by done. fold ws in Hsz. lia.
  - destruct Hl. constructor; simpl; try done.
    + intros Hx. destruct (li_unstarted Hx) as (Hw & _). by rewrite Hw in Hk.
    + intros Hx. rewrite length_insert. auto.
    + intros [[?|?]%exited_insert|?]; [done|auto|auto].
    + intros Hx. rewrite li_exited in Hst by auto. done.
Qed.

(** ** Dropping waiting candidates *)

Lemma disown_lookup (l : list waitingCandidate) : ∀ (m : gmap candidateKey Z) k,
  foldl (λ m c, delete (key c) m) m l !! k = if decide (k ∈ key <$> l) then None else m !! k.
Proof.
  induction l as [|c l IH]; intros m k; cbn [foldl].
  { case_decide as Hk; [by apply elem_of_nil in Hk|done]. }
  rewrite IH, fmap_cons. destruct (decide (k = key c)) as [->|Hne].
  - rewrite lookup_delete_eq. by repeat case_decide; set_solver.
  - rewrite lookup_delete_ne by done. by repeat case_decide; set_solver.
Qed.

Lemma sets_drop r kept dropped stop :
  sets_inv r → rt_pending r ≡ₚ kept ++ dropped → (stop = true → kept = []) →
  sets_inv { r with rt_stopping := stop; rt_owned := foldl (λ m c, delete (key c) m) (rt_owned r) dropped;
                    rt_waiting := rt_waiting r - Z.of_nat (length dropped); rt_pending := kept }.
Proof.
  intros [H1 H2 H3 H4 H5 H6 H7 H8 H9] Hp Hstop. set (r' := { r with rt_stopping := _; rt_owned := _ ; rt_waiting := _ ; rt_pending := _ }).
  assert (holding r ≡ₚ dropped ++ holding r') as Hh by (unfold holding, r'; simpl; rewrite Hp; solve_Permutation).
  rewrite Hh, fmap_app in H5. apply NoDup_app in H5 as (Hd & Hdis & Hk).
  pose proof (Permutation_length Hp) as Hlen. rewrite length_app in Hlen.
  constructor; simpl; try done; try lia.
  - apply set_eq. intros k. rewrite elem_of_dom, disown_lookup. destruct (decide (k ∈ key <$> dropped)) as [Hin|Hni].
    + split; [intros [? [=]]|]. intros Hk'%elem_of_list_to_set. by destruct (Hdis k).
    + rewrite <-elem_of_dom, H4, !elem_of_list_to_set, Hh, fmap_app, elem_of_app. tauto.
  - intros c Hc. rewrite disown_lookup, decide_False.
    + apply H6. rewrite Hh, elem_of_app. by right.
    + intros Hin. apply (Hdis _ Hin). by apply list_elem_of_fmap_2.
Qed.

Lemma stop_inv r : runtime_inv r → runtime_inv (Stop r).
Proof.
  intros [Hs Hc Hb Hl]. unfold Stop. destruct (rt_stopping r) eqn:Est; [by split|].
  pose proof (sets_drop r [] (rt_pending r) true Hs (reflexivity _) (λ _, eq_refl)) as Hs'.
  destruct (rt_started r) eqn:Es; simpl; rewrite Es; simpl.
  - split; [by eapply sets_same|by eapply conflicts_same|by destruct Hb; constructor|].
    destruct Hl; constructor; simpl; try done. congruence.
  - split; [by eapply sets_same|by eapply conflicts_same|by destruct Hb; constructor|].
    destruct Hl; constructor; simpl; try done; [naive_solver|]. intros _. destruct (li_unstarted Es) as [-> _]. done.
Qed.

Lemma drain_inv r done r' res : Drain r done = (r', res) → runtime_inv r → runtime_inv r'.
Proof.
  unfold Drain. intros Hd HI%stop_inv. break_hyp Hd; try done. destruct HI as [Hs Hc Hb Hl].
  split; [by eapply sets_same|by eapply conflicts_same|by destruct Hb; constructor|by destruct Hl; constructor].
Qed.

Lemma dispatch_finish_inv r drainDone :
  rt_scanner r = ScanExited → forallb exited (rt_workers r) = true → runtime_inv r → runtime_inv (finish r drainDone).
Proof.
  intros Hsc Hw [Hs Hc Hb Hl]. pose proof (started_scanning _ Hl ltac:(congruence)) as Hst.
  split; [by eapply sets_same|by eapply conflicts_same|by destruct Hb; constructor|].
  destruct Hl; constructor; simpl; try done. intros _. apply li_exited. auto.
Qed.

(** ** Registration results *)

(** The parent gate opened: one registration fewer, so one more conflict may be noted. *)
Definition room_for_conflict (r : Runtime) : Prop :=
  Z.of_nat (size (rt_conflicted r)) + Z.of_nat (size (rt_registering r)) ≤ WaitingCapacity (rt_config r) - 2 + Concurrency (rt_config r).

Lemma gate_open r c :
  runtime_inv r → rt_registering r !! wc_instanceID c = Some c →
  runtime_inv { r with rt_registering := delete (wc_instanceID c) (rt_registering r) } ∧
  room_for_conflict { r with rt_registering := delete (wc_instanceID c) (rt_registering r) }.
Proof.
  intros [Hs Hc Hb Hl] Hr. pose proof (map_size_delete_Some (M := gmap Z) (wc_instanceID c) (rt_registering r) (mk_is_Some _ _ Hr)) as Hsz.
  assert (size (rt_registering r) ≠ 0%nat) as Hn by (apply map_size_non_empty_iff; intros E; by rewrite E, lookup_empty in Hr).
  pose proof (ci_bound _ Hc). unfold room_for_conflict. simpl. split; [|lia].
  split; [|destruct Hc; constructor; simpl; [done|lia|done|done]|by destruct Hb; constructor|by destruct Hl; constructor].
  destruct Hs; constructor; simpl; try done. intros id c' Hid. apply lookup_delete_Some in Hid as [_ Hid]. by apply si_registering.
Qed.

Lemma expire_room r now : room_for_conflict r → room_for_conflict (expireConflictsLocked r now).
Proof.
  unfold room_for_conflict, expireConflictsLocked. destruct (_ && _); [|done]. simpl.
  pose proof (map_subseteq_size _ _ (map_filter_subseteq (λ p : Z * Time, before now p.2 = true) (rt_conflicted r))). lia.
Qed.

(** Suppressing a parent, as far as the conflicts go. *)
Definition note_conflict (r : Runtime) (id : Z) (until : Time) : Runtime :=
  match rt_conflicted r !! id with
  | Some _ => r
  | None => { r with rt_conflicted := <[id := until]> (rt_conflicted r); rt_conflictUntil := earlier (rt_conflictUntil r) until }
  end.

Lemma note_conflict_inv r r' id until :
  conflict_inv r → room_for_conflict r → 0 < until →
  rt_config r' = rt_config r → rt_registering r' = rt_registering r →
  rt_conflicted r' = rt_conflicted (note_conflict r id until) → rt_conflictUntil r' = rt_conflictUntil (note_conflict r id until) →
  rt_conflictFull r' = (WaitingCapacity (rt_config r) <=? Z.of_nat (size (rt_conflicted (note_conflict r id until)))) →
  conflict_inv r'.
Proof.
  intros [Hf Hb Hu Hn] Hroom Hpos E1 E2 E3 E4 E5. unfold note_conflict, room_for_conflict in *.
  assert (0 ≤ rt_conflictUntil r) as H0.
  { destruct (decide (rt_conflicted r = ∅)) as [E|E]; [rewrite (Hn E); lia|].
    destruct (map_choose _ E) as (i & u & Hi). pose proof (Hu _ _ Hi). lia. }
  destruct (rt_conflicted r !! id) as [u|] eqn:Eid.
  - constructor; rewrite ?E1, ?E2, ?E3, ?E4, ?E5; done.
  - simpl in *. destruct (earlier_pos _ _ H0 Hpos) as (He1 & He2 & He3).
    constructor; rewrite ?E1, ?E2, ?E3, ?E4, ?E5; [done|rewrite map_size_insert_None by done; lia| |].
    + intros i u [[<- <-]|[_ Hi]]%lookup_insert_Some; [done|]. pose proof (Hu _ _ Hi). lia.
    + intros Hx. by apply insert_non_empty in Hx.
Qed.

Lemma block_inv r id now delay :
  runtime_inv r → room_for_conflict r → 0 < now → 0 < delay → runtime_inv (blockParentLocked r id now delay).
Proof.
  intros HI Hroom Hn Hd. pose proof (expire_inv r now HI) as HI'. pose proof (expire_room r now Hroom) as Hroom'.
  unfold blockParentLocked. revert HI' Hroom'. generalize (expireConflictsLocked r now). clear HI Hroom. intros r0 [Hs Hc Hb Hl] Hroom.
  fold (note_conflict r0 id (now + delay)). set (r1 := note_conflict r0 id (now + delay)).
  assert (rt_config r1 = rt_config r0 ∧ rt_waiting r1 = rt_waiting r0 ∧ rt_reserved r1 = rt_reserved r0 ∧ rt_scanner r1 = rt_scanner r0 ∧
    rt_pending r1 = rt_pending r0 ∧ rt_owned r1 = rt_owned r0 ∧ rt_registering r1 = rt_registering r0 ∧ rt_workers r1 = rt_workers r0 ∧
    rt_stopping r1 = rt_stopping r0 ∧ rt_started r1 = rt_started r0 ∧ rt_completed r1 = rt_completed r0 ∧
    rt_pagesLeft r1 = rt_pagesLeft r0 ∧ rt_budgetResumeAt r1 = rt_budgetResumeAt r0)
    as (E1 & E2 & E3 & E4 & E5 & E6 & E7 & E8 & E9 & E10 & E11 & E12 & E13).
  { unfold r1, note_conflict. destruct (_ !! _); done. }
  set (kept := filter (λ c, wc_instanceID c ≠ id) (rt_pending r1)).
  set (dropped := filter (λ c, wc_instanceID c = id) (rt_pending r1)).
  assert (rt_pending r1 ≡ₚ kept ++ dropped) as Hp by (unfold kept, dropped; rewrite Permutation_app_comm; symmetry; apply filter_app_complement).
  assert (sets_inv r1) as Hs1 by (by eapply sets_same).
  assert (rt_stopping r1 = true → kept = []) as Hk by (intros Hx; unfold kept; by rewrite (si_stopped _ Hs1 Hx)).
  split.
  - eapply sets_same; [apply (sets_drop r1 kept dropped (rt_stopping r1) Hs1 Hp Hk)|..]; done.
  - eapply (note_conflict_inv r0 _ id (now + delay)); try done; [lia|simpl; by rewrite E1].
  - destruct Hb; constructor; simpl; by rewrite ?E4, ?E12, ?E13.
  - destruct Hl; constructor; simpl; rewrite ?E1, ?E4, ?E8, ?E9, ?E10, ?E11; try done.
    intros Hx. destruct (li_unstarted Hx) as (? & Hx' & ?). split_and!; try done. unfold kept. by rewrite E5, Hx'.
Qed.

Lemma registered_inv r c confirmed err now delay :
  0 < now → 0 < delay → runtime_inv r → runtime_inv (registrationFinished r c confirmed err now delay).
Proof.
  intros Hn Hd HI. unfold registrationFinished. case_bool_decide as Hr; [|done]. destruct (gate_open r c HI Hr) as [HI' Hroom].
  cbv zeta. generalize dependent ({ r with rt_registering := delete (wc_instanceID c) (rt_registering r) }). intros r0 HI' Hroom.
  assert (runtime_inv (match err with Some e => if errors_is e ErrInstanceLocked then blockParentLocked r0 (wc_instanceID c) now delay else r0 | None => r0 end)) as HI1.
  { destruct err as [e|]; [|done]. destruct (errors_is _ _); [by apply block_inv|done]. }
  revert HI1. generalize (match err with Some e => if errors_is e ErrInstanceLocked then blockParentLocked r0 (wc_instanceID c) now delay else r0 | None => r0 end).
  intros r1 HI1. destruct (wc_scan c) as [[kind generation]|]; [|done]. destruct (_ && _); [by apply full_budget_inv|done].
Qed.

Lemma release_inv r k c :
  rt_workers r !! k = Some (Busy c) → rt_registering r !! wc_instanceID c ≠ Some c → runtime_inv r →
  runtime_inv (set_worker k Idle (releaseOwned r c)).
Proof.
  intros Hk Hr [Hs Hc Hb Hl]. pose proof (busy_release _ _ _ Idle Hk eq_refl) as Hbusy. set (ws := <[k := Idle]> (rt_workers r)) in *.
  assert (holding r ≡ₚ c :: rt_pending r ++ busy ws) as Hh by (unfold holding; rewrite Hbusy; solve_Permutation).
  assert (rt_owned r !! key c = Some (wc_sequence c)) as Ho by (apply (si_sequence _ Hs); rewrite Hh; by left).
  unfold releaseOwned. rewrite bool_decide_eq_true_2 by done.
  assert (rt_started r = true) as Hst by (destruct (rt_started r) eqn:E; [done|]; destruct (li_unstarted _ Hl E) as (Hw & _); by rewrite Hw in Hk).
  split; [|by eapply conflicts_same|by destruct Hb; constructor|].
  - destruct Hs. rewrite Hh in si_once. apply NoDup_cons in si_once as [Hni Hnd]. constructor; unfold holding; simpl; fold ws; try done.
    + rewrite dom_delete_L, si_owned. apply set_eq. intros x.
      rewrite elem_of_difference, !elem_of_list_to_set, Hh, elem_of_singleton. simpl. rewrite elem_of_cons. split; [tauto|].
      intros Hx. split; [by right|]. intros ->. done.
    + intros c' Hc'. rewrite lookup_delete_ne; [apply si_sequence; rewrite Hh; by right|]. intros E. apply Hni. rewrite E. by apply list_elem_of_fmap_2.
    + intros id c' Hid. destruct (si_registering id c' Hid) as [<- Hin]. split; [done|]. rewrite Hbusy in Hin.
      apply elem_of_cons in Hin as [->|?]; [|done]. done.
  - destruct Hl; constructor; simpl; try done; [congruence|by rewrite length_insert| |].
    + intros [[?|?]%exited_insert|?]; [done|auto|auto].
    + intros Hx. exfalso. pose proof (exited_lookup _ _ _ (li_completed Hx) Hk). done.
Qed.

Lemma dispatch_exit_inv r k : rt_workers r !! k = Some Idle → rt_stopping r = true → runtime_inv r → runtime_inv (set_worker k Exited r).
Proof.
  intros Hk Hst [Hs Hc Hb Hl]. pose proof (busy_exit _ _ Hk) as Hbusy.
  split; [|by eapply conflicts_same|by destruct Hb; constructor|].
  - assert (holding (set_worker k Exited r) ≡ₚ holding r) as Hh by (unfold holding; simpl; by rewrite Hbusy).
    destruct Hs; constructor; simpl; try done; rewrite ?Hh; try done.
    + intros c. rewrite Hh. auto.
    + intros id c. rewrite Hbusy. auto.
  - destruct Hl; constructor; simpl; try done.
    + intros Hx. destruct (li_unstarted Hx) as (Hw & _). by rewrite Hw in Hk.
    + rewrite length_insert. done.
    + intros Hx. pose proof (exited_lookup _ _ _ (li_completed Hx) Hk). done.
Qed.

Lemma step_runtime_inv r r' : step r r' → runtime_inv r → runtime_inv r'.
Proof.
  destruct 1 as [r r' H|r id now r' b Hn H|r now r' kind limit Hs Hc Hn H|r now r' wakeAt Hs Hc Hn H|r now r' Hs Hc H
    |r kind limit now r' err Hc Hn H|r kind limit charged state result now delay Hc Hm Hn Hd|r kind limit e now delay Hc
    |r kind limit page atEnd now rnd delay r' ok Hc Hn H|r k now r' c Hk Hn H|r k now r' wakeAt Hk Hn H|r k now r' Hk H
    |r id now r' res Hn H|r k c confirmed err now delay Hk Hn Hd|r k c Hk Hr|r|r done r' res H|r Hd|r drainDone Hs Hc Hsc Hw]; intros HI.
  - by eapply start_inv.
  - by eapply hint_inv.
  - by eapply next_inv.
  - by eapply next_wait_inv.
  - unfold nextPage in H. destruct (rt_stopping r) eqn:Est; [|break_hyp H]. simplify_eq.
    destruct HI as [Hse Hcf Hb Hl]. split; [|by eapply conflicts_same|by destruct Hb; constructor|by eapply life_scanner].
    destruct Hse; constructor; unfold holding in *; simpl; rewrite ?Hc in *; done.
  - by eapply charge_inv.
  - by eapply read_inv.
  - by eapply page_failed_inv.
  - by eapply page_inv.
  - by eapply dispatch_take_inv.
  - unfold take in H. destruct (rt_stopping r); [done|]. pose proof (expire_inv r now HI). break_hyp H; done.
  - unfold take in H. destruct (rt_stopping r) eqn:Est; [|break_hyp H]. simplify_eq. by eapply dispatch_exit_inv.
  - unfold registrationCandidate in H. simplify_eq. by apply expire_inv.
  - by apply registered_inv.
  - by apply release_inv.
  - by apply stop_inv.
  - by eapply drain_inv.
  - destruct HI as [Hs Hc Hb Hl]. split; [by eapply sets_same|by eapply conflicts_same|by destruct Hb; constructor|by destruct Hl; constructor].
  - by apply dispatch_finish_inv.
Qed.

(** No operation changes the settings. *)
Lemma expire_config r now : rt_config (expireConflictsLocked r now) = rt_config r.
Proof. apply expire_fields. Qed.
Lemma refill_config r now : rt_config (refill r now) = rt_config r.
Proof. apply refill_fields. Qed.
Lemma claim_config page r kind generation r' l : claim r kind generation page = (r', l) → rt_config r' = rt_config r.
Proof. intros (_ & _ & _ & _ & _ & _ & ->)%claim_spec. done. Qed.
Lemma block_config r id now delay : rt_config (blockParentLocked r id now delay) = rt_config r.
Proof. unfold blockParentLocked. simpl. case_match; simpl; apply expire_config. Qed.
Lemma stop_config r : rt_config (Stop r) = rt_config r.
Proof. unfold Stop. by repeat case_match. Qed.

Ltac same_config := simplify_eq; simpl; rewrite ?refill_config, ?expire_config, ?block_config, ?stop_config; try done.

Lemma step_config r r' : step r r' → rt_config r' = rt_config r.
Proof.
  destruct 1 as [r r' H|r id now r' b Hn H|r now r' kind limit Hs Hc Hn H|r now r' wakeAt Hs Hc Hn H|r now r' Hs Hc H
    |r kind limit now r' err Hc Hn H|r kind limit charged state result now delay Hc Hm Hn Hd|r kind limit e now delay Hc
    |r kind limit page atEnd now rnd delay r' ok Hc Hn H|r k now r' c Hk Hn H|r k now r' wakeAt Hk Hn H|r k now r' Hk H
    |r id now r' res Hn H|r k c confirmed err now delay Hk Hn Hd|r k c Hk Hr|r|r done r' res H|r Hd|r drainDone Hs Hc Hsc Hw]; simpl.
  - unfold Start in H. break_hyp H; same_config.
  - unfold Hint in H. repeat case_match; same_config.
  - unfold nextPage in H. repeat case_match; same_config.
  - unfold nextPage in H. repeat case_match; same_config.
  - unfold nextPage in H. repeat case_match; same_config.
  - unfold chargePage in H. repeat case_match; same_config.
  - unfold startPause. case_match; same_config.
  - done.
  - unfold admitPage in H. repeat case_match; same_config. by erewrite claim_config, expire_config by done.
  - apply take_spec in H as (_ & _ & _ & i & _ & _ & ->). same_config.
  - unfold take in H. repeat case_match; same_config.
  - unfold take in H. repeat case_match; same_config.
  - unfold registrationCandidate in H. same_config.
  - unfold registrationFinished. repeat case_match; cbn -[blockParentLocked]; rewrite ?block_config; done.
  - unfold releaseOwned. case_match; same_config.
  - apply stop_config.
  - unfold Drain in H. repeat case_match; same_config.
  - done.
  - done.
Qed.

(** States of a runtime in use. *)
Definition reachable (config : RuntimeConfig) (r : Runtime) : Prop := ∃ r0, NewRuntime config = Ok r0 ∧ rtc step r0 r.

Lemma reachable_inv config r : reachable config r → runtime_inv r ∧ rt_config r = config.
Proof.
  intros (r0 & Hnew & Hrun).
  assert (rt_config r0 = config) as Hcfg by (unfold NewRuntime in Hnew; break_hyp Hnew; done).
  pose proof (dispatch_new_inv _ _ Hnew) as HI. clear Hnew. induction Hrun as [r|r r1 r2 Hs _ IH]; [done|].
  apply IH; [|by eapply step_runtime_inv].
  rewrite <-Hcfg. by apply step_config.
Qed.

(** ** Bounds and deduplication *)

(** C22: Whatever the interleaving of the scanner, the workers, hints, registrations,
    Stop and Drain, the memory of a dispatch runtime stays within its settings:
    waiting candidates and the space reserved for the page being read never exceed
    WaitingCapacity, at most Concurrency candidates are being dispatched, every owned
    identity belongs to one of those, and at most WaitingCapacity - 1 + Concurrency
    parents are recorded as conflicted. *)
Theorem dispatch_bounded config r :
  reachable config r →
  Z.of_nat (length (rt_pending r)) + rt_reserved r ≤ WaitingCapacity config ∧
  Z.of_nat (length (busy (rt_workers r))) ≤ Concurrency config ∧
  Z.of_nat (size (rt_owned r)) = Z.of_nat (length (rt_pending r)) + Z.of_nat (length (busy (rt_workers r))) ∧
  Z.of_nat (size (rt_conflicted r)) ≤ WaitingCapacity config - 1 + Concurrency config.
Proof.
  intros ([Hs Hc Hb Hl] & <-)%reachable_inv. split_and!.
  - rewrite <-(si_waiting _ Hs). apply (si_bound _ Hs).
  - pose proof (length_busy (rt_workers r)). pose proof (li_config _ Hl). destruct (rt_started r) eqn:Est.
    + rewrite (li_workers _ Hl Est) in *. lia.
    + destruct (li_unstarted _ Hl Est) as (Hw & _). rewrite Hw. simpl. lia.
  - rewrite <-size_dom, (si_owned _ Hs), size_list_to_set by apply Hs. unfold holding. rewrite length_fmap, length_app. lia.
  - pose proof (ci_bound _ Hc). lia.
Qed.

(** A dispatch runtime never holds the same first dispatch or the same retry
    attempt twice: two workers busy with the same identity are the same worker, an
    identity that a worker is dispatching is not waiting as well, and no identity waits
    twice.  A candidate is handed to a worker only while no registration of its parent
    is in progress, and then holds the parent's only registration. *)
Theorem dispatch_once config r :
  reachable config r →
  (∀ k1 k2 c1 c2, rt_workers r !! k1 = Some (Busy c1) → rt_workers r !! k2 = Some (Busy c2) → key c1 = key c2 → k1 = k2) ∧
  (∀ k c c', rt_workers r !! k = Some (Busy c) → c' ∈ rt_pending r → key c ≠ key c') ∧
  NoDup (key <$> rt_pending r) ∧
  (∀ now r' c, take r now = (r', TakeCandidate c) →
     rt_registering r !! wc_instanceID c = None ∧ rt_registering r' = <[wc_instanceID c := c]> (rt_registering r)).
Proof.
  intros ([Hs _ _ _] & _)%reachable_inv. pose proof (si_once _ Hs) as Hnd. unfold holding in Hnd. rewrite fmap_app in Hnd.
  apply NoDup_app in Hnd as (Hp & Hdis & Hb). split_and!; [| |done|].
  - intros k1 k2 c1 c2 H1 H2 E. destruct (decide (k1 = k2)) as [->|Hne]; [done|exfalso].
    pose proof (busy_release _ _ _ Idle H1 eq_refl) as Hb1. rewrite Hb1 in Hb. apply NoDup_cons in Hb as [Hni _].
    apply Hni. rewrite E. apply list_elem_of_fmap_2, elem_of_busy. exists k2. by rewrite list_lookup_insert_ne.
  - intros k c c' Hk Hc' E. apply (Hdis (key c')); [by apply list_elem_of_fmap_2|]. rewrite <-E.
    apply list_elem_of_fmap_2, elem_of_busy. eauto.
  - intros now r' c Ht. apply take_spec in Ht as (_ & _ & Hr & i & _ & _ & ->).
    pose proof (expire_fields r now) as (_ & _ & _ & _ & _ & _ & _ & _ & E & _). rewrite E in Hr. simpl. by rewrite E.
Qed.

(** ** Progress of the scanner *)

Lemma expire_not_full r now :
  runtime_inv r → (∀ id u, rt_conflicted r !! id = Some u → u ≤ now) → rt_conflictFull (expireConflictsLocked r now) = false.
Proof.
  intros HI Hall. pose proof (expire_inv r now HI) as [_ Hc _ Hl]. rewrite (ci_full _ Hc), expire_all; [|apply HI|done].
  rewrite map_size_empty. apply Z.leb_gt. apply Hl.
Qed.

Lemma refill_pages r now : budget_inv r → rt_scanner r = Choosing → rt_budgetResumeAt r ≤ now → 0 < rt_pagesLeft (refill r now).
Proof.
  intros [Hb1 Hb2] Hsc Hn. rewrite Hsc in Hb2. unfold refill, is_zero, before.
  destruct (Z.eqb_spec (rt_pagesLeft r) 0); simpl; [|lia].
  rewrite (proj2 (Z.eqb_neq _ _)), (proj2 (Z.ltb_ge now _)) by lia. simpl. unfold dispatchPageBudget. lia.
Qed.

(** While the map is full its earliest deadline lies ahead. *)
Lemma expire_deadline r now :
  runtime_inv r → rt_conflictFull (expireConflictsLocked r now) = true → now < rt_conflictUntil (expireConflictsLocked r now).
Proof.
  intros HI Hf. pose proof (expire_inv r now HI) as [_ Hc _ Hl]. rewrite (ci_full _ Hc) in Hf. apply Z.leb_le in Hf.
  assert (rt_conflicted (expireConflictsLocked r now) ≠ ∅) as Hne.
  { intros E. rewrite E, map_size_empty in Hf. pose proof (li_config _ Hl). lia. }
  destruct (map_choose _ Hne) as (id & u & Hid). pose proof (ci_until _ Hc _ _ Hid) as Hpos.
  unfold expireConflictsLocked, is_zero, before in *. destruct (negb _ && _) eqn:E; simpl in *.
  - destruct (earliest_after now (filter (λ p : Z * Time, (now <? p.2) = true) (rt_conflicted r))) as [E0|]; [|lia|done].
    intros i v [_ Hv]%map_lookup_filter_Some. simpl in Hv. by apply Z.ltb_lt.
  - apply andb_false_iff in E as [E|E]; to_prop; lia.
Qed.

Lemma all_before (m : gmap Z Time) : ∃ t, ∀ id u, m !! id = Some u → u ≤ t.
Proof.
  induction m as [|id u m Hn [t IH]] using map_ind; [exists 0; intros id u Hu; by rewrite lookup_empty in Hu|].
  exists (Z.max t u). intros id' u' [[<- <-]|[_ Hu]]%lookup_insert_Some; [lia|]. specialize (IH _ _ Hu). lia.
Qed.

(** The state in which [nextPage] makes its choice. *)
Lemma choice_state r now :
  runtime_inv r → rt_scanner r = Choosing → let r0 := refill (expireConflictsLocked r now) now in
  rt_waiting r0 = rt_waiting r ∧ rt_config r0 = rt_config r ∧ rt_scans r0 = rt_scans r ∧ rt_next r0 = rt_next r ∧
  rt_conflictFull r0 = rt_conflictFull (expireConflictsLocked r now) ∧
  (rt_pagesLeft r0 = 0 → now < rt_budgetResumeAt r0) ∧ (rt_conflictFull r0 = true → now < rt_conflictUntil r0) ∧
  (rt_budgetResumeAt r ≤ now → 0 < rt_pagesLeft r0) ∧ 0 ≤ rt_pagesLeft r0.
Proof.
  intros HI Hsc. cbv zeta. pose proof (expire_inv r now HI) as HI'.
  pose proof (expire_fields r now) as (E1 & _ & _ & _ & E5 & _ & _ & _ & _ & _ & E11 & E12 & E13 & E14 & _ & _ & E17).
  pose proof (refill_fields (expireConflictsLocked r now) now) as (_ & _ & F3 & F4 & F5 & F6 & F7).
  split_and!; try congruence.
  - intros Hz. destruct (Z.ltb_spec now (rt_budgetResumeAt (refill (expireConflictsLocked r now) now))) as [|Hge]; [done|].
    pose proof (refill_pages (expireConflictsLocked r now) now (ri_budget _ HI')) as Hr.
    unfold refill in *. destruct (_ && _); [done|]. rewrite Hz in Hr. pose proof (Hr ltac:(congruence) Hge). lia.
  - intros Hf. rewrite F7 in Hf. assert (rt_conflictUntil (refill (expireConflictsLocked r now) now) = rt_conflictUntil (expireConflictsLocked r now)) as ->
      by (unfold refill; destruct (_ && _); done).
    by apply expire_deadline.
  - intros Hr. apply refill_pages; [apply HI'|congruence|congruence].
  - apply (bi_range _ (ri_budget _ (refill_inv _ now HI'))).
Qed.

(** A scanner with room, whose deadlines have all passed, reads a page. *)
Lemma page_chosen r now :
  runtime_inv r → rt_scanner r = Choosing → rt_stopping r = false → rt_waiting r < WaitingCapacity (rt_config r) →
  (∀ id u, rt_conflicted r !! id = Some u → u ≤ now) → rt_budgetResumeAt r ≤ now → cs_readyAt (rt_scans r (rt_next r)) ≤ now →
  ∃ r' kind limit, nextPage r now = (r', PageOf kind limit) ∧ 0 < limit.
Proof.
  intros HI Hsc Hst Hw Hall Hb Hr. unfold nextPage. rewrite Hst.
  destruct (choice_state r now HI Hsc) as (E1 & E2 & E3 & E4 & E5 & _ & _ & E6 & _). specialize (E6 Hb).
  rewrite expire_not_full in E5 by done. cbv zeta. rewrite E1, E2, E3, E4, E5. simpl. unfold is_after.
  rewrite (proj2 (Z.ltb_ge _ _) Hr). simpl. rewrite (proj2 (Z.ltb_lt _ _) E6), (proj2 (Z.ltb_lt _ _) Hw). simpl.
  do 3 eexists. split; [done|]. unfold dispatchPageLimit. lia.
Qed.

Lemma earlier_alarm now a b : (a = 0 ∨ now < a) → now < b → 0 < now → now < earlier a b.
Proof.
  intros Ha Hb Hn. destruct (earlier_after now a b Ha Hb) as [E|]; [|done]. revert E.
  unfold earlier, is_zero, before. destruct (Z.eqb_spec a 0), (Z.ltb_spec b a); simpl; lia.
Qed.

(** A scanner that finds nothing to read has an alarm, unless the set is full. *)
Lemma wait_alarmed r now r' wakeAt :
  runtime_inv r → rt_scanner r = Choosing → rt_stopping r = false → 0 < now → nextPage r now = (r', PageWait wakeAt) →
  now < wakeAt ∨ rt_waiting r = WaitingCapacity (rt_config r).
Proof.
  intros HI Hsc Hst Hn. unfold nextPage. rewrite Hst.
  destruct (choice_state r now HI Hsc) as (E1 & E2 & E3 & E4 & E5 & E6 & E7 & _ & E8). revert E1 E2 E3 E4 E5 E6 E7 E8.
  generalize (refill (expireConflictsLocked r now) now). intros r0 E1 E2 E3 E4 _ E6 E7 E8. cbv zeta.
  pose proof (si_bound _ (ri_sets _ HI)) as Hcap. rewrite E1, E2, E3, E4. clear HI Hsc Hst.
  set (f := λ t kind, if negb (is_after (cs_readyAt (rt_scans r kind)) now) then t else earlier t (cs_readyAt (rt_scans r kind))).
  assert (∀ t kind, t = 0 ∨ now < t → f t kind = 0 ∨ now < f t kind) as Hf.
  { intros t kind Ht. unfold f, is_after. destruct (Z.ltb_spec now (cs_readyAt (rt_scans r kind))); simpl; [|done]. by apply earlier_after. }
  set (w0 := foldl f 0 [rt_next r; other (rt_next r)]).
  assert (w0 = 0 ∨ now < w0) as Hw0 by (simpl in w0; subst w0; apply Hf, Hf; by left).
  set (w1 := if rt_pagesLeft r0 =? 0 then earlier w0 (rt_budgetResumeAt r0) else w0).
  assert ((w1 = 0 ∨ now < w1) ∧ (rt_pagesLeft r0 = 0 → now < w1) ∧ (now < w0 → now < w1)) as (Hw1 & Hp1 & Hm1).
  { subst w1. destruct (Z.eqb_spec (rt_pagesLeft r0) 0) as [Hz|Hz]; [|tauto].
    pose proof (earlier_alarm now w0 (rt_budgetResumeAt r0) Hw0 (E6 Hz) Hn). tauto. }
  set (w2 := if rt_conflictFull r0 then earlier w1 (rt_conflictUntil r0) else w1).
  assert ((rt_conflictFull r0 = true → now < w2) ∧ (now < w1 → now < w2)) as (Hp2 & Hm2).
  { subst w2. destruct (rt_conflictFull r0) eqn:Hz; [|split; [done|tauto]].
    pose proof (earlier_alarm now w1 (rt_conflictUntil r0) Hw1 (E7 eq_refl) Hn). tauto. }
  intros Hnp. destruct (find _ _) as [kind|] eqn:Ef.
  - destruct (_ && (rt_waiting r <? _)) eqn:Eg; [done|]. simplify_eq. apply andb_false_iff in Eg as [[Eg|Eg]%andb_false_iff|Eg]; to_prop.
    + left. apply Hm2, Hp1. lia.
    + left. auto.
    + right. lia.
  - simplify_eq. left. apply Hm2, Hm1. pose proof (find_none _ _ Ef (other (rt_next r)) (or_intror (or_introl eq_refl))) as Hx.
    simpl in Hx. subst w0. simpl. unfold f at 1. rewrite Hx. apply negb_false_iff, Z.ltb_lt in Hx.
    apply earlier_alarm; [|done|done]. apply Hf. by left.
Qed.

(** C23: The dispatch scanner never stalls.  In every reachable state in which it chooses
    its next page of a running runtime that still has room, there is a time from which
    the choice succeeds, however many conflicts are recorded, however little of the page
    budget is left and whichever traversal ended last; and whenever it goes to sleep
    without a timer, the waiting set is full, so that a worker's take wakes it. *)
Theorem dispatch_never_stalls config r :
  reachable config r → rt_scanner r = Choosing → rt_stopping r = false →
  (rt_waiting r < WaitingCapacity config → ∃ t, ∀ now, t ≤ now → ∃ r' kind limit, nextPage r now = (r', PageOf kind limit) ∧ 0 < limit) ∧
  (∀ now r' wakeAt, 0 < now → nextPage r now = (r', PageWait wakeAt) → now < wakeAt ∨ rt_waiting r = WaitingCapacity config).
Proof.
  intros (HI & <-)%reachable_inv Hsc Hst. split.
  - intros Hw. destruct (all_before (rt_conflicted r)) as [t Ht].
    exists (Z.max t (Z.max (rt_budgetResumeAt r) (cs_readyAt (rt_scans r (rt_next r))))). intros now Hnow.
    apply page_chosen; try done; try lia. intros id u Hu. specialize (Ht _ _ Hu). lia.
  - intros now r' wakeAt Hn Hp. by eapply wait_alarmed.
Qed.

(** ** The page reader keeps the scanner's side of the reservation *)

Section reader.
Context `{PgLib, PageBudget}.

(** A page holds no more rows than were reserved, and rows only if a charge was
    granted. *)
Definition within (limit : Z) (res : Result (list waitingCandidate * bool)) : Prop :=
  match res with
  | Ok (page, _) => Z.of_nat (length page) ≤ limit ∧ (page = [] ∨ ∃ n, charge_answer n = None)
  | Fail _ => True
  end.

Lemma charged_within (m : M (list waitingCandidate * bool)) limit w :
  (∀ w w' page atEnd, m w = (w', Ok (page, atEnd)) → Z.of_nat (length page) ≤ limit) →
  within limit ((charge;; m) w).2.
Proof.
  intros Hm. unfold charge, mbind, M_bind. cbn -[charge_answer]. destruct (charge_answer (w_at w)) eqn:E; [done|].
  destruct (m _) as [w' [[page atEnd]|e]] eqn:Em; [|done]. simpl. split; [by eapply Hm|]. right. eauto.
Qed.

Lemma read_waiting_within state limit w : within limit (read_waiting state limit w).2.
Proof.
  apply charged_within. intros w1 w2 page atEnd. unfold mbind, M_bind. destruct (sourceCall _ w1) as [w3 [ids|]]; [|done].
  destruct (validWaitingPage _ _ _ _) eqn:E; simpl; [|done]. intros [= _ <- _]. rewrite length_fmap.
  unfold validWaitingPage in E. to_prop. done.
Qed.

Lemma read_retries_within state limit w : within limit (read_retries state limit w).2.
Proof.
  apply charged_within. intros w1 w2 page atEnd. unfold mbind, M_bind. destruct (sourceCall _ w1) as [w3 [rows|]]; [|done].
  destruct (validRetryPage _ _ _ _) eqn:E; simpl; [|done]. intros [= _ <- _]. rewrite length_fmap.
  unfold validRetryPage in E. to_prop. done.
Qed.

(** Reading a page always returns, and with a result [step_read] allows. *)
Lemma readPage_within kind state limit w :
  0 < limit → ∃ w' state' res, readPage kind state limit w = (w', Ok (state', res)) ∧ within limit res.
Proof.
  intros Hl.
  assert (∀ (m : M (list waitingCandidate * bool)) (st : candidateScan) w, (∀ w, within limit (m w).2) →
    ∃ w' state' res, (page ← attempt m; mret (st, page)) w = (w', Ok (state', res)) ∧ within limit res) as Hread.
  { intros m st w0 Hm. specialize (Hm w0). unfold mbind, M_bind, attempt. destruct (m w0) as [w1 res]. eauto. }
  assert (within limit (Ok ([], true))) as Hempty by (simpl; split; [lia|by left]).
  unfold readPage. destruct kind.
  - destruct (_ =? 0); [|apply Hread, read_waiting_within].
    destruct (attempt_ok (sourceCall (MaxWaitingID Auto)) w) as (w1 & r & E). rewrite (bind_ok _ _ _ _ _ E).
    destruct r as [upper|e]; [|by do 3 eexists]. destruct (upper <? 0); [by do 3 eexists|].
    destruct (upper =? 0); [by do 3 eexists|]. apply Hread, read_waiting_within.
  - destruct (is_zero _); [|apply Hread, read_retries_within].
    destruct (attempt_ok (sourceCall (DatabaseTime Auto)) w) as (w1 & r & E). rewrite (bind_ok _ _ _ _ _ E).
    destruct r as [now|e]; [|by do 3 eexists]. destruct (is_zero now); [by do 3 eexists|]. apply Hread, read_retries_within.
Qed.
End reader.

(** ** A run *)

Definition demo_config : RuntimeConfig :=
  {| Concurrency := 1; WaitingCapacity := 2; ScanInterval := 10; QueryTimeout := 1; TotalTimeout := 1; BusyDelay := 1 |}.
(** One hint, taken by the only worker. *)
Definition got {A} (x : Result A) : match x with Ok _ => A | Fail _ => unit end :=
  match x with Ok a => a | Fail _ => () end.
Definition demo_new : Runtime := Eval vm_compute in got (NewRuntime demo_config).
Definition demo_started : Runtime := Eval vm_compute in got (Start demo_new).
Definition demo_hinted : Runtime := Eval vm_compute in (Hint demo_started 7 5).1.
Definition demo_candidate : waitingCandidate := {| wc_sequence := 1; wc_instanceID := 7; wc_retry := None; wc_scan := None |}.
Definition demo_taken : Runtime := Eval vm_compute in set_worker 0 (Busy demo_candidate) (take demo_hinted 6).1.

Lemma dispatch_demo_reachable : reachable demo_config demo_taken.
Proof.
  exists demo_new. split; [evaluate|].
  eapply rtc_l; [apply (step_start _ demo_started); evaluate|].
  eapply rtc_l; [apply (step_hint _ 7 5 demo_hinted true); [done|evaluate]|].
  eapply rtc_l; [|apply rtc_refl].
  assert (demo_taken = set_worker 0 (Busy demo_candidate) (take demo_hinted 6).1) as -> by evaluate.
  apply (step_take _ 0 6); [evaluate|done|evaluate].
Qed.

Lemma dispatch_bounded_witness :
  reachable demo_config demo_taken ∧ size (rt_owned demo_taken) = 1%nat ∧ Z.of_nat (length (busy (rt_workers demo_taken))) ≤ 1.
Proof.
  split_and!; [exact dispatch_demo_reachable|evaluate|]. apply (dispatch_bounded demo_config demo_taken dispatch_demo_reachable).
Defined.

Lemma dispatch_once_witness :
  reachable demo_config demo_taken ∧ rt_registering demo_taken !! 7 = Some demo_candidate ∧ NoDup (key <$> rt_pending demo_taken).
Proof.
  split_and!; [exact dispatch_demo_reachable|evaluate|]. apply (dispatch_once demo_config demo_taken dispatch_demo_reachable).
Defined.

Lemma dispatch_never_stalls_witness :
  ∃ t, ∀ now, t ≤ now → ∃ r' kind limit, nextPage demo_taken now = (r', PageOf kind limit) ∧ 0 < limit.
Proof. apply (dispatch_never_stalls demo_config demo_taken dispatch_demo_reachable); done. Defined.
