(* ===== verification/GoText.v ===== *)
(** * Trimming valid text

    Facts about the model of [strings.TrimSpace] and [unicode/utf8] in GoLib.v that
    request validation relies on: trimming valid UTF-8 keeps it valid, is idempotent,
    and never makes a text longer.  The second part models the text
    functions the requests and executors use. *)

From stdpp Require Import pretty.
From S2P Require Import Prelude GoLib Model.

Open Scope Z_scope.

(** ** Bytes and strings *)

Lemma byte_of_range c : 0 ≤ byte_of c < 256.
Proof. unfold byte_of. pose proof (Ascii.N_ascii_bounded c). lia. Qed.

Lemma of_bytes_bytes s : of_bytes (bytes s) = s.
Proof.
  unfold of_bytes, bytes. rewrite <- list_fmap_compose.
  rewrite <- (String.string_of_list_ascii_of_string s) at 2. f_equal.
  induction (String.list_ascii_of_string s) as [|c l IH]; [done|]. csimpl. f_equal; [|done].
  unfold byte_of. by rewrite N2Z.id, Ascii.ascii_N_embedding.
Qed.

Lemma bytes_of_bytes l : Forall (λ b, 0 ≤ b < 256) l → bytes (of_bytes l) = l.
Proof.
  unfold of_bytes, bytes. rewrite String.list_ascii_of_string_of_list_ascii, <- list_fmap_compose.
  induction 1 as [|b l Hb _ IH]; [done|]. csimpl. f_equal; [|done].
  unfold byte_of. rewrite Ascii.N_ascii_embedding by lia. lia.
Qed.

Lemma bytes_range s : Forall (λ b, 0 ≤ b < 256) (bytes s).
Proof. unfold bytes. apply Forall_fmap, Forall_true. intros c. apply byte_of_range. Qed.

(** ** Runes *)

(** A rune whose encoding is recognised whatever follows. *)
Definition whole (r : option Z * list Z) : Prop := ∀ rest, runes (r.2 ++ rest) = r :: runes rest.

Lemma runes_whole_n n l : (length l ≤ n)%nat → Forall (λ r, is_Some r.1 → whole r) (runes l) ∧ mjoin (snd <$> runes l) = l.
Proof.
  revert l. induction n as [|n IH]; intros l Hn; [by destruct l; [|simpl in Hn; lia]|].
  destruct l as [|b0 t0]; [done|]. simpl in Hn. simpl.
  assert (∀ t, (length t ≤ length t0)%nat → Forall (λ r, is_Some r.1 → whole r) (runes t) ∧ mjoin (snd <$> runes t) = t) as IH' by (intros; apply IH; lia).
  destruct (b0 <? 128) eqn:E0.
  { destruct (IH' t0) as [Hw Hj]; [lia|]. split; [|csimpl; by rewrite Hj]. constructor; [|done]. intros _ rest. simpl. by rewrite E0. }
  assert (Forall (λ r, is_Some r.1 → whole r) ((None, [b0]) :: runes t0) ∧ mjoin (snd <$> (None, [b0]) :: runes t0) = b0 :: t0) as Hbad.
  { destruct (IH' t0) as [Hw Hj]; [lia|]. split; [|csimpl; by rewrite Hj]. constructor; [|done]. by intros []. }
  destruct t0 as [|b1 t1]; [done|]. simpl in IH'. destruct (lead2 b0 && cont b1) eqn:E1.
  { destruct (IH' t1) as [Hw Hj]; [lia|]. split; [|csimpl; by rewrite Hj]. constructor; [|done]. intros _ rest. simpl. by rewrite E0, E1. }
  destruct t1 as [|b2 t2]; [done|]. simpl in IH'. destruct (lead3 b0 b1 && cont b2) eqn:E2.
  { destruct (IH' t2) as [Hw Hj]; [lia|]. split; [|csimpl; by rewrite Hj]. constructor; [|done]. intros _ rest. simpl. by rewrite E0, E1, E2. }
  destruct t2 as [|b3 t3]; [done|]. simpl in IH'. destruct (lead4 b0 b1 && cont b2 && cont b3) eqn:E3; [|done].
  destruct (IH' t3) as [Hw Hj]; [lia|]. split; [|csimpl; by rewrite Hj]. constructor; [|done]. intros _ rest. simpl. by rewrite E0, E1, E2, E3.
Qed.

Lemma runes_join l : mjoin (snd <$> runes l) = l.
Proof. by apply (runes_whole_n (length l)). Qed.

Lemma runes_of_whole rs : Forall whole rs → runes (mjoin (snd <$> rs)) = rs.
Proof. induction 1 as [|r rs Hr _ IH]; [done|]. csimpl. by rewrite Hr, IH. Qed.

Lemma valid_runes s : ValidString s = true → Forall (λ r, is_Some r.1 ∧ whole r) (runes (bytes s)).
Proof.
  unfold ValidString. intros Hv. apply Is_true_eq_left, forallb_True in Hv.
  pose proof (proj1 (runes_whole_n _ (bytes s) (le_n _))) as Hw. rewrite Forall_forall in Hw, Hv |- *.
  intros r Hr. specialize (Hv r Hr). apply bool_decide_unpack in Hv. split; [done|]. by apply Hw.
Qed.

(** ** TrimSpace *)

Definition trim (rs : list (option Z * list Z)) : list (option Z * list Z) :=
  reverse (drop_while space_rune (reverse (drop_while space_rune rs))).

Lemma drop_while_suffix {A} (p : A → bool) l : drop_while p l `suffix_of` l.
Proof. induction l as [|x l IH]; [done|]. simpl. destruct (p x); [by apply suffix_cons_r|done]. Qed.

Lemma drop_while_head {A} (p : A → bool) l : match drop_while p l with [] => True | x :: _ => p x = false end.
Proof. induction l as [|x l IH]; simpl; [done|]. by destruct (p x) eqn:E. Qed.

Lemma drop_while_id {A} (p : A → bool) l : match l with [] => True | x :: _ => p x = false end → drop_while p l = l.
Proof. destruct l; simpl; [done|]. by intros ->. Qed.

(** Trimming keeps a contiguous part. *)
Lemma trim_part rs : ∃ pre suf, rs = pre ++ trim rs ++ suf.
Proof.
  destruct (drop_while_suffix space_rune rs) as [pre Hp].
  destruct (drop_while_suffix space_rune (reverse (drop_while space_rune rs))) as [k Hk].
  exists pre, (reverse k). rewrite Hp at 1. f_equal. unfold trim. rewrite <- reverse_app, <- Hk. by rewrite reverse_involutive.
Qed.

Lemma last_head {A} (l : list A) : head (reverse l) = last l.
Proof. induction l as [|x l IH] using rev_ind; [done|]. by rewrite reverse_snoc, last_snoc. Qed.

Lemma trim_idempotent rs : trim (trim rs) = trim rs.
Proof.
  unfold trim at 1. set (l := trim rs).
  assert (match reverse l with [] => True | x :: _ => space_rune x = false end) as Hl.
  { unfold l, trim. rewrite reverse_involutive. apply drop_while_head. }
  assert (match l with [] => True | x :: _ => space_rune x = false end) as Hf.
  { destruct l as [|x l'] eqn:El; [done|]. pose proof (drop_while_head space_rune rs) as Hh.
    destruct (drop_while_suffix space_rune (reverse (drop_while space_rune rs))) as [k Hk].
    assert (drop_while space_rune rs = l ++ reverse k) as Hd.
    { unfold l, trim. rewrite <- reverse_app, <- Hk. by rewrite reverse_involutive. }
    rewrite Hd, El in Hh. done. }
  rewrite (drop_while_id _ l Hf), (drop_while_id _ _ Hl). apply reverse_involutive.
Qed.

Lemma trim_Forall P rs : Forall P rs → Forall P (trim rs).
Proof. destruct (trim_part rs) as (pre & suf & E). rewrite E at 1. by rewrite !Forall_app; intros (_ & ? & _). Qed.

Section valid.
Context (s : string) (Hv : ValidString s = true).

Lemma runes_TrimSpace : runes (bytes (TrimSpace s)) = trim (runes (bytes s)).
Proof.
  pose proof (trim_Forall _ _ (valid_runes s Hv)) as Hw. unfold TrimSpace. fold (trim (runes (bytes s))).
  rewrite bytes_of_bytes.
  - apply runes_of_whole. eapply Forall_impl; [exact Hw|]. by intros r [].
  - pose proof (bytes_range s) as Hb. rewrite <- (runes_join (bytes s)) in Hb.
    destruct (trim_part (runes (bytes s))) as (pre & suf & E). rewrite E, !fmap_app, !join_app, !Forall_app in Hb. tauto.
Qed.

Lemma TrimSpace_idem : TrimSpace (TrimSpace s) = TrimSpace s.
Proof.
  transitivity (of_bytes (mjoin (snd <$> trim (runes (bytes (TrimSpace s)))))); [done|].
  rewrite runes_TrimSpace, trim_idempotent. done.
Qed.

Lemma ValidString_TrimSpace : ValidString (TrimSpace s) = true.
Proof.
  unfold ValidString. rewrite runes_TrimSpace. apply Is_true_true, forallb_True, trim_Forall.
  eapply Forall_impl; [exact (valid_runes s Hv)|]. intros r [Hr _]. by apply bool_decide_pack.
Qed.

Lemma ContainsNul_TrimSpace : ContainsNul s = false → ContainsNul (TrimSpace s) = false.
Proof.
  unfold ContainsNul. intros Hn. rewrite <- (runes_join (bytes (TrimSpace s))), runes_TrimSpace.
  rewrite <- (runes_join (bytes s)) in Hn. destruct (trim_part (runes (bytes s))) as (pre & suf & E).
  rewrite E, !fmap_app, !join_app, !existsb_app in Hn. apply orb_false_iff in Hn as [_ Hn]. by apply orb_false_iff in Hn as [Hn _].
Qed.

Lemma RuneCount_TrimSpace : RuneCountInString (TrimSpace s) ≤ RuneCountInString s.
Proof.
  unfold RuneCountInString. rewrite runes_TrimSpace. destruct (trim_part (runes (bytes s))) as (pre & suf & E).
  rewrite E at 2. rewrite !length_app. lia.
Qed.
End valid.

(** * More of Go's text packages

    [strings.Split] and [strings.Join] on one byte, [strings.ToLower] on ASCII,
    [strconv.FormatInt] and the unpadded URL alphabet of [encoding/base64]. *)

(** ** Splitting and joining *)

Fixpoint split_on (b : Z) (l : list Z) : list (list Z) :=
  match l with
  | [] => [[]]
  | x :: l => match split_on b l with
              | seg :: rest => if x =? b then [] :: seg :: rest else (x :: seg) :: rest
              | [] => []
              end
  end.
Definition join_with (b : Z) (segs : list (list Z)) : list Z :=
  match segs with [] => [] | seg :: rest => seg ++ mjoin ((λ s, b :: s) <$> rest) end.

Lemma split_on_ne b l : split_on b l ≠ [].
Proof. induction l as [|x l IH]; [done|]. simpl. destruct (split_on b l); [done|]. by destruct (x =? b). Qed.

Lemma split_on_none b l : has b l = false → split_on b l = [l].
Proof.
  induction l as [|x l IH]; [done|]. unfold has. simpl. intros [Hx Hl]%orb_false_iff. rewrite IH by done.
  by rewrite Z.eqb_sym, Hx.
Qed.

Lemma split_on_app b l k : has b l = false → split_on b (l ++ b :: k) = l :: split_on b k.
Proof.
  induction l as [|x l IH]; unfold has; simpl.
  - intros _. destruct (split_on b k) eqn:E; [by apply split_on_ne in E|]. by rewrite Z.eqb_refl.
  - intros [Hx Hl]%orb_false_iff. rewrite IH by done. by rewrite Z.eqb_sym, Hx.
Qed.

(** [strconv.FormatInt(z, 10)]. *)
Definition FormatInt (z : Z) : string := pretty z.

(** [strings.ToLower] of a byte of ASCII text. *)
Definition lower_byte (b : Z) : Z := if between 65 90 b then b + 32 else b.

(** ** [base64.RawURLEncoding] *)

Definition b64_char (v : Z) : Z :=
  if v <? 26 then 65 + v else if v <? 52 then 71 + v else if v <? 62 then v - 4 else if v =? 62 then 45 else 95.
Definition b64_value (c : Z) : option Z :=
  if between 65 90 c then Some (c - 65) else if between 97 122 c then Some (c - 71)
  else if between 48 57 c then Some (c + 4) else if c =? 45 then Some 62 else if c =? 95 then Some 63 else None.

Fixpoint b64_sextets (l : list Z) : list Z :=
  match l with
  | a :: b :: c :: t => a / 4 :: a mod 4 * 16 + b / 16 :: b mod 16 * 4 + c / 64 :: c mod 64 :: b64_sextets t
  | [a; b] => [a / 4; a mod 4 * 16 + b / 16; b mod 16 * 4]
  | [a] => [a / 4; a mod 4 * 16]
  | [] => []
  end.
Definition b64_encode (l : list Z) : list Z := b64_char <$> b64_sextets l.

(** The decoder drops line breaks, and does not insist that unused trailing bits are 0. *)
Fixpoint b64_groups (l : list Z) : option (list Z) :=
  match l with
  | [] => Some []
  | [_] => None
  | [v; w] => Some [v * 4 + w / 16]
  | [v; w; x] => Some [v * 4 + w / 16; w mod 16 * 16 + x / 4]
  | v :: w :: x :: y :: t =>
      match b64_groups t with
      | Some r => Some (v * 4 + w / 16 :: w mod 16 * 16 + x / 4 :: x mod 4 * 64 + y :: r)
      | None => None
      end
  end.
Definition b64_decode (l : list Z) : option (list Z) :=
  match mapM b64_value (filter (λ c, c ≠ 10 ∧ c ≠ 13) l) with Some vs => b64_groups vs | None => None end.

Definition is_byte (b : Z) : Prop := 0 ≤ b < 256.

Lemma b64_char_range v : 0 ≤ v < 64 → 45 ≤ b64_char v ≤ 122 ∧ b64_char v ≠ 46.
Proof. intros Hv. unfold b64_char. repeat case_match; to_prop; lia. Qed.

Lemma b64_value_char v : 0 ≤ v < 64 → b64_value (b64_char v) = Some v.
Proof.
  intros Hv. unfold b64_char. destruct (Z.ltb_spec v 26); [|destruct (Z.ltb_spec v 52); [|destruct (Z.ltb_spec v 62); [|destruct (Z.eqb_spec v 62)]]];
  unfold b64_value, between; repeat (case_match; to_prop; to_cases; try lia); f_equal; lia.
Qed.

Lemma triples_ind (P : list Z → Prop) :
  P [] → (∀ a, P [a]) → (∀ a b, P [a; b]) → (∀ a b c t, P t → P (a :: b :: c :: t)) → ∀ l, P l.
Proof.
  intros H0 H1 H2 H3. assert (∀ n l, (length l ≤ n)%nat → P l) as H by (induction n as [|n IH]; intros [|a [|b [|c t]]] Hl; simpl in Hl; try lia; auto; apply H3, IH; lia).
  intros l. by apply (H (length l)).
Qed.

Lemma sextets_range l : Forall is_byte l → Forall (λ v, 0 ≤ v < 64) (b64_sextets l).
Proof.
  unfold is_byte. induction l as [|a|a b|a b c t IH] using triples_ind; simpl; intros Hl; repeat (apply Forall_cons in Hl as [? Hl]);
    repeat constructor; try (by apply IH); Z.div_mod_to_equations; lia.
Qed.

Lemma groups_sextets l : Forall is_byte l → b64_groups (b64_sextets l) = Some l.
Proof.
  unfold is_byte. induction l as [|a|a b|a b c t IH] using triples_ind; simpl; intros Hl; repeat (apply Forall_cons in Hl as [? Hl]);
    [done| | |rewrite IH by done]; repeat f_equal; Z.div_mod_to_equations; lia.
Qed.

Lemma b64_no_dot l : Forall is_byte l → has 46 (b64_encode l) = false.
Proof.
  intros Hl. unfold has. apply not_true_iff_false. rewrite existsb_exists. intros (c & Hc & He). apply Z.eqb_eq in He as <-.
  apply list_elem_of_In, list_elem_of_fmap in Hc as (v & Hv & Hin).
  pose proof (proj1 (Forall_forall _ _) (sextets_range l Hl) v Hin). by destruct (b64_char_range v).
Qed.

Lemma b64_bytes l : Forall is_byte l → Forall is_byte (b64_encode l).
Proof.
  intros Hl. unfold b64_encode. apply Forall_fmap. eapply Forall_impl; [exact (sextets_range l Hl)|].
  intros v Hv. simpl. destruct (b64_char_range v Hv). unfold is_byte. lia.
Qed.

Lemma b64_roundtrip l : Forall is_byte l → b64_decode (b64_encode l) = Some l.
Proof.
  intros Hl. unfold b64_decode. pose proof (sextets_range l Hl) as Hr.
  assert (mapM b64_value (filter (λ c, c ≠ 10 ∧ c ≠ 13) (b64_encode l)) = Some (b64_sextets l)) as ->; [|by apply groups_sextets].
  unfold b64_encode. induction Hr as [|v vs Hv _ IH]; [done|]. rewrite fmap_cons.
  destruct (b64_char_range v Hv). rewrite filter_cons_True by lia. simpl. rewrite b64_value_char by done. simpl. by rewrite IH.
Qed.

Lemma b64_inj l k : Forall is_byte l → Forall is_byte k → b64_encode l = b64_encode k → l = k.
Proof. intros Hl Hk E. apply b64_roundtrip in Hl, Hk. congruence. Qed.

Lemma length_b64 l : Z.of_nat (length (b64_encode l)) = (4 * Z.of_nat (length l) + 2) / 3.
Proof.
  unfold b64_encode. rewrite length_fmap. induction l as [|a|a b|a b c t IH] using triples_ind; simpl; [done..|].
  rewrite !Nat2Z.inj_succ, IH. Z.div_mod_to_equations. lia.
Qed.

(** ** [strconv.ParseInt(s, 10, 64)], with the value it returns beside an error. *)

Definition digits_of (l : list Z) : option Z :=
  match l with [] => None | _ => if forallb is_digit l then Some (decimal l) else None end.
Definition ParseInt (s : string) : Z :=
  let signed := match bytes s with 45 :: l => (-1, l) | 43 :: l => (1, l) | l => (1, l) end in
  match digits_of signed.2 with
  | None => 0
  | Some n => Z.max (- MaxInt64 - 1) (Z.min MaxInt64 (signed.1 * n))
  end.

Lemma decimal_snoc l b : decimal (l ++ [b]) = decimal l * 10 + (b - 48).
Proof. unfold decimal. by rewrite foldl_app. Qed.
Lemma decimal_app l k : decimal (l ++ k) = decimal l * 10 ^ Z.of_nat (length k) + decimal k.
Proof.
  induction k as [|b k IH] using rev_ind; [rewrite app_nil_r; unfold decimal at 3; simpl; lia|].
  rewrite app_assoc, !decimal_snoc, IH, length_app, Nat2Z.inj_add, Z.pow_add_r by lia. simpl. lia.
Qed.

Lemma bytes_cons c s : bytes (String c s) = byte_of c :: bytes s.
Proof. done. Qed.

Lemma digit_char x : (x < 10)%N → byte_of (pretty_N_char x) = 48 + Z.of_N x.
Proof.
  intros Hx. assert (x = 0 ∨ x = 1 ∨ x = 2 ∨ x = 3 ∨ x = 4 ∨ x = 5 ∨ x = 6 ∨ x = 7 ∨ x = 8 ∨ x = 9)%N as Hc by lia.
  by repeat destruct Hc as [->|Hc]; [..|subst].
Qed.

Lemma pretty_digits x s : Forall (λ b, is_digit b = true) (bytes s) →
  Forall (λ b, is_digit b = true) (bytes (pretty_N_go x s)) ∧
  decimal (bytes (pretty_N_go x s)) = Z.of_N x * 10 ^ Z.of_nat (length (bytes s)) + decimal (bytes s) ∧
  (length (bytes s) ≤ length (bytes (pretty_N_go x s)))%nat ∧ ((0 < x)%N → (length (bytes s) < length (bytes (pretty_N_go x s)))%nat).
Proof.
  revert s. induction (N.lt_wf_0 x) as [x _ IH]; intros s Hs. destruct (decide (x = 0%N)) as [->|Hne].
  { rewrite pretty_N_go_0. split_and!; [done|simpl; lia|lia|lia]. }
  rewrite pretty_N_go_step by lia. assert (x `mod` 10 < 10)%N as Hm by (by apply N.mod_lt).
  destruct (IH (x `div` 10)%N) with (s := String (pretty_N_char (x `mod` 10)) s) as (H1 & H2 & H3 & _).
  { apply N.div_lt; lia. }
  { rewrite bytes_cons. constructor; [|done]. rewrite digit_char by done. unfold is_digit, between. apply andb_true_iff. rewrite !Z.leb_le. revert Hm. generalize (x `mod` 10)%N. lia. }
  rewrite bytes_cons in H2, H3. simpl in H3. split_and!; [done| |lia|lia].
  rewrite H2. change (byte_of ?c :: ?l) with ([byte_of c] ++ l). rewrite decimal_app, length_app, Nat2Z.inj_add, Z.pow_add_r by lia.
  assert (decimal [byte_of (pretty_N_char (x `mod` 10))] = Z.of_N (x `mod` 10)) as ->.
  { change (decimal [?b]) with (0 * 10 + (b - 48)). rewrite digit_char by done. generalize (x `mod` 10)%N. lia. }
  simpl. rewrite N2Z.inj_div, N2Z.inj_mod. simpl. pose proof (Z.div_mod (Z.of_N x) 10 ltac:(lia)). nia.
Qed.

(** What [FormatInt] prints of a natural number is read back. *)
Lemma digits_FormatInt z : 0 ≤ z → digits_of (bytes (FormatInt z)) = Some z.
Proof.
  intros Hz. unfold FormatInt, pretty, pretty_Z. destruct z as [|p|p]; [done| |lia].
  unfold pretty, pretty_positive, pretty, pretty_N. rewrite decide_False by done.
  destruct (pretty_digits (Npos p) "") as (H1 & H2 & _ & H3); [constructor|]. simpl in H2, H3.
  unfold digits_of. destruct (bytes (pretty_N_go (Npos p) "")) as [|b l] eqn:E; [simpl in H3; lia|]. rewrite <-E in *.
  assert (forallb is_digit (bytes (pretty_N_go (Npos p) "")) = true) as ->.
  { apply forallb_forall. intros x Hx%list_elem_of_In. by eapply (proj1 (Forall_forall _ _) H1). }
  f_equal. rewrite H2. unfold decimal. simpl. lia.
Qed.
