(* ===== verification/Executor.v ===== *)
(** * The executor's credentials, registry and RPC adapter

    pkg/jobexecutor/auth.go, registry.go, processor.go and rpc.go: what an executor
    process accepts from the scheduler.  The wire messages are those of
    pkg/jobexecutor/protocol/execution.proto.  Admission is an interface: the class
    [Admission] is the contract rpc.go documents, the runtime of ExecutorRuntime.v
    implements it. *)

From S2P Require Import Prelude GoLib Model RpcErrors.

Open Scope string_scope.
Open Scope list_scope.
Open Scope Z_scope.

(** ** Credentials *)

Definition validExecutionName (name : string) : bool :=
  negb (bool_decide (name = "")) && ValidString name && negb (ContainsNul name) &&
  bool_decide (name = TrimSpace name) && (RuneCountInString name <=? 128).

Definition token_rune (r : option Z * list Z) : bool :=
  match r.1 with Some ch => between 48 57 ch || between 97 102 ch | None => false end.

Record Authenticator := { au_groupName : string; au_token : string }.

Section auth.
Context `{UuidLib}.

Definition ValidateCredentials (groupName token : string) : Result unit :=
  if negb (validExecutionName groupName) then Fail [Text "executor group name is invalid"]
  else if negb (Z.of_nat (String.length token) =? 32) then Fail [Text "executor group token is invalid"]
  else if negb (forallb token_rune (runes (bytes token))) then Fail [Text "executor group token is invalid"]
  else match ParseUUID token with
       | Some u => if (Version u =? 4) && VariantRFC4122 u then Ok () else Fail [Text "executor group token is invalid"]
       | None => Fail [Text "executor group token is invalid"]
       end.

Definition NewAuthenticator (groupName token : string) : Result Authenticator :=
  match ValidateCredentials groupName token with
  | Ok _ => Ok {| au_groupName := groupName; au_token := token |}
  | Fail e => Fail e
  end.

Definition validExecutorInstanceID (value : string) : bool :=
  match ParseUUID value with
  | Some u => (Version u =? 4) && VariantRFC4122 u && bool_decide (value = StringUUID u)
  | None => false
  end.
End auth.

Definition Authenticate (a : Authenticator) (groupName token : string) : Result unit :=
  if bool_decide (groupName = "") || bool_decide (token = "")
  then Fail (status_error codes_Unauthenticated "executor credentials are required")
  else if negb (bool_decide (groupName = au_groupName a))
  then Fail (status_error codes_PermissionDenied "executor group is not permitted")
  else if negb (bool_decide (token = au_token a))
  then Fail (status_error codes_Unauthenticated "executor credentials are invalid")
  else Ok ().

(** ** Processor registry *)

Definition ErrInvalidRegistration : Cause := Sentinel "invalid processor registration".
Definition ErrProcessorExists : Cause := Sentinel "processor name is already registered".
Definition ErrRegistryFrozen : Cause := Sentinel "processor registry is frozen".

(** A processor object is named by a number; [has_post]: it implements PostProcessor. *)
Record Registry := { reg_frozen : bool; reg_ordinary : gmap string Z; reg_sharding : gmap string (Z * bool) }.
Definition NewRegistry : Registry := {| reg_frozen := false; reg_ordinary := ∅; reg_sharding := ∅ |}.

(** A nil processor is [None]. *)
Definition validateRegistration {A} (name : string) (processor : option A) : Result A :=
  if bool_decide (name = "") || negb (ValidString name) || ContainsNul name || negb (bool_decide (name = TrimSpace name)) ||
     (128 <? RuneCountInString name)
  then Fail [Text "processor name is invalid"; ErrInvalidRegistration]
  else match processor with Some p => Ok p | None => Fail [Text "processor must not be nil"; ErrInvalidRegistration] end.

Definition checkName (r : Registry) (name : string) : option Error :=
  if reg_frozen r then Some [ErrRegistryFrozen]
  else if bool_decide (is_Some (reg_ordinary r !! name)) then Some [ErrProcessorExists]
  else if bool_decide (is_Some (reg_sharding r !! name)) then Some [ErrProcessorExists]
  else None.

Definition Register (r : Registry) (name : string) (processor : option Z) : Result Registry :=
  match validateRegistration name processor with
  | Fail e => Fail e
  | Ok p => match checkName r name with
            | Some e => Fail e
            | None => Ok { r with reg_ordinary := <[name := p]> (reg_ordinary r) }
            end
  end.

Definition RegisterSharding (r : Registry) (name : string) (processor : option (Z * bool)) : Result Registry :=
  match validateRegistration name processor with
  | Fail e => Fail e
  | Ok p => match checkName r name with
            | Some e => Fail e
            | None => Ok { r with reg_sharding := <[name := p]> (reg_sharding r) }
            end
  end.

Definition Freeze (r : Registry) : Registry := { r with reg_frozen := true }.
Definition Lookup (r : Registry) (name : string) : option Z := reg_ordinary r !! name.
Definition LookupSharding (r : Registry) (name : string) : option (Z * bool) := reg_sharding r !! name.

(** ** Invocations *)

Definition ErrNotReady : Cause := Sentinel "executor is not ready".
Definition ErrStopping : Cause := Sentinel "executor is stopping".
Definition ErrExpired : Cause := Sentinel "executor deadline has expired".
Definition DispatchRejected : string := "job.executor.dispatch_rejected".

Inductive Stage := StageOrdinary | StagePrepare | StageShard | StagePost.
#[global] Instance Stage_eq_dec : EqDecision Stage.
Proof. solve_decision. Defined.

Inductive CancelReason := CancelManualStop | CancelInstanceTimeout | CancelReasonCode (code : Z).
#[global] Instance CancelReason_eq_dec : EqDecision CancelReason.
Proof. solve_decision. Defined.

(** [iv_Items] is absent for a nil slice. *)
Record Invocation := {
  iv_JobID : Z; iv_InstanceID : Z; iv_TaskID : Z; iv_Params : string;
  iv_AttemptNo : Z; iv_ProcessorName : string; iv_DeadlineAt : Time; iv_RequiredPost : bool;
  iv_Stage : Stage; iv_Items : option (list string); iv_Total : Z; iv_Succeeded : Z; iv_Failed : Z;
}.

(** google.golang.org/protobuf timestamps. *)
Class TimestampLib := {
  Timestamp : Type;
  TimestampNew : Time → Timestamp;
  CheckValid : Timestamp → bool;
  AsTime : Timestamp → Time;
}.
(** Documented: a valid timestamp made from a time converts back to it. *)
Definition timestamp_exact `{TimestampLib} : Prop := ∀ t, CheckValid (TimestampNew t) = true → AsTime (TimestampNew t) = t.

(** The oneof of DispatchTaskRequest; the flag tells a set message from a typed nil. *)
Inductive DispatchInput :=
| NoInput
| OrdinaryInput (set : bool)
| PrepareInput (set : bool)
| ShardInput (items : option (list string))
| PostInput (counts : option (Z * Z * Z)).

Record DispatchTaskRequest `{TimestampLib} := {
  dq_GroupName : string; dq_Token : string;
  dq_JobId : Z; dq_InstanceId : Z; dq_TaskId : Z; dq_AttemptNo : Z; dq_ProcessorName : string; dq_Params : string;
  dq_DeadlineAt : option Timestamp; dq_RequiredPost : bool; dq_Input : DispatchInput;
}.

Inductive DispatchStatus := StatusUnspecified | ACCEPTED | BUSY | StatusCode (code : Z).
Record DispatchTaskResponse := { ds_Status : DispatchStatus; ds_ExecutorInstanceId : string }.

Definition rejectedDispatch (message : string) : Error := New DispatchRejected message.
Definition invalidExecutionRequest (message : string) : Error := New InvalidRequest message.

(** [ContextErr] stands for both context errors; so does the code Canceled here. *)
Definition executorTechnicalError (e : Error) (message : string) : Error :=
  if errors_is e ContextErr then status_error codes_Canceled "executor request was cancelled"
  else status_error codes_Internal message.

(** ** The adapter *)

Record RPCAdapter := { ad_auth : Authenticator; ad_registry : Registry; ad_executorInstanceID : string }.

Definition NewRPCAdapter `{UuidLib} (auth : Authenticator) (registry : Registry) (executorInstanceID : string) : Result RPCAdapter :=
  if negb (validExecutorInstanceID executorInstanceID) then Fail [Text "executor process identity is invalid"]
  else Ok {| ad_auth := auth; ad_registry := Freeze registry; ad_executorInstanceID := executorInstanceID |}.

(** The oneof with its checks: stage, items and counts. *)
Definition stage_input (requiredPost : bool) (input : DispatchInput) : Result (Stage * option (list string) * (Z * Z * Z)) :=
  match input with
  | NoInput => Fail (invalidExecutionRequest "execution input is required")
  | OrdinaryInput set =>
      if negb set || requiredPost then Fail (invalidExecutionRequest "ordinary input is invalid") else Ok (StageOrdinary, None, (0, 0, 0))
  | PrepareInput set =>
      if negb set then Fail (invalidExecutionRequest "prepare input is required") else Ok (StagePrepare, None, (0, 0, 0))
  | ShardInput None => Fail (invalidExecutionRequest "shard input is required")
  | ShardInput (Some items) =>
      if forallb JsonValid items then Ok (StageShard, Some items, (0, 0, 0))
      else Fail (invalidExecutionRequest "shard item must contain valid JSON")
  | PostInput None => Fail (invalidExecutionRequest "post input is required")
  | PostInput (Some (total, succeeded, failed)) =>
      if negb requiredPost then Fail (invalidExecutionRequest "post execution must be enabled")
      else if (total <? 0) || (succeeded <? 0) || (failed <? 0) || (total <? succeeded) || negb (failed =? total - succeeded)
      then Fail (invalidExecutionRequest "post counts are invalid")
      else Ok (StagePost, None, (total, succeeded, failed))
  end.

(** The processor a stage needs. *)
Definition capability (r : Registry) (name : string) (requiredPost : bool) (stage : Stage) : option Error :=
  match stage with
  | StageOrdinary =>
      match Lookup r name with Some _ => None | None => Some (rejectedDispatch "ordinary processor is unavailable") end
  | _ =>
      match LookupSharding r name with
      | None => Some (rejectedDispatch "sharding processor is unavailable")
      | Some (_, has_post) =>
          if (requiredPost || bool_decide (stage = StagePost)) && negb has_post
          then Some (rejectedDispatch "post processor is unavailable") else None
      end
  end.

Definition invocation `{TimestampLib} (s : RPCAdapter) (req : DispatchTaskRequest) : Result Invocation :=
  if (dq_JobId req <=? 0) || (dq_InstanceId req <=? 0) || (dq_TaskId req <=? 0) || (dq_AttemptNo req <=? 0)
  then Fail (invalidExecutionRequest "execution IDs and attempt number must be positive")
  else if negb (validExecutionName (dq_ProcessorName req)) then Fail (invalidExecutionRequest "processor name is invalid")
  else match dq_DeadlineAt req with
  | None => Fail (invalidExecutionRequest "execution deadline is invalid")
  | Some deadline =>
      if negb (CheckValid deadline) then Fail (invalidExecutionRequest "execution deadline is invalid")
      else match stage_input (dq_RequiredPost req) (dq_Input req) with
      | Fail e => Fail e
      | Ok (stage, items, counts) =>
          match capability (ad_registry s) (dq_ProcessorName req) (dq_RequiredPost req) stage with
          | Some e => Fail e
          | None =>
              Ok {| iv_JobID := dq_JobId req; iv_InstanceID := dq_InstanceId req; iv_TaskID := dq_TaskId req; iv_Params := dq_Params req;
                    iv_AttemptNo := dq_AttemptNo req; iv_ProcessorName := dq_ProcessorName req; iv_DeadlineAt := AsTime deadline;
                    iv_RequiredPost := dq_RequiredPost req; iv_Stage := stage; iv_Items := items;
                    iv_Total := counts.1.1; iv_Succeeded := counts.1.2; iv_Failed := counts.2 |}
          end
      end
  end.

(** What the adapter needs of the runtime: [ctxErr] is the state of the request's
    context, [now] the clock.  Accept answers (accepted, error). *)
Class AdmissionOps (S : Type) := {
  adm_accept : S → option Error → Time → Invocation → S * (bool * option Error);
  adm_cancel : S → option Error → Z → CancelReason → S * option Error;
  (** The attempts admitted and not yet finished. *)
  adm_active : S → Z → Z → Prop;
}.

(** Refusals that promise that no new work was admitted. *)
Definition definite_refusal (err : option Error) : bool :=
  match err with None => true | Some e => errors_is e ErrNotReady || errors_is e ErrStopping || errors_is e ErrExpired end.

(** The contract documented on the Go interface. *)
Class Admission (S : Type) `{AdmissionOps S} := {
  (** (true, nil) only for an attempt that is now active. *)
  accept_active s ctxErr now iv s' :
    adm_accept s ctxErr now iv = (s', (true, None)) → adm_active s' (iv_TaskID iv) (iv_AttemptNo iv);
  (** A definite refusal admits nothing: nothing becomes active. *)
  accept_refused s ctxErr now iv s' e :
    adm_accept s ctxErr now iv = (s', (false, e)) → definite_refusal e = true → ∀ t n, adm_active s' t n → adm_active s t n;
  (** Never true with an error. *)
  accept_not_both s ctxErr now iv s' e : adm_accept s ctxErr now iv ≠ (s', (true, Some e));
}.

Section adapter.
Context `{TimestampLib} {S : Type} `{AdmissionOps S}.

Definition refusal_error (accepted : bool) (e : Error) : Error :=
  if negb accepted && errors_is e ErrNotReady then rejectedDispatch "executor is not ready"
  else if negb accepted && errors_is e ErrStopping then rejectedDispatch "executor is stopping"
  else if negb accepted && errors_is e ErrExpired then rejectedDispatch "executor deadline has expired"
  else executorTechnicalError e "executor admission failed".

Definition DispatchTask (a : RPCAdapter) (s : S) (ctxErr : option Error) (now : Time) (req : DispatchTaskRequest)
    : S * Result DispatchTaskResponse :=
  match Authenticate (ad_auth a) (dq_GroupName req) (dq_Token req) with
  | Fail e => (s, Fail e)
  | Ok _ =>
      match invocation a req with
      | Fail e => (s, Fail e)
      | Ok iv =>
          let '(s, (accepted, err)) := adm_accept s ctxErr now iv in
          match err with
          | Some e => (s, Fail (refusal_error accepted e))
          | None =>
              (s, Ok (if accepted : bool then {| ds_Status := ACCEPTED; ds_ExecutorInstanceId := ad_executorInstanceID a |}
                      else {| ds_Status := BUSY; ds_ExecutorInstanceId := "" |}))
          end
      end
  end.

Record CancelInstanceRequest := { cx_GroupName : string; cx_Token : string; cx_InstanceId : Z; cx_Reason : Z }.

Definition wire_reason (reason : Z) : option CancelReason :=
  if reason =? 1 then Some CancelManualStop else if reason =? 2 then Some CancelInstanceTimeout else None.

Definition CancelInstance (a : RPCAdapter) (s : S) (ctxErr : option Error) (req : CancelInstanceRequest) : S * Result unit :=
  match Authenticate (ad_auth a) (cx_GroupName req) (cx_Token req) with
  | Fail e => (s, Fail e)
  | Ok _ =>
      if cx_InstanceId req <=? 0 then (s, Fail (invalidExecutionRequest "instance ID must be positive"))
      else match wire_reason (cx_Reason req) with
      | None => (s, Fail (invalidExecutionRequest "cancellation reason is invalid"))
      | Some reason =>
          match adm_cancel s ctxErr (cx_InstanceId req) reason with
          | (s, Some e) => (s, Fail (executorTechnicalError e "executor cancellation failed"))
          | (s, None) => (s, Ok ())
          end
      end
  end.
End adapter.
