(* ===== verification/Reporter.v ===== *)
(** * Result reporting of an executor

    pkg/jobexecutor/reporter.go: a bounded set of finished results, reported to the
    scheduler by fixed workers with at most seven calls each.  Every critical section
    under the reporter's mutex is one operation; [step] interleaves producers, workers
    and shutdown, and its labels tell what happened to which result. *)

From S2P Require Import Prelude GoLib Model HintSpec RpcErrors Executor.

Open Scope string_scope.
Open Scope list_scope.
Open Scope Z_scope.

Definition reportAttemptLimit : Z := 7.
Definition reportMessageLimit : Z := MaxInt32.

(** A nil byte slice or item list is [None]. *)
Record executionResult := {
  er_jobID : Z; er_instanceID : Z; er_taskID : Z; er_attemptNo : Z;
  er_success : bool; er_summary : string; er_data : option string; er_prepared : bool; er_preparedItems : option (list string);
}.

(** ** Requests *)

Inductive TaskOutcome := OutcomeUnspecified | SUCCESS | FAILURE | TaskOutcomeCode (code : Z).
Inductive ReportOutput := NoOutput | DataJson (data : string) | PreparedItems (items : option (list string)).
Record ReportTaskResultRequest := {
  rq_GroupName : string; rq_Token : string; rq_JobId : Z; rq_InstanceId : Z; rq_TaskId : Z; rq_AttemptNo : Z;
  rq_ExecutorInstanceId : string; rq_Outcome : TaskOutcome; rq_Summary : string; rq_Output : ReportOutput;
}.

(** google.golang.org/protobuf/proto. *)
Class ProtoLib := proto_Size : ReportTaskResultRequest → Z.

(** [Result.Validate] and [PrepareResult.Validate]. *)
Definition Result_Validate (data : option string) : bool := match data with Some d => JsonValid d | None => true end.
Definition PrepareResult_Validate (items : option (list string)) : bool :=
  match items with Some l => forallb JsonValid l | None => false end.

Section requests.
Context `{GrpcLib, ProtoLib}.

(** Why a request cannot be encoded, if it cannot. *)
Definition reportMessageProblem (q : ReportTaskResultRequest) (limit : Z) : option string :=
  if negb (ValidString (rq_Summary q)) || negb (ValidString (rq_ExecutorInstanceId q)) ||
     negb (ValidString (rq_GroupName q)) || negb (ValidString (rq_Token q)) then Some "invalid_encoding"
  else if limit <? proto_Size q then Some "message_too_large"
  else None.

Definition base_request (auth : Authenticator) (executorID : string) (result : executionResult) : ReportTaskResultRequest :=
  {| rq_GroupName := au_groupName auth; rq_Token := au_token auth; rq_JobId := er_jobID result; rq_InstanceId := er_instanceID result;
     rq_TaskId := er_taskID result; rq_AttemptNo := er_attemptNo result; rq_ExecutorInstanceId := executorID;
     rq_Outcome := FAILURE; rq_Summary := er_summary result; rq_Output := NoOutput |}.

(** The request for a result, or why the result is discarded. *)
Definition request (auth : Authenticator) (executorID : string) (result : executionResult) : ReportTaskResultRequest + string :=
  let base := base_request auth executorID result in
  let checked q := match reportMessageProblem q reportMessageLimit with None => inl q | Some reason => inr reason end in
  if negb (er_success result) then checked base
  else
    let base := { base with rq_Outcome := SUCCESS } in
    if er_prepared result then
      if PrepareResult_Validate (er_preparedItems result)
      then checked { base with rq_Output := PreparedItems (er_preparedItems result) } else inr "invalid_output"
    else if Result_Validate (er_data result)
    then checked (match er_data result with Some d => { base with rq_Output := DataJson d } | None => base end)
    else inr "invalid_output".

Definition permanentReportFailure (err : option Error) : option string :=
  match err with
  | None => None
  | Some e =>
      let st := Convert e in
      if st_code st =? codes_Unauthenticated then Some "unauthenticated"
      else if st_code st =? codes_PermissionDenied then Some "permission_denied"
      else match SubcodeFromStatus st with
           | Some reason => if bool_decide (reason = InvalidRequest) then Some "invalid_request" else None
           | None => None
           end
  end.
End requests.

(** ** The retry delay *)

Definition report_step (attempts : Z) : Duration :=
  nth (Z.to_nat (Z.min (Z.max (attempts - 1) 0) 5)) [Second; 2 * Second; 4 * Second; 8 * Second; 16 * Second; 16 * Second] Second.

(** [jitter] is the random fraction in millionths, at most one million. *)
Definition reportRetryDelay (attempts jitter : Z) : Duration := report_step attempts * (800000 + jitter * 400000 / 1000000) / 1000000.

(** ** The reporter *)

Record retainedReport := { rr_result : executionResult; rr_due : Time; rr_sequence : Z; rr_attempts : Z }.

Record reporter := {
  re_capacity : Z; re_concurrency : Z;
  re_started : bool; re_stopping : bool; re_completed : bool; re_canceled : bool;
  re_retained : Z; re_sequence : Z; re_pending : list retainedReport;
  re_workers : list (Worker retainedReport);
}.

Definition newReporter `{UuidLib} (auth : Authenticator) (executorID : string) (capacity concurrency : Z) : Result reporter :=
  match ValidateCredentials (au_groupName auth) (au_token auth) with
  | Fail e => Fail e
  | Ok _ =>
      if negb (validExecutorInstanceID executorID) then Fail [Text "result reporting executor identity is invalid"]
      else if (capacity <=? 0) || (concurrency <=? 0) then Fail [Text "result reporting capacity and concurrency must be positive"]
      else Ok {| re_capacity := capacity; re_concurrency := concurrency; re_started := false; re_stopping := false;
                 re_completed := false; re_canceled := false; re_retained := 0; re_sequence := 0; re_pending := []; re_workers := [] |}
  end.

Definition start (r : reporter) (ctxErr : option Error) : Result reporter :=
  if re_started r || re_stopping r then Fail [Text "result reporter has already started or stopped"]
  else match ctxErr with
       | Some e => Fail e
       | None => Ok { r with re_started := true; re_workers := replicate (Z.to_nat (re_concurrency r)) Idle }
       end.

(** [reportHeap.Less] and the queue kept in its order. *)
Definition report_less (a b : retainedReport) : bool :=
  if rr_due a =? rr_due b then rr_sequence a <? rr_sequence b else before (rr_due a) (rr_due b).
Fixpoint report_push (e : retainedReport) (l : list retainedReport) : list retainedReport :=
  match l with
  | [] => [e]
  | x :: rest => if report_less e x then e :: l else x :: report_push e rest
  end.

Inductive Submitted := Enqueued (entry : retainedReport) | Refused (e : Error) | Blocked.

(** One round of [submit]; a blocked producer tries again after a change. *)
Definition submit (r : reporter) (ctxErr : option Error) (result : executionResult) (now : Time) : reporter * Submitted :=
  match ctxErr with
  | Some e => (r, Refused e)
  | None =>
      if negb (re_started r) then (r, Refused [if re_stopping r then ErrStopping else ErrNotReady])
      else if re_stopping r || re_canceled r then (r, Refused [ErrStopping])
      else if re_retained r <? re_capacity r then
        let seq := (re_sequence r + 1) mod 2 ^ 64 in
        let entry := {| rr_result := result; rr_due := now; rr_sequence := seq; rr_attempts := 0 |} in
        ({ r with re_sequence := seq; re_pending := report_push entry (re_pending r); re_retained := re_retained r + 1 }, Enqueued entry)
      else (r, Blocked)
  end.

Definition stop (r : reporter) : reporter :=
  let r := { r with re_stopping := true } in
  if negb (re_started r) && negb (re_completed r) then { r with re_completed := true } else r.

Inductive Taken := TakeExit | TakeReport (entry : retainedReport) | TakeWait.

Definition take (r : reporter) (now : Time) : reporter * Taken :=
  if re_canceled r || (re_stopping r && (re_retained r =? 0)) then (r, TakeExit)
  else match re_pending r with
       | e :: rest => if rr_due e <=? now then ({ r with re_pending := rest }, TakeReport e) else (r, TakeWait)
       | [] => (r, TakeWait)
       end.

(** What a call to the scheduler returned: an acknowledgement, a nil response, or an
    error. *)
Inductive Answer := Acknowledged | NilResponse | CallFailed (e : Error).

Inductive Verdict := Acked | Discard (reason : string) | Again.

Section calls.
Context `{GrpcLib, ProtoLib}.

(** [work] between [take] and the final critical section: the requests that
    [ReportTaskResult] was called with, the entry and what becomes of it.  [live]: the
    lifecycle context has not ended; [answer]: what a call returns, if one is made. *)
Definition report_call (auth : Authenticator) (executorID : string) (e : retainedReport) (live : bool) (answer : Answer)
    : list ReportTaskResultRequest * retainedReport * Verdict :=
  match request auth executorID (rr_result e) with
  | inr reason => ([], e, Discard reason)
  | inl q =>
      if negb live then ([], e, Again)
      else
        let e := { e with rr_attempts := rr_attempts e + 1 } in
        let sent := [q] in
        match answer with
        | Acknowledged => (sent, e, Acked)
        | _ =>
            let err := match answer with CallFailed err => Some err | _ => None end in
            match permanentReportFailure err with
            | Some reason => (sent, e, Discard reason)
            | None => if rr_attempts e =? reportAttemptLimit then (sent, e, Discard "retry_exhausted") else (sent, e, Again)
            end
        end
  end.
End calls.

(** The final critical section of a worker's round. *)
Definition settle (r : reporter) (e : retainedReport) (v : Verdict) (finishedAt : Time) (jitter : Z) : reporter :=
  match v with
  | Acked | Discard _ => { r with re_retained := re_retained r - 1 }
  | Again =>
      if re_canceled r then r
      else { r with re_pending := report_push { e with rr_due := finishedAt + reportRetryDelay (rr_attempts e) jitter } (re_pending r) }
  end.

(** [finish]: the results counted as discarded at shutdown. *)
Definition finish (r : reporter) : reporter * Z :=
  ({ r with re_pending := []; re_retained := 0; re_completed := true }, re_retained r).

(** ** Interleavings *)

Inductive Event :=
| Accepted (s : Z)
| Called (s : Z)
| Delivered (s : Z)
| Discarded (s : Z) (reason : string)
| Abandoned (s : Z)
| Unsent (count : Z).

Definition set_worker (k : nat) (w : Worker retainedReport) (r : reporter) : reporter := { r with re_workers := <[k := w]> (re_workers r) }.

(** The events of one worker round: one for every call made, whatever the entry counts. *)
Definition round_events (e : retainedReport) (sent : list ReportTaskResultRequest) (v : Verdict) (canceled : bool) : list Event :=
  ((λ _, Called (rr_sequence e)) <$> sent) ++
  match v with
  | Acked => [Delivered (rr_sequence e)]
  | Discard reason => [Discarded (rr_sequence e) reason]
  | Again => if canceled then [Abandoned (rr_sequence e)] else []
  end.

Section interleaving.
Context `{GrpcLib, ProtoLib} (auth : Authenticator) (executorID : string).

Inductive step : reporter → list Event → reporter → Prop :=
| step_start r r' : start r None = Ok r' → step r [] r'
| step_submit r ctxErr result now r' entry :
    submit r ctxErr result now = (r', Enqueued entry) → step r [Accepted (rr_sequence entry)] r'
| step_stop r : step r [] (stop r)
| step_cancel r : step r [] { r with re_canceled := true }
| step_take r k now r' e :
    re_workers r !! k = Some Idle → take r now = (r', TakeReport e) → step r [] (set_worker k (Busy e) r')
| step_exit r k now r' :
    re_workers r !! k = Some Idle → take r now = (r', TakeExit) → step r [] (set_worker k Exited r')
| step_round r k e live answer sent e' v finishedAt jitter :
    re_workers r !! k = Some (Busy e) → (live = false → re_canceled r = true) →
    report_call auth executorID e live answer = (sent, e', v) →
    step r (round_events e sent v (re_canceled r)) (set_worker k Idle (settle r e' v finishedAt jitter))
| step_finish r r' n :
    re_started r = true → re_completed r = false → forallb exited (re_workers r) = true → finish r = (r', n) →
    step r ((Abandoned <$> (rr_sequence <$> re_pending r)) ++ [Unsent n]) r'.

(** A run with the events it shows. *)
Definition runs (r : reporter) (tr : list Event) (r' : reporter) : Prop := ∃ ls, tr = mjoin ls ∧ traces step r ls r'.
End interleaving.

(** ** Accounting *)

Definition accepted (tr : list Event) : list Z := omap (λ e, match e with Accepted s => Some s | _ => None end) tr.
Definition delivered (tr : list Event) : list Z := omap (λ e, match e with Delivered s => Some s | _ => None end) tr.
Definition discarded (tr : list Event) : list Z := omap (λ e, match e with Discarded s _ => Some s | _ => None end) tr.
Definition abandoned (tr : list Event) : list Z := omap (λ e, match e with Abandoned s => Some s | _ => None end) tr.
Definition held (r : reporter) : list retainedReport := re_pending r ++ busy (re_workers r).
Definition called (tr : list Event) : list Z := omap (λ e, match e with Called s => Some s | _ => None end) tr.

(** How often a sequence number occurs, and the calls that entries of that number have left. *)
Definition times (s : Z) (l : list Z) : nat := length (filter (λ x, x = s) l).
Definition calls_left (s : Z) (e : retainedReport) : nat :=
  if rr_sequence e =? s then Z.to_nat (reportAttemptLimit - rr_attempts e) else 0%nat.
Definition budget (s : Z) (l : list retainedReport) : nat := sum_list_with (calls_left s) l.

(** The numbers of the first [n] results that were accepted. *)
Definition numbers (n : nat) : list Z := (λ i, (Z.of_nat i + 1) mod 2 ^ 64) <$> seq 0 n.

Record reporter_inv (tr : list Event) (r : reporter) : Prop := {
  ri_account : accepted tr ≡ₚ delivered tr ++ discarded tr ++ abandoned tr ++ (rr_sequence <$> held r);
  ri_retained : re_completed r = false → re_retained r = Z.of_nat (length (held r)) + Z.of_nat (length (abandoned tr));
  ri_bound : 0 ≤ re_retained r ≤ re_capacity r;
  ri_attempts : Forall (λ e, 0 ≤ rr_attempts e < reportAttemptLimit) (held r);
  ri_calls : ∀ s, (times s (called tr) + budget s (held r) ≤ 7 * times s (accepted tr))%nat;
  ri_abandoned : abandoned tr ≠ [] → re_canceled r = true;
  ri_exited : Exited ∈ re_workers r → re_canceled r = true ∨ re_stopping r = true ∧ re_retained r = 0;
  ri_completed : re_completed r = true → re_stopping r = true ∧ held r = [] ∨ re_canceled r = true ∧ held r = [];
  ri_unstarted : re_started r = false → re_workers r = [] ∧ re_pending r = [] ∧ re_retained r = 0;
  ri_workers : re_started r = true → re_workers r ≠ [];
  ri_capacity : 0 < re_capacity r ∧ 0 < re_concurrency r;
  ri_unsent : ∀ n, Unsent n ∈ tr → n = Z.of_nat (length (abandoned tr)) ∧ re_completed r = true;
  ri_sequence : accepted tr = numbers (length (accepted tr)) ∧ re_sequence r = Z.of_nat (length (accepted tr)) mod 2 ^ 64;
}.

Lemma report_push_permutation e l : report_push e l ≡ₚ e :: l.
Proof. induction l as [|x l IH]; simpl; [done|]. destruct (report_less e x); [done|]. rewrite IH. apply Permutation_swap. Qed.

Section accounting.
Context `{GrpcLib, ProtoLib} (auth : Authenticator) (executorID : string).

Lemma accepted_app t1 t2 : accepted (t1 ++ t2) = accepted t1 ++ accepted t2.
Proof. apply omap_app. Qed.
Lemma delivered_app t1 t2 : delivered (t1 ++ t2) = delivered t1 ++ delivered t2.
Proof. apply omap_app. Qed.
Lemma discarded_app t1 t2 : discarded (t1 ++ t2) = discarded t1 ++ discarded t2.
Proof. apply omap_app. Qed.
Lemma abandoned_app t1 t2 : abandoned (t1 ++ t2) = abandoned t1 ++ abandoned t2.
Proof. apply omap_app. Qed.

Lemma called_app t1 t2 : called (t1 ++ t2) = called t1 ++ called t2.
Proof. apply omap_app. Qed.
Lemma times_app s l1 l2 : times s (l1 ++ l2) = (times s l1 + times s l2)%nat.
Proof. unfold times. by rewrite filter_app, length_app. Qed.
Lemma times_one s x : times s [x] = if x =? s then 1%nat else 0%nat.
Proof. unfold times. rewrite filter_cons. destruct (Z.eqb_spec x s); by case_decide. Qed.
Lemma budget_permutation s l1 l2 : l1 ≡ₚ l2 → budget s l1 = budget s l2.
Proof. intros Hp. unfold budget. by rewrite Hp. Qed.
Lemma budget_cons s e l : budget s (e :: l) = (calls_left s e + budget s l)%nat.
Proof. done. Qed.

Lemma numbers_snoc n : numbers (S n) = numbers n ++ [(Z.of_nat n + 1) mod 2 ^ 64].
Proof. unfold numbers. by rewrite seq_S, fmap_app. Qed.
(** The first 2^64 - 1 numbers are distinct. *)
Lemma numbers_distinct n : Z.of_nat n < 2 ^ 64 → NoDup (numbers n).
Proof.
  intros Hn. apply NoDup_fmap_2_strong; [|apply NoDup_seq]. intros i j [_ Hi]%elem_of_seq [_ Hj]%elem_of_seq E.
  rewrite !Z.mod_small in E by lia. lia.
Qed.
Lemma distinct_times s l : NoDup l → (times s l ≤ 1)%nat.
Proof.
  unfold times. induction 1 as [|x l Hx Hl IH]; [simpl; lia|]. rewrite filter_cons. case_decide as E; [|done]. subst. simpl.
  assert (filter (λ y, y = s) l = []) as ->; [|simpl; lia]. apply filter_none. by intros y Hy ->.
Qed.

Lemma abandoned_fmap l : abandoned (Abandoned <$> l) = l.
Proof. induction l as [|x l IH]; csimpl; [done|]. by rewrite IH. Qed.
Lemma others_fmap l : accepted (Abandoned <$> l) = [] ∧ delivered (Abandoned <$> l) = [] ∧ discarded (Abandoned <$> l) = [] ∧ called (Abandoned <$> l) = [].
Proof. induction l as [|x l IH]; csimpl; [done|]. done. Qed.

(** Steps that change neither the results held nor the count. *)
Lemma reporter_same tr r r' :
  reporter_inv tr r → re_capacity r' = re_capacity r → re_concurrency r' = re_concurrency r → re_started r' = re_started r →
  re_completed r' = re_completed r → re_retained r' = re_retained r → re_pending r' = re_pending r → re_workers r' = re_workers r → re_sequence r' = re_sequence r →
  (re_stopping r = true → re_stopping r' = true) → (re_canceled r = true → re_canceled r' = true) → reporter_inv (tr ++ []) r'.
Proof.
  intros [? ? ? ? ? ? ? Hc ? ? ? ? ?] E1 E2 E3 E4 E5 E6 E7 E8 Hs Hx. rewrite app_nil_r.
  constructor; unfold held in *; rewrite ?E1, ?E2, ?E3, ?E4, ?E5, ?E6, ?E7, ?E8; try done; naive_solver.
Qed.

(** A round makes at most one call, and counts it. *)
Lemma call_counts e live answer sent e' v :
  report_call auth executorID e live answer = (sent, e', v) → rr_sequence e' = rr_sequence e ∧
  (0 ≤ rr_attempts e < reportAttemptLimit →
     rr_attempts e' = rr_attempts e + Z.of_nat (length sent) ∧ (length sent ≤ 1)%nat ∧ (v = Again → rr_attempts e' < reportAttemptLimit)).
Proof.
  unfold report_call, reportAttemptLimit. intros Hc. destruct (request auth executorID (rr_result e)).
  2: { simplify_eq. split; [done|]. intros. simpl. split_and!; [lia|lia|done]. }
  destruct live; simpl in Hc; [|simplify_eq; split; [done|]; intros; simpl; split_and!; lia].
  destruct answer; repeat case_match; simplify_eq; simpl; (split; [done|]); intros; (split_and!; [lia|lia|]); try done; to_prop; lia.
Qed.

(** What a round shows. *)
Lemma round_shows e sent v c :
  let tr := round_events e sent v c in
  accepted tr = [] ∧ delivered tr = (match v with Acked => [rr_sequence e] | _ => [] end) ∧
  discarded tr = (match v with Discard _ => [rr_sequence e] | _ => [] end) ∧
  abandoned tr = (match v with Again => if c then [rr_sequence e] else [] | _ => [] end) ∧
  (∀ s, times s (called tr) = if rr_sequence e =? s then length sent else 0%nat) ∧ (∀ n, Unsent n ∉ tr).
Proof.
  intros tr.
  assert (∀ f : Event → option Z, (∀ s, f (Called s) = None) → omap f tr =
    omap f (match v with Acked => [Delivered (rr_sequence e)] | Discard reason => [Discarded (rr_sequence e) reason]
            | Again => if c then [Abandoned (rr_sequence e)] else [] end)) as Hev.
  { intros f Hf. unfold tr, round_events. rewrite omap_app. assert (omap f ((λ _, Called (rr_sequence e)) <$> sent) = []) as ->; [|done].
    induction sent as [|q l IH]; csimpl; [done|]. by rewrite Hf. }
  unfold accepted, delivered, discarded, abandoned. rewrite !Hev by done. split_and!; try (by destruct v; [| |destruct c]).
  - intros s. unfold tr, round_events. rewrite called_app, times_app. assert (called (match v with Acked => [Delivered (rr_sequence e)]
      | Discard reason => [Discarded (rr_sequence e) reason] | Again => if c then [Abandoned (rr_sequence e)] else [] end) = []) as -> by (by destruct v; [| |destruct c]).
    rewrite Nat.add_0_r. clear Hev. induction sent as [|q l IH]; csimpl; [by case_match|]. unfold times in *. simpl. rewrite filter_cons.
    destruct (Z.eqb_spec (rr_sequence e) s); case_decide; try done. simpl. by rewrite IH.
  - intros n [Hn|Hn]%elem_of_app; [by apply list_elem_of_fmap in Hn as (? & ? & _)|]. destruct v as [| |], c; set_solver.
Qed.

Lemma reporter_round_inv tr r k e live answer sent e' v finishedAt jitter :
  re_workers r !! k = Some (Busy e) → (live = false → re_canceled r = true) → report_call auth executorID e live answer = (sent, e', v) →
  reporter_inv tr r →
  reporter_inv (tr ++ round_events e sent v (re_canceled r)) (set_worker k Idle (settle r e' v finishedAt jitter)).
Proof.
  intros Hk Hlive Hcall HI. destruct (call_counts _ _ _ _ _ _ Hcall) as [Hseq Hatt].
  set (ws := <[k := Idle]> (re_workers r)). pose proof (busy_release _ _ _ Idle Hk eq_refl) as Hbusy. fold ws in Hbusy.
  assert (held r ≡ₚ e :: re_pending r ++ busy ws) as Hh by (unfold held; rewrite Hbusy; solve_Permutation).
  destruct HI as [H1 H2 H3 H4 H5 H6 H7 H8 H9 H10 H11 H12 H13].
  assert (re_completed r = false) as Hnc.
  { destruct (re_completed r); [|done]. destruct H8 as [[_ E]|[_ E]]; [done|..]; apply Permutation_length in Hh; rewrite E in Hh; done. }
  specialize (H2 Hnc). pose proof (Permutation_length Hh) as Hlen. rewrite Hh in H4. apply Forall_cons in H4 as [He H4].
  specialize (Hatt He) as (Hatt & Hone & Hag).
  destruct (round_shows e sent v (re_canceled r)) as (Ea & Ed & Edi & Eab & Ec & Hun').
  assert (∀ n, Unsent n ∉ tr) as Hun by (intros n Hn; apply H12 in Hn as [_ Hn]; congruence).
  assert (∀ s left, (length sent + left ≤ calls_left s e)%nat ∨ rr_sequence e ≠ s ∧ left = 0%nat →
    (times s (called tr) + times s (called (round_events e sent v (re_canceled r))) + (left + budget s (re_pending r ++ busy ws)) ≤ 7 * times s (accepted tr))%nat) as Hcalls.
  { intros s left Hleft. specialize (H5 s). rewrite (budget_permutation s _ _ Hh), budget_cons in H5. rewrite Ec.
    unfold calls_left in *. destruct (Z.eqb_spec (rr_sequence e) s); destruct Hleft; lia. }
  assert (∀ s, (length sent + 0 ≤ calls_left s e)%nat ∨ rr_sequence e ≠ s ∧ 0%nat = 0%nat) as Hdone.
  { intros s. unfold calls_left, reportAttemptLimit in *. destruct (Z.eqb_spec (rr_sequence e) s); [left; lia|by right]. }
  rewrite Hh in H1. csimpl in H1. simpl in Hlen.
  assert (re_started r = true) as Hst by (destruct (re_started r) eqn:E; [done|]; destruct (H9 eq_refl) as (Hw & _); by rewrite Hw in Hk).
  assert (ws ≠ []) as Hws by (intros E; apply (f_equal length) in E; unfold ws in E; rewrite length_insert in E; destruct (re_workers r); done).
  assert (Exited ∈ ws → re_canceled r = true) as Hex.
  { intros [?|Hx]%exited_insert; [done|]. destruct (H7 Hx) as [?|[_ Hz]]; [done|]. lia. }
  assert (∀ r', re_started r' = true → re_workers r' = ws → re_started r' = false → re_workers r' = [] ∧ re_pending r' = [] ∧ re_retained r' = 0) as Hbad by congruence.
  destruct v as [|reason|]; [| |destruct (re_canceled r) eqn:Ecn]; unfold settle; try rewrite Ecn;
    (constructor; unfold held; simpl; fold ws; rewrite ?accepted_app, ?delivered_app, ?discarded_app, ?abandoned_app, ?called_app, ?Ea, ?Ed, ?Edi, ?Eab, ?app_nil_r;
     [ | | | |intros s; rewrite times_app| | | | | | | | ]); try done; try congruence; try (rewrite ?length_app in *; simpl; lia);
    try exact (Hcalls _ _ (Hdone _)).
  all: try (intros n [?|?]%elem_of_app; exfalso; [by eapply Hun|by eapply Hun']).
  all: try (intros Hx; left; by auto).
  all: try (rewrite H1; solve_Permutation).
  - rewrite H1, report_push_permutation. csimpl. rewrite Hseq. solve_Permutation.
  - intros _. rewrite report_push_permutation. simpl. lia.
  - rewrite report_push_permutation. constructor; [simpl; specialize (Hag eq_refl); lia|done].
  - rewrite (budget_permutation _ _ _ (Permutation_app_tail _ (report_push_permutation _ _))), <-app_comm_cons, budget_cons. apply Hcalls.
    unfold calls_left, reportAttemptLimit in *. simpl. rewrite Hseq. destruct (Z.eqb_spec (rr_sequence e) s); [left|by right]. lia.
  - intros Hx. by apply H6 in Hx.
  - intros Hx. by apply Hex in Hx.
Qed.

(** A worker that takes an entry keeps it held. *)
Lemma reporter_take_inv tr r k now r' e :
  re_workers r !! k = Some Idle → take r now = (r', TakeReport e) → reporter_inv tr r → reporter_inv (tr ++ []) (set_worker k (Busy e) r').
Proof.
  intros Hk Ht HI. unfold take in Ht. destruct (_ || _) eqn:Ec; [done|]. destruct (re_pending r) as [|e0 rest] eqn:Ep; [done|].
  destruct (rr_due e0 <=? now); simplify_eq. rewrite app_nil_r. apply orb_false_iff in Ec as [Ec _].
  set (ws := <[k := Busy e]> (re_workers r)). pose proof (busy_take _ _ e Hk) as Hb. fold ws in Hb.
  assert (rest ++ busy ws ≡ₚ held r) as Hh by (unfold held; rewrite Ep, Hb; solve_Permutation).
  assert (ws ≠ []) as Hws by (intros E; apply (f_equal length) in E; unfold ws in E; rewrite length_insert in E; destruct (re_workers r); done).
  pose proof (Permutation_length Hh) as Hlen.
  destruct HI as [H1 H2 H3 H4 H5 H6 H7 H8 H9 H10 H11 H12 H13]. constructor; unfold held; simpl; fold ws; rewrite ?Hh; try done.
  - intros s. rewrite (budget_permutation s _ _ Hh). apply H5.
  - intros [?|Hx]%exited_insert; auto.
  - intros Hx. destruct (H8 Hx) as [[_ E]|[_ E]]; unfold held in E; rewrite Ep in E; done.
  - intros Hx. destruct (H9 Hx) as (Hw & _). by rewrite Hw in Hk.
Qed.

Lemma reporter_exit_inv tr r k now r' :
  re_workers r !! k = Some Idle → take r now = (r', TakeExit) → reporter_inv tr r → reporter_inv (tr ++ []) (set_worker k Exited r').
Proof.
  intros Hk Ht HI. unfold take in Ht. rewrite app_nil_r.
  assert (r' = r ∧ (re_canceled r = true ∨ re_stopping r = true ∧ re_retained r = 0)) as [-> Hc].
  { destruct (_ || _) eqn:Ec; [|repeat case_match; done]. simplify_eq. split; [done|].
    apply orb_true_iff in Ec as [?|[? ?%Z.eqb_eq]%andb_true_iff]; auto. }
  set (ws := <[k := Exited]> (re_workers r)). pose proof (busy_exit _ _ Hk) as Hb. fold ws in Hb.
  assert (re_pending r ++ busy ws ≡ₚ held r) as Hh by (unfold held; by rewrite Hb).
  assert (ws ≠ []) as Hws by (intros E; apply (f_equal length) in E; unfold ws in E; rewrite length_insert in E; destruct (re_workers r); done).
  pose proof (Permutation_length Hh) as Hlen.
  destruct HI as [H1 H2 H3 H4 H5 H6 H7 H8 H9 H10 H11 H12 H13]. constructor; unfold held; simpl; fold ws; rewrite ?Hh; try done.
  - intros s. rewrite (budget_permutation s _ _ Hh). apply H5.
  - intros Hx. destruct (H8 Hx) as [[? E]|[? E]]; rewrite E in Hlen; [left|right]; (split; [done|]); by apply nil_length_inv.
  - intros Hx. destruct (H9 Hx) as (Hw & _). by rewrite Hw in Hk.
Qed.

Lemma reporter_submit_inv tr r ctxErr result now r' entry :
  submit r ctxErr result now = (r', Enqueued entry) → reporter_inv tr r → reporter_inv (tr ++ [Accepted (rr_sequence entry)]) r'.
Proof.
  unfold submit. intros Hs HI. destruct ctxErr; [done|]. destruct (re_started r) eqn:Est; [|done]. simpl in Hs.
  destruct (re_stopping r) eqn:Esp; [done|]. destruct (re_canceled r) eqn:Ecn; [done|]. simpl in Hs.
  destruct (Z.ltb_spec (re_retained r) (re_capacity r)) as [Hlt|]; [|done]. simplify_eq. simpl.
  destruct HI as [H1 H2 H3 H4 H5 H6 H7 H8 H9 H10 H11 H12 H13].
  assert (re_completed r = false) as Hnc by (destruct (re_completed r); [destruct H8 as [[? _]|[? _]]; congruence|done]).
  set (entry := {| rr_result := result; rr_due := now; rr_sequence := _; rr_attempts := 0 |}).
  assert (report_push entry (re_pending r) ++ busy (re_workers r) ≡ₚ entry :: held r) as Hh by (rewrite report_push_permutation; done).
  constructor; unfold held; simpl; rewrite ?accepted_app, ?delivered_app, ?discarded_app, ?abandoned_app; csimpl; rewrite ?app_nil_r, ?Hh; try done.
  - rewrite H1. csimpl. simpl. solve_Permutation.
  - intros _. specialize (H2 Hnc). simpl. lia.
  - lia.
  - constructor; [done|done].
  - intros s. rewrite (budget_permutation s _ _ Hh), budget_cons, called_app, !times_app, !times_one. specialize (H5 s).
    assert (times s (called [Accepted ((re_sequence r + 1) mod 2 ^ 64)]) = 0%nat) as -> by done.
    assert (calls_left s entry = if (re_sequence r + 1) mod 2 ^ 64 =? s then 7%nat else 0%nat) as -> by done.
    destruct (_ =? s); lia.
  - intros Hx. destruct (H7 Hx) as [?|[? _]]; congruence.
  - congruence.
  - congruence.
  - intros n [Hn|Hn%list_elem_of_singleton]%elem_of_app; [|done]. auto.
  - destruct H13 as [E13 Es]. assert ((re_sequence r + 1) mod 2 ^ 64 = (Z.of_nat (length (accepted tr)) + 1) mod 2 ^ 64) as ->
      by (by rewrite Es, Zplus_mod_idemp_l).
    rewrite length_app, Nat.add_1_r, numbers_snoc, <-E13. split; [done|]. f_equal. lia.
Qed.

Lemma reporter_finish_inv tr r r' n :
  re_started r = true → re_completed r = false → forallb exited (re_workers r) = true → finish r = (r', n) → reporter_inv tr r →
  reporter_inv (tr ++ ((Abandoned <$> (rr_sequence <$> re_pending r)) ++ [Unsent n])) r'.
Proof.
  intros Hst Hnc Hex Hf HI. unfold finish in Hf. simplify_eq.
  assert (busy (re_workers r) = []) as Hb.
  { destruct (busy (re_workers r)) as [|e l] eqn:E; [done|]. assert (e ∈ busy (re_workers r)) as [k Hk]%elem_of_busy by (rewrite E; by left).
    by apply (exited_lookup _ _ _ Hex) in Hk. }
  destruct HI as [H1 H2 H3 H4 H5 H6 H7 H8 H9 H10 H11 H12 H13]. specialize (H2 Hnc).
  assert (held r = re_pending r) as Eh by (unfold held; by rewrite Hb, app_nil_r).
  assert (re_canceled r = true ∨ re_stopping r = true ∧ re_retained r = 0) as Hc.
  { apply H7. specialize (H10 Hst). destruct (re_workers r) as [|w ws]; [done|]. simpl in Hex. apply andb_true_iff in Hex as [Hw _].
    destruct w; try done. by left. }
  destruct (others_fmap (rr_sequence <$> re_pending r)) as (E1 & E2 & E3 & E4).
  constructor; unfold held; simpl; rewrite ?Hb, ?accepted_app, ?delivered_app, ?discarded_app, ?abandoned_app, ?abandoned_fmap, ?E1, ?E2, ?E3; csimpl; rewrite ?app_nil_r; try done.
  - rewrite H1, Eh. done.
  - lia.
  - intros s. rewrite !called_app, E4. simpl. rewrite app_nil_r. specialize (H5 s). lia.
  - intros Hne. destruct Hc as [?|[_ Hz]]; [done|]. rewrite Hz, Eh in H2. exfalso. apply Hne.
    destruct (abandoned tr); [|simpl in H2; lia]. destruct (re_pending r); [done|simpl in H2; lia].
  - intros Hx. destruct Hc as [?|[? _]]; auto.
  - intros _. destruct Hc as [?|[? _]]; auto.
  - congruence.
  - intros n [Hn|[Hn|Hn%list_elem_of_singleton]%elem_of_app]%elem_of_app.
    + apply H12 in Hn as [_ ?]. congruence.
    + apply list_elem_of_fmap in Hn as (? & ? & _). done.
    + simplify_eq. split; [|done]. rewrite length_app, length_fmap, H2, Eh. lia.
Qed.

Lemma reporter_step tr r ev r' : step auth executorID r ev r' → reporter_inv tr r → reporter_inv (tr ++ ev) r'.
Proof.
  destruct 1 as [r r' Hs|r ctxErr result now r' entry Hs|r|r|r k now r' e Hk Ht|r k now r' Hk Ht|r k e live answer e' v fa j Hk Hl Hc|r r' n H1 H2 H3 H4]; intros HI.
  - unfold start in Hs. destruct (re_started r) eqn:Es; [done|]. destruct (re_stopping r) eqn:Ep; [done|]. simplify_eq/=.
    rewrite app_nil_r. destruct HI as [J1 J2 J3 J4 J5 J6 J7 J8 J9 J10 J11 J12 J13]. destruct (J9 Es) as (Hw & Hp & Hr).
    assert (re_pending r ++ busy (replicate (Z.to_nat (re_concurrency r)) Idle) = held r) as Hh by (unfold held; by rewrite Hw, busy_replicate).
    constructor; unfold held; simpl; rewrite ?Hh; try done.
    + intros [Hx _]%elem_of_replicate. done.
    + intros _ E. apply (f_equal length) in E. rewrite length_replicate in E. simpl in E. lia.
  - by eapply reporter_submit_inv.
  - unfold stop. simpl. destruct (negb (re_started r) && _) eqn:E; [|by eapply reporter_same].
    apply andb_true_iff in E as [Es%negb_true_iff Ec%negb_true_iff]. rewrite app_nil_r.
    destruct HI as [J1 J2 J3 J4 J5 J6 J7 J8 J9 J10 J11 J12 J13]. destruct (J9 Es) as (Hw & Hp & Hr).
    constructor; unfold held in *; simpl; try done.
    + intros Hx. auto.
    + intros _. left. by rewrite Hw, Hp.
    + intros n Hn. split; [by apply J12 in Hn as [? _]|done].
  - by eapply reporter_same.
  - by eapply reporter_take_inv.
  - by eapply reporter_exit_inv.
  - by eapply reporter_round_inv.
  - by eapply reporter_finish_inv.
Qed.

Lemma reporter_new_inv `{UuidLib} capacity concurrency r : newReporter auth executorID capacity concurrency = Ok r → reporter_inv [] r.
Proof.
  unfold newReporter. break_goal; intros [= <-]. to_prop. constructor; unfold held; simpl; try done; try lia.
  - intros Hx. by apply elem_of_nil in Hx.
  - intros n Hn. by apply elem_of_nil in Hn.
Qed.

Lemma reporter_run_inv tr r0 ls r : reporter_inv tr r0 → traces (step auth executorID) r0 ls r → reporter_inv (tr ++ mjoin ls) r.
Proof.
  intros HI Ht. induction Ht as [r|r ls r1 ev r2 Ht IH Hs]; [by rewrite app_nil_r|].
  rewrite join_app. csimpl. rewrite app_nil_r, app_assoc. eapply reporter_step; [exact Hs|by apply IH].
Qed.

(** C25: An executor's reporter accounts for every result it accepted: at any moment each
    is delivered, discarded for a stated reason, abandoned by a canceled lifecycle, or
    still held, and never more than the capacity are retained.  The scheduler is called at
    most seven times with the result of a sequence number, and the numbers do not repeat
    below 2^64 results.  A reporter that completed without being canceled has delivered or
    discarded every result, and the number it reports as unsent at shutdown is exact. *)
Theorem reporter_accounts `{UuidLib} capacity concurrency r0 tr r :
  newReporter auth executorID capacity concurrency = Ok r0 → runs auth executorID r0 tr r →
  accepted tr ≡ₚ delivered tr ++ discarded tr ++ abandoned tr ++ (rr_sequence <$> held r) ∧
  re_retained r ≤ re_capacity r ∧
  (∀ s, (times s (called tr) ≤ 7 * times s (accepted tr))%nat) ∧
  (Z.of_nat (length (accepted tr)) < 2 ^ 64 → NoDup (accepted tr) ∧ ∀ s, (times s (called tr) ≤ 7)%nat) ∧
  (re_completed r = true → re_canceled r = false → accepted tr ≡ₚ delivered tr ++ discarded tr) ∧
  (∀ n, Unsent n ∈ tr → n = Z.of_nat (length (abandoned tr))).
Proof.
  intros Hn%reporter_new_inv (ls & -> & Ht). pose proof (reporter_run_inv _ _ _ _ Hn Ht) as [J1 J2 J3 J4 J5 J6 J7 J8 J9 J10 J11 J12 J13].
  simpl in *. assert (∀ s, (times s (called (mjoin ls)) ≤ 7 * times s (accepted (mjoin ls)))%nat) as Hcalls by (intros s; specialize (J5 s); lia).
  split_and!; [done|lia|done| | |intros n Hu; by apply J12].
  - intros Hlen. assert (NoDup (accepted (mjoin ls))) as Hnd by (rewrite (proj1 J13); by apply numbers_distinct).
    split; [done|]. intros s. specialize (Hcalls s). pose proof (distinct_times s _ Hnd). lia.
  - intros Hc Hnc. rewrite J1. destruct (abandoned (mjoin ls)) eqn:E; [|rewrite J6 in Hnc by done; done].
    assert (held r = []) as -> by (by destruct (J8 Hc) as [[_ ?]|[_ ?]]). by rewrite app_nil_r.
Qed.
End accounting.

(** ** A run: one result, refused once for lack of space and then acknowledged *)

Definition demo_auth : Authenticator := {| au_groupName := "g"; au_token := "11111111111141118111111111111111" |}.
#[local] Instance report_uuid : UuidLib :=
  {| Version := λ _, 4; VariantRFC4122 := λ _, true; ParseUUID := λ _, Some 1; StringUUID := λ _, "e" |}.
#[local] Instance report_grpc : GrpcLib := λ e, {| st_code := codes_ResourceExhausted; st_message := ""; st_reasons := [] |}.
#[local] Instance report_proto : ProtoLib := λ _, 100.
Definition demo_result : executionResult :=
  {| er_jobID := 1; er_instanceID := 1; er_taskID := 1; er_attemptNo := 1; er_success := true; er_summary := "done";
     er_data := Some "{}"; er_prepared := false; er_preparedItems := None |}.
Definition demo_entry (due attempts : Z) : retainedReport :=
  {| rr_result := demo_result; rr_due := due; rr_sequence := 1; rr_attempts := attempts |}.
Definition demo_reporter (started stopping completed : bool) (retained sequence : Z) (pending : list retainedReport)
    (workers : list (Worker retainedReport)) : reporter :=
  {| re_capacity := 1; re_concurrency := 1; re_started := started; re_stopping := stopping; re_completed := completed; re_canceled := false;
     re_retained := retained; re_sequence := sequence; re_pending := pending; re_workers := workers |}.
Definition demo_retry : Time := 5 + reportRetryDelay 1 0.
Definition demo_events : list Event := [Accepted 1; Called 1; Called 1; Delivered 1; Unsent 0].
Definition demo_request : ReportTaskResultRequest := { base_request demo_auth "e" demo_result with rq_Outcome := SUCCESS; rq_Output := DataJson "{}" }.

Lemma demo_reports : runs demo_auth "e" (demo_reporter false false false 0 0 [] []) demo_events (demo_reporter true true true 0 1 [] [Exited]).
Proof.
  exists [[]; [Accepted 1]; []; [Called 1]; []; []; [Called 1; Delivered 1]; []; [Unsent 0]]. split; [done|].
  eapply traces_cons; [apply (step_start _ _ _ (demo_reporter true false false 0 0 [] [Idle])); evaluate|].
  eapply traces_cons; [apply (step_submit _ _ _ None demo_result 5 (demo_reporter true false false 1 1 [demo_entry 5 0] [Idle]) (demo_entry 5 0)); evaluate|].
  eapply traces_cons; [apply (step_take _ _ _ 0 5 (demo_reporter true false false 1 1 [] [Idle]) (demo_entry 5 0)); evaluate|].
  eapply traces_cons; [apply (step_round _ _ (demo_reporter true false false 1 1 [] [Busy (demo_entry 5 0)]) 0 (demo_entry 5 0) true (CallFailed [Driver]) [demo_request] (demo_entry 5 1) Again 5 0); [evaluate|done|evaluate]|].
  eapply traces_cons; [apply step_stop|].
  eapply traces_cons; [apply (step_take _ _ _ 0 demo_retry (demo_reporter true true false 1 1 [] [Idle]) (demo_entry demo_retry 1)); evaluate|].
  eapply traces_cons; [apply (step_round _ _ (demo_reporter true true false 1 1 [] [Busy (demo_entry demo_retry 1)]) 0 (demo_entry demo_retry 1) true Acknowledged [demo_request] (demo_entry demo_retry 2) Acked 9 0); [evaluate|done|evaluate]|].
  eapply traces_cons; [apply (step_exit _ _ _ 0 10 (demo_reporter true true false 0 1 [] [Idle])); evaluate|].
  eapply traces_one, (step_finish _ _ (demo_reporter true true false 0 1 [] [Exited]) _ 0); evaluate.
Qed.

Lemma reporter_accounts_witness :
  ∃ r0, newReporter demo_auth "e" 1 1 = Ok r0 ∧ times 1 (called demo_events) = 2%nat ∧ (times 1 (called demo_events) ≤ 7)%nat ∧
    accepted demo_events ≡ₚ delivered demo_events ++ discarded demo_events.
Proof.
  exists (demo_reporter false false false 0 0 [] []). split; [evaluate|]. split; [evaluate|].
  destruct (reporter_accounts demo_auth "e" 1 1 (demo_reporter false false false 0 0 [] []) demo_events (demo_reporter true true true 0 1 [] [Exited]))
    as (_ & _ & _ & Hs & Hc & _); [evaluate|exact demo_reports|]. split; [by apply Hs|by apply Hc].
Defined.
