(* ===== verification/ExecutorRuntime.v ===== *)
(** * The executor runtime

    pkg/jobexecutor/runtime.go: bounded admission of attempts, fixed business workers
    and handoff of their results to the reporter.  Activities are shared between the
    queue, the map of active attempts and the workers, so they live in a heap and are
    passed by address.  Each critical section under the runtime's mutex is one
    operation; [step] interleaves requests, workers, the reporter and shutdown. *)

From S2P Require Import Prelude GoLib Model HintSpec RpcErrors Executor Reporter.

Open Scope string_scope.
Open Scope list_scope.
Open Scope Z_scope.

Record RuntimeConfig := { Concurrency : Z; QueueCapacity : Z; ReportCapacity : Z; ReportConcurrency : Z }.

Definition default (value limit : Z) : Z := if value =? 0 then limit else value.
Definition defaults (c : RuntimeConfig) : Result RuntimeConfig :=
  if (Concurrency c <? 0) || (QueueCapacity c <? 0) || (ReportCapacity c <? 0) || (ReportConcurrency c <? 0)
  then Fail [Text "executor runtime limits must not be negative"]
  else Ok {| Concurrency := default (Concurrency c) 32; QueueCapacity := default (QueueCapacity c) 128;
             ReportCapacity := default (ReportCapacity c) 256; ReportConcurrency := default (ReportConcurrency c) 16 |}.

(** [ac_running]: its cancel function is set; [ac_signalled]: that function was called. *)
Record activity := { ac_invocation : Invocation; ac_cancelled : bool; ac_running : bool; ac_signalled : bool }.

Definition attemptKey (iv : Invocation) : Z * Z := (iv_TaskID iv, iv_AttemptNo iv).

(** What a business worker is doing. *)
Inductive Job := Dequeued (p : Z) | Running (p : Z) | Handing (result : executionResult).

Record Runtime := {
  xr_config : RuntimeConfig; xr_registry : Registry; xr_reporter : reporter;
  xr_started : bool; xr_stopping : bool; xr_canceled : bool; xr_done : bool; xr_drainCtx : bool;
  xr_heap : gmap Z activity; xr_next : Z; xr_queue : list Z; xr_active : gmap (Z * Z) Z;
  xr_workers : list (Worker Job);
}.

Definition NewRuntime `{UuidLib} (registry : Registry) (groupName token executorInstanceID : string) (config : RuntimeConfig) : Result Runtime :=
  match defaults config with
  | Fail e => Fail e
  | Ok config =>
      match NewAuthenticator groupName token with
      | Fail e => Fail e
      | Ok auth =>
          match newReporter auth executorInstanceID (ReportCapacity config) (ReportConcurrency config) with
          | Fail e => Fail e
          | Ok reports =>
              Ok {| xr_config := config; xr_registry := registry; xr_reporter := reports;
                    xr_started := false; xr_stopping := false; xr_canceled := false; xr_done := false; xr_drainCtx := false;
                    xr_heap := ∅; xr_next := 1; xr_queue := []; xr_active := ∅; xr_workers := [] |}
          end
      end
  end.

Definition Start (r : Runtime) : Result Runtime :=
  if xr_stopping r then Fail [ErrStopping]
  else if xr_started r then Fail [Text "executor runtime has already started"]
  else match start (xr_reporter r) (if xr_canceled r then Some [ContextErr] else None) with
       | Fail e => Fail e
       | Ok reports =>
           Ok { r with xr_reporter := reports; xr_registry := Freeze (xr_registry r); xr_started := true;
                       xr_workers := replicate (Z.to_nat (Concurrency (xr_config r))) Idle }
       end.

(** The capability check of [validateInvocation]. *)
Definition stage_supported (r : Registry) (iv : Invocation) : bool :=
  match iv_Stage iv with
  | StageOrdinary => negb (iv_RequiredPost iv) && bool_decide (is_Some (Lookup r (iv_ProcessorName iv)))
  | stage =>
      (negb (bool_decide (stage = StagePost)) || iv_RequiredPost iv) &&
      match LookupSharding r (iv_ProcessorName iv) with Some (_, has_post) => negb (iv_RequiredPost iv) || has_post | None => false end
  end.

Definition validateInvocation (r : Registry) (iv : Invocation) : option Error :=
  if (iv_JobID iv <=? 0) || (iv_InstanceID iv <=? 0) || (iv_TaskID iv <=? 0) || (iv_AttemptNo iv <=? 0)
  then Some [Text "execution IDs and attempt number must be positive"]
  else if stage_supported r iv then None else Some [Text "execution stage or processor capability is invalid"].

Definition Accept (r : Runtime) (ctxErr : option Error) (now : Time) (iv : Invocation) : Runtime * (bool * option Error) :=
  if bool_decide (is_Some (xr_active r !! attemptKey iv)) then (r, (true, None))
  else if xr_stopping r then (r, (false, Some [ErrStopping]))
  else if negb (xr_started r) then (r, (false, Some [ErrNotReady]))
  else match ctxErr with
  | Some e => (r, (false, Some e))
  | None =>
      if negb (before now (iv_DeadlineAt iv)) then (r, (false, Some [ErrExpired]))
      else match validateInvocation (xr_registry r) iv with
      | Some e => (r, (false, Some e))
      | None =>
          if Z.of_nat (length (xr_queue r)) <? QueueCapacity (xr_config r) then
            let p := xr_next r in
            let work := {| ac_invocation := iv; ac_cancelled := false; ac_running := false; ac_signalled := false |} in
            ({ r with xr_heap := <[p := work]> (xr_heap r); xr_next := p + 1; xr_queue := xr_queue r ++ [p];
                      xr_active := <[attemptKey iv := p]> (xr_active r) }, (true, None))
          else (r, (false, None))
      end
  end.

(** Signalling one activity of the instance. *)
Definition signal (instanceID : Z) (a : activity) : activity :=
  if iv_InstanceID (ac_invocation a) =? instanceID
  then { a with ac_cancelled := true; ac_signalled := ac_signalled a || ac_running a } else a.

Definition Cancel (r : Runtime) (ctxErr : option Error) (instanceID : Z) (reason : CancelReason) : Runtime * option Error :=
  match ctxErr with
  | Some e => (r, Some e)
  | None =>
      if (instanceID <=? 0) || negb (bool_decide (reason = CancelManualStop) || bool_decide (reason = CancelInstanceTimeout))
      then (r, Some [Text "executor cancellation is invalid"])
      else ({ r with xr_heap := map_imap (λ p a, Some (if bool_decide (map_Exists (λ _ q, q = p) (xr_active r)) then signal instanceID a else a)) (xr_heap r) }, None)
  end.

Definition Stop (r : Runtime) : Runtime :=
  if xr_stopping r then r
  else
    let r := { r with xr_stopping := true } in
    if negb (xr_started r) then { r with xr_canceled := true; xr_reporter := { xr_reporter r with re_canceled := true }; xr_done := true } else r.

(** The lifecycle context ends; the reporter runs under the same context. *)
Definition cancel (r : Runtime) : Runtime := { r with xr_canceled := true; xr_reporter := { xr_reporter r with re_canceled := true } }.

(** [Drain] up to its wait: the first call installs the budget. *)
Definition Drain (r : Runtime) : Runtime :=
  let r := Stop r in if xr_drainCtx r then r else { r with xr_drainCtx := true }.

(** ** Workers *)

(** Receiving from the queue; a closed and empty queue ends the worker. *)
Inductive Received := GotWork (p : Z) | QueueClosed | QueueEmpty.
Definition receive (r : Runtime) : Runtime * Received :=
  match xr_queue r with
  | p :: rest => ({ r with xr_queue := rest }, GotWork p)
  | [] => (r, if xr_stopping r then QueueClosed else QueueEmpty)
  end.

(** The first critical section of [execute]: skip the work or start it. *)
Definition begin_execute (r : Runtime) (p : Z) (now : Time) : Runtime * bool :=
  match xr_heap r !! p with
  | None => (r, false)
  | Some a =>
      if ac_cancelled a || xr_canceled r || negb (before now (iv_DeadlineAt (ac_invocation a)))
      then ({ r with xr_active := delete (attemptKey (ac_invocation a)) (xr_active r) }, false)
      else ({ r with xr_heap := <[p := { a with ac_running := true }]> (xr_heap r) }, true)
  end.

(** What a processor did: it panicked, failed, or returned. *)
Inductive ProcessorReturn := Panicked | Failed (message : string) | ReturnedResult (data : option string) (summary : string)
| ReturnedItems (items : option (list string)) (summary : string).

Definition empty_result (iv : Invocation) : executionResult :=
  {| er_jobID := iv_JobID iv; er_instanceID := iv_InstanceID iv; er_taskID := iv_TaskID iv; er_attemptNo := iv_AttemptNo iv;
     er_success := false; er_summary := ""; er_data := None; er_prepared := false; er_preparedItems := None |}.

(** [invoke]: only preparation returns items.  A panic leaves [prepared] as it was when
    the processor was called. *)
Definition invoke (iv : Invocation) (ret : ProcessorReturn) : executionResult :=
  let prepare := bool_decide (iv_Stage iv = StagePrepare) in
  match ret with
  | Panicked => { empty_result iv with er_summary := "processor panicked" }
  | Failed message => { empty_result iv with er_summary := message; er_prepared := prepare }
  | ReturnedResult data summary => { empty_result iv with er_success := true; er_summary := summary; er_data := data }
  | ReturnedItems items summary => { empty_result iv with er_success := true; er_summary := summary; er_prepared := true; er_preparedItems := items }
  end.

(** The results the interfaces of processor.go allow for a stage. *)
Definition allowed (stage : Stage) (ret : ProcessorReturn) : bool :=
  match ret with
  | ReturnedItems _ _ => bool_decide (stage = StagePrepare)
  | ReturnedResult _ _ => negb (bool_decide (stage = StagePrepare))
  | _ => true
  end.

(** The second critical section: the attempt is over when the business code returned. *)
Definition end_execute (r : Runtime) (p : Z) : Runtime :=
  match xr_heap r !! p with
  | None => r
  | Some a => { r with xr_active := delete (attemptKey (ac_invocation a)) (xr_active r) }
  end.

(** ** Interleavings *)

Definition set_worker (k : nat) (w : Worker Job) (r : Runtime) : Runtime := { r with xr_workers := <[k := w]> (xr_workers r) }.

Inductive Label :=
| LAdmit (p : Z) (iv : Invocation)
| LRefuse
| LCancel (instanceID : Z)
| LBegin (p : Z)
| LSkip (p : Z)
| LReturn (p : Z) (result : executionResult)
| LHand (result : executionResult) (taken : bool)
| LReport (events : list Event)
| LInternal.

Section interleaving.
Context `{GrpcLib, ProtoLib} (auth : Authenticator) (executorID : string).

Inductive step : Runtime → Label → Runtime → Prop :=
| step_start r r' : Start r = Ok r' → step r LInternal r'
| step_accept r ctxErr now iv r' :
    Accept r ctxErr now iv = (r', (true, None)) →
    step r (if bool_decide (is_Some (xr_active r !! attemptKey iv)) then LInternal else LAdmit (xr_next r) iv) r'
| step_refuse r ctxErr now iv r' e : Accept r ctxErr now iv = (r', (false, e)) → step r LRefuse r'
| step_cancel r ctxErr instanceID reason r' : Cancel r ctxErr instanceID reason = (r', None) → step r (LCancel instanceID) r'
| step_stop r : step r LInternal (Stop r)
| step_drain r : step r LInternal (Drain r)
| step_expire r : xr_drainCtx r = true → step r LInternal (cancel r)
| step_receive r k r' p :
    xr_workers r !! k = Some Idle → receive r = (r', GotWork p) → step r LInternal (set_worker k (Busy (Dequeued p)) r')
| step_exit r k r' : xr_workers r !! k = Some Idle → receive r = (r', QueueClosed) → step r LInternal (set_worker k Exited r')
| step_begin r k p now r' :
    xr_workers r !! k = Some (Busy (Dequeued p)) → begin_execute r p now = (r', true) → step r (LBegin p) (set_worker k (Busy (Running p)) r')
| step_skip r k p now r' :
    xr_workers r !! k = Some (Busy (Dequeued p)) → begin_execute r p now = (r', false) → step r (LSkip p) (set_worker k Idle r')
| step_return r k p a ret :
    xr_workers r !! k = Some (Busy (Running p)) → xr_heap r !! p = Some a → allowed (iv_Stage (ac_invocation a)) ret = true →
    step r (LReturn p (invoke (ac_invocation a) ret)) (set_worker k (Busy (Handing (invoke (ac_invocation a) ret))) (end_execute r p))
| step_hand r k result now reports entry :
    xr_workers r !! k = Some (Busy (Handing result)) →
    submit (xr_reporter r) (if xr_canceled r then Some [ContextErr] else None) result now = (reports, Enqueued entry) →
    step r (LHand result true) (set_worker k Idle { r with xr_reporter := reports })
| step_hand_refused r k result now reports e :
    xr_workers r !! k = Some (Busy (Handing result)) →
    submit (xr_reporter r) (if xr_canceled r then Some [ContextErr] else None) result now = (reports, Refused e) →
    step r (LHand result false) (set_worker k Idle r)
| step_report r events reports :
    Reporter.step auth executorID (xr_reporter r) events reports → re_canceled reports = re_canceled (xr_reporter r) →
    re_started reports = re_started (xr_reporter r) → re_stopping reports = re_stopping (xr_reporter r) → accepted events = [] →
    step r (LReport events) { r with xr_reporter := reports }
| step_close_reporter r :
    xr_started r = true → forallb exited (xr_workers r) = true → step r LInternal { r with xr_reporter := stop (xr_reporter r) }
| step_done r :
    xr_started r = true → forallb exited (xr_workers r) = true → re_completed (xr_reporter r) = true →
    step r LInternal { cancel r with xr_done := true }.
End interleaving.
