(* ===== verification/ExecutorInv.v ===== *)
(** * What the executor runtime guarantees

    Invariants of every interleaving of pkg/jobexecutor/runtime.go: an admitted attempt
    runs at most once, attempts are deduplicated while active, the queue and the workers
    stay within their limits, a cancelled attempt that waits never starts, and every
    business result reaches the reporter unless the lifecycle was cancelled. *)

From S2P Require Import Prelude GoLib Model HintSpec RpcErrors Executor Reporter ExecutorRuntime.

Open Scope string_scope.
Open Scope list_scope.
Open Scope Z_scope.

Definition job_pointer (j : Job) : option Z := match j with Dequeued p | Running p => Some p | Handing _ => None end.
Definition waiting_job (j : Job) : option Z := match j with Dequeued p => Some p | _ => None end.
Definition in_hand (j : Job) : option executionResult := match j with Handing result => Some result | _ => None end.

(** The activities somebody still refers to, and those that have not started. *)
Definition pointers (r : Runtime) : list Z := xr_queue r ++ omap job_pointer (busy (xr_workers r)).
Definition waiting (r : Runtime) : list Z := xr_queue r ++ omap waiting_job (busy (xr_workers r)).

Record heap_inv (r : Runtime) : Prop := {
  hi_once : NoDup (pointers r);
  hi_live : ∀ p, p ∈ pointers r → ∃ a, xr_heap r !! p = Some a ∧ xr_active r !! attemptKey (ac_invocation a) = Some p;
  hi_active : ∀ key p, xr_active r !! key = Some p → p ∈ pointers r ∧ ∃ a, xr_heap r !! p = Some a ∧ attemptKey (ac_invocation a) = key;
  hi_next : ∀ p a, xr_heap r !! p = Some a → p < xr_next r;
}.

Record pool_inv (r : Runtime) : Prop := {
  pi_limits : 0 < Concurrency (xr_config r) ∧ 0 < QueueCapacity (xr_config r);
  pi_queue : Z.of_nat (length (xr_queue r)) ≤ QueueCapacity (xr_config r);
  pi_unstarted : xr_started r = false → xr_workers r = [] ∧ xr_queue r = [];
  pi_workers : xr_started r = true → length (xr_workers r) = Z.to_nat (Concurrency (xr_config r));
  pi_exited : Exited ∈ xr_workers r → xr_stopping r = true ∧ xr_queue r = [];
}.

Record reporter_link (r : Runtime) : Prop := {
  rl_started : re_started (xr_reporter r) = xr_started r;
  rl_canceled : re_canceled (xr_reporter r) = xr_canceled r;
  rl_stopping : re_stopping (xr_reporter r) = true → xr_started r = true ∧ forallb exited (xr_workers r) = true;
}.

Record executor_inv (r : Runtime) : Prop := { ei_heap : heap_inv r; ei_pool : pool_inv r; ei_reporter : reporter_link r }.

(** ** Operations on the pointers *)

Lemma omap_busy_insert {B} (f : Job → option B) ws k w w' :
  ws !! k = Some w →
  option_list (work_of w ≫= f) ++ omap f (busy (<[k := w']> ws)) ≡ₚ option_list (work_of w' ≫= f) ++ omap f (busy ws).
Proof.
  intros Hk. pose proof (busy_insert ws k w w' Hk) as Hp.
  assert (∀ (o : option Job) l, omap f (option_list o ++ l) = option_list (o ≫= f) ++ omap f l) as E
    by (intros [j|] l; [csimpl; by destruct (f j)|done]).
  rewrite <-!E. by rewrite Hp.
Qed.

Lemma elem_of_omap_busy {B} (f : Job → option B) ws b : b ∈ omap f (busy ws) ↔ ∃ k j, ws !! k = Some (Busy j) ∧ f j = Some b.
Proof.
  rewrite list_elem_of_omap. split.
  - intros (j & [k Hk]%elem_of_busy & Hf). eauto.
  - intros (k & j & Hk & Hf). exists j. split; [|done]. apply elem_of_busy. eauto.
Qed.

Lemma heap_same r r' :
  heap_inv r → pointers r' ≡ₚ pointers r → xr_heap r' = xr_heap r → xr_active r' = xr_active r → xr_next r' = xr_next r → heap_inv r'.
Proof.
  intros [H1 H2 H3 H4] Hp E1 E2 E3. constructor; rewrite ?E1, ?E2, ?E3; [by rewrite Hp| | |done].
  - intros p. rewrite Hp. apply H2.
  - intros key p Hk. rewrite Hp. by apply H3.
Qed.

Lemma pool_same r r' :
  pool_inv r → xr_config r' = xr_config r → xr_queue r' = xr_queue r → xr_started r' = xr_started r → xr_workers r' = xr_workers r →
  (xr_stopping r = true → xr_stopping r' = true) → pool_inv r'.
Proof. intros [? ? ? ? H5] E1 E2 E3 E4 Hs. constructor; rewrite ?E1, ?E2, ?E3, ?E4; try done. naive_solver. Qed.

(** Putting a worker into another state. *)
Lemma pool_worker r k w w' queue :
  pool_inv r → xr_workers r !! k = Some w → (length queue ≤ length (xr_queue r))%nat →
  (w' = Exited → xr_stopping r = true ∧ xr_queue r = []) → 
  ∀ r', xr_config r' = xr_config r → xr_queue r' = queue → xr_started r' = xr_started r →
  xr_workers r' = <[k := w']> (xr_workers r) → xr_stopping r' = xr_stopping r → pool_inv r'.
Proof.
  intros [H1 H2 H3 H4 H5] Hk Hq Hw r' E1 E2 E3 E4 E5. constructor; rewrite ?E1, ?E2, ?E3, ?E4, ?E5; [done|lia| | |].
  - intros Hx. destruct (H3 Hx) as [Hn _]. by rewrite Hn in Hk.
  - intros Hx. rewrite length_insert. auto.
  - intros Hx. assert (xr_stopping r = true ∧ xr_queue r = []) as [? Hn] by (apply exited_insert in Hx as [->|Hx]; auto).
    split; [done|]. rewrite Hn in Hq. by apply nil_length_inv, Nat.le_0_r.
Qed.

Lemma active_not_exited r k w : reporter_link r → xr_workers r !! k = Some w → w ≠ Exited → re_stopping (xr_reporter r) = false.
Proof.
  intros [_ _ Hs] Hk Hw. destruct (re_stopping (xr_reporter r)); [|done]. destruct (Hs eq_refl) as [_ Hx].
  by apply (exited_lookup _ _ _ Hx) in Hk.
Qed.

Lemma link_worker r r' k w w' :
  reporter_link r → xr_workers r !! k = Some w → w ≠ Exited → xr_reporter r' = xr_reporter r → xr_started r' = xr_started r →
  xr_canceled r' = xr_canceled r → xr_workers r' = <[k := w']> (xr_workers r) → reporter_link r'.
Proof.
  intros Hl Hk Hw E1 E2 E3 E4. pose proof (active_not_exited _ _ _ Hl Hk Hw) as Hn. destruct Hl as [? ? ?].
  constructor; rewrite ?E1, ?E2, ?E3; try done. congruence.
Qed.

(** ** Every step keeps the invariant *)

(** Updating activities in place. *)
Lemma heap_update r r' (f : Z → activity → activity) :
  heap_inv r → pointers r' ≡ₚ pointers r → xr_active r' = xr_active r → xr_next r' = xr_next r →
  (∀ p a, ac_invocation (f p a) = ac_invocation a) →
  (∀ p, xr_heap r' !! p = f p <$> xr_heap r !! p) → heap_inv r'.
Proof.
  intros [H1 H2 H3 H4] Hp E2 E3 Hf Hh. constructor; rewrite ?E2, ?E3; [by rewrite Hp| | |].
  - intros p. rewrite Hp. intros (a & Ha & Hk)%H2. exists (f p a). by rewrite Hh, Ha, Hf.
  - intros key p Hk. rewrite Hp. destruct (H3 _ _ Hk) as (? & a & Ha & ?). split; [done|]. exists (f p a). by rewrite Hh, Ha, Hf.
  - intros p a. rewrite Hh. destruct (xr_heap r !! p) as [a0|] eqn:E; [|done]. intros _. by eapply H4.
Qed.

(** An activity leaves: its worker lets go of it and its attempt is no longer active. *)
Lemma heap_leave r r' p a :
  heap_inv r → xr_heap r !! p = Some a → pointers r ≡ₚ p :: pointers r' → xr_heap r' = xr_heap r → xr_next r' = xr_next r →
  xr_active r' = delete (attemptKey (ac_invocation a)) (xr_active r) → heap_inv r'.
Proof.
  intros [H1 H2 H3 H4] Ha Hp E1 E2 E3. rewrite Hp in H1. apply NoDup_cons in H1 as [Hni Hnd].
  assert (xr_active r !! attemptKey (ac_invocation a) = Some p) as Hact.
  { destruct (H2 p) as (a' & Ha' & Hk); [rewrite Hp; by left|]. by simplify_eq. }
  constructor; rewrite ?E1, ?E2, ?E3; [done| | |done].
  - intros q Hq. destruct (H2 q) as (b & Hb & Hk); [rewrite Hp; by right|]. exists b. split; [done|].
    rewrite lookup_delete_ne; [done|]. intros E. rewrite <-E, Hact in Hk. by simplify_eq.
  - intros key q [Hne Hk]%lookup_delete_Some. destruct (H3 _ _ Hk) as (Hin & b & Hb & Hbk). split; [|eauto].
    rewrite Hp in Hin. apply elem_of_cons in Hin as [->|?]; [|done]. by simplify_eq.
Qed.

Lemma worker_pointers (f : Job → option Z) r k w w' :
  xr_workers r !! k = Some w →
  option_list (work_of w ≫= f) ++ (xr_queue r ++ omap f (busy (<[k := w']> (xr_workers r)))) ≡ₚ
  option_list (work_of w' ≫= f) ++ (xr_queue r ++ omap f (busy (xr_workers r))).
Proof.
  intros Hk. pose proof (omap_busy_insert f _ _ _ w' Hk) as Hp.
  transitivity (xr_queue r ++ (option_list (work_of w ≫= f) ++ omap f (busy (<[k := w']> (xr_workers r))))); [solve_Permutation|].
  rewrite Hp. solve_Permutation.
Qed.

Lemma new_runtime_inv `{UuidLib} registry groupName token id config r : NewRuntime registry groupName token id config = Ok r → executor_inv r.
Proof.
  unfold NewRuntime, defaults. destruct (_ || _) eqn:E; [done|]. to_prop. destruct (NewAuthenticator _ _); [|done].
  destruct (newReporter _ _ _ _) as [reports|] eqn:En; [|done]. intros [= <-].
  assert (re_started reports = false ∧ re_canceled reports = false ∧ re_stopping reports = false) as (E1 & E2 & E3)
    by (unfold newReporter in En; break_hyp En; done).
  split; constructor; unfold pointers, default; simpl; try done; try (rewrite ?E1, ?E2, ?E3; done).
  - constructor.
  - intros p Hp. by apply elem_of_nil in Hp.
  - repeat case_match; to_prop; lia.
  - repeat case_match; to_prop; lia.
  - intros Hx. by apply elem_of_nil in Hx.
Qed.

Lemma runtime_start_inv r r' : Start r = Ok r' → executor_inv r → executor_inv r'.
Proof.
  unfold Start. destruct (xr_stopping r) eqn:Esp; [done|]. destruct (xr_started r) eqn:Es; [done|].
  destruct (start _ _) as [reports|] eqn:Er; [|done]. intros [= <-] [Hh Hp Hl].
  destruct (pi_unstarted _ Hp Es) as [Hw Hq].
  assert (re_started reports = true ∧ re_canceled reports = re_canceled (xr_reporter r) ∧ re_stopping reports = re_stopping (xr_reporter r)) as (E1 & E2 & E3)
    by (unfold start in Er; break_hyp Er; done).
  split.
  - eapply heap_same; [exact Hh|..]; try done. unfold pointers. simpl. by rewrite Hw, busy_replicate.
  - destruct Hp. constructor; simpl; try done; [by rewrite length_replicate|]. by intros [? _]%elem_of_replicate.
  - destruct Hl as [L1 L2 L3]. constructor; simpl; [done|congruence|]. rewrite E3. intros Hx. destruct (L3 Hx). congruence.
Qed.

Lemma admitted_inv r ctxErr now iv r' :
  Accept r ctxErr now iv = (r', (true, None)) → executor_inv r → executor_inv r'.
Proof.
  unfold Accept. case_bool_decide as Hact; [by intros [= ->]|]. destruct (xr_stopping r) eqn:Esp; [done|].
  destruct (xr_started r) eqn:Est; [|done]. destruct ctxErr; [done|]. simpl. destruct (before _ _); [|done]. simpl.
  destruct (validateInvocation _ _); [done|]. destruct (Z.ltb_spec (Z.of_nat (length (xr_queue r))) (QueueCapacity (xr_config r))); [|done].
  intros [= <-] [Hh Hp Hl]. set (work := {| ac_invocation := iv; ac_cancelled := false; ac_running := false; ac_signalled := false |}).
  assert (∀ p, p ∈ pointers r → p < xr_next r) as Hlt by (intros p (a & Ha & _)%(hi_live _ Hh); by eapply hi_next).
  split; [| |by destruct Hl; constructor].
  - match goal with |- heap_inv ?x => set (r' := x) end.
    assert (pointers r' ≡ₚ xr_next r :: pointers r) as Hperm by (unfold pointers, r'; simpl; solve_Permutation).
    destruct Hh as [H1 H2 H3 H4]. constructor; simpl.
    + rewrite Hperm. constructor; [|done]. intros Hx%Hlt. lia.
    + intros p. rewrite Hperm. intros [->|Hp']%elem_of_cons.
      * exists work. by rewrite !lookup_insert_eq.
      * destruct (H2 _ Hp') as (a & Ha & Hk). exists a. pose proof (Hlt _ Hp').
        rewrite !lookup_insert_ne; [done|intros E; apply Hact; by rewrite E, Hk|lia].
    + intros key p [[<- <-]|[Hne Hk]]%lookup_insert_Some.
      * split; [rewrite Hperm; by left|]. exists work. by rewrite lookup_insert_eq.
      * destruct (H3 _ _ Hk) as (Hin & a & Ha & Hka). split; [rewrite Hperm; by right|]. exists a. pose proof (Hlt _ Hin).
        rewrite lookup_insert_ne by lia. done.
    + intros p a [[<- _]|[_ Ha]]%lookup_insert_Some; [lia|]. pose proof (H4 _ _ Ha). lia.
  - destruct Hp as [? ? ? ? Hex]. constructor; simpl; try done; [rewrite length_app; simpl; lia|congruence|].
    intros Hx. destruct (Hex Hx). congruence.
Qed.

Lemma refused_same r ctxErr now iv r' e : Accept r ctxErr now iv = (r', (false, e)) → r' = r.
Proof. unfold Accept. intros Ha. repeat case_match; simplify_eq; done. Qed.

Lemma signal_invocation id a : ac_invocation (signal id a) = ac_invocation a.
Proof. unfold signal. by destruct (_ =? _). Qed.

(** What cancellation does to an activity. *)
Definition signal_at (r : Runtime) (id p : Z) (a : activity) : activity :=
  if bool_decide (map_Exists (λ _ q, q = p) (xr_active r)) then signal id a else a.

Lemma cancel_spec r ctxErr id reason r' :
  Cancel r ctxErr id reason = (r', None) → r' = { r with xr_heap := xr_heap r' } ∧ ∀ p, xr_heap r' !! p = signal_at r id p <$> xr_heap r !! p.
Proof.
  unfold Cancel. destruct ctxErr; [done|]. destruct (_ || _); [done|]. intros [= <-]. split; [done|]. intros p. simpl.
  rewrite map_lookup_imap. unfold signal_at. by destruct (xr_heap r !! p).
Qed.

Lemma cancel_instance_inv r ctxErr id reason r' : Cancel r ctxErr id reason = (r', None) → executor_inv r → executor_inv r'.
Proof.
  intros [E Hh]%cancel_spec [Hi Hp Hl]. remember (xr_heap r') as h eqn:Eh. clear Eh. subst r'. split; [|by eapply pool_same|by destruct Hl; constructor].
  eapply (heap_update r _ (signal_at r id)); try done. intros p a. unfold signal_at. case_bool_decide; [apply signal_invocation|done].
Qed.

Lemma stop_runtime_inv r : executor_inv r → executor_inv (Stop r).
Proof.
  intros [Hh Hp Hl]. unfold Stop. destruct (xr_stopping r) eqn:Esp; [by split|]. simpl. destruct (xr_started r) eqn:Es; simpl.
  - split; [by eapply heap_same|by eapply pool_same|by destruct Hl; constructor].
  - split; [by eapply heap_same|by eapply pool_same|]. destruct Hl. constructor; simpl; try done.
Qed.

Lemma cancel_inv r : executor_inv r → executor_inv (cancel r).
Proof.
  intros [Hh Hp Hl]. split; [by eapply heap_same|by eapply pool_same|]. by destruct Hl; constructor.
Qed.

Lemma receive_inv r k r' p :
  xr_workers r !! k = Some Idle → receive r = (r', GotWork p) → executor_inv r → executor_inv (set_worker k (Busy (Dequeued p)) r').
Proof.
  unfold receive. intros Hk Hr [Hh Hp Hl]. destruct (xr_queue r) as [|q rest] eqn:Eq; [by destruct (xr_stopping r)|]. simplify_eq.
  split; [| |by eapply link_worker].
  - eapply heap_same; [exact Hh|..]; try done. pose proof (worker_pointers job_pointer r k Idle (Busy (Dequeued p)) Hk) as Hw.
    unfold pointers. rewrite Eq in *. simpl in *. apply (Permutation_cons_inv (a := p)). rewrite Hw. solve_Permutation.
  - eapply (pool_worker r k _ (Busy (Dequeued p)) rest); try done. rewrite Eq. simpl. lia.
Qed.

Lemma worker_exit_inv r k r' : xr_workers r !! k = Some Idle → receive r = (r', QueueClosed) → executor_inv r → executor_inv (set_worker k Exited r').
Proof.
  unfold receive. intros Hk Hr [Hh Hp Hl]. destruct (xr_queue r) as [|q rest] eqn:Eq; [|done]. destruct (xr_stopping r) eqn:Es; simplify_eq.
  split; [| |by eapply link_worker].
  - eapply heap_same; [exact Hh|..]; try done. unfold pointers. simpl. exact (worker_pointers job_pointer r' k Idle Exited Hk).
  - eapply (pool_worker r' k _ Exited (xr_queue r')); try done.
Qed.

Lemma begin_inv r k p now r' :
  xr_workers r !! k = Some (Busy (Dequeued p)) → begin_execute r p now = (r', true) → executor_inv r →
  executor_inv (set_worker k (Busy (Running p)) r').
Proof.
  unfold begin_execute. intros Hk Hb [Hh Hp Hl]. destruct (xr_heap r !! p) as [a|] eqn:Ea; [|done]. destruct (_ || _); [done|]. simplify_eq.
  split; [| |by eapply link_worker].
  - eapply (heap_update r _ (λ q b, if decide (q = p) then { b with ac_running := true } else b)); try done.
    + unfold pointers. simpl. apply (Permutation_cons_inv (a := p)). exact (worker_pointers job_pointer r k _ (Busy (Running p)) Hk).
    + intros q b. by case_decide.
    + intros q. simpl. destruct (decide (q = p)) as [->|Hne]; [by rewrite lookup_insert_eq, Ea|]. rewrite lookup_insert_ne by done.
      by destruct (xr_heap r !! q).
  - eapply (pool_worker r k _ (Busy (Running p)) (xr_queue r)); done.
Qed.

(** A worker lets go of its activity, to do [w'] next. *)
Lemma leave_inv r k j p a w' :
  xr_workers r !! k = Some (Busy j) → job_pointer j = Some p → xr_heap r !! p = Some a →
  (match w' with Idle | Busy (Handing _) => True | _ => False end) → executor_inv r →
  executor_inv (set_worker k w' { r with xr_active := delete (attemptKey (ac_invocation a)) (xr_active r) }).
Proof.
  intros Hk Hj Ha Hw' [Hh Hp Hl]. assert (work_of w' ≫= job_pointer = None) as Hn by (by destruct w' as [|[]|]).
  split; [| |by eapply link_worker].
  - eapply (heap_leave r _ p a); try done. unfold pointers. simpl.
    pose proof (worker_pointers job_pointer r k _ w' Hk) as Hperm. rewrite Hn in Hperm. simpl in Hperm. rewrite Hj in Hperm. by symmetry.
  - eapply (pool_worker r k _ w' (xr_queue r)); try done. intros ->. done.
Qed.

Lemma owned_activity r k j p : executor_inv r → xr_workers r !! k = Some (Busy j) → job_pointer j = Some p → is_Some (xr_heap r !! p).
Proof.
  intros [Hh _ _] Hk Hj. destruct (hi_live _ Hh p) as (a & Ha & _); [|by rewrite Ha].
  unfold pointers. apply elem_of_app. right. apply elem_of_omap_busy. eauto.
Qed.

Lemma skip_inv r k p now r' :
  xr_workers r !! k = Some (Busy (Dequeued p)) → begin_execute r p now = (r', false) → executor_inv r → executor_inv (set_worker k Idle r').
Proof.
  intros Hk Hb HI. destruct (owned_activity _ _ _ _ HI Hk eq_refl) as [a Ha]. unfold begin_execute in Hb. rewrite Ha in Hb.
  destruct (_ || _); simplify_eq. by eapply leave_inv.
Qed.

(** A worker done with its result; the pointers do not change. *)
Lemma hand_inv r k result reports :
  xr_workers r !! k = Some (Busy (Handing result)) → executor_inv r →
  re_started reports = re_started (xr_reporter r) → re_canceled reports = re_canceled (xr_reporter r) →
  re_stopping reports = re_stopping (xr_reporter r) → executor_inv (set_worker k Idle { r with xr_reporter := reports }).
Proof.
  intros Hk [Hh Hp Hl] E1 E2 E3. pose proof (active_not_exited _ _ _ Hl Hk ltac:(done)) as Hns. split.
  - eapply heap_same; [exact Hh|..]; try done. unfold pointers. simpl. exact (worker_pointers job_pointer r k _ Idle Hk).
  - eapply (pool_worker r k _ Idle (xr_queue r)); done.
  - destruct Hl. constructor; simpl; congruence.
Qed.

Lemma submit_reporter r ctxErr result now reports x :
  submit r ctxErr result now = (reports, x) →
  re_started reports = re_started r ∧ re_canceled reports = re_canceled r ∧ re_stopping reports = re_stopping r.
Proof. unfold submit. intros Hs. repeat case_match; simplify_eq; done. Qed.

Section runs.
Context `{GrpcLib, ProtoLib} (auth : Authenticator) (executorID : string).

Lemma executor_step_inv r l r' : step auth executorID r l r' → executor_inv r → executor_inv r'.
Proof.
  destruct 1 as [r r' Hs|r ctxErr now iv r' Ha|r ctxErr now iv r' e Ha|r ctxErr id reason r' Hc|r|r|r Hd|r k r' p Hk Hr|r k r' Hk Hr
    |r k p now r' Hk Hb|r k p now r' Hk Hb|r k p a ret Hk Ha Hal|r k result now reports entry Hk Hs|r k result now reports e Hk Hs
    |r events reports Hs E1 E2 E3 E4|r Hst Hx|r Hst Hx Hc]; intros HI.
  - by eapply runtime_start_inv.
  - by eapply admitted_inv.
  - by apply refused_same in Ha as ->.
  - by eapply cancel_instance_inv.
  - by apply stop_runtime_inv.
  - unfold Drain. pose proof (stop_runtime_inv _ HI) as [Hh Hp Hl]. destruct (xr_drainCtx _); [done|].
    split; [by eapply heap_same|by eapply pool_same|by destruct Hl; constructor].
  - by apply cancel_inv.
  - by eapply receive_inv.
  - by eapply worker_exit_inv.
  - by eapply begin_inv.
  - by eapply skip_inv.
  - unfold end_execute. rewrite Ha. by eapply (leave_inv r k (Running p) p).
  - destruct (submit_reporter _ _ _ _ _ _ Hs) as (E1 & E2 & E3). by eapply hand_inv.
  - replace r with { r with xr_reporter := xr_reporter r } by (by destruct r). by eapply hand_inv.
  - destruct HI as [Hh Hp Hl]. split; [by eapply heap_same|by eapply pool_same|]. destruct Hl as [? ? L3]. constructor; simpl; [congruence|congruence|by rewrite E3].
  - destruct HI as [Hh Hp Hl]. split; [by eapply heap_same|by eapply pool_same|]. destruct Hl as [L1 L2 L3].
    unfold stop. simpl. destruct (_ && _); constructor; simpl; try done; auto.
  - destruct (cancel_inv _ HI) as [Hh Hp Hl]. split; [by eapply heap_same|by eapply pool_same|by destruct Hl; constructor].
Qed.

(** ** What a run shows *)

Definition begins (tr : list Label) : list Z := omap (λ l, match l with LBegin p => Some p | _ => None end) tr.
Definition returned (tr : list Label) : list executionResult := omap (λ l, match l with LReturn _ result => Some result | _ => None end) tr.
Definition handed (tr : list Label) : list executionResult := omap (λ l, match l with LHand result _ => Some result | _ => None end) tr.

Record trace_inv (tr : list Label) (r : Runtime) : Prop := {
  ti_fresh : ∀ p, p ∈ waiting r ∨ xr_next r ≤ p → p ∉ begins tr;
  ti_begins : NoDup (begins tr);
  ti_admitted : ∀ p a, xr_heap r !! p = Some a → LAdmit p (ac_invocation a) ∈ tr;
  ti_begun : ∀ p, p ∈ begins tr → ∃ iv, LAdmit p iv ∈ tr;
  ti_returned : returned tr ≡ₚ handed tr ++ omap in_hand (busy (xr_workers r));
  ti_refused : ∀ result, LHand result false ∈ tr → xr_canceled r = true;
}.

Lemma begins_snoc tr l : begins (tr ++ [l]) = begins tr ++ begins [l].
Proof. apply omap_app. Qed.
Lemma returned_snoc tr l : returned (tr ++ [l]) = returned tr ++ returned [l].
Proof. apply omap_app. Qed.
Lemma handed_snoc tr l : handed (tr ++ [l]) = handed tr ++ handed [l].
Proof. apply omap_app. Qed.

Lemma pointers_split r : pointers r ≡ₚ waiting r ++ omap (λ j, match j with Running p => Some p | _ => None end) (busy (xr_workers r)).
Proof.
  unfold pointers, waiting. rewrite <-app_assoc. f_equiv.
  induction (busy (xr_workers r)) as [|j l IH]; csimpl; [done|]. destruct j; csimpl; rewrite IH; solve_Permutation.
Qed.

(** A step that starts nothing and returns nothing. *)
Lemma trace_quiet tr l r r' :
  trace_inv tr r → begins [l] = [] → returned [l] = [] → handed [l] = [] →
  (∀ p, p ∈ waiting r' ∨ xr_next r' ≤ p → p ∈ waiting r ∨ xr_next r ≤ p) →
  (∀ p a, xr_heap r' !! p = Some a → LAdmit p (ac_invocation a) ∈ tr ++ [l]) →
  omap in_hand (busy (xr_workers r')) ≡ₚ omap in_hand (busy (xr_workers r)) → (xr_canceled r = true → xr_canceled r' = true) →
  trace_inv (tr ++ [l]) r'.
Proof.
  intros [T1 T2 T3 T4 T5 T6] E1 E2 E3 Hw Hh Hin Hc. constructor; rewrite ?begins_snoc, ?returned_snoc, ?handed_snoc, ?E1, ?E2, ?E3, ?app_nil_r; try done.
  - intros p Hp. apply T1. auto.
  - intros p Hp. destruct (T4 p Hp) as [iv Hiv]. exists iv. apply elem_of_app. by left.
  - by rewrite Hin.
  - intros result [Hx|Hx]%elem_of_app; [apply Hc; by eapply T6|]. apply list_elem_of_singleton in Hx. subst l. done.
Qed.

Lemma admit_kept tr l r : trace_inv tr r → ∀ p a, xr_heap r !! p = Some a → LAdmit p (ac_invocation a) ∈ tr ++ [l].
Proof. intros HT p a Ha. apply elem_of_app. left. by eapply ti_admitted. Qed.

(** Running states through a worker's change. *)
Lemma in_hand_insert r k w w' :
  xr_workers r !! k = Some w → work_of w ≫= in_hand = None → work_of w' ≫= in_hand = None →
  omap in_hand (busy (<[k := w']> (xr_workers r))) ≡ₚ omap in_hand (busy (xr_workers r)).
Proof. intros Hk E1 E2. pose proof (omap_busy_insert in_hand _ _ _ w' Hk) as Hp. by rewrite E1, E2 in Hp. Qed.

Lemma trace_admit tr r ctxErr now iv r' :
  Accept r ctxErr now iv = (r', (true, None)) → executor_inv r → trace_inv tr r →
  trace_inv (tr ++ [if bool_decide (is_Some (xr_active r !! attemptKey iv)) then LInternal else LAdmit (xr_next r) iv]) r'.
Proof.
  unfold Accept. intros Ha HI HT. case_bool_decide as Hact.
  { simplify_eq. eapply trace_quiet; try done. by eapply admit_kept. }
  repeat case_match; simplify_eq. eapply trace_quiet; [exact HT|done..| | |done|done].
  - intros p [Hp|Hp]; simpl in *; [|right; lia]. unfold waiting in *. simpl in Hp.
    rewrite !elem_of_app, list_elem_of_singleton in Hp. rewrite elem_of_app. naive_solver lia.
  - simpl. intros p a [[<- <-]|[_ Ha]]%lookup_insert_Some; apply elem_of_app; [right; by left|left]. by eapply ti_admitted.
Qed.

Lemma trace_begin tr r k p now r' :
  xr_workers r !! k = Some (Busy (Dequeued p)) → begin_execute r p now = (r', true) → executor_inv r → trace_inv tr r →
  trace_inv (tr ++ [LBegin p]) (set_worker k (Busy (Running p)) r').
Proof.
  intros Hk Hb HI HT. pose proof (begin_inv _ _ _ _ _ Hk Hb HI) as [Hh' _ _].
  pose proof (hi_once _ Hh') as Hnd. rewrite pointers_split in Hnd. apply NoDup_app in Hnd as (_ & Hdis & _).
  assert (∃ a, xr_heap r !! p = Some a ∧ r' = { r with xr_heap := <[p := { a with ac_running := true }]> (xr_heap r) }) as (a & Ha & ->).
  { unfold begin_execute in Hb. destruct (xr_heap r !! p) as [a|]; [|done]. destruct (_ || _); simplify_eq. eauto. }
  clear Hb. set (r' := set_worker k (Busy (Running p)) { r with xr_heap := <[p := { a with ac_running := true }]> (xr_heap r) }) in *.
  assert (p :: waiting r' ≡ₚ waiting r) as Hw by exact (worker_pointers waiting_job r k _ (Busy (Running p)) Hk).
  assert (p ∈ waiting r) as Hpw by (rewrite <-Hw; by left).
  assert (p ∉ waiting r') as Hni.
  { intros Hx. apply (Hdis p Hx). apply elem_of_omap_busy. exists k, (Running p). split; [|done]. unfold r'. simpl.
    apply list_lookup_insert_eq. by eapply lookup_lt_Some. }
  assert (p < xr_next r) as Hlt by (eapply hi_next; [apply HI|exact Ha]).
  pose proof HT as [T1 T2 T3 T4 T5 T6]. constructor; rewrite ?begins_snoc, ?returned_snoc, ?handed_snoc; simpl; rewrite ?app_nil_r.
  - intros q Hq. rewrite not_elem_of_app, not_elem_of_cons. split_and!; [|intros ->; destruct Hq as [?|Hq]; [done|lia]|apply not_elem_of_nil].
    apply T1. destruct Hq as [Hq|Hq]; [left|by right]. rewrite <-Hw. by right.
  - rewrite (Permutation_app_comm (begins tr)). simpl. constructor; [apply T1; by left|done].
  - intros q b [[<- <-]|[_ Hq]]%lookup_insert_Some; apply elem_of_app; left; [exact (T3 _ _ Ha)|by apply T3].
  - intros q. rewrite elem_of_app, list_elem_of_singleton. intros [Hq| ->].
    + destruct (T4 _ Hq) as [iv ?]. exists iv. apply elem_of_app. by left.
    + exists (ac_invocation a). apply elem_of_app. left. by apply T3.
  - rewrite T5. f_equiv. symmetry. by eapply (in_hand_insert r).
  - intros result [Hx|Hx%list_elem_of_singleton]%elem_of_app; [by eapply T6|done].
Qed.

Lemma trace_return tr r k p a result :
  xr_workers r !! k = Some (Busy (Running p)) → xr_heap r !! p = Some a → trace_inv tr r →
  trace_inv (tr ++ [LReturn p result]) (set_worker k (Busy (Handing result)) (end_execute r p)).
Proof.
  intros Hk Ha HT. unfold end_execute. rewrite Ha.
  assert (waiting (set_worker k (Busy (Handing result)) r) ≡ₚ waiting r) as Hw by exact (worker_pointers waiting_job r k _ (Busy (Handing result)) Hk).
  pose proof HT as [T1 T2 T3 T4 T5 T6]. constructor; rewrite ?begins_snoc, ?returned_snoc, ?handed_snoc; simpl; rewrite ?app_nil_r; try done.
  - intros q Hq. apply T1. change (q ∈ waiting (set_worker k (Busy (Handing result)) r) ∨ xr_next r ≤ q) in Hq. by rewrite Hw in Hq.
  - by apply admit_kept.
  - intros q (iv & Hq)%T4. exists iv. apply elem_of_app. by left.
  - rewrite T5. pose proof (omap_busy_insert in_hand _ _ _ (Busy (Handing result)) Hk) as Hp. simpl in Hp. rewrite Hp. solve_Permutation.
  - intros res [Hx|Hx%list_elem_of_singleton]%elem_of_app; [by eapply T6|done].
Qed.

Lemma trace_hand tr r k result taken reports :
  xr_workers r !! k = Some (Busy (Handing result)) → (taken = false → xr_canceled r = true) → trace_inv tr r →
  trace_inv (tr ++ [LHand result taken]) (set_worker k Idle { r with xr_reporter := reports }).
Proof.
  intros Hk Htk HT.
  assert (waiting (set_worker k Idle r) ≡ₚ waiting r) as Hw by exact (worker_pointers waiting_job r k _ Idle Hk).
  pose proof HT as [T1 T2 T3 T4 T5 T6]. constructor; rewrite ?begins_snoc, ?returned_snoc, ?handed_snoc; simpl; rewrite ?app_nil_r; try done.
  - intros q Hq. apply T1. change (q ∈ waiting (set_worker k Idle r) ∨ xr_next r ≤ q) in Hq. by rewrite Hw in Hq.
  - by apply admit_kept.
  - intros q (iv & Hq)%T4. exists iv. apply elem_of_app. by left.
  - rewrite T5. pose proof (omap_busy_insert in_hand _ _ _ Idle Hk) as Hp. simpl in Hp. rewrite <-Hp. solve_Permutation.
  - intros res [Hx|Hx%list_elem_of_singleton]%elem_of_app; [by eapply T6|]. simplify_eq. auto.
Qed.

(** A result is refused only when the lifecycle context has ended. *)
Lemma handoff_refused r k result now reports e :
  executor_inv r → xr_workers r !! k = Some (Busy (Handing result)) →
  submit (xr_reporter r) (if xr_canceled r then Some [ContextErr] else None) result now = (reports, Refused e) → xr_canceled r = true.
Proof.
  intros [_ Hp Hl] Hk Hs. destruct (xr_canceled r) eqn:Ec; [done|exfalso].
  pose proof (active_not_exited _ _ _ Hl Hk ltac:(done)) as Hns. destruct Hl as [L1 L2 _].
  assert (xr_started r = true) as Hst.
  { destruct (xr_started r) eqn:E; [done|]. destruct (pi_unstarted _ Hp E) as [Hw _]. by rewrite Hw in Hk. }
  unfold submit in Hs. rewrite L1, Hst, Hns, L2, Ec in Hs. simpl in Hs. by destruct (_ <? _).
Qed.

Lemma trace_step tr r l r' : step auth executorID r l r' → executor_inv r → trace_inv tr r → trace_inv (tr ++ [l]) r'.
Proof.
  destruct 1 as [r r' Hs|r ctxErr now iv r' Ha|r ctxErr now iv r' e Ha|r ctxErr id reason r' Hc|r|r|r Hd|r k r' p Hk Hr|r k r' Hk Hr
    |r k p now r' Hk Hb|r k p now r' Hk Hb|r k p a ret Hk Ha Hal|r k result now reports entry Hk Hs|r k result now reports e Hk Hs
    |r events reports Hs E1 E2 E3 E4|r Hst Hx|r Hst Hx Hc]; intros HI HT; pose proof (admit_kept _ LInternal _ HT) as Hkept.
  - unfold Start in Hs. destruct (xr_stopping r); [done|]. destruct (xr_started r) eqn:Es; [done|]. destruct (start _ _); [|done].
    simplify_eq. destruct (pi_unstarted _ (ei_pool _ HI) Es) as [Hw _].
    eapply trace_quiet; [exact HT|done..| |done| |done]; unfold waiting; simpl; by rewrite Hw, busy_replicate.
  - by eapply trace_admit.
  - apply refused_same in Ha as ->. eapply trace_quiet; try done. by apply admit_kept.
  - apply cancel_spec in Hc as [E Hh]. remember (xr_heap r') as h eqn:Eh. clear Eh. subst r'.
    eapply trace_quiet; try done. simpl. intros p a. rewrite Hh. intros (b & Hb & ->)%fmap_Some.
    unfold signal_at. case_bool_decide; rewrite ?signal_invocation; by apply (admit_kept _ _ _ HT).
  - eapply trace_quiet; [exact HT|done..| | | |]; unfold Stop; repeat case_match; done.
  - eapply trace_quiet; [exact HT|done..| | | |]; unfold Drain, Stop; repeat case_match; done.
  - by eapply trace_quiet.
  - unfold receive in Hr. destruct (xr_queue r) as [|q rest] eqn:Eq; [by destruct (xr_stopping r)|]. simplify_eq.
    eapply trace_quiet; [exact HT|done..| |done| |done].
    + intros q [Hq|Hq]; [left|by right]. pose proof (worker_pointers waiting_job r k _ (Busy (Dequeued p)) Hk) as Hw.
      unfold waiting in *. rewrite Eq in *. simpl in *. apply (Permutation_cons_inv (a := p)) in Hw. by rewrite <-Hw.
    + by eapply (in_hand_insert r).
  - unfold receive in Hr. destruct (xr_queue r) as [|q rest] eqn:Eq; [|done]. destruct (xr_stopping r); simplify_eq.
    eapply trace_quiet; [exact HT|done..| |done| |done]; [|by eapply (in_hand_insert r')].
    intros q [Hq|Hq]; [left|by right]. pose proof (worker_pointers waiting_job r' k _ Exited Hk) as Hw. unfold waiting in *. simpl in *. by rewrite <-Hw.
  - by eapply trace_begin.
  - destruct (owned_activity _ _ _ _ HI Hk eq_refl) as [a Ha]. unfold begin_execute in Hb. rewrite Ha in Hb. destruct (_ || _); simplify_eq.
    eapply trace_quiet; [exact HT|done..| |exact (admit_kept _ _ _ HT)| |done]; [|by eapply (in_hand_insert r)].
    intros q [Hq|Hq]; [left|by right]. pose proof (worker_pointers waiting_job r k _ Idle Hk) as Hw. unfold waiting in *. simpl in *.
    rewrite <-Hw. by right.
  - by eapply trace_return.
  - by eapply trace_hand.
  - replace r with { r with xr_reporter := xr_reporter r } at 2 by (by destruct r). eapply trace_hand; [done| |done].
    intros _. by eapply handoff_refused.
  - eapply trace_quiet; try done. exact (admit_kept _ _ _ HT).
  - by eapply trace_quiet.
  - by eapply trace_quiet.
Qed.

Lemma run_inv `{UuidLib} registry groupName token config r0 tr r :
  NewRuntime registry groupName token executorID config = Ok r0 → traces (step auth executorID) r0 tr r → executor_inv r ∧ trace_inv tr r.
Proof.
  intros Hnew Ht. pose proof (new_runtime_inv _ _ _ _ _ _ Hnew) as HI.
  assert (trace_inv [] r0) as HT.
  { unfold NewRuntime in Hnew. repeat case_match; simplify_eq. constructor; simpl; try done; try (intros; apply not_elem_of_nil).
    - constructor.
    - intros p Hp. by apply elem_of_nil in Hp.
    - intros res Hx. by apply elem_of_nil in Hx. }
  clear Hnew. induction Ht as [r|r tr r1 l r2 Ht IH Hs]; [done|]. destruct (IH HI HT) as [HI1 HT1].
  split; [by eapply executor_step_inv|by eapply trace_step].
Qed.

(** C17: Whatever the interleaving of dispatch requests, cancellations, workers, reporting
    and shutdown, an executor starts an admitted attempt at most once and starts nothing
    it did not admit; two workers never run the same attempt at the same time; the queue
    and the workers stay within their limits; and every business result is handed to the
    reporter or still in a worker's hands, refused only after the lifecycle context
    ended. *)
Theorem executor_runs_once `{UuidLib} registry groupName token config r0 tr r :
  NewRuntime registry groupName token executorID config = Ok r0 → traces (step auth executorID) r0 tr r →
  NoDup (begins tr) ∧ (∀ p, p ∈ begins tr → ∃ iv, LAdmit p iv ∈ tr) ∧
  (∀ k1 k2 p1 p2 a1 a2, xr_workers r !! k1 = Some (Busy (Running p1)) → xr_workers r !! k2 = Some (Busy (Running p2)) →
     xr_heap r !! p1 = Some a1 → xr_heap r !! p2 = Some a2 → attemptKey (ac_invocation a1) = attemptKey (ac_invocation a2) → k1 = k2) ∧
  Z.of_nat (length (xr_queue r)) ≤ QueueCapacity (xr_config r) ∧ Z.of_nat (length (busy (xr_workers r))) ≤ Concurrency (xr_config r) ∧
  returned tr ≡ₚ handed tr ++ omap in_hand (busy (xr_workers r)) ∧ (∀ result, LHand result false ∈ tr → xr_canceled r = true).
Proof.
  intros Hnew Ht. destruct (run_inv _ _ _ _ _ _ _ Hnew Ht) as [[Hh Hp Hl] HT].
  split_and!; [apply HT|apply HT| |apply Hp| |apply HT|apply HT].
  - intros k1 k2 p1 p2 a1 a2 W1 W2 Ha1 Ha2 Ek. destruct (decide (k1 = k2)) as [->|Hne]; [done|exfalso].
    assert (∀ k p a, xr_workers r !! k = Some (Busy (Running p)) → xr_heap r !! p = Some a →
      xr_active r !! attemptKey (ac_invocation a) = Some p) as Hact.
    { intros k p a Hk Ha. destruct (hi_live _ Hh p) as (a' & Ha' & Hx); [|by simplify_eq].
      unfold pointers. apply elem_of_app. right. apply elem_of_omap_busy. eauto. }
    pose proof (Hact _ _ _ W1 Ha1) as E1. rewrite Ek, (Hact _ _ _ W2 Ha2) in E1. simplify_eq.
    pose proof (hi_once _ Hh) as Hnd. unfold pointers in Hnd. apply NoDup_app in Hnd as (_ & _ & Hnd).
    pose proof (omap_busy_insert job_pointer _ _ _ Idle W1) as Hperm. simpl in Hperm. rewrite <-Hperm in Hnd.
    apply NoDup_cons in Hnd as [Hni _]. apply Hni. apply elem_of_omap_busy. exists k2, (Running p1).
    by rewrite list_lookup_insert_ne.
  - pose proof (length_busy (xr_workers r)). pose proof (pi_limits _ Hp). destruct (xr_started r) eqn:Es.
    + rewrite (pi_workers _ Hp Es) in *. lia.
    + destruct (pi_unstarted _ Hp Es) as [Hw _]. rewrite Hw. simpl. lia.
Qed.

(** A cancelled activity stays cancelled. *)
Lemma cancelled_kept r l r' p a :
  step auth executorID r l r' → executor_inv r → xr_heap r !! p = Some a → ac_cancelled a = true →
  l ≠ LBegin p ∧ ∃ a', xr_heap r' !! p = Some a' ∧ ac_cancelled a' = true.
Proof.
  intros Hs HI Ha Hc. assert (p < xr_next r) as Hlt by (eapply hi_next; [apply HI|exact Ha]).
  destruct Hs as [r r' Hs|r ctxErr now iv r' Hac|r ctxErr now iv r' e Hac|r ctxErr id reason r' Hcn|r|r|r Hd|r k r' q Hk Hr|r k r' Hk Hr
    |r k q now r' Hk Hb|r k q now r' Hk Hb|r k q b ret Hk Hq Hal|r k result now reports entry Hk Hs|r k result now reports e Hk Hs
    |r events reports Hs E1 E2 E3 E4|r Hst Hx|r Hst Hx Hcp]; (split; [try done|]); try (by exists a).
  - unfold Start in Hs. repeat case_match; simplify_eq; by exists a.
  - by case_bool_decide.
  - unfold Accept in Hac. repeat case_match; simplify_eq; try (by exists a). exists a. simpl. by rewrite lookup_insert_ne by lia.
  - apply refused_same in Hac as ->. by exists a.
  - apply cancel_spec in Hcn as [_ Hh]. exists (signal_at r id p a). rewrite Hh, Ha. split; [done|].
    unfold signal_at, signal. repeat case_match; done.
  - unfold Stop. repeat case_match; by exists a.
  - unfold Drain, Stop. repeat case_match; by exists a.
  - unfold receive in Hr. repeat case_match; simplify_eq; by exists a.
  - unfold receive in Hr. repeat case_match; simplify_eq; by exists a.
  - intros [= ->]. unfold begin_execute in Hb. by rewrite Ha, Hc in Hb.
  - unfold begin_execute in Hb. destruct (xr_heap r !! q) as [b|] eqn:Eq; [|done]. destruct (_ || _) eqn:Eg; simplify_eq. simpl.
    destruct (decide (p = q)) as [->|Hne]; [|rewrite lookup_insert_ne by done; by exists a]. simplify_eq. by rewrite Hc in Eg.
  - unfold begin_execute in Hb. repeat case_match; simplify_eq; by exists a.
  - unfold end_execute. rewrite Hq. by exists a.
Qed.

(** C24: Once an executor has acknowledged the cancellation of an Instance, no attempt of
    that Instance that was still waiting ever starts, and every one that was running has
    had its context cancelled. *)
Theorem cancelled_never_starts `{UuidLib} registry groupName token config r0 tr0 r ctxErr id reason r1 tr r2 p a :
  NewRuntime registry groupName token executorID config = Ok r0 → traces (step auth executorID) r0 tr0 r →
  Cancel r ctxErr id reason = (r1, None) → traces (step auth executorID) r1 tr r2 →
  p ∈ pointers r → xr_heap r !! p = Some a → iv_InstanceID (ac_invocation a) = id →
  LBegin p ∉ tr ∧ ∃ a1, xr_heap r1 !! p = Some a1 ∧ ac_cancelled a1 = true ∧ (ac_running a = true → ac_signalled a1 = true).
Proof.
  intros Hnew Ht0 Hc Ht Hp Ha Hid. destruct (run_inv _ _ _ _ _ _ _ Hnew Ht0) as [HI _].
  pose proof (cancel_instance_inv _ _ _ _ _ Hc HI) as HI1. apply cancel_spec in Hc as [_ Hh].
  assert (xr_heap r1 !! p = Some (signal id a)) as Ha1.
  { rewrite Hh, Ha. simpl. unfold signal_at. rewrite bool_decide_eq_true_2; [done|].
    destruct (hi_live _ (ei_heap _ HI) _ Hp) as (a' & Ha' & Hact). by exists (attemptKey (ac_invocation a')), p. }
  assert (ac_cancelled (signal id a) = true ∧ (ac_running a = true → ac_signalled (signal id a) = true)) as [Hcan Hsig].
  { unfold signal. rewrite Hid, Z.eqb_refl. simpl. split; [done|]. intros ->. apply orb_true_r. }
  split; [|eauto]. clear Hh Ht0 Hnew HI Hp Ha Hid Hsig.
  assert (LBegin p ∉ tr ∧ executor_inv r2 ∧ ∃ a', xr_heap r2 !! p = Some a' ∧ ac_cancelled a' = true) as [? _]; [|done].
  induction Ht as [r1|r1 tr r2 l r3 Ht IH Hs]; [split_and!; [apply not_elem_of_nil|done|eauto]|].
  destruct (IH HI1 Ha1) as (Hni & HI2 & a' & Ha' & Hca). destruct (cancelled_kept _ _ _ _ _ Hs HI2 Ha' Hca) as [Hne Hex].
  split_and!; [|by eapply executor_step_inv|done]. rewrite not_elem_of_app, list_elem_of_singleton. split; [done|congruence].
Qed.
End runs.

(** ** The runtime keeps the admission contract *)

#[export] Instance runtime_admission_ops : AdmissionOps Runtime :=
  {| adm_accept := Accept; adm_cancel := Cancel; adm_active := λ r task attempt, is_Some (xr_active r !! (task, attempt)) |}.

#[export] Instance runtime_admission : Admission Runtime.
Proof.
  constructor; simpl.
  - intros r ctxErr now iv r' Ha. unfold Accept in Ha. case_bool_decide as Hact; [by simplify_eq|].
    repeat case_match; simplify_eq. simpl. by rewrite lookup_insert_eq.
  - intros r ctxErr now iv r' e ->%refused_same _. done.
  - intros r ctxErr now iv r' e Ha. unfold Accept in Ha. repeat case_match; done.
Qed.

(** ** Runs of an executor with one worker *)

Definition demo_invocation : Invocation :=
  {| iv_JobID := 1; iv_InstanceID := 7; iv_TaskID := 3; iv_Params := "{}"; iv_AttemptNo := 1; iv_ProcessorName := "copy";
     iv_DeadlineAt := 100; iv_RequiredPost := false; iv_Stage := StageOrdinary; iv_Items := None; iv_Total := 0; iv_Succeeded := 0; iv_Failed := 0 |}.
Definition demo_executor (started : bool) (heap : gmap Z activity) (next : Z) (queue : list Z) (active : gmap (Z * Z) Z)
    (workers : list (Worker Job)) : Runtime :=
  {| xr_config := {| Concurrency := 1; QueueCapacity := 1; ReportCapacity := 1; ReportConcurrency := 1 |};
     xr_registry := {| reg_frozen := started; reg_ordinary := {["copy" := 1]}; reg_sharding := ∅ |};
     xr_reporter := demo_reporter started false false 0 0 [] (if started then [Idle] else []);
     xr_started := started; xr_stopping := false; xr_canceled := false; xr_done := false; xr_drainCtx := false;
     xr_heap := heap; xr_next := next; xr_queue := queue; xr_active := active; xr_workers := workers |}.
Definition demo_work (cancelled running : bool) : activity :=
  {| ac_invocation := demo_invocation; ac_cancelled := cancelled; ac_running := running; ac_signalled := false |}.
Definition demo_registry : Registry := {| reg_frozen := false; reg_ordinary := {["copy" := 1]}; reg_sharding := ∅ |}.
Definition demo_limits : RuntimeConfig := {| Concurrency := 1; QueueCapacity := 1; ReportCapacity := 1; ReportConcurrency := 1 |}.
Definition demo_new : Runtime := demo_executor false ∅ 1 [] ∅ [].
Definition demo_admitted : Runtime := demo_executor true {[1 := demo_work false false]} 2 [1] {[(3, 1) := 1]} [Idle].
Definition demo_cancelled : Runtime := demo_executor true {[1 := demo_work true false]} 2 [1] {[(3, 1) := 1]} [Idle].
Definition demo_running : Runtime := demo_executor true {[1 := demo_work false true]} 2 [] {[(3, 1) := 1]} [Busy (Running 1)].

Section demo.
#[local] Existing Instances report_uuid report_grpc report_proto.

Lemma demo_admits : traces (step demo_auth "e") demo_new [LInternal; LAdmit 1 demo_invocation] demo_admitted.
Proof.
  eapply traces_cons; [apply (step_start _ _ _ (demo_executor true ∅ 1 [] ∅ [Idle])); evaluate|].
  apply traces_one. set (r := demo_executor true ∅ 1 [] ∅ [Idle]).
  assert (LAdmit 1 demo_invocation =
    if bool_decide (is_Some (xr_active r !! attemptKey demo_invocation)) then LInternal else LAdmit (xr_next r) demo_invocation) as -> by evaluate.
  apply (step_accept _ _ r None 50 demo_invocation). evaluate.
Qed.

Lemma executor_runs_once_witness : NoDup (begins [LInternal; LAdmit 1 demo_invocation; LInternal; LBegin 1]).
Proof.
  apply (executor_runs_once demo_auth "e" demo_registry "g" "11111111111141118111111111111111" demo_limits demo_new _ demo_running); [evaluate|].
  eapply (traces_app _ _ [LInternal; LAdmit 1 demo_invocation] _ [LInternal; LBegin 1]); [exact demo_admits|].
  eapply traces_cons; [apply (step_receive _ _ _ 0 (demo_executor true {[1 := demo_work false false]} 2 [] {[(3, 1) := 1]} [Idle]) 1); evaluate|].
  eapply traces_one. assert (demo_running = ExecutorRuntime.set_worker 0 (Busy (Running 1)) (begin_execute (demo_executor true {[1 := demo_work false false]} 2 [] {[(3, 1) := 1]} [Busy (Dequeued 1)]) 1 60).1) as -> by evaluate.
  eapply (step_begin _ _ _ 0 1 60); evaluate.
Defined.

Lemma cancelled_never_starts_witness : LBegin 1 ∉ [LInternal; LSkip 1].
Proof.
  apply (cancelled_never_starts demo_auth "e" demo_registry "g" "11111111111141118111111111111111" demo_limits demo_new
    [LInternal; LAdmit 1 demo_invocation] demo_admitted None 7 CancelManualStop demo_cancelled _
    (demo_executor true {[1 := demo_work true false]} 2 [] ∅ [Idle]) 1 (demo_work false false));
    [evaluate|exact demo_admits|evaluate| |by left|evaluate|done].
  eapply traces_cons; [apply (step_receive _ _ _ 0 (demo_executor true {[1 := demo_work true false]} 2 [] {[(3, 1) := 1]} [Idle]) 1); evaluate|].
  eapply traces_one. assert (demo_executor true {[1 := demo_work true false]} 2 [] ∅ [Idle] = ExecutorRuntime.set_worker 0 Idle (begin_execute (demo_executor true {[1 := demo_work true false]} 2 [] {[(3, 1) := 1]} [Busy (Dequeued 1)]) 1 60).1) as -> by evaluate.
  eapply (step_skip _ _ _ 0 1 60); evaluate.
Defined.
End demo.
