(* ===== verification/ExecutionRPC.v ===== *)
(** * The scheduler's side of the execution RPCs

    apps/job/rpc/internal/execution/dispatch.go ([Sender]), receiver.go ([Receiver]) and
    group_auth.go: one dispatch call per registered attempt, and the admission of
    reported results.  The last section runs the sender against an executor's adapter
    and the receiver against its reporter. *)

From S2P Require Import Prelude GoLib Tx Model TaskRepo InstanceRepo JobRepo Dispatcher ResultSaver ResultQueue RpcErrors Executor Reporter.

Open Scope string_scope.
Open Scope list_scope.
Open Scope Z_scope.

(** ** Dispatch *)

(** The peer of a call, with what the net package says about its IP address. *)
Record TCPAddr := { tcp_To16 : bool; tcp_IsUnspecified : bool; tcp_IsMulticast : bool; tcp_Port : Z; tcp_String : string }.

(** An address that is not a TCP address is [None]. *)
Definition dispatchPeerAddress (address : option TCPAddr) : option string :=
  match address with
  | Some tcp =>
      if negb (tcp_To16 tcp) || tcp_IsUnspecified tcp || tcp_IsMulticast tcp || (tcp_Port tcp <=? 0) || (65535 <? tcp_Port tcp)
      then None else Some (tcp_String tcp)
  | None => None
  end.

(** [et_Client]: the target has a client. *)
Record ExecutorTarget := { et_Group : ExecutorGroupConfig; et_Client : bool }.

Section dispatch.
Context `{UuidLib, TimestampLib, GrpcLib}.

Definition ordinaryDispatchRequest (attempt : RegisteredAttempt) : Result DispatchTaskRequest :=
  let config := ra_ExecutionConfig attempt in
  if (ra_JobID attempt <=? 0) || (ra_InstanceID attempt <=? 0) || (ra_ExecutorGroupID attempt <=? 0) || (ra_TaskID attempt <=? 0) ||
     (ra_AttemptNo attempt <=? 0) || negb (SchemaVersion config =? 1) || negb (bool_decide (Mode config = ExecutionModeNormal)) ||
     PostEnabled config || bool_decide (ProcessorName config = "") ||
     negb (bool_decide (ProcessorName config = TrimSpace (ProcessorName config))) || negb (ValidString (ProcessorName config)) ||
     ContainsNul (ProcessorName config) || (128 <? RuneCountInString (ProcessorName config)) ||
     negb (ValidString (Params config)) || ContainsNul (Params config)
  then Fail [Text "registered ordinary dispatch input is invalid"]
  else
    let deadline := TimestampNew (ra_DeadlineAt attempt) in
    if is_zero (ra_DeadlineAt attempt) || negb (CheckValid deadline) then Fail [Text "registered dispatch deadline is invalid"]
    else Ok {| dq_GroupName := ""; dq_Token := ""; dq_JobId := ra_JobID attempt; dq_InstanceId := ra_InstanceID attempt;
               dq_TaskId := ra_TaskID attempt; dq_AttemptNo := ra_AttemptNo attempt; dq_ProcessorName := ProcessorName config;
               dq_Params := Params config; dq_DeadlineAt := Some deadline; dq_RequiredPost := false; dq_Input := OrdinaryInput true |}.

(** Why a failed call is a refusal before admission, if it is one. *)
Definition dispatchRejectionSummary (e : Error) : option string :=
  let st := Convert e in
  if st_code st =? codes_Unauthenticated then Some "executor authentication rejected"
  else if st_code st =? codes_PermissionDenied then Some "executor group access denied"
  else if st_code st =? DefaultCode then
    match SubcodeFromStatus st with
    | Some reason =>
        if bool_decide (reason = InvalidRequest) then Some "executor rejected invalid dispatch input"
        else if bool_decide (reason = DispatchRejected) then Some "executor rejected dispatch before admission"
        else None
    | None => None
    end
  else None.

Definition unknown_response : Response :=
  {| rs_Outcome := OutcomeUnknown; rs_ExecutorInstanceID := 0; rs_ExecutorAddress := ""; rs_Summary := "executor dispatch outcome is unknown" |}.
Definition plain_response (outcome : Outcome) (summary : string) : Response :=
  {| rs_Outcome := outcome; rs_ExecutorInstanceID := 0; rs_ExecutorAddress := ""; rs_Summary := summary |}.

(** The acknowledgement of a call that returned; [None] is a nil response. *)
Definition acknowledged (ack : option DispatchTaskResponse) (remote : option TCPAddr) : Response * option Error :=
  match ack with
  | None => (unknown_response, Some [Text "executor returned no dispatch acknowledgement"])
  | Some ack =>
      match ds_Status ack with
      | BUSY => (plain_response OutcomeBusy "executor is busy", None)
      | ACCEPTED =>
          match ParseUUID (ds_ExecutorInstanceId ack) with
          | Some identity =>
              if negb (Version identity =? 4) || negb (VariantRFC4122 identity) || negb (bool_decide (StringUUID identity = ds_ExecutorInstanceId ack))
              then (unknown_response, Some [Text "executor acknowledgement has an invalid process identity"])
              else match dispatchPeerAddress remote with
                   | None => (unknown_response, Some [Text "executor acknowledgement has no valid TCP peer address"])
                   | Some address =>
                       ({| rs_Outcome := OutcomeAccepted; rs_ExecutorInstanceID := identity; rs_ExecutorAddress := address;
                           rs_Summary := "executor accepted dispatch" |}, None)
                   end
          | None => (unknown_response, Some [Text "executor acknowledgement has an invalid process identity"])
          end
      | _ => (unknown_response, Some [Text "executor returned an unknown dispatch acknowledgement status"])
      end
  end.

(** The call and the interpretation of its answer. *)
Definition send {St} (s : St) (call : St → DispatchTaskRequest → St * (Result (option DispatchTaskResponse) * option TCPAddr))
    (request : DispatchTaskRequest) : St * (Response * option Error) :=
  match call s request with
  | (s, (Ok ack, remote)) => (s, acknowledged ack remote)
  | (s, (Fail e, _)) =>
      (s, match dispatchRejectionSummary e with
          | Some summary => (plain_response OutcomeRejected summary, None)
          | None => (unknown_response, Some e)
          end)
  end.

(** [ctxErr] and [ctxErr'] are the state of the context before and after the target is
    resolved; [call] is the RPC, with its effect on the executor and the peer it reached. *)
Definition Sender_Dispatch {St} (s : St) (ctxErr : option Error) (attempt : RegisteredAttempt) (target : Result ExecutorTarget)
    (ctxErr' : option Error) (call : St → DispatchTaskRequest → St * (Result (option DispatchTaskResponse) * option TCPAddr))
    : St * (Response * option Error) :=
  match ctxErr with
  | Some e => (s, (unknown_response, Some e))
  | None =>
      match ordinaryDispatchRequest attempt with
      | Fail e => (s, (unknown_response, Some e))
      | Ok request =>
          match target with
          | Fail e => (s, (unknown_response, Some e))
          | Ok target =>
              let group := et_Group target in
              if negb (gc_ID group =? ra_ExecutorGroupID attempt) || negb (et_Client target)
              then (s, (unknown_response, Some [Text "executor target does not match the registered group"]))
              else match ValidateCredentials (gc_Name group) (gc_Token group) with
              | Fail e => (s, (unknown_response, Some e))
              | Ok _ =>
                  match ctxErr' with
                  | Some e => (s, (unknown_response, Some e))
                  | None => send s call { request with dq_GroupName := gc_Name group; dq_Token := gc_Token group }
                  end
              end
          end
      end
  end.
End dispatch.

(** ** Results *)

Definition ErrInvalidCredentials : Cause := Sentinel "result reporter credentials are invalid".
Definition ErrGroupDenied : Cause := Sentinel "result reporter group is not permitted".
(** groupcache.ErrNotFound *)
Definition ErrGroupNotFound : Cause := Sentinel "executor group was not found".

Section results.
Context `{UuidLib}.

(** [CachedGroupAuthenticator.Authenticate]; [byName] is the cache's lookup. *)
Definition CachedGroup_Authenticate (byName : string → Result ExecutorGroupConfig) (groupName token : string) : Result Z :=
  match ValidateCredentials groupName token with
  | Fail _ => Fail [ErrInvalidCredentials]
  | Ok _ =>
      match byName groupName with
      | Fail e => if errors_is e ErrGroupNotFound then Fail [ErrInvalidCredentials] else Fail e
      | Ok config => if bool_decide (gc_Token config = token) then Ok (gc_ID config) else Fail [ErrInvalidCredentials]
      end
  end.

Definition invalid_result {A} (message : string) : Result A := Fail (New InvalidRequest message).

Definition parseResult (req : ReportTaskResultRequest) (groupID : Z) : Result Report :=
  if (rq_JobId req <=? 0) || (rq_InstanceId req <=? 0) || (rq_TaskId req <=? 0) || (rq_AttemptNo req <=? 0)
  then invalid_result "result IDs and attempt number must be positive"
  else if negb (validExecutorInstanceID (rq_ExecutorInstanceId req)) then invalid_result "executor process identity is invalid"
  else
    let report outcome data items :=
      {| rp_GroupID := groupID; rp_JobID := rq_JobId req; rp_InstanceID := rq_InstanceId req; rp_TaskID := rq_TaskId req;
         rp_AttemptNo := rq_AttemptNo req; rp_ExecutorInstanceID := rq_ExecutorInstanceId req; rp_Outcome := outcome;
         rp_Summary := rq_Summary req; rp_Data := data; rp_PreparedItems := items |} in
    match rq_Outcome req with
    | FAILURE => Ok (report OutcomeFailure None None)
    | SUCCESS =>
        match rq_Output req with
        | NoOutput => Ok (report OutcomeSuccess None None)
        | DataJson data => if JsonValid data then Ok (report OutcomeSuccess (Some data) None) else invalid_result "result data must contain valid JSON"
        | PreparedItems None => invalid_result "prepared result items are required"
        | PreparedItems (Some items) =>
            if forallb JsonValid items then Ok (report OutcomeSuccess None (Some items))
            else invalid_result "prepared result item must contain valid JSON"
        end
    | _ => invalid_result "result outcome is invalid"
    end.

(** [authenticate] and [accept] are the receiver's two dependencies. *)
Definition ReportTaskResult {Q} (authenticate : string → string → Result Z) (accept : Q → Report → Q * Result bool)
    (q : Q) (req : ReportTaskResultRequest) : Q * Result unit :=
  if bool_decide (rq_GroupName req = "") || bool_decide (rq_Token req = "")
  then (q, Fail (status_error codes_Unauthenticated "result reporter credentials are required"))
  else match authenticate (rq_GroupName req) (rq_Token req) with
  | Fail e =>
      (q, Fail (if errors_is e ErrInvalidCredentials then status_error codes_Unauthenticated "result reporter credentials are invalid"
                else if errors_is e ErrGroupDenied then status_error codes_PermissionDenied "result reporter group is not permitted"
                else status_error codes_Unavailable "result reporter authentication is unavailable"))
  | Ok groupID =>
      if groupID <=? 0 then (q, Fail (status_error codes_Unavailable "result reporter authentication is unavailable"))
      else match parseResult req groupID with
      | Fail e => (q, Fail e)
      | Ok report =>
          match accept q report with
          | (q, Fail e) =>
              (q, Fail (if errors_is e ResultQueue.ErrNotReady then status_error codes_Unavailable "result receiver is not ready"
                        else if errors_is e ContextErr then status_error codes_Canceled "result admission was cancelled"
                        else status_error codes_Internal "result admission failed"))
          | (q, Ok false) => (q, Fail (status_error codes_ResourceExhausted "result buffer is full"))
          | (q, Ok true) => (q, Ok ())
          end
      end
  end.
End results.
