(* ===== verification/Agreement.v ===== *)
(** * Scheduler and executor agree

    The two sides of the execution protocol put together: the sender of
    apps/job/rpc/internal/execution/dispatch.go against the adapter of
    pkg/jobexecutor/rpc.go behind the error interceptor of pkg/bizerror, and the
    reporter of pkg/jobexecutor/reporter.go against the receiver of
    apps/job/rpc/internal/execution/receiver.go.  The executor's runtime is any
    implementation of [Admission]. *)

From S2P Require Import Prelude GoLib Tx Model TaskRepo InstanceRepo JobRepo Dispatcher ResultSaver ResultQueue.
From S2P Require Import HintSpec RpcErrors Executor Reporter ExecutorRuntime ExecutorInv ExecutionRPC.

Open Scope string_scope.
Open Scope list_scope.
Open Scope Z_scope.

(** ** Dispatch *)

(** What becomes of one call: its answer comes back from a peer, or it is lost, before or
    after the executor handled the request, and the client sees a transport error. *)
Inductive Exchange := Answered (remote : option TCPAddr) | Lost (handled : bool) (e : Error).

Section dispatch.
Context `{UuidLib, TimestampLib, GrpcLib} {S : Type} `{Admission S}.
Implicit Types (a : RPCAdapter) (s : S).

(** The executor's server: the adapter behind the interceptor. *)
Definition serve a s (ctxErr : option Error) (now : Time) (req : DispatchTaskRequest) : S * Result DispatchTaskResponse :=
  let '(s, r) := DispatchTask a s ctxErr now req in (s, UnaryServerInterceptor r).

Definition exchange a (x : Exchange) (ctxErr : option Error) (now : Time) s (req : DispatchTaskRequest)
    : S * (Result (option DispatchTaskResponse) * option TCPAddr) :=
  let '(s', r) := serve a s ctxErr now req in
  match x with
  | Answered remote => (s', (result_map Some r, remote))
  | Lost handled e => (if handled then s' else s, (Fail e, None))
  end.

(** Documented behaviour of gRPC: a transport failure never carries the codes of a refused
    credential or a business code. *)
Definition transport_error (e : Error) : Prop :=
  st_code (Convert e) ≠ codes_Unauthenticated ∧ st_code (Convert e) ≠ codes_PermissionDenied ∧ IsCode (st_code (Convert e)) = false.
Definition sound_transport (x : Exchange) : Prop := match x with Lost _ e => transport_error e | Answered _ => True end.

Lemma lost_not_rejected e : transport_error e → dispatchRejectionSummary e = None.
Proof.
  intros (T1 & T2 & T3). unfold dispatchRejectionSummary. apply Z.eqb_neq in T1, T2. rewrite T1, T2.
  destruct (Z.eqb_spec (st_code (Convert e)) DefaultCode) as [E|]; [|done]. by rewrite E in T3.
Qed.

Lemma technical_not_rejected {A} e message :
  grpc_convert_status →
  ∃ e', UnaryServerInterceptor (Fail (executorTechnicalError e message) : Result A) = Fail e' ∧ dispatchRejectionSummary e' = None.
Proof. intros Hc. unfold executorTechnicalError, status_error. destruct (errors_is _ _); eexists; (split; [done|]); unfold dispatchRejectionSummary; by rewrite Hc. Qed.

(** A refusal the scheduler takes for one promises that nothing was admitted. *)
Lemma refusal_definite {A} accepted e e' :
  grpc_convert_status → UnaryServerInterceptor (Fail (refusal_error accepted e) : Result A) = Fail e' →
  dispatchRejectionSummary e' ≠ None → accepted = false ∧ definite_refusal (Some e) = true.
Proof.
  intros Hc Hi Hd. destruct (technical_not_rejected (A:=A) e "executor admission failed" Hc) as (e2 & He2 & Hn).
  unfold refusal_error in Hi. unfold definite_refusal.
  destruct accepted; cbn [negb andb] in Hi; [congruence|]. split; [done|].
  destruct (errors_is e ErrNotReady); [done|]. destruct (errors_is e ErrStopping); [done|].
  destruct (errors_is e ErrExpired); [done|]. congruence.
Qed.

(** One handled request: what the answer tells about the executor. *)
Lemma serve_spec a s ctxErr now req s' r :
  grpc_convert_status → serve a s ctxErr now req = (s', r) →
  match r with
  | Ok ack =>
      (ds_Status ack = ACCEPTED ∧ adm_active s' (dq_TaskId req) (dq_AttemptNo req)) ∨
      (ds_Status ack = BUSY ∧ ∀ t n, adm_active s' t n → adm_active s t n)
  | Fail e => dispatchRejectionSummary e ≠ None → ∀ t n, adm_active s' t n → adm_active s t n
  end.
Proof.
  intros Hc. unfold serve, DispatchTask.
  destruct (Authenticate _ _ _) as [[]|e]; [|intros [= <- <-]; unfold UnaryServerInterceptor; by repeat case_match].
  destruct (invocation a req) as [iv|e] eqn:Ei; [|intros [= <- <-]; unfold UnaryServerInterceptor; by repeat case_match].
  assert (iv_TaskID iv = dq_TaskId req ∧ iv_AttemptNo iv = dq_AttemptNo req) as [Et En].
  { unfold invocation in Ei. repeat case_match; by simplify_eq. }
  destruct (adm_accept s ctxErr now iv) as [s1 [accepted err]] eqn:Ea. destruct err as [e|].
  - destruct (UnaryServerInterceptor (Fail (refusal_error accepted e) : Result DispatchTaskResponse)) as [ack|e'] eqn:Eu.
    { unfold UnaryServerInterceptor in Eu. repeat case_match; done. }
    intros [= <- <-] Hd. destruct (refusal_definite _ _ _ Hc Eu Hd) as [-> Hdef]. by eapply accept_refused.
  - intros [= <- <-]. destruct accepted; [left|right]; (split; [done|]).
    + simpl. rewrite <- Et, <- En. by eapply accept_active.
    + by eapply accept_refused.
Qed.
(** C16: Scheduler and executor agree about a dispatch.  Whatever the executor's state and
    runtime, and whether or not the answer is lost: Accepted is answered only for an
    attempt that is active on the executor, Busy and Rejected only when nothing became
    active there, and in every other case the sender returns an error and claims nothing. *)
Theorem dispatch_agreement a s ctxErr attempt target ctxErr' x serverCtx now s' resp err :
  grpc_convert_status → sound_transport x →
  Sender_Dispatch s ctxErr attempt target ctxErr' (λ s, exchange a x serverCtx now s) = (s', (resp, err)) →
  match err, rs_Outcome resp with
  | Some _, outcome => outcome = OutcomeUnknown
  | None, OutcomeAccepted => adm_active s' (ra_TaskID attempt) (ra_AttemptNo attempt)
  | None, (OutcomeBusy | OutcomeRejected) => ∀ t n, adm_active s' t n → adm_active s t n
  | None, _ => False
  end.
Proof.
  intros Hc Hx. unfold Sender_Dispatch. destruct ctxErr; [by intros [= <- <- <-]|].
  destruct (ordinaryDispatchRequest attempt) as [q|e] eqn:Eq; [|by intros [= <- <- <-]].
  destruct target as [g|e]; [|by intros [= <- <- <-]].
  destruct (_ || _); [by intros [= <- <- <-]|]. destruct (ValidateCredentials _ _); [|by intros [= <- <- <-]].
  destruct ctxErr'; [by intros [= <- <- <-]|].
  assert (dq_TaskId q = ra_TaskID attempt ∧ dq_AttemptNo q = ra_AttemptNo attempt) as [<- <-].
  { unfold ordinaryDispatchRequest in Eq. repeat case_match; by simplify_eq. }
  match goal with |- context [send s _ ?r] => set (q' := r) end. change (dq_TaskId q) with (dq_TaskId q'). change (dq_AttemptNo q) with (dq_AttemptNo q').
  unfold send, exchange. destruct (serve a s serverCtx now q') as [s1 r] eqn:Es. pose proof (serve_spec _ _ _ _ _ _ _ Hc Es) as Hs.
  destruct x as [remote|handled e].
  - destruct r as [ack|e]; simpl.
    + intros [= <- Ha]. unfold acknowledged in Ha. destruct Hs as [[Hst Hs]|[Hst Hs]]; rewrite Hst in Ha; [|by simplify_eq].
      repeat case_match; simplify_eq/=; done.
    + destruct (dispatchRejectionSummary e) eqn:Ed; intros [= <- <- <-]; [|done]. simpl. by apply Hs.
  - simpl. rewrite (lost_not_rejected e Hx). by intros [= <- <- <-].
Qed.

(** A request the scheduler builds for an attempt reaches the processor exactly as it
    was frozen: an executor with the processor registered turns it into an ordinary
    invocation of the same Job, Instance, Task, attempt, parameters and deadline. *)
Theorem dispatch_request_faithful a attempt q :
  timestamp_exact → ordinaryDispatchRequest attempt = Ok q →
  is_Some (Lookup (ad_registry a) (ProcessorName (ra_ExecutionConfig attempt))) →
  invocation a q = Ok {| iv_JobID := ra_JobID attempt; iv_InstanceID := ra_InstanceID attempt; iv_TaskID := ra_TaskID attempt;
    iv_Params := Params (ra_ExecutionConfig attempt); iv_AttemptNo := ra_AttemptNo attempt;
    iv_ProcessorName := ProcessorName (ra_ExecutionConfig attempt); iv_DeadlineAt := ra_DeadlineAt attempt; iv_RequiredPost := false;
    iv_Stage := StageOrdinary; iv_Items := None; iv_Total := 0; iv_Succeeded := 0; iv_Failed := 0 |}.
Proof.
  intros Ht Hq [p Hp]. unfold ordinaryDispatchRequest in Hq. destruct (_ || _) eqn:Eg in Hq; [done|].
  destruct (_ || negb (CheckValid _)) eqn:Ed; [done|]. injection Hq as <-. unfold invocation. simpl.
  rewrite !orb_false_iff in Eg. rewrite !orb_false_iff in Ed. destruct Ed as [_ Ed%negb_false_iff]. rewrite Ed.
  destruct Eg as ((((((((((((((E1 & E2) & _) & E3) & E4) & _) & _) & _) & En) & Et%negb_false_iff) & Ev%negb_false_iff) & Ec) & El) & _) & _).
  rewrite E1, E2, E3, E4. simpl.
  unfold validExecutionName. rewrite En, Ev, Ec, Et. simpl.
  rewrite (proj2 (Z.leb_le _ _)) by (by apply Z.ltb_ge). simpl. rewrite Hp, (Ht _ Ed). done.
Qed.
End dispatch.

(** ** Results *)

(** C40: Every result an executor reports is understood by the scheduler as it is: the
    request of a result of an admitted attempt is parsed into a report with the same
    identities, outcome, summary and output, never refused as invalid. *)
Theorem report_understood `{UuidLib, ProtoLib} auth executorID result q groupID :
  request auth executorID result = inl q → validExecutorInstanceID executorID = true →
  0 < er_jobID result → 0 < er_instanceID result → 0 < er_taskID result → 0 < er_attemptNo result →
  parseResult q groupID = Ok {| rp_GroupID := groupID; rp_JobID := er_jobID result; rp_InstanceID := er_instanceID result;
    rp_TaskID := er_taskID result; rp_AttemptNo := er_attemptNo result; rp_ExecutorInstanceID := executorID;
    rp_Outcome := if er_success result then OutcomeSuccess else OutcomeFailure; rp_Summary := er_summary result;
    rp_Data := if er_success result && negb (er_prepared result) then er_data result else None;
    rp_PreparedItems := if er_success result && er_prepared result then er_preparedItems result else None |}.
Proof.
  intros Hr Hv H1 H2 H3 H4. unfold request in Hr.
  assert (base_ids : ∀ x, 0 < x → (x <=? 0) = false) by (intros; by apply Z.leb_gt).
  unfold parseResult.
  destruct (er_success result), (er_prepared result); simpl in Hr;
    [destruct (PrepareResult_Validate _) eqn:Ep; [|done]
    |destruct (Result_Validate _) eqn:Ep; [|done]; destruct (er_data result) as [d|] eqn:Ed| | ];
    destruct (reportMessageProblem _ _); [done|..]; simplify_eq/=; rewrite !base_ids, Hv by done; simpl; try done.
  all: try (destruct (er_preparedItems result); [|done]); simpl in Ep; by rewrite Ep.
Qed.

(** ** One attempt on a demonstration executor *)

#[local] Instance agree_grpc : GrpcLib := λ e,
  match e with
  | [StatusErr code message reasons] => {| st_code := code; st_message := message; st_reasons := reasons |}
  | _ => {| st_code := 2; st_message := ""; st_reasons := [] |}
  end.
#[local] Instance agree_timestamp : TimestampLib :=
  {| Timestamp := Time; TimestampNew := λ t, t; CheckValid := λ _, true; AsTime := λ t, t |}.
#[local] Existing Instances report_uuid report_proto.

Definition agree_attempt : RegisteredAttempt :=
  {| ra_JobID := 1; ra_InstanceID := 7; ra_ExecutorGroupID := 5; ra_TaskID := 3; ra_AttemptNo := 1;
     ra_ExecutionConfig := {| SchemaVersion := 1; ProcessorName := "copy"; Mode := ExecutionModeNormal; PostEnabled := false; Params := "{}";
                              MaxRetries := 0; RetryIntervalSeconds := 0; TimeoutSeconds := 60 |};
     ra_RegisteredAt := 40; ra_DeadlineAt := 100 |}.
Definition agree_adapter : RPCAdapter := {| ad_auth := demo_auth; ad_registry := Freeze demo_registry; ad_executorInstanceID := "e" |}.
Definition agree_target : ExecutorTarget :=
  {| et_Group := {| gc_ID := 5; gc_Name := "g"; gc_DiscoveryKey := "k"; gc_Token := "11111111111141118111111111111111" |}; et_Client := true |}.
Definition agree_peer : TCPAddr := {| tcp_To16 := true; tcp_IsUnspecified := false; tcp_IsMulticast := false; tcp_Port := 80; tcp_String := "10.0.0.1:80" |}.

Lemma dispatch_agreement_witness :
  adm_active demo_admitted 3 1.
Proof.
  apply (dispatch_agreement agree_adapter (demo_executor true ∅ 1 [] ∅ [Idle]) None agree_attempt (Ok agree_target) None
    (Answered (Some agree_peer)) None 50 demo_admitted
    {| rs_Outcome := OutcomeAccepted; rs_ExecutorInstanceID := 1; rs_ExecutorAddress := "10.0.0.1:80"; rs_Summary := "executor accepted dispatch" |} None);
    [done|done|evaluate].
Defined.

Lemma dispatch_request_faithful_witness :
  ∃ q, ordinaryDispatchRequest agree_attempt = Ok q ∧ invocation agree_adapter q = Ok demo_invocation.
Proof.
  eexists. split; [evaluate|]. apply (dispatch_request_faithful agree_adapter agree_attempt); [done|evaluate|by eexists].
Defined.

Lemma report_understood_witness :
  ∃ q, request demo_auth "e" demo_result = inl q ∧ ∃ report, parseResult q 5 = Ok report ∧ rp_Data report = Some "{}".
Proof.
  eexists. split; [evaluate|]. eexists. split; [apply (report_understood demo_auth "e" demo_result); [evaluate|evaluate|done..]|done].
Defined.
