(* ===== verification/GroupCache.v ===== *)
(** * The executor group cache

    apps/job/internal/groupcache/cache.go: the credentials of executor groups in a
    scheduler process.  Every critical section under the cache's lock is one operation;
    [step] interleaves complete refreshes, lookups that share one source call, and
    changes of the database.  The state carries the history of active groups, so that
    a cached value can be compared with what the database held and when. *)

From S2P Require Import Prelude GoLib Tx Model TaskRepo InstanceRepo JobRepo HintSpec RpcErrors Executor.

Open Scope string_scope.
Open Scope list_scope.
Open Scope Z_scope.

Definition ErrNotFound : Cause := Sentinel "executor group was not found".

#[global] Instance ExecutorGroupConfig_eq_dec : EqDecision ExecutorGroupConfig.
Proof. solve_decision. Defined.

(** A lookup by ID has an empty name, a lookup by name the ID 0. *)
Definition lookupKey : Type := Z * string.

Record Cache := {
  c_generation : Z;
  c_byID : gmap Z ExecutorGroupConfig; c_byName : gmap string ExecutorGroupConfig;
  c_flights : gmap lookupKey Z; c_observers : gset Z; c_nextObserver : Z; c_runStarted : bool;
}.

(** [done] is closed exactly when there is a result.  [fl_key] and [fl_since] only serve to
    state properties: the key looked up and the moment of the snapshot at the call. *)
Record lookupFlight := { fl_result : option (Result ExecutorGroupConfig); fl_key : lookupKey; fl_since : nat }.

Definition empty_cache : Cache :=
  {| c_generation := 0; c_byID := ∅; c_byName := ∅; c_flights := ∅; c_observers := ∅; c_nextObserver := 0; c_runStarted := false |}.

Section cache.
Context `{UuidLib}.

Definition validate (config : ExecutorGroupConfig) : Result unit :=
  if gc_ID config <=? 0 then Fail [Text "stored executor group ID is invalid"]
  else match ValidateCredentials (gc_Name config) (gc_Token config) with
  | Fail _ => Fail [Text "stored executor group credentials are invalid"]
  | Ok _ =>
      let key := gc_DiscoveryKey config in
      if bool_decide (key = "") || negb (bool_decide (key = TrimSpace key)) || negb (ValidString key) || ContainsNul key || (255 <? RuneCountInString key)
      then Fail [Text "stored executor group discovery key is invalid"] else Ok ()
  end.

Definition sourceError (operation : string) (cause : Error) : Error := Text operation :: cause.

(** ** Complete refreshes *)

(** The loop of [Refresh] over a loaded snapshot. *)
Fixpoint index (groups : list ExecutorGroupConfig) (byID : gmap Z ExecutorGroupConfig) (byName : gmap string ExecutorGroupConfig)
    (keys : gset string) : Result (gmap Z ExecutorGroupConfig * gmap string ExecutorGroupConfig) :=
  match groups with
  | [] => Ok (byID, byName)
  | group :: rest =>
      match validate group with
      | Fail e => Fail e
      | Ok _ =>
          if bool_decide (is_Some (byID !! gc_ID group)) || bool_decide (is_Some (byName !! gc_Name group)) || bool_decide (gc_DiscoveryKey group ∈ keys)
          then Fail [Text "executor group snapshot contains duplicate identities"]
          else index rest (<[gc_ID group := group]> byID) (<[gc_Name group := group]> byName) ({[gc_DiscoveryKey group]} ∪ keys)
      end
  end.

(** From the answer of the source to the two indexes; [queryErr] is the state of the
    query's context. *)
Definition refresh_indexes (loaded : Result (list ExecutorGroupConfig)) (queryErr : option Error)
    : Result (gmap Z ExecutorGroupConfig * gmap string ExecutorGroupConfig) :=
  match loaded with
  | Fail e => Fail (sourceError "load executor group snapshot" e)
  | Ok groups => match queryErr with Some e => Fail e | None => index groups ∅ ∅ ∅ end
  end.

(** The replacement under the lock; also the observers to call. *)
Definition replace (c : Cache) (ctxErr : option Error) (byID : gmap Z ExecutorGroupConfig) (byName : gmap string ExecutorGroupConfig)
    : Result (Cache * list Z) :=
  match ctxErr with
  | Some e => Fail e
  | None =>
      Ok ({ c with c_generation := (c_generation c + 1) mod 2 ^ 64; c_byID := byID; c_byName := byName }, elements (c_observers c))
  end.

(** One uninterrupted [Refresh]. *)
Definition Refresh (c : Cache) (ctxErr : option Error) (loaded : Result (list ExecutorGroupConfig)) (queryErr ctxErr' : option Error)
    : Result (Cache * list Z) :=
  match ctxErr with
  | Some e => Fail e
  | None =>
      match refresh_indexes loaded queryErr with
      | Fail e => Fail e
      | Ok (byID, byName) => replace c ctxErr' byID byName
      end
  end.

Definition New (ctxErr : option Error) (loaded : Result (list ExecutorGroupConfig)) (queryErr ctxErr' : option Error) (queryTimeout : Duration) : Result Cache :=
  if queryTimeout <=? 0 then Fail [Text "executor group cache query timeout must be positive"]
  else match Refresh empty_cache ctxErr loaded queryErr ctxErr' with Ok (c, _) => Ok c | Fail e => Fail e end.

(** The entry of [Run]; its loop only calls Refresh. *)
Definition Run (c : Cache) : Result Cache :=
  if c_runStarted c then Fail [Text "executor group cache refresh loop has already started"] else Ok { c with c_runStarted := true }.

Definition Contains (c : Cache) (group : ExecutorGroupConfig) : bool := bool_decide (c_byID c !! gc_ID group = Some group).

(** The new observer's number; the returned function is [unregister]. *)
Definition OnRefresh (c : Cache) : Cache * Z :=
  let id := (c_nextObserver c + 1) mod 2 ^ 64 in
  ({ c with c_nextObserver := id; c_observers := {[id]} ∪ c_observers c }, id).
Definition unregister (c : Cache) (id : Z) : Cache := { c with c_observers := c_observers c ∖ {[id]} }.

(** ** Lookups *)

Definition ByID (id : Z) : Result lookupKey :=
  if id <=? 0 then Fail [Text "executor group ID must be positive"] else Ok (id, "").
Definition ByName (name : string) : Result lookupKey := Ok (0, name).

Definition cached (c : Cache) (key : lookupKey) : option ExecutorGroupConfig :=
  if negb (key.1 =? 0) then c_byID c !! key.1 else c_byName c !! key.2.

(** Where a lookup is; [gen] is the generation its query belongs to. *)
Inductive Stage :=
| Called | Missed
| Leading (flight : Z)
| Querying (flight gen : Z)
| Queried (flight gen : Z) (r : Result ExecutorGroupConfig)
| Landing (flight : Z) (r : Result ExecutorGroupConfig)
| Following (flight : Z)
| Finished (r : Result ExecutorGroupConfig).

(** [lookup] up to the first unlock. *)
Definition lookup_read (c : Cache) (ctxErr : option Error) (key : lookupKey) : Stage :=
  match ctxErr with
  | Some e => Finished (Fail e)
  | None => match cached c key with Some config => Finished (Ok config) | None => Missed end
  end.

(** The second critical section; [fresh] is the address of the new flight. *)
Definition lookup_join (c : Cache) (key : lookupKey) (fresh : Z) : Cache * Stage :=
  match cached c key with
  | Some config => (c, Finished (Ok config))
  | None =>
      match c_flights c !! key with
      | Some flight => (c, Following flight)
      | None => ({ c with c_flights := <[key := fresh]> (c_flights c) }, Leading fresh)
      end
  end.

(** The head of the loop of [loadMiss]. *)
Definition loadMiss_head (c : Cache) (ctxErr : option Error) (key : lookupKey) (flight : Z) : Stage :=
  match ctxErr with
  | Some e => Landing flight (Fail e)
  | None =>
      match cached c key with
      | Some config => Landing flight (Ok config)
      | None => Querying flight (c_generation c)
      end
  end.

(** [query] after the source answered; a nil configuration is [Ok None]. *)
Definition query (key : lookupKey) (answer : Result (option ExecutorGroupConfig)) (contextErr : option Error) : Result ExecutorGroupConfig :=
  match contextErr with
  | Some e => Fail e
  | None =>
      match answer with
      | Fail e => if errors_is e ErrExecutorGroupUnavailable then Fail [ErrNotFound] else Fail (sourceError "load executor group" e)
      | Ok None => Fail [Text "executor group source returned no configuration"]
      | Ok (Some config) =>
          match validate config with
          | Fail e => Fail e
          | Ok _ =>
              if (negb (key.1 =? 0) && negb (key.1 =? gc_ID config)) || ((key.1 =? 0) && negb (bool_decide (key.2 = gc_Name config)))
              then Fail [Text "executor group source returned a different identity"]
              else Ok config
          end
      end
  end.

(** The rest of the loop of [loadMiss]. *)
Definition loadMiss_tail (c : Cache) (flight gen : Z) (r : Result ExecutorGroupConfig) : Cache * Stage :=
  match r with
  | Fail e =>
      if negb (errors_is e ErrNotFound) then (c, Landing flight (Fail e))
      else if negb (gen =? c_generation c) then (c, Leading flight)
      else (c, Landing flight (Fail e))
  | Ok config =>
      if negb (gen =? c_generation c) then (c, Leading flight)
      else ({ c with c_byID := <[gc_ID config := config]> (c_byID c); c_byName := <[gc_Name config := config]> (c_byName c) },
            Landing flight (Ok config))
  end.

(** The last critical section of [lookup]: the flight lands. *)
Definition lookup_land (c : Cache) (key : lookupKey) : Cache := { c with c_flights := delete key (c_flights c) }.
End cache.

(** ** Interleavings *)

Record Lookup := { lk_key : lookupKey; lk_since : nat; lk_stage : Stage }.

(** The holder of the refresh gate; a snapshot remembers the moment it was read. *)
Inductive Refreshing :=
| NotRefreshing | Loading
| Snapshot (byID : gmap Z ExecutorGroupConfig) (byName : gmap string ExecutorGroupConfig) (moment : nat)
| Notifying (observers : list Z).

(** [w_history]: the active groups of the database at every moment so far; [w_loaded]: the
    moment the current snapshot was read; [w_installs]: the number of replacements. *)
Record World := {
  w_cache : Cache; w_refresh : Refreshing; w_lookups : gmap Z Lookup; w_flights : gmap Z lookupFlight; w_next : Z;
  w_history : list (list ExecutorGroupConfig); w_loaded : nat; w_installs : Z;
}.

Definition matches (key : lookupKey) (c : ExecutorGroupConfig) : bool :=
  if negb (key.1 =? 0) then key.1 =? gc_ID c else bool_decide (key.2 = gc_Name c).

(** The errors of the source and of contexts are not the cache's own sentinel. *)
Definition foreign (err : option Error) : Prop := match err with Some e => errors_is e ErrNotFound = false | None => True end.

(** What [Source] promises: a lookup returns an active group or an error, and calls a group
    unavailable only when no active group has the key. *)
Definition source_find (gs : list ExecutorGroupConfig) (key : lookupKey) (answer : Result (option ExecutorGroupConfig)) : Prop :=
  match answer with
  | Ok (Some c) => c ∈ gs
  | Ok None => True
  | Fail e => foreign (Some e) ∧ (errors_is e ErrExecutorGroupUnavailable = true → ∀ c, c ∈ gs → matches key c = false)
  end.

Definition set_lookup (t : Z) (l : Lookup) (stage : Stage) (w : World) : World :=
  { w with w_lookups := <[t := { l with lk_stage := stage }]> (w_lookups w) }.
Definition current (w : World) (gs : list ExecutorGroupConfig) : Prop := last (w_history w) = Some gs.

Section interleaving.
Context `{UuidLib}.

Inductive step : World → World → Prop :=
| step_database w gs : step w { w with w_history := w_history w ++ [gs] }
| step_call w t key :
    (∃ id, ByID id = Ok key) ∨ (∃ name, ByName name = Ok key) → w_lookups w !! t = None →
    step w { w with w_lookups := <[t := {| lk_key := key; lk_since := w_loaded w; lk_stage := Called |}]> (w_lookups w) }
| step_read w t l ctxErr :
    w_lookups w !! t = Some l → lk_stage l = Called → foreign ctxErr →
    step w (set_lookup t l (lookup_read (w_cache w) ctxErr (lk_key l)) w)
| step_join_hit w t l config :
    w_lookups w !! t = Some l → lk_stage l = Missed → lookup_join (w_cache w) (lk_key l) (w_next w) = (w_cache w, Finished (Ok config)) →
    step w (set_lookup t l (Finished (Ok config)) w)
| step_join_follow w t l flight f :
    w_lookups w !! t = Some l → lk_stage l = Missed → lookup_join (w_cache w) (lk_key l) (w_next w) = (w_cache w, Following flight) →
    w_flights w !! flight = Some f →
    step w (set_lookup t { l with lk_since := Nat.min (lk_since l) (fl_since f) } (Following flight) w)
| step_join_lead w t l c :
    w_lookups w !! t = Some l → lk_stage l = Missed → lookup_join (w_cache w) (lk_key l) (w_next w) = (c, Leading (w_next w)) →
    step w (set_lookup t l (Leading (w_next w))
      { w with w_cache := c; w_next := w_next w + 1;
               w_flights := <[w_next w := {| fl_result := None; fl_key := lk_key l; fl_since := lk_since l |}]> (w_flights w) })
| step_head w t l flight ctxErr :
    w_lookups w !! t = Some l → lk_stage l = Leading flight → foreign ctxErr →
    step w (set_lookup t l (loadMiss_head (w_cache w) ctxErr (lk_key l) flight) w)
| step_query w t l flight gen gs answer contextErr :
    w_lookups w !! t = Some l → lk_stage l = Querying flight gen → current w gs → source_find gs (lk_key l) answer → foreign contextErr →
    step w (set_lookup t l (Queried flight gen (query (lk_key l) answer contextErr)) w)
| step_tail w t l flight gen r c stage :
    w_lookups w !! t = Some l → lk_stage l = Queried flight gen r → loadMiss_tail (w_cache w) flight gen r = (c, stage) →
    step w (set_lookup t l stage { w with w_cache := c })
| step_land w t l flight r f :
    w_lookups w !! t = Some l → lk_stage l = Landing flight r → w_flights w !! flight = Some f →
    step w (set_lookup t l (Finished r)
      { w with w_cache := lookup_land (w_cache w) (lk_key l); w_flights := <[flight := { f with fl_result := Some r }]> (w_flights w) })
| step_follow w t l flight f r :
    w_lookups w !! t = Some l → lk_stage l = Following flight → w_flights w !! flight = Some f → fl_result f = Some r →
    step w (set_lookup t l (Finished r) w)
| step_leave w t l flight e :
    w_lookups w !! t = Some l → lk_stage l = Following flight → foreign (Some e) → step w (set_lookup t l (Finished (Fail e)) w)
| step_gate w : w_refresh w = NotRefreshing → step w { w with w_refresh := Loading }
| step_load w gs byID byName :
    w_refresh w = Loading → current w gs → refresh_indexes (Ok gs) None = Ok (byID, byName) →
    step w { w with w_refresh := Snapshot byID byName (length (w_history w) - 1) }
| step_replace w byID byName moment c observers :
    w_refresh w = Snapshot byID byName moment → replace (w_cache w) None byID byName = Ok (c, observers) →
    step w { w with w_cache := c; w_refresh := Notifying observers; w_loaded := moment; w_installs := w_installs w + 1 }
| step_abandon w : step w { w with w_refresh := NotRefreshing }
| step_observe w : step w { w with w_cache := (OnRefresh (w_cache w)).1 }
| step_unregister w id : step w { w with w_cache := unregister (w_cache w) id }.

(** A scheduler process after [New]. *)
Definition boot (c : Cache) (gs : list ExecutorGroupConfig) : World :=
  {| w_cache := c; w_refresh := NotRefreshing; w_lookups := ∅; w_flights := ∅; w_next := 1;
     w_history := [gs]; w_loaded := 0; w_installs := 1 |}.
End interleaving.
