(* ===== verification/GroupCacheInv.v ===== *)
(** * What the executor group cache guarantees

    Invariants of every interleaving of GroupCache.v: cached values were active in the
    database no earlier than the current snapshot was read, answers match what was
    asked, absence is only reported when the database showed it, and equal misses share
    one source call. *)

From S2P Require Import Prelude GoLib Tx Model TaskRepo InstanceRepo JobRepo HintSpec RpcErrors Executor GroupCache.

Open Scope string_scope.
Open Scope list_scope.
Open Scope Z_scope.

(** Something held in the database at a moment not before [lo]. *)
Definition held (h : list (list ExecutorGroupConfig)) (lo : nat) (P : list ExecutorGroupConfig → Prop) : Prop :=
  ∃ m gs, (lo ≤ m)%nat ∧ h !! m = Some gs ∧ P gs.

Lemma held_mono h h' lo lo' P : h `prefix_of` h' → (lo' ≤ lo)%nat → held h lo P → held h' lo' P.
Proof. intros Hp Hl (m & gs & ? & ? & ?). exists m, gs. split_and!; [lia|by eapply prefix_lookup_Some|done]. Qed.

Section invariant.
Context `{UuidLib}.
Implicit Types (h : list (list ExecutorGroupConfig)) (w : World) (key : lookupKey) (g : ExecutorGroupConfig).

Definition entry_ok h (lo : nat) g : Prop := validate g = Ok () ∧ held h lo (λ gs, g ∈ gs).

(** What an answer tells about the database since the moment [lo]. *)
Definition answer_ok h (lo : nat) key (r : Result ExecutorGroupConfig) : Prop :=
  match r with
  | Ok g => matches key g = true ∧ entry_ok h lo g
  | Fail e => errors_is e ErrNotFound = true → held h lo (λ gs, ∀ g, g ∈ gs → matches key g = false)
  end.

Lemma answer_ok_mono h h' lo lo' key r : h `prefix_of` h' → (lo' ≤ lo)%nat → answer_ok h lo key r → answer_ok h' lo' key r.
Proof.
  intros Hp Hl. destruct r as [g|e]; simpl; [intros (? & ? & ?); repeat split; eauto using held_mono|].
  intros Ha He. eapply held_mono; eauto.
Qed.

(** *** Indexes *)

Record indexes_ok h (lo : nat) (byID : gmap Z ExecutorGroupConfig) (byName : gmap string ExecutorGroupConfig) : Prop := {
  io_id : ∀ id g, byID !! id = Some g → gc_ID g = id ∧ entry_ok h lo g;
  io_name : ∀ name g, byName !! name = Some g → gc_Name g = name ∧ entry_ok h lo g;
}.

Lemma indexes_ok_mono h h' lo lo' byID byName :
  h `prefix_of` h' → (lo' ≤ lo)%nat → indexes_ok h lo byID byName → indexes_ok h' lo' byID byName.
Proof.
  intros Hp Hl [Hi Hn]. split; [intros id g (? & ? & ?)%Hi|intros name g (? & ? & ?)%Hn]; (split; [done|split; [done|]]); eauto using held_mono.
Qed.

Lemma indexes_ok_insert h lo byID byName g :
  indexes_ok h lo byID byName → entry_ok h lo g → indexes_ok h lo (<[gc_ID g := g]> byID) (<[gc_Name g := g]> byName).
Proof.
  intros [Hi Hn] Hg. split.
  - intros id g' [[<- <-]|[_ ?]]%lookup_insert_Some; eauto.
  - intros name g' [[<- <-]|[_ ?]]%lookup_insert_Some; eauto.
Qed.

Lemma index_ok h lo all gs byID byName keys byID' byName' :
  held h lo (λ x, x = all) → (∀ g, g ∈ gs → g ∈ all) → indexes_ok h lo byID byName →
  index gs byID byName keys = Ok (byID', byName') → indexes_ok h lo byID' byName'.
Proof.
  intros (m & x & Hm & Hh & ->). revert byID byName keys. induction gs as [|g gs IH]; intros byID byName keys Hsub Hok Hx; simpl in Hx; [by simplify_eq|].
  destruct (validate g) as [[]|] eqn:Ev; [|done]. destruct (_ || _); [done|].
  eapply IH; [|by apply indexes_ok_insert; [|split; [|exists m, all; split_and!; [..|apply Hsub; left]]]|done].
  intros g' Hg. apply Hsub. by right.
Qed.

Lemma cached_ok h lo c key g : indexes_ok h lo (c_byID c) (c_byName c) → cached c key = Some g → answer_ok h lo key (Ok g).
Proof.
  intros [Hi Hn]. unfold cached, answer_ok, matches. destruct (negb (key.1 =? 0)).
  - intros (<- & ?)%Hi. by rewrite Z.eqb_refl.
  - intros (<- & ?)%Hn. by rewrite bool_decide_eq_true_2.
Qed.

Lemma query_ok h lo gs key answer contextErr :
  held h lo (λ x, x = gs) → source_find gs key answer → foreign contextErr → answer_ok h lo key (query key answer contextErr).
Proof.
  intros (m & x & Hm & Hh & ->) Hs Hf. unfold query. destruct contextErr as [e|]; [simpl in *; congruence|].
  destruct answer as [[g|]|e]; simpl in *.
  - destruct (validate g) as [[]|e] eqn:Ev; [|by unfold validate in Ev; repeat case_match; simplify_eq].
    destruct (_ || _) eqn:Eg; [done|]. split; [|by split; [|exists m, gs]].
    unfold matches. destruct (key.1 =? 0), (key.1 =? gc_ID g), (bool_decide _); done.
  - done.
  - destruct Hs as [Hfo Hs]. destruct (errors_is e ErrExecutorGroupUnavailable) eqn:Eu.
    + intros _. exists m, gs. auto.
    + unfold answer_ok, sourceError. intros Hx. unfold errors_is in Hx, Hfo. rewrite bool_decide_eq_true in Hx.
      rewrite bool_decide_eq_false in Hfo. by rewrite elem_of_cons in Hx; destruct Hx.
Qed.

(** *** The invariant *)

Definition leads (stage : Stage) : option Z :=
  match stage with Leading f | Querying f _ | Queried f _ _ | Landing f _ => Some f | _ => None end.

Definition stage_ok h (loaded : nat) (installs : Z) (flights : gmap Z lookupFlight) (l : Lookup) : Prop :=
  (lk_since l ≤ loaded)%nat ∧
  match lk_stage l with
  | Called | Missed | Leading _ => True
  | Querying _ gen => gen ≤ installs
  | Queried _ gen r => gen ≤ installs ∧ (gen = installs ∨ (∃ e, r = Fail e ∧ errors_is e ErrNotFound = false) → answer_ok h loaded (lk_key l) r)
  | Landing _ r | Finished r => answer_ok h (lk_since l) (lk_key l) r
  | Following f => ∃ fl, flights !! f = Some fl ∧ fl_key fl = lk_key l ∧ (lk_since l ≤ fl_since fl)%nat
  end.

Record cache_inv w : Prop := {
  ci_now : (w_loaded w < length (w_history w))%nat;
  ci_generation : c_generation (w_cache w) = w_installs w ∧ 0 ≤ w_installs w;
  ci_indexes : indexes_ok (w_history w) (w_loaded w) (c_byID (w_cache w)) (c_byName (w_cache w));
  ci_snapshot : ∀ byID byName m, w_refresh w = Snapshot byID byName m →
    (w_loaded w ≤ m < length (w_history w))%nat ∧ indexes_ok (w_history w) m byID byName;
}.

Definition lookups_inv w : Prop :=
  ∀ t l, w_lookups w !! t = Some l → stage_ok (w_history w) (w_loaded w) (w_installs w) (w_flights w) l.

Record flights_inv w : Prop := {
  fi_done : ∀ f fl r, w_flights w !! f = Some fl → fl_result fl = Some r → answer_ok (w_history w) (fl_since fl) (fl_key fl) r;
  fi_fresh : ∀ f fl, w_flights w !! f = Some fl → f < w_next w;
  fi_open : ∀ key f, c_flights (w_cache w) !! key = Some f →
    (∃ fl, w_flights w !! f = Some fl ∧ fl_key fl = key) ∧ ∃ t l, w_lookups w !! t = Some l ∧ leads (lk_stage l) = Some f;
  fi_leader : ∀ t l f, w_lookups w !! t = Some l → leads (lk_stage l) = Some f →
    c_flights (w_cache w) !! lk_key l = Some f ∧ ∃ fl, w_flights w !! f = Some fl ∧ fl_key fl = lk_key l ∧ fl_since fl = lk_since l;
  fi_alone : ∀ t t' l l' f, w_lookups w !! t = Some l → w_lookups w !! t' = Some l' →
    leads (lk_stage l) = Some f → leads (lk_stage l') = Some f → t = t';
}.

Record world_inv w : Prop := { wi_cache : cache_inv w; wi_lookups : lookups_inv w; wi_flights : flights_inv w }.

(** Flights only gain results. *)
Definition flights_grow (flights flights' : gmap Z lookupFlight) : Prop :=
  ∀ f fl, flights !! f = Some fl → ∃ fl', flights' !! f = Some fl' ∧ fl_key fl' = fl_key fl ∧ fl_since fl' = fl_since fl.

Lemma stage_ok_mono h h' lo lo' n n' fs fs' l :
  h `prefix_of` h' → flights_grow fs fs' → (lo' = lo ∧ n' = n ∨ (lo ≤ lo')%nat ∧ n < n') →
  stage_ok h lo n fs l → stage_ok h' lo' n' fs' l.
Proof.
  intros Hp Hg Hn [Hl Hs]. split; [lia|]. destruct (lk_stage l) as [| |f|f gen|f gen r|f r|f|r]; try done; try lia; try by (eapply answer_ok_mono; [exact Hp|reflexivity|exact Hs]).
  - destruct Hs as [Hge Ha]. split; [lia|]. intros Hr. destruct Hn as [[-> ->]|[_ Hn]]; [by eapply answer_ok_mono; [| |apply Ha]|].
    destruct Hr as [|(e & -> & He)]; [lia|]. simpl. congruence.
  - destruct Hs as (fl & Hf & Hk & Hsi). destruct (Hg _ _ Hf) as (fl' & ? & ? & ?). exists fl'. split_and!; [done|congruence|lia].
Qed.

Lemma flights_grow_refl fs : flights_grow fs fs.
Proof. intros f fl ?. eauto. Qed.

Lemma current_held w gs lo : current w gs → (lo < length (w_history w))%nat → held (w_history w) lo (λ x, x = gs).
Proof.
  unfold current. intros Hc Hl. rewrite last_lookup in Hc. eexists _, gs. split_and!; [|exact Hc|done]. lia.
Qed.

(** Replacing the stage of one lookup. *)
Lemma set_lookup_lookups w w' t l stage :
  lookups_inv w → w_lookups w' = w_lookups w → w_history w' = w_history w → w_loaded w' = w_loaded w → w_installs w' = w_installs w →
  flights_grow (w_flights w) (w_flights w') →
  stage_ok (w_history w) (w_loaded w) (w_installs w) (w_flights w') { l with lk_stage := stage } →
  lookups_inv (set_lookup t l stage w').
Proof.
  intros HI El Eh Elo Ei Hg Hs t' l'. simpl. rewrite El, Eh, Elo, Ei.
  intros [[<- <-]|[_ ?]]%lookup_insert_Some; [done|]. eapply stage_ok_mono; eauto.
Qed.

(** A lookup that keeps its role leaves the flights as they are. *)
Lemma set_lookup_flights w t l l' stage :
  flights_inv w → w_lookups w !! t = Some l → lk_key l' = lk_key l → (leads stage ≠ None → lk_since l' = lk_since l) →
  leads stage = leads (lk_stage l) → flights_inv (set_lookup t l' stage w).
Proof.
  intros [H1 H2 H3 H4 H5] Hl Hk Hsi Hr.
  assert (∀ t1 l1, <[t := { l' with lk_stage := stage }]> (w_lookups w) !! t1 = Some l1 →
    ∃ l2, w_lookups w !! t1 = Some l2 ∧ lk_key l1 = lk_key l2 ∧ leads (lk_stage l1) = leads (lk_stage l2) ∧ (leads (lk_stage l1) ≠ None → lk_since l1 = lk_since l2)) as Hold.
  { intros t1 l1 [[<- <-]|[_ ?]]%lookup_insert_Some; [exists l|exists l1]; simpl; auto. }
  split; simpl; [done|done| | |].
  - intros key f Hf. destruct (H3 _ _ Hf) as (Hex & t1 & l1 & Hl1 & Hle). split; [done|].
    destruct (decide (t1 = t)) as [->|Hne]; [exists t; eexists; rewrite lookup_insert_eq; split; [done|]; simpl; congruence|].
    exists t1, l1. by rewrite lookup_insert_ne.
  - intros t1 l1 f (l2 & Hl2 & Hk2 & Hr2 & Hs2)%Hold Hle. rewrite Hk2. rewrite Hr2 in Hle.
    destruct (H4 _ _ _ Hl2 Hle) as (? & fl & ? & ? & ?). split; [done|]. exists fl. rewrite Hs2 by congruence. eauto.
  - intros t1 t2 l1 l2 f (l3 & Hl3 & _ & Hr3 & _)%Hold (l4 & Hl4 & _ & Hr4 & _)%Hold ??. apply (H5 t1 t2 l3 l4 f); [done|done|congruence..].
Qed.

Lemma set_lookup_cache w t l stage : cache_inv w → cache_inv (set_lookup t l stage w).
Proof. intros [????]. by split. Qed.

(** A step of one lookup that changes neither the flights nor its role. *)
Lemma lookup_step_inv w t l l' stage c :
  world_inv w → w_lookups w !! t = Some l → lk_key l' = lk_key l → (leads stage ≠ None → lk_since l' = lk_since l) →
  leads stage = leads (lk_stage l) → c_generation c = c_generation (w_cache w) → c_flights c = c_flights (w_cache w) →
  indexes_ok (w_history w) (w_loaded w) (c_byID c) (c_byName c) →
  stage_ok (w_history w) (w_loaded w) (w_installs w) (w_flights w) { l' with lk_stage := stage } →
  world_inv (set_lookup t l' stage { w with w_cache := c }).
Proof.
  intros [[C1 C2 C3 C4] HL [F1 F2 F3 F4 F5]] Hl Hk Hsi Hr Hg Hf Hx Hs. split.
  - apply set_lookup_cache. split; simpl; [done|by rewrite Hg|done|done].
  - by eapply set_lookup_lookups; [exact HL|..|exact Hs]; try done; apply flights_grow_refl.
  - eapply set_lookup_flights; [|exact Hl|done..]. split; simpl; try done; by rewrite Hf.
Qed.

Lemma lookup_stage_inv w t l l' stage :
  world_inv w → w_lookups w !! t = Some l → lk_key l' = lk_key l → (leads stage ≠ None → lk_since l' = lk_since l) →
  leads stage = leads (lk_stage l) →
  stage_ok (w_history w) (w_loaded w) (w_installs w) (w_flights w) { l' with lk_stage := stage } →
  world_inv (set_lookup t l' stage w).
Proof.
  intros HI Hl Hk Hsi Hr Hs. assert (w = { w with w_cache := w_cache w }) as -> by (by destruct w).
  eapply lookup_step_inv; eauto. by destruct HI as [[]].
Qed.

Lemma read_step_inv w t l ctxErr :
  world_inv w → w_lookups w !! t = Some l → lk_stage l = Called → foreign ctxErr →
  world_inv (set_lookup t l (lookup_read (w_cache w) ctxErr (lk_key l)) w).
Proof.
  intros HI Hl Hst Hf. destruct (wi_lookups _ HI _ _ Hl) as [Hsi _]. pose proof (ci_indexes _ (wi_cache _ HI)) as Hx.
  eapply lookup_stage_inv; [done|exact Hl|done|done| |]; unfold lookup_read.
  - rewrite Hst. by repeat case_match.
  - split; [done|]. simpl. destruct ctxErr as [e|]; simpl; [simpl in Hf; congruence|].
    destruct (cached _ _) as [g|] eqn:Ec; [|done]. eapply answer_ok_mono; [reflexivity|exact Hsi|]. by eapply cached_ok.
Qed.

Lemma head_step_inv w t l flight ctxErr :
  world_inv w → w_lookups w !! t = Some l → lk_stage l = Leading flight → foreign ctxErr →
  world_inv (set_lookup t l (loadMiss_head (w_cache w) ctxErr (lk_key l) flight) w).
Proof.
  intros HI Hl Hst Hf. destruct (wi_lookups _ HI _ _ Hl) as [Hsi _]. pose proof (ci_indexes _ (wi_cache _ HI)) as Hx.
  eapply lookup_stage_inv; [done|exact Hl|done|done| |]; unfold loadMiss_head.
  - rewrite Hst. by repeat case_match.
  - split; [done|]. simpl. destruct ctxErr as [e|]; simpl; [simpl in Hf; congruence|].
    destruct (cached _ _) as [g|] eqn:Ec; simpl; [|by destruct (ci_generation _ (wi_cache _ HI)) as [-> _]].
    eapply (answer_ok_mono _ _ _ _ _ (Ok g)); [reflexivity|exact Hsi|]. by eapply cached_ok.
Qed.

Lemma query_step_inv w t l flight gen gs answer contextErr :
  world_inv w → w_lookups w !! t = Some l → lk_stage l = Querying flight gen → current w gs → source_find gs (lk_key l) answer → foreign contextErr →
  world_inv (set_lookup t l (Queried flight gen (query (lk_key l) answer contextErr)) w).
Proof.
  intros HI Hl Hst Hc Hs Hf. destruct (wi_lookups _ HI _ _ Hl) as [Hsi Hg]. rewrite Hst in Hg.
  eapply lookup_stage_inv; [done|exact Hl|done|done|by rewrite Hst|]. split; [done|]. simpl. split; [done|]. intros _.
  eapply query_ok; eauto. apply current_held; [done|]. by destruct HI as [[]].
Qed.

Lemma tail_step_inv w t l flight gen r c stage :
  world_inv w → w_lookups w !! t = Some l → lk_stage l = Queried flight gen r → loadMiss_tail (w_cache w) flight gen r = (c, stage) →
  world_inv (set_lookup t l stage { w with w_cache := c }).
Proof.
  intros HI Hl Hst Ht. destruct (wi_lookups _ HI _ _ Hl) as [Hsi Hq]. rewrite Hst in Hq. destruct Hq as [Hge Hq].
  pose proof (ci_indexes _ (wi_cache _ HI)) as Hx. destruct (ci_generation _ (wi_cache _ HI)) as [Hgen _].
  unfold loadMiss_tail in Ht. rewrite Hgen in Ht.
  destruct r as [g|e]; [|destruct (errors_is e ErrNotFound) eqn:En; simpl in Ht]; try destruct (Z.eqb_spec gen (w_installs w)) as [Hn|Hn]; simpl in Ht; simplify_eq;
    (eapply lookup_step_inv; [done|exact Hl|done|done|by rewrite Hst|done|done|try exact Hx|split; [done|]]; simpl; try done).
  - destruct (Hq (or_introl eq_refl)) as [_ Hg]. by apply indexes_ok_insert.
  - eapply (answer_ok_mono _ _ _ _ _ (Ok g)); [reflexivity|exact Hsi|]. auto.
  - eapply (answer_ok_mono _ _ _ _ _ (Fail e)); [reflexivity|exact Hsi|]. auto.
  - congruence.
  - congruence.
Qed.

Lemma follow_step_inv w t l flight f r :
  world_inv w → w_lookups w !! t = Some l → lk_stage l = Following flight → w_flights w !! flight = Some f → fl_result f = Some r →
  world_inv (set_lookup t l (Finished r) w).
Proof.
  intros HI Hl Hst Hf Hr. destruct (wi_lookups _ HI _ _ Hl) as [Hsi Hq]. rewrite Hst in Hq. destruct Hq as (fl & Hfl & Hk & Hs). simplify_eq.
  eapply lookup_stage_inv; [done|exact Hl|done|done|by rewrite Hst|]. split; [done|]. simpl. rewrite <- Hk.
  eapply answer_ok_mono; [reflexivity|exact Hs|]. by eapply fi_done; [apply wi_flights|..].
Qed.

Lemma lead_step_inv w t l c :
  world_inv w → w_lookups w !! t = Some l → lk_stage l = Missed → lookup_join (w_cache w) (lk_key l) (w_next w) = (c, Leading (w_next w)) →
  world_inv (set_lookup t l (Leading (w_next w))
    { w with w_cache := c; w_next := w_next w + 1;
             w_flights := <[w_next w := {| fl_result := None; fl_key := lk_key l; fl_since := lk_since l |}]> (w_flights w) }).
Proof.
  intros [[C1 C2 C3 C4] HL [F1 F2 F3 F4 F5]] Hl Hst Hj. unfold lookup_join in Hj.
  destruct (cached _ _); [done|]. destruct (c_flights (w_cache w) !! lk_key l) as [?|] eqn:Ef; [done|]. injection Hj as <-.
  assert (w_flights w !! w_next w = None) as Hfr.
  { destruct (w_flights w !! w_next w) eqn:E; [|done]. apply F2 in E. lia. }
  assert (∀ t1 l1, w_lookups w !! t1 = Some l1 → leads (lk_stage l1) ≠ Some (w_next w)) as Hno.
  { intros t1 l1 H1 H2. destruct (F4 _ _ _ H1 H2) as (_ & fl & ? & _). congruence. }
  destruct (HL _ _ Hl) as [Hsi _].
  split; [by apply set_lookup_cache; split| |split; simpl].
  - eapply set_lookup_lookups; [exact HL|done..| |by split].
    intros f fl Hf. exists fl. simpl. rewrite lookup_insert_ne by congruence. eauto.
  - intros f fl r [[<- <-]|[_ ?]]%lookup_insert_Some ?; [done|eauto].
  - intros f fl [[<- <-]|[_ ?%F2]]%lookup_insert_Some; lia.
  - intros key f [[<- <-]|[Hne Hf]]%lookup_insert_Some.
    + split; [eexists; by rewrite lookup_insert_eq|]. eexists t, _. by rewrite lookup_insert_eq.
    + destruct (F3 _ _ Hf) as ((fl & Hfl & Hk) & t1 & l1 & Hl1 & Hle). split; [exists fl; rewrite lookup_insert_ne by congruence; done|].
      exists t1, l1. rewrite lookup_insert_ne; [done|]. intros ->. simplify_eq. by rewrite Hst in Hle.
  - intros t1 l1 f [[<- <-]|[Hne Hl1]]%lookup_insert_Some; simpl.
    + intros [= <-]. rewrite lookup_insert_eq. split; [done|]. eexists. by rewrite lookup_insert_eq.
    + intros Hle. destruct (F4 _ _ _ Hl1 Hle) as (Hf & fl & Hfl & ?). rewrite lookup_insert_ne by congruence. split; [done|].
      exists fl. rewrite lookup_insert_ne by congruence. eauto.
  - intros t1 t2 l1 l2 f [[<- <-]|[Hne Hl1]]%lookup_insert_Some [[<- <-]|[Hne' Hl2]]%lookup_insert_Some Hle1 Hle2; simpl in *; [done| | |eauto];
      simplify_eq; exfalso; eapply Hno; eauto.
Qed.

Lemma land_step_inv w t l flight r f :
  world_inv w → w_lookups w !! t = Some l → lk_stage l = Landing flight r → w_flights w !! flight = Some f →
  world_inv (set_lookup t l (Finished r)
    { w with w_cache := lookup_land (w_cache w) (lk_key l); w_flights := <[flight := { f with fl_result := Some r }]> (w_flights w) }).
Proof.
  intros [[C1 C2 C3 C4] HL [F1 F2 F3 F4 F5]] Hl Hst Hf. destruct (HL _ _ Hl) as [Hsi Ha]. rewrite Hst in Ha.
  destruct (F4 t l flight Hl ltac:(by rewrite Hst)) as (Hfk & fl & Hfl & Hk & Hs). simplify_eq.
  assert (∀ t1 l1 f1, w_lookups w !! t1 = Some l1 → leads (lk_stage l1) = Some f1 → t1 ≠ t → f1 ≠ flight) as Hother.
  { intros t1 l1 f1 H1 H2 Hne ->. apply Hne. apply (F5 t1 t l1 l flight); [done..|]. by rewrite Hst. }
  split; [by apply set_lookup_cache; split| |split; simpl].
  - eapply set_lookup_lookups; [exact HL|done..| |by split].
    intros f1 fl Hf1. destruct (decide (f1 = flight)) as [->|Hne]; simpl;
      [simplify_eq; eexists; rewrite lookup_insert_eq; eauto|exists fl; by rewrite lookup_insert_ne].
  - intros f1 fl1 r1 [[<- <-]|[_ ?]]%lookup_insert_Some; simpl; [|eauto]. intros [= <-]. by rewrite Hk, Hs.
  - intros f1 fl1 [[<- <-]|[_ ?%F2]]%lookup_insert_Some; [by eapply F2|done].
  - intros key f1 [Hne Hf1]%lookup_delete_Some. destruct (F3 _ _ Hf1) as ((fl & Hfl1 & Hk1) & t1 & l1 & Hl1 & Hle).
    assert (t1 ≠ t) as Hnt.
    { intros ->. simplify_eq. rewrite Hst in Hle. by simplify_eq/=. }
    split; [exists fl; rewrite lookup_insert_ne; [done|]; intros ->; by eapply Hother|]. exists t1, l1. by rewrite lookup_insert_ne.
  - intros t1 l1 f1 [[<- <-]|[Hne Hl1]]%lookup_insert_Some; simpl; [done|]. intros Hle.
    destruct (F4 _ _ _ Hl1 Hle) as (Hf1 & fl & Hfl1 & Hk1 & ?). pose proof (Hother _ _ _ Hl1 Hle (not_eq_sym Hne)) as Hn.
    split; [|exists fl; by rewrite lookup_insert_ne]. rewrite lookup_delete_ne; [done|]. intros Hkk. rewrite <- Hkk in Hf1. congruence.
  - intros t1 t2 l1 l2 f1 [[<- <-]|[Hne Hl1]]%lookup_insert_Some [[<- <-]|[Hne' Hl2]]%lookup_insert_Some Hle1 Hle2; simpl in *; [done..|]. eauto.
Qed.

(** Steps that leave the lookups alone. *)
Lemma other_step_inv w w' :
  world_inv w → w_lookups w' = w_lookups w → w_flights w' = w_flights w → w_next w' = w_next w →
  c_flights (w_cache w') = c_flights (w_cache w) → w_history w `prefix_of` w_history w' →
  (w_loaded w' = w_loaded w ∧ w_installs w' = w_installs w ∨ (w_loaded w ≤ w_loaded w')%nat ∧ w_installs w < w_installs w') →
  cache_inv w' → world_inv w'.
Proof.
  intros [_ HL [F1 F2 F3 F4 F5]] El Ef En Ec Hp Hn HC. split; [done| |split; rewrite ?El, ?Ef, ?En, ?Ec; try done].
  - intros t l. rewrite El, Ef. intros ?%HL. eapply stage_ok_mono; eauto using flights_grow_refl.
  - intros f fl r ??. eapply answer_ok_mono; [exact Hp|reflexivity|eauto].
Qed.

Lemma call_step_inv w t key :
  world_inv w → w_lookups w !! t = None →
  world_inv { w with w_lookups := <[t := {| lk_key := key; lk_since := w_loaded w; lk_stage := Called |}]> (w_lookups w) }.
Proof.
  intros [[C1 C2 C3 C4] HL [F1 F2 F3 F4 F5]] Hn.
  split; [by split| |split; simpl; [done|done|..]].
  - intros t1 l1. simpl. intros [[<- <-]|[_ ?]]%lookup_insert_Some; [by split|eauto].
  - intros key1 f Hf. destruct (F3 _ _ Hf) as (Hex & t1 & l1 & Hl1 & Hle). split; [done|]. exists t1, l1.
    rewrite lookup_insert_ne by congruence. done.
  - intros t1 l1 f [[<- <-]|[Hne Hl1]]%lookup_insert_Some; simpl; [done|]. eauto.
  - intros t1 t2 l1 l2 f [[<- <-]|[Hne Hl1]]%lookup_insert_Some [[<- <-]|[Hne' Hl2]]%lookup_insert_Some ??; simpl in *; [done..|]. eauto.
Qed.

Lemma database_step_inv w gs : world_inv w → world_inv { w with w_history := w_history w ++ [gs] }.
Proof.
  intros HI. pose proof HI as [[C1 C2 C3 C4] _ _]. eapply other_step_inv; [done..| |by left|]; [by apply prefix_app_r|].
  split; simpl; rewrite ?length_app; simpl; [lia|done| |].
  - eapply indexes_ok_mono; [by apply prefix_app_r|reflexivity|done].
  - intros byID byName m (? & ?)%C4. split; [lia|]. eapply indexes_ok_mono; [by apply prefix_app_r|reflexivity|done].
Qed.

Lemma load_step_inv w gs byID byName :
  world_inv w → current w gs → refresh_indexes (Ok gs) None = Ok (byID, byName) →
  world_inv { w with w_refresh := Snapshot byID byName (length (w_history w) - 1) }.
Proof.
  intros HI Hc Hx. pose proof HI as [[C1 C2 C3 C4] _ _]. eapply other_step_inv; [done..|by left|].
  split; simpl; [done..|]. intros ??? [= <- <- <-]. split; [lia|]. eapply (index_ok _ _ gs gs ∅ ∅ ∅); [|done| |exact Hx].
  - apply current_held; [done|lia].
  - split; intros ??; by rewrite lookup_empty.
Qed.

Lemma replace_step_inv w byID byName moment c observers :
  world_inv w → w_installs w + 1 < 2 ^ 64 → w_refresh w = Snapshot byID byName moment →
  replace (w_cache w) None byID byName = Ok (c, observers) →
  world_inv { w with w_cache := c; w_refresh := Notifying observers; w_loaded := moment; w_installs := w_installs w + 1 }.
Proof.
  intros HI Hb Hr [= <- <-]. pose proof HI as [[C1 [C2 C2'] C3 C4] _ _]. destruct (C4 _ _ _ Hr) as [Hm Hx].
  eapply other_step_inv; [done..| |]; simpl; [right; lia|]. split; simpl; [lia| |done|done].
  rewrite C2, Z.mod_small by lia. lia.
Qed.

Lemma cache_only_inv w c :
  world_inv w → c_generation c = c_generation (w_cache w) → c_byID c = c_byID (w_cache w) → c_byName c = c_byName (w_cache w) →
  c_flights c = c_flights (w_cache w) → world_inv { w with w_cache := c }.
Proof.
  intros HI Hg Hi Hn Hf. pose proof HI as [[C1 C2 C3 C4] _ _]. eapply other_step_inv; [done..|by left|]. split; simpl; by rewrite ?Hg, ?Hi, ?Hn.
Qed.

Lemma refreshing_inv w r : world_inv w → match r with Snapshot _ _ _ => False | _ => True end → world_inv { w with w_refresh := r }.
Proof.
  intros HI Hr. pose proof HI as [[C1 C2 C3 C4] _ _]. eapply other_step_inv; [done..|by left|]. split; simpl; [done..|]. by intros ??? ->.
Qed.

Lemma world_step_inv w w' : step w w' → w_installs w' < 2 ^ 64 → world_inv w → world_inv w'.
Proof.
  intros Hs Hb HI.
  destruct Hs as [w gs|w t key Hk Hn|w t l ctxErr Hl Hst Hf|w t l g Hl Hst Hj|w t l flight f Hl Hst Hj Hf|w t l c Hl Hst Hj|w t l flight ctxErr Hl Hst Hf
    |w t l flight gen gs answer cErr Hl Hst Hc Hsf Hf|w t l flight gen r c stage Hl Hst Ht|w t l flight r f Hl Hst Hf|w t l flight f r Hl Hst Hf Hr
    |w t l flight e Hl Hst Hf|w Hr|w gs byID byName Hr Hc Hx|w byID byName m c obs Hr Hx|w|w|w id].
  - by apply database_step_inv.
  - by apply call_step_inv.
  - by apply read_step_inv.
  - destruct (wi_lookups _ HI _ _ Hl) as [Hsi _]. eapply lookup_stage_inv; [done|exact Hl|done|done|by rewrite Hst|]. split; [done|].
    unfold lookup_join in Hj. destruct (cached _ _) as [g'|] eqn:Ec; [|by case_match]. simplify_eq.
    eapply (answer_ok_mono _ _ _ _ _ (Ok g)); [reflexivity|exact Hsi|]. eapply cached_ok; [|done]. by destruct HI as [[]].
  - destruct (wi_lookups _ HI _ _ Hl) as [Hsi _]. eapply lookup_stage_inv; [done|exact Hl|done|done|by rewrite Hst|]. split; simpl; [lia|].
    unfold lookup_join in Hj. destruct (cached _ _); [done|]. destruct (c_flights _ !! _) as [f1|] eqn:Ef; [|done]. simplify_eq.
    destruct (fi_open _ (wi_flights _ HI) _ _ Ef) as [(fl & ? & ?) _]. simplify_eq. exists f. split_and!; [done|done|lia].
  - by apply lead_step_inv.
  - by apply head_step_inv.
  - by eapply query_step_inv.
  - by eapply tail_step_inv.
  - by apply land_step_inv.
  - by eapply follow_step_inv.
  - destruct (wi_lookups _ HI _ _ Hl) as [Hsi _]. eapply lookup_stage_inv; [done|exact Hl|done|done|by rewrite Hst|]. split; [done|]. simpl in *. congruence.
  - by apply refreshing_inv.
  - by eapply load_step_inv.
  - by eapply replace_step_inv.
  - by apply refreshing_inv.
  - by apply cache_only_inv.
  - by apply cache_only_inv.
Qed.

Lemma installs_mono w w' : step w w' → w_installs w ≤ w_installs w'.
Proof. destruct 1; simpl; lia. Qed.

Lemma boot_inv timeout c gs : New None (Ok gs) None None timeout = Ok c → world_inv (boot c gs).
Proof.
  intros Hn. unfold New, Refresh in Hn. destruct (_ <=? 0); [done|]. destruct (refresh_indexes _ _) as [[byID byName]|] eqn:Ex; [|done].
  simpl in Hn. injection Hn as <-. split; [split|intros t l|split]; simpl; intros *; rewrite ?lookup_empty; try done; [lia|].
  eapply (index_ok _ _ gs gs ∅ ∅ ∅); [|done| |exact Ex]; [by exists 0%nat, gs|]. split; intros ??; by rewrite lookup_empty.
Qed.

Lemma cache_reach timeout c gs w :
  New None (Ok gs) None None timeout = Ok c → rtc step (boot c gs) w → w_installs w < 2 ^ 64 → world_inv w.
Proof.
  intros Hn Hr. revert w Hr. refine (rtc_ind_r _ _ _ _); [|intros w1 w2 _ Hs IH Hb].
  - intros _. by eapply boot_inv.
  - eapply world_step_inv; [exact Hs|done|]. apply IH. apply installs_mono in Hs. lia.
Qed.

(** C26: Whatever the interleaving of refreshes, misses and changes of the database, every
    cached group is stored under its own ID and name, has valid credentials, and was
    active in the database at some moment not before the current snapshot was read: a
    slow miss never restores a group that a later complete load no longer had. *)
Theorem cached_groups_fresh timeout c gs w g :
  New None (Ok gs) None None timeout = Ok c → rtc step (boot c gs) w → w_installs w < 2 ^ 64 →
  (∀ id, c_byID (w_cache w) !! id = Some g → gc_ID g = id) ∧ (∀ name, c_byName (w_cache w) !! name = Some g → gc_Name g = name) ∧
  ((∃ id, c_byID (w_cache w) !! id = Some g) ∨ (∃ name, c_byName (w_cache w) !! name = Some g) ∨ Contains (w_cache w) g = true →
     validate g = Ok () ∧ ∃ moment active, (w_loaded w ≤ moment)%nat ∧ w_history w !! moment = Some active ∧ g ∈ active).
Proof.
  intros Hn Hr Hb. destruct (cache_reach _ _ _ _ Hn Hr Hb) as [[_ _ [Hi Hna] _] _ _].
  split_and!; [intros id ?%Hi; tauto|intros name ?%Hna; tauto|].
  intros [[id Hx]|[[name Hx]|Hx]]; [by apply Hi in Hx as [_ ?]|by apply Hna in Hx as [_ ?]|].
  apply bool_decide_eq_true in Hx. by apply Hi in Hx as [_ ?].
Qed.

(** The answer of a lookup is true of the database: a returned group has the ID or name
    asked for and was active, and "not found" is answered only if no active group had it,
    at a moment not before the snapshot that was current at the call (or at the call of
    the lookup it joined) was read; and two lookups never query for the same key at once. *)
Theorem lookup_answers_hold timeout c gs w t l r :
  New None (Ok gs) None None timeout = Ok c → rtc step (boot c gs) w → w_installs w < 2 ^ 64 →
  w_lookups w !! t = Some l → lk_stage l = Finished r →
  match r with
  | Ok g => matches (lk_key l) g = true ∧ validate g = Ok () ∧
      ∃ moment active, (lk_since l ≤ moment)%nat ∧ w_history w !! moment = Some active ∧ g ∈ active
  | Fail e => errors_is e ErrNotFound = true →
      ∃ moment active, (lk_since l ≤ moment)%nat ∧ w_history w !! moment = Some active ∧ ∀ g, g ∈ active → matches (lk_key l) g = false
  end ∧
  ∀ t1 l1 t2 l2, w_lookups w !! t1 = Some l1 → w_lookups w !! t2 = Some l2 → lk_key l1 = lk_key l2 →
    is_Some (leads (lk_stage l1)) → is_Some (leads (lk_stage l2)) → t1 = t2.
Proof.
  intros Hn Hr Hb Hl Hst. destruct (cache_reach _ _ _ _ Hn Hr Hb) as [_ HL HF]. split.
  - destruct (HL _ _ Hl) as [_ Ha]. rewrite Hst in Ha. by destruct r.
  - intros t1 l1 t2 l2 H1 H2 Hk [f1 Hf1] [f2 Hf2]. destruct (fi_leader _ HF _ _ _ H1 Hf1) as [E1 _], (fi_leader _ HF _ _ _ H2 Hf2) as [E2 _].
    rewrite Hk in E1. simplify_eq. by eapply (fi_alone _ HF).
Qed.
End invariant.

(** ** A group created after the snapshot is found by a miss *)

Section demo.
#[local] Instance cache_uuid : UuidLib :=
  {| Version := λ _, 4; VariantRFC4122 := λ _, true; ParseUUID := λ _, Some 1; StringUUID := λ _, "e" |}.

Definition cache_group : ExecutorGroupConfig :=
  {| gc_ID := 5; gc_Name := "g"; gc_DiscoveryKey := "k"; gc_Token := "11111111111141118111111111111111" |}.
Definition cache_demo (byID : gmap Z ExecutorGroupConfig) (byName : gmap string ExecutorGroupConfig) (flights : gmap lookupKey Z) : Cache :=
  {| c_generation := 1; c_byID := byID; c_byName := byName; c_flights := flights; c_observers := ∅; c_nextObserver := 0; c_runStarted := false |}.
Definition world_demo (c : Cache) (stage : Stage) (flights : gmap Z lookupFlight) (next : Z) : World :=
  {| w_cache := c; w_refresh := NotRefreshing; w_lookups := {[7 := {| lk_key := (5, ""); lk_since := 0; lk_stage := stage |}]};
     w_flights := flights; w_next := next; w_history := [[]; [cache_group]]; w_loaded := 0; w_installs := 1 |}.
Definition flight_demo (r : option (Result ExecutorGroupConfig)) : gmap Z lookupFlight :=
  {[1 := {| fl_result := r; fl_key := (5, ""); fl_since := 0 |}]}.
Definition found_demo : World :=
  world_demo (cache_demo {[5 := cache_group]} {["g" := cache_group]} ∅) (Finished (Ok cache_group)) (flight_demo (Some (Ok cache_group))) 2.

Lemma found_demo_reached : rtc step (boot (cache_demo ∅ ∅ ∅) []) found_demo.
Proof.
  pose (l0 := {| lk_key := (5, ""); lk_since := 0; lk_stage := Called |}).
  eapply rtc_l; [apply (step_database _ [cache_group])|].
  eapply rtc_l; [apply (step_call _ 7 (5, "")); [left; by exists 5|evaluate]|].
  apply (rtc_l step _ (world_demo (cache_demo ∅ ∅ ∅) Missed ∅ 1)).
  { exact (step_read (world_demo (cache_demo ∅ ∅ ∅) Called ∅ 1) 7 l0 None eq_refl eq_refl I). }
  apply (rtc_l step _ (world_demo (cache_demo ∅ ∅ {[(5, "") := 1]}) (Leading 1) (flight_demo None) 2)).
  { exact (step_join_lead (world_demo (cache_demo ∅ ∅ ∅) Missed ∅ 1) 7 _ (cache_demo ∅ ∅ {[(5, "") := 1]}) eq_refl eq_refl eq_refl). }
  apply (rtc_l step _ (world_demo (cache_demo ∅ ∅ {[(5, "") := 1]}) (Querying 1 1) (flight_demo None) 2)).
  { exact (step_head (world_demo (cache_demo ∅ ∅ {[(5, "") := 1]}) (Leading 1) (flight_demo None) 2) 7 _ 1 None eq_refl eq_refl I). }
  apply (rtc_l step _ (world_demo (cache_demo ∅ ∅ {[(5, "") := 1]}) (Queried 1 1 (Ok cache_group)) (flight_demo None) 2)).
  { exact (step_query (world_demo (cache_demo ∅ ∅ {[(5, "") := 1]}) (Querying 1 1) (flight_demo None) 2) 7 _ 1 1 [cache_group] (Ok (Some cache_group)) None
      eq_refl eq_refl eq_refl ltac:(by left) I). }
  apply (rtc_l step _ (world_demo (cache_demo {[5 := cache_group]} {["g" := cache_group]} {[(5, "") := 1]}) (Landing 1 (Ok cache_group)) (flight_demo None) 2)).
  { exact (step_tail (world_demo (cache_demo ∅ ∅ {[(5, "") := 1]}) (Queried 1 1 (Ok cache_group)) (flight_demo None) 2) 7 _ 1 1 _
      (cache_demo {[5 := cache_group]} {["g" := cache_group]} {[(5, "") := 1]}) _ eq_refl eq_refl eq_refl). }
  apply rtc_once.
  exact (step_land (world_demo (cache_demo {[5 := cache_group]} {["g" := cache_group]} {[(5, "") := 1]}) (Landing 1 (Ok cache_group)) (flight_demo None) 2) 7 _ 1 _
    {| fl_result := None; fl_key := (5, ""); fl_since := 0 |} eq_refl eq_refl eq_refl).
Qed.

Lemma cached_groups_fresh_witness :
  ∃ moment active, (0 ≤ moment)%nat ∧ w_history found_demo !! moment = Some active ∧ cache_group ∈ active.
Proof.
  destruct (cached_groups_fresh 1 (cache_demo ∅ ∅ ∅) [] found_demo cache_group) as (_ & _ & Hx);
    [evaluate|exact found_demo_reached|evaluate|]. apply Hx. left. by exists 5.
Defined.

Lemma lookup_answers_hold_witness : matches (5, "") cache_group = true ∧ validate cache_group = Ok ().
Proof.
  destruct (lookup_answers_hold 1 (cache_demo ∅ ∅ ∅) [] found_demo 7 {| lk_key := (5, ""); lk_since := 0; lk_stage := Finished (Ok cache_group) |} (Ok cache_group))
    as [(H1 & H2 & _) _]; [evaluate|exact found_demo_reached|evaluate|evaluate|done|done].
Defined.
End demo.
