(* ===== verification/JobRequests.v ===== *)
(** * What the Job RPC service accepts can be executed

    Theorems about the request validation of JobLogic.v and its neighbours: accepted
    definitions fit the tables, can be enabled and dispatched; created groups can be
    cached, dispatched to and authenticated; refusals keep their meaning across the RPC
    boundary. *)

From S2P Require Import Prelude GoLib Tx Model TaskRepo InstanceRepo JobRepo Trigger Dispatcher StopController RpcErrors JobLogic.
From S2P Require Import Logic Protocol Transitions RepoRules Management System Snapshot ResultSaver ResultQueue GoText HintSpec Executor Reporter ExecutionRPC GroupCache.

Open Scope string_scope.
Open Scope list_scope.
Open Scope Z_scope.

(** ** Texts *)

(** A trimmed text that fits a column of [capacity] characters; 0 is unlimited. *)
Record text_ok (required : bool) (capacity : Z) (t : string) : Prop := {
  to_valid : ValidString t = true;
  to_nul : ContainsNul t = false;
  to_trimmed : TrimSpace t = t;
  to_required : required = true → t ≠ "";
  to_capacity : 0 < capacity → RuneCountInString t ≤ capacity;
}.

Lemma normalizeText_ok v required capacity t : normalizeText v required capacity = Ok t → t = TrimSpace v ∧ text_ok required capacity t.
Proof.
  unfold normalizeText. destruct (_ || _) eqn:E1; [done|]. apply orb_false_iff in E1 as [Ev%negb_false_iff En].
  destruct (_ || _) eqn:E2; [done|]. intros [= <-]. split; [done|]. apply orb_false_iff in E2 as [Er Ec]. split.
  - by apply ValidString_TrimSpace.
  - by apply ContainsNul_TrimSpace.
  - by apply TrimSpace_idem.
  - intros ->. simpl in Er. by apply bool_decide_eq_false in Er.
  - intros Hc. apply Z.ltb_lt in Hc. rewrite Hc in Ec. simpl in Ec. by apply Z.ltb_ge in Ec.
Qed.

Lemma text_ok_normal required capacity t : text_ok required capacity t → normalizeText t required capacity = Ok t.
Proof.
  intros [Hv Hn Ht Hr Hc]. unfold normalizeText. rewrite Hv, Hn, Ht. simpl.
  assert (required && bool_decide (t = "") = false) as ->.
  { destruct required; [|done]. simpl. apply bool_decide_eq_false. auto. }
  destruct (Z.ltb_spec 0 capacity) as [Hp|]; simpl; [|done]. by rewrite (proj2 (Z.ltb_ge _ _)) by auto.
Qed.

Lemma text_ok_column required capacity t : 0 < capacity → text_ok required capacity t → varchar_error capacity t = None.
Proof.
  intros Hc [Hv Hn _ _ Hcap]. unfold varchar_error, pg_text. rewrite Hv, Hn. simpl. by rewrite (proj2 (Z.ltb_ge _ _)) by auto.
Qed.

(** ** Definitions *)

(** The widths of the wire types. *)
Definition wire_ranged (input : JobInput) : bool :=
  forallb (λ o, match o with Some v => in_int32 v | None => true end)
    [ji_ExecutionMode input; ji_MisfirePolicy input; ji_BlockPolicy input; ji_MaxRetries input; ji_RetryIntervalSeconds input] &&
  in_int32 (ji_TimeoutSeconds input).

(** A definition whose every column holds what the code expects of it. *)
Record definition_typed (j : JobDefinition) : Prop := {
  dt_name : text_ok true 128 (j_name j);
  dt_remark : text_ok false 500 (j_remark j);
  dt_processor : text_ok true 128 (j_processor_name j);
  dt_params : text_ok false 0 (j_params j);
  dt_cron : text_ok true 128 (j_cron_expr j);
  dt_group : 0 < j_executor_group_id j;
  dt_mode : j_execution_mode j = ExecutionModeNormal ∧ j_post_enabled j = false ∨ j_execution_mode j = ExecutionModeSharded;
  dt_misfire : j_misfire_policy j = MisfireIgnore ∨ j_misfire_policy j = MisfireOnce;
  dt_block : j_block_policy j = BlockDiscard ∨ j_block_policy j = BlockParallel;
  dt_retries : 0 ≤ j_max_retries j ≤ MaxInt32;
  dt_interval : 0 < j_retry_interval_seconds j ≤ MaxInt32;
  dt_timeout : 0 < j_timeout_seconds j ≤ MaxInt32;
}.

Lemma in_int32_le z : in_int32 z = true → z ≤ MaxInt32.
Proof. unfold in_int32. intros. to_prop. lia. Qed.

Lemma ranged_default (o : option Z) (v : Z) :
  match o with Some v => in_int32 v | None => true end = true → v ≤ MaxInt32 → default v o ≤ MaxInt32.
Proof. destruct o; simpl; [intros ?%in_int32_le|]; done. Qed.

Section definitions.
Context `{CronLib}.

Lemma normalizeInput_typed input create now j :
  wire_ranged input = true → normalizeInput (Some input) create now = Ok j → definition_typed j.
Proof.
  intros Hw. unfold wire_ranged in Hw. simpl in Hw. rewrite !andb_true_iff in Hw. destruct Hw as ((W1 & W2 & W3 & W4 & W5 & _) & W6).
  unfold normalizeInput. destruct (_ || _) eqn:E1; [done|]. apply orb_false_iff in E1 as [Eg%Z.leb_gt Et%Z.leb_gt]. destruct (_ && _); [done|].
  destruct (_ || _) eqn:E2; [done|]. rewrite !orb_false_iff in E2. destruct E2 as (((((Em & Ep) & Emi) & Ebl) & Er%Z.ltb_ge) & Ei%Z.leb_gt).
  destruct (_ || _); [done|].
  destruct (normalizeText (ji_Name input) _ _) as [name|] eqn:T1; [|done]. cbn [result_bind].
  destruct (normalizeText (ji_Remark input) _ _) as [remark|] eqn:T2; [|done]. cbn [result_bind].
  destruct (normalizeText (ji_ProcessorName input) _ _) as [processor|] eqn:T3; [|done]. cbn [result_bind].
  destruct (normalizeText (ji_Params input) _ _) as [params|] eqn:T4; [|done]. cbn [result_bind].
  destruct (normalizeText (ji_CronExpr input) _ _) as [cron|] eqn:T5; [|done]. cbn [result_bind].
  destruct (Next cron now); [|done]. intros [= <-].
  split; simpl; try (by eapply normalizeText_ok); try done.
  - unfold ExecutionMode_of. destruct (default 1 (ji_ExecutionMode input) =? 1); [left; by split|]. right.
    destruct (default 1 (ji_ExecutionMode input) =? 2); [done|discriminate Em].
  - unfold MisfirePolicy_of. destruct (default 0 (ji_MisfirePolicy input) =? 0); [by left|]. right.
    destruct (default 0 (ji_MisfirePolicy input) =? 1); [done|discriminate Emi].
  - unfold BlockPolicy_of. destruct (default 0 (ji_BlockPolicy input) =? 0); [by left|]. right.
    destruct (default 0 (ji_BlockPolicy input) =? 1); [done|discriminate Ebl].
  - split; [done|]. by apply ranged_default.
  - split; [done|]. by apply ranged_default.
  - split; [done|]. by apply in_int32_le.
Qed.
End definitions.

Lemma typed_fits j : definition_typed j → job_error j = None.
Proof.
  intros [T1 T2 T3 T4 T5 _ _ _ _ _ _ _]. unfold job_error.
  erewrite !text_ok_column; [|done..].
  unfold pg_text. destruct T4 as [-> -> _ _ _]. done.
Qed.

Lemma typed_enables j : definition_typed j → validateStoredDefinition j = Ok ().
Proof.
  intros [T1 T2 T3 T4 T5 Tg Tm Tmi Tb Tr Ti Tt]. unfold validateStoredDefinition.
  rewrite !text_ok_normal by done. simpl.
  rewrite (proj2 (Z.leb_gt _ _) Tg), (proj2 (Z.ltb_ge _ _) (proj1 Tr)), (proj2 (Z.leb_gt _ _) (proj1 Ti)), (proj2 (Z.leb_gt _ _) (proj1 Tt)).
  destruct Tm as [[-> ->]| ->], Tmi as [-> | ->], Tb as [-> | ->]; done.
Qed.

(** C38: Every definition the service accepts is well typed: its texts are trimmed, valid and
    within their columns, its enumerations have named codes, its numbers are positive and
    fit int32; so it can be stored without a data error and passes the checks of a later
    enabling. *)
Theorem accepted_definition_typed `{CronLib} input create now j :
  wire_ranged input = true → normalizeInput (Some input) create now = Ok j →
  definition_typed j ∧ job_error j = None ∧ validateStoredDefinition j = Ok ().
Proof. intros Hw Hn. pose proof (normalizeInput_typed _ _ _ _ Hw Hn). auto using typed_fits, typed_enables. Qed.

Lemma accepted_definition_typed_witness :
  ∃ j, normalizeInput (Some demo_job_input) false 100 = Ok j ∧ definition_typed j ∧ job_error j = None ∧ validateStoredDefinition j = Ok ().
Proof.
  eexists. split; [evaluate|]. apply (accepted_definition_typed demo_job_input false 100); evaluate.
Defined.

(** ** Dispatch *)

(** The snapshots triggers freeze for a definition: its own parameters, or those of an
    accepted manual request. *)
Definition frozen_config `{UuidLib} (j : JobDefinition) (config : ExecutionConfig) : Prop :=
  config = snapshot_config j ∨ ∃ req trigger, normalizeTrigger req = Ok trigger ∧ config = manual_config j trigger.

Lemma trigger_params_ok `{UuidLib} req trigger :
  normalizeTrigger req = Ok trigger → text_ok false 0 (mt_Params trigger).
Proof.
  unfold normalizeTrigger. destruct (tj_ParamsOverridden req); [|done]. destruct (_ || _); [done|]. destruct (_ || _); [done|].
  destruct (ParseUUID _); [|done]. destruct (negb _); [done|].
  destruct (tj_Params req) as [params|]; [destruct (normalizeText params false 0) eqn:E; [|done]|]; simpl; intros [= <-]; simpl.
  - by eapply normalizeText_ok.
  - split; by try done.
Qed.

Lemma frozen_config_fields `{UuidLib} j config :
  definition_typed j → frozen_config j config →
  SchemaVersion config = 1 ∧ ProcessorName config = j_processor_name j ∧ Mode config = j_execution_mode j ∧ PostEnabled config = j_post_enabled j ∧
  MaxRetries config = j_max_retries j ∧ RetryIntervalSeconds config = j_retry_interval_seconds j ∧ TimeoutSeconds config = j_timeout_seconds j ∧
  text_ok false 0 (Params config).
Proof.
  intros Hj [->|(req & trigger & Ht & ->)]; [by destruct Hj|]. unfold manual_config.
  destruct (mt_ParamsOverridden trigger); simpl; [|by destruct Hj]. split_and!; try done. by eapply trigger_params_ok.
Qed.

Lemma typed_config_ranged `{UuidLib} j config :
  definition_typed j → frozen_config j config → config_ranged config = true.
Proof.
  intros Hj Hf. destruct (frozen_config_fields _ _ Hj Hf) as (Es & _ & Em & _ & Er & Ei & Et & _).
  unfold config_ranged, in_int32. rewrite Es, Em, Er, Ei, Et. destruct Hj as [_ _ _ _ _ _ Hm _ _ Hr Hi Ht].
  assert (in_int16 (ExecutionMode_code (j_execution_mode j)) = true) as -> by (by destruct Hm as [[-> _]| ->]).
  rewrite !andb_true_iff, !Z.leb_le. unfold MaxInt32 in *. lia.
Qed.

(** C37: What the service accepts can be executed: the snapshot any trigger freezes for an
    accepted ordinary definition is read back as it is by attempt registration, and the
    scheduler can build a dispatch request from it; no accepted Job gets stuck on a
    check further down. *)
Theorem accepted_job_dispatchable `{CronLib, UuidLib, TimestampLib} input create now j config attempt :
  wire_ranged input = true → normalizeInput (Some input) create now = Ok j → j_execution_mode j = ExecutionModeNormal →
  frozen_config j config →
  decodeConfig (Value config) = Ok config ∧
  (ra_ExecutionConfig attempt = config → 0 < ra_JobID attempt → 0 < ra_InstanceID attempt → 0 < ra_ExecutorGroupID attempt →
   0 < ra_TaskID attempt → 0 < ra_AttemptNo attempt → ra_DeadlineAt attempt ≠ 0 → CheckValid (TimestampNew (ra_DeadlineAt attempt)) = true →
   ∃ q, ordinaryDispatchRequest attempt = Ok q).
Proof.
  intros Hw Hn Hm Hf. pose proof (normalizeInput_typed _ _ _ _ Hw Hn) as Hj. pose proof (typed_config_ranged _ _ Hj Hf) as Hr.
  destruct (frozen_config_fields _ _ Hj Hf) as (Es & Ep & Em & Epo & Er & Ei & Et & [Pv Pn _ _ _]).
  destruct Hj as [_ _ [Nv Nn Nt Nr Nc] _ _ _ Hmo _ _ Hre Hin Hti].
  assert (j_post_enabled j = false) as Hpo by (destruct Hmo as [[_ ?]|Hs]; [done|congruence]).
  assert (bool_decide (j_processor_name j = "") = false) as Hne by (apply bool_decide_eq_false; auto).
  assert (128 <? RuneCountInString (j_processor_name j) = false) as Hcap by (apply Z.ltb_ge; auto with lia).
  split.
  - assert (Scan (Value config) = Some config) as Hs.
    { rewrite Scan_Value_eq, Hr. f_equal. clear -Em Hm. destruct config as [sv pn mo pe pa mr ri ts]. simpl in *. by rewrite Em, Hm. }
    unfold decodeConfig. rewrite Hs, Es. simpl. unfold valid_processor_name.
    rewrite Em, Hm, Epo, Hpo, Er, Ei, Et, Ep, Nv, Nn, Nt, Pv, Pn, Hne. simpl.
    rewrite (proj2 (Z.ltb_ge _ _) (proj1 Hre)), (proj2 (Z.leb_gt _ _) (proj1 Hin)), (proj2 (Z.leb_gt _ _) (proj1 Hti)). simpl.
    by rewrite (proj2 (Z.leb_le _ _)) by (by apply Z.ltb_ge).
  - intros Ea J1 J2 J3 J4 J5 Hd Hv. unfold ordinaryDispatchRequest. rewrite Ea, Es, Em, Hm, Epo, Hpo, Ep, Nv, Nn, Nt, Pv, Pn, Hne, Hcap, Hv.
    rewrite (proj2 (Z.leb_gt _ _) J1), (proj2 (Z.leb_gt _ _) J2), (proj2 (Z.leb_gt _ _) J3), (proj2 (Z.leb_gt _ _) J4), (proj2 (Z.leb_gt _ _) J5).
    simpl. rewrite (bool_decide_eq_true_2 (j_processor_name j = _)) by done. simpl. unfold is_zero. apply Z.eqb_neq in Hd. rewrite Hd. simpl. eauto.
Qed.

#[local] Instance request_timestamp : TimestampLib :=
  {| Timestamp := Time; TimestampNew := λ t, t; CheckValid := λ _, true; AsTime := λ t, t |}.
Definition request_attempt (config : ExecutionConfig) : RegisteredAttempt :=
  {| ra_JobID := 1; ra_InstanceID := 1; ra_ExecutorGroupID := 1; ra_TaskID := 1; ra_AttemptNo := 1; ra_ExecutionConfig := config;
     ra_RegisteredAt := 300; ra_DeadlineAt := 400 |}.

Lemma accepted_job_dispatchable_witness :
  ∃ j, normalizeInput (Some demo_job_input) true 100 = Ok j ∧ ∃ q, ordinaryDispatchRequest (request_attempt (snapshot_config j)) = Ok q.
Proof.
  eexists. split; [evaluate|].
  eapply (accepted_job_dispatchable demo_job_input true 100 _ _ (request_attempt _)); [evaluate|evaluate|done|by left|done..].
Defined.

(** ** Groups *)

(** github.com/google/uuid, as documented: NewRandom returns version 4 identities of the RFC
    4122 variant, whose text without hyphens is 32 lower-case hexadecimal digits that
    Parse reads back. *)
Definition uuid_documented `{UuidLib, UuidRandom} : Prop :=
  ∀ n u, NewRandom n = Ok u →
    Version u = 4 ∧ VariantRFC4122 u = true ∧ String.length (remove_hyphens (StringUUID u)) = 32%nat ∧
    forallb token_rune (runes (bytes (remove_hyphens (StringUUID u)))) = true ∧ ParseUUID (remove_hyphens (StringUUID u)) = Some u.

Section groups.
Context `{UuidLib, PgLib, UuidRandom}.

Lemma validGroupIdentity_spec v capacity :
  validGroupIdentity v capacity = true →
  v ≠ "" ∧ v = TrimSpace v ∧ ValidString v = true ∧ ContainsNul v = false ∧ RuneCountInString v ≤ capacity.
Proof.
  unfold validGroupIdentity. rewrite !andb_true_iff, !negb_true_iff, bool_decide_eq_false, bool_decide_eq_true, Z.leb_le. tauto.
Qed.

Lemma new_group_valid name key n u :
  uuid_documented → validGroupIdentity name 128 = true → NewRandom n = Ok u →
  ValidateCredentials name (g_token (new_group name key u)) = Ok ().
Proof.
  intros Hu (N1 & N2 & N3 & N4 & N5)%validGroupIdentity_spec Hn. destruct (Hu _ _ Hn) as (U1 & U2 & U3 & U4 & U5).
  unfold ValidateCredentials, validExecutionName. simpl. rewrite U3, U4, U5, U1, U2, N3, N4, <- N2.
  rewrite (bool_decide_eq_false_2 _ N1), bool_decide_eq_true_2 by done. by rewrite (proj2 (Z.leb_le _ _) N5).
Qed.

(** A created row carries what the handler asked for. *)
Lemma CreateGroup_wp g d o :
  wp (CreateGroup Auto g) d o (λ r d' _, ∀ id, r = Ok id → ∃ now, groups d' !! id = Some { g with g_created_at := now; g_updated_at := now; g_deleted_at := None }).
Proof.
  unfold CreateGroup. apply wp_bind, wp_attempt, wp_stmt. intros ev d1 HI _.
  destruct (group_error g) as [e|]; simpl; [split_and!; [apply guarantee_refl|by apply wp_fail|intros e'; split; by apply wp_fail]|].
  destruct (group_conflict g d1); simpl; [split_and!; [apply guarantee_refl|by apply wp_fail|intros e'; split; by apply wp_fail]|].
  split_and!; [|apply wp_ret; intros id [= <-]; exists (ev_clock ev); simpl; by rewrite lookup_insert_eq|intros e'; split; by apply wp_fail].
  by apply created_group_keeps.
Qed.

(** A created group can be used: whatever other sessions do, when CreateExecutorGroup
    answers with an ID, the stored row has the requested name and discovery key and a
    token that the scheduler's group cache accepts, the dispatch client accepts, and an
    executor configured with it accepts. *)
Theorem created_group_usable name key d env w id :
  uuid_documented → rely env → db_inv d → CreateExecutorGroupLogic name key (Tx.start d env) = (w, Ok id) →
  ∃ g, groups (w_db w) !! id = Some g ∧ g_name g = name ∧ g_discovery_key g = key ∧
    GroupCache.validate (group_config (id, g)) = Ok () ∧
    NewAuthenticator name (g_token g) = Ok {| au_groupName := name; au_token := g_token g |}.
Proof.
  intros Hu Hr HI Hrun.
  assert (wp (CreateExecutorGroupLogic name key) d [] (λ r d' _, ∀ id, r = Ok id → ∃ n u now,
    validGroupIdentity name 128 = true ∧ validGroupIdentity key 255 = true ∧ NewRandom n = Ok u ∧ 0 < id ∧
    groups d' !! id = Some { new_group name key u with g_created_at := now; g_updated_at := now; g_deleted_at := None })) as Hwp.
  { unfold CreateExecutorGroupLogic. guard as E; [by apply wp_lift|]. apply orb_false_iff in E as [E1%negb_false_iff E2%negb_false_iff].
    apply wp_bind. unfold map_error. apply wp_bind, wp_attempt, wp_rpc. intros n. destruct (NewRandom n) as [u|e] eqn:En; [|by apply wp_fail].
    apply wp_ret. apply wp_bind, wp_bind, wp_attempt. eapply wp_mono; [apply CreateGroup_wp|].
    intros [id'|e] d' o' _ _ Hg; [|by apply wp_fail]. apply wp_ret. destruct (Z.leb_spec id' 0); [by apply wp_fail|].
    apply wp_ret. intros ? [= <-]. destruct (Hg id' eq_refl) as [now Hrow]. exists n, u, now. by split_and!. }
  destruct (wp_start _ _ _ _ _ _ Hwp Hr HI Hrun) as (_ & _ & Hq). destruct (Hq id eq_refl) as (n & u & now & V1 & V2 & Hn & Hid & Hrow).
  eexists. split; [exact Hrow|]. pose proof (new_group_valid name key n u Hu V1 Hn) as Hc. simpl in Hc. split_and!; [done|done| |].
  - unfold GroupCache.validate. simpl. rewrite (proj2 (Z.leb_gt _ _) Hid), Hc. apply validGroupIdentity_spec in V2 as (K1 & K2 & K3 & K4 & K5).
    rewrite (bool_decide_eq_false_2 _ K1), <- K2, bool_decide_eq_true_2, K3, K4 by done. simpl. by rewrite (proj2 (Z.ltb_ge _ _)).
  - unfold NewAuthenticator. simpl. by rewrite Hc.
Qed.
End groups.

Section group_demo.
#[local] Instance group_uuid : UuidLib :=
  {| Version := λ _, 4; VariantRFC4122 := λ _, true; ParseUUID := λ _, Some 1; StringUUID := λ _, "11111111-1111-4111-8111-111111111111" |}.
#[local] Instance group_random : UuidRandom := λ _, Ok 1.

Lemma created_group_usable_witness :
  ∃ w g, CreateExecutorGroupLogic "g" "k" (Tx.start empty_db (calm 5)) = (w, Ok 1) ∧ groups (w_db w) !! 1 = Some g ∧
    GroupCache.validate (group_config (1, g)) = Ok ().
Proof.
  eexists. destruct (created_group_usable "g" "k" empty_db (calm 5)
    (CreateExecutorGroupLogic "g" "k" (Tx.start empty_db (calm 5))).1 1) as (g & Hg & _ & _ & Hv & _);
    [intros n u [= <-]; by split_and!|apply calm_rely|apply empty_db_inv|evaluate|].
  exists g. split; [evaluate|]. split; [exact Hg|exact Hv].
Defined.
End group_demo.

(** ** Refusals *)

(** The causes of the Job domain and the subcodes clients see. *)
Definition refusals : list (Cause * string) :=
  [(ErrJobNotFound, JobNotFound); (ErrJobStateNotAllowed, JobStateNotAllowed);
   (ErrExecutorGroupUnavailable, JobExecutorGroupUnavailable); (ErrExecutorGroupUnavailable, ExecutorGroupNotFound);
   (ErrExecutorGroupNameExists, ExecutorGroupNameExists); (ErrExecutorGroupDiscoveryKeyExists, ExecutorGroupDiscoveryKeyExists);
   (ErrInstanceNotFound, InstanceNotFound); (ErrBlocked, JobTriggerBlocked); (ErrRequestConflict, JobTriggerRequestConflict);
   (ErrCapacityBusy, JobTriggerCapacityBusy)].

Definition mappers (operation : string) : list (Error → Error) :=
  [jobManagementError operation; executorGroupError operation; instanceQueryError operation; manualTriggerError].

Lemma rpcOperationError_From operation e : From (rpcOperationError operation e) = From e.
Proof. unfold rpcOperationError. by destruct (errors_is e ContextErr). Qed.

(** A mapper adds a business error only for a cause of the table. *)
Lemma mapper_refusal operation f e code subcode message :
  f ∈ mappers operation → From e = None → From (f e) = Some (code, subcode, message) →
  code = DefaultCode ∧ ∃ c, c ∈ e ∧ (c, subcode) ∈ refusals.
Proof.
  assert (∀ c s, errors_is e c = true → (c, s) ∈ refusals → DefaultCode = DefaultCode ∧ ∃ c', c' ∈ e ∧ (c', s) ∈ refusals) as Hin.
  { intros c s Hc%bool_decide_eq_true Hr. eauto. }
  intros Hf Hn. unfold mappers in Hf. repeat rewrite elem_of_cons in Hf.
  destruct Hf as [->|[->|[->|[->|Hf]]]]; [..|by apply elem_of_nil in Hf];
    unfold jobManagementError, executorGroupError, instanceQueryError, manualTriggerError;
    repeat match goal with |- context [if errors_is e ?c then _ else _] => destruct (errors_is e c) eqn:? end;
    rewrite ?rpcOperationError_From, ?Hn; intros Hs;
    first [discriminate Hs|injection Hs as <- <- _; eapply Hin; [eassumption|unfold refusals; repeat first [left|right]]].
Qed.

(** C39: A refusal tells the truth across the RPC boundary: when one of the four error mappers
    of the Job handlers turns a failure into a business error, the client reads exactly that
    subcode from the status it receives, and the failure really had the cause the subcode
    stands for.  Business errors that a handler raises itself do not pass through a mapper. *)
Theorem refusals_cross_boundary `{GrpcLib} {A} operation f e code subcode message :
  grpc_convert_status → f ∈ mappers operation → From e = None → From (f e) = Some (code, subcode, message) →
  ∃ e', UnaryServerInterceptor (Fail (f e) : Result A) = Fail e' ∧ SubcodeFromStatus (Convert e') = Some subcode ∧
    st_code (Convert e') = DefaultCode ∧ st_message (Convert e') = message ∧ ∃ c, c ∈ e ∧ (c, subcode) ∈ refusals.
Proof.
  intros Hg Hf Hn Hs. destruct (mapper_refusal _ _ _ _ _ _ Hf Hn Hs) as [-> (c & Hc & Hr)].
  destruct (interceptor_business (A:=A) DefaultCode subcode message (f e) Hg Hs) as (e' & He & Hok & _). exists e'.
  assert (IsSubcode subcode = true) as Hsub.
  { assert (Forall (λ r, IsSubcode r.2 = true) refusals) as Hall by (repeat constructor). rewrite Forall_forall in Hall. exact (Hall _ Hr). }
  destruct (Hok (conj eq_refl Hsub)) as (? & ? & ?). split_and!; eauto.
Qed.

#[local] Instance request_grpc : GrpcLib := λ e,
  match e with
  | [StatusErr code message reasons] => {| st_code := code; st_message := message; st_reasons := reasons |}
  | _ => {| st_code := 2; st_message := ""; st_reasons := [] |}
  end.

Lemma refusals_cross_boundary_witness :
  ∃ e', UnaryServerInterceptor (Fail (manualTriggerError [Text "trigger"; ErrBlocked]) : Result unit) = Fail e' ∧
    SubcodeFromStatus (Convert e') = Some JobTriggerBlocked.
Proof.
  destruct (refusals_cross_boundary (A:=unit) "trigger" manualTriggerError [Text "trigger"; ErrBlocked] DefaultCode JobTriggerBlocked
    "存在未结束的实例，本次触发被阻塞") as (e' & He & Hs & _); [done|right; right; right; left|done|evaluate|]. exists e'. split; [exact He|exact Hs].
Defined.
