(* ===== verification/TriggerQueue.v ===== *)
(** * The trigger queue of a leader term

    apps/job/rpc/internal/scheduler/queue.go: Job IDs waiting for an automatic trigger, in
    a ring buffer, coalesced by ID, with a capacity that counts the IDs in the hands of
    workers too.  The reference [TriggerSpec] is a plain first-in first-out list with two
    sets; the ring buffer is proved to answer every sequence of calls as it does, without
    an out-of-range access or a nil dereference. *)

From S2P Require Import Prelude GoLib Model.

Open Scope Z_scope.

Record pendingJob := { pj_processing : bool; pj_dirty : bool }.

Record jobQueue := {
  jq_jobs : gmap Z pendingJob; jq_buffer : list Z; jq_head : Z; jq_size : Z; jq_closed : bool;
}.

Definition newJobQueue (capacity : Z) : jobQueue :=
  {| jq_jobs := ∅; jq_buffer := replicate (Z.to_nat capacity) 0; jq_head := 0; jq_size := 0; jq_closed := false |}.

(** [len(q.buffer)] *)
Definition buffer_len (q : jobQueue) : Z := Z.of_nat (length (jq_buffer q)).

Definition push (q : jobQueue) (id : Z) : jobQueue :=
  { q with jq_buffer := <[Z.to_nat ((jq_head q + jq_size q) `mod` buffer_len q) := id]> (jq_buffer q);
           jq_size := jq_size q + 1 }.

Definition offer (q : jobQueue) (id : Z) : jobQueue * bool :=
  if jq_closed q then (q, false)
  else match jq_jobs q !! id with
  | Some existing =>
      (if pj_processing existing then { q with jq_jobs := <[id := { existing with pj_dirty := true }]> (jq_jobs q) } else q, true)
  | None =>
      if Z.of_nat (size (jq_jobs q)) =? buffer_len q then (q, false)
      else (push { q with jq_jobs := <[id := {| pj_processing := false; pj_dirty := false |}]> (jq_jobs q) } id, true)
  end.

(** What a caller of [take] finds: nothing yet, a closed queue, an ID; [TakePanic] is an
    index out of range or a nil entry. *)
Inductive Taken := TakeWait | TakeClosed | TakeID (id : Z) | TakePanic.

Definition take (q : jobQueue) : jobQueue * Taken :=
  if (jq_size q =? 0) && negb (jq_closed q) then (q, TakeWait)
  else if jq_closed q then (q, TakeClosed)
  else match jq_buffer q !! Z.to_nat (jq_head q) with
  | None => (q, TakePanic)
  | Some id =>
      match jq_jobs q !! id with
      | None => (q, TakePanic)
      | Some job =>
          ({ q with jq_head := (jq_head q + 1) `mod` buffer_len q; jq_size := jq_size q - 1;
                    jq_jobs := <[id := { job with pj_processing := true }]> (jq_jobs q) }, TakeID id)
      end
  end.

(** [None]: the entry is nil, a panic. *)
Definition complete (q : jobQueue) (id : Z) : option jobQueue :=
  if jq_closed q then Some q
  else match jq_jobs q !! id with
  | None => None
  | Some job =>
      Some (if pj_dirty job
            then push { q with jq_jobs := <[id := {| pj_processing := false; pj_dirty := false |}]> (jq_jobs q) } id
            else { q with jq_jobs := delete id (jq_jobs q) })
  end.

Definition close (q : jobQueue) : jobQueue := { q with jq_closed := true; jq_jobs := ∅; jq_size := 0 }.

(** ** The reference *)

(** [ts_again]: IDs offered again while a worker has them. *)
Record TriggerSpec := { ts_ready : list Z; ts_active : gset Z; ts_again : gset Z; ts_closed : bool }.

Definition spec_empty : TriggerSpec := {| ts_ready := []; ts_active := ∅; ts_again := ∅; ts_closed := false |}.

Inductive Call := Offer (id : Z) | Take | Complete (id : Z) | Close.
Inductive Reply := Accepted (b : bool) | Got (t : Taken) | Done.

(** [None]: a completion nobody owes, which the callers must not make. *)
Definition spec_call (capacity : Z) (s : TriggerSpec) (c : Call) : option (TriggerSpec * Reply) :=
  match c with
  | Offer id =>
      Some (if ts_closed s then (s, Accepted false)
            else if bool_decide (id ∈ ts_ready s) then (s, Accepted true)
            else if bool_decide (id ∈ ts_active s) then ({ s with ts_again := {[id]} ∪ ts_again s }, Accepted true)
            else if Z.of_nat (length (ts_ready s) + size (ts_active s)) =? capacity then (s, Accepted false)
            else ({ s with ts_ready := ts_ready s ++ [id] }, Accepted true))
  | Take =>
      Some (if ts_closed s then (s, Got TakeClosed)
            else match ts_ready s with
            | [] => (s, Got TakeWait)
            | id :: rest => ({ s with ts_ready := rest; ts_active := {[id]} ∪ ts_active s }, Got (TakeID id))
            end)
  | Complete id =>
      if ts_closed s then Some (s, Done)
      else if bool_decide (id ∈ ts_active s) then
        Some (if bool_decide (id ∈ ts_again s)
              then ({ s with ts_ready := ts_ready s ++ [id]; ts_active := ts_active s ∖ {[id]}; ts_again := ts_again s ∖ {[id]} }, Done)
              else ({ s with ts_active := ts_active s ∖ {[id]} }, Done))
      else None
  | Close => Some ({| ts_ready := []; ts_active := ∅; ts_again := ∅; ts_closed := true |}, Done)
  end.

(** The queue's own answer; [None] is a panic. *)
Definition queue_call (q : jobQueue) (c : Call) : option (jobQueue * Reply) :=
  match c with
  | Offer id => let '(q', b) := offer q id in Some (q', Accepted b)
  | Take => match take q with (_, TakePanic) => None | (q', t) => Some (q', Got t) end
  | Complete id => (λ q', (q', Done)) <$> complete q id
  | Close => Some (close q, Done)
  end.

(** A sequence of calls in the order of the mutex, with its answers. *)
Fixpoint calls {S} (call : S → Call → option (S * Reply)) (s : S) (cs : list Call) : option (S * list Reply) :=
  match cs with
  | [] => Some (s, [])
  | c :: cs => r ← call s c; rest ← calls call r.1 cs; Some (rest.1, r.2 :: rest.2)
  end.

(** ** The ring buffer *)

Definition slot (q : jobQueue) (i : nat) : nat := Z.to_nat ((jq_head q + Z.of_nat i) `mod` buffer_len q).
Definition contents (q : jobQueue) : list Z :=
  (λ i, default 0 (jq_buffer q !! slot q i)) <$> seq 0 (Z.to_nat (jq_size q)).

Definition in_ring (q : jobQueue) : Prop := 0 ≤ jq_head q < buffer_len q ∧ 0 ≤ jq_size q ≤ buffer_len q.

Lemma slot_lt q i : in_ring q → (slot q i < length (jq_buffer q))%nat.
Proof. intros [? _]. unfold slot, buffer_len in *. pose proof (Z.mod_pos_bound (jq_head q + Z.of_nat i) (Z.of_nat (length (jq_buffer q)))). lia. Qed.

(** Distinct positions within one turn of the ring are distinct slots. *)
Lemma slot_inj q i j : in_ring q → Z.of_nat i < buffer_len q → Z.of_nat j < buffer_len q → slot q i = slot q j → i = j.
Proof.
  intros [Hh _] Hi Hj. unfold slot. set (n := buffer_len q) in *. intros E.
  pose proof (Z.mod_pos_bound (jq_head q + Z.of_nat i) n ltac:(lia)). pose proof (Z.mod_pos_bound (jq_head q + Z.of_nat j) n ltac:(lia)).
  assert ((jq_head q + Z.of_nat i) `mod` n = (jq_head q + Z.of_nat j) `mod` n) as Em by lia.
  pose proof (Z.div_mod (jq_head q + Z.of_nat i) n ltac:(lia)). pose proof (Z.div_mod (jq_head q + Z.of_nat j) n ltac:(lia)).
  set (a := (jq_head q + Z.of_nat i) `div` n) in *. set (b := (jq_head q + Z.of_nat j) `div` n) in *.
  assert (a = b) by nia. nia.
Qed.

Lemma buffer_len_push q id : buffer_len (push q id) = buffer_len q.
Proof. unfold buffer_len. simpl. by rewrite length_insert. Qed.

Lemma contents_push q id :
  in_ring q → jq_size q < buffer_len q → contents (push q id) = contents q ++ [id] ∧ in_ring (push q id).
Proof.
  intros HR Hs. destruct (HR) as [Hh Hz]. split; [|unfold in_ring; rewrite buffer_len_push; simpl; lia].
  assert (∀ i, slot (push q id) i = slot q i) as Es by (intros i; unfold slot; by rewrite buffer_len_push).
  unfold contents. simpl. replace (Z.to_nat (jq_size q + 1)) with (Z.to_nat (jq_size q) + 1)%nat by lia.
  rewrite seq_app, fmap_app. simpl. f_equal.
  - apply list_fmap_ext. intros i x [-> Hi]%lookup_seq. rewrite Es. f_equal. apply list_lookup_insert_ne.
    intros E. assert (slot q (Z.to_nat (jq_size q)) = slot q (0 + i)) as E'.
    { unfold slot at 1. rewrite Z2Nat.id by lia. exact E. }
    apply slot_inj in E'; [lia|done|lia|lia].
  - rewrite Es. f_equal.
    assert (Z.to_nat ((jq_head q + jq_size q) `mod` buffer_len q) = slot q (Z.to_nat (jq_size q))) as -> by (unfold slot; by rewrite Z2Nat.id by lia).
    by rewrite list_lookup_insert_eq by (by apply slot_lt).
Qed.

(** Advancing the head drops the oldest ID. *)
Definition ring_advance (q : jobQueue) : jobQueue := { q with jq_head := (jq_head q + 1) `mod` buffer_len q; jq_size := jq_size q - 1 }.

Lemma contents_advance q :
  in_ring q → 0 < jq_size q →
  ∃ id, jq_buffer q !! Z.to_nat (jq_head q) = Some id ∧ contents q = id :: contents (ring_advance q) ∧ in_ring (ring_advance q).
Proof.
  intros HR Hs. destruct (HR) as [Hh Hz]. unfold buffer_len in *.
  destruct (lookup_lt_is_Some_2 (jq_buffer q) (Z.to_nat (jq_head q)) ltac:(lia)) as [id Hid]. exists id.
  assert (slot q 0 = Z.to_nat (jq_head q)) as E0 by (unfold slot, buffer_len; rewrite Z.add_0_r, Z.mod_small by lia; done).
  split_and!; [done| |].
  - unfold contents. replace (Z.to_nat (jq_size q)) with (S (Z.to_nat (jq_size q - 1))) by lia. simpl.
    rewrite E0, Hid. simpl. f_equal. rewrite <-fmap_S_seq, <-list_fmap_compose. apply list_fmap_ext. intros i x _.
    simpl. f_equal. f_equal. unfold slot. simpl. f_equal. unfold buffer_len. simpl. rewrite Zplus_mod_idemp_l. f_equal. lia.
  - unfold in_ring, buffer_len. simpl. pose proof (Z.mod_pos_bound (jq_head q + 1) (Z.of_nat (length (jq_buffer q)))). unfold buffer_len. lia.
Qed.

(** ** The representation *)

Definition processing (q : jobQueue) (id : Z) : Prop := ∃ j, jq_jobs q !! id = Some j ∧ pj_processing j = true.

(** An open queue and the reference it stands for. *)
Record represents (capacity : Z) (q : jobQueue) (s : TriggerSpec) : Prop := {
  rq_closed : jq_closed q = ts_closed s;
  rq_ring : jq_closed q = false → in_ring q ∧ buffer_len q = capacity;
  rq_ready : jq_closed q = false → contents q = ts_ready s ∧ NoDup (ts_ready s);
  rq_jobs : jq_closed q = false → ∀ id, jq_jobs q !! id =
    if decide (id ∈ ts_active s) then Some {| pj_processing := true; pj_dirty := bool_decide (id ∈ ts_again s) |}
    else if decide (id ∈ ts_ready s) then Some {| pj_processing := false; pj_dirty := false |} else None;
  rq_disjoint : jq_closed q = false → ∀ id, id ∈ ts_ready s → id ∉ ts_active s;
  rq_again : ts_again s ⊆ ts_active s;
  rq_room : jq_closed q = false → Z.of_nat (size (jq_jobs q)) ≤ capacity;
  rq_cleared : jq_closed q = true → ts_ready s = [] ∧ ts_active s = ∅;
}.

Lemma length_contents q : 0 ≤ jq_size q → Z.of_nat (length (contents q)) = jq_size q.
Proof. intros. unfold contents. rewrite length_fmap, length_seq. lia. Qed.

(** The map counts the ready and the active IDs. *)
Lemma represents_size capacity q s :
  represents capacity q s → jq_closed q = false →
  dom (jq_jobs q) = list_to_set (ts_ready s) ∪ ts_active s ∧ size (jq_jobs q) = (length (ts_ready s) + size (ts_active s))%nat.
Proof.
  intros [_ _ Hr Hj Hd _ _ _] Hc. destruct (Hr Hc) as [_ Hnd].
  assert (dom (jq_jobs q) = list_to_set (ts_ready s) ∪ ts_active s) as E.
  { apply set_eq. intros id. rewrite elem_of_dom, (Hj Hc). destruct (decide (id ∈ ts_active s)); [set_solver|].
    destruct (decide (id ∈ ts_ready s)); [set_solver|]. rewrite <-not_eq_None_Some. set_solver. }
  split; [done|]. rewrite <-size_dom, E, size_union, size_list_to_set by (done || (intros id; rewrite elem_of_list_to_set; by apply Hd)). done.
Qed.

Lemma represents_new capacity : 0 < capacity → represents capacity (newJobQueue capacity) spec_empty.
Proof.
  intros Hc. assert (buffer_len (newJobQueue capacity) = capacity) as E.
  { unfold buffer_len. simpl. rewrite length_replicate. lia. }
  constructor; simpl; try done.
  - intros _. split; [|done]. unfold in_ring. rewrite E. simpl. lia.
  - intros _. split; [done|constructor].
  - intros _. rewrite map_size_empty. lia.
Qed.

(** Adding a ready ID to a ring with room. *)
Lemma represents_push capacity q s id jobs active again :
  represents capacity q s → jq_closed q = false → id ∉ ts_ready s → id ∉ active → again ⊆ active → active ⊆ ts_active s ∪ {[id]} →
  ts_active s ⊆ active ∪ {[id]} → (∀ x, x ≠ id → (x ∈ again ↔ x ∈ ts_again s)) → id ∉ again →
  jobs = <[id := {| pj_processing := false; pj_dirty := false |}]> (jq_jobs q) → Z.of_nat (size jobs) ≤ capacity →
  jq_size q < buffer_len q →
  represents capacity (push { q with jq_jobs := jobs } id) { s with ts_ready := ts_ready s ++ [id]; ts_active := active; ts_again := again }.
Proof.
  intros [Hcl Hring Hr Hj Hd Ha Hroom Hcd] Hc Hid Hna Hsub Hact Hact' Hag Hnag -> Hsz Hlt.
  destruct (Hring Hc) as [HR Hcap]. destruct (Hr Hc) as [Hcont Hnd].
  destruct (contents_push { q with jq_jobs := <[id := {| pj_processing := false; pj_dirty := false |}]> (jq_jobs q) } id HR Hlt) as [Ec HR'].
  constructor; simpl; try done; try congruence.
  - intros _. split; [done|]. by rewrite buffer_len_push.
  - intros _. split; [etrans; [exact Ec|]; f_equal; exact Hcont|]. apply NoDup_app. split_and!; [done|set_solver|apply NoDup_singleton].
  - intros _ x. destruct (decide (x = id)) as [->|Hne].
    + rewrite lookup_insert_eq, decide_False, decide_True by set_solver. done.
    + rewrite lookup_insert_ne by done. rewrite (Hj Hc). rewrite (bool_decide_ext _ _ (Hag x Hne)).
      rewrite (decide_ext (x ∈ ts_active s) (x ∈ active)) by (clear -Hact Hact' Hne; set_solver).
      rewrite (decide_ext (x ∈ ts_ready s) (x ∈ ts_ready s ++ [id])) by set_solver. done.
  - intros _ x [Hx| ->%list_elem_of_singleton]%elem_of_app; [|done]. specialize (Hd Hc x Hx). clear -Hd Hact Hid Hx. set_solver.
Qed.

(** ** Call by call *)

Definition simulates capacity (q : jobQueue) (s : TriggerSpec) (c : Call) : Prop :=
  ∀ s' r, spec_call capacity s c = Some (s', r) → ∃ q', queue_call q c = Some (q', r) ∧ represents capacity q' s'.

(** Fewer ready IDs than slots while one more is known. *)
Lemma represents_room capacity q s :
  represents capacity q s → jq_closed q = false → (length (ts_ready s) < size (jq_jobs q))%nat ∨ Z.of_nat (size (jq_jobs q)) < capacity →
  jq_size q < buffer_len q.
Proof.
  intros HR Hc Hlt. destruct (represents_size _ _ _ HR Hc) as [_ Hsz]. destruct (rq_ring _ _ _ HR Hc) as [[_ ?] ->].
  destruct (rq_ready _ _ _ HR Hc) as [E _]. apply (f_equal length) in E. pose proof (length_contents q ltac:(lia)).
  pose proof (rq_room _ _ _ HR Hc). lia.
Qed.

Lemma sim_offer capacity q s id : represents capacity q s → simulates capacity q s (Offer id).
Proof.
  intros HR s' r. simpl. intros [= E]. unfold offer. destruct (jq_closed q) eqn:Hc; rewrite <-(rq_closed _ _ _ HR), Hc in E.
  { injection E as <- <-. eauto. }
  rewrite (rq_jobs _ _ _ HR Hc id). destruct (represents_size _ _ _ HR Hc) as [_ Hsz].
  pose proof (rq_disjoint _ _ _ HR Hc id) as Hd.
  case_bool_decide as Hr; [|case_bool_decide as Ha].
  - injection E as <- <-. rewrite decide_False, decide_True by auto. simpl. eauto.
  - injection E as <- <-. rewrite decide_True by done. simpl. eexists; split; [done|].
    destruct HR as [H1 H2 H3 H4 H5 H6 H7 H8]. constructor; simpl; try done.
    + intros _ x. destruct (decide (x = id)) as [->|Hne].
      * rewrite lookup_insert_eq, decide_True by done. by rewrite (bool_decide_true (id ∈ {[id]} ∪ ts_again s)) by (clear; set_solver).
      * rewrite lookup_insert_ne, H4 by done. by rewrite (bool_decide_ext (x ∈ {[id]} ∪ ts_again s) (x ∈ ts_again s)) by (clear -Hne; set_solver).
    + clear -H6 Ha. set_solver.
    + intros _. rewrite map_size_insert_Some by (rewrite H4 by done; rewrite decide_True by done; done). auto.
  - rewrite !decide_False by auto. destruct (rq_ring _ _ _ HR Hc) as [_ Hcap]. rewrite Hsz, Hcap.
    destruct (Z.eqb_spec (Z.of_nat (length (ts_ready s) + size (ts_active s))) capacity) as [Ef|Ef]; injection E as <- <-; [eauto|].
    eexists; split; [done|]. pose proof (rq_room _ _ _ HR Hc) as Hroom. pose proof (rq_again _ _ _ HR).
    apply (represents_push capacity q s id _ (ts_active s) (ts_again s)); try done; try (clear -Ha H; set_solver).
    + rewrite map_size_insert_None by (rewrite (rq_jobs _ _ _ HR Hc), !decide_False; auto). lia.
    + eapply represents_room; [done..|right; lia].
Qed.

Lemma sim_take capacity q s : represents capacity q s → simulates capacity q s Take.
Proof.
  intros HR s' r. simpl. intros [= E]. unfold take. destruct (jq_closed q) eqn:Hc; rewrite <-(rq_closed _ _ _ HR), Hc in E.
  { injection E as <- <-. rewrite andb_false_r. eauto. }
  destruct (rq_ring _ _ _ HR Hc) as [Hring Hcap]. destruct (rq_ready _ _ _ HR Hc) as [Hcont Hnd].
  pose proof (length_contents q ltac:(apply Hring)) as Hlen. rewrite Hcont in Hlen.
  destruct (Z.eqb_spec (jq_size q) 0) as [Ez|Ez]; simpl.
  { destruct (ts_ready s); [|simpl in Hlen; lia]. injection E as <- <-. eauto. }
  destruct (contents_advance q Hring ltac:(destruct Hring; lia)) as (id & Hid & Ec & Hring'). rewrite Hid.
  destruct (ts_ready s) as [|id' rest] eqn:Er; [simpl in Hlen; lia|]. rewrite Hcont in Ec. injection Ec as -> Erest.
  injection E as <- <-. rewrite (rq_jobs _ _ _ HR Hc id).
  assert (id ∉ ts_active s) as Hna by (apply (rq_disjoint _ _ _ HR Hc); rewrite Er; left).
  rewrite decide_False, decide_True by (done || (rewrite Er; left)). simpl. eexists; split; [done|].
  apply NoDup_cons in Hnd as [Hni Hnd].
  destruct HR as [H1 H2 H3 H4 H5 H6 H7 H8]. constructor; simpl; try done.
  - intros _ x. destruct (decide (x = id)) as [->|Hne].
    + rewrite lookup_insert_eq, decide_True by (clear; set_solver). rewrite bool_decide_false by (clear -H6 Hna; set_solver). done.
    + rewrite lookup_insert_ne, H4 by done. rewrite Er. rewrite (decide_ext (x ∈ {[id]} ∪ ts_active s) (x ∈ ts_active s)) by (clear -Hne; set_solver).
      by rewrite (decide_ext (x ∈ id :: rest) (x ∈ rest)) by (clear -Hne; set_solver).
  - intros _ x Hx. specialize (H5 Hc x). rewrite Er in H5. clear -H5 Hx Hni. set_solver.
  - clear -H6. set_solver.
  - intros _. rewrite map_size_insert_Some; [auto|]. rewrite H4, decide_False, decide_True by (done || (rewrite Er; left)). done.
  - congruence.
Qed.

Lemma sim_complete capacity q s id : represents capacity q s → simulates capacity q s (Complete id).
Proof.
  intros HR s' r. simpl. unfold complete. destruct (jq_closed q) eqn:Hc; rewrite <-(rq_closed _ _ _ HR), Hc.
  { intros [= <- <-]. simpl. eauto. }
  case_bool_decide as Ha; [|done]. intros [= E]. rewrite (rq_jobs _ _ _ HR Hc id), decide_True by done. simpl.
  assert (id ∉ ts_ready s) as Hnr by (intros Hin; by apply (rq_disjoint _ _ _ HR Hc) in Hin).
  assert (is_Some (jq_jobs q !! id)) as [j Hj] by (rewrite (rq_jobs _ _ _ HR Hc id), decide_True; eauto).
  pose proof (rq_again _ _ _ HR) as Hag. pose proof (rq_room _ _ _ HR Hc) as Hroom.
  case_bool_decide as Hd; injection E as <- <-; (eexists; split; [done|]).
  - apply (represents_push capacity q s id _ (ts_active s ∖ {[id]}) (ts_again s ∖ {[id]})); try done; try (clear -Hag; set_solver).
    + intros x Hx. destruct (decide (x = id)) as [->|Hxn]; [clear; set_solver|clear -Hx Hxn; set_solver].
    + by rewrite map_size_insert_Some by eauto.
    + eapply represents_room; [done..|left]. destruct (represents_size _ _ _ HR Hc) as [_ ->].
      assert (size (ts_active s) ≠ 0)%nat by (rewrite size_non_empty_iff; clear -Ha; set_solver). lia.
  - destruct HR as [H1 H2 H3 H4 H5 H6 H7 H8]. constructor; simpl; try done.
    + intros _ x. destruct (decide (x = id)) as [->|Hne].
      * rewrite lookup_delete_eq, !decide_False by (done || (clear; set_solver)). done.
      * rewrite lookup_delete_ne, H4 by done. by rewrite (decide_ext (x ∈ ts_active s ∖ {[id]}) (x ∈ ts_active s)) by (clear -Hne; set_solver).
    + intros _ x Hx. specialize (H5 Hc x Hx). clear -H5. set_solver.
    + clear -H6 Hd. set_solver.
    + intros _. rewrite map_size_delete_Some by eauto. lia.
    + congruence.
Qed.

Lemma sim_close capacity q s : represents capacity q s → simulates capacity q s Close.
Proof. intros HR s' r. simpl. intros [= <- <-]. eexists; split; [done|]. by constructor. Qed.

Lemma sim_call capacity q s c : represents capacity q s → simulates capacity q s c.
Proof. destruct c; auto using sim_offer, sim_take, sim_complete, sim_close. Qed.

Lemma sim_calls capacity q s cs s' rs :
  represents capacity q s → calls (spec_call capacity) s cs = Some (s', rs) →
  ∃ q', calls queue_call q cs = Some (q', rs) ∧ represents capacity q' s'.
Proof.
  revert q s rs. induction cs as [|c cs IH]; intros q s rs HR; simpl; [intros [= <- <-]; eauto|].
  destruct (spec_call capacity s c) as [[s1 r]|] eqn:Ec; [|done]. simpl.
  destruct (calls (spec_call capacity) s1 cs) as [[s2 rs2]|] eqn:Ecs; [|done]. simpl. intros [= <- <-].
  destruct (sim_call _ _ _ c HR _ _ Ec) as (q1 & -> & HR1). destruct (IH _ _ _ HR1 Ecs) as (q2 & E2 & HR2).
  simpl. rewrite E2. simpl. eauto.
Qed.

(** ** Hints are followed *)

(** Ready, or in the hands of a worker with another round to come. *)
Definition due (s : TriggerSpec) (id : Z) : Prop := id ∈ ts_ready s ∨ (id ∈ ts_active s ∧ id ∈ ts_again s).

Lemma offer_due capacity s id s' : spec_call capacity s (Offer id) = Some (s', Accepted true) → due s' id.
Proof.
  simpl. intros [= E]. destruct (ts_closed s); [done|].
  repeat case_bool_decide; [injection E as <-; by left|injection E as <-; right; simpl; set_solver|].
  destruct (_ =? _); [done|]. injection E as <-. left. simpl. set_solver.
Qed.

Lemma due_kept capacity s id c s' r :
  spec_call capacity s c = Some (s', r) → due s id → due s' id ∨ r = Got (TakeID id) ∨ c = Close.
Proof.
  unfold due. destruct c as [id'| |id'|]; simpl; [| | |by auto].
  - intros [= E]. repeat case_match; simplify_eq/=; set_solver.
  - intros [= E]. destruct (ts_closed s); [simplify_eq/=; auto|]. destruct (ts_ready s) as [|x rest] eqn:Er; injection E as <- <-; [rewrite Er; auto|].
    destruct (decide (x = id)) as [->|]; [auto|]. simpl. clear Er. set_solver.
  - destruct (ts_closed s); [intros; simplify_eq/=; auto|]. case_bool_decide as Ha; [|done].
    case_bool_decide as Hg; intros ?; simplify_eq/=; (destruct (decide (id = id')) as [->|]; [|set_solver]); set_solver.
Qed.

Lemma due_until capacity s id cs s' rs :
  calls (spec_call capacity) s cs = Some (s', rs) → due s id → due s' id ∨ Got (TakeID id) ∈ rs ∨ Close ∈ cs.
Proof.
  revert s rs. induction cs as [|c cs IH]; intros s rs; simpl; [intros [= <- <-]; auto|].
  destruct (spec_call capacity s c) as [[s1 r]|] eqn:Ec; [|done]. simpl.
  destruct (calls (spec_call capacity) s1 cs) as [[s2 rs2]|] eqn:Ecs; [|done]. simpl. intros [= <- <-] Hd.
  destruct (due_kept _ _ _ _ _ _ Ec Hd) as [Hd1|[->| ->]]; [|right; left; left|right; right; left].
  destruct (IH _ _ Ecs Hd1) as [?|[?|?]]; [by left|right; left; by right|right; right; by right].
Qed.

Lemma calls_app {S} (call : S → Call → option (S * Reply)) s cs cs' :
  calls call s (cs ++ cs') = r ← calls call s cs; r' ← calls call r.1 cs'; Some (r'.1, r.2 ++ r'.2).
Proof.
  revert s. induction cs as [|c cs IH]; intros s; simpl; [by destruct (calls call s cs') as [[??]|]|].
  destruct (call s c) as [[s1 r]|]; [|done]. simpl. rewrite IH. destruct (calls call s1 cs) as [[s2 rs]|]; [|done]. simpl.
  by destruct (calls call s2 cs') as [[??]|].
Qed.

Lemma calls_length {S} (call : S → Call → option (S * Reply)) s cs s' rs : calls call s cs = Some (s', rs) → length rs = length cs.
Proof.
  revert s s' rs. induction cs as [|c cs IH]; intros s s' rs; simpl; [by intros [= <- <-]|].
  destruct (call s c) as [[s1 r]|]; [|done]. simpl. destruct (calls call s1 cs) as [[s2 rs2]|] eqn:E; [|done].
  simpl. intros [= <- <-]. simpl. by rewrite (IH _ _ _ E).
Qed.

(** C28: The ring buffer of pending trigger hints answers every sequence of calls exactly
    as a first-in first-out list that coalesces equal IDs and counts the IDs of busy
    workers against its capacity; no call indexes out of range or touches a nil entry;
    and a hint it accepted is taken by a worker after that moment, unless the queue is
    closed or the hint is still waiting. *)
Theorem trigger_queue_refines capacity cs s rs :
  0 < capacity → calls (spec_call capacity) spec_empty cs = Some (s, rs) →
  (∃ q, calls queue_call (newJobQueue capacity) cs = Some (q, rs) ∧ (ts_closed s = false → contents q = ts_ready s)) ∧
  (∀ before after id rs1 rs2, cs = before ++ Offer id :: after → length before = length rs1 → rs = rs1 ++ Accepted true :: rs2 →
     Got (TakeID id) ∈ rs2 ∨ Close ∈ after ∨ due s id).
Proof.
  intros Hc Hs. split.
  - destruct (sim_calls _ _ _ _ _ _ (represents_new _ Hc) Hs) as (q & Hq & HR). exists q. split; [done|].
    intros Ho. apply (rq_ready _ _ _ HR). by rewrite (rq_closed _ _ _ HR).
  - intros cs1 cs2 id rs1 rs2 -> Hl ->. rewrite calls_app in Hs.
    destruct (calls (spec_call capacity) spec_empty cs1) as [[s1 r1]|] eqn:E1; [|done]. cbn -[spec_call] in Hs.
    destruct (spec_call capacity s1 (Offer id)) as [[s2 r]|] eqn:E2; [|done]. cbn -[spec_call] in Hs.
    destruct (calls (spec_call capacity) s2 cs2) as [[s3 r3]|] eqn:E3; [|done]. simpl in Hs. injection Hs as <- Hr.
    pose proof (calls_length _ _ _ _ _ E1) as Hl1.
    apply app_inj_1 in Hr as [-> [= -> ->]]; [|congruence].
    destruct (due_until _ _ _ _ _ _ E3 (offer_due _ _ _ _ E2)) as [?|[?|?]]; auto.
Qed.

Lemma trigger_queue_refines_witness :
  ∃ q s, calls queue_call (newJobQueue 2) [Offer 7; Take; Offer 7; Offer 8; Offer 9; Complete 7; Take; Take] =
    Some (q, [Accepted true; Got (TakeID 7); Accepted true; Accepted true; Accepted false; Done; Got (TakeID 8); Got (TakeID 7)]) ∧
    contents q = ts_ready s.
Proof.
  destruct (trigger_queue_refines 2 [Offer 7; Take; Offer 7; Offer 8; Offer 9; Complete 7; Take; Take]
    {| ts_ready := []; ts_active := {[7]} ∪ ({[8]} ∪ (({[7]} ∪ ∅) ∖ {[7]})); ts_again := ({[7]} ∪ ∅) ∖ {[7]}; ts_closed := false |}
    [Accepted true; Got (TakeID 7); Accepted true; Accepted true; Accepted false; Done; Got (TakeID 8); Got (TakeID 7)])
    as [(q & Hq & Hc) _]; [lia|vm_compute; reflexivity|].
  eexists q, _. split; [exact Hq|]. exact (Hc eq_refl).
Defined.
