(* ===== verification/Scheduler.v ===== *)
(** * The trigger leader

    apps/job/rpc/internal/scheduler (config.go, runtime.go, etcd.go, term.go): every node
    campaigns for leadership; the elected node's term loads the enabled rules, keeps one
    Cron entry per rule, turns Cron callbacks, rule changes and overdue Jobs into hints of
    the trigger queue (TriggerQueue.v), and its workers trigger the Jobs.  A term's
    goroutines are the steps of [term_step]; etcd is the log of writes to its keys. *)

From S2P Require Import Prelude GoLib GoText Tx Model TaskRepo InstanceRepo JobRepo Trigger HintSpec TriggerQueue.

Open Scope string_scope.
Open Scope list_scope.
Open Scope Z_scope.

(** ** Configuration *)

(** [path.Clean], element by element; [stack] holds the kept elements, newest first. *)
Definition clean_element (rooted : bool) (stack : list (list Z)) (seg : list Z) : list (list Z) :=
  if bool_decide (seg = []) || bool_decide (seg = [46]) then stack
  else if bool_decide (seg = [46; 46]) then
    match stack with
    | [] => if rooted then [] else [seg]
    | top :: rest => if bool_decide (top = [46; 46]) then seg :: stack else rest
    end
  else seg :: stack.
Definition Clean (path : string) : string :=
  let l := bytes path in
  let rooted := match l with 47 :: _ => true | _ => false end in
  let body := join_with 47 (reverse (foldl (clean_element rooted) [] (split_on 47 l))) in
  of_bytes (if rooted then 47 :: body else match body with [] => [46] | _ => body end).

Record Config := {
  cf_Prefix : string; cf_QueueCapacity : Z; cf_CreationConcurrency : Z; cf_LeaseTTLSeconds : Z;
  cf_RecoveryLimit : Z; cf_QueryTimeout : Duration;
}.

Definition or_default (value fallback : Z) : Z := if value =? 0 then fallback else value.

Definition Config_defaults (c : Config) : Result Config :=
  let p := cf_Prefix c in
  if bool_decide (p = "") || bool_decide (p = "/") || negb (HasPrefix p "/") || negb (bool_decide (Clean p = p)) ||
     existsb (λ b, has b (bytes p)) [92; 0; 13; 10]
  then Fail [Text "scheduler prefix must be an absolute clean environment/cluster namespace"]
  else if (cf_QueueCapacity c <? 0) || (cf_CreationConcurrency c <? 0) || (cf_LeaseTTLSeconds c <? 0) ||
          (cf_RecoveryLimit c <? 0) || (cf_QueryTimeout c <? 0)
  then Fail [Text "scheduler capacity, concurrency, and lease TTL must be positive"]
  else Ok {| cf_Prefix := p; cf_QueueCapacity := or_default (cf_QueueCapacity c) 1024;
             cf_CreationConcurrency := or_default (cf_CreationConcurrency c) 32;
             cf_LeaseTTLSeconds := or_default (cf_LeaseTTLSeconds c) 15;
             cf_RecoveryLimit := or_default (cf_RecoveryLimit c) 1024;
             cf_QueryTimeout := or_default (cf_QueryTimeout c) (5 * Second) |}.

Record keys := { ky_election : string; ky_changed : string }.
Definition makeKeys (prefix : string) : keys :=
  {| ky_election := prefix +:+ "/scheduler/election"; ky_changed := prefix +:+ "/scheduler/job-config-changed" |}.

Record timings := {
  tm_query : Duration; tm_request : Duration; tm_notify : Duration; tm_config : Duration; tm_recovery : Duration;
  tm_backoffMin : Duration; tm_backoffMax : Duration;
}.
Definition defaultTimings : timings :=
  {| tm_query := 5 * Second; tm_request := 5 * Second; tm_notify := Second; tm_config := 60 * Second; tm_recovery := 60 * Second;
     tm_backoffMin := Second; tm_backoffMax := 30 * Second |}.

(** ** Backoff *)

(** The doubling loop of [backoff]. *)
Fixpoint backoff_loop (t : timings) (attempt : nat) (delay : Duration) : Duration :=
  match attempt with
  | O => delay
  | S n =>
      if delay <? tm_backoffMax t
      then backoff_loop t n (if tm_backoffMax t / 2 <? delay then tm_backoffMax t else delay * 2)
      else delay
  end.

(** The timer of [backoff]; [random n] is [rand.Int64N(n)], at least 0 and below [n]. *)
Definition backoff_delay (t : timings) (attempt : nat) (random : Z → Z) : Duration :=
  let delay := backoff_loop t attempt (tm_backoffMin t) in
  let low := if delay / 2 <? tm_backoffMin t then tm_backoffMin t else delay / 2 in
  if low <? delay then low + random (delay - low + 1) else delay.

(** ** Cron

    robfig/cron is a library: [cron_Entries] is what its entries are, each with its
    schedule and the Job ID its callback offers. *)

Class CronEngine `{CronLib} := {
  Engine : Type;
  cron_New : Engine;
  cron_Schedule : Engine → Schedule → Z → Engine * Z;
  cron_Remove : Engine → Z → Engine;
  cron_Start : Engine → Engine;
  cron_Stop : Engine → Engine;
  cron_Entries : Engine → gmap Z (Schedule * Z);
}.

(** Its documented behaviour: a new entry gets an identifier of its own, and only
    [Schedule] and [Remove] change the entries. *)
Record cron_documented `{CronEngine} : Prop := {
  entries_New : cron_Entries cron_New = ∅;
  entries_Schedule e s id : let '(e', n) := cron_Schedule e s id in
    cron_Entries e !! n = None ∧ cron_Entries e' = <[n := (s, id)]> (cron_Entries e);
  entries_Remove e n : cron_Entries (cron_Remove e n) = delete n (cron_Entries e);
  entries_Start e : cron_Entries (cron_Start e) = cron_Entries e;
  entries_Stop e : cron_Entries (cron_Stop e) = cron_Entries e;
}.

(** ** A leader term *)

Record registeredRule := { gr_expr : string; gr_entry : Z }.

Section term.
Context `{CronEngine}.

(** [lt_canceled]: the term's context is done; [lt_reload]: the buffered reload signal.
    The counters and the rate-limited log are left out. *)
Record leaderTerm := {
  lt_queue : jobQueue; lt_reload : bool; lt_cron : Engine; lt_started : bool; lt_stopped : bool;
  lt_rules : gmap Z registeredRule; lt_canceled : bool;
}.

Definition newTerm (config : Config) : leaderTerm :=
  {| lt_queue := newJobQueue (cf_QueueCapacity config); lt_reload := false; lt_cron := cron_New; lt_started := false;
     lt_stopped := false; lt_rules := ∅; lt_canceled := false |}.

Definition term_offer (t : leaderTerm) (id : Z) : leaderTerm * bool :=
  if lt_canceled t then (t, false)
  else let '(q, ok) := offer (lt_queue t) id in ({ t with lt_queue := q }, ok).

(** Hints in order until one is refused. *)
Fixpoint offer_all (t : leaderTerm) (ids : list Z) : leaderTerm :=
  match ids with
  | [] => t
  | id :: rest => let '(t', ok) := term_offer t id in if ok : bool then offer_all t' rest else t'
  end.

Definition signalReload (t : leaderTerm) : leaderTerm := if lt_canceled t then t else { t with lt_reload := true }.

(** *** Applying a snapshot of rules *)

Record Applying := { ap_cron : Engine; ap_rules : gmap Z registeredRule; ap_next : gmap Z registeredRule; ap_changed : list Z }.

(** The schedule of a rule that can be registered. *)
Definition schedulable (expr : string) (now : Time) : option Schedule :=
  match Parse expr with
  | Ok s => if is_zero (cron_next s now) then None else Some s
  | Fail _ => None
  end.

Definition apply_rule (now : Time) (a : Applying) (rule : Rule) : Applying :=
  let old := ap_rules a !! ru_ID rule in
  let keep := match old with Some old => bool_decide (gr_expr old = ru_CronExpr rule) | None => false end in
  match old with
  | Some o =>
      if keep then { a with ap_next := <[ru_ID rule := o]> (ap_next a) }
      else
        let a := { a with ap_cron := cron_Remove (ap_cron a) (gr_entry o); ap_rules := delete (ru_ID rule) (ap_rules a) } in
        match schedulable (ru_CronExpr rule) now with
        | None => a
        | Some s =>
            let '(cron, entry) := cron_Schedule (ap_cron a) s (ru_ID rule) in
            { a with ap_cron := cron; ap_next := <[ru_ID rule := {| gr_expr := ru_CronExpr rule; gr_entry := entry |}]> (ap_next a);
                     ap_changed := ap_changed a ++ [ru_ID rule] }
        end
  | None =>
      match schedulable (ru_CronExpr rule) now with
      | None => a
      | Some s =>
          let '(cron, entry) := cron_Schedule (ap_cron a) s (ru_ID rule) in
          { a with ap_cron := cron; ap_next := <[ru_ID rule := {| gr_expr := ru_CronExpr rule; gr_entry := entry |}]> (ap_next a);
                   ap_changed := ap_changed a ++ [ru_ID rule] }
      end
  end.

(** The loop over the snapshot.  [live]: how many checks of the context still pass, [None]
    when it stays alive; [clock]: the time read at a rule. *)
Fixpoint apply_rules (clock : nat → Time) (live : option nat) (a : Applying) (rules : list Rule) : Applying * option (option nat) :=
  match rules with
  | [] => (a, Some live)
  | rule :: rest =>
      match live with
      | Some O => (a, None)
      | _ => apply_rules clock (pred <$> live) (apply_rule (clock (length rest)) a rule) rest
      end
  end.

(** The entries of rules that the snapshot no longer has. *)
Definition remove_absent (cron : Engine) (old next : gmap Z registeredRule) : Engine :=
  foldl (λ e r, if decide (is_Some (next !! r.1)) then e else cron_Remove e (gr_entry r.2)) cron (map_to_list old).

(** [live] counts the checks of the context from the one at the head of [apply] on. *)
Definition apply (t : leaderTerm) (clock : nat → Time) (live : option nat) (rules : list Rule) : leaderTerm :=
  if lt_stopped t || lt_canceled t || bool_decide (live = Some O) then { t with lt_canceled := lt_canceled t || bool_decide (live = Some O) }
  else
    let '(a, rest) := apply_rules clock (pred <$> live) {| ap_cron := lt_cron t; ap_rules := lt_rules t; ap_next := ∅; ap_changed := [] |} rules in
    match rest with
    | None => { t with lt_cron := ap_cron a; lt_rules := ap_rules a; lt_canceled := true }
    | Some live =>
        let t := { t with lt_cron := remove_absent (ap_cron a) (ap_rules a) (ap_next a); lt_rules := ap_next a } in
        if bool_decide (live = Some O) then { t with lt_canceled := true }
        else
          let t := if lt_started t then t else { t with lt_cron := cron_Start (lt_cron t); lt_started := true } in
          match pred <$> live with
          | Some n =>
              if (n <? length (ap_changed a))%nat then { offer_all t (firstn n (ap_changed a)) with lt_canceled := true }
              else offer_all t (ap_changed a)
          | None => offer_all t (ap_changed a)
          end
    end.

(** *** Overdue Jobs *)

Definition recoverDue (config : Config) (t : leaderTerm) : M leaderTerm :=
  if lt_canceled t then mret t
  else
    now ← pop;
    found ← attempt (rows ← ListDue Auto (ev_clock now) (cf_RecoveryLimit config); ctx_err;; mret rows);
    match found with
    | Fail _ => mret t
    | Ok rows => mret (offer_all t (du_ID <$> rows))
    end.

(** [runTerm] after the end of the context: the queue is closed and Cron stopped. *)
Definition close_queue (t : leaderTerm) : leaderTerm := { t with lt_queue := close (lt_queue t) }.
Definition stop_cron (t : leaderTerm) : leaderTerm := { t with lt_stopped := true; lt_cron := cron_Stop (lt_cron t) }.
End term.

(** ** The goroutines of a term *)

Inductive Loop := LoopWaiting | LoopLoading | LoopLoaded (rules : list Rule) (moment : nat) | LoopExited.

(** [watchLoop]: between watches; a revision was read; the watch exists but its reload is
    not signalled yet; watching, with the next write to deliver. *)
Inductive Watch := WatchStopped | WatchRevision (revision : nat) | WatchCreated (next : nat) | Watching (next : nat).

Section goroutines.
Context `{CronEngine}.

(** [tw_history]: the enabled rules of the database at every moment so far.  [tw_log]: the
    writes of etcd, one per revision: a change notification with the moment it was
    written, or a write to another key.  The last three fields only serve to state
    properties: the moment of the last signal, of the applied snapshot, and whether a load
    has failed since the last signal. *)
Record TermWorld := {
  tw_term : leaderTerm; tw_loop : Loop; tw_watch : Watch; tw_workers : list (Worker Z);
  tw_history : list (list Rule); tw_log : list (option nat);
  tw_signaled : nat; tw_applied : option nat; tw_failed : bool;
}.

Definition moment (w : TermWorld) : nat := (length (tw_history w) - 1)%nat.
Definition signalled (w : TermWorld) : TermWorld :=
  if lt_canceled (tw_term w) then w
  else { w with tw_term := signalReload (tw_term w); tw_signaled := moment w; tw_failed := false }.
Definition set_worker (k : nat) (x : Worker Z) (w : TermWorld) : TermWorld := { w with tw_workers := <[k := x]> (tw_workers w) }.

(** The term that [runTerm] starts, with its first reload signal. *)
Definition start_term (config : Config) (history : list (list Rule)) (log : list (option nat)) : TermWorld :=
  signalled {| tw_term := newTerm config; tw_loop := LoopWaiting; tw_watch := WatchStopped;
    tw_workers := replicate (Z.to_nat (cf_CreationConcurrency config)) Idle;
    tw_history := history; tw_log := log; tw_signaled := 0; tw_applied := None; tw_failed := false |}.

Inductive term_step : TermWorld → TermWorld → Prop :=
(* the environment: commits, notifications, other writes of etcd, the end of the lease *)
| ts_commit w rules : NoDup (ru_ID <$> rules) → term_step w { w with tw_history := tw_history w ++ [rules] }
| ts_notify w : term_step w { w with tw_log := tw_log w ++ [Some (moment w)] }
| ts_other w : term_step w { w with tw_log := tw_log w ++ [None] }
| ts_cancel w : term_step w { w with tw_term := { tw_term w with lt_canceled := true } }
(* configTicker *)
| ts_tick w : term_step w (signalled w)
(* configLoop *)
| ts_receive w :
    tw_loop w = LoopWaiting → lt_reload (tw_term w) = true → lt_canceled (tw_term w) = false →
    term_step w { w with tw_loop := LoopLoading; tw_term := { tw_term w with lt_reload := false } }
| ts_load w rules :
    tw_loop w = LoopLoading → last (tw_history w) = Some rules → term_step w { w with tw_loop := LoopLoaded rules (moment w) }
| ts_load_failed w :
    tw_loop w = LoopLoading ∨ (∃ rules m, tw_loop w = LoopLoaded rules m) → lt_canceled (tw_term w) = false →
    term_step w { w with tw_loop := LoopWaiting; tw_failed := true }
| ts_apply w rules m clock live :
    tw_loop w = LoopLoaded rules m → lt_canceled (tw_term w) = false →
    term_step w { w with tw_loop := LoopWaiting; tw_term := apply (tw_term w) clock live rules; tw_applied := Some m }
| ts_loop_exit w : lt_canceled (tw_term w) = true → term_step w { w with tw_loop := LoopExited }
(* watchLoop *)
| ts_revision w : tw_watch w = WatchStopped → term_step w { w with tw_watch := WatchRevision (length (tw_log w)) }
| ts_watch w n : tw_watch w = WatchRevision n → term_step w { w with tw_watch := WatchCreated n }
| ts_watch_signal w n : tw_watch w = WatchCreated n → term_step w { signalled w with tw_watch := Watching n }
| ts_event w n m : tw_watch w = Watching n → tw_log w !! n = Some (Some m) → term_step w { signalled w with tw_watch := Watching (S n) }
| ts_skip w n : tw_watch w = Watching n → tw_log w !! n = Some None → term_step w { w with tw_watch := Watching (S n) }
| ts_watch_lost w : term_step w { w with tw_watch := WatchStopped }
(* hints: Cron callbacks, overdue Jobs *)
| ts_fire w n s id :
    cron_Entries (lt_cron (tw_term w)) !! n = Some (s, id) → lt_started (tw_term w) = true →
    term_step w { w with tw_term := (term_offer (tw_term w) id).1 }
| ts_recover w ids : term_step w { w with tw_term := offer_all (tw_term w) ids }
(* workers *)
| ts_take w k q id :
    tw_workers w !! k = Some Idle → take (lt_queue (tw_term w)) = (q, TakeID id) →
    term_step w (set_worker k (Busy id) { w with tw_term := { tw_term w with lt_queue := q } })
| ts_complete w k q id :
    tw_workers w !! k = Some (Busy id) → complete (lt_queue (tw_term w)) id = Some q →
    term_step w (set_worker k Idle { w with tw_term := { tw_term w with lt_queue := q } })
| ts_exit w k x :
    tw_workers w !! k = Some x → lt_canceled (tw_term w) = true → term_step w (set_worker k Exited w)
(* runTerm after the end of the context *)
| ts_close w : lt_canceled (tw_term w) = true → term_step w { w with tw_term := close_queue (tw_term w) }
| ts_stop_cron w : lt_canceled (tw_term w) = true → term_step w { w with tw_term := stop_cron (tw_term w) }.
End goroutines.

(** ** Elections

    [Run] may be called by several goroutines; only one call passes the gate.  A call
    alternates sessions, campaigns and terms; the session of etcd may end at any time. *)

Inductive RunPhase `{CronEngine} :=
| RunEntering
| RunOpening (attempt : nat) | RunCampaigning (attempt : nat)
| RunInTerm (w : TermWorld)
| RunClosing (attempt : nat) | RunBackoff (attempt : nat)
| RunReturned (err : Error).

Section election.
Context `{CronEngine} (config : Config).

(** [rc_done]: the caller's context is done; [rc_canceled]: the candidacy's is. *)
Record RunCall := { rc_phase : RunPhase; rc_done : bool; rc_canceled : bool }.
Record Runtime := { rn_running : bool; rn_calls : gmap Z RunCall }.

Definition set_call (id : Z) (c : RunCall) (r : Runtime) : Runtime := { r with rn_calls := <[id := c]> (rn_calls r) }.
Definition already_running : Error := [Text "scheduler is already running"].

(** The candidacy's context ends: the session is lost or the caller cancels. *)
Definition cancel_candidacy (c : RunCall) : RunCall :=
  { c with rc_canceled := true;
           rc_phase := match rc_phase c with
                       | RunInTerm w => RunInTerm { w with tw_term := { tw_term w with lt_canceled := true } }
                       | p => p
                       end }.

(** Everything [runTerm] waits for has happened. *)
Definition term_cleaned (w : TermWorld) : bool :=
  lt_canceled (tw_term w) && jq_closed (lt_queue (tw_term w)) && lt_stopped (tw_term w) && forallb exited (tw_workers w) &&
  match tw_loop w, tw_watch w with LoopExited, WatchStopped => true | _, _ => false end.

Inductive run_step : Runtime → Runtime → Prop :=
| rs_call r id : rn_calls r !! id = None →
    run_step r (set_call id {| rc_phase := RunEntering; rc_done := false; rc_canceled := false |} r)
| rs_enter r id c : rn_calls r !! id = Some c → rc_phase c = RunEntering → rn_running r = false →
    run_step r { set_call id { c with rc_phase := RunOpening 0 } r with rn_running := true }
| rs_refuse r id c : rn_calls r !! id = Some c → rc_phase c = RunEntering → rn_running r = true →
    run_step r (set_call id { c with rc_phase := RunReturned already_running } r)
| rs_open r id c n : rn_calls r !! id = Some c → rc_phase c = RunOpening n → rc_done c = false →
    run_step r (set_call id { c with rc_phase := RunCampaigning n; rc_canceled := false } r)
| rs_open_failed r id c n : rn_calls r !! id = Some c → rc_phase c = RunOpening n →
    run_step r (set_call id { c with rc_phase := RunBackoff n } r)
| rs_elected r id c n history log : rn_calls r !! id = Some c → rc_phase c = RunCampaigning n → rc_canceled c = false →
    run_step r (set_call id { c with rc_phase := RunInTerm (start_term config history log) } r)
| rs_lost_campaign r id c n : rn_calls r !! id = Some c → rc_phase c = RunCampaigning n →
    run_step r (set_call id { c with rc_phase := RunClosing n } r)
| rs_session_done r id c : rn_calls r !! id = Some c → run_step r (set_call id (cancel_candidacy c) r)
| rs_caller_done r id c : rn_calls r !! id = Some c → run_step r (set_call id { cancel_candidacy c with rc_done := true } r)
| rs_term r id c w w' : rn_calls r !! id = Some c → rc_phase c = RunInTerm w → term_step w w' →
    run_step r (set_call id { c with rc_phase := RunInTerm w' } r)
| rs_term_exit r id c w : rn_calls r !! id = Some c → rc_phase c = RunInTerm w → term_cleaned w = true →
    run_step r (set_call id { c with rc_phase := RunClosing 0 } r)
| rs_closed r id c n : rn_calls r !! id = Some c → rc_phase c = RunClosing n →
    run_step r (set_call id { c with rc_phase := RunBackoff n } r)
| rs_retry r id c n : rn_calls r !! id = Some c → rc_phase c = RunBackoff n → rc_done c = false →
    run_step r (set_call id { c with rc_phase := RunOpening (S n) } r)
| rs_return r id c n : rn_calls r !! id = Some c → rc_phase c = RunOpening n ∨ rc_phase c = RunBackoff n → rc_done c = true →
    run_step r { set_call id { c with rc_phase := RunReturned [ContextErr] } r with rn_running := false }.
End election.
