(* ===== verification/SchedulerInv.v ===== *)
(** * Correctness of the trigger leader

    A term keeps exactly one Cron entry per registered rule, follows every committed
    change of the rules it is told about, and offers overdue Jobs. *)

From S2P Require Import Prelude GoLib Tx Model TaskRepo InstanceRepo JobRepo Trigger System Runs Scans HintSpec TriggerQueue Scheduler.

Open Scope string_scope.
Open Scope list_scope.
Open Scope Z_scope.

(** ** Cron entries and rules *)

Section sync.
Context `{CronEngine} (Hcron : cron_documented).

Definition registered (e : Engine) (id : Z) (r : registeredRule) : Prop :=
  ∃ s, Parse (gr_expr r) = Ok s ∧ cron_Entries e !! gr_entry r = Some (s, id).

(** The rules and the entries are the same thing. *)
Record in_sync (e : Engine) (rules : gmap Z registeredRule) : Prop := {
  sy_rules id r : rules !! id = Some r → registered e id r;
  sy_entries n s id : cron_Entries e !! n = Some (s, id) → ∃ r, rules !! id = Some r ∧ gr_entry r = n;
}.

(** The rule cannot be scheduled: it does not parse, or has no occurrence. *)
Definition unschedulable (expr : string) : Prop := ∃ now, schedulable expr now = None.

(** Exactly the rules of a snapshot that can be scheduled. *)
Record reflects (rules : gmap Z registeredRule) (snapshot : list Rule) : Prop := {
  rf_only id r : rules !! id = Some r → {| ru_ID := id; ru_CronExpr := gr_expr r |} ∈ snapshot;
  rf_all rule : rule ∈ snapshot →
    (∃ r, rules !! ru_ID rule = Some r ∧ gr_expr r = ru_CronExpr rule) ∨ unschedulable (ru_CronExpr rule);
}.

Record applying (a : Applying) (processed : list Rule) : Prop := {
  ai_old id r : ap_rules a !! id = Some r → registered (ap_cron a) id r;
  ai_next id r : ap_next a !! id = Some r → registered (ap_cron a) id r;
  ai_entries n s id : cron_Entries (ap_cron a) !! n = Some (s, id) →
    ∃ r, (ap_next a !! id = Some r ∨ ap_rules a !! id = Some r) ∧ gr_entry r = n;
  ai_kept id r o : ap_next a !! id = Some r → ap_rules a !! id = Some o → r = o;
  ai_reflects : reflects (ap_next a) processed;
}.

Lemma schedulable_parse expr now s : schedulable expr now = Some s → Parse expr = Ok s.
Proof. unfold schedulable. destruct (Parse expr); [|done]. destruct (is_zero _); [done|]. by intros [= ->]. Qed.

Lemma registered_schedule e s id id' r :
  registered e id' r → registered (cron_Schedule e s id).1 id' r.
Proof.
  intros (s' & Hp & Hr). exists s'. split; [done|]. pose proof (entries_Schedule Hcron e s id) as Hs.
  destruct (cron_Schedule e s id) as [e' n]. destruct Hs as [Hf Hs]. simpl. rewrite Hs. rewrite lookup_insert_ne; [done|congruence].
Qed.
Lemma registered_remove e n id r : registered e id r → gr_entry r ≠ n → registered (cron_Remove e n) id r.
Proof. intros (s & Hp & Hr) Hn. exists s. split; [done|]. rewrite (entries_Remove Hcron), lookup_delete_ne; done. Qed.

(** Two registrations that share an entry are of the same Job. *)
Lemma registered_inj e id id' r r' : registered e id r → registered e id' r' → gr_entry r = gr_entry r' → id = id'.
Proof. intros (s & _ & Hr) (s' & _ & Hr') E. congruence. Qed.

Lemma reflects_skip next snapshot rule : reflects next snapshot → unschedulable (ru_CronExpr rule) → reflects next (snapshot ++ [rule]).
Proof.
  intros [Ho Ha] Hu. split; [intros id r Hr; specialize (Ho _ _ Hr); set_solver|].
  intros x [Hx| ->%list_elem_of_singleton]%elem_of_app; [by apply Ha|by right].
Qed.
Lemma reflects_add next snapshot rule r :
  reflects next snapshot → ru_ID rule ∉ (ru_ID <$> snapshot) → gr_expr r = ru_CronExpr rule →
  reflects (<[ru_ID rule := r]> next) (snapshot ++ [rule]).
Proof.
  intros [Ho Ha] Hni He. split.
  - intros id x. destruct (decide (id = ru_ID rule)) as [->|Hne].
    + rewrite lookup_insert_eq. intros [= <-]. apply elem_of_app. right. apply list_elem_of_singleton. destruct rule. by simplify_eq/=.
    + rewrite lookup_insert_ne by done. intros Hx. specialize (Ho _ _ Hx). set_solver.
  - intros x [Hx| ->%list_elem_of_singleton]%elem_of_app; [|left; exists r; by rewrite lookup_insert_eq].
    destruct (Ha x Hx) as [(y & Hy & Hey)|Hu]; [left|by right]. exists y. split; [|done]. rewrite lookup_insert_ne; [done|].
    intros E. apply Hni. rewrite E. apply list_elem_of_fmap. eauto.
Qed.

Lemma not_processed next snapshot id : reflects next snapshot → id ∉ (ru_ID <$> snapshot) → next !! id = None.
Proof.
  intros HR Hni. destruct (next !! id) as [r|] eqn:E; [|done]. apply (rf_only _ _ HR) in E. exfalso. apply Hni.
  apply list_elem_of_fmap. eexists; split; [|done]. done.
Qed.

(** Registering a rule whose Job has no entry. *)
Lemma applying_schedule a processed rule s :
  applying a processed → ru_ID rule ∉ (ru_ID <$> processed) → ap_rules a !! ru_ID rule = None →
  Parse (ru_CronExpr rule) = Ok s →
  let '(cron, entry) := cron_Schedule (ap_cron a) s (ru_ID rule) in
  applying {| ap_cron := cron; ap_rules := ap_rules a;
              ap_next := <[ru_ID rule := {| gr_expr := ru_CronExpr rule; gr_entry := entry |}]> (ap_next a);
              ap_changed := ap_changed a ++ [ru_ID rule] |} (processed ++ [rule]).
Proof.
  intros [H1 H2 H3 H4 H5] Hni Hnone Hp. pose proof (registered_schedule (ap_cron a) s (ru_ID rule)) as Hreg.
  pose proof (entries_Schedule Hcron (ap_cron a) s (ru_ID rule)) as Hs.
  destruct (cron_Schedule (ap_cron a) s (ru_ID rule)) as [cron entry]. destruct Hs as [Hf Hs]. simpl in Hreg.
  constructor; simpl.
  - intros id r Hr. by apply Hreg, H1.
  - intros id r. destruct (decide (id = ru_ID rule)) as [->|Hne].
    + rewrite lookup_insert_eq. intros [= <-]. exists s. simpl. split; [done|]. by rewrite Hs, lookup_insert_eq.
    + rewrite lookup_insert_ne by done. intros Hr. by apply Hreg, H2.
  - intros n s' id. rewrite Hs. destruct (decide (n = entry)) as [->|Hne].
    + rewrite lookup_insert_eq. intros [= <- <-]. eexists. rewrite lookup_insert_eq. split; [by left|done].
    + rewrite lookup_insert_ne by done. intros (r & Hr & Hn)%H3. exists r. split; [|done].
      destruct (decide (id = ru_ID rule)) as [->|Hid]; [|by rewrite lookup_insert_ne].
      exfalso. rewrite Hnone, (not_processed _ _ _ H5 Hni) in Hr. by destruct Hr.
  - intros id r o. destruct (decide (id = ru_ID rule)) as [->|Hid]; [by rewrite Hnone|]. rewrite lookup_insert_ne by done. apply H4.
  - by apply reflects_add.
Qed.

(** Dropping the entry of an outdated rule. *)
Lemma applying_remove a processed rule o :
  applying a processed → ru_ID rule ∉ (ru_ID <$> processed) → ap_rules a !! ru_ID rule = Some o →
  applying { a with ap_cron := cron_Remove (ap_cron a) (gr_entry o); ap_rules := delete (ru_ID rule) (ap_rules a) } processed.
Proof.
  intros [H1 H2 H3 H4 H5] Hni Ho. pose proof (not_processed _ _ _ H5 Hni) as Hnn. constructor; simpl; try done.
  - intros id r [Hne Hr]%lookup_delete_Some. apply registered_remove; [by apply H1|]. intros E.
    apply Hne. symmetry. eapply registered_inj; [by apply H1|by apply H1|done].
  - intros id r Hr. apply registered_remove; [by apply H2|]. intros E.
    assert (id = ru_ID rule) as -> by (eapply registered_inj; [by apply H2|by apply H1|done]). congruence.
  - intros n s id. rewrite (entries_Remove Hcron). intros [Hne Hn]%lookup_delete_Some. destruct (H3 _ _ _ Hn) as (r & Hr & Hrn).
    exists r. split; [|done]. destruct Hr as [Hr|Hr]; [by left|right]. rewrite lookup_delete_ne; [done|]. intros <-. congruence.
  - intros id r x Hr [_ Hx]%lookup_delete_Some. by eapply H4.
Qed.

Lemma apply_rule_inv now a processed rule :
  applying a processed → ru_ID rule ∉ (ru_ID <$> processed) → applying (apply_rule now a rule) (processed ++ [rule]).
Proof.
  intros HA Hni. unfold apply_rule. destruct (ap_rules a !! ru_ID rule) as [o|] eqn:Ho.
  - case_bool_decide as He.
    + destruct HA as [H1 H2 H3 H4 H5]. constructor; simpl; try done.
      * intros id r. destruct (decide (id = ru_ID rule)) as [->|Hne]; [rewrite lookup_insert_eq; intros [= <-]; auto|].
        rewrite lookup_insert_ne by done. apply H2.
      * intros n s id Hn. destruct (H3 _ _ _ Hn) as (r & Hr & Hrn). exists r. split; [|done].
        destruct (decide (id = ru_ID rule)) as [->|Hne]; [|by rewrite lookup_insert_ne].
        rewrite (not_processed _ _ _ H5 Hni) in Hr. destruct Hr; [done|by right].
      * intros id r x. destruct (decide (id = ru_ID rule)) as [->|Hne]; [rewrite lookup_insert_eq; congruence|].
        rewrite lookup_insert_ne by done. apply H4.
      * by apply reflects_add.
    + cbv zeta. pose proof (applying_remove _ _ _ _ HA Hni Ho) as HA'. destruct (schedulable (ru_CronExpr rule) now) as [s|] eqn:Es.
      * pose proof (applying_schedule _ _ _ s HA' Hni (lookup_delete_eq _ _) (schedulable_parse _ _ _ Es)) as HA2. simpl in HA2.
        simpl. destruct (cron_Schedule _ s (ru_ID rule)). exact HA2.
      * destruct HA' as [H1 H2 H3 H4 H5]. constructor; try done. apply reflects_skip; [done|]. by exists now.
  - destruct (schedulable (ru_CronExpr rule) now) as [s|] eqn:Es.
    + pose proof (applying_schedule _ _ _ s HA Hni Ho (schedulable_parse _ _ _ Es)) as HA2. by destruct (cron_Schedule (ap_cron a) s (ru_ID rule)).
    + destruct HA as [H1 H2 H3 H4 H5]. constructor; try done. apply reflects_skip; [done|]. by exists now.
Qed.

Lemma apply_rules_inv clock live a processed rules a' rest :
  applying a processed → NoDup (ru_ID <$> (processed ++ rules)) → apply_rules clock live a rules = (a', Some rest) →
  applying a' (processed ++ rules).
Proof.
  revert live a processed. induction rules as [|rule rules IH]; intros live a processed HA Hnd; simpl.
  { intros [= <- <-]. by rewrite app_nil_r. }
  intros E. rewrite cons_middle, app_assoc in Hnd |- *.
  assert (ru_ID rule ∉ (ru_ID <$> processed)) as Hni.
  { rewrite !fmap_app in Hnd. simpl in Hnd. apply NoDup_app in Hnd as (Hnd & _ & _). apply NoDup_app in Hnd as (_ & Hd & _).
    intros Hin. by apply (Hd _ Hin), list_elem_of_singleton. }
  destruct live as [[|n]|]; [done| |]; (eapply IH; [|done|exact E]); by apply apply_rule_inv.
Qed.

Lemma remove_absent_entries e old next n x :
  cron_Entries (remove_absent e old next) !! n = Some x ↔
  cron_Entries e !! n = Some x ∧ ∀ id o, old !! id = Some o → next !! id = None → gr_entry o ≠ n.
Proof.
  unfold remove_absent. setoid_rewrite <-(elem_of_map_to_list old). revert e.
  induction (map_to_list old) as [|[id o] l IH]; intros e; simpl; [split; [intros; split; [done|set_solver]|by intros [? _]]|].
  rewrite IH. clear IH. destruct (decide (is_Some (next !! id))) as [Hs|Hs].
  - split; intros [He Ha]; (split; [done|]); intros id' o' Hin Hn; [|apply (Ha id' o'); set_solver].
    apply elem_of_cons in Hin as [[= -> ->]|Hin]; [rewrite Hn in Hs; by destruct Hs|eauto].
  - rewrite (entries_Remove Hcron), lookup_delete_Some. split.
    + intros [[Hne He] Ha]. split; [done|]. intros id' o' [[= -> ->]|Hin]%elem_of_cons Hn; [done|eauto].
    + intros [He Ha]. split; [split; [|done]|intros id' o' Hin; apply Ha; by right].
      apply (Ha id o); [left|]. by apply eq_None_not_Some.
Qed.

(** A complete pass leaves one entry per schedulable rule of the snapshot. *)
Lemma applied_in_sync a snapshot : applying a snapshot → in_sync (remove_absent (ap_cron a) (ap_rules a) (ap_next a)) (ap_next a).
Proof.
  intros [H1 H2 H3 H4 H5]. split.
  - intros id r Hr. destruct (H2 _ _ Hr) as (s & Hp & Hs). exists s. split; [done|]. apply remove_absent_entries. split; [done|].
    intros id' o Ho Hn E. assert (id' = id) as -> by (eapply registered_inj; [by apply H1|by apply H2|done]). congruence.
  - intros n s id [Hn Ha]%remove_absent_entries. destruct (H3 _ _ _ Hn) as (r & [Hr|Hr] & Hrn); [eauto|].
    destruct (ap_next a !! id) as [r'|] eqn:En; [exists r'; split; [done|]; by rewrite (H4 _ _ _ En Hr)|]. by destruct (Ha id r Hr En).
Qed.

Lemma applying_start e rules : in_sync e rules → applying {| ap_cron := e; ap_rules := rules; ap_next := ∅; ap_changed := [] |} [].
Proof.
  intros [Hr He]. constructor; simpl; [done|intros ??; by rewrite lookup_empty| |intros ???; by rewrite lookup_empty|].
  - intros n s id Hn. destruct (He _ _ _ Hn) as (r & ? & ?). eauto.
  - split; [intros ??; by rewrite lookup_empty|set_solver].
Qed.

(** ** Applying a snapshot to a term *)

Lemma term_offer_frame t id :
  let t' := (term_offer t id).1 in
  lt_cron t' = lt_cron t ∧ lt_rules t' = lt_rules t ∧ lt_reload t' = lt_reload t ∧ lt_canceled t' = lt_canceled t ∧ lt_started t' = lt_started t.
Proof. unfold term_offer. destruct (lt_canceled t) eqn:E; [done|]. by destruct (offer (lt_queue t) id). Qed.
Lemma offer_all_frame t ids :
  let t' := offer_all t ids in
  lt_cron t' = lt_cron t ∧ lt_rules t' = lt_rules t ∧ lt_reload t' = lt_reload t ∧ lt_canceled t' = lt_canceled t ∧ lt_started t' = lt_started t.
Proof.
  revert t. induction ids as [|id ids IH]; intros t; simpl; [done|]. pose proof (term_offer_frame t id) as Hf.
  destruct (term_offer t id) as [t' ok]. simpl in *. destruct ok; [|done]. destruct Hf as (<- & <- & <- & <- & <-). apply IH.
Qed.

Lemma apply_frame t clock live rules : lt_reload (apply t clock live rules) = lt_reload t.
Proof.
  unfold apply. destruct (_ || bool_decide _); [done|]. destruct (apply_rules _ _ _ _) as [a [live'|]]; [|done].
  cbv zeta. destruct (bool_decide _); [done|].
  destruct (pred <$> live') as [n|]; [destruct (n <? _)%nat|]; destruct (lt_started _); simpl;
    match goal with |- context [offer_all ?t ?l] => by destruct (offer_all_frame t l) as (_ & _ & E & _ & _) end.
Qed.

Lemma apply_in_sync t clock live rules :
  in_sync (lt_cron t) (lt_rules t) → NoDup (ru_ID <$> rules) → lt_canceled t = false → lt_stopped t = false →
  lt_canceled (apply t clock live rules) = true ∨
  (in_sync (lt_cron (apply t clock live rules)) (lt_rules (apply t clock live rules)) ∧ reflects (lt_rules (apply t clock live rules)) rules).
Proof.
  intros HS Hnd Hc Hst. unfold apply. rewrite Hc, Hst. simpl. case_bool_decide as Hl; [by left|].
  destruct (apply_rules clock (pred <$> live) _ rules) as [a [live'|]] eqn:E; [|by left].
  pose proof (apply_rules_inv _ _ _ [] _ _ _ (applying_start _ _ HS) Hnd E) as HA. simpl in HA.
  case_bool_decide as Hl'; [by left|].
  set (t' := if lt_started _ then _ else _).
  assert (lt_rules t' = ap_next a ∧ cron_Entries (lt_cron t') = cron_Entries (remove_absent (ap_cron a) (ap_rules a) (ap_next a))) as [Er Ec].
  { subst t'. simpl. destruct (lt_started t); [done|]. simpl. by rewrite (entries_Start Hcron). }
  assert (∀ ids, in_sync (lt_cron (offer_all t' ids)) (lt_rules (offer_all t' ids)) ∧ reflects (lt_rules (offer_all t' ids)) rules) as Hdone.
  { intros ids. destruct (offer_all_frame t' ids) as (-> & -> & _). rewrite Er. split; [|apply (ai_reflects _ _ HA)].
    pose proof (applied_in_sync _ _ HA) as [H1 H2]. split.
    - intros id r Hr. destruct (H1 _ _ Hr) as (s & ? & ?). exists s. by rewrite Ec.
    - intros n s id. rewrite Ec. apply H2. }
  destruct (pred <$> live') as [n|]; [|by right]. destruct (n <? _)%nat; [by left|by right].
Qed.
End sync.

(** ** Every change is followed *)

Section terms.
Context `{CronEngine} (Hcron : cron_documented).

Definition put_before (moment : nat) (o : option nat) : Prop := match o with Some m => (m ≤ moment)%nat | None => True end.

Record term_inv (w : TermWorld) : Prop := {
  ti_history : tw_history w ≠ [] ∧ Forall (λ rules, NoDup (ru_ID <$> rules)) (tw_history w);
  ti_sync : lt_canceled (tw_term w) = true ∨
    (lt_stopped (tw_term w) = false ∧ in_sync (lt_cron (tw_term w)) (lt_rules (tw_term w)) ∧
     ∀ m, tw_applied w = Some m → ∃ snapshot, tw_history w !! m = Some snapshot ∧ reflects (lt_rules (tw_term w)) snapshot);
  ti_loaded rules m : tw_loop w = LoopLoaded rules m → tw_history w !! m = Some rules;
  ti_signaled : (tw_signaled w ≤ moment w)%nat;
  ti_reload : lt_canceled (tw_term w) = true ∨ lt_reload (tw_term w) = true ∨
    match tw_loop w with
    | LoopWaiting => tw_failed w = true ∨ ∃ m, tw_applied w = Some m ∧ (tw_signaled w ≤ m)%nat
    | LoopLoaded _ m => (tw_signaled w ≤ m)%nat
    | _ => True
    end;
  ti_puts : Forall (put_before (moment w)) (tw_log w);
  ti_watch : lt_canceled (tw_term w) = true ∨
    match tw_watch w with Watching n => Forall (put_before (tw_signaled w)) (firstn n (tw_log w)) | _ => True end;
  ti_next : match tw_watch w with WatchRevision n | WatchCreated n | Watching n => (n ≤ length (tw_log w))%nat | _ => True end;
}.

Lemma put_before_weaken n m l : (n ≤ m)%nat → Forall (put_before n) l → Forall (put_before m) l.
Proof. intros Hle Hf. eapply Forall_impl; [exact Hf|]. intros [k|]; simpl; lia. Qed.

(** Signalling, whatever the watch has delivered up to now. *)
Lemma signalled_inv w watch :
  term_inv w →
  match watch with WatchRevision n | WatchCreated n | Watching n => (n ≤ length (tw_log w))%nat | _ => True end →
  term_inv { signalled w with tw_watch := watch }.
Proof.
  intros HI Hn. unfold signalled. destruct (lt_canceled (tw_term w)) eqn:Ec.
  - destruct HI as [H1 H2 H3 H4 H5 H6 H7 H8]. constructor; simpl; try done; by left.
  - destruct HI as [H1 H2 H3 H4 H5 H6 H7 H8]. unfold signalReload. rewrite Ec. constructor; simpl; try done.
    + by right; left.
    + right. destruct watch; try done. by apply Forall_take.
Qed.

Lemma signalled_same w : signalled w = { signalled w with tw_watch := tw_watch w }.
Proof. unfold signalled. by destruct (lt_canceled (tw_term w)), w. Qed.

(** A step that leaves the rules and the loop alone. *)
Lemma term_frame w t workers :
  term_inv w → lt_cron t = lt_cron (tw_term w) → lt_rules t = lt_rules (tw_term w) → lt_reload t = lt_reload (tw_term w) →
  lt_stopped t = lt_stopped (tw_term w) → lt_canceled t = lt_canceled (tw_term w) →
  term_inv { w with tw_term := t; tw_workers := workers }.
Proof. intros [H1 H2 H3 H4 H5 H6 H7 H8] Ecr Er Erl Es Ec. constructor; simpl; rewrite ?Ecr, ?Er, ?Erl, ?Es, ?Ec; done. Qed.

(** A canceled term owes nothing more. *)
Lemma canceled_frame w t loop :
  term_inv w → lt_canceled t = true → (∀ rules m, loop = LoopLoaded rules m → tw_loop w = loop) →
  term_inv { w with tw_term := t; tw_loop := loop }.
Proof.
  intros [H1 H2 H3 H4 H5 H6 H7 H8] Ec Hl. constructor; simpl; try done; try by left. intros rules m ->. apply H3. by rewrite (Hl _ _ eq_refl).
Qed.

Lemma offer_all_stopped (t : leaderTerm) ids : lt_stopped (offer_all t ids) = lt_stopped t.
Proof.
  revert t. induction ids as [|id ids IH]; intros t; simpl; [done|]. unfold term_offer. destruct (lt_canceled t); [done|].
  destruct (offer (lt_queue t) id) as [q []]; [by rewrite IH|done].
Qed.
Lemma apply_stopped (t : leaderTerm) clock live rules : lt_stopped (apply t clock live rules) = lt_stopped t.
Proof.
  unfold apply. destruct (_ || bool_decide _); [done|]. destruct (apply_rules _ _ _ _) as [a [live'|]]; [|done]. cbv zeta.
  destruct (bool_decide _); [done|].
  destruct (pred <$> live') as [n|]; [destruct (n <? _)%nat|]; destruct (lt_started _); simpl; by rewrite offer_all_stopped.
Qed.

Lemma term_step_inv w w' : term_inv w → term_step w w' → term_inv w'.
Proof.
  intros HI Hs. pose proof HI as [H1 H2 H3 H4 H5 H6 H7 H8].
  destruct Hs as [w rules Hnd|w|w|w|w|w Hl Hr Hc|w rules Hl Hla|w Hl Hc|w rules m clock live Hl Hc|w Hc|w Hw|w n Hw|w n Hw|w n m Hw Hlog|w n Hw Hlog|w
    |w n s id He Hst|w ids|w k q id Hk Ht|w k q id Hk Ht|w k x Hk Hc|w Hc|w Hc].
  - assert (moment w ≤ moment { w with tw_history := tw_history w ++ [rules] })%nat as Hm by (unfold moment; simpl; rewrite length_app; simpl; lia).
    constructor; simpl; try done.
    + split; [by destruct (tw_history w)|]. apply Forall_app. split; [apply H1|by repeat constructor].
    + destruct H2 as [?|(? & ? & Ha)]; [by left|right]. split_and!; [done..|]. intros m Hm'. destruct (Ha m Hm') as (sn & Hsn & ?).
      exists sn. split; [|done]. by apply lookup_app_l_Some.
    + intros rules' m Hl. by apply lookup_app_l_Some, H3.
    + lia.
    + by eapply put_before_weaken.
  - constructor; simpl; try done.
    + apply Forall_app. split; [done|]. repeat constructor.
    + destruct H7 as [?|H7]; [by left|right]. destruct (tw_watch w) as [| | |n]; try done. rewrite take_app_le by done. done.
    + rewrite length_app. destruct (tw_watch w); simpl; lia.
  - constructor; simpl; try done.
    + apply Forall_app. split; [done|]. repeat constructor.
    + destruct H7 as [?|H7]; [by left|right]. destruct (tw_watch w) as [| | |n]; try done. rewrite take_app_le by done. done.
    + rewrite length_app. destruct (tw_watch w); simpl; lia.
  - constructor; simpl; try done; by left.
  - rewrite signalled_same. by apply signalled_inv.
  - constructor; simpl; try done. by right; right.
  - constructor; simpl; try done.
    + intros rules' m [= <- <-]. rewrite last_lookup in Hla. unfold moment. by rewrite Nat.sub_1_r.
    + destruct H5 as [?|[?|_]]; [by left|by right; left|right; right]. done.
  - constructor; simpl; try done. right; right. by left.
  - destruct H2 as [?|(Hst & Hsy & Ha)]; [congruence|]. pose proof (H3 _ _ Hl) as Hh.
    assert (NoDup (ru_ID <$> rules)) as Hnd by (destruct H1 as [_ H1]; exact (Forall_lookup_1 _ _ _ _ H1 Hh)).
    pose proof (apply_in_sync Hcron (tw_term w) clock live rules Hsy Hnd Hc Hst) as Happ.
    constructor; simpl; try done.
    + destruct Happ as [?|[Hs' Hr']]; [by left|right]. split_and!; [by rewrite apply_stopped|done|]. intros m' [= <-]. eauto.
    + rewrite apply_frame. destruct H5 as [?|[?|H5]]; [congruence|by right; left|right; right; right]. rewrite Hl in H5. eauto.
    + destruct H7 as [?|?]; [congruence|by right].
  - apply (canceled_frame w (tw_term w) LoopExited); done.
  - constructor; simpl; try done. by right.
  - rewrite Hw in H8. constructor; simpl; try done. by right.
  - rewrite Hw in H8. by apply signalled_inv.
  - apply lookup_lt_Some in Hlog. by apply signalled_inv.
  - pose proof (lookup_lt_Some _ _ _ Hlog) as Hlt. constructor; simpl; try done.
    destruct H7 as [?|H7]; [by left|right]. rewrite Hw in H7. rewrite (take_S_r _ _ _ Hlog). apply Forall_app. split; [done|]. repeat constructor.
  - constructor; simpl; try done. by right.
  - pose proof (term_offer_frame (tw_term w) id) as (Ecr & Er & Erl & Ec & _). apply (term_frame w _ (tw_workers w)); try done.
    unfold term_offer. destruct (lt_canceled _); [done|]. by destruct (offer _ id).
  - pose proof (offer_all_frame (tw_term w) ids) as (Ecr & Er & Erl & Ec & _). apply (term_frame w _ (tw_workers w)); try done.
    apply offer_all_stopped.
  - by apply (term_frame w { tw_term w with lt_queue := q } (<[k := Busy id]> (tw_workers w))).
  - by apply (term_frame w { tw_term w with lt_queue := q } (<[k := Idle]> (tw_workers w))).
  - by apply (term_frame w (tw_term w) (<[k := Exited]> (tw_workers w))).
  - by apply (canceled_frame w (close_queue (tw_term w)) (tw_loop w)).
  - by apply (canceled_frame w (stop_cron (tw_term w)) (tw_loop w)).
Qed.

Lemma start_term_inv config history log :
  history ≠ [] → Forall (λ rules, NoDup (ru_ID <$> rules)) history → Forall (put_before (length history - 1)) log →
  term_inv (start_term config history log).
Proof.
  intros Hne Hnd Hlog. constructor; simpl; try done; try (by right).
  - right. split; [done|]. split; [|done]. split; [intros ??; by rewrite lookup_empty|].
    intros n s id. by rewrite (entries_New Hcron), lookup_empty.
  - by right; left.
Qed.

(** C18: The leader follows every change of the Job definitions it was notified of: whatever
    the interleaving of commits, notifications, loads, lost watches and reload signals,
    when the term is idle, its watch has delivered what was written and no load has
    failed since the last signal, its rules come from a snapshot that is not older than
    any notification, and Cron has exactly one entry, with the right schedule and Job, for
    every rule of that snapshot that can be scheduled. *)
Theorem rules_follow_changes config history log w :
  history ≠ [] → Forall (λ rules, NoDup (ru_ID <$> rules)) history → Forall (put_before (length history - 1)) log →
  rtc term_step (start_term config history log) w →
  lt_canceled (tw_term w) = false → tw_loop w = LoopWaiting → lt_reload (tw_term w) = false → tw_failed w = false →
  tw_watch w = Watching (length (tw_log w)) →
  ∃ m snapshot, tw_history w !! m = Some snapshot ∧ Forall (put_before m) (tw_log w) ∧
    in_sync (lt_cron (tw_term w)) (lt_rules (tw_term w)) ∧ reflects (lt_rules (tw_term w)) snapshot.
Proof.
  intros Hne Hnd Hlog Hr Hc Hl Hrl Hf Hw.
  assert (term_inv w) as HI.
  { pose proof (start_term_inv config history log Hne Hnd Hlog) as H0i. clear -Hr H0i Hcron.
    induction Hr as [|w1 w2 w3 Hs _ IH]; [done|]. apply IH. by eapply term_step_inv. }
  destruct HI as [_ H2 _ _ H5 _ H7 _]. rewrite Hc in *. destruct H2 as [?|(_ & Hs & Ha)]; [done|].
  destruct H5 as [?|[?|H5]]; [done|congruence|]. rewrite Hl in H5. destruct H5 as [?|(m & Hm & Hle)]; [congruence|].
  destruct H7 as [?|H7]; [done|]. rewrite Hw, firstn_all in H7. destruct (Ha m Hm) as (snapshot & Hsn & Hre).
  exists m, snapshot. split_and!; [done|by eapply put_before_weaken|done|done].
Qed.
End terms.

(** ** Overdue Jobs *)

Section recovery.
Context `{CronEngine}.

Definition owed (s : TriggerSpec) : Z := Z.of_nat (length (ts_ready s) + size (ts_active s)).

Lemma offer_room capacity s id :
  ts_closed s = false → owed s < capacity →
  ∃ s', spec_call capacity s (Offer id) = Some (s', Accepted true) ∧ ts_closed s' = false ∧ owed s' ≤ owed s + 1.
Proof.
  intros Hc Ho. unfold owed in *. simpl. rewrite Hc. case_bool_decide; [eexists; split_and!; [done..|lia]|].
  case_bool_decide; [eexists; split_and!; [done|done|simpl; lia]|].
  rewrite (proj2 (Z.eqb_neq _ _)) by lia. eexists; split_and!; [done|done|]. simpl. rewrite length_app. simpl. lia.
Qed.

(** With room for all of them every hint is accepted and stays due. *)
Lemma offer_all_room capacity t s ids :
  lt_canceled t = false → represents capacity (lt_queue t) s → ts_closed s = false →
  owed s + Z.of_nat (length ids) ≤ capacity →
  ∃ s', represents capacity (lt_queue (offer_all t ids)) s' ∧ (∀ id, id ∈ ids ∨ due s id → due s' id).
Proof.
  revert t s. induction ids as [|id ids IH]; intros t s Hc HR Hcl Hroom; simpl in *.
  { exists s. split; [done|]. intros id [Hin|?]; [set_solver|done]. }
  unfold term_offer. rewrite Hc. destruct (offer_room capacity s id Hcl ltac:(lia)) as (s1 & Hs1 & Hcl1 & Ho1).
  destruct (sim_offer _ _ _ id HR _ _ Hs1) as (q1 & Hq & HR1). simpl in Hq. destruct (offer (lt_queue t) id) as [q b].
  injection Hq as <- ->. destruct (IH { t with lt_queue := q } s1) as (s2 & HR2 & Hd2); [done..|lia|].
  exists s2. split; [done|]. intros x [[->|Hx]%elem_of_cons|Hx]; [apply Hd2; right; by eapply offer_due|by apply Hd2; left|].
  destruct (due_kept _ _ _ _ _ _ Hs1 Hx) as [?|[[=]|[=]]]. by apply Hd2; right.
Qed.

Lemma due_job_Some t r c : due_job t r = Some c →
  du_ID c = r.1 ∧ j_next_trigger_at r.2 = Some (du_NextTriggerAt c).
Proof. unfold due_job. destruct (j_next_trigger_at r.2); [|done]. destruct (_ && _); [|done]. by intros [= <-]. Qed.

Lemma due_sorted t d : StronglySorted (key_lt du_key) (candidates (jobs d) (due_job t) du_key) ∧
  NoDup (du_ID <$> candidates (jobs d) (due_job t) du_key).
Proof.
  assert (∀ r c, due_job t r = Some c → (du_key c).2 = r.1) as Hid by (intros r c E; by apply due_job_Some in E as [? _]).
  split; [by apply candidates_sorted|exact (NoDup_candidates _ _ _ Hid)].
Qed.

(** Missed triggers are recovered: an undisturbed recovery pass of a term whose queue
    has room for a batch leaves every one of the earliest due Jobs, up to the batch limit,
    waiting for a worker or owed another round by the worker that has it, without touching
    the database or forgetting an earlier hint. *)
Theorem due_jobs_recovered t config term capacity s d :
  lt_canceled term = false → represents capacity (lt_queue term) s → ts_closed s = false → 0 < cf_RecoveryLimit config →
  owed s + cf_RecoveryLimit config ≤ capacity →
  ∃ term' s', calm_to t (recoverDue config term) d d (Ok term') [] ∧ represents capacity (lt_queue term') s' ∧
    (∀ id, due s id → due s' id) ∧
    (∀ id j next, jobs d !! id = Some j → live_job j = true → j_status j = RecordStatusEnabled → j_next_trigger_at j = Some next → next ≤ t →
       due s' id ∨ ∃ others, Z.of_nat (length others) = cf_RecoveryLimit config ∧ NoDup others ∧
         ∀ o, o ∈ others → due s' o ∧ o ≠ id ∧ ∃ jo n, jobs d !! o = Some jo ∧ j_next_trigger_at jo = Some n ∧ n ≤ next).
Proof.
  intros Hc HR Hcl Hlim Hroom. set (rows_ := candidates (jobs d) (due_job t) du_key).
  set (batch := firstn (Z.to_nat (cf_RecoveryLimit config)) rows_).
  assert (length batch ≤ Z.to_nat (cf_RecoveryLimit config))%nat as Hlen by (subst batch; rewrite length_take; lia).
  destruct (offer_all_room capacity term s (du_ID <$> batch) Hc HR Hcl) as (s' & HR' & Hd'); [rewrite length_fmap; lia|].
  exists (offer_all term (du_ID <$> batch)), s'. split_and!; [|done|by auto|].
  - unfold recoverDue. rewrite Hc. eapply calm_bind0; [apply calm_pop|]. eapply calm_bind0.
    { apply calm_attempt. eapply calm_bind0; [|eapply calm_bind0; [apply calm_ctx_err|apply calm_ret]].
      unfold ListDue. rewrite (proj2 (Z.ltb_ge _ _)) by lia.
      exact (calm_query t Auto (λ _ d, Ok (firstn (Z.to_nat (cf_RecoveryLimit config)) (order_by du_key (omap (due_job t) (rows (jobs d)))))) d). }
    apply calm_ret.
  - intros id j next Hj Hlv Hst Hn Hle.
    assert ({| du_ID := id; du_NextTriggerAt := next |} ∈ rows_) as Hin.
    { apply elem_of_candidates. exists id, j. split; [done|]. unfold due_job. simpl.
      rewrite Hn, Hlv. unfold has_status. rewrite Hst. simpl. by rewrite (proj2 (Z.leb_le _ _)) by done. }
    rewrite <-(take_drop (Z.to_nat (cf_RecoveryLimit config)) rows_) in Hin. apply elem_of_app in Hin as [Hin|Hin].
    { left. apply Hd'. left. apply list_elem_of_fmap. eexists; split; [|exact Hin]. done. }
    destruct (due_sorted t d) as [Hsort Hnd]. fold rows_ in Hsort, Hnd.
    assert (length batch = Z.to_nat (cf_RecoveryLimit config)) as Hfull.
    { subst batch. rewrite length_take. destruct (decide (length rows_ ≤ Z.to_nat (cf_RecoveryLimit config))%nat) as [Hs|]; [|lia].
      rewrite drop_ge in Hin by done. set_solver. }
    rewrite <-(take_drop (Z.to_nat (cf_RecoveryLimit config)) rows_) in Hsort, Hnd. fold batch in Hsort, Hnd.
    rewrite fmap_app in Hnd. apply NoDup_app in Hnd as (Hnd & Hdis & _).
    right. exists (du_ID <$> batch). split_and!; [rewrite length_fmap; lia|done|].
    intros o (c & -> & Hcin)%list_elem_of_fmap. split_and!.
    + apply Hd'. left. by apply list_elem_of_fmap_2.
    + intros E. apply (Hdis (du_ID c)); [by apply list_elem_of_fmap_2|]. rewrite E. apply list_elem_of_fmap. eexists; split; [|exact Hin]. done.
    + pose proof (StronglySorted_split _ _ _ _ _ Hsort Hcin Hin) as Hlt. unfold key_lt, lexlt, du_key in Hlt. simpl in Hlt.
      assert (c ∈ rows_) as Hc' by (by eapply elem_of_take in Hcin as (k & Hk & _); apply list_elem_of_lookup_2 in Hk).
      apply elem_of_candidates in Hc' as (o & jo & Hjo & Hdue). apply due_job_Some in Hdue as [Ei En]. simpl in *. rewrite Ei.
      eexists jo, _. split_and!; [done|exact En|lia].
Qed.
End recovery.

(** ** Backoff *)

Lemma backoff_loop_bounds t attempt delay :
  tm_backoffMin t ≤ delay ≤ tm_backoffMax t → 0 < tm_backoffMin t →
  tm_backoffMin t ≤ backoff_loop t attempt delay ≤ tm_backoffMax t.
Proof.
  revert delay. induction attempt as [|n IH]; intros delay Hd Hm; simpl; [done|].
  destruct (Z.ltb_spec delay (tm_backoffMax t)); [|done]. apply IH; [|done].
  destruct (Z.ltb_spec (tm_backoffMax t / 2) delay); [lia|]. pose proof (Z.mul_div_le (tm_backoffMax t) 2). lia.
Qed.

(** Every wait between elections or watches is at least the minimum and at most the
    maximum, whatever the attempt and the jitter: no busy loop, and no overflow. *)
Theorem backoff_bounded t attempt random :
  0 < tm_backoffMin t ≤ tm_backoffMax t → (∀ n, 0 < n → 0 ≤ random n < n) →
  tm_backoffMin t ≤ backoff_delay t attempt random ≤ tm_backoffMax t.
Proof.
  intros Hm Hr. unfold backoff_delay. cbv zeta.
  pose proof (backoff_loop_bounds t attempt (tm_backoffMin t) ltac:(lia) ltac:(lia)) as Hb.
  set (delay := backoff_loop t attempt (tm_backoffMin t)) in *.
  set (low := if delay / 2 <? tm_backoffMin t then tm_backoffMin t else delay / 2).
  assert (tm_backoffMin t ≤ low) by (subst low; destruct (Z.ltb_spec (delay / 2) (tm_backoffMin t)); lia).
  destruct (Z.ltb_spec low delay); [|lia]. specialize (Hr (delay - low + 1) ltac:(lia)). lia.
Qed.

(** ** A concrete term *)

Module SchedulerDemo.

(** A running Cron as the map of its entries. *)
#[local] Instance demo_engine : CronEngine := {|
  Engine := gmap Z (Schedule * Z);
  cron_New := ∅;
  cron_Schedule := λ e s id, let n := fresh (dom e) in (<[n := (s, id)]> e, n);
  cron_Remove := λ e n, delete n e;
  cron_Start := id; cron_Stop := id; cron_Entries := id;
|}.

Lemma demo_documented : cron_documented.
Proof. constructor; simpl; try done. intros e s id. split; [|done]. apply not_elem_of_dom, is_fresh. Qed.

Definition demo_config : Config :=
  {| cf_Prefix := "/prod/a"; cf_QueueCapacity := 4; cf_CreationConcurrency := 1; cf_LeaseTTLSeconds := 15; cf_RecoveryLimit := 2; cf_QueryTimeout := Second |}.
Definition demo_rules : list Rule := [{| ru_ID := 1; ru_CronExpr := "0 0 3 * * *" |}].

(** One change is committed and notified while the watch starts; the term subscribes,
    loads and applies it. *)
Definition demo_registered : registeredRule := {| gr_expr := "0 0 3 * * *"; gr_entry := fresh (dom (∅ : gmap Z (Schedule * Z))) |}.
Definition demo_term (queue : jobQueue) (reload : bool) (rules : bool) : leaderTerm :=
  {| lt_queue := queue; lt_reload := reload; lt_cron := if rules then {[gr_entry demo_registered := (tt, 1)]} else ∅ : Engine;
     lt_started := rules; lt_stopped := false; lt_rules := if rules then {[1 := demo_registered]} else ∅; lt_canceled := false |}.
Definition demo_world (term : leaderTerm) (loop : Loop) (watch : Watch) (log : list (option nat)) (signaled : nat) (applied : option nat) : TermWorld :=
  {| tw_term := term; tw_loop := loop; tw_watch := watch; tw_workers := [Idle]; tw_history := [[]; demo_rules]; tw_log := log;
     tw_signaled := signaled; tw_applied := applied; tw_failed := false |}.

Lemma rules_follow_changes_witness :
  ∃ m snapshot, [[]; demo_rules] !! m = Some snapshot ∧ Forall (put_before m) [Some 1%nat] ∧
    in_sync (lt_cron (demo_term (offer (newJobQueue 4) 1).1 false true)) {[1 := demo_registered]} ∧
    reflects {[1 := demo_registered]} snapshot.
Proof.
  assert (∀ w w', term_step w w' → ∀ w'', w'' = w' → rtc term_step w w'') as one by (intros w w' Hs w'' ->; by apply rtc_once).
  apply (rules_follow_changes demo_documented demo_config [[]] []
    (demo_world (demo_term (offer (newJobQueue 4) 1).1 false true) LoopWaiting (Watching 1) [Some 1%nat] 1 (Some 1%nat)));
    [done|repeat constructor|constructor| |done..].
  etrans; [eapply one; [apply ts_revision; done|reflexivity]|].
  etrans; [eapply one; [apply (ts_commit _ demo_rules); repeat constructor; set_solver|reflexivity]|].
  etrans; [eapply one; [apply ts_notify|reflexivity]|].
  etrans; [eapply one; [apply (ts_watch _ 0%nat); done|reflexivity]|].
  etrans; [eapply one; [apply (ts_watch_signal _ 0%nat); done|reflexivity]|].
  etrans; [eapply one; [apply (ts_event _ 0%nat 1%nat); done|reflexivity]|].
  etrans; [eapply one; [apply ts_receive; done|reflexivity]|].
  etrans; [eapply one; [apply (ts_load _ demo_rules); done|reflexivity]|].
  eapply one; [apply (ts_apply _ demo_rules 1%nat (λ _, 5) None); done|]. vm_compute. reflexivity.
Defined.

Lemma due_jobs_recovered_witness :
  ∃ term' s', calm_to 2000 (recoverDue demo_config (newTerm demo_config))
      {| groups := ∅; jobs := {[1 := demo_job]}; instances := ∅; tasks := ∅; next_group := 1; next_job := 2; next_instance := 1; next_task := 1 |}
      {| groups := ∅; jobs := {[1 := demo_job]}; instances := ∅; tasks := ∅; next_group := 1; next_job := 2; next_instance := 1; next_task := 1 |}
      (Ok term') [] ∧ represents 4 (lt_queue term') s'.
Proof.
  destruct (due_jobs_recovered 2000 demo_config (newTerm demo_config) 4 spec_empty
    {| groups := ∅; jobs := {[1 := demo_job]}; instances := ∅; tasks := ∅; next_group := 1; next_job := 2; next_instance := 1; next_task := 1 |})
    as (term' & s' & Hc & HR & _); [done|by apply represents_new|done|done|done|]. eauto.
Defined.
End SchedulerDemo.

(** ** One term at a time *)

Lemma term_canceled_stays `{CronEngine} w w' : term_step w w' → lt_canceled (tw_term w) = true → lt_canceled (tw_term w') = true.
Proof.
  intros Hs Hc. destruct Hs; simpl; try done; try congruence; unfold signalled; rewrite ?Hc; try done.
  - destruct (term_offer_frame (tw_term w) id) as (_ & _ & _ & -> & _). done.
  - destruct (offer_all_frame (tw_term w) ids) as (_ & _ & _ & -> & _). done.
Qed.

Section elections.
Context `{CronEngine} (config : Config).

(** The call has passed the gate of [Run] and not returned. *)
Definition inside (c : RunCall) : bool := match rc_phase c with RunEntering | RunReturned _ => false | _ => true end.

Record run_inv (r : Runtime) : Prop := {
  ri_one i j ci cj : rn_calls r !! i = Some ci → rn_calls r !! j = Some cj → inside ci = true → inside cj = true → i = j;
  ri_running i c : rn_calls r !! i = Some c → inside c = true → rn_running r = true;
  ri_term i c w : rn_calls r !! i = Some c → rc_phase c = RunInTerm w → rc_canceled c = true → lt_canceled (tw_term w) = true;
}.

(** A call that moves without passing the gate. *)
Lemma run_move r id c c' running :
  run_inv r → rn_calls r !! id = Some c →
  (inside c' = true → inside c = true) → (running = false → inside c = true ∧ inside c' = false ∨ rn_running r = false) →
  (∀ w, rc_phase c' = RunInTerm w → rc_canceled c' = true → lt_canceled (tw_term w) = true) →
  run_inv {| rn_running := running; rn_calls := <[id := c']> (rn_calls r) |}.
Proof.
  intros [H1 H2 H3] Hc Hin Hrun Hterm. constructor; simpl.
  - intros i j ci cj Hi Hj Hii Hij. apply lookup_insert_Some in Hi as [[<- <-]|[Hni Hi]]; apply lookup_insert_Some in Hj as [[<- <-]|[Hnj Hj]]; eauto.
  - intros i ci Hi Hii. destruct running; [done|]. destruct (Hrun eq_refl) as [[Hic Hic']|Hr].
    + apply lookup_insert_Some in Hi as [[_ <-]|[Hne Hi]]; [congruence|]. destruct Hne. eauto.
    + apply lookup_insert_Some in Hi as [[<- <-]|[Hne Hi]]; rewrite <-Hr; eauto.
  - intros i ci w Hi Hp Hcn. apply lookup_insert_Some in Hi as [[<- <-]|[Hne Hi]]; eauto.
Qed.

Lemma run_step_inv r r' : run_inv r → run_step config r r' → run_inv r'.
Proof.
  intros HI Hs. pose proof HI as [H1 H2 H3].
  destruct Hs as [r id Hn|r id c Hc Hp Hr|r id c Hc Hp Hr|r id c n Hc Hp Hd|r id c n Hc Hp|r id c n history log Hc Hp Hcn|r id c n Hc Hp
    |r id c Hc|r id c Hc|r id c w w' Hc Hp Ht|r id c w Hc Hp Hcl|r id c n Hc Hp|r id c n Hc Hp Hd|r id c n Hc Hp Hd];
    unfold set_call; simpl.
  - constructor; simpl.
    + intros i j ci cj Hi Hj Hii Hij. apply lookup_insert_Some in Hi as [[_ <-]|[_ Hi]]; [done|].
      apply lookup_insert_Some in Hj as [[_ <-]|[_ Hj]]; [done|]. eauto.
    + intros i ci Hi Hii. apply lookup_insert_Some in Hi as [[_ <-]|[_ Hi]]; [done|]. eauto.
    + intros i ci w Hi Hph Hcn. apply lookup_insert_Some in Hi as [[_ <-]|[_ Hi]]; [done|]. eauto.
  - constructor; simpl; [|done|].
    + intros i j ci cj Hi Hj Hii Hij. apply lookup_insert_Some in Hi as [[<- _]|[Hni Hi]]; [|rewrite (H2 _ _ Hi Hii) in Hr; done].
      apply lookup_insert_Some in Hj as [[<- _]|[Hnj Hj]]; [done|rewrite (H2 _ _ Hj Hij) in Hr; done].
    + intros i ci w Hi Hph Hcn. apply lookup_insert_Some in Hi as [[_ <-]|[_ Hi]]; [done|]. eauto.
  - apply (run_move r id c); [done|done|done|rewrite Hr; done|done].
  - apply (run_move r id c); [done|done|unfold inside; by rewrite Hp| |done]. intros Hr. by right.
  - apply (run_move r id c); [done|done|unfold inside; by rewrite Hp| |done]. intros Hr. by right.
  - apply (run_move r id c); [done|done|unfold inside; by rewrite Hp| |]; [intros Hr; by right|]. simpl. congruence.
  - apply (run_move r id c); [done|done|unfold inside; by rewrite Hp| |done]. intros Hr. by right.
  - apply (run_move r id c); [done|done| |intros Hr; by right|].
    + unfold inside. simpl. by destruct (rc_phase c).
    + simpl. intros w Hw _. destruct (rc_phase c); simplify_eq/=. done.
  - apply (run_move r id c); [done|done| |intros Hr; by right|].
    + unfold inside. simpl. by destruct (rc_phase c).
    + simpl. intros w Hw _. destruct (rc_phase c); simplify_eq/=. done.
  - apply (run_move r id c); [done|done|unfold inside; by rewrite Hp|intros Hr; by right|].
    simpl. intros w'' [= <-] Hcn. specialize (H3 _ _ _ Hc Hp Hcn). by eapply term_canceled_stays.
  - apply (run_move r id c); [done|done|unfold inside; by rewrite Hp| |done]. intros Hr. by right.
  - apply (run_move r id c); [done|done|unfold inside; by rewrite Hp| |done]. intros Hr. by right.
  - apply (run_move r id c); [done|done|unfold inside; by rewrite Hp| |done]. intros Hr. by right.
  - apply (run_move r id c); [done|done|done| |done]. intros _. left. unfold inside. simpl. by destruct Hp as [-> | ->].
Qed.

(** A process never has two terms: whatever the interleaving of calls of Run, elections,
    lost sessions and cancellations, at most one call is past the gate, so at most one
    term exists, and the term of a lost or canceled candidacy is canceled. *)
Theorem terms_exclusive r :
  rtc (run_step config) {| rn_running := false; rn_calls := ∅ |} r →
  (∀ i j ci cj wi wj, rn_calls r !! i = Some ci → rn_calls r !! j = Some cj → rc_phase ci = RunInTerm wi → rc_phase cj = RunInTerm wj → i = j) ∧
  (∀ i c w, rn_calls r !! i = Some c → rc_phase c = RunInTerm w → rc_canceled c = true → lt_canceled (tw_term w) = true).
Proof.
  intros Hr. assert (run_inv r) as [H1 H2 H3].
  { assert (run_inv {| rn_running := false; rn_calls := ∅ |}) as H0i by (constructor; simpl; by intros *; rewrite lookup_empty).
    induction Hr as [|r1 r2 r3 Hs _ IH]; [done|]. apply IH. by eapply run_step_inv. }
  split; [|done]. intros i j ci cj wi wj Hi Hj Hpi Hpj. eapply H1; [exact Hi|exact Hj|unfold inside; by rewrite Hpi|unfold inside; by rewrite Hpj].
Qed.
End elections.
