(* ===== verification/Cancellation.v ===== *)
(** * Cancelling an Instance on its executors

    apps/job/rpc/internal/execution/cancel.go: one notification of one saved executor
    address, with at most three calls on one direct connection; and its agreement with the
    executor that receives it (pkg/jobexecutor/rpc.go behind pkg/bizerror). *)

From S2P Require Import Prelude GoLib Tx Model TaskRepo InstanceRepo JobRepo RpcErrors Executor.
From S2P Require Import HintSpec Reporter ExecutorRuntime ExecutorInv ExecutionRPC Agreement.

Open Scope string_scope.
Open Scope list_scope.
Open Scope Z_scope.

(** [netip.ParseAddrPort]: the port, and whether the address is unspecified or multicast. *)
Class NetipLib := ParseAddrPort : string → option (Z * bool * bool).

Definition cancelMaxAttempts : nat := 3.

Record CancelTarget := { ct_InstanceID : Z; ct_ExecutorGroupID : Z; ct_Address : string; ct_Reason : string }.

Definition bad_rune (r : option Z * list Z) : bool :=
  match r.1 with Some c => IsSpace c || IsControl c | None => false end.

(** The address part of [cancelTargetReason]. *)
Definition bad_address `{NetipLib} (address : string) : bool :=
  match ParseAddrPort address with
  | None => true
  | Some (port, unspecified, multicast) =>
      (port =? 0) || unspecified || multicast || (255 <? Z.of_nat (String.length address)) ||
      existsb (λ b, has b (bytes address)) [47; 92; 63; 35; 64] || existsb bad_rune (runes (bytes address))
  end.

Definition cancelTargetReason `{NetipLib} (target : CancelTarget) : Result Z :=
  if (ct_InstanceID target <=? 0) || (ct_ExecutorGroupID target <=? 0) || bad_address (ct_Address target)
  then Fail [Text "executor cancellation target is invalid"]
  else if bool_decide (ct_Reason target = EndReasonManualStop) then Ok 1
  else if bool_decide (ct_Reason target = EndReasonInstanceTimeout) then Ok 2
  else Fail [Text "executor cancellation reason is invalid"].

Definition retryCancel `{GrpcLib} (e : Error) : bool :=
  let st := Convert e in
  if (st_code st =? codes_Unauthenticated) || (st_code st =? codes_PermissionDenied) then false
  else if st_code st =? DefaultCode then
    match SubcodeFromStatus st with Some reason => negb (bool_decide (reason = InvalidRequest)) | None => true end
  else true.

(** What the work context does around one attempt: its state before the call, after it,
    and at the end of the wait for the next attempt. *)
Record Round := { rd_before : option Error; rd_after : option Error; rd_wait : option Error }.

Definition cancelError (cause : Error) : Error := Text "cancellation operation failed" :: cause.

Section cancel.
Context `{GrpcLib} {St : Type} (call : St → CancelInstanceRequest → St * Result (option unit)).

(** The loop of [Cancel], with [n] attempts left. *)
Fixpoint cancel_loop (round : nat → Round) (request : CancelInstanceRequest) (n : nat) (s : St) : St * option Error :=
  match n with
  | O => (s, Some [Text "executor cancellation attempts exhausted"])
  | S m =>
      let r := round m in
      match rd_before r with
      | Some e => (s, Some e)
      | None =>
          let '(s, answer) := call s request in
          match answer with
          | Ok (Some _) => (s, None)
          | _ =>
              let e := match answer with Fail e => e | Ok _ => [Text "executor returned no cancellation acknowledgement"] end in
              match rd_after r with
              | Some stop => (s, Some (cancelError (stop ++ e)))
              | None =>
                  if negb (retryCancel e) || (m =? 0)%nat then (s, Some (cancelError e))
                  else match rd_wait r with
                       | Some e => (s, Some e)
                       | None => cancel_loop round request m s
                       end
              end
          end
      end
  end.

(** The deferred close of the connection; [None] when it succeeds or there is nothing to
    close. *)
Definition close_connection (closeErr result : option Error) : option Error :=
  match closeErr with
  | None => result
  | Some e => Some (match result with Some r => r | None => [] end ++ cancelError e)
  end.

(** [connection]: the factory's answer, [Ok false] an incomplete connection; [closeErr]:
    what closing the connection returns. *)
Definition Canceller_Cancel `{UuidLib, NetipLib} (s : St) (ctxErr : option Error) (target : CancelTarget) (group : Result ExecutorGroupConfig)
    (workErr : option Error) (connection : Result bool) (round : nat → Round) (closeErr : option Error) : St * option Error :=
  match ctxErr with
  | Some e => (s, Some e)
  | None =>
      match cancelTargetReason target with
      | Fail e => (s, Some e)
      | Ok reason =>
          match group with
          | Fail e => (s, Some (cancelError e))
          | Ok group =>
              if negb (gc_ID group =? ct_ExecutorGroupID target)
              then (s, Some [Text "executor cancellation group does not match the stopped instance"])
              else match ValidateCredentials (gc_Name group) (gc_Token group) with
              | Fail e => (s, Some (cancelError e))
              | Ok _ =>
                  match workErr with
                  | Some e => (s, Some e)
                  | None =>
                      match connection with
                      | Fail e => (s, close_connection closeErr (Some (cancelError e)))
                      | Ok false => (s, close_connection closeErr (Some [Text "executor cancellation connection is incomplete"]))
                      | Ok true =>
                          let request := {| cx_GroupName := gc_Name group; cx_Token := gc_Token group; cx_InstanceId := ct_InstanceID target; cx_Reason := reason |} in
                          let '(s, result) := cancel_loop round request cancelMaxAttempts s in
                          (s, close_connection closeErr result)
                      end
                  end
              end
          end
      end
  end.
End cancel.

(** ** Against an executor *)

(** One call: its answer comes back, or it is lost before or after it was handled. *)
Inductive CancelExchange := CancelAnswered | CancelLost (handled : bool) (e : Error).

Section agreement.
Context `{UuidLib, NetipLib, GrpcLib} {S : Type} `{AdmissionOps S}.

(** The executor's server; the second component counts the calls made. *)
Definition cancel_exchange (a : RPCAdapter) (x : nat → CancelExchange) (ctx : nat → option Error) (s : S * nat) (req : CancelInstanceRequest)
    : (S * nat) * Result (option unit) :=
  let '(s', r) := CancelInstance a s.1 (ctx s.2) req in
  match x s.2 with
  | CancelAnswered => ((s', Datatypes.S s.2), result_map Some (UnaryServerInterceptor r))
  | CancelLost handled e => ((if handled then s' else s.1, Datatypes.S s.2), Fail e)
  end.

(** The decision's reason as the executor's runtime sees it. *)
Definition reason_agrees (target : CancelTarget) (reason : CancelReason) : Prop :=
  (ct_Reason target = EndReasonManualStop ∧ reason = CancelManualStop) ∨
  (ct_Reason target = EndReasonInstanceTimeout ∧ reason = CancelInstanceTimeout).

Lemma interceptor_ok {A} (r : Result A) v : UnaryServerInterceptor r = Ok v → r = Ok v.
Proof. unfold UnaryServerInterceptor. destruct r; [done|]. repeat case_match; done. Qed.

Lemma CancelInstance_ok a s ctxErr req s' u :
  CancelInstance a s ctxErr req = (s', Ok u) →
  cx_GroupName req = au_groupName (ad_auth a) ∧ cx_Token req = au_token (ad_auth a) ∧
  ∃ reason, wire_reason (cx_Reason req) = Some reason ∧ adm_cancel s ctxErr (cx_InstanceId req) reason = (s', None).
Proof.
  unfold CancelInstance, Authenticate. repeat case_match; try done. intros [= <-]. to_prop. repeat case_bool_decide; naive_solver.
Qed.

Lemma cancel_loop_calls a x ctx round req n s s' r :
  cancel_loop (cancel_exchange a x ctx) round req n s = (s', r) →
  (s'.2 ≤ s.2 + n)%nat ∧
  (r = None → ∃ s0 c u, CancelInstance a s0 c req = (s'.1, Ok u)).
Proof.
  revert s. induction n as [|n IH]; intros s; simpl; [intros [= <- <-]; split; [lia|done]|].
  destruct (rd_before (round n)); [intros [= <- <-]; split; [lia|done]|].
  unfold cancel_exchange at 1. destruct (CancelInstance a s.1 (ctx s.2) req) as [s1 r1] eqn:Ec.
  destruct (x s.2) as [|handled e] eqn:Ex.
  - destruct (UnaryServerInterceptor r1) as [[]|e] eqn:Eu; simpl.
    + intros [= <- <-]. simpl. split; [lia|]. intros _. apply interceptor_ok in Eu as ->. eauto.
    + destruct (rd_after (round n)); [intros [= <- <-]; simpl; split; [lia|done]|].
      destruct (_ || _); [intros [= <- <-]; simpl; split; [lia|done]|].
      destruct (rd_wait (round n)); [intros [= <- <-]; simpl; split; [lia|done]|].
      intros Hl. destruct (IH _ Hl) as [Hle Hn]. simpl in Hle. split; [lia|done].
  - destruct (rd_after (round n)); [intros [= <- <-]; simpl; split; [lia|done]|].
    destruct (_ || _); [intros [= <- <-]; simpl; split; [lia|done]|].
    destruct (rd_wait (round n)); [intros [= <- <-]; simpl; split; [lia|done]|].
    intros Hl. destruct (IH _ Hl) as [Hle Hn]. simpl in Hle. split; [lia|done].
Qed.

(** A confirmed cancellation is one: when the scheduler's notification of a stopped
    Instance returns without error, whatever calls were lost or repeated, the executor
    belongs to the Instance's group and its runtime has completed the cancellation of that
    very Instance for the recorded reason; and no notification makes more than three
    calls. *)
Theorem cancel_confirmed a x ctx s ctxErr target group workErr connection round closeErr s' n r :
  Canceller_Cancel (cancel_exchange a x ctx) (s, O) ctxErr target group workErr connection round closeErr = ((s', n), r) →
  (n ≤ 3)%nat ∧
  (r = None → ∃ g s0 c reason, group = Ok g ∧ gc_ID g = ct_ExecutorGroupID target ∧
     gc_Name g = au_groupName (ad_auth a) ∧ gc_Token g = au_token (ad_auth a) ∧
     reason_agrees target reason ∧ adm_cancel s0 c (ct_InstanceID target) reason = (s', None)).
Proof.
  unfold Canceller_Cancel. destruct ctxErr; [intros [= <- <- <-]; split; [lia|done]|].
  destruct (cancelTargetReason target) as [code|] eqn:Er; [|intros [= <- <- <-]; split; [lia|done]].
  destruct group as [g|]; [|intros [= <- <- <-]; split; [lia|done]].
  destruct (negb (gc_ID g =? _)) eqn:Eg; [intros [= <- <- <-]; split; [lia|done]|].
  destruct (ValidateCredentials _ _); [|intros [= <- <- <-]; split; [lia|done]].
  destruct workErr; [intros [= <- <- <-]; split; [lia|done]|].
  destruct connection as [[]|]; [|intros [= <- <- <-]; split; [lia|by destruct closeErr]..].
  match goal with |- context [cancel_loop _ _ ?q _ _] => set (req := q) end.
  destruct (cancel_loop _ round req cancelMaxAttempts (s, O)) as [[s1 n1] r1] eqn:El.
  destruct (cancel_loop_calls _ _ _ _ _ _ _ _ _ El) as [Hle Hn]. simpl in Hle.
  intros [= <- <- <-]. split; [unfold cancelMaxAttempts in Hle; lia|]. intros Hnone.
  destruct closeErr; [done|]. destruct (Hn Hnone) as (s0 & c & u & Hc). apply CancelInstance_ok in Hc as (Ha & Ht & reason & Hw & Hadm).
  to_prop. exists g, s0, c, reason. split_and!; try done.
  unfold cancelTargetReason in Er. destruct (_ || _); [done|].
  case_bool_decide; [injection Er as <-|case_bool_decide; [injection Er as <-|done]]; simpl in Hw; injection Hw as <-; [by left|by right].
Qed.
End agreement.

(** ** One notification of a demonstration executor *)

#[local] Existing Instances report_uuid report_grpc.
#[local] Instance demo_netip : NetipLib := λ _, Some (80, false, false).
Definition demo_stopped : CancelTarget :=
  {| ct_InstanceID := 7; ct_ExecutorGroupID := 5; ct_Address := "10.0.0.1:80"; ct_Reason := EndReasonManualStop |}.
Definition demo_round : Round := {| rd_before := None; rd_after := None; rd_wait := None |}.
Definition demo_loss (n : nat) : CancelExchange := match n with O => CancelLost false [Driver] | _ => CancelAnswered end.

(** The first call is lost; the second is answered. *)
Lemma cancel_confirmed_witness :
  ∃ s0 c, adm_cancel s0 c 7 CancelManualStop = (demo_executor true ∅ 1 [] ∅ [Idle], None).
Proof.
  destruct (cancel_confirmed agree_adapter demo_loss (λ _, None) (demo_executor true ∅ 1 [] ∅ [Idle]) None demo_stopped (Ok (et_Group agree_target))
    None (Ok true) (λ _, demo_round) None (demo_executor true ∅ 1 [] ∅ [Idle]) 2 None) as [_ H]; [evaluate|].
  destruct (H eq_refl) as (g & s0 & c & reason & _ & _ & _ & _ & [[_ ->]|[[=] _]] & Hc). eauto.
Defined.
