(* ===== verification/GroupClients.v ===== *)
(** * The pool of executor connections

    apps/job/rpc/internal/execution/group_clients.go: one lazily created connection per
    active executor group, removed when a refresh of the group cache (GroupCache.v) no
    longer has the group.  Every critical section under the pool's lock is one operation;
    [step] interleaves callers, the factory, refreshes of the cache and [Close].  The
    state records which connections exist and which were closed. *)

From S2P Require Import Prelude GoLib Tx Model TaskRepo InstanceRepo JobRepo HintSpec RpcErrors Executor GroupCache.

Open Scope string_scope.
Open Scope list_scope.
Open Scope Z_scope.

Definition errGroupClientsClosed : Cause := Sentinel "executor group clients are closed".

(** A connection is its address; [gn_group] is the configuration it was built for. *)
Record groupConnection := { gn_group : ExecutorGroupConfig; gn_client : Z }.

Record GroupClients := { gp_closed : bool; gp_clients : gmap Z groupConnection; gp_flights : gmap Z Z }.

(** The checks of [NewGroupClients] on its settings. *)
Definition NewGroupClients (hosts : list string) (rpcTimeout : Duration) : Result GroupClients :=
  if rpcTimeout <? Millisecond then Fail [Text "executor RPC timeout must be at least one millisecond"]
  else if bool_decide (hosts = []) then Fail [Text "executor discovery hosts must not be empty"]
  else if existsb (λ h, bool_decide (h = "") || negb (bool_decide (h = TrimSpace h))) hosts
  then Fail [Text "executor discovery host is invalid"]
  else Ok {| gp_closed := false; gp_clients := ∅; gp_flights := ∅ |}.

Definition available (p : GroupClients) (cache : Cache) (ctxErr : option Error) (group : ExecutorGroupConfig) : option Error :=
  if gp_closed p then Some [errGroupClientsClosed]
  else match ctxErr with
  | Some e => Some e
  | None => if Contains cache group then None else Some [GroupCache.ErrNotFound]
  end.

(** Where a call of [Executor] is.  [Closing]: it closes the connection it replaces;
    [Built]: the factory returned, perhaps with both a partial connection and an error;
    [Discarding]: it closes what it may not publish. *)
Inductive Stage :=
| Calling
| Resolved (g : ExecutorGroupConfig)
| Following (flight : Z)
| Closing (g : ExecutorGroupConfig) (flight : Z) (old : option Z)
| Creating (g : ExecutorGroupConfig) (flight : Z)
| Built (g : ExecutorGroupConfig) (flight : Z) (conn : option Z) (err : option Error)
| Discarding (g : ExecutorGroupConfig) (flight : Z) (conn : option Z) (e : Error)
| Landing (g : ExecutorGroupConfig) (flight : Z) (r : Result Z)
| Returned (r : Result (ExecutorGroupConfig * Z)).

(** The critical section of [Executor] for a resolved group; [fresh] is a new flight. *)
Definition executor_lock (p : GroupClients) (cache : Cache) (ctxErr : option Error) (group : ExecutorGroupConfig) (fresh : Z) : GroupClients * Stage :=
  match available p cache ctxErr group with
  | Some e => (p, Returned (Fail e))
  | None =>
      let id := gc_ID group in
      let existing := gp_clients p !! id in
      match existing with
      | Some c =>
          if bool_decide (gn_group c = group) then (p, Returned (Ok (group, gn_client c)))
          else match gp_flights p !! id with
               | Some f => (p, Following f)
               | None => ({ p with gp_flights := <[id := fresh]> (gp_flights p); gp_clients := delete id (gp_clients p) }, Closing group fresh (Some (gn_client c)))
               end
      | None =>
          match gp_flights p !! id with
          | Some f => (p, Following f)
          | None => ({ p with gp_flights := <[id := fresh]> (gp_flights p) }, Closing group fresh None)
          end
      end
  end.

(** The first critical section of [construct]. *)
Definition construct_publish (p : GroupClients) (cache : Cache) (ctxErr : option Error) (group : ExecutorGroupConfig) (flight : Z)
    (conn : option Z) (err : option Error) : GroupClients * Stage :=
  match conn, err with
  | Some c, None =>
      match available p cache ctxErr group with
      | None => ({ p with gp_clients := <[gc_ID group := {| gn_group := group; gn_client := c |}]> (gp_clients p) }, Landing group flight (Ok c))
      | Some e => (p, Discarding group flight conn e)
      end
  | _, Some e => (p, Discarding group flight conn e)
  | None, None => (p, Discarding group flight None [Text "executor client factory returned an incomplete connection"])
  end.

(** The last critical section of [construct]. *)
Definition construct_land (p : GroupClients) (group : ExecutorGroupConfig) : GroupClients :=
  { p with gp_flights := delete (gc_ID group) (gp_flights p) }.

Definition obsolete (cache : Cache) (kv : Z * groupConnection) : Prop := Contains cache (gn_group kv.2) = false.
#[global] Instance obsolete_dec cache kv : Decision (obsolete cache kv).
Proof. unfold obsolete. apply _. Defined.

(** [removeObsolete] under its lock, with the connections it closes afterwards. *)
Definition removeObsolete (p : GroupClients) (cache : Cache) : GroupClients * list Z :=
  ({ p with gp_clients := filter (λ kv, ¬ obsolete cache kv) (gp_clients p) },
   (λ kv : Z * groupConnection, gn_client kv.2) <$> map_to_list (filter (obsolete cache) (gp_clients p))).

(** [Close] under its lock. *)
Definition Close (p : GroupClients) : GroupClients * list Z :=
  if gp_closed p then (p, [])
  else ({ p with gp_closed := true; gp_clients := ∅ }, (λ kv : Z * groupConnection, gn_client kv.2) <$> map_to_list (gp_clients p)).

(** ** Interleavings *)

Record Call := { cl_id : Z; cl_stage : Stage }.

(** [gw_cleaning]: the cache was replaced and the observers have not run yet; [gw_built]:
    the connections created so far; [gw_removed]: taken out of the pool and not closed
    yet; [gw_closed]: closed. *)
Record World := {
  gw_pool : GroupClients; gw_cache : Cache; gw_cleaning : bool; gw_calls : list Call;
  gw_landed : gmap Z (option Error); gw_next : Z;
  gw_built : gmap Z ExecutorGroupConfig; gw_removed : list Z; gw_closed : list Z;
}.

Definition set_call (k : nat) (c : Call) (stage : Stage) (w : World) : World :=
  { w with gw_calls := <[k := { c with cl_stage := stage }]> (gw_calls w) }.

Inductive step : World → World → Prop :=
(* the cache: a complete refresh with its cleanup, and a published miss.  [loadMiss] inserts
   what it read; the code never updates a group, so the row it read under an ID is the one
   the cache has there, if it has one *)
| gs_replace w byID byName c observers :
    gw_cleaning w = false → replace (gw_cache w) None byID byName = Ok (c, observers) → step w { w with gw_cache := c; gw_cleaning := true }
| gs_cleanup w p removed :
    gw_cleaning w = true → removeObsolete (gw_pool w) (gw_cache w) = (p, removed) →
    step w { w with gw_pool := p; gw_removed := removed ++ gw_removed w; gw_cleaning := false }
| gs_miss w g :
    c_byID (gw_cache w) !! gc_ID g = None ∨ c_byID (gw_cache w) !! gc_ID g = Some g →
    step w { w with gw_cache := { gw_cache w with c_byID := <[gc_ID g := g]> (c_byID (gw_cache w)); c_byName := <[gc_Name g := g]> (c_byName (gw_cache w)) } }
(* Executor *)
| gs_call w id : step w { w with gw_calls := gw_calls w ++ [{| cl_id := id; cl_stage := Calling |}] }
| gs_refuse w k c e : gw_calls w !! k = Some c → cl_stage c = Calling → step w (set_call k c (Returned (Fail e)) w)
| gs_resolve w k c g : gw_calls w !! k = Some c → cl_stage c = Calling → gc_ID g = cl_id c → step w (set_call k c (Resolved g) w)
| gs_lock w k c g ctxErr p stage :
    gw_calls w !! k = Some c → cl_stage c = Resolved g → executor_lock (gw_pool w) (gw_cache w) ctxErr g (gw_next w) = (p, stage) →
    step w (set_call k c stage { w with gw_pool := p; gw_next := gw_next w + 1 })
| gs_leave w k c f e : gw_calls w !! k = Some c → cl_stage c = Following f → step w (set_call k c (Returned (Fail e)) w)
| gs_follow w k c f r :
    gw_calls w !! k = Some c → cl_stage c = Following f → gw_landed w !! f = Some r →
    step w (set_call k c (match r with Some e => Returned (Fail e) | None => Calling end) w)
| gs_close_old w k c g f old :
    gw_calls w !! k = Some c → cl_stage c = Closing g f old →
    step w (set_call k c (Creating g f) { w with gw_closed := option_list old ++ gw_closed w })
| gs_create w k c g f err :
    gw_calls w !! k = Some c → cl_stage c = Creating g f → gw_built w !! gw_next w = None →
    step w (set_call k c (Built g f (Some (gw_next w)) err) { w with gw_built := <[gw_next w := g]> (gw_built w); gw_next := gw_next w + 1 })
| gs_create_failed w k c g f err :
    gw_calls w !! k = Some c → cl_stage c = Creating g f → step w (set_call k c (Built g f None err) w)
| gs_publish w k c g f conn err ctxErr p stage :
    gw_calls w !! k = Some c → cl_stage c = Built g f conn err → construct_publish (gw_pool w) (gw_cache w) ctxErr g f conn err = (p, stage) →
    step w (set_call k c stage { w with gw_pool := p })
| gs_discard w k c g f conn e :
    gw_calls w !! k = Some c → cl_stage c = Discarding g f conn e →
    step w (set_call k c (Landing g f (Fail e)) { w with gw_closed := option_list conn ++ gw_closed w })
| gs_land w k c g f r :
    gw_calls w !! k = Some c → cl_stage c = Landing g f r →
    step w (set_call k c (Returned (result_map (pair g) r))
      { w with gw_pool := construct_land (gw_pool w) g; gw_landed := <[f := match r with Ok _ => None | Fail e => Some e end]> (gw_landed w) })
(* closing removed connections *)
| gs_close w p removed :
    Close (gw_pool w) = (p, removed) → step w { w with gw_pool := p; gw_removed := removed ++ gw_removed w }
| gs_close_removed w c rest :
    gw_removed w = c :: rest → step w { w with gw_removed := rest; gw_closed := c :: gw_closed w }.

Definition boot (p : GroupClients) (cache : Cache) : World :=
  {| gw_pool := p; gw_cache := cache; gw_cleaning := false; gw_calls := []; gw_landed := ∅; gw_next := 1; gw_built := ∅; gw_removed := []; gw_closed := [] |}.

(** ** Ownership *)

(** The connection a call holds, and the flight it leads. *)
Definition held (c : Call) : option Z :=
  match cl_stage c with Closing _ _ old => old | Built _ _ conn _ | Discarding _ _ conn _ => conn | _ => None end.
Definition leading (s : Stage) : option (ExecutorGroupConfig * Z) :=
  match s with Closing g f _ | Creating g f | Built g f _ _ | Discarding g f _ _ | Landing g f _ => Some (g, f) | _ => None end.
(** The connection a stage is about to hand out, with its group. *)
Definition delivers (s : Stage) : option (ExecutorGroupConfig * Z) :=
  match s with Built g _ (Some x) _ | Landing g _ (Ok x) | Returned (Ok (g, x)) => Some (g, x) | _ => None end.

Definition pooled (m : gmap Z groupConnection) : list Z := (λ kv : Z * groupConnection, gn_client kv.2) <$> map_to_list m.
Definition owners (w : World) : list Z := pooled (gp_clients (gw_pool w)) ++ omap held (gw_calls w) ++ gw_removed w ++ gw_closed w.

Lemma omap_insert {A B} (f : A → option B) l k x y :
  l !! k = Some x → option_list (f x) ++ omap f (<[k := y]> l) ≡ₚ option_list (f y) ++ omap f l.
Proof.
  intros Hk. rewrite insert_take_drop by (by eapply lookup_lt_Some). rewrite <-(take_drop_middle l k x) at 3 by done.
  assert (∀ z l, omap f (z :: l) = option_list (f z) ++ omap f l) as E by (intros z l'; csimpl; by destruct (f z)).
  rewrite !omap_app, !E. solve_Permutation.
Qed.

Lemma pooled_insert m id c : m !! id = None → pooled (<[id := c]> m) ≡ₚ gn_client c :: pooled m.
Proof. intros Hn. unfold pooled. by rewrite map_to_list_insert. Qed.
Lemma pooled_delete m id c : m !! id = Some c → pooled m ≡ₚ gn_client c :: pooled (delete id m).
Proof. intros Hs. unfold pooled. by rewrite <-(map_to_list_delete m id c). Qed.
Lemma pooled_split m (P : Z * groupConnection → Prop) `{!∀ x, Decision (P x)} :
  pooled m ≡ₚ pooled (filter P m) ++ pooled (filter (λ kv, ¬ P kv) m).
Proof.
  unfold pooled. rewrite <-fmap_app. apply fmap_Permutation. apply NoDup_Permutation; [apply NoDup_map_to_list|..].
  - apply NoDup_app. split_and!; [apply NoDup_map_to_list| |apply NoDup_map_to_list]. intros [id c].
    rewrite !elem_of_map_to_list, !map_lookup_filter_Some. naive_solver.
  - intros [id c]. rewrite elem_of_app, !elem_of_map_to_list, !map_lookup_filter_Some. destruct (decide (P (id, c))); naive_solver.
Qed.

Record pool_inv (w : World) : Prop := {
  pi_owners : owners w ≡ₚ (map_to_list (gw_built w)).*1;
  pi_pooled id c : gp_clients (gw_pool w) !! id = Some c → gc_ID (gn_group c) = id ∧ gw_built w !! gn_client c = Some (gn_group c);
  pi_current : gw_cleaning w = false → ∀ id c, gp_clients (gw_pool w) !! id = Some c → Contains (gw_cache w) (gn_group c) = true;
  pi_delivers k c g x : gw_calls w !! k = Some c → delivers (cl_stage c) = Some (g, x) → gw_built w !! x = Some g;
  pi_leading k c g f : gw_calls w !! k = Some c → leading (cl_stage c) = Some (g, f) →
    gp_flights (gw_pool w) !! gc_ID g = Some f ∧ f < gw_next w ∧ gp_clients (gw_pool w) !! gc_ID g = None ∨
    ∃ r, cl_stage c = Landing g f r ∧ gp_flights (gw_pool w) !! gc_ID g = Some f ∧ f < gw_next w;
  pi_distinct k1 k2 c1 c2 g1 g2 f : gw_calls w !! k1 = Some c1 → gw_calls w !! k2 = Some c2 →
    leading (cl_stage c1) = Some (g1, f) → leading (cl_stage c2) = Some (g2, f) → k1 = k2;
  pi_closed : gp_closed (gw_pool w) = true → gp_clients (gw_pool w) = ∅;
}.

(** A call that moves without touching pool, cache or connections. *)
Lemma pool_move w k c stage :
  pool_inv w → gw_calls w !! k = Some c → held { c with cl_stage := stage } = held c → leading stage = None → delivers stage = None →
  leading (cl_stage c) = None → pool_inv (set_call k c stage w).
Proof.
  intros [H1 H2 H3 H4 H5 H6 H7] Hk Hh Hl Hd Hl0. constructor; simpl; try done.
  - unfold owners. simpl. pose proof (omap_insert held (gw_calls w) k c { c with cl_stage := stage } Hk) as Hp. rewrite Hh in Hp.
    apply Permutation_app_inv_l in Hp. rewrite Hp. exact H1.
  - intros k' c' g x [(-> & <- & _)|[Hne Hc]]%list_lookup_insert_Some Hd'; [simpl in Hd'; congruence|eauto].
  - intros k' c' g f [(-> & <- & _)|[Hne Hc]]%list_lookup_insert_Some Hl'; [simpl in Hl'; congruence|eauto].
  - intros k1 k2 c1 c2 g1 g2 f Hc1 Hc2 Hl1 Hl2.
    apply list_lookup_insert_Some in Hc1 as [(-> & <- & _)|[Hne1 Hc1]]; [simpl in Hl1; congruence|].
    apply list_lookup_insert_Some in Hc2 as [(-> & <- & _)|[Hne2 Hc2]]; [simpl in Hl2; congruence|]. eauto.
Qed.

(** A leading call that keeps its flight; the owners are permuted. *)
Lemma pool_lead w k c stage g f built next closed :
  pool_inv w → gw_calls w !! k = Some c → leading (cl_stage c) = Some (g, f) → leading stage = Some (g, f) →
  (∀ r, cl_stage c ≠ Landing g f r) → gw_next w ≤ next →
  gw_built w ⊆ built → (∀ g' x, delivers stage = Some (g', x) → built !! x = Some g') →
  (∀ rest, option_list (held { c with cl_stage := stage }) ++ closed ++ rest ≡ₚ
     (map_to_list built).*1 ↔ option_list (held c) ++ gw_closed w ++ rest ≡ₚ (map_to_list (gw_built w)).*1) →
  pool_inv (set_call k c stage { w with gw_built := built; gw_next := next; gw_closed := closed }).
Proof.
  intros [H1 H2 H3 H4 H5 H6 H7] Hk Hl0 Hl Hnl Hn Hb Hd Hown. constructor; simpl; try done.
  - unfold owners in *. simpl. pose proof (omap_insert held (gw_calls w) k c { c with cl_stage := stage } Hk) as Hp.
    destruct (Hown (pooled (gp_clients (gw_pool w)) ++ omap held (delete k (gw_calls w)) ++ gw_removed w)) as [_ Hback].
    assert (∀ x, omap held (<[k := x]> (gw_calls w)) ≡ₚ option_list (held x) ++ omap held (delete k (gw_calls w))) as Hins.
    { intros x. rewrite insert_take_drop, delete_take_drop by (by eapply lookup_lt_Some). rewrite !omap_app.
      assert (∀ z l, omap held (z :: l) = option_list (held z) ++ omap held l) as E by (intros z l'; csimpl; by destruct (held z)).
      rewrite E. solve_Permutation. }
    rewrite (Hins { c with cl_stage := stage }). etrans; [|apply Hback]; [solve_Permutation|].
    rewrite <-H1. rewrite <-(list_insert_id (gw_calls w) k c Hk) at 2. rewrite (Hins c). solve_Permutation.
  - intros id c' Hc'. destruct (H2 _ _ Hc') as [? Hx]. split; [done|]. by eapply lookup_weaken.
  - intros k' c' g' x [(-> & <- & _)|[Hne Hc]]%list_lookup_insert_Some Hd'; [by apply Hd|]. eapply lookup_weaken; [by eapply H4|done].
  - intros k' c' g' f' Hc' Hl'. apply list_lookup_insert_Some in Hc' as [(-> & <- & _)|[Hne Hc]].
    + simpl in Hl'. rewrite Hl in Hl'. injection Hl' as <- <-. destruct (H5 _ _ _ _ Hk Hl0) as [(?&?&?)|(r & E & _)]; [left|by destruct (Hnl r)].
      split_and!; [done|lia|done].
    + destruct (H5 _ _ _ _ Hc Hl') as [(?&?&?)|(r & E & ? & ?)]; [left; split_and!; [done|lia|done]|right]. exists r. split_and!; [done|done|lia].
  - intros k1 k2 c1 c2 g1 g2 f' Hc1 Hc2 Hl1 Hl2.
    apply list_lookup_insert_Some in Hc1 as [(-> & <- & _)|[Hne1 Hc1]]; apply list_lookup_insert_Some in Hc2 as [(-> & <- & _)|[Hne2 Hc2]].
    + done.
    + simpl in Hl1. eapply H6; [exact Hk|exact Hc2| |exact Hl2]. rewrite Hl in Hl1. injection Hl1 as <- <-. exact Hl0.
    + simpl in Hl2. eapply H6; [exact Hc1|exact Hk|exact Hl1|]. rewrite Hl in Hl2. injection Hl2 as <- <-. exact Hl0.
    + eauto.
Qed.

Lemma pool_calls_app w c : leading (cl_stage c) = None → delivers (cl_stage c) = None → held c = None →
  pool_inv w → pool_inv { w with gw_calls := gw_calls w ++ [c] }.
Proof.
  intros Hl Hd Hh [H1 H2 H3 H4 H5 H6 H7]. constructor; simpl; try done.
  - unfold owners in *. simpl. rewrite omap_app. csimpl. rewrite Hh. by rewrite app_nil_r.
  - intros k c' g x [Hc|[_ Hc]]%lookup_app_Some Hd'; [eauto|]. apply list_lookup_singleton_Some in Hc as [_ <-]. congruence.
  - intros k c' g f [Hc|[_ Hc]]%lookup_app_Some Hl'; [eauto|]. apply list_lookup_singleton_Some in Hc as [_ <-]. congruence.
  - intros k1 k2 c1 c2 g1 g2 f [Hc1|[_ Hc1]]%lookup_app_Some [Hc2|[_ Hc2]]%lookup_app_Some Hl1 Hl2; [eauto|..];
      try (apply list_lookup_singleton_Some in Hc1 as [_ <-]; congruence); apply list_lookup_singleton_Some in Hc2 as [_ <-]; congruence.
Qed.

(** Taking connections out of the pool for somebody else to close. *)
Lemma pool_remove w clients removed closed_ :
  pool_inv w → pooled (gp_clients (gw_pool w)) ≡ₚ pooled clients ++ removed → clients ⊆ gp_clients (gw_pool w) →
  (∀ id c, clients !! id = Some c → Contains (gw_cache w) (gn_group c) = true) ∨ gw_cleaning w = false →
  (closed_ = true → clients = ∅) →
  ∀ cleaning, (cleaning = gw_cleaning w ∨ ∀ id c, clients !! id = Some c → Contains (gw_cache w) (gn_group c) = true) →
  pool_inv { w with gw_pool := {| gp_closed := closed_; gp_clients := clients; gp_flights := gp_flights (gw_pool w) |};
                    gw_removed := removed ++ gw_removed w; gw_cleaning := cleaning }.
Proof.
  intros [H1 H2 H3 H4 H5 H6 H7] Hp Hsub Hcur Hcl cleaning Hcln. constructor; simpl; try done.
  - unfold owners in *. simpl. rewrite <-H1, Hp. solve_Permutation.
  - intros id c Hc. apply H2. by eapply lookup_weaken.
  - intros Hf id c Hc. destruct Hcln as [->|Hcln]; [|eauto]. eapply H3; [done|]. by eapply lookup_weaken.
  - intros k c g f Hk Hl. destruct (H5 _ _ _ _ Hk Hl) as [(?&?&?)|?]; [left|by right]. split_and!; [done..|]. by eapply lookup_weaken_None.
Qed.

(** A call that locks the pool and starts a flight, closing what it replaces. *)
Lemma pool_start w k c g old clients :
  pool_inv w → gw_calls w !! k = Some c → held c = None → leading (cl_stage c) = None → gp_flights (gw_pool w) !! gc_ID g = None →
  clients = delete (gc_ID g) (gp_clients (gw_pool w)) → old = gn_client <$> gp_clients (gw_pool w) !! gc_ID g →
  pool_inv (set_call k c (Closing g (gw_next w) old)
    { w with gw_pool := {| gp_closed := gp_closed (gw_pool w); gp_clients := clients; gp_flights := <[gc_ID g := gw_next w]> (gp_flights (gw_pool w)) |};
             gw_next := gw_next w + 1 }).
Proof.
  intros [H1 H2 H3 H4 H5 H6 H7] Hk Hh Hl0 Hfl -> ->. constructor; simpl.
  - unfold owners in *. simpl. pose proof (omap_insert held (gw_calls w) k c { c with cl_stage := Closing g (gw_next w) (gn_client <$> gp_clients (gw_pool w) !! gc_ID g) } Hk) as Hp.
    rewrite Hh in Hp. simpl in Hp. unfold held in Hp at 2. simpl in Hp. rewrite Hp, <-H1.
    destruct (gp_clients (gw_pool w) !! gc_ID g) as [x|] eqn:Ex; simpl; [rewrite (pooled_delete _ _ _ Ex)|rewrite delete_id by done]; solve_Permutation.
  - intros id x [_ Hx]%lookup_delete_Some. auto.
  - intros Hc id x [_ Hx]%lookup_delete_Some. eauto.
  - intros k' c' g' x [(-> & <- & _)|[Hne Hc]]%list_lookup_insert_Some Hd'; [done|eauto].
  - intros k' c' g' f' [(-> & <- & _)|[Hne Hc]]%list_lookup_insert_Some Hl'.
    + simpl in Hl'. injection Hl' as <- <-. left. rewrite lookup_insert_eq, lookup_delete_eq. split_and!; [done|lia|done].
    + destruct (H5 _ _ _ _ Hc Hl') as [(Hf&?&?)|(r & E & Hf & ?)]; [left|right; exists r];
        (assert (gc_ID g ≠ gc_ID g') by congruence); rewrite lookup_insert_ne by done;
        [split_and!; [done|lia|by rewrite lookup_delete_ne]|split_and!; [done|done|lia]].
  - intros k1 k2 c1 c2 g1 g2 f Hc1 Hc2 Hl1 Hl2.
    assert (∀ k' c' g', gw_calls w !! k' = Some c' → leading (cl_stage c') = Some (g', gw_next w) → False) as Hno.
    { intros k' c' g' Hc' Hl'. destruct (H5 _ _ _ _ Hc' Hl') as [(_&?&_)|(r & _ & _ & ?)]; lia. }
    apply list_lookup_insert_Some in Hc1 as [(-> & <- & _)|[Hne1 Hc1]]; apply list_lookup_insert_Some in Hc2 as [(-> & <- & _)|[Hne2 Hc2]].
    + done.
    + simpl in Hl1. injection Hl1 as <- <-. by destruct (Hno _ _ _ Hc2 Hl2).
    + simpl in Hl2. injection Hl2 as <- <-. by destruct (Hno _ _ _ Hc1 Hl1).
    + eauto.
  - intros Hc. rewrite H7 by done. apply delete_empty.
Qed.

(** Counting a flight number that nobody uses. *)
Lemma pool_next w : pool_inv w → pool_inv { w with gw_next := gw_next w + 1 }.
Proof.
  intros [H1 H2 H3 H4 H5 H6 H7]. constructor; simpl; try done. intros k c g f Hk Hl.
  destruct (H5 _ _ _ _ Hk Hl) as [(?&?&?)|(r & ? & ? & ?)]; [left; split_and!; [done|lia|done]|right; exists r; split_and!; [done|done|lia]].
Qed.

Lemma pool_publish w k c g f x :
  pool_inv w → gw_calls w !! k = Some c → cl_stage c = Built g f (Some x) None → Contains (gw_cache w) g = true → gp_closed (gw_pool w) = false →
  pool_inv (set_call k c (Landing g f (Ok x))
    { w with gw_pool := { gw_pool w with gp_clients := <[gc_ID g := {| gn_group := g; gn_client := x |}]> (gp_clients (gw_pool w)) } }).
Proof.
  intros [H1 H2 H3 H4 H5 H6 H7] Hk Hs Hcon Hncl.
  assert (gw_built w !! x = Some g) as Hbx by (apply (H4 k c); [done|by rewrite Hs]).
  assert (gp_flights (gw_pool w) !! gc_ID g = Some f ∧ f < gw_next w ∧ gp_clients (gw_pool w) !! gc_ID g = None) as (Hf & Hlt & Hnone).
  { destruct (H5 k c g f Hk ltac:(by rewrite Hs)) as [?|(r & E & _)]; [done|congruence]. }
  assert (∀ k' c' g' f', k' ≠ k → gw_calls w !! k' = Some c' → leading (cl_stage c') = Some (g', f') → gc_ID g' ≠ gc_ID g) as Hother.
  { intros k' c' g' f' Hne Hc' Hl' E. destruct (H5 _ _ _ _ Hc' Hl') as [(Hf'&_)|(r & _ & Hf' & _)]; rewrite E, Hf in Hf'; injection Hf' as <-;
      apply Hne; eapply H6; [exact Hc'|exact Hk|exact Hl'|by rewrite Hs|exact Hc'|exact Hk|exact Hl'|by rewrite Hs]. }
  constructor; simpl.
  - unfold owners in *. simpl. pose proof (omap_insert held (gw_calls w) k c { c with cl_stage := Landing g f (Ok x) } Hk) as Hp.
    unfold held in Hp at 1. rewrite Hs in Hp. unfold held in Hp at 2. simpl in Hp. rewrite pooled_insert, <-H1 by done. simpl.
    rewrite <-Hp. solve_Permutation.
  - intros id c' [[<- <-]|[Hne Hc']]%lookup_insert_Some; [done|auto].
  - intros Hc id c' [[<- <-]|[Hne Hc']]%lookup_insert_Some; [done|eauto].
  - intros k' c' g' y [(-> & <- & _)|[Hne Hc]]%list_lookup_insert_Some Hd'; [simpl in Hd'; by simplify_eq|eauto].
  - intros k' c' g' f' [(-> & <- & _)|[Hne Hc]]%list_lookup_insert_Some Hl'.
    + simpl in Hl'. injection Hl' as <- <-. right. eauto.
    + destruct (H5 _ _ _ _ Hc Hl') as [(?&?&?)|?]; [left|by right]. split_and!; [done|done|].
      rewrite lookup_insert_ne; [done|]. apply not_eq_sym. by eapply Hother.
  - intros k1 k2 c1 c2 g1 g2 f' Hc1 Hc2 Hl1 Hl2.
    assert (leading (cl_stage c) = Some (g, f)) as Hlc by (by rewrite Hs).
    apply list_lookup_insert_Some in Hc1 as [(-> & <- & _)|[Hne1 Hc1]]; apply list_lookup_insert_Some in Hc2 as [(-> & <- & _)|[Hne2 Hc2]].
    + done.
    + simpl in Hl1. injection Hl1 as <- <-. by eapply H6.
    + simpl in Hl2. injection Hl2 as <- <-. by eapply H6.
    + eauto.
  - congruence.
Qed.

Lemma pool_land w k c g f r landed :
  pool_inv w → gw_calls w !! k = Some c → cl_stage c = Landing g f r →
  pool_inv (set_call k c (Returned (result_map (pair g) r)) { w with gw_pool := construct_land (gw_pool w) g; gw_landed := landed }).
Proof.
  intros [H1 H2 H3 H4 H5 H6 H7] Hk Hs.
  assert (gp_flights (gw_pool w) !! gc_ID g = Some f) as Hf.
  { destruct (H5 k c g f Hk ltac:(by rewrite Hs)) as [(?&_)|(? & _ & ? & _)]; done. }
  constructor; simpl; try done.
  - unfold owners in *. simpl. pose proof (omap_insert held (gw_calls w) k c { c with cl_stage := Returned (result_map (pair g) r) } Hk) as Hp.
    unfold held in Hp at 1. rewrite Hs in Hp. unfold held in Hp at 2. simpl in Hp. by rewrite Hp.
  - intros k' c' g' y [(-> & <- & _)|[Hne Hc]]%list_lookup_insert_Some Hd'; [|eauto]. simpl in Hd'. destruct r as [x|]; [|done].
    simpl in Hd'. simplify_eq. apply (H4 k' c); [done|by rewrite Hs].
  - intros k' c' g' f' [(-> & <- & _)|[Hne Hc]]%list_lookup_insert_Some Hl'; [done|].
    assert (gc_ID g ≠ gc_ID g') as Hng.
    { intros E. apply Hne. destruct (H5 _ _ _ _ Hc Hl') as [(Hf'&_)|(? & _ & Hf' & _)]; rewrite <-E, Hf in Hf'; injection Hf' as <-;
        (eapply H6; [exact Hk|exact Hc|by rewrite Hs|exact Hl']). }
    rewrite !lookup_delete_ne by done. by apply (H5 k' c').
  - intros k1 k2 c1 c2 g1 g2 f' [(-> & <- & _)|[Hne1 Hc1]]%list_lookup_insert_Some [(-> & <- & _)|[Hne2 Hc2]]%list_lookup_insert_Some Hl1 Hl2; try done.
    eauto.
Qed.

Lemma Contains_insert c g x :
  c_byID c !! gc_ID g = None ∨ c_byID c !! gc_ID g = Some g → Contains c x = true →
  Contains { c with c_byID := <[gc_ID g := g]> (c_byID c); c_byName := <[gc_Name g := g]> (c_byName c) } x = true.
Proof.
  unfold Contains. intros Hg Hx%bool_decide_eq_true. apply bool_decide_eq_true. simpl.
  destruct (decide (gc_ID x = gc_ID g)) as [E|Hne]; [|by rewrite lookup_insert_ne].
  rewrite E in *. rewrite lookup_insert_eq. destruct Hg; congruence.
Qed.

Lemma executor_lock_inv w k c g ctxErr p stage :
  pool_inv w → gw_calls w !! k = Some c → cl_stage c = Resolved g → executor_lock (gw_pool w) (gw_cache w) ctxErr g (gw_next w) = (p, stage) →
  pool_inv (set_call k c stage { w with gw_pool := p; gw_next := gw_next w + 1 }).
Proof.
  intros HI Hk Hs. unfold executor_lock.
  assert (held c = None ∧ leading (cl_stage c) = None) as [Hh Hl] by (unfold held; by rewrite Hs).
  assert (∀ s, held { c with cl_stage := s } = None → leading s = None → delivers s = None →
    pool_inv (set_call k c s { w with gw_pool := gw_pool w; gw_next := gw_next w + 1 })) as Hmove.
  { intros s Hsh Hsl Hsd. change (pool_inv (set_call k c s { w with gw_next := gw_next w + 1 })).
    apply (pool_move { w with gw_next := gw_next w + 1 } k c s); [by apply pool_next|done|congruence|done..]. }
  destruct (available _ _ _ _); [intros [= <- <-]; by apply Hmove|]. cbv zeta.
  destruct (gp_clients (gw_pool w) !! gc_ID g) as [x|] eqn:Ex.
  - case_bool_decide as Hg.
    + intros [= <- <-]. pose proof (Hmove (Returned (Fail [])) eq_refl eq_refl eq_refl) as [H1 H2 H3 H4 H5 H6 H7].
      constructor; simpl in *; try done.
      * unfold owners in *. simpl in *. rewrite <-H1.
        pose proof (omap_insert held (gw_calls w) k c { c with cl_stage := Returned (Ok (g, gn_client x)) } Hk) as P1.
        pose proof (omap_insert held (gw_calls w) k c { c with cl_stage := Returned (Fail []) } Hk) as P2.
        rewrite Hh in P1. rewrite Hh in P2. change (omap held (<[k := { c with cl_stage := Returned (Ok (g, gn_client x)) }]> (gw_calls w)) ≡ₚ omap held (gw_calls w)) in P1.
        change (omap held (<[k := { c with cl_stage := Returned (Fail []) }]> (gw_calls w)) ≡ₚ omap held (gw_calls w)) in P2. by rewrite P1, P2.
      * intros k' c' g' y [(-> & <- & _)|[Hne Hc]]%list_lookup_insert_Some Hd'.
        -- simpl in Hd'. injection Hd' as <- <-. destruct (H2 _ _ Ex) as [_ Hb]. by rewrite <-Hg.
        -- eapply (H4 k' c'); [|done]. by rewrite list_lookup_insert_ne.
      * intros k' c' g' f' [(-> & <- & _)|[Hne Hc]]%list_lookup_insert_Some Hl'; [done|]. eapply (H5 k' c'); [|done]. by rewrite list_lookup_insert_ne.
      * intros k1 k2 c1 c2 g1 g2 f' [(-> & <- & _)|[Hne1 Hc1]]%list_lookup_insert_Some [(-> & <- & _)|[Hne2 Hc2]]%list_lookup_insert_Some Hl1 Hl2; try done.
        eapply (H6 k1 k2 c1 c2); [by rewrite list_lookup_insert_ne|by rewrite list_lookup_insert_ne|done|done].
    + destruct (gp_flights (gw_pool w) !! gc_ID g) as [f|] eqn:Ef; intros [= <- <-]; [by apply Hmove|].
      apply (pool_start w k c g (Some (gn_client x))); try done. by rewrite Ex.
  - destruct (gp_flights (gw_pool w) !! gc_ID g) as [f|] eqn:Ef; intros [= <- <-]; [by apply Hmove|].
    apply (pool_start w k c g None); try done; [by rewrite delete_id|by rewrite Ex].
Qed.

Lemma pool_step_inv w w' : pool_inv w → step w w' → pool_inv w'.
Proof.
  intros HI Hs. destruct Hs as [w byID byName cc obs Hcl Hr|w p removed Hcl Hr|w g Hg|w id|w k c e Hk Hs|w k c g Hk Hs Hid|w k c g ctxErr p stage Hk Hs He
    |w k c f e Hk Hs|w k c f r Hk Hs Hf|w k c g f old Hk Hs|w k c g f err Hk Hs Hn|w k c g f err Hk Hs|w k c g f conn err ctxErr p stage Hk Hs Hp
    |w k c g f conn e Hk Hs|w k c g f r Hk Hs|w p removed Hc|w x rest Hx].
  - destruct HI. by constructor.
  - injection Hr as <- <-. pose proof (pooled_split (gp_clients (gw_pool w)) (obsolete (gw_cache w))) as Hsp.
    apply (pool_remove w _ _ (gp_closed (gw_pool w))); try done.
    + rewrite Hsp. apply Permutation_app_comm.
    + apply map_filter_subseteq.
    + left. intros id c [Hc Ho]%map_lookup_filter_Some. unfold obsolete in Ho. by destruct (Contains _ _).
    + intros Hc. rewrite (pi_closed _ HI Hc). apply map_filter_empty.
    + right. intros id c [Hc Ho]%map_lookup_filter_Some. unfold obsolete in Ho. by destruct (Contains _ _).
  - destruct HI as [H1 H2 H3 H4 H5 H6 H7]. constructor; simpl; try done. intros Hc id c Hx. apply Contains_insert; [done|]. eauto.
  - by apply pool_calls_app.
  - apply (pool_move w); try done; unfold held; by rewrite Hs.
  - apply (pool_move w); try done; unfold held; by rewrite Hs.
  - by eapply executor_lock_inv.
  - apply (pool_move w); try done; unfold held; by rewrite Hs.
  - apply (pool_move w); try done; unfold held; rewrite ?Hs; by destruct r.
  - apply (pool_lead w k c (Creating g f) g f (gw_built w) (gw_next w) (option_list old ++ gw_closed w)); try done; try (by rewrite Hs).
    + intros rest. unfold held. rewrite Hs. simpl. by rewrite app_assoc.
  - apply (pool_lead w k c (Built g f (Some (gw_next w)) err) g f (<[gw_next w := g]> (gw_built w)) (gw_next w + 1) (gw_closed w)); try done; try (by rewrite Hs).
    + lia.
    + by apply insert_subseteq.
    + intros g' x [= <- <-]. apply lookup_insert_eq.
    + intros rest. unfold held. rewrite Hs. simpl. rewrite map_to_list_insert by done. simpl. split; [apply Permutation_cons_inv|by intros ->].
  - apply (pool_lead w k c (Built g f None err) g f (gw_built w) (gw_next w) (gw_closed w)); try done; try (by rewrite Hs).
    + intros rest. unfold held. by rewrite Hs.
  - unfold construct_publish in Hp.
    assert (∀ x e, x = conn → pool_inv (set_call k c (Discarding g f x e) { w with gw_pool := gw_pool w })) as Hdisc.
    { intros x e ->. apply (pool_lead w k c (Discarding g f conn e) g f (gw_built w) (gw_next w) (gw_closed w)); try done; try (by rewrite Hs).
      - intros rest. unfold held. by rewrite Hs. }
    destruct conn as [x|], err as [e|]; try (injection Hp as <- <-; by apply Hdisc).
    unfold available in Hp. destruct (gp_closed (gw_pool w)) eqn:Ecl; [injection Hp as <- <-; by apply Hdisc|].
    destruct ctxErr; [injection Hp as <- <-; by apply Hdisc|]. destruct (Contains (gw_cache w) g) eqn:Econ; injection Hp as <- <-; [|by apply Hdisc].
    by apply pool_publish.
  - apply (pool_lead w k c (Landing g f (Fail e)) g f (gw_built w) (gw_next w) (option_list conn ++ gw_closed w)); try done; try (by rewrite Hs).
    + intros rest. unfold held. rewrite Hs. simpl. by rewrite app_assoc.
  - by apply (pool_land w k c g f r).
  - unfold Close in Hc. destruct (gp_closed (gw_pool w)) eqn:Ecl; injection Hc as <- <-; [by destruct w, HI; constructor|].
    apply (pool_remove w ∅ _ true); try done; [apply map_empty_subseteq|by left|by left].
  - destruct HI as [H1 H2 H3 H4 H5 H6 H7]. constructor; simpl; try done. unfold owners in *. simpl. rewrite <-H1, Hx. solve_Permutation.
Qed.

(** C29: The pool of executor connections neither leaks nor mixes them up.  Whatever the
    interleaving of calls, constructions, refreshes of the group cache and shutdown: every
    connection ever created has exactly one owner, the pool, a call or a closer, or has
    been closed exactly once; a call is only ever given a connection built for the very
    group configuration it resolved; between refreshes the pool holds connections of
    current groups only, and none once closed; and no two calls construct a connection of
    one group at the same time. *)
Theorem group_clients_sound hosts rpcTimeout p cache w :
  NewGroupClients hosts rpcTimeout = Ok p → rtc step (boot p cache) w →
  NoDup (owners w) ∧ (∀ x, x ∈ owners w ↔ is_Some (gw_built w !! x)) ∧
  (∀ k c g x, gw_calls w !! k = Some c → cl_stage c = Returned (Ok (g, x)) → gw_built w !! x = Some g) ∧
  (∀ id c, gp_clients (gw_pool w) !! id = Some c →
     gc_ID (gn_group c) = id ∧ gp_closed (gw_pool w) = false ∧ (gw_cleaning w = false → Contains (gw_cache w) (gn_group c) = true)) ∧
  (∀ k1 k2 c1 c2 g1 g2 f1 f2, gw_calls w !! k1 = Some c1 → gw_calls w !! k2 = Some c2 → leading (cl_stage c1) = Some (g1, f1) →
     leading (cl_stage c2) = Some (g2, f2) → gc_ID g1 = gc_ID g2 → k1 = k2).
Proof.
  intros Hp Hr. assert (pool_inv w) as [H1 H2 H3 H4 H5 H6 H7].
  { assert (pool_inv (boot p cache)) as H0.
    { unfold NewGroupClients in Hp. repeat case_match; try done. injection Hp as <-. constructor; simpl; try done. }
    clear Hp. induction Hr as [|w1 w2 w3 Hs _ IH]; [done|]. apply IH. by eapply pool_step_inv. }
  split_and!.
  - rewrite H1. apply NoDup_fst_map_to_list.
  - intros x. rewrite H1, list_elem_of_fmap. split; [intros ([y g] & -> & Hy%elem_of_map_to_list); by exists g|].
    intros [g Hg]. exists (x, g). by rewrite elem_of_map_to_list.
  - intros k c g x Hk Hs. apply (H4 k c); [done|by rewrite Hs].
  - intros id c Hc. destruct (H2 _ _ Hc) as [? _]. split_and!; [done| |by eauto].
    destruct (gp_closed (gw_pool w)) eqn:E; [|done]. rewrite H7 in Hc by done. done.
  - intros k1 k2 c1 c2 g1 g2 f1 f2 Hk1 Hk2 Hl1 Hl2 E.
    assert (f1 = f2) as ->.
    { destruct (H5 _ _ _ _ Hk1 Hl1) as [(Ha&_)|(? & _ & Ha & _)]; destruct (H5 _ _ _ _ Hk2 Hl2) as [(Hb&_)|(? & _ & Hb & _)]; congruence. }
    by eapply H6.
Qed.

(** One call finds its group in the cache, builds a connection and is given it. *)
Definition demo_group : ExecutorGroupConfig := {| gc_ID := 5; gc_Name := "g"; gc_DiscoveryKey := "k"; gc_Token := "t" |}.
Definition demo_cache : Cache := { empty_cache with c_byID := {[5 := demo_group]}; c_byName := {["g" := demo_group]} }.
Definition demo_pool : GroupClients := {| gp_closed := false; gp_clients := ∅; gp_flights := ∅ |}.
Definition demo_served : World :=
  {| gw_pool := {| gp_closed := false; gp_clients := {[5 := {| gn_group := demo_group; gn_client := 2 |}]}; gp_flights := ∅ |};
     gw_cache := demo_cache; gw_cleaning := false; gw_calls := [{| cl_id := 5; cl_stage := Returned (Ok (demo_group, 2)) |}];
     gw_landed := {[1 := None]}; gw_next := 3; gw_built := {[2 := demo_group]}; gw_removed := []; gw_closed := [] |}.

Lemma demo_served_reached : rtc step (boot demo_pool demo_cache) demo_served.
Proof.
  eapply rtc_l; [apply (gs_call _ 5)|]. eapply rtc_l; [by apply (gs_resolve _ 0 {| cl_id := 5; cl_stage := Calling |} demo_group)|].
  eapply rtc_l; [by eapply (gs_lock _ 0 _ demo_group None)|]. eapply rtc_l; [by eapply (gs_close_old _ 0 _ demo_group 1 None)|].
  eapply rtc_l; [by eapply (gs_create _ 0 _ demo_group 1 None)|]. eapply rtc_l; [by eapply (gs_publish _ 0 _ demo_group 1 (Some 2) None None)|].
  eapply rtc_l; [by eapply (gs_land _ 0 _ demo_group 1 (Ok 2))|]. match goal with |- rtc step ?w _ => assert (w = demo_served) as -> by evaluate end. constructor.
Qed.

Lemma group_clients_sound_witness : NoDup (owners demo_served) ∧ gw_built demo_served !! 2 = Some demo_group.
Proof.
  destruct (group_clients_sound ["etcd:2379"] Second demo_pool demo_cache demo_served) as (H1 & _ & H2 & _); [evaluate|exact demo_served_reached|].
  split; [exact H1|]. by apply (H2 0%nat {| cl_id := 5; cl_stage := Returned (Ok (demo_group, 2)) |}).
Defined.
