(* ===== verification/Redis.v ===== *)
(** * Redis and programs that talk to it

    The part of Redis the System services use: a keyspace of strings, sets and hashes
    with deadlines, one clock, and commands that execute one at a time.  A service call is
    a program of commands; calls of many processes interleave command by command, and the
    answer of any command may be lost, before or after it took effect. *)

From S2P Require Import Prelude GoLib Model.

Open Scope string_scope.
Open Scope list_scope.
Open Scope Z_scope.

(** ** The keyspace *)

Inductive RedisValue := RString (s : string) | RSet (m : gset string) | RHash (m : gmap string string).

(** A key with the last millisecond at which it exists, if it expires; [rd_us] is the
    server clock in microseconds. *)
Record Redis := { rd_keys : gmap string (RedisValue * option Z); rd_us : Z }.

Definition wrong_type {A} : Result A := Fail [Text "WRONGTYPE"].

(** The answer of [TIME], and the milliseconds that measure deadlines. *)
Definition rd_time (r : Redis) : Z * Z := (rd_us r `div` 1000000, rd_us r `mod` 1000000).
Definition rd_ms (r : Redis) : Z := rd_us r `div` 1000.

Definition expired (r : Redis) (deadline : option Z) : bool :=
  match deadline with Some d => d <? rd_ms r | None => false end.

Definition find (r : Redis) (key : string) : option (RedisValue * option Z) :=
  match rd_keys r !! key with
  | Some (v, d) => if expired r d then None else Some (v, d)
  | None => None
  end.

Definition put (r : Redis) (key : string) (v : RedisValue) (d : option Z) : Redis :=
  { r with rd_keys := <[key := (v, d)]> (rd_keys r) }.

Definition deadline (r : Redis) (seconds : Z) : Z := rd_ms r + seconds * 1000.

Definition redis_get (r : Redis) (key : string) : Result (option string) :=
  match find r key with None => Ok None | Some (RString s, _) => Ok (Some s) | Some _ => wrong_type end.
Definition redis_setex (r : Redis) (key : string) (v : string) (seconds : Z) : Redis * Result unit :=
  if seconds <=? 0 then (r, Fail [Text "invalid expire time"]) else (put r key (RString v) (Some (deadline r seconds)), Ok tt).
Definition redis_del (r : Redis) (keys : list string) : Redis :=
  { r with rd_keys := foldr delete (rd_keys r) keys }.
Definition redis_expire (r : Redis) (key : string) (seconds : Z) : Redis :=
  match find r key with
  | None => r
  | Some (v, _) => if seconds <=? 0 then redis_del r [key] else put r key v (Some (deadline r seconds))
  end.
Definition redis_smembers (r : Redis) (key : string) : Result (gset string) :=
  match find r key with None => Ok ∅ | Some (RSet m, _) => Ok m | Some _ => wrong_type end.
Definition redis_sadd (r : Redis) (key member : string) : Redis * Result unit :=
  match find r key with
  | None => (put r key (RSet {[member]}) None, Ok tt)
  | Some (RSet m, d) => (put r key (RSet ({[member]} ∪ m)) d, Ok tt)
  | Some _ => (r, wrong_type)
  end.
Definition redis_srem (r : Redis) (key member : string) : Redis * Result unit :=
  match find r key with
  | None => (r, Ok tt)
  | Some (RSet m, d) =>
      (if bool_decide (m ∖ {[member]} = ∅) then redis_del r [key] else put r key (RSet (m ∖ {[member]})) d, Ok tt)
  | Some _ => (r, wrong_type)
  end.

(** ** Texts *)

(** [json.Marshal], [json.Unmarshal] and Redis's [cjson.encode], between texts and documents;
    [cjson.decode] reads what [Unmarshal] reads. *)
Class JsonText := { Marshal : json → string; Unmarshal : string → option json; cjson_encode : json → string }.

(** ** Commands on keys *)

Lemma find_put_ne r key v d k : k ≠ key → find (put r key v d) k = find r k.
Proof. intros Hk. unfold find, put. simpl. by rewrite lookup_insert_ne. Qed.
Lemma find_put r key v d : find (put r key v d) key = if expired r d then None else Some (v, d).
Proof. unfold find, put. simpl. by rewrite lookup_insert_eq. Qed.
Lemma foldr_delete_lookup {A} (m : gmap string A) keys k :
  foldr delete m keys !! k = if bool_decide (k ∈ keys) then None else m !! k.
Proof.
  induction keys as [|key keys IH]; simpl; [done|]. destruct (decide (k = key)) as [->|Hne].
  - rewrite lookup_delete_eq, bool_decide_eq_true_2; [done|by left].
  - rewrite lookup_delete_ne by done. rewrite IH. repeat case_bool_decide; set_solver.
Qed.
Lemma find_del r keys k : find (redis_del r keys) k = if bool_decide (k ∈ keys) then None else find r k.
Proof. unfold find, redis_del. simpl. rewrite foldr_delete_lookup. by case_bool_decide. Qed.
Lemma fresh_deadline r seconds : 0 < seconds → expired r (Some (deadline r seconds)) = false.
Proof. intros Hs. unfold expired, deadline. apply Z.ltb_ge. lia. Qed.
Lemma find_alive r key v d : find r key = Some (v, d) → expired r d = false.
Proof. unfold find. destruct (rd_keys r !! key) as [[v' d']|]; [|done]. destruct (expired r d') eqn:E; [done|]. by intros [= _ <-]. Qed.
Lemma find_put_live r key v d : expired r d = false → find (put r key v d) key = Some (v, d).
Proof. intros Hd. by rewrite find_put, Hd. Qed.

(** ** Programs *)

Inductive Prog (Q : Type → Type) (A : Type) : Type :=
| Ret (a : Result A)
| Spin   (* a loop that was given too few turns: it has not returned *)
| Do (X : Type) (q : Q X) (k : Result X → Prog Q A).
Arguments Ret {Q A} _.
Arguments Spin {Q A}.
Arguments Do {Q A X} _ _.

Fixpoint prog_bind {Q A B} (p : Prog Q A) (f : Result A → Prog Q B) : Prog Q B :=
  match p with Ret a => f a | Spin => Spin | Do q k => Do q (λ x, prog_bind (k x) f) end.

(** [x ← p; rest] runs on when [p] succeeded and returns its error otherwise;
    [r <~ p; rest] looks at the result itself. *)
Definition prog_ok {Q A B} (f : A → Prog Q B) (r : Result A) : Prog Q B :=
  match r with Ok a => f a | Fail e => Ret (Fail e) end.
#[global] Instance Prog_ret {Q} : MRet (Prog Q) := λ A a, Ret (Ok a).
#[global] Instance Prog_bind {Q} : MBind (Prog Q) := λ A B f p, prog_bind p (prog_ok f).
Definition ask {Q X} (q : Q X) : Prog Q X := Do q Ret.
Definition raise {Q A} (e : Error) : Prog Q A := Ret (Fail e).

Notation "x <~ p ; q" := (prog_bind p (λ x, q)) (at level 20, p at level 100, q at level 200, only parsing).

(** A property of every command a program can still issue, whatever it is answered. *)
Fixpoint every {Q A} (P : ∀ X, Q X → Prop) (p : Prog Q A) : Prop :=
  match p with Ret _ | Spin => True | Do q k => P _ q ∧ ∀ x, every P (k x) end.

Lemma every_bind {Q A B} (P : ∀ X, Q X → Prop) (p : Prog Q A) (f : Result A → Prog Q B) :
  every P p → (∀ r, every P (f r)) → every P (prog_bind p f).
Proof. induction p as [a| |X q k IH]; simpl; [by auto|done|]. intros [? Hk] Hf. split; [done|]. intros x. by apply IH. Qed.

Lemma every_ok {Q A B} (P : ∀ X, Q X → Prop) (f : A → Prog Q B) r :
  (∀ a, every P (f a)) → every P (prog_ok f r).
Proof. by destruct r; simpl. Qed.

(** Walk through a program command by command. *)
Ltac every_step :=
  repeat first
    [ done
    | apply every_bind; [|intros ?]
    | progress unfold mbind, Prog_bind, mret, Prog_ret, ask, raise
    | apply every_ok; intros ?
    | progress simpl
    | split; [|intros ?]
    | case_match ].

(** ** Executions

    [Run p s log r s'] is one execution of [p] in an environment: before every command and at
    the end the environment may take any step of [rely]; a command takes effect as [effect]
    says, or its answer is lost, with or without its effect.  [log] lists the store after each
    step, with the command and the answer for the steps of the program. *)
Section runs.
Context {Q : Type → Type} {S : Type} (effect : ∀ X, Q X → S → S → Result X → Prop) (rely : S → S → Prop).

Definition lost {X} : Result X := Fail [Driver].

(** One command, its lost answers included. *)
Definition performs X (q : Q X) (s s' : S) (r : Result X) : Prop :=
  effect X q s s' r ∨ (r = lost ∧ (s' = s ∨ ∃ r', effect X q s s' r')).

Record Moment := { mo_state : S; mo_command : option {X : Type & (Q X * Result X)%type} }.
Definition env_moment (s : S) : Moment := {| mo_state := s; mo_command := None |}.
Definition own_moment {X} (s : S) (q : Q X) (r : Result X) : Moment := {| mo_state := s; mo_command := Some (existT X (q, r)) |}.

Inductive Run {A} : Prog Q A → S → list Moment → Result A → S → Prop :=
| Run_ret a s : Run (Ret a) s [] a s
| Run_env p s s1 log r s' : rely s s1 → Run p s1 log r s' → Run p s (env_moment s1 :: log) r s'
| Run_do X (q : Q X) k s s1 x log r s' : performs X q s s1 x → Run (k x) s1 log r s' →
    Run (Do q k) s (own_moment s1 q x :: log) r s'.

(** The step of a program from [s] to [s1], seen as [m], that leaves [k]. *)
Definition same_step {A} (s s1 : S) (m : Moment) (k : Prog Q A) (p : Prog Q A) : Prop :=
  match p with
  | Do q0 k0 => ∃ x0, performs _ q0 s s1 x0 ∧ own_moment s1 q0 x0 = m ∧ k0 x0 = k
  | Ret _ | Spin => True
  end.

(** The first own step of a run of [Do q k], or none yet. *)
Lemma Run_Do {A} X (q : Q X) (k : Result X → Prog Q A) s log r s' :
  Run (Do q k) s log r s' →
  ∃ s1 s2 x l1 l2, log = l1 ++ own_moment s2 q x :: l2 ∧ Forall (λ m, mo_command m = None) l1 ∧ performs X q s1 s2 x ∧ Run (k x) s2 l2 r s' ∧
    (∀ P : S → Prop, P s → (∀ a b, rely a b → P a → P b) → P s1 ∧ Forall (λ m, P (mo_state m)) l1).
Proof.
  intros Hr. remember (Do q k) as t eqn:Et. induction Hr as [a s|t s s1 log r s' He Hr IH|Y q' k' s s1 x log r s' Hp Hr IH].
  - done.
  - destruct (IH Et) as (a & b & x & l1 & l2 & -> & Hl & Hp & Hk & HP). exists a, b, x, (env_moment s1 :: l1), l2.
    split_and!; [done|by constructor|done|done|]. intros P Hs HR. destruct (HP P (HR _ _ He Hs) HR). split; [done|]. constructor; [by eapply HR|done].
  - assert (same_step s s1 (own_moment s1 q' x) (k' x) (Do q' k')) as Hsame by (by exists x). rewrite Et in Hsame. destruct Hsame as (x0 & Hp0 & Hm & Hk0).
    exists s, s1, x0, [], log. rewrite Hm, Hk0. split_and!; [done|constructor|done|done|]. intros P Hs _. by split.
Qed.

(** A run of a sequence is a run of its first part and one of the rest. *)
Lemma Run_bind {A B} (p : Prog Q A) (f : Result A → Prog Q B) s log r s' :
  Run (prog_bind p f) s log r s' → ∃ a s1 log1 log2, Run p s log1 a s1 ∧ Run (f a) s1 log2 r s' ∧ log = log1 ++ log2.
Proof.
  intros Hr. remember (prog_bind p f) as t eqn:Et. revert p Et.
  induction Hr as [a s|t s s1 log r s' He Hr IH|X q k s s1 x log r s' Hp Hr IH]; intros p Et.
  - destruct p as [a'| |]; [|done|done]. simpl in Et. exists a', s, [], []. split_and!; [constructor|rewrite <-Et; constructor|done].
  - destruct (IH p Et) as (a & s2 & l1 & l2 & Ha & Hb & ->). exists a, s2, (env_moment s1 :: l1), l2. split_and!; [by econstructor|done|done].
  - destruct p as [a'| |Y q' k']; [|done|].
    + simpl in Et. exists a', s, [], (own_moment s1 q x :: log). split_and!; [constructor|rewrite <-Et; by econstructor|done].
    + assert (same_step s s1 (own_moment s1 q x) (k x) (Do q k)) as Hsame by (by exists x). rewrite Et in Hsame.
      destruct Hsame as (x' & Hp' & Hm & Ek).
      destruct (IH (k' x') (eq_sym Ek)) as (a & s2 & l1 & l2 & Ha & Hb & ->).
      exists a, s2, (own_moment s1 q x :: l1), l2. rewrite <-Hm. split_and!; [by econstructor|done|done].
Qed.

Lemma Run_Ret {A} (a : Result A) s log r s' : Run (Ret a) s log r s' → r = a ∧ Forall (λ m, mo_command m = None) log.
Proof.
  intros Hr. remember (Ret a) as t eqn:Et. induction Hr as [a' s|t s s1 log r s' He Hr IH|]; [by injection Et as ->| |done].
  destruct (IH Et) as [-> Hl]. split; [done|by constructor].
Qed.

Lemma Run_Spin {A} s log (r : Result A) s' : ¬ Run Spin s log r s'.
Proof. intros Hr. remember Spin as t eqn:Et. by induction Hr as [| |]; auto. Qed.

(** The commands in the log of a run are commands of the program. *)
Lemma Run_every {A} (ok : ∀ X, Q X → Prop) (p : Prog Q A) s log r s' : every ok p → Run p s log r s' →
  Forall (λ m, match mo_command m with Some (existT X (q, _)) => ok X q | None => True end) log.
Proof.
  intros Hok Hr. induction Hr as [a s|p s s1 log r s' He Hr IH|X q k s s1 x log r s' Hp Hr IH]; [constructor|by constructor; auto|].
  destruct Hok as [Hq Hk]. constructor; [done|]. by apply IH.
Qed.

(** The rest of a run after one of its moments. *)
Lemma Run_from {A} (ok : ∀ X, Q X → Prop) (p : Prog Q A) s log r s' m : every ok p → Run p s log r s' → m ∈ log →
  ∃ p' rest, every ok p' ∧ Run p' (mo_state m) rest r s'.
Proof.
  intros Hok Hr. induction Hr as [a s|p s s1 log r s' He Hr IH|X q k s s1 x log r s' Hp Hr IH]; [by intros ?%elem_of_nil|..].
  - intros [->|Hm]%elem_of_cons; [by eexists _, _|by apply IH].
  - destruct Hok as [_ Hk]. intros [->|Hm]%elem_of_cons; [by eexists _, _|by apply IH].
Qed.

(** What the environment and every command of a program preserve holds throughout. *)
Lemma Run_keeps {A} (ok : ∀ X, Q X → Prop) (P : S → Prop) (p : Prog Q A) s log r s' :
  (∀ a b, rely a b → P a → P b) → (∀ X (q : Q X) a b x, ok X q → effect X q a b x → P a → P b) → every ok p →
  Run p s log r s' → P s → P s' ∧ Forall (λ m, P (mo_state m)) log.
Proof.
  intros HR HE Hok Hr. induction Hr as [a s|p s s1 log r s' He Hr IH|X q k s s1 x log r s' Hp Hr IH]; intros Hs; [done|..].
  - destruct (IH Hok (HR _ _ He Hs)). split; [done|]. constructor; [by eapply HR|done].
  - destruct Hok as [Hq Hk]. assert (P s1) as Hs1 by (destruct Hp as [Hp|(_ & [->|[r' Hp]])]; [by eapply HE|done|by eapply HE]).
    destruct (IH (Hk x) Hs1). split; [done|]. by constructor.
Qed.
End runs.

(** ** Triples

    [holds x] is a family of assertions that the environment keeps; [triple x p φ]: a run of
    [p] from a store where [holds x] stays within the family and ends in one of its
    assertions, which [φ] relates to the answer. *)
Section triples.
Context {Q : Type → Type} {S X : Type} (effect : ∀ Y, Q Y → S → S → Result Y → Prop) (rely : S → S → Prop) (holds : X → S → Prop).
Context (Hrely : ∀ x a b, rely a b → holds x a → holds x b).

Definition triple {A} (x : X) (p : Prog Q A) (φ : Result A → X → Prop) : Prop :=
  ∀ s log r s', holds x s → Run effect rely p s log r s' →
    (∃ y, holds y s' ∧ φ r y) ∧ Forall (λ m, ∃ y, holds y (mo_state m)) log.

Lemma triple_ret {A} x (a : Result A) (φ : Result A → X → Prop) : φ a x → triple x (Ret a) φ.
Proof.
  intros Hφ s log r s' Hs Hr. remember (Ret a) as t eqn:Et. induction Hr as [a' s|t s s1 log r s' He Hr IH|]; [|..|done].
  - injection Et as ->. by eauto.
  - assert (holds x s1) as Hs1 by (by eapply Hrely). destruct (IH Hs1 Et) as [? ?]. split; [done|]. constructor; by eauto.
Qed.

Lemma triple_bind {A B} x (p : Prog Q A) (f : Result A → Prog Q B) ψ φ :
  triple x p ψ → (∀ r y, ψ r y → triple y (f r) φ) → triple x (prog_bind p f) φ.
Proof.
  intros Hp Hf s log r s' Hs Hr. apply Run_bind in Hr as (a & s1 & l1 & l2 & H1 & H2 & ->).
  destruct (Hp _ _ _ _ Hs H1) as [(y & Hy & Hψ) HF1]. destruct (Hf _ _ Hψ _ _ _ _ Hy H2) as [? HF2].
  split; [done|]. by apply Forall_app.
Qed.

Lemma triple_ask {Y} x (q : Q Y) (φ : Result Y → X → Prop) :
  (∀ s s1 r, holds x s → performs effect Y q s s1 r → ∃ y, holds y s1 ∧ φ r y) → triple x (ask q) φ.
Proof.
  intros Hq s log r s' Hs Hr. apply Run_Do in Hr as (s1 & s2 & a & l1 & l2 & -> & _ & Hp & Hr & HP).
  destruct (HP (holds x) Hs (Hrely x)) as [H1 HF]. destruct (Hq _ _ _ H1 Hp) as (y & Hy & Hφ).
  destruct (triple_ret y a φ Hφ _ _ _ _ Hy Hr) as [? HF2]. split; [done|].
  apply Forall_app. split; [|constructor; by eauto]. eapply Forall_impl; [exact HF|]. intros m Hm. by exists x.
Qed.

Lemma triple_mono {A} x (p : Prog Q A) (ψ φ : Result A → X → Prop) : (∀ r y, ψ r y → φ r y) → triple x p ψ → triple x p φ.
Proof. intros Hi Hp s log r s' Hs Hr. destruct (Hp _ _ _ _ Hs Hr) as [(y & ? & ?) ?]. by eauto. Qed.

(** A sequence: its first part may fail, which is the answer then. *)
Lemma triple_seq {A B} x (p : Prog Q A) (f : A → Prog Q B) ψ φ :
  triple x p ψ → (∀ a y, ψ (Ok a) y → triple y (f a) φ) → (∀ e y, ψ (Fail e) y → φ (Fail e) y) →
  triple x (prog_bind p (prog_ok f)) φ.
Proof. intros Hp Hf He. eapply triple_bind; [done|]. intros [a|e] y Hψ; [by apply Hf|]. apply triple_ret. by apply He. Qed.
End triples.
