(* ===== verification/Sessions.v ===== *)
(** * Login sessions and credentials

    apps/system/internal/authn: sessions in Redis with a per-user index (session.go), the
    replayable result of a refresh (refresh_result.go), and the issuer of access and
    refresh tokens (token.go).  Cryptography, JSON texts, the JWT library and random bytes
    are parameters. *)

From S2P Require Import Prelude GoLib GoText Tx Model TaskRepo InstanceRepo JobRepo Trigger RpcErrors JobLogic Redis.

Open Scope string_scope.
Open Scope list_scope.
Open Scope Z_scope.

(** ** Sessions and their JSON *)

(** [time.Parse(time.RFC3339Nano, _)], as [time.Time.UnmarshalJSON] uses it. *)
Class TimeParse := ParseTime : string → option Time.

Definition ErrSessionNotFound : Cause := Sentinel "session not found".
Definition ErrSessionUserMismatch : Cause := Sentinel "session user mismatch".
Definition ErrRefreshTokenMismatch : Cause := Sentinel "refresh token mismatch".

Record Session := {
  se_ID : string; se_UserID : Z; se_RefreshTokenHash : string; se_CreatedAt : Time; se_ExpiresAt : Time;
  se_PreviousRefreshTokenHash : string; se_RefreshReplayUntil : Z; se_EncryptedRefreshResult : string;
}.
Definition zero_session : Session := {|
  se_ID := ""; se_UserID := 0; se_RefreshTokenHash := ""; se_CreatedAt := 0; se_ExpiresAt := 0;
  se_PreviousRefreshTokenHash := ""; se_RefreshReplayUntil := 0; se_EncryptedRefreshResult := "" |}.

Definition omit_empty (key value : string) : list (string * json) :=
  if bool_decide (value = "") then [] else [(key, JString value)].

Section codec.
Context `{JsonText, TimeText, TimeParse}.

Definition session_json (s : Session) : json := JObject (
  [("id", JString (se_ID s)); ("userId", JInt (se_UserID s)); ("refreshTokenHash", JString (se_RefreshTokenHash s));
   ("createdAt", JString (RFC3339Nano (se_CreatedAt s))); ("expiresAt", JString (RFC3339Nano (se_ExpiresAt s)))] ++
  omit_empty "previousRefreshTokenHash" (se_PreviousRefreshTokenHash s) ++
  (if se_RefreshReplayUntil s =? 0 then [] else [("refreshReplayUntil", JInt (se_RefreshReplayUntil s))]) ++
  omit_empty "encryptedRefreshResult" (se_EncryptedRefreshResult s)).

Definition as_time (j : json) : option Time := match j with JString t => ParseTime t | _ => None end.

(** Decoding into the struct [cur]. *)
Definition session_decode (cur : Session) (j : json) : option Session :=
  l ← members j;
  id ← decode_with as_string (se_ID cur) (jget "id" l);
  user ← decode_with (as_int in_int64) (se_UserID cur) (jget "userId" l);
  hash ← decode_with as_string (se_RefreshTokenHash cur) (jget "refreshTokenHash" l);
  created ← decode_with as_time (se_CreatedAt cur) (jget "createdAt" l);
  expires ← decode_with as_time (se_ExpiresAt cur) (jget "expiresAt" l);
  previous ← decode_with as_string (se_PreviousRefreshTokenHash cur) (jget "previousRefreshTokenHash" l);
  until ← decode_with (as_int in_int64) (se_RefreshReplayUntil cur) (jget "refreshReplayUntil" l);
  encrypted ← decode_with as_string (se_EncryptedRefreshResult cur) (jget "encryptedRefreshResult" l);
  Some {| se_ID := id; se_UserID := user; se_RefreshTokenHash := hash; se_CreatedAt := created; se_ExpiresAt := expires;
          se_PreviousRefreshTokenHash := previous; se_RefreshReplayUntil := until; se_EncryptedRefreshResult := encrypted |}.

Definition session_unmarshal (cur : Session) (text : string) : option Session :=
  match Unmarshal text with Some j => session_decode cur j | None => None end.
End codec.

Definition validateSession (s : Session) : Result unit :=
  if bool_decide (se_ID s = "") || (se_UserID s <=? 0) || bool_decide (se_RefreshTokenHash s = "") ||
     is_zero (se_CreatedAt s) || is_zero (se_ExpiresAt s) || negb (is_after (se_ExpiresAt s) (se_CreatedAt s))
  then Fail [Text "invalid session"] else Ok tt.

(** [math.Ceil(ttl.Seconds())].  The float64 sum is exact for whole seconds; it can lose a
    fraction of a second beyond 97 days. *)
Definition ttlSeconds (ttl : Duration) : Result Z :=
  if ttl <=? 0 then Fail [Text "session ttl must be positive"] else Ok (- ((- ttl) / Second)).

Inductive LuaReply := LuaString (s : string) | LuaInt (z : Z).
Definition scriptInteger (r : LuaReply) : Z := match r with LuaInt z => z | LuaString s => ParseInt s end.

(** ** The rotation script *)

Fixpoint jset (k : string) (v : json) (l : list (string * json)) : list (string * json) :=
  match l with
  | [] => [(k, v)]
  | (k', v') :: t => if bool_decide (k = k') then (k, v) :: t else (k', v') :: jset k v t
  end.

(** [a == ARGV[i]] and the truth value of a table field in Lua; comparing the clock with
    anything but a number is a script error. *)
Definition lua_is (f : option json) (s : string) : bool :=
  match f with Some (JString t) => bool_decide (t = s) | _ => false end.
Definition lua_true (f : option json) : bool := match f with None | Some (JBool false) => false | _ => true end.
Definition lua_within (now : Z) (f : option json) : option bool :=
  match f with
  | None | Some (JBool false) => Some false
  | Some (JInt z) => Some (now <? z)
  | Some _ => None
  end.

Definition lua_error {A} : Result A := Fail [Text "ERR script"].

Definition rotateRefreshTokenScript `{JsonText} (r : Redis) (key current next expires : string) (seconds : Z) (encrypted : string)
    : Redis * Result LuaReply :=
  match redis_get r key with
  | Fail e => (r, Fail e)
  | Ok None => (r, Ok (LuaInt 0))
  | Ok (Some value) =>
      match Unmarshal value with
      | Some (JObject session) =>
          let clock := rd_time r in
          let now := clock.1 * 1000 + clock.2 `div` 1000 in
          match lua_within now (jget "refreshReplayUntil" session) with
          | None => (r, lua_error)
          | Some withinWindow =>
              if withinWindow && lua_true (jget "encryptedRefreshResult" session) &&
                 (lua_is (jget "refreshTokenHash" session) current || lua_is (jget "previousRefreshTokenHash" session) current)
              then (r, Ok (LuaString value))
              else if negb (lua_is (jget "refreshTokenHash" session) current) then (redis_del r [key], Ok (LuaInt (-1)))
              else
                let s1 := jset "previousRefreshTokenHash" (JString current) session in
                let s2 := jset "refreshTokenHash" (JString next) s1 in
                let s3 := jset "expiresAt" (JString expires) s2 in
                let s4 := jset "refreshReplayUntil" (JInt (now + 5000)) s3 in
                let s5 := jset "encryptedRefreshResult" (JString encrypted) s4 in
                let updated := cjson_encode (JObject s5) in
                match redis_setex r key updated seconds with
                | (r', Ok _) => (r', Ok (LuaString updated))
                | (r', Fail e) => (r', Fail e)
                end
          end
      | _ => (r, lua_error)
      end
  end.

(** ** The commands of a session store and of the issuer's role provider *)

Inductive AuthCmd : Type → Type :=
| GET (key : string) : AuthCmd string
| SETEX (key value : string) (seconds : Z) : AuthCmd unit
| DEL (keys : list string) : AuthCmd unit
| SADD (key member : string) : AuthCmd unit
| SREM (key member : string) : AuthCmd unit
| EXPIRE (key : string) (seconds : Z) : AuthCmd unit
| SSCAN (key : string) (cursor : Z) : AuthCmd (list string * Z)
| EVAL_ROTATE (key current next expires : string) (seconds : Z) (encrypted : string) : AuthCmd LuaReply
| ListEnabledRoleIDs (user : Z) : AuthCmd (list Z)
| IsSuperAdmin (user : Z) : AuthCmd bool.

(** What a command does to Redis and answers.  A scan answers some members; the role
    provider answers what the database holds, which is not modelled here. *)
Definition auth_effect `{JsonText} X (q : AuthCmd X) : Redis → Redis → Result X → Prop :=
  match q in AuthCmd X return Redis → Redis → Result X → Prop with
  | GET key => λ s s' r, s' = s ∧ r = match redis_get s key with Ok o => Ok (default "" o) | Fail e => Fail e end
  | SETEX key value seconds => λ s s' r, (s', r) = redis_setex s key value seconds
  | DEL keys => λ s s' r, s' = redis_del s keys ∧ r = Ok tt
  | SADD key member => λ s s' r, (s', r) = redis_sadd s key member
  | SREM key member => λ s s' r, (s', r) = redis_srem s key member
  | EXPIRE key seconds => λ s s' r, s' = redis_expire s key seconds ∧ r = Ok tt
  | SSCAN key cursor => λ s s' r, s' = s ∧
      match redis_smembers s key with Ok m => ∃ ids next, r = Ok (ids, next) ∧ ∀ i, i ∈ ids → i ∈ m | Fail e => r = Fail e end
  | EVAL_ROTATE key current next expires seconds encrypted => λ s s' r,
      (s', r) = rotateRefreshTokenScript s key current next expires seconds encrypted
  | ListEnabledRoleIDs _ => λ s s' _, s' = s
  | IsSuperAdmin _ => λ s s' _, s' = s
  end.

(** ** The session store *)

Record RedisSessionStore := { rs_sessionPrefix : string; rs_userSessionsPrefix : string }.

Definition TrimSuffix_colon (s : string) : string :=
  match reverse (bytes s) with 58 :: l => of_bytes (reverse l) | _ => s end.
Definition normalizeKeyPrefix (prefix : string) : string := TrimSuffix_colon (TrimSpace prefix).

Definition NewRedisSessionStore (sessionPrefix userSessionsPrefix : string) : Result RedisSessionStore :=
  if bool_decide (normalizeKeyPrefix sessionPrefix = "") then Fail [Text "session key prefix is empty"]
  else if bool_decide (normalizeKeyPrefix userSessionsPrefix = "") then Fail [Text "user sessions key prefix is empty"]
  else Ok {| rs_sessionPrefix := normalizeKeyPrefix sessionPrefix; rs_userSessionsPrefix := normalizeKeyPrefix userSessionsPrefix |}.

Definition maxRedisDeleteBatch : nat := 100.

(** The batches of one page of session IDs. *)
Fixpoint batches (fuel : nat) (ids : list string) : list (list string) :=
  match fuel, ids with
  | S fuel, _ :: _ => firstn maxRedisDeleteBatch ids :: batches fuel (skipn maxRedisDeleteBatch ids)
  | _, _ => []
  end.

Section store.
Context `{JsonText, TimeText, TimeParse} (st : RedisSessionStore).

Definition sessionKey (id : string) : string := rs_sessionPrefix st +:+ ":" +:+ id.
Definition userSessionsKey (user : Z) : string := rs_userSessionsPrefix st +:+ ":" +:+ FormatInt user.

Definition Create (session : Session) (ttl : Duration) : Prog AuthCmd unit :=
  _ ← Ret (validateSession session);
  seconds ← Ret (ttlSeconds ttl);
  let sk := sessionKey (se_ID session) in
  let uk := userSessionsKey (se_UserID session) in
  _ ← ask (SETEX sk (Marshal (session_json session)) seconds);
  r <~ ask (SADD uk (se_ID session));
  match r with
  | Fail e => _ <~ ask (DEL [sk]); raise e
  | Ok _ =>
      r <~ ask (EXPIRE uk seconds);
      match r with
      | Fail e => _ <~ ask (DEL [sk]); _ <~ ask (SREM uk (se_ID session)); raise e
      | Ok _ => mret tt
      end
  end.

Definition Get (id : string) : Prog AuthCmd Session :=
  if bool_decide (TrimSpace id = "") then raise [ErrSessionNotFound]
  else
    value ← ask (GET (sessionKey id));
    if bool_decide (value = "") then raise [ErrSessionNotFound]
    else match session_unmarshal zero_session value with
         | None => raise [Text "decode session"]
         | Some session =>
             _ ← Ret (validateSession session);
             if bool_decide (se_ID session = id) then mret session
             else raise [Text "stored session id does not match its key"]
         end.

Definition RotateRefreshToken (id current next : string) (expiresAt : Time) (ttl : Duration) (encrypted : string)
    : Prog AuthCmd Session :=
  if bool_decide (TrimSpace id = "") || bool_decide (current = "") || bool_decide (next = "") || is_zero expiresAt ||
     bool_decide (encrypted = "")
  then raise [Text "invalid refresh token rotation"]
  else
    seconds ← Ret (ttlSeconds ttl);
    session ← Get id;
    let uk := userSessionsKey (se_UserID session) in
    _ ← ask (SADD uk id);
    _ ← ask (EXPIRE uk seconds);
    result ← ask (EVAL_ROTATE (sessionKey id) current next (RFC3339Nano expiresAt) seconds encrypted);
    let text := match result with LuaString v => if HasPrefix v "{" then Some v else None | LuaInt _ => None end in
    match text with
    | Some value =>
        match session_unmarshal session value with
        | None => raise [Text "decode rotated session"]
        | Some rotated =>
            match validateSession rotated with
            | Ok _ => if bool_decide (se_ID rotated = id) then mret rotated else raise [Text "invalid rotated session"]
            | Fail _ => raise [Text "invalid rotated session"]
            end
        end
    | None =>
        _ <~ ask (SREM uk id);
        raise [if scriptInteger result =? -1 then ErrRefreshTokenMismatch else ErrSessionNotFound]
    end.

Definition Revoke (user : Z) (id : string) : Prog AuthCmd unit :=
  if (user <=? 0) || bool_decide (TrimSpace id = "") then raise [Text "invalid session revocation"]
  else
    r <~ Get id;
    let refused := match r with
      | Ok session => if se_UserID session =? user then None else Some [ErrSessionUserMismatch]
      | Fail e => if errors_is e ErrSessionNotFound then None else Some e
      end in
    match refused with
    | Some e => raise e
    | None => _ ← ask (DEL [sessionKey id]); _ ← ask (SREM (userSessionsKey user) id); mret tt
    end.

(** [deleteSessionBatch], batch by batch. *)
Definition batch_keys (ids : list string) : list string := sessionKey <$> filter (λ id, id ≠ "") ids.
Fixpoint delete_batches (bs : list (list string)) : Prog AuthCmd unit :=
  match bs with
  | [] => mret tt
  | b :: bs => if bool_decide (batch_keys b = []) then delete_batches bs
               else _ ← ask (DEL (batch_keys b)); delete_batches bs
  end.
Definition deleteSessionBatch (ids : list string) : Prog AuthCmd unit := delete_batches (batches (length ids) ids).

(** [turns] bounds the pages of the scan; a scan with more pages is still running. *)
Fixpoint revoke_scan (turns : nat) (user : Z) (cursor : Z) : Prog AuthCmd unit :=
  match turns with
  | O => Spin
  | S turns =>
      page ← ask (SSCAN (userSessionsKey user) cursor);
      _ ← deleteSessionBatch page.1;
      if page.2 =? 0 then mret tt else revoke_scan turns user page.2
  end.
Definition RevokeAll (turns : nat) (user : Z) : Prog AuthCmd unit :=
  if user <=? 0 then raise [Text "invalid user session revocation"]
  else _ ← revoke_scan turns user 0; _ ← ask (DEL [userSessionsKey user]); mret tt.
End store.

(** ** Credentials *)

Definition ErrInvalidRefreshToken : Cause := Sentinel "invalid refresh token".

Record TokenConfig := { tc_AccessSecret : string; tc_AccessExpire : Duration; tc_RefreshExpire : Duration; tc_Issuer : string }.
Record Credentials := { cr_AccessToken : string; cr_RefreshToken : string; cr_ExpiresIn : Z }.

Definition NewTokenIssuer (config : TokenConfig) : Result TokenConfig :=
  if Z.of_nat (String.length (tc_AccessSecret config)) <? 32 then Fail [Text "access token secret must contain at least 32 bytes"]
  else if tc_AccessExpire config <=? 0 then Fail [Text "access token expiry must be positive"]
  else if tc_RefreshExpire config <=? tc_AccessExpire config then Fail [Text "refresh token expiry must be greater than access token expiry"]
  else if bool_decide (tc_Issuer config = "") then Fail [Text "access token issuer is empty"]
  else Ok config.

(** [jwt.RegisteredClaims] keep whole seconds. *)
Record accessClaims := {
  ac_UserID : Z; ac_SessionID : string; ac_RoleIDs : list Z; ac_IsSuperAdmin : bool;
  ac_ExpiresAt : Time; ac_IssuedAt : Time; ac_NotBefore : Time; ac_Issuer : string; ac_Subject : string; ac_ID : string;
}.
Class JwtLib := SignHS256 : accessClaims → string → Result string.

(** crypto/sha256, crypto/hmac and AES-GCM with its 12-byte nonce and 16-byte tag. *)
Class CryptoLib := {
  sha256 : list Z → list Z;
  hmac_sha256 : list Z → list Z → list Z;
  gcm_seal : list Z → list Z → list Z → list Z → list Z;
  gcm_open : list Z → list Z → list Z → list Z → option (list Z);
}.

Definition hex_digit (v : Z) : Z := if v <? 10 then 48 + v else 87 + v.
Definition hex_encode (l : list Z) : string := of_bytes (mjoin ((λ b, [hex_digit (b / 16); hex_digit (b mod 16)]) <$> l)).

Definition sessionIDBytes : Z := 16.
Definition refreshSecretBytes : Z := 32.
Definition tokenIDBytes : Z := 16.

(** What a call reads from [i.random], crypto/rand and the clock. *)
Record Draws := {
  dw_session : Result (list Z); dw_secret : Result (list Z); dw_token : Result (list Z); dw_nonce : Result (list Z);
  dw_now : Time; dw_later : Time;
}.

Definition randomString (value : Result (list Z)) : Result string := result_map (λ v, of_bytes (b64_encode v)) value.
Definition validRandomString (value : list Z) (size : Z) : bool :=
  match b64_decode value with Some decoded => Z.of_nat (length decoded) =? size | None => false end.
Definition hashRefreshSecret `{CryptoLib} (secret : string) : string := hex_encode (sha256 (bytes secret)).

Definition parseRefreshToken (value : string) : Result (string * string) :=
  if 256 <? Z.of_nat (String.length value) then Fail [ErrInvalidRefreshToken]
  else match split_on 46 (bytes value) with
       | [id; secret] =>
           if validRandomString id sessionIDBytes && validRandomString secret refreshSecretBytes
           then Ok (of_bytes id, of_bytes secret) else Fail [ErrInvalidRefreshToken]
       | _ => Fail [ErrInvalidRefreshToken]
       end.

(** Duplicates dropped, first occurrences kept; an ID that is not positive is refused. *)
Fixpoint unique_roles (seen : gset Z) (ids : list Z) : Result (list Z) :=
  match ids with
  | [] => Ok []
  | id :: ids =>
      if id <=? 0 then Fail [Text "role provider returned invalid role id"]
      else if bool_decide (id ∈ seen) then unique_roles seen ids
      else result_map (cons id) (unique_roles ({[id]} ∪ seen) ids)
  end.

Definition Truncate (t : Time) (d : Duration) : Time := t - t mod d.

Section issuer.
Context `{JsonText, TimeText, TimeParse, JwtLib, CryptoLib} (st : RedisSessionStore) (config : TokenConfig).

Definition refresh_result_json (access refresh : string) (expiresAt : Time) : json :=
  JObject [("accessToken", JString access); ("refreshToken", JString refresh); ("expiresAt", JString (RFC3339Nano expiresAt))].

Definition refresh_key : list Z :=
  hmac_sha256 (bytes (tc_AccessSecret config)) (bytes ("dogx:refresh-result:v1:" +:+ tc_Issuer config)).

Definition encryptRefreshResult (d : Draws) (id : string) (c : Credentials) (expiresAt : Time) : Result string :=
  let plain := Marshal (refresh_result_json (cr_AccessToken c) (cr_RefreshToken c) expiresAt) in
  result_map (λ nonce, of_bytes (b64_encode (nonce ++ gcm_seal refresh_key nonce (bytes plain) (bytes id)))) (dw_nonce d).

Definition decryptRefreshResult (d : Draws) (id encoded : string) : Result Credentials :=
  match b64_decode (bytes encoded) with
  | None => Fail [Text "invalid encrypted refresh result"]
  | Some sealed =>
      if Z.of_nat (length sealed) <? 12 + 16 then Fail [Text "invalid encrypted refresh result"]
      else match gcm_open refresh_key (firstn 12 sealed) (skipn 12 sealed) (bytes id) with
           | None => Fail [Text "authenticate refresh result failed"]
           | Some plain =>
               match j ← Unmarshal (of_bytes plain); l ← members j;
                     access ← decode_with as_string "" (jget "accessToken" l);
                     refresh ← decode_with as_string "" (jget "refreshToken" l);
                     expires ← decode_with as_time 0 (jget "expiresAt" l); Some (access, refresh, expires) with
               | None => Fail [Text "decode refresh result failed"]
               | Some (access, refresh, expires) =>
                   let expiresIn := Z.quot (expires - dw_later d) Second in
                   if bool_decide (access = "") || bool_decide (refresh = "") || (expiresIn <=? 0)
                   then Fail [Text "refresh result is invalid or expired"]
                   else Ok {| cr_AccessToken := access; cr_RefreshToken := refresh; cr_ExpiresIn := expiresIn |}
               end
           end
  end.

Definition signAccessToken (d : Draws) (user : Z) (id : string) (roles : list Z) (super : bool) : Result string :=
  result_bind (randomString (dw_token d)) (λ token,
    SignHS256 {| ac_UserID := user; ac_SessionID := id; ac_RoleIDs := roles; ac_IsSuperAdmin := super;
                 ac_ExpiresAt := Truncate (dw_now d + tc_AccessExpire config) Second; ac_IssuedAt := Truncate (dw_now d) Second;
                 ac_NotBefore := Truncate (dw_now d) Second; ac_Issuer := tc_Issuer config; ac_Subject := FormatInt user; ac_ID := token |}
              (tc_AccessSecret config)).

Definition credentials (access id secret : string) : Credentials :=
  {| cr_AccessToken := access; cr_RefreshToken := id +:+ "." +:+ secret; cr_ExpiresIn := Z.quot (tc_AccessExpire config) Second |}.

Definition roleIDs (user : Z) : Prog AuthCmd (list Z) :=
  ids ← ask (ListEnabledRoleIDs user); Ret (unique_roles ∅ ids).

Definition Issue (d : Draws) (user : Z) : Prog AuthCmd Credentials :=
  if user <=? 0 then raise [Text "user id must be positive"]
  else
    roles ← roleIDs user;
    super ← ask (IsSuperAdmin user);
    id ← Ret (randomString (dw_session d));
    secret ← Ret (randomString (dw_secret d));
    access ← Ret (signAccessToken d user id roles super);
    _ ← Create st {| se_ID := id; se_UserID := user; se_RefreshTokenHash := hashRefreshSecret secret; se_CreatedAt := dw_now d;
                     se_ExpiresAt := dw_now d + tc_RefreshExpire config; se_PreviousRefreshTokenHash := ""; se_RefreshReplayUntil := 0;
                     se_EncryptedRefreshResult := "" |} (tc_RefreshExpire config);
    mret (credentials access id secret).

Definition Refresh (d : Draws) (refreshToken : string) : Prog AuthCmd Credentials :=
  match parseRefreshToken refreshToken with
  | Fail _ => raise [ErrInvalidRefreshToken]
  | Ok (id, current) =>
      r <~ Get st id;
      match r with
      | Fail e => raise (if errors_is e ErrSessionNotFound then [ErrInvalidRefreshToken] else e)
      | Ok session =>
          roles ← roleIDs (se_UserID session);
          super ← ask (IsSuperAdmin (se_UserID session));
          next ← Ret (randomString (dw_secret d));
          access ← Ret (signAccessToken d (se_UserID session) id roles super);
          encrypted ← Ret (encryptRefreshResult d id (credentials access id next) (Truncate (dw_now d + tc_AccessExpire config) Second));
          r <~ RotateRefreshToken st id (hashRefreshSecret current) (hashRefreshSecret next) (dw_now d + tc_RefreshExpire config)
                 (tc_RefreshExpire config) encrypted;
          match r with
          | Fail e => raise (if errors_is e ErrSessionNotFound || errors_is e ErrRefreshTokenMismatch then [ErrInvalidRefreshToken] else e)
          | Ok rotated => Ret (decryptRefreshResult d id (se_EncryptedRefreshResult rotated))
          end
      end
  end.
End issuer.
