(* ===== verification/SessionsInv.v ===== *)
(** * What session rotation and revocation guarantee

    Login, refresh and revocation calls of any number of processes, interleaved command by
    command with lost answers and passing time, over one Redis. *)

From S2P Require Import Prelude GoLib GoText Tx Model TaskRepo InstanceRepo JobRepo Trigger RpcErrors JobLogic Redis Sessions.

Open Scope string_scope.
Open Scope list_scope.
Open Scope Z_scope.

(** ** The laws of the parameters *)

(** Documented behaviour of the codecs: what is written is read back; [cjson] prints integers
    of at most 14 digits exactly; objects are printed in braces; AES-GCM opens what it
    sealed, with a 16-byte tag.  encoding/json replaces invalid UTF-8, so [marshal_reads]
    describes it on documents of valid text; the documents of this program are made of
    encoded random bytes, digits, instants and texts that PostgreSQL accepted. *)
Definition cjson_limit : Z := 10 ^ 14.
Record auth_documented `{JsonText, TimeText, TimeParse, CryptoLib} : Prop := {
  marshal_reads : ∀ j, Unmarshal (Marshal j) = Some j;
  cjson_reads : ∀ l, (∀ k z, jget k l = Some (JInt z) → Z.abs z < cjson_limit) → Unmarshal (cjson_encode (JObject l)) = Some (JObject l);
  cjson_brace : ∀ l, HasPrefix (cjson_encode (JObject l)) "{" = true;
  time_reads : ∀ t, ParseTime (RFC3339Nano t) = Some t;
  gcm_opens : ∀ key nonce plain aad, Forall is_byte plain → gcm_open key nonce (gcm_seal key nonce plain aad) aad = Some plain;
  gcm_tag : ∀ key nonce plain aad, length (gcm_seal key nonce plain aad) = (length plain + 16)%nat;
  gcm_bytes : ∀ key nonce plain aad, Forall is_byte plain → Forall is_byte (gcm_seal key nonce plain aad);
}.

(** ** JSON documents *)

Lemma jget_jset k k' v l : jget k (jset k' v l) = if bool_decide (k = k') then Some v else jget k l.
Proof.
  induction l as [|[k0 v0] l IH]; simpl; [done|].
  destruct (decide (k' = k0)) as [<-|Hne]; simpl.
  - rewrite bool_decide_eq_true_2 by done. simpl. by repeat case_bool_decide.
  - rewrite bool_decide_eq_false_2 by done. simpl. rewrite IH. repeat case_bool_decide; simplify_eq; done.
Qed.

Section documents.
Context `{JsonText, TimeText, TimeParse, CryptoLib} (Hdoc : auth_documented).

(** A document with the members of a session, in any order. *)
Definition document (l : list (string * json)) (s : Session) : Prop :=
  ∀ k, jget k l = match session_json s with JObject m => jget k m | _ => None end.
Definition holds (text : string) (s : Session) : Prop := ∃ l, Unmarshal text = Some (JObject l) ∧ document l s.

Lemma jget_app k l m : jget k (l ++ m) = match jget k l with Some v => Some v | None => jget k m end.
Proof. induction l as [|[k0 v] l IH]; simpl; [done|]. by case_bool_decide. Qed.

(** The members of a session document, one by one. *)
Lemma session_members s k : match session_json s with JObject m => jget k m | _ => None end =
  if bool_decide (k = "id") then Some (JString (se_ID s)) else
  if bool_decide (k = "userId") then Some (JInt (se_UserID s)) else
  if bool_decide (k = "refreshTokenHash") then Some (JString (se_RefreshTokenHash s)) else
  if bool_decide (k = "createdAt") then Some (JString (RFC3339Nano (se_CreatedAt s))) else
  if bool_decide (k = "expiresAt") then Some (JString (RFC3339Nano (se_ExpiresAt s))) else
  if bool_decide (k = "previousRefreshTokenHash") then
    (if bool_decide (se_PreviousRefreshTokenHash s = "") then None else Some (JString (se_PreviousRefreshTokenHash s))) else
  if bool_decide (k = "refreshReplayUntil") then (if se_RefreshReplayUntil s =? 0 then None else Some (JInt (se_RefreshReplayUntil s))) else
  if bool_decide (k = "encryptedRefreshResult") then
    (if bool_decide (se_EncryptedRefreshResult s = "") then None else Some (JString (se_EncryptedRefreshResult s))) else None.
Proof.
  unfold session_json, omit_empty. rewrite !jget_app. simpl.
  destruct (bool_decide (se_PreviousRefreshTokenHash s = "")), (se_RefreshReplayUntil s =? 0), (bool_decide (se_EncryptedRefreshResult s = ""));
    simpl; repeat case_bool_decide; simplify_eq; done.
Qed.

(** A session whose numbers are machine integers is read back, over any session when no
    member is omitted. *)
Definition complete (s : Session) : Prop :=
  se_PreviousRefreshTokenHash s ≠ "" ∧ se_RefreshReplayUntil s ≠ 0 ∧ se_EncryptedRefreshResult s ≠ "".
Definition in_range (s : Session) : Prop := 0 < se_UserID s < cjson_limit ∧ 0 ≤ se_RefreshReplayUntil s < cjson_limit.

Lemma in_range_int64 z : 0 ≤ z < cjson_limit → in_int64 z = true.
Proof. unfold cjson_limit, in_int64, MaxInt64. intros. apply andb_true_iff. rewrite !Z.leb_le. lia. Qed.

Lemma holds_decode cur text s : holds text s → in_range s → cur = zero_session ∨ complete s → session_unmarshal cur text = Some s.
Proof.
  intros (l & Hu & Hd) [Hr1 Hr2] Hc. unfold session_unmarshal. rewrite Hu. unfold session_decode. simpl.
  rewrite !Hd, !session_members. simpl. unfold as_int. rewrite in_range_int64 by lia. simpl. rewrite !(time_reads Hdoc). simpl.
  destruct s as [id user hash created expires previous until encrypted]; simpl in *.
  destruct Hc as [->|(Hp & Hu' & He)]; simpl in *.
  - destruct (decide (previous = "")), (decide (encrypted = "")), (Z.eqb_spec until 0); simplify_eq/=;
      repeat (first [rewrite bool_decide_eq_true_2 by done|rewrite bool_decide_eq_false_2 by done]; simpl);
      rewrite ?in_range_int64 by lia; done.
  - rewrite !bool_decide_eq_false_2 by done. rewrite (proj2 (Z.eqb_neq _ _)) by done. simpl. by rewrite in_range_int64 by lia.
Qed.

Lemma holds_marshal s : holds (Marshal (session_json s)) s.
Proof. eexists. split; [apply (marshal_reads Hdoc)|]. by intros k. Qed.

(** ** The rotation script on sessions *)

Lemma time_ms r : (rd_time r).1 * 1000 + (rd_time r).2 `div` 1000 = rd_ms r.
Proof. unfold rd_time, rd_ms. simpl. Z.div_mod_to_equations. lia. Qed.

(** Whether a presented hash gets the stored result again. *)
Definition replays (s : Session) (now : Z) (current : string) : bool :=
  (now <? se_RefreshReplayUntil s) && negb (bool_decide (se_EncryptedRefreshResult s = "")) &&
  (bool_decide (se_RefreshTokenHash s = current) || bool_decide (se_PreviousRefreshTokenHash s = current)).
Definition rotated (s : Session) (now : Z) (current next : string) (expires : Time) (encrypted : string) : Session :=
  { s with se_RefreshTokenHash := next; se_ExpiresAt := expires; se_PreviousRefreshTokenHash := current;
           se_RefreshReplayUntil := now + 5000; se_EncryptedRefreshResult := encrypted }.

Lemma document_rotated l s now current next expires encrypted :
  document l s → current ≠ "" → encrypted ≠ "" → 0 ≤ now →
  document (jset "encryptedRefreshResult" (JString encrypted) (jset "refreshReplayUntil" (JInt (now + 5000))
    (jset "expiresAt" (JString (RFC3339Nano expires)) (jset "refreshTokenHash" (JString next)
      (jset "previousRefreshTokenHash" (JString current) l))))) (rotated s now current next expires encrypted).
Proof.
  intros Hd Hc He Hn k. rewrite session_members, !jget_jset. rewrite Hd, session_members. simpl.
  rewrite (bool_decide_eq_false_2 (current = "")), (bool_decide_eq_false_2 (encrypted = "")), (proj2 (Z.eqb_neq (now + 5000) 0)) by (done || lia).
  repeat case_bool_decide; simplify_eq; done.
Qed.

Lemma script_spec r key text s current next expires seconds encrypted :
  redis_get r key = Ok (Some text) → holds text s → in_range s → current ≠ "" → encrypted ≠ "" →
  0 < seconds → 0 ≤ rd_ms r → rd_ms r + 5000 < cjson_limit →
  ∃ r' reply, rotateRefreshTokenScript r key current next (RFC3339Nano expires) seconds encrypted = (r', Ok reply) ∧
    if replays s (rd_ms r) current then r' = r ∧ reply = LuaString text
    else if bool_decide (se_RefreshTokenHash s = current) then ∃ text', reply = LuaString text' ∧ HasPrefix text' "{" = true ∧
      holds text' (rotated s (rd_ms r) current next expires encrypted) ∧ r' = put r key (RString text') (Some (deadline r seconds))
    else r' = redis_del r [key] ∧ reply = LuaInt (-1).
Proof.
  intros Hg (l & Hu & Hd) [Hr1 Hr2] Hc He Hs Hn Hl. unfold rotateRefreshTokenScript. rewrite Hg, Hu, time_ms.
  rewrite !Hd, !session_members. simpl.
  assert (lua_within (rd_ms r) (if se_RefreshReplayUntil s =? 0 then None else Some (JInt (se_RefreshReplayUntil s))) =
          Some (rd_ms r <? se_RefreshReplayUntil s)) as ->.
  { destruct (Z.eqb_spec (se_RefreshReplayUntil s) 0) as [->|]; simpl; [|done]. f_equal. symmetry. apply Z.ltb_ge. lia. }
  assert (lua_true (if bool_decide (se_EncryptedRefreshResult s = "") then None else Some (JString (se_EncryptedRefreshResult s))) =
          negb (bool_decide (se_EncryptedRefreshResult s = ""))) as -> by (by case_bool_decide).
  assert (lua_is (if bool_decide (se_PreviousRefreshTokenHash s = "") then None else Some (JString (se_PreviousRefreshTokenHash s))) current =
          bool_decide (se_PreviousRefreshTokenHash s = current)) as ->.
  { case_bool_decide as E; simpl; [|done]. symmetry. apply bool_decide_eq_false_2. congruence. }
  fold (replays s (rd_ms r) current). destruct (replays s (rd_ms r) current); [by eexists _, _|].
  case_bool_decide as Ec; simpl; [|by eexists _, _].
  unfold redis_setex. rewrite (proj2 (Z.leb_gt _ _)) by done. eexists _, _. split; [done|].
  eexists. split_and!; [done|apply (cjson_brace Hdoc)| |done].
  pose proof (document_rotated l s (rd_ms r) current next expires encrypted Hd Hc He Hn) as Hd'.
  eexists. split; [|exact Hd']. apply (cjson_reads Hdoc). intros k z. rewrite Hd', session_members. simpl.
  intros Hk. repeat case_bool_decide; try done; [injection Hk as <-; lia|].
  destruct (rd_ms r + 5000 =? 0); [done|]. injection Hk as <-. lia.
Qed.
End documents.

(** ** Calls in a shared store *)

Inductive Request := RqIssue (user : Z) | RqRefresh (token : string) | RqRevoke (user : Z) (id : string) | RqRevokeAll (turns : nat) (user : Z).

(** What happened to a session: it was created, a presented hash was answered with a stored
    session, a presented hash was refused, or the session was not there. *)
Inductive Deed := Created (s : Session) | Answered (current : string) (s : Session) | Refused (current : string) | Absent.
Record Entry := { en_call : nat; en_ms : Z; en_key : string; en_deed : Deed }.

(** A property of the first script evaluation of a program: its answer and the result. *)
Fixpoint ends {Q A} (J : Result A → Prop) (p : Prog Q A) : Prop :=
  match p with Ret a => J a | Spin => True | Do _ k => ∀ x, ends J (k x) end.

Lemma ends_bind {Q A B} (J : Result B → Prop) (p : Prog Q A) (f : Result A → Prog Q B) :
  ends (λ a, ends J (f a)) p → ends J (prog_bind p f).
Proof. induction p as [a| |X q k IH]; simpl; [done..|]. intros Hk x. by apply IH. Qed.

Lemma ends_weaken {Q A} (J J' : Result A → Prop) (p : Prog Q A) : (∀ a, J a → J' a) → ends J p → ends J' p.
Proof. intros HJ. induction p as [a| |X q k IH]; simpl; [by auto..|]. intros Hk x. by apply IH. Qed.

Section world.
Context `{JsonText, TimeText, TimeParse, JwtLib, CryptoLib} (st : RedisSessionStore) (config : TokenConfig) (draws : nat → Draws).

Definition program (k : nat) (rq : Request) : Prog AuthCmd (option Credentials) :=
  match rq with
  | RqIssue user => r <~ Issue st config (draws k) user; Ret (result_map Some r)
  | RqRefresh token => r <~ Refresh st config (draws k) token; Ret (result_map Some r)
  | RqRevoke user id => r <~ Revoke st user id; Ret (result_map (λ _, None) r)
  | RqRevokeAll turns user => r <~ RevokeAll st turns user; Ret (result_map (λ _, None) r)
  end.

Definition deeds X (q : AuthCmd X) : Result X → list (string * Deed) :=
  match q in AuthCmd X return Result X → list (string * Deed) with
  | SETEX key value _ => λ r,
      match r, session_unmarshal zero_session value with Ok _, Some s => [(key, Created s)] | _, _ => [] end
  | EVAL_ROTATE key current _ _ _ _ => λ r,
      match r with
      | Ok (LuaString v) => match session_unmarshal zero_session v with Some s => [(key, Answered current s)] | None => [] end
      | Ok (LuaInt z) => if z =? 0 then [(key, Absent)] else [(key, Refused current)]
      | Fail _ => []
      end
  | _ => λ _, []
  end.

(** Call [k] reads its random bytes and clock from [draws k]; [aw_log] records the fate of
    every session, in the order Redis executed the commands. *)
Record AuthWorld := { aw_redis : Redis; aw_calls : gmap nat (Request * Prog AuthCmd (option Credentials)); aw_log : list Entry }.

Definition entries (k : nat) (r : Redis) (ds : list (string * Deed)) : list Entry :=
  (λ d : string * Deed, {| en_call := k; en_ms := rd_ms r; en_key := d.1; en_deed := d.2 |}) <$> ds.

Inductive auth_step : AuthWorld → AuthWorld → Prop :=
| step_tick w us : 0 ≤ us → auth_step w { w with aw_redis := { aw_redis w with rd_us := rd_us (aw_redis w) + us } }
| step_start w k rq : aw_calls w !! k = None → auth_step w { w with aw_calls := <[k := (rq, program k rq)]> (aw_calls w) }
| step_done w k rq X (q : AuthCmd X) c s' r : aw_calls w !! k = Some (rq, Do q c) → auth_effect X q (aw_redis w) s' r →
    auth_step w {| aw_redis := s'; aw_calls := <[k := (rq, c r)]> (aw_calls w);
                   aw_log := aw_log w ++ entries k (aw_redis w) (deeds X q r) |}
| step_answer_lost w k rq X (q : AuthCmd X) c s' r : aw_calls w !! k = Some (rq, Do q c) → auth_effect X q (aw_redis w) s' r →
    auth_step w {| aw_redis := s'; aw_calls := <[k := (rq, c lost)]> (aw_calls w);
                   aw_log := aw_log w ++ entries k (aw_redis w) (deeds X q r) |}
| step_command_lost w k rq X (q : AuthCmd X) c : aw_calls w !! k = Some (rq, Do q c) →
    auth_step w { w with aw_calls := <[k := (rq, c lost)]> (aw_calls w) }.

Definition auth_boot (us : Z) : AuthWorld := {| aw_redis := {| rd_keys := ∅; rd_us := us |}; aw_calls := ∅; aw_log := [] |}.

(** Random bytes never repeat across calls, nor do the hashes of random secrets. *)
Definition secret_hash (k : nat) : option string :=
  match dw_secret (draws k) with Ok b => Some (hashRefreshSecret (of_bytes (b64_encode b))) | Fail _ => None end.
Definition session_id (k : nat) : option string :=
  match dw_session (draws k) with Ok b => Some (of_bytes (b64_encode b)) | Fail _ => None end.
Record draws_fresh : Prop := {
  secrets_distinct : ∀ j k h, secret_hash j = Some h → secret_hash k = Some h → j = k;
  sessions_distinct : ∀ j k id, session_id j = Some id → session_id k = Some id → j = k;
  nonces_sized : ∀ k n, dw_nonce (draws k) = Ok n → length n = 12%nat ∧ Forall is_byte n;
}.

(** Users and clock stay within the integers [cjson] prints exactly. *)
Definition within_limits (w : AuthWorld) : Prop :=
  rd_ms (aw_redis w) + 5000 < cjson_limit ∧ ∀ k user p, aw_calls w !! k = Some (RqIssue user, p) → user < cjson_limit.

(** *** What a call may still do *)

(** The ciphertext of the credentials with the refresh token of [id] whose secret hashes to [hash]. *)
Definition seals (id hash encrypted : string) : Prop :=
  ∃ d access secret expires, encryptRefreshResult config d id (credentials config access id secret) expires = Ok encrypted ∧
    (∀ n, dw_nonce d = Ok n → length n = 12%nat ∧ Forall is_byte n) ∧ hashRefreshSecret secret = hash.

Definition first_session (k : nat) (user : Z) (s : Session) : Prop :=
  session_id k = Some (se_ID s) ∧ secret_hash k = Some (se_RefreshTokenHash s) ∧ se_UserID s = user ∧ 0 < user ∧ se_RefreshTokenHash s ≠ "" ∧
  se_PreviousRefreshTokenHash s = "" ∧ se_RefreshReplayUntil s = 0 ∧ se_EncryptedRefreshResult s = "".

Definition may_do (k : nat) (rq : Request) X (q : AuthCmd X) : Prop :=
  match q with
  | SETEX key value _ => ∃ user s, rq = RqIssue user ∧ key = sessionKey st (se_ID s) ∧ value = Marshal (session_json s) ∧ first_session k user s
  | EVAL_ROTATE key current next expires seconds encrypted => ∃ token id secret t, rq = RqRefresh token ∧ parseRefreshToken token = Ok (id, secret) ∧
      key = sessionKey st id ∧ current = hashRefreshSecret secret ∧ current ≠ "" ∧ secret_hash k = Some next ∧ next ≠ "" ∧ expires = RFC3339Nano t ∧
      0 < seconds ∧ encrypted ≠ "" ∧ seals id next encrypted
  | _ => True
  end.

(** A command that can change the fate of a session. *)
Definition deciding X (q : AuthCmd X) : bool := match q with SETEX _ _ _ | EVAL_ROTATE _ _ _ _ _ _ => true | _ => false end.
Definition idle_cmd X (q : AuthCmd X) : Prop := deciding X q = false.
Fixpoint decides_once {A} (p : Prog AuthCmd A) : Prop :=
  match p with
  | Ret _ | Spin => True
  | Do q k => if deciding _ q then ∀ x, every idle_cmd (k x) else ∀ x, decides_once (k x)
  end.

(** A successful result comes from the answer of a script evaluation. *)
Definition failed {A} (r : Result A) : Prop := ∀ a, r ≠ Ok a.
Fixpoint answers_after {A} (J : LuaReply → Result A → Prop) (p : Prog AuthCmd A) : Prop :=
  match p with
  | Ret r => failed r
  | Spin => True
  | Do q k =>
      match q in AuthCmd X return (Result X → Prog AuthCmd A) → Prop with
      | EVAL_ROTATE _ _ _ _ _ _ => λ k, ∀ x, match x with Ok reply => ends (J reply) (k x) | Fail _ => ends failed (k x) end
      | _ => λ k, ∀ x, answers_after J (k x)
      end k
  end.

Definition rotation_from (reply : LuaReply) (r : Result Session) : Prop :=
  ∀ s, r = Ok s → ∃ v cur, reply = LuaString v ∧ session_unmarshal cur v = Some s.
Definition credentials_from (d : Draws) (id : string) (reply : LuaReply) (r : Result Credentials) : Prop :=
  ∀ c, r = Ok c → ∃ v cur s, reply = LuaString v ∧ session_unmarshal cur v = Some s ∧
    decryptRefreshResult config d id (se_EncryptedRefreshResult s) = Ok c.
Definition result_from (d : Draws) (id : string) (reply : LuaReply) (r : Result (option Credentials)) : Prop :=
  ∀ o, r = Ok o → ∃ c, o = Some c ∧ credentials_from d id reply (Ok c).

(** *** What the operations may do *)

Lemma every_given {Q A B} (P : ∀ X, Q X → Prop) (v : Result A) (f : A → Prog Q B) :
  (∀ a, v = Ok a → every P (f a)) → every P (a ← Ret v; f a).
Proof. intros Hf. destruct v as [a|e]; simpl; [by apply Hf|done]. Qed.

Lemma every_then {Q A B} (P : ∀ X, Q X → Prop) (p : Prog Q A) (f : A → Prog Q B) :
  every P p → (∀ a, every P (f a)) → every P (a ← p; f a).
Proof. intros Hp Hf. apply every_bind; [done|]. intros r. by apply every_ok. Qed.

Lemma every_ask {Q A} (P : ∀ X, Q X → Prop) X (q : Q X) (f : Result X → Prog Q A) :
  P X q → (∀ x, every P (f x)) → every P (x <~ ask q; f x).
Proof. by split. Qed.

Lemma every_Get (P : ∀ X, AuthCmd X → Prop) id : P _ (GET (sessionKey st id)) → every P (Get st id).
Proof.
  intros HP. unfold Get. case_bool_decide; [done|]. apply every_then; [by split|]. intros v. case_bool_decide; [done|].
  case_match; [|done]. apply every_given. intros _ _. by case_bool_decide.
Qed.

Lemma every_roleIDs (P : ∀ X, AuthCmd X → Prop) user : P _ (ListEnabledRoleIDs user) → every P (roleIDs user).
Proof. intros HP. apply every_then; [by split|done]. Qed.

Lemma every_Create (P : ∀ X, AuthCmd X → Prop) session ttl :
  (∀ seconds, validateSession session = Ok tt → P _ (SETEX (sessionKey st (se_ID session)) (Marshal (session_json session)) seconds)) →
  (∀ X q, idle_cmd X q → P X q) → every P (Create st session ttl).
Proof.
  intros HS HP. apply every_given. intros [] Hv. apply every_given. intros seconds _. apply every_then; [by split; auto|]. intros _.
  repeat first [progress simpl | split; [by apply HP|intros ?] | case_match | done].
Qed.

Lemma every_delete_batches (P : ∀ X, AuthCmd X → Prop) bs : (∀ X q, idle_cmd X q → P X q) → every P (delete_batches st bs).
Proof.
  intros HP. induction bs as [|b bs IH]; simpl; [done|]. case_bool_decide; [done|]. apply every_then; [split; [by apply HP|done]|done].
Qed.

Lemma every_RevokeAll (P : ∀ X, AuthCmd X → Prop) turns user : (∀ X q, idle_cmd X q → P X q) → every P (RevokeAll st turns user).
Proof.
  intros HP. unfold RevokeAll. case_match; [done|]. apply every_then; [|intros _; apply every_then; [split; [by apply HP|done]|done]].
  generalize 0 as cursor. induction turns as [|n IH]; intros cursor; simpl; [done|].
  split; [by apply HP|]. intros x. apply every_ok. intros page. apply every_then; [by apply every_delete_batches|]. intros _. by case_match.
Qed.

Lemma every_Revoke (P : ∀ X, AuthCmd X → Prop) user id : (∀ X q, idle_cmd X q → P X q) → every P (Revoke st user id).
Proof.
  intros HP. unfold Revoke. case_match; [done|]. apply every_bind; [by apply every_Get, HP|]. intros r.
  case_match; [done|]. apply every_then; [split; [by apply HP|done]|]. intros _. apply every_then; [split; [by apply HP|done]|done].
Qed.

Lemma every_Rotate (P : ∀ X, AuthCmd X → Prop) id current next expires ttl encrypted :
  (∀ seconds, current ≠ "" → next ≠ "" → encrypted ≠ "" → 0 < seconds →
     P _ (EVAL_ROTATE (sessionKey st id) current next (RFC3339Nano expires) seconds encrypted)) →
  (∀ X q, idle_cmd X q → P X q) → every P (RotateRefreshToken st id current next expires ttl encrypted).
Proof.
  intros HE HP. unfold RotateRefreshToken. destruct (_ || _ || _ || _ || _) eqn:Eg; [done|]. to_prop.
  apply every_given. intros seconds Hs. apply every_then; [by apply every_Get, HP|]. intros session.
  apply every_then; [split; [by apply HP|done]|]. intros _. apply every_then; [split; [by apply HP|done]|]. intros _.
  apply every_then.
  { split; [|done]. apply HE; [done..|]. unfold ttlSeconds in Hs. destruct (Z.leb_spec ttl 0); [done|]. injection Hs as <-. unfold Second.
    Z.div_mod_to_equations. lia. }
  intros result. cbv zeta.
  destruct (match result with LuaString v => if HasPrefix v "{" then Some v else None | LuaInt _ => None end) as [value|].
  - case_match; [|done]. case_match; [|done]. by case_match.
  - split; [by apply HP|done].
Qed.

Lemma program_may_do k rq : draws_fresh → every (may_do k rq) (program k rq).
Proof.
  intros Hf. assert (∀ X q, idle_cmd X q → may_do k rq X q) as HP by (by intros X []).
  destruct rq as [user|token|user id|turns user]; simpl; (apply every_bind; [|done]).
  - unfold Issue. destruct (Z.leb_spec user 0); [done|]. apply every_then; [by apply every_roleIDs, HP|]. intros roles.
    apply every_then; [by split; [apply HP|]|]. intros super. apply every_given. intros id Hid. apply every_given. intros secret Hsec.
    apply every_given. intros access _. apply every_then; [|done]. apply every_Create; [|done]. intros seconds Hv.
    unfold randomString, result_map in *. destruct (dw_session (draws k)) eqn:E1; [|done]. destruct (dw_secret (draws k)) eqn:E2; [|done].
    simplify_eq. eexists user, _. split_and!; [done..|]. unfold first_session, session_id, secret_hash. simpl. rewrite E1, E2. split_and!; try done.
    unfold validateSession in Hv. destruct (_ || _) eqn:Eg in Hv; [done|]. by to_prop.
  - unfold Refresh. destruct (parseRefreshToken token) as [[id secret]|] eqn:Et; [|done].
    apply every_bind; [by apply every_Get, HP|]. intros [session|]; [|done]. apply every_then; [by apply every_roleIDs, HP|]. intros roles.
    apply every_then; [by split; [apply HP|]|]. intros super. apply every_given. intros next Hn. apply every_given. intros access _.
    apply every_given. intros encrypted He. apply every_bind; [|by intros []]. apply every_Rotate; [|done]. intros seconds Hc Hnn Hne Hs.
    exists token, id, secret. eexists. split_and!; try done.
    + unfold randomString, result_map in Hn. unfold secret_hash. destruct (dw_secret (draws k)); [|done]. by simplify_eq.
    + exists (draws k), access, next. eexists. split_and!; [exact He|apply (nonces_sized Hf)|done].
  - by apply every_Revoke.
  - by apply every_RevokeAll.
Qed.

Lemma idle_decides {A} (p : Prog AuthCmd A) : every idle_cmd p → decides_once p.
Proof. induction p as [a| |X q k IH]; simpl; [done..|]. intros [-> Hk] x. by apply IH. Qed.

Lemma decides_bind {A B} (p : Prog AuthCmd A) (f : Result A → Prog AuthCmd B) :
  every idle_cmd p → (∀ r, decides_once (f r)) → decides_once (prog_bind p f).
Proof. intros Hp Hf. induction p as [a| |X q k IH]; simpl in *; [done..|]. destruct Hp as [-> Hk]. intros x. by apply IH. Qed.

Lemma decides_tail {A B} (p : Prog AuthCmd A) (f : Result A → Prog AuthCmd B) :
  decides_once p → (∀ r, every idle_cmd (f r)) → decides_once (prog_bind p f).
Proof.
  intros Hp Hf. induction p as [a| |X q k IH]; simpl in *; [by apply idle_decides|done|].
  destruct (deciding X q); intros x; [by apply every_bind|by apply IH].
Qed.

Lemma decides_given {A B} (v : Result A) (f : A → Prog AuthCmd B) : (∀ a, decides_once (f a)) → decides_once (a ← Ret v; f a).
Proof. intros Hf. destruct v as [a|e]; [exact (Hf a)|done]. Qed.
Lemma decides_then {A B} (p : Prog AuthCmd A) (f : A → Prog AuthCmd B) :
  every idle_cmd p → (∀ a, decides_once (f a)) → decides_once (a ← p; f a).
Proof. intros Hp Hf. apply decides_bind; [done|]. intros [a|e]; [exact (Hf a)|done]. Qed.

Lemma every_idle_Get id : every idle_cmd (Get st id).
Proof. by apply every_Get. Qed.

Lemma decides_Rotate id current next expires ttl encrypted : decides_once (RotateRefreshToken st id current next expires ttl encrypted).
Proof.
  unfold RotateRefreshToken. case_match; [done|]. apply decides_given. intros seconds. apply decides_then; [apply every_idle_Get|]. intros session.
  apply decides_then; [done|]. intros _. apply decides_then; [done|]. intros _. simpl. intros [result|]; simpl; [|done].
  destruct (match result with LuaString v => if HasPrefix v "{" then Some v else None | LuaInt _ => None end); [|done].
  by repeat case_match.
Qed.

Lemma program_decides_once k rq : decides_once (program k rq).
Proof.
  destruct rq as [user|token|user id|turns user]; simpl; (apply decides_tail; [|done]).
  - unfold Issue. case_match; [done|]. apply decides_then; [by apply every_roleIDs|]. intros roles. apply decides_then; [done|]. intros super.
    do 3 (apply decides_given; intros ?). apply decides_tail; [|by intros []]. do 2 (apply decides_given; intros ?).
    intros [|]; repeat first [progress simpl | split; [done|intros ?] | case_match | done].
  - unfold Refresh. destruct (parseRefreshToken token) as [[id secret]|]; [|done]. apply decides_bind; [apply every_idle_Get|].
    intros [session|]; [|done]. apply decides_then; [by apply every_roleIDs|]. intros roles. apply decides_then; [done|]. intros super.
    do 3 (apply decides_given; intros ?). apply decides_tail; [apply decides_Rotate|by intros []].
  - by apply idle_decides, every_Revoke.
  - by apply idle_decides, every_RevokeAll.
Qed.

Lemma answers_bind {A B} J (p : Prog AuthCmd A) (f : Result A → Prog AuthCmd B) :
  every idle_cmd p → (∀ r, answers_after J (f r)) → answers_after J (prog_bind p f).
Proof. intros Hp Hf. induction p as [a| |X q k IH]; simpl in *; [done..|]. destruct Hp as [Hq Hk]. destruct q; try done; intros x; by apply IH. Qed.

Lemma answers_then {A B} J (p : Prog AuthCmd A) (f : A → Prog AuthCmd B) :
  every idle_cmd p → (∀ a, answers_after J (f a)) → answers_after J (a ← p; f a).
Proof. intros Hp Hf. apply answers_bind; [done|]. intros [a|e]; [exact (Hf a)|by intros ?]. Qed.
Lemma answers_given {A B} J (v : Result A) (f : A → Prog AuthCmd B) : (∀ a, answers_after J (f a)) → answers_after J (a ← Ret v; f a).
Proof. intros Hf. destruct v as [a|e]; [exact (Hf a)|by intros ?]. Qed.

Lemma answers_tail {A B} J J' (p : Prog AuthCmd A) (f : Result A → Prog AuthCmd B) :
  answers_after J p → (∀ reply r, J reply r → ends (J' reply) (f r)) → (∀ r, failed r → ends failed (f r)) →
  (∀ r, failed r → answers_after J' (f r)) → answers_after J' (prog_bind p f).
Proof.
  intros Hp Hj Hff Hfa. induction p as [a| |X q k IH]; simpl in *; [by apply Hfa|done|].
  destruct q; try (intros x; by apply IH). intros x. specialize (Hp x). destruct x; apply ends_bind; eapply ends_weaken; eauto.
Qed.

Lemma answers_Rotate id current next expires ttl encrypted :
  answers_after rotation_from (RotateRefreshToken st id current next expires ttl encrypted).
Proof.
  unfold RotateRefreshToken. case_match; [by intros ?|]. apply answers_given. intros seconds. apply answers_then; [apply every_idle_Get|]. intros session.
  apply answers_then; [done|]. intros _. apply answers_then; [done|]. intros _. simpl. intros [result|]; simpl; [|by intros ?].
  destruct result as [v|z]; simpl; [|by intros _ ?].
  destruct (HasPrefix v "{"); [|by intros _ ?]. destruct (session_unmarshal session v) as [s|] eqn:Es; [|by intros ?].
  destruct (validateSession s); [|by intros ?]. destruct (bool_decide (se_ID s = id)); [|by intros ?]. intros s' [= <-]. by eexists _, _.
Qed.

Lemma Refresh_answers k token id secret :
  parseRefreshToken token = Ok (id, secret) → answers_after (result_from (draws k) id) (program k (RqRefresh token)).
Proof.
  intros Et. simpl. unfold Refresh. rewrite Et. apply (answers_tail (credentials_from (draws k) id)).
  - apply answers_bind; [apply every_idle_Get|]. intros [session|]; [|by intros ?]. apply answers_then; [by apply every_roleIDs|]. intros roles.
    apply answers_then; [done|]. intros super. do 3 (apply answers_given; intros ?).
    apply (answers_tail rotation_from); [apply answers_Rotate| | |].
    + intros reply [s|] Hr; simpl; [|by intros ?]. intros c Hc. destruct (Hr s eq_refl) as (v & cur & -> & Hu). by exists v, cur, s.
    + intros [s|] Hf; [by destruct (Hf s)|by intros ?].
    + intros [s|] Hf; [by destruct (Hf s)|by intros ?].
  - intros reply [c|] Hr; simpl; [|by intros ?]. intros o [= <-]. by exists c.
  - intros [c|] Hf; [by destruct (Hf c)|by intros ?].
  - intros [c|] Hf; [by destruct (Hf c)|by intros ?].
Qed.

(** *** The sessions stored under one key *)

(** Newest first: every rotated session names its predecessor, the first one names none. *)
Fixpoint linked (ss : list Session) : Prop :=
  match ss with
  | [] => True
  | s :: rest => linked rest ∧
      match rest with
      | [] => se_PreviousRefreshTokenHash s = "" ∧ se_EncryptedRefreshResult s = ""
      | s0 :: _ => se_PreviousRefreshTokenHash s = se_RefreshTokenHash s0 ∧ complete s
      end
  end.

Lemma linked_next ss s : linked ss → s ∈ ss → se_PreviousRefreshTokenHash s ≠ "" →
  complete s ∧ ∃ i s0, ss !! i = Some s ∧ ss !! S i = Some s0 ∧ se_PreviousRefreshTokenHash s = se_RefreshTokenHash s0.
Proof.
  induction ss as [|s' rest IH]; [by intros _ ?%elem_of_nil|]. intros [Hl Hh] [->|Hin]%elem_of_cons Hp.
  - destruct rest as [|s0 rest]; [by destruct Hh|]. destruct Hh as [He Hc]. split; [done|]. by exists 0%nat, s0.
  - destruct (IH Hl Hin Hp) as (Hc & i & s0 & K1 & K2 & K3). split; [done|]. by exists (S i), s0.
Qed.

Lemma successor_unique ss s1 s2 : linked ss → NoDup (se_RefreshTokenHash <$> ss) → s1 ∈ ss → s2 ∈ ss →
  se_PreviousRefreshTokenHash s1 ≠ "" → se_PreviousRefreshTokenHash s1 = se_PreviousRefreshTokenHash s2 → s1 = s2.
Proof.
  intros Hl Hn K1 K2 Hp E. destruct (linked_next _ _ Hl K1 Hp) as (_ & i & a & Hi & Hai & Ea).
  destruct (linked_next _ _ Hl K2) as (_ & j & b & Hj & Hbj & Eb); [congruence|].
  assert (S i = S j) as [= ->]; [|congruence]. eapply (NoDup_lookup _ _ _ (se_RefreshTokenHash a) Hn); rewrite list_lookup_fmap.
  - by rewrite Hai.
  - rewrite Hbj. simpl. congruence.
Qed.

(** The session last stored under a key. *)
Definition stores (e : Entry) : option Session :=
  match en_deed e with Created s | Answered _ s => Some s | Refused _ | Absent => None end.
Definition newest (log : list Entry) (key : string) : option Session :=
  last (omap (λ e, if bool_decide (en_key e = key) then stores e else None) log).

(** The rotation protocol: what may happen to the session [current] of a key. *)
Definition legal (current : option Session) (e : Entry) : Prop :=
  match en_deed e with
  | Created _ => current = None
  | Answered c s => ∃ s0, current = Some s0 ∧
      if replays s0 (en_ms e) c then s = s0
      else c = se_RefreshTokenHash s0 ∧ ∃ next expires encrypted, s = rotated s0 (en_ms e) c next expires encrypted
  | Refused c => ∃ s0, current = Some s0 ∧ replays s0 (en_ms e) c = false ∧ c ≠ se_RefreshTokenHash s0
  | Absent => True
  end.

Lemma newest_app log e key : newest (log ++ [e]) key =
  if bool_decide (en_key e = key) then match stores e with Some s => Some s | None => newest log key end else newest log key.
Proof.
  unfold newest. rewrite omap_app. simpl. case_bool_decide; [destruct (stores e)|]; rewrite ?app_nil_r; try done. by rewrite last_snoc.
Qed.

Lemma newest_more log es key : (∀ e, e ∈ es → en_key e = key → en_deed e = Absent) → newest (log ++ es) key = newest log key.
Proof.
  induction es as [|e es IH] using rev_ind; intros He; [by rewrite app_nil_r|]. rewrite app_assoc, newest_app, IH.
  - case_bool_decide as Ek; [|done]. unfold stores. rewrite (He e); [done| |done]. apply elem_of_app. right. by left.
  - intros e' Hin. apply He, elem_of_app. by left.
Qed.

Record chain (log : list Entry) (key : string) (ss : list Session) : Prop := {
  ch_linked : linked ss;
  ch_newest : newest log key = head ss;
  ch_nodup : NoDup (se_RefreshTokenHash <$> ss);
  ch_members : ∀ s, s ∈ ss → key = sessionKey st (se_ID s) ∧ in_range s ∧
    (∃ e, e ∈ log ∧ secret_hash (en_call e) = Some (se_RefreshTokenHash s));
  ch_rotations : ∀ s, s ∈ ss → se_PreviousRefreshTokenHash s ≠ "" → seals (se_ID s) (se_RefreshTokenHash s) (se_EncryptedRefreshResult s) ∧
    ∃ e, e ∈ log ∧ en_key e = key ∧ en_deed e = Answered (se_PreviousRefreshTokenHash s) s ∧ se_RefreshReplayUntil s = en_ms e + 5000;
  ch_answers : ∀ e c s, e ∈ log → en_key e = key → en_deed e = Answered c s →
    s ∈ ss ∧ complete s ∧ (c = se_RefreshTokenHash s ∨ c = se_PreviousRefreshTokenHash s) ∧ en_ms e < se_RefreshReplayUntil s;
  ch_refusals : ∀ e c, e ∈ log → en_key e = key → en_deed e = Refused c →
    ∃ s, s ∈ ss ∧ c ≠ se_RefreshTokenHash s ∧ (c = se_PreviousRefreshTokenHash s → se_RefreshReplayUntil s ≤ en_ms e);
  ch_created : ss ≠ [] → ∃ e id, e ∈ log ∧ key = sessionKey st id ∧ session_id (en_call e) = Some id;
}.

Lemma chain_nil key : chain [] key [].
Proof. constructor; simpl; try done; try (by intros * ?%elem_of_nil). constructor. Qed.

Lemma chain_more log es key ss :
  chain log key ss → (∀ e, e ∈ es → en_key e = key → en_deed e = Absent) → chain (log ++ es) key ss.
Proof.
  intros [K1 K0 K2 K3 K4 K5 K6 K7] He. constructor; try done.
  - by rewrite newest_more.
  - intros s Hs. destruct (K3 s Hs) as (? & ? & e & ? & ?). split_and!; [done..|]. exists e. rewrite elem_of_app. eauto.
  - intros s Hs Hp. destruct (K4 s Hs Hp) as (? & e & ? & ?). split; [done|]. exists e. rewrite elem_of_app. eauto.
  - intros e c s [Hin|Hin]%elem_of_app Hk Hd; [by eapply K5|]. by rewrite (He e Hin Hk) in Hd.
  - intros e c [Hin|Hin]%elem_of_app Hk Hd; [by eapply K6|]. by rewrite (He e Hin Hk) in Hd.
  - intros Hne. destruct (K7 Hne) as (e & s & ? & ?). exists e, s. rewrite elem_of_app. eauto.
Qed.

Lemma chain_create log key k ms s :
  chain log key [] → key = sessionKey st (se_ID s) → in_range s → se_PreviousRefreshTokenHash s = "" → se_EncryptedRefreshResult s = "" →
  secret_hash k = Some (se_RefreshTokenHash s) → session_id k = Some (se_ID s) →
  chain (log ++ [{| en_call := k; en_ms := ms; en_key := key; en_deed := Created s |}]) key [s].
Proof.
  intros [K1 K0 K2 K3 K4 K5 K6 K7] Hk Hr Hp Hen Hh Hi. constructor; simpl; try done.
  - rewrite newest_app. simpl. by rewrite bool_decide_eq_true_2.
  - apply NoDup_singleton.
  - intros s' ->%list_elem_of_singleton. split_and!; [done..|]. eexists. rewrite elem_of_app, list_elem_of_singleton. split; [by right|done].
  - by intros s' ->%list_elem_of_singleton.
  - intros e c s' [Hin| ->%list_elem_of_singleton]%elem_of_app He Hd; [|done]. by destruct (K5 e c s' Hin He Hd) as [?%elem_of_nil _].
  - intros e c [Hin| ->%list_elem_of_singleton]%elem_of_app He Hd; [|done]. by destruct (K6 e c Hin He Hd) as (? & ?%elem_of_nil & _).
  - intros _. eexists _, (se_ID s). rewrite elem_of_app, list_elem_of_singleton. split; [by right|done].
Qed.

Lemma chain_replay log key k ms ss c s :
  chain log key (s :: ss) → complete s → (c = se_RefreshTokenHash s ∨ c = se_PreviousRefreshTokenHash s) → ms < se_RefreshReplayUntil s →
  chain (log ++ [{| en_call := k; en_ms := ms; en_key := key; en_deed := Answered c s |}]) key (s :: ss).
Proof.
  intros [K1 K0 K2 K3 K4 K5 K6 K7] Hc Hh Hm. constructor; try done.
  - rewrite newest_app. simpl. by rewrite bool_decide_eq_true_2.
  - intros s' Hs. destruct (K3 s' Hs) as (? & ? & e & ? & ?). split_and!; [done..|]. exists e. rewrite elem_of_app. eauto.
  - intros s' Hs Hp. destruct (K4 s' Hs Hp) as (? & e & ? & ?). split; [done|]. exists e. rewrite elem_of_app. eauto.
  - intros e c' s' [Hin| ->%list_elem_of_singleton]%elem_of_app Hk Hd; [by eapply K5|]. injection Hd as <- <-. split_and!; [by left|done..].
  - intros e c' [Hin| ->%list_elem_of_singleton]%elem_of_app Hk Hd; [by eapply K6|done].
  - intros Hne. destruct (K7 Hne) as (e & s' & ? & ?). exists e, s'. rewrite elem_of_app. eauto.
Qed.

Lemma chain_refuse log key k ms ss c s :
  chain log key (s :: ss) → c ≠ se_RefreshTokenHash s → (c = se_PreviousRefreshTokenHash s → se_RefreshReplayUntil s ≤ ms) →
  chain (log ++ [{| en_call := k; en_ms := ms; en_key := key; en_deed := Refused c |}]) key (s :: ss).
Proof.
  intros [K1 K0 K2 K3 K4 K5 K6 K7] Hc Hh. constructor; try done.
  - rewrite newest_app. simpl. by rewrite bool_decide_eq_true_2.
  - intros s' Hs. destruct (K3 s' Hs) as (? & ? & e & ? & ?). split_and!; [done..|]. exists e. rewrite elem_of_app. eauto.
  - intros s' Hs Hp. destruct (K4 s' Hs Hp) as (? & e & ? & ?). split; [done|]. exists e. rewrite elem_of_app. eauto.
  - intros e c' s' [Hin| ->%list_elem_of_singleton]%elem_of_app Hk Hd; [by eapply K5|done].
  - intros e c' [Hin| ->%list_elem_of_singleton]%elem_of_app Hk Hd; [by eapply K6|]. injection Hd as <-. exists s. split_and!; [by left|done..].
  - intros Hne. destruct (K7 Hne) as (e & s' & ? & ?). exists e, s'. rewrite elem_of_app. eauto.
Qed.

Lemma chain_rotate log key k ms ss s next expires encrypted :
  chain log key (s :: ss) → se_RefreshTokenHash s ≠ "" → encrypted ≠ "" → 0 ≤ ms → ms + 5000 < cjson_limit →
  secret_hash k = Some next → next ∉ se_RefreshTokenHash <$> s :: ss → seals (se_ID s) next encrypted →
  let s' := rotated s ms (se_RefreshTokenHash s) next expires encrypted in
  chain (log ++ [{| en_call := k; en_ms := ms; en_key := key; en_deed := Answered (se_RefreshTokenHash s) s' |}]) key (s' :: s :: ss).
Proof.
  intros [K1 K0 K2 K3 K4 K5 K6 K7] Hh He Hm Hl Hk Hn Hs s'.
  assert (complete s') as Hc by (unfold complete; simpl; split_and!; [done|lia|done]).
  constructor.
  - by split.
  - rewrite newest_app. simpl. by rewrite bool_decide_eq_true_2.
  - rewrite fmap_cons. by constructor.
  - intros x [->|Hx]%elem_of_cons.
    + destruct (K3 s) as (? & [? ?] & _); [by left|]. split_and!; [done|split; simpl; [done|lia]|].
      eexists. rewrite elem_of_app, list_elem_of_singleton. split; [by right|done].
    + destruct (K3 x Hx) as (? & ? & e & ? & ?). split_and!; [done..|]. exists e. rewrite elem_of_app. eauto.
  - intros x [->|Hx]%elem_of_cons Hp.
    + split; [done|]. eexists. rewrite elem_of_app, list_elem_of_singleton. split; [by right|done].
    + destruct (K4 x Hx Hp) as (? & e & ? & ?). split; [done|]. exists e. rewrite elem_of_app. eauto.
  - intros e c x [Hin| ->%list_elem_of_singleton]%elem_of_app Hke Hd.
    + destruct (K5 e c x Hin Hke Hd) as (? & ?). split; [by right|done].
    + simpl in Hd. injection Hd as <- <-. split_and!; [by left|done|by right|simpl; lia].
  - intros e c [Hin| ->%list_elem_of_singleton]%elem_of_app Hke Hd; [|done]. destruct (K6 e c Hin Hke Hd) as (x & ? & ?). exists x. split; [by right|done].
  - intros _. destruct K7 as (e & x & ? & ?); [done|]. exists e, x. rewrite elem_of_app. eauto.
Qed.

(** *** The invariant *)

Definition refused (log : list Entry) (key : string) : Prop := ∃ e c, e ∈ log ∧ en_key e = key ∧ en_deed e = Refused c.

(** A refused session never answers again. *)
Definition refusals_final (log : list Entry) : Prop :=
  ∀ l1 e1 l2 e2 l3 c1 c2 s, log = l1 ++ e1 :: l2 ++ e2 :: l3 → en_key e1 = en_key e2 → en_deed e1 = Refused c1 → en_deed e2 ≠ Answered c2 s.

(** The keyspace and the log: what is stored under a key is the newest session of its chain. *)
Record store_inv (r : Redis) (log : list Entry) : Prop := {
  si_clock : 0 ≤ rd_ms r;
  si_chains : ∀ key, ∃ ss, chain log key ss ∧
    ∀ text d, rd_keys r !! key = Some (RString text, d) → ∃ s rest, ss = s :: rest ∧ holds text s ∧ se_RefreshTokenHash s ≠ "" ∧ ¬ refused log key;
  si_legal : ∀ l1 e l2, log = l1 ++ e :: l2 → legal (newest l1 (en_key e)) e;
  si_final : refusals_final log;
}.

Lemma refusals_final_app log e : refusals_final log → (∀ c s, en_deed e = Answered c s → ¬ refused log (en_key e)) → refusals_final (log ++ [e]).
Proof.
  intros Hf He l1 e1 l2 e2 l3 c1 c2 s Hl Hk Hd Ha. destruct l3 as [|e3 l3 _] using rev_ind.
  - assert (l1 ++ e1 :: l2 ++ [e2] = (l1 ++ e1 :: l2) ++ [e2]) as E by (by rewrite <-!app_assoc).
    rewrite E in Hl. apply app_inj_tail in Hl as [-> ->].
    apply (He c2 s Ha). exists e1, c1. rewrite elem_of_app. split_and!; [by right; left|done..].
  - assert (l1 ++ e1 :: l2 ++ e2 :: l3 ++ [e3] = (l1 ++ e1 :: l2 ++ e2 :: l3) ++ [e3]) as E by (by rewrite <-!app_assoc; simpl; rewrite <-!app_assoc).
    rewrite E in Hl. apply app_inj_tail in Hl as [-> _]. by eapply Hf.
Qed.

Lemma redis_get_string r key text : redis_get r key = Ok (Some text) → ∃ d, rd_keys r !! key = Some (RString text, d).
Proof. unfold redis_get, find. destruct (rd_keys r !! key) as [[v d]|]; [|done]. destruct (expired r d); [done|]. destruct v; [|done..]. intros [= ->]. by exists d. Qed.

(** Commands that decide nothing write no string and log nothing. *)
Lemma idle_effect X (q : AuthCmd X) s s' r : idle_cmd X q → auth_effect X q s s' r →
  rd_us s' = rd_us s ∧ deeds X q r = [] ∧
  ∀ key text d, rd_keys s' !! key = Some (RString text, d) → ∃ d', rd_keys s !! key = Some (RString text, d').
Proof.
  assert (∀ keys key v, foldr delete (rd_keys s) keys !! key = Some v → rd_keys s !! key = Some v) as Hdel.
  { intros keys key v. induction keys as [|k keys IH]; simpl; [done|]. rewrite lookup_delete_Some. intros [_ ?]. by apply IH. }
  intros Hi He. destruct q; try done; simpl in He.
  - destruct He as [-> _]. eauto.
  - destruct He as [-> _]. split_and!; [done..|]. simpl. intros key text d Hk. exists d. by eapply Hdel.
  - unfold redis_sadd in He. destruct (find s key) as [[[t|m|m] d]|] eqn:Ef; simplify_eq; split_and!; try done; simpl; eauto;
      intros key' text d'; rewrite lookup_insert_Some; intros [[_ ?]|[_ ?]]; [done|eauto..|done|eauto].
  - unfold redis_srem in He. destruct (find s key) as [[[t|m|m] d]|] eqn:Ef; simplify_eq; split_and!; try done; simpl; eauto.
    + by case_bool_decide.
    + case_bool_decide; simpl; intros key' text d'; [intros Hk; exists d'; by eapply (Hdel [key])|].
      rewrite lookup_insert_Some. intros [[_ ?]|[_ ?]]; [done|eauto].
  - destruct He as [-> _]. unfold redis_expire, find. destruct (rd_keys s !! key) as [[v d]|] eqn:Ek; [|eauto].
    destruct (expired s d); [by eauto|]. destruct (seconds <=? 0); split_and!; try done; simpl; intros key' text d'.
    + intros Hk. exists d'. by eapply (Hdel [key]).
    + rewrite lookup_insert_Some. intros [[<- [= -> _]]|[_ ?]]; eauto.
  - destruct He as [-> _]. eauto.
  - subst. eauto.
  - subst. eauto.
Qed.

Context (Hdoc : auth_documented) (Hfresh : draws_fresh).

Lemma sessionKey_inj id id' : sessionKey st id = sessionKey st id' → id = id'.
Proof. unfold sessionKey. intros E. by apply (inj (String.app (rs_sessionPrefix st))), (inj (String.app ":")) in E. Qed.

Lemma legal_app log e : (∀ l1 e' l2, log = l1 ++ e' :: l2 → legal (newest l1 (en_key e')) e') → legal (newest log (en_key e)) e →
  ∀ l1 e' l2, log ++ [e] = l1 ++ e' :: l2 → legal (newest l1 (en_key e')) e'.
Proof.
  intros Hl He l1 e' l2 E. destruct l2 as [|e2 l2 _] using rev_ind; [by apply app_inj_tail in E as [<- <-]|].
  rewrite (app_assoc l1 (e' :: l2) [e2] : l1 ++ e' :: l2 ++ [e2] = _) in E. apply app_inj_tail in E as [-> _]. by eapply Hl.
Qed.

Lemma store_inv_update r r' log e ss :
  store_inv r log → rd_us r' = rd_us r → (∀ k, k ≠ en_key e → rd_keys r' !! k = rd_keys r !! k) →
  chain (log ++ [e]) (en_key e) ss → legal (newest log (en_key e)) e →
  (∀ c s, en_deed e = Answered c s → ¬ refused log (en_key e)) →
  (∀ text d, rd_keys r' !! en_key e = Some (RString text, d) →
     ∃ s rest, ss = s :: rest ∧ holds text s ∧ se_RefreshTokenHash s ≠ "" ∧ ¬ refused (log ++ [e]) (en_key e)) →
  store_inv r' (log ++ [e]).
Proof.
  intros [Kc Kk Kl Kf] Hms Hr Hch Hle Hnr Ht.
  constructor; [unfold rd_ms in *; by rewrite Hms| |by apply legal_app|by apply refusals_final_app].
  intros k. destruct (decide (k = en_key e)) as [->|Hne]; [by exists ss|]. destruct (Kk k) as (ss' & Hch' & Ht'). exists ss'. split.
  - apply chain_more; [done|]. by intros e' ->%list_elem_of_singleton Ek.
  - intros text d. rewrite Hr by done. intros Hx. destruct (Ht' _ _ Hx) as (s & rest & ? & ? & ? & Hn). exists s, rest. split_and!; [done..|].
    intros (e' & c & [Hin| ->%list_elem_of_singleton]%elem_of_app & Ek & Ed); [apply Hn; by exists e', c|done].
Qed.

Lemma store_idle X (q : AuthCmd X) r log r' x : store_inv r log → idle_cmd X q → auth_effect X q r r' x → store_inv r' log.
Proof.
  intros [Kc Kk Kl Kf] Hi He. destruct (idle_effect _ _ _ _ _ Hi He) as (Hus & _ & Hs).
  constructor; [unfold rd_ms in *; by rewrite Hus| |done|done]. intros key. destruct (Kk key) as (ss & Hch & Ht). exists ss. split; [done|].
  intros text d (d' & Hx)%Hs. by eapply Ht.
Qed.

Lemma store_tick r log us : store_inv r log → 0 ≤ us → store_inv { r with rd_us := rd_us r + us } log.
Proof. intros [Kc Kk Kl Kf] Hu. constructor; [|done..]. unfold rd_ms in *. simpl. Z.div_mod_to_equations. lia. Qed.

Lemma store_setex k rq r log r' x key value seconds :
  store_inv r log → may_do k rq _ (SETEX key value seconds) → (∀ user, rq = RqIssue user → user < cjson_limit) → (∀ e, e ∈ log → en_call e ≠ k) →
  auth_effect _ (SETEX key value seconds) r r' x → store_inv r' (log ++ entries k r (deeds _ (SETEX key value seconds) x)).
Proof.
  intros HI (user & s & -> & -> & -> & Hid & Hh & Hu & Hpos & Hne & Hp & Hun & Hen) Hlim Hk He. simpl in He. unfold redis_setex in He.
  specialize (Hlim user eq_refl). destruct (seconds <=? 0); [injection He as -> ->; simpl; by rewrite app_nil_r|]. injection He as -> ->.
  assert (in_range s) as Hr by (split; [lia|rewrite Hun; unfold cjson_limit; lia]).
  assert (holds (Marshal (session_json s)) s) as Hho by (by apply holds_marshal).
  simpl. rewrite (holds_decode Hdoc zero_session _ s) by auto. simpl.
  destruct (si_chains _ _ HI (sessionKey st (se_ID s))) as (ss & Hch & _).
  assert (ss = []) as ->.
  { destruct ss as [|s' ss]; [done|]. destruct (ch_created _ _ _ Hch) as (e & id & Hin & Ek & Ei); [done|]. apply sessionKey_inj in Ek as <-.
    destruct (Hk e Hin). by eapply (sessions_distinct Hfresh). }
  apply (store_inv_update r _ log _ [s]); try done.
  - intros k' Hk'. simpl. by rewrite lookup_insert_ne.
  - by apply chain_create.
  - exact (ch_newest _ _ _ Hch).
  - simpl. intros text d. rewrite lookup_insert_eq. intros [= <- _]. exists s, []. split_and!; [done..|].
    intros (e & c & [Hin| ->%list_elem_of_singleton]%elem_of_app & Ek & Ed); [|done].
    by destruct (ch_refusals _ _ _ Hch e c Hin Ek Ed) as (? & ?%elem_of_nil & _).
Qed.

Lemma replays_cases s now c : replays s now c = true →
  now < se_RefreshReplayUntil s ∧ (c = se_RefreshTokenHash s ∨ c = se_PreviousRefreshTokenHash s).
Proof. unfold replays. intros Hr. to_prop. split; [done|]. to_cases; subst; auto. Qed.

(** A fresh secret is not the hash of a session stored earlier. *)
Lemma next_fresh k next log key ss :
  chain log key ss → secret_hash k = Some next → (∀ e, e ∈ log → en_call e ≠ k) → next ∉ se_RefreshTokenHash <$> ss.
Proof.
  intros Hch Hn Hk (s & -> & Hs)%list_elem_of_fmap. destruct (ch_members _ _ _ Hch s Hs) as (_ & _ & e & Hin & He).
  destruct (Hk e Hin). by eapply (secrets_distinct Hfresh).
Qed.

Lemma first_complete log key ss s : chain log key (s :: ss) → se_PreviousRefreshTokenHash s ≠ "" → complete s.
Proof. intros Hch Hp. by destruct (linked_next (s :: ss) s (ch_linked _ _ _ Hch)) as [? _]; [left|..]. Qed.

Lemma sealed_complete log key ss s : chain log key (s :: ss) → se_EncryptedRefreshResult s ≠ "" → complete s.
Proof. intros [[_ Hh] _ _ _ _ _ _ _] He. destruct ss as [|s0 ss]; [by destruct Hh|]. by destruct Hh. Qed.

Lemma store_eval k rq r log r' x key current next expires seconds encrypted :
  let q := EVAL_ROTATE key current next expires seconds encrypted in
  store_inv r log → may_do k rq _ q → rd_ms r + 5000 < cjson_limit → (∀ e, e ∈ log → en_call e ≠ k) →
  auth_effect _ q r r' x →
  store_inv r' (log ++ entries k r (deeds _ q x)) ∧
  ∀ v, x = Ok (LuaString v) → ∃ s, holds v s ∧ in_range s ∧ complete s ∧ deeds _ q x = [(key, Answered current s)].
Proof.
  intros q HI (token & id & secret & t & -> & Hparse & -> & -> & Hc & Hn & Hnn & -> & Hs & Hne & Hseal) Hlim Hk He.
  subst q. simpl in He. destruct (redis_get r (sessionKey st id)) as [[text|]|e] eqn:Eg.
  2: { unfold rotateRefreshTokenScript in He. rewrite Eg in He. injection He as -> ->. split; [|done]. simpl.
       destruct (si_chains _ _ HI (sessionKey st id)) as (ss & Hch & Ht).
       apply (store_inv_update r r log _ ss); try done.
       - apply chain_more; [done|]. by intros e ->%list_elem_of_singleton.
       - intros text d Hx. destruct (Ht _ _ Hx) as (s & rest & ? & ? & ? & Hr). exists s, rest. split_and!; [done..|].
         intros (e & c & [Hin| ->%list_elem_of_singleton]%elem_of_app & Ek & Ed); [apply Hr; by exists e, c|done]. }
  2: { unfold rotateRefreshTokenScript in He. rewrite Eg in He. injection He as -> ->. simpl. rewrite app_nil_r. by split. }
  destruct (redis_get_string _ _ _ Eg) as [d Hx]. destruct (si_chains _ _ HI (sessionKey st id)) as (ss & Hch & Ht).
  destruct (Ht _ _ Hx) as (s & rest & -> & Hho & Hh & Hnr). destruct (ch_members _ _ _ Hch s) as (Eid & Hr & _); [by left|].
  apply sessionKey_inj in Eid as ->.
  destruct (script_spec Hdoc r (sessionKey st (se_ID s)) text s (hashRefreshSecret secret) next t seconds encrypted) as (r1 & reply & Hsc & Hcase);
    try done; [apply HI|]. rewrite Hsc in He. injection He as -> ->.
  destruct (replays s (rd_ms r) (hashRefreshSecret secret)) eqn:Er.
  { destruct Hcase as [-> ->]. assert (se_EncryptedRefreshResult s ≠ "") as Hen by (unfold replays in Er; by to_prop).
    pose proof (sealed_complete _ _ _ _ Hch Hen) as Hco. destruct (replays_cases _ _ _ Er) as [Hu Hcs].
    assert (deeds _ (EVAL_ROTATE (sessionKey st (se_ID s)) (hashRefreshSecret secret) next (RFC3339Nano t) seconds encrypted) (Ok (LuaString text)) =
            [(sessionKey st (se_ID s), Answered (hashRefreshSecret secret) s)]) as Ed.
    { simpl. by rewrite (holds_decode Hdoc zero_session _ s) by auto. }
    rewrite Ed. split; [|intros v [= <-]; by exists s].
    apply (store_inv_update r r log _ (s :: rest)); try done.
    - by apply chain_replay.
    - exists s. split; [exact (ch_newest _ _ _ Hch)|]. simpl. by rewrite Er.
    - intros text' d' Hx'. simpl in Hx'. rewrite Hx in Hx'. injection Hx' as <- <-. exists s, rest. split_and!; [done..|].
      intros (e & c & [Hin| ->%list_elem_of_singleton]%elem_of_app & Ek & Ed'); [apply Hnr; by exists e, c|done]. }
  case_bool_decide as Ec.
  - destruct Hcase as (text' & -> & Hbr & Hho' & ->).
    pose proof (next_fresh _ _ _ _ _ Hch Hn Hk) as Hnf.
    assert (0 ≤ rd_ms r) as Hm by apply HI.
    pose proof (chain_rotate log (sessionKey st (se_ID s)) k (rd_ms r) rest s next t encrypted Hch Hh Hne Hm Hlim Hn Hnf Hseal) as Hch'.
    simpl in Hch'. rewrite Ec in Hch'. set (s' := rotated _ _ _ _ _ _) in *.
    destruct (ch_members _ _ _ Hch' s') as (_ & Hr' & _); [by left|].
    assert (complete s') as Hco. { unfold complete. simpl. split_and!; [congruence|lia|done]. }
    assert (deeds _ (EVAL_ROTATE (sessionKey st (se_ID s)) (hashRefreshSecret secret) next (RFC3339Nano t) seconds encrypted) (Ok (LuaString text')) =
            [(sessionKey st (se_ID s), Answered (hashRefreshSecret secret) s')]) as Ed.
    { simpl. by rewrite (holds_decode Hdoc zero_session _ s') by auto. }
    rewrite Ed. split; [|intros v [= <-]; by exists s'].
    eapply (store_inv_update r _ log); try done.
    + intros k' Hk'. simpl. by rewrite lookup_insert_ne.
    + exists s. split; [exact (ch_newest _ _ _ Hch)|]. simpl. rewrite Er. split; [done|]. by eexists _, _, _.
    + simpl. intros text1 d1. rewrite lookup_insert_eq. intros [= <- _]. exists s'. eexists. split_and!; [done..|].
      intros (e & c & [Hin| ->%list_elem_of_singleton]%elem_of_app & Ek & Ed'); [apply Hnr; by exists e, c|done].
  - destruct Hcase as [-> ->]. split; [|done]. simpl.
    apply (store_inv_update r _ log _ (s :: rest)); try done.
    + intros k' Hk'. simpl. by rewrite lookup_delete_ne.
    + apply chain_refuse; [done|congruence|]. intros Ep. assert (complete s) as (_ & _ & Hen) by (eapply first_complete; [done|congruence]).
      unfold replays in Er. rewrite (bool_decide_eq_true_2 (se_PreviousRefreshTokenHash s = _)) in Er by done.
      rewrite (bool_decide_eq_false_2 (se_EncryptedRefreshResult s = "")) in Er by done. rewrite orb_true_r in Er. simpl in Er.
      rewrite !andb_true_r in Er. by to_prop.
    + exists s. split; [exact (ch_newest _ _ _ Hch)|]. simpl. split; [done|congruence].
    + simpl. intros text1 d1. by rewrite lookup_delete_eq.
Qed.

(** Where a refresh call stands: its script evaluation is still to come, it can only fail, or
    its answer is in the log. *)
Definition standing (log : list Entry) (k : nat) (rq : Request) (p : Prog AuthCmd (option Credentials)) : Prop :=
  ∀ token, rq = RqRefresh token →
    match parseRefreshToken token with
    | Fail _ => ends failed p
    | Ok (id, secret) =>
        answers_after (result_from (draws k) id) p ∨ ends failed p ∨
        ∃ e v s, e ∈ log ∧ en_call e = k ∧ en_key e = sessionKey st id ∧ en_deed e = Answered (hashRefreshSecret secret) s ∧
          holds v s ∧ in_range s ∧ complete s ∧ ends (result_from (draws k) id (LuaString v)) p
    end.

Record auth_inv (w : AuthWorld) : Prop := {
  ai_store : store_inv (aw_redis w) (aw_log w);
  ai_calls : ∀ k rq p, aw_calls w !! k = Some (rq, p) → every (may_do k rq) p ∧ decides_once p ∧
    ((∃ e, e ∈ aw_log w ∧ en_call e = k) → every idle_cmd p) ∧ standing (aw_log w) k rq p;
  ai_log : ∀ e, e ∈ aw_log w → is_Some (aw_calls w !! en_call e);
}.

Lemma standing_more log es k rq p : standing log k rq p → standing (log ++ es) k rq p.
Proof.
  intros Hs token E. specialize (Hs token E). destruct (parseRefreshToken token) as [[id secret]|]; [|done].
  destruct Hs as [?|[?|(e & v & s & Hin & Hr)]]; [by left|by right; left|]. right; right. exists e, v, s. rewrite elem_of_app. by split; [left|].
Qed.

Lemma elem_of_entries e k r ds : e ∈ entries k r ds → en_call e = k.
Proof. unfold entries. by intros (d & -> & _)%list_elem_of_fmap. Qed.

(** Replacing the program of a call by a later one and extending the log with its entries. *)
Lemma inv_advance w k rq p p' r' es :
  auth_inv w → aw_calls w !! k = Some (rq, p) → store_inv r' (aw_log w ++ es) → (∀ e, e ∈ es → en_call e = k) →
  every (may_do k rq) p' → decides_once p' → ((∃ e, e ∈ aw_log w ++ es ∧ en_call e = k) → every idle_cmd p') → standing (aw_log w ++ es) k rq p' →
  auth_inv {| aw_redis := r'; aw_calls := <[k := (rq, p')]> (aw_calls w); aw_log := aw_log w ++ es |}.
Proof.
  intros [Ks Kc Kl] Hk Hst Hes Hm Hd Hi Hsd. constructor; simpl; [done| |].
  - intros j rq' p1. rewrite lookup_insert_Some. intros [[<- [= <- <-]]|[Hne Hj]]; [by split_and!|].
    destruct (Kc _ _ _ Hj) as (? & ? & Hidle & ?). split_and!; [done..| |by apply standing_more].
    intros (e & [Hin|Hin]%elem_of_app & Ee); [by apply Hidle; exists e|]. rewrite (Hes e Hin) in Ee. congruence.
  - intros e [Hin|Hin]%elem_of_app.
    + destruct (decide (en_call e = k)) as [->|]; [by rewrite lookup_insert_eq|]. rewrite lookup_insert_ne by done. by apply Kl.
    + rewrite (Hes e Hin). by rewrite lookup_insert_eq.
Qed.

(** The next stage of a standing whose next command decides nothing. *)
Lemma standing_idle log k rq X (q : AuthCmd X) c y : standing log k rq (Do q c) → idle_cmd X q → standing log k rq (c y).
Proof.
  intros Hs Hq token E. specialize (Hs token E). destruct (parseRefreshToken token) as [[id secret]|]; [|by apply Hs].
  destruct Hs as [Ha|[Hf|(e & v & s & Hin & Hc & Hk & Hd & Hh & Hr & Hco & He)]].
  - left. destruct q; try done; by apply Ha.
  - right; left. by apply Hf.
  - right; right. exists e, v, s. by split_and!.
Qed.

Lemma failed_from d id z r : result_from d id (LuaInt z) r → failed r.
Proof. intros Hr o ->. destruct (Hr o eq_refl) as (c & _ & Hc). by destruct (Hc c eq_refl) as (? & ? & ? & ? & _). Qed.

Lemma call_step w k rq X (q : AuthCmd X) c r' x y :
  auth_inv w → within_limits w → aw_calls w !! k = Some (rq, Do q c) → auth_effect X q (aw_redis w) r' x → y = x ∨ y = lost →
  auth_inv {| aw_redis := r'; aw_calls := <[k := (rq, c y)]> (aw_calls w); aw_log := aw_log w ++ entries k (aw_redis w) (deeds X q x) |}.
Proof.
  intros HI [Hlim Husers] Hk He Hy. destruct (ai_calls _ HI _ _ _ Hk) as ([Hq Hm] & Hd & Hidle & Hst).
  destruct (deciding X q) eqn:Ed; simpl in Hd; rewrite Ed in Hd.
  2: { destruct (idle_effect _ _ _ _ _ Ed He) as (_ & Edd & _). rewrite Edd. eapply inv_advance; try done.
       - rewrite app_nil_r. by eapply store_idle; [apply HI|..].
       - by intros e ?%elem_of_entries.
       - intros (e & Hin & Ee). simpl in Hin. rewrite app_nil_r in Hin. by apply Hidle; exists e.
       - rewrite app_nil_r. by eapply standing_idle. }
  assert (∀ e, e ∈ aw_log w → en_call e ≠ k) as Hnone.
  { intros e Hin Ee. destruct Hidle as [Hbad _]; [by exists e|]. unfold idle_cmd in Hbad. congruence. }
  destruct q; try done.
  - eapply inv_advance; try done; [|by intros e ?%elem_of_entries|by apply idle_decides|].
    + eapply store_setex; try done; [apply HI|]. intros user ->. by eapply Husers.
    + destruct Hq as (user & s & -> & _). by intros token.
  - pose proof Hq as (token & id & secret & t & -> & Hparse & Ekey & Ecur & _).
    destruct (store_eval k (RqRefresh token) (aw_redis w) (aw_log w) r' x key current next expires seconds encrypted) as [Hstore Hans];
      try done; [apply HI|].
    eapply inv_advance; try done; [by intros e ?%elem_of_entries|by apply idle_decides|].
    intros token' [= <-]. specialize (Hst token eq_refl). rewrite Hparse in Hst |- *.
    destruct Hst as [Ha|[Hf|(e & v & s & Hin & Hc & _)]]; [|by right; left; apply Hf|by destruct (Hnone e Hin)].
    simpl in Ha. specialize (Ha y). destruct Hy as [->| ->]; [|by right; left].
    destruct x as [[v|z]|]; [|right; left; eapply ends_weaken; [apply failed_from|exact Ha]|by right; left].
    destruct (Hans v eq_refl) as (s & Hho & Hr & Hco & Ed'). right; right.
    exists {| en_call := k; en_ms := rd_ms (aw_redis w); en_key := key; en_deed := Answered current s |}, v, s.
    rewrite Ed'. split_and!; try done; [apply elem_of_app; right; by left|simpl; congruence].
Qed.

Lemma auth_step_inv w w' : auth_inv w → within_limits w → auth_step w w' → auth_inv w'.
Proof.
  intros HI Hl Hs. destruct Hs as [w us Hu|w k rq Hk|w k rq X q c s' r Hk He|w k rq X q c s' r Hk He|w k rq X q c Hk].
  - destruct HI. constructor; simpl; try done. by apply store_tick.
  - destruct HI as [Ks Kc Kl]. constructor; simpl; [done| |].
    + intros j rq' p. rewrite lookup_insert_Some. intros [[<- [= <- <-]]|[_ Hj]]; [|by apply Kc].
      split_and!; [by apply program_may_do|apply program_decides_once| |].
      * intros (e & Hin & <-). apply Kl in Hin. rewrite Hk in Hin. by destruct Hin.
      * intros token ->. destruct (parseRefreshToken token) as [[id secret]|] eqn:Et; [left; by eapply Refresh_answers|].
        simpl. unfold Refresh. rewrite Et. by intros ?.
    + intros e Hin. apply Kl in Hin. destruct (decide (en_call e = k)) as [->|]; [by rewrite lookup_insert_eq|]. by rewrite lookup_insert_ne.
  - by eapply call_step; eauto.
  - by eapply call_step; eauto.
  - destruct (ai_calls _ HI _ _ _ Hk) as ([Hq Hm] & Hd & Hidle & Hst).
    assert (decides_once (c lost) ∧ ((∃ e, e ∈ aw_log w ∧ en_call e = k) → every idle_cmd (c lost))) as [Hd' Hi'].
    { simpl in Hd. destruct (deciding X q); split; auto; [by apply idle_decides|]. intros Hx. by apply Hidle. }
    pose proof (inv_advance w k rq (Do q c) (c lost) (aw_redis w) []) as Ha. rewrite app_nil_r in Ha.
    apply Ha; try done; [apply HI|by intros e ?%elem_of_nil|]. destruct (deciding X q) eqn:Ed; [|by eapply standing_idle].
    intros token E. specialize (Hst token E). destruct (parseRefreshToken token) as [[id secret]|]; [|by apply Hst].
    destruct Hst as [Hx|[Hf|(e & v & s & Hin & Hc & Hkk & Hdd & Hh & Hr & Hco & He)]].
    + destruct q; try done; [by left|right; left; by apply (Hx lost)].
    + right; left. by apply Hf.
    + right; right. exists e, v, s. by split_and!.
Qed.

Lemma limits_back w w' : auth_step w w' → within_limits w' → within_limits w.
Proof.
  assert (∀ X (q : AuthCmd X) r r' x, auth_effect X q r r' x → rd_us r' = rd_us r) as Hus.
  { intros X q r r' x He. destruct (deciding X q) eqn:Ed; [|by apply (idle_effect _ _ _ _ _ Ed He)].
    destruct q; try done; simpl in He.
    - unfold redis_setex in He. by destruct (_ <=? 0); injection He as -> ->.
    - unfold rotateRefreshTokenScript, redis_setex in He. repeat (case_match; simplify_eq; try done). }
  assert (∀ (w : AuthWorld) k rq (p p' : Prog AuthCmd (option Credentials)) j user p1, aw_calls w !! k = Some (rq, p) → aw_calls w !! j = Some (RqIssue user, p1) →
    ∃ p2, <[k := (rq, p')]> (aw_calls w) !! j = Some (RqIssue user, p2)) as Hins.
  { intros w0 k rq p p' j user p1 Hk Hj. destruct (decide (j = k)) as [->|]; [|exists p1; by rewrite lookup_insert_ne].
    rewrite Hk in Hj. injection Hj as -> ->. exists p'. by rewrite lookup_insert_eq. }
  intros Hs [Hl Hu]. destruct Hs as [w us Hus'|w k rq Hk|w k rq X q c s' r Hk He|w k rq X q c s' r Hk He|w k rq X q c Hk]; split; simpl in *.
  - unfold rd_ms in *. simpl in *. Z.div_mod_to_equations. lia.
  - done.
  - done.
  - intros j user p Hj. apply (Hu j user p). rewrite lookup_insert_ne; [done|]. congruence.
  - unfold rd_ms in *. by rewrite <-(Hus _ _ _ _ _ He).
  - intros j user p Hj. destruct (Hins _ _ _ _ (c r) _ _ _ Hk Hj) as [p2 Hp2]. by eapply Hu.
  - unfold rd_ms in *. by rewrite <-(Hus _ _ _ _ _ He).
  - intros j user p Hj. destruct (Hins _ _ _ _ (c lost) _ _ _ Hk Hj) as [p2 Hp2]. by eapply Hu.
  - done.
  - intros j user p Hj. destruct (Hins _ _ _ _ (c lost) _ _ _ Hk Hj) as [p2 Hp2]. by eapply Hu.
Qed.

Lemma auth_inv_reachable us w : 0 ≤ us → rtc auth_step (auth_boot us) w → within_limits w → auth_inv w.
Proof.
  intros Hus Hr. revert w Hr. apply (rtc_ind_r (λ w, within_limits w → auth_inv w)).
  - intros _. constructor; simpl; [|by intros ???; rewrite lookup_empty|by intros e ?%elem_of_nil].
    constructor; [unfold rd_ms; simpl; Z.div_mod_to_equations; lia| | |].
    + intros key. exists []. split; [apply chain_nil|]. intros text d. simpl. by rewrite lookup_empty.
    + intros l1 e l2 Hn. by destruct l1.
    + intros l1 e1 l2 e2 l3 c1 c2 s Hn. by destruct l1.
  - intros w1 w2 _ Hs IH Hl. pose proof (limits_back _ _ Hs Hl) as Hl'. by eapply auth_step_inv; [apply IH| |].
Qed.

(** A sealed result opens to the credentials it was made from. *)
Lemma decrypt_seals d id hash encrypted c :
  seals id hash encrypted → decryptRefreshResult config d id encrypted = Ok c →
  ∃ secret, cr_RefreshToken c = id +:+ "." +:+ secret ∧ hashRefreshSecret secret = hash.
Proof.
  intros (d0 & access & secret & expires & He & Hn & Hh) Hd. unfold encryptRefreshResult, result_map in He.
  destruct (dw_nonce d0) as [nonce|] eqn:En; [|done]. injection He as <-. destruct (Hn nonce eq_refl) as [Hlen Hb].
  set (sealed := gcm_seal _ _ _ _) in *. assert (Forall is_byte (nonce ++ sealed)) as Hbs by (apply Forall_app; split; [done|apply (gcm_bytes Hdoc), bytes_range]).
  unfold decryptRefreshResult in Hd. rewrite bytes_of_bytes in Hd by (by apply b64_bytes). rewrite b64_roundtrip in Hd by done.
  rewrite (proj2 (Z.ltb_ge _ _)) in Hd by (rewrite length_app; subst sealed; rewrite (gcm_tag Hdoc); lia).
  rewrite <-Hlen, take_app_length, drop_app_length in Hd. subst sealed. rewrite (gcm_opens Hdoc), of_bytes_bytes in Hd by apply bytes_range.
  rewrite (marshal_reads Hdoc) in Hd. simpl in Hd. rewrite (time_reads Hdoc) in Hd. simpl in Hd.
  destruct (_ || _ || _); [done|]. injection Hd as <-. by exists secret.
Qed.

(** The answer behind a successful refresh. *)
Lemma refresh_answer w k token c :
  auth_inv w → aw_calls w !! k = Some (RqRefresh token, Ret (Ok (Some c))) →
  ∃ id secret e s, parseRefreshToken token = Ok (id, secret) ∧ e ∈ aw_log w ∧ en_call e = k ∧ en_key e = sessionKey st id ∧
    en_deed e = Answered (hashRefreshSecret secret) s ∧ decryptRefreshResult config (draws k) id (se_EncryptedRefreshResult s) = Ok c.
Proof.
  intros HI Hk. destruct (ai_calls _ HI _ _ _ Hk) as (_ & _ & _ & Hst). specialize (Hst token eq_refl).
  destruct (parseRefreshToken token) as [[id secret]|]; [|by destruct (Hst (Some c))].
  destruct Hst as [Hf|[Hf|(e & v & s & Hin & Hc & Hkk & Hd & Hh & Hr & Hco & He)]]; [by destruct (Hf (Some c))..|].
  destruct (He _ eq_refl) as (c' & [= <-] & Hcf). destruct (Hcf c eq_refl) as (v' & cur & s' & [= <-] & Hu & Hdec).
  rewrite (holds_decode Hdoc cur v s) in Hu by auto. injection Hu as <-. by exists id, secret, e, s.
Qed.

(** A refresh that handed out a token with another secret than the presented one. *)
Definition renews (token : string) (c : Credentials) : Prop :=
  ∀ id secret secret', parseRefreshToken token = Ok (id, secret) → cr_RefreshToken c = id +:+ "." +:+ secret' →
    hashRefreshSecret secret' ≠ hashRefreshSecret secret.

(** C9: Refresh tokens rotate safely, whatever the interleaving of logins, refreshes and
    revocations of all processes, lost answers and passing time.  Credentials are handed out
    only for the current token of a stored session, or for the one before it less than five
    seconds after it was replaced, and carry the session's current token.  A token has one
    successor: all refreshes with it that hand out a new token hand out the same one.  The
    session of a key changes only as the rotation protocol allows: a token is refused only if
    it is neither current nor within its window, and the session that refused it never hands
    out credentials again. *)
Theorem refresh_rotation us w :
  0 ≤ us → rtc auth_step (auth_boot us) w → within_limits w →
  (∀ k token c, aw_calls w !! k = Some (RqRefresh token, Ret (Ok (Some c))) →
     ∃ id secret secret' e s, parseRefreshToken token = Ok (id, secret) ∧ e ∈ aw_log w ∧ en_call e = k ∧ en_key e = sessionKey st id ∧
       en_deed e = Answered (hashRefreshSecret secret) s ∧ cr_RefreshToken c = id +:+ "." +:+ secret' ∧
       se_RefreshTokenHash s = hashRefreshSecret secret' ∧
       (hashRefreshSecret secret = hashRefreshSecret secret' ∨
        ∃ e0, e0 ∈ aw_log w ∧ en_key e0 = en_key e ∧ en_deed e0 = en_deed e ∧ en_ms e < en_ms e0 + 5000)) ∧
  (∀ k1 k2 token c1 c2, aw_calls w !! k1 = Some (RqRefresh token, Ret (Ok (Some c1))) →
     aw_calls w !! k2 = Some (RqRefresh token, Ret (Ok (Some c2))) → renews token c1 → renews token c2 →
     cr_RefreshToken c1 = cr_RefreshToken c2 ∧ cr_AccessToken c1 = cr_AccessToken c2) ∧
  (∀ l1 e l2, aw_log w = l1 ++ e :: l2 → legal (newest l1 (en_key e)) e) ∧
  refusals_final (aw_log w).
Proof.
  intros Hus Hr Hl. pose proof (auth_inv_reachable us w Hus Hr Hl) as HI. split_and!.
  - intros k token c Hk. destruct (refresh_answer w k token c HI Hk) as (id & secret & e & s & Hp & Hin & Hc & Hkey & Hd & Hdec).
    destruct (si_chains _ _ (ai_store _ HI) (en_key e)) as (ss & Hch & _).
    destruct (ch_answers _ _ _ Hch e _ _ Hin eq_refl Hd) as (Hs & (Hpne & _) & Hcur & Hlt).
    destruct (ch_rotations _ _ _ Hch s Hs Hpne) as (Hseal & e0 & Hin0 & Hk0 & Hd0 & Hun).
    destruct (ch_members _ _ _ Hch s Hs) as (Hid & _). rewrite Hkey in Hid. apply sessionKey_inj in Hid as ->.
    destruct (decrypt_seals _ _ _ _ _ Hseal Hdec) as (secret' & Hc' & Hh').
    exists (se_ID s), secret, secret', e, s. split_and!; try done. destruct Hcur as [Hcur|Hcur]; [left; congruence|]. right.
    exists e0. split_and!; [done|done|rewrite Hd0, Hd; congruence|lia].
  - intros k1 k2 token c1 c2 Hk1 Hk2 Hn1 Hn2.
    destruct (refresh_answer w k1 token c1 HI Hk1) as (id & secret & e1 & s1 & Hp & Hin1 & _ & Hkey1 & Hd1 & Hdec1).
    destruct (refresh_answer w k2 token c2 HI Hk2) as (id2 & secret2 & e2 & s2 & Hp2 & Hin2 & _ & Hkey2 & Hd2 & Hdec2).
    rewrite Hp in Hp2. injection Hp2 as <- <-.
    destruct (si_chains _ _ (ai_store _ HI) (sessionKey st id)) as (ss & Hch & _).
    destruct (ch_answers _ _ _ Hch e1 _ _ Hin1 Hkey1 Hd1) as (Hs1 & (Hp1 & _) & Hcur1 & _).
    destruct (ch_answers _ _ _ Hch e2 _ _ Hin2 Hkey2 Hd2) as (Hs2 & (Hpp2 & _) & Hcur2 & _).
    destruct (ch_members _ _ _ Hch s1 Hs1) as (Hid1 & _). destruct (ch_members _ _ _ Hch s2 Hs2) as (Hid2 & _).
    apply sessionKey_inj in Hid1, Hid2.
    destruct (ch_rotations _ _ _ Hch s1 Hs1 Hp1) as (Hseal1 & _). destruct (ch_rotations _ _ _ Hch s2 Hs2 Hpp2) as (Hseal2 & _).
    rewrite <-Hid1 in Hseal1. rewrite <-Hid2 in Hseal2.
    destruct (decrypt_seals _ _ _ _ _ Hseal1 Hdec1) as (x1 & Hx1 & Hh1). destruct (decrypt_seals _ _ _ _ _ Hseal2 Hdec2) as (x2 & Hx2 & Hh2).
    pose proof (Hn1 _ _ _ Hp Hx1). pose proof (Hn2 _ _ _ Hp Hx2).
    assert (s1 = s2) as <-.
    { eapply (successor_unique ss); [apply Hch|apply Hch|done|done|done|]. destruct Hcur1, Hcur2; congruence. }
    clear -Hdec1 Hdec2. unfold decryptRefreshResult in *. repeat (case_match; simplify_eq/=; try done).
  - apply (ai_store _ HI).
  - apply (ai_store _ HI).
Qed.
End world.
