(* ===== verification/SessionsDemo.v ===== *)
(** * Session runs, evaluated

    A sequential scheduler of session calls that takes steps of [auth_step], concrete codecs
    that satisfy the laws of [auth_documented], and runs of logins and refreshes. *)

From Stdlib Require Import Ascii.
From stdpp Require Import countable.
From S2P Require Import Prelude GoLib GoText Tx Model TaskRepo InstanceRepo JobRepo Trigger RpcErrors JobLogic Redis Sessions SessionsInv.

Open Scope string_scope.
Open Scope list_scope.
Open Scope Z_scope.

(** ** A scheduler *)

Section scheduler.
Context `{JsonText, TimeText, TimeParse, JwtLib, CryptoLib} (st : RedisSessionStore) (config : TokenConfig) (draws : nat → Draws).

(** One answer each command may have. *)
Definition answer X (q : AuthCmd X) (s : Redis) : Redis * Result X :=
  match q in AuthCmd X return Redis * Result X with
  | GET key => (s, match redis_get s key with Ok o => Ok (default "" o) | Fail e => Fail e end)
  | SETEX key value seconds => redis_setex s key value seconds
  | DEL keys => (redis_del s keys, Ok tt)
  | SADD key member => redis_sadd s key member
  | SREM key member => redis_srem s key member
  | EXPIRE key seconds => (redis_expire s key seconds, Ok tt)
  | SSCAN key cursor => (s, match redis_smembers s key with Ok m => Ok (elements m, 0) | Fail e => Fail e end)
  | EVAL_ROTATE key current next expires seconds encrypted => rotateRefreshTokenScript s key current next expires seconds encrypted
  | ListEnabledRoleIDs _ => (s, Ok [])
  | IsSuperAdmin _ => (s, Ok false)
  end.

Lemma answer_effect X (q : AuthCmd X) s : auth_effect X q s (answer X q s).1 (answer X q s).2.
Proof.
  destruct q; simpl; try done; try (by destruct (_ : Redis * Result _)).
  all: try (by rewrite <-surjective_pairing).
  split; [done|]. destruct (redis_smembers s key) as [m|e]; [|done]. exists (elements m), 0. split; [done|]. intros i. by rewrite elem_of_elements.
Qed.

Definition turn (w : AuthWorld) (k : nat) : AuthWorld :=
  match aw_calls w !! k with
  | Some (rq, Do q c) =>
      let a := answer _ q (aw_redis w) in
      {| aw_redis := a.1; aw_calls := <[k := (rq, c a.2)]> (aw_calls w); aw_log := aw_log w ++ entries k (aw_redis w) (deeds _ q a.2) |}
  | _ => w
  end.
Definition call (w : AuthWorld) (k : nat) (rq : Request) : AuthWorld :=
  match aw_calls w !! k with
  | None => { w with aw_calls := <[k := (rq, program st config draws k rq)]> (aw_calls w) }
  | Some _ => w
  end.

Abbreviation reach := (rtc (auth_step st config draws)).

Lemma turn_reach w0 w k : reach w0 w → reach w0 (turn w k).
Proof.
  intros Hr. unfold turn. destruct (aw_calls w !! k) as [[rq [a| |X q c]]|] eqn:Ek; try done.
  eapply rtc_r; [exact Hr|]. by apply step_done; [|apply answer_effect].
Qed.
Lemma call_reach w0 w k rq : reach w0 w → reach w0 (call w k rq).
Proof. intros Hr. unfold call. destruct (aw_calls w !! k) eqn:Ek; [done|]. eapply rtc_r; [exact Hr|]. by apply step_start. Qed.

Fixpoint turns (n : nat) (w : AuthWorld) (k : nat) : AuthWorld := match n with O => w | S n => turns n (turn w k) k end.
Lemma turns_reach n w0 w k : reach w0 w → reach w0 (turns n w k).
Proof. revert w. induction n as [|n IH]; intros w Hr; [done|]. apply IH. by apply turn_reach. Qed.

(** Scheduling changes programs, not requests. *)
Definition requests (w : AuthWorld) : gmap nat Request := fst <$> aw_calls w.
Lemma requests_limits w : rd_ms (aw_redis w) + 5000 < cjson_limit →
  map_Forall (λ _ rq, match rq with RqIssue user => user <? cjson_limit | _ => true end = true) (requests w) → within_limits w.
Proof.
  intros Hl Hm. split; [done|]. intros k user p Hk. apply Z.ltb_lt, (Hm k (RqIssue user)). unfold requests. by rewrite lookup_fmap, Hk.
Qed.
End scheduler.

(** ** Concrete codecs *)

Section json_induction.
Context (P : json → Prop) (Hnull : P JNull) (Hbool : ∀ b, P (JBool b)) (Hint : ∀ z, P (JInt z)) (Hnum : ∀ s, P (JNumber s))
  (Hstr : ∀ s, P (JString s)) (Harr : ∀ l, Forall P l → P (JArray l)) (Hobj : ∀ l, Forall (λ kv, P kv.2) l → P (JObject l)).

Fixpoint json_nested_ind (j : json) : P j :=
  match j with
  | JNull => Hnull | JBool b => Hbool b | JInt z => Hint z | JNumber s => Hnum s | JString s => Hstr s
  | JArray l => Harr l ((fix go l := match l return Forall P l with [] => Forall_nil_2 _ | x :: l => Forall_cons_2 _ _ _ (json_nested_ind x) (go l) end) l)
  | JObject l => Hobj l ((fix go l := match l return Forall (λ kv, P kv.2) l with
                          | [] => Forall_nil_2 _ | x :: l => Forall_cons_2 _ x l (json_nested_ind x.2) (go l) end) l)
  end.
End json_induction.

Abbreviation leaf := (option bool + Z + (string + string))%type.

Fixpoint json_tree (j : json) : gen_tree leaf :=
  match j with
  | JNull => GenLeaf (inl (inl None))
  | JBool b => GenLeaf (inl (inl (Some b)))
  | JInt z => GenLeaf (inl (inr z))
  | JNumber s => GenLeaf (inr (inl s))
  | JString s => GenLeaf (inr (inr s))
  | JArray l => GenNode 0 (map json_tree l)
  | JObject l => GenNode 1 (map (λ kv, GenNode 2 [GenLeaf (inr (inr kv.1)); json_tree kv.2]) l)
  end.
Fixpoint tree_json (t : gen_tree leaf) : json :=
  match t with
  | GenLeaf (inl (inl None)) => JNull
  | GenLeaf (inl (inl (Some b))) => JBool b
  | GenLeaf (inl (inr z)) => JInt z
  | GenLeaf (inr (inl s)) => JNumber s
  | GenLeaf (inr (inr s)) => JString s
  | GenNode 0 l => JArray (map tree_json l)
  | GenNode _ l => JObject (map (λ t, match t with GenNode _ [GenLeaf (inr (inr k)); v] => (k, tree_json v) | _ => (""%string, JNull) end) l)
  end.
Lemma tree_json_tree j : tree_json (json_tree j) = j.
Proof.
  induction j as [|b|z|s|s|l IH|l IH] using json_nested_ind; simpl; [done..| |]; f_equal.
  - induction IH as [|x l Hx _ IHl]; simpl; [done|]. by rewrite Hx, IHl.
  - induction IH as [|[k x] l Hx _ IHl]; simpl in *; [done|]. by rewrite Hx, IHl.
Qed.

Fixpoint pos_text (p : positive) : string :=
  match p with xH => "" | xO p => String "0"%char (pos_text p) | xI p => String "1"%char (pos_text p) end.
Fixpoint text_pos (s : string) : positive :=
  match s with EmptyString => 1 | String "0"%char s => xO (text_pos s) | String _ s => xI (text_pos s) end.
Lemma text_pos_text p : text_pos (pos_text p) = p.
Proof. induction p as [p IH|p IH|]; simpl; by rewrite ?IH. Qed.

Definition demo_marshal (j : json) : string := String "{"%char (pos_text (encode (json_tree j))).
Definition demo_unmarshal (s : string) : option json :=
  match s with String "{"%char s => tree_json <$> decode (text_pos s) | _ => None end.

#[local] Instance demo_json : JsonText := {| Marshal := demo_marshal; Unmarshal := demo_unmarshal; cjson_encode := demo_marshal |}.
#[local] Instance demo_times : TimeText := λ t, pos_text (encode t).
#[local] Instance demo_parse : TimeParse := λ s, decode (text_pos s).
#[local] Instance demo_jwt : JwtLib := λ claims _, Ok (ac_ID claims).
#[local] Instance demo_crypto : CryptoLib := {|
  sha256 := firstn 1; hmac_sha256 := λ key _, key;
  gcm_seal := λ _ _ plain _, plain ++ replicate 16 0;
  gcm_open := λ _ _ sealed _, Some (firstn (length sealed - 16) sealed) |}.

Lemma auth_demo_documented : auth_documented.
Proof.
  assert (∀ j, Unmarshal (Marshal j) = Some j) as Hm.
  { intros j. simpl. rewrite text_pos_text, decode_encode. simpl. by rewrite tree_json_tree. }
  constructor.
  - exact Hm.
  - intros l _. apply Hm.
  - intros l. unfold HasPrefix. simpl. by destruct (pos_text _).
  - intros t. unfold ParseTime, demo_parse, RFC3339Nano, demo_times. by rewrite text_pos_text, decode_encode.
  - intros key nonce plain aad _. cbn -[replicate]. f_equal. rewrite length_app, length_replicate. replace (length plain + 16 - 16)%nat with (length plain) by lia.
    apply take_app_length.
  - intros. cbn -[replicate]. by rewrite length_app, length_replicate.
  - intros. cbn -[replicate]. apply Forall_app. split; [done|]. apply Forall_replicate. unfold is_byte. lia.
Qed.

(** ** A login and two refreshes with its token *)

Definition demo_store : RedisSessionStore := {| rs_sessionPrefix := "s"; rs_userSessionsPrefix := "u" |}.
Definition demo_config : TokenConfig := {| tc_AccessSecret := "k"; tc_AccessExpire := 60 * Second; tc_RefreshExpire := 3600 * Second; tc_Issuer := "i" |}.
Definition demo_draws (k : nat) : Draws :=
  let b := match k with O => Some 0 | 1%nat => Some 4 | 2%nat => Some 8 | _ => None end in
  let bytes_of n := match b with Some b => Ok (replicate n b) | None => Fail [Driver] end in
  {| dw_session := bytes_of 16%nat; dw_secret := bytes_of 32%nat; dw_token := bytes_of 1%nat; dw_nonce := bytes_of 12%nat; dw_now := Second; dw_later := Second |}.

Lemma demo_fresh : draws_fresh demo_draws.
Proof.
  constructor.
  - intros [|[|[|j]]] [|[|[|k]]] h E1 E2; try done; rewrite <-E2 in E1; by vm_compute in E1.
  - intros [|[|[|j]]] [|[|[|k]]] h E1 E2; try done; rewrite <-E2 in E1; by vm_compute in E1.
  - intros [|[|[|k]]] n E; try done; injection E as <-; (split; [done|]; repeat constructor; unfold is_byte; lia).
Qed.

Definition token_of (w : AuthWorld) (k : nat) : string :=
  match aw_calls w !! k with Some (_, Ret (Ok (Some c))) => cr_RefreshToken c | _ => "" end.

Definition demo_login : AuthWorld := turns 5 (call demo_store demo_config demo_draws (auth_boot 0) 0 (RqIssue 7)) 0.
Definition demo_refreshed : AuthWorld :=
  let rq := RqRefresh (token_of demo_login 0) in
  turns 7 (call demo_store demo_config demo_draws (turns 7 (call demo_store demo_config demo_draws demo_login 1 rq) 1) 2 rq) 2.

Lemma demo_refreshed_reached : rtc (auth_step demo_store demo_config demo_draws) (auth_boot 0) demo_refreshed.
Proof. apply turns_reach, call_reach, turns_reach, call_reach, turns_reach, call_reach, rtc_refl. Qed.

Lemma demo_refreshed_limits : within_limits demo_refreshed.
Proof.
  apply requests_limits; [by vm_compute|]. apply (bool_decide_unpack _). by vm_compute.
Qed.

Definition demo_credentials : Credentials := {|
  cr_AccessToken := "BA"; cr_RefreshToken := "AAAAAAAAAAAAAAAAAAAAAA.BAQEBAQEBAQEBAQEBAQEBAQEBAQEBAQEBAQEBAQEBAQ"; cr_ExpiresIn := 60 |}.

Lemma demo_renews : renews (token_of demo_login 0) demo_credentials.
Proof.
  intros id secret secret' Hp Hc. vm_compute in Hp. injection Hp as <- <-. simpl in Hc. injection Hc as Hc. change ("" +:+ secret') with secret' in Hc. subst secret'. by vm_compute.
Qed.

(** Witness: both refreshes with the token of a login return, and hand out one new token. *)
Lemma refresh_rotation_witness :
  (∃ c1 c2, aw_calls demo_refreshed !! 1%nat = Some (RqRefresh (token_of demo_login 0), Ret (Ok (Some c1))) ∧
    aw_calls demo_refreshed !! 2%nat = Some (RqRefresh (token_of demo_login 0), Ret (Ok (Some c2))) ∧ cr_RefreshToken c1 = cr_RefreshToken c2) ∧
  refusals_final (aw_log demo_refreshed).
Proof.
  destruct (refresh_rotation demo_store demo_config demo_draws auth_demo_documented demo_fresh 0 demo_refreshed
    ltac:(lia) demo_refreshed_reached demo_refreshed_limits) as (_ & Hsame & _ & Hfin).
  split; [|exact Hfin]. exists demo_credentials, demo_credentials.
  assert (aw_calls demo_refreshed !! 1%nat = Some (RqRefresh (token_of demo_login 0), Ret (Ok (Some demo_credentials)))) as H1 by (by vm_compute).
  assert (aw_calls demo_refreshed !! 2%nat = Some (RqRefresh (token_of demo_login 0), Ret (Ok (Some demo_credentials)))) as H2 by (by vm_compute).
  split; [exact H1|]. split; [exact H2|]. exact (proj1 (Hsame 1%nat 2%nat _ _ _ H1 H2 demo_renews demo_renews)).
Defined.
