(* ===== verification/SessionRevocation.v ===== *)
(** * Revoking all sessions of a user

    What [RevokeAll] (apps/system/internal/authn/session.go) achieves while logins, refreshes
    and revocations of other sessions go on, given the documented guarantee of SSCAN: a full
    iteration returns every element present from its start to its end.

    The first part is rely/guarantee reasoning about one session: [others] says what other
    calls may do to it and its index entry, and a revocation in such an environment deletes
    it.  The second part proves that every login, refresh and revocation of the interleaved
    calls of SessionsInv does no more than that, so that the theorem is about those calls. *)

From stdpp Require Import pretty.
From S2P Require Import Prelude GoLib GoText Tx Model TaskRepo InstanceRepo JobRepo Trigger RpcErrors JobLogic Redis Sessions SessionsInv SessionsDemo.

Open Scope string_scope.
Open Scope list_scope.
Open Scope Z_scope.

Section revocation.
Context `{JsonText, TimeText, TimeParse, JwtLib, CryptoLib} (st : RedisSessionStore) (user : Z).

(** The index of the user, and a session that no longer exists. *)
Definition indexed (r : Redis) : gset string := match redis_smembers r (userSessionsKey st user) with Ok m => m | Fail _ => ∅ end.
Definition gone (r : Redis) (id : string) : Prop := ∀ text d, find r (sessionKey st id) ≠ Some (RString text, d).

(** A command that does not store the session [id]. *)
Definition spares (id : string) X (q : AuthCmd X) : Prop :=
  match q with SETEX key _ _ => key ≠ sessionKey st id | _ => True end.

(** A command of another call that stores neither the session [id] nor takes it from the
    index while it lives. *)
Definition harmless (id : string) (r : Redis) X (q : AuthCmd X) : Prop :=
  let uk := userSessionsKey st user in
  match q with
  | SETEX key _ _ => key ≠ uk ∧ key ≠ sessionKey st id
  | DEL keys => uk ∉ keys
  | SREM key member => key = uk → member = id → gone r id
  | EXPIRE key seconds => key = uk → 0 < seconds
  | EVAL_ROTATE key _ _ _ _ _ => key ≠ uk
  | _ => True
  end.

(** The passing of time may end the session, but not its index entry before it. *)
Definition outlives (id : string) (a b : Redis) : Prop := id ∈ indexed a → id ∈ indexed b ∨ gone b id.

(** Steps of other calls. *)
Inductive others (id : string) : Redis → Redis → Prop :=
| others_command X (q : AuthCmd X) a b x : harmless id a X q → performs auth_effect X q a b x → others id a b
| others_time a us : 0 ≤ us → outlives id a { a with rd_us := rd_us a + us } → others id a { a with rd_us := rd_us a + us }.

Lemma gone_del r keys id : gone r id → gone (redis_del r keys) id.
Proof. intros Hg text d. rewrite find_del. case_bool_decide; [done|apply Hg]. Qed.
Lemma gone_put r key v d id : gone r id → (∀ text, v ≠ RString text) ∨ key ≠ sessionKey st id → gone (put r key v d) id.
Proof.
  intros Hg Hv text d'. destruct (decide (sessionKey st id = key)) as [<-|Hne]; [|rewrite find_put_ne by done; apply Hg].
  rewrite find_put. destruct Hv as [Hv|?]; [|done]. destruct (expired r d); [done|]. intros [= Ev _]. by apply (Hv text).
Qed.

Lemma script_shape a b x key current next expires seconds encrypted :
  (b, x) = rotateRefreshTokenScript a key current next expires seconds encrypted →
  b = a ∨ ((∃ text, redis_get a key = Ok (Some text)) ∧ (b = redis_del a [key] ∨ ∃ text d, b = put a key (RString text) d)).
Proof.
  unfold rotateRefreshTokenScript, redis_setex. intros He. destruct (redis_get a key) as [[text|]|e]; [|by injection He as -> _; left..].
  repeat (case_match; simplify_eq/=; [..|try done]); eauto 8.
Qed.

(** A property that commands keep is kept when answers are lost. *)
Lemma performs_keeps (P : Redis → Prop) X (q : AuthCmd X) a b x :
  performs auth_effect X q a b x → P a → (∀ y, auth_effect X q a b y → P b) → P b.
Proof. intros [He|(_ & [->|[y He]])] Ha Hp; eauto. Qed.

(** A session that is gone stays gone. *)
Lemma spares_gone X (q : AuthCmd X) a b x id : spares id X q → performs auth_effect X q a b x → gone a id → gone b id.
Proof.
  intros Hh Hp Hg. eapply (performs_keeps (λ r, gone r id)); [exact Hp|exact Hg|]. clear x Hp. intros x He. destruct q; simpl in He, Hh.
  - by destruct He as [-> _].
  - unfold redis_setex in He. destruct (seconds <=? 0); injection He as -> _; [done|]. apply gone_put; [done|]. by right.
  - destruct He as [-> _]. by apply gone_del.
  - unfold redis_sadd in He. destruct (find a key) as [[[t|m|m] d]|]; injection He as -> _; try done; (apply gone_put; [done|by left]).
  - unfold redis_srem in He. destruct (find a key) as [[[t|m|m] d]|]; injection He as -> _; try done.
    case_bool_decide; [by apply gone_del|]. apply gone_put; [done|by left].
  - destruct He as [-> _]. unfold redis_expire. destruct (find a key) as [[v d]|] eqn:Ef; [|done]. destruct (seconds <=? 0); [by apply gone_del|].
    apply gone_put; [done|]. destruct (decide (key = sessionKey st id)) as [->|]; [left|by right]. intros text ->. by apply (Hg text d).
  - by destruct He as [-> _].
  - destruct (script_shape _ _ _ _ _ _ _ _ _ He) as [->|[[text Eg] Hb]]; [done|].
    assert (key ≠ sessionKey st id) as Hne.
    { intros ->. unfold redis_get in Eg. destruct (find a (sessionKey st id)) as [[[t|m|m] d]|] eqn:Ef; try done. by destruct (Hg t d). }
    destruct Hb as [->|(text' & d & ->)]; [by apply gone_del|apply gone_put; [done|by right]].
  - by rewrite He.
  - by rewrite He.
Qed.

Lemma harmless_spares id a X (q : AuthCmd X) : harmless id a X q → spares id X q.
Proof. destruct q; try done. by intros []. Qed.

Lemma indexed_find r : indexed r = match find r (userSessionsKey st user) with Some (RSet m, _) => m | _ => ∅ end.
Proof. unfold indexed, redis_smembers. by destruct (find r _) as [[[t|m|m] d]|]. Qed.

(** An ID leaves the index only when its session is gone. *)
Lemma harmless_indexed X (q : AuthCmd X) a b x id :
  harmless id a X q → performs auth_effect X q a b x → id ∈ indexed a → id ∈ indexed b ∨ gone b id.
Proof.
  set (uk := userSessionsKey st user). intros Hh Hp Hin.
  eapply (performs_keeps (λ b, id ∈ indexed b ∨ gone b id)); [exact Hp|by left|]. clear x Hp. intros x He.
  rewrite !indexed_find in *. fold uk in Hin |- *.
  destruct (find a uk) as [[[t|m|m] d]|] eqn:Ef; try (by apply elem_of_empty in Hin).
  assert (∀ key v d', key ≠ uk → id ∈ match find (put a key v d') uk with Some (RSet m, _) => m | _ => ∅ end) as Hput.
  { intros key v d' Hk. by rewrite find_put_ne, Ef by done. }
  destruct q; simpl in He, Hh; fold uk in Hh.
  - destruct He as [-> _]. left. by rewrite Ef.
  - left. unfold redis_setex in He. destruct (seconds <=? 0); injection He as -> _; [by rewrite Ef|]. apply Hput, Hh.
  - destruct He as [-> _]. left. by rewrite find_del, bool_decide_eq_false_2, Ef by done.
  - left. unfold redis_sadd in He. destruct (decide (key = uk)) as [->|Hk].
    + rewrite Ef in He. injection He as -> _. rewrite find_put, (find_alive _ _ _ _ Ef). set_solver.
    + destruct (find a key) as [[[t|m'|m'] d']|]; injection He as -> _; try (by apply Hput); by rewrite Ef.
  - unfold redis_srem in He. destruct (decide (key = uk)) as [->|Hk].
    + rewrite Ef in He. injection He as -> _. destruct (decide (member = id)) as [->|Hm].
      * specialize (Hh eq_refl eq_refl). right. case_bool_decide; [by apply gone_del|]. apply gone_put; [done|by left].
      * left. rewrite bool_decide_eq_false_2 by set_solver. rewrite find_put, (find_alive _ _ _ _ Ef). set_solver.
    + left. destruct (find a key) as [[[t|m'|m'] d']|]; injection He as -> _; try (by rewrite Ef).
      case_bool_decide; [|by apply Hput]. by rewrite find_del, bool_decide_eq_false_2, Ef by set_solver.
  - destruct He as [-> _]. left. unfold redis_expire. destruct (decide (key = uk)) as [->|Hk].
    + rewrite Ef, (proj2 (Z.leb_gt _ _)) by auto. by rewrite find_put, fresh_deadline by auto.
    + destruct (find a key) as [[v d']|]; [|by rewrite Ef]. destruct (seconds <=? 0); [|by apply Hput].
      by rewrite find_del, bool_decide_eq_false_2, Ef by set_solver.
  - destruct He as [-> _]. left. by rewrite Ef.
  - left. destruct (script_shape _ _ _ _ _ _ _ _ _ He) as [->|[_ [->|(text & d' & ->)]]]; [by rewrite Ef| |by apply Hput].
    by rewrite find_del, bool_decide_eq_false_2, Ef by set_solver.
  - rewrite He. left. by rewrite Ef.
  - rewrite He. left. by rewrite Ef.
Qed.

Lemma gone_time r us id : 0 ≤ us → gone r id → gone { r with rd_us := rd_us r + us } id.
Proof.
  intros Hu Hg text d. unfold find. simpl. destruct (rd_keys r !! sessionKey st id) as [[v d']|] eqn:Ek; [|done].
  destruct (expired _ d') eqn:Ex; [done|]. intros [= -> ->]. apply (Hg text d). unfold find. rewrite Ek.
  assert (expired r d = false) as ->; [|done]. unfold expired, rd_ms in *. destruct d as [d|]; [|done]. to_prop. simpl in *.
  apply Z.ltb_ge. Z.div_mod_to_equations. lia.
Qed.

Lemma others_gone a b id : others id a b → gone a id → gone b id.
Proof. intros [X q a' b' x Hh He|a' us Hu _] Hg; [by eapply spares_gone; [eapply harmless_spares|..]|by apply gone_time]. Qed.
Lemma others_indexed a b id : others id a b → id ∈ indexed a ∨ gone a id → id ∈ indexed b ∨ gone b id.
Proof. intros Ho [Hin|Hg]; [|right; by eapply others_gone]. destruct Ho as [X q a' b' x Hh He|a' us Hu Hx]; [by eapply harmless_indexed|by apply Hx]. Qed.

(** ** The scan *)

(** The IDs a moment of a run returned from the index. *)
Definition page_of (m : Moment (Q := AuthCmd) (S := Redis)) : list string :=
  match mo_command m with
  | Some (existT X (q, r)) =>
      match q in AuthCmd X return Result X → list string with
      | SSCAN _ _ => λ r, match r with Ok p => p.1 | Fail _ => [] end
      | _ => λ _, []
      end r
  | None => []
  end.

(** Redis: a full iteration returns every element that was a member from its start to its end. *)
Definition scan_guarantee (s : Redis) (log : list (Moment (Q := AuthCmd) (S := Redis))) : Prop :=
  ∀ l1 a cursor ids l2, log = l1 ++ own_moment a (SSCAN (userSessionsKey st user) cursor) (Ok (ids, 0)) :: l2 →
    ∀ id, id ∈ indexed s → Forall (λ m, id ∈ indexed (mo_state m)) l1 → id ∈ ids ∨ ∃ m, m ∈ l1 ∧ id ∈ page_of m.

(** The commands of a revocation: it reads the index and deletes keys; the index itself only
    with its last command. *)
Definition reading X (q : AuthCmd X) : Prop :=
  match q with SSCAN _ _ => True | DEL keys => userSessionsKey st user ∉ keys | _ => False end.
Definition deleting X (q : AuthCmd X) : Prop := match q with DEL keys => userSessionsKey st user ∉ keys | _ => False end.

Lemma reading_harmless id a X (q : AuthCmd X) : reading X q → harmless id a X q.
Proof. by destruct q. Qed.

Lemma batches_join fuel ids : (length ids ≤ fuel)%nat → mjoin (batches fuel ids) = ids.
Proof.
  revert ids. induction fuel as [|fuel IH]; intros [|x ids] Hl; simpl in *; try done; [lia|].
  rewrite IH; [by rewrite <-(take_drop 99 ids) at 3|]. rewrite length_drop. lia.
Qed.

Context (Hapart : ∀ id, sessionKey st id ≠ userSessionsKey st user).

Lemma batch_keys_apart ids : userSessionsKey st user ∉ batch_keys st ids.
Proof. intros (id & E & _)%list_elem_of_fmap. by destruct (Hapart id). Qed.

Lemma delete_batches_deleting bs : every deleting (delete_batches st bs).
Proof.
  induction bs as [|b bs IH]; simpl; [done|]. case_bool_decide; [done|]. apply every_then; [split; [apply batch_keys_apart|done]|done].
Qed.
Lemma every_weaken {Q A} (P P' : ∀ X, Q X → Prop) (p : Prog Q A) : (∀ X q, P X q → P' X q) → every P p → every P' p.
Proof. intros HP. induction p as [a| |X q k IH]; simpl; [done..|]. intros [? Hk]. split; [by apply HP|]. intros x. by apply IH. Qed.
Lemma delete_batches_reading bs : every reading (delete_batches st bs).
Proof. eapply every_weaken; [|apply delete_batches_deleting]. by intros X []. Qed.
Lemma revoke_scan_reading n cursor : every reading (revoke_scan st n user cursor).
Proof.
  revert cursor. induction n as [|n IH]; intros cursor; [done|]. split; [done|]. intros x. apply every_ok. intros page.
  apply every_then; [apply delete_batches_reading|]. intros _. by case_match.
Qed.

Section run.
Context (id : string).
Abbreviation run := (Run auth_effect (others id)).

Lemma run_gone {A} (p : Prog AuthCmd A) s log r s' : every reading p → run p s log r s' → gone s id → gone s' id ∧ Forall (λ m, gone (mo_state m) id) log.
Proof.
  intros Hp Hr. apply (Run_keeps auth_effect (others id) reading (λ x, gone x id) p s log r s'); try done.
  - intros a b Ho. by eapply others_gone.
  - intros X q a b x Hq He. eapply spares_gone; [|by left]. by eapply harmless_spares, (reading_harmless id a).
Qed.
Lemma run_indexed {A} (p : Prog AuthCmd A) s log r s' : every reading p → run p s log r s' → id ∈ indexed s →
  Forall (λ m, id ∈ indexed (mo_state m) ∨ gone (mo_state m) id) log.
Proof.
  intros Hp Hr Hin. eapply (Run_keeps auth_effect (others id) reading (λ x, id ∈ indexed x ∨ gone x id) p s log r s'); try done; [| |by left].
  - intros a b Ho. exact (others_indexed a b id Ho).
  - intros X q a b x Hq He. apply others_indexed. eapply others_command; [by apply reading_harmless|by left].
Qed.

(** Deleted sessions are gone. *)
Lemma delete_gone bs s log s' :
  run (delete_batches st bs) s log (Ok tt) s' → id ∈ mjoin bs → id ≠ "" → gone s' id.
Proof.
  revert s log. induction bs as [|b bs IH]; intros s log Hr Hin Hne; [by apply elem_of_nil in Hin|]. simpl in Hr, Hin.
  case_bool_decide as Eb.
  - apply elem_of_app in Hin as [Hin|Hin]; [|by eapply IH]. apply fmap_nil_inv in Eb.
    assert (id ∈ filter (λ id, id ≠ "") b) as Hf by (by apply list_elem_of_filter). rewrite Eb in Hf. by apply elem_of_nil in Hf.
  - apply Run_Do in Hr as (s1 & s2 & x & l1 & l2 & -> & _ & Hp & Hr & _).
    destruct x as [[]|e]; [|by apply Run_Ret in Hr as [? _]]. destruct Hp as [[-> _]|[? _]]; [|done].
    apply elem_of_app in Hin as [Hin|Hin]; [|by eapply IH].
    eapply run_gone; [apply delete_batches_reading|exact Hr|]. intros text d. rewrite find_del, bool_decide_eq_true_2; [done|].
    apply list_elem_of_fmap. exists id. split; [done|]. by apply list_elem_of_filter.
Qed.

(** When the scan is complete, the session is gone if some page had its ID; the last page came at cursor 0. *)
Lemma scan_gone n cursor s log s' :
  run (revoke_scan st n user cursor) s log (Ok tt) s' → id ≠ "" →
  (∀ m, m ∈ log → id ∈ page_of m → gone s' id) ∧
  ∃ l1 a c ids l2, log = l1 ++ own_moment a (SSCAN (userSessionsKey st user) c) (Ok (ids, 0)) :: l2.
Proof.
  assert (∀ l, Forall (λ m : Moment (Q := AuthCmd) (S := Redis), mo_command m = None) l → ∀ m, m ∈ l → id ∉ page_of m) as Henv.
  { intros l Hl m Hm. unfold page_of. rewrite (proj1 (Forall_forall _ _) Hl m Hm). apply not_elem_of_nil. }
  intros Hr Hne. revert cursor s log Hr. induction n as [|n IH]; intros cursor s log Hr; [by apply Run_Spin in Hr|].
  apply Run_Do in Hr as (s1 & s2 & x & l1 & l2 & -> & Hl1 & _ & Hr & _).
  destruct x as [[ids next]|e]; [|by apply Run_Ret in Hr as [? _]]. simpl in Hr.
  apply Run_bind in Hr as ([[]|e] & s3 & log1 & log2 & Hd & Hr & ->); [|by apply Run_Ret in Hr as [? _]]. simpl in Hr.
  assert (id ∈ ids → gone s3 id) as Hpage.
  { intros Hin. eapply delete_gone; [exact Hd| |done]. by rewrite batches_join. }
  assert (∀ m, m ∈ log1 → id ∉ page_of m) as Hdel.
  { intros m Hm. pose proof (Run_every auth_effect (others id) deleting _ _ _ _ _ (delete_batches_deleting _) Hd) as Hall.
    rewrite Forall_forall in Hall. specialize (Hall m Hm).
    unfold page_of. destruct (mo_command m) as [[X [q r]]|]; [|apply not_elem_of_nil]. destruct q; try done; apply not_elem_of_nil. }
  destruct (Z.eqb_spec next 0) as [->|Hnext].
  - apply Run_Ret in Hr as Hr'. destruct Hr' as [_ Hl2]. split; [|by eexists l1, s2, cursor, ids, _].
    intros m Hm Hid. eapply run_gone; [|exact Hr|]; [done|].
    rewrite elem_of_app, elem_of_cons, elem_of_app in Hm. destruct Hm as [Hm|[->|[Hm|Hm]]]; [by destruct (Henv _ Hl1 m)|by apply Hpage|by destruct (Hdel m)|by destruct (Henv _ Hl2 m)].
  - destruct (IH _ _ _ Hr) as (Hrest & l3 & a & c & ids' & l4 & ->). split.
    + intros m Hm Hid. rewrite elem_of_app, elem_of_cons, (elem_of_app log1) in Hm.
      destruct Hm as [Hm|[->|[Hm|Hm]]]; [by destruct (Henv _ Hl1 m)| |by destruct (Hdel m)|by eapply Hrest].
      eapply run_gone; [apply revoke_scan_reading|exact Hr|by apply Hpage].
    + eexists (l1 ++ _ :: log1 ++ l3), a, c, ids', l4. rewrite <-!app_assoc. simpl. by rewrite <-!app_assoc.
Qed.

(** A revocation among [others] deletes an indexed session. *)
Lemma revoke_all_run turns s log s' :
  run (RevokeAll st turns user) s log (Ok tt) s' → scan_guarantee s log → id ∈ indexed s → id ≠ "" → gone s' id.
Proof.
  intros Hr Hscan Hin Hne. unfold RevokeAll in Hr. destruct (user <=? 0); [by apply Run_Ret in Hr as [? _]|].
  apply Run_bind in Hr as ([[]|e] & s1 & log1 & log2 & Hs & Hr & ->); [|by apply Run_Ret in Hr as [? _]].
  assert (gone s1 id) as Hg.
  { destruct (scan_gone turns 0 s log1 s1 Hs Hne) as (Hpages & l1 & a & c & ids & l2 & ->).
    assert (Forall (λ m, id ∈ indexed (mo_state m) ∨ gone (mo_state m) id) (l1 ++ own_moment a (SSCAN (userSessionsKey st user) c) (Ok (ids, 0)) :: l2)) as Hmem
      by (by eapply run_indexed; [apply revoke_scan_reading|exact Hs|..]).
    destruct (decide (Forall (λ m, id ∈ indexed (mo_state m)) l1)) as [Hall|Hnot].
    - destruct (Hscan l1 a c ids (l2 ++ log2)) with (id := id) as [Hi|(m & Hm & Hi)]; try done; [by rewrite <-app_assoc| |].
      + eapply Hpages; [apply elem_of_app; right; by left|done..].
      + eapply Hpages; [apply elem_of_app; by left|done..].
    - apply not_Forall_Exists, Exists_exists in Hnot as (m & Hm & Hno); [|apply _].
      assert (gone (mo_state m) id) as Hgm.
      { destruct (proj1 (Forall_forall _ _) Hmem m) as [?|?]; [apply elem_of_app; by left|done..]. }
      destruct (Run_from _ _ reading _ _ _ _ _ m (revoke_scan_reading turns 0) Hs) as (p' & rest & Hp' & Hr'); [apply elem_of_app; by left|].
      by eapply run_gone. }
  eapply (Run_keeps auth_effect (others id) (λ X q, match q with DEL _ => True | _ => False end) (λ x, gone x id)); [..|exact Hr|exact Hg].
  - intros a b Ho. by eapply others_gone.
  - intros X q a b x Hq He. destruct q; try done. destruct He as [-> _]. apply gone_del.
  - split; [done|]. by intros [|].
Qed.
End run.

Context (config : TokenConfig) (draws : nat → Draws).

(** ** What one other call does *)

Section guarantee.
Context (id : string).

(** Documented behaviour of encoding/json and cjson: an object is printed in braces. *)
Definition prints_braces : Prop :=
  (∀ l, HasPrefix (Marshal (JObject l)) "{" = true) ∧ ∀ l, HasPrefix (cjson_encode (JObject l)) "{" = true.

(** Every string in the store is such an object. *)
Definition braced (r : Redis) : Prop := ∀ key text d, rd_keys r !! key = Some (RString text, d) → HasPrefix text "{" = true.
Definition writes_braced X (q : AuthCmd X) : Prop := match q with SETEX _ value _ => HasPrefix value "{" = true | _ => True end.

(** Harmless whatever the store. *)
Definition static X (q : AuthCmd X) : Prop :=
  let uk := userSessionsKey st user in
  match q with
  | SETEX key _ _ => key ≠ uk ∧ key ≠ sessionKey st id
  | DEL keys => uk ∉ keys
  | SREM key member => key = uk → member ≠ id
  | EXPIRE key seconds => key = uk → 0 < seconds
  | EVAL_ROTATE key _ _ _ _ _ => key ≠ uk
  | _ => True
  end.

Lemma static_harmless a X (q : AuthCmd X) : static X q → harmless id a X q.
Proof. destruct q; try done. simpl. intros Hs Hk Hm. by destruct (Hs Hk). Qed.

(** A program whose next commands are harmless, given what it learns from their answers;
    [g]: it knows that the session is gone. *)
Fixpoint guards {A} (g : bool) (p : Prog AuthCmd A) : Prop :=
  match p with
  | Ret _ | Spin => True
  | Do q k => ∀ a, braced a → (g = true → gone a id) → harmless id a _ q ∧
      ∀ b x, performs auth_effect _ q a b x → ∃ g', (g' = true → gone b id) ∧ guards g' (k x)
  end.

Lemma guards_static {A} g (p : Prog AuthCmd A) : every static p → guards g p.
Proof.
  induction p as [a| |X q k IH]; simpl; [done..|]. intros [Hq Hk] a _ Hg. pose proof (static_harmless a _ _ Hq) as Hh. split; [done|].
  intros b x Hp. exists g. split; [|by apply IH]. intros E. eapply spares_gone; [by eapply harmless_spares|exact Hp|by apply Hg].
Qed.

Lemma guards_bind {A B} g (p : Prog AuthCmd A) (f : Result A → Prog AuthCmd B) :
  every static p → (∀ r, guards g (f r)) → guards g (prog_bind p f).
Proof.
  intros Hp Hf. induction p as [r| |X q k IH]; simpl in *; [done..|]. destruct Hp as [Hq Hk]. intros a _ Hg.
  pose proof (static_harmless a _ _ Hq) as Hh. split; [done|]. intros b x Hp. exists g. split; [|by apply IH].
  intros E. eapply spares_gone; [by eapply harmless_spares|exact Hp|by apply Hg].
Qed.

Lemma guards_tail {A B} g (p : Prog AuthCmd A) (f : Result A → Prog AuthCmd B) :
  guards g p → (∀ r, every static (f r)) → guards g (prog_bind p f).
Proof.
  intros Hp Hf. revert g Hp. induction p as [r| |X q k IH]; simpl; intros g Hp; [by apply guards_static|done|]. intros a Ha Hg.
  destruct (Hp a Ha Hg) as [Hh Hn]. split; [done|]. intros b x Hx. destruct (Hn b x Hx) as (g' & Hg' & Hk). exists g'. by auto.
Qed.

Lemma guards_then {A B} g (p : Prog AuthCmd A) (f : A → Prog AuthCmd B) :
  every static p → (∀ a, guards g (f a)) → guards g (a ← p; f a).
Proof. intros Hp Hf. apply guards_bind; [done|]. intros [a|e]; [exact (Hf a)|done]. Qed.
Lemma guards_given {A B} g (v : Result A) (f : A → Prog AuthCmd B) : (∀ a, v = Ok a → guards g (f a)) → guards g (a ← Ret v; f a).
Proof. intros Hf. destruct v as [a|e]; [exact (Hf a eq_refl)|done]. Qed.

Lemma ttl_positive ttl seconds : ttlSeconds ttl = Ok seconds → 0 < seconds.
Proof.
  unfold ttlSeconds. destruct (Z.leb_spec ttl 0); [done|]. intros [= <-]. unfold Second. Z.div_mod_to_equations. lia.
Qed.

Lemma not_index id' : userSessionsKey st user ∉ [sessionKey st id'].
Proof. intros E%list_elem_of_singleton. by destruct (Hapart id'). Qed.

Lemma static_Get id' : every static (Get st id').
Proof. by apply every_Get. Qed.
Lemma static_roles u : every static (roleIDs u).
Proof. by apply every_roleIDs. Qed.

(** Storing another session. *)
Lemma static_Create session ttl : se_ID session ≠ id → every static (Create st session ttl).
Proof.
  intros Hne. apply every_given. intros [] _. apply every_given. intros seconds Hs%ttl_positive. cbv zeta.
  apply every_then; [split; [split; [apply Hapart|intros E; by apply sessionKey_inj in E]|done]|]. intros _.
  apply every_ask; [done|]. intros [|e]; [|by apply every_ask; [apply not_index|]].
  apply every_ask; [by intros _|]. intros [|e]; [done|]. apply every_ask; [apply not_index|]. intros _. by apply every_ask; [intros _|].
Qed.

Lemma static_Issue d u : (∀ b, dw_session d = Ok b → of_bytes (b64_encode b) ≠ id) → every static (Issue st config d u).
Proof.
  intros Hd. unfold Issue. case_match; [done|]. apply every_then; [apply static_roles|]. intros roles. apply every_then; [done|]. intros super.
  apply every_given. intros sid Hsid. do 2 (apply every_given; intros ? _). apply every_then; [|done]. apply static_Create. simpl.
  unfold randomString, result_map in Hsid. destruct (dw_session d) as [b|]; [|done]. injection Hsid as <-. by apply Hd.
Qed.

(** Rotating the token of another session, and of this one: only the answer that it is
    gone makes the call take it from the index. *)
Lemma static_Rotate id' current next expires ttl encrypted :
  id' ≠ id → every static (RotateRefreshToken st id' current next expires ttl encrypted).
Proof.
  intros Hne. unfold RotateRefreshToken. case_match; [done|]. apply every_given. intros seconds Hs%ttl_positive.
  apply every_then; [apply static_Get|]. intros session. cbv zeta. apply every_then; [done|]. intros _. apply every_then; [by split; [intros _|]|]. intros _.
  apply every_then; [split; [apply Hapart|done]|]. intros result. cbv zeta.
  destruct (match result with LuaString v => if HasPrefix v "{" then Some v else None | LuaInt _ => None end).
  - repeat case_match; done.
  - by apply every_ask; [intros _|].
Qed.

Lemma script_end a b x current next expires seconds encrypted v :
  prints_braces → braced a → auth_effect _ (EVAL_ROTATE (sessionKey st id) current next expires seconds encrypted) a b x → x = Ok v →
  (∃ text, v = LuaString text ∧ HasPrefix text "{" = true) ∨ gone b id.
Proof.
  intros [_ Hbr] Ha He ->. simpl in He. unfold rotateRefreshTokenScript, redis_setex, redis_get in He.
  destruct (find a (sessionKey st id)) as [[[text|m|m] d]|] eqn:Ef; [|done..|].
  2: { injection He as -> ->. right. intros text d. by rewrite Ef. }
  assert (HasPrefix text "{" = true) as Ht.
  { unfold find in Ef. destruct (rd_keys a !! sessionKey st id) as [[v' d']|] eqn:Ek; [|done]. destruct (expired a d'); [done|].
    injection Ef as -> ->. by eapply Ha. }
  repeat (case_match; simplify_eq/=; try done); try (left; by eexists).
  right. intros text' d'. by rewrite find_del, bool_decide_eq_true_2 by (by left).
Qed.

Lemma guards_Rotate current next expires ttl encrypted :
  prints_braces → guards false (RotateRefreshToken st id current next expires ttl encrypted).
Proof.
  intros Hbr. unfold RotateRefreshToken. case_match; [done|]. apply guards_given. intros seconds Hs%ttl_positive.
  apply guards_then; [apply static_Get|]. intros session. cbv zeta. apply guards_then; [done|]. intros _. apply guards_then; [by split; [intros _|]|]. intros _.
  intros a Ha _. split; [apply Hapart|]. intros b x Hp. destruct x as [v|e]; [|by exists false].
  destruct Hp as [He|[? _]]; [|done]. destruct (script_end _ _ _ _ _ _ _ _ v Hbr Ha He eq_refl) as [(text & -> & Ht)|Hg].
  - exists false. split; [done|]. simpl. rewrite Ht. by repeat case_match.
  - exists true. split; [done|]. simpl.
    destruct (match v with LuaString v => if HasPrefix v "{" then Some v else None | LuaInt _ => None end).
    + by repeat case_match.
    + intros a' _ Hg'. split; [by intros _ _; apply Hg'|]. intros b' x' _. by exists false.
Qed.

Lemma static_Refresh d token : (∀ sid secret, parseRefreshToken token = Ok (sid, secret) → sid ≠ id) → every static (Refresh st config d token).
Proof.
  intros Hne. unfold Refresh. destruct (parseRefreshToken token) as [[sid secret]|]; [|done]. specialize (Hne _ _ eq_refl).
  apply every_bind; [apply static_Get|]. intros [session|]; [|done]. apply every_then; [apply static_roles|]. intros roles.
  apply every_then; [done|]. intros super. do 3 (apply every_given; intros ? _). apply every_bind; [by apply static_Rotate|]. by intros [].
Qed.
Lemma guards_Refresh d token secret : prints_braces → parseRefreshToken token = Ok (id, secret) → guards false (Refresh st config d token).
Proof.
  intros Hbr Et. unfold Refresh. rewrite Et. apply guards_bind; [apply static_Get|]. intros [session|]; [|done].
  apply guards_then; [apply static_roles|]. intros roles. apply guards_then; [done|]. intros super. do 3 (apply guards_given; intros ? _).
  apply guards_tail; [by apply guards_Rotate|]. by intros [].
Qed.

(** Revoking another session, and this one: deleted first, then taken from the index. *)
Lemma static_Revoke u id' : id' ≠ id → every static (Revoke st u id').
Proof.
  intros Hne. unfold Revoke. case_match; [done|]. apply every_bind; [apply static_Get|]. intros r. cbv zeta.
  case_match; [done|]. apply every_then; [split; [apply not_index|done]|]. intros _. by apply every_then; [split; [intros _|]|].
Qed.
Lemma guards_Revoke u : guards false (Revoke st u id).
Proof.
  unfold Revoke. case_match; [done|]. apply guards_bind; [apply static_Get|]. intros r. cbv zeta. case_match; [done|].
  intros a _ _. split; [apply not_index|]. intros b x Hp. destruct x as [[]|e]; [|by exists false].
  destruct Hp as [[-> _]|[? _]]; [|done]. exists true. split.
  { intros _ text d. by rewrite find_del, bool_decide_eq_true_2 by (by left). }
  intros a' _ Hg. split; [by intros _ _; apply Hg|]. intros b' x' _. exists false. split; [done|]. by destruct x'.
Qed.

(** Revoking all sessions of another user. *)
Lemma static_RevokeAll turns u : u ≠ user → every static (RevokeAll st turns u).
Proof.
  intros Hne. assert (userSessionsKey st user ∉ [userSessionsKey st u]) as Hk.
  { intros E%list_elem_of_singleton. unfold userSessionsKey in E. apply (inj (String.app _)), (inj (String.app _)) in E.
    unfold FormatInt in E. by apply (inj pretty) in E. }
  unfold RevokeAll. case_match; [done|]. apply every_then; [|intros _; by apply every_then; [split|]]. generalize 0 as cursor.
  induction turns as [|n IH]; intros cursor; [done|]. split; [done|]. intros x. apply every_ok. intros page. apply every_then; [|intros _; by case_match].
  eapply every_weaken; [|apply delete_batches_deleting]. by intros X [].
Qed.
End guarantee.

(** ** All other calls *)

(** Every call that draws this session ID has returned. *)
Definition handed_out (w : AuthWorld) (id : string) : Prop :=
  ∀ j, session_id draws j = Some id → ∃ rq r, aw_calls w !! j = Some (rq, Ret r).

(** A client can name a session only after the login that draws its ID has returned: the
    IDs are 128 random bits. *)
Definition presentable (w : AuthWorld) (rq : Request) : Prop :=
  match rq with
  | RqRefresh token => ∀ id secret, parseRefreshToken token = Ok (id, secret) → handed_out w id
  | RqRevoke _ id => handed_out w id
  | _ => True
  end.
Definition auth_use (w w' : AuthWorld) : Prop :=
  auth_step st config draws w w' ∧ ∀ k rq p, aw_calls w !! k = None → aw_calls w' !! k = Some (rq, p) → presentable w rq.

(** The steps of a world as call [k] sees them: its own commands with their answers, steps of
    other calls, and passing time, which does not end an index entry before its session. *)
Inductive watched (k : nat) : AuthWorld → list (Moment (Q := AuthCmd) (S := Redis)) → AuthWorld → Prop :=
| watched_nil w : watched k w [] w
| watched_own w w1 rq X (q : AuthCmd X) c x log w' :
    aw_calls w !! k = Some (rq, Do q c) → auth_use w w1 → performs auth_effect X q (aw_redis w) (aw_redis w1) x →
    aw_calls w1 = <[k := (rq, c x)]> (aw_calls w) → watched k w1 log w' → watched k w (own_moment (aw_redis w1) q x :: log) w'
| watched_other w w1 log w' :
    auth_use w w1 → aw_calls w1 !! k = aw_calls w !! k → rd_us (aw_redis w1) = rd_us (aw_redis w) →
    watched k w1 log w' → watched k w (env_moment (aw_redis w1) :: log) w'
| watched_time w us log w' :
    let w1 := { w with aw_redis := { aw_redis w with rd_us := rd_us (aw_redis w) + us } } in
    0 ≤ us → (∀ id, outlives id (aw_redis w) (aw_redis w1)) → watched k w1 log w' → watched k w (env_moment (aw_redis w1) :: log) w'.

(** Every other revocation of all sessions of the user had returned before. *)
Definition alone (k : nat) (w w' : AuthWorld) : Prop :=
  ∀ j turns p, j ≠ k → aw_calls w' !! j = Some (RqRevokeAll turns user, p) → ∃ r, aw_calls w !! j = Some (RqRevokeAll turns user, Ret r).

Section calls.
Context (id : string) (Hbraces : prints_braces).

Definition call_ok (w : AuthWorld) (k : nat) (rq : Request) (p : Prog AuthCmd (option Credentials)) : Prop :=
  every writes_braced p ∧
  (session_id draws k = Some id ∨
   every (spares id) p ∧ ((∃ turns, rq = RqRevokeAll turns user) ∨ every (static id) p ∨
                          handed_out w id ∧ ∃ g, (g = true → gone (aw_redis w) id) ∧ guards id g p)).
Record calls_inv (w : AuthWorld) : Prop := {
  ci_braced : braced (aw_redis w);
  ci_calls : ∀ k rq p, aw_calls w !! k = Some (rq, p) → call_ok w k rq p;
}.

Lemma braced_step X (q : AuthCmd X) a b x : writes_braced X q → performs auth_effect X q a b x → braced a → braced b.
Proof.
  intros Hq Hp Ha. eapply (performs_keeps braced); [exact Hp|exact Ha|]. clear x Hp. intros x He.
  destruct (deciding X q) eqn:Ed.
  2: { intros key text d Hk. destruct (idle_effect _ _ _ _ _ Ed He) as (_ & _ & Hold). destruct (Hold _ _ _ Hk) as [d' Hk']. by eapply Ha. }
  assert (∀ key text d, HasPrefix text "{" = true → braced (put a key (RString text) d)) as Hput.
  { intros key text d Ht k t d'. simpl. rewrite lookup_insert_Some. intros [[_ [= <- _]]|[_ Hk]]; [done|by eapply Ha]. }
  destruct q; try done; simpl in He, Hq.
  - unfold redis_setex in He. destruct (seconds <=? 0); injection He as -> _; [done|by apply Hput].
  - unfold rotateRefreshTokenScript, redis_setex in He.
    repeat (case_match; simplify_eq/=; try done); try (apply Hput, Hbraces).
    intros k t d. simpl. rewrite lookup_delete_Some. intros [_ Hk]. by eapply Ha.
Qed.

(** A property of all commands except storing a session and the rotation script. *)
Lemma program_idle (P : ∀ X, AuthCmd X → Prop) k rq :
  (∀ X q, idle_cmd X q → P X q) → (∀ key current next expires seconds encrypted, P _ (EVAL_ROTATE key current next expires seconds encrypted)) →
  (∀ sid l seconds, session_id draws k = Some sid → P _ (SETEX (sessionKey st sid) (Marshal (JObject l)) seconds)) →
  every P (program st config draws k rq).
Proof.
  intros HP HE HS. destruct rq as [u|token|u sid|turns u]; simpl; (apply every_bind; [|done]).
  - unfold Issue. case_match; [done|]. apply every_then; [by apply every_roleIDs, HP|]. intros roles. apply every_then; [by split; [apply HP|]|]. intros super.
    apply every_given. intros sid Hsid. do 2 (apply every_given; intros ? _). apply every_then; [|done]. apply every_Create; [|done]. intros seconds _.
    simpl. apply HS. unfold randomString, result_map in Hsid. unfold session_id. destruct (dw_session (draws k)); [|done]. by simplify_eq.
  - unfold Refresh. destruct (parseRefreshToken token) as [[sid secret]|]; [|done]. apply every_bind; [by apply every_Get, HP|]. intros [session|]; [|done].
    apply every_then; [by apply every_roleIDs, HP|]. intros roles. apply every_then; [by split; [apply HP|]|]. intros super.
    do 3 (apply every_given; intros ? _). apply every_bind; [|by intros []]. by apply every_Rotate.
  - by apply every_Revoke.
  - by apply every_RevokeAll.
Qed.

Lemma start_ok w k rq : presentable w rq → call_ok w k rq (program st config draws k rq).
Proof.
  intros Hp. split.
  { apply program_idle; [by intros X []|done|]. intros sid l seconds _. apply Hbraces. }
  destruct (decide (session_id draws k = Some id)) as [|Hid]; [by left|]. right. split.
  { apply program_idle; [by intros X []|done|]. intros sid l seconds Hs E. apply sessionKey_inj in E. congruence. }
  assert (∀ A B (p : Prog AuthCmd A) (f : Result A → Result B), every (static id) p → every (static id) (r <~ p; Ret (f r))) as Hst
    by (intros; by apply every_bind).
  destruct rq as [u|token|u sid|turns u]; simpl in Hp |- *.
  - right; left. apply Hst, static_Issue. intros b Hb E. apply Hid. unfold session_id. rewrite Hb. congruence.
  - destruct (parseRefreshToken token) as [[sid secret]|e] eqn:Et; [destruct (decide (sid = id)) as [->|Hne]|].
    + right; right. split; [by eapply Hp|]. exists false. split; [done|]. apply guards_tail; [by eapply guards_Refresh|done].
    + right; left. apply Hst, static_Refresh. intros sid' secret' Et'. congruence.
    + right; left. apply Hst, static_Refresh. intros sid' secret' Et'. congruence.
  - destruct (decide (sid = id)) as [->|Hne].
    + right; right. split; [done|]. exists false. split; [done|]. apply guards_tail; [apply guards_Revoke|done].
    + right; left. by apply Hst, static_Revoke.
  - destruct (decide (u = user)) as [->|Hne]; [left; by exists turns|]. right; left. by apply Hst, static_RevokeAll.
Qed.

(** A step is passing time, the start of a call or one command of a call. *)
Lemma step_cases w w1 : auth_step st config draws w w1 →
  (∃ us, 0 ≤ us ∧ w1 = { w with aw_redis := { aw_redis w with rd_us := rd_us (aw_redis w) + us } }) ∨
  (∃ k rq, aw_calls w !! k = None ∧ w1 = { w with aw_calls := <[k := (rq, program st config draws k rq)]> (aw_calls w) }) ∨
  (∃ k rq X (q : AuthCmd X) c x, aw_calls w !! k = Some (rq, Do q c) ∧ performs auth_effect X q (aw_redis w) (aw_redis w1) x ∧
     aw_calls w1 = <[k := (rq, c x)]> (aw_calls w)).
Proof.
  intros Hs. destruct Hs as [w us Hu|w k rq Hk|w k rq X q c s' r Hk He|w k rq X q c s' r Hk He|w k rq X q c Hk]; [left; by exists us|right; left; by exists k, rq|..];
    right; right.
  - exists k, rq, X, q, c, r. split_and!; [done|by left|done].
  - exists k, rq, X, q, c, lost. split_and!; [done| |done]. right. split; [done|]. right. by exists r.
  - exists k, rq, X, q, c, lost. split_and!; [done| |done]. right. split; [done|]. by left.
Qed.

Lemma returned_stays w w1 j rq r : auth_step st config draws w w1 → aw_calls w !! j = Some (rq, Ret r) → aw_calls w1 !! j = Some (rq, Ret r).
Proof.
  intros [(us & _ & ->)|[(k & rq' & Hk & ->)|(k & rq' & X & q & c & x & Hk & _ & ->)]]%step_cases Hj; simpl; [done|..]; (rewrite lookup_insert_ne; [done|congruence]).
Qed.
Lemma started_stays w w1 j rq p : auth_step st config draws w w1 → aw_calls w !! j = Some (rq, p) → ∃ p', aw_calls w1 !! j = Some (rq, p').
Proof.
  intros [(us & _ & ->)|[(k & rq' & Hk & ->)|(k & rq' & X & q & c & x & Hk & _ & ->)]]%step_cases Hj; simpl; [by exists p|..];
    (destruct (decide (j = k)) as [->|Hne]; [|exists p; by rewrite lookup_insert_ne]).
  - congruence.
  - rewrite Hk in Hj. injection Hj as -> _. exists (c x). by rewrite lookup_insert_eq.
Qed.
Lemma handed_stays w w1 : auth_step st config draws w w1 → handed_out w id → handed_out w1 id.
Proof. intros Hs Hh j Hj. destruct (Hh j Hj) as (rq & r & Hr). exists rq, r. by eapply returned_stays. Qed.

(** A session handed out is not stored again by a running call. *)
Lemma running_spares w k rq X (q : AuthCmd X) c : calls_inv w → handed_out w id → aw_calls w !! k = Some (rq, Do q c) → spares id X q.
Proof.
  intros HI Hh Hk. destruct (ci_calls _ HI _ _ _ Hk) as [_ [Hid|[[Hs _] _]]]; [|done]. destruct (Hh k Hid) as (rq' & r & Hr). congruence.
Qed.
Lemma step_gone w w1 : calls_inv w → auth_step st config draws w w1 → handed_out w id → gone (aw_redis w) id → gone (aw_redis w1) id.
Proof.
  intros HI [(us & Hu & ->)|[(k & rq' & Hk & ->)|(k & rq' & X & q & c & x & Hk & Hp & _)]]%step_cases Hh Hg; simpl; [by apply gone_time|done|].
  eapply spares_gone; [by eapply running_spares|done..].
Qed.

Lemma call_ok_stays w w1 k rq p : calls_inv w → auth_step st config draws w w1 → call_ok w k rq p → call_ok w1 k rq p.
Proof.
  intros HI Hs [Hb [Hid|[Hsp [Hr|[Hst|(Hh & g & Hg & Hp)]]]]]; (split; [done|]); [by left|right; split; [done|]..]; [by left|by right; left|].
  right; right. split; [by eapply handed_stays|]. exists g. split; [|done]. intros E. by eapply step_gone; auto.
Qed.

Lemma call_ok_next w w1 k rq X (q : AuthCmd X) c x : calls_inv w → auth_step st config draws w w1 → aw_calls w !! k = Some (rq, Do q c) →
  performs auth_effect X q (aw_redis w) (aw_redis w1) x → call_ok w1 k rq (c x).
Proof.
  intros HI Hs Hk Hp. destruct (ci_calls _ HI _ _ _ Hk) as [[_ Hb] [Hid|[[_ Hsp] Hc]]]; (split; [apply Hb|]); [by left|right]. split; [apply Hsp|].
  destruct Hc as [Hr|[[_ Hst]|(Hh & g & Hg & Hn)]]; [by left|right; left; apply Hst|right; right].
  split; [by eapply handed_stays|]. destruct (Hn _ (ci_braced _ HI) Hg) as [_ Hn']. exact (Hn' _ _ Hp).
Qed.

Lemma calls_step w w1 : calls_inv w → auth_use w w1 → calls_inv w1.
Proof.
  intros HI [Hs Hnew]. pose proof (step_cases _ _ Hs) as Hc. constructor.
  - destruct Hc as [(us & Hu & ->)|[(k & rq' & Hk & ->)|(k & rq' & X & q & c & x & Hk & Hp & _)]]; [apply HI..|].
    destruct (ci_calls _ HI _ _ _ Hk) as [[Hq _] _]. by eapply braced_step; [| |apply HI].
  - intros j rq p Hj. destruct (aw_calls w !! j) as [[rq0 p0]|] eqn:Ej.
    + destruct Hc as [(us & Hu & Ew)|[(k & rq' & Hk & Ew)|(k & rq' & X & q & c & x & Hk & Hp & Ew)]].
      * apply (call_ok_stays w); [done..|]. apply HI. rewrite Ew in Hj. exact Hj.
      * apply (call_ok_stays w); [done..|]. apply HI. rewrite Ew in Hj. simpl in Hj. rewrite lookup_insert_ne in Hj by congruence. done.
      * rewrite Ew in Hj. destruct (decide (j = k)) as [->|Hne]; [|rewrite lookup_insert_ne in Hj by done; apply (call_ok_stays w); [done..|by apply HI]].
        rewrite lookup_insert_eq in Hj. injection Hj as <- <-. by eapply call_ok_next.
    + pose proof (Hnew j rq p Ej Hj) as Hpr. apply (call_ok_stays w); [done..|].
      destruct Hc as [(us & Hu & Ew)|[(k & rq' & Hk & Ew)|(k & rq' & X & q & c & x & Hk & Hp & Ew)]]; rewrite Ew in Hj; simpl in Hj; [congruence|..];
        (destruct (decide (j = k)) as [->|Hne]; [|rewrite lookup_insert_ne in Hj by done; congruence]); [|congruence].
      rewrite lookup_insert_eq in Hj. injection Hj as <- <-. by apply start_ok.
Qed.

Lemma calls_reachable us w : rtc auth_use (auth_boot us) w → calls_inv w.
Proof.
  revert w. apply rtc_ind_r; [|by intros w w1 _ Hs HI; eapply calls_step].
  constructor; [intros key text d; simpl; by rewrite lookup_empty|intros k rq p; simpl; by rewrite lookup_empty].
Qed.

(** ** The revocation among them *)

Lemma others_refl a : others id a a.
Proof. assert (a = { a with rd_us := rd_us a + 0 }) as E by (destruct a; simpl; by rewrite Z.add_0_r). rewrite E at 2. apply others_time; [done|]. rewrite <-E. by left. Qed.

(** A program is not the rest of itself. *)
Lemma rest_differs {Q : Type → Type} {A} (p : Prog Q A) : match p with Do q c => ∀ x, c x ≠ p | _ => True end.
Proof. induction p as [r| |X q c IH]; [done..|]. intros x E. specialize (IH x). rewrite E in IH. by apply (IH x). Qed.

Lemma other_step w w1 k : calls_inv w → auth_use w w1 → handed_out w id → is_Some (aw_calls w !! k) → aw_calls w1 !! k = aw_calls w !! k →
  rd_us (aw_redis w1) = rd_us (aw_redis w) →
  (∀ j turns X (q : AuthCmd X) c, j ≠ k → aw_calls w !! j ≠ Some (RqRevokeAll turns user, Do q c)) → others id (aw_redis w) (aw_redis w1).
Proof.
  intros HI [Hs _] Hh [[rq0 p0] Hk0] Hk Hus Hno.
  destruct (step_cases _ _ Hs) as [(us & Hu & ->)|[(j & rq & _ & ->)|(j & rq & X & q & c & x & Hj & Hp & Ew)]]; simpl in *.
  - assert (us = 0) as -> by lia. destruct (aw_redis w) as [keys us]; simpl. rewrite Z.add_0_r. apply others_refl.
  - apply others_refl.
  - assert (j ≠ k) as Hne.
    { intros ->. rewrite Ew, lookup_insert_eq, Hj in Hk. injection Hk as Hk. by apply (rest_differs (Do q c) x). }
    apply (others_command id X q _ _ x); [|done].
    destruct (ci_calls _ HI _ _ _ Hj) as [_ [Hid|[_ [[turns ->]|[[Hst _]|(_ & g & Hg & Hn)]]]]].
    + destruct (Hh j Hid) as (rq' & r & Hr). congruence.
    + by destruct (Hno j turns X q c).
    + by apply static_harmless.
    + by apply (Hn _ (ci_braced _ HI) Hg).
Qed.

Lemma watched_starts k w log w' j rq p : watched k w log w' → aw_calls w !! j = Some (rq, p) → ∃ p', aw_calls w' !! j = Some (rq, p').
Proof.
  intros Hw. revert p. induction Hw as [w|w w1 rq' X q c x log w' Hk [Hs _] Hp Ew Hw IH|w w1 log w' [Hs _] Hk Hus Hw IH|w us log w' w1 Hu Ho Hw IH]; intros p Hj; [by exists p|..].
  - destruct (started_stays _ _ _ _ _ Hs Hj) as [p' Hp']. by eapply IH.
  - destruct (started_stays _ _ _ _ _ Hs Hj) as [p' Hp']. by eapply IH.
  - by eapply IH.
Qed.

Lemma alone_next k w w1 w' : auth_step st config draws w w1 → alone k w w' → alone k w1 w'.
Proof. intros Hs Ha j turns p Hj Hw. destruct (Ha j turns p Hj Hw) as [r Hr]. exists r. by eapply returned_stays. Qed.

(** What call [k] sees is a run of its program among [others]. *)
Lemma watched_run k w log w' rq p : watched k w log w' → calls_inv w → handed_out w id → alone k w w' → aw_calls w !! k = Some (rq, p) →
  ∃ p', aw_calls w' !! k = Some (rq, p') ∧ ∀ r, p' = Ret r → Run auth_effect (others id) p (aw_redis w) log r (aw_redis w').
Proof.
  intros Hw. revert p. induction Hw as [w|w w1 rq' X q c x log w' Hk Hu Hp Ew Hw IH|w w1 log w' Hu Hk Hus Hw IH|w us log w' w1 Hu Ho Hw IH]; intros p HI Hh Ha Hkp.
  - exists p. split; [done|]. intros r ->. constructor.
  - rewrite Hk in Hkp. injection Hkp as <- <-. destruct (IH (c x)) as (p' & Hp' & Hr); [by eapply calls_step|by eapply handed_stays; [apply Hu|]|by eapply alone_next; [apply Hu|]| |].
    { by rewrite Ew, lookup_insert_eq. }
    exists p'. split; [done|]. intros r E. by eapply Run_do; [|apply Hr].
  - destruct (IH p) as (p' & Hp' & Hr); [by eapply calls_step|by eapply handed_stays; [apply Hu|]|by eapply alone_next; [apply Hu|]|by rewrite Hk|].
    exists p'. split; [done|]. intros r E. apply Run_env; [|by apply Hr]. eapply other_step; [done|done|done|by rewrite Hkp|done|done|].
    intros j turns Y q c Hj Hbad. destruct (started_stays _ _ _ _ _ (proj1 Hu) Hbad) as [p1 Hp1]. destruct (watched_starts _ _ _ _ _ _ _ Hw Hp1) as [p2 Hp2].
    destruct (Ha j turns p2 Hj Hp2) as [r' Hr']. congruence.
  - assert (auth_use w w1) as Hs by (split; [by apply step_tick|intros j rq' p' Hj Hj'; unfold w1 in Hj'; simpl in Hj'; congruence]).
    destruct (IH p) as (p' & Hp' & Hr); [by eapply calls_step|done|by eapply alone_next; [apply Hs|]|done|].
    exists p'. split; [done|]. intros r E. apply Run_env; [|by apply Hr]. by apply others_time.
Qed.
End calls.

(** C20: Revoking all sessions of a user revokes every one that was there, while logins,
    refreshes, single revocations and revocations for other users go on: when a [RevokeAll]
    returns without error, every session that was indexed for the user when it started, and
    whose login had returned, no longer exists.  Any number of other calls run before and
    during it, command by command and with lost answers; none names a session before its login
    returned.  Excluded are another [RevokeAll] of the same user under way at the same time,
    which may drop the index before this one reads it, and a lapse of time in which the index
    expires before the session; session keys and index keys are taken to differ. *)
Theorem revoke_all_complete us w0 k turns log w' :
  prints_braces → rtc auth_use (auth_boot us) w0 → aw_calls w0 !! k = None →
  let w := { w0 with aw_calls := <[k := (RqRevokeAll turns user, program st config draws k (RqRevokeAll turns user))]> (aw_calls w0) } in
  watched k w log w' → aw_calls w' !! k = Some (RqRevokeAll turns user, Ret (Ok None)) → alone k w w' → scan_guarantee (aw_redis w) log →
  ∀ id, id ∈ indexed (aw_redis w0) → id ≠ "" → handed_out w0 id → gone (aw_redis w') id.
Proof.
  intros Hbr Hr Hk w Hw Hdone Ha Hscan id Hin Hne Hh.
  assert (auth_use w0 w) as Hs.
  { split; [by apply step_start|]. intros j rq p Hj Hj'. destruct (decide (j = k)) as [->|Hjk]; unfold w in Hj'; simpl in Hj'.
    - rewrite lookup_insert_eq in Hj'. by injection Hj' as <- _.
    - rewrite lookup_insert_ne in Hj' by done. congruence. }
  assert (aw_calls w !! k = Some (RqRevokeAll turns user, program st config draws k (RqRevokeAll turns user))) as Hkw by (unfold w; simpl; by rewrite lookup_insert_eq).
  pose proof (calls_step id Hbr _ _ (calls_reachable id Hbr _ _ Hr) Hs) as HI.
  destruct (watched_run id Hbr k w log w' _ _ Hw HI (handed_stays id _ _ (proj1 Hs) Hh) Ha Hkw) as (p' & Hp' & Hrun).
  rewrite Hdone in Hp'. injection Hp' as <-. specialize (Hrun _ eq_refl). simpl in Hrun.
  apply Run_bind in Hrun as (r & s1 & log1 & log2 & Hrun & Hret & ->). pose proof Hret as Hret'. apply Run_Ret in Hret as [Er Hl2].
  destruct r as [[]|e]; [|done].
  assert (gone s1 id) as Hg.
  { eapply revoke_all_run; [exact Hrun| |done|done]. intros l1 a c ids l2 E. apply (Hscan l1 a c ids (l2 ++ log2)). by rewrite E, <-app_assoc. }
  eapply (run_gone id (Ret (Ok None)) s1 log2); [done|exact Hret'|done].
Qed.
End revocation.

(** ** Two sessions revoked while a third login is under way *)

#[local] Existing Instances demo_json demo_times demo_parse demo_jwt demo_crypto.

(** What call [k] sees when the calls take turns as listed. *)
Definition seen (k j : nat) (w : AuthWorld) : Moment (Q := AuthCmd) (S := Redis) :=
  match aw_calls w !! j with
  | Some (_, Do q c) =>
      let a := answer _ q (aw_redis w) in
      if bool_decide (j = k) then own_moment a.1 q a.2 else env_moment a.1
  | _ => env_moment (aw_redis w)
  end.
Fixpoint observed (k : nat) (js : list nat) (w : AuthWorld) : list (Moment (Q := AuthCmd) (S := Redis)) :=
  match js with [] => [] | j :: js => seen k j w :: observed k js (turn w j) end.
Definition scheduled (js : list nat) (w : AuthWorld) : AuthWorld := foldl turn w js.

(** A turn is a step of a call that has one left, at an unchanged clock. *)
Definition may_turn (j : nat) (w : AuthWorld) : bool :=
  match aw_calls w !! j with Some (_, Do _ _) => (rd_us (aw_redis (turn w j)) =? rd_us (aw_redis w)) | _ => false end.
Fixpoint may_turns (js : list nat) (w : AuthWorld) : bool :=
  match js with [] => true | j :: js => may_turn j w && may_turns js (turn w j) end.

Section schedule.
Context (st : RedisSessionStore) (config : TokenConfig) (draws : nat → Draws) (user : Z).

Lemma turn_Do w j rq X (q : AuthCmd X) c : aw_calls w !! j = Some (rq, Do q c) →
  turn w j = {| aw_redis := (answer X q (aw_redis w)).1; aw_calls := <[j := (rq, c (answer X q (aw_redis w)).2)]> (aw_calls w);
                aw_log := aw_log w ++ entries j (aw_redis w) (deeds X q (answer X q (aw_redis w)).2) |}.
Proof. intros Hj. unfold turn. match goal with |- context [match ?x with _ => _ end] => replace x with (Some (rq, Do q c)) by (symmetry; exact Hj) end. done. Qed.

Lemma turn_use w j rq X (q : AuthCmd X) c : aw_calls w !! j = Some (rq, Do q c) → auth_use st config draws w (turn w j).
Proof.
  intros Hj. rewrite (turn_Do _ _ _ _ _ _ Hj). split; [apply step_done; [done|apply answer_effect]|].
  intros i rq' p Hi Hi'. simpl in Hi'. destruct (decide (i = j)) as [->|]; [congruence|]. rewrite lookup_insert_ne in Hi' by done. congruence.
Qed.

Lemma may_turn_Do j w : may_turn j w = true →
  ∃ rq X (q : AuthCmd X) c, aw_calls w !! j = Some (rq, Do q c) ∧ rd_us (aw_redis (turn w j)) = rd_us (aw_redis w).
Proof.
  unfold may_turn. destruct (aw_calls w !! j) as [[rq [r| |X q c]]|] eqn:Ej; try done. intros E%Z.eqb_eq. exists rq, X, q, c. done.
Qed.

Lemma observed_watched k js w : may_turns js w = true → watched st user config draws k w (observed k js w) (scheduled js w).
Proof.
  revert w. induction js as [|j js IH]; intros w; [constructor|]. simpl. intros [(rq & X & q & c & Ej & Hus)%may_turn_Do Hjs]%andb_true_iff.
  specialize (IH _ Hjs). pose proof (turn_use w j _ _ _ _ Ej) as Hu. pose proof (turn_Do w j _ _ _ _ Ej) as Et.
  assert (seen k j w = if bool_decide (j = k) then own_moment (aw_redis (turn w j)) q (answer X q (aw_redis w)).2 else env_moment (aw_redis (turn w j))) as ->.
  { rewrite Et. unfold seen. match goal with |- context [match ?x with _ => _ end] => replace x with (Some (rq, Do q c)) by (symmetry; exact Ej) end. done. }
  case_bool_decide as Ejk.
  - subst j. eapply watched_own; [exact Ej|exact Hu| |by rewrite Et|exact IH]. left. rewrite Et. apply answer_effect.
  - apply watched_other; [done| |done|exact IH]. rewrite Et. simpl. by rewrite lookup_insert_ne.
Qed.

Lemma scheduled_use js w0 w : rtc (auth_use st config draws) w0 w → may_turns js w = true → rtc (auth_use st config draws) w0 (scheduled js w).
Proof.
  revert w. induction js as [|j js IH]; intros w Hr; [done|]. simpl. intros [(rq & X & q & c & Ej & _)%may_turn_Do Hjs]%andb_true_iff. apply IH; [|done].
  eapply rtc_r; [exact Hr|]. by eapply turn_use.
Qed.

Lemma call_use w k rq : aw_calls w !! k = None → presentable draws w rq → auth_use st config draws w (call st config draws w k rq).
Proof.
  intros Hk Hp. unfold call. rewrite Hk. split; [by apply step_start|]. intros i rq' p Hi Hi'. simpl in Hi'.
  destruct (decide (i = k)) as [->|]; [rewrite lookup_insert_eq in Hi'; by injection Hi' as <- _|]. rewrite lookup_insert_ne in Hi' by done. congruence.
Qed.
End schedule.

Abbreviation demo_call := (call demo_store demo_config demo_draws).
Definition demo_logged : AuthWorld := scheduled [0; 0; 0; 0; 0]%nat (demo_call (auth_boot 0) 0 (RqIssue 7)).
Definition demo_before : AuthWorld := demo_call demo_logged 2 (RqIssue 7).
Definition demo_turns : list nat := [1; 2; 2; 2; 1; 2; 1]%nat.
Definition demo_revoking : AuthWorld := demo_call demo_before 1 (RqRevokeAll 1 7).
Definition demo_revoked : AuthWorld := scheduled demo_turns demo_revoking.

Lemma demo_before_reached : rtc (auth_use demo_store demo_config demo_draws) (auth_boot 0) demo_before.
Proof.
  eapply rtc_r; [|by apply call_use]. apply scheduled_use; [|by vm_compute]. eapply rtc_r; [apply rtc_refl|by apply call_use].
Qed.

Definition demo_log : list (Moment (Q := AuthCmd) (S := Redis)) := observed 1 demo_turns demo_revoking.
Definition demo_id : string := "AAAAAAAAAAAAAAAAAAAAAA".

Lemma demo_alone : alone 7 1 demo_revoking demo_revoked.
Proof.
  intros j turns p Hj Hp. exfalso.
  assert (map_Forall (λ j rq, match rq with RqRevokeAll _ _ => (j =? 1)%nat | _ => true end = true) (requests demo_revoked)) as Hm
    by (apply (bool_decide_unpack _); by vm_compute).
  apply Hj, Nat.eqb_eq, (Hm j (RqRevokeAll turns 7)). unfold requests. by rewrite lookup_fmap, Hp.
Qed.

Definition scans (m : Moment (Q := AuthCmd) (S := Redis)) : bool :=
  match mo_command m with Some (existT X (q, _)) => match q with SSCAN _ _ => true | _ => false end | None => false end.

Lemma demo_scan_complete : scan_guarantee demo_store 7 (aw_redis demo_revoking) demo_log.
Proof.
  intros l1 a c ids l2 E id Hid _. left. destruct l1 as [|m l1].
  - apply (f_equal (λ l, default [] (page_of <$> head l))) in E. vm_compute in E. subst ids.
    assert (indexed demo_store 7 (aw_redis demo_revoking) = {[demo_id]}) as Ei by (apply (bool_decide_unpack _); by vm_compute).
    rewrite Ei in Hid. apply elem_of_singleton in Hid as ->. by left.
  - apply (f_equal (fmap scans)) in E. rewrite fmap_app in E. vm_compute in E. injection E as _ E.
    by destruct l1 as [|? [|? [|? [|? [|? [|? [|]]]]]]].
Qed.

Lemma demo_braces : prints_braces.
Proof. split; intros l; unfold HasPrefix; simpl; by destruct (pos_text _). Qed.

(** Witness: a session is revoked while another login of the user is under way. *)
Lemma revoke_all_complete_witness : demo_id ∈ indexed demo_store 7 (aw_redis demo_before) ∧ gone demo_store (aw_redis demo_revoked) demo_id.
Proof.
  assert (demo_id ∈ indexed demo_store 7 (aw_redis demo_before)) as Hin by (apply (bool_decide_unpack _); by vm_compute).
  split; [exact Hin|].
  assert (∀ id, sessionKey demo_store id ≠ userSessionsKey demo_store 7) as Hapart by done.
  apply (revoke_all_complete demo_store 7 Hapart demo_config demo_draws 0 demo_before 1 1 demo_log demo_revoked demo_braces demo_before_reached);
    [by vm_compute|apply observed_watched; by vm_compute|by vm_compute|exact demo_alone|exact demo_scan_complete|exact Hin|done|].
  intros [|[|[|j]]] E; [eexists _, _; by vm_compute|by vm_compute in E..].
Defined.

(** ** A login during a revocation

    The last command of [RevokeAll] drops the whole index.  A session that was stored and
    indexed between the scan and that command survives, as documented, but it is no longer
    indexed: a later revocation of all sessions of the user, on its own, does not find it
    either, until its next refresh indexes it again. *)

Definition demo_escaped : AuthWorld := scheduled [1; 2; 2; 2; 2; 2; 1; 1]%nat demo_revoking.
Definition demo_again : AuthWorld := scheduled [3; 3]%nat (demo_call demo_escaped 3 (RqRevokeAll 1 7)).

Lemma late_login_escapes : ∃ id c text d,
  aw_calls demo_escaped !! 1%nat = Some (RqRevokeAll 1 7, Ret (Ok None)) ∧ aw_calls demo_escaped !! 2%nat = Some (RqIssue 7, Ret (Ok (Some c))) ∧
  aw_calls demo_again !! 3%nat = Some (RqRevokeAll 1 7, Ret (Ok None)) ∧ find (aw_redis demo_again) (sessionKey demo_store id) = Some (RString text, d).
Proof. exists (default "" (session_id demo_draws 2)). eexists _, _, _. split_and!; by vm_compute. Qed.
