(* ===== verification/LoginProtection.v ===== *)
(** * Login failure counts and temporary locks

    apps/system/internal/loginprotection: the configuration (config.go), the scripts that
    count failures and lock accounts (lock.go), and the cached configuration of a process
    (runtime.go). *)

From S2P Require Import Prelude GoLib GoText Model Redis.

Open Scope string_scope.
Open Scope list_scope.
Open Scope Z_scope.

(** ** Configuration *)

Record LoginSecurityConfig := {
  ls_RateLimitEnabled : bool; ls_RateLimitWindowSeconds : Z; ls_RateLimitMaxRequests : Z;
  ls_FailureLockEnabled : bool; ls_FailureWindowSeconds : Z; ls_FailureThreshold : Z; ls_LockDurationSeconds : Z;
}.

Definition outside (lo hi v : Z) : bool := (v <? lo) || (hi <? v).
Definition ValidateSecurity (cfg : LoginSecurityConfig) : Result unit :=
  if outside 1 3600 (ls_RateLimitWindowSeconds cfg) || outside 1 10000 (ls_RateLimitMaxRequests cfg) ||
     outside 60 86400 (ls_FailureWindowSeconds cfg) || outside 1 100 (ls_FailureThreshold cfg) || outside 60 86400 (ls_LockDurationSeconds cfg)
  then Fail [Text "invalid login protection configuration"] else Ok tt.

(** ** Hashes in Redis *)

Definition redis_hash (r : Redis) (key : string) : Result (gmap string string * option Z) :=
  match find r key with None => Ok (∅, None) | Some (RHash m, d) => Ok (m, d) | Some _ => wrong_type end.
Definition redis_hget (r : Redis) (key field : string) : Result (option string) := result_map (λ h, h.1 !! field) (redis_hash r key).
Definition redis_hset (r : Redis) (key field value : string) : Redis * Result unit :=
  match redis_hash r key with
  | Ok (m, d) => (put r key (RHash (<[field := value]> m)) d, Ok tt)
  | Fail e => (r, Fail e)
  end.
Definition redis_hincrby (r : Redis) (key field : string) (by_ : Z) : Redis * Result Z :=
  match redis_hash r key with
  | Ok (m, d) =>
      match match m !! field with None => Some 0 | Some v => digits_of (bytes v) end with
      | Some n => (put r key (RHash (<[field := FormatInt (n + by_)]> m)) d, Ok (n + by_))
      | None => (r, Fail [Text "ERR hash value is not an integer"])
      end
  | Fail e => (r, Fail e)
  end.

(** ** The scripts *)

(** [return redis.call('HGET', KEYS[1], 'locked') or 0] answers "1" for a locked account. *)
Definition locked_script (r : Redis) (key : string) : Result bool :=
  result_map (λ v, bool_decide (v = Some "1")) (redis_hget r key "locked").

Definition failScript (r : Redis) (key : string) (cfg : LoginSecurityConfig) : Redis * Result Z :=
  match redis_hget r key "locked" with
  | Fail e => (r, Fail e)
  | Ok v =>
      if bool_decide (v = Some "1") then (r, Ok 0)
      else
        match redis_hincrby r key "count" 1 with
        | (r1, Fail e) => (r1, Fail e)
        | (r1, Ok count) =>
            let r2 := if count =? 1 then redis_expire r1 key (ls_FailureWindowSeconds cfg) else r1 in
            if ls_FailureThreshold cfg <=? count then
              match redis_hset r2 key "locked" "1" with
              | (r3, Fail e) => (r3, Fail e)
              | (r3, Ok _) => (redis_expire r3 key (ls_LockDurationSeconds cfg), Ok count)
              end
            else (r2, Ok count)
        end
  end.

Definition clearScript (r : Redis) (key : string) : Redis * Result unit :=
  match redis_hget r key "locked" with
  | Fail e => (r, Fail e)
  | Ok v => if bool_decide (v = Some "1") then (r, Ok tt) else (redis_del r [key], Ok tt)
  end.

(** ** The lock as a state machine *)

Inductive Account := Free | Counting (n until : Z) | LockedUntil (until : Z).

(** Counts and locks end with their deadline. *)
Definition current (now : Z) (a : Account) : Account :=
  match a with
  | Free => Free
  | Counting _ d | LockedUntil d => if d <? now then Free else a
  end.

Definition spec_fail (cfg : LoginSecurityConfig) (now : Z) (a : Account) : Account :=
  let counted n d :=
    if ls_FailureThreshold cfg <=? n then LockedUntil (now + ls_LockDurationSeconds cfg * 1000) else Counting n d in
  match current now a with
  | Free => counted 1 (now + ls_FailureWindowSeconds cfg * 1000)
  | Counting n d => counted (n + 1) d
  | LockedUntil d => LockedUntil d
  end.
Definition spec_clear (now : Z) (a : Account) : Account :=
  match current now a with LockedUntil d => LockedUntil d | _ => Free end.
Definition spec_locked (now : Z) (a : Account) : bool := match current now a with LockedUntil _ => true | _ => false end.

(** The hash of an account. *)
Inductive tracks : option (RedisValue * option Z) → Account → Prop :=
| tracks_free : tracks None Free
| tracks_counting n d : 0 < n → tracks (Some (RHash {["count" := FormatInt n]}, Some d)) (Counting n d)
| tracks_locked n d : 0 < n → tracks (Some (RHash (<["locked" := "1"]> {["count" := FormatInt n]}), Some d)) (LockedUntil d).

(** ** Refinement *)

Lemma put_put r key v d v' d' : put (put r key v d) key v' d' = put r key v' d'.
Proof. unfold put. simpl. by rewrite insert_insert_eq. Qed.


Lemma tracks_current r key a : tracks (find r key) a → current (rd_ms r) a = a.
Proof.
  intros Ht. inversion Ht as [Hf|n d Hn Hf|n d Hn Hf]; subst; [done|..]; symmetry in Hf; apply find_alive in Hf; simpl in Hf; unfold current; by rewrite Hf.
Qed.

Lemma expire_put r key v d seconds : expired r d = false → 0 < seconds →
  redis_expire (put r key v d) key seconds = put r key v (Some (deadline r seconds)).
Proof. intros Hd Hs. unfold redis_expire. rewrite find_put_live, (proj2 (Z.leb_gt _ _)) by done. apply put_put. Qed.

Section refinement.
Context (key : string) (cfg : LoginSecurityConfig) (Hcfg : ValidateSecurity cfg = Ok tt).

Lemma valid_bounds : 0 < ls_FailureWindowSeconds cfg ∧ 0 < ls_LockDurationSeconds cfg ∧ 1 ≤ ls_FailureThreshold cfg.
Proof. unfold ValidateSecurity, outside in Hcfg. destruct (_ || _) eqn:E in Hcfg; [done|]. to_prop. lia. Qed.

Lemma locked_refines r a : tracks (find r key) a → locked_script r key = Ok (spec_locked (rd_ms r) a).
Proof.
  intros Ht. unfold spec_locked. rewrite (tracks_current _ _ _ Ht). unfold locked_script, redis_hget, redis_hash.
  by inversion Ht as [Hf|n d Hn Hf|n d Hn Hf]; subst.
Qed.

(** Counting one failure on a hash without lock. *)
Lemma count_refines r m d n : redis_hash r key = Ok (m, d) → m = ∅ ∧ d = None ∧ n = 0 ∨ (0 < n ∧ m = {["count" := FormatInt n]} ∧ ∃ t, d = Some t ∧ expired r d = false) →
  ∃ r' d', failScript r key cfg = (r', Ok (n + 1)) ∧ rd_us r' = rd_us r ∧
    (d' = if n =? 0 then deadline r (ls_FailureWindowSeconds cfg) else default 0 d) ∧
    tracks (find r' key) (if ls_FailureThreshold cfg <=? n + 1 then LockedUntil (deadline r (ls_LockDurationSeconds cfg)) else Counting (n + 1) d').
Proof.
  intros Hh Hc. destruct valid_bounds as (Hw & Hl & Ht).
  assert (m !! "locked" = None ∧ match m !! "count" with None => Some 0 | Some v => digits_of (bytes v) end = Some n ∧
          <["count" := FormatInt (n + 1)]> m = {["count" := FormatInt (n + 1)]} ∧ expired r d = false ∧ 0 ≤ n) as (Hlk & Hct & Hins & Hx & Hn).
  { destruct Hc as [(-> & -> & ->)|(Hn & -> & t & -> & Hx)]; [by split_and!|]. split_and!; [done| |by rewrite insert_singleton|done|lia].
    rewrite lookup_singleton_eq. apply digits_FormatInt. lia. }
  set (d2 := if n =? 0 then Some (deadline r (ls_FailureWindowSeconds cfg)) else d).
  assert (expired r d2 = false) as Hx2 by (subst d2; destruct (n =? 0); [by apply fresh_deadline|done]).
  assert ((if n + 1 =? 1 then redis_expire (put r key (RHash {["count" := FormatInt (n + 1)]}) d) key (ls_FailureWindowSeconds cfg)
           else put r key (RHash {["count" := FormatInt (n + 1)]}) d) = put r key (RHash {["count" := FormatInt (n + 1)]}) d2) as Hr2.
  { subst d2. destruct (Z.eqb_spec n 0) as [->|Hn0]; simpl; [by apply expire_put|]. by rewrite (proj2 (Z.eqb_neq _ _)) by lia. }
  assert (d2 = Some (if n =? 0 then deadline r (ls_FailureWindowSeconds cfg) else default 0 d)) as Ed2.
  { subst d2. destruct (Z.eqb_spec n 0) as [|Hn0]; [done|]. destruct Hc as [(_ & _ & ?)|(_ & _ & t & -> & _)]; [done|done]. }
  unfold failScript, redis_hget. rewrite Hh. simpl. rewrite Hlk. simpl. unfold redis_hincrby. rewrite Hh, Hct, Hins, Hr2.
  destruct (ls_FailureThreshold cfg <=? n + 1).
  - unfold redis_hset, redis_hash. rewrite find_put_live by done. rewrite put_put, expire_put by done.
    eexists _, _. split_and!; [done..|]. rewrite find_put_live by (by apply fresh_deadline). constructor. lia.
  - eexists _, _. split_and!; [done..|]. rewrite find_put_live by done. rewrite Ed2. constructor. lia.
Qed.

Lemma fail_refines r a : tracks (find r key) a → ∃ r' count, failScript r key cfg = (r', Ok count) ∧ rd_us r' = rd_us r ∧
  tracks (find r' key) (spec_fail cfg (rd_ms r) a).
Proof.
  intros Ht. unfold spec_fail. rewrite (tracks_current _ _ _ Ht). pose proof Ht as Ht0. inversion Ht as [Hf|n d Hn Hf|n d Hn Hf]; subst; symmetry in Hf.
  - destruct (count_refines r ∅ None 0) as (r' & d' & Hr & Hus & -> & Htr); [unfold redis_hash; by rewrite Hf|by left|]. by exists r', 1.
  - destruct (count_refines r {["count" := FormatInt n]} (Some d) n) as (r' & d' & Hr & Hus & -> & Htr).
    { unfold redis_hash. by rewrite Hf. }
    { right. split_and!; [done..|]. exists d. split; [done|]. by eapply find_alive. }
    rewrite (proj2 (Z.eqb_neq _ _)) in Htr by lia. by exists r', (n + 1).
  - exists r, 0. split_and!; [|done|rewrite Hf; by constructor]. unfold failScript, redis_hget, redis_hash. by rewrite Hf.
Qed.

Lemma clear_refines r a : tracks (find r key) a → ∃ r', clearScript r key = (r', Ok tt) ∧ rd_us r' = rd_us r ∧ tracks (find r' key) (spec_clear (rd_ms r) a).
Proof.
  intros Ht. unfold spec_clear. rewrite (tracks_current _ _ _ Ht). unfold clearScript, redis_hget, redis_hash.
  assert (find (redis_del r [key]) key = None) as Hd by (unfold find, redis_del; simpl; by rewrite lookup_delete_eq).
  inversion Ht as [Hf|n d Hn Hf|n d Hn Hf]; subst; simpl.
  - eexists. split_and!; [done..|]. rewrite Hd. constructor.
  - eexists. split_and!; [done..|]. rewrite Hd. constructor.
  - eexists. split_and!; [done..|]. rewrite <-Hf. by constructor.
Qed.
End refinement.

(** ** Runs *)

(** What login attempts do to one account, each some microseconds after the one before. *)
Inductive LockOp := OpFail (cfg : LoginSecurityConfig) | OpClear | OpLocked.
Definition valid_op (o : Z * LockOp) : Prop := 0 ≤ o.1 ∧ match o.2 with OpFail cfg => ValidateSecurity cfg = Ok tt | _ => True end.

Definition later (us : Z) (r : Redis) : Redis := { r with rd_us := rd_us r + us }.
Definition script_step (key : string) (r : Redis) (o : Z * LockOp) : Redis * Result bool :=
  let r := later o.1 r in
  match o.2 with
  | OpFail cfg => let x := failScript r key cfg in (x.1, result_map (λ _, false) x.2)
  | OpClear => let x := clearScript r key in (x.1, result_map (λ _, false) x.2)
  | OpLocked => (r, locked_script r key)
  end.
Fixpoint script_run (key : string) (r : Redis) (ops : list (Z * LockOp)) : Redis * list (Result bool) :=
  match ops with
  | [] => (r, [])
  | o :: ops => let x := script_step key r o in let y := script_run key x.1 ops in (y.1, x.2 :: y.2)
  end.

(** The same on the state machine: [us] is the clock. *)
Definition spec_step (us : Z) (a : Account) (o : Z * LockOp) : Account * bool :=
  let now := (us + o.1) / 1000 in
  match o.2 with
  | OpFail cfg => (spec_fail cfg now a, false)
  | OpClear => (spec_clear now a, false)
  | OpLocked => (current now a, spec_locked now a)
  end.
Fixpoint spec_run (us : Z) (a : Account) (ops : list (Z * LockOp)) : Account * list bool :=
  match ops with
  | [] => (a, [])
  | o :: ops => let x := spec_step us a o in let y := spec_run (us + o.1) x.1 ops in (y.1, x.2 :: y.2)
  end.

Lemma tracks_later r key a us : 0 ≤ us → tracks (find r key) a → tracks (find (later us r) key) (current (rd_ms (later us r)) a).
Proof.
  intros Hu Ht. assert (rd_ms r ≤ rd_ms (later us r)) as Hms by (unfold rd_ms, later; simpl; apply Z.div_le_mono; lia).
  assert (∀ v d, find r key = Some (v, Some d) → find (later us r) key = if d <? rd_ms (later us r) then None else Some (v, Some d)) as Hl.
  { intros v d. unfold find. simpl. destruct (rd_keys r !! key) as [[v' d']|]; [|done]. destruct (expired r d'); [done|]. by intros [= -> ->]. }
  inversion Ht as [Hf|n d Hn Hf|n d Hn Hf]; subst; symmetry in Hf.
  - assert (find (later us r) key = None) as ->; [|constructor]. unfold find in *. simpl. destruct (rd_keys r !! key) as [[v' d']|]; [|done].
    destruct (expired r d') eqn:Ex; [|done]. assert (expired (later us r) d' = true) as Ex'; [|by rewrite Ex'].
    unfold expired in *. destruct d' as [d'|]; [|done]. to_prop. apply Z.ltb_lt. lia.
  - rewrite (Hl _ _ Hf). simpl. destruct (d <? _); by constructor.
  - rewrite (Hl _ _ Hf). simpl. destruct (d <? _); by constructor.
Qed.

Lemma current_idem now a : current now (current now a) = current now a.
Proof. destruct a as [|n d|d]; simpl; [done|..]; destruct (d <? now) eqn:E; simpl; by rewrite ?E. Qed.

Lemma script_step_refines key r a o : valid_op o → tracks (find r key) a →
  ∃ r', script_step key r o = (r', Ok (spec_step (rd_us r) a o).2) ∧ rd_us r' = rd_us r + o.1 ∧ tracks (find r' key) (spec_step (rd_us r) a o).1.
Proof.
  intros [Hu Hv] Ht. pose proof (tracks_later r key a o.1 Hu Ht) as Hl. unfold script_step, spec_step.
  change ((rd_us r + o.1) / 1000) with (rd_ms (later o.1 r)). set (r1 := later o.1 r) in *. destruct o as [us [cfg| |]]; simpl in *.
  - destruct (fail_refines key cfg Hv r1 _ Hl) as (r' & count & -> & Hus & Htr). exists r'. split_and!; [done..|].
    unfold spec_fail in *. by rewrite current_idem in Htr.
  - destruct (clear_refines key r1 _ Hl) as (r' & -> & Hus & Htr). exists r'. split_and!; [done..|]. unfold spec_clear in *. by rewrite current_idem in Htr.
  - exists r1. split_and!; [|done|done]. rewrite (locked_refines key _ _ Hl). unfold spec_locked. by rewrite current_idem.
Qed.

Lemma script_run_refines key r a ops : Forall valid_op ops → tracks (find r key) a →
  (script_run key r ops).2 = Ok <$> (spec_run (rd_us r) a ops).2.
Proof.
  intros Hv. revert r a. induction Hv as [|o ops Ho _ IH]; intros r a Ht; [done|]. simpl.
  destruct (script_step_refines key r a o Ho Ht) as (r' & -> & Hus & Htr). simpl. f_equal. by rewrite (IH r' _ Htr), Hus.
Qed.

(** The time after some operations. *)
Definition elapsed (us : Z) (ops : list (Z * LockOp)) : Z := foldl (λ t o, t + o.1) us ops.

Lemma elapsed_mono us ops : Forall valid_op ops → us ≤ elapsed us ops.
Proof. intros Hv. revert us. induction Hv as [|o ops [Ho _] _ IH]; intros us; simpl; [done|]. specialize (IH (us + o.1)). lia. Qed.

Lemma spec_run_app us a ops1 ops2 : spec_run us a (ops1 ++ ops2) =
  let x := spec_run us a ops1 in let y := spec_run (elapsed us ops1) x.1 ops2 in (y.1, x.2 ++ y.2).
Proof. revert us a. induction ops1 as [|o ops1 IH]; intros us a; simpl; [by destruct (spec_run us a ops2)|]. by rewrite IH. Qed.

(** A lock stays as it is until its deadline. *)
Lemma lock_holds us d ops : Forall valid_op ops → elapsed us ops / 1000 ≤ d →
  (spec_run us (LockedUntil d) ops).1 = LockedUntil d ∧
  ∀ i o, ops !! i = Some (o, OpLocked) → (spec_run us (LockedUntil d) ops).2 !! i = Some true.
Proof.
  intros Hv. revert us. induction Hv as [|[u op] ops Ho Hops IH]; intros us Hd; simpl in Hd; [done|]. cbn [spec_run fst snd].
  assert ((us + u) / 1000 ≤ d) as Hnow by (pose proof (elapsed_mono (us + u) ops Hops); etrans; [by apply Z.div_le_mono|done]).
  assert (current ((us + u) / 1000) (LockedUntil d) = LockedUntil d) as Hc by (simpl; by rewrite (proj2 (Z.ltb_ge _ _))).
  assert ((spec_step us (LockedUntil d) (u, op)).1 = LockedUntil d) as ->.
  { unfold spec_step, spec_fail, spec_clear. cbn [fst snd]. cbv zeta. by destruct op; cbn [fst snd]; rewrite Hc. }
  destruct (IH _ Hd) as [H1 H2]. split; [done|]. intros [|i] v Hi; [|by eapply H2].
  injection Hi as <- ->. simpl. unfold spec_locked. by rewrite Hc.
Qed.

(** Failures within one window add up. *)
Definition failures (cfg : LoginSecurityConfig) (gaps : list Z) : list (Z * LockOp) := (λ us, (us, OpFail cfg)) <$> gaps.

Lemma counting_adds cfg us n d gaps : ValidateSecurity cfg = Ok tt → Forall (Z.le 0) gaps → 0 < n →
  n + Z.of_nat (length gaps) = ls_FailureThreshold cfg → (0 < length gaps)%nat → elapsed us (failures cfg gaps) / 1000 ≤ d →
  (spec_run us (Counting n d) (failures cfg gaps)).1 = LockedUntil (elapsed us (failures cfg gaps) / 1000 + ls_LockDurationSeconds cfg * 1000).
Proof.
  intros Hv Hg. revert us n. induction Hg as [|u gaps Hu Hg IH]; intros us n Hn Hlen Hpos Hd; simpl in *; [lia|].
  assert (Forall valid_op (failures cfg gaps)) as Hvs by (apply Forall_fmap; eapply Forall_impl; [exact Hg|]; by intros).
  pose proof (elapsed_mono (us + u) _ Hvs) as Hm. assert ((us + u) / 1000 ≤ d) as Hnow by (etrans; [apply Z.div_le_mono; [lia|exact Hm]|done]).
  unfold spec_step, spec_fail. simpl fst; simpl snd. cbv zeta. simpl current. rewrite (proj2 (Z.ltb_ge _ _)) by done.
  destruct gaps as [|u2 gaps].
  - rewrite (proj2 (Z.leb_le _ _)) by (simpl in Hlen; lia). done.
  - rewrite (proj2 (Z.leb_gt _ _)) by (simpl in Hlen; lia). apply IH; [lia|simpl in *; lia|simpl; lia|done].
Qed.

(** C21: Temporary locks are what the configuration promises.  On any sequence of recorded
    failures, clears and checks of an account, however far apart, the Redis scripts answer
    as the lock state machine does.  A lock holds until its deadline, whatever failures and
    clears happen meanwhile: it is neither shortened nor extended, and every check reports
    it.  As many failures as the threshold, without a clear and within the window of the
    first, lock the account for the configured duration. *)
Theorem login_lock_protocol key r ops :
  find r key = None → Forall valid_op ops →
  (script_run key r ops).2 = Ok <$> (spec_run (rd_us r) Free ops).2 ∧
  (∀ ops1 ops2 d, ops = ops1 ++ ops2 → (spec_run (rd_us r) Free ops1).1 = LockedUntil d → elapsed (rd_us r) ops / 1000 ≤ d →
     (spec_run (rd_us r) Free ops).1 = LockedUntil d ∧
     ∀ i us, ops2 !! i = Some (us, OpLocked) → (script_run key r ops).2 !! (length ops1 + i)%nat = Some (Ok true)) ∧
  (∀ ops1 us0 cfg gaps, ops = ops1 ++ failures cfg (us0 :: gaps) → current (elapsed (rd_us r) ops1 / 1000) (spec_run (rd_us r) Free ops1).1 = Free →
     Z.of_nat (length (us0 :: gaps)) = ls_FailureThreshold cfg →
     elapsed (rd_us r) ops / 1000 ≤ (elapsed (rd_us r) ops1 + us0) / 1000 + ls_FailureWindowSeconds cfg * 1000 →
     (spec_run (rd_us r) Free ops).1 = LockedUntil (elapsed (rd_us r) ops / 1000 + ls_LockDurationSeconds cfg * 1000)).
Proof.
  intros Hf Hv. assert ((script_run key r ops).2 = Ok <$> (spec_run (rd_us r) Free ops).2) as Href.
  { apply script_run_refines; [done|]. rewrite Hf. constructor. }
  assert (∀ us a l, length (spec_run us a l).2 = length l) as Hlen.
  { intros us a l. revert us a. induction l as [|o l IH]; intros us a; simpl; [done|]. by rewrite IH. }
  assert (∀ us l k, elapsed us (l ++ k) = elapsed (elapsed us l) k) as Hel by (intros; unfold elapsed; apply foldl_app).
  split_and!; [done|..].
  - intros ops1 ops2 d -> Hl Hd. apply Forall_app in Hv as [Hv1 Hv2]. rewrite Hel in Hd.
    destruct (lock_holds (elapsed (rd_us r) ops1) d ops2 Hv2 Hd) as [H1 H2]. rewrite Href, spec_run_app. simpl. rewrite Hl. split; [done|].
    intros i us Hi. rewrite list_lookup_fmap, lookup_app_r by (rewrite Hlen; lia). rewrite Hlen.
    replace (length ops1 + i - length ops1)%nat with i by lia. by rewrite (H2 i us Hi).
  - intros ops1 us0 cfg gaps -> Hfree Hth Hwin. apply Forall_app in Hv as [_ Hv2]. rewrite Hel in *. rewrite spec_run_app. simpl in *.
    set (t := elapsed (rd_us r) ops1) in *. set (a := (spec_run (rd_us r) Free ops1).1) in *.
    apply Forall_cons in Hv2 as [[Hu0 Hcfg] Hvs]. simpl in Hcfg, Hu0.
    assert (current ((t + us0) / 1000) a = Free) as Hcur.
    { assert (t / 1000 ≤ (t + us0) / 1000) as Hle by (apply Z.div_le_mono; lia). destruct a as [|n d|d]; simpl in *; [done|..];
        destruct (Z.ltb_spec d (t / 1000)); try done; by rewrite (proj2 (Z.ltb_lt _ _)) by lia. }
    unfold spec_step, spec_fail. simpl fst; simpl snd. cbv zeta. rewrite Hcur.
    destruct (valid_bounds cfg Hcfg) as (_ & _ & Hth1). destruct gaps as [|u gaps].
    + rewrite (proj2 (Z.leb_le _ _)) by (simpl in Hth; lia). done.
    + rewrite (proj2 (Z.leb_gt _ _)) by (simpl in Hth; lia). apply counting_adds; [done| |lia|simpl in *; lia|simpl; lia|done].
      rewrite Forall_forall in Hvs. apply Forall_forall. intros x Hx. apply (Hvs (x, OpFail cfg)). apply list_elem_of_fmap. by exists x.
Qed.

Definition demo_security : LoginSecurityConfig := {|
  ls_RateLimitEnabled := false; ls_RateLimitWindowSeconds := 1; ls_RateLimitMaxRequests := 1; ls_FailureLockEnabled := true;
  ls_FailureWindowSeconds := 60; ls_FailureThreshold := 2; ls_LockDurationSeconds := 60 |}.
Definition demo_attempts : list (Z * LockOp) :=
  [(0, OpFail demo_security); (1000000, OpFail demo_security); (1000000, OpFail demo_security); (0, OpClear); (59000000, OpLocked)].

(** Witness: the second failure locks the account for a minute from then on. *)
Lemma login_lock_protocol_witness :
  (script_run "k" {| rd_keys := ∅; rd_us := 0 |} demo_attempts).2 = [Ok false; Ok false; Ok false; Ok false; Ok true] ∧
  (spec_run 0 Free demo_attempts).1 = LockedUntil 61000.
Proof.
  destruct (login_lock_protocol "k" {| rd_keys := ∅; rd_us := 0 |} demo_attempts) as (Href & Hlock & _); [done|by repeat constructor; try lia|].
  split; [rewrite Href; by vm_compute|].
  destruct (Hlock (firstn 2 demo_attempts) (skipn 2 demo_attempts) 61000) as [Hl _]; [done|by vm_compute|by vm_compute|exact Hl].
Defined.
