(* ===== verification/Notifier.v ===== *)
(** * Notifying executors of a stop decision

    apps/job/rpc/internal/execution/notification.go: the bounded notifier that enumerates
    the saved executor addresses of stopped Instances and sends each of them a
    cancellation.  A [*notificationEntry] is an index into the heap [nt_heap]; each
    critical section under the notifier's mutex is one operation; the reader, the fixed
    senders, the deadline housekeeping, the callers, the clock, the contexts and the Job
    database are interleaved by [step].  The database is the one of Model.v: the reader's
    query is [TaskRepo.ListCancelTargets] itself, and everybody else changes the tables
    as the protocol of Protocol.v allows. *)

From S2P Require Import Cancellation.
From S2P Require Import Prelude GoLib Tx Model TaskRepo InstanceRepo JobRepo Logic Protocol HintSpec.

Open Scope string_scope.
Open Scope list_scope.
Open Scope Z_scope.

Record Notification := { no_InstanceID : Z; no_ExecutorGroupID : Z; no_Reason : string }.
#[global] Instance Notification_eq_dec : EqDecision Notification.
Proof. solve_decision. Defined.

Record NotificationConfig := {
  nc_InstanceCapacity : Z; nc_PageSize : Z; nc_TargetCapacity : Z; nc_Concurrency : Z;
  nc_QueryTimeout : Duration; nc_InstanceTimeout : Duration;
}.

(** [ne_done]: the entry's context is done.  [ne_position]: the entry has an element in
    the list of Instances to enumerate. *)
Record notificationEntry := {
  ne_notification : Notification; ne_done : bool; ne_deadline : Time; ne_cursor : string;
  ne_position : bool; ne_reading : bool; ne_enumerated : bool; ne_expired : bool; ne_outstanding : Z;
}.

(** A target: the entry it belongs to and the address. *)
Abbreviation Target := (nat * string)%type.

(** Where the reader is in the body of [read]. *)
Inductive Reader :=
| RIdle
| RQuerying (p : nat)
| ROffering (p : nat) (rest : list string)
| RFinishing (p : nat) (complete : bool)
| RExited.

(** [nt_canceled]: [runCtx] is done.  [nt_drainCtx]: the installed drain context, by its
    deadline if it has one.  A busy sender holds its target, and whether it has called
    [Cancel] for it. *)
Record Notifier := {
  nt_config : NotificationConfig;
  nt_started : bool; nt_stopping : bool; nt_completed : bool; nt_fullLogged : bool;
  nt_canceled : bool; nt_drainCtx : option (option Time); nt_drainErr : option Error;
  nt_heap : list notificationEntry; nt_entries : gmap Z nat;
  nt_enumerating : list nat; nt_targets : list Target; nt_targetCount : Z;
  nt_reader : Reader; nt_senders : list (Worker (Target * bool)); nt_expirer : bool;
}.

Definition NewNotifier (config : NotificationConfig) : Result Notifier :=
  if (nc_InstanceCapacity config <=? 0) || (nc_PageSize config <? 1) || (32 <? nc_PageSize config) ||
     (nc_TargetCapacity config <=? 0) || (nc_Concurrency config <=? 0) || (nc_QueryTimeout config <=? 0) ||
     (nc_InstanceTimeout config <=? 0)
  then Fail [Text "invalid cancellation notification settings"]
  else Ok {| nt_config := config; nt_started := false; nt_stopping := false; nt_completed := false; nt_fullLogged := false;
             nt_canceled := false; nt_drainCtx := None; nt_drainErr := None; nt_heap := []; nt_entries := ∅;
             nt_enumerating := []; nt_targets := []; nt_targetCount := 0;
             nt_reader := RExited; nt_senders := []; nt_expirer := false |}.

(** [nt_expirer]: the housekeeping goroutine runs. *)
Definition Start (n : Notifier) : Result Notifier :=
  if nt_started n || nt_stopping n then Fail [Text "cancellation notifier has already started or stopped"]
  else Ok { n with nt_started := true; nt_reader := RIdle; nt_expirer := true;
                   nt_senders := replicate (Z.to_nat (nc_Concurrency (nt_config n))) Idle }.

Definition stop_notice (reason : string) : bool :=
  bool_decide (reason = EndReasonManualStop) || bool_decide (reason = EndReasonInstanceTimeout).

Definition admitted_entry (note : Notification) (deadline : Time) : notificationEntry :=
  {| ne_notification := note; ne_done := false; ne_deadline := deadline; ne_cursor := ""; ne_position := true;
     ne_reading := false; ne_enumerated := false; ne_expired := false; ne_outstanding := 0 |}.

Definition Hint (now : Time) (n : Notifier) (note : Notification) : Notifier * bool :=
  if (no_InstanceID note <=? 0) || (no_ExecutorGroupID note <=? 0) || negb (stop_notice (no_Reason note)) ||
     negb (nt_started n) || nt_stopping n
  then (n, false)
  else match nt_entries n !! no_InstanceID note with
  | Some p => (n, bool_decide (ne_notification <$> nt_heap n !! p = Some note))
  | None =>
      if Z.of_nat (size (nt_entries n)) =? nc_InstanceCapacity (nt_config n) then ({ n with nt_fullLogged := true }, false)
      else
        let p := length (nt_heap n) in
        let entry := admitted_entry note (now + nc_InstanceTimeout (nt_config n)) in
        ({ n with nt_heap := nt_heap n ++ [entry]; nt_entries := <[no_InstanceID note := p]> (nt_entries n);
                  nt_enumerating := nt_enumerating n ++ [p] }, true)
  end.

Definition Stop (n : Notifier) : Notifier :=
  if nt_stopping n then n
  else
    let n := { n with nt_stopping := true } in
    if negb (nt_started n) then { n with nt_completed := true; nt_canceled := true } else n.

(** [Drain] up to its wait: the answer of a completed notifier, or the first caller's
    context, with its deadline and done already or not, becomes the shared budget. *)
Definition Drain (n : Notifier) (deadline : option Time) (ctxDone : bool) : Notifier * option (option Error) :=
  let n := Stop n in
  if nt_completed n then (n, Some (nt_drainErr n))
  else match nt_drainCtx n with
  | Some _ => (n, None)
  | None => ({ n with nt_drainCtx := Some deadline; nt_canceled := nt_canceled n || ctxDone }, None)
  end.

(** [Drain] after its wait. *)
Definition Drain_return (n : Notifier) : option (option Error) := if nt_completed n then Some (nt_drainErr n) else None.

(** The shared budget expired: [AfterFunc] or the first caller cancels [runCtx]. *)
Definition cancelRun (n : Notifier) : Notifier := { n with nt_canceled := true }.

(** ** Entries *)

Definition set_entry (p : nat) (f : notificationEntry → notificationEntry) (n : Notifier) : Notifier :=
  { n with nt_heap := alter f p (nt_heap n) }.

(** [entry.ctx.Err() != nil || !time.Now().Before(entry.deadline)]. *)
Definition entry_over (now : Time) (e : notificationEntry) : bool := ne_done e || negb (before now (ne_deadline e)).

Definition releaseLocked (n : Notifier) (p : nat) : Notifier :=
  match nt_heap n !! p with
  | None => n
  | Some e =>
      if negb (ne_enumerated e) || ne_reading e || negb (ne_outstanding e =? 0) then n
      else { set_entry p (λ e, { e with ne_done := true }) n with
             nt_entries := delete (no_InstanceID (ne_notification e)) (nt_entries n); nt_fullLogged := false }
  end.

(** [n.runCtx.Err() != nil || n.stopping && len(n.entries) == 0]. *)
Definition no_more_work (n : Notifier) : bool := nt_canceled n || (nt_stopping n && bool_decide (nt_entries n = ∅)).

(** ** The reader *)

Inductive Taken (A : Type) := TakeExit | TakeOne (a : A) | TakeWait.
Arguments TakeExit {A}.
Arguments TakeOne {A} a.
Arguments TakeWait {A}.

Definition takeEnumeration (n : Notifier) : Notifier * Taken nat :=
  if no_more_work n then (n, TakeExit)
  else if nt_targetCount n <? nc_TargetCapacity (nt_config n) then
    match nt_enumerating n with
    | p :: rest => (set_entry p (λ e, { e with ne_position := false; ne_reading := true }) { n with nt_enumerating := rest }, TakeOne p)
    | [] => (n, TakeWait)
    end
  else (n, TakeWait).

(** The body of [read] between the query's return and the first offer. *)
Definition read_answer (n : Notifier) (p : nat) (answer : Result (list string)) : Notifier :=
  { n with nt_reader :=
      match answer with
      | Fail _ => RFinishing p true
      | Ok addresses =>
          if nc_PageSize (nt_config n) <? Z.of_nat (length addresses) then RFinishing p true
          else match addresses with [] => RFinishing p true | _ => ROffering p addresses end
      end }.

(** One pass of the loop of [offerTarget]: [None] to wait for a change. *)
Definition offerTarget (now : Time) (n : Notifier) (p : nat) (address : string) : Notifier * option bool :=
  match nt_heap n !! p with
  | None => (n, None)
  | Some e =>
      if entry_over now e then (n, Some false)
      else if nt_targetCount n <? nc_TargetCapacity (nt_config n) then
        (set_entry p (λ e, { e with ne_outstanding := ne_outstanding e + 1; ne_cursor := address })
           { n with nt_targets := nt_targets n ++ [(p, address)]; nt_targetCount := nt_targetCount n + 1 }, Some true)
      else (n, None)
  end.

(** One round of the loop over the page: the address offered, if it was. *)
Definition read_next (now : Time) (n : Notifier) (p : nat) (rest : list string) : Notifier * option string :=
  match rest with
  | [] => ({ n with nt_reader := RFinishing p false }, None)
  | address :: rest =>
      if bool_decide (address = "") then ({ n with nt_reader := RFinishing p true }, None)
      else match offerTarget now n p address with
      | (n, None) => (n, None)
      | (n, Some false) => ({ n with nt_reader := RFinishing p true }, None)
      | (n, Some true) => ({ n with nt_reader := ROffering p rest }, Some address)
      end
  end.

Definition finishEnumeration (now : Time) (n : Notifier) (p : nat) (complete : bool) : Notifier :=
  match nt_heap n !! p with
  | None => n
  | Some e =>
      let enumerated := ne_enumerated e || complete || entry_over now e in
      let n := set_entry p (λ e, { e with ne_reading := false; ne_enumerated := enumerated; ne_position := ne_position e || negb enumerated }) n in
      let n := if enumerated then n else { n with nt_enumerating := nt_enumerating n ++ [p] } in
      releaseLocked n p
  end.

(** ** The senders *)

Definition takeTarget (n : Notifier) : Notifier * Taken Target :=
  if no_more_work n then (n, TakeExit)
  else match nt_targets n with
  | t :: rest => ({ n with nt_targets := rest }, TakeOne t)
  | [] => (n, TakeWait)
  end.

(** The end of a round of [send]. *)
Definition send_done (n : Notifier) (p : nat) : Notifier :=
  releaseLocked (set_entry p (λ e, { e with ne_outstanding := ne_outstanding e - 1 }) { n with nt_targetCount := nt_targetCount n - 1 }) p.

(** What [deliver] calls [Cancel] with, when its context is not done yet. *)
Definition deliver_target (e : notificationEntry) (address : string) : CancelTarget :=
  let decision := ne_notification e in
  {| ct_InstanceID := no_InstanceID decision; ct_ExecutorGroupID := no_ExecutorGroupID decision; ct_Address := address; ct_Reason := no_Reason decision |}.

(** ** Housekeeping *)

Definition expire_entry (now : Time) (n : Notifier) (p : nat) : Notifier :=
  match nt_heap n !! p with
  | None => n
  | Some e =>
      if entry_over now e then
        let n := set_entry p (λ e, { e with ne_expired := true; ne_enumerated := true; ne_position := false }) n in
        if ne_position e then { n with nt_enumerating := filter (λ q, q ≠ p) (nt_enumerating n) } else n
      else n
  end.

Definition target_expired (n : Notifier) (t : Target) : bool :=
  match nt_heap n !! t.1 with Some e => ne_expired e | None => false end.

(** The targets a pass takes off the list, and the list without them. *)
Definition expired_targets (n : Notifier) : list Target := filter (λ t, target_expired n t = true) (nt_targets n).

Definition drop_targets (n : Notifier) : Notifier :=
  let gone := expired_targets n in
  { n with nt_targets := filter (λ t, target_expired n t = false) (nt_targets n);
           nt_targetCount := nt_targetCount n - Z.of_nat (length gone);
           nt_heap := foldr (λ t, alter (λ e, { e with ne_outstanding := ne_outstanding e - 1 }) t.1) (nt_heap n) gone }.

(** The retained entries, as a loop over the map visits them. *)
Definition retained (n : Notifier) : list nat := (map_to_list (nt_entries n)).*2.

(** The three loops of [expire] under the mutex, and whether the goroutine returns. *)
Definition expire_mark (now : Time) (n : Notifier) : Notifier := foldl (expire_entry now) n (retained n).
Definition release_all (n : Notifier) : Notifier := foldl releaseLocked n (retained n).
Definition expire (now : Time) (n : Notifier) : Notifier :=
  let n := release_all (drop_targets (expire_mark now n)) in
  { n with nt_expirer := negb (no_more_work n) }.

(** [drainDone] is the error of an expired drain context. *)
Definition finish (n : Notifier) (drainDone : option Error) : Notifier :=
  { n with nt_drainErr := (if nt_drainCtx n is Some _ then drainDone else nt_drainErr n);
           nt_heap := foldr (alter (λ e, { e with ne_done := true })) (nt_heap n) (retained n);
           nt_entries := ∅; nt_enumerating := []; nt_targets := []; nt_targetCount := 0;
           nt_canceled := true; nt_completed := true }.

(** ** Interleavings *)

Section world.
Context `{PgLib}.

(** Addresses saved for an Instance. *)
Definition saved (id : Z) (d : DB) : list string := addresses_after "" id d.

(** The notifier, the tables and the clock; and what was done so far: the addresses saved
    when each entry was admitted, the targets offered, the targets [Cancel] was called
    for, the targets given up, and the entries whose pass ended with an empty page or
    with a failed query. *)
Record World := {
  nw_n : Notifier; nw_db : DB; nw_now : Time;
  nw_saved : list (list string); nw_offered : list Target; nw_called : list Target; nw_lost : list Target;
  nw_ended : list nat; nw_failed : list nat;
}.

(** The stop decision is committed: what a caller must have confirmed before [Hint]. *)
Definition decided (d : DB) (note : Notification) : Prop :=
  ∃ i, instances d !! no_InstanceID note = Some i ∧ authorizing (i_status i) = false ∧
    i_executor_group_id i = no_ExecutorGroupID note ∧ i_end_reason i = Some (no_Reason note).

(** The time given to an entry's operations is over. *)
Definition budget_over (now : Time) (n : Notifier) (e : notificationEntry) : Prop :=
  nt_canceled n = true ∨ ne_deadline e ≤ now ∨ ∃ t, nt_drainCtx n = Some (Some t) ∧ t ≤ now.

Definition set_sender (k : nat) (w : Worker (Target * bool)) (n : Notifier) : Notifier := { n with nt_senders := <[k := w]> (nt_senders n) }.
Definition set_reader (r : Reader) (n : Notifier) : Notifier := { n with nt_reader := r }.
Definition reader_exited (n : Notifier) : bool := match nt_reader n with RExited => true | _ => false end.

Inductive step : World → World → Prop :=
| step_start w n' : Start (nw_n w) = Ok n' → step w { w with nw_n := n' }
| step_hint w note n' b :
    decided (nw_db w) note → Hint (nw_now w) (nw_n w) note = (n', b) →
    step w { w with nw_n := n';
                    nw_saved := nw_saved w ++ (if (length (nt_heap (nw_n w)) <? length (nt_heap n'))%nat
                                               then [saved (no_InstanceID note) (nw_db w)] else []) }
| step_stop w : step w { w with nw_n := Stop (nw_n w) }
| step_drain w deadline done n' r :
    Drain (nw_n w) deadline done = (n', r) → step w { w with nw_n := n' }
| step_cancel w : is_Some (nt_drainCtx (nw_n w)) → step w { w with nw_n := cancelRun (nw_n w) }
| step_context w p e :
    nt_heap (nw_n w) !! p = Some e → nt_canceled (nw_n w) = true ∨ ne_deadline e ≤ nw_now w →
    step w { w with nw_n := set_entry p (λ e, { e with ne_done := true }) (nw_n w) }
| step_tick w t : nw_now w ≤ t → step w { w with nw_now := t }
| step_tables w d' : db_inv d' → db_evolves (nw_db w) d' → step w { w with nw_db := d' }
| step_read_take w n' p :
    nt_reader (nw_n w) = RIdle → takeEnumeration (nw_n w) = (n', TakeOne p) →
    step w { w with nw_n := set_reader (RQuerying p) n' }
| step_read_exit w n' :
    nt_reader (nw_n w) = RIdle → takeEnumeration (nw_n w) = (n', TakeExit) → step w { w with nw_n := set_reader RExited n' }
| step_query w p e env ww page :
    nt_reader (nw_n w) = RQuerying p → nt_heap (nw_n w) !! p = Some e → rely env →
    ListCancelTargets Auto (no_InstanceID (ne_notification e)) (ne_cursor e) (nc_PageSize (nt_config (nw_n w))) (start (nw_db w) env) = (ww, Ok page) →
    step w { w with nw_n := read_answer (nw_n w) p (Ok page); nw_db := w_db ww;
                    nw_ended := nw_ended w ++ (if bool_decide (page = []) then [p] else []) }
| step_query_failed w p err :
    nt_reader (nw_n w) = RQuerying p →
    step w { w with nw_n := read_answer (nw_n w) p (Fail err); nw_failed := nw_failed w ++ [p] }
| step_offer w p rest n' offered :
    nt_reader (nw_n w) = ROffering p rest → read_next (nw_now w) (nw_n w) p rest = (n', offered) →
    step w { w with nw_n := n'; nw_offered := nw_offered w ++ (pair p <$> option_list offered) }
| step_read_finish w p complete :
    nt_reader (nw_n w) = RFinishing p complete →
    step w { w with nw_n := set_reader RIdle (finishEnumeration (nw_now w) (nw_n w) p complete) }
| step_send_take w k n' t :
    nt_senders (nw_n w) !! k = Some Idle → takeTarget (nw_n w) = (n', TakeOne t) →
    step w { w with nw_n := set_sender k (Busy (t, false)) n' }
| step_send_exit w k n' :
    nt_senders (nw_n w) !! k = Some Idle → takeTarget (nw_n w) = (n', TakeExit) →
    step w { w with nw_n := set_sender k Exited n' }
| step_send_call w k t e :
    nt_senders (nw_n w) !! k = Some (Busy (t, false)) → nt_heap (nw_n w) !! t.1 = Some e → ne_done e = false →
    step w { w with nw_n := set_sender k (Busy (t, true)) (nw_n w); nw_called := nw_called w ++ [t] }
| step_send_skip w k t e :
    nt_senders (nw_n w) !! k = Some (Busy (t, false)) → nt_heap (nw_n w) !! t.1 = Some e → budget_over (nw_now w) (nw_n w) e →
    step w { w with nw_n := set_sender k Idle (send_done (nw_n w) t.1); nw_lost := nw_lost w ++ [t] }
| step_send_return w k t :
    nt_senders (nw_n w) !! k = Some (Busy (t, true)) →
    step w { w with nw_n := set_sender k Idle (send_done (nw_n w) t.1) }
| step_expire w :
    nt_expirer (nw_n w) = true →
    step w { w with nw_n := expire (nw_now w) (nw_n w);
                    nw_lost := nw_lost w ++ expired_targets (expire_mark (nw_now w) (nw_n w)) }
| step_finish w drainDone :
    nt_started (nw_n w) = true → nt_completed (nw_n w) = false → reader_exited (nw_n w) = true →
    nt_expirer (nw_n w) = false → forallb exited (nt_senders (nw_n w)) = true →
    step w { w with nw_n := finish (nw_n w) drainDone; nw_lost := nw_lost w ++ nt_targets (nw_n w) }.

Definition initial (config : NotificationConfig) (d : DB) (now : Time) (w : World) : Prop :=
  ∃ n, NewNotifier config = Ok n ∧ db_inv d ∧
    w = {| nw_n := n; nw_db := d; nw_now := now; nw_saved := []; nw_offered := []; nw_called := []; nw_lost := [];
           nw_ended := []; nw_failed := [] |}.

Definition reached (w : World) : Prop := ∃ config d now w0, initial config d now w0 ∧ rtc step w0 w.
End world.
