(* ===== verification/NotifierInv.v ===== *)
(** * What the notifier keeps and delivers

    The bookkeeping of Notifier.v under every interleaving: capacities, the exact
    accounting of targets, and that a retained Instance always has somebody working on it
    ([core], [tight]); and the delivery: who is called, how often, and when a pass has
    reached everybody ([delivery]). *)

From S2P Require Import Prelude GoLib Tx Model TaskRepo InstanceRepo JobRepo Logic Protocol HintSpec Notifier.

Open Scope string_scope.
Open Scope list_scope.
Open Scope Z_scope.

(** ** The accounting *)

Definition id_of (e : notificationEntry) : Z := no_InstanceID (ne_notification e).

(** [e] is the retained entry at [p]. *)
Definition own (h : list notificationEntry) (m : gmap Z nat) (p : nat) (e : notificationEntry) : Prop :=
  h !! p = Some e ∧ m !! id_of e = Some p.

Definition tally (p : nat) (l : list Target) : Z := Z.of_nat (length (filter (λ t, t.1 = p) l)).
Definition releasable (e : notificationEntry) : bool := ne_enumerated e && negb (ne_reading e) && (ne_outstanding e =? 0).

(** The heap, the map, the queue of Instances, the targets queued or in a sender's hands,
    their number and the entry the reader holds. *)
Record core (c : NotificationConfig) (h : list notificationEntry) (m : gmap Z nat) (q : list nat) (held : list Target) (k : Z)
    (r : option nat) : Prop := {
  k_entries : ∀ id p, m !! id = Some p → ∃ e, h !! p = Some e ∧ id_of e = id;
  k_queue : NoDup q;
  k_queued : ∀ p, p ∈ q → ∃ e, own h m p e ∧ ne_position e = true;
  k_position : ∀ p e, own h m p e → ne_position e = true → p ∈ q ∧ ne_reading e = false ∧ ne_enumerated e = false;
  k_placed : ∀ p e, own h m p e → ne_position e = true ∨ ne_reading e = true ∨ ne_enumerated e = true;
  k_reading : ∀ p e, own h m p e → (ne_reading e = true ↔ r = Some p);
  k_reader : ∀ p, r = Some p → ∃ e, own h m p e;
  k_outstanding : ∀ p e, own h m p e → ne_outstanding e = tally p held;
  k_held : ∀ t, t ∈ held → ∃ e, own h m t.1 e;
  k_count : k = Z.of_nat (length held);
  k_targets : k ≤ nc_TargetCapacity c;
  k_size : Z.of_nat (size m) ≤ nc_InstanceCapacity c;
}.

Definition tight (h : list notificationEntry) (m : gmap Z nat) : Prop := ∀ p e, own h m p e → releasable e = false.

Lemma tally_perm p l l' : l ≡ₚ l' → tally p l = tally p l'.
Proof. intros Hp. unfold tally. by rewrite Hp. Qed.
Lemma tally_cons p t l : tally p (t :: l) = (if decide (t.1 = p) then 1 else 0) + tally p l.
Proof. unfold tally. rewrite filter_cons. destruct (decide (t.1 = p)); simpl; lia. Qed.
Lemma tally_zero p l : tally p l = 0 → ∀ t, t ∈ l → t.1 ≠ p.
Proof.
  unfold tally. intros Hz t Ht <-. assert (t ∈ filter (λ t', t'.1 = t.1) l) as Hin by (by apply list_elem_of_filter).
  destruct (filter _ l); [by apply elem_of_nil in Hin|done].
Qed.
Lemma tally_none p l : (∀ t, t ∈ l → t.1 ≠ p) → tally p l = 0.
Proof. intros Hn. unfold tally. by rewrite filter_none. Qed.

Lemma own_fun h m p e e' : own h m p e → own h m p e' → e = e'.
Proof. intros [? _] [? _]. congruence. Qed.

(** A new entry joins. *)
Lemma own_admit h m x :
  m !! id_of x = None → ∀ p e, own (h ++ [x]) (<[id_of x := length h]> m) p e ↔ (p = length h ∧ e = x) ∨ own h m p e.
Proof.
  intros Hm p e. unfold own. split.
  - intros [Hp Ho]. apply lookup_app_Some in Hp as [Hp|[Hle Hp]].
    + right. split; [done|]. apply lookup_insert_Some in Ho as [[_ E]|[_ Ho]]; [|done]. apply lookup_lt_Some in Hp. lia.
    + left. apply list_lookup_singleton_Some in Hp as [? <-]. split; [lia|done].
  - intros [[-> ->]|[Hp Ho]]; [split; [by apply list_lookup_middle|apply lookup_insert_eq]|].
    split; [by apply lookup_app_l_Some|]. rewrite lookup_insert_ne; [done|]. congruence.
Qed.

Section alter.
Context (f : notificationEntry → notificationEntry) (Hf : ∀ e, ne_notification (f e) = ne_notification e).

Lemma own_alter h m p p' e' :
  own (alter f p h) m p' e' ↔ ∃ e, own h m p' e ∧ e' = if decide (p = p') then f e else e.
Proof.
  assert (∀ e, id_of (f e) = id_of e) as Hid by (intros e; unfold id_of; by rewrite Hf).
  unfold own. rewrite list_lookup_alter. destruct (decide (p = p')) as [->|Hn].
  - split.
    + intros [(e & Hp & ->)%fmap_Some Hm]. rewrite Hid in Hm. eauto.
    + intros (e & [Hp Hm] & ->). rewrite Hp. simpl. by rewrite Hid.
  - split; [eauto|]. by intros (e & ? & ->).
Qed.

Lemma own_alter_ne h m p p' e : p ≠ p' → own (alter f p h) m p' e ↔ own h m p' e.
Proof.
  intros Hn. rewrite own_alter. split.
  - intros (e0 & Ho & ->). by rewrite decide_False.
  - intros Ho. exists e. by rewrite decide_False.
Qed.

Lemma own_alter_some h m p p' : (∃ e, own h m p' e) → ∃ e, own (alter f p h) m p' e.
Proof. intros [e He]. eexists. apply own_alter. eauto. Qed.

Lemma entries_alter (h : list notificationEntry) (m : gmap Z nat) (p : nat) :
  (∀ id p', m !! id = Some p' → ∃ e, h !! p' = Some e ∧ id_of e = id) →
  ∀ id p', m !! id = Some p' → ∃ e, alter f p h !! p' = Some e ∧ id_of e = id.
Proof.
  intros He id p' Hm. destruct (He id p' Hm) as (e & Hp & <-). rewrite list_lookup_alter. destruct (decide (p = p')) as [->|].
  - exists (f e). rewrite Hp. split; [done|]. unfold id_of. by rewrite Hf.
  - eauto.
Qed.
End alter.

(** Cases on whether an entry of the altered heap is the altered one. *)
Ltac owned H :=
  let e := fresh "e0" in let Ho := fresh "Ho" in
  apply own_alter in H as (e & Ho & ->); [|done].

Section core_rules.
Context (c : NotificationConfig).
Implicit Types (h : list notificationEntry) (m : gmap Z nat) (q : list nat) (held : list Target) (k : Z) (r : option nat).

Lemma core_perm h m q held held' k r : held ≡ₚ held' → core c h m q held k r → core c h m q held' k r.
Proof.
  intros Hp []. constructor; try done.
  - intros p e He. rewrite <-(tally_perm p _ _ Hp). eauto.
  - intros t Ht. rewrite <-Hp in Ht. eauto.
  - by rewrite <-Hp.
Qed.

(** Changes of an entry that the accounting does not see. *)
Lemma core_same h m q held k r p f :
  (∀ e, ne_notification (f e) = ne_notification e ∧ ne_position (f e) = ne_position e ∧ ne_reading (f e) = ne_reading e ∧
        ne_enumerated (f e) = ne_enumerated e ∧ ne_outstanding (f e) = ne_outstanding e) →
  core c h m q held k r → core c (alter f p h) m q held k r.
Proof.
  intros Hf []. assert (∀ e, ne_notification (f e) = ne_notification e) as Hn by (intros e; by destruct (Hf e)).
  constructor; try done.
  - by apply entries_alter.
  - intros p' Hp. destruct (k_queued0 _ Hp) as (e & Ho & He). eexists. split; [apply own_alter; eauto|].
    destruct (decide _); [|done]. destruct (Hf e) as (_ & -> & _). done.
  - intros p' e Ho He. owned Ho. destruct (decide _); [|eauto]. destruct (Hf e0) as (_ & E1 & -> & -> & _). rewrite E1 in He. eauto.
  - intros p' e Ho. owned Ho. destruct (decide _); [|eauto]. destruct (Hf e0) as (_ & -> & -> & -> & _). eauto.
  - intros p' e Ho. owned Ho. destruct (decide _); [|eauto]. destruct (Hf e0) as (_ & _ & -> & _). eauto.
  - intros p' Hr. apply own_alter_some; eauto.
  - intros p' e Ho. owned Ho. destruct (decide _); [|eauto]. destruct (Hf e0) as (_ & _ & _ & _ & ->). eauto.
  - intros t Ht. apply own_alter_some; eauto.
Qed.

(** [Hint] admits. *)
Lemma core_admit h m q held k r note deadline :
  core c h m q held k r → m !! no_InstanceID note = None → Z.of_nat (size m) < nc_InstanceCapacity c →
  core c (h ++ [admitted_entry note deadline]) (<[no_InstanceID note := length h]> m) (q ++ [length h]) held k r.
Proof.
  intros [] Hm Hs. set (x := admitted_entry note deadline).
  pose proof (own_admit h m x Hm) as Hown. assert (∀ p e, own h m p e → p ≠ length h) as Hlt by (intros p e [Hp _]; apply lookup_lt_Some in Hp; lia).
  assert (∀ p e, own h m p e → own (h ++ [x]) (<[no_InstanceID note := length h]> m) p e ∧ p ≠ length h) as Hold.
  { intros p e Ho. split; [apply Hown; by right|eauto]. }
  assert (∀ p e, own (h ++ [x]) (<[no_InstanceID note := length h]> m) p e → (p = length h ∧ e = x) ∨ (own h m p e ∧ p ≠ length h)) as Hnew.
  { intros p e [?|Ho]%Hown; [by left|right; eauto]. }
  assert (own (h ++ [x]) (<[no_InstanceID note := length h]> m) (length h) x) as Hx by (apply Hown; by left).
  constructor; try done.
  - intros id p [[<- <-]|[Hne Hid]]%lookup_insert_Some; [exists x; by split; [apply list_lookup_middle|]|].
    destruct (k_entries0 _ _ Hid) as (e & He & <-). exists e. split; [by apply lookup_app_l_Some|done].
  - apply NoDup_app. split_and!; [done| |apply NoDup_singleton]. intros p Hp E%list_elem_of_singleton. subst p.
    destruct (k_queued0 _ Hp) as (e & Ho & _). by apply Hold in Ho as [_ ?].
  - intros p [Hp|E%list_elem_of_singleton]%elem_of_app; [|subst p; eauto].
    destruct (k_queued0 _ Hp) as (e & Ho & He). exists e. split; [by apply Hold|done].
  - intros p e [[-> ->]|[Ho Hn]]%Hnew He; [set_solver|]. destruct (k_position0 _ _ Ho He) as (? & ? & ?). set_solver.
  - intros p e [[-> ->]|[Ho Hn]]%Hnew; [by left|eauto].
  - intros p e [[-> ->]|[Ho Hn]]%Hnew; [|eauto]. split; [done|]. intros Hr. destruct (k_reader0 _ Hr) as (e & Ho). by apply Hold in Ho as [_ ?].
  - intros p Hr. destruct (k_reader0 _ Hr) as (e & Ho). exists e. by apply Hold.
  - intros p e [[-> ->]|[Ho Hn]]%Hnew; [|eauto]. simpl. symmetry. apply tally_none. intros t Ht E.
    destruct (k_held0 _ Ht) as (e & Ho). apply Hold in Ho as [_ ?]. congruence.
  - intros t Ht. destruct (k_held0 _ Ht) as (e & Ho). exists e. by apply Hold.
  - rewrite map_size_insert_None by done. lia.
Qed.

Definition start_reading (e : notificationEntry) : notificationEntry := { e with ne_position := false; ne_reading := true }.

(** [takeEnumeration] takes the front. *)
Lemma core_take h m p q held k :
  core c h m (p :: q) held k None → core c (alter start_reading p h) m q held k (Some p).
Proof.
  intros []. assert (∀ e, ne_notification (start_reading e) = ne_notification e) as Hn by done. apply NoDup_cons in k_queue0 as [Hp Hq].
  destruct (k_queued0 p) as (e & Ho & He); [by left|].
  constructor; try done.
  - by apply entries_alter.
  - intros p' Hp'. destruct (k_queued0 p') as (e' & Ho' & He'); [by right|]. exists e'. split; [|done].
    apply own_alter_ne; [done|set_solver|done].
  - intros p' e' Ho' He'. owned Ho'. destruct (decide (p = p')); [done|]. destruct (k_position0 _ _ Ho0 He') as (? & ? & ?). set_solver.
  - intros p' e' Ho'. owned Ho'. destruct (decide (p = p')); [by right; left|eauto].
  - intros p' e' Ho'. owned Ho'. destruct (decide (p = p')) as [->|]; [done|]. rewrite k_reading0 by done. naive_solver.
  - intros p' [= <-]. apply own_alter_some; eauto.
  - intros p' e' Ho'. owned Ho'. destruct (decide (p = p')); simpl; eauto.
  - intros t Ht. apply own_alter_some; eauto.
Qed.

Definition admit_target (address : string) (e : notificationEntry) : notificationEntry :=
  { e with ne_outstanding := ne_outstanding e + 1; ne_cursor := address }.

(** [offerTarget] admits. *)
Lemma core_offer h m q held k r p address :
  core c h m q held k r → r = Some p → k < nc_TargetCapacity c →
  core c (alter (admit_target address) p h) m q ((p, address) :: held) (k + 1) r.
Proof.
  intros [] Hr Hk. assert (∀ e, ne_notification (admit_target address e) = ne_notification e) as Hn by done.
  destruct (k_reader0 _ Hr) as (e & Ho).
  constructor; try done.
  - by apply entries_alter.
  - intros p' Hp'. destruct (k_queued0 p') as (e' & Ho' & He'); [done|]. eexists. split; [apply own_alter; eauto|by destruct (decide _)].
  - intros p' e' Ho' He'. owned Ho'. destruct (decide (p = p')); simpl in *; eauto.
  - intros p' e' Ho'. owned Ho'. destruct (decide (p = p')); simpl; eauto.
  - intros p' e' Ho'. owned Ho'. destruct (decide (p = p')); simpl; eauto.
  - intros p' Hp. apply own_alter_some; eauto.
  - intros p' e' Ho'. owned Ho'. rewrite tally_cons. simpl. destruct (decide (p = p')); simpl; rewrite (k_outstanding0 _ _ Ho0); lia.
  - intros t [->|Ht]%elem_of_cons; apply own_alter_some; eauto.
  - simpl. lia.
  - lia.
Qed.

Definition stop_reading (enumerated : bool) (e : notificationEntry) : notificationEntry :=
  { e with ne_reading := false; ne_enumerated := enumerated; ne_position := ne_position e || negb enumerated }.

(** [finishEnumeration] before it releases. *)
Lemma core_unread h m q held k p e enumerated :
  core c h m q held k (Some p) → h !! p = Some e → (ne_enumerated e = true → enumerated = true) →
  core c (alter (stop_reading enumerated) p h) m (if enumerated then q else q ++ [p]) held k None.
Proof.
  intros [] He Hen. assert (∀ e, ne_notification (stop_reading enumerated e) = ne_notification e) as Hn by done.
  destruct (k_reader0 p eq_refl) as (e' & Ho). assert (e' = e) as -> by (destruct Ho; congruence).
  assert (ne_reading e = true) as Hr by (by eapply k_reading0). assert (ne_position e = false) as Hp.
  { destruct (ne_position e) eqn:Ep; [|done]. destruct (k_position0 _ _ Ho Ep) as (_ & ? & _). congruence. }
  assert (p ∉ q) as Hq. { intros Hin. destruct (k_queued0 _ Hin) as (e' & Ho' & ?). rewrite (own_fun _ _ _ _ _ Ho' Ho) in *. congruence. }
  constructor; try done.
  - by apply entries_alter.
  - destruct enumerated; [done|]. apply NoDup_app. split_and!; [done|set_solver|apply NoDup_singleton].
  - intros p' Hp'. destruct (decide (p = p')) as [<-|Hne].
    + eexists. split; [apply own_alter; [done|]; eauto|]. rewrite decide_True by done. destruct enumerated; [done|]. simpl. by destruct (ne_position e).
    + assert (p' ∈ q) as Hin by (destruct enumerated; set_solver). destruct (k_queued0 p') as (e' & Ho' & He'); [done|].
      exists e'. split; [|done]. by apply own_alter_ne.
  - intros p' e' Ho' He'. owned Ho'. destruct (decide (p = p')) as [<-|Hne].
    + rewrite (own_fun _ _ _ _ _ Ho0 Ho) in *. simpl in *. rewrite Hp in He'. destruct enumerated; [done|]. set_solver.
    + destruct (k_position0 _ _ Ho0 He') as (? & ? & ?). destruct enumerated; set_solver.
  - intros p' e' Ho'. owned Ho'. destruct (decide (p = p')) as [<-|Hne]; [|eauto].
    simpl. destruct enumerated; [by right; right|left]. by rewrite orb_true_r.
  - intros p' e' Ho'. owned Ho'. destruct (decide (p = p')) as [<-|Hne]; [done|]. rewrite k_reading0 by done. naive_solver.
  - intros p' e' Ho'. owned Ho'. destruct (decide (p = p')); simpl; eauto.
  - intros t Ht. apply own_alter_some; eauto.
Qed.

Definition return_target (e : notificationEntry) : notificationEntry := { e with ne_outstanding := ne_outstanding e - 1 }.

(** A target leaves: a sender's call returned, or housekeeping took it off the list. *)
Lemma core_return h m q t held k r :
  core c h m q (t :: held) k r → core c (alter return_target t.1 h) m q held (k - 1) r.
Proof.
  intros []. assert (∀ e, ne_notification (return_target e) = ne_notification e) as Hn by done.
  constructor; try done.
  - by apply entries_alter.
  - intros p' Hp'. destruct (k_queued0 p') as (e' & Ho' & He'); [done|]. eexists. split; [apply own_alter; eauto|by destruct (decide _)].
  - intros p' e' Ho' He'. owned Ho'. destruct (decide _); simpl in *; eauto.
  - intros p' e' Ho'. owned Ho'. destruct (decide _); simpl; eauto.
  - intros p' e' Ho'. owned Ho'. destruct (decide _); simpl; eauto.
  - intros p' Hp. apply own_alter_some; eauto.
  - intros p' e' Ho'. owned Ho'. pose proof (k_outstanding0 _ _ Ho) as E. rewrite tally_cons in E. destruct (decide _); simpl; lia.
  - intros t' Ht. apply own_alter_some; [done|]. apply k_held0. by right.
  - simpl in *. lia.
  - lia.
Qed.

Definition expire_update (e : notificationEntry) : notificationEntry :=
  { e with ne_expired := true; ne_enumerated := true; ne_position := false }.

(** Housekeeping marks an entry. *)
Lemma core_expire h m q held k r p :
  core c h m q held k r → core c (alter expire_update p h) m (filter (λ p', p' ≠ p) q) held k r.
Proof.
  intros []. assert (∀ e, ne_notification (expire_update e) = ne_notification e) as Hn by done.
  constructor; try done.
  - by apply entries_alter.
  - by apply NoDup_filter.
  - intros p' [Hne Hp']%list_elem_of_filter. destruct (k_queued0 p') as (e' & Ho' & He'); [done|]. exists e'. split; [|done].
    by apply own_alter_ne.
  - intros p' e' Ho' He'. owned Ho'. destruct (decide _); [done|]. destruct (k_position0 _ _ Ho He') as (? & ? & ?).
    split_and!; [apply list_elem_of_filter; split; congruence|done|done].
  - intros p' e' Ho'. owned Ho'. destruct (decide _); simpl; eauto.
  - intros p' e' Ho'. owned Ho'. destruct (decide _); simpl; eauto.
  - intros p' Hp. apply own_alter_some; eauto.
  - intros p' e' Ho'. owned Ho'. destruct (decide _); simpl; eauto.
  - intros t' Ht. apply own_alter_some; eauto.
Qed.

(** [releaseLocked] lets an entry go. *)
Lemma core_forget h m q held k r p e :
  core c h m q held k r → own h m p e → releasable e = true → core c h (delete (id_of e) m) q held k r.
Proof.
  intros [] Ho Hr. unfold releasable in Hr. to_prop.
  assert (∀ p' e', own h (delete (id_of e) m) p' e' ↔ own h m p' e' ∧ p' ≠ p) as Hown.
  { intros p' e'. unfold own. rewrite lookup_delete_Some. split.
    - intros (Hp & Hne & Hm). split; [done|]. intros ->. destruct Ho. congruence.
    - intros [[Hp Hm] Hne]. split_and!; [done| |done]. intros E. destruct Ho as [_ Ho]. rewrite E in Ho. congruence. }
  assert (r ≠ Some p) as Hrp. { intros E. apply (k_reading0 _ _ Ho) in E. congruence. }
  assert (∀ t, t ∈ held → t.1 ≠ p) as Hh. { apply tally_zero. rewrite <-(k_outstanding0 _ _ Ho). done. }
  assert (p ∉ q) as Hq.
  { intros (e' & Ho' & He')%k_queued0. rewrite (own_fun _ _ _ _ _ Ho' Ho) in He'. destruct (k_position0 _ _ Ho He') as (_ & _ & ?). congruence. }
  constructor; try done.
  - intros id p' [_ Hid]%lookup_delete_Some. eauto.
  - intros p' Hp'. destruct (k_queued0 _ Hp') as (e' & Ho' & He'). exists e'. split; [|done]. apply Hown. split; [done|]. by intros ->.
  - intros p' e' [Ho' _]%Hown. eauto.
  - intros p' e' [Ho' _]%Hown. eauto.
  - intros p' e' [Ho' _]%Hown. eauto.
  - intros p' Hp. destruct (k_reader0 _ Hp) as (e' & Ho'). exists e'. apply Hown. split; [done|]. by intros ->.
  - intros p' e' [Ho' _]%Hown. eauto.
  - intros t Ht. destruct (k_held0 _ Ht) as (e' & Ho'). exists e'. apply Hown. eauto.
  - destruct Ho as [_ Ho]. rewrite map_size_delete, Ho. lia.
Qed.
End core_rules.

(** ** The accounting of a notifier *)

Definition holder (r : Reader) : option nat :=
  match r with RQuerying p | ROffering p _ | RFinishing p _ => Some p | RIdle | RExited => None end.
Definition held (n : Notifier) : list Target := nt_targets n ++ (busy (nt_senders n)).*1.
Definition Own (n : Notifier) : nat → notificationEntry → Prop := own (nt_heap n) (nt_entries n).
Definition Core (n : Notifier) : Prop :=
  core (nt_config n) (nt_heap n) (nt_entries n) (nt_enumerating n) (held n) (nt_targetCount n) (holder (nt_reader n)).
Definition Tight (n : Notifier) : Prop := tight (nt_heap n) (nt_entries n).

(** Entries only change as delivery allows: an entry is enumerated from some moment on
    because its pass ended ([U]) or its budget did ([W]), and expired because of [W]. *)
Definition entry_keeps (U W : Prop) (e e' : notificationEntry) : Prop :=
  ne_notification e' = ne_notification e ∧ ne_deadline e' = ne_deadline e ∧ ne_cursor e' = ne_cursor e ∧
  (ne_enumerated e = true → ne_enumerated e' = true) ∧ (ne_expired e = true → ne_expired e' = true) ∧
  (ne_enumerated e' = true → ne_enumerated e = true ∨ U ∨ W) ∧ (ne_expired e' = true → ne_expired e = true ∨ W).

Definition heap_keeps (U : nat → Prop) (W : nat → notificationEntry → Prop) (h h' : list notificationEntry) : Prop :=
  ∀ p, option_Forall2 (λ e e', entry_keeps (U p) (W p e) e e') (h !! p) (h' !! p).

Lemma entry_keeps_refl U W e : entry_keeps U W e e.
Proof. unfold entry_keeps. naive_solver. Qed.
Lemma heap_keeps_refl U W h : heap_keeps U W h h.
Proof. intros p. destruct (h !! p); constructor. apply entry_keeps_refl. Qed.

Lemma heap_keeps_alter (U : nat → Prop) (W : nat → notificationEntry → Prop) h p f :
  (∀ e, h !! p = Some e → entry_keeps (U p) (W p e) e (f e)) → heap_keeps U W h (alter f p h).
Proof.
  intros Hf p'. rewrite list_lookup_alter. destruct (decide (p = p')) as [->|]; [|apply heap_keeps_refl].
  destruct (h !! p') eqn:E; constructor. by apply Hf.
Qed.

Lemma heap_keeps_trans (U : nat → Prop) (W : nat → notificationEntry → Prop) h1 h2 h3 :
  (∀ p e e', ne_deadline e' = ne_deadline e → W p e' → W p e) → heap_keeps U W h1 h2 → heap_keeps U W h2 h3 → heap_keeps U W h1 h3.
Proof.
  intros HW H12 H23 p. specialize (H12 p). specialize (H23 p). destruct H12 as [e1 e2 H12|]; [|inversion H23; subst; constructor].
  inversion H23 as [? e3 H23'|]; subst. constructor. unfold entry_keeps in *.
  destruct H12 as (A1 & A2 & A3 & A4 & A5 & A6 & A7), H23' as (B1 & B2 & B3 & B4 & B5 & B6 & B7).
  split_and!; [congruence..|auto|auto| |].
  - intros [?|[?|?]]%B6; [auto|auto|right; right; eauto].
  - intros [?|?]%B7; [auto|right; eauto].
Qed.

Lemma heap_keeps_lookup U W h h' p e' : heap_keeps U W h h' → h' !! p = Some e' → ∃ e, h !! p = Some e ∧ entry_keeps (U p) (W p e) e e'.
Proof. intros Hk Hp. specialize (Hk p). rewrite Hp in Hk. inversion Hk; subst; eauto. Qed.
Lemma heap_keeps_image U W h h' p e : heap_keeps U W h h' → h !! p = Some e → ∃ e', h' !! p = Some e' ∧ entry_keeps (U p) (W p e) e e'.
Proof. intros Hk Hp. specialize (Hk p). rewrite Hp in Hk. inversion Hk; subst; eauto. Qed.
Lemma heap_keeps_length U W h h' : heap_keeps U W h h' → length h' = length h.
Proof.
  intros Hk. destruct (decide (length h' = length h)) as [|Hn]; [done|exfalso].
  destruct (decide (length h' < length h)%nat) as [Hl|Hl].
  - apply lookup_lt_is_Some in Hl as [e He]. destruct (heap_keeps_image _ _ _ _ _ _ Hk He) as (e' & He' & _). apply lookup_lt_Some in He'. lia.
  - assert (length h < length h')%nat as Hl' by lia. apply lookup_lt_is_Some in Hl' as [e He].
    destruct (heap_keeps_lookup _ _ _ _ _ _ Hk He) as (e' & He' & _). apply lookup_lt_Some in He'. lia.
Qed.

Lemma heap_keeps_weaken (U U' : nat → Prop) (W W' : nat → notificationEntry → Prop) h h' :
  (∀ p, U p → U' p) → (∀ p e, W p e → W' p e) → heap_keeps U W h h' → heap_keeps U' W' h h'.
Proof. intros HU HW Hk p. destruct (Hk p) as [e e' He|]; constructor. unfold entry_keeps in *. naive_solver. Qed.

(** The same of a notifier; who is retained stays retained or has been enumerated, and a
    retained entry's context is done for the reason [W] too. *)
Record evolved (U : nat → Prop) (W : nat → notificationEntry → Prop) (n n' : Notifier) : Prop := {
  ev_heap : heap_keeps U W (nt_heap n) (nt_heap n');
  ev_own : ∀ p e', Own n' p e' → ∃ e, Own n p e ∧ (ne_done e' = true → ne_done e = true ∨ W p e);
  ev_gone : ∀ p e, Own n p e → (∃ e', Own n' p e') ∨ ∃ e', nt_heap n' !! p = Some e' ∧ ne_enumerated e' = true;
}.

Lemma evolved_refl U W n : evolved U W n n.
Proof. constructor; [apply heap_keeps_refl|intros; eauto|eauto]. Qed.

Definition by_deadline (W : nat → notificationEntry → Prop) : Prop := ∀ p e e', ne_deadline e' = ne_deadline e → W p e' → W p e.

Lemma evolved_trans U W n1 n2 n3 : by_deadline W → evolved U W n1 n2 → evolved U W n2 n3 → evolved U W n1 n3.
Proof.
  intros HW [A1 A2 A3] [B1 B2 B3]. constructor.
  - by eapply heap_keeps_trans.
  - intros p e3 Ho3. destruct (B2 _ _ Ho3) as (e2 & Ho2 & Hd2), (A2 _ _ Ho2) as (e1 & Ho1 & Hd1).
    exists e1. split; [done|]. intros [Hd|Hd]%Hd2; [by apply Hd1|]. right. destruct Ho1 as [Hp1 _], Ho2 as [Hp2 _].
    destruct (heap_keeps_image _ _ _ _ _ _ A1 Hp1) as (e2' & Hp2' & Hk). assert (e2' = e2) as -> by congruence. by eapply HW, Hd; apply Hk.
  - intros p e1 Ho1. destruct (A3 _ _ Ho1) as [[e2 Ho2]|(e2 & Hp2 & He2)]; [by apply (B3 _ _ Ho2)|]. right.
    destruct (heap_keeps_image _ _ _ _ _ _ B1 Hp2) as (e3 & Hp3 & Hk). exists e3. split; [done|]. by apply Hk.
Qed.

Lemma evolved_weaken (U U' : nat → Prop) (W W' : nat → notificationEntry → Prop) n n' :
  (∀ p, U p → U' p) → (∀ p e, W p e → W' p e) → evolved U W n n' → evolved U' W' n n'.
Proof.
  intros HU HW [A1 A2 A3]. constructor; [|intros p e' (e & Ho & Hd)%A2; exists e; naive_solver|done].
  by eapply heap_keeps_weaken.
Qed.

(** A change of one entry. *)
Lemma evolved_set U W n p f :
  (∀ e, ne_notification (f e) = ne_notification e) →
  (∀ e, nt_heap n !! p = Some e → entry_keeps (U p) (W p e) e (f e) ∧ (ne_done (f e) = true → ne_done e = true ∨ W p e)) →
  evolved U W n (set_entry p f n).
Proof.
  intros Hn Hf. constructor.
  - apply heap_keeps_alter. intros e He. by apply Hf.
  - intros p' e' (e & Ho & ->)%own_alter; [|done]. exists e. split; [done|]. destruct (decide (p = p')) as [->|]; [|by left]. destruct Ho. by apply Hf.
  - intros p' e Ho. left. eexists. apply own_alter; eauto.
Qed.

(** Nothing of this is about the rest of the notifier. *)
Lemma evolved_frame U W n n1 n2 : nt_heap n1 = nt_heap n2 → nt_entries n1 = nt_entries n2 → evolved U W n n1 → evolved U W n n2.
Proof. intros Eh Em [A1 A2 A3]. unfold Own in *. constructor; unfold Own; by rewrite <-?Eh, <-?Em. Qed.

(** [n'] differs from [n] in its entries at most. *)
Definition same_frame (n n' : Notifier) : Prop :=
  { n' with nt_heap := nt_heap n; nt_entries := nt_entries n; nt_fullLogged := nt_fullLogged n } = n.

Lemma same_frame_refl n : same_frame n n.
Proof. by destruct n. Qed.
Lemma same_frame_trans n1 n2 n3 : same_frame n1 n2 → same_frame n2 n3 → same_frame n1 n3.
Proof. unfold same_frame. intros H12 H23. destruct n1, n2, n3; simpl in *. injection H12; injection H23; intros; subst; reflexivity. Qed.

(** What a release does, if anything. *)
Record released (n n' : Notifier) (P : nat → Prop) : Prop := {
  rl_frame : same_frame n n';
  rl_heap : heap_keeps (λ _, False) (λ _ _, False) (nt_heap n) (nt_heap n');
  rl_own : ∀ p e, Own n' p e → Own n p e ∧ (P p → releasable e = false);
  rl_gone : ∀ p e, Own n p e → Own n' p e ∨ (P p ∧ releasable e = true);
  rl_core : Core n';
}.

Lemma releaseLocked_spec n p : Core n → released n (releaseLocked n p) (eq p) ∨ ¬ ∃ e, Own n p e.
Proof.
  intros HC. unfold releaseLocked. destruct (nt_heap n !! p) as [e|] eqn:Hp.
  2:{ right. intros (e & He & _). congruence. }
  destruct (decide (nt_entries n !! id_of e = Some p)) as [Hm|Hm].
  2:{ right. intros (e' & He & Hm'). congruence. }
  left. assert (Own n p e) as Ho by done.
  destruct (negb (ne_enumerated e) || ne_reading e || negb (ne_outstanding e =? 0)) eqn:Eg.
  { assert (releasable e = false) as Hr.
    { unfold releasable. by destruct (ne_enumerated e), (ne_reading e), (ne_outstanding e =? 0). }
    constructor; try done.
    - apply same_frame_refl.
    - apply heap_keeps_refl.
    - intros p' e' Ho'. split; [done|]. intros <-. by rewrite (own_fun _ _ _ _ _ Ho' Ho).
    - by left. }
  assert (releasable e = true) as Hr. { unfold releasable. by destruct (ne_enumerated e), (ne_reading e), (ne_outstanding e =? 0). }
  assert (∀ p' e', own (nt_heap n) (delete (id_of e) (nt_entries n)) p' e' → Own n p' e' ∧ p' ≠ p) as Hdel.
  { intros p' e' [Hp' [Hne Hm']%lookup_delete_Some]. split; [done|]. intros ->. congruence. }
  constructor.
  - by destruct n.
  - simpl. apply heap_keeps_alter. intros e' _. unfold entry_keeps. simpl. naive_solver.
  - intros p' e' Ho'. apply own_alter in Ho' as (e0 & Ho' & ->); [|done]. apply Hdel in Ho' as [Ho' Hne].
    rewrite decide_False by done. split; [done|]. congruence.
  - intros p' e' Ho'. destruct (decide (p' = p)) as [->|Hne].
    + right. by rewrite (own_fun _ _ _ _ _ Ho' Ho).
    + left. apply own_alter; [done|]. exists e'. rewrite decide_False by done. split; [|done].
      split; [by destruct Ho'|]. apply lookup_delete_Some. split; [|by destruct Ho']. intros E. fold (id_of e) in E. destruct Ho' as [_ Ho'], Ho as [_ Ho]. rewrite E in Ho. congruence.
  - unfold Core. simpl. apply (core_same (nt_config n) (nt_heap n) _ _ _ _ _ p (λ e, { e with ne_done := true })); [done|].
    by apply (core_forget _ _ _ _ _ _ _ p e).
Qed.

Lemma released_evolved U W n n' P : released n n' P → evolved U W n n'.
Proof.
  intros Hr. apply (evolved_weaken (λ _, False) U (λ _ _, False)); [done..|]. constructor.
  - apply (rl_heap _ _ _ Hr).
  - intros p e [Ho _]%(rl_own _ _ _ Hr). eauto.
  - intros p e Ho. destruct (rl_gone _ _ _ Hr _ _ Ho) as [?|[_ Hre]]; [eauto|]. right.
    destruct Ho as [Hp _]. destruct (heap_keeps_image _ _ _ _ _ _ (rl_heap _ _ _ Hr) Hp) as (e' & Hp' & Hk).
    exists e'. split; [done|]. apply Hk. unfold releasable in Hre. by to_prop.
Qed.

(** Releasing the entry in hand. *)
Lemma release_one n p e :
  Core n → Own n p e → (∀ p' e', Own n p' e' → p' ≠ p → releasable e' = false) →
  let n' := releaseLocked n p in Core n' ∧ Tight n' ∧ same_frame n n' ∧ ∀ U W, evolved U W n n'.
Proof.
  intros HC Ho Ht n'. destruct (releaseLocked_spec n p HC) as [Hr|[]]; [|eauto]. split_and!.
  - apply (rl_core _ _ _ Hr).
  - intros p' e' [Ho' Hre]%(rl_own _ _ _ Hr). destruct (decide (p' = p)) as [->|]; [by apply Hre|eauto].
  - apply (rl_frame _ _ _ Hr).
  - intros U W. by eapply released_evolved.
Qed.

Lemma release_list l n :
  NoDup l → (∀ p, p ∈ l → ∃ e, Own n p e) → Core n → released n (foldl releaseLocked n l) (.∈ l).
Proof.
  revert n. induction l as [|p l IH]; intros n Hnd Hl HC; simpl.
  { constructor; [apply same_frame_refl|apply heap_keeps_refl|intros p e Ho; split; [done|by intros ?%elem_of_nil]|by left|done]. }
  apply NoDup_cons in Hnd as [Hp Hnd]. destruct (releaseLocked_spec n p HC) as [Hr|[]]; [|apply Hl; by left].
  destruct (IH (releaseLocked n p)) as [F1 F2 F3 F4 F5]; [done| |apply (rl_core _ _ _ Hr)|].
  { intros p' Hp'. destruct (Hl p') as [e Ho]; [by right|]. exists e.
    destruct (rl_gone _ _ _ Hr _ _ Ho) as [|[-> _]]; done. }
  constructor; [eapply same_frame_trans; [apply (rl_frame _ _ _ Hr)|done]| | | |done].
  - eapply heap_keeps_trans; [done|apply (rl_heap _ _ _ Hr)|done].
  - intros p' e [Ho Hre]%F3. apply (rl_own _ _ _ Hr) in Ho as [Ho Hre']. split; [done|]. intros [->|?]%elem_of_cons; auto.
  - intros p' e Ho. destruct (rl_gone _ _ _ Hr _ _ Ho) as [Ho'|[-> Hre]]; [|right; split; [by left|done]].
    destruct (F4 _ _ Ho') as [|[? ?]]; [by left|right; split; [by right|done]].
Qed.

Lemma elem_of_retained n p : Core n → p ∈ retained n ↔ ∃ e, Own n p e.
Proof.
  intros HC. unfold retained. rewrite list_elem_of_fmap. split.
  - intros ([id p'] & -> & Hm%elem_of_map_to_list). destruct (k_entries _ _ _ _ _ _ _ HC _ _ Hm) as (e & He & <-). by exists e.
  - intros (e & He & Hm). exists (id_of e, p). split; [done|]. by apply elem_of_map_to_list.
Qed.

Lemma NoDup_retained n : Core n → NoDup (retained n).
Proof.
  intros HC. unfold retained. apply NoDup_fmap_2_strong; [|apply NoDup_map_to_list].
  intros [id p] [id' p'] H1%elem_of_map_to_list H2%elem_of_map_to_list E. simpl in E. subst p'.
  destruct (k_entries _ _ _ _ _ _ _ HC _ _ H1) as (e & He & <-), (k_entries _ _ _ _ _ _ _ HC _ _ H2) as (e' & He' & <-).
  by assert (e' = e) as -> by congruence.
Qed.

Lemma release_all_spec n :
  Core n → let n' := release_all n in Core n' ∧ Tight n' ∧ same_frame n n' ∧ ∀ U W, evolved U W n n'.
Proof.
  intros HC n'. pose proof (release_list (retained n) n (NoDup_retained n HC) (λ p, proj1 (elem_of_retained n p HC)) HC) as Hr.
  split_and!; [apply (rl_core _ _ _ Hr)| |apply (rl_frame _ _ _ Hr)|intros U W; by eapply released_evolved].
  intros p e [Ho Hre]%(rl_own _ _ _ Hr). apply Hre, elem_of_retained; eauto.
Qed.

Lemma tight_alter h m p f :
  (∀ e, ne_notification (f e) = ne_notification e) → tight h m →
  (∀ e, own h m p e → releasable e = false → releasable (f e) = false) → tight (alter f p h) m.
Proof.
  intros Hn Ht Hf p' e' (e & Ho & ->)%own_alter; [|done]. destruct (decide (p = p')) as [->|]; [|eauto]. apply Hf; eauto.
Qed.

(** *** The operations *)

(** The accounting holds and nothing is left unreleased. *)
Definition sound (n : Notifier) : Prop := Core n ∧ Tight n.

Lemma hint_sound now n note n' b :
  sound n → Hint now n note = (n', b) →
  sound n' ∧ ((nt_heap n' = nt_heap n ∧ nt_entries n' = nt_entries n) ∨
              (nt_started n = true ∧ nt_stopping n = false ∧
               nt_heap n' = nt_heap n ++ [admitted_entry note (now + nc_InstanceTimeout (nt_config n))] ∧
               nt_entries n !! no_InstanceID note = None ∧ nt_entries n' = <[no_InstanceID note := length (nt_heap n)]> (nt_entries n))) ∧
  { n' with nt_heap := nt_heap n; nt_entries := nt_entries n; nt_fullLogged := nt_fullLogged n; nt_enumerating := nt_enumerating n } = n.
Proof.
  intros [HC HT]. unfold Hint. destruct (_ || nt_stopping n) eqn:Eg.
  { intros [= <- <-]. split_and!; [done|by left|by destruct n]. }
  destruct (nt_entries n !! no_InstanceID note) as [p|] eqn:Em.
  { intros [= <- <-]. split_and!; [done|by left|by destruct n]. }
  destruct (Z.eqb_spec (Z.of_nat (size (nt_entries n))) (nc_InstanceCapacity (nt_config n))) as [Ef|Ef]; intros [= <- <-].
  { split_and!; [done|by left|by destruct n]. }
  apply orb_false_iff in Eg as [Eg Ep]. apply orb_false_iff in Eg as [_ Es]. apply negb_false_iff in Es.
  pose proof (k_size _ _ _ _ _ _ _ HC). split_and!; [split|right; split_and!; done|by destruct n].
  - unfold Core. simpl. apply core_admit; [done|done|lia].
  - intros p e [Hp Ho]. apply lookup_app_Some in Hp as [Hp|[_ Hp]].
    + assert (p ≠ length (nt_heap n)) by (apply lookup_lt_Some in Hp; lia).
      simpl in Ho. apply lookup_insert_Some in Ho as [[_ E]|[_ Ho]]; [congruence|]. by apply (HT p).
    + by apply list_lookup_singleton_Some in Hp as [_ <-].
Qed.

Lemma take_enumeration_sound U W n n' p :
  sound n → nt_reader n = RIdle → takeEnumeration n = (n', TakeOne p) →
  sound (set_reader (RQuerying p) n') ∧ evolved U W n (set_reader (RQuerying p) n') ∧ (∃ e, Own n p e) ∧
  ∃ rest, n' = set_entry p start_reading { n with nt_enumerating := rest }.
Proof.
  intros [HC HT] Hr. unfold takeEnumeration. destruct (no_more_work n); [done|]. destruct (_ <? _); [|done].
  destruct (nt_enumerating n) as [|p' rest] eqn:Eq; [done|]. intros [= <- <-].
  unfold Core in HC. rewrite Hr, Eq in HC. simpl in HC. split_and!; [split| | |eauto].
  - unfold Core. simpl. by apply core_take.
  - apply tight_alter; [done|done|]. intros e _ _. unfold releasable. simpl. by rewrite andb_false_r.
  - apply (evolved_frame _ _ _ (set_entry p' start_reading n)); [done..|]. apply evolved_set; [done|].
    intros e _. split; [apply (entry_keeps_refl _ _ e)|by left].
  - destruct (k_queued _ _ _ _ _ _ _ HC p') as (e & Ho & _); [by left|]. eauto.
Qed.

Lemma offer_sound now n p rest address n' :
  sound n → nt_reader n = ROffering p rest → offerTarget now n p address = (n', Some true) →
  sound n' ∧ ∃ e, Own n p e ∧ entry_over now e = false ∧
    n' = set_entry p (admit_target address) { n with nt_targets := nt_targets n ++ [(p, address)]; nt_targetCount := nt_targetCount n + 1 }.
Proof.
  intros [HC HT] Hr. unfold offerTarget. destruct (nt_heap n !! p) as [e|] eqn:Hp; [|done].
  destruct (entry_over now e) eqn:Eo; [done|]. destruct (_ <? _) eqn:Ec; [|done]. intros [= <-].
  unfold Core in HC. rewrite Hr in HC. simpl in HC. destruct (k_reader _ _ _ _ _ _ _ HC p eq_refl) as (e' & Ho).
  assert (e' = e) as -> by (destruct Ho; congruence). split; [split|eauto].
  - unfold Core. simpl. rewrite Hr. apply (core_perm _ _ _ _ ((p, address) :: held n)).
    + unfold held. simpl. solve_Permutation.
    + apply core_offer; [done|done|]. apply Z.ltb_lt in Ec. lia.
  - apply tight_alter; [done|done|]. intros e' Ho' _. rewrite (own_fun _ _ _ _ _ Ho' Ho).
    assert (ne_reading e = true) as Er by (by eapply k_reading). unfold releasable. simpl. rewrite Er. by rewrite andb_false_r.
Qed.

Lemma finish_enumeration_sound (U : nat → Prop) (W : nat → notificationEntry → Prop) now n p complete e :
  by_deadline W → sound n → nt_reader n = RFinishing p complete → nt_heap n !! p = Some e →
  (complete = true → U p) → (entry_over now e = true → W p e) →
  sound (set_reader RIdle (finishEnumeration now n p complete)) ∧ evolved U W n (set_reader RIdle (finishEnumeration now n p complete)) ∧
  { finishEnumeration now n p complete with nt_heap := nt_heap n; nt_entries := nt_entries n; nt_fullLogged := nt_fullLogged n;
      nt_enumerating := nt_enumerating n; nt_reader := nt_reader n } = n.
Proof.
  intros HW [HC HT] Hr Hp HU Hw. unfold finishEnumeration. rewrite Hp. cbv zeta.
  set (b := ne_enumerated e || complete || entry_over now e).
  set (n0 := set_entry p (stop_reading b) n).
  set (n1 := if b then n0 else { n0 with nt_enumerating := nt_enumerating n0 ++ [p] }).
  change (if b then _ else _) with n1.
  unfold Core in HC. rewrite Hr in HC. simpl in HC.
  destruct (k_reader _ _ _ _ _ _ _ HC p eq_refl) as (e' & Ho). assert (e' = e) as -> by (destruct Ho; congruence).
  assert (Core (set_reader RIdle n1)) as HC1.
  { pose proof (core_unread _ _ _ _ _ _ p e b HC Hp ltac:(unfold b; by intros ->)) as Hu. unfold Core, n1. by destruct b. }
  assert (Own (set_reader RIdle n1) p (stop_reading b e)) as Ho1.
  { unfold Own, n1. destruct b; apply own_alter; try done; exists e; by rewrite decide_True. }
  destruct (release_one (set_reader RIdle n1) p _ HC1 Ho1) as (HC2 & HT2 & HF & HE).
  { intros p' e' Ho' Hne. apply (HT p' e'). unfold Own, n1 in Ho'. destruct b; apply own_alter_ne in Ho'; done. }
  assert (releaseLocked (set_reader RIdle n1) p = set_reader RIdle (releaseLocked n1 p)) as E.
  { unfold releaseLocked. simpl. destruct (nt_heap n1 !! p) as [x|]; [|done]. by destruct (negb (ne_enumerated x) || _ || _). }
  rewrite E in *. split_and!; [by split| |].
  - eapply evolved_trans; [done| |apply HE]. apply (evolved_frame _ _ _ (set_entry p (stop_reading b) n)); [by destruct b..|].
    apply evolved_set; [done|]. intros e' He'. assert (e' = e) as -> by congruence. split; [|by left].
    unfold entry_keeps. simpl. split_and!; try done; [unfold b; by intros ->| |by left].
    unfold b. destruct (ne_enumerated e); [by left|]. destruct complete, (entry_over now e); simpl; try done; right; auto.
  - revert HF. unfold same_frame. generalize (releaseLocked n1 p). intros x. unfold n1, n0. clear. destruct x, n.
    destruct b; simpl; intros HF; injection HF; intros; subst; reflexivity.
Qed.

Lemma take_target_sound U W n n' k t :
  sound n → nt_senders n !! k = Some Idle → takeTarget n = (n', TakeOne t) →
  sound (set_sender k (Busy (t, false)) n') ∧ evolved U W n (set_sender k (Busy (t, false)) n') ∧
  ∃ rest, nt_targets n = t :: rest ∧ n' = { n with nt_targets := rest }.
Proof.
  intros [HC HT] Hk. unfold takeTarget. destruct (no_more_work n); [done|]. destruct (nt_targets n) as [|t' rest] eqn:Et; [done|].
  intros [= <- <-]. split_and!; [split| |eauto]; [|done|by apply (evolved_frame _ _ _ n); [..|apply evolved_refl]].
  unfold Core in *. simpl. eapply core_perm; [|exact HC]. unfold held. simpl. rewrite Et, (busy_take _ _ (t', false) Hk). simpl. solve_Permutation.
Qed.

Lemma call_sound U W n k t :
  sound n → nt_senders n !! k = Some (Busy (t, false)) →
  sound (set_sender k (Busy (t, true)) n) ∧ evolved U W n (set_sender k (Busy (t, true)) n).
Proof.
  intros [HC HT] Hk. split; [split|by apply (evolved_frame _ _ _ n); [..|apply evolved_refl]]; [|done].
  unfold Core in *. simpl. eapply core_perm; [|exact HC]. unfold held. simpl. f_equiv.
  pose proof (busy_insert _ _ _ (Busy (t, true)) Hk) as E. simpl in E. apply (fmap_Permutation fst) in E. simpl in E. by eapply Permutation_cons_inv.
Qed.

Lemma return_sound U W n k t b :
  by_deadline W → sound n → nt_senders n !! k = Some (Busy (t, b)) →
  sound (set_sender k Idle (send_done n t.1)) ∧ evolved U W n (set_sender k Idle (send_done n t.1)) ∧
  { send_done n t.1 with nt_heap := nt_heap n; nt_entries := nt_entries n; nt_fullLogged := nt_fullLogged n;
      nt_targetCount := nt_targetCount n } = n.
Proof.
  intros HW [HC HT] Hk. unfold send_done.
  set (n1 := set_entry t.1 return_target { n with nt_targetCount := nt_targetCount n - 1 }).
  change (set_entry t.1 _ _) with n1. pose proof (busy_release _ _ _ Idle Hk eq_refl) as Hb.
  assert (held n ≡ₚ t :: held (set_sender k Idle n1)) as Hh.
  { unfold held. simpl. rewrite Hb. simpl. solve_Permutation. }
  assert (Core (set_sender k Idle n1)) as HC1.
  { unfold Core in *. simpl. apply core_return. by eapply core_perm. }
  destruct (k_held _ _ _ _ _ _ _ HC t) as (e & Ho); [rewrite Hh; by left|].
  assert (Own (set_sender k Idle n1) t.1 (return_target e)) as Ho1.
  { apply own_alter; [done|]. exists e. by rewrite decide_True. }
  destruct (release_one (set_sender k Idle n1) t.1 _ HC1 Ho1) as (HC2 & HT2 & HF & HE).
  { intros p' e' Ho' Hne. apply (HT p' e'). apply own_alter_ne in Ho'; done. }
  assert (releaseLocked (set_sender k Idle n1) t.1 = set_sender k Idle (releaseLocked n1 t.1)) as E.
  { unfold releaseLocked. simpl. destruct (alter return_target t.1 (nt_heap n) !! t.1) as [x|]; [|done].
    by destruct (negb (ne_enumerated x) || _ || _). }
  rewrite E in *. split_and!; [by split| |].
  - eapply evolved_trans; [done| |apply HE]. apply (evolved_frame _ _ _ (set_entry t.1 return_target n)); [done..|].
    apply evolved_set; [done|]. intros e' _. split; [apply (entry_keeps_refl _ _ e')|by left].
  - unfold releaseLocked. simpl. destruct (alter return_target t.1 (nt_heap n) !! t.1) as [x|]; [|by destruct n].
    by destruct (negb (ne_enumerated x) || _ || _), n.
Qed.

(** *** Housekeeping *)

(** [n'] differs from [n] in its entries and its queue of Instances at most. *)
Definition marked (n n' : Notifier) : Prop := { n' with nt_heap := nt_heap n; nt_enumerating := nt_enumerating n } = n.

Lemma expire_entry_spec now n p e :
  Core n → Own n p e →
  let n' := expire_entry now n p in
  Core n' ∧ marked n n' ∧ (∀ U (W : nat → notificationEntry → Prop), (entry_over now e = true → W p e) → evolved U W n n') ∧
  (∀ p', (∃ e, Own n p' e) → ∃ e, Own n' p' e).
Proof.
  intros HC Ho. unfold expire_entry. rewrite (proj1 Ho). destruct (entry_over now e) eqn:Eo.
  2:{ split_and!; [done|by destruct n|intros; apply evolved_refl|done]. }
  pose proof (core_expire _ _ _ _ _ _ _ p HC) as HC'. split_and!.
  - unfold Core. destruct (ne_position e) eqn:Ep; [exact HC'|]. rewrite filter_all in HC'; [exact HC'|].
    intros p' Hp' ->. destruct (k_queued _ _ _ _ _ _ _ HC _ Hp') as (e' & Ho' & Hq'). rewrite (own_fun _ _ _ _ _ Ho' Ho) in Hq'. congruence.
  - by destruct (ne_position e), n.
  - intros U W HW. apply (evolved_frame _ _ _ (set_entry p expire_update n)); [by destruct (ne_position e)..|].
    apply evolved_set; [done|]. intros e' He'. assert (e' = e) as -> by (destruct Ho; congruence). split; [|by left].
    unfold entry_keeps. simpl. naive_solver.
  - intros p' He. assert (∃ e', Own (set_entry p expire_update n) p' e') as (e' & Ho') by (by apply own_alter_some). exists e'. by destruct (ne_position e).
Qed.

(** The budget of whoever [now] finds expired is over in the sense of [W]. *)
Definition over_for (W : nat → notificationEntry → Prop) (now : Time) (n : Notifier) : Prop :=
  ∀ p e, Own n p e → entry_over now e = true → W p e.

Lemma over_for_evolved U W now n n' : by_deadline W → evolved U W n n' → over_for W now n → over_for W now n'.
Proof.
  intros HW Hev Ho p e' Ho' Hover. destruct (ev_own _ _ _ _ Hev _ _ Ho') as (e & Hoe & Hd).
  destruct (heap_keeps_image _ _ _ _ _ _ (ev_heap _ _ _ _ Hev) (proj1 Hoe)) as (e2 & He2 & Hk).
  assert (e2 = e') as -> by (destruct Ho'; congruence). destruct Hk as (_ & Hdl & _).
  apply (HW p e' e); [done|]. unfold entry_over in Hover. apply orb_true_iff in Hover as [Hdone|Hlate].
  - destruct (Hd Hdone) as [?|?]; [|done]. apply Ho; [done|]. unfold entry_over. by rewrite H.
  - apply Ho; [done|]. unfold entry_over. rewrite Hdl in Hlate. by rewrite Hlate, orb_true_r.
Qed.

Lemma marked_trans n1 n2 n3 : marked n1 n2 → marked n2 n3 → marked n1 n3.
Proof. unfold marked. destruct n1, n2, n3; simpl. intros H12 H23. injection H12; injection H23; intros; subst; reflexivity. Qed.

Lemma expire_mark_list U W now l n :
  by_deadline W → Core n → over_for W now n → (∀ p, p ∈ l → ∃ e, Own n p e) →
  let n' := foldl (expire_entry now) n l in Core n' ∧ marked n n' ∧ evolved U W n n'.
Proof.
  intros HW. revert n. induction l as [|p l IH]; intros n HC Hov Hl; simpl.
  { split_and!; [done|by destruct n|apply evolved_refl]. }
  destruct (Hl p) as [e Ho]; [by left|]. destruct (expire_entry_spec now n p e HC Ho) as (HC1 & HM1 & HE1 & HO1).
  pose proof (HE1 U W (Hov _ _ Ho)) as HE1'.
  destruct (IH _ HC1) as (HC2 & HM2 & HE2).
  - by eapply over_for_evolved.
  - intros p' Hp'. apply HO1, Hl. by right.
  - split_and!; [done|by eapply marked_trans|by eapply evolved_trans].
Qed.

Lemma core_returns c m q l k r held h :
  core c h m q (l ++ held) k r → core c (foldr (λ t : Target, alter return_target t.1) h l) m q held (k - Z.of_nat (length l)) r.
Proof.
  revert held. induction l as [|t l IH]; intros hd HC; simpl.
  { by replace (k - Z.of_nat 0) with k by lia. }
  replace (k - Z.of_nat (S (length l))) with (k - Z.of_nat (length l) - 1) by lia. apply core_return, IH.
  eapply core_perm; [|exact HC]. simpl. solve_Permutation.
Qed.

Lemma drop_targets_spec U W n :
  by_deadline W → Core n → let n' := drop_targets n in Core n' ∧ evolved U W n n'.
Proof.
  intros HW HC. split.
  - unfold Core, drop_targets. simpl. apply (core_returns _ _ _ (expired_targets n)). eapply core_perm; [|exact HC].
    unfold held. simpl. rewrite app_assoc. f_equiv. unfold expired_targets.
    rewrite <-(filter_app_complement (λ t, target_expired n t = true) (nt_targets n)) at 1. f_equiv.
    rewrite (list_filter_iff (λ t, ¬ target_expired n t = true) (λ t, target_expired n t = false)); [done|].
    intros t. by destruct (target_expired n t).
  - apply (evolved_frame _ _ _ { n with nt_heap := foldr (λ t : Target, alter return_target t.1) (nt_heap n) (expired_targets n) }); [done..|].
    induction (expired_targets n) as [|t l IH]; [by apply (evolved_frame _ _ _ n); [..|apply evolved_refl]|].
    eapply evolved_trans; [done|exact IH|].
    apply (evolved_frame _ _ _ (set_entry t.1 return_target { n with nt_heap := foldr (λ t : Target, alter return_target t.1) (nt_heap n) l })); [done..|].
    apply evolved_set; [done|]. intros e' _. split; [apply (entry_keeps_refl _ _ e')|by left].
Qed.

Lemma expire_sound U W now n :
  by_deadline W → Core n → over_for W now n →
  sound (expire now n) ∧ evolved U W n (expire now n) ∧ evolved U W n (expire_mark now n) ∧ marked n (expire_mark now n) ∧
  nt_targets (expire now n) = filter (λ t, target_expired (expire_mark now n) t = false) (nt_targets n) ∧
  { expire now n with nt_heap := nt_heap n; nt_entries := nt_entries n; nt_fullLogged := nt_fullLogged n; nt_enumerating := nt_enumerating n;
      nt_targets := nt_targets n; nt_targetCount := nt_targetCount n; nt_expirer := nt_expirer n } = n.
Proof.
  intros HW HC Hov. destruct (expire_mark_list U W now (retained n) n HW HC Hov) as (HC1 & HM1 & HE1).
  { intros p. by apply elem_of_retained. }
  change (foldl (expire_entry now) n (retained n)) with (expire_mark now n) in *.
  destruct (drop_targets_spec U W (expire_mark now n) HW HC1) as (HC2 & HE2).
  destruct (release_all_spec _ HC2) as (HC3 & HT3 & HF3 & HE3).
  unfold expire. set (n3 := release_all _) in *. set (n1 := expire_mark now n) in *.
  assert (nt_targets n1 = nt_targets n) as Et by (clear -HM1; unfold marked in HM1; destruct n1, n; by injection HM1).
  split_and!; [split; [exact HC3|exact HT3]| |done|done| |].
  - apply (evolved_frame _ _ _ n3); [done..|]. eapply evolved_trans; [done|exact HE1|]. eapply evolved_trans; [done|exact HE2|apply HE3].
  - rewrite <-Et. clear -HF3. unfold same_frame in HF3. simpl. change (filter _ _) with (nt_targets (drop_targets n1)).
    destruct n3, (drop_targets n1). by injection HF3.
  - clear -HM1 HF3. revert HF3 HM1. unfold same_frame, marked. generalize (nt_targets n1). destruct n3, n1, n. intros l H1 H2.
    injection H1. injection H2. intros. subst. reflexivity.
Qed.

Lemma finish_sound n drainDone :
  sound n → reader_exited n = true → forallb exited (nt_senders n) = true →
  sound (finish n drainDone) ∧ (∀ p e, ¬ Own (finish n drainDone) p e) ∧ heap_keeps (λ _, False) (λ _ _, False) (nt_heap n) (nt_heap (finish n drainDone)).
Proof.
  intros [HC HT] Hr Hs. assert (∀ p e, ¬ Own (finish n drainDone) p e) as Hno by (intros p e [_ Ho]; done).
  split_and!; [split|done|].
  - unfold reader_exited in Hr. destruct (nt_reader n) eqn:Er; try done. destruct HC. unfold Core, held. simpl. rewrite Er, busy_exited by done. simpl.
    constructor; try done; try lia; try (intros; exfalso; by eapply Hno); try (intros ? []%elem_of_nil).
    + constructor.
    + change (Z.of_nat (size (∅ : gmap Z nat)) ≤ nc_InstanceCapacity (nt_config n)). rewrite map_size_empty. lia.
  - intros p e Ho. exfalso. by eapply Hno.
  - simpl. induction (retained n) as [|p l IH]; simpl; [apply heap_keeps_refl|].
    eapply heap_keeps_trans; [done|exact IH|]. apply heap_keeps_alter. intros e _. unfold entry_keeps. simpl. naive_solver.
Qed.

(** ** Saved addresses *)

(** The documented behaviour of the collation: a total order, in which the empty string is
    first. *)
Record collation_ordered `{PgLib} : Prop := {
  co_total : ∀ a b, collation_le a b = true ∨ collation_le b a = true;
  co_trans : ∀ a b c, collation_le a b = true → collation_le b c = true → collation_le a c = true;
  co_antisym : ∀ a b, collation_le a b = true → collation_le b a = true → a = b;
  co_empty : ∀ a, collation_le "" a = true;
}.

Section addresses.
Context `{PgLib} (CO : collation_ordered).

Definition addr_lt (a b : string) : Prop := collation_le b a = false.

Lemma addr_lt_irrefl a : ¬ addr_lt a a.
Proof. unfold addr_lt. destruct (co_total CO a a); congruence. Qed.
Lemma addr_lt_le a b : addr_lt a b → collation_le a b = true.
Proof. unfold addr_lt. intros Hlt. destruct (co_total CO a b); [done|congruence]. Qed.
Lemma addr_lt_trans : Transitive addr_lt.
Proof.
  intros a b c Hab Hbc. unfold addr_lt in *. destruct (collation_le c a) eqn:E; [|done].
  assert (collation_le b a = true); [|congruence]. eapply co_trans; [done| |exact E]. by apply addr_lt_le.
Qed.
Lemma addr_le_lt a b : collation_le a b = true → a ≠ b → addr_lt a b.
Proof. intros Hle Hne. unfold addr_lt. destruct (collation_le b a) eqn:E; [|done]. destruct Hne. by apply (co_antisym CO). Qed.
Lemma addr_cases a b : collation_le a b = true ∨ addr_lt b a.
Proof. unfold addr_lt. destruct (collation_le a b); auto. Qed.

(** An address of a Task of the Instance. *)
Definition has_address (id : Z) (d : DB) (a : string) : Prop :=
  ∃ tid t, tasks d !! tid = Some t ∧ t_instance_id t = id ∧ t_executor_address t = Some a.

Lemma elem_of_addresses_after after id d a : a ∈ addresses_after after id d ↔ has_address id d a ∧ addr_lt after a.
Proof.
  unfold addresses_after. rewrite merge_sort_Permutation, elem_of_remove_dups, list_elem_of_omap. split.
  - intros ([tid t] & Hin & E). apply elem_of_rows in Hin. simpl in E. destruct (Z.eqb_spec (t_instance_id t) id) as [Hid|]; [|done].
    destruct (t_executor_address t) as [a'|] eqn:Ea; [|done]. destruct (collation_le a' after) eqn:Ec; [done|]. simpl in E. injection E as ->.
    split; [|done]. by exists tid, t.
  - intros [(tid & t & Ht & Hid & Ea) Hlt]. exists (tid, t). split; [by apply elem_of_rows|]. simpl. rewrite Hid, Z.eqb_refl, Ea.
    unfold addr_lt in Hlt. by rewrite Hlt.
Qed.

Lemma addresses_after_sorted after id d : StronglySorted addr_lt (addresses_after after id d).
Proof.
  assert (StronglySorted address_le (addresses_after after id d)) as Hs.
  { apply Sorted_StronglySorted; [intros a b c; apply (co_trans CO)|]. apply Sorted_merge_sort. intros a b. apply (co_total CO). }
  assert (NoDup (addresses_after after id d)) as Hd.
  { unfold addresses_after. rewrite merge_sort_Permutation. apply NoDup_remove_dups. }
  induction Hs as [|a l Hs IH Hf]; [constructor|]. apply NoDup_cons in Hd as [Ha Hd]. constructor; [by apply IH|].
  apply Forall_forall. intros b Hb. apply addr_le_lt; [by eapply Forall_forall in Hf|]. by intros ->.
Qed.

Lemma elem_of_saved id d a : a ∈ saved id d ↔ has_address id d a ∧ a ≠ "".
Proof.
  unfold saved. rewrite elem_of_addresses_after. f_equiv. split; [intros Hlt ->; by apply (addr_lt_irrefl "")|].
  intros Hne. apply addr_le_lt; [apply (co_empty CO)|done].
Qed.

(** A page of the query: what it skips beyond its last address comes later. *)
Lemma page_spec after id d limit page :
  page = take limit (addresses_after after id d) →
  StronglySorted addr_lt (after :: page) ∧ (∀ a, a ∈ page → has_address id d a ∧ a ≠ "") ∧
  ∀ a, has_address id d a → addr_lt after a → a ∈ page ∨ (∀ x, x ∈ page → addr_lt x a).
Proof.
  intros ->. pose proof (addresses_after_sorted after id d) as Hs. pose proof (elem_of_addresses_after after id d) as Hin.
  set (l := addresses_after after id d) in *. rewrite <-(take_drop limit l) in Hs.
  assert (∀ a, a ∈ take limit l → a ∈ l) as Ht by (intros a Ha; rewrite <-(take_drop limit l); set_solver).
  split_and!.
  - constructor; [by eapply StronglySorted_app_inv_l|]. apply Forall_forall. intros a Ha. by apply Hin, Ht.
  - intros a Ha. apply Ht, Hin in Ha as [Ha Hlt]. split; [done|]. intros ->. pose proof (co_empty CO after). unfold addr_lt in Hlt. congruence.
  - intros a Ha Hlt. assert (a ∈ l) as Hl by (by apply Hin). rewrite <-(take_drop limit l) in Hl. apply elem_of_app in Hl as [|Hd]; [by left|].
    right. intros x Hx. by eapply StronglySorted_split.
Qed.

(** ** What a stop decision fixes *)

Lemma decided_stable d d' note : db_inv d → db_evolves d d' → decided d note → decided d' note.
Proof.
  intros HI He (i & Hi & Ha & Hg & Hr). destruct (dbe_instances _ _ He _ _ Hi) as (i' & Hi' & Hev). exists i'.
  pose proof (iw_status _ (inv_inst _ HI _ _ Hi)) as Hw. split_and!; [done| | |].
  - by eapply inst_next_authorizing; [apply (ie_status _ _ Hev)|].
  - pose proof (ie_frozen _ _ Hev) as Hf. unfold frozen in Hf. congruence.
  - rewrite <-Hr. unfold inst_status_wf in Hw. destruct (i_status i) eqn:Es; try done.
    all: first [by apply (ie_stop _ _ Hev)|rewrite (ie_terminal _ _ Hev); [done|by rewrite Es]].
Qed.

(** No attempt is registered after the decision, so no address is replaced. *)
Lemma address_stable d d' note a :
  db_evolves d d' → decided d note → has_address (no_InstanceID note) d a → has_address (no_InstanceID note) d' a.
Proof.
  intros He (i & Hi & Ha & _) (tid & t & Ht & Hid & Hadr). destruct (dbe_tasks _ _ He _ _ Ht) as (t' & Ht' & Hev).
  pose proof (te_identity _ _ Hev) as Hi'. assert (t_instance_id t' = t_instance_id t) as Eid by congruence.
  destruct (dbe_authorized _ _ He _ _ Ht' i) as (t0 & Ht0 & Hno); [by rewrite Eid, Hid|done|].
  assert (t0 = t) as -> by congruence. exists tid, t'. split_and!; [done|congruence|].
  by apply (sa_address _ _ (te_same _ _ Hev (eq_sym Hno))).
Qed.

(** The reader's query, with whatever happens to the tables before it is answered. *)
Lemma cancel_query_ok d env w id after limit page :
  db_inv d → rely env → ListCancelTargets Auto id after limit (start d env) = (w, Ok page) →
  db_inv (w_db w) ∧ db_evolves d (w_db w) ∧ page = take (Z.to_nat limit) (addresses_after after id (w_db w)).
Proof.
  intros HI Hr E. eapply (wp_start _ _ _ _ _ (λ r d' _, r = Ok page → page = take (Z.to_nat limit) (addresses_after after id d'))) in E as (HI' & He & Hq);
    [split_and!; [done|done|by apply Hq]| |done|done].
  unfold ListCancelTargets. destruct (_ || _); [by apply wp_fail|]. apply wp_query. intros ev d1 _ _. split; [|done].
  destruct (negb (pg_text after)); [done|]. by intros [= <-].
Qed.
End addresses.
