(* ===== verification/NotifierDelivery.v ===== *)
(** * Every executor of a stopped Instance is told once

    The invariant of the interleavings of Notifier.v and the two theorems read off it: the
    bounds and the accounting of the notifier, and the delivery of a stop decision. *)

From S2P Require Import Cancellation.
From S2P Require Import Prelude GoLib Tx Model TaskRepo InstanceRepo JobRepo Logic Protocol HintSpec Notifier NotifierInv.
From S2P Require Import Trigger Dispatcher ResultSaver Settler StopController Checker RpcErrors JobLogic Transitions RepoRules.
From S2P Require Import Registration Stopping Triggering Management System Runs Progress.
From Stdlib Require Import OrdersEx.

Open Scope string_scope.
Open Scope list_scope.
Open Scope Z_scope.

(** ** The life of the goroutines *)

Record life (n : Notifier) : Prop := {
  l_unstarted : nt_started n = false → nt_heap n = [] ∧ nt_entries n = ∅ ∧ nt_reader n = RExited ∧ nt_senders n = [] ∧ nt_expirer n = false;
  l_senders : (length (nt_senders n) ≤ Z.to_nat (nc_Concurrency (nt_config n)))%nat;
  l_exit : nt_started n = true → nt_reader n = RExited → no_more_work n = true;
  l_closing : nt_canceled n = true ∨ is_Some (nt_drainCtx n) → nt_stopping n = true;
  l_page : 1 ≤ nc_PageSize (nt_config n);
  l_completed : nt_completed n = true →
    nt_stopping n = true ∧ nt_entries n = ∅ ∧ nt_reader n = RExited ∧ forallb exited (nt_senders n) = true ∧ nt_expirer n = false;
}.

(** Shutting down never makes work reappear. *)
Lemma no_more_work_stays n n' :
  (nt_canceled n = true → nt_canceled n' = true) → (nt_stopping n = true → nt_stopping n' = true) →
  (nt_entries n = ∅ → nt_entries n' = ∅) → no_more_work n = true → no_more_work n' = true.
Proof.
  unfold no_more_work. intros H1 H2 H3 Hn. apply orb_true_iff in Hn as [Hc|Hn]; apply orb_true_iff; [by left; auto|]. right. to_prop. apply andb_true_iff. split; [auto|]. apply bool_decide_eq_true; auto.
Qed.

(** The part of the state the life depends on. *)
Definition life_part (n : Notifier) := (nt_config n, nt_started n, nt_stopping n, nt_completed n, nt_canceled n, nt_drainCtx n).

Lemma life_quiet n n' :
  life n → life_part n' = life_part n → (nt_started n = false → n' = n) → (nt_entries n = ∅ → nt_entries n' = ∅) →
  length (nt_senders n') = length (nt_senders n) → (nt_completed n = true → n' = n) →
  (nt_reader n' = RExited → nt_reader n = RExited ∨ no_more_work n' = true) → life n'.
Proof.
  intros HL [= Ec Es Ep Ed Ek Ex] Hu He Hl Hd Hr. destruct (nt_completed n) eqn:Edn; [by rewrite Hd|].
  destruct (nt_started n) eqn:Esn; [|by rewrite Hu]. destruct HL. constructor; rewrite ?Ec, ?Es, ?Ed, ?Ek, ?Ex, ?Ep; try done; [by rewrite Hl|].
  intros _ [Hx|?]%Hr; [|done]. apply (no_more_work_stays n); [congruence..|done|auto].
Qed.

Definition running (n : Notifier) : Prop := nt_started n = true ∧ nt_completed n = false.

Lemma running_reader n : life n → nt_reader n ≠ RExited → running n.
Proof.
  intros HL Hr. split.
  - destruct (nt_started n) eqn:E; [done|]. by destruct (l_unstarted _ HL E) as (_ & _ & ? & _).
  - destruct (nt_completed n) eqn:E; [|done]. by destruct (l_completed _ HL E) as (_ & _ & ? & _).
Qed.
Lemma running_sender n k x : life n → nt_senders n !! k = Some x → x ≠ Exited → running n.
Proof.
  intros HL Hk Hx. split.
  - destruct (nt_started n) eqn:E; [done|]. destruct (l_unstarted _ HL E) as (_ & _ & _ & Hs & _). by rewrite Hs in Hk.
  - destruct (nt_completed n) eqn:E; [|done]. destruct (l_completed _ HL E) as (_ & _ & _ & Hs & _). destruct Hx. by eapply exited_lookup.
Qed.
Lemma running_expirer n : life n → nt_expirer n = true → running n.
Proof.
  intros HL Hx. split.
  - destruct (nt_started n) eqn:E; [done|]. destruct (l_unstarted _ HL E) as (_ & _ & _ & _ & ?). congruence.
  - destruct (nt_completed n) eqn:E; [|done]. destruct (l_completed _ HL E) as (_ & _ & _ & _ & ?). congruence.
Qed.

Lemma life_running n n' :
  life n → running n → life_part n' = life_part n → (nt_entries n = ∅ → nt_entries n' = ∅) → length (nt_senders n') = length (nt_senders n) →
  (nt_reader n' = RExited → nt_reader n = RExited ∨ no_more_work n' = true) → life n'.
Proof. intros HL [Hs Hc] Hp He Hl Hr. apply (life_quiet n); try done; congruence. Qed.

(** ** Delivery *)

Definition waiting_of (x : Worker (Target * bool)) : option Target := match x with Busy (t, false) => Some t | _ => None end.
(** Targets in the hands of senders that have not called [Cancel] yet. *)
Definition waiting (n : Notifier) : list Target := omap waiting_of (nt_senders n).

Lemma waiting_insert ws k x y :
  ws !! k = Some x → option_list (waiting_of x) ++ omap waiting_of (<[k := y]> ws) ≡ₚ option_list (waiting_of y) ++ omap waiting_of ws.
Proof.
  intros Hk. rewrite insert_take_drop by (by eapply lookup_lt_Some). rewrite <-(take_drop_middle ws k x) at 3 by done.
  assert (∀ x l, omap waiting_of (x :: l) = option_list (waiting_of x) ++ omap waiting_of l) as E
    by (intros z l; csimpl; by destruct (waiting_of z)).
  rewrite !omap_app, !E. solve_Permutation.
Qed.

Lemma waiting_held n t : t ∈ nt_targets n ++ waiting n → t ∈ held n.
Proof.
  unfold held, waiting. rewrite !elem_of_app. intros [?|Ht]; [by left|right]. apply list_elem_of_omap in Ht as (x & Hx & E).
  destruct x as [|[t' []]|]; simplify_eq/=. apply list_elem_of_fmap. exists (t, false). split; [done|].
  apply list_elem_of_lookup in Hx as [k Hk]. apply elem_of_busy. eauto.
Qed.

Definition addresses_of (p : nat) (l : list Target) : list string := (filter (λ t, t.1 = p) l).*2.
Lemma elem_of_addresses_of p l a : a ∈ addresses_of p l ↔ (p, a) ∈ l.
Proof.
  unfold addresses_of. rewrite list_elem_of_fmap. split.
  - intros ([p' a'] & -> & [Hp Hl]%list_elem_of_filter). simpl in *. by subst.
  - intros Hl. exists (p, a). split; [done|]. by apply list_elem_of_filter.
Qed.
Lemma addresses_of_snoc p l p' a : addresses_of p (l ++ [(p', a)]) = addresses_of p l ++ (if decide (p' = p) then [a] else []).
Proof. unfold addresses_of. rewrite filter_app, fmap_app. f_equal. rewrite filter_cons. simpl. by destruct (decide (p' = p)). Qed.

Section delivery.
Context `{PgLib} (CO : collation_ordered).

(** Why an entry's enumeration is over. *)
Definition why (w : World) (p : nat) (e : notificationEntry) : Prop :=
  p ∈ nw_ended w ∨ p ∈ nw_failed w ∨ budget_over (nw_now w) (nw_n w) e.

Record delivery (w : World) : Prop := {
  d_sound : sound (nw_n w);
  d_life : life (nw_n w);
  d_db : db_inv (nw_db w);
  d_len : length (nw_saved w) = length (nt_heap (nw_n w));
  d_note : ∀ p e, nt_heap (nw_n w) !! p = Some e → decided (nw_db w) (ne_notification e);
  d_sorted : ∀ p, StronglySorted addr_lt (addresses_of p (nw_offered w));
  d_offered : ∀ t, t ∈ nw_offered w → ∃ e, nt_heap (nw_n w) !! t.1 = Some e ∧ has_address (id_of e) (nw_db w) t.2 ∧
    collation_le t.2 (ne_cursor e) = true;
  d_saved : ∀ p e l a, nt_heap (nw_n w) !! p = Some e → nw_saved w !! p = Some l → a ∈ l →
    has_address (id_of e) (nw_db w) a ∧ ((p, a) ∈ nw_offered w ∨ addr_lt (ne_cursor e) a);
  d_page : ∀ p rest e, nt_reader (nw_n w) = ROffering p rest → nt_heap (nw_n w) !! p = Some e →
    StronglySorted addr_lt (ne_cursor e :: rest) ∧ (∀ a, a ∈ rest → has_address (id_of e) (nw_db w) a ∧ a ≠ "") ∧
    ∀ l a, nw_saved w !! p = Some l → a ∈ l → (p, a) ∈ nw_offered w ∨ a ∈ rest ∨ ∀ x, x ∈ rest → addr_lt x a;
  d_split : nw_offered w ≡ₚ nw_called w ++ nw_lost w ++ nt_targets (nw_n w) ++ waiting (nw_n w);
  d_lost : ∀ t, t ∈ nw_lost w → ∃ e, nt_heap (nw_n w) !! t.1 = Some e ∧ budget_over (nw_now w) (nw_n w) e;
  d_ended : ∀ p l a, p ∈ nw_ended w → nw_saved w !! p = Some l → a ∈ l → (p, a) ∈ nw_offered w;
  d_known : ∀ p, p ∈ nw_ended w → (p < length (nt_heap (nw_n w)))%nat;
  d_why : ∀ p e, nt_heap (nw_n w) !! p = Some e → ne_enumerated e = true → why w p e;
  d_finishing : ∀ p e, nt_reader (nw_n w) = RFinishing p true → nt_heap (nw_n w) !! p = Some e → why w p e;
  d_done : ∀ p e, Own (nw_n w) p e → ne_done e = true → budget_over (nw_now w) (nw_n w) e;
  d_expired : ∀ p e, nt_heap (nw_n w) !! p = Some e → ne_expired e = true → budget_over (nw_now w) (nw_n w) e;
  d_gone : ∀ p e, nt_heap (nw_n w) !! p = Some e → (∃ e', Own (nw_n w) p e') ∨ ne_enumerated e = true ∨ nt_canceled (nw_n w) = true;
}.

Lemma budget_over_mono now now' n n' e e' :
  now ≤ now' → (nt_canceled n = true → nt_canceled n' = true) → (∀ x, nt_drainCtx n = Some x → nt_drainCtx n' = Some x) →
  ne_deadline e' = ne_deadline e → budget_over now n e → budget_over now' n' e'.
Proof.
  intros Hn Hc Hd E [?|[?|(t & Ht & ?)]]; unfold budget_over; [auto|right; left; lia|]. right; right. exists t. split; [auto|lia].
Qed.

Lemma over_by_deadline w : by_deadline (λ _, budget_over (nw_now w) (nw_n w)).
Proof. intros p e e' E. apply budget_over_mono; try done. Qed.

(** The pass of the entry at [p] is over, whatever the reason. *)
Definition pass_over (w : World) (p : nat) : Prop := ∀ e, nt_heap (nw_n w) !! p = Some e → why w p e.

(** Steps that add no entry, no page and no offer. *)
Record quiet (w w' : World) : Prop := {
  q_sound : sound (nw_n w');
  q_life : life (nw_n w');
  q_heap : heap_keeps (pass_over w) (λ _, budget_over (nw_now w') (nw_n w')) (nt_heap (nw_n w)) (nt_heap (nw_n w'));
  q_own : ∀ p e', Own (nw_n w') p e' → ∃ e, Own (nw_n w) p e ∧ (ne_done e' = true → ne_done e = true ∨ budget_over (nw_now w') (nw_n w') e);
  q_gone : ∀ p e, Own (nw_n w) p e → (∃ e', Own (nw_n w') p e') ∨
    (∃ e', nt_heap (nw_n w') !! p = Some e' ∧ ne_enumerated e' = true) ∨ nt_canceled (nw_n w') = true;
  q_db : db_inv (nw_db w') ∧ db_evolves (nw_db w) (nw_db w');
  q_now : nw_now w ≤ nw_now w';
  q_canceled : nt_canceled (nw_n w) = true → nt_canceled (nw_n w') = true;
  q_drain : ∀ x, nt_drainCtx (nw_n w) = Some x → nt_drainCtx (nw_n w') = Some x;
  q_logs : nw_saved w' = nw_saved w ∧ nw_offered w' = nw_offered w ∧ nw_ended w' = nw_ended w;
  q_failed : ∀ p, p ∈ nw_failed w → p ∈ nw_failed w';
  q_split : nw_called w' ++ nw_lost w' ++ nt_targets (nw_n w') ++ waiting (nw_n w') ≡ₚ
            nw_called w ++ nw_lost w ++ nt_targets (nw_n w) ++ waiting (nw_n w);
  q_lost : ∀ t, t ∈ nw_lost w' → t ∈ nw_lost w ∨ ∃ e, nt_heap (nw_n w') !! t.1 = Some e ∧ budget_over (nw_now w') (nw_n w') e;
  q_reader : ∀ p rest, nt_reader (nw_n w') = ROffering p rest → nt_reader (nw_n w) = ROffering p rest;
  q_finishing : ∀ p e, nt_reader (nw_n w') = RFinishing p true → nt_heap (nw_n w') !! p = Some e →
    nt_reader (nw_n w) = RFinishing p true ∨ p ∈ nw_failed w' ∨ budget_over (nw_now w') (nw_n w') e;
}.

Lemma quiet_delivery w w' : delivery w → quiet w w' → delivery w'.
Proof.
  intros D Q. destruct (q_db _ _ Q) as [HI' Hev], (q_logs _ _ Q) as (Es & Eo & Ee).
  pose proof (λ p e', heap_keeps_lookup _ _ _ _ p e' (q_heap _ _ Q)) as Hback.
  assert (∀ e e', ne_deadline e' = ne_deadline e → budget_over (nw_now w) (nw_n w) e → budget_over (nw_now w') (nw_n w') e') as Hover.
  { intros e e'. apply budget_over_mono; apply Q. }
  assert (∀ p e e', ne_deadline e' = ne_deadline e → why w p e → why w' p e') as Hwhy.
  { intros p e e' Hd [?|[?|?]]; unfold why; [left; congruence|right; left; by apply Q|right; right; eauto]. }
  constructor.
  - apply Q.
  - apply Q.
  - done.
  - rewrite Es, (d_len _ D). symmetry. by eapply heap_keeps_length, Q.
  - intros p e' (e & He & Hk)%Hback. destruct Hk as (-> & _). eapply decided_stable; [apply D|done|by eapply d_note].
  - intros p. rewrite Eo. apply D.
  - intros t Ht. rewrite Eo in Ht. destruct (d_offered _ D _ Ht) as (e & He & Ha & Hc).
    destruct (heap_keeps_image _ _ _ _ _ _ (q_heap _ _ Q) He) as (e' & He' & Hn & _ & Hcu & _). exists e'. unfold id_of. rewrite Hn, Hcu.
    split_and!; [done| |done]. eapply address_stable; [done|by eapply d_note|done].
  - intros p e' l a (e & He & Hn & _ & Hcu & _)%Hback Hl Ha. rewrite Es in Hl. rewrite Eo. unfold id_of. rewrite Hn, Hcu.
    destruct (d_saved _ D _ _ _ _ He Hl Ha). split; [|done]. eapply address_stable; [done|by eapply d_note|done].
  - intros p rest e' Hr (e & He & Hn & _ & Hcu & _)%Hback. rewrite Es, Eo. unfold id_of. rewrite Hn, Hcu.
    destruct (d_page _ D _ _ _ (q_reader _ _ Q _ _ Hr) He) as (Hs & Hp & Hc). split_and!; [done| |done].
    intros a [Ha Hne]%Hp. split; [|done]. eapply address_stable; [done|by eapply d_note|done].
  - rewrite Eo, (d_split _ D). symmetry. apply Q.
  - intros t [Ht|?]%(q_lost _ _ Q); [|done]. destruct (d_lost _ D _ Ht) as (e & He & Hb).
    destruct (heap_keeps_image _ _ _ _ _ _ (q_heap _ _ Q) He) as (e' & He' & _ & Hd & _). exists e'. split; [done|eauto].
  - intros p l a Hp Hl Ha. rewrite Ee, Es, Eo in *. by eapply d_ended.
  - intros p Hp. rewrite Ee in Hp. rewrite (heap_keeps_length _ _ _ _ (q_heap _ _ Q)). by apply D.
  - intros p e' (e & He & _ & Hd & _ & _ & _ & Hen & _)%Hback Hen'. destruct (Hen Hen') as [Ho|[Ho|Ho]].
    + eapply Hwhy; [done|by eapply d_why].
    + eapply Hwhy; [done|by apply Ho].
    + right; right. revert Ho. by apply budget_over_mono.
  - intros p e' Hr He'. destruct (q_finishing _ _ Q _ _ Hr He') as [Hr'|[?|?]]; [|by right; left|by right; right].
    destruct (Hback _ _ He') as (e & He & _ & Hd & _). eapply Hwhy; [done|by eapply d_finishing].
  - intros p e' Ho Hdone. destruct (q_own _ _ Q _ _ Ho) as (e & Hoe & Hd).
    destruct (Hback _ _ (proj1 Ho)) as (e2 & He2 & _ & Hdl & _). assert (e2 = e) as -> by (destruct Hoe; congruence).
    destruct (Hd Hdone) as [Hde|Hb]; [|revert Hb; by apply budget_over_mono].
    eapply Hover; [done|by eapply d_done].
  - intros p e' (e & He & _ & Hd & _ & _ & _ & _ & Hx)%Hback Hx'. destruct (Hx Hx') as [Ho|Hb]; [|revert Hb; by apply budget_over_mono].
    eapply Hover; [done|by eapply d_expired].
  - intros p e' He'. destruct (Hback _ _ He') as (e & He & _ & _ & _ & Hen & _). destruct (d_gone _ D _ _ He) as [[e1 Ho]|[Hd|Hc]].
    + destruct (q_gone _ _ Q _ _ Ho) as [?|[(e2 & He2 & ?)|?]]; [by left| |by right; right]. right; left. congruence.
    + right; left. auto.
    + right; right. by apply Q.
Qed.

(** Steps of the goroutines and callers. *)
Lemma node_delivery w w' :
  delivery w → sound (nw_n w') → life (nw_n w') →
  evolved (pass_over w) (λ _, budget_over (nw_now w) (nw_n w')) (nw_n w) (nw_n w') →
  (nw_db w', nw_now w', nw_saved w', nw_offered w', nw_ended w') = (nw_db w, nw_now w, nw_saved w, nw_offered w, nw_ended w) →
  (nt_canceled (nw_n w) = true → nt_canceled (nw_n w') = true) →
  (∀ x, nt_drainCtx (nw_n w) = Some x → nt_drainCtx (nw_n w') = Some x) →
  (∀ p, p ∈ nw_failed w → p ∈ nw_failed w') →
  nw_called w' ++ nw_lost w' ++ nt_targets (nw_n w') ++ waiting (nw_n w') ≡ₚ
    nw_called w ++ nw_lost w ++ nt_targets (nw_n w) ++ waiting (nw_n w) →
  (∀ t, t ∈ nw_lost w' → t ∈ nw_lost w ∨ ∃ e, nt_heap (nw_n w') !! t.1 = Some e ∧ budget_over (nw_now w) (nw_n w') e) →
  (∀ p rest, nt_reader (nw_n w') = ROffering p rest → nt_reader (nw_n w) = ROffering p rest) →
  (∀ p e, nt_reader (nw_n w') = RFinishing p true → nt_heap (nw_n w') !! p = Some e →
    nt_reader (nw_n w) = RFinishing p true ∨ p ∈ nw_failed w' ∨ budget_over (nw_now w) (nw_n w') e) →
  delivery w'.
Proof.
  intros D HS HL HE [= Ed En Es Eo Ee] Hc Hd Hf Hsp Hl Hr Hfi. apply (quiet_delivery w); [done|]. pose proof (d_db _ D) as HI.
  constructor; rewrite ?Ed, ?En, ?Es, ?Eo, ?Ee; try done.
  - apply HE.
  - apply HE.
  - intros p e Ho. destruct (ev_gone _ _ _ _ HE _ _ Ho) as [?|?]; auto.
Qed.

(** Steps that do not touch the entries. *)
Lemma still_delivery w n' :
  delivery w → sound n' → life n' → nt_heap n' = nt_heap (nw_n w) → nt_entries n' = nt_entries (nw_n w) →
  nt_targets n' = nt_targets (nw_n w) → waiting n' ≡ₚ waiting (nw_n w) →
  (nt_canceled (nw_n w) = true → nt_canceled n' = true) →
  (∀ x, nt_drainCtx (nw_n w) = Some x → nt_drainCtx n' = Some x) →
  (∀ p rest, nt_reader n' = ROffering p rest → nt_reader (nw_n w) = ROffering p rest) →
  (∀ p, nt_reader n' = RFinishing p true → nt_reader (nw_n w) = RFinishing p true) →
  delivery { w with nw_n := n' }.
Proof.
  intros D HS HL Eh Em Et Ew Hc Hd Hr Hf. apply (node_delivery w); simpl; try done.
  - apply (evolved_frame _ _ _ (nw_n w)); [done..|apply evolved_refl].
  - by rewrite Et, Ew.
  - by left.
  - intros p e Hp _. left. by apply Hf.
Qed.

Lemma start_delivery w n' : delivery w → Start (nw_n w) = Ok n' → delivery { w with nw_n := n' }.
Proof.
  intros D. unfold Start. destruct (nt_started (nw_n w)) eqn:Es, (nt_stopping (nw_n w)) eqn:Ep; try done. intros [= <-].
  destruct (l_unstarted _ (d_life _ D) Es) as (Eh & Em & Er & Ew & Ex). destruct (d_sound _ D) as [HC HT].
  apply still_delivery; try done; simpl.
  - split; [|done]. unfold Core, held in *. simpl. rewrite busy_replicate. by rewrite Ew, Er in HC.
  - pose proof (d_life _ D) as []. constructor; simpl; try done; [by rewrite length_replicate|].
    intros Hc. destruct (l_completed0 Hc) as (? & _). congruence.
  - unfold waiting. simpl. rewrite Ew. simpl. clear. by induction (Z.to_nat (nc_Concurrency (nt_config (nw_n w)))).
Qed.

(** Closing admission and cancelling. *)
Lemma closing_delivery w n' :
  delivery w → { n' with nt_stopping := nt_stopping (nw_n w); nt_completed := nt_completed (nw_n w); nt_canceled := nt_canceled (nw_n w);
                         nt_drainCtx := nt_drainCtx (nw_n w); nt_drainErr := nt_drainErr (nw_n w) } = nw_n w →
  (nt_canceled (nw_n w) = true → nt_canceled n' = true) → (nt_stopping (nw_n w) = true → nt_stopping n' = true) →
  (∀ x, nt_drainCtx (nw_n w) = Some x → nt_drainCtx n' = Some x) →
  (nt_canceled n' = true ∨ is_Some (nt_drainCtx n') → nt_stopping n' = true) →
  (nt_completed n' = true → nt_stopping n' = true ∧ (nt_completed (nw_n w) = true ∨ nt_started (nw_n w) = false)) →
  delivery { w with nw_n := n' }.
Proof.
  intros D E Hc Hs Hd Hcl Hcp. apply (f_equal (λ n, (nt_config n, nt_started n, nt_heap n, nt_entries n, nt_enumerating n, nt_targets n,
    nt_targetCount n, nt_reader n, nt_senders n, nt_expirer n))) in E. simpl in E. injection E as E1 E2 E3 E4 E5 E6 E7 E8 E9 E10.
  destruct (d_sound _ D) as [HC HT]. pose proof (d_life _ D) as HL. apply still_delivery; simpl; try done.
  - unfold sound, Core, Tight, held. rewrite E1, E3, E4, E5, E6, E7, E8, E9. done.
  - constructor; rewrite ?E1, ?E2, ?E3, ?E4, ?E8, ?E9, ?E10; try apply HL.
    + intros H1 H2. apply (no_more_work_stays (nw_n w)); [done..|by rewrite E4|by apply HL].
    + exact Hcl.
    + intros Hx. destruct (Hcp Hx) as [Hst [Hy|Hy]]; split; try done.
      * by apply (l_completed _ HL).
      * destruct (l_unstarted _ HL Hy) as (_ & -> & -> & -> & ->). done.
  - unfold waiting. by rewrite E9.
  - by rewrite E8.
  - by rewrite E8.
Qed.

Lemma stop_delivery w : delivery w → delivery { w with nw_n := Stop (nw_n w) }.
Proof.
  intros D. pose proof (d_life _ D) as HL. unfold Stop. destruct (nt_stopping (nw_n w)) eqn:Ep; [by destruct w|].
  destruct (negb (nt_started { nw_n w with nt_stopping := true })) eqn:Es; apply closing_delivery; simpl; try done.
  - by destruct (nw_n w).
  - intros _. split; [done|]. right. simpl in Es. by apply negb_true_iff in Es.
  - by destruct (nw_n w).
  - intros Hc. split; [done|by left].
Qed.

Lemma drain_delivery w deadline done n' r :
  delivery w → Drain (nw_n w) deadline done = (n', r) → delivery { w with nw_n := n' }.
Proof.
  intros D. unfold Drain. pose proof (stop_delivery w D) as D1.
  assert (nt_stopping (Stop (nw_n w)) = true) as Hst.
  { unfold Stop. destruct (nt_stopping (nw_n w)) eqn:Ep; [done|]. by destruct (negb _). }
  destruct (nt_completed (Stop (nw_n w))) eqn:Ec; [by intros [= <- <-]|].
  destruct (nt_drainCtx (Stop (nw_n w))) eqn:Ed; intros [= <- <-]; [done|].
  refine (closing_delivery { w with nw_n := Stop (nw_n w) } _ D1 _ _ _ _ _ _); simpl; [by destruct (Stop (nw_n w))|by intros ->|done|congruence|done|].
  intros Hc. split; [done|by left].
Qed.

Lemma cancel_delivery w : delivery w → is_Some (nt_drainCtx (nw_n w)) → delivery { w with nw_n := cancelRun (nw_n w) }.
Proof.
  intros D Hx. pose proof (l_closing _ (d_life _ D) (or_intror Hx)). apply closing_delivery; simpl; try done; [by destruct (nw_n w)|].
  intros Hc. split; [done|by left].
Qed.

Lemma evolved_empty U W n n' : Core n → evolved U W n n' → Core n' → nt_entries n = ∅ → nt_entries n' = ∅.
Proof.
  intros HC HE HC' He. apply map_eq. intros id. rewrite lookup_empty. destruct (nt_entries n' !! id) as [p|] eqn:E; [|done].
  destruct (k_entries _ _ _ _ _ _ _ HC' _ _ E) as (e & Hp & Hid). destruct (ev_own _ _ _ _ HE p e) as (e' & [_ Ho] & _).
  - split; [done|]. by rewrite Hid.
  - by rewrite He in Ho.
Qed.

Lemma context_delivery w p e :
  delivery w → nt_heap (nw_n w) !! p = Some e → nt_canceled (nw_n w) = true ∨ ne_deadline e ≤ nw_now w →
  delivery { w with nw_n := set_entry p (λ e, { e with ne_done := true }) (nw_n w) }.
Proof.
  intros D Hp Hc. destruct (d_sound _ D) as [HC HT]. apply (node_delivery w); simpl; try done; [|..|by left|by left].
  - split; [unfold Core; simpl; by apply (core_same _ _ _ _ _ _ _ p (λ e, { e with ne_done := true }))|by apply tight_alter].
  - pose proof (d_life _ D) as []. constructor; try done; simpl. intros Hs. destruct (l_unstarted0 Hs) as (Hh & _). by rewrite Hh in Hp.
  - apply evolved_set; [done|]. intros e' He'. assert (e' = e) as -> by congruence. split; [apply (entry_keeps_refl _ _ e)|].
    intros _. right. unfold budget_over. simpl. tauto.
Qed.

Lemma tick_delivery w t : delivery w → nw_now w ≤ t → delivery { w with nw_now := t }.
Proof.
  intros D Ht. apply (quiet_delivery w); [done|]. pose proof (d_db _ D). constructor; simpl; try done; try apply D; try (by left).
  - apply heap_keeps_refl.
  - intros p e Ho. exists e. split; [done|by left].
  - eauto.
Qed.

Lemma tables_delivery w d' : delivery w → db_inv d' → db_evolves (nw_db w) d' → delivery { w with nw_db := d' }.
Proof.
  intros D HI He. apply (quiet_delivery w); [done|]. constructor; simpl; try done; try apply D; try (by left).
  - apply heap_keeps_refl.
  - intros p e Ho. exists e. split; [done|by left].
  - eauto.
Qed.

(** *** The reader *)

Lemma read_take_delivery w n' p :
  delivery w → nt_reader (nw_n w) = RIdle → takeEnumeration (nw_n w) = (n', TakeOne p) → delivery { w with nw_n := set_reader (RQuerying p) n' }.
Proof.
  intros D Hr Ht. destruct (take_enumeration_sound (pass_over w) (λ _, budget_over (nw_now w) (set_reader (RQuerying p) n')) _ _ _ (d_sound _ D) Hr Ht)
    as (HS & HE & _ & rest & ->).
  apply (node_delivery w); simpl; try done; [|by left].
  apply (life_running (nw_n w)); try done; [apply D|]. apply running_reader; [apply D|congruence].
Qed.

Lemma read_exit_delivery w n' :
  delivery w → nt_reader (nw_n w) = RIdle → takeEnumeration (nw_n w) = (n', TakeExit) → delivery { w with nw_n := set_reader RExited n' }.
Proof.
  intros D Hr. unfold takeEnumeration. destruct (no_more_work (nw_n w)) eqn:En.
  2:{ destruct (_ <? _); [|done]. by destruct (nt_enumerating (nw_n w)). }
  intros [= <-]. destruct (d_sound _ D) as [HC HT]. apply still_delivery; try done.
  - split; [|done]. unfold Core in *. by rewrite Hr in HC.
  - apply (life_running (nw_n w)); try done; [apply D|apply running_reader; [apply D|congruence]|by right].
Qed.

Lemma query_failed_delivery w p err :
  delivery w → nt_reader (nw_n w) = RQuerying p →
  delivery { w with nw_n := read_answer (nw_n w) p (Fail err); nw_failed := nw_failed w ++ [p] }.
Proof.
  intros D Hr. destruct (d_sound _ D) as [HC HT]. apply (node_delivery w); simpl; try done.
  - split; [|done]. unfold Core in *. by rewrite Hr in HC.
  - apply (life_running (nw_n w)); try done; [apply D|apply running_reader; [apply D|congruence]].
  - by apply (evolved_frame _ _ _ (nw_n w)); [..|apply evolved_refl].
  - set_solver.
  - by left.
  - intros p' e [= ->] _. right; left. set_solver.
Qed.

Lemma read_finish_delivery w p complete :
  delivery w → nt_reader (nw_n w) = RFinishing p complete →
  delivery { w with nw_n := set_reader RIdle (finishEnumeration (nw_now w) (nw_n w) p complete) }.
Proof.
  intros D Hr. destruct (d_sound _ D) as [HC HT]. unfold Core in HC. rewrite Hr in HC. destruct (k_reader _ _ _ _ _ _ _ HC p eq_refl) as (e & Ho).
  destruct (finish_enumeration_sound (pass_over w) (λ _, budget_over (nw_now w) (nw_n w)) (nw_now w) (nw_n w) p complete e) as (HS & HE & HF).
  - apply over_by_deadline.
  - apply D.
  - done.
  - apply Ho.
  - intros -> e' He'. eapply d_finishing; [done|exact Hr|done].
  - unfold entry_over. intros [Hd|Hd]%orb_true_iff; [by eapply d_done|]. right; left. unfold before in Hd. to_prop. lia.
  - set (n' := finishEnumeration (nw_now w) (nw_n w) p complete) in *.
    apply (f_equal (λ n, (life_part n, nt_targets n, nt_senders n))) in HF. simpl in HF. injection HF as F1 F2 F3 F4 F5 F6 F7 F8.
    apply (node_delivery w); simpl; try done.
    + apply (life_running (nw_n w)); try done; [apply D|apply running_reader; [apply D|congruence]|by unfold life_part; simpl; congruence| |by simpl; congruence].
      eapply evolved_empty; [apply D|exact HE|apply HS].
    + eapply evolved_weaken; [..|exact HE]; [done|]. intros ? e'. simpl. apply budget_over_mono; simpl; try done; congruence.
    + congruence.
    + congruence.
    + unfold waiting. simpl. rewrite F7, F8. done.
    + by left.
Qed.

(** *** The senders *)

Lemma send_take_delivery w k n' t :
  delivery w → nt_senders (nw_n w) !! k = Some Idle → takeTarget (nw_n w) = (n', TakeOne t) →
  delivery { w with nw_n := set_sender k (Busy (t, false)) n' }.
Proof.
  intros D Hk Ht. destruct (take_target_sound (pass_over w) (λ _, budget_over (nw_now w) (set_sender k (Busy (t, false)) n')) _ _ _ _ (d_sound _ D) Hk Ht)
    as (HS & HE & rest & Et & ->).
  apply (node_delivery w); simpl; try done; [| |by left|by left].
  - apply (life_running (nw_n w)); try done; [apply D|by eapply running_sender; [apply D|exact Hk|]|simpl; by rewrite length_insert|by left].
  - rewrite Et. pose proof (waiting_insert _ _ _ (Busy (t, false)) Hk) as E. simpl in E. unfold waiting at 1. simpl. rewrite E. solve_Permutation.
Qed.

Lemma send_exit_delivery w k n' :
  delivery w → nt_senders (nw_n w) !! k = Some Idle → takeTarget (nw_n w) = (n', TakeExit) → delivery { w with nw_n := set_sender k Exited n' }.
Proof.
  intros D Hk. unfold takeTarget. destruct (no_more_work (nw_n w)); [|by destruct (nt_targets (nw_n w))]. intros [= <-].
  destruct (d_sound _ D) as [HC HT]. apply still_delivery; try done.
  - split; [|done]. unfold Core in *. simpl. eapply core_perm; [|exact HC]. unfold held. simpl. by rewrite (busy_exit _ _ Hk).
  - apply (life_running (nw_n w)); try done; [apply D|by eapply running_sender; [apply D|exact Hk|]|simpl; by rewrite length_insert|by left].
  - exact (waiting_insert _ _ _ Exited Hk).
Qed.

Lemma send_call_delivery w k t :
  delivery w → nt_senders (nw_n w) !! k = Some (Busy (t, false)) →
  delivery { w with nw_n := set_sender k (Busy (t, true)) (nw_n w); nw_called := nw_called w ++ [t] }.
Proof.
  intros D Hk. destruct (call_sound (pass_over w) (λ _, budget_over (nw_now w) (set_sender k (Busy (t, true)) (nw_n w))) _ _ _ (d_sound _ D) Hk) as (HS & HE).
  apply (node_delivery w); simpl; try done; [| |by left|by left].
  - apply (life_running (nw_n w)); try done; [apply D|by eapply running_sender; [apply D|exact Hk|]|simpl; by rewrite length_insert|by left].
  - pose proof (waiting_insert _ _ _ (Busy (t, true)) Hk) as E. simpl in E. unfold waiting at 2. rewrite <-E. unfold waiting. simpl. solve_Permutation.
Qed.

(** The end of a round, with a call made or not. *)
Lemma send_done_delivery w k t b :
  delivery w → nt_senders (nw_n w) !! k = Some (Busy (t, b)) →
  (b = true ∨ ∃ e, nt_heap (nw_n w) !! t.1 = Some e ∧ budget_over (nw_now w) (nw_n w) e) →
  delivery { w with nw_n := set_sender k Idle (send_done (nw_n w) t.1); nw_lost := nw_lost w ++ (if b then [] else [t]) }.
Proof.
  intros D Hk Hb. destruct (return_sound (pass_over w) (λ _, budget_over (nw_now w) (nw_n w)) _ _ _ _ (over_by_deadline w) (d_sound _ D) Hk) as (HS & HE & HF).
  set (n' := send_done (nw_n w) t.1) in *.
  apply (f_equal (λ n, (life_part n, nt_targets n, nt_senders n, nt_reader n))) in HF. simpl in HF. injection HF as F1 F2 F3 F4 F5 F6 F7 F8 F9.
  assert (∀ e e', ne_deadline e' = ne_deadline e → budget_over (nw_now w) (nw_n w) e → budget_over (nw_now w) (set_sender k Idle n') e') as Hmono.
  { intros e e'. apply budget_over_mono; simpl; try done; congruence. }
  apply (node_delivery w); simpl; try done.
  - apply (life_running (nw_n w)); try done; [apply D|by eapply running_sender; [apply D|exact Hk|]|by unfold life_part; simpl; congruence| |simpl; by rewrite length_insert, F8|].
    + eapply evolved_empty; [apply D|exact HE|apply HS].
    + intros Hx. left. by rewrite <-F9.
  - eapply evolved_weaken; [..|exact HE]; [done|]. intros ? e'. simpl. by apply Hmono.
  - congruence.
  - congruence.
  - pose proof (waiting_insert _ _ _ Idle Hk) as E. unfold waiting. simpl. rewrite F8, F7. destruct b; simpl in E; rewrite <-E; solve_Permutation.
  - intros t' [?|Ht']%elem_of_app; [by left|]. destruct b; [by apply elem_of_nil in Ht'|]. apply list_elem_of_singleton in Ht' as ->.
    right. destruct Hb as [?|(e & He & Hover)]; [done|]. destruct (heap_keeps_image _ _ _ _ _ _ (ev_heap _ _ _ _ HE) He) as (e' & He' & _ & Hd & _).
    exists e'. split; [done|by eapply Hmono].
  - intros p rest Hx. by rewrite <-F9.
  - intros p e Hx _. left. by rewrite <-F9.
Qed.

(** *** Housekeeping and the end *)

Lemma filter_split {A} (f : A → bool) (l : list A) : filter (λ x, f x = true) l ++ filter (λ x, f x = false) l ≡ₚ l.
Proof.
  rewrite <-(filter_app_complement (λ x, f x = true) l) at 3. f_equiv.
  rewrite (list_filter_iff (λ x, f x = false) (λ x, ¬ f x = true)); [done|]. intros x. by destruct (f x).
Qed.

Lemma expire_delivery w :
  delivery w → nt_expirer (nw_n w) = true →
  delivery { w with nw_n := expire (nw_now w) (nw_n w); nw_lost := nw_lost w ++ expired_targets (expire_mark (nw_now w) (nw_n w)) }.
Proof.
  intros D Hx. destruct (d_sound _ D) as [HC HT].
  destruct (expire_sound (pass_over w) (λ _, budget_over (nw_now w) (nw_n w)) (nw_now w) (nw_n w)) as (HS & HE & HE1 & HM & Ht & HF).
  - apply over_by_deadline.
  - done.
  - intros p e Ho. unfold entry_over. intros [Hd|Hd]%orb_true_iff; [by eapply d_done|]. right; left. unfold before in Hd. to_prop. lia.
  - set (n' := expire (nw_now w) (nw_n w)) in *. clearbody n'. set (n1 := expire_mark (nw_now w) (nw_n w)) in *.
    apply (f_equal (λ n, (life_part n, nt_senders n, nt_reader n))) in HF. simpl in HF. injection HF as F1 F2 F3 F4 F5 F6 F7 F8.
    assert (nt_targets n1 = nt_targets (nw_n w)) as Et by (unfold marked in HM; by apply (f_equal nt_targets) in HM).
    assert (∀ e e', ne_deadline e' = ne_deadline e → budget_over (nw_now w) (nw_n w) e → budget_over (nw_now w) n' e') as Hmono.
    { intros e e'. apply budget_over_mono; simpl; try done; congruence. }
    apply (node_delivery w); simpl; try done.
    + apply (life_running (nw_n w)); try done; [apply D|apply running_expirer; [apply D|done]|by unfold life_part; congruence| |by congruence|].
      * eapply evolved_empty; [done|exact HE|apply HS].
      * intros E. left. by rewrite <-F8.
    + eapply evolved_weaken; [..|exact HE]; [done|]. intros ? e'. simpl. by apply Hmono.
    + congruence.
    + congruence.
    + unfold waiting. rewrite F7, Ht. unfold expired_targets. rewrite Et.
      pose proof (filter_split (target_expired n1) (nt_targets (nw_n w))) as Hsp. revert Hsp.
      generalize (filter (λ t, target_expired n1 t = true) (nt_targets (nw_n w))), (filter (λ t, target_expired n1 t = false) (nt_targets (nw_n w))).
      intros gone kept <-. solve_Permutation.
    + intros t [?|[Hxt Hin]%list_elem_of_filter]%elem_of_app; [by left|]. right. unfold target_expired in Hxt.
      destruct (nt_heap n1 !! t.1) as [e1|] eqn:E1; [|done].
      destruct (heap_keeps_lookup _ _ _ _ _ _ (ev_heap _ _ _ _ HE1) E1) as (e & He & _ & _ & _ & _ & _ & _ & Hxe).
      destruct (heap_keeps_image _ _ _ _ _ _ (ev_heap _ _ _ _ HE) He) as (e' & He' & _ & Hd & _). exists e'. split; [done|].
      apply (Hmono e); [done|]. destruct (Hxe Hxt); [by eapply d_expired|done].
    + intros p rest E. by rewrite <-F8.
    + intros p e E _. left. by rewrite <-F8.
Qed.

Lemma finish_delivery w drainDone :
  delivery w → nt_started (nw_n w) = true → reader_exited (nw_n w) = true →
  nt_expirer (nw_n w) = false → forallb exited (nt_senders (nw_n w)) = true →
  delivery { w with nw_n := finish (nw_n w) drainDone; nw_lost := nw_lost w ++ nt_targets (nw_n w) }.
Proof.
  intros D Hs Hr Hx Hw. destruct (finish_sound (nw_n w) drainDone (d_sound _ D) Hr Hw) as (HS & Hno & HK). destruct (d_sound _ D) as [HC HT].
  assert (nt_reader (nw_n w) = RExited) as Er by (unfold reader_exited in Hr; by destruct (nt_reader (nw_n w))).
  pose proof (d_life _ D) as HL. pose proof (l_exit _ HL Hs Er) as Hn. pose proof (d_db _ D) as HI.
  assert (∀ t, t ∈ nt_targets (nw_n w) → nt_canceled (nw_n w) = true ∧ ∃ e, nt_heap (nw_n w) !! t.1 = Some e) as Hleft.
  { intros t Ht. destruct (k_held _ _ _ _ _ _ _ HC t) as (e & Ho); [unfold held; set_solver|].
    split; [|by exists e; apply Ho]. unfold no_more_work in Hn. apply orb_true_iff in Hn as [|Hn]; [done|]. to_prop. destruct Ho as [_ Ho]. by rewrite H1 in Ho. }
  assert (waiting (nw_n w) = []) as Ew.
  { unfold waiting. clear -Hw. induction (nt_senders (nw_n w)) as [|[] l IH]; csimpl in *; try done. by apply IH. }
  assert (nt_stopping (nw_n w) = true) as Hst.
  { unfold no_more_work in Hn. apply orb_true_iff in Hn as [Hc|Hn]; [apply (l_closing _ HL); by left|by to_prop]. }
  apply (quiet_delivery w); [done|]. constructor; simpl; try done.
  - constructor; simpl; try done; try apply HL. congruence.
  - by eapply heap_keeps_weaken; [..|exact HK].
  - intros p e Ho. by destruct (Hno p e).
  - by right; right.
  - change (waiting (finish _ _)) with (waiting (nw_n w)). rewrite Ew. solve_Permutation.
  - intros t [?|Ht]%elem_of_app; [by left|]. right. destruct (Hleft _ Ht) as (_ & e & He).
    destruct (heap_keeps_image _ _ _ _ _ _ HK He) as (e' & He' & _). exists e'. split; [done|by left].
  - by left.
Qed.

(** *** New entries, pages and offers *)

Lemma hint_delivery w note n' b :
  delivery w → decided (nw_db w) note → Hint (nw_now w) (nw_n w) note = (n', b) →
  delivery { w with nw_n := n'; nw_saved := nw_saved w ++ (if (length (nt_heap (nw_n w)) <? length (nt_heap n'))%nat
                                                          then [saved (no_InstanceID note) (nw_db w)] else []) }.
Proof.
  intros D Hdec Hh. destruct (hint_sound _ _ _ _ _ (d_sound _ D) Hh) as (HS & HC & HF).
  apply (f_equal (λ n, (life_part n, nt_targets n, nt_senders n, nt_reader n, nt_expirer n))) in HF. simpl in HF.
  injection HF as F1 F2 F3 F4 F5 F6 F7 F8 F9 F10. pose proof (d_life _ D) as HL.
  destruct HC as [[Eh Em]|(Hst & Hsp & Eh & Hm & Em)].
  { rewrite Eh, Nat.ltb_irrefl, app_nil_r. apply (still_delivery w); try done; [|by unfold waiting; rewrite F8|congruence|congruence|congruence|congruence].
    apply (life_quiet (nw_n w)); try done; [by unfold life_part; congruence| |congruence|by rewrite F8| |rewrite F9; by left].
    - intros Hs. unfold Hint in Hh. rewrite Hs in Hh. simpl in Hh. rewrite !orb_true_r in Hh. by injection Hh.
    - intros Hc. destruct (l_completed _ HL Hc) as (Hs & _). unfold Hint in Hh. rewrite Hs in Hh. rewrite !orb_true_r in Hh. by injection Hh. }
  set (x := admitted_entry note _) in *. set (s := saved _ _).
  pose proof (own_admit (nt_heap (nw_n w)) (nt_entries (nw_n w)) x Hm) as Hown.
  assert (∀ p e, nt_heap n' !! p = Some e → nt_heap (nw_n w) !! p = Some e ∨ (p = length (nt_heap (nw_n w)) ∧ e = x)) as Hat.
  { intros p e Hp. rewrite Eh in Hp. apply lookup_app_Some in Hp as [?|[? Hp]]; [by left|right]. apply list_lookup_singleton_Some in Hp as [? <-]. split; [lia|done]. }
  assert (∀ p e, nt_heap (nw_n w) !! p = Some e → nt_heap n' !! p = Some e) as Hup by (intros; rewrite Eh; by apply lookup_app_l_Some).
  assert (∀ p l, (p < length (nt_heap (nw_n w)))%nat → (nw_saved w ++ [s]) !! p = Some l → nw_saved w !! p = Some l) as Hsv.
  { intros p l Hp Hl. rewrite lookup_app_l in Hl; [done|]. by rewrite (d_len _ D). }
  assert (∀ e, budget_over (nw_now w) (nw_n w) e → budget_over (nw_now w) n' e) as Hmono.
  { intros e. apply budget_over_mono; try done; congruence. }
  assert (∀ p e, nt_heap (nw_n w) !! p = Some e → (p < length (nt_heap (nw_n w)))%nat) as Hlt by (intros; by eapply lookup_lt_Some).
  assert (∀ p, holder (nt_reader (nw_n w)) = Some p → ∃ e, nt_heap (nw_n w) !! p = Some e) as Hrd.
  { intros p Hp. destruct (d_sound _ D) as [HC _]. destruct (k_reader _ _ _ _ _ _ _ HC p Hp) as (e & Ho). exists e. apply Ho. }
  assert (length (nt_heap (nw_n w)) <? length (nt_heap n') = true)%nat as -> by (rewrite Eh, length_app; apply Nat.ltb_lt; simpl; lia).
  constructor; simpl.
  - done.
  - constructor; try congruence.
    + rewrite F8, F1. apply HL.
    + intros _ Hr. apply (no_more_work_stays (nw_n w)); [congruence..| |apply (l_exit _ HL); congruence].
      intros He. exfalso. rewrite F9 in Hr. pose proof (l_exit _ HL Hst Hr) as Hn. unfold no_more_work in Hn. rewrite Hsp in Hn.
      rewrite orb_false_r in Hn. pose proof (l_closing _ HL (or_introl Hn)). congruence.
    + rewrite F3, F5, F6. apply HL.
    + rewrite F1. apply HL.
    + intros Hc. rewrite F4 in Hc. destruct (l_completed _ HL Hc) as (? & _). congruence.
  - apply D.
  - rewrite Eh, !length_app, (d_len _ D). done.
  - intros p e [Hp|[-> ->]]%Hat; [by eapply d_note|done].
  - apply D.
  - intros t Ht. destruct (d_offered _ D _ Ht) as (e & He & ?). eauto.
  - intros p e l a [Hp|[-> ->]]%Hat Hl Ha.
    + apply (d_saved _ D p e l a); eauto.
    + rewrite lookup_app_r, (d_len _ D), Nat.sub_diag in Hl by (by rewrite (d_len _ D)). simpl in Hl. injection Hl as <-.
      apply elem_of_addresses_after in Ha as [Ha Hlt0]. auto.
  - intros p rest e Hr He. rewrite F9 in Hr. destruct (Hrd p) as (e0 & He0); [by rewrite Hr|]. assert (e0 = e) as -> by (apply Hup in He0; congruence).
    destruct (d_page _ D _ _ _ Hr He0) as (H1 & H2 & H3). split_and!; try done. intros l a Hl Ha. apply (H3 l); eauto.
  - rewrite F7. unfold waiting. rewrite F8. apply (d_split _ D).
  - intros t Ht. destruct (d_lost _ D _ Ht) as (e & He & ?). eauto.
  - intros p l a Hp Hl Ha. eapply d_ended; [done|done| |done]. eapply Hsv; [|done]. by apply (d_known _ D).
  - intros p Hp. pose proof (d_known _ D _ Hp). rewrite Eh, length_app. lia.
  - intros p e [Hp|[-> ->]]%Hat He; [|done]. destruct (d_why _ D _ _ Hp He) as [?|[?|?]]; unfold why; simpl; auto.
  - intros p e Hr He. rewrite F9 in Hr. destruct (Hrd p) as (e0 & He0); [by rewrite Hr|]. assert (e0 = e) as -> by (apply Hup in He0; congruence).
    destruct (d_finishing _ D _ _ Hr He0) as [?|[?|?]]; unfold why; simpl; auto.
  - intros p e Ho Hd. unfold Own in Ho. rewrite Eh, Em in Ho. apply Hown in Ho as [[-> ->]|Ho]; [done|]. apply Hmono. by eapply d_done.
  - intros p e [Hp|[-> ->]]%Hat Hx; [|done]. apply Hmono. by eapply d_expired.
  - intros p e Hp. unfold Own. rewrite Eh, Em, F5. apply Hat in Hp as [Hp|[-> ->]].
    + destruct (d_gone _ D _ _ Hp) as [[e' Ho]|[?|?]]; [left|by auto|by auto]. exists e'. apply Hown. by right.
    + left. exists x. apply Hown. by left.
Qed.

Lemma query_delivery w p e page :
  delivery w → nt_reader (nw_n w) = RQuerying p → nt_heap (nw_n w) !! p = Some e →
  page = take (Z.to_nat (nc_PageSize (nt_config (nw_n w)))) (addresses_after (ne_cursor e) (id_of e) (nw_db w)) →
  delivery { w with nw_n := read_answer (nw_n w) p (Ok page); nw_ended := nw_ended w ++ (if bool_decide (page = []) then [p] else []) }.
Proof.
  intros D Hr He Hpage. destruct (d_sound _ D) as [HC HT]. pose proof (l_page _ (d_life _ D)) as Hsize.
  destruct (page_spec CO _ _ _ _ _ Hpage) as (Hsort & Hin & Hrest).
  assert (nc_PageSize (nt_config (nw_n w)) <? Z.of_nat (length page) = false) as Hlen.
  { apply Z.ltb_ge. rewrite Hpage, length_take. lia. }
  set (r := match page with [] => RFinishing p true | _ => ROffering p page end).
  assert (read_answer (nw_n w) p (Ok page) = set_reader r (nw_n w)) as -> by (unfold read_answer; by rewrite Hlen).
  assert (holder r = Some p) as Hh by (unfold r; by destruct page).
  assert (∀ a l, page = [] → nw_saved w !! p = Some l → a ∈ l → (p, a) ∈ nw_offered w) as Hall.
  { intros a l E Hl Ha. destruct (d_saved _ D _ _ _ _ He Hl Ha) as [Hha [?|Hlt]]; [done|exfalso].
    assert (a ∈ addresses_after (ne_cursor e) (id_of e) (nw_db w)) as Hx by (by apply elem_of_addresses_after).
    rewrite E in Hpage. destruct (Z.to_nat (nc_PageSize _)) eqn:Ez; [lia|]. destruct (addresses_after _ _ _); [by apply elem_of_nil in Hx|done]. }
  constructor; simpl; try apply D.
  - split; [|done]. unfold Core in *. simpl. by rewrite Hr in HC; rewrite Hh.
  - apply (life_running (nw_n w)); try done; [apply D|apply running_reader; [apply D|congruence]|]. simpl. intros E. unfold r in E. by destruct page.
  - intros p' rest' e' E He'. unfold r in E. destruct page as [|a0 page0]; [done|]. injection E as <- <-.
    assert (e' = e) as -> by congruence. split_and!; [done|done|]. intros l a Hl Ha.
    destruct (d_saved _ D _ _ _ _ He Hl Ha) as [Hha [?|Hlt]]; [by left|right]. by apply Hrest.
  - intros p' l a [Hp|Hp]%elem_of_app Hl Ha; [by eapply d_ended|]. case_bool_decide as E; [|by apply elem_of_nil in Hp].
    apply list_elem_of_singleton in Hp as ->. by eapply Hall.
  - intros p' [Hp|Hp]%elem_of_app; [by apply D|]. case_bool_decide as E; [|by apply elem_of_nil in Hp].
    apply list_elem_of_singleton in Hp as ->. by eapply lookup_lt_Some.
  - intros p' e' Hp' Hen. destruct (d_why _ D _ _ Hp' Hen) as [?|[?|?]]; unfold why; simpl; [left; set_solver|auto|auto].
  - intros p' e' E _. unfold r in E. destruct page; [|done]. injection E as ->. left. simpl. set_solver.
Qed.

Lemma StronglySorted_snoc (l : list string) a : StronglySorted addr_lt l → (∀ x, x ∈ l → addr_lt x a) → StronglySorted addr_lt (l ++ [a]).
Proof.
  induction 1 as [|y l Hs IH Hf]; intros Ha; simpl; [by repeat constructor|]. constructor; [apply IH; set_solver|].
  apply Forall_app. split; [done|]. constructor; [apply Ha; by left|done].
Qed.

Lemma le_lt a b c : collation_le a b = true → addr_lt b c → addr_lt a c.
Proof. unfold addr_lt. intros Hab Hbc. destruct (collation_le c a) eqn:E; [|done]. pose proof (co_trans CO _ _ _ E Hab). congruence. Qed.

Lemma offered_delivery w p address rest e :
  delivery w → nt_reader (nw_n w) = ROffering p (address :: rest) → Own (nw_n w) p e →
  let n' := set_entry p (admit_target address) { nw_n w with nt_targets := nt_targets (nw_n w) ++ [(p, address)]; nt_targetCount := nt_targetCount (nw_n w) + 1 } in
  sound n' → delivery { w with nw_n := set_reader (ROffering p rest) n'; nw_offered := nw_offered w ++ [(p, address)] }.
Proof.
  intros D Hr Ho n' HS. destruct Ho as [He Hm]. destruct (d_page _ D _ _ _ Hr He) as (Hsort & Hin & Hcov).
  apply StronglySorted_inv in Hsort as [Hsort Hcur]. apply Forall_cons in Hcur as [Hca _].
  pose proof Hsort as Hsort1. apply StronglySorted_inv in Hsort1 as [_ Har]. rewrite Forall_forall in Har.
  assert (∀ p' e', nt_heap n' !! p' = Some e' → ∃ e0, nt_heap (nw_n w) !! p' = Some e0 ∧ e' = if decide (p = p') then admit_target address e0 else e0) as Hback.
  { intros p' e' Hp'. simpl in Hp'. rewrite list_lookup_alter in Hp'. destruct (decide (p = p')) as [->|]; [|eauto].
    apply fmap_Some in Hp' as (e0 & ? & ->). eauto. }
  assert (∀ p' e0, nt_heap (nw_n w) !! p' = Some e0 → nt_heap n' !! p' = Some (if decide (p = p') then admit_target address e0 else e0)) as Hup.
  { intros p' e0 Hp'. simpl. rewrite list_lookup_alter. destruct (decide (p = p')) as [->|]; [|done]. by rewrite Hp'. }
  assert (∀ t, t ∈ nw_offered w → t.1 = p → addr_lt t.2 address) as Hbelow.
  { intros t Ht E. destruct (d_offered _ D _ Ht) as (e1 & He1 & _ & Hle). rewrite E in He1. assert (e1 = e) as -> by congruence. by eapply le_lt. }
  constructor; simpl; try apply D.
  - destruct HS as [HC HT]. split; [|done]. unfold Core in *. simpl in *. by rewrite Hr in HC.
  - apply (life_running (nw_n w)); try done; [apply D|apply running_reader; [apply D|congruence]].
  - by rewrite length_alter, (d_len _ D).
  - intros p' e' (e0 & Hp' & ->)%Hback. destruct (decide _); simpl; by apply (d_note _ D p').
  - intros p'. rewrite addresses_of_snoc. destruct (decide (p = p')) as [<-|]; [|rewrite app_nil_r; apply D].
    apply StronglySorted_snoc; [apply D|]. intros x Hx%elem_of_addresses_of. by apply (Hbelow (p, x)).
  - intros t [Ht|Ht]%elem_of_app.
    + destruct (d_offered _ D _ Ht) as (e0 & He0 & Ha & Hle). eexists. split; [by apply Hup|].
      destruct (decide (p = t.1)) as [E|]; [|done]. split; [done|]. simpl. by apply (addr_lt_le CO), Hbelow.
    + apply list_elem_of_singleton in Ht as ->. eexists. split; [by apply Hup|]. simpl. rewrite decide_True by done. simpl.
      split; [apply Hin; by left|]. by destruct (co_total CO address address).
  - intros p' e' l a (e0 & Hp' & ->)%Hback Hl Ha. destruct (d_saved _ D _ _ _ _ Hp' Hl Ha) as [Hha Hcase].
    destruct (decide (p = p')) as [<-|]; [|split; [done|set_solver]]. split; [done|]. simpl.
    destruct (Hcov l a Hl Ha) as [?|[[->|Hx]%elem_of_cons|Hx]]; [set_solver|set_solver|right; by apply Har|right; apply Hx; by left].
  - intros p' rest' e' [= <- <-] (e0 & Hp' & ->)%Hback. rewrite decide_True by done. assert (e0 = e) as -> by congruence. simpl. split_and!.
    + done.
    + intros a Ha. apply Hin. by right.
    + intros l a Hl Ha. destruct (Hcov l a Hl Ha) as [?|[[->|Hx]%elem_of_cons|Hx]]; [set_solver|set_solver|by right; left|].
      right; right. intros x Hx'. apply Hx. by right.
  - rewrite (d_split _ D). change (waiting (set_reader _ _)) with (waiting (nw_n w)). solve_Permutation.
  - intros t Ht. destruct (d_lost _ D _ Ht) as (e0 & He0 & Hb). eexists. split; [by apply Hup|]. by destruct (decide _).
  - intros p' l a Hp Hl Ha. apply elem_of_app. left. by eapply d_ended.
  - intros p' Hp. rewrite length_alter. by apply D.
  - intros p' e' (e0 & Hp' & ->)%Hback Hen. destruct (decide (p = p')); by apply (d_why _ D p' e0).
  - done.
  - intros p' e' (e0 & Ho0 & ->)%own_alter Hd; [|done]. destruct (decide (p = p')); by apply (d_done _ D p' e0).
  - intros p' e' (e0 & Hp' & ->)%Hback Hx. destruct (decide (p = p')); by apply (d_expired _ D p' e0).
  - intros p' e' (e0 & Hp' & ->)%Hback. destruct (d_gone _ D _ _ Hp') as [[e1 Ho1]|[?|?]].
    + left. by apply own_alter_some; [|exists e1].
    + right; left. by destruct (decide _).
    + by right; right.
Qed.

Lemma offer_delivery w p rest n' offered :
  delivery w → nt_reader (nw_n w) = ROffering p rest → read_next (nw_now w) (nw_n w) p rest = (n', offered) →
  delivery { w with nw_n := n'; nw_offered := nw_offered w ++ (pair p <$> option_list offered) }.
Proof.
  intros D Hr. destruct (d_sound _ D) as [HC HT]. unfold Core in HC. rewrite Hr in HC.
  destruct (k_reader _ _ _ _ _ _ _ HC p eq_refl) as (e & Ho).
  assert (life (nw_n w) → ∀ b, life (set_reader (RFinishing p b) (nw_n w))) as Hlife.
  { intros HL b. apply (life_running (nw_n w)); try done. apply running_reader; [done|congruence]. }
  destruct rest as [|address rest]; simpl.
  { intros [= <- <-]. simpl. rewrite app_nil_r. apply (still_delivery w); try done. by apply Hlife, D. }
  case_bool_decide as Ee.
  { destruct (d_page _ D _ _ _ Hr (proj1 Ho)) as (_ & Hin & _). destruct (Hin address) as [_ ?]; [by left|done]. }
  destruct (offerTarget (nw_now w) (nw_n w) p address) as [n1 r] eqn:Eo. destruct r as [[]|].
  - intros [= <- <-]. destruct (offer_sound _ _ _ _ _ _ (d_sound _ D) Hr Eo) as (HS & e' & Ho' & _ & ->). by apply (offered_delivery w p address rest e').
  - intros [= <- <-]. simpl. rewrite app_nil_r. unfold offerTarget in Eo. rewrite (proj1 Ho) in Eo.
    destruct (entry_over (nw_now w) e) eqn:Eov; [|by destruct (_ <? _)]. injection Eo as <-.
    apply (node_delivery w); simpl; try done; [by apply Hlife, D|by apply (evolved_frame _ _ _ (nw_n w)); [..|apply evolved_refl]|by left|].
    intros p' e' [= ->] He'. right; right. assert (e' = e) as -> by (destruct Ho; congruence).
    unfold entry_over in Eov. apply orb_true_iff in Eov as [Hd|Hd]; [by eapply (d_done _ D)|]. right; left. unfold before in Hd. to_prop. lia.
  - intros [= <- <-]. simpl. rewrite app_nil_r. unfold offerTarget in Eo. rewrite (proj1 Ho) in Eo.
    destruct (entry_over (nw_now w) e); [done|]. destruct (_ <? _); [done|]. injection Eo as <-. by destruct w.
Qed.

(** *** All steps *)

Lemma step_delivery w w' : delivery w → step w w' → delivery w'.
Proof.
  intros D Hs. destruct Hs as [w n' E|w note n' b Hd E|w|w deadline done n' r E|w Hx|w p e Hp Hc|w t Ht|w d' HI He|w n' p Hr E|w n' Hr E
    |w p e env ww page Hr He Hrely E|w p err Hr|w p rest n' offered Hr E|w p complete Hr|w k n' t Hk E|w k n' Hk E|w k t e Hk He Hd|w k t e Hk He Hb|w k t Hk
    |w Hx|w drainDone H1 H2 H3 H4 H5].
  - by apply start_delivery.
  - by eapply hint_delivery.
  - by apply stop_delivery.
  - by eapply drain_delivery.
  - by apply cancel_delivery.
  - by eapply context_delivery.
  - by apply tick_delivery.
  - by apply tables_delivery.
  - by apply read_take_delivery.
  - by eapply read_exit_delivery.
  - destruct (cancel_query_ok _ _ _ _ _ _ _ (d_db _ D) Hrely E) as (HI & Hev & Hpage).
    by apply (query_delivery { w with nw_db := w_db ww } p e page (tables_delivery w (w_db ww) D HI Hev)).
  - by apply query_failed_delivery.
  - by apply (offer_delivery w p rest).
  - by apply read_finish_delivery.
  - by apply send_take_delivery.
  - by eapply send_exit_delivery.
  - by apply send_call_delivery.
  - apply (send_done_delivery w k t false); eauto.
  - pose proof (send_done_delivery w k t true D Hk (or_introl eq_refl)) as D'. simpl in D'. by rewrite app_nil_r in D'.
  - by apply expire_delivery.
  - by apply finish_delivery.
Qed.

Lemma initial_delivery config d now w : initial config d now w → delivery w.
Proof.
  intros (n & En & HI & ->). unfold NewNotifier in En. destruct (_ || _) eqn:Eg; [done|]. injection En as <-.
  apply orb_false_iff in Eg as [Eg _]. repeat (apply orb_false_iff in Eg as [Eg ?]). to_prop.
  constructor; simpl; try done; try (by intros ? ? ?); try (by intros ? ?%elem_of_nil).
  - split; [|by intros p e [? _]]. constructor; simpl; try done; try (by intros ? ?%elem_of_nil); try (by intros ? ? [? _]); [constructor|lia|].
    change (Z.of_nat (size (∅ : gmap Z nat)) ≤ nc_InstanceCapacity config). rewrite map_size_empty. lia.
  - constructor; simpl; try done; [lia|naive_solver].
  - constructor.
  - by intros p e [? _].
Qed.

Lemma reached_delivery w : reached w → delivery w.
Proof.
  intros (config & d & now & w0 & Hi & Hs). apply initial_delivery in Hi. induction Hs as [|w0 w1 w2 Hs _ IH]; [done|]. apply IH. by eapply step_delivery.
Qed.

(** ** The theorems *)

Lemma NoDup_by_entry (l : list Target) : (∀ p, NoDup (addresses_of p l)) → NoDup l.
Proof.
  induction l as [|[p a] l IH]; intros Hl; [constructor|].
  assert (∀ p', addresses_of p' ((p, a) :: l) = (if decide (p = p') then [a] else []) ++ addresses_of p' l) as E.
  { intros p'. unfold addresses_of. rewrite filter_cons. simpl. by destruct (decide (p = p')). }
  constructor.
  - intros Hin%elem_of_addresses_of. specialize (Hl p). rewrite E, decide_True in Hl by done. by apply NoDup_cons in Hl as [? _].
  - apply IH. intros p'. specialize (Hl p'). rewrite E in Hl. by apply NoDup_app in Hl as (_ & _ & ?).
Qed.

Lemma sorted_NoDup (l : list string) : StronglySorted addr_lt l → NoDup l.
Proof.
  induction 1 as [|a l Hs IH Hf]; constructor; [|done]. intros Hin. rewrite Forall_forall in Hf. by eapply (addr_lt_irrefl CO), Hf.
Qed.

(** The notifier stays within its bounds and accounts for everything it holds, under
    every interleaving of callers, reader, senders, housekeeping, contexts, clock and
    database: at most the configured Instances are retained and at most the configured
    targets are queued or being sent, the counters are exact, every retained Instance is
    queued for enumeration, being read or has targets under way (so none is forgotten),
    and a completed notifier holds nothing. *)
Theorem notifier_accounting w :
  reached w →
  let n := nw_n w in
  Z.of_nat (size (nt_entries n)) ≤ nc_InstanceCapacity (nt_config n) ∧
  nt_targetCount n = Z.of_nat (length (held n)) ∧ nt_targetCount n ≤ nc_TargetCapacity (nt_config n) ∧
  (length (busy (nt_senders n)) ≤ Z.to_nat (nc_Concurrency (nt_config n)))%nat ∧
  (∀ id p, nt_entries n !! id = Some p → ∃ e, nt_heap n !! p = Some e ∧ id_of e = id ∧ ne_outstanding e = tally p (held n) ∧
    (p ∈ nt_enumerating n ∨ holder (nt_reader n) = Some p ∨ (ne_enumerated e = true ∧ 0 < ne_outstanding e))) ∧
  (nt_completed n = true → nt_entries n = ∅ ∧ nt_targetCount n = 0 ∧ holder (nt_reader n) = None ∧ busy (nt_senders n) = []).
Proof.
  intros D%reached_delivery n. destruct (d_sound _ D) as [HC HT]. pose proof (d_life _ D) as HL. split_and!.
  - by eapply k_size.
  - by eapply k_count.
  - by eapply k_targets.
  - etrans; [apply length_busy|by apply l_senders].
  - intros id p Hm. destruct (k_entries _ _ _ _ _ _ _ HC _ _ Hm) as (e & He & Hid). assert (Own n p e) as Ho by (split; [done|by rewrite Hid]).
    exists e. pose proof (k_outstanding _ _ _ _ _ _ _ HC _ _ Ho) as Hout. split_and!; [done..|].
    destruct (k_placed _ _ _ _ _ _ _ HC _ _ Ho) as [Hp|[Hp|Hp]].
    + left. by apply (k_position _ _ _ _ _ _ _ HC _ _ Ho Hp).
    + right; left. by apply (k_reading _ _ _ _ _ _ _ HC _ _ Ho).
    + destruct (ne_reading e) eqn:Er; [right; left; by apply (k_reading _ _ _ _ _ _ _ HC _ _ Ho)|]. right; right. split; [done|].
      pose proof (HT _ _ Ho) as Hr. unfold releasable in Hr. rewrite Hp, Er in Hr. apply Z.eqb_neq in Hr. unfold tally in Hout. lia.
  - intros Hc. destruct (l_completed _ HL Hc) as (_ & Hm & Hr & Hs & _). split_and!; [done| |unfold n; by rewrite Hr|by apply busy_exited].
    unfold n. rewrite (k_count _ _ _ _ _ _ _ HC). destruct (held (nw_n w)) as [|t l] eqn:El; [done|].
    destruct (k_held _ _ _ _ _ _ _ HC t) as (e & _ & Ho); [rewrite El; by left|]. by rewrite Hm in Ho.
Qed.

(** C19: Every executor of a stopped Instance is told, once.  [Cancel] is never called twice
    for one admission and address, and only with an Instance that was stopped, its group,
    the reason it was stopped for and an address that is saved for it; and a notification the notifier has let go of,
    without a failed query and before its budget was over, has called [Cancel] for every
    address that was saved for the Instance when it was admitted. *)
Theorem stop_notified w p e l :
  reached w → nt_heap (nw_n w) !! p = Some e → nw_saved w !! p = Some l →
  NoDup (nw_called w) ∧
  (∀ a, (p, a) ∈ nw_called w → let t := deliver_target e a in
     ∃ i, instances (nw_db w) !! ct_InstanceID t = Some i ∧ authorizing (i_status i) = false ∧
       i_executor_group_id i = ct_ExecutorGroupID t ∧ i_end_reason i = Some (ct_Reason t) ∧
       has_address (ct_InstanceID t) (nw_db w) (ct_Address t)) ∧
  (nt_entries (nw_n w) !! id_of e ≠ Some p → p ∉ nw_failed w → ¬ budget_over (nw_now w) (nw_n w) e →
   ∀ a, a ∈ l → (p, a) ∈ nw_called w).
Proof.
  intros D%reached_delivery He Hl. destruct (d_sound _ D) as [HC HT]. pose proof (d_split _ D) as Hsp. split_and!.
  - assert (NoDup (nw_offered w)) as Hnd by (apply NoDup_by_entry; intros q; apply sorted_NoDup, D).
    rewrite Hsp in Hnd. by apply NoDup_app in Hnd as [? _].
  - intros a Ha. destruct (d_offered _ D (p, a)) as (e' & He' & Hadr & _); [rewrite Hsp; set_solver|].
    simpl in *. assert (e' = e) as -> by congruence. destruct (d_note _ D _ _ He) as (i & ? & ? & ? & ?). by exists i.
  - intros Hgone Hf Hb a Ha. assert (¬ ∃ e', Own (nw_n w) p e') as Hno by (intros (e' & He' & Ho); congruence).
    assert (nt_canceled (nw_n w) = false) as Hnc by (destruct (nt_canceled (nw_n w)) eqn:E; [destruct Hb; by left|done]).
    assert ((p, a) ∈ nw_offered w) as Ho.
    { destruct (d_gone _ D _ _ He) as [?|[Hen|?]]; [done| |congruence]. destruct (d_why _ D _ _ He Hen) as [Hx|[?|?]]; [|done|done]. by eapply d_ended. }
    rewrite Hsp in Ho. apply elem_of_app in Ho as [|[Hlost|Hw]%elem_of_app]; [done|exfalso..].
    + destruct (d_lost _ D _ Hlost) as (e' & He' & Hb'). simpl in He'. assert (e' = e) as -> by congruence. done.
    + apply waiting_held in Hw. apply Hno. by apply (k_held _ _ _ _ _ _ _ HC (p, a)).
Qed.
End delivery.

(** ** One stopped round, notified *)

Lemma demo_collation : collation_ordered.
Proof.
  assert (∀ a b c, String.leb a b = true → String.leb b c = true → String.leb a c = true) as Htrans.
  { intros a b c. unfold String.leb. destruct (String.compare a b) eqn:Eab; try done.
    - by apply String.compare_eq_iff in Eab as ->.
    - destruct (String.compare b c) eqn:Ebc; try done.
      + apply String.compare_eq_iff in Ebc as ->. by rewrite Eab.
      + intros _ _. assert (String.compare a c = Lt) as -> by exact (StrictOrder_Transitive (R := String_as_OT.lt) a b c Eab Ebc). done. }
  constructor; simpl; intros *; rewrite ?bool_decide_eq_true; eauto using String.leb_total, String.leb_antisym. by destruct a.
Qed.

Definition demo_notes : NotificationConfig :=
  {| nc_InstanceCapacity := 2; nc_PageSize := 4; nc_TargetCapacity := 2; nc_Concurrency := 1; nc_QueryTimeout := Second; nc_InstanceTimeout := Second |}.
Definition demo_note : Notification := {| no_InstanceID := 1; no_ExecutorGroupID := 1; no_Reason := EndReasonManualStop |}.
Definition demo_notifier (started : bool) (r : Reader) (senders : list (Worker (Target * bool))) (h : list notificationEntry) (m : gmap Z nat) (q : list nat)
    (ts : list Target) (k : Z) : Notifier :=
  {| nt_config := demo_notes; nt_started := started; nt_stopping := false; nt_completed := false; nt_fullLogged := false;
     nt_canceled := false; nt_drainCtx := None; nt_drainErr := None; nt_heap := h; nt_entries := m; nt_enumerating := q; nt_targets := ts; nt_targetCount := k;
     nt_reader := r; nt_senders := senders; nt_expirer := started |}.
Definition demo_entry (done position reading enumerated : bool) (cursor : string) (outstanding : Z) : notificationEntry :=
  {| ne_notification := demo_note; ne_done := done; ne_deadline := 400 + Second; ne_cursor := cursor; ne_position := position; ne_reading := reading;
     ne_enumerated := enumerated; ne_expired := false; ne_outstanding := outstanding |}.
Definition demo_executor_address : string := "10.0.0.1:8080".

(** The Instance is admitted, read, offered, read again to the end, and its one executor
    is called. *)
Section demo_run.
Context (d : DB).

Definition demo_world (n : Notifier) (addresses : list (list string)) (offered called : list Target) (ended : list nat) : World :=
  {| nw_n := n; nw_db := d; nw_now := 400; nw_saved := addresses; nw_offered := offered; nw_called := called; nw_lost := []; nw_ended := ended; nw_failed := [] |}.
Definition demo_at (r : Reader) (sender : Worker (Target * bool)) (e : notificationEntry) (m : gmap Z nat) (q : list nat) (ts : list Target) (k : Z)
    (offered called : list Target) (ended : list nat) : World :=
  demo_world (demo_notifier true r [sender] [e] m q ts k) [[demo_executor_address]] offered called ended.
Definition demo_target : Target := (O, demo_executor_address).
Definition demo_entries : gmap Z nat := {[1 := O]}.

Definition demo_passes : list World :=
  [ demo_world (demo_notifier false RExited [] [] ∅ [] [] 0) [] [] [] [];
    demo_world (demo_notifier true RIdle [Idle] [] ∅ [] [] 0) [] [] [] [];
    demo_at RIdle Idle (demo_entry false true false false "" 0) demo_entries [O] [] 0 [] [] [];
    demo_at (RQuerying O) Idle (demo_entry false false true false "" 0) demo_entries [] [] 0 [] [] [];
    demo_at (ROffering O [demo_executor_address]) Idle (demo_entry false false true false "" 0) demo_entries [] [] 0 [] [] [];
    demo_at (ROffering O []) Idle (demo_entry false false true false demo_executor_address 1) demo_entries [] [demo_target] 1 [demo_target] [] [];
    demo_at (RFinishing O false) Idle (demo_entry false false true false demo_executor_address 1) demo_entries [] [demo_target] 1 [demo_target] [] [];
    demo_at RIdle Idle (demo_entry false true false false demo_executor_address 1) demo_entries [O] [demo_target] 1 [demo_target] [] [];
    demo_at (RQuerying O) Idle (demo_entry false false true false demo_executor_address 1) demo_entries [] [demo_target] 1 [demo_target] [] [];
    demo_at (RFinishing O true) Idle (demo_entry false false true false demo_executor_address 1) demo_entries [] [demo_target] 1 [demo_target] [] [O];
    demo_at RIdle Idle (demo_entry false false false true demo_executor_address 1) demo_entries [] [demo_target] 1 [demo_target] [] [O];
    demo_at RIdle (Busy (demo_target, false)) (demo_entry false false false true demo_executor_address 1) demo_entries [] [] 1 [demo_target] [] [O];
    demo_at RIdle (Busy (demo_target, true)) (demo_entry false false false true demo_executor_address 1) demo_entries [] [] 1 [demo_target] [demo_target] [O];
    demo_at RIdle Idle (demo_entry true false false true demo_executor_address 0) ∅ [] [] 0 [demo_target] [demo_target] [O] ].

Definition demo_told : World := demo_at RIdle Idle (demo_entry true false false true demo_executor_address 0) ∅ [] [] 0 [demo_target] [demo_target] [O].

Lemma list_rtc {A} (R : relation A) (l : list A) x y : (∀ k a b, l !! k = Some a → l !! S k = Some b → R a b) → head l = Some x → last l = Some y → rtc R x y.
Proof.
  revert x. induction l as [|a l IH]; intros x Hl Hh Hy; [done|]. simpl in Hh. injection Hh as ->.
  destruct l as [|b l]; [injection Hy as ->; constructor|]. apply (rtc_l _ _ b); [by apply (Hl O)|].
  apply IH; [|done|done]. intros k c e Hc He. by apply (Hl (S k)).
Qed.

Lemma demo_query after page :
  ValidString after = true → (255 <? RuneCountInString after) = false → pg_text after = true → take 4 (addresses_after after 1 d) = page →
  ∃ ww, ListCancelTargets Auto 1 after 4 (start d (calm 400)) = (ww, Ok page) ∧ w_db ww = d.
Proof.
  intros H1 H2 H3 <-. unfold ListCancelTargets. rewrite H1, H2. simpl.
  match goal with |- context [query Auto ?f _] => destruct (calm_run _ _ _ _ _ _ (calm_query 400 Auto f d)) as (Hd & Hr & _) end.
  rewrite H3 in Hr, Hd. rewrite H3. eexists. split; [rewrite (surjective_pairing (query _ _ _)), Hr; reflexivity|exact Hd].
Qed.

Lemma demo_told_reached :
  db_inv d → decided d demo_note → saved 1 d = [demo_executor_address] → addresses_after demo_executor_address 1 d = [] → reached demo_told.
Proof.
  intros HI Hdec Hs1 Hs2.
  pose (e1 := demo_entry false false true false demo_executor_address 1). pose (e2 := demo_entry false false false true demo_executor_address 1).
  exists demo_notes, d, 400. eexists. split.
  { exists (demo_notifier false RExited [] [] ∅ [] [] 0). split_and!; [reflexivity|done|reflexivity]. }
  apply (list_rtc _ demo_passes); [|reflexivity|reflexivity].
  intros k a b Ha Hb. destruct k as [|[|[|[|[|[|[|[|[|[|[|[|[|k]]]]]]]]]]]]];
    [injection Ha as <-; injection Hb as <-..|by destruct k].
  - by apply (step_start (demo_world _ _ _ _ _)).
  - pose proof (step_hint (demo_world (demo_notifier true RIdle [Idle] [] ∅ [] [] 0) [] [] [] []) demo_note
      (demo_notifier true RIdle [Idle] [demo_entry false true false false "" 0] demo_entries [O] [] 0) true Hdec eq_refl) as Hs.
    simpl in Hs. by rewrite Hs1 in Hs.
  - exact (step_read_take (demo_at RIdle Idle (demo_entry false true false false "" 0) demo_entries [O] [] 0 [] [] [])
      (demo_notifier true RIdle [Idle] [demo_entry false false true false "" 0] demo_entries [] [] 0) O eq_refl eq_refl).
  - destruct (demo_query "" [demo_executor_address]) as (ww & Hq & Hd); [reflexivity|reflexivity|reflexivity|fold (saved 1 d); by rewrite Hs1|].
    pose proof (step_query (demo_at (RQuerying O) Idle (demo_entry false false true false "" 0) demo_entries [] [] 0 [] [] []) O _ (calm 400) ww _
      eq_refl eq_refl (calm_rely 400) Hq) as Hs. by rewrite Hd in Hs.
  - exact (step_offer (demo_at (ROffering O [demo_executor_address]) Idle (demo_entry false false true false "" 0) demo_entries [] [] 0 [] [] [])
      O _ _ (Some demo_executor_address) eq_refl eq_refl).
  - exact (step_offer (demo_at (ROffering O []) Idle e1 demo_entries [] [demo_target] 1 [demo_target] [] []) O _ _ None eq_refl eq_refl).
  - exact (step_read_finish (demo_at (RFinishing O false) Idle e1 demo_entries [] [demo_target] 1 [demo_target] [] []) O _ eq_refl).
  - exact (step_read_take (demo_at RIdle Idle (demo_entry false true false false demo_executor_address 1) demo_entries [O] [demo_target] 1 [demo_target] [] [])
      (demo_notifier true RIdle [Idle] [e1] demo_entries [] [demo_target] 1) O eq_refl eq_refl).
  - destruct (demo_query demo_executor_address []) as (ww & Hq & Hd); [reflexivity|reflexivity|reflexivity|by rewrite Hs2|].
    pose proof (step_query (demo_at (RQuerying O) Idle e1 demo_entries [] [demo_target] 1 [demo_target] [] []) O _ (calm 400) ww _
      eq_refl eq_refl (calm_rely 400) Hq) as Hs. by rewrite Hd in Hs.
  - exact (step_read_finish (demo_at (RFinishing O true) Idle e1 demo_entries [] [demo_target] 1 [demo_target] [] [O]) O _ eq_refl).
  - exact (step_send_take (demo_at RIdle Idle e2 demo_entries [] [demo_target] 1 [demo_target] [] [O]) O
      (demo_notifier true RIdle [Idle] [e2] demo_entries [] [] 1) demo_target eq_refl eq_refl).
  - exact (step_send_call (demo_at RIdle (Busy (demo_target, false)) e2 demo_entries [] [] 1 [demo_target] [] [O]) O demo_target e2 eq_refl eq_refl eq_refl).
  - exact (step_send_return (demo_at RIdle (Busy (demo_target, true)) e2 demo_entries [] [] 1 [demo_target] [demo_target] [O]) O demo_target eq_refl).
Qed.
End demo_run.

Lemma demo_decided : decided demo_stopping demo_note.
Proof.
  assert (∃ i, instances demo_stopping !! 1 = Some i ∧ i_status i = InstanceStopping ∧ i_executor_group_id i = 1 ∧
    i_end_reason i = Some EndReasonManualStop) as (i & Hi & Hs & Hg & Hr) by (eexists; split_and!; vm_compute; reflexivity).
  exists i. split_and!; [done|by rewrite Hs|done|done].
Qed.

Lemma demo_notified : reached (demo_told demo_stopping).
Proof. apply demo_told_reached; [apply demo_stopping_inv|apply demo_decided|vm_compute; reflexivity..]. Qed.

Lemma notifier_accounting_witness : nt_targetCount (nw_n (demo_told demo_stopping)) = 0.
Proof. destruct (notifier_accounting demo_collation _ demo_notified) as (_ & E & _). exact E. Defined.

Lemma stop_notified_witness : (O, demo_executor_address) ∈ nw_called (demo_told demo_stopping).
Proof.
  eapply (stop_notified demo_collation (demo_told demo_stopping) O); [apply demo_notified|reflexivity|reflexivity|discriminate|by apply not_elem_of_nil| |by left].
  intros [E|[E|(t & E & _)]]; [discriminate| |discriminate]. vm_compute in E. by apply E.
Defined.
