(* ===== verification/SysModel.v ===== *)
(** * Persistent data of the System domain

    The GORM models of apps/system/internal/model (user.go, role.go, relation.go, api.go,
    department.go, menu.go) and the tables of one PostgreSQL database, with the constraints
    its migrations leave: unique indexes over live rows, column limits and checks.  There
    are no foreign keys.  The last section is the sessions of Tx.v over these tables. *)

From S2P Require Import Prelude GoLib Tx Model TaskRepo InstanceRepo JobRepo.

Open Scope Z_scope.

(** ** Rows *)

Definition SuperAdminRoleCode : string := "super_admin".

Record User := {
  u_Username : string; u_PasswordHash : string; u_Nickname : string; u_Email : option string; u_Phone : option string;
  u_DepartmentID : option Z; u_Status : RecordStatus; u_LastLoginAt : option Time; u_Remark : string;
  u_CreatedAt : Time; u_UpdatedAt : Time; u_DeletedAt : option Time;
}.

Record Role := {
  ro_Code : string; ro_Name : string; ro_Description : string; ro_Sort : Z; ro_Status : RecordStatus; ro_IsSystem : bool;
  ro_CreatedAt : Time; ro_UpdatedAt : Time; ro_DeletedAt : option Time;
}.

Record API := {
  a_ServiceName : string; a_Group : string; a_Name : string; a_Path : string; a_Method : string; a_IsRequired : bool;
  a_Status : RecordStatus; a_Remark : string; a_CreatedAt : Time; a_UpdatedAt : Time; a_DeletedAt : option Time;
}.

Record Department := {
  d_ParentID : option Z; d_Name : string; d_Sort : Z; d_Status : RecordStatus; d_Remark : string;
  d_CreatedAt : Time; d_UpdatedAt : Time; d_DeletedAt : option Time;
}.

Definition MenuAppAdminWeb : string := "admin_web".

Inductive MenuType := MenuTypeDirectory | MenuTypePage | MenuTypeElement | MenuTypeCode (code : Z).
Definition MenuType_code (t : MenuType) : Z :=
  match t with MenuTypeDirectory => 1 | MenuTypePage => 2 | MenuTypeElement => 3 | MenuTypeCode c => c end.
Definition MenuType_of (c : Z) : MenuType :=
  if c =? 1 then MenuTypeDirectory else if c =? 2 then MenuTypePage else if c =? 3 then MenuTypeElement else MenuTypeCode c.

Record Menu := {
  m_AppCode : string; m_ParentID : option Z; m_Type : MenuType; m_Name : string; m_RouteName : string; m_Path : string;
  m_Component : string; m_Permission : string; m_Icon : string; m_Sort : Z; m_Visible : bool; m_Status : RecordStatus;
  m_KeepAlive : bool; m_External : bool; m_Remark : string;
  m_CreatedAt : Time; m_UpdatedAt : Time; m_DeletedAt : option Time;
}.

#[global] Instance User_eq_dec : EqDecision User.
Proof. solve_decision. Defined.
#[global] Instance Role_eq_dec : EqDecision Role.
Proof. solve_decision. Defined.
#[global] Instance MenuType_eq_dec : EqDecision MenuType.
Proof. solve_decision. Defined.

(** The columns v0, v1 and v2 of a casbin_rule row of type p; the other columns are empty. *)
Abbreviation PolicyRow := (string * string * string)%type.

(** The database.  The relation tables sys_user_role and sys_role_menu are sets of pairs;
    nothing reads their creation times.  Nothing writes sys_api. *)
Record DB := {
  users : gmap Z User; roles : gmap Z Role; apis : gmap Z API; departments : gmap Z Department; menus : gmap Z Menu;
  user_roles : gset (Z * Z); role_menus : gset (Z * Z); policies : gset PolicyRow;
  next_user : Z; next_role : Z; next_department : Z; next_menu : Z;
}.

Definition set_user (id : Z) (u : User) (d : DB) : DB := { d with users := <[id := u]> (users d) }.
Definition set_role (id : Z) (r : Role) (d : DB) : DB := { d with roles := <[id := r]> (roles d) }.
Definition set_department (id : Z) (x : Department) (d : DB) : DB := { d with departments := <[id := x]> (departments d) }.
Definition set_menu (id : Z) (m : Menu) (d : DB) : DB := { d with menus := <[id := m]> (menus d) }.

(** The soft-delete scope GORM adds to statements on these models. *)
Definition live_user (u : User) : bool := bool_decide (u_DeletedAt u = None).
Definition live_role (r : Role) : bool := bool_decide (ro_DeletedAt r = None).
Definition live_api (a : API) : bool := bool_decide (a_DeletedAt a = None).
Definition live_department (x : Department) : bool := bool_decide (d_DeletedAt x = None).
Definition live_menu (m : Menu) : bool := bool_decide (m_DeletedAt m = None).

(** ** Constraints *)

(** PostgreSQL's [LOWER(text)]. *)
Class PgText := LOWER : string → string.

Definition check_violation (constraint : string) : Error := [PgError "23514" constraint].
Definition unless (b : bool) (e : Error) : option Error := if b then None else Some e.
Definition one_of (s : RecordStatus) : bool := match s with RecordStatusDisabled | RecordStatusEnabled => true | _ => false end.

(** [BTRIM(s) <> '']: not only spaces. *)
Definition not_blank (s : string) : bool := existsb (λ b, negb (b =? 32)) (bytes s).

(** [^[A-Za-z0-9]+(-[A-Za-z0-9]+)*$]; [some] says that the current segment is not empty. *)
Definition is_alnum (b : Z) : bool := between 65 90 b || between 97 122 b || is_digit b.
Fixpoint hyphenated (some : bool) (l : list Z) : bool :=
  match l with
  | [] => some
  | b :: l' => if b =? 45 then some && hyphenated false l' else is_alnum b && hyphenated true l'
  end.
(** [^[a-z][a-z0-9_]*$] *)
Definition role_code_format (code : string) : bool :=
  match bytes code with
  | [] => false
  | b :: l => between 97 122 b && forallb (λ b, between 97 122 b || is_digit b || (b =? 95)) l
  end.

Definition optional_text (limit : Z) (s : option string) : option Error :=
  match s with Some s => varchar_error limit s | None => None end.

Definition user_error (u : User) : option Error :=
  first_error [varchar_error 64 (u_Username u); varchar_error 255 (u_PasswordHash u); varchar_error 64 (u_Nickname u);
    optional_text 255 (u_Email u); optional_text 32 (u_Phone u); varchar_error 500 (u_Remark u);
    unless (one_of (u_Status u)) (check_violation "ck_sys_user_status");
    unless (hyphenated false (bytes (u_Username u))) (check_violation "ck_sys_user_username_format")].

Definition role_error (r : Role) : option Error :=
  first_error [varchar_error 64 (ro_Code r); varchar_error 64 (ro_Name r); varchar_error 500 (ro_Description r);
    unless (one_of (ro_Status r)) (check_violation "ck_sys_role_status");
    unless (role_code_format (ro_Code r)) (check_violation "ck_sys_role_code_format");
    unless (not_blank (ro_Name r)) (check_violation "ck_sys_role_name_not_blank");
    unless (0 <=? ro_Sort r) (check_violation "ck_sys_role_sort");
    unless (negb (bool_decide (ro_Code r = SuperAdminRoleCode)) || ro_IsSystem r) (check_violation "ck_sys_role_super_admin_system")].

Definition department_error (x : Department) : option Error :=
  first_error [varchar_error 128 (d_Name x); varchar_error 500 (d_Remark x);
    unless (not_blank (d_Name x)) (check_violation "ck_sys_department_name_not_blank");
    unless (0 <=? d_Sort x) (check_violation "ck_sys_department_sort");
    unless (one_of (d_Status x)) (check_violation "ck_sys_department_status")].

Definition is_empty_text (s : string) : bool := bool_decide (s = ""%string).
Definition element_permission (m : Menu) : bool :=
  match m_Type m with
  | MenuTypeElement => not_blank (m_Permission m)
  | MenuTypeDirectory | MenuTypePage => is_empty_text (m_Permission m)
  | MenuTypeCode _ => false
  end.
Definition element_route (m : Menu) : bool :=
  match m_Type m with
  | MenuTypeElement => is_empty_text (m_RouteName m) && is_empty_text (m_Path m) && is_empty_text (m_Component m)
  | _ => true
  end.
Definition menu_error (m : Menu) : option Error :=
  first_error [varchar_error 64 (m_AppCode m); varchar_error 64 (m_Name m); varchar_error 128 (m_RouteName m);
    varchar_error 255 (m_Path m); varchar_error 255 (m_Component m); varchar_error 128 (m_Permission m);
    varchar_error 128 (m_Icon m); varchar_error 500 (m_Remark m);
    unless (match m_Type m with MenuTypeCode _ => false | _ => true end) (check_violation "ck_sys_menu_type");
    unless (one_of (m_Status m)) (check_violation "ck_sys_menu_status");
    unless (not_blank (m_AppCode m)) (check_violation "ck_sys_menu_app_code_not_blank");
    unless (element_permission m) (check_violation "ck_sys_menu_element_permission");
    unless (element_route m) (check_violation "ck_sys_menu_element_route")].

(** Another row than [id] satisfies [P]. *)
Definition taken {A} (m : gmap Z A) (id : Z) (P : A → bool) : bool :=
  existsb (λ r : Z * A, negb (r.1 =? id) && P r.2) (rows m).

Definition same_optional (f : string → string) (a b : option string) : bool :=
  match a, b with Some a, Some b => bool_decide (f a = f b) | _, _ => false end.

Section constraints.
Context `{PgText}.

(** The unique indexes over live rows, by the name of the one that is violated. *)
Definition user_conflict (id : Z) (u : User) (d : DB) : option string :=
  if negb (live_user u) then None
  else if taken (users d) id (λ v, live_user v && bool_decide (LOWER (u_Username v) = LOWER (u_Username u)))
  then Some "uk_sys_user_username_active"%string
  else if taken (users d) id (λ v, live_user v && same_optional LOWER (u_Email v) (u_Email u))
  then Some "uk_sys_user_email_active"%string
  else if taken (users d) id (λ v, live_user v && same_optional Datatypes.id (u_Phone v) (u_Phone u))
  then Some "uk_sys_user_phone_active"%string
  else None.

Definition role_conflict (id : Z) (r : Role) (d : DB) : option string :=
  if live_role r && taken (roles d) id (λ v, live_role v && bool_decide (ro_Code v = ro_Code r))
  then Some "uk_sys_role_code_active"%string else None.

Definition parent_key (p : option Z) : Z := match p with Some p => p | None => 0 end.
Definition department_conflict (id : Z) (x : Department) (d : DB) : option string :=
  if live_department x && taken (departments d) id (λ v, live_department v &&
       (parent_key (d_ParentID v) =? parent_key (d_ParentID x)) && bool_decide (LOWER (d_Name v) = LOWER (d_Name x)))
  then Some "uk_sys_department_parent_name_active"%string else None.

Definition menu_conflict (id : Z) (m : Menu) (d : DB) : option string :=
  if negb (live_menu m) then None
  else if negb (is_empty_text (m_RouteName m)) && taken (menus d) id (λ v, live_menu v &&
       bool_decide (m_AppCode v = m_AppCode m) && bool_decide (LOWER (m_RouteName v) = LOWER (m_RouteName m)))
  then Some "uk_sys_menu_app_route_name_active"%string
  else if negb (is_empty_text (m_Path m)) && taken (menus d) id (λ v, live_menu v &&
       bool_decide (m_AppCode v = m_AppCode m) && bool_decide (m_Path v = m_Path m))
  then Some "uk_sys_menu_app_path_active"%string
  else None.

(** ** Statements on one row *)

(** A soft-deleted table: its rows and sequence, the soft-delete scope, and the constraints
    a new version of a row must satisfy. *)
Record Table (A : Type) := {
  tb_name : string;
  tb_rows : DB → gmap Z A;
  tb_set : Z → A → DB → DB;
  tb_next : DB → Z;
  tb_bump : DB → DB;
  tb_live : A → bool;
  tb_error : A → option Error;
  tb_conflict : Z → A → DB → option string;
}.
#[global] Arguments tb_name {_}.
#[global] Arguments tb_rows {_}.
#[global] Arguments tb_set {_}.
#[global] Arguments tb_next {_}.
#[global] Arguments tb_bump {_}.
#[global] Arguments tb_live {_}.
#[global] Arguments tb_error {_}.
#[global] Arguments tb_conflict {_}.

Definition sys_user : Table User := {|
  tb_name := "sys_user"; tb_rows := users; tb_set := set_user; tb_next := next_user; tb_bump := λ d, { d with next_user := next_user d + 1 };
  tb_live := live_user; tb_error := user_error; tb_conflict := user_conflict |}.
Definition sys_role : Table Role := {|
  tb_name := "sys_role"; tb_rows := roles; tb_set := set_role; tb_next := next_role; tb_bump := λ d, { d with next_role := next_role d + 1 };
  tb_live := live_role; tb_error := role_error; tb_conflict := role_conflict |}.
Definition sys_department : Table Department := {|
  tb_name := "sys_department"; tb_rows := departments; tb_set := set_department; tb_next := next_department;
  tb_bump := λ d, { d with next_department := next_department d + 1 };
  tb_live := live_department; tb_error := department_error; tb_conflict := department_conflict |}.
Definition sys_menu : Table Menu := {|
  tb_name := "sys_menu"; tb_rows := menus; tb_set := set_menu; tb_next := next_menu; tb_bump := λ d, { d with next_menu := next_menu d + 1 };
  tb_live := live_menu; tb_error := menu_error; tb_conflict := menu_conflict |}.
End constraints.

(** The live row with a primary key. *)
Definition live_row {A} (T : Table A) (d : DB) (id : Z) : option A :=
  a ← tb_rows T d !! id; if tb_live T a then Some a else None.

(** The new version of a row, unless a constraint refuses it. *)
Definition put_row {A} (T : Table A) (id : Z) (a : A) (d : DB) : DB * Result Z :=
  match tb_error T a with
  | Some e => (d, Fail e)
  | None =>
      match tb_conflict T id a d with
      | Some c => (d, Fail [PgError "23505" c])
      | None => (tb_set T id a d, Ok 1)
      end
  end.

(** [UPDATE ... SET ... WHERE id = ? AND P AND deleted_at IS NULL]; the affected rows. *)
Definition update_row {A} (T : Table A) (id : Z) (P : A → bool) (upd : A → A) (d : DB) : DB * Result Z :=
  match live_row T d id with
  | Some a => if P a then put_row T id (upd a) d else (d, Ok 0)
  | None => (d, Ok 0)
  end.

(** [INSERT]; the identity of the new row. *)
Definition insert_row {A} (T : Table A) (a : A) (d : DB) : DB * Result Z :=
  if bool_decide (is_Some (tb_rows T d !! tb_next T d)) then (d, Fail [PgError "23505" (tb_name T +:+ "_pkey")])
  else match put_row T (tb_next T d) a d with
  | (d', Ok _) => (tb_bump T d', Ok (tb_next T d))
  | (d', Fail e) => (d', Fail e)
  end.

(** ** Sessions *)

(** A row held by [SELECT ... FOR UPDATE]. *)
Inductive Lock := UserRow (id : Z) | RoleRow (id : Z).
#[global] Instance Lock_eq_dec : EqDecision Lock.
Proof. solve_decision. Defined.

(** Messages to other components: all sessions of a user were revoked; the API processes
    were told to reload the policies; credentials were issued; the failure count of a name
    was increased or cleared; a login was recorded. *)
Inductive Output :=
| SessionsRevoked (user : Z)
| PoliciesPublished
| CredentialsIssued (user : Z)
| FailureCounted (username : string)
| FailuresCleared (username : string)
| LoginRecorded (user : option Z) (username : string) (success : bool) (reason ip agent : string).
#[global] Instance Output_eq_dec : EqDecision Output.
Proof. solve_decision. Defined.

Abbreviation Event := (Tx.Event DB Lock).
Abbreviation Commit := (Tx.Commit DB Lock Output).
Abbreviation World := (Tx.World DB Lock Output).
Abbreviation M := (Tx.M DB Lock Output).

Definition First {A} (h : Handle) (T : Table A) (id : Z) : M (option A) := query h (λ _ d, Ok (live_row T d id)).
Definition FirstForUpdate {A} (h : Handle) (T : Table A) (l : Lock) (id : Z) : M (option A) :=
  lock h l (λ _ d, Ok (live_row T d id)).
Definition Update {A} (h : Handle) (T : Table A) (id : Z) (P : A → bool) (upd : Time → A → A) : M Z :=
  exec h (λ ev d, update_row T id P (upd (ev_clock ev)) d).
Definition Create {A} (h : Handle) (T : Table A) (row : Time → A) : M Z :=
  exec h (λ ev d, insert_row T (row (ev_clock ev)) d).

(** A text parameter of a query. *)
Definition bind_text (s : string) : option Error := if pg_text s then None else Some [PgError "22021" ""].

(** ** What the statements do *)

Lemma live_row_Some {A} (T : Table A) d id a : live_row T d id = Some a ↔ tb_rows T d !! id = Some a ∧ tb_live T a = true.
Proof.
  unfold live_row. destruct (tb_rows T d !! id) as [b|]; simpl; [|by split; [|intros [? _]]].
  destruct (tb_live T b) eqn:E; split; intros; destruct_and?; simplify_eq; try done. congruence.
Qed.

Lemma update_row_cases {A} (T : Table A) id P upd d :
  (update_row T id P upd d).1 = d ∨
  ∃ a, tb_rows T d !! id = Some a ∧ tb_live T a = true ∧ P a = true ∧ tb_error T (upd a) = None ∧
       tb_conflict T id (upd a) d = None ∧ update_row T id P upd d = (tb_set T id (upd a) d, Ok 1).
Proof.
  unfold update_row. destruct (live_row T d id) as [a|] eqn:E; [|by left]. apply live_row_Some in E as [E1 E2].
  destruct (P a) eqn:EP; [|by left]. unfold put_row. destruct (tb_error T (upd a)) eqn:Ee; [by left|].
  destruct (tb_conflict T id (upd a) d) eqn:Ec; [by left|]. right. eauto 10.
Qed.

Lemma insert_row_cases {A} (T : Table A) a d :
  (∃ e, insert_row T a d = (d, Fail e)) ∨
  (tb_rows T d !! tb_next T d = None ∧ tb_error T a = None ∧ tb_conflict T (tb_next T d) a d = None ∧
   insert_row T a d = (tb_bump T (tb_set T (tb_next T d) a d), Ok (tb_next T d))).
Proof.
  unfold insert_row, put_row. case_bool_decide as En; [left; by eexists|]. destruct (tb_error T a) eqn:Ee; [left; by eexists|].
  destruct (tb_conflict T (tb_next T d) a d) eqn:Ec; [left; by eexists|]. right. split; [|done]. by apply eq_None_not_Some.
Qed.

(** The constraints of a row hold one by one. *)
Lemma first_error_None l e : first_error l = None → e ∈ l → e = None.
Proof.
  unfold first_error. induction l as [|[x|] l IH]; simpl; [by intros _ ?%elem_of_nil|done|].
  intros Hl [->|Hin]%elem_of_cons; [done|by apply IH].
Qed.
Lemma unless_None b e : unless b e = None → b = true.
Proof. by destruct b. Qed.

Lemma taken_false {A} (m : gmap Z A) id P k a : taken m id P = false → m !! k = Some a → P a = true → k = id.
Proof.
  intros Ht Hk HP. destruct (decide (k = id)) as [|Hne]; [done|]. exfalso. unfold taken in Ht.
  assert (existsb (λ r : Z * A, negb (r.1 =? id) && P r.2) (rows m) = true) as Hx; [|congruence].
  apply existsb_exists. exists (k, a). split; [by apply list_elem_of_In, elem_of_rows|]. simpl.
  rewrite HP, andb_true_r. by apply negb_true_iff, Z.eqb_neq.
Qed.
