(* ===== verification/UserRepo.v ===== *)
(** * Users and their roles

    apps/system/internal/repository/user_repository.go: users with their role assignments.
    Complete replacements of a user's roles and the user's deletion hold the user's row. *)

From S2P Require Import Prelude GoLib GoText Tx Model TaskRepo InstanceRepo JobRepo SysModel.

Open Scope Z_scope.

Definition ErrUserNotFound : Cause := Sentinel "user not found".
Definition ErrUsernameExists : Cause := Sentinel "username already exists".
Definition ErrUserEmailExists : Cause := Sentinel "user email already exists".
Definition ErrUserPhoneExists : Cause := Sentinel "user phone already exists".
Definition ErrUserRoleUnavailable : Cause := Sentinel "role is unavailable for assignment".
Definition ErrUserDepartmentUnavailable : Cause := Sentinel "department is unavailable".
Definition ErrSuperAdminNotAssignable : Cause := Sentinel "super administrator cannot be assigned".
Definition ErrSuperAdminProtected : Cause := Sentinel "the initialized super administrator account is protected".

Abbreviation NamedRole := (Z * Role)%type.

Record UserRecord := { ur_ID : Z; ur_User : User; ur_DepartmentName : string; ur_Roles : list NamedRole }.
Record UserListQuery := {
  ul_Keyword : string; ul_Status : option RecordStatus; ul_DepartmentID : option Z; ul_Offset : Z; ul_Limit : Z }.
Record UserProfileUpdate := {
  up_Nickname : string; up_Email : option string; up_Phone : option string; up_Remark : string; up_DepartmentID : option Z }.
Record UserContactUpdate := { uc_Nickname : string; uc_Email : option string; uc_Phone : option string }.

(** [slices.Sort] and [slices.Compact]. *)
Definition sort_ids (ids : list Z) : list Z := merge_sort Z.le ids.
Fixpoint compact (l : list Z) : list Z :=
  match l with
  | a :: (b :: _) as t => if a =? b then compact t else a :: compact t
  | _ => l
  end.

(** [containsLikePattern] of query.go. *)
Definition containsLikePattern (value : string) : string := "%" +:+ escape_pattern value +:+ "%".

(** [OFFSET ? LIMIT ?] *)
Definition window {A} (offset limit : Z) (l : list A) : list A := take (Z.to_nat limit) (drop (Z.to_nat offset) l).

Definition is_super (r : NamedRole) : bool := bool_decide (ro_Code r.2 = SuperAdminRoleCode).

(** The join of sys_user_role with the live roles for one user, in order of sort and id. *)
Definition role_key (r : NamedRole) : Z * Z := (ro_Sort r.2, r.1).
Definition roles_of (d : DB) (user : Z) : list NamedRole :=
  order_by role_key (filter (λ r : NamedRole, live_role r.2 = true ∧ (user, r.1) ∈ user_roles d) (rows (roles d))).

Definition without_hash (u : User) : User := { u with u_PasswordHash := "" }.

Section repository.
Context `{PgLib, PgText}.

Definition mapUserWriteError (e : Error) : Error :=
  match pg_code e with
  | Some (code, constraint) =>
      if bool_decide (code = "23505"%string) then
        if bool_decide (constraint = "uk_sys_user_username_active"%string) then [ErrUsernameExists]
        else if bool_decide (constraint = "uk_sys_user_email_active"%string) then [ErrUserEmailExists]
        else if bool_decide (constraint = "uk_sys_user_phone_active"%string) then [ErrUserPhoneExists]
        else e
      else e
  | None => e
  end.

Definition found {A} (e : Cause) (row : option A) : M A := match row with Some a => mret a | None => fail [e] end.
Definition affected (e : Cause) (n : Z) : M unit := if n =? 0 then fail [e] else mret ().

Definition new_user (u : User) (now : Time) : User := { u with u_CreatedAt := now; u_UpdatedAt := now; u_DeletedAt := None }.

Definition CreateUser (h : Handle) (u : User) : M Z := Create h sys_user (new_user u).

Definition FindByID (h : Handle) (id : Z) : M User := row ← First h sys_user id; found ErrUserNotFound row.

Definition FindByUsername (h : Handle) (username : string) : M (Z * User) :=
  row ← query h (λ _ d,
    match bind_text username with
    | Some e => Fail e
    | None => Ok (head (filter (λ r : Z * User, (live_user r.2 && bool_decide (LOWER (u_Username r.2) = LOWER username)) = true) (rows (users d))))
    end);
  found ErrUserNotFound row.

(** [UpdateColumn] leaves updated_at alone. *)
Definition UpdateLastLoginAt (h : Handle) (id : Z) (lastLoginAt : Time) : M unit :=
  n ← Update h sys_user id (λ _, true) (λ _ u, { u with u_LastLoginAt := Some lastLoginAt }); affected ErrUserNotFound n.

Definition UpdatePasswordHash (h : Handle) (id : Z) (passwordHash : string) : M unit :=
  n ← Update h sys_user id (λ _, true) (λ now u, { u with u_PasswordHash := passwordHash; u_UpdatedAt := now });
  affected ErrUserNotFound n.

(** ** Records with roles *)

Definition loadUserRoleRecords (h : Handle) (ids : list Z) : M (Z → list NamedRole) :=
  if bool_decide (ids = []) then mret (λ _, [])
  else query h (λ _ d, Ok (λ user, if bool_decide (user ∈ ids) then roles_of d user else [])).

Definition loadUserDepartmentNames (h : Handle) (us : list User) : M (Z → string) :=
  let ids := omap u_DepartmentID us in
  if bool_decide (ids = []) then mret (λ _, ""%string)
  else query h (λ _ d, Ok (λ id,
    if bool_decide (id ∈ ids) then match live_row sys_department d id with Some x => d_Name x | None => "" end else ""%string)).

Definition user_record (departments : Z → string) (roles : Z → list NamedRole) (r : Z * User) : UserRecord :=
  {| ur_ID := r.1; ur_User := r.2;
     ur_DepartmentName := match u_DepartmentID r.2 with Some id => departments id | None => "" end; ur_Roles := roles r.1 |}.

Definition findUserRecord (h : Handle) (id : Z) : M UserRecord :=
  row ← First h sys_user id;
  u ← found ErrUserNotFound (without_hash <$> row);
  roles ← loadUserRoleRecords h [id];
  departments ← loadUserDepartmentNames h [u];
  mret (user_record departments roles (id, u)).

Definition FindWithRoles (h : Handle) (id : Z) : M UserRecord := findUserRecord h id.

Definition user_matches (q : UserListQuery) (r : Z * User) : bool :=
  live_user r.2 &&
  (let keyword := TrimSpace (ul_Keyword q) in
   bool_decide (keyword = ""%string) || ILike (u_Username r.2) (containsLikePattern keyword) ||
   ILike (u_Nickname r.2) (containsLikePattern keyword)) &&
  opt_eqb (ul_Status q) (u_Status r.2) &&
  match ul_DepartmentID q with Some id => bool_decide (u_DepartmentID r.2 = Some id) | None => true end.

Definition matching_users (q : UserListQuery) (d : DB) : list (Z * User) :=
  reverse (filter (λ r, user_matches q r = true) (rows (users d))).

Definition ListUsers (h : Handle) (q : UserListQuery) : M (list UserRecord * Z) :=
  if (ul_Limit q <=? 0) || (ul_Offset q <? 0) then fail [Text "invalid user list pagination"]
  else
    total ← query h (λ _ d, Ok (Z.of_nat (length (matching_users q d))));
    us ← query h (λ _ d, Ok ((λ r : Z * User, (r.1, without_hash r.2)) <$> window (ul_Offset q) (ul_Limit q) (matching_users q d)));
    roles ← loadUserRoleRecords h us.*1;
    departments ← loadUserDepartmentNames h us.*2;
    mret (user_record departments roles <$> us, total).

(** ** Validation against other tables *)

Definition validateUserDepartment (h : Handle) (departmentID currentID : option Z) : M unit :=
  match departmentID with
  | None => mret ()
  | Some id =>
      row ← First h sys_department id;
      match row with
      | None => fail [ErrUserDepartmentUnavailable]
      | Some x =>
          if negb (bool_decide (d_Status x = RecordStatusEnabled)) && negb (bool_decide (currentID = Some id))
          then fail [ErrUserDepartmentUnavailable] else mret ()
      end
  end.

(** The first role, in any order, that cannot be assigned decides the error; all orders agree
    on whether there is one. *)
Fixpoint check_roles (current : list NamedRole) (found_roles : list NamedRole) : option Error :=
  match found_roles with
  | [] => None
  | r :: rest =>
      if is_super r then Some [ErrSuperAdminNotAssignable]
      else if negb (bool_decide (ro_Status r.2 = RecordStatusEnabled)) && negb (bool_decide (r.1 ∈ current.*1))
      then Some [ErrUserRoleUnavailable]
      else check_roles current rest
  end.

Definition validateUserRoles (h : Handle) (ids : list Z) (current : list NamedRole) : M (list Z) :=
  let ids := compact (sort_ids ids) in
  if bool_decide (ids = []) then mret ids
  else
    found_roles ← query h (λ _ d, Ok (filter (λ r : NamedRole, live_role r.2 = true ∧ r.1 ∈ ids) (rows (roles d))));
    if negb (bool_decide (length found_roles = length ids)) then fail [ErrUserRoleUnavailable]
    else match check_roles current found_roles with Some e => fail e | None => mret ids end.

Definition ValidateRoles (h : Handle) (ids : list Z) (current : list NamedRole) : M unit :=
  validateUserRoles h ids current;; mret ().

Definition insertUserRoles (h : Handle) (user : Z) (ids : list Z) : M unit :=
  if bool_decide (ids = []) then mret ()
  else exec h (λ _ d,
    let rows := list_to_set ((λ id, (user, id)) <$> ids) : gset (Z * Z) in
    if bool_decide (rows ## user_roles d) then ({ d with user_roles := user_roles d ∪ rows }, Ok tt)
    else (d, Fail [PgError "23505" "sys_user_role_pkey"])).

Definition deleteUserRoles (h : Handle) (user : Z) : M unit :=
  exec h (λ _ d, ({ d with user_roles := filter (λ p, p.1 ≠ user) (user_roles d) }, Ok tt)).

Definition protectSuperAdmin (roles : list NamedRole) : Result unit :=
  if existsb is_super roles then Fail [ErrSuperAdminProtected] else Ok tt.

(** ** Writes *)

Definition create_with_roles_body (u : User) (roleIDs : list Z) : M Z :=
  validateUserDepartment InTx (u_DepartmentID u) None;;
  ids ← validateUserRoles InTx roleIDs [];
  id ← CreateUser InTx u;
  insertUserRoles InTx id ids;;
  mret id.

Definition CreateWithRoles (u : User) (roleIDs : list Z) : M Z :=
  map_error mapUserWriteError (transact (create_with_roles_body u roleIDs)).

Definition profile_row (p : UserProfileUpdate) (now : Time) (u : User) : User :=
  { u with u_Nickname := up_Nickname p; u_Email := up_Email p; u_Phone := up_Phone p; u_Remark := up_Remark p;
           u_DepartmentID := up_DepartmentID p; u_UpdatedAt := now }.

Definition UpdateProfile (h : Handle) (id : Z) (p : UserProfileUpdate) : M unit :=
  current ← FindByID h id;
  map_error mapUserWriteError (validateUserDepartment h (up_DepartmentID p) (u_DepartmentID current));;
  n ← map_error mapUserWriteError (Update h sys_user id (λ _, true) (profile_row p));
  affected ErrUserNotFound n.

Definition contacts_row (c : UserContactUpdate) (now : Time) (u : User) : User :=
  { u with u_Nickname := uc_Nickname c; u_Email := uc_Email c; u_Phone := uc_Phone c; u_UpdatedAt := now }.

Definition UpdateContacts (h : Handle) (id : Z) (c : UserContactUpdate) : M unit :=
  n ← map_error mapUserWriteError
        (Update h sys_user id (λ u, bool_decide (u_Status u = RecordStatusEnabled)) (contacts_row c));
  affected ErrUserNotFound n.

Definition replace_roles_body (id : Z) (roleIDs : list Z) : M unit :=
  row ← FirstForUpdate InTx sys_user (UserRow id) id;
  found ErrUserNotFound row;;
  loaded ← loadUserRoleRecords InTx [id];
  let current := loaded id in
  lift (protectSuperAdmin current);;
  ids ← validateUserRoles InTx roleIDs current;
  if bool_decide (sort_ids ids = sort_ids current.*1) then mret ()
  else
    deleteUserRoles InTx id;;
    insertUserRoles InTx id (sort_ids ids).

Definition ReplaceRoles (id : Z) (roleIDs : list Z) : M unit :=
  map_error mapUserWriteError (transact (replace_roles_body id roleIDs)).

Definition status_row (s : RecordStatus) (now : Time) (u : User) : User := { u with u_Status := s; u_UpdatedAt := now }.

Definition UpdateStatus (h : Handle) (id : Z) (s : RecordStatus) : M unit :=
  record ← findUserRecord h id;
  (if bool_decide (s = RecordStatusDisabled) then lift (protectSuperAdmin (ur_Roles record)) else mret ());;
  n ← map_error mapUserWriteError (Update h sys_user id (λ _, true) (status_row s));
  affected ErrUserNotFound n.

Definition delete_user_row (now : Time) (u : User) : User := { u with u_DeletedAt := Some now }.

Definition delete_user_body (id : Z) : M unit :=
  row ← FirstForUpdate InTx sys_user (UserRow id) id;
  found ErrUserNotFound row;;
  record ← findUserRecord InTx id;
  lift (protectSuperAdmin (ur_Roles record));;
  deleteUserRoles InTx id;;
  Update InTx sys_user id (λ _, true) delete_user_row;;
  mret ().

Definition DeleteUser (id : Z) : M unit := map_error mapUserWriteError (transact (delete_user_body id)).
End repository.
