(* ===== verification/RoleRepo.v ===== *)
(** * Roles, API resources and API policies

    apps/system/internal/repository/role_repository.go and api_repository.go, and
    apps/system/internal/authorization/model.go and policy_service.go.  Replacing the
    policies of a role and deleting a role hold the role's row.  The Casbin adapter is a
    parameter: what it loads, removes and inserts. *)

From S2P Require Import Prelude GoLib GoText Tx Model TaskRepo InstanceRepo JobRepo SysModel UserRepo.

Open Scope Z_scope.

Definition ErrRoleNotFound : Cause := Sentinel "role not found".
Definition ErrRoleCodeExists : Cause := Sentinel "role code already exists".
Definition ErrReservedRoleCode : Cause := Sentinel "role code is reserved by the system".
Definition ErrRoleInUse : Cause := Sentinel "role is assigned to users".
Definition ErrSystemRoleProtected : Cause := Sentinel "system role is protected".
Definition ErrRoleUnavailable : Cause := Sentinel "role does not exist or is disabled".
Definition ErrAPIUnavailable : Cause := Sentinel "API does not exist or is disabled".
Definition ErrSuperAdminPolicyProtected : Cause := Sentinel "super administrator API policy is built in".
Definition ErrInvalidRoleID : Cause := Sentinel "invalid role id".

Record RoleListQuery := { rl_Keyword : string; rl_AssignableOnly : bool; rl_Offset : Z; rl_Limit : Z }.
Record RoleUpdate := { ru_Code : string; ru_Name : string; ru_Description : string; ru_Sort : Z }.
Record APIListQuery := { al_Keyword : string; al_ServiceName : string; al_Group : string }.

Section roles.
Context `{PgLib, PgText}.

Definition ListEnabledRoleIDs (h : Handle) (user : Z) : M (list Z) :=
  if user <=? 0 then fail [Text "user id must be positive"]
  else query h (λ _ d, Ok (filter (λ r : NamedRole, live_role r.2 = true ∧ ro_Status r.2 = RecordStatusEnabled ∧
                                    (user, r.1) ∈ user_roles d) (rows (roles d))).*1).

Definition IsSuperAdmin (h : Handle) (user : Z) : M bool :=
  if user <=? 0 then fail [Text "user id must be positive"]
  else query h (λ _ d, Ok (existsb (λ r : NamedRole, live_role r.2 && bool_decide ((user, r.1) ∈ user_roles d) && is_super r &&
                                      bool_decide (ro_Status r.2 = RecordStatusEnabled)) (rows (roles d)))).

Definition role_matches (q : RoleListQuery) (r : NamedRole) : bool :=
  live_role r.2 &&
  (if rl_AssignableOnly q then bool_decide (ro_Status r.2 = RecordStatusEnabled) && negb (is_super r) else true) &&
  (let keyword := TrimSpace (rl_Keyword q) in
   bool_decide (keyword = ""%string) || ILike (ro_Code r.2) (containsLikePattern keyword) ||
   ILike (ro_Name r.2) (containsLikePattern keyword)).

Definition matching_roles (q : RoleListQuery) (d : DB) : list NamedRole :=
  order_by role_key (filter (λ r, role_matches q r = true) (rows (roles d))).

Definition ListRoles (h : Handle) (q : RoleListQuery) : M (list NamedRole * Z) :=
  if (rl_Offset q <? 0) || (rl_Limit q <=? 0) then fail [Text "invalid role list pagination"]
  else
    total ← query h (λ _ d, Ok (Z.of_nat (length (matching_roles q d))));
    items ← query h (λ _ d, Ok (window (rl_Offset q) (rl_Limit q) (matching_roles q d)));
    mret (items, total).

Definition FindRole (h : Handle) (id : Z) : M Role :=
  if id <=? 0 then fail [Text "role id must be positive"]
  else row ← First h sys_role id; found ErrRoleNotFound row.

Definition mapRoleWriteError (e : Error) : Error :=
  match pg_code e with
  | Some (code, constraint) =>
      if bool_decide (code = "23505"%string) && bool_decide (constraint = "uk_sys_role_code_active"%string) then [ErrRoleCodeExists]
      else if bool_decide (code = "23514"%string) && bool_decide (constraint = "ck_sys_role_super_admin_system"%string)
      then [ErrReservedRoleCode] else e
  | None => e
  end.

Definition new_role (r : Role) (now : Time) : Role := { r with ro_CreatedAt := now; ro_UpdatedAt := now; ro_DeletedAt := None }.

Definition CreateRole (h : Handle) (r : Role) : M Z :=
  if bool_decide (ro_Code r = SuperAdminRoleCode) then fail [ErrReservedRoleCode]
  else map_error mapRoleWriteError (Create h sys_role (new_role r)).

Definition role_row (u : RoleUpdate) (now : Time) (r : Role) : Role :=
  { r with ro_Code := ru_Code u; ro_Name := ru_Name u; ro_Description := ru_Description u; ro_Sort := ru_Sort u;
           ro_UpdatedAt := now }.

Definition UpdateRole (h : Handle) (id : Z) (u : RoleUpdate) : M unit :=
  if id <=? 0 then fail [Text "role id must be positive"]
  else
    row ← First h sys_role id;
    r ← found ErrRoleNotFound row;
    if ro_IsSystem r && negb (bool_decide (ru_Code u = ro_Code r)) then fail [ErrSystemRoleProtected]
    else if bool_decide (ru_Code u = SuperAdminRoleCode) && negb (bool_decide (ro_Code r = SuperAdminRoleCode))
    then fail [ErrReservedRoleCode]
    else
      n ← map_error mapRoleWriteError (Update h sys_role id (λ _, true) (role_row u));
      affected ErrRoleNotFound n.

Definition role_status_row (s : RecordStatus) (now : Time) (r : Role) : Role := { r with ro_Status := s; ro_UpdatedAt := now }.

Definition UpdateRoleStatus (h : Handle) (id : Z) (s : RecordStatus) : M unit :=
  if id <=? 0 then fail [Text "role id must be positive"]
  else
    row ← First h sys_role id;
    r ← found ErrRoleNotFound row;
    if ro_IsSystem r && bool_decide (s = RecordStatusDisabled) then fail [ErrSystemRoleProtected]
    else if bool_decide (ro_Status r = s) then mret ()
    else
      n ← Update h sys_role id (λ _, true) (role_status_row s);
      affected ErrRoleNotFound n.

(** ** API resources *)

Definition api_matches (q : APIListQuery) (r : Z * API) : bool :=
  live_api r.2 &&
  (let s := TrimSpace (al_ServiceName q) in bool_decide (s = ""%string) || bool_decide (a_ServiceName r.2 = s)) &&
  (let g := TrimSpace (al_Group q) in bool_decide (g = ""%string) || bool_decide (a_Group r.2 = g)) &&
  (let keyword := TrimSpace (al_Keyword q) in
   let pattern := containsLikePattern keyword in
   bool_decide (keyword = ""%string) || ILike (a_Name r.2) pattern || ILike (a_Path r.2) pattern || ILike (a_Method r.2) pattern).

(** Ordered by service, group (in the columns' collation) and id. *)
Definition api_le (x y : Z * API) : Prop :=
  if bool_decide (a_ServiceName x.2 = a_ServiceName y.2) then
    if bool_decide (a_Group x.2 = a_Group y.2) then x.1 ≤ y.1 else collation_le (a_Group x.2) (a_Group y.2) = true
  else collation_le (a_ServiceName x.2) (a_ServiceName y.2) = true.
#[global] Instance api_le_dec x y : Decision (api_le x y).
Proof. unfold api_le. repeat case_bool_decide; apply _. Defined.

Definition ListAPIs (h : Handle) (q : APIListQuery) : M (list (Z * API)) :=
  query h (λ _ d, Ok (merge_sort api_le (filter (λ r, api_matches q r = true) (rows (apis d))))).
End roles.

(** ** Policies *)

Definition RoleSubject (roleID : Z) : Result string :=
  if roleID <=? 0 then Fail [ErrInvalidRoleID] else Ok ("r:" +:+ FormatInt roleID)%string.

(** [strings.ToUpper] on ASCII; the catalogue's methods are. *)
Definition upper_byte (b : Z) : Z := if between 97 122 b then b - 32 else b.
Definition ToUpper (s : string) : string := of_bytes (upper_byte <$> bytes s).

Definition has_prefix (b : Z) (s : string) : bool := match bytes s with b' :: _ => b' =? b | [] => false end.

Definition PolicyRule (roleID : Z) (path method : string) : Result PolicyRow :=
  result_bind (RoleSubject roleID) (λ subject,
    let path := TrimSpace path in
    let method := ToUpper (TrimSpace method) in
    if bool_decide (path = ""%string) || negb (has_prefix 47 path) then Fail [Text "authorization path must start with slash"]
    else if bool_decide (method = ""%string) then Fail [Text "authorization method is empty"]
    else Ok (subject, path, method)).

(** github.com/casbin/gorm-adapter over the rows of type p: the policies with a subject, the
    rows without them, and an insertion, which may be refused. *)
Class CasbinAdapter := {
  LoadFilteredPolicy : gset PolicyRow → string → list PolicyRow;
  RemoveFilteredPolicy : gset PolicyRow → string → gset PolicyRow;
  AddPolicies : gset PolicyRow → list PolicyRow → Result (gset PolicyRow);
}.
Record adapter_documented `{CasbinAdapter} : Prop := {
  load_documented : ∀ R s p, p ∈ LoadFilteredPolicy R s ↔ p ∈ R ∧ p.1.1 = s;
  remove_documented : ∀ R s p, p ∈ RemoveFilteredPolicy R s ↔ p ∈ R ∧ p.1.1 ≠ s;
  add_documented : ∀ R l R', AddPolicies R l = Ok R' → ∀ p, p ∈ R' ↔ p ∈ R ∨ p ∈ l;
}.

(** The watcher's publication, which may fail. *)
Class PolicyNotifier := notify_answer : nat → Result unit.

Record ReplaceResult := { rr_Added : nat; rr_Removed : nat; rr_NotificationError : bool }.
Record DeleteRoleResult := { dr_RemovedPolicies : nat; dr_NotificationError : bool }.
Definition Changed (r : ReplaceResult) : bool := (0 <? rr_Added r)%nat || (0 <? rr_Removed r)%nat.

(** [policyDifference]: rules are compared by their quoted text, which is injective. *)
Definition policyDifference (current target : list PolicyRow) : list PolicyRow * list PolicyRow :=
  let currentSet := list_to_set current : gset PolicyRow in
  let targetSet := list_to_set target : gset PolicyRow in
  (elements (currentSet ∖ targetSet), elements (targetSet ∖ currentSet)).

Definition normalizedIDs (ids : list Z) : Result (list Z) :=
  if existsb (λ id, id <=? 0) ids then Fail [Text "API ids must be positive"]
  else Ok (sort_ids (remove_dups ids)).

Fixpoint resourceRules (roleID : Z) (resources : list (Z * API)) : Result (list PolicyRow) :=
  match resources with
  | [] => Ok []
  | r :: rest =>
      result_bind (PolicyRule roleID (a_Path r.2) (a_Method r.2)) (λ p,
      result_bind (resourceRules roleID rest) (λ ps, Ok (p :: ps)))
  end.

Section policies.
Context `{PgLib, PgText, CasbinAdapter, PolicyNotifier}.

Definition enabled_api (r : Z * API) : bool := live_api r.2 && bool_decide (a_Status r.2 = RecordStatusEnabled).

(** The APIs a role gets: the required ones and the selected ones, enabled.  The source
    orders them by path, which decides only the order of insertion. *)
Definition target_apis (ids : list Z) (d : DB) : list (Z * API) :=
  filter (λ r, (enabled_api r && (a_IsRequired r.2 || bool_decide (r.1 ∈ ids))) = true) (rows (apis d)).

Definition loadTargetResources (h : Handle) (targetIDs : list Z) : M (list (Z * API)) :=
  (if bool_decide (targetIDs = []) then mret ()
   else
     count ← query h (λ _ d, Ok (length (filter (λ r, (enabled_api r && bool_decide (r.1 ∈ targetIDs)) = true) (rows (apis d)))));
     if negb (bool_decide (count = length targetIDs)) then fail [ErrAPIUnavailable] else mret ());;
  query h (λ _ d, Ok (target_apis targetIDs d)).

Definition loadCurrentRules (h : Handle) (roleID : Z) : M (list PolicyRow) :=
  subject ← lift (RoleSubject roleID);
  query h (λ _ d, Ok (LoadFilteredPolicy (policies d) subject)).

Definition removePolicies (h : Handle) (subject : string) : M unit :=
  exec h (λ _ d, ({ d with policies := RemoveFilteredPolicy (policies d) subject }, Ok tt)).

Definition addPolicies (h : Handle) (rules : list PolicyRow) : M unit :=
  exec h (λ _ d,
    match AddPolicies (policies d) rules with
    | Ok R => ({ d with policies := R }, Ok tt)
    | Fail e => (d, Fail e)
    end).

Definition publish : M bool :=
  r ← attempt (rpc notify_answer);
  match r with Ok _ => emit PoliciesPublished;; mret false | Fail _ => mret true end.

Definition ListRoleAPIIDs (h : Handle) (roleID : Z) : M (list Z) :=
  subject ← lift (RoleSubject roleID);
  query h (λ _ d, Ok (filter (λ r : Z * API, live_api r.2 = true ∧ (subject, a_Path r.2, a_Method r.2) ∈ policies d) (rows (apis d))).*1).

Definition replace_role_apis_body (roleID : Z) (targetIDs : list Z) : M ReplaceResult :=
  row ← FirstForUpdate InTx sys_role (RoleRow roleID) roleID;
  role ← found ErrRoleUnavailable row;
  if negb (bool_decide (ro_Status role = RecordStatusEnabled)) then fail [ErrRoleUnavailable]
  else if bool_decide (ro_Code role = SuperAdminRoleCode) then fail [ErrSuperAdminPolicyProtected]
  else
    resources ← loadTargetResources InTx targetIDs;
    current ← loadCurrentRules InTx roleID;
    target ← lift (resourceRules roleID resources);
    let '(removed, added) := policyDifference current target in
    let result := {| rr_Added := length added; rr_Removed := length removed; rr_NotificationError := false |} in
    if negb (Changed result) then mret result
    else
      subject ← lift (RoleSubject roleID);
      removePolicies InTx subject;;
      (if bool_decide (target = []) then mret () else addPolicies InTx target);;
      mret result.

Definition ReplaceRoleAPIs (roleID : Z) (apiIDs : list Z) : M ReplaceResult :=
  if roleID <=? 0 then fail [ErrInvalidRoleID]
  else
    targetIDs ← lift (normalizedIDs apiIDs);
    result ← transact (replace_role_apis_body roleID targetIDs);
    if Changed result then failed ← publish; mret { result with rr_NotificationError := failed } else mret result.

Definition delete_role_row (now : Time) (r : Role) : Role := { r with ro_DeletedAt := Some now }.

Definition delete_role_body (roleID : Z) : M nat :=
  row ← FirstForUpdate InTx sys_role (RoleRow roleID) roleID;
  role ← found ErrRoleNotFound row;
  if ro_IsSystem role then fail [ErrSystemRoleProtected]
  else
    assigned ← query InTx (λ _ d, Ok (existsb (λ r : Z * User, live_user r.2 && bool_decide ((r.1, roleID) ∈ user_roles d)) (rows (users d))));
    if assigned : bool then fail [ErrRoleInUse]
    else
      current ← loadCurrentRules InTx roleID;
      (if bool_decide (current = []) then mret ()
       else subject ← lift (RoleSubject roleID); removePolicies InTx subject);;
      exec InTx (λ _ d, ({ d with role_menus := filter (λ p, p.1 ≠ roleID) (role_menus d) }, Ok tt));;
      exec InTx (λ _ d, ({ d with user_roles := filter (λ p, p.2 ≠ roleID) (user_roles d) }, Ok tt));;
      Update InTx sys_role roleID (λ _, true) delete_role_row;;
      mret (length current).

Definition DeleteRole (roleID : Z) : M DeleteRoleResult :=
  if roleID <=? 0 then fail [ErrInvalidRoleID]
  else
    removed ← transact (delete_role_body roleID);
    failed ← (if (0 <? removed)%nat then publish else mret false);
    mret {| dr_RemovedPolicies := removed; dr_NotificationError := failed |}.
End policies.
