(* ===== verification/MenuRepo.v ===== *)
(** * Departments, menus and the menus of roles

    apps/system/internal/repository/department_repository.go, menu_repository.go and
    role_menu_repository.go.  Both trees are rows with optional parents; a change of a parent
    is validated against the whole tree, read without a lock. *)

From S2P Require Import Prelude GoLib GoText Tx Model TaskRepo InstanceRepo JobRepo SysModel UserRepo RoleRepo.

Open Scope Z_scope.

Definition ErrDepartmentNotFound : Cause := Sentinel "department not found".
Definition ErrDepartmentNameExists : Cause := Sentinel "department name already exists".
Definition ErrDepartmentHasChildren : Cause := Sentinel "department has children".
Definition ErrDepartmentHasUsers : Cause := Sentinel "department has users".
Definition ErrDepartmentParentInvalid : Cause := Sentinel "department parent is missing or invalid".
Definition ErrDepartmentCycle : Cause := Sentinel "department parent creates a cycle".
Definition ErrMenuNotFound : Cause := Sentinel "menu not found".
Definition ErrMenuParentInvalid : Cause := Sentinel "menu parent is missing or incompatible".
Definition ErrMenuCycle : Cause := Sentinel "menu parent creates a cycle".
Definition ErrMenuHasChildren : Cause := Sentinel "menu has children".
Definition ErrMenuRouteNameExists : Cause := Sentinel "menu route name already exists".
Definition ErrMenuPathExists : Cause := Sentinel "menu path already exists".
Definition ErrRoleMenuUnavailable : Cause := Sentinel "menu or its ancestor is unavailable".
Definition ErrSuperAdminMenusProtected : Cause := Sentinel "super administrator menus are not configurable".
Definition ErrRoleMenuRoleDisabled : Cause := Sentinel "disabled role menus are not configurable".

(** ** Walking up a tree

    [nodes] maps an identity to the parent of its row.  The [for] loops of
    validateDepartmentTree and validateMenuTree start at a parent and visit its ancestors;
    each turn marks a new row, so as many turns as there are rows are enough. *)

Abbreviation Parents := (gmap Z (option Z)).

Section climb.
Context (nodes : Parents) (invalid cycle : Cause) (id : Z).

Fixpoint climb (fuel : nat) (visited : gset Z) (at_ : Z) (parent : option Z) : option Error :=
  match fuel with
  | O => Some [cycle]
  | S fuel =>
      if (at_ =? id) || bool_decide (at_ ∈ visited) then Some [cycle]
      else match parent with
           | None => None
           | Some p =>
               match nodes !! p with
               | None => Some [invalid]
               | Some parent' => climb fuel ({[at_]} ∪ visited) p parent'
               end
           end
  end.
End climb.

(** ** Departments *)

Definition validateDepartmentTree (departments : list (Z * Department)) (id : Z) (candidate : option Z) : option Error :=
  let nodes := list_to_map ((λ r : Z * Department, (r.1, d_ParentID r.2)) <$> departments) : Parents in
  if (0 <? id) && bool_decide (nodes !! id = None) then Some [ErrDepartmentNotFound]
  else match candidate with
       | None => None
       | Some p =>
           match nodes !! p with
           | None => Some [ErrDepartmentParentInvalid]
           | Some parent => climb nodes ErrDepartmentParentInvalid ErrDepartmentCycle id (S (size nodes)) ∅ p parent
           end
       end.

Definition lift_error (e : option Error) : M unit := match e with Some e => fail e | None => mret () end.

Section departments.
Context `{PgLib, PgText}.

(** ORDER BY parent_id NULLS FIRST, sort, id *)
Definition department_le (x y : Z * Department) : Prop :=
  let px := parent_key (d_ParentID x.2) in
  let py := parent_key (d_ParentID y.2) in
  px < py ∨ (px = py ∧ lexle (d_Sort x.2, x.1) (d_Sort y.2, y.1)).
#[global] Instance department_le_dec x y : Decision (department_le x y).
Proof. unfold department_le, lexle. apply _. Defined.

Definition ListDepartments (h : Handle) : M (list (Z * Department)) :=
  query h (λ _ d, Ok (merge_sort department_le (filter (λ r : Z * Department, live_department r.2 = true) (rows (departments d))))).

Definition FindDepartment (h : Handle) (id : Z) : M Department :=
  if id <=? 0 then fail [Text "invalid find department arguments"]
  else row ← First h sys_department id; found ErrDepartmentNotFound row.

Definition mapDepartmentWriteError (e : Error) : Error :=
  match pg_code e with
  | Some (code, constraint) =>
      if bool_decide (code = "23505"%string) && bool_decide (constraint = "uk_sys_department_parent_name_active"%string)
      then [ErrDepartmentNameExists] else e
  | None => e
  end.

Definition validate (h : Handle) (id : Z) (parent : option Z) : M unit :=
  departments ← ListDepartments h; lift_error (validateDepartmentTree departments id parent).

Definition new_department (x : Department) (now : Time) : Department :=
  { x with d_Name := TrimSpace (d_Name x); d_CreatedAt := now; d_UpdatedAt := now; d_DeletedAt := None }.

Definition CreateDepartment (h : Handle) (x : Department) : M Z :=
  if bool_decide (TrimSpace (d_Name x) = ""%string) then fail [Text "department name is required"]
  else
    validate h 0 (d_ParentID x);;
    map_error mapDepartmentWriteError (Create h sys_department (new_department x)).

Definition department_row (x : Department) (now : Time) (row : Department) : Department :=
  { row with d_ParentID := d_ParentID x; d_Name := TrimSpace (d_Name x); d_Sort := d_Sort x; d_Remark := d_Remark x;
             d_UpdatedAt := now }.

Definition UpdateDepartment (h : Handle) (id : Z) (x : Department) : M unit :=
  if id <=? 0 then fail [Text "invalid update department arguments"]
  else if bool_decide (TrimSpace (d_Name x) = ""%string) then fail [Text "department name is required"]
  else
    validate h id (d_ParentID x);;
    n ← map_error mapDepartmentWriteError (Update h sys_department id (λ _, true) (department_row x));
    affected ErrDepartmentNotFound n.

Definition department_status_row (s : RecordStatus) (now : Time) (x : Department) : Department :=
  { x with d_Status := s; d_UpdatedAt := now }.

Definition UpdateDepartmentStatus (h : Handle) (id : Z) (s : RecordStatus) : M unit :=
  if id <=? 0 then fail [Text "invalid update department status arguments"]
  else n ← Update h sys_department id (λ _, true) (department_status_row s); affected ErrDepartmentNotFound n.

Definition delete_department_row (now : Time) (x : Department) : Department := { x with d_DeletedAt := Some now }.

Definition delete_department_body (id : Z) : M unit :=
  row ← First InTx sys_department id;
  found ErrDepartmentNotFound row;;
  child ← query InTx (λ _ d, Ok (existsb (λ r : Z * Department, live_department r.2 && bool_decide (d_ParentID r.2 = Some id)) (rows (departments d))));
  if child : bool then fail [ErrDepartmentHasChildren]
  else
    member ← query InTx (λ _ d, Ok (existsb (λ r : Z * User, live_user r.2 && bool_decide (u_DepartmentID r.2 = Some id)) (rows (users d))));
    if member : bool then fail [ErrDepartmentHasUsers]
    else Update InTx sys_department id (λ _, true) delete_department_row;; mret ().

Definition DeleteDepartment (id : Z) : M unit :=
  if id <=? 0 then fail [Text "invalid delete department arguments"] else transact (delete_department_body id).
End departments.

(** ** Menus *)

Definition validateMenuTree (menus : list (Z * Menu)) (id : Z) (candidate : Menu) : option Error :=
  let nodes := list_to_map menus : gmap Z Menu in
  let parents := m_ParentID <$> nodes : Parents in
  if bool_decide (m_Type candidate = MenuTypeElement) && (0 <? id) &&
     existsb (λ r : Z * Menu, bool_decide (m_ParentID r.2 = Some id)) menus
  then Some [ErrMenuHasChildren]
  else if (0 <? id) && bool_decide (nodes !! id = None) then Some [ErrMenuNotFound]
  else match m_ParentID candidate with
       | None => if bool_decide (m_Type candidate = MenuTypeElement) then Some [ErrMenuParentInvalid] else None
       | Some p =>
           match nodes !! p with
           | None => Some [ErrMenuParentInvalid]
           | Some parent =>
               if bool_decide (m_Type parent = MenuTypeElement) then Some [ErrMenuParentInvalid]
               else climb parents ErrMenuParentInvalid ErrMenuCycle id (S (size parents)) ∅ p (m_ParentID parent)
           end
       end.

(** [normalizeRoleMenuIDs]: every selected menu with its ancestors.  The inner loop climbs
    from one selected menu until it meets a menu that is already granted, or a root. *)
Fixpoint grant (nodes : gmap Z Menu) (granted : gset Z) (fuel : nat) (visited : gset Z) (id : Z) : option (gset Z) :=
  match fuel with
  | O => None
  | S fuel =>
      match nodes !! id with
      | None => None
      | Some menu =>
          if bool_decide (id ∈ visited) then None
          else if bool_decide (id ∈ granted) then Some visited
          else match m_ParentID menu with
               | None => Some ({[id]} ∪ visited)
               | Some p => grant nodes granted fuel ({[id]} ∪ visited) p
               end
      end
  end.

Fixpoint grant_all (nodes : gmap Z Menu) (granted : gset Z) (selected : list Z) : option (gset Z) :=
  match selected with
  | [] => Some granted
  | id :: rest =>
      match grant nodes granted (S (size nodes)) ∅ id with
      | None => None
      | Some visited => grant_all nodes (visited ∪ granted) rest
      end
  end.

Definition normalizeRoleMenuIDs (menus : list (Z * Menu)) (selected : list Z) : Result (list Z) :=
  match grant_all (list_to_map menus) ∅ selected with
  | None => Fail [ErrRoleMenuUnavailable]
  | Some granted => Ok (sort_ids (elements granted))
  end.

Section menus.
Context `{PgLib, PgText}.

(** Every read and write of a menu is scoped to the web application. *)
Definition scoped (m : Menu) : bool := bool_decide (m_AppCode m = MenuAppAdminWeb).

Definition menu_key (r : Z * Menu) : Z * Z := (m_Sort r.2, r.1).
Definition scoped_menus (d : DB) : list (Z * Menu) :=
  order_by menu_key (filter (λ r : Z * Menu, (live_menu r.2 && scoped r.2) = true) (rows (menus d))).

Definition ListMenus (h : Handle) : M (list (Z * Menu)) := query h (λ _ d, Ok (scoped_menus d)).

Definition FindMenu (h : Handle) (id : Z) : M Menu :=
  if id <=? 0 then fail [Text "invalid find menu arguments"]
  else
    row ← query h (λ _ d, Ok (m ← live_row sys_menu d id; if scoped m then Some m else None));
    found ErrMenuNotFound row.

Definition mapMenuWriteError (e : Error) : Error :=
  match pg_code e with
  | Some (code, constraint) =>
      if bool_decide (code = "23505"%string) then
        if bool_decide (constraint = "uk_sys_menu_app_route_name_active"%string) then [ErrMenuRouteNameExists]
        else if bool_decide (constraint = "uk_sys_menu_app_path_active"%string) then [ErrMenuPathExists]
        else e
      else e
  | None => e
  end.

Definition new_menu (m : Menu) (now : Time) : Menu :=
  { m with m_AppCode := MenuAppAdminWeb; m_CreatedAt := now; m_UpdatedAt := now; m_DeletedAt := None }.

Definition CreateMenu (h : Handle) (m : Menu) : M Z :=
  menus ← ListMenus h;
  lift_error (validateMenuTree menus 0 m);;
  map_error mapMenuWriteError (Create h sys_menu (new_menu m)).

Definition menu_row (m : Menu) (now : Time) (row : Menu) : Menu :=
  { row with m_ParentID := m_ParentID m; m_Type := m_Type m; m_Name := m_Name m; m_RouteName := m_RouteName m; m_Path := m_Path m;
             m_Component := m_Component m; m_Permission := m_Permission m; m_Icon := m_Icon m; m_Sort := m_Sort m;
             m_Visible := m_Visible m; m_KeepAlive := m_KeepAlive m; m_External := m_External m; m_Remark := m_Remark m;
             m_UpdatedAt := now }.

Definition UpdateMenu (h : Handle) (id : Z) (m : Menu) : M unit :=
  if id <=? 0 then fail [Text "invalid update menu arguments"]
  else
    menus ← ListMenus h;
    lift_error (validateMenuTree menus id m);;
    n ← map_error mapMenuWriteError (Update h sys_menu id scoped (menu_row m));
    affected ErrMenuNotFound n.

Definition menu_status_row (s : RecordStatus) (now : Time) (m : Menu) : Menu := { m with m_Status := s; m_UpdatedAt := now }.

Definition UpdateMenuStatus (h : Handle) (id : Z) (s : RecordStatus) : M unit :=
  if id <=? 0 then fail [Text "invalid update menu status arguments"]
  else n ← Update h sys_menu id scoped (menu_status_row s); affected ErrMenuNotFound n.

Definition delete_menu_row (now : Time) (m : Menu) : Menu := { m with m_DeletedAt := Some now }.

Definition delete_menu_body (id : Z) : M unit :=
  FindMenu InTx id;;
  child ← query InTx (λ _ d, Ok (existsb (λ r : Z * Menu, live_menu r.2 && bool_decide (m_ParentID r.2 = Some id)) (rows (menus d))));
  if child : bool then fail [ErrMenuHasChildren]
  else
    exec InTx (λ _ d, ({ d with role_menus := filter (λ p, p.2 ≠ id) (role_menus d) }, Ok tt));;
    Update InTx sys_menu id (λ _, true) delete_menu_row;; mret ().

Definition DeleteMenu (id : Z) : M unit :=
  if id <=? 0 then fail [Text "invalid delete menu arguments"] else transact (delete_menu_body id).

(** ** Menus of roles *)

Definition granted_menus (d : DB) (roleIDs : list Z) : list Z :=
  ids_where (λ id m, live_menu m && scoped m && existsb (λ r, bool_decide ((r, id) ∈ role_menus d)) roleIDs) (menus d).

Definition ListMenuIDs (h : Handle) (roleIDs : list Z) : M (list Z) :=
  if bool_decide (roleIDs = []) then mret [] else query h (λ _ d, Ok (granted_menus d roleIDs)).

(** The grants of other applications stay; those of deleted web menus go. *)
Definition other_application (d : DB) (id : Z) : Prop := match menus d !! id with Some m => scoped m = false | None => True end.
#[global] Instance other_application_dec d id : Decision (other_application d id).
Proof. unfold other_application. destruct (menus d !! id); apply _. Defined.

Definition replace_role_menus_body (roleID : Z) (menuIDs : list Z) : M unit :=
  row ← FirstForUpdate InTx sys_role (RoleRow roleID) roleID;
  role ← found ErrRoleNotFound row;
  if bool_decide (ro_Code role = SuperAdminRoleCode) then fail [ErrSuperAdminMenusProtected]
  else if negb (bool_decide (ro_Status role = RecordStatusEnabled)) then fail [ErrRoleMenuRoleDisabled]
  else
    menus ← ListMenus InTx;
    ids ← lift (normalizeRoleMenuIDs menus menuIDs);
    current ← ListMenuIDs InTx [roleID];
    if bool_decide (current = ids) then mret ()
    else
      exec InTx (λ _ d, ({ d with role_menus := filter (λ p, p.1 = roleID → other_application d p.2) (role_menus d) }, Ok tt));;
      if bool_decide (ids = []) then mret ()
      else exec InTx (λ _ d,
        let grants := list_to_set ((λ id, (roleID, id)) <$> ids) : gset (Z * Z) in
        if bool_decide (grants ## role_menus d) then ({ d with role_menus := role_menus d ∪ grants }, Ok tt)
        else (d, Fail [PgError "23505" "sys_role_menu_pkey"])).

Definition ReplaceRoleMenus (roleID : Z) (menuIDs : list Z) : M unit :=
  if roleID <=? 0 then fail [Text "invalid replace role menu arguments"] else transact (replace_role_menus_body roleID menuIDs).
End menus.
