(* ===== verification/Accounts.v ===== *)
(** * Passwords, logins and the first administrator

    apps/system/internal/authn/username.go and password.go,
    apps/system/internal/bootstrapadmin/service.go, and the handlers of
    apps/system/rpc/internal/logic that use passwords or end sessions (loginlogic.go,
    changepasswordlogic.go, usermanagement.go and the user handlers).  The session store
    (Sessions.v), the token issuer, the login locks (LoginProtection.v) and bcrypt are
    services that answer at each call. *)

From S2P Require Import Prelude GoLib GoText Tx Model TaskRepo InstanceRepo JobRepo RpcErrors Redis LoginProtection.
From S2P Require Import SysModel UserRepo RoleRepo.

Open Scope Z_scope.

(** ** Names and passwords *)

Definition MaxUsernameCharacters : Z := 64.
Definition MaxPasswordBytes : Z := 72.
Definition ErrPasswordMismatch : Cause := Sentinel "password mismatch".
Definition ErrMismatchedHashAndPassword : Cause := Sentinel "crypto/bcrypt: hashedPassword is not the hash of the given password".

Definition byte_length (s : string) : Z := Z.of_nat (length (bytes s)).

Definition ValidateUsername (username : string) : Result unit :=
  if (byte_length username =? 0) || (MaxUsernameCharacters <? byte_length username)
  then Fail [Text "username must contain 1 to 64 characters"]
  else if negb (hyphenated false (bytes username)) then Fail [Text "username format"]
  else Ok tt.

(** The category of a permitted character. *)
Definition password_category (b : Z) : option nat :=
  if between 65 90 b then Some 0%nat
  else if between 97 122 b then Some 1%nat
  else if is_digit b then Some 2%nat
  else if has b (bytes "!@#$%^&*()_+-=") then Some 3%nat
  else None.

Definition ValidatePassword (password : string) : Result unit :=
  let categories := password_category <$> bytes password in
  if (byte_length password <? 8) || (32 <? byte_length password) then Fail [Text "password must contain 8 to 32 characters"]
  else if bool_decide (None ∈ categories) then Fail [Text "password characters"]
  else if (length (filter (λ c, Some c ∈ categories) (seq 0 4)) <? 3)%nat then Fail [Text "password categories"]
  else Ok tt.

(** golang.org/x/crypto/bcrypt: hashing draws a salt. *)
Class BcryptLib := {
  GenerateFromPassword : string → nat → Result string;
  CompareHashAndPassword : string → string → Result unit;
}.

Definition Verify `{BcryptLib} (encodedHash password : string) : Result unit :=
  if MaxPasswordBytes <? byte_length password then Fail [ErrPasswordMismatch]
  else match CompareHashAndPassword encodedHash password with
       | Ok _ => Ok tt
       | Fail e => if errors_is e ErrMismatchedHashAndPassword then Fail [ErrPasswordMismatch] else Fail e
       end.

Definition Hash `{BcryptLib} (password : string) : M string :=
  lift (ValidatePassword password);; rpc (GenerateFromPassword password).

(** ** Services *)

(** net/mail: the address a text denotes. *)
Class MailLib := ParseAddress : string → option string.

Class Services := {
  RevokeAnswer : Z → nat → Result unit;
  IssueAnswer : Z → nat → Result (string * string * Z);
  SecurityAnswer : nat → Result LoginSecurityConfig;
  LockedAnswer : string → nat → Result bool;
  FailAnswer : string → LoginSecurityConfig → nat → Result unit;
  ClearAnswer : string → nat → Result unit;
  LoginLogAnswer : nat → Result unit;
}.

(** A call that another component answers; its effect there is the message. *)
Definition call {A} (answer : nat → Result A) (effect : Output) : M A :=
  a ← rpc answer; emit effect;; mret a.

Section accounts.
Context `{PgLib, PgText, BcryptLib, MailLib, Services}.

Definition RevokeAll (user : Z) : M unit := call (RevokeAnswer user) (SessionsRevoked user).

(** ** The first administrator *)

Record AdministratorInput := { ai_Username : string; ai_Password : string; ai_Nickname : string }.
Definition ErrAdministratorExists : Cause := Sentinel "initial administrator already exists".

Definition administrator_user (input : AdministratorInput) (nickname passwordHash : string) : User :=
  {| u_Username := ai_Username input; u_PasswordHash := passwordHash; u_Nickname := nickname; u_Email := None; u_Phone := None;
     u_DepartmentID := None; u_Status := RecordStatusEnabled; u_LastLoginAt := None; u_Remark := "initial administrator";
     u_CreatedAt := 0; u_UpdatedAt := 0; u_DeletedAt := None |}.

Definition CreateAdministrator (h : Handle) (input : AdministratorInput) : M Z :=
  let trimmed := TrimSpace (ai_Nickname input) in
  let nickname := if bool_decide (trimmed = ""%string) then ai_Username input else trimmed in
  lift (ValidateUsername (ai_Username input));;
  if bool_decide (nickname = ""%string) || (64 <? RuneCountInString nickname) then fail [Text "nickname must contain 1 to 64 characters"]
  else
    lift (ValidatePassword (ai_Password input));;
    passwordHash ← Hash (ai_Password input);
    CreateUser h (administrator_user input nickname passwordHash).

Definition department_id_row (department : Z) (now : Time) (u : User) : User :=
  { u with u_DepartmentID := Some department; u_UpdatedAt := now }.

Definition bootstrap_body (input : AdministratorInput) : M Z :=
  seeded ← query InTx (λ _ d, Ok (head (filter (λ r : NamedRole,
    (live_role r.2 && is_super r && bool_decide (ro_Status r.2 = RecordStatusEnabled)) = true) (rows (roles d)))));
  role ← (match seeded with Some r => mret r.1 | None => fail [Text "record not found"] end);
  locked ← FirstForUpdate InTx sys_role (RoleRow role) role;
  match locked with
  | None => fail [Text "record not found"]
  | Some _ =>
      assigned ← query InTx (λ _ d, Ok (bool_decide (role ∈ (elements (user_roles d)).*2)));
      if assigned : bool then fail [ErrAdministratorExists]
      else
        user ← CreateAdministrator InTx input;
        department ← query InTx (λ _ d, Ok (head (filter (λ r : Z * Department,
          (live_department r.2 && bool_decide (d_ParentID r.2 = None) && bool_decide (d_Status r.2 = RecordStatusEnabled)) = true)
          (rows (departments d)))));
        match department with
        | None => fail [Text "record not found"]
        | Some x =>
            Update InTx sys_user user (λ _, true) (department_id_row x.1);;
            insertUserRoles InTx user [role];;
            mret user
        end
  end.

Definition CreateInitialAdministrator (input : AdministratorInput) : M Z := transact (bootstrap_body input).
End accounts.
