(* ===== verification/SysLogic.v ===== *)
(** * The handlers of the System RPC service: users, roles and logins

    apps/system/rpc/internal/logic: usermanagement.go and the user handlers,
    rolevalidation.go and the role handlers, loginlogic.go, changepasswordlogic.go,
    updateprofilelogic.go, getcurrentuserlogic.go.  A handler ends the sessions of a user
    before it changes what the user may do.  Requests are never nil behind gRPC.  The other
    parts are the handlers of departments, menus and navigation, and all operations as one
    type. *)

From S2P Require Import Prelude GoLib GoText Tx Model TaskRepo InstanceRepo JobRepo RpcErrors Redis LoginProtection.
From S2P Require Import SysModel UserRepo RoleRepo MenuRepo Accounts.

Open Scope Z_scope.

(** ** Subcodes *)

Definition AuthAccountLocked : string := "system.auth.account_locked".
Definition AuthInvalidCredentials : string := "system.auth.invalid_credentials".
Definition AuthUserDisabled : string := "system.auth.user_disabled".
Definition AuthNewPasswordUnchanged : string := "system.auth.new_password_unchanged".
Definition AuthCurrentPasswordWrong : string := "system.auth.current_password_wrong".
Definition UserNotFound : string := "system.user.not_found".
Definition UserUsernameExists : string := "system.user.username_exists".
Definition UserEmailExists : string := "system.user.email_exists".
Definition UserPhoneExists : string := "system.user.phone_exists".
Definition UserRoleUnavailable : string := "system.user.role_unavailable".
Definition UserDepartmentUnavailable : string := "system.user.department_unavailable".
Definition UserSuperAdminNotAssignable : string := "system.user.super_admin_not_assignable".
Definition UserSuperAdminProtected : string := "system.user.super_admin_protected".
Definition UserSelfProtected : string := "system.user.self_protected".
Definition RoleNotFound : string := "system.role.not_found".
Definition RoleCodeExists : string := "system.role.code_exists".
Definition RoleCodeReserved : string := "system.role.code_reserved".
Definition RoleInUse : string := "system.role.in_use".
Definition RoleSystemCannotDelete : string := "system.role.system_cannot_delete".
Definition RoleSystemCannotDisable : string := "system.role.system_cannot_disable".
Definition RoleSystemCodeImmutable : string := "system.role.system_code_immutable".
Definition RoleUnavailable : string := "system.role.unavailable".
Definition RoleAPIUnavailable : string := "system.role.api_unavailable".
Definition RoleSuperAdminAPIProtected : string := "system.role.super_admin_api_protected".

Definition InvalidArgument {A} (message : string) : M A := fail (status_error codes_InvalidArgument message).

(** ** Validation *)

Definition MaxInt : Z := 2 ^ 63 - 1.

Definition userPageOffset (page pageSize : Z) (keyword : string) : Result Z :=
  if (page <=? 0) || (pageSize <=? 0) || (200 <? pageSize) || (128 <? RuneCountInString keyword) || (MaxInt / pageSize <? page - 1)
  then Fail (status_error codes_InvalidArgument "invalid user pagination")
  else Ok ((page - 1) * pageSize).

Definition optionalContact (value : string) : option string := if bool_decide (value = ""%string) then None else Some value.

Definition normalizeUserProfile `{MailLib} (nickname email phone remark : string) : Result UserProfileUpdate :=
  let nickname := TrimSpace nickname in
  let email := TrimSpace email in
  let phone := TrimSpace phone in
  let remark := TrimSpace remark in
  if bool_decide (nickname = ""%string) || (64 <? RuneCountInString nickname) || (255 <? RuneCountInString email) ||
     (32 <? RuneCountInString phone) || (500 <? RuneCountInString remark)
  then Fail (status_error codes_InvalidArgument "invalid user profile")
  else if negb (bool_decide (email = ""%string)) && negb (bool_decide (ParseAddress email = Some email))
  then Fail (status_error codes_InvalidArgument "invalid user email")
  else Ok {| up_Nickname := nickname; up_Email := optionalContact email; up_Phone := optionalContact phone; up_Remark := remark;
             up_DepartmentID := None |}.

Definition validUserRoleIDs (ids : list Z) : bool := (length ids <=? 100)%nat && negb (existsb (λ id, id <=? 0) ids).
Definition userHasSuperRole (record : UserRecord) : bool := existsb is_super (ur_Roles record).
Definition validRecordStatus (value : Z) : bool := (value =? 0) || (value =? 1).
Definition status_of (value : Z) : RecordStatus :=
  if value =? 0 then RecordStatusDisabled else if value =? 1 then RecordStatusEnabled else RecordStatusCode value.

Definition userManagementError (e : Error) : Error :=
  if errors_is e ErrUserNotFound then New UserNotFound "用户不存在"
  else if errors_is e ErrUsernameExists then New UserUsernameExists "用户名已存在"
  else if errors_is e ErrUserEmailExists then New UserEmailExists "邮箱已被使用"
  else if errors_is e ErrUserPhoneExists then New UserPhoneExists "手机号已被使用"
  else if errors_is e ErrSuperAdminNotAssignable then New UserSuperAdminNotAssignable "超管角色不允许授权"
  else if errors_is e ErrUserRoleUnavailable then New UserRoleUnavailable "角色不存在或不允许分配"
  else if errors_is e ErrUserDepartmentUnavailable then New UserDepartmentUnavailable "部门不存在或已停用"
  else if errors_is e ErrSuperAdminProtected
  then New UserSuperAdminProtected "初始化超管账号受保护，不能停用、删除、修改角色或由其他账号修改"
  else e.

Definition sameUserRoleIDs (current : list NamedRole) (targetIDs : list Z) : bool :=
  bool_decide (compact (sort_ids current.*1) = compact (sort_ids targetIDs)).

Record normalizedRoleInput := { nr_code : string; nr_name : string; nr_description : string }.
(** [strings.ToLower]: two letters beyond ASCII have an ASCII lower case; the others stay
    beyond ASCII, which the pattern of codes refuses. *)
Definition lower_rune (r : option Z * list Z) : list Z :=
  match r.1 with Some 304 => [105] | Some 8490 => [107] | _ => lower_byte <$> r.2 end.
Definition ToLower (s : string) : string := of_bytes (concat (lower_rune <$> runes (bytes s))).
Definition normalizeRoleInput (code name description : string) : Result normalizedRoleInput :=
  let code := ToLower (TrimSpace code) in
  let name := TrimSpace name in
  let description := TrimSpace description in
  if bool_decide (code = ""%string) || (64 <? RuneCountInString code) || negb (role_code_format code) then Fail [Text "invalid role code"]
  else if bool_decide (name = ""%string) || (64 <? RuneCountInString name) then Fail [Text "invalid role name"]
  else if 500 <? RuneCountInString description then Fail [Text "invalid role description"]
  else Ok {| nr_code := code; nr_name := name; nr_description := description |}.

(** ** Users *)

Record CreateUserRequest := {
  cu_Username : string; cu_Password : string; cu_Nickname : string; cu_Email : string; cu_Phone : string; cu_Remark : string;
  cu_Status : Z; cu_RoleIds : list Z; cu_DepartmentId : Z }.
Record UpdateUserRequest := {
  uu_Id : Z; uu_OperatorId : Z; uu_Nickname : string; uu_Email : string; uu_Phone : string; uu_Remark : string; uu_DepartmentId : Z }.

Section users.
Context `{PgLib, PgText, BcryptLib, MailLib, Services}.

Definition managedUser (operatorID userID : Z) (deactivating : bool) : M UserRecord :=
  if (operatorID <=? 0) || (userID <=? 0) then InvalidArgument "invalid user management identity"
  else if deactivating && (operatorID =? userID) then fail (New UserSelfProtected "不能停用或删除当前登录账号")
  else
    record ← map_error userManagementError (FindWithRoles Auto userID);
    if userHasSuperRole record && (deactivating || negb (operatorID =? userID)) then fail (userManagementError [ErrSuperAdminProtected])
    else mret record.

Definition created_user (in_ : CreateUserRequest) (profile : UserProfileUpdate) (hash : string) : User :=
  {| u_Username := cu_Username in_; u_PasswordHash := hash; u_Nickname := up_Nickname profile; u_Email := up_Email profile;
     u_Phone := up_Phone profile; u_DepartmentID := Some (cu_DepartmentId in_); u_Status := status_of (cu_Status in_);
     u_LastLoginAt := None; u_Remark := up_Remark profile; u_CreatedAt := 0; u_UpdatedAt := 0; u_DeletedAt := None |}.

Definition is_fail {A} (r : Result A) : bool := match r with Ok _ => false | Fail _ => true end.

Definition CreateUserLogic (in_ : CreateUserRequest) : M Z :=
  if negb (validRecordStatus (cu_Status in_)) || negb (validUserRoleIDs (cu_RoleIds in_)) || (cu_DepartmentId in_ <=? 0)
  then InvalidArgument "invalid create user request"
  else if is_fail (ValidateUsername (cu_Username in_)) || is_fail (ValidatePassword (cu_Password in_))
  then InvalidArgument "invalid user credentials"
  else
    profile ← lift (normalizeUserProfile (cu_Nickname in_) (cu_Email in_) (cu_Phone in_) (cu_Remark in_));
    hash ← Hash (cu_Password in_);
    map_error userManagementError (CreateWithRoles (created_user in_ profile hash) (cu_RoleIds in_)).

Definition UpdateUserLogic (in_ : UpdateUserRequest) : M unit :=
  if (uu_Id in_ <=? 0) || (uu_DepartmentId in_ <=? 0) then InvalidArgument "invalid update user request"
  else
    profile ← lift (normalizeUserProfile (uu_Nickname in_) (uu_Email in_) (uu_Phone in_) (uu_Remark in_));
    managedUser (uu_OperatorId in_) (uu_Id in_) false;;
    map_error userManagementError
      (UpdateProfile Auto (uu_Id in_) { profile with up_DepartmentID := Some (uu_DepartmentId in_) }).

Definition UpdateUserStatusLogic (operatorID id status : Z) : M unit :=
  if negb (validRecordStatus status) then InvalidArgument "invalid user status"
  else
    managedUser operatorID id (status =? 0);;
    (if status =? 0 then RevokeAll id else mret ());;
    map_error userManagementError (UpdateStatus Auto id (status_of status)).

Definition DeleteUserLogic (operatorID id : Z) : M unit :=
  managedUser operatorID id true;;
  RevokeAll id;;
  map_error userManagementError (DeleteUser id).

Definition ReplaceUserRolesLogic (operatorID id : Z) (roleIDs : list Z) : M unit :=
  if negb (validUserRoleIDs roleIDs) then InvalidArgument "invalid user roles"
  else
    record ← managedUser operatorID id false;
    if userHasSuperRole record then fail (userManagementError [ErrSuperAdminProtected])
    else
      map_error userManagementError (ValidateRoles Auto roleIDs (ur_Roles record));;
      if sameUserRoleIDs (ur_Roles record) roleIDs then mret ()
      else
        RevokeAll id;;
        map_error userManagementError (ReplaceRoles id roleIDs).

Definition ResetUserPasswordLogic (operatorID id : Z) (password : string) : M unit :=
  if is_fail (ValidatePassword password) then InvalidArgument "invalid reset password request"
  else
    managedUser operatorID id false;;
    hash ← Hash password;
    RevokeAll id;;
    map_error userManagementError (UpdatePasswordHash Auto id hash).

Definition RevokeUserSessionsLogic (id : Z) : M unit :=
  if id <=? 0 then InvalidArgument "invalid user session revocation request" else RevokeAll id.

Definition UpdateProfileLogic (id : Z) (nickname email phone : string) : M unit :=
  if id <=? 0 then InvalidArgument "invalid profile request"
  else
    profile ← lift (normalizeUserProfile nickname email phone "");
    r ← attempt (UpdateContacts Auto id {| uc_Nickname := up_Nickname profile; uc_Email := up_Email profile; uc_Phone := up_Phone profile |});
    match r with
    | Ok _ => mret ()
    | Fail e =>
        if errors_is e ErrUserNotFound then fail (status_error codes_Unauthenticated "user no longer exists or is disabled")
        else fail (userManagementError e)
    end.

Definition GetCurrentUserLogic (id : Z) : M (Z * string * string) :=
  if id <=? 0 then InvalidArgument "invalid current user request"
  else
    r ← attempt (FindByID Auto id);
    match r with
    | Fail e => if errors_is e ErrUserNotFound then fail (status_error codes_Unauthenticated "user no longer exists") else fail e
    | Ok user =>
        if negb (bool_decide (u_Status user = RecordStatusEnabled))
        then RevokeAll id;; fail (status_error codes_Unauthenticated "user is disabled")
        else mret (id, u_Username user, u_Nickname user)
    end.

Definition ChangePasswordLogic (id : Z) (currentPassword newPassword : string) : M unit :=
  if (id <=? 0) || bool_decide (currentPassword = ""%string) || (MaxPasswordBytes <? byte_length currentPassword)
  then InvalidArgument "invalid change password request"
  else if is_fail (ValidatePassword newPassword) then InvalidArgument "invalid new password"
  else if bool_decide (currentPassword = newPassword) then fail (New AuthNewPasswordUnchanged "新密码不能与当前密码相同")
  else
    r ← attempt (FindByID Auto id);
    match r with
    | Fail e =>
        if errors_is e ErrUserNotFound
        then attempt (RevokeAll id);; fail (status_error codes_Unauthenticated "user no longer exists")
        else fail e
    | Ok user =>
        if negb (bool_decide (u_Status user = RecordStatusEnabled))
        then RevokeAll id;; fail (status_error codes_Unauthenticated "user is disabled")
        else
          match Verify (u_PasswordHash user) currentPassword with
          | Fail e =>
              if errors_is e ErrPasswordMismatch then fail (New AuthCurrentPasswordWrong "当前密码错误") else fail e
          | Ok _ =>
              passwordHash ← Hash newPassword;
              RevokeAll id;;
              UpdatePasswordHash Auto id passwordHash
          end
    end.

(** ** Logins *)

Record LoginRequest := { li_Username : string; li_Password : string; li_IpAddress : string; li_UserAgent : string }.

Definition LoginFailureInvalidCredentials : string := "invalid_credentials".
Definition LoginFailureAccountDisabled : string := "account_disabled".
Definition LoginFailureSystemError : string := "system_error".

Definition encode_rune (r : option Z * list Z) : list Z := match r.1 with Some _ => r.2 | None => [239; 191; 189] end.
(** [string([]rune(value)[:maximum])]: a byte that is not UTF-8 becomes U+FFFD. *)
Definition truncateRunes (value : string) (maximum : nat) : string :=
  let rs := runes (bytes value) in
  if (length rs <=? maximum)%nat then value else of_bytes (concat (encode_rune <$> take maximum rs)).

(** A login record that cannot be written is only logged. *)
Definition recordLogin (user : option Z) (username : string) (success : bool) (reason : string) (in_ : LoginRequest) : M unit :=
  attempt (call LoginLogAnswer (LoginRecorded user (truncateRunes username 64) success reason
    (truncateRunes (TrimSpace (li_IpAddress in_)) 45) (truncateRunes (TrimSpace (li_UserAgent in_)) 512)));;
  mret ().

Definition unavailable {A} : M A := fail (status_error codes_Unavailable "login protection unavailable").
Definition invalidCredentialsError : Error := New AuthInvalidCredentials "用户名或密码错误".

(** [recordFailure] *)
Definition recordFailure (security : LoginSecurityConfig) (username : string) : M unit :=
  if negb (ls_FailureLockEnabled security) then mret ()
  else r ← attempt (call (FailAnswer username security) (FailureCounted username));
       match r with Ok _ => mret () | Fail _ => unavailable end.

Definition login_issue (security : LoginSecurityConfig) (id : Z) (in_ : LoginRequest) : M (string * string * Z) :=
  let username := li_Username in_ in
  (if ls_FailureLockEnabled security then
     r ← attempt (call (ClearAnswer username) (FailuresCleared username));
     match r with Ok _ => mret () | Fail _ => unavailable end
   else mret ());;
  r ← attempt (call (IssueAnswer id) (CredentialsIssued id));
  match r with
  | Fail e => recordLogin (Some id) username false LoginFailureSystemError in_;; fail e
  | Ok credentials =>
      now ← Now;
      attempt (UpdateLastLoginAt Auto id now);;
      recordLogin (Some id) username true "" in_;;
      mret credentials
  end.

Definition login_verify (security : LoginSecurityConfig) (row : Z * User) (in_ : LoginRequest) : M (string * string * Z) :=
  let username := li_Username in_ in
  let enabled := bool_decide (u_Status row.2 = RecordStatusEnabled) in
  match Verify (u_PasswordHash row.2) (li_Password in_) with
  | Fail e =>
      if errors_is e ErrPasswordMismatch then
        recordLogin (Some row.1) username false LoginFailureInvalidCredentials in_;;
        (if enabled then recordFailure security username else mret ());;
        fail invalidCredentialsError
      else recordLogin (Some row.1) username false LoginFailureSystemError in_;; fail e
  | Ok _ =>
      if negb enabled then
        recordLogin (Some row.1) username false LoginFailureAccountDisabled in_;;
        fail (New AuthUserDisabled "账号已停用")
      else login_issue security row.1 in_
  end.

Definition LoginLogic (in_ : LoginRequest) : M (string * string * Z) :=
  let username := li_Username in_ in
  if is_fail (ValidateUsername username) || bool_decide (li_Password in_ = ""%string) || (MaxPasswordBytes <? byte_length (li_Password in_))
  then recordLogin None username false LoginFailureInvalidCredentials in_;; InvalidArgument "invalid login request"
  else
    r ← attempt (rpc SecurityAnswer);
    match r with
    | Fail _ => unavailable
    | Ok security =>
        locked ← (if ls_FailureLockEnabled security then
                    r ← attempt (rpc (LockedAnswer username));
                    match r with Ok locked => mret locked | Fail _ => unavailable end
                  else mret false);
        if locked : bool then fail (New AuthAccountLocked "账号已临时锁定，请稍后再试")
        else
          r ← attempt (FindByUsername Auto username);
          match r with
          | Fail e =>
              if errors_is e ErrUserNotFound then
                recordLogin None username false LoginFailureInvalidCredentials in_;;
                recordFailure security username;;
                fail invalidCredentialsError
              else recordLogin None username false LoginFailureSystemError in_;; fail e
          | Ok row => login_verify security row in_
          end
    end.
End users.

(** ** Roles *)

Section roles.
Context `{PgLib, PgText, CasbinAdapter, PolicyNotifier}.

Definition CreateRoleLogic (code name description : string) (sort status : Z) : M Z :=
  if (sort <? 0) || negb (validRecordStatus status) then InvalidArgument "invalid create role request"
  else match normalizeRoleInput code name description with
       | Fail _ => InvalidArgument "invalid create role request"
       | Ok n =>
           map_error (λ e,
             if errors_is e ErrRoleCodeExists then New RoleCodeExists "角色编码已存在"
             else if errors_is e ErrReservedRoleCode then New RoleCodeReserved "角色编码为系统保留，不能使用"
             else e)
             (CreateRole Auto {| ro_Code := nr_code n; ro_Name := nr_name n; ro_Description := nr_description n; ro_Sort := sort;
                                 ro_Status := status_of status; ro_IsSystem := false; ro_CreatedAt := 0; ro_UpdatedAt := 0;
                                 ro_DeletedAt := None |})
       end.

Definition UpdateRoleLogic (id : Z) (code name description : string) (sort : Z) : M unit :=
  if (id <=? 0) || (sort <? 0) then InvalidArgument "invalid update role request"
  else match normalizeRoleInput code name description with
       | Fail _ => InvalidArgument "invalid update role request"
       | Ok n =>
           map_error (λ e,
             if errors_is e ErrRoleNotFound then New RoleNotFound "角色不存在"
             else if errors_is e ErrRoleCodeExists then New RoleCodeExists "角色编码已存在"
             else if errors_is e ErrReservedRoleCode then New RoleCodeReserved "角色编码为系统保留，不能使用"
             else if errors_is e ErrSystemRoleProtected then New RoleSystemCodeImmutable "系统内置角色编码不可修改"
             else e)
             (UpdateRole Auto id {| ru_Code := nr_code n; ru_Name := nr_name n; ru_Description := nr_description n; ru_Sort := sort |})
       end.

Definition UpdateRoleStatusLogic (id status : Z) : M unit :=
  if (id <=? 0) || negb (validRecordStatus status) then InvalidArgument "invalid update role status request"
  else map_error (λ e,
         if errors_is e ErrRoleNotFound then New RoleNotFound "角色不存在"
         else if errors_is e ErrSystemRoleProtected then New RoleSystemCannotDisable "系统内置角色不能停用"
         else e)
         (UpdateRoleStatus Auto id (status_of status)).

Definition DeleteRoleLogic (id : Z) : M unit :=
  if id <=? 0 then InvalidArgument "invalid delete role request"
  else
    map_error (λ e,
      if errors_is e ErrRoleNotFound then New RoleNotFound "角色不存在"
      else if errors_is e ErrRoleInUse then New RoleInUse "角色已被用户使用，不能删除"
      else if errors_is e ErrSystemRoleProtected then New RoleSystemCannotDelete "系统内置角色不能删除"
      else if errors_is e ErrInvalidRoleID then status_error codes_InvalidArgument "invalid delete role request"
      else e)
      (DeleteRole id);;
    mret ().

Definition maxRoleAPIIDs : nat := 10000.

Definition ReplaceRoleAPIsLogic (roleID : Z) (apiIDs : list Z) : M unit :=
  if (roleID <=? 0) || negb (length apiIDs <=? maxRoleAPIIDs)%nat || existsb (λ id, id <=? 0) apiIDs
  then InvalidArgument "invalid role API authorization request"
  else
    map_error (λ e,
      if errors_is e ErrInvalidRoleID then status_error codes_InvalidArgument "invalid role API authorization request"
      else if errors_is e ErrRoleUnavailable then New RoleUnavailable "角色不存在或已停用"
      else if errors_is e ErrAPIUnavailable then New RoleAPIUnavailable "接口资源不存在或已停用"
      else if errors_is e ErrSuperAdminPolicyProtected
      then New RoleSuperAdminAPIProtected "超级管理员拥有全部接口权限，不能配置接口权限"
      else e)
      (ReplaceRoleAPIs roleID apiIDs);;
    mret ().

Definition GetRoleAPIsLogic (roleID : Z) : M (list Z) :=
  if roleID <=? 0 then InvalidArgument "invalid role API request"
  else
    map_error (λ e, if errors_is e ErrRoleNotFound then New RoleNotFound "角色不存在" else e) (FindRole Auto roleID);;
    ListRoleAPIIDs Auto roleID.

Definition GetRoleLogic (id : Z) : M (Z * Role) :=
  if id <=? 0 then InvalidArgument "invalid role request"
  else
    r ← map_error (λ e, if errors_is e ErrRoleNotFound then New RoleNotFound "角色不存在" else e) (FindRole Auto id);
    mret (id, r).

Definition ListRolesLogic (page pageSize : Z) (keyword : string) : M (list NamedRole * Z) :=
  if (page <=? 0) || (pageSize <=? 0) || (200 <? pageSize) || (128 <? RuneCountInString (TrimSpace keyword)) ||
     (MaxInt / pageSize <? page - 1)
  then InvalidArgument "invalid role list request"
  else ListRoles Auto {| rl_Keyword := TrimSpace keyword; rl_AssignableOnly := false; rl_Offset := (page - 1) * pageSize; rl_Limit := pageSize |}.

Definition ListUserRoleOptionsLogic (page pageSize : Z) (keyword : string) : M (list NamedRole * Z) :=
  offset ← lift (userPageOffset page pageSize keyword);
  map_error userManagementError
    (ListRoles Auto {| rl_Keyword := keyword; rl_AssignableOnly := true; rl_Offset := offset; rl_Limit := pageSize |}).

Definition GetUserLogic (id : Z) : M UserRecord :=
  if id <=? 0 then InvalidArgument "invalid user id" else map_error userManagementError (FindWithRoles Auto id).

Definition ListUsersLogic (page pageSize : Z) (keyword : string) (status department : option Z) : M (list UserRecord * Z) :=
  if match status with Some s => negb (validRecordStatus s) | None => false end ||
     match department with Some id => id <=? 0 | None => false end
  then InvalidArgument "invalid user list request"
  else
    offset ← lift (userPageOffset page pageSize keyword);
    map_error userManagementError
      (ListUsers Auto {| ul_Keyword := keyword; ul_Status := status_of <$> status; ul_DepartmentID := department; ul_Offset := offset; ul_Limit := pageSize |}).
End roles.

(** * The handlers of the System RPC service: departments, menus and navigation

    apps/system/rpc/internal/logic: departmentmanagement.go, departmentinfo.go and the
    department handlers; menu_mapping.go, role_menu_mapping.go and the menu handlers; and
    listnavigationmenuslogic.go, which walks the visible part of the menu tree breadth
    first.  net/url is a parameter. *)

Definition DepartmentNotFound : string := "system.department.not_found".
Definition DepartmentNameExists : string := "system.department.name_exists".
Definition DepartmentHasChildren : string := "system.department.has_children".
Definition DepartmentHasUsers : string := "system.department.has_users".
Definition DepartmentParentInvalid : string := "system.department.parent_invalid".
Definition DepartmentCycle : string := "system.department.cycle".
Definition MenuNotFound : string := "system.menu.not_found".
Definition MenuParentInvalid : string := "system.menu.parent_invalid".
Definition MenuCycle : string := "system.menu.cycle".
Definition MenuHasChildren : string := "system.menu.has_children".
Definition MenuRouteNameExists : string := "system.menu.route_name_exists".
Definition MenuPathExists : string := "system.menu.path_exists".
Definition RoleMenuUnavailable : string := "system.role.menu_unavailable".
Definition RoleSuperAdminMenuProtected : string := "system.role.super_admin_menu_protected".

(** ** Departments *)

Definition validDepartmentFields (name remark : string) : bool :=
  let name := TrimSpace name in
  negb (bool_decide (name = ""%string)) && (RuneCountInString name <=? 128) && (RuneCountInString (TrimSpace remark) <=? 500).

Definition departmentError (e : Error) : Error :=
  if errors_is e ErrDepartmentNotFound then New DepartmentNotFound "部门不存在"
  else if errors_is e ErrDepartmentNameExists then New DepartmentNameExists "同级部门名称已存在"
  else if errors_is e ErrDepartmentHasChildren then New DepartmentHasChildren "部门存在子部门，不能删除"
  else if errors_is e ErrDepartmentHasUsers then New DepartmentHasUsers "部门存在关联用户，不能删除"
  else if errors_is e ErrDepartmentParentInvalid then New DepartmentParentInvalid "父部门不存在或无效"
  else if errors_is e ErrDepartmentCycle then New DepartmentCycle "部门不能移动到自己的下级"
  else e.

Definition departmentModel (parentID : Z) (name remark : string) (sort : Z) (status : RecordStatus) : Department :=
  {| d_ParentID := if 0 <? parentID then Some parentID else None; d_Name := TrimSpace name; d_Sort := sort; d_Status := status;
     d_Remark := TrimSpace remark; d_CreatedAt := 0; d_UpdatedAt := 0; d_DeletedAt := None |}.

Section departments.
Context `{PgLib, PgText}.

Definition CreateDepartmentLogic (parentID : Z) (name remark : string) (sort status : Z) : M Z :=
  if (parentID <? 0) || (sort <? 0) || negb (validRecordStatus status) || negb (validDepartmentFields name remark)
  then InvalidArgument "invalid create department request"
  else map_error departmentError (CreateDepartment Auto (departmentModel parentID name remark sort (status_of status))).

Definition UpdateDepartmentLogic (id parentID : Z) (name remark : string) (sort : Z) : M unit :=
  if (id <=? 0) || (parentID <? 0) || (sort <? 0) || negb (validDepartmentFields name remark)
  then InvalidArgument "invalid update department request"
  else map_error departmentError (UpdateDepartment Auto id (departmentModel parentID name remark sort RecordStatusEnabled)).

Definition UpdateDepartmentStatusLogic (id status : Z) : M unit :=
  if (id <=? 0) || negb (validRecordStatus status) then InvalidArgument "invalid update department status request"
  else map_error departmentError (UpdateDepartmentStatus Auto id (status_of status)).

Definition DeleteDepartmentLogic (id : Z) : M unit :=
  if id <=? 0 then InvalidArgument "invalid delete department request" else map_error departmentError (DeleteDepartment id).

Definition GetDepartmentLogic (id : Z) : M (Z * Department) :=
  if id <=? 0 then InvalidArgument "invalid department request"
  else x ← map_error departmentError (FindDepartment Auto id); mret (id, x).

Definition ListDepartmentsLogic : M (list (Z * Department)) := map_error departmentError (ListDepartments Auto).
End departments.

(** ** Menus *)

(** net/url: scheme, host name, and whether the text has user information. *)
Class UrlLib := ParseURL : string → option (string * string * bool).

Record MenuFields := {
  mf_ParentId : Z; mf_Type : Z; mf_Name : string; mf_RouteName : string; mf_Path : string; mf_Component : string;
  mf_Permission : string; mf_Icon : string; mf_Sort : Z; mf_Visible : bool; mf_KeepAlive : bool; mf_External : bool; mf_Remark : string;
}.

Definition invalidMenuRequest : Error := status_error codes_InvalidArgument "invalid menu request".

(** [^[A-Za-z][A-Za-z0-9_]*$] and [^[A-Za-z0-9_-]+(/[A-Za-z0-9_-]+)*$] *)
Definition is_letter (b : Z) : bool := between 65 90 b || between 97 122 b.
Definition route_name_format (s : string) : bool :=
  match bytes s with b :: l => is_letter b && forallb (λ b, is_alnum b || (b =? 95)) l | [] => false end.
Fixpoint component_format (some : bool) (l : list Z) : bool :=
  match l with
  | [] => some
  | b :: l' => if b =? 47 then some && component_format false l'
               else (is_alnum b || (b =? 95) || (b =? 45)) && component_format true l'
  end.

Definition has_space (s : string) : bool := existsb space_rune (runes (bytes s)).

Definition menu_text (limit : Z) (s : string) : bool := ValidString s && negb (ContainsNul s) && (RuneCountInString s <=? limit).

Definition internal_path (path : string) : bool :=
  has_prefix 47 path && negb (match bytes path with 47 :: 47 :: _ => true | _ => false end) &&
  negb (existsb (λ b, has b [63; 35; 92]) (bytes path)) && negb (has_space path).

Definition trimmed_menu (f : MenuFields) : Menu :=
  {| m_AppCode := MenuAppAdminWeb; m_ParentID := if 0 <? mf_ParentId f then Some (mf_ParentId f) else None; m_Type := MenuType_of (mf_Type f);
     m_Name := TrimSpace (mf_Name f); m_RouteName := TrimSpace (mf_RouteName f); m_Path := TrimSpace (mf_Path f);
     m_Component := TrimSpace (mf_Component f); m_Permission := TrimSpace (mf_Permission f); m_Icon := TrimSpace (mf_Icon f);
     m_Sort := mf_Sort f; m_Visible := mf_Visible f; m_Status := RecordStatusDisabled; m_KeepAlive := mf_KeepAlive f;
     m_External := mf_External f; m_Remark := TrimSpace (mf_Remark f); m_CreatedAt := 0; m_UpdatedAt := 0; m_DeletedAt := None |}.

Definition element_menu (m : Menu) : Menu :=
  { m with m_RouteName := ""; m_Path := ""; m_Component := ""; m_Icon := ""; m_Visible := false; m_KeepAlive := false; m_External := false }.

Section normalize.
Context `{UrlLib}.

Definition external_url (path : string) : bool :=
  match ParseURL path with
  | None => false
  | Some (scheme, host, user) =>
      (bool_decide (scheme = "http"%string) || bool_decide (scheme = "https"%string)) && negb (bool_decide (host = ""%string)) &&
      negb user && negb (has_space path)
  end.

Definition normalizeMenuInput (f : MenuFields) : Result Menu :=
  let m := trimmed_menu f in
  if (mf_ParentId f <? 0) || (mf_Type f <? 1) || (3 <? mf_Type f) || (mf_Sort f <? 0) then Fail invalidMenuRequest
  else if negb (menu_text 64 (m_Name m) && menu_text 128 (m_RouteName m) && menu_text 255 (m_Path m) && menu_text 255 (m_Component m) &&
                menu_text 128 (m_Permission m) && menu_text 128 (m_Icon m) && menu_text 500 (m_Remark m)) then Fail invalidMenuRequest
  else if bool_decide (m_Name m = ""%string) then Fail invalidMenuRequest
  else if bool_decide (m_Type m = MenuTypeElement) then
    if bool_decide (m_Permission m = ""%string) || has_space (m_Permission m) then Fail invalidMenuRequest else Ok (element_menu m)
  else
    let m := { m with m_Permission := "" } in
    if negb (route_name_format (m_RouteName m)) then Fail invalidMenuRequest
    else
      let m := if bool_decide (m_Type m = MenuTypeDirectory) then { m with m_Component := ""; m_KeepAlive := false; m_External := false } else m in
      if m_External m then
        if negb (external_url (m_Path m)) then Fail invalidMenuRequest else Ok { m with m_Component := ""; m_KeepAlive := false }
      else if negb (internal_path (m_Path m)) then Fail invalidMenuRequest
      else if bool_decide (m_Type m = MenuTypePage) && negb (component_format false (bytes (m_Component m))) then Fail invalidMenuRequest
      else Ok m.
End normalize.

Definition menuBusinessError (e : Error) : Error :=
  if errors_is e ErrMenuNotFound then New MenuNotFound "菜单不存在"
  else if errors_is e ErrMenuParentInvalid then New MenuParentInvalid "上级节点不存在或不能作为父节点"
  else if errors_is e ErrMenuCycle then New MenuCycle "不能选择自己或下级节点作为上级"
  else if errors_is e ErrMenuHasChildren then New MenuHasChildren "请先调整下级节点，再修改类型或删除"
  else if errors_is e ErrMenuRouteNameExists then New MenuRouteNameExists "路由名称已存在"
  else if errors_is e ErrMenuPathExists then New MenuPathExists "路由路径已存在"
  else e.

Definition roleMenuBusinessError (e : Error) : Error :=
  if errors_is e ErrRoleNotFound then New RoleNotFound "角色不存在"
  else if errors_is e ErrRoleMenuRoleDisabled then New RoleUnavailable "角色不存在或已停用"
  else if errors_is e ErrRoleMenuUnavailable then New RoleMenuUnavailable "菜单或其上级已不存在，请重新加载"
  else if errors_is e ErrSuperAdminMenusProtected then New RoleSuperAdminMenuProtected "超级管理员拥有全部菜单权限，不能配置菜单权限"
  else e.

(** ** Navigation *)

Definition known_type (m : Menu) : bool :=
  match m_Type m with MenuTypeDirectory | MenuTypePage | MenuTypeElement => true | MenuTypeCode _ => false end.

(** The menus a caller may see, by parent (0 for roots), in list order. *)
Definition visible (isSuperAdmin : bool) (granted : list Z) (r : Z * Menu) : bool :=
  scoped r.2 && bool_decide (m_Status r.2 = RecordStatusEnabled) && known_type r.2 && (isSuperAdmin || bool_decide (r.1 ∈ granted)).
Definition children_of (vs : list (Z * Menu)) (parent : Z) : list (Z * Menu) := filter (λ r, parent_key (m_ParentID r.2) = parent) vs.

Record Navigation := { nv_items : list (Z * Z * Menu); nv_permissions : list string; nv_queue : list Z; nv_visited : gset Z }.

(** One turn of the inner loop, for one child of [parent]. *)
Definition nav_child (parent : Z) (n : Navigation) (r : Z * Menu) : Navigation :=
  if (r.1 <=? 0) || bool_decide (r.1 ∈ nv_visited n) then n
  else
    let n := { n with nv_visited := {[r.1]} ∪ nv_visited n } in
    if bool_decide (m_Type r.2 = MenuTypeElement) then
      let p := m_Permission r.2 in
      if negb (bool_decide (p = ""%string)) && negb (bool_decide (p ∈ nv_permissions n))
      then { n with nv_permissions := nv_permissions n ++ [p] } else n
    else { n with nv_queue := nv_queue n ++ [r.1]; nv_items := nv_items n ++ [(r.1, parent, r.2)] }.

(** The outer loop takes one parent off the queue per turn; every menu enters it at most
    once, so one turn more than there are menus is enough. *)
Fixpoint navigate (vs : list (Z * Menu)) (fuel : nat) (n : Navigation) : Navigation :=
  match fuel with
  | O => n
  | S fuel =>
      match nv_queue n with
      | [] => n
      | parent :: rest => navigate vs fuel (foldl (nav_child parent) { n with nv_queue := rest } (children_of vs parent))
      end
  end.

Definition navigation (vs : list (Z * Menu)) : Navigation :=
  navigate vs (S (length vs)) {| nv_items := []; nv_permissions := []; nv_queue := [0]; nv_visited := ∅ |}.

Section menus.
Context `{PgLib, PgText, UrlLib}.

Definition CreateMenuLogic (f : MenuFields) (status : Z) : M Z :=
  if negb (validRecordStatus status) then fail invalidMenuRequest
  else
    m ← lift (normalizeMenuInput f);
    map_error menuBusinessError (CreateMenu Auto { m with m_Status := status_of status }).

Definition UpdateMenuLogic (id : Z) (f : MenuFields) : M unit :=
  if id <=? 0 then fail invalidMenuRequest
  else
    m ← lift (normalizeMenuInput f);
    map_error menuBusinessError (UpdateMenu Auto id m).

Definition UpdateMenuStatusLogic (id status : Z) : M unit :=
  if (id <=? 0) || negb (validRecordStatus status) then fail invalidMenuRequest
  else map_error menuBusinessError (UpdateMenuStatus Auto id (status_of status)).

Definition DeleteMenuLogic (id : Z) : M unit :=
  if id <=? 0 then fail invalidMenuRequest else map_error menuBusinessError (DeleteMenu id).

Definition GetMenuLogic (id : Z) : M (Z * Menu) :=
  if id <=? 0 then fail invalidMenuRequest else m ← map_error menuBusinessError (FindMenu Auto id); mret (id, m).

Definition ListMenusLogic : M (list (Z * Menu)) := map_error menuBusinessError (ListMenus Auto).

Definition ReplaceRoleMenusLogic (roleID : Z) (menuIDs : list Z) : M unit :=
  if (roleID <=? 0) || negb (length menuIDs <=? 10000)%nat || existsb (λ id, id <=? 0) menuIDs then fail invalidMenuRequest
  else map_error roleMenuBusinessError (ReplaceRoleMenus roleID menuIDs).

Definition GetRoleMenusLogic (roleID : Z) : M (list (Z * Menu) * list Z) :=
  if roleID <=? 0 then fail invalidMenuRequest
  else
    role ← map_error roleMenuBusinessError (FindRole Auto roleID);
    menus ← ListMenus Auto;
    ids ← (if bool_decide (ro_Code role = SuperAdminRoleCode) then mret menus.*1 else ListMenuIDs Auto [roleID]);
    mret (menus, ids).

Definition ListNavigationMenusLogic (roleIDs : list Z) (isSuperAdmin : bool) : M (list (Z * Z * Menu) * list string) :=
  if existsb (λ id, id <=? 0) roleIDs then fail invalidMenuRequest
  else
    menus ← map_error menuBusinessError (ListMenus Auto);
    granted ← (if negb isSuperAdmin && negb (bool_decide (roleIDs = [])) then ListMenuIDs Auto roleIDs else mret []);
    let n := navigation (filter (λ r, visible isSuperAdmin granted r = true) menus) in
    mret (nv_items n, nv_permissions n).
End menus.

(** * The operations of the System RPC service

    Every handler of apps/system/rpc/internal/logic that changes rows or sessions, and the
    command that creates the first administrator, as one type of operations. *)

Inductive Op :=
| OpBootstrap (input : AdministratorInput)
| OpLogin (in_ : LoginRequest)
| OpCreateUser (in_ : CreateUserRequest)
| OpUpdateUser (in_ : UpdateUserRequest)
| OpUpdateUserStatus (operator id status : Z)
| OpDeleteUser (operator id : Z)
| OpReplaceUserRoles (operator id : Z) (roleIDs : list Z)
| OpResetUserPassword (operator id : Z) (password : string)
| OpRevokeUserSessions (id : Z)
| OpUpdateProfile (id : Z) (nickname email phone : string)
| OpChangePassword (id : Z) (currentPassword newPassword : string)
| OpGetCurrentUser (id : Z)
| OpCreateRole (code name description : string) (sort status : Z)
| OpUpdateRole (id : Z) (code name description : string) (sort : Z)
| OpUpdateRoleStatus (id status : Z)
| OpDeleteRole (id : Z)
| OpReplaceRoleAPIs (role : Z) (apiIDs : list Z)
| OpCreateDepartment (parent : Z) (name remark : string) (sort status : Z)
| OpUpdateDepartment (id parent : Z) (name remark : string) (sort : Z)
| OpUpdateDepartmentStatus (id status : Z)
| OpDeleteDepartment (id : Z)
| OpCreateMenu (f : MenuFields) (status : Z)
| OpUpdateMenu (id : Z) (f : MenuFields)
| OpUpdateMenuStatus (id status : Z)
| OpDeleteMenu (id : Z)
| OpReplaceRoleMenus (role : Z) (menuIDs : list Z).

Section service.
Context `{PgLib, PgText, BcryptLib, MailLib, Services, CasbinAdapter, PolicyNotifier, UrlLib}.

Definition discard {A} (m : M A) : M unit := m;; mret ().

Definition run (op : Op) : M unit :=
  match op with
  | OpBootstrap input => discard (CreateInitialAdministrator input)
  | OpLogin in_ => discard (LoginLogic in_)
  | OpCreateUser in_ => discard (CreateUserLogic in_)
  | OpUpdateUser in_ => UpdateUserLogic in_
  | OpUpdateUserStatus operator id status => UpdateUserStatusLogic operator id status
  | OpDeleteUser operator id => DeleteUserLogic operator id
  | OpReplaceUserRoles operator id roleIDs => ReplaceUserRolesLogic operator id roleIDs
  | OpResetUserPassword operator id password => ResetUserPasswordLogic operator id password
  | OpRevokeUserSessions id => RevokeUserSessionsLogic id
  | OpUpdateProfile id nickname email phone => UpdateProfileLogic id nickname email phone
  | OpChangePassword id currentPassword newPassword => ChangePasswordLogic id currentPassword newPassword
  | OpGetCurrentUser id => discard (GetCurrentUserLogic id)
  | OpCreateRole code name description sort status => discard (CreateRoleLogic code name description sort status)
  | OpUpdateRole id code name description sort => UpdateRoleLogic id code name description sort
  | OpUpdateRoleStatus id status => UpdateRoleStatusLogic id status
  | OpDeleteRole id => DeleteRoleLogic id
  | OpReplaceRoleAPIs role apiIDs => ReplaceRoleAPIsLogic role apiIDs
  | OpCreateDepartment parent name remark sort status => discard (CreateDepartmentLogic parent name remark sort status)
  | OpUpdateDepartment id parent name remark sort => UpdateDepartmentLogic id parent name remark sort
  | OpUpdateDepartmentStatus id status => UpdateDepartmentStatusLogic id status
  | OpDeleteDepartment id => DeleteDepartmentLogic id
  | OpCreateMenu f status => discard (CreateMenuLogic f status)
  | OpUpdateMenu id f => UpdateMenuLogic id f
  | OpUpdateMenuStatus id status => UpdateMenuStatusLogic id status
  | OpDeleteMenu id => DeleteMenuLogic id
  | OpReplaceRoleMenus role menuIDs => ReplaceRoleMenusLogic role menuIDs
  end.
End service.
