(* ===== verification/SysAudit.v ===== *)
(** * Sessions end before rights change

    Whatever the database looks like and whatever other sessions do: an operation that
    changes the password hash, the roles, or the liveness of a user, or disables it, has had
    all sessions of that user revoked before it commits the change.  Deleting a role is not
    covered: it removes assignments of that role without ending sessions, after checking that
    no live user has it. *)

From S2P Require Import Prelude GoLib GoText Tx Model TaskRepo InstanceRepo JobRepo RpcErrors Redis LoginProtection.
From S2P Require Import SysModel UserRepo RoleRepo MenuRepo Accounts SysLogic Logic.

Open Scope Z_scope.

#[local] Existing Instance anything.

(** The account of an existing live user loses or changes what its sessions rely on. *)
Definition weakened (u : Z) (d d' : DB) : Prop :=
  ∃ a, users d !! u = Some a ∧ live_user a = true ∧
    ((∀ a', users d' !! u = Some a' →
        u_PasswordHash a' ≠ u_PasswordHash a ∨ (u_Status a = RecordStatusEnabled ∧ u_Status a' ≠ RecordStatusEnabled) ∨ live_user a' = false) ∨
     ∃ r, ¬ ((u, r) ∈ user_roles d ↔ (u, r) ∈ user_roles d')).

Definition announced (c : Commit) : Prop := ∀ u, weakened u (c_before c) (c_after c) → SessionsRevoked u ∈ c_out c.

(** Every commit of [m] is announced, given that the sessions of [R] are already revoked. *)
Definition audited {A} (R : Z → Prop) (m : M A) : Prop :=
  ∀ w, (∀ u, R u → SessionsRevoked u ∈ w_out w) →
  let w' := (m w).1 in
  (∃ k, w_out w' = w_out w ++ k) ∧ ∃ l, w_commits w' = w_commits w ++ l ∧ Forall announced l.

Lemma audited_still {A} R (m : M A) : (∀ w, w_out (m w).1 = w_out w ∧ w_commits (m w).1 = w_commits w) → audited R m.
Proof. intros Hm w _ w'. destruct (Hm w) as [E1 E2]. unfold w'. rewrite E1, E2. split; exists []; by rewrite app_nil_r. Qed.

Lemma audited_ret {A} R (a : A) : audited R (mret a).
Proof. by apply audited_still. Qed.
Lemma audited_fail {A} R e : audited R (fail (A := A) e).
Proof. by apply audited_still. Qed.
Lemma audited_lift {A} R (r : Result A) : audited R (lift r).
Proof. by apply audited_still. Qed.
Lemma audited_pop R : audited R pop.
Proof. by apply audited_still. Qed.
Lemma audited_rpc {A} R (f : nat → Result A) : audited R (rpc f).
Proof. by apply audited_still. Qed.
Lemma audited_emit R x : audited R (emit x).
Proof. intros w _. simpl. split; [by exists [x]|exists []; by rewrite app_nil_r]. Qed.

Lemma audited_bind {A B} R (m : M A) (k : A → M B) : audited R m → (∀ a, audited R (k a)) → audited R (mbind k m).
Proof.
  intros Hm Hk w HR. destruct (Hm w HR) as ((o1 & E1) & l1 & C1 & F1). unfold mbind, M_bind. destruct (m w) as [w1 [a|e]]; simpl in *; [|eauto].
  destruct (Hk a w1) as ((o2 & E2) & l2 & C2 & F2).
  - intros u Hu. rewrite E1. apply elem_of_app. left. by apply HR.
  - split; [exists (o1 ++ o2); by rewrite E2, E1, app_assoc|]. exists (l1 ++ l2). split; [by rewrite C2, C1, app_assoc|by apply Forall_app].
Qed.

Lemma audited_attempt {A} R (m : M A) : audited R m → audited R (attempt m).
Proof. intros Hm w HR. specialize (Hm w HR). unfold attempt. by destruct (m w). Qed.

Lemma audited_map_error {A} R f (m : M A) : audited R m → audited R (map_error f m).
Proof. intros Hm. apply audited_bind; [by apply audited_attempt|]. intros []; [apply audited_ret|apply audited_fail]. Qed.

Lemma audited_weaken {A} (R R' : Z → Prop) (m : M A) : (∀ u, R u → R' u) → audited R m → audited R' m.
Proof. intros HR Hm w Hw. apply Hm. auto. Qed.

Lemma audited_stmt {A} R (f : Event → DB → DB * Result A) : (∀ ev d u, weakened u d (f ev d).1 → R u) → audited R (stmt f).
Proof.
  intros Hf w HR. unfold stmt. set (ev := w_env w (w_at w)). specialize (Hf ev (ev_others ev [] (w_db w))). simpl.
  destruct (f ev _) as [d' r]. simpl in Hf.
  assert (∀ c, c_before c = ev_others ev [] (w_db w) → c_after c = d' → c_out c = w_out w → announced c) as Hc.
  { intros c Eb Ea Eo u. rewrite Eb, Ea, Eo. intros Hu%Hf. by apply HR. }
  destruct (ev_fault ev) as [[[] e]|]; simpl; (split; [exists []; by rewrite app_nil_r|]).
  - eexists [_]. split; [done|]. constructor; [by apply Hc|done].
  - exists []. by rewrite app_nil_r.
  - eexists [_]. split; [done|]. constructor; [by apply Hc|done].
Qed.

Lemma not_weakened u d : ¬ weakened u d d.
Proof.
  intros (a & Ha & Hl & [Hx|(r & Hr)]); [|by apply Hr]. destruct (Hx a Ha) as [?|[[? ?]|?]]; congruence.
Qed.

Lemma audited_query {A} R (f : Event → DB → Result A) : audited R (query Auto f).
Proof. apply audited_stmt. intros ev d u []%not_weakened. Qed.

(** What a transaction replaces when it commits. *)
Definition touches (R : Z → Prop) (v : View DB Lock) : Prop := ∀ u, weakened u (committed v) (current v) → R u.

Lemma audited_transact {A} R (body : M A) : (∀ d, tx body (Clean [] d) (λ _ v, touches R v)) → audited R (transact body).
Proof.
  intros Hb w HR. unfold transact. simpl.
  destruct (ev_fault (w_env w (w_at w))) as [[b e]|]; simpl.
  { split; exists []; by rewrite app_nil_r. }
  match goal with |- context [body ?w0] => specialize (Hb _ w0 eq_refl); destruct (body w0) as [w1 r] end. simpl in *.
  destruct Hb as (He1 & Hc & Ho & _ & _ & Hq); [done|done|].
  assert (committed (view w1) = settled w1) as Es by (unfold view, settled; by destruct (w_dirty w1)).
  assert (current (view w1) = w_db w1) as Ec by (unfold view; by destruct (w_dirty w1)).
  destruct r as [a|e]; simpl; [|rewrite Hc, Ho; split; exists []; by rewrite app_nil_r].
  unfold touches in Hq. rewrite Es, Ec in Hq.
  assert (∀ c, c_before c = settled w1 → c_after c = w_db w1 → c_out c = w_out w1 → announced c) as Hann.
  { intros c Eb Ea Eo u. rewrite Eb, Ea, Eo, Ho. intros Hu%Hq. by apply HR. }
  destruct (ev_fault (w_env w1 (w_at w1))) as [[[] e]|]; simpl; rewrite ?Hc, Ho; (split; [exists []; by rewrite app_nil_r|]).
  - eexists [_]. split; [done|]. constructor; [by apply Hann|done].
  - exists []. by rewrite app_nil_r.
  - eexists [_]. split; [done|]. constructor; [by apply Hann|done].
Qed.

(** ** Changes confined to some users *)

Definition confined (S : Z → Prop) (d d' : DB) : Prop :=
  ∀ k, ¬ S k → users d' !! k = users d !! k ∧ ∀ r, (k, r) ∈ user_roles d' ↔ (k, r) ∈ user_roles d.

Definition no_user : Z → Prop := λ _, False.
Definition only (id : Z) : Z → Prop := λ k, k = id.

#[global] Instance confined_preorder S : PreOrder (confined S).
Proof.
  split; [by intros d k _|]. intros d1 d2 d3 H1 H2 k Hk. destruct (H1 k Hk) as [E1 R1], (H2 k Hk) as [E2 R2].
  split; [congruence|]. intros r. by rewrite R2, R1.
Qed.

Lemma confined_weakened S d d' u : confined S d d' → weakened u d d' → ¬ ¬ S u.
Proof.
  intros Hc (a & Ha & Hl & Hw) Hu. destruct (Hc u Hu) as [E R]. destruct Hw as [Hx|(r & Hr)]; [|by apply Hr; rewrite R].
  apply (not_weakened u d). exists a. split_and!; [done..|left]. rewrite <-E. done.
Qed.

(** A transaction's view changes only the users of [S]. *)
Definition within (S : Z → Prop) (v : View DB Lock) : Prop := confined S (committed v) (current v).

(** After its first write the committed database under a transaction is fixed. *)
Definition settles (v v' : View DB Lock) : Prop :=
  match v with Clean _ _ => True | Dirty _ b _ => ∃ L d, v' = Dirty L b d end.
#[global] Instance settles_preorder : PreOrder settles.
Proof.
  split; [by intros [L d|L b d]; simpl; eauto|]. intros [L d|L b d] v2 v3; [done|]. intros (L2 & d2 & ->). by intros (L3 & d3 & ->); simpl; eauto.
Qed.

Definition confining {A} (S : Z → Prop) (m : M A) : Prop := ∀ v, within S v → tx m v (λ _ v', within S v' ∧ settles v v').

Lemma finds_within S v v' : finds v v' → within S v → within S v' ∧ settles v v'.
Proof.
  destruct v; simpl; [intros (d' & -> & _) _; unfold within; split; [reflexivity|done]|]. intros -> Hv. split; [done|eauto].
Qed.

Lemma confining_ret {A} S (a : A) : confining S (mret a).
Proof. intros v Hv. apply tx_ret. by split. Qed.
Lemma confining_fail {A} S e : confining S (fail (A := A) e).
Proof. intros v Hv. apply tx_fail. Qed.
Lemma confining_lift {A} S (r : Result A) : confining S (lift r).
Proof. intros v Hv. apply tx_lift. by split. Qed.
Lemma confining_bind {A B} S (m : M A) (k : A → M B) : confining S m → (∀ a, confining S (k a)) → confining S (mbind k m).
Proof.
  intros Hm Hk v Hv. apply tx_bind. eapply tx_mono; [by apply Hm|]. intros a v' _ _ [Hv' Hs].
  eapply tx_mono; [by apply Hk|]. intros b v2 _ _ [Hv2 Hs2]. split; [done|by etrans].
Qed.
Lemma confining_query {A} S (f : Event → DB → Result A) : confining S (query InTx f).
Proof. intros v Hv. apply tx_query. intros ev v' a Hf _. by eapply finds_within. Qed.
Lemma confining_FirstForUpdate {A} S (T : Table A) l id : confining S (FirstForUpdate InTx T l id).
Proof.
  intros v Hv. apply tx_read. intros ev v' a Hf _. destruct (finds_within _ _ _ Hf Hv) as [Hv' Hs].
  destruct v'; (split; [done|]); destruct v; simpl in *; [done..|]. destruct Hs as (L2 & d2 & [= -> -> ->]). eauto.
Qed.
Lemma confining_exec {A} S (f : Event → DB → DB * Result A) : (∀ ev d, confined S d (f ev d).1) → confining S (exec InTx f).
Proof.
  intros Hf v Hv. apply tx_exec. intros ev v' a Hfi _. destruct (finds_within _ _ _ Hfi Hv) as [Hv' Hs]. split.
  - unfold within, written. simpl. etrans; [exact Hv'|apply Hf].
  - destruct v; simpl in *; [done|]. destruct Hs as (L2 & d2 & ->). simpl. eauto.
Qed.
Lemma confining_rpc {A} S (f : nat → Result A) : confining S (rpc f).
Proof.
  intros v Hv w <- _ _. unfold rpc. split_and!; try done. by destruct (f (w_at w)).
Qed.

Create HintDb audit.
Hint Resolve confining_ret confining_fail confining_lift confining_query confining_FirstForUpdate confining_rpc : audit.

Ltac confining_step :=
  lazymatch goal with
  | |- confining _ (mbind _ _) => apply confining_bind; [|intros ?]
  | |- confining _ (match ?x with _ => _ end) => destruct x
  | |- confining _ _ => solve [eauto with audit]
  end.
Ltac confining_auto := repeat confining_step.

(** ** Statements on the accounts *)

Section accounts.
Context `{PgLib, PgText, BcryptLib, MailLib, Services, CasbinAdapter, PolicyNotifier, UrlLib}.

Lemma confined_update_user S id P upd d : S id → confined S d (update_row sys_user id P upd d).1.
Proof.
  intros HS. destruct (update_row_cases sys_user id P upd d) as [->|(a & _ & _ & _ & _ & _ & ->)]; [reflexivity|].
  intros k Hk. simpl. split; [|done]. rewrite lookup_insert_ne; [done|]. by intros ->.
Qed.

Lemma confined_roles S d UR :
  (∀ k r, ¬ S k → (k, r) ∈ UR ↔ (k, r) ∈ user_roles d) → confined S d { d with user_roles := UR }.
Proof. intros HU k Hk. split; [done|]. intros r. by apply HU. Qed.

Lemma confined_rows S d d' : users d' = users d → user_roles d' = user_roles d → confined S d d'.
Proof. intros E1 E2 k _. by rewrite E1, E2. Qed.

Lemma confining_deleteUserRoles id : confining (only id) (deleteUserRoles InTx id).
Proof.
  apply confining_exec. intros ev d. apply confined_roles. intros k r Hk. rewrite elem_of_filter. simpl. tauto.
Qed.
Lemma confining_insertUserRoles id ids : confining (only id) (insertUserRoles InTx id ids).
Proof.
  unfold insertUserRoles. confining_step; [eauto with audit|]. apply confining_exec. intros ev d. simpl.
  case_bool_decide; [|reflexivity]. apply confined_roles. intros k r Hk.
  rewrite elem_of_union, elem_of_list_to_set, list_elem_of_fmap. split; [|by left]. intros [?|(x & [= -> _] & _)]; [done|by destruct Hk].
Qed.
Lemma confining_Update_user id P upd : confining (only id) (Update InTx sys_user id P upd).
Proof. apply confining_exec. intros ev d. by apply confined_update_user. Qed.

Lemma confining_found {A} S e (row : option A) : confining S (found e row).
Proof. destruct row; eauto with audit. Qed.
Lemma confining_validateUserDepartment S id current : confining S (validateUserDepartment InTx id current).
Proof. unfold validateUserDepartment, First. confining_auto. Qed.
Lemma confining_validateUserRoles S ids current : confining S (validateUserRoles InTx ids current).
Proof. unfold validateUserRoles. confining_auto. Qed.
Lemma confining_loadUserRoleRecords S ids : confining S (loadUserRoleRecords InTx ids).
Proof. unfold loadUserRoleRecords. confining_auto. Qed.
Lemma confining_loadUserDepartmentNames S us : confining S (loadUserDepartmentNames InTx us).
Proof. unfold loadUserDepartmentNames. cbv zeta. confining_auto. Qed.

Hint Resolve confining_deleteUserRoles confining_insertUserRoles confining_Update_user confining_found confining_validateUserDepartment
  confining_validateUserRoles confining_loadUserRoleRecords confining_loadUserDepartmentNames : audit.

Lemma confining_findUserRecord S id : confining S (findUserRecord InTx id).
Proof. unfold findUserRecord, First. confining_auto. Qed.
Hint Resolve confining_findUserRecord : audit.

Lemma confining_replace_roles id ids : confining (only id) (replace_roles_body id ids).
Proof. unfold replace_roles_body. cbv zeta. confining_auto. Qed.
Lemma confining_delete_user id : confining (only id) (delete_user_body id).
Proof. unfold delete_user_body. confining_auto. Qed.

(** ** Bodies of transactions *)

Lemma touches_within (R : Z → Prop) id v : within (only id) v → R id → touches R v.
Proof.
  intros Hv HR u Hu. destruct (decide (u = id)) as [->|Hne]; [done|].
  by destruct (confined_weakened _ _ _ _ Hv Hu).
Qed.
Lemma touches_fresh (R : Z → Prop) id v : users (committed v) !! id = None → within (only id) v → touches R v.
Proof.
  intros Hf Hv u Hu. destruct (confined_weakened _ _ _ _ Hv Hu). intros ->. destruct Hu as (a & Ha & _). congruence.
Qed.

Lemma audited_confining {A} (R : Z → Prop) id (body : M A) : confining (only id) body → R id → audited R (transact body).
Proof.
  intros Hb HR. apply audited_transact. intros d. eapply tx_mono; [apply Hb; unfold within; reflexivity|].
  intros a v _ _ [Hv _]. by eapply touches_within.
Qed.
Lemma audited_elsewhere {A} R (body : M A) : confining no_user body → audited R (transact body).
Proof.
  intros Hb. apply audited_transact. intros d. eapply tx_mono; [apply Hb; unfold within; reflexivity|].
  intros a v _ _ [Hv _] u Hu. by destruct (confined_weakened _ _ _ _ Hv Hu); intros [].
Qed.

(** A new row is nobody's yet. *)
Definition created (id : Z) (v : View DB Lock) : Prop :=
  within (only id) v ∧ ∃ L b d, v = Dirty L b d ∧ users b !! id = None.

Lemma tx_CreateUser u v Q : within no_user v → (∀ id v', created id v' → Q id v') → tx (CreateUser InTx u) v Q.
Proof.
  intros Hv HQ. unfold CreateUser, Create. apply tx_exec. intros ev v' id Hf Hid. destruct (finds_within _ _ _ Hf Hv) as [Hv' _].
  destruct (insert_row_cases sys_user (new_user u (ev_clock ev)) (current v')) as [[e E]|(Hn & _ & _ & E)]; rewrite E in *; [done|].
  simpl in Hid, Hn. simplify_eq. apply HQ. split.
  - intros k Hk. simpl. destruct (Hv' k) as [Eu Er]; [by intros []|]. split; [|done]. rewrite lookup_insert_ne; [done|]. intros <-. by apply Hk.
  - eexists _, _, _. split; [done|]. destruct (Hv' (next_user (current v'))) as [Eu _]; [by intros []|]. congruence.
Qed.

(** The rest of a transaction that has created a user. *)
Lemma touches_created {A} R id (m : M A) v : created id v → confining (only id) m → tx m v (λ _ v, touches R v).
Proof.
  intros [Hv (L & b & d & -> & Hn)] Hm. eapply tx_mono; [by apply Hm|]. intros a v2 _ _ [Hv2 (L2 & d2 & ->)].
  by apply (touches_fresh _ id).
Qed.

Lemma tx_confining {A B} R (m : M A) (k : A → M B) v :
  within no_user v → confining no_user m → (∀ a v, within no_user v → tx (k a) v (λ _ v, touches R v)) →
  tx (mbind k m) v (λ _ v, touches R v).
Proof. intros Hv Hm Hk. apply tx_bind. eapply tx_mono; [by apply Hm|]. intros a v' _ _ [Hv' _]. by apply Hk. Qed.

Lemma within_clean S L d : within S (Clean L d).
Proof. unfold within. reflexivity. Qed.
Hint Resolve within_clean : audit.

Lemma CreateWithRoles_audited R u ids : audited R (CreateWithRoles u ids).
Proof.
  apply audited_map_error, audited_transact. intros d. unfold create_with_roles_body.
  apply tx_confining; [auto with audit..|]. intros _ v Hv. apply tx_confining; [auto with audit..|]. intros ids' v' Hv'.
  apply tx_bind, tx_CreateUser; [done|]. intros id v2 Hc. apply (touches_created _ id); [done|]. confining_auto.
Qed.

Lemma CreateInitialAdministrator_audited R input : audited R (CreateInitialAdministrator input).
Proof.
  apply audited_transact. intros d. unfold bootstrap_body.
  apply tx_confining; [auto with audit..|]. intros seeded v1 Hv1. apply tx_confining; [done|by destruct seeded; auto with audit|].
  intros role v2 Hv2. apply tx_confining; [auto with audit..|]. intros [row|] v3 Hv3; [|apply tx_fail].
  apply tx_confining; [auto with audit..|]. intros [] v4 Hv4; [apply tx_fail|]. unfold CreateAdministrator. cbv zeta.
  set (nickname := if bool_decide _ then _ else _). clearbody nickname.
  apply tx_bind, tx_bind. apply tx_lift. intros _ _. guard as En; [apply tx_fail|].
  apply tx_bind, tx_lift. intros _ _. unfold Hash. apply tx_bind, tx_bind, tx_lift. intros _ _.
  eapply tx_mono; [by apply confining_rpc|]. intros hash v5 _ _ [Hv5 _].
  apply tx_CreateUser; [done|]. intros id v6 Hc. apply (touches_created _ id); [done|]. confining_auto.
Qed.
(** ** Statements of their own *)

(** A table apart from the accounts. *)
Definition apart {A} (T : Table A) : Prop :=
  (∀ id a d, users (tb_set T id a d) = users d ∧ user_roles (tb_set T id a d) = user_roles d) ∧
  (∀ d, users (tb_bump T d) = users d ∧ user_roles (tb_bump T d) = user_roles d).

Lemma apart_update {A} S (T : Table A) id P upd d : apart T → confined S d (update_row T id P upd d).1.
Proof.
  intros [Hs _]. destruct (update_row_cases T id P upd d) as [->|(a & _ & _ & _ & _ & _ & ->)]; [reflexivity|].
  by apply confined_rows; simpl; apply Hs.
Qed.
Lemma apart_insert {A} S (T : Table A) a d : apart T → confined S d (insert_row T a d).1.
Proof.
  intros [Hs Hb]. destruct (insert_row_cases T a d) as [[e ->]|(_ & _ & _ & ->)]; [reflexivity|].
  apply confined_rows; simpl; [destruct (Hb (tb_set T (tb_next T d) a d)) as [-> _]|destruct (Hb (tb_set T (tb_next T d) a d)) as [_ ->]]; apply Hs.
Qed.

Lemma audited_stmt_elsewhere {A} R (f : Event → DB → DB * Result A) : (∀ ev d, confined no_user d (f ev d).1) → audited R (stmt f).
Proof. intros Hf. apply audited_stmt. intros ev d u Hu. by destruct (confined_weakened _ _ _ _ (Hf ev d) Hu); intros []. Qed.
Lemma audited_Update_apart {A} R (T : Table A) id P upd : apart T → audited R (Update Auto T id P upd).
Proof. intros HT. apply audited_stmt_elsewhere. intros ev d. by apply apart_update. Qed.
Lemma audited_Create_apart {A} R (T : Table A) row : apart T → audited R (Create Auto T row).
Proof. intros HT. apply audited_stmt_elsewhere. intros ev d. by apply apart_insert. Qed.
Lemma confining_Update_apart {A} S (T : Table A) id P upd : apart T → confining S (Update InTx T id P upd).
Proof. intros HT. apply confining_exec. intros ev d. by apply apart_update. Qed.

Lemma apart_role : apart sys_role.
Proof. done. Qed.
Lemma apart_department : apart sys_department.
Proof. done. Qed.
Lemma apart_menu : apart sys_menu.
Proof. done. Qed.

(** A user changes without losing what its sessions rely on. *)
Definition harmless (upd : Time → User → User) : Prop :=
  ∀ now u, u_PasswordHash (upd now u) = u_PasswordHash u ∧ u_DeletedAt (upd now u) = u_DeletedAt u ∧
    (u_Status (upd now u) = u_Status u ∨ u_Status (upd now u) = RecordStatusEnabled).

Lemma audited_Update_harmless R id P upd : harmless upd → audited R (Update Auto sys_user id P upd).
Proof.
  intros Hh. apply audited_stmt. intros ev d u. destruct (update_row_cases sys_user id P (upd (ev_clock ev)) d) as [->|(a & Ha & Hl & _ & _ & _ & ->)];
    [by intros ?%not_weakened|]. simpl in Ha, Hl. intros (b & Hb & Hlb & [Hw|(r & Hr)]); [|by destruct Hr]. simpl in Hw.
  destruct (decide (u = id)) as [->|Hne].
  - simplify_eq. destruct (Hh (ev_clock ev) a) as (Eh & Ed & Es). destruct (Hw _ (lookup_insert_eq _ _ _)) as [?|[[? ?]|Hd]]; [done|destruct Es; congruence|].
    unfold live_user in *. rewrite Ed in Hd. congruence.
  - destruct (Hw b) as [?|[[? ?]|?]]; [by rewrite lookup_insert_ne|done..|congruence].
Qed.

Lemma audited_Update_user (R : Z → Prop) id P upd : R id → audited R (Update Auto sys_user id P upd).
Proof.
  intros HR. apply audited_stmt. intros ev d u Hu. destruct (decide (u = id)) as [->|Hne]; [done|].
  by destruct (confined_weakened (only id) _ _ _ (confined_update_user _ id P (upd (ev_clock ev)) d eq_refl) Hu).
Qed.

(** Sessions of [u] are gone from here on. *)
Lemma audited_RevokeAll {A} R u (k : unit → M A) : (∀ x, audited (λ v, R v ∨ v = u) (k x)) → audited R (mbind k (RevokeAll u)).
Proof.
  intros Hk w HR. unfold RevokeAll, call, mbind, M_bind, rpc. simpl. destruct (RevokeAnswer u (w_at w)) as [a|e]; simpl.
  2:{ split; exists []; by rewrite app_nil_r. }
  match goal with |- context [k a ?w1] => destruct (Hk a w1) as ((o & Eo) & Hc) end.
  - intros v [Hv| ->]; simpl; apply elem_of_app; [left; by apply HR|right; by left].
  - split; [|exact Hc]. eexists. by rewrite Eo; simpl; rewrite <-app_assoc.
Qed.
Lemma RevokeAll_audited R u : audited R (RevokeAll u).
Proof. apply audited_bind; [apply audited_rpc|]. intros a. apply audited_bind; [apply audited_emit|]. intros _. apply audited_ret. Qed.

Hint Resolve audited_ret audited_fail audited_lift audited_pop audited_rpc audited_emit audited_query audited_attempt audited_map_error
  RevokeAll_audited apart_role apart_department apart_menu audited_Update_apart audited_Create_apart confining_Update_apart : audit.
Hint Extern 1 (_ ∨ _) => right; reflexivity : audit.

Ltac audited_step :=
  lazymatch goal with
  | |- audited _ (mbind _ (RevokeAll _)) => apply audited_RevokeAll; intros ?
  | |- audited _ (mbind _ _) => apply audited_bind; [|intros ?]
  | |- audited _ (match ?x with _ => _ end) => destruct x
  | |- audited _ (transact _) => apply audited_elsewhere; confining_auto
  | |- audited _ _ => solve [eauto with audit]
  end.
Ltac audited_auto := repeat audited_step.

(** ** Repositories *)

Lemma audited_found {A} R e (row : option A) : audited R (found e row).
Proof. destruct row; eauto with audit. Qed.
Lemma audited_affected R e n : audited R (affected e n).
Proof. unfold affected. audited_auto. Qed.
Hint Resolve audited_found audited_affected : audit.

Lemma FindByID_audited R id : audited R (FindByID Auto id).
Proof. unfold FindByID, First. audited_auto. Qed.
Lemma FindByUsername_audited R name : audited R (FindByUsername Auto name).
Proof. unfold FindByUsername. audited_auto. Qed.
Lemma loadUserRoleRecords_audited R ids : audited R (loadUserRoleRecords Auto ids).
Proof. unfold loadUserRoleRecords. audited_auto. Qed.
Lemma loadUserDepartmentNames_audited R us : audited R (loadUserDepartmentNames Auto us).
Proof. unfold loadUserDepartmentNames. cbv zeta. audited_auto. Qed.
Hint Resolve FindByID_audited FindByUsername_audited loadUserRoleRecords_audited loadUserDepartmentNames_audited : audit.
Lemma findUserRecord_audited R id : audited R (findUserRecord Auto id).
Proof. unfold findUserRecord, First. audited_auto. Qed.
Lemma validateUserDepartment_audited R id current : audited R (validateUserDepartment Auto id current).
Proof. unfold validateUserDepartment, First. audited_auto. Qed.
Lemma validateUserRoles_audited R ids current : audited R (validateUserRoles Auto ids current).
Proof. unfold validateUserRoles. audited_auto. Qed.
Hint Resolve findUserRecord_audited validateUserDepartment_audited validateUserRoles_audited : audit.

Lemma UpdateLastLoginAt_audited R id now : audited R (UpdateLastLoginAt Auto id now).
Proof. apply audited_bind; [|eauto with audit]. apply audited_Update_harmless. intros ? u. auto. Qed.
Lemma UpdateContacts_audited R id c : audited R (UpdateContacts Auto id c).
Proof. apply audited_bind; [|eauto with audit]. apply audited_map_error, audited_Update_harmless. intros ? u. auto. Qed.
Lemma UpdateProfile_audited R id p : audited R (UpdateProfile Auto id p).
Proof.
  unfold UpdateProfile. do 2 (audited_step; [eauto with audit|]). audited_step; [|eauto with audit].
  apply audited_map_error, audited_Update_harmless. intros ? u. auto.
Qed.
Lemma UpdatePasswordHash_audited (R : Z → Prop) id hash : R id → audited R (UpdatePasswordHash Auto id hash).
Proof. intros HR. apply audited_bind; [by apply audited_Update_user|eauto with audit]. Qed.
Lemma UpdateStatus_audited (R : Z → Prop) id s : R id ∨ s = RecordStatusEnabled → audited R (UpdateStatus Auto id s).
Proof.
  intros HR. unfold UpdateStatus. audited_step; [eauto with audit|]. audited_step; [case_bool_decide; eauto with audit|].
  audited_step; [|eauto with audit].
  apply audited_map_error. destruct HR as [?| ->]; [by apply audited_Update_user|]. apply audited_Update_harmless. intros ? u. auto.
Qed.
Lemma ReplaceRoles_audited (R : Z → Prop) id ids : R id → audited R (ReplaceRoles id ids).
Proof. intros HR. eapply audited_map_error, audited_confining; [apply confining_replace_roles|done]. Qed.
Lemma DeleteUser_audited (R : Z → Prop) id : R id → audited R (DeleteUser id).
Proof. intros HR. eapply audited_map_error, audited_confining; [apply confining_delete_user|done]. Qed.
Hint Resolve UpdateLastLoginAt_audited UpdateContacts_audited UpdateProfile_audited UpdatePasswordHash_audited UpdateStatus_audited
  ReplaceRoles_audited DeleteUser_audited CreateWithRoles_audited CreateInitialAdministrator_audited : audit.

(** Writes of the other tables. *)
Ltac elsewhere := apply confining_exec; intros ? ?; cbv zeta; repeat case_match; by apply confined_rows.
Hint Extern 3 (confining _ (exec InTx _)) => elsewhere : audit.

Lemma FindMenu_confining S id : confining S (FindMenu InTx id).
Proof. unfold FindMenu. confining_auto. Qed.
Lemma loadTargetResources_confining S ids : confining S (loadTargetResources InTx ids).
Proof. unfold loadTargetResources. confining_auto. Qed.
Lemma loadCurrentRules_confining S r : confining S (loadCurrentRules InTx r).
Proof. unfold loadCurrentRules. confining_auto. Qed.
Lemma removePolicies_confining S subject : confining S (removePolicies InTx subject).
Proof. unfold removePolicies. elsewhere. Qed.
Lemma addPolicies_confining S rules : confining S (addPolicies InTx rules).
Proof. unfold addPolicies. elsewhere. Qed.
Lemma ListMenuIDs_confining S ids : confining S (ListMenuIDs InTx ids).
Proof. unfold ListMenuIDs. confining_auto. Qed.
Hint Resolve FindMenu_confining loadTargetResources_confining loadCurrentRules_confining removePolicies_confining addPolicies_confining
  ListMenuIDs_confining : audit.

Lemma delete_department_confining id : confining no_user (delete_department_body id).
Proof. unfold delete_department_body, First. confining_auto. Qed.
Lemma delete_menu_confining id : confining no_user (delete_menu_body id).
Proof. unfold delete_menu_body. confining_auto. Qed.
Lemma replace_role_menus_confining r ids : confining no_user (replace_role_menus_body r ids).
Proof. unfold replace_role_menus_body, ListMenus. confining_auto. Qed.
Lemma replace_role_apis_confining r ids : confining no_user (replace_role_apis_body r ids).
Proof. unfold replace_role_apis_body. cbv zeta. confining_auto. Qed.
Hint Resolve delete_department_confining delete_menu_confining replace_role_menus_confining replace_role_apis_confining : audit.

(** ** Handlers *)

Lemma InvalidArgument_audited {A} R message : audited R (InvalidArgument (A := A) message).
Proof. apply audited_fail. Qed.
Lemma unavailable_audited {A} R : audited R (unavailable (A := A)).
Proof. apply audited_fail. Qed.
Lemma Hash_audited R password : audited R (Hash password).
Proof. unfold Hash. audited_auto. Qed.
Lemma call_audited {A} R (f : nat → Result A) effect : audited R (call f effect).
Proof. unfold call. audited_auto. Qed.
Hint Resolve InvalidArgument_audited unavailable_audited Hash_audited call_audited : audit.
Lemma managedUser_audited R operator id b : audited R (managedUser operator id b).
Proof. unfold managedUser, FindWithRoles. audited_auto. Qed.
Lemma ValidateRoles_audited R ids current : audited R (ValidateRoles Auto ids current).
Proof. unfold ValidateRoles. audited_auto. Qed.
Lemma recordLogin_audited R u name b reason in_ : audited R (recordLogin u name b reason in_).
Proof. unfold recordLogin. audited_auto. Qed.
Hint Resolve managedUser_audited ValidateRoles_audited recordLogin_audited : audit.
Lemma recordFailure_audited R cfg name : audited R (recordFailure cfg name).
Proof. unfold recordFailure. audited_auto. Qed.
Lemma login_issue_audited R cfg id in_ : audited R (login_issue cfg id in_).
Proof. unfold login_issue, Now. audited_auto. Qed.
Hint Resolve recordFailure_audited login_issue_audited : audit.
Lemma login_verify_audited R cfg row in_ : audited R (login_verify cfg row in_).
Proof. unfold login_verify. audited_auto. Qed.
Hint Resolve login_verify_audited : audit.
Lemma LoginLogic_audited R in_ : audited R (LoginLogic in_).
Proof. unfold LoginLogic. audited_auto. Qed.

Lemma publish_audited R : audited R publish.
Proof. unfold publish. audited_auto. Qed.
Lemma ListDepartments_audited R : audited R (ListDepartments Auto).
Proof. apply audited_query. Qed.
Lemma ListMenus_audited R : audited R (ListMenus Auto).
Proof. apply audited_query. Qed.
Lemma lift_error_audited R e : audited R (lift_error e).
Proof. unfold lift_error. audited_auto. Qed.
Hint Resolve LoginLogic_audited publish_audited ListDepartments_audited ListMenus_audited lift_error_audited : audit.

Lemma ReplaceRoleAPIs_audited R r ids : audited R (ReplaceRoleAPIs r ids).
Proof. unfold ReplaceRoleAPIs. audited_auto. Qed.
Lemma CreateRole_audited R r : audited R (CreateRole Auto r).
Proof. unfold CreateRole. audited_auto. Qed.
Lemma UpdateRole_audited R id u : audited R (UpdateRole Auto id u).
Proof. unfold UpdateRole, First. audited_auto. Qed.
Lemma UpdateRoleStatus_audited R id s : audited R (UpdateRoleStatus Auto id s).
Proof. unfold UpdateRoleStatus, First. audited_auto. Qed.
Lemma CreateDepartment_audited R x : audited R (CreateDepartment Auto x).
Proof. unfold CreateDepartment, validate. audited_auto. Qed.
Lemma UpdateDepartment_audited R id x : audited R (UpdateDepartment Auto id x).
Proof. unfold UpdateDepartment, validate. audited_auto. Qed.
Lemma UpdateDepartmentStatus_audited R id s : audited R (UpdateDepartmentStatus Auto id s).
Proof. unfold UpdateDepartmentStatus. audited_auto. Qed.
Lemma DeleteDepartment_audited R id : audited R (DeleteDepartment id).
Proof. unfold DeleteDepartment. audited_auto. Qed.
Lemma CreateMenu_audited R m : audited R (CreateMenu Auto m).
Proof. unfold CreateMenu. audited_auto. Qed.
Lemma UpdateMenu_audited R id m : audited R (UpdateMenu Auto id m).
Proof. unfold UpdateMenu. audited_auto. Qed.
Lemma UpdateMenuStatus_audited R id s : audited R (UpdateMenuStatus Auto id s).
Proof. unfold UpdateMenuStatus. audited_auto. Qed.
Lemma DeleteMenu_audited R id : audited R (DeleteMenu id).
Proof. unfold DeleteMenu. audited_auto. Qed.
Lemma ReplaceRoleMenus_audited R r ids : audited R (ReplaceRoleMenus r ids).
Proof. unfold ReplaceRoleMenus. audited_auto. Qed.
Hint Resolve ReplaceRoleAPIs_audited CreateRole_audited UpdateRole_audited UpdateRoleStatus_audited CreateDepartment_audited
  UpdateDepartment_audited UpdateDepartmentStatus_audited DeleteDepartment_audited CreateMenu_audited UpdateMenu_audited
  UpdateMenuStatus_audited DeleteMenu_audited ReplaceRoleMenus_audited : audit.

(** Disabling revokes; any other status a request can name is the enabled one. *)
Lemma UpdateUserStatusLogic_audited R operator id status : audited R (UpdateUserStatusLogic operator id status).
Proof.
  unfold UpdateUserStatusLogic. destruct (validRecordStatus status) eqn:Ev; simpl; [|eauto with audit]. audited_step; [eauto with audit|].
  destruct (status =? 0) eqn:E; [audited_auto|]. audited_step; [audited_auto|]. apply audited_map_error, UpdateStatus_audited. right.
  unfold validRecordStatus in Ev. rewrite E in Ev. simpl in Ev. unfold status_of. by rewrite E, Ev.
Qed.
Hint Resolve UpdateUserStatusLogic_audited : audit.

Lemma run_audited R op : (∀ id, op ≠ OpDeleteRole id) → audited R (run op).
Proof.
  intros Hop. destruct op; simpl; unfold discard, CreateUserLogic, UpdateUserLogic, DeleteUserLogic, ReplaceUserRolesLogic,
    ResetUserPasswordLogic, RevokeUserSessionsLogic, UpdateProfileLogic, ChangePasswordLogic, GetCurrentUserLogic, CreateRoleLogic, UpdateRoleLogic,
    UpdateRoleStatusLogic, ReplaceRoleAPIsLogic, CreateDepartmentLogic, UpdateDepartmentLogic, UpdateDepartmentStatusLogic,
    DeleteDepartmentLogic, CreateMenuLogic, UpdateMenuLogic, UpdateMenuStatusLogic, DeleteMenuLogic, ReplaceRoleMenusLogic; try by audited_auto.
  by destruct (Hop id).
Qed.
End accounts.
