(* ===== verification/SysProtocol.v ===== *)
(** * The protocol of the System tables

    What every session may rely on and must keep: identities come from the sequences, names
    are unique among live rows, the super administrator role stays as it was seeded and has
    at most one holder, who stays enabled, and assignments, menus and policies belong to live
    rows.  The relation between sessions follows the locks the code takes: a user's
    assignments grow only under the user's row, a role's policies and menus under the role's
    row.  The second part proves, change by change, that the transactions keep it. *)

From S2P Require Import Prelude GoLib GoText Tx Model TaskRepo InstanceRepo JobRepo SysModel UserRepo RoleRepo MenuRepo Logic.
From stdpp Require Import pretty.

Open Scope Z_scope.

Definition super_role (d : DB) (r : Z) : Prop := ∃ row, roles d !! r = Some row ∧ ro_Code row = SuperAdminRoleCode.
Definition role_live (d : DB) (r : Z) : Prop := ∃ row, roles d !! r = Some row ∧ live_role row = true.
Definition user_live (d : DB) (u : Z) : Prop := ∃ row, users d !! u = Some row ∧ live_user row = true.
Definition user_enabled (d : DB) (u : Z) : Prop := ∃ row, users d !! u = Some row ∧ u_Status row = RecordStatusEnabled.

(** The user holds the super administrator role. *)
Definition administrator (d : DB) (u : Z) : Prop := ∃ r, (u, r) ∈ user_roles d ∧ super_role d r.

(** Two live rows of a table do not agree on [key]. *)
Definition unique_live {A K} (live : A → bool) (key : A → option K) (m : gmap Z A) : Prop :=
  ∀ id id' a a' k, m !! id = Some a → m !! id' = Some a' → live a = true → live a' = true →
  key a = Some k → key a' = Some k → id = id'.

Section protocol.
Context `{PgText}.

Record sys_inv (d : DB) : Prop := {
  si_user_id : ∀ id u, users d !! id = Some u → 0 < id < next_user d;
  si_role_id : ∀ id r, roles d !! id = Some r → 0 < id < next_role d;
  si_department_id : ∀ id x, departments d !! id = Some x → 0 < id < next_department d;
  si_menu_id : ∀ id m, menus d !! id = Some m → 0 < id < next_menu d;
  si_next : 0 < next_user d ∧ 0 < next_role d ∧ 0 < next_department d ∧ 0 < next_menu d;
  si_username : unique_live live_user (λ u, Some (LOWER (u_Username u))) (users d);
  si_email : unique_live live_user (λ u, LOWER <$> u_Email u) (users d);
  si_phone : unique_live live_user u_Phone (users d);
  si_code : unique_live live_role (λ r, Some (ro_Code r)) (roles d);
  si_super : ∀ id r, roles d !! id = Some r → ro_Code r = SuperAdminRoleCode →
    live_role r = true ∧ ro_Status r = RecordStatusEnabled ∧ ro_IsSystem r = true;
  si_seeded : ∃ r, super_role d r;
  si_assigned : ∀ u r, (u, r) ∈ user_roles d → user_live d u;
  si_enabled : ∀ u, administrator d u → user_enabled d u;
  si_administrator : ∀ u u', administrator d u → administrator d u' → u = u';
  si_menus : ∀ r m, (r, m) ∈ role_menus d → role_live d r ∧ ¬ super_role d r;
  si_policies : ∀ p, p ∈ policies d → ∃ r, RoleSubject r = Ok p.1.1 ∧ role_live d r ∧ ¬ super_role d r;
}.

(** ** How rows evolve *)

Definition user_evolves (u u' : User) : Prop :=
  u_Username u' = u_Username u ∧ (u_DeletedAt u ≠ None → u' = u).
Definition role_evolves (r r' : Role) : Prop :=
  ro_IsSystem r' = ro_IsSystem r ∧ (ro_IsSystem r = true ∨ ro_Code r = SuperAdminRoleCode → ro_Code r' = ro_Code r) ∧
  (ro_DeletedAt r ≠ None → r' = r).
Definition department_evolves (x x' : Department) : Prop := d_DeletedAt x ≠ None → x' = x.
Definition menu_evolves (m m' : Menu) : Prop := m_AppCode m' = m_AppCode m ∧ (m_DeletedAt m ≠ None → m' = m).

Record sys_evolves (d d' : DB) : Prop := {
  sy_users : table_evolves user_evolves (users d) (users d');
  sy_roles : table_evolves role_evolves (roles d) (roles d');
  sy_departments : table_evolves department_evolves (departments d) (departments d');
  sy_menus : table_evolves menu_evolves (menus d) (menus d');
  sy_apis : apis d' = apis d;
  sy_next : next_user d ≤ next_user d' ∧ next_role d ≤ next_role d' ∧ next_department d ≤ next_department d' ∧
            next_menu d ≤ next_menu d';
  sy_gains : ∀ u r, super_role d r → is_Some (users d !! u) → (u, r) ∈ user_roles d' → (u, r) ∈ user_roles d;
  sy_keeps : ∀ u r, super_role d r → (u, r) ∈ user_roles d → (u, r) ∈ user_roles d';
}.

#[global] Instance user_evolves_preorder : PreOrder user_evolves.
Proof. split; [by intros u|]. intros u u' u'' [E1 D1] [E2 D2]. split; [congruence|]. intros E. rewrite (D1 E) in *. auto. Qed.
#[global] Instance role_evolves_preorder : PreOrder role_evolves.
Proof.
  split; [by intros r|]. intros r r' r'' (S1 & C1 & D1) (S2 & C2 & D2). split_and!; [congruence| |].
  - intros Hs. rewrite C2; [by apply C1|]. rewrite S1, (C1 Hs). done.
  - intros E. rewrite (D1 E) in *. auto.
Qed.
#[global] Instance department_evolves_preorder : PreOrder department_evolves.
Proof. split; [by intros x|]. intros x x' x'' D1 D2 E. rewrite (D1 E) in *. auto. Qed.
#[global] Instance menu_evolves_preorder : PreOrder menu_evolves.
Proof. split; [by intros x|]. intros x x' x'' [E1 D1] [E2 D2]. split; [congruence|]. intros E. rewrite (D1 E) in *. auto. Qed.

Lemma super_role_grows d d' r : table_evolves role_evolves (roles d) (roles d') → super_role d r → super_role d' r.
Proof.
  intros Hg (row & Hr & Hc). destruct (Hg _ _ Hr) as (row' & Hr' & _ & Hcode & _). exists row'. split; [done|]. rewrite Hcode; auto.
Qed.

#[global] Instance sys_evolves_preorder : PreOrder sys_evolves.
Proof.
  split; [intros d; split; first [reflexivity|lia|eauto]|].
  intros d d' d'' [U1 R1 D1 M1 A1 N1 G1 K1] [U2 R2 D2 M2 A2 N2 G2 K2]. split; [by etrans..|congruence|lia| |].
  - intros u r Hr [row Hu] Hin. apply G1; [done|by eexists|]. destruct (U1 _ _ Hu) as (row' & Hu' & _).
    apply G2; [by eapply super_role_grows|by eexists|done].
  - intros u r Hr Hin. apply K2; [by eapply super_role_grows|]. by apply K1.
Qed.

(** ** Locks *)

Definition same_row (l : Lock) (d d' : DB) : Prop :=
  match l with
  | UserRow id => users d' !! id = users d !! id
  | RoleRow id => roles d' !! id = roles d !! id
  end.

(** The assignments of a user grow only under the user's row.  The policies of a role change
    and its menus grow only under the role's row, and so do the holders of the super
    administrator role. *)
Definition guarded_by (l : Lock) (d d' : DB) : Prop :=
  match l with
  | UserRow u => is_Some (users d !! u) → is_Some (users d' !! u) ∧ ∀ r, (u, r) ∈ user_roles d' → (u, r) ∈ user_roles d
  | RoleRow r => is_Some (roles d !! r) → is_Some (roles d' !! r) ∧
      (∀ p, RoleSubject r = Ok p.1.1 → p ∈ policies d' ↔ p ∈ policies d) ∧
      (∀ m, (r, m) ∈ role_menus d' → (r, m) ∈ role_menus d) ∧
      (super_role d r → super_role d' r ∧ ∀ u, (u, r) ∈ user_roles d' → (u, r) ∈ user_roles d)
  end.

Definition lock_respects (L : list Lock) (d d' : DB) : Prop := ∀ l, l ∈ L → same_row l d d' ∧ guarded_by l d d'.
Definition lock_disciplined (L : list Lock) (d d' : DB) : Prop := ∀ l, l ∉ L → guarded_by l d d'.

#[global] Instance guarded_by_preorder l : PreOrder (guarded_by l).
Proof.
  destruct l as [id|id]; split; simpl.
  - intros d Hd. split; [done|by intros].
  - intros d1 d2 d3 H1 H2 Hd. destruct (H1 Hd) as [Hd2 G1], (H2 Hd2) as [Hd3 G2]. split; auto.
  - intros d Hd. by split_and!.
  - intros d1 d2 d3 H1 H2 Hd. destruct (H1 Hd) as (Hd2 & P1 & M1 & S1), (H2 Hd2) as (Hd3 & P2 & M2 & S2). split_and!; [done| |auto|].
    + intros p Hp. by rewrite P2, P1.
    + intros Hs. destruct (S1 Hs) as [Hs2 A1], (S2 Hs2) as [Hs3 A2]. split; [done|auto].
Qed.

#[global] Instance same_row_preorder l : PreOrder (same_row l).
Proof. destruct l; split; try done; intros ??? E1 E2; simpl in *; congruence. Qed.

#[global] Instance lock_respects_preorder L : PreOrder (lock_respects L).
Proof.
  split; [intros d l _; split; reflexivity|]. intros d1 d2 d3 H1 H2 l Hl. destruct (H1 l Hl), (H2 l Hl). split; by etrans.
Qed.
#[global] Instance lock_disciplined_refl L : Reflexive (lock_disciplined L).
Proof. intros d l _. reflexivity. Qed.

#[global] Instance sys_protocol : Protocol :=
  {| Inv := sys_inv; evolves := sys_evolves; respects := lock_respects; disciplined := lock_disciplined |}.
End protocol.

(** * Changes of the System tables

    One lemma per change a transaction or statement makes to the tables: it keeps the
    protocol of SysProtocol.v, given what the operation has checked and locked. *)

(** ** Unique keys *)

(** A new version of a row whose key no other live row has. *)
Lemma unique_live_put {A K} (live : A → bool) (key : A → option K) m id a :
  unique_live live key m →
  (live a = true → ∀ k b v, m !! k = Some b → live b = true → key a = Some v → key b = Some v → k = id) →
  unique_live live key (<[id := a]> m).
Proof.
  intros Hu Ha i j x y v Hx Hy Lx Ly Kx Ky.
  apply lookup_insert_Some in Hx as [[<- <-]|[Hi Hx]]; apply lookup_insert_Some in Hy as [[<- <-]|[Hj Hy]].
  - done.
  - symmetry. by eapply Ha.
  - by eapply Ha.
  - by eapply Hu.
Qed.

(** The same row keeps its keys, or leaves the live rows. *)
Lemma unique_live_same {A K} (live : A → bool) (key : A → option K) m id a a' :
  unique_live live key m → m !! id = Some a → (live a' = true → live a = true ∧ key a' = key a) →
  unique_live live key (<[id := a']> m).
Proof.
  intros Hu Hid Ha. apply unique_live_put; [done|]. intros La k b v Hk Lb Ka Kb. destruct (Ha La) as [La0 Ek].
  by eapply (Hu k id b a v); try done; congruence.
Qed.

(** The check on the status column leaves the two named codes. *)
Lemma user_error_status u : user_error u = None → one_of (u_Status u) = true.
Proof. intros Hu. eapply unless_None, (first_error_None _ _ Hu). do 6 right. by left. Qed.
Lemma role_error_status r : role_error r = None → one_of (ro_Status r) = true.
Proof. intros Hr. eapply unless_None, (first_error_None _ _ Hr). do 3 right. by left. Qed.

Section transitions.
Context `{PgText}.

Lemma user_conflict_none id u d :
  user_conflict id u d = None → live_user u = true →
  (∀ k v, users d !! k = Some v → live_user v = true → LOWER (u_Username v) = LOWER (u_Username u) → k = id) ∧
  (∀ k v e, users d !! k = Some v → live_user v = true → LOWER <$> u_Email u = Some e → LOWER <$> u_Email v = Some e → k = id) ∧
  (∀ k v p, users d !! k = Some v → live_user v = true → u_Phone u = Some p → u_Phone v = Some p → k = id).
Proof.
  unfold user_conflict. intros Hc Hl. rewrite Hl in Hc. simpl in Hc.
  destruct (taken _ id (λ v, live_user v && bool_decide _)) eqn:T1; [done|].
  destruct (taken _ id (λ v, live_user v && same_optional LOWER _ _)) eqn:T2; [done|].
  destruct (taken _ id (λ v, live_user v && same_optional Datatypes.id _ _)) eqn:T3; [done|].
  split_and!.
  - intros k v Hk Lv E. eapply taken_false; [exact T1|done|]. simpl. by rewrite Lv, bool_decide_eq_true_2.
  - intros k v e Hk Lv Eu Ev. eapply taken_false; [exact T2|done|]. simpl. rewrite Lv.
    destruct (u_Email u), (u_Email v); simplify_eq/=. by rewrite bool_decide_eq_true_2.
  - intros k v p Hk Lv Eu Ev. eapply taken_false; [exact T3|done|]. simpl. rewrite Lv, Eu, Ev. simpl. by rewrite bool_decide_eq_true_2.
Qed.

Lemma role_conflict_none id r d k v :
  role_conflict id r d = None → live_role r = true → roles d !! k = Some v → live_role v = true → ro_Code v = ro_Code r → k = id.
Proof.
  unfold role_conflict. intros Hc Hl Hk Lv E. rewrite Hl in Hc. simpl in Hc.
  destruct (taken _ id _) eqn:T; [done|]. eapply taken_false; [exact T|done|]. simpl. by rewrite Lv, bool_decide_eq_true_2.
Qed.

(** ** Composition *)

Lemma guarded_trans L d1 d2 d3 : lock_disciplined L d1 d2 → lock_disciplined L d2 d3 → lock_disciplined L d1 d3.
Proof. intros H1 H2 l Hl. etrans; [by apply H1|by apply H2]. Qed.

Lemma guarantee_trans L d1 d2 d3 :
  guarantee L d1 d2 → guarantee L d2 d3 → guarantee L d1 d3.
Proof.
  intros H1 H2 HI. destruct (H1 HI) as (I2 & E2 & D2), (H2 I2) as (I3 & E3 & D3).
  split_and!; [done|by etrans|by eapply guarded_trans].
Qed.

(** The relation tables are left alone. *)
Definition same_relations (d d' : DB) : Prop :=
  user_roles d' = user_roles d ∧ role_menus d' = role_menus d ∧ policies d' = policies d.

Lemma disciplined_rows L d d' :
  same_relations d d' → (∀ id, is_Some (users d !! id) → is_Some (users d' !! id)) →
  table_evolves role_evolves (roles d) (roles d') → lock_disciplined L d d'.
Proof.
  intros (E1 & E2 & E3) Hu Hr [u|r] _; simpl; rewrite ?E1, ?E2, ?E3.
  - intros Hs. split; [auto|done].
  - intros [row Hrow]. destruct (Hr _ _ Hrow) as (row' & Hrow' & _). split_and!; [by eexists|done|done|].
    intros Hs. split; [by eapply super_role_grows|done].
Qed.

(** ** Users *)

Lemma user_live_set d id u u' k :
  users d !! id = Some u → (live_user u = true → live_user u' = true ∨ k ≠ id) → user_live d k → user_live (set_user id u' d) k.
Proof.
  intros Hu Hl (row & Hrow & Hlive). destruct (decide (k = id)) as [->|Hne].
  - simplify_eq. exists u'. simpl. rewrite lookup_insert_eq. split; [done|]. by destruct (Hl Hlive).
  - exists row. simpl. by rewrite lookup_insert_ne.
Qed.

Lemma set_user_evolves d id u u' : users d !! id = Some u → user_evolves u u' → sys_evolves d (set_user id u' d).
Proof. intros Hu He. split; simpl; try reflexivity; try done; try lia. by eapply table_evolves_insert; [apply _|..]. Qed.

(** A live user changes, keeps its name, and stays live unless nothing is assigned to it;
    the administrator stays enabled. *)
Lemma user_row_step L d id u u' :
  users d !! id = Some u → live_user u = true → u_Username u' = u_Username u → user_conflict id u' d = None →
  (live_user u' = true ∨ ∀ r, (id, r) ∉ user_roles d) → (u_Status u' = RecordStatusEnabled ∨ ¬ administrator d id ∨ u_Status u' = u_Status u) →
  guarantee L d (set_user id u' d).
Proof.
  intros Hu Hl Hn Hc Hlive Hst. apply guarantee_intro.
  2:{ apply disciplined_rows; [done| |reflexivity]. intros k [v Hv]. simpl. destruct (decide (k = id)) as [->|];
      rewrite ?lookup_insert_eq, ?lookup_insert_ne by done; by eexists. }
  intros HI. split; [|apply (set_user_evolves d id u); [done|]; split; [done|]; unfold live_user in Hl; by to_prop].
  destruct HI as [I1 I2 I3 I4 I5 I6 I7 I8 I9 I10 I11 I12 I13 I14 I15 I16].
  assert (∀ k, administrator (set_user id u' d) k → administrator d k) as Hadm by (intros k (r & Hin & Hs); by exists r).
  split; simpl; try done.
  - intros k v Hv. lookup_cases Hv; by eauto.
  - eapply unique_live_same; [done|done|]. intros _. by rewrite Hn.
  - apply unique_live_put; [done|]. intros Lu k b v Hk Lb Ka Kb.
    destruct (user_conflict_none _ _ _ Hc Lu) as (_ & He & _). by eapply He.
  - apply unique_live_put; [done|]. intros Lu k b v Hk Lb Ka Kb.
    destruct (user_conflict_none _ _ _ Hc Lu) as (_ & _ & Hp). by eapply Hp.
  - intros k r Hin. eapply user_live_set; [done| |by eapply I12]. intros _. destruct Hlive as [|Hno]; [by left|right].
    intros ->. by apply (Hno r).
  - intros k Hk%Hadm. destruct (I13 _ Hk) as (row & Hrow & Hs). unfold user_enabled. simpl.
    destruct (decide (k = id)) as [->|]; [|by exists row; rewrite lookup_insert_ne].
    exists u'. rewrite lookup_insert_eq. split; [done|]. destruct Hst as [?|[?|E]]; [done..|]. rewrite E. by simplify_eq.
Qed.

(** A new user with its assignments.  Only the first administrator gets the super
    administrator role, while nobody holds it and its row is locked. *)
Lemma user_create_step L d u rs :
  live_user u = true → user_conflict (next_user d) u d = None →
  ((∀ r, r ∈ rs → ¬ super_role d r) ∨
   (u_Status u = RecordStatusEnabled ∧ (∀ k, ¬ administrator d k) ∧ ∀ r, r ∈ rs → super_role d r → RoleRow r ∈ L)) →
  let id := next_user d in
  guarantee L d { set_user id u d with next_user := id + 1; user_roles := user_roles d ∪ list_to_set ((λ r, (id, r)) <$> rs) }.
Proof.
  intros Hl Hc Hrs id. set (UR := user_roles d ∪ _). set (d' := { set_user id u d with next_user := _; user_roles := _ }).
  assert (∀ k r, (k, r) ∈ UR ↔ (k, r) ∈ user_roles d ∨ (k = id ∧ r ∈ rs)) as HUR.
  { intros k r. unfold UR. rewrite elem_of_union, elem_of_list_to_set, list_elem_of_fmap. naive_solver. }
  assert (∀ r, super_role d' r ↔ super_role d r) as Hsup by done.
  intros HI. pose proof HI as [I1 I2 I3 I4 I5 I6 I7 I8 I9 I10 I11 I12 I13 I14 I15 I16].
  assert (users d !! id = None) as Hf by (by apply fresh_lookup).
  assert (∀ k, is_Some (users d !! k) → k ≠ id) as Hne by (intros k [v Hv] ->; congruence).
  assert (∀ k, administrator d' k → administrator d k ∨ (k = id ∧ u_Status u = RecordStatusEnabled ∧ ∀ k, ¬ administrator d k)) as Hadm.
  { intros k (r & [Hin|[-> Hin]]%HUR & Hs); [left; by exists r|]. destruct Hrs as [Hno|(? & ? & _)]; [by destruct (Hno r)|by right]. }
  assert (∀ k v, users d !! k = Some v → users d' !! k = Some v) as Hkeep.
  { intros k v Hk. simpl. rewrite lookup_insert_ne; [done|]. intros <-. congruence. }
  split_and!.
  - split; simpl; try done.
    + intros k v Hv. lookup_cases Hv; [lia|]. apply I1 in Hv. lia.
    + lia.
    + apply unique_live_put; [done|]. intros _ k b v Hk Lb [= <-] [= E]. destruct (user_conflict_none _ _ _ Hc Hl) as (Hx & _). by eapply Hx.
    + apply unique_live_put; [done|]. intros _ k b v Hk Lb Ka Kb. destruct (user_conflict_none _ _ _ Hc Hl) as (_ & Hx & _). by eapply Hx.
    + apply unique_live_put; [done|]. intros _ k b v Hk Lb Ka Kb. destruct (user_conflict_none _ _ _ Hc Hl) as (_ & _ & Hx). by eapply Hx.
    + intros k r [Hin|[-> Hin]]%HUR; [|exists u; simpl; by rewrite lookup_insert_eq].
      destruct (I12 _ _ Hin) as (row & Hrow & ?). exists row. split; [by apply Hkeep|done].
    + intros k [Hk|(-> & ? & _)]%Hadm; [|exists u; simpl; by rewrite lookup_insert_eq].
      destruct (I13 _ Hk) as (row & Hrow & ?). exists row. split; [by apply Hkeep|done].
    + intros k k' [Hk|(-> & _ & Hn)]%Hadm [Hk'|(-> & _ & Hn')]%Hadm; [by apply I14|by destruct (Hn' k)|by destruct (Hn k')|done].
  - split; simpl; try reflexivity; [by apply table_evolves_fresh; [apply _|]|lia| |].
    + intros k r _ Hk [Hin|[-> _]]%HUR; [done|]. by destruct (Hne _ Hk).
    + intros k r _ Hin. apply HUR. by left.
  - intros [k|r] HL; simpl.
    + intros Hk. pose proof (Hne _ Hk). rewrite lookup_insert_ne by done. split; [done|]. intros r [?|[-> _]]%HUR; done.
    + intros Hr. split_and!; [done..|]. intros Hs. split; [done|]. intros k [?|[-> Hin]]%HUR; [done|].
      destruct Hrs as [Hno|(_ & _ & Hlock)]; [by destruct (Hno r)|]. by destruct HL; apply Hlock.
Qed.

(** ** Roles *)

(** A live role changes: a system role keeps its code, no other takes the super
    administrator's, which stays enabled, and one that leaves the live rows has no policies
    and no menus. *)
Lemma role_row_step L d id r r' :
  roles d !! id = Some r → live_role r = true → ro_IsSystem r' = ro_IsSystem r → (ro_IsSystem r = true → ro_Code r' = ro_Code r) →
  (ro_Code r' = SuperAdminRoleCode → ro_Code r = SuperAdminRoleCode) → role_conflict id r' d = None →
  (ro_Code r' = SuperAdminRoleCode → ro_Status r' = RecordStatusEnabled ∧ live_role r' = true) →
  (live_role r' = true ∨ (∀ p, p ∈ policies d → RoleSubject id ≠ Ok p.1.1) ∧ ∀ m, (id, m) ∉ role_menus d) →
  guarantee L d (set_role id r' d).
Proof.
  intros Hr Hl Hsys Hcode Hnew Hc Hkeep Hlive HI. pose proof HI as [I1 I2 I3 I4 I5 I6 I7 I8 I9 I10 I11 I12 I13 I14 I15 I16].
  assert (role_evolves r r') as Hev.
  { split_and!; [done| |unfold live_role in Hl; by to_prop]. intros [?|Hs]; [auto|]. apply Hcode. by destruct (I10 _ _ Hr Hs) as (_ & _ & ?). }
  assert (table_evolves role_evolves (roles d) (roles (set_role id r' d))) as Htab by (by eapply table_evolves_insert; [apply _|..]).
  assert (∀ k, super_role (set_role id r' d) k ↔ super_role d k) as Hsup.
  { intros k. split; [|by apply super_role_grows]. intros (row & Hrow & Hs). simpl in Hrow. lookup_cases Hrow; [|by exists row].
    exists r. auto. }
  assert (∀ k, administrator (set_role id r' d) k ↔ administrator d k) as Hadm.
  { intros k. split; intros (x & Hin & Hx); exists x; (split; [done|by apply Hsup]). }
  assert (∀ k, role_live d k → k ≠ id ∨ live_role r' = true → role_live (set_role id r' d) k) as Hrl.
  { intros k (row & Hrow & Hlr) Hk. destruct (decide (k = id)) as [->|].
    - destruct Hk as [?|?]; [done|]. exists r'. simpl. by rewrite lookup_insert_eq.
    - exists row. simpl. by rewrite lookup_insert_ne. }
  split_and!.
  - split; simpl; try done.
    + intros k row Hrow. lookup_cases Hrow; by eauto.
    + apply unique_live_put; [done|]. intros Lr k b v Hk Lb [= <-] [= E]. by eapply role_conflict_none.
    + intros k row Hrow Hs. lookup_cases Hrow; [|by eapply I10]. destruct (I10 _ _ Hr (Hnew Hs)) as (_ & _ & Hy).
      destruct (Hkeep Hs). split_and!; [done..|congruence].
    + destruct I11 as [k Hk]. exists k. by apply Hsup.
    + intros k Hk%Hadm. by apply I13.
    + intros k k' Hk%Hadm Hk'%Hadm. by apply I14.
    + intros k m Hin. destruct (I15 _ _ Hin) as [Hk Hs]. rewrite Hsup. split; [|done]. apply Hrl; [done|].
      destruct Hlive as [?|[_ Hm]]; [by right|]. left. intros ->. by apply (Hm m).
    + intros p Hp. destruct (I16 _ Hp) as (k & Hsub & Hk & Hs). exists k. rewrite Hsup. split_and!; [done| |done]. apply Hrl; [done|].
      destruct Hlive as [?|[Hpol _]]; [by right|]. left. intros ->. by apply (Hpol p).
  - split; simpl; try reflexivity; try done; lia.
  - by apply disciplined_rows.
Qed.

Lemma role_create_step L d r :
  role_conflict (next_role d) r d = None → ro_Code r ≠ SuperAdminRoleCode →
  guarantee L d { set_role (next_role d) r d with next_role := next_role d + 1 }.
Proof.
  intros Hc Hcode HI. pose proof HI as [I1 I2 I3 I4 I5 I6 I7 I8 I9 I10 I11 I12 I13 I14 I15 I16].
  set (id := next_role d) in *. set (d' := { set_role id r d with next_role := _ }).
  assert (roles d !! id = None) as Hf by (by apply fresh_lookup).
  assert (∀ k row, roles d !! k = Some row → roles d' !! k = Some row) as Hkeep.
  { intros k v Hk. simpl. rewrite lookup_insert_ne; [done|]. intros <-. congruence. }
  assert (table_evolves role_evolves (roles d) (roles d')) as Htab by (by apply table_evolves_fresh; [apply _|]).
  assert (∀ k, super_role d' k ↔ super_role d k) as Hsup.
  { intros k. split; [|by apply super_role_grows]. intros (row & Hrow & Hs). simpl in Hrow. lookup_cases Hrow. by exists row. }
  assert (∀ k, administrator d' k ↔ administrator d k) as Hadm.
  { intros k. split; intros (x & Hin & Hx); exists x; (split; [done|by apply Hsup]). }
  assert (∀ k, role_live d k → role_live d' k) as Hrl by (intros k (row & Hrow & ?); exists row; split; [by apply Hkeep|done]).
  split_and!.
  - split; simpl; try done.
    + intros k row Hrow. lookup_cases Hrow; [lia|]. apply I2 in Hrow. lia.
    + lia.
    + apply unique_live_put; [done|]. intros Lr k b v Hk Lb [= <-] [= E]. by eapply role_conflict_none.
    + intros k row Hrow Hs. lookup_cases Hrow. by eapply I10.
    + destruct I11 as [k Hk]. exists k. by apply Hsup.
    + intros k Hk%Hadm. by apply I13.
    + intros k k' Hk%Hadm Hk'%Hadm. by apply I14.
    + intros k m Hin. destruct (I15 _ _ Hin). rewrite Hsup. auto.
    + intros p Hp. destruct (I16 _ Hp) as (k & ? & ? & ?). exists k. rewrite Hsup. auto.
  - split; simpl; try reflexivity; try done; lia.
  - by apply disciplined_rows.
Qed.

(** ** Relation tables *)

Lemma RoleSubject_inj r r' s : RoleSubject r = Ok s → RoleSubject r' = Ok s → r = r'.
Proof.
  unfold RoleSubject. destruct (r <=? 0); [done|]. destruct (r' <=? 0); [done|]. intros [= <-] [= E].
  unfold FormatInt in E. symmetry; by apply (inj pretty).
Qed.

Record relations_change (L : list Lock) (d : DB) (UR RM : gset (Z * Z)) (PS : gset PolicyRow) : Prop := {
  rc_assigned : ∀ u r, (u, r) ∈ UR → (u, r) ∈ user_roles d ∨ (user_live d u ∧ ¬ super_role d r ∧ UserRow u ∈ L);
  rc_kept : ∀ u r, super_role d r → (u, r) ∈ user_roles d → (u, r) ∈ UR;
  rc_granted : ∀ r m, (r, m) ∈ RM → (r, m) ∈ role_menus d ∨ (role_live d r ∧ ¬ super_role d r ∧ RoleRow r ∈ L);
  rc_added : ∀ p, p ∈ PS → p ∈ policies d ∨ ∃ r, RoleSubject r = Ok p.1.1 ∧ role_live d r ∧ ¬ super_role d r ∧ RoleRow r ∈ L;
  rc_removed : ∀ p, p ∈ policies d → p ∈ PS ∨ ∃ r, RoleSubject r = Ok p.1.1 ∧ RoleRow r ∈ L;
}.

Lemma relations_step L d UR RM PS :
  relations_change L d UR RM PS → guarantee L d { d with user_roles := UR; role_menus := RM; policies := PS }.
Proof.
  intros [A K G P R] HI. pose proof HI as [I1 I2 I3 I4 I5 I6 I7 I8 I9 I10 I11 I12 I13 I14 I15 I16].
  set (d' := { d with user_roles := UR; role_menus := RM; policies := PS }).
  assert (∀ k, administrator d' k → administrator d k) as Hadm.
  { intros k (r & Hin & Hs). simpl in Hin. change (super_role d r) in Hs. exists r. split; [|done].
    by destruct (A _ _ Hin) as [?|(_ & ? & _)]. }
  split_and!.
  - split; simpl; try done.
    + intros u r Hin. destruct (A _ _ Hin) as [?|(? & _)]; [by eapply I12|done].
    + intros k Hk%Hadm. by apply I13.
    + intros k k' Hk%Hadm Hk'%Hadm. by apply I14.
    + intros r m Hin. destruct (G _ _ Hin) as [?|(? & ? & _)]; [by eapply I15|done].
    + intros p Hin. destruct (P _ Hin) as [?|(r & ? & ? & ? & _)]; [by apply I16|by exists r].
  - split; simpl; try reflexivity; try done. intros u r Hs _ Hin. by destruct (A _ _ Hin) as [?|(_ & ? & _)].
  - intros [u|r] HL; simpl.
    + intros Hs. split; [done|]. intros r Hin. by destruct (A _ _ Hin) as [?|(_ & _ & ?)].
    + intros Hs. split_and!; [done| | |].
      * intros p Hp. split; intros Hin.
        -- destruct (P _ Hin) as [?|(k & Hk & _ & _ & HkL)]; [done|]. by rewrite (RoleSubject_inj _ _ _ Hp Hk) in HL.
        -- destruct (R _ Hin) as [?|(k & Hk & HkL)]; [done|]. by rewrite (RoleSubject_inj _ _ _ Hp Hk) in HL.
      * intros m Hin. by destruct (G _ _ Hin) as [?|(_ & _ & ?)].
      * intros Hsr. split; [done|]. intros u Hin. by destruct (A _ _ Hin) as [?|(_ & ? & _)].
Qed.

(** ** Departments and menus *)

Lemma department_row_step L d id x x' :
  departments d !! id = Some x → live_department x = true → guarantee L d (set_department id x' d).
Proof.
  intros Hx Hl. apply guarantee_intro; [|by apply disciplined_rows]. intros HI. split.
  - pose proof HI as [I1 I2 I3 I4 I5 I6 I7 I8 I9 I10 I11 I12 I13 I14 I15 I16]. split; simpl; try done.
    intros k v Hv. lookup_cases Hv; by eauto.
  - split; simpl; try reflexivity; try done. eapply table_evolves_insert; [apply _|done|].
    unfold department_evolves. unfold live_department in Hl. by to_prop.
Qed.

Lemma department_create_step L d x :
  guarantee L d { set_department (next_department d) x d with next_department := next_department d + 1 }.
Proof.
  apply guarantee_intro; [|by apply disciplined_rows]. intros HI. split.
  - pose proof HI as [I1 I2 I3 I4 I5 I6 I7 I8 I9 I10 I11 I12 I13 I14 I15 I16]. split; simpl; try done; [|lia].
    intros k v Hv. lookup_cases Hv; [lia|]. apply I3 in Hv. lia.
  - split; simpl; try reflexivity; try done; [|lia]. apply table_evolves_fresh; [apply _|]. by apply fresh_lookup, si_department_id.
Qed.

Lemma menu_row_step L d id m m' :
  menus d !! id = Some m → live_menu m = true → m_AppCode m' = m_AppCode m → guarantee L d (set_menu id m' d).
Proof.
  intros Hm Hl Hcode. apply guarantee_intro; [|by apply disciplined_rows]. intros HI. split.
  - pose proof HI as [I1 I2 I3 I4 I5 I6 I7 I8 I9 I10 I11 I12 I13 I14 I15 I16]. split; simpl; try done.
    intros k v Hv. lookup_cases Hv; by eauto.
  - split; simpl; try reflexivity; try done. eapply table_evolves_insert; [apply _|done|].
    split; [done|]. unfold live_menu in Hl. by to_prop.
Qed.

Lemma menu_create_step L d m : guarantee L d { set_menu (next_menu d) m d with next_menu := next_menu d + 1 }.
Proof.
  apply guarantee_intro; [|by apply disciplined_rows]. intros HI. split.
  - pose proof HI as [I1 I2 I3 I4 I5 I6 I7 I8 I9 I10 I11 I12 I13 I14 I15 I16]. split; simpl; try done; [|lia].
    intros k v Hv. lookup_cases Hv; [lia|]. apply I4 in Hv. lia.
  - split; simpl; try reflexivity; try done; [|lia]. apply table_evolves_fresh; [apply _|]. by apply fresh_lookup, si_menu_id.
Qed.
End transitions.
