(* ===== verification/SysRules.v ===== *)
(** * The operations of the System domain keep the protocol

    Every repository operation and handler, under interference by all others: reads
    establish facts that the protocol keeps stable, writes are changes of SysProtocol.v.  The
    second part is the replacement of API policies, which is exact. *)

From S2P Require Import Prelude GoLib GoText Tx Model TaskRepo InstanceRepo JobRepo RpcErrors Redis LoginProtection.
From S2P Require Import SysModel UserRepo RoleRepo MenuRepo Accounts SysLogic Logic SysProtocol.

Open Scope Z_scope.

Abbreviation safe := (Logic.safe (DB := DB) (Lock := Lock) (Output := Output)).

(** [m] keeps the protocol when it starts in [d]. *)
Definition safe_from `{PgText} {A} (d : DB) (m : M A) : Prop := ∀ o, wp m d o (λ _ _ _, True).

Section rules.
Context `{PgText}.

Lemma safe_safe_from {A} (m : M A) : (∀ d, safe_from d m) ↔ safe m.
Proof. done. Qed.

Lemma safe_from_safe {A} d (m : M A) : safe m → safe_from d m.
Proof. intros Hm o. apply Hm. Qed.

Lemma safe_from_query {A B} (f : Event → DB → Result A) (k : A → M B) d :
  (∀ ev d1 a, sys_inv d1 → sys_evolves d d1 → f ev d1 = Ok a → safe_from d1 (k a)) → safe_from d (mbind k (query Auto f)).
Proof.
  intros Hk o. apply wp_bind, wp_query. intros ev d1 HI He. split; [|done].
  destruct (f ev d1) as [a|e] eqn:E; [|done]. by eapply Hk.
Qed.

Lemma safe_from_stmt {A} (f : Event → DB → DB * Result A) d :
  (∀ ev d1, sys_inv d1 → sys_evolves d d1 → guarantee [] d1 (f ev d1).1) → safe_from d (stmt f).
Proof. intros Hf o. apply wp_stmt. intros ev d1 HI He. split_and!; [by apply Hf|done|done]. Qed.

Lemma safe_from_bind {A B} (m : M A) (k : A → M B) d : safe_from d m → (∀ a, safe (k a)) → safe_from d (mbind k m).
Proof.
  intros Hm Hk o. apply wp_bind. eapply wp_mono; [apply Hm|]. intros [a|e] d' o' _ _ _; [apply Hk|done].
Qed.

Lemma safe_from_map_error {A} f (m : M A) d : safe_from d m → safe_from d (map_error f m).
Proof.
  intros Hm. apply safe_from_bind; [|intros []; [apply safe_ret|apply safe_fail]]. intros o. apply wp_attempt. apply Hm.
Qed.

(** ** Facts that stay *)

Lemma super_role_unique d r r' : sys_inv d → super_role d r → super_role d r' → r = r'.
Proof.
  intros HI (row & Hr & Hc) (row' & Hr' & Hc'). destruct (si_super _ HI _ _ Hr Hc) as (Hl & _), (si_super _ HI _ _ Hr' Hc') as (Hl' & _).
  eapply (si_code _ HI _ _ _ _ SuperAdminRoleCode Hr Hr'); try done; by rewrite ?Hc, ?Hc'.
Qed.

Lemma super_role_stable d d' r : sys_inv d → sys_inv d' → sys_evolves d d' → super_role d' r ↔ super_role d r.
Proof.
  intros HI HI' He. split; [|by eapply super_role_grows, sy_roles]. intros Hr. destruct (si_seeded _ HI) as [r0 Hr0].
  assert (super_role d' r0) as Hr0' by (by eapply super_role_grows, Hr0; apply sy_roles). by rewrite (super_role_unique d' r r0).
Qed.

(** A user that is not the administrator does not become one. *)
Lemma not_administrator_stable d d' u :
  sys_inv d → sys_inv d' → sys_evolves d d' → is_Some (users d !! u) → ¬ administrator d u → ¬ administrator d' u.
Proof.
  intros HI HI' He Hu Hno (r & Hin & Hr). apply (super_role_stable d d') in Hr; [|done..]. apply Hno. exists r. split; [|done].
  by eapply sy_gains.
Qed.

Lemma not_super_stable d d' r : sys_inv d → sys_inv d' → sys_evolves d d' → ¬ super_role d r → ¬ super_role d' r.
Proof. intros HI HI' He Hn Hr. apply Hn. by apply (super_role_stable d d'). Qed.

Lemma role_stays d d' id r : sys_evolves d d' → roles d !! id = Some r → ∃ r', roles d' !! id = Some r' ∧ role_evolves r r'.
Proof. intros He Hr. by apply (sy_roles _ _ He). Qed.

Lemma user_stays d d' id : sys_evolves d d' → is_Some (users d !! id) → is_Some (users d' !! id).
Proof. intros He [u Hu]. destruct (sy_users _ _ He _ _ Hu) as (u' & ? & _). by eexists. Qed.

(** The roles a session reads for a user. *)
Lemma elem_of_roles_of d u r row :
  (r, row) ∈ roles_of d u ↔ roles d !! r = Some row ∧ live_role row = true ∧ (u, r) ∈ user_roles d.
Proof.
  unfold roles_of. rewrite elem_of_order_by, list_elem_of_filter, elem_of_rows. simpl. naive_solver.
Qed.

Lemma protect_not_administrator d u :
  sys_inv d → protectSuperAdmin (roles_of d u) = Ok tt → ¬ administrator d u.
Proof.
  unfold protectSuperAdmin. intros HI Hp (r & Hin & row & Hr & Hc). destruct (existsb is_super (roles_of d u)) eqn:E; [done|].
  enough (existsb is_super (roles_of d u) = true) by congruence. apply existsb_exists. exists (r, row). split.
  - apply list_elem_of_In, elem_of_roles_of. split_and!; [done| |done]. by destruct (si_super _ HI _ _ Hr Hc).
  - unfold is_super. simpl. by rewrite bool_decide_eq_true_2.
Qed.
End rules.

#[export] Hint Resolve safe_from_safe : safe.

(** ** Users *)

Section users.
Context `{PgLib, PgText}.

Lemma safe_First {A} (T : Table A) id : safe (First Auto T id).
Proof. apply safe_query. Qed.
Lemma safe_found {A} e (row : option A) : safe (found e row).
Proof. unfold found. safe_auto. Qed.
Lemma safe_affected e n : safe (affected e n).
Proof. unfold affected. safe_auto. Qed.
Hint Resolve safe_First safe_found safe_affected safe_map_error : safe.

Lemma loadUserRoleRecords_safe ids : safe (loadUserRoleRecords Auto ids).
Proof. unfold loadUserRoleRecords. safe_auto. Qed.
Lemma loadUserDepartmentNames_safe us : safe (loadUserDepartmentNames Auto us).
Proof. unfold loadUserDepartmentNames. safe_auto. Qed.
Hint Resolve loadUserRoleRecords_safe loadUserDepartmentNames_safe : safe.
Lemma findUserRecord_safe id : safe (findUserRecord Auto id).
Proof. unfold findUserRecord. safe_auto. Qed.
Lemma FindByID_safe id : safe (FindByID Auto id).
Proof. unfold FindByID. safe_auto. Qed.
Lemma FindByUsername_safe name : safe (FindByUsername Auto name).
Proof. unfold FindByUsername. safe_auto. Qed.
Lemma ListUsers_safe q : safe (ListUsers Auto q).
Proof. unfold ListUsers. safe_auto. Qed.
Lemma validateUserDepartment_safe id current : safe (validateUserDepartment Auto id current).
Proof. unfold validateUserDepartment. safe_auto. Qed.
Lemma validateUserRoles_safe ids current : safe (validateUserRoles Auto ids current).
Proof. unfold validateUserRoles. safe_auto. Qed.
Lemma ValidateRoles_safe ids current : safe (ValidateRoles Auto ids current).
Proof. unfold ValidateRoles. safe_step; [apply validateUserRoles_safe|safe_auto]. Qed.

(** A conditional update of one user that keeps its name and leaves it live. *)
Lemma safe_from_update_user d id P upd :
  (∀ now d1 u, sys_inv d1 → sys_evolves d d1 → users d1 !! id = Some u → user_error (upd now u) = None →
     u_Username (upd now u) = u_Username u ∧ u_DeletedAt (upd now u) = u_DeletedAt u ∧
     (u_Status (upd now u) = RecordStatusEnabled ∨ ¬ administrator d1 id ∨ u_Status (upd now u) = u_Status u)) →
  safe_from d (Update Auto sys_user id P upd).
Proof.
  intros Hupd. apply safe_from_stmt. intros ev d1 HI He.
  destruct (update_row_cases sys_user id P (upd (ev_clock ev)) d1) as [->|(u & Hu & Hl & _ & Herr & Hc & ->)]; [apply guarantee_refl|].
  simpl in *. destruct (Hupd (ev_clock ev) d1 u HI He Hu Herr) as (Hn & Hd & Hs).
  eapply user_row_step; try done. left. unfold live_user in *. by rewrite Hd.
Qed.

Lemma safe_update_user id P upd :
  (∀ now u, u_Username (upd now u) = u_Username u ∧ u_DeletedAt (upd now u) = u_DeletedAt u ∧ u_Status (upd now u) = u_Status u) →
  safe (Update Auto sys_user id P upd).
Proof.
  intros Hupd. apply safe_safe_from. intros d. apply safe_from_update_user. intros now d1 u _ _ _ _.
  destruct (Hupd now u) as (? & ? & ?). split_and!; auto.
Qed.

Lemma UpdateLastLoginAt_safe id t : safe (UpdateLastLoginAt Auto id t).
Proof. unfold UpdateLastLoginAt. safe_step; [by apply safe_update_user|safe_auto]. Qed.
Lemma UpdatePasswordHash_safe id hash : safe (UpdatePasswordHash Auto id hash).
Proof. unfold UpdatePasswordHash. safe_step; [by apply safe_update_user|safe_auto]. Qed.
Lemma UpdateContacts_safe id c : safe (UpdateContacts Auto id c).
Proof. unfold UpdateContacts. safe_step; [apply safe_map_error; by apply safe_update_user|safe_auto]. Qed.
Lemma UpdateProfile_safe id p : safe (UpdateProfile Auto id p).
Proof.
  unfold UpdateProfile. safe_step; [apply FindByID_safe|]. safe_step; [apply safe_map_error, validateUserDepartment_safe|].
  safe_step; [apply safe_map_error; by apply safe_update_user|safe_auto].
Qed.

(** Reading a record tells whether the user is the administrator. *)
Lemma safe_from_findUserRecord {B} d id (k : UserRecord → M B) :
  (∀ d1 record, sys_inv d1 → sys_evolves d d1 → is_Some (users d1 !! id) →
     (protectSuperAdmin (ur_Roles record) = Ok tt → ¬ administrator d1 id) → safe_from d1 (k record)) →
  safe_from d (mbind k (findUserRecord Auto id)).
Proof.
  intros Hk o. unfold findUserRecord. apply wp_bind. unfold First. apply wp_bind, wp_query. intros ev d1 HI1 He1. split; [|done].
  destruct (live_row sys_user d1 id) as [u|] eqn:Hu; simpl; [|by apply wp_bind, wp_fail].
  apply live_row_Some in Hu as [Hu _]. apply wp_bind, wp_ret. unfold loadUserRoleRecords. rewrite bool_decide_eq_false_2 by done.
  apply wp_bind, wp_query. intros ev2 d2 HI2 He2. split; [|done]. apply wp_bind.
  eapply wp_mono; [apply loadUserDepartmentNames_safe|]. intros [names|e] d3 o3 HI3 He3 _; [|done]. apply wp_ret.
  apply Hk; [done|by do 2 (etrans; [done|])| |].
  - eapply user_stays, user_stays; [done..|]. by eexists.
  - simpl. rewrite bool_decide_eq_true_2 by (by apply list_elem_of_singleton). intros Hp%protect_not_administrator; [|done].
    eapply not_administrator_stable; [| | | |done]; [done..|]. eapply user_stays; [done|by eexists].
Qed.

Lemma UpdateStatus_safe id s : safe (UpdateStatus Auto id s).
Proof.
  apply safe_safe_from. intros d. unfold UpdateStatus. apply safe_from_findUserRecord. intros d1 record HI1 He1 Hu Hp.
  intros o. apply wp_bind. case_bool_decide as Es.
  2:{ apply wp_ret. apply (safe_from_bind (map_error _ _)); [|intros; apply safe_affected]. apply safe_from_map_error, safe_from_update_user.
      intros now d2 u HI2 He2 Hu2 Herr. split_and!; [done..|left]. apply user_error_status in Herr. by destruct s. }
  apply wp_lift. destruct (protectSuperAdmin _) as [[]|e]; [|done].
  apply (safe_from_bind (map_error _ _)); [|intros; apply safe_affected]. apply safe_from_map_error, safe_from_update_user.
  intros now d2 u HI2 He2 Hu2 _. split_and!; [done..|right; left]. eapply not_administrator_stable; [| | | |by apply Hp]; done.
Qed.
End users.

(** ** Inside a transaction *)

Section transactions.
Context `{PgLib, PgText}.

(** What a transaction may find later, before its first write. *)
Definition later (L : list Lock) (d d' : DB) : Prop := sys_inv d' ∧ sys_evolves d d' ∧ lock_respects L d d'.

Lemma tx_query_clean {A} (f : Event → DB → Result A) L d Q :
  (∀ ev d' a, later L d d' → f ev d' = Ok a → Q a (Clean L d')) → tx (Output := Output) (query InTx f) (Clean L d) Q.
Proof. intros HQ. apply tx_query. intros ev v' a (d' & -> & ? & ? & ?) Ha. eapply HQ; [|exact Ha]. done. Qed.

Lemma tx_First {A} (T : Table A) id L d Q :
  (∀ d', later L d d' → Q (live_row T d' id) (Clean L d')) → tx (First InTx T id) (Clean L d) Q.
Proof. intros HQ. apply tx_query_clean. intros ev d' a Hd [= <-]. auto. Qed.

(** A live row that is found is held, and others leave it alone. *)
Lemma tx_FirstForUpdate {A} (T : Table A) l id L d Q :
  (∀ d' a, later L d d' → tb_rows T d' !! id = Some a → tb_live T a = true → Q (Some a) (Clean (l :: L) d')) →
  (∀ d', later L d d' → Q None (Clean L d')) →
  tx (FirstForUpdate InTx T l id) (Clean L d) Q.
Proof.
  intros HS HN. apply tx_read. intros ev v a (d' & -> & ? & ? & ?) [= <-]. simpl.
  destruct (live_row T d' id) as [row|] eqn:E; simpl; [|by apply HN]. apply live_row_Some in E as []. by apply HS.
Qed.

Lemma tx_found {A} e (row : option A) v Q : (∀ a, row = Some a → Q a v) → tx (Output := Output) (found e row) v Q.
Proof. intros HQ. unfold found. destruct row; [apply tx_ret; auto|apply tx_fail]. Qed.

Lemma later_trans L d1 d2 d3 : later L d1 d2 → later L d2 d3 → later L d1 d3.
Proof. intros (_ & E1 & R1) (I & E2 & R2). split_and!; [done|by etrans|by etrans]. Qed.

Lemma later_refl L d : sys_inv d → later L d d.
Proof. intros HI. split_and!; [done|reflexivity|reflexivity]. Qed.

Lemma later_not_super L d d' r : sys_inv d → later L d d' → ¬ super_role d r → ¬ super_role d' r.
Proof. intros HI (? & ? & _). by apply not_super_stable. Qed.

Lemma later_user L d d' u : later L d d' → UserRow u ∈ L → users d' !! u = users d !! u.
Proof. intros (_ & _ & Hr) Hin. by destruct (Hr _ Hin). Qed.
Lemma later_role L d d' r : later L d d' → RoleRow r ∈ L → roles d' !! r = roles d !! r.
Proof. intros (_ & _ & Hr) Hin. by destruct (Hr _ Hin). Qed.

Lemma tx_validateUserDepartment id current L d Q :
  sys_inv d → (∀ d', later L d d' → Q tt (Clean L d')) → tx (validateUserDepartment InTx id current) (Clean L d) Q.
Proof.
  intros HI HQ. unfold validateUserDepartment. destruct id as [id|]; [|by apply tx_ret, HQ, later_refl].
  apply tx_bind, tx_First. intros d' Hd. destruct (live_row _ d' id) as [x|]; [|apply tx_fail].
  guard as E; [apply tx_fail|by apply tx_ret, HQ].
Qed.

Lemma check_roles_None current l : check_roles current l = None → ∀ r, r ∈ l → is_super r = false.
Proof.
  induction l as [|x l IH]; [by intros _ ? ?%elem_of_nil|]. simpl. destruct (is_super x) eqn:E; [done|].
  destruct (negb _ && negb _); [done|]. intros Hl r [->|Hr]%elem_of_cons; auto.
Qed.

(** Accepted roles are not the super administrator's. *)
Lemma tx_validateUserRoles ids current L d Q :
  sys_inv d → (∀ ids' d', later L d d' → (∀ r, r ∈ ids' → ¬ super_role d' r) → Q ids' (Clean L d')) →
  tx (validateUserRoles InTx ids current) (Clean L d) Q.
Proof.
  intros HI HQ. unfold validateUserRoles. set (ids' := compact (sort_ids ids)). clearbody ids'. case_bool_decide as E.
  { apply tx_ret, HQ; [by apply later_refl|]. subst. by intros ? ?%elem_of_nil. }
  apply tx_bind, tx_query_clean. intros ev d' l Hd [= <-]. cbn beta. guard as E2; [apply tx_fail|].
  destruct (check_roles _ _) as [e|] eqn:Ec; [apply tx_fail|]. apply tx_ret, HQ; [done|].
  intros r Hin (row & Hr & Hc). destruct Hd as (HI' & _ & _). destruct (si_super _ HI' _ _ Hr Hc) as (Hl & _).
  assert (is_super (r, row) = false) as Hs.
  { eapply check_roles_None; [exact Ec|]. apply list_elem_of_filter. split; [done|]. by apply elem_of_rows. }
  unfold is_super in Hs. simpl in Hs. by rewrite bool_decide_eq_true_2 in Hs.
Qed.

Lemma union_empty_roles (d : DB) : { d with user_roles := user_roles d ∪ ∅ } = d.
Proof. rewrite union_empty_r_L. by destruct d. Qed.

(** Assignments are inserted all or none. *)
Lemma tx_insertUserRoles u ids L b d Q :
  Q tt (Dirty L b { d with user_roles := user_roles d ∪ list_to_set ((λ r, (u, r)) <$> ids) }) →
  tx (insertUserRoles InTx u ids) (Dirty L b d) Q.
Proof.
  intros HQ. unfold insertUserRoles. case_bool_decide as E.
  - apply tx_ret. subst. simpl in HQ. by rewrite union_empty_roles in HQ.
  - apply tx_exec. intros ev v' a ->. simpl. case_bool_decide; [|done]. by intros [= <-].
Qed.

Lemma create_with_roles_body_tx u ids d :
  sys_inv d →
  tx (create_with_roles_body u ids) (Clean [] d) (λ _ v, guarantee (held_rows v) (committed v) (current v)).
Proof.
  intros HI. unfold create_with_roles_body. apply tx_bind, tx_validateUserDepartment; [done|]. intros d1 Hd1.
  apply tx_bind, tx_validateUserRoles; [apply Hd1|]. intros ids' d2 Hd2 Hns. apply tx_bind. unfold CreateUser, Create. apply tx_exec.
  intros ev v id (d3 & -> & Hd3). cbn [current].
  destruct (insert_row_cases sys_user (new_user u (ev_clock ev)) d3) as [[e ->]|(_ & _ & Hc & ->)]; [done|]. simpl. intros [= <-].
  apply tx_bind, tx_insertUserRoles, tx_ret. simpl.
  apply (user_create_step [] d3 (new_user u (ev_clock ev)) ids'); [done|done|left]. intros r Hr.
  eapply later_not_super; [|exact Hd3|by apply Hns]. apply Hd2.
Qed.

Lemma later_not_administrator L d d' u :
  sys_inv d → later L d d' → is_Some (users d !! u) → ¬ administrator d u → ¬ administrator d' u.
Proof. intros HI (? & ? & _). by apply not_administrator_stable. Qed.

Lemma later_live L d d' u row :
  later L d d' → UserRow u ∈ L → users d !! u = Some row → live_user row = true → user_live d' u.
Proof. intros Hd Hin Hu Hl. exists row. by rewrite (later_user _ _ _ _ Hd Hin). Qed.

(** Replacing the assignments of a held user that is not the administrator. *)
Lemma replace_assignments_step L d u rs :
  user_live d u → UserRow u ∈ L → ¬ administrator d u → (∀ r, r ∈ rs → ¬ super_role d r) →
  guarantee L d { d with user_roles := filter (λ p, p.1 ≠ u) (user_roles d) ∪ list_to_set ((λ r, (u, r)) <$> rs) }.
Proof.
  intros Hl Hin Hadm Hns.
  change { d with user_roles := ?UR } with { d with user_roles := UR; role_menus := role_menus d; policies := policies d }.
  apply relations_step. split; [| |by left..].
  - intros k r [[_ ?]%elem_of_filter|Hk]%elem_of_union; [by left|right]. apply elem_of_list_to_set, list_elem_of_fmap in Hk as (x & [= -> ->] & Hx).
    split_and!; [done|by apply Hns|done].
  - intros k r Hs Hk. apply elem_of_union_l, elem_of_filter. split; [|done]. simpl. intros ->. apply Hadm. by exists r.
Qed.

(** The roles a transaction loads for the user it holds. *)
Lemma tx_loadUserRoleRecords id L d Q :
  (∀ d', later L d d' → Q (λ user, if bool_decide (user ∈ [id]) then roles_of d' user else []) (Clean L d')) →
  tx (loadUserRoleRecords InTx [id]) (Clean L d) Q.
Proof.
  intros HQ. unfold loadUserRoleRecords. rewrite bool_decide_eq_false_2 by done.
  apply tx_query_clean. intros ev d' a Hd [= <-]. by apply HQ.
Qed.

Lemma tx_protect L d l Q :
  (protectSuperAdmin l = Ok tt → Q tt (Clean L d)) → tx (Output := Output) (lift (protectSuperAdmin l)) (Clean L d) Q.
Proof. intros HQ. apply tx_lift. intros [] Hp. auto. Qed.

Lemma replace_roles_body_tx id ids d :
  sys_inv d → tx (replace_roles_body id ids) (Clean [] d) (λ _ v, guarantee (held_rows v) (committed v) (current v)).
Proof.
  intros HI. unfold replace_roles_body. set (L := [UserRow id]). apply tx_bind, tx_FirstForUpdate; [|by intros; apply tx_bind, tx_found].
  intros d1 u Hd1 Hu Hl. apply tx_bind, tx_found. intros ? _. apply tx_bind, tx_loadUserRoleRecords. intros d2 Hd2.
  rewrite bool_decide_eq_true_2 by (by apply list_elem_of_singleton). apply tx_bind, tx_protect. intros Hp%protect_not_administrator; [|apply Hd2].
  apply tx_bind, tx_validateUserRoles; [apply Hd2|]. intros ids' d3 Hd3 Hns. case_bool_decide; [apply tx_ret, guarantee_refl|].
  apply tx_bind. unfold deleteUserRoles. apply tx_exec. intros ev v [] (d4 & -> & Hd4) _. apply tx_insertUserRoles. simpl.
  assert (later L d1 d4) as Hd14 by (eapply later_trans, Hd4; by eapply later_trans).
  assert (UserRow id ∈ L) as Hin by (by left).
  apply (replace_assignments_step L d4 id (sort_ids ids')); [by eapply later_live|done| |].
  - eapply (later_not_administrator L d2); [apply Hd2|by eapply later_trans| |done]. rewrite (later_user _ _ _ _ Hd2 Hin). by eexists.
  - intros r Hr. eapply later_not_super; [apply Hd3|exact Hd4|]. apply Hns. unfold sort_ids in Hr. by rewrite merge_sort_Permutation in Hr.
Qed.

Lemma delete_user_body_tx id d :
  sys_inv d → tx (delete_user_body id) (Clean [] d) (λ _ v, guarantee (held_rows v) (committed v) (current v)).
Proof.
  intros HI. unfold delete_user_body. set (L := [UserRow id]). apply tx_bind, tx_FirstForUpdate; [|by intros; apply tx_bind, tx_found].
  intros d1 u Hd1 Hu Hl. apply tx_bind, tx_found. intros ? _. assert (UserRow id ∈ L) as Hin by (by left).
  apply tx_bind. unfold findUserRecord. apply tx_bind, tx_First. intros d2 Hd2. apply tx_bind, tx_found. intros u2 _.
  apply tx_bind, tx_loadUserRoleRecords. intros d3 Hd3. assert (later L d1 d3) as Hd13 by (by eapply later_trans).
  assert (∀ v names, (∃ d4, v = Clean L d4 ∧ later L d1 d4 ∧ sys_evolves d3 d4) →
    tx (lift (protectSuperAdmin (ur_Roles (user_record names (λ user, if bool_decide (user ∈ [id]) then roles_of d3 user else []) (id, u2))));;
        deleteUserRoles InTx id;; Update InTx sys_user id (λ _, true) delete_user_row;; mret ()) v
      (λ _ v, guarantee (held_rows v) (committed v) (current v))) as Hrest.
  { intros v names (d4 & -> & Hd4 & He). apply tx_bind, tx_protect. simpl. rewrite bool_decide_eq_true_2 by (by apply list_elem_of_singleton).
    intros Hp%protect_not_administrator; [|apply Hd3].
    apply tx_bind. unfold deleteUserRoles. apply tx_exec. intros ev v [] (d5 & -> & Hd5) _. cbn [written held_rows committed fst].
    assert (later L d1 d5) as Hd15 by (by eapply later_trans). set (d6 := { d5 with user_roles := filter (λ p : Z * Z, p.1 ≠ id) (user_roles d5) }).
    apply tx_bind. unfold Update. apply tx_exec. intros ev2 v n -> _. apply tx_ret. cbn [written held_rows committed current fst]. fold d6.
    assert (users d6 !! id = Some u) as Hu6 by (simpl; by rewrite (later_user _ _ _ _ Hd15 Hin)).
    apply (guarantee_trans _ _ d6).
    - pose proof (replace_assignments_step L d5 id []) as Hs. simpl in Hs. rewrite union_empty_r_L in Hs. apply Hs.
      + by eapply later_live.
      + done.
      + eapply (not_administrator_stable d3 d5); [apply Hd3|apply Hd15|etrans; [exact He|apply Hd5]| |done].
        rewrite (later_user _ _ _ _ Hd13 Hin). by eexists.
      + by intros r Hr%elem_of_nil.
    - destruct (update_row_cases sys_user id (λ _, true) (delete_user_row (ev_clock ev2)) d6) as [->|(u' & Hu' & Hl' & _ & _ & Hc & ->)]; [apply guarantee_refl|].
      simpl in Hu', Hl', Hc. apply (user_row_step _ _ _ u'); try done; [|by right; right]. right. intros r [Hr _]%elem_of_filter. by simpl in Hr. }
  unfold loadUserDepartmentNames. case_bool_decide.
  - apply tx_bind, tx_ret, tx_ret, Hrest. exists d3. split_and!; [done|done|reflexivity].
  - apply tx_bind, tx_query_clean. intros ev d4 names Hd4 _. apply tx_ret, Hrest. exists d4. split_and!; [done|by eapply later_trans|apply Hd4].
Qed.

Lemma CreateWithRoles_safe u ids : safe (CreateWithRoles u ids).
Proof. apply safe_map_error, safe_transact. intros d HI. by apply create_with_roles_body_tx. Qed.
Lemma ReplaceRoles_safe id ids : safe (ReplaceRoles id ids).
Proof. apply safe_map_error, safe_transact. intros d HI. by apply replace_roles_body_tx. Qed.
Lemma DeleteUser_safe id : safe (DeleteUser id).
Proof. apply safe_map_error, safe_transact. intros d HI. by apply delete_user_body_tx. Qed.
End transactions.

(** ** Roles *)

Section roles.
Context `{PgLib, PgText, CasbinAdapter, PolicyNotifier}.

Hint Resolve safe_First safe_found safe_affected safe_map_error : safe.

Lemma ListEnabledRoleIDs_safe u : safe (ListEnabledRoleIDs Auto u).
Proof. unfold ListEnabledRoleIDs. safe_auto. Qed.
Lemma IsSuperAdmin_safe u : safe (IsSuperAdmin Auto u).
Proof. unfold IsSuperAdmin. safe_auto. Qed.
Lemma ListRoles_safe q : safe (ListRoles Auto q).
Proof. unfold ListRoles. safe_auto. Qed.
Lemma FindRole_safe id : safe (FindRole Auto id).
Proof. unfold FindRole. safe_auto. Qed.
Lemma ListRoleAPIIDs_safe id : safe (ListRoleAPIIDs Auto id).
Proof. unfold ListRoleAPIIDs. safe_auto. Qed.

Lemma CreateRole_safe r : safe (CreateRole Auto r).
Proof.
  unfold CreateRole. case_bool_decide as Hc; [eauto with safe|]. apply safe_map_error, safe_stmt. intros ev d.
  destruct (insert_row_cases sys_role (new_role r (ev_clock ev)) d) as [[e ->]|(_ & _ & Hconf & ->)]; [apply guarantee_refl|].
  simpl. by apply role_create_step.
Qed.

(** A role is read, and later changed in a way its immutable part allows. *)
Lemma safe_from_update_role d id P upd :
  (∀ now d1 r, sys_inv d1 → sys_evolves d d1 → roles d1 !! id = Some r → role_error (upd now r) = None →
     ro_IsSystem (upd now r) = ro_IsSystem r ∧ ro_DeletedAt (upd now r) = ro_DeletedAt r ∧
     (ro_IsSystem r = true → ro_Code (upd now r) = ro_Code r) ∧
     (ro_Code (upd now r) = SuperAdminRoleCode → ro_Code r = SuperAdminRoleCode ∧
        (ro_Status (upd now r) = RecordStatusEnabled ∨ ro_Status (upd now r) = ro_Status r))) →
  safe_from d (Update Auto sys_role id P upd).
Proof.
  intros Hupd. apply safe_from_stmt. intros ev d1 HI He.
  destruct (update_row_cases sys_role id P (upd (ev_clock ev)) d1) as [->|(r & Hr & Hl & _ & Herr & Hc & ->)]; [apply guarantee_refl|].
  simpl in *. destruct (Hupd (ev_clock ev) d1 r HI He Hr Herr) as (Hs & Hd & Hk & Hn).
  assert (live_role (upd (ev_clock ev) r) = true) as Hl' by (unfold live_role in *; by rewrite Hd).
  eapply role_row_step; try done; [intros Hx; by apply Hn| |by left]. intros Hx. split; [|done].
  destruct (Hn Hx) as [Hsup [?|E]]; [done|]. rewrite E. by destruct (si_super _ HI _ _ Hr Hsup) as (_ & ? & _).
Qed.


Lemma UpdateRole_safe id u : safe (UpdateRole Auto id u).
Proof.
  apply safe_safe_from. intros d. unfold UpdateRole. guard as E; [eauto with safe|]. apply safe_from_query. intros ev d1 row HI1 He1 [= <-].
  unfold found. destruct (live_row sys_role d1 id) as [r|] eqn:Hr; [|by intros o; apply wp_bind, wp_fail]. apply live_row_Some in Hr as [Hr _].
  intros o. apply wp_bind, wp_ret. destruct (ro_IsSystem r && _) eqn:E1; [by apply wp_fail|]. destruct (bool_decide _ && _) eqn:E2; [by apply wp_fail|].
  apply (safe_from_bind (map_error _ _)); [|intros; apply safe_affected]. apply safe_from_map_error, safe_from_update_role.
  intros now d2 r2 HI2 He2 Hr2 _. destruct (sy_roles _ _ He2 _ _ Hr) as (r2' & Hr2' & Hsys & Hcode & _). simpl in Hr. simplify_eq.
  split_and!; [done|done| |].
  - intros Hs2. rewrite Hsys in Hs2. rewrite Hs2 in E1. simpl in E1. to_prop. simpl. by rewrite E1, Hcode by auto.
  - intros Hsup. simpl in Hsup. split; [|by right]. rewrite Hsup, bool_decide_eq_true_2 in E2 by done. simpl in E2. to_prop.
    rewrite Hcode; auto.
Qed.

Lemma UpdateRoleStatus_safe id s : safe (UpdateRoleStatus Auto id s).
Proof.
  apply safe_safe_from. intros d. unfold UpdateRoleStatus. guard as E; [eauto with safe|]. apply safe_from_query. intros ev d1 row HI1 He1 [= <-].
  unfold found. destruct (live_row sys_role d1 id) as [r|] eqn:Hr; [|by intros o; apply wp_bind, wp_fail]. apply live_row_Some in Hr as [Hr _].
  intros o. apply wp_bind, wp_ret. destruct (ro_IsSystem r && _) eqn:E1; [by apply wp_fail|]. guard as E2; [by apply wp_ret|].
  apply (safe_from_bind (Update _ _ _ _ _)); [|intros; apply safe_affected]. apply safe_from_update_role.
  intros now d2 r2 HI2 He2 Hr2 Herr. destruct (sy_roles _ _ He2 _ _ Hr) as (r2' & Hr2' & Hsys & _ & _). simpl in Hr. simplify_eq.
  split_and!; [done..|]. intros Hsup. split; [done|left]. simpl in *. destruct (si_super _ HI2 _ _ Hr2 Hsup) as (_ & _ & Hs2).
  rewrite Hsys in Hs2. rewrite Hs2 in E1. simpl in E1. to_prop. apply role_error_status in Herr. by destruct s.
Qed.
End roles.

(** * Replacing the API policies of a role

    apps/system/internal/authorization/policy_service.go under interference: a replacement
    leaves a role with exactly the policies of the required and the selected enabled APIs,
    and touches no other role; a deleted role keeps no policies and no menus. *)

(** The policies of a role are exactly those of the required and the selected APIs. *)
Definition exact_policies (r : Z) (ids : list Z) (d : DB) : Prop :=
  ∀ p, (p ∈ policies d ∧ RoleSubject r = Ok p.1.1) ↔
    ∃ id a, apis d !! id = Some a ∧ enabled_api (id, a) = true ∧ (a_IsRequired a = true ∨ id ∈ ids) ∧
            PolicyRule r (a_Path a) (a_Method a) = Ok p.

(** Every selected API is enabled. *)
Definition selectable (ids : list Z) (d : DB) : Prop := ∀ id, id ∈ ids → ∃ a, apis d !! id = Some a ∧ enabled_api (id, a) = true.

Definition others_kept (r : Z) (d d' : DB) : Prop := ∀ p, RoleSubject r ≠ Ok p.1.1 → p ∈ policies d' ↔ p ∈ policies d.

Section policies.
Context `{PgLib, PgText, CasbinAdapter, PolicyNotifier} (AD : adapter_documented).

Lemma PolicyRule_subject r path method p : PolicyRule r path method = Ok p → RoleSubject r = Ok p.1.1.
Proof.
  unfold PolicyRule, result_bind. destruct (RoleSubject r); [|done]. cbv zeta. destruct (bool_decide _ || negb _); [done|].
  case_bool_decide; [done|]. by intros [= <-].
Qed.

Lemma elem_of_resourceRules r l ps : resourceRules r l = Ok ps →
  ∀ p, p ∈ ps ↔ ∃ x, x ∈ l ∧ PolicyRule r (a_Path x.2) (a_Method x.2) = Ok p.
Proof.
  revert ps. induction l as [|x l IH]; intros ps; simpl.
  { intros [= <-] p. split; [by intros ?%elem_of_nil|by intros (x & ?%elem_of_nil & _)]. }
  unfold result_bind. destruct (PolicyRule r _ _) as [q|] eqn:E; [|done]. destruct (resourceRules r l) as [qs|]; [|done].
  intros [= <-] p. rewrite elem_of_cons, (IH qs) by done. split.
  - intros [->|(y & Hy & ?)]; [exists x|exists y]; (split; [by constructor|done]).
  - intros (y & [->|Hy]%elem_of_cons & Hp); [left; congruence|right; eauto].
Qed.

Lemma elem_of_target_apis ids d id a :
  (id, a) ∈ target_apis ids d ↔ apis d !! id = Some a ∧ enabled_api (id, a) = true ∧ (a_IsRequired a = true ∨ id ∈ ids).
Proof.
  unfold target_apis. rewrite list_elem_of_filter, elem_of_rows. simpl.
  rewrite andb_true_iff, orb_true_iff, bool_decide_eq_true. naive_solver.
Qed.

(** As many enabled rows as distinct identities: each identity has one. *)
Lemma counted_selectable ids d :
  NoDup ids → length (filter (λ r : Z * API, (enabled_api r && bool_decide (r.1 ∈ ids)) = true) (rows (apis d))) = length ids →
  selectable ids d.
Proof.
  intros Hnd Hlen. set (F := filter _ _) in Hlen.
  assert (NoDup F.*1) as HndF.
  { unfold F. clear. pose proof (NoDup_rows (apis d)) as Hn. induction (rows (apis d)) as [|x l IH]; [constructor|].
    rewrite fmap_cons in Hn. apply NoDup_cons in Hn as [Hx Hn]. rewrite filter_cons. case_decide; [|by apply IH].
    rewrite fmap_cons. apply NoDup_cons. split; [|by apply IH]. intros (y & Ey & Hy)%list_elem_of_fmap. apply Hx.
    apply list_elem_of_filter in Hy as [_ Hy]. apply list_elem_of_fmap. eauto. }
  assert (F.*1 ⊆+ ids) as Hsub.
  { apply NoDup_submseteq; [done|]. intros i (y & -> & Hy)%list_elem_of_fmap. apply list_elem_of_filter in Hy as [Hy _]. by to_prop. }
  assert (F.*1 ≡ₚ ids) as Hperm by (apply submseteq_length_Permutation; [done|rewrite length_fmap; lia]).
  intros id Hin. rewrite <-Hperm in Hin. apply list_elem_of_fmap in Hin as ([k a] & -> & Hy).
  apply list_elem_of_filter in Hy as [He Hrow]. apply elem_of_rows in Hrow. exists a. to_prop. by split.
Qed.

Lemma policyDifference_same current target :
  ¬ (0 < length (policyDifference current target).2)%nat → ¬ (0 < length (policyDifference current target).1)%nat →
  ∀ p : PolicyRow, p ∈ current ↔ p ∈ target.
Proof.
  unfold policyDifference. simpl. intros N1 N2 p.
  destruct (elements (list_to_set target ∖ list_to_set current : gset PolicyRow)) eqn:E1; [|simpl in N1; lia].
  destruct (elements (list_to_set current ∖ list_to_set target : gset PolicyRow)) eqn:E2; [|simpl in N2; lia].
  apply elements_empty_inv in E1. apply elements_empty_inv in E2. specialize (E1 p). specialize (E2 p).
  rewrite elem_of_difference, !elem_of_list_to_set, elem_of_empty in E1, E2.
  destruct (decide (p ∈ current)), (decide (p ∈ target)); tauto.
Qed.

(** The facts a replacement establishes in the database it commits. *)
Definition replaced (r : Z) (ids : list Z) (v : View DB Lock) : Prop :=
  guarantee (held_rows v) (committed v) (current v) ∧ exact_policies r ids (current v) ∧ selectable ids (current v) ∧
  others_kept r (committed v) (current v) ∧
  ∃ row, roles (current v) !! r = Some row ∧ live_role row = true ∧ ro_Status row = RecordStatusEnabled ∧ ro_Code row ≠ SuperAdminRoleCode.

Lemma tx_loadTargetResources ids L d Q :
  sys_inv d → NoDup ids → (∀ d', later L d d' → selectable ids d' → Q (target_apis ids d') (Clean L d')) →
  tx (loadTargetResources InTx ids) (Clean L d) Q.
Proof.
  intros HI Hnd HQ. unfold loadTargetResources.
  assert (∀ d1, later L d d1 → selectable ids d1 → tx (Output := Output) (query InTx (λ _ d, Ok (target_apis ids d))) (Clean L d1) Q) as Hload.
  { intros d1 Hd1 Hsel. apply tx_query_clean. intros ev d' a Hd [= <-]. apply HQ; [by eapply later_trans|].
    intros id Hin. destruct (Hsel id Hin) as (x & Hx & ?). exists x. split; [|done]. by destruct Hd as (_ & He & _); rewrite (sy_apis _ _ He). }
  apply tx_bind. case_bool_decide as E.
  - apply tx_ret, Hload; [by apply later_refl|]. subst. by intros ? ?%elem_of_nil.
  - apply tx_bind, tx_query_clean. intros ev d' n Hd [= <-]. cbn beta. guard as E2; [apply tx_fail|]. to_prop.
    apply tx_ret, Hload; [done|]. by apply counted_selectable.
Qed.

Lemma tx_loadCurrentRules r L d Q :
  (∀ d' s, later L d d' → RoleSubject r = Ok s → Q (LoadFilteredPolicy (policies d') s) (Clean L d')) →
  tx (loadCurrentRules InTx r) (Clean L d) Q.
Proof.
  intros HQ. unfold loadCurrentRules. apply tx_bind, tx_lift. intros s Hs. apply tx_query_clean. intros ev d' a Hd [= <-]. by apply HQ.
Qed.

Lemma later_policies L d d' r p :
  later L d d' → RoleRow r ∈ L → is_Some (roles d !! r) → RoleSubject r = Ok p.1.1 → p ∈ policies d' ↔ p ∈ policies d.
Proof. intros (_ & _ & Hr) Hin Hs Hp. destruct (Hr _ Hin) as [_ Hg]. destruct (Hg Hs) as (_ & Hpol & _). by apply Hpol. Qed.

Lemma exact_policies_apis r ids d d' R :
  apis d' = apis d → policies d' = R → (∀ p, (p ∈ R ∧ RoleSubject r = Ok p.1.1) ↔ ∃ x, x ∈ target_apis ids d ∧ PolicyRule r (a_Path x.2) (a_Method x.2) = Ok p) →
  exact_policies r ids d'.
Proof.
  intros Ha <- Hp p. rewrite Hp, Ha. split.
  - intros ([id a] & (? & ? & ?)%elem_of_target_apis & ?). by exists id, a.
  - intros (id & a & ? & ? & ? & ?). exists (id, a). split; [by apply elem_of_target_apis|done].
Qed.

(** Writing the policies of a role whose row is held. *)
Lemma role_policies_step L d r R :
  RoleRow r ∈ L → role_live d r → ¬ super_role d r →
  (∀ p, p ∈ R → p ∈ policies d ∨ RoleSubject r = Ok p.1.1) → (∀ p, p ∈ policies d → p ∈ R ∨ RoleSubject r = Ok p.1.1) →
  guarantee L d { d with policies := R }.
Proof.
  intros Hin Hl Hs Hadd Hrem.
  change { d with policies := R } with { d with user_roles := user_roles d; role_menus := role_menus d; policies := R }.
  apply relations_step. split; [by left|done|by left| |].
  - intros p Hp. destruct (Hadd _ Hp); [by left|right]. by exists r.
  - intros p Hp. destruct (Hrem _ Hp); [by left|right]. by exists r.
Qed.

Lemma replace_role_apis_body_tx r ids d :
  sys_inv d → NoDup ids → tx (replace_role_apis_body r ids) (Clean [] d) (λ _ v, replaced r ids v).
Proof.
  intros HI Hnd. unfold replace_role_apis_body. set (L := [RoleRow r]). apply tx_bind, tx_FirstForUpdate; [|by intros; apply tx_bind, tx_found].
  intros d1 row Hd1 Hr Hl. apply tx_bind, tx_found. intros ? [= <-]. simpl in Hr, Hl. guard as Est; [apply tx_fail|]. guard as Ecode; [apply tx_fail|]. to_prop.
  assert (RoleRow r ∈ L) as Hin by (by left).
  apply tx_bind, tx_loadTargetResources; [apply Hd1|done|]. intros d2 Hd2 Hsel. apply tx_bind, tx_loadCurrentRules. intros d3 s Hd3 Hs.
  apply tx_bind, tx_lift. intros target Htarget. destruct (policyDifference _ target) as [removed added] eqn:Ediff.
  assert (later L d1 d3) as Hd13 by (by eapply later_trans).
  assert (∀ d', later L d1 d' → roles d' !! r = Some row) as Hrow by (intros d' Hd; by rewrite (later_role _ _ _ _ Hd Hin)).
  assert (∀ d', later L d1 d' → selectable ids d' ∧ apis d' = apis d2) as Hap.
  { intros d' (_ & He & _). assert (apis d' = apis d2) as E by (rewrite (sy_apis _ _ He); symmetry; by apply sy_apis; apply Hd2).
    split; [|done]. intros id Hi. rewrite E. by apply Hsel. }
  assert (∃ row', Some row = Some row' ∧ live_role row' = true ∧ ro_Status row' = RecordStatusEnabled ∧ ro_Code row' ≠ SuperAdminRoleCode) as Hfinal by (by exists row).
  pose proof (elem_of_resourceRules _ _ _ Htarget) as Hres.
  guard as Ech.
  { apply tx_ret. apply negb_true_iff, orb_false_iff in Ech as [N1 N2]. apply Nat.ltb_ge in N1, N2. simpl in *.
    unfold replaced. simpl. rewrite Hrow by done. destruct (Hap _ Hd13). split_and!; [apply guarantee_refl| |done|done|done].
    eapply (exact_policies_apis r ids d2); [done|done|]. intros p. rewrite <-Hres.
    rewrite <-(policyDifference_same (LoadFilteredPolicy (policies d3) s) target) by (rewrite Ediff; simpl; lia).
    rewrite (load_documented AD). split; [intros [? E]; by rewrite Hs in E; simplify_eq|intros [? <-]; done]. }
  apply tx_bind, tx_lift. intros s' Hs'. rewrite Hs in Hs'. simplify_eq. apply tx_bind. unfold removePolicies. apply tx_exec.
  intros ev v [] (d4 & -> & Hd4) _. assert (later L d1 d4) as Hd14 by (by eapply later_trans). simpl.
  assert (∀ R, (∀ p, p ∈ R ↔ (p ∈ policies d4 ∧ p.1.1 ≠ s') ∨ p ∈ target) → replaced r ids (Dirty L d4 { d4 with policies := R })) as Hdone.
  { intros R HR. unfold replaced. simpl. rewrite Hrow by done. destruct (Hap _ Hd14). split_and!; [| |done| |done].
    - apply (role_policies_step L d4 r R); [done|by exists row; split; [apply Hrow|]| | |].
      + intros (row' & Hr' & Hc). rewrite Hrow in Hr' by done. congruence.
      + intros p [[? _]|Hp]%HR; [by left|right]. apply Hres in Hp as (x & _ & Hx). by eapply PolicyRule_subject.
      + intros p Hp. destruct (decide (p.1.1 = s')) as [->|]; [by right|left; apply HR; by left].
    - eapply (exact_policies_apis r ids d2); [done|done|]. intros p. rewrite <-Hres, HR. split.
      + intros [[[_ ?]|?] E]; [|done]. rewrite Hs in E. by simplify_eq.
      + intros Hp. split; [by right|]. apply Hres in Hp as (x & _ & Hx). by eapply PolicyRule_subject.
    - intros p Hp. simpl. rewrite HR. split; [|intros ?; left; split; [done|by intros <-]]. intros [[? _]|Ht]; [done|]. destruct Hp.
      apply Hres in Ht as (x & _ & Hx). by eapply PolicyRule_subject. }
  assert (∀ p, p ∈ RemoveFilteredPolicy (policies d4) s' ↔ p ∈ policies d4 ∧ p.1.1 ≠ s') as Hrem by (intros p; apply (remove_documented AD)).
  apply tx_bind. case_bool_decide as Et.
  - apply tx_ret, tx_ret, Hdone. intros p. rewrite Hrem, Et. rewrite elem_of_nil. tauto.
  - unfold addPolicies. apply tx_exec. intros ev2 v2 [] -> Hadd. simpl in *. destruct (AddPolicies _ target) as [R|] eqn:ER; [|done].
    apply tx_ret. apply (Hdone R). intros p. rewrite (add_documented AD _ _ _ ER), Hrem. done.
Qed.

(** ** Deleting a role *)

(** Removing what belongs to a role that is not the super administrator's. *)
Lemma role_relations_step L d r :
  ¬ super_role d r →
  guarantee L d { d with user_roles := filter (λ p : Z * Z, p.2 ≠ r) (user_roles d); role_menus := filter (λ p : Z * Z, p.1 ≠ r) (role_menus d) }.
Proof.
  intros Hs.
  change { d with user_roles := ?UR; role_menus := ?RM } with { d with user_roles := UR; role_menus := RM; policies := policies d }.
  apply relations_step. split.
  - intros u k [_ ?]%elem_of_filter. by left.
  - intros u k Hk Hin. apply elem_of_filter. split; [|done]. simpl. by intros ->.
  - intros k m [_ ?]%elem_of_filter. by left.
  - by left.
  - by left.
Qed.

(** Whatever a transaction finds next, the held role has no policies left. *)
Definition stripped (r : Z) (row : Role) (v : View DB Lock) : Prop :=
  guarantee (held_rows v) (committed v) (current v) ∧ roles (current v) !! r = Some row ∧ ¬ super_role (current v) r ∧
  ∀ p, p ∈ policies (current v) → RoleSubject r ≠ Ok p.1.1.

(** The rest of a deletion: menus, assignments, and the row itself. *)
Lemma tx_delete_stripped r row n v :
  ro_IsSystem row = false → live_role row = true → (∀ v', finds v v' → stripped r row v') →
  tx (exec InTx (λ _ d, ({ d with role_menus := filter (λ p : Z * Z, p.1 ≠ r) (role_menus d) }, Ok tt));;
      exec InTx (λ _ d, ({ d with user_roles := filter (λ p : Z * Z, p.2 ≠ r) (user_roles d) }, Ok tt));;
      Update InTx sys_role r (λ _, true) delete_role_row;; mret (n : nat)) v
    (λ _ v, guarantee (held_rows v) (committed v) (current v)).
Proof.
  intros Hsys Hlive Hv. apply tx_bind, tx_exec. intros ev v1 [] Hf _. destruct (Hv _ Hf) as (Hg & Hr & Hs & Hp).
  set (d1 := current v1) in *. apply tx_bind, tx_exec. intros ev2 v2 [] -> _. apply tx_bind. unfold Update. apply tx_exec.
  intros ev3 v3 k -> _. apply tx_ret. cbn [written held_rows committed current fst].
  set (d2 := { { d1 with role_menus := filter (λ p : Z * Z, p.1 ≠ r) (role_menus d1) } with user_roles := _ }).
  apply (guarantee_trans _ _ d1); [done|]. apply (guarantee_trans _ _ d2); [by apply (role_relations_step _ d1)|].
  destruct (update_row_cases sys_role r (λ _, true) (delete_role_row (ev_clock ev3)) d2) as [->|(row' & Hr' & Hl' & _ & _ & Hc & ->)]; [apply guarantee_refl|].
  simpl in Hr', Hc. rewrite Hr in Hr'. simplify_eq.
  apply (role_row_step _ _ _ row'); try done.
  - intros Hcode. destruct Hs. by exists row'.
  - right. split; [done|]. intros m [Hm _]%elem_of_filter. by simpl in Hm.
Qed.

Lemma later_stripped L d d' r row s :
  later L d d' → RoleRow r ∈ L → roles d !! r = Some row → ¬ super_role d' r → RoleSubject r = Ok s →
  LoadFilteredPolicy (policies d) s = [] → stripped r row (Clean L d').
Proof.
  intros Hd Hin Hr Hs Hsub Hno. split_and!; simpl; [apply guarantee_refl|by rewrite (later_role _ _ _ _ Hd Hin)|done|].
  intros p Hp E. apply (later_policies _ _ _ _ p Hd Hin) in Hp; [|by eexists|done].
  assert (p ∈ LoadFilteredPolicy (policies d) s) as Hl by (apply (load_documented AD); split; [done|congruence]). rewrite Hno in Hl. by apply elem_of_nil in Hl.
Qed.

Lemma delete_role_body_tx r d :
  sys_inv d → tx (delete_role_body r) (Clean [] d) (λ _ v, guarantee (held_rows v) (committed v) (current v)).
Proof.
  intros HI. unfold delete_role_body. set (L := [RoleRow r]). apply tx_bind, tx_FirstForUpdate; [|by intros; apply tx_bind, tx_found].
  intros d1 row Hd1 Hr Hl. apply tx_bind, tx_found. intros ? [= <-]. simpl in Hr, Hl. guard as Esys; [apply tx_fail|].
  assert (RoleRow r ∈ L) as Hin by (by left).
  apply tx_bind, tx_query_clean. intros ev d2 assigned Hd2 _. guard as Eassigned; [apply tx_fail|].
  apply tx_bind, tx_loadCurrentRules. intros d3 s Hd3 Hs. assert (later L d1 d3) as Hd13 by (by eapply later_trans).
  assert (∀ d', later L d1 d' → roles d' !! r = Some row ∧ ¬ super_role d' r) as Hrow.
  { intros d' Hd. rewrite (later_role _ _ _ _ Hd Hin). split; [done|]. intros (row' & Hr' & Hc). rewrite (later_role _ _ _ _ Hd Hin), Hr in Hr'.
    simplify_eq. destruct Hd1 as (HI1 & _). destruct (si_super _ HI1 _ _ Hr Hc) as (_ & _ & ?). congruence. }
  apply tx_bind. case_bool_decide as E.
  - apply tx_ret, (tx_delete_stripped r row); [done..|]. intros v' (d4 & -> & Hd4).
    assert (later L d3 d4) as Hd34 by done. apply (later_stripped L d3 d4 r row s); try done; apply Hrow; [done|by eapply later_trans].
  - apply tx_bind, tx_lift. intros s' Hs'. rewrite Hs in Hs'. simplify_eq. unfold removePolicies. apply tx_exec.
    intros ev2 v [] (d4 & -> & Hd4) _. assert (later L d1 d4) as Hd14 by (by eapply later_trans). destruct (Hrow _ Hd14) as [Hr4 Hs4].
    apply (tx_delete_stripped r row); [done..|]. intros v' ->.
    assert (∀ p, p ∈ RemoveFilteredPolicy (policies d4) s' ↔ p ∈ policies d4 ∧ p.1.1 ≠ s') as Hrem by (intros p; apply (remove_documented AD)).
    split_and!; simpl; [|done|done|intros p [_ Hp]%Hrem Ep; rewrite Hs in Ep; by simplify_eq].
    apply (role_policies_step L d4 r); [done|by exists row|done| |].
    + intros p [? _]%Hrem. by left.
    + intros p Hp. destruct (decide (p.1.1 = s')) as [->|]; [by right|left; by apply Hrem].
Qed.

Lemma publish_safe : safe publish.
Proof. unfold publish. safe_step; [by apply safe_attempt, safe_rpc|]. safe_auto. Qed.

Lemma normalizedIDs_spec ids ids' : normalizedIDs ids = Ok ids' → NoDup ids' ∧ ∀ id, id ∈ ids' ↔ id ∈ ids.
Proof.
  unfold normalizedIDs. destruct (existsb _ ids); [done|]. intros [= <-]. unfold sort_ids. split.
  - rewrite merge_sort_Permutation. apply NoDup_remove_dups.
  - intros id. rewrite merge_sort_Permutation. apply elem_of_remove_dups.
Qed.

Lemma DeleteRole_safe r : safe (DeleteRole r).
Proof.
  unfold DeleteRole. guard as E; [eauto with safe|]. safe_step; [apply safe_transact; intros d HI; by apply delete_role_body_tx|].
  safe_step; [case_match; [apply publish_safe|eauto with safe]|eauto with safe].
Qed.

(** After a confirmed replacement the role has exactly the policies that were asked for. *)
Lemma ReplaceRoleAPIs_wp r ids d o :
  wp (ReplaceRoleAPIs r ids) d o (λ res d' _, is_fail res = false →
    exact_policies r ids d' ∧ selectable ids d' ∧
    ∃ row, roles d' !! r = Some row ∧ live_role row = true ∧ ro_Status row = RecordStatusEnabled ∧ ro_Code row ≠ SuperAdminRoleCode).
Proof.
  unfold ReplaceRoleAPIs. guard as E; [by apply wp_fail|]. apply wp_bind, wp_lift. destruct (normalizedIDs ids) as [ids'|e] eqn:Hids; [|done].
  destruct (normalizedIDs_spec _ _ Hids) as [Hnd Hmem]. apply wp_bind, wp_transact; [done|]. intros d1 HI He.
  eapply tx_mono; [by apply replace_role_apis_body_tx|]. intros res v _ _ (Hg & Hexact & Hsel & _ & Hrow).
  assert (exact_policies r ids (current v) ∧ selectable ids (current v)) as [Hexact' Hsel'].
  { split; [|intros id Hin; by apply Hsel, Hmem]. intros p. rewrite (Hexact p). setoid_rewrite Hmem. done. }
  split; [done|]. destruct (Changed res); [|by apply wp_ret]. apply wp_bind. unfold publish. apply wp_bind, wp_attempt, wp_rpc. intros n.
  destruct (notify_answer n); [apply wp_bind, wp_emit|]; apply wp_ret, wp_ret; done.
Qed.
End policies.
