(* ===== verification/SysOps.v ===== *)
(** * All operations of the System domain

    Departments, menus, the first administrator and the handlers keep the protocol, so any
    interleaving of the operations of any number of nodes does.  The last part is a concrete deployment
    on which the theorems apply. *)

From S2P Require Import Prelude GoLib GoText Tx Model TaskRepo InstanceRepo JobRepo RpcErrors Redis LoginProtection.
From S2P Require Import System.
From S2P Require Import SysModel UserRepo RoleRepo MenuRepo Accounts SysLogic Logic SysProtocol SysRules.

Open Scope Z_scope.

(** ** Departments and menus *)

Section trees.
Context `{PgLib, PgText}.

Hint Resolve safe_First safe_found safe_affected safe_map_error : safe.

Lemma lift_error_safe e : safe (lift_error e).
Proof. unfold lift_error. safe_auto. Qed.
Hint Resolve lift_error_safe : safe.
Lemma ListDepartments_safe : safe (ListDepartments Auto).
Proof. apply safe_query. Qed.
Lemma FindDepartment_safe id : safe (FindDepartment Auto id).
Proof. unfold FindDepartment. safe_auto. Qed.
Lemma validate_safe id p : safe (validate Auto id p).
Proof. unfold validate. safe_step; [apply ListDepartments_safe|safe_auto]. Qed.

Lemma Update_department_safe id P upd : safe (Update Auto sys_department id P upd).
Proof.
  apply safe_stmt. intros ev d.
  destruct (update_row_cases sys_department id P (upd (ev_clock ev)) d) as [->|(x & Hx & Hl & _ & _ & _ & ->)]; [apply guarantee_refl|].
  by apply (department_row_step _ _ _ x).
Qed.

Lemma CreateDepartment_safe x : safe (CreateDepartment Auto x).
Proof.
  unfold CreateDepartment. case_bool_decide; [eauto with safe|]. safe_step; [apply validate_safe|]. apply safe_map_error, safe_stmt. intros ev d.
  destruct (insert_row_cases sys_department (new_department x (ev_clock ev)) d) as [[e ->]|(_ & _ & _ & ->)]; [apply guarantee_refl|].
  simpl. apply department_create_step.
Qed.
Lemma UpdateDepartment_safe id x : safe (UpdateDepartment Auto id x).
Proof.
  unfold UpdateDepartment. guard as E; [eauto with safe|]. case_bool_decide; [eauto with safe|]. safe_step; [apply validate_safe|].
  safe_step; [apply safe_map_error, Update_department_safe|safe_auto].
Qed.
Lemma UpdateDepartmentStatus_safe id s : safe (UpdateDepartmentStatus Auto id s).
Proof. unfold UpdateDepartmentStatus. guard as E; [eauto with safe|]. safe_step; [apply Update_department_safe|safe_auto]. Qed.

Lemma delete_department_body_tx id d :
  tx (delete_department_body id) (Clean [] d) (λ _ v, guarantee (held_rows v) (committed v) (current v)).
Proof.
  unfold delete_department_body. apply tx_bind, tx_First. intros d1 _. apply tx_bind, tx_found. intros x _.
  apply tx_bind, tx_query_clean. intros ev d2 child _ _. guard as E1; [apply tx_fail|].
  apply tx_bind, tx_query_clean. intros ev2 d3 member _ _. guard as E2; [apply tx_fail|].
  apply tx_bind. unfold Update. apply tx_exec. intros ev3 v n (d4 & -> & _) _. apply tx_ret. simpl.
  destruct (update_row_cases sys_department id (λ _, true) (delete_department_row (ev_clock ev3)) d4) as [->|(y & Hy & Hl & _ & _ & _ & ->)]; [apply guarantee_refl|].
  by apply (department_row_step _ _ _ y).
Qed.
Lemma DeleteDepartment_safe id : safe (DeleteDepartment id).
Proof. unfold DeleteDepartment. guard as E; [eauto with safe|]. apply safe_transact. intros d _. apply delete_department_body_tx. Qed.

Lemma ListMenus_safe : safe (ListMenus Auto).
Proof. apply safe_query. Qed.
Lemma FindMenu_safe id : safe (FindMenu Auto id).
Proof. unfold FindMenu. safe_auto. Qed.
Lemma ListMenuIDs_safe ids : safe (ListMenuIDs Auto ids).
Proof. unfold ListMenuIDs. safe_auto. Qed.

Lemma Update_menu_safe id P upd : (∀ now m, m_AppCode (upd now m) = m_AppCode m) → safe (Update Auto sys_menu id P upd).
Proof.
  intros Hcode. apply safe_stmt. intros ev d.
  destruct (update_row_cases sys_menu id P (upd (ev_clock ev)) d) as [->|(m & Hm & Hl & _ & _ & _ & ->)]; [apply guarantee_refl|].
  by apply (menu_row_step _ _ _ m).
Qed.
Lemma CreateMenu_safe m : safe (CreateMenu Auto m).
Proof.
  unfold CreateMenu. safe_step; [apply ListMenus_safe|]. safe_step; [eauto with safe|]. apply safe_map_error, safe_stmt. intros ev d.
  destruct (insert_row_cases sys_menu (new_menu m (ev_clock ev)) d) as [[e ->]|(_ & _ & _ & ->)]; [apply guarantee_refl|]. simpl. apply menu_create_step.
Qed.
Lemma UpdateMenu_safe id m : safe (UpdateMenu Auto id m).
Proof.
  unfold UpdateMenu. guard as E; [eauto with safe|]. safe_step; [apply ListMenus_safe|]. safe_step; [eauto with safe|].
  safe_step; [apply safe_map_error; by apply Update_menu_safe|safe_auto].
Qed.
Lemma UpdateMenuStatus_safe id s : safe (UpdateMenuStatus Auto id s).
Proof. unfold UpdateMenuStatus. guard as E; [eauto with safe|]. safe_step; [by apply Update_menu_safe|safe_auto]. Qed.

(** Only grants of live roles whose row is held are added. *)
Lemma role_menus_step L d RM :
  (∀ r m, (r, m) ∈ RM → (r, m) ∈ role_menus d ∨ (role_live d r ∧ ¬ super_role d r ∧ RoleRow r ∈ L)) →
  guarantee L d { d with role_menus := RM }.
Proof.
  intros HRM. change { d with role_menus := RM } with { d with user_roles := user_roles d; role_menus := RM; policies := policies d }.
  apply relations_step. split; [by left|done|exact HRM|by left|by left].
Qed.

Lemma delete_menu_body_tx id d :
  tx (delete_menu_body id) (Clean [] d) (λ _ v, guarantee (held_rows v) (committed v) (current v)).
Proof.
  unfold delete_menu_body, FindMenu. apply tx_bind. guard as E0; [apply tx_fail|]. apply tx_bind, tx_query_clean. intros ev d1 row _ _.
  apply tx_found. intros m _. apply tx_bind, tx_query_clean. intros ev2 d2 child _ _. guard as E1; [apply tx_fail|].
  apply tx_bind, tx_exec. intros ev3 v [] (d3 & -> & _) _. apply tx_bind. unfold Update. apply tx_exec. intros ev4 v n -> _. apply tx_ret.
  cbn [written held_rows committed current fst]. set (d4 := { d3 with role_menus := filter (λ p : Z * Z, p.2 ≠ id) (role_menus d3) }).
  apply (guarantee_trans _ _ d4).
  - apply role_menus_step. intros r k [_ ?]%elem_of_filter. by left.
  - destruct (update_row_cases sys_menu id (λ _, true) (delete_menu_row (ev_clock ev4)) d4) as [->|(x & Hx & Hl & _ & _ & _ & ->)]; [apply guarantee_refl|].
    by apply (menu_row_step _ _ _ x).
Qed.
Lemma DeleteMenu_safe id : safe (DeleteMenu id).
Proof. unfold DeleteMenu. guard as E; [eauto with safe|]. apply safe_transact. intros d _. apply delete_menu_body_tx. Qed.

Lemma replace_role_menus_body_tx r ids d :
  sys_inv d → tx (replace_role_menus_body r ids) (Clean [] d) (λ _ v, guarantee (held_rows v) (committed v) (current v)).
Proof.
  intros HI. unfold replace_role_menus_body. set (L := [RoleRow r]). apply tx_bind, tx_FirstForUpdate; [|by intros; apply tx_bind, tx_found].
  intros d1 row Hd1 Hr Hl. apply tx_bind, tx_found. intros ? [= <-]. guard as E1; [apply tx_fail|]. guard as E2; [apply tx_fail|]. to_prop.
  assert (RoleRow r ∈ L) as Hin by (by left). apply tx_bind, tx_query_clean. intros ev d2 menus Hd2 _.
  apply tx_bind, tx_lift. intros ids' _. apply tx_bind. unfold ListMenuIDs. rewrite bool_decide_eq_false_2 by done.
  apply tx_query_clean. intros ev2 d3 granted Hd3 _. case_bool_decide; [apply tx_ret, guarantee_refl|].
  apply tx_bind, tx_exec. intros ev3 v [] (d4 & -> & Hd4) _. cbn [written held_rows committed current fst].
  assert (later L d1 d4) as Hd14 by (eapply later_trans, Hd4; by eapply later_trans).
  set (RM := filter (λ p : Z * Z, p.1 = r → other_application d4 p.2) (role_menus d4)).
  assert (∀ p, p ∈ RM → p ∈ role_menus d4) as HRM by (intros p [_ ?]%elem_of_filter; done).
  case_bool_decide.
  - apply tx_ret. apply role_menus_step. intros k m Hk. left. by apply HRM.
  - apply tx_exec. intros ev4 v n -> Hn. cbv zeta in *. case_bool_decide; [|done].
    change (guarantee L d4 { d4 with role_menus := RM ∪ list_to_set ((λ id, (r, id)) <$> ids') }).
    apply role_menus_step. intros k m [Hk|Hk]%elem_of_union; [left; by apply HRM|right].
    apply elem_of_list_to_set, list_elem_of_fmap in Hk as (x & [= -> ->] & _). simpl in Hr, Hl.
    split_and!; [exists row; by rewrite (later_role _ _ _ _ Hd14 Hin)| |done].
    intros (row' & Hr' & Hc). rewrite (later_role _ _ _ _ Hd14 Hin), Hr in Hr'. by simplify_eq.
Qed.
Lemma ReplaceRoleMenus_safe r ids : safe (ReplaceRoleMenus r ids).
Proof. unfold ReplaceRoleMenus. guard as E; [eauto with safe|]. apply safe_transact. intros d HI. by apply replace_role_menus_body_tx. Qed.
End trees.

(** ** The first administrator *)

Section bootstrap.
Context `{PgLib, PgText, BcryptLib}.

Lemma tx_rpc {A} (f : nat → Result A) v Q : (∀ n a, f n = Ok a → Q a v) → tx (DB := DB) (Lock := Lock) (Output := Output) (rpc f) v Q.
Proof. intros HQ w <- Hr HI. unfold rpc. split_and!; try done; try reflexivity. destruct (f (w_at w)) eqn:E; [by eapply HQ|done]. Qed.

(** Nobody is the administrator while the role's row is held and was found unassigned. *)
Lemma later_no_administrator L d d' r :
  sys_inv d → later L d d' → RoleRow r ∈ L → super_role d r → (∀ u, (u, r) ∉ user_roles d) → ∀ u, ¬ administrator d' u.
Proof.
  intros HI (HI' & He & Hr) Hin Hs Hno u (r' & Hu & Hs'). destruct (Hr _ Hin) as [_ Hg].
  destruct Hs as (row & Hrow & Hc). destruct Hg as (_ & _ & _ & Hsup); [by eexists|]. destruct Hsup as [Hs2 Hkeep]; [by exists row|].
  rewrite (super_role_unique d' r' r) in Hu by done. by apply (Hno u), Hkeep.
Qed.

Lemma unassigned_none d r : bool_decide (r ∈ (elements (user_roles d)).*2) = false → ∀ u, (u, r) ∉ user_roles d.
Proof.
  intros Hb%bool_decide_eq_false u Hin. apply Hb, list_elem_of_fmap. exists (u, r). split; [done|]. by apply elem_of_elements.
Qed.

(** The new user, with or without its department, and its assignment. *)
Lemma administrator_step L d u department r :
  RoleRow r ∈ L → (∀ k, ¬ administrator d k) → live_user u = true → u_Status u = RecordStatusEnabled → user_conflict (next_user d) u d = None →
  let d1 := { set_user (next_user d) u d with next_user := next_user d + 1 } in
  ∀ d2, d2 = d1 ∨ (∃ now, d2 = set_user (next_user d) (department_id_row department now u) d1) →
  guarantee L d { d2 with user_roles := user_roles d2 ∪ list_to_set ((λ x, (next_user d, x)) <$> [r]) }.
Proof.
  intros Hin Hno Hl Hs Hc d1 d2 Hd2.
  assert (∀ u', u' = u ∨ (∃ now, u' = department_id_row department now u) →
    guarantee L d { set_user (next_user d) u' d with next_user := next_user d + 1; user_roles := user_roles d ∪ list_to_set ((λ x, (next_user d, x)) <$> [r]) }) as Hcreate.
  { intros u' Hu'. apply user_create_step; [by destruct Hu' as [->|[now ->]]|by destruct Hu' as [->|[now ->]]|right].
    split_and!; [by destruct Hu' as [->|[now ->]]|done|]. by intros x ->%list_elem_of_singleton _. }
  destruct Hd2 as [->|[now ->]]; [by apply Hcreate; left|].
  pose proof (Hcreate (department_id_row department now u)) as Hg. unfold d1, set_user. unfold set_user in Hg. simpl.
  rewrite insert_insert_eq. apply Hg. right. by exists now.
Qed.

Lemma bootstrap_body_tx input d :
  sys_inv d → tx (bootstrap_body input) (Clean [] d) (λ _ v, guarantee (held_rows v) (committed v) (current v)).
Proof.
  intros HI. unfold bootstrap_body. apply tx_bind, tx_query_clean. intros ev d1 seeded Hd1 [= <-].
  destruct (head _) as [[r row]|] eqn:Eh; [|apply tx_bind, tx_fail]. apply tx_bind, tx_ret. simpl.
  assert (super_role d1 r) as Hs1.
  { apply head_Some_elem_of, list_elem_of_filter in Eh as [Hx Hrow%elem_of_rows]. to_prop. exists row. split; [done|].
    match goal with Hs : is_super _ = true |- _ => unfold is_super in Hs; by to_prop end. }
  set (L := [RoleRow r]). apply tx_bind, tx_FirstForUpdate; [|intros; apply tx_fail]. intros d2 locked Hd2 _ _.
  assert (RoleRow r ∈ L) as Hin by (by left).
  apply tx_bind, tx_query_clean. intros ev2 d3 assigned Hd3 [= <-]. guard as Ea; [apply tx_fail|].
  assert (super_role d3 r) as Hs3 by (eapply super_role_grows, super_role_grows, Hs1; apply sy_roles; [apply Hd3|apply Hd2]).
  apply tx_bind. unfold CreateAdministrator. cbv zeta. apply tx_bind, tx_lift. intros _ _. guard as En; [apply tx_fail|].
  apply tx_bind, tx_lift. intros _ _. apply tx_bind. unfold Hash. apply tx_bind, tx_lift. intros _ _. apply tx_rpc. intros n hash _.
  unfold CreateUser, Create. apply tx_exec. intros ev3 v id (d4 & -> & Hd4). simpl.
  set (u := new_user _ _). destruct (insert_row_cases sys_user u d4) as [[e ->]|(_ & _ & Hc & ->)]; [done|]. simpl. intros [= <-].
  assert (later L d3 d4) as Hd34 by done.
  apply tx_bind, tx_query. intros ev4 v x -> _. simpl. destruct x as [x|]; [|apply tx_fail].
  apply tx_bind. unfold Update. apply tx_exec. intros ev5 v n2 -> _. simpl.
  set (d5 := { set_user (next_user d4) u d4 with next_user := next_user d4 + 1 }).
  apply tx_bind, tx_insertUserRoles, tx_ret. cbn [held_rows committed current].
  apply (administrator_step L d4 u x.1 r); try done.
  - eapply later_no_administrator; [apply Hd3|exact Hd34|done|done|by apply unassigned_none].
  - destruct (update_row_cases sys_user (next_user d4) (λ _, true) (department_id_row x.1 (ev_clock ev5)) d5) as [->|(u' & Hu' & _ & _ & _ & _ & ->)]; [by left|].
    right. simpl in Hu'. rewrite lookup_insert_eq in Hu'. simplify_eq. by exists (ev_clock ev5).
Qed.

Lemma CreateInitialAdministrator_safe input : safe (CreateInitialAdministrator input).
Proof. apply safe_transact. intros d HI. by apply bootstrap_body_tx. Qed.
End bootstrap.

(** ** Handlers *)

Section handlers.
Context `{PgLib, PgText, BcryptLib, MailLib, Services, CasbinAdapter, PolicyNotifier, UrlLib} (AD : adapter_documented).

Lemma InvalidArgument_safe {A} message : safe (InvalidArgument (A := A) message).
Proof. apply safe_fail. Qed.
Lemma Hash_safe password : safe (Hash password).
Proof. unfold Hash. safe_auto. Qed.
Lemma call_safe {A} (f : nat → Result A) effect : safe (call f effect).
Proof. unfold call. safe_auto. Qed.
Lemma RevokeAll_safe u : safe (RevokeAll u).
Proof. apply call_safe. Qed.
Hint Resolve InvalidArgument_safe Hash_safe call_safe RevokeAll_safe safe_map_error safe_found safe_affected : safe.
Hint Resolve findUserRecord_safe FindByID_safe FindByUsername_safe UpdateLastLoginAt_safe UpdatePasswordHash_safe UpdateContacts_safe
  UpdateProfile_safe UpdateStatus_safe CreateWithRoles_safe ReplaceRoles_safe DeleteUser_safe ValidateRoles_safe : safe.
Hint Resolve CreateRole_safe UpdateRole_safe UpdateRoleStatus_safe DeleteRole_safe : safe.
Hint Resolve CreateDepartment_safe UpdateDepartment_safe UpdateDepartmentStatus_safe DeleteDepartment_safe CreateMenu_safe UpdateMenu_safe
  UpdateMenuStatus_safe DeleteMenu_safe ReplaceRoleMenus_safe : safe.

Lemma managedUser_safe operator id b : safe (managedUser operator id b).
Proof. unfold managedUser, FindWithRoles. safe_auto. Qed.
Lemma recordLogin_safe u name b reason in_ : safe (recordLogin u name b reason in_).
Proof. unfold recordLogin. safe_auto. Qed.
Lemma unavailable_safe {A} : safe (unavailable (A := A)).
Proof. apply safe_fail. Qed.
Hint Resolve managedUser_safe recordLogin_safe unavailable_safe : safe.
Lemma recordFailure_safe cfg name : safe (recordFailure cfg name).
Proof. unfold recordFailure. safe_auto. Qed.
Lemma login_issue_safe cfg id in_ : safe (login_issue cfg id in_).
Proof. unfold login_issue. safe_auto. Qed.
Hint Resolve recordFailure_safe login_issue_safe : safe.
Lemma login_verify_safe cfg row in_ : safe (login_verify cfg row in_).
Proof. unfold login_verify. safe_auto. Qed.
Hint Resolve login_verify_safe : safe.
Lemma LoginLogic_safe in_ : safe (LoginLogic in_).
Proof. unfold LoginLogic. safe_auto. Qed.

Lemma ReplaceRoleAPIs_safe r ids : safe (ReplaceRoleAPIs r ids).
Proof. intros d o. eapply wp_safe, ReplaceRoleAPIs_wp, AD. Qed.

(** ** Operations of any node *)

Hint Resolve LoginLogic_safe ReplaceRoleAPIs_safe CreateInitialAdministrator_safe : safe.

Lemma operation_safe op : safe (run op).
Proof.
  destruct op; simpl; unfold discard, CreateUserLogic, UpdateUserLogic, UpdateUserStatusLogic, DeleteUserLogic, ReplaceUserRolesLogic,
    ResetUserPasswordLogic, RevokeUserSessionsLogic, UpdateProfileLogic, ChangePasswordLogic, GetCurrentUserLogic, CreateRoleLogic, UpdateRoleLogic,
    UpdateRoleStatusLogic, DeleteRoleLogic, ReplaceRoleAPIsLogic, CreateDepartmentLogic, UpdateDepartmentLogic, UpdateDepartmentStatusLogic,
    DeleteDepartmentLogic, CreateMenuLogic, UpdateMenuLogic, UpdateMenuStatusLogic, DeleteMenuLogic, ReplaceRoleMenusLogic; safe_auto.
Qed.

(** Operations of any nodes, one after the other, each with interference. *)
Inductive steps : relation DB :=
| steps_refl d : steps d d
| steps_op d d1 op env w r : steps d d1 → rely env → run op (start d1 env) = (w, r) → steps d (w_db w).

Lemma operation_start op d env w r :
  rely env → sys_inv d → run op (start d env) = (w, r) →
  Forall keeps (w_commits w) ∧ sys_inv (w_db w) ∧ sys_evolves d (w_db w).
Proof.
  intros Hr HI E. pose proof (operation_safe op d [] (start d env) eq_refl eq_refl Hr HI) as Hs. rewrite E in Hs.
  destruct Hs as (_ & (l & Hl & Hf) & HI' & He & _). simpl in Hl. subst l. done.
Qed.

Lemma operations_evolve d d' : steps d d' → sys_inv d → sys_inv d' ∧ sys_evolves d d'.
Proof.
  induction 1 as [|d d1 op env w r Hst IH Hr E]; intros HI; [by split|].
  destruct (IH HI) as [HI1 He1]. destruct (operation_start _ _ _ _ _ Hr HI1 E) as (_ & HI2 & He2). split; [done|by etrans].
Qed.
End handlers.

(** * A concrete System deployment

    Executable instances of the parameters of the System domain (lower case, bcrypt, mail
    addresses, the Casbin adapter, the other services) and a small database with the seeded
    administrator, on which the theorems apply. *)

#[global] Instance demo_lower : PgText := ToLower.
#[global] Instance demo_bcrypt : BcryptLib := {|
  GenerateFromPassword := λ p _, Ok ("$2a$" +:+ p)%string;
  CompareHashAndPassword := λ h p, if bool_decide (h = ("$2a$" +:+ p)%string) then Ok tt else Fail [ErrMismatchedHashAndPassword] |}.
#[global] Instance demo_mail : MailLib := λ s, Some s.
#[global] Instance demo_url : UrlLib := λ _, None.
#[global] Instance demo_notifier : PolicyNotifier := λ _, Ok tt.
#[global] Instance demo_casbin : CasbinAdapter := {|
  LoadFilteredPolicy := λ R s, elements (filter (λ p : PolicyRow, p.1.1 = s) R);
  RemoveFilteredPolicy := λ R s, filter (λ p : PolicyRow, p.1.1 ≠ s) R;
  AddPolicies := λ R l, Ok (R ∪ list_to_set l) |}.
Definition demo_security : LoginSecurityConfig :=
  {| ls_RateLimitEnabled := false; ls_RateLimitWindowSeconds := 60; ls_RateLimitMaxRequests := 100; ls_FailureLockEnabled := true;
     ls_FailureWindowSeconds := 300; ls_FailureThreshold := 5; ls_LockDurationSeconds := 600 |}.
#[global] Instance demo_services : Services := {|
  RevokeAnswer := λ _ _, Ok tt; IssueAnswer := λ _ _, Ok ("access", "refresh", 900)%string; SecurityAnswer := λ _, Ok demo_security;
  LockedAnswer := λ _ _, Ok false; FailAnswer := λ _ _ _, Ok tt; ClearAnswer := λ _ _, Ok tt; LoginLogAnswer := λ _, Ok tt |}.

Lemma demo_adapter : adapter_documented.
Proof.
  split; simpl.
  - intros R s p. rewrite elem_of_elements, elem_of_filter. tauto.
  - intros R s p. rewrite elem_of_filter. tauto.
  - intros R l R' [= <-] p. by rewrite elem_of_union, elem_of_list_to_set.
Qed.

Definition demo_user (name password : string) : User :=
  {| u_Username := name; u_PasswordHash := "$2a$" +:+ password; u_Nickname := name; u_Email := None; u_Phone := None; u_DepartmentID := Some 1;
     u_Status := RecordStatusEnabled; u_LastLoginAt := None; u_Remark := ""; u_CreatedAt := 0; u_UpdatedAt := 0; u_DeletedAt := None |}.
Definition demo_role (code : string) (system : bool) : Role :=
  {| ro_Code := code; ro_Name := code; ro_Description := ""; ro_Sort := 0; ro_Status := RecordStatusEnabled; ro_IsSystem := system;
     ro_CreatedAt := 0; ro_UpdatedAt := 0; ro_DeletedAt := None |}.
Definition demo_api (name path method : string) (required : bool) : API :=
  {| a_ServiceName := "system"; a_Group := "user"; a_Name := name; a_Path := path; a_Method := method; a_IsRequired := required;
     a_Status := RecordStatusEnabled; a_Remark := ""; a_CreatedAt := 0; a_UpdatedAt := 0; a_DeletedAt := None |}.
Definition demo_department (name : string) (parent : option Z) : Department :=
  {| d_ParentID := parent; d_Name := name; d_Sort := 0; d_Status := RecordStatusEnabled; d_Remark := ""; d_CreatedAt := 0; d_UpdatedAt := 0;
     d_DeletedAt := None |}.
Definition demo_menu (type : MenuType) (parent : option Z) (name path permission : string) : Menu :=
  {| m_AppCode := MenuAppAdminWeb; m_ParentID := parent; m_Type := type; m_Name := name; m_RouteName := name; m_Path := path; m_Component := "";
     m_Permission := permission; m_Icon := ""; m_Sort := 0; m_Visible := true; m_Status := RecordStatusEnabled; m_KeepAlive := false;
     m_External := false; m_Remark := ""; m_CreatedAt := 0; m_UpdatedAt := 0; m_DeletedAt := None |}.

(** The administrator (1) and an editor (2), who may read reports. *)
Definition demo_db : DB := {|
  users := {[1 := demo_user "root" "Root-2026"; 2 := demo_user "alice" "Alice-2026"]};
  roles := {[1 := demo_role SuperAdminRoleCode true; 2 := demo_role "editor" false]};
  apis := {[1 := demo_api "profile" "/profile" "get" true; 2 := demo_api "reports" "/reports" "get" false;
            3 := demo_api "users" "/users" "post" false]};
  departments := {[1 := demo_department "head" None; 2 := demo_department "sales" (Some 1); 3 := demo_department "legal" (Some 1)]};
  menus := {[1 := demo_menu MenuTypeDirectory None "Home" "/home" ""; 2 := demo_menu MenuTypePage (Some 1) "Reports" "/home/reports" "";
             3 := demo_menu MenuTypeElement (Some 2) "Export" "" "report:export"]};
  user_roles := {[(1, 1); (2, 2)]}; role_menus := {[(2, 1)]}; policies := {[("r:2", "/reports", "GET")]}%string;
  next_user := 3; next_role := 3; next_department := 4; next_menu := 4 |}.

(** No interference and no failure. *)
Definition calm : nat → Event := λ n, quiet (1000 + Z.of_nat n).

Lemma quiet_rely : rely calm.
Proof. intros n L d HI. split_and!; [done|reflexivity|intros l _; split; reflexivity]. Qed.

(** ** The database satisfies the invariant *)

Ltac demo_rows := repeat match goal with
  | H : <[_ := _]> _ !! _ = Some _ |- _ => apply lookup_insert_Some in H as [[? ?]|[? H]]
  | H : {[_ := _]} !! _ = Some _ |- _ => apply lookup_singleton_Some in H as [? ?]
  | H : _ ∈ {[_; _]} |- _ => apply elem_of_union in H as [H|H]
  | H : _ ∈ {[_]} |- _ => apply elem_of_singleton in H
  end; simplify_eq.

Lemma demo_inv : sys_inv demo_db.
Proof.
  split; cbn [users roles departments menus user_roles role_menus policies next_user next_role next_department next_menu demo_db].
  - intros id u Hu. demo_rows; lia.
  - intros id u Hu. demo_rows; lia.
  - intros id u Hu. demo_rows; lia.
  - intros id u Hu. demo_rows; lia.
  - lia.
  - intros i j a b k Ha Hb _ _ Ka Kb. demo_rows; done.
  - intros i j a b k Ha Hb _ _ Ka Kb. demo_rows; done.
  - intros i j a b k Ha Hb _ _ Ka Kb. demo_rows; done.
  - intros i j a b k Ha Hb _ _ Ka Kb. demo_rows; done.
  - intros id r Hr Hc. demo_rows; done.
  - by exists 1, (demo_role SuperAdminRoleCode true).
  - intros u r Hin. demo_rows; eexists; by split.
  - intros u (r & Hin & _). simpl in Hin. demo_rows; eexists; by split.
  - intros u v (r & Hin & row & Hr & Hc) (r' & Hin' & row' & Hr' & Hc'). simpl in *. demo_rows; done.
  - intros r m Hin. demo_rows. split; [eexists; by split|]. intros (row & Hr & Hc). simpl in Hr. demo_rows; done.
  - intros p Hin. demo_rows. exists 2. split_and!; [done|eexists; by split|]. intros (row & Hr & Hc). simpl in Hr. demo_rows; done.
Qed.
