(* ===== verification/SysTrees.v ===== *)
(** * The department and menu trees

    The loops of validateDepartmentTree and validateMenuTree against inductive definitions
    of what they look for, and what that means for the stored trees: operations that nobody
    disturbs keep every department and every menu below a root.  The
    second part is the walk of the navigation of a caller. *)

From S2P Require Import Prelude GoLib GoText Tx Model TaskRepo InstanceRepo JobRepo RpcErrors Redis LoginProtection.
From S2P Require Import SysModel UserRepo RoleRepo MenuRepo Accounts SysLogic.

Open Scope Z_scope.

(** ** Paths to the root *)

Section paths.
Context (nodes : Parents).

(** From [p] the parents lead to a root without meeting [id]. *)
Inductive rooted (id : Z) : Z → Prop :=
| rooted_root p : p ≠ id → nodes !! p = Some None → rooted id p
| rooted_step p q : p ≠ id → nodes !! p = Some (Some q) → rooted id q → rooted id p.

(** From [p] they lead out of the table. *)
Inductive dangling (id : Z) : Z → Prop :=
| dangling_here p q : p ≠ id → nodes !! p = Some (Some q) → nodes !! q = None → dangling id p
| dangling_step p q : p ≠ id → nodes !! p = Some (Some q) → dangling id q → dangling id p.

(** [q] is [p] or one of its ancestors. *)
Inductive ascends : Z → Z → Prop :=
| ascends_refl p : is_Some (nodes !! p) → ascends p p
| ascends_step p q r : nodes !! p = Some (Some q) → ascends q r → ascends p r.

Lemma ascends_snoc p q r : ascends p q → nodes !! q = Some (Some r) → is_Some (nodes !! r) → ascends p r.
Proof. induction 1 as [p|p q s Hp Hq IH]; intros Hr Hs; [|by eapply ascends_step, IH]. by eapply ascends_step, ascends_refl. Qed.

Lemma ascends_trans p q r : ascends p q → ascends q r → ascends p r.
Proof. induction 1 as [|p q s Hp _ IH]; intros Hr; [done|]. by eapply ascends_step, IH. Qed.

Context (invalid cycle : Cause) (id : Z) (Hne : invalid ≠ cycle).

(** The rows already visited lead to the current one, which leads to them no more. *)
Lemma climb_None fuel visited p parent :
  nodes !! p = Some parent → climb nodes invalid cycle id fuel visited p parent = None → rooted id p.
Proof.
  revert visited p parent. induction fuel as [|fuel IH]; intros visited p parent Hp; [done|]. simpl.
  destruct (p =? id) eqn:E1; [done|]. case_bool_decide; [done|]. simpl. apply Z.eqb_neq in E1.
  destruct parent as [q|]; [|intros _; by apply rooted_root]. destruct (nodes !! q) as [parent'|] eqn:Eq; [|done].
  intros Hc. eapply rooted_step; [done..|by eapply IH].
Qed.

Lemma climb_invalid fuel visited p parent :
  nodes !! p = Some parent → climb nodes invalid cycle id fuel visited p parent = Some [invalid] → dangling id p.
Proof.
  revert visited p parent. induction fuel as [|fuel IH]; intros visited p parent Hp; simpl; [intros [= ?]; congruence|].
  destruct (p =? id) eqn:E1; [intros [= ?]; congruence|]. case_bool_decide; [intros [= ?]; congruence|]. simpl. apply Z.eqb_neq in E1.
  destruct parent as [q|]; [|done]. destruct (nodes !! q) as [parent'|] eqn:Eq.
  - intros Hc. eapply dangling_step; [done..|by eapply IH].
  - intros _. by eapply dangling_here.
Qed.

(** The number of steps to the end of a path. *)
Inductive path : nat → Z → option Error → Prop :=
| path_root p : p ≠ id → nodes !! p = Some None → path 1 p None
| path_out p q : p ≠ id → nodes !! p = Some (Some q) → nodes !! q = None → path 1 p (Some [invalid])
| path_step n p q e : p ≠ id → nodes !! p = Some (Some q) → path n q e → path (S n) p e.

Lemma path_det n p e : path n p e → ∀ m e', path m p e' → n = m.
Proof.
  induction 1 as [p Hn Hp|p q Hn Hp Hq|n p q e Hn Hp Hr IH]; intros m e' Hm; inversion Hm; simplify_eq; try done.
  - by match goal with Hx : path _ q _ |- _ => inversion Hx; simplify_eq end.
  - inversion Hr; simplify_eq.
  - f_equal. by eapply IH.
Qed.

(** A path meets no row twice, so the climb follows it to its end. *)
Lemma climb_path n : ∀ fuel visited p parent e, path n p e → nodes !! p = Some parent → (n ≤ fuel)%nat →
  (∀ v, v ∈ visited → ∀ m e', path m v e' → (n < m)%nat) → climb nodes invalid cycle id fuel visited p parent = e.
Proof.
  induction n as [|n IH]; intros fuel visited p parent e Hpath Hp Hfuel Hv; [inversion Hpath|].
  destruct fuel as [|fuel]; [lia|]. simpl.
  assert (p ≠ id) as Hid by (by inversion Hpath). rewrite (proj2 (Z.eqb_neq _ _) Hid). simpl.
  assert (p ∉ visited) as Hnv by (intros Hin; specialize (Hv _ Hin _ _ Hpath); lia). rewrite bool_decide_eq_false_2 by done.
  inversion Hpath as [? ? Hp'|? q ? Hp' Hq|? ? q ? ? Hp' Hq]; simplify_eq; [done|by rewrite Hq|].
  assert (∃ parent', nodes !! q = Some parent') as [parent' Hq'] by (inversion Hq; by eexists). rewrite Hq'.
  apply IH; [done..|lia|]. intros v [->%elem_of_singleton|Hin]%elem_of_union m e' Hm.
  - pose proof (path_det _ _ _ Hpath _ _ Hm). lia.
  - specialize (Hv _ Hin _ _ Hm). lia.
Qed.

Lemma rooted_path p : rooted id p → ∃ n, path n p None.
Proof. induction 1 as [p|p q ? ? ? [n Hn]]; [by exists 1%nat; constructor|exists (S n); by econstructor]. Qed.
Lemma dangling_path p : dangling id p → ∃ n, path n p (Some [invalid]).
Proof. induction 1 as [p q|p q ? ? ? [n Hn]]; [by exists 1%nat; econstructor|exists (S n); by econstructor]. Qed.

(** A path visits as many different rows as it is long. *)
Lemma path_length n : ∀ p e (seen : gset Z), path n p e → seen ⊆ dom nodes → (∀ v, v ∈ seen → ∀ m e', path m v e' → (n < m)%nat) →
  (n + size seen ≤ size nodes)%nat.
Proof.
  clear Hne cycle. induction n as [|n IH]; intros p e seen Hpath Hs Hseen; [inversion Hpath|].
  assert (p ∈ dom nodes) as Hp by (inversion Hpath; by apply elem_of_dom).
  assert (p ∉ seen) as Hns by (intros Hin; specialize (Hseen _ Hin _ _ Hpath); lia).
  assert (size ({[p]} ∪ seen) = S (size seen)) as Esz by (rewrite size_union, size_singleton; [done|set_solver]).
  assert (({[p]} ∪ seen) ⊆ dom nodes) as Hsub by set_solver.
  destruct n as [|n].
  - apply subseteq_size in Hsub. rewrite Esz, size_dom in Hsub. lia.
  - inversion Hpath as [| |? ? q ? ? Hp' Hq]; simplify_eq.
    specialize (IH q e ({[p]} ∪ seen) Hq Hsub). rewrite Esz in IH. enough (S n + S (size seen) ≤ size nodes)%nat by lia. apply IH.
    intros v [->%elem_of_singleton|Hin]%elem_of_union m e' Hm.
    + pose proof (path_det _ _ _ Hpath _ _ Hm). lia.
    + specialize (Hseen _ Hin _ _ Hm). lia.
Qed.

(** The climb decides between a root, a missing row, and a cycle (or the row itself); the
    turns allowed are enough. *)
Lemma climb_spec p parent :
  nodes !! p = Some parent →
  let r := climb nodes invalid cycle id (S (size nodes)) ∅ p parent in
  (r = None ↔ rooted id p) ∧ (r = Some [invalid] ↔ dangling id p) ∧ (r = Some [cycle] ↔ ¬ rooted id p ∧ ¬ dangling id p).
Proof.
  intros Hp r.
  assert (∀ n e, path n p e → r = e) as Hpath.
  { intros n e Hn. apply (climb_path n); [done..| |by intros ? ?%elem_of_empty].
    assert (n + size (∅ : gset Z) ≤ size nodes)%nat as Hl by (eapply (path_length n p e); [done|set_solver|by intros ? ?%elem_of_empty]). lia. }
  assert (r = None ↔ rooted id p) as H1.
  { split; [by apply climb_None|]. intros [n Hn]%rooted_path. by eapply Hpath. }
  assert (r = Some [invalid] ↔ dangling id p) as H2.
  { split; [by apply climb_invalid|]. intros [n Hn]%dangling_path. by eapply Hpath. }
  split_and!; [done..|]. rewrite <-H1, <-H2. clear Hpath H1 H2.
  assert (∀ fuel visited q parent', climb nodes invalid cycle id fuel visited q parent' ∈ [None; Some [invalid]; Some [cycle]]) as Hrange.
  { induction fuel as [|fuel IH]; intros visited q parent'; simpl; [by do 2 right; left|].
    destruct (_ || _); [by do 2 right; left|]. destruct parent' as [z|]; [|by left]. destruct (nodes !! z); [apply IH|by right; left]. }
  specialize (Hrange (S (size nodes)) ∅ p parent). fold r in Hrange. split; [intros ->; by split; [|congruence]|].
  intros [N1 N2]. set_unfold. naive_solver.
Qed.
End paths.

(** ** The menus of a role *)

Section grants.
Context (nodes : gmap Z Menu).
Let parents : Parents := m_ParentID <$> nodes.

Lemma lookup_menu_parents p v : parents !! p = Some v ↔ ∃ m, nodes !! p = Some m ∧ v = m_ParentID m.
Proof. unfold parents. rewrite lookup_fmap_Some. naive_solver. Qed.

(** Granted menus come with their ancestors, which end at a root. *)
Definition closed_under (granted : gset Z) : Prop :=
  ∀ k, k ∈ granted → rooted parents 0 k ∧ ∀ r, ascends parents k r → r ∈ granted.

Lemma grant_sound granted fuel : ∀ visited id V,
  nodes !! 0 = None → closed_under granted → grant nodes granted fuel visited id = Some V →
  rooted parents 0 id ∧ ∀ k, k ∈ V ∪ granted ↔ k ∈ visited ∪ granted ∨ ascends parents id k.
Proof.
  induction fuel as [|fuel IH]; intros visited id V H0 Hc; [done|]. simpl. destruct (nodes !! id) as [m|] eqn:Em; [|done].
  assert (id ≠ 0) by (intros ->; congruence). assert (parents !! id = Some (m_ParentID m)) as Ep by (apply lookup_menu_parents; eauto).
  case_bool_decide; [done|]. case_bool_decide as Hg.
  { intros [= <-]. split; [by apply Hc|]. intros k. split; [by left|]. intros [?|Ha]; [done|]. apply elem_of_union_r. by apply (Hc id). }
  destruct (m_ParentID m) as [p|] eqn:Emp.
  - intros HV. destruct (IH _ _ _ H0 Hc HV) as [Hr Hk]. split; [by eapply rooted_step|]. intros k. rewrite Hk. split.
    + intros [[[Hk1%elem_of_singleton|?]%elem_of_union|?]%elem_of_union|Ha].
      * subst. right. apply ascends_refl. by eexists.
      * left. by apply elem_of_union_l.
      * left. by apply elem_of_union_r.
      * right. by eapply ascends_step.
    + intros [[?|?]%elem_of_union|Ha]; [left; set_solver|left; set_solver|]. inversion Ha; simplify_eq; [left; set_solver|by right].
  - intros [= <-]. split; [by apply rooted_root|]. intros k. split.
    + intros [[Hk1%elem_of_singleton|?]%elem_of_union|?]%elem_of_union; [|left; set_solver|left; set_solver].
      subst. right. apply ascends_refl. by eexists.
    + intros [?|Ha]; [set_solver|]. inversion Ha; simplify_eq; set_solver.
Qed.

Lemma grant_total granted n : ∀ fuel visited id,
  path parents ErrMenuParentInvalid 0 n id None → (n ≤ fuel)%nat →
  (∀ v, v ∈ visited → ∀ m e', path parents ErrMenuParentInvalid 0 m v e' → (n < m)%nat) →
  is_Some (grant nodes granted fuel visited id).
Proof.
  induction n as [|n IH]; intros fuel visited id Hp Hf Hv; [inversion Hp|]. destruct fuel as [|fuel]; [lia|]. simpl.
  assert (∃ m, nodes !! id = Some m) as [m Em] by (inversion Hp as [? ? Hx| |? ? ? ? ? Hx]; apply lookup_menu_parents in Hx as (m & ? & _); eauto).
  rewrite Em. rewrite bool_decide_eq_false_2 by (intros Hin; specialize (Hv _ Hin _ _ Hp); lia).
  case_bool_decide; [by eexists|]. destruct (m_ParentID m) as [p|] eqn:Emp; [|by eexists].
  assert (parents !! id = Some (Some p)) as Ep by (apply lookup_menu_parents; exists m; by rewrite Emp).
  inversion Hp as [? ? Hx| |? ? q ? ? Hx Hq]; simplify_eq. apply IH; [done|lia|].
  intros v [->%elem_of_singleton|Hin]%elem_of_union k e' Hk.
  - pose proof (path_det _ _ _ _ _ _ Hp _ _ Hk). lia.
  - specialize (Hv _ Hin _ _ Hk). lia.
Qed.

Lemma grant_rooted granted id : rooted parents 0 id → is_Some (grant nodes granted (S (size nodes)) ∅ id).
Proof.
  intros Hr. destruct (rooted_path _ ErrMenuParentInvalid _ _ Hr) as [n Hn]. apply (grant_total _ n); [done| |by intros ? ?%elem_of_empty].
  assert (n + size (∅ : gset Z) ≤ size parents)%nat as Hl by (apply (path_length parents ErrMenuParentInvalid 0 n id None); [done|set_solver|by intros ? ?%elem_of_empty]).
  unfold parents in Hl. rewrite map_size_fmap in Hl. lia.
Qed.

Lemma grant_all_spec selected : ∀ granted,
  nodes !! 0 = None → closed_under granted →
  match grant_all nodes granted selected with
  | Some G => (∀ s, s ∈ selected → rooted parents 0 s) ∧ ∀ k, k ∈ G ↔ k ∈ granted ∨ ∃ s, s ∈ selected ∧ ascends parents s k
  | None => ∃ s, s ∈ selected ∧ ¬ rooted parents 0 s
  end.
Proof.
  induction selected as [|s selected IH]; intros granted H0 Hc; cbn [grant_all].
  { split; [by intros s ?%elem_of_nil|]. intros k. split; [by left|]. intros [?|(s & ?%elem_of_nil & _)]; done. }
  destruct (grant nodes granted _ ∅ s) as [V|] eqn:Eg.
  - destruct (grant_sound _ _ _ _ _ H0 Hc Eg) as [Hr Hk].
    assert (∀ k, k ∈ V ∪ granted ↔ k ∈ granted ∨ ascends parents s k) as HV by (intros k; rewrite Hk; set_solver).
    specialize (IH (V ∪ granted) H0).
    assert (closed_under (V ∪ granted)) as Hc'.
    { intros k [Hk'|Hk']%HV; [destruct (Hc _ Hk') as [? Ha]; split; [done|]; intros r Hx; apply HV; left; by apply Ha|]. split.
      - clear -Hr Hk' H0. induction Hk' as [p Hp|p q r Hp Hq IH]; [done|]. apply IH. inversion Hr; congruence.
      - intros r Hx. apply HV. right. by eapply ascends_trans. }
    specialize (IH Hc'). destruct (grant_all nodes _ selected) as [G|].
    + destruct IH as [Hsel HG]. split; [by intros x [->|?]%elem_of_cons; auto|]. intros k. rewrite HG, HV. set_solver.
    + destruct IH as (x & ? & ?). exists x. split; [by right|done].
  - exists s. split; [by left|]. intros [V HV]%(grant_rooted granted). congruence.
Qed.
End grants.

Lemma sorted_ids_strict (l : list Z) : NoDup l → StronglySorted Z.lt (sort_ids l).
Proof.
  intros Hn. unfold sort_ids. assert (StronglySorted Z.le (merge_sort Z.le l)) as Hs by (apply Sorted_StronglySorted; [apply _|apply Sorted_merge_sort, _]).
  assert (NoDup (merge_sort Z.le l)) as Hn' by (by rewrite merge_sort_Permutation). induction Hs as [|x k Hs IH Hx]; [constructor|].
  apply NoDup_cons in Hn' as [Hk Hn']. constructor; [by apply IH|]. rewrite Forall_forall in *. intros y Hy. specialize (Hx y Hy).
  assert (x ≠ y) by (by intros ->). lia.
Qed.

(** C31: the menus a role gets are exactly the selected ones and their ancestors, in
    ascending order, when every selected menu leads to a root; otherwise the request is
    refused. *)
Theorem role_menus_normalized (menus : list (Z * Menu)) (selected : list Z) :
  let nodes := list_to_map menus : gmap Z Menu in
  let parents := m_ParentID <$> nodes in
  nodes !! 0 = None →
  match normalizeRoleMenuIDs menus selected with
  | Ok ids => (∀ s, s ∈ selected → rooted parents 0 s) ∧ (∀ k, k ∈ ids ↔ ∃ s, s ∈ selected ∧ ascends parents s k) ∧ StronglySorted Z.lt ids
  | Fail e => e = [ErrRoleMenuUnavailable] ∧ ∃ s, s ∈ selected ∧ ¬ rooted parents 0 s
  end.
Proof.
  intros nodes parents H0. unfold normalizeRoleMenuIDs. fold nodes.
  pose proof (grant_all_spec nodes selected ∅ H0) as Hg. destruct (grant_all nodes ∅ selected) as [G|]; [|by split; [|apply Hg; intros ? ?%elem_of_empty]].
  destruct Hg as [Hr HG]; [by intros ? ?%elem_of_empty|]. split_and!; [done| |apply sorted_ids_strict, NoDup_elements].
  intros k. unfold sort_ids. rewrite merge_sort_Permutation, elem_of_elements, HG. set_solver.
Qed.

Definition demo_menus : list (Z * Menu) :=
  let m p := {| m_AppCode := MenuAppAdminWeb; m_ParentID := p; m_Type := MenuTypePage; m_Name := "page"; m_RouteName := "Page"; m_Path := "/page";
                m_Component := "page"; m_Permission := ""; m_Icon := ""; m_Sort := 0; m_Visible := true; m_Status := RecordStatusEnabled;
                m_KeepAlive := false; m_External := false; m_Remark := ""; m_CreatedAt := 0; m_UpdatedAt := 0; m_DeletedAt := None |} in
  [(1, m None); (2, m (Some 1)); (3, m (Some 1)); (4, m (Some 3))].

Lemma role_menus_normalized_witness :
  normalizeRoleMenuIDs demo_menus [4] = Ok [1; 3; 4] ∧
  ∀ k, k ∈ [1; 3; 4] ↔ ∃ s, s ∈ [4] ∧ ascends (m_ParentID <$> (list_to_map demo_menus : gmap Z Menu)) s k.
Proof.
  split; [vm_compute; reflexivity|].
  pose proof (role_menus_normalized demo_menus [4] ltac:(vm_compute; reflexivity)) as Hn.
  assert (normalizeRoleMenuIDs demo_menus [4] = Ok [1; 3; 4]) as E by (vm_compute; reflexivity). rewrite E in Hn. apply Hn.
Defined.

(** * The navigation of a caller

    apps/system/rpc/internal/logic/listnavigationmenuslogic.go: the breadth-first walk of the
    visible menus returns exactly the menus reachable from the roots through visible menus
    that are no elements, each once, and the permissions of the elements below them. *)

Section navigation.
Context (vs : list (Z * Menu)) (Hnd : NoDup vs.*1) (Hpos : ∀ r, r ∈ vs → 0 < r.1).

Abbreviation above r := (parent_key (m_ParentID r.2)).
Definition element (r : Z * Menu) : bool := bool_decide (m_Type r.2 = MenuTypeElement).

(** A menu whose ancestors are all visible and no elements. *)
Inductive shown : Z → Menu → Prop :=
| shown_root id m : (id, m) ∈ vs → m_Type m ≠ MenuTypeElement → parent_key (m_ParentID m) = 0 → shown id m
| shown_below id m pm : (id, m) ∈ vs → m_Type m ≠ MenuTypeElement → shown (parent_key (m_ParentID m)) pm → shown id m.

Lemma shown_visible id m : shown id m → (id, m) ∈ vs ∧ m_Type m ≠ MenuTypeElement.
Proof. by destruct 1. Qed.

Lemma same_row r r' : r ∈ vs → r' ∈ vs → r.1 = r'.1 → r = r'.
Proof.
  intros Hr Hr' E. apply list_elem_of_lookup in Hr as [i Hi]. apply list_elem_of_lookup in Hr' as [j Hj].
  assert (i = j) as ->.
  { eapply (NoDup_lookup vs.*1); [done|by rewrite list_lookup_fmap, Hi|by rewrite list_lookup_fmap, Hj; simpl; rewrite E]. }
  congruence.
Qed.

Lemma elem_of_children r p : r ∈ children_of vs p ↔ r ∈ vs ∧ above r = p.
Proof. unfold children_of. rewrite list_elem_of_filter. tauto. Qed.

(** ** One turn *)

Definition items_below (p : Z) (l : list (Z * Menu)) : list (Z * Z * Menu) := (λ r, (r.1, p, r.2)) <$> filter (λ r, element r = false) l.
Definition ids_below (l : list (Z * Menu)) : list Z := (filter (λ r, element r = false) l).*1.

(** The permissions of the elements of a list, after those already known. *)
Definition more_permissions (known : list string) (l : list (Z * Menu)) (known' : list string) : Prop :=
  (NoDup known → NoDup known') ∧
  ∀ s, s ∈ known' ↔ s ∈ known ∨ (s ≠ ""%string ∧ ∃ r, r ∈ l ∧ element r = true ∧ m_Permission r.2 = s).

Lemma foldl_children p l : ∀ n,
  NoDup l.*1 → (∀ r, r ∈ l → 0 < r.1 ∧ r.1 ∉ nv_visited n) →
  let n' := foldl (nav_child p) n l in
  nv_items n' = nv_items n ++ items_below p l ∧ nv_queue n' = nv_queue n ++ ids_below l ∧
  (∀ k, k ∈ nv_visited n' ↔ k ∈ nv_visited n ∨ k ∈ l.*1) ∧ more_permissions (nv_permissions n) l (nv_permissions n').
Proof.
  induction l as [|r l IH]; intros n Hl Hr; simpl.
  { unfold items_below, ids_below. rewrite !filter_nil. simpl. rewrite !app_nil_r. split_and!; [done..|set_solver|].
    split; [done|]. intros s. split; [by left|]. intros [?|(_ & r & ?%elem_of_nil & _)]; done. }
  rewrite fmap_cons in Hl. apply NoDup_cons in Hl as [Hrl Hl].
  assert (0 < r.1 ∧ r.1 ∉ nv_visited n) as [Hr0 Hrv] by (apply Hr; by left).
  set (n1 := nav_child p n r).
  assert (nv_items n1 = nv_items n ++ items_below p [r] ∧ nv_queue n1 = nv_queue n ++ ids_below [r] ∧
          nv_visited n1 = {[r.1]} ∪ nv_visited n ∧ more_permissions (nv_permissions n) [r] (nv_permissions n1)) as (E1 & E2 & E3 & E4).
  { unfold n1, nav_child. rewrite (proj2 (Z.leb_gt r.1 0)), bool_decide_eq_false_2 by done. simpl.
    unfold items_below, ids_below. rewrite !filter_cons, !filter_nil. unfold element.
    destruct (decide (m_Type r.2 = MenuTypeElement)) as [Ht|Ht].
    - rewrite (bool_decide_eq_true_2 _ Ht). simpl. rewrite !app_nil_r.
      destruct (negb _ && negb _) eqn:Ep; simpl; (split_and!; [done..|]).
      + to_prop. split; [intros ?; apply NoDup_app; split_and!; [done|set_solver|apply NoDup_singleton]|]. intros s.
        rewrite elem_of_app, list_elem_of_singleton. split; [intros [?| ->]; [by left|right]|].
        * split; [done|]. exists r. split_and!; [by left|unfold element; by rewrite bool_decide_eq_true_2|done].
        * intros [?|(? & r' & ->%list_elem_of_singleton & _ & <-)]; [by left|by right].
      + split; [done|]. intros s. split; [by left|]. intros [?|(Hs & r' & ->%list_elem_of_singleton & _ & <-)]; [done|].
        rewrite bool_decide_eq_false_2 in Ep by done. simpl in Ep. by to_prop.
    - rewrite (bool_decide_eq_false_2 _ Ht). simpl. split_and!; [done..|]. split; [done|]. intros s. split; [by left|].
      intros [?|(_ & r' & ->%list_elem_of_singleton & He & _)]; [done|]. unfold element in He. by rewrite bool_decide_eq_false_2 in He. }
  destruct (IH n1) as (F1 & F2 & F3 & F4); [done| |].
  { intros r' Hr'. destruct (Hr r') as [? ?]; [by right|]. split; [done|]. rewrite E3. intros [E%elem_of_singleton|?]%elem_of_union; [|done].
    apply Hrl. apply list_elem_of_fmap. exists r'. by split. }
  split_and!.
  - rewrite F1, E1, <-app_assoc. unfold items_below. rewrite !filter_cons, filter_nil. by case_decide.
  - rewrite F2, E2, <-app_assoc. unfold ids_below. rewrite !filter_cons, filter_nil. by case_decide.
  - intros k. rewrite F3, E3. set_solver.
  - destruct E4 as [N1 P1], F4 as [N2 P2]. split; [auto|]. intros s. rewrite P2, P1. split.
    + intros [[?|(? & r' & ->%list_elem_of_singleton & ? & ?)]|(? & r' & ? & ? & ?)]; [by left|right..]; (split; [done|]).
      * exists r. split_and!; [by left|done..].
      * exists r'. split_and!; [by right|done..].
    + intros [?|(? & r' & [->|?]%elem_of_cons & ? & ?)]; [by left; left|left; right|right]; (split; [done|]).
      * exists r. split_and!; [by left|done..].
      * by exists r'.
Qed.

(** ** The walk *)

(** [seen] are the parents taken off the queue. *)
Record walked (seen : list Z) (n : Navigation) : Prop := {
  wk_order : seen ++ nv_queue n = 0 :: ((λ x : Z * Z * Menu, x.1.1) <$> nv_items n);
  wk_once : NoDup (seen ++ nv_queue n);
  wk_items : ∀ id p m, (id, p, m) ∈ nv_items n ↔ (id, m) ∈ vs ∧ m_Type m ≠ MenuTypeElement ∧ p = parent_key (m_ParentID m) ∧ p ∈ seen;
  wk_visited : ∀ k, k ∈ nv_visited n ↔ ∃ r, r ∈ vs ∧ r.1 = k ∧ above r ∈ seen;
  wk_shown : ∀ id p m, (id, p, m) ∈ nv_items n → shown id m;
  wk_distinct : NoDup (nv_permissions n);
  wk_permissions : ∀ s, s ∈ nv_permissions n ↔ s ≠ ""%string ∧ ∃ r, r ∈ vs ∧ element r = true ∧ m_Permission r.2 = s ∧ above r ∈ seen;
}.

Lemma walked_start : walked [] {| nv_items := []; nv_permissions := []; nv_queue := [0]; nv_visited := ∅ |}.
Proof.
  split; simpl; try done.
  - apply NoDup_singleton.
  - intros id p m. rewrite !elem_of_nil. tauto.
  - intros k. setoid_rewrite elem_of_nil. set_solver.
  - by intros id p m ?%elem_of_nil.
  - constructor.
  - intros s. setoid_rewrite elem_of_nil. naive_solver.
Qed.

Lemma elem_of_items_below p l id q m : (id, q, m) ∈ items_below p l ↔ q = p ∧ (id, m) ∈ l ∧ m_Type m ≠ MenuTypeElement.
Proof.
  unfold items_below. rewrite list_elem_of_fmap. split.
  - intros ([i a] & [= -> -> ->] & [He Hin]%list_elem_of_filter). unfold element in He. simpl in He. by to_prop.
  - intros (-> & Hin & Ht). exists (id, m). split; [done|]. apply list_elem_of_filter. split; [|done]. unfold element. by apply bool_decide_eq_false.
Qed.
Lemma elem_of_ids_below l id : id ∈ ids_below l ↔ ∃ m, (id, m) ∈ l ∧ m_Type m ≠ MenuTypeElement.
Proof.
  unfold ids_below. rewrite list_elem_of_fmap. split.
  - intros ([i a] & -> & [He Hin]%list_elem_of_filter). unfold element in He. simpl in He. exists a. by to_prop.
  - intros (m & Hin & Ht). exists (id, m). split; [done|]. apply list_elem_of_filter. split; [|done]. unfold element. by apply bool_decide_eq_false.
Qed.

Lemma NoDup_filter_fst (P : Z * Menu → Prop) `{!∀ x, Decision (P x)} l : NoDup l.*1 → NoDup (filter P l).*1.
Proof.
  induction l as [|x l IH]; [done|]. rewrite fmap_cons, filter_cons. intros [Hx Hl]%NoDup_cons. case_decide; [|by apply IH].
  rewrite fmap_cons. apply NoDup_cons. split; [|by apply IH]. intros (y & Ey & [_ Hy]%list_elem_of_filter)%list_elem_of_fmap.
  apply Hx, list_elem_of_fmap. eauto.
Qed.

Lemma walked_turn seen n p rest :
  walked seen n → nv_queue n = p :: rest →
  walked (seen ++ [p]) (foldl (nav_child p) { n with nv_queue := rest } (children_of vs p)).
Proof.
  intros [Wo W1 Wi Wv Ws Wd Wp] Eq. set (n0 := { n with nv_queue := rest }).
  assert (p ∉ seen) as Hp.
  { rewrite Eq in W1. apply NoDup_app in W1 as (_ & Hx & _). intros Hin. apply (Hx _ Hin). by left. }
  destruct (foldl_children p (children_of vs p) n0) as (F1 & F2 & F3 & F4).
  { by apply NoDup_filter_fst. }
  { intros r [Hr Ha]%elem_of_children. split; [by apply Hpos|]. intros (r' & Hr' & E & Ha')%Wv. apply Hp. by rewrite <-Ha, <-(same_row r' r). }
  set (n' := foldl _ _ _) in *. simpl in F1, F2, F3, F4.
  assert ((λ x : Z * Z * Menu, x.1.1) <$> items_below p (children_of vs p) = ids_below (children_of vs p)) as Eids.
  { unfold items_below, ids_below. by rewrite <-list_fmap_compose. }
  assert (∀ id, id ∈ ids_below (children_of vs p) → ∃ m, (id, m) ∈ vs ∧ parent_key (m_ParentID m) = p ∧ m_Type m ≠ MenuTypeElement) as Hids.
  { intros id (m & [? ?]%elem_of_children & ?)%elem_of_ids_below. eauto. }
  assert (p = 0 ∨ ∃ m, shown p m) as Hshown.
  { assert (p ∈ seen ++ nv_queue n) as Hin by (rewrite Eq; apply elem_of_app; right; by left). rewrite Wo in Hin.
    apply elem_of_cons in Hin as [->|([[id q] m] & -> & Hx)%list_elem_of_fmap]; [by left|right]. simpl. exists m. by eapply Ws. }
  split.
  - rewrite F1, F2, fmap_app, Eids, app_comm_cons, <-Wo, Eq, <-!app_assoc. done.
  - rewrite F2, <-app_assoc. change (NoDup (seen ++ (p :: rest) ++ ids_below (children_of vs p))). rewrite <-Eq, app_assoc.
    apply NoDup_app. split_and!; [done| |by apply NoDup_filter_fst, NoDup_filter_fst].
    intros id Hin (m & Hm & Ha & _)%Hids. rewrite Wo in Hin. apply elem_of_cons in Hin as [->|([[id' q] m'] & E & Hx)%list_elem_of_fmap].
    + specialize (Hpos _ Hm). simpl in Hpos. lia.
    + simpl in E. subst id'. apply Wi in Hx as (Hm' & _ & -> & Hs). apply Hp. assert ((id, m) = (id, m')) as [= ->] by (by apply same_row). by rewrite <-Ha.
  - intros id q m. rewrite F1, elem_of_app, Wi, elem_of_items_below, elem_of_children, elem_of_app, list_elem_of_singleton. simpl. naive_solver.
  - intros k. rewrite F3, Wv. setoid_rewrite elem_of_app. setoid_rewrite list_elem_of_singleton. rewrite list_elem_of_fmap.
    setoid_rewrite elem_of_children. naive_solver.
  - intros id q m. rewrite F1, elem_of_app, elem_of_items_below, elem_of_children. simpl. intros [Hx|(-> & [Hm Ha] & Ht)]; [by eapply Ws|].
    destruct Hshown as [->|[pm Hpm]]; [by apply shown_root|]. apply (shown_below id m pm); [done..|]. by rewrite Ha.
  - by apply F4.
  - intros s. destruct F4 as [_ F4]. rewrite F4, Wp. split.
    + intros [(? & r & ? & ? & ? & ?)|(? & r & [? ?]%elem_of_children & ? & ?)]; (split; [done|]); exists r; (split_and!; [done..|]);
        apply elem_of_app; [by left|right; by apply list_elem_of_singleton].
    + intros (? & r & ? & ? & ? & [?|Hr%list_elem_of_singleton]%elem_of_app); [left|right]; (split; [done|]); exists r; (split_and!; try done).
      by apply elem_of_children.
Qed.

(** The queue runs dry within one turn more than there are menus. *)
Lemma walked_length seen n : walked seen n → (length seen + length (nv_queue n) ≤ S (length vs))%nat.
Proof.
  intros [Wo W1 Wi _ _ _ _]. rewrite <-length_app. rewrite <-(length_fmap fst vs). change (S (length vs.*1)) with (length (0 :: vs.*1)).
  apply submseteq_length, NoDup_submseteq; [done|]. intros k Hk. rewrite Wo in Hk.
  apply elem_of_cons in Hk as [->|([[id q] m] & -> & (Hm & _)%Wi)%list_elem_of_fmap]; [by left|right].
  apply list_elem_of_fmap. by exists (id, m).
Qed.

Lemma navigate_walked fuel : ∀ seen n, walked seen n → (S (length vs) ≤ fuel + length seen)%nat →
  ∃ seen', walked seen' (navigate vs fuel n) ∧ nv_queue (navigate vs fuel n) = [].
Proof.
  induction fuel as [|fuel IH]; intros seen n Hw Hf; simpl.
  - exists seen. split; [done|]. pose proof (walked_length _ _ Hw). destruct (nv_queue n); [done|simpl in *; lia].
  - destruct (nv_queue n) as [|p rest] eqn:Eq; [by exists seen|]. apply (IH (seen ++ [p])); [by apply walked_turn|].
    rewrite length_app. simpl. lia.
Qed.
End navigation.

(** C32: the walk ends with an empty queue, lists exactly the menus whose ancestors are all
    visible and no elements, each once and under its own parent, and collects exactly the
    permissions of the elements directly below them, each once. *)
Theorem navigation_exact (vs : list (Z * Menu)) :
  NoDup vs.*1 → (∀ r, r ∈ vs → 0 < r.1) →
  let n := navigation vs in
  nv_queue n = [] ∧
  (∀ id p m, (id, p, m) ∈ nv_items n ↔ shown vs id m ∧ p = parent_key (m_ParentID m)) ∧
  NoDup (0 :: ((λ x : Z * Z * Menu, x.1.1) <$> nv_items n)) ∧ NoDup (nv_permissions n) ∧
  ∀ s, s ∈ nv_permissions n ↔ s ≠ ""%string ∧ ∃ id m, (id, m) ∈ vs ∧ m_Type m = MenuTypeElement ∧ m_Permission m = s ∧
    (parent_key (m_ParentID m) = 0 ∨ ∃ pm, shown vs (parent_key (m_ParentID m)) pm).
Proof.
  intros Hnd Hpos n. destruct (navigate_walked vs Hnd Hpos (S (length vs)) [] _ (walked_start vs Hnd Hpos)) as (seen & [Wo W1 Wi _ Ws Wd Wp] & Eq);
    [simpl; lia|]. fold (navigation vs) in *. fold n in Wo, W1, Wi, Ws, Wd, Wp, Eq. rewrite Eq, app_nil_r in Wo, W1.
  assert (∀ id m, shown vs id m → id ∈ seen) as Hseen.
  { induction 1 as [id m Hm Ht Hp|id m pm Hm Ht Hp IH]; rewrite Wo; right; apply list_elem_of_fmap; exists (id, parent_key (m_ParentID m), m);
      (split; [done|]); apply Wi; (split_and!; [done..|]); [rewrite Hp, Wo; by left|done]. }
  assert (∀ p, p ∈ seen ↔ p = 0 ∨ ∃ pm, shown vs p pm) as Hp.
  { intros p. split; [|intros [->|[pm ?]]; [rewrite Wo; by left|by eapply Hseen]]. rewrite Wo.
    intros [->|([[id q] m] & -> & Hx)%list_elem_of_fmap]%elem_of_cons; [by left|right]. exists m. by eapply Ws. }
  split_and!; [done| |by rewrite <-Wo|done|].
  - intros id p m. split.
    + intros Hx. split; [by eapply Ws|]. by apply Wi in Hx as (_ & _ & ? & _).
    + intros [Hs ->]. destruct (shown_visible _ _ _ Hs) as [Hm Ht]. apply Wi. split_and!; [done..|]. apply Hp.
      destruct Hs as [id m ? ? E|id m pm ? ? ?]; [by left|right; by exists pm].
  - intros s. rewrite Wp. unfold element. split.
    + intros (? & [id m] & Hm & He & ? & Ha%Hp). split; [done|]. exists id, m. split_and!; [done|by to_prop|done|done].
    + intros (? & id & m & Hm & He & ? & Ha%Hp). split; [done|]. exists (id, m). split_and!; [done|by apply bool_decide_eq_true|done|done].
Qed.

Lemma navigation_exact_witness :
  ((λ x : Z * Z * Menu, x.1) <$> nv_items (navigation demo_menus)) = [(1, 0); (2, 1); (3, 1); (4, 3)] ∧
  ∀ id p m, (id, p, m) ∈ nv_items (navigation demo_menus) ↔ shown demo_menus id m ∧ p = parent_key (m_ParentID m).
Proof.
  split; [vm_compute; reflexivity|].
  assert (NoDup demo_menus.*1) as Hn by (repeat constructor; set_solver).
  assert (∀ r, r ∈ demo_menus → 0 < r.1) as Hp by (intros r Hr; unfold demo_menus in Hr; set_unfold; naive_solver lia).
  exact (proj1 (proj2 (navigation_exact demo_menus Hn Hp))).
Defined.
