(* ===== verification/Forests.v ===== *)
(** * Trees of departments and menus that nobody disturbs

    apps/system/internal/repository/department_repository.go and menu_repository.go validate
    a change of a parent against the tree they read, without a lock.  When no other session
    commits in between, every department and every menu stays below a root, whatever fails;
    two sessions that move two departments below each other can make a cycle. *)

From S2P Require Import Prelude GoLib GoText Tx Model TaskRepo InstanceRepo JobRepo RpcErrors Redis LoginProtection.
From S2P Require Import System.
From S2P Require Import SysModel UserRepo RoleRepo MenuRepo Accounts SysLogic Logic SysTrees SysOps.

Open Scope Z_scope.

(** ** Operations without interference *)

(** Other sessions change nothing. *)
Definition nobody : Protocol (DB := DB) (Lock := Lock).
Proof. refine {| Inv := λ _, True; evolves := eq; respects := λ _, eq; disciplined := λ _ _ _, True |}; done. Defined.
#[local] Existing Instance nobody | 0.

Definition undisturbed (env : nat → Event) : Prop := ∀ n L d, ev_others (env n) L d = d.

Lemma undisturbed_rely env : undisturbed env → rely env.
Proof. intros He n L d _. rewrite He. done. Qed.

(** The result of [m], started in [d] with nobody else around, whatever fails. *)
Definition alone {A} (m : M A) (d : DB) (Q : Result A → DB → Prop) : Prop :=
  ∀ w, undisturbed (w_env w) → w_db w = d → let '(w', r) := m w in w_env w' = w_env w ∧ Q r (w_db w').

Lemma alone_lift {A} (r : Result A) d Q : Q r d → alone (lift r) d Q.
Proof. by intros HQ w _ <-. Qed.
Lemma alone_ret {A} (a : A) d (Q : Result A → DB → Prop) : Q (Ok a) d → alone (mret a) d Q.
Proof. by intros HQ w _ <-. Qed.
Lemma alone_fail {A} e d (Q : Result A → DB → Prop) : Q (Fail e) d → alone (fail e) d Q.
Proof. by intros HQ w _ <-. Qed.
Lemma alone_bind {A B} (m : M A) (k : A → M B) d Q :
  alone m d (λ r d', match r with Ok a => alone (k a) d' Q | Fail e => Q (Fail e) d' end) → alone (mbind k m) d Q.
Proof.
  intros Hm w He Hd. specialize (Hm w He Hd). unfold mbind, M_bind. destruct (m w) as [w1 [a|e]]; destruct Hm as [E HQ]; [|done].
  rewrite <-E in He. specialize (HQ w1 He eq_refl). destruct (k a w1) as [w2 r]. destruct HQ. split; [congruence|done].
Qed.
Lemma alone_map_error {A} f (m : M A) d (Q : Result A → DB → Prop) :
  alone m d (λ r d', Q (match r with Ok a => Ok a | Fail e => Fail (f e) end) d') → alone (map_error f m) d Q.
Proof.
  intros Hm w He Hd. specialize (Hm w He Hd). unfold map_error, attempt, mbind, M_bind. by destruct (m w) as [w1 [a|e]].
Qed.
Lemma alone_stmt {A} (f : Event → DB → DB * Result A) d Q :
  (∀ ev, Q (f ev d).2 (f ev d).1 ∧ ∀ e, Q (Fail e) d ∧ Q (Fail e) (f ev d).1) → alone (stmt f) d Q.
Proof.
  intros Hf w He <-. unfold stmt. rewrite He. destruct (Hf (w_env w (w_at w))) as [H1 H2]. simpl.
  destruct (f _ (w_db w)) as [d' r]. simpl in *. destruct (ev_fault _) as [[[] e]|]; simpl; (split; [done|]); [apply H2..|done].
Qed.
Lemma alone_query {A} (f : Event → DB → Result A) d Q :
  (∀ ev, Q (f ev d) d) → (∀ e, Q (Fail e) d) → alone (query Auto f) d Q.
Proof. intros HQ HF. apply alone_stmt. intros ev. simpl. split; auto. Qed.
Lemma alone_transact {A} (body : M A) d (Q : Result A → DB → Prop) :
  (∀ e, Q (Fail e) d) → tx body (Clean [] d) (λ a v, Q (Ok a) (current v) ∧ ∀ e, Q (Fail e) (current v)) → alone (transact body) d Q.
Proof.
  intros HF Hb w He <-. unfold transact. rewrite He. simpl. destruct (ev_fault (w_env w (w_at w))) as [[b e]|]; simpl; [split; [done|apply HF]|].
  match goal with |- context [body ?w0] => specialize (Hb w0 eq_refl (undisturbed_rely _ He) I); destruct (body w0) as [w1 r] end. simpl in *.
  destruct Hb as (E1 & _ & _ & _ & Ev & Hq).
  assert (committed (view w1) = settled w1) as Es by (unfold view, settled; by destruct (w_dirty w1)).
  assert (current (view w1) = w_db w1) as Ec by (unfold view; by destruct (w_dirty w1)). rewrite Es in Ev. rewrite Ec in Hq.
  destruct r as [a|e]; simpl; [|rewrite <-Ev; split; [done|apply HF]].
  destruct Hq as [Hq HqF]. destruct (ev_fault (w_env w1 (w_at w1))) as [[[] e]|]; simpl; (split; [done|]); [done|rewrite <-Ev; apply HF|done].
Qed.

(** Inside a transaction nothing moves either. *)
Lemma tx_query_alone {A} (f : Event → DB → Result A) L d Q :
  (∀ ev a, f ev d = Ok a → Q a (Clean L d)) → tx (Output := Output) (query InTx f) (Clean L d) Q.
Proof. intros HQ. apply tx_query. intros ev v a (d' & -> & _ & <- & _). apply HQ. Qed.

Ltac alone_step :=
  lazymatch goal with
  | |- alone (mret _) _ _ => apply alone_ret
  | |- alone (fail _) _ _ => apply alone_fail
  | |- alone (lift _) _ _ => apply alone_lift
  | |- alone (map_error _ _) _ _ => apply alone_map_error
  | |- alone (mbind _ _) _ _ => apply alone_bind
  | |- alone (query Auto _) _ _ => apply alone_query; [intros ?|intros ?]
  | |- alone (match ?x with _ => _ end) _ _ => let E := fresh "E" in destruct x eqn:E
  end.

(** ** Departments *)

(** The parents of the rows of a table that count. *)
Definition parents_of {A} (counts : A → bool) (parent : A → option Z) (m : gmap Z A) : Parents :=
  parent <$> filter (λ r : Z * A, counts r.2 = true) m.

(** Every row that counts is below a root. *)
Definition forest (nodes : Parents) : Prop := ∀ p, is_Some (nodes !! p) → rooted nodes 0 p.

Lemma lookup_parents {A} (counts : A → bool) (parent : A → option Z) m id v :
  parents_of counts parent m !! id = Some v ↔ ∃ a, m !! id = Some a ∧ counts a = true ∧ v = parent a.
Proof.
  unfold parents_of. rewrite lookup_fmap_Some. split.
  - intros (a & <- & [? ?]%map_lookup_filter_Some). eauto.
  - intros (a & ? & ? & ->). exists a. split; [done|]. by apply map_lookup_filter_Some.
Qed.

Lemma parents_lookup_ne {A} (counts : A → bool) (parent : A → option Z) m id a k :
  k ≠ id → parents_of counts parent (<[id := a]> m) !! k = parents_of counts parent m !! k.
Proof. intros Hne. apply option_eq. intros v. rewrite !lookup_parents. by rewrite lookup_insert_ne. Qed.

Lemma parents_put {A} (counts : A → bool) (parent : A → option Z) m id a :
  counts a = true → parents_of counts parent (<[id := a]> m) = <[id := parent a]> (parents_of counts parent m).
Proof.
  intros Hc. apply map_eq. intros k. destruct (decide (k = id)) as [->|Hne].
  - rewrite lookup_insert_eq. apply lookup_parents. exists a. by rewrite lookup_insert_eq.
  - rewrite lookup_insert_ne by done. by apply parents_lookup_ne.
Qed.
Lemma parents_drop {A} (counts : A → bool) (parent : A → option Z) m id a :
  counts a = false → parents_of counts parent (<[id := a]> m) = delete id (parents_of counts parent m).
Proof.
  intros Hc. apply map_eq. intros k. destruct (decide (k = id)) as [->|Hne].
  - rewrite lookup_delete_eq. apply eq_None_not_Some. intros [v (b & Hb & ? & _)%lookup_parents]. rewrite lookup_insert_eq in Hb. congruence.
  - rewrite lookup_delete_ne by done. by apply parents_lookup_ne.
Qed.
Lemma parents_same {A} (counts : A → bool) (parent : A → option Z) m id a a' :
  m !! id = Some a → counts a' = counts a → parent a' = parent a → parents_of counts parent (<[id := a']> m) = parents_of counts parent m.
Proof.
  intros Hm Hc Hp. apply map_eq. intros k. destruct (decide (k = id)) as [->|Hne]; [|by apply parents_lookup_ne].
  apply option_eq. intros v. rewrite !lookup_parents, lookup_insert_eq, Hm. split; intros (b & [= <-] & ? & ->); [exists a|exists a']; split_and!; congruence.
Qed.

(** The maps the code builds from the listed rows. *)
Lemma listed_NoDup {A} (counts : A → bool) m (l : list (Z * A)) :
  l ≡ₚ filter (λ r : Z * A, counts r.2 = true) (rows m) → NoDup l.*1.
Proof.
  intros Hl. rewrite Hl. clear Hl l. pose proof (NoDup_rows m) as Hn. induction (rows m) as [|x l IH]; [constructor|].
  rewrite fmap_cons in Hn. apply NoDup_cons in Hn as [Hx Hn]. rewrite filter_cons. case_decide; [|by apply IH].
  rewrite fmap_cons. apply NoDup_cons. split; [|by apply IH].
  intros (y & Ey & [_ Hy]%list_elem_of_filter)%list_elem_of_fmap. apply Hx, list_elem_of_fmap. eauto.
Qed.

Lemma listed_rows {A} (counts : A → bool) m (l : list (Z * A)) k a :
  l ≡ₚ filter (λ r : Z * A, counts r.2 = true) (rows m) →
  (list_to_map l : gmap Z A) !! k = Some a ↔ m !! k = Some a ∧ counts a = true.
Proof.
  intros Hl. rewrite <-elem_of_list_to_map by (by eapply listed_NoDup). rewrite Hl, list_elem_of_filter, elem_of_rows. tauto.
Qed.

Lemma listed_parents {A} (counts : A → bool) (parent : A → option Z) m (l : list (Z * A)) :
  l ≡ₚ filter (λ r : Z * A, counts r.2 = true) (rows m) →
  parent <$> (list_to_map l : gmap Z A) = parents_of counts parent m.
Proof.
  intros Hl. apply map_eq. intros k. apply option_eq. intros v. rewrite lookup_parents, lookup_fmap_Some. split.
  - intros (a & <- & [? ?]%(listed_rows counts m l k a Hl)). eauto.
  - intros (a & ? & ? & ->). exists a. split; [done|]. by apply (listed_rows counts m l k a Hl).
Qed.

Lemma rooted_put nodes id v p : rooted nodes id p → nodes !! 0 = None → rooted (<[id := v]> nodes) 0 p.
Proof.
  intros Hr H0. induction Hr as [p Hp Hn|p q Hp Hn _ IH].
  - apply rooted_root; [intros ->; congruence|by rewrite lookup_insert_ne].
  - eapply rooted_step; [intros ->; congruence|by rewrite lookup_insert_ne|done].
Qed.

Lemma forest_root nodes : forest nodes → nodes !! 0 = None.
Proof.
  intros Hf. destruct (nodes !! 0) as [v|] eqn:E; [|done]. assert (rooted nodes 0 0) as Hr by (apply Hf; by eexists). by inversion Hr.
Qed.

(** A row that goes below a row which is not below it, or becomes a root. *)
Lemma forest_put nodes id v :
  forest nodes → id ≠ 0 → match v with None => True | Some p => rooted nodes id p end → forest (<[id := v]> nodes).
Proof.
  intros Hf Hid Hv. pose proof (forest_root _ Hf) as H0. assert (rooted (<[id := v]> nodes) 0 id) as Hself.
  { destruct v as [p|]; [|apply rooted_root; [done|by rewrite lookup_insert_eq]].
    apply (rooted_step _ _ id p); [done|by rewrite lookup_insert_eq|by apply rooted_put]. }
  assert (∀ q, rooted nodes 0 q → rooted (<[id := v]> nodes) 0 q) as Hall.
  { induction 1 as [q Hq Hn|q q' Hq Hn _ IH]; (destruct (decide (q = id)) as [->|]; [done|]).
    - apply rooted_root; [done|by rewrite lookup_insert_ne].
    - eapply rooted_step; [done|by rewrite lookup_insert_ne|done]. }
  intros p [x Hx]. destruct (decide (p = id)) as [->|]; [done|]. rewrite lookup_insert_ne in Hx by done. apply Hall, Hf. by eexists.
Qed.

Lemma forest_drop nodes id : forest nodes → (∀ k, nodes !! k ≠ Some (Some id)) → forest (delete id nodes).
Proof.
  intros Hf Hno p [x Hx]. apply lookup_delete_Some in Hx as [Hne Hx]. assert (rooted nodes 0 p) as Hr by (apply Hf; by eexists). clear Hx x.
  induction Hr as [p Hp Hn|p q Hp Hn Hr IH].
  - apply rooted_root; [done|by rewrite lookup_delete_ne].
  - assert (q ≠ id) by (intros ->; by apply (Hno p)). eapply rooted_step; [done|by rewrite lookup_delete_ne|]. by apply IH.
Qed.

Definition department_tree (d : DB) : Parents := parents_of live_department d_ParentID (departments d).

(** A department may get the candidate as its parent. *)
Definition department_allowed (nodes : Parents) (id : Z) (candidate : option Z) : Prop :=
  (0 < id → is_Some (nodes !! id)) ∧ match candidate with None => True | Some p => rooted nodes id p end.

Lemma validate_department_spec l m id candidate :
  l ≡ₚ filter (λ r : Z * Department, live_department r.2 = true) (rows m) →
  let nodes := parents_of live_department d_ParentID m in
  (validateDepartmentTree l id candidate = None ↔ department_allowed nodes id candidate) ∧
  (validateDepartmentTree l id candidate = Some [ErrDepartmentCycle] ↔
     (0 < id → is_Some (nodes !! id)) ∧ ∃ p, candidate = Some p ∧ is_Some (nodes !! p) ∧ ¬ rooted nodes id p ∧ ¬ dangling nodes id p).
Proof.
  intros Hl nodes. unfold validateDepartmentTree.
  change ((λ r : Z * Department, (r.1, d_ParentID r.2)) <$> l) with (prod_map Datatypes.id d_ParentID <$> l).
  rewrite (list_to_map_fmap d_ParentID l), (listed_parents live_department d_ParentID m l Hl). fold nodes.
  unfold department_allowed. cbv zeta. destruct ((0 <? id) && bool_decide (nodes !! id = None)) eqn:E.
  { to_prop. split; (split; [done|]); intros [Hid _]; destruct Hid as [x Hx]; by try lia; congruence. }
  assert (0 < id → is_Some (nodes !! id)) as Hid.
  { intros Hpos. apply Z.ltb_lt in Hpos. rewrite Hpos in E. simpl in E. to_prop. by apply not_eq_None_Some. }
  destruct candidate as [p|]; [|by split; [|split; [done|intros (_ & p & ? & _)]]].
  destruct (nodes !! p) as [parent|] eqn:Ep.
  - destruct (climb_spec nodes ErrDepartmentParentInvalid ErrDepartmentCycle id ltac:(done) p parent Ep) as (H1 & _ & H3).
    rewrite H1, H3. split; [tauto|]. split; [intros []; split; [done|exists p; by eauto]|]. intros (_ & p' & [= <-] & _ & ?). done.
  - split; (split; [done|]).
    + intros [_ Hr]. inversion Hr; congruence.
    + intros (_ & p' & [= <-] & [x Hx] & _). congruence.
Qed.

Section departments.
Context `{PgLib, PgText}.

Lemma ListDepartments_alone d (Q : Result (list (Z * Department)) → DB → Prop) :
  (∀ l, l ≡ₚ filter (λ r : Z * Department, live_department r.2 = true) (rows (departments d)) → Q (Ok l) d) → (∀ e, Q (Fail e) d) →
  alone (ListDepartments Auto) d Q.
Proof. intros HQ HF. apply alone_query; [|done]. intros ev. apply HQ, merge_sort_Permutation. Qed.

Lemma validate_alone id candidate d (Q : Result unit → DB → Prop) :
  (department_allowed (department_tree d) id candidate → Q (Ok tt) d) → (∀ e, Q (Fail e) d) → alone (validate Auto id candidate) d Q.
Proof.
  intros HQ HF. unfold validate. apply alone_bind, ListDepartments_alone; [|done]. intros l Hl. unfold lift_error.
  destruct (validateDepartmentTree l id candidate) as [e|] eqn:Ev; [by apply alone_fail|]. apply alone_ret, HQ.
  by apply (proj1 (validate_department_spec l _ id candidate Hl)).
Qed.

(** The rows stay positive, and the tree a forest. *)
Definition grows_well (d : DB) : Prop :=
  (∀ id x, departments d !! id = Some x → 0 < id) ∧ 0 < next_department d ∧ forest (department_tree d).

Lemma grows_well_put d id x d' :
  grows_well d → 0 < id → live_department x = true → match d_ParentID x with None => True | Some p => rooted (department_tree d) id p end →
  departments d' = <[id := x]> (departments d) → next_department d ≤ next_department d' → grows_well d'.
Proof.
  intros (Hpos & Hn & Hf) Hid Hl Hp Ed En. split_and!; [|lia|].
  - intros k y. rewrite Ed. intros Hk. lookup_cases Hk; by eauto.
  - unfold department_tree. rewrite Ed, parents_put by done. apply forest_put; [done|lia|done].
Qed.

Lemma rooted_fresh nodes id p : (∀ q, is_Some (nodes !! q) → q ≠ id) → rooted nodes 0 p → rooted nodes id p.
Proof.
  intros Hf Hr. induction Hr as [p Hp Hn|p q Hp Hn _ IH].
  - apply rooted_root; [apply Hf; by eexists|done].
  - eapply rooted_step; [apply Hf; by eexists|done|done].
Qed.

Lemma CreateDepartment_alone x d : grows_well d → alone (CreateDepartment Auto x) d (λ _ d', grows_well d').
Proof.
  intros HG. unfold CreateDepartment. alone_step; [by apply alone_fail|]. apply alone_bind, validate_alone; [|done]. intros [_ Hp].
  apply alone_map_error, alone_stmt. intros ev.
  destruct (insert_row_cases sys_department (new_department x (ev_clock ev)) d) as [[e ->]|(Hn & _ & _ & ->)]; [done|]. simpl in *.
  assert (grows_well { set_department (next_department d) (new_department x (ev_clock ev)) d with next_department := next_department d + 1 }) as HG'; [|done].
  apply (grows_well_put d (next_department d) (new_department x (ev_clock ev))); [done|apply HG|done| |done|simpl; lia]. simpl. destruct (d_ParentID x) as [p|]; [|done].
  apply rooted_fresh; [|done]. intros q [v (y & Hy & _)%lookup_parents] ->. congruence.
Qed.

Lemma UpdateDepartment_alone id x d : grows_well d → alone (UpdateDepartment Auto id x) d (λ _ d', grows_well d').
Proof.
  intros HG. unfold UpdateDepartment. alone_step; [by apply alone_fail|]. alone_step; [by apply alone_fail|]. apply Z.leb_gt in E.
  apply alone_bind, validate_alone; [|done]. intros [_ Hp]. apply alone_bind, alone_map_error, alone_stmt. intros ev.
  assert (∀ n d', grows_well d' → alone (affected ErrDepartmentNotFound n) d' (λ _ d', grows_well d')) as Haff.
  { intros n d' ?. unfold affected. alone_step; [by apply alone_fail|by apply alone_ret]. }
  destruct (update_row_cases sys_department id (λ _, true) (department_row x (ev_clock ev)) d) as [E1|(y & Hy & Hl & _ & _ & _ & ->)].
  - rewrite E1. split; [destruct (update_row _ _ _ _ _).2; [by apply Haff|done]|done].
  - simpl in *. assert (grows_well (set_department id (department_row x (ev_clock ev) y) d)) as HG'; [|by split; [apply Haff|]].
    by apply (grows_well_put d id (department_row x (ev_clock ev) y)).
Qed.

Lemma affected_alone e n d : grows_well d → alone (affected e n) d (λ _ d', grows_well d').
Proof. intros HG. unfold affected. alone_step; [by apply alone_fail|by apply alone_ret]. Qed.

(** A row keeps its place, or leaves the table without children. *)
Lemma grows_well_row d id x y :
  grows_well d → departments d !! id = Some x → live_department x = true →
  (live_department y = true ∧ d_ParentID y = d_ParentID x) ∨
  (live_department y = false ∧ ∀ k, department_tree d !! k ≠ Some (Some id)) →
  grows_well (set_department id y d).
Proof.
  intros (Hpos & Hn & Hf) Hx Hl Hy. split_and!; [|done|].
  - intros k z. simpl. intros Hk. lookup_cases Hk; by eauto.
  - unfold department_tree. simpl. destruct Hy as [[Hly Hp]|[Hly Hno]].
    + erewrite parents_same; [done|done|by rewrite Hly|done].
    + rewrite parents_drop by done. by apply forest_drop.
Qed.

Lemma UpdateDepartmentStatus_alone id s d : grows_well d → alone (UpdateDepartmentStatus Auto id s) d (λ _ d', grows_well d').
Proof.
  intros HG. unfold UpdateDepartmentStatus. alone_step; [by apply alone_fail|]. apply alone_bind, alone_stmt. intros ev.
  destruct (update_row_cases sys_department id (λ _, true) (department_status_row s (ev_clock ev)) d) as [E1|(y & Hy & Hl & _ & _ & _ & ->)].
  - rewrite E1. split; [destruct (update_row _ _ _ _ _).2; [by apply affected_alone|done]|done].
  - simpl in *. assert (grows_well (set_department id (department_status_row s (ev_clock ev) y) d)) as HG'; [|by split; [apply affected_alone|]].
    apply (grows_well_row d id y); [done..|]. by left.
Qed.

Lemma no_child d id :
  existsb (λ r : Z * Department, live_department r.2 && bool_decide (d_ParentID r.2 = Some id)) (rows (departments d)) = false →
  ∀ k, department_tree d !! k ≠ Some (Some id).
Proof.
  intros Hx k (a & Ha & Hl & Hp)%lookup_parents. enough (existsb (λ r : Z * Department, live_department r.2 && bool_decide (d_ParentID r.2 = Some id))
    (rows (departments d)) = true) by congruence. apply existsb_exists. exists (k, a). split; [by apply list_elem_of_In, elem_of_rows|].
  simpl. by rewrite Hl, bool_decide_eq_true_2.
Qed.

Lemma DeleteDepartment_alone id d : grows_well d → alone (DeleteDepartment id) d (λ _ d', grows_well d').
Proof.
  intros HG. unfold DeleteDepartment. alone_step; [by apply alone_fail|]. apply alone_transact; [done|]. unfold delete_department_body.
  apply tx_bind, tx_query_alone. intros ev row _. apply tx_bind. unfold found. destruct row; [apply tx_ret|apply tx_fail].
  apply tx_bind, tx_query_alone. intros ev1 child [= <-]. cbn beta. guard as Ec; [apply tx_fail|].
  apply tx_bind, tx_query_alone. intros ev2 member _. guard as Em; [apply tx_fail|].
  apply tx_bind. unfold Update. apply tx_exec. intros ev3 v n (d' & -> & _ & <- & _) _. apply tx_ret. simpl.
  assert (grows_well (update_row sys_department id (λ _, true) (delete_department_row (ev_clock ev3)) d).1) as HG'; [|done].
  destruct (update_row_cases sys_department id (λ _, true) (delete_department_row (ev_clock ev3)) d) as [->|(y & Hy & Hl & _ & _ & _ & ->)]; [done|].
  apply (grows_well_row d id y); [done..|]. right. split; [done|by apply no_child].
Qed.
End departments.

(** ** Menus *)

(** The menus of the web application. *)
Definition web_menu (m : Menu) : bool := live_menu m && scoped m.
Definition menu_tree (d : DB) : Parents := parents_of web_menu m_ParentID (menus d).

(** What may stand above a menu: elements stand below something, nothing below an element. *)
Definition placed (d : DB) (m : Menu) : Prop :=
  match m_ParentID m with
  | None => m_Type m ≠ MenuTypeElement
  | Some p => ∃ above, menus d !! p = Some above ∧ web_menu above = true ∧ m_Type above ≠ MenuTypeElement
  end.

Definition menus_well (d : DB) : Prop :=
  (∀ id m, menus d !! id = Some m → 0 < id) ∧ 0 < next_menu d ∧ forest (menu_tree d) ∧
  ∀ id m, menus d !! id = Some m → web_menu m = true → placed d m.

(** A menu may take the candidate's place and type. *)
Definition menu_allowed (d : DB) (id : Z) (candidate : Menu) : Prop :=
  placed d candidate ∧ match m_ParentID candidate with None => True | Some p => rooted (menu_tree d) id p end ∧
  (m_Type candidate = MenuTypeElement → 0 < id → ∀ k, menu_tree d !! k ≠ Some (Some id)).

Lemma validate_menu_sound l d id candidate :
  l ≡ₚ filter (λ r : Z * Menu, web_menu r.2 = true) (rows (menus d)) → validateMenuTree l id candidate = None → menu_allowed d id candidate.
Proof.
  intros Hl. unfold validateMenuTree. rewrite (listed_parents web_menu m_ParentID (menus d) l Hl). fold (menu_tree d). cbv zeta.
  destruct (_ && existsb _ l) eqn:E1; [done|]. destruct ((0 <? id) && _) eqn:E2; [done|]. intros Hv. split_and!.
  - unfold placed. destruct (m_ParentID candidate) as [p|]; [|by case_bool_decide].
    destruct ((list_to_map l : gmap Z Menu) !! p) as [above|] eqn:Ep; [|done]. apply (listed_rows web_menu (menus d) l p above Hl) in Ep as [? ?].
    case_bool_decide; [done|]. by exists above.
  - destruct (m_ParentID candidate) as [p|]; [|done]. destruct ((list_to_map l : gmap Z Menu) !! p) as [above|] eqn:Ep; [|done].
    case_bool_decide; [done|]. eapply (climb_None _ _ _ _ _ _ _ (m_ParentID above)); [|exact Hv].
    apply lookup_parents. apply (listed_rows web_menu (menus d) l p above Hl) in Ep as [? ?]. by exists above.
  - intros He Hid k (a & Ha & Hw & Hp)%lookup_parents. rewrite bool_decide_eq_true_2, (proj2 (Z.ltb_lt 0 id)) in E1 by done. simpl in E1.
    enough (existsb (λ r : Z * Menu, bool_decide (m_ParentID r.2 = Some id)) l = true) by congruence.
    apply existsb_exists. exists (k, a). split; [|by simpl; rewrite bool_decide_eq_true_2].
    apply list_elem_of_In. rewrite Hl, list_elem_of_filter, elem_of_rows. by split.
Qed.

Lemma menus_well_put d id m d' :
  menus_well d → 0 < id → web_menu m = true → menu_allowed d id m →
  menus d' = <[id := m]> (menus d) → next_menu d ≤ next_menu d' → menus_well d'.
Proof.
  intros (Hpos & Hn & Hf & Hs) Hid Hw (Hpl & Hr & Hel) Ed En.
  assert (∀ c p, placed d c → m_ParentID c = Some p → p = id → m_Type m ≠ MenuTypeElement → placed d' c) as Hown.
  { intros c p _ Hp -> Ht. unfold placed. rewrite Hp, Ed, lookup_insert_eq. by exists m. }
  assert (∀ c, placed d c → (∀ p, m_ParentID c = Some p → p ≠ id) → placed d' c) as Hother.
  { intros c Hc Hp. unfold placed in *. destruct (m_ParentID c) as [p|]; [|done]. rewrite Ed, lookup_insert_ne; [done|]. intros ->. by apply (Hp p). }
  split_and!; [|lia| |].
  - intros k y. rewrite Ed. intros Hk. lookup_cases Hk; by eauto.
  - unfold menu_tree. rewrite Ed, parents_put by done. apply forest_put; [done|lia|done].
  - intros k c Hk Hc. rewrite Ed in Hk. lookup_cases Hk.
    + apply Hother; [done|]. intros p Hp ->. rewrite Hp in Hr. inversion Hr; congruence.
    + destruct (decide (m_ParentID c = Some id)) as [Hp|Hp]; [|apply Hother; [by eapply Hs|]; intros p ? ->; congruence].
      apply (Hown c id); [by eapply Hs|done|done|]. intros Ht. apply (Hel Ht Hid k). apply lookup_parents. eauto.
Qed.

Lemma menus_well_same d id m m' :
  menus_well d → menus d !! id = Some m → web_menu m = true → web_menu m' = true → m_ParentID m' = m_ParentID m → m_Type m' = m_Type m →
  menus_well (set_menu id m' d).
Proof.
  intros HG Hm Hw Hw' Hp Ht. pose proof HG as (Hpos & Hn & Hf & Hs). split_and!; [|done| |].
  - intros k y. simpl. intros Hk. lookup_cases Hk; by eauto.
  - unfold menu_tree. simpl. erewrite parents_same; [done|done|congruence|done].
  - assert (∀ c, placed d c → placed (set_menu id m' d) c) as Hpl.
    { intros c Hc. unfold placed in *. destruct (m_ParentID c) as [p|]; [|done]. destruct Hc as (a & Ha & Hwa & Hta). simpl.
      destruct (decide (p = id)) as [->|]; [|by rewrite lookup_insert_ne; eauto]. rewrite lookup_insert_eq. exists m'. simplify_eq. by rewrite Ht. }
    intros k c Hk Hc. simpl in Hk. lookup_cases Hk; [|by apply Hpl; eauto]. apply Hpl. specialize (Hs _ _ Hm Hw). unfold placed in *. by rewrite Hp, Ht.
Qed.

Lemma menus_well_drop d id m :
  menus_well d → web_menu m = false → (∀ k c, menus d !! k = Some c → live_menu c = true → m_ParentID c ≠ Some id) → menus_well (set_menu id m d) ∨ ¬ 0 < id.
Proof.
  intros (Hpos & Hn & Hf & Hs) Hw Hno. destruct (decide (0 < id)); [left|by right].
  assert (∀ k c, menus d !! k = Some c → web_menu c = true → m_ParentID c ≠ Some id) as Hno'.
  { intros k c Hk Hc. eapply Hno; [done|]. unfold web_menu in Hc. by to_prop. }
  split_and!; [|done| |].
  - intros k y. simpl. intros Hk. lookup_cases Hk; by eauto.
  - unfold menu_tree. simpl. rewrite parents_drop by done. apply forest_drop; [done|]. intros k (a & Ha & Hwa & Hp)%lookup_parents. by apply (Hno' k a).
  - intros k c Hk Hc. simpl in Hk. lookup_cases Hk; [congruence|]. specialize (Hs _ _ Hk Hc). specialize (Hno' _ _ Hk Hc). unfold placed in *. simpl.
    destruct (m_ParentID c) as [p|]; [|done]. rewrite lookup_insert_ne; [done|]. congruence.
Qed.

Section menus.
Context `{PgLib, PgText}.

Lemma ListMenus_alone d (Q : Result (list (Z * Menu)) → DB → Prop) :
  (∀ l, l ≡ₚ filter (λ r : Z * Menu, web_menu r.2 = true) (rows (menus d)) → Q (Ok l) d) → (∀ e, Q (Fail e) d) →
  alone (ListMenus Auto) d Q.
Proof. intros HQ HF. apply alone_query; [|done]. intros ev. apply HQ. unfold scoped_menus, order_by. apply merge_sort_Permutation. Qed.

Lemma affected_menus_alone e n d : menus_well d → alone (affected e n) d (λ _ d', menus_well d').
Proof. intros HG. unfold affected. alone_step; [by apply alone_fail|by apply alone_ret]. Qed.

Lemma validated_alone {B} id m (k : M B) d :
  menus_well d → (menu_allowed d id m → alone k d (λ _ d', menus_well d')) →
  alone (menus ← ListMenus Auto; lift_error (validateMenuTree menus id m);; k) d (λ _ d', menus_well d').
Proof.
  intros HG Hk. apply alone_bind, ListMenus_alone; [|done]. intros l Hl. apply alone_bind. unfold lift_error.
  destruct (validateMenuTree l id m) as [e|] eqn:Ev; [by apply alone_fail|]. apply alone_ret, Hk. by eapply validate_menu_sound.
Qed.

Lemma CreateMenu_alone m d : menus_well d → alone (CreateMenu Auto m) d (λ _ d', menus_well d').
Proof.
  intros HG. unfold CreateMenu. apply validated_alone; [done|]. intros (Hpl & Hr & _). apply alone_map_error, alone_stmt. intros ev.
  destruct (insert_row_cases sys_menu (new_menu m (ev_clock ev)) d) as [[e ->]|(Hn & _ & _ & ->)]; [done|]. simpl in *.
  assert (menus_well { set_menu (next_menu d) (new_menu m (ev_clock ev)) d with next_menu := next_menu d + 1 }) as HG'; [|done].
  assert (∀ k v, menu_tree d !! k = Some v → k ≠ next_menu d) as Hfresh by (intros k v (y & Hy & _)%lookup_parents ->; congruence).
  apply (menus_well_put d (next_menu d) (new_menu m (ev_clock ev))); [done|apply HG|done| |done|simpl; lia]. split_and!; [done| |].
  - simpl. destruct (m_ParentID m) as [p|]; [|done]. apply rooted_fresh; [|done]. intros q [v Hv]. by eapply Hfresh.
  - intros _ _ k (a & Ha & Hw & Hp)%lookup_parents. destruct HG as (_ & _ & _ & Hs). specialize (Hs _ _ Ha Hw). unfold placed in Hs.
    rewrite <-Hp in Hs. destruct Hs as (above & Habove & _). congruence.
Qed.

Lemma UpdateMenu_alone id m d : menus_well d → alone (UpdateMenu Auto id m) d (λ _ d', menus_well d').
Proof.
  intros HG. unfold UpdateMenu. alone_step; [by apply alone_fail|]. apply Z.leb_gt in E. apply validated_alone; [done|]. intros Ha.
  apply alone_bind, alone_map_error, alone_stmt. intros ev.
  destruct (update_row_cases sys_menu id scoped (menu_row m (ev_clock ev)) d) as [E1|(y & Hy & Hl & Hsc & _ & _ & ->)].
  - rewrite E1. split; [destruct (update_row _ _ _ _ _).2; [by apply affected_menus_alone|done]|done].
  - simpl in *. assert (menus_well (set_menu id (menu_row m (ev_clock ev) y) d)) as HG'; [|by split; [apply affected_menus_alone|]].
    apply (menus_well_put d id (menu_row m (ev_clock ev) y)); [done|done| |exact Ha|done|done]. unfold web_menu in *.
    change (live_menu y && scoped y = true). by rewrite Hl, Hsc.
Qed.

Lemma UpdateMenuStatus_alone id s d : menus_well d → alone (UpdateMenuStatus Auto id s) d (λ _ d', menus_well d').
Proof.
  intros HG. unfold UpdateMenuStatus. alone_step; [by apply alone_fail|]. apply alone_bind, alone_stmt. intros ev.
  destruct (update_row_cases sys_menu id scoped (menu_status_row s (ev_clock ev)) d) as [E1|(y & Hy & Hl & Hsc & _ & _ & ->)].
  - rewrite E1. split; [destruct (update_row _ _ _ _ _).2; [by apply affected_menus_alone|done]|done].
  - simpl in *. assert (menus_well (set_menu id (menu_status_row s (ev_clock ev) y) d)) as HG'; [|by split; [apply affected_menus_alone|]].
    apply (menus_well_same d id y); [done|done| | |done|done]; change (live_menu y && scoped y = true); by rewrite Hl, Hsc.
Qed.

Lemma DeleteMenu_alone id d : menus_well d → alone (DeleteMenu id) d (λ _ d', menus_well d').
Proof.
  intros HG. unfold DeleteMenu. alone_step; [by apply alone_fail|]. apply Z.leb_gt in E. apply alone_transact; [done|]. unfold delete_menu_body, FindMenu.
  apply tx_bind. guard as E0; [apply tx_fail|]. apply tx_bind, tx_query_alone. intros ev row [= <-]. unfold found.
  destruct (live_row sys_menu d id) as [m|] eqn:Er; simpl; [|apply tx_fail]. destruct (scoped m) eqn:Esc; [apply tx_ret|apply tx_fail].
  apply live_row_Some in Er as [Hm Hl]. simpl in Hm, Hl.
  apply tx_bind, tx_query_alone. intros ev1 child [= <-]. cbn beta. guard as Ec; [apply tx_fail|]. apply tx_bind, tx_exec.
  intros ev2 v [] (d' & -> & _ & <- & _) _. apply tx_bind. unfold Update. apply tx_exec. intros ev3 v n -> _. apply tx_ret. cbn [written held_rows committed current fst].
  set (d1 := { d with role_menus := _ }).
  assert (menus_well (update_row sys_menu id (λ _, true) (delete_menu_row (ev_clock ev3)) d1).1) as HG'; [|done].
  assert (menus_well d1) as HG1 by done.
  destruct (update_row_cases sys_menu id (λ _, true) (delete_menu_row (ev_clock ev3)) d1) as [->|(y & Hy & _ & _ & _ & _ & ->)]; [done|].
  destruct (menus_well_drop d1 id (delete_menu_row (ev_clock ev3) y)) as [HG2|?]; [done|done| |exact HG2|done].
  intros k c Hk Hc Hp. enough (existsb (λ r : Z * Menu, live_menu r.2 && bool_decide (m_ParentID r.2 = Some id)) (rows (menus d)) = true) by congruence.
  apply existsb_exists. exists (k, c). split; [by apply list_elem_of_In, elem_of_rows|]. simpl. by rewrite Hc, bool_decide_eq_true_2.
Qed.
End menus.

(** ** Handlers *)

Section handlers.
Context `{PgLib, PgText, BcryptLib, MailLib, Services, CasbinAdapter, PolicyNotifier, UrlLib}.

Lemma alone_run {A} (m : M A) d env w r (P : DB → Prop) :
  alone m d (λ _ d', P d') → undisturbed env → m (start d env) = (w, r) → P (w_db w).
Proof. intros Hm He E. specialize (Hm (start d env) He eq_refl). rewrite E in Hm. by destruct Hm. Qed.

Lemma alone_discard {A} (m : M A) d (P : DB → Prop) : alone m d (λ _ d', P d') → alone (discard m) d (λ _ d', P d').
Proof.
  intros Hm. apply alone_bind. intros w He Hd. specialize (Hm w He Hd). destruct (m w) as [w' [a|e]]; destruct Hm; (split; [done|]); [by apply alone_ret|done].
Qed.

(** What an operation on a tree keeps. *)
Definition keeps_trees (op : Op) (d d' : DB) : Prop :=
  match op with
  | OpCreateDepartment _ _ _ _ _ | OpUpdateDepartment _ _ _ _ _ | OpUpdateDepartmentStatus _ _ | OpDeleteDepartment _ =>
      grows_well d → grows_well d'
  | OpCreateMenu _ _ | OpUpdateMenu _ _ | OpUpdateMenuStatus _ _ | OpDeleteMenu _ => menus_well d → menus_well d'
  | _ => True
  end.

(** C30: the validation of a department's parent accepts exactly the parents that lead to a
    root without meeting the department, and reports a cycle exactly when the parents lead
    neither to a root nor out of the table; undisturbed operations, whatever fails, keep
    every department and every menu below a root, and nothing below a menu element. *)
Theorem trees_kept l d id candidate op env w r :
  l ≡ₚ filter (λ x : Z * Department, live_department x.2 = true) (rows (departments d)) →
  undisturbed env → run op (start d env) = (w, r) →
  (validateDepartmentTree l id candidate = None ↔ department_allowed (department_tree d) id candidate) ∧
  (validateDepartmentTree l id candidate = Some [ErrDepartmentCycle] ↔
     (0 < id → is_Some (department_tree d !! id)) ∧
     ∃ p, candidate = Some p ∧ is_Some (department_tree d !! p) ∧ ¬ rooted (department_tree d) id p ∧ ¬ dangling (department_tree d) id p) ∧
  keeps_trees op d (w_db w).
Proof.
  intros Hl He E. destruct (validate_department_spec l (departments d) id candidate Hl) as [Ha Hc]. split_and!; [exact Ha|exact Hc|].
  destruct op; simpl in *; try done; intros HG; eapply alone_run; try exact E; try exact He; clear E w r; try apply alone_discard;
    unfold CreateDepartmentLogic, UpdateDepartmentLogic, UpdateDepartmentStatusLogic, DeleteDepartmentLogic, CreateMenuLogic, UpdateMenuLogic,
      UpdateMenuStatusLogic, DeleteMenuLogic; (alone_step; [by apply alone_fail|]).
  - by apply alone_map_error, CreateDepartment_alone.
  - by apply alone_map_error, UpdateDepartment_alone.
  - by apply alone_map_error, UpdateDepartmentStatus_alone.
  - by apply alone_map_error, DeleteDepartment_alone.
  - apply alone_bind, alone_lift. destruct (normalizeMenuInput f); [by apply alone_map_error, CreateMenu_alone|done].
  - apply alone_bind, alone_lift. destruct (normalizeMenuInput f); [by apply alone_map_error, UpdateMenu_alone|done].
  - by apply alone_map_error, UpdateMenuStatus_alone.
  - by apply alone_map_error, DeleteMenu_alone.
Qed.
End handlers.

(** ** Witnesses *)

Lemma demo_grows_well : grows_well demo_db.
Proof.
  split_and!; [intros id x Hx; cbn in Hx; demo_rows; lia|done|].
  intros p [v (x & Hx & _ & ->)%lookup_parents]. assert (department_tree demo_db !! 1 = Some None) as E1 by done.
  assert (rooted (department_tree demo_db) 0 1) as Hr1 by (by apply rooted_root).
  cbn in Hx. demo_rows; [done|by apply (rooted_step _ _ 2 1)|by apply (rooted_step _ _ 3 1)].
Qed.

(** "legal" moves below "sales". *)
Definition demo_move : World * Result unit := run (OpUpdateDepartment 3 2 "legal" "" 0) (start demo_db calm).

Lemma trees_kept_witness :
  demo_move.2 = Ok tt ∧ department_tree (w_db demo_move.1) !! 3 = Some (Some 2) ∧ grows_well (w_db demo_move.1).
Proof.
  split; [vm_compute; reflexivity|split; [vm_compute; reflexivity|]].
  exact (proj2 (proj2 (trees_kept _ demo_db 0 None (OpUpdateDepartment 3 2 "legal" "" 0) calm demo_move.1 demo_move.2
    (Permutation_refl _) ltac:(intros n L d; reflexivity) (surjective_pairing _))) demo_grows_well).
Defined.

(** Another session moves "legal" below "sales" between the validation and the update. *)
Definition racing : nat → Event := λ n,
  if (n =? 1)%nat
  then {| ev_others := λ _ d, w_db (run (OpUpdateDepartment 3 2 "legal" "" 0) (start d calm)).1; ev_clock := 0; ev_fault := None;
          ev_locked := false; ev_done := false; ev_random := 0 |}
  else quiet 0.
Definition demo_race : World * Result unit := run (OpUpdateDepartment 2 3 "sales" "" 0) (start demo_db racing).

(** Both moves succeed, and the two departments are below each other and no root. *)
Lemma concurrent_moves_cycle :
  demo_race.2 = Ok tt ∧ grows_well demo_db ∧ ¬ forest (department_tree (w_db demo_race.1)).
Proof.
  split_and!; [vm_compute; reflexivity|apply demo_grows_well|].
  set (t := department_tree (w_db demo_race.1)).
  assert (t !! 2 = Some (Some 3)) as E2 by (vm_compute; reflexivity). assert (t !! 3 = Some (Some 2)) as E3 by (vm_compute; reflexivity).
  intros Hf. assert (rooted t 0 2) as Hr by (apply Hf; by eexists). clearbody t. clear Hf.
  assert (∀ p, rooted t 0 p → p = 2 ∨ p = 3 → False) as Hno.
  { induction 1 as [p Hp Hn|p q Hp Hn _ IH]; intros [->| ->]; simplify_eq; apply IH; auto. }
  by apply (Hno 2); [|left].
Qed.
