(* ===== verification/Dictionaries.v ===== *)
(** * Dictionaries and their cache

    apps/system/internal/model/dictionary.go and dictionary_item.go, the repositories
    dictionary_repository.go and dictionary_item_repository.go, the Redis cache of
    apps/system/internal/dictcache/cache.go, and the dictionary handlers of
    apps/system/rpc/internal/logic.  A handler is a program of SQL statements, each its own
    transaction, and Redis commands; handlers of all processes interleave between them. *)

From S2P Require Import Prelude GoLib GoText Tx Model JobRepo RpcErrors Redis SysModel UserRepo Accounts SysLogic.

Open Scope string_scope.
Open Scope list_scope.
Open Scope Z_scope.

(** ** Rows *)

Record Dictionary := {
  di_Name : string; di_Code : string; di_Remark : string; di_Status : RecordStatus; di_IsPublic : bool;
  di_CreatedAt : Time; di_UpdatedAt : Time; di_DeletedAt : option Time;
}.
Record DictionaryItem := {
  dt_DictionaryID : Z; dt_Label : string; dt_Value : string; dt_Sort : Z; dt_Remark : string; dt_Status : RecordStatus;
  dt_CreatedAt : Time; dt_UpdatedAt : Time; dt_DeletedAt : option Time;
}.

Record Tables := {
  dictionaries : gmap Z Dictionary; dictionary_items : gmap Z DictionaryItem; next_dictionary : Z; next_dictionary_item : Z;
}.

Definition live_dictionary (d : Dictionary) : bool := bool_decide (di_DeletedAt d = None).
Definition live_item (i : DictionaryItem) : bool := bool_decide (dt_DeletedAt i = None).

(** [^[a-z][a-z0-9_-]{0,63}$], in the handlers and in the migration. *)
Definition code_byte (b : Z) : bool := between 97 122 b || is_digit b || (b =? 95) || (b =? 45).
Definition dictionaryCodePattern (code : string) : bool :=
  match bytes code with
  | [] => false
  | b :: l => between 97 122 b && forallb code_byte l && (Z.of_nat (length l) <=? 63)
  end.

Definition dictionary_error (d : Dictionary) : option Error :=
  first_error [varchar_error 128 (di_Name d); varchar_error 64 (di_Code d); varchar_error 500 (di_Remark d);
    unless (not_blank (di_Name d)) (check_violation "sys_dictionary_name_check");
    unless (dictionaryCodePattern (di_Code d)) (check_violation "sys_dictionary_code_check");
    unless (one_of (di_Status d)) (check_violation "sys_dictionary_status_check")].
Definition item_error (i : DictionaryItem) : option Error :=
  first_error [varchar_error 128 (dt_Label i); varchar_error 128 (dt_Value i); varchar_error 500 (dt_Remark i);
    unless (in_int32 (dt_Sort i)) [PgError "22003" ""];
    unless (not_blank (dt_Label i)) (check_violation "sys_dictionary_item_label_check");
    unless (not_blank (dt_Value i)) (check_violation "sys_dictionary_item_value_check");
    unless (0 <=? dt_Sort i) (check_violation "sys_dictionary_item_sort_check");
    unless (one_of (dt_Status i)) (check_violation "sys_dictionary_item_status_check")].

Definition dictionary_conflict (id : Z) (d : Dictionary) (t : Tables) : bool :=
  live_dictionary d && taken (dictionaries t) id (λ v, live_dictionary v && bool_decide (di_Code v = di_Code d)).
Definition item_conflict (id : Z) (i : DictionaryItem) (t : Tables) : bool :=
  live_item i && taken (dictionary_items t) id (λ v, live_item v &&
    (dt_DictionaryID v =? dt_DictionaryID i) && bool_decide (dt_Value v = dt_Value i)).

(** ** Statements *)

(** A new version of a row, unless a constraint refuses it. *)
Definition put_dictionary (id : Z) (d : Dictionary) (t : Tables) : Tables * Result Z :=
  match dictionary_error d with
  | Some e => (t, Fail e)
  | None => if dictionary_conflict id d t then (t, Fail [PgError "23505" "uk_sys_dictionary_code_active"])
            else ({ t with dictionaries := <[id := d]> (dictionaries t) }, Ok 1)
  end.
Definition put_item (id : Z) (i : DictionaryItem) (t : Tables) : Tables * Result Z :=
  match item_error i with
  | Some e => (t, Fail e)
  | None => if item_conflict id i t then (t, Fail [PgError "23505" "uk_sys_dictionary_item_value_active"])
            else ({ t with dictionary_items := <[id := i]> (dictionary_items t) }, Ok 1)
  end.

(** [INSERT]; the identity of the new row. *)
Definition insert_dictionary (d : Dictionary) (t : Tables) : Tables * Result Z :=
  let id := next_dictionary t in
  if bool_decide (is_Some (dictionaries t !! id)) then (t, Fail [PgError "23505" "sys_dictionary_pkey"])
  else match put_dictionary id d t with
       | (t', Ok _) => ({ t' with next_dictionary := id + 1 }, Ok id)
       | (t', Fail e) => (t', Fail e)
       end.
Definition insert_item (i : DictionaryItem) (t : Tables) : Tables * Result Z :=
  let id := next_dictionary_item t in
  if bool_decide (is_Some (dictionary_items t !! id)) then (t, Fail [PgError "23505" "sys_dictionary_item_pkey"])
  else match put_item id i t with
       | (t', Ok _) => ({ t' with next_dictionary_item := id + 1 }, Ok id)
       | (t', Fail e) => (t', Fail e)
       end.

Definition live_dictionary_row (t : Tables) (id : Z) : option Dictionary :=
  d ← dictionaries t !! id; if live_dictionary d then Some d else None.
Definition live_item_row (t : Tables) (id : Z) : option DictionaryItem :=
  i ← dictionary_items t !! id; if live_item i then Some i else None.

(** [UPDATE ... WHERE id = ? AND P AND deleted_at IS NULL]; the affected rows. *)
Definition update_dictionary (id : Z) (P : bool) (upd : Dictionary → Dictionary) (t : Tables) : Tables * Result Z :=
  match live_dictionary_row t id with
  | Some d => if P then put_dictionary id (upd d) t else (t, Ok 0)
  | None => (t, Ok 0)
  end.
Definition update_item (id : Z) (upd : DictionaryItem → DictionaryItem) (t : Tables) : Tables * Result Z :=
  match live_item_row t id with
  | Some i => put_item id (upd i) t
  | None => (t, Ok 0)
  end.

(** ** Commands *)

(** An SQL statement with the clock it sees, or a Redis command. *)
Inductive DictCmd : Type → Type :=
| SQL {X} (stmt : Time → Tables → Tables * Result X) : DictCmd X
| MGET (keys : list string) : DictCmd (list string)
| EVAL_PUT (index key payload : string) (seconds : Z) : DictCmd unit
| EVAL_REMOVE (index : string) (keys : list string) : DictCmd unit
| SSCAN (key : string) (cursor : Z) : DictCmd (list string * Z).

(** A missing key, and one of another type, is read as the empty text. *)
Definition redis_mget (r : Redis) (keys : list string) : list string :=
  (λ key, match redis_get r key with Ok (Some v) => v | _ => "" end) <$> keys.

Definition putScript (r : Redis) (index key payload : string) (seconds : Z) : Redis * Result unit :=
  match redis_sadd r index key with
  | (r1, Ok _) => redis_setex r1 key payload seconds
  | (r1, Fail e) => (r1, Fail e)
  end.

(** A script that fails keeps what it did before. *)
Fixpoint removeScript (r : Redis) (index : string) (keys : list string) : Redis * Result unit :=
  match keys with
  | [] => (r, Ok tt)
  | key :: keys =>
      match redis_srem (redis_del r [key]) index key with
      | (r1, Ok _) => removeScript r1 index keys
      | (r1, Fail e) => (r1, Fail e)
      end
  end.

(** The PostgreSQL tables and the Redis keyspace. *)
Record Stores := { st_tables : Tables; st_redis : Redis }.

Definition dict_effect X (q : DictCmd X) : Stores → Stores → Result X → Prop :=
  match q in DictCmd X return Stores → Stores → Result X → Prop with
  | SQL stmt => λ s s' r, ∃ now, s' = { s with st_tables := (stmt now (st_tables s)).1 } ∧ r = (stmt now (st_tables s)).2
  | MGET keys => λ s s' r, s' = s ∧ r = Ok (redis_mget (st_redis s) keys)
  | EVAL_PUT index key payload seconds => λ s s' r,
      s' = { s with st_redis := (putScript (st_redis s) index key payload seconds).1 } ∧
      r = (putScript (st_redis s) index key payload seconds).2
  | EVAL_REMOVE index keys => λ s s' r,
      s' = { s with st_redis := (removeScript (st_redis s) index keys).1 } ∧ r = (removeScript (st_redis s) index keys).2
  | SSCAN key cursor => λ s s' r, s' = s ∧
      match redis_smembers (st_redis s) key with
      | Ok m => ∃ members next, r = Ok (members, next) ∧ ∀ i, i ∈ members → i ∈ m
      | Fail e => r = Fail e
      end
  end.

(** A call whose command fails returns that error. *)
Definition query {X} (f : Tables → Result X) : Prog DictCmd X := ask (SQL (λ _ t, (t, f t))).
Definition exec {X} (f : Time → Tables → Tables * Result X) : Prog DictCmd X := ask (SQL f).
Definition mapped {A} (f : Error → Error) (p : Prog DictCmd A) : Prog DictCmd A :=
  r <~ p; Ret (match r with Ok a => Ok a | Fail e => Fail (f e) end).

(** ** dictionary_repository.go *)

Definition ErrDictionaryNotFound : Cause := Sentinel "dictionary not found".
Definition ErrDictionaryCodeExists : Cause := Sentinel "dictionary code exists".
Definition ErrDictionaryHasItems : Cause := Sentinel "dictionary has items".

Definition mapDictionaryWriteError (e : Error) : Error :=
  match pg_code e with
  | Some (code, constraint) =>
      if bool_decide (code = "23505") && bool_decide (constraint = "uk_sys_dictionary_code_active")
      then [ErrDictionaryCodeExists] else e
  | None => e
  end.
Definition dictionaryWriteResult (p : Prog DictCmd Z) : Prog DictCmd unit :=
  n ← mapped mapDictionaryWriteError p;
  if n =? 0 then raise [ErrDictionaryNotFound] else mret tt.

Definition live_dictionaries (t : Tables) : list (Z * Dictionary) :=
  filter (λ r, live_dictionary r.2 = true) (rows (dictionaries t)).
Definition DictionaryList : Prog DictCmd (list (Z * Dictionary)) := query (λ t, Ok (live_dictionaries t)).
Definition DictionaryFindByCodes (codes : list string) : Prog DictCmd (list (Z * Dictionary)) :=
  if bool_decide (codes = []) then mret []
  else query (λ t, if forallb pg_text codes then Ok (filter (λ r, di_Code r.2 ∈ codes) (live_dictionaries t)) else invalid_text).
Definition DictionaryFindByID (id : Z) : Prog DictCmd Dictionary :=
  query (λ t, match live_dictionary_row t id with Some d => Ok d | None => Fail [ErrDictionaryNotFound] end).

Definition dictionary_row (name code remark : string) (status : RecordStatus) (public : bool) (now : Time) : Dictionary :=
  {| di_Name := name; di_Code := code; di_Remark := remark; di_Status := status; di_IsPublic := public;
     di_CreatedAt := now; di_UpdatedAt := now; di_DeletedAt := None |}.
Definition DictionaryCreate (row : Time → Dictionary) : Prog DictCmd Z :=
  mapped mapDictionaryWriteError (exec (λ now, insert_dictionary (row now))).

(** The code is not updated. *)
Definition fields_row (name remark : string) (public : bool) (now : Time) (d : Dictionary) : Dictionary :=
  { d with di_Name := name; di_Remark := remark; di_IsPublic := public; di_UpdatedAt := now }.
Definition DictionaryUpdate (id : Z) (name remark : string) (public : bool) : Prog DictCmd unit :=
  dictionaryWriteResult (exec (λ now, update_dictionary id true (fields_row name remark public now))).
Definition dictionary_status_row (status : RecordStatus) (now : Time) (d : Dictionary) : Dictionary :=
  { d with di_Status := status; di_UpdatedAt := now }.
Definition DictionaryUpdateStatus (id : Z) (status : RecordStatus) : Prog DictCmd unit :=
  dictionaryWriteResult (exec (λ now, update_dictionary id true (dictionary_status_row status now))).

(** [EXISTS (SELECT 1 FROM sys_dictionary_item WHERE dictionary_id = ? AND deleted_at IS NULL)] *)
Definition has_items (id : Z) (t : Tables) : bool :=
  existsb (λ r : Z * DictionaryItem, live_item r.2 && (dt_DictionaryID r.2 =? id)) (rows (dictionary_items t)).
Definition delete_dictionary_row (now : Time) (d : Dictionary) : Dictionary := { d with di_DeletedAt := Some now }.
Definition DictionaryDelete (id : Z) : Prog DictCmd unit :=
  n ← exec (λ now t, update_dictionary id (negb (has_items id t)) (delete_dictionary_row now) t);
  if 0 <? n then mret tt else _ ← DictionaryFindByID id; raise [ErrDictionaryHasItems].

(** ** dictionary_item_repository.go *)

Definition ErrDictionaryItemNotFound : Cause := Sentinel "dictionary item not found".
Definition ErrDictionaryValueExists : Cause := Sentinel "dictionary value exists".

Definition mapDictionaryItemWriteError (e : Error) : Error :=
  match pg_code e with
  | Some (code, constraint) =>
      if bool_decide (code = "23505") && bool_decide (constraint = "uk_sys_dictionary_item_value_active")
      then [ErrDictionaryValueExists] else e
  | None => e
  end.
Definition dictionaryItemWriteResult (p : Prog DictCmd Z) : Prog DictCmd unit :=
  n ← mapped mapDictionaryItemWriteError p;
  if n =? 0 then raise [ErrDictionaryItemNotFound] else mret tt.

(** The live items in the order [sort, id]. *)
Definition item_key (r : Z * DictionaryItem) : Z * Z := (dt_Sort r.2, r.1).
Definition listed_items (P : DictionaryItem → bool) (t : Tables) : list (Z * DictionaryItem) :=
  order_by item_key (filter (λ r, (live_item r.2 && P r.2) = true) (rows (dictionary_items t))).
Definition ItemListByDictionaryIDs (ids : list Z) : Prog DictCmd (list (Z * DictionaryItem)) :=
  if bool_decide (ids = []) then mret [] else query (λ t, Ok (listed_items (λ i, bool_decide (dt_DictionaryID i ∈ ids)) t)).
Definition ItemFindByID (id : Z) : Prog DictCmd DictionaryItem :=
  query (λ t, match live_item_row t id with Some i => Ok i | None => Fail [ErrDictionaryItemNotFound] end).

Definition item_row (dictionary : Z) (label value : string) (sort : Z) (remark : string) (status : RecordStatus) (now : Time)
    : DictionaryItem :=
  {| dt_DictionaryID := dictionary; dt_Label := label; dt_Value := value; dt_Sort := sort; dt_Remark := remark; dt_Status := status;
     dt_CreatedAt := now; dt_UpdatedAt := now; dt_DeletedAt := None |}.
Definition ItemCreate (row : Time → DictionaryItem) : Prog DictCmd Z :=
  mapped mapDictionaryItemWriteError (exec (λ now, insert_item (row now))).
(** The value and the dictionary are not updated. *)
Definition item_fields_row (label : string) (sort : Z) (remark : string) (now : Time) (i : DictionaryItem) : DictionaryItem :=
  { i with dt_Label := label; dt_Sort := sort; dt_Remark := remark; dt_UpdatedAt := now }.
Definition ItemUpdate (id : Z) (label : string) (sort : Z) (remark : string) : Prog DictCmd unit :=
  dictionaryItemWriteResult (exec (λ now, update_item id (item_fields_row label sort remark now))).
Definition item_status_row (status : RecordStatus) (now : Time) (i : DictionaryItem) : DictionaryItem :=
  { i with dt_Status := status; dt_UpdatedAt := now }.
Definition ItemUpdateStatus (id : Z) (status : RecordStatus) : Prog DictCmd unit :=
  dictionaryItemWriteResult (exec (λ now, update_item id (item_status_row status now))).
Definition delete_item_row (now : Time) (i : DictionaryItem) : DictionaryItem := { i with dt_DeletedAt := Some now }.
Definition ItemDelete (id : Z) : Prog DictCmd unit :=
  dictionaryItemWriteResult (exec (λ now, update_item id (delete_item_row now))).

(** ** dictcache/cache.go *)

Definition TTLSeconds : Z := 24 * 60 * 60.
Definition keyPrefix : string := "dogx:system:{dict}:".
Definition cache_key (code : string) : string := keyPrefix +:+ code.
Definition cache_index : string := cache_key "_index".

Record Item := { im_Label : string; im_Value : string; im_Status : Z; im_Sort : Z }.
(** [Items] is [None] for a nil slice. *)
Record Entry := { en_Status : Z; en_IsPublic : bool; en_Items : option (list Item) }.
Definition zero_item : Item := {| im_Label := ""; im_Value := ""; im_Status := 0; im_Sort := 0 |}.
Definition zero_entry : Entry := {| en_Status := 0; en_IsPublic := false; en_Items := None |}.

Definition item_json (i : Item) : json :=
  JObject [("label", JString (im_Label i)); ("value", JString (im_Value i)); ("status", JInt (im_Status i)); ("sort", JInt (im_Sort i))].
Definition entry_json (e : Entry) : json :=
  JObject [("status", JInt (en_Status e)); ("isPublic", JBool (en_IsPublic e));
           ("items", match en_Items e with Some l => JArray (item_json <$> l) | None => JNull end)].

Definition item_decode (j : json) : option Item :=
  l ← members j;
  label ← decode_with as_string "" (jget "label" l);
  value ← decode_with as_string "" (jget "value" l);
  status ← decode_with as_int32 0 (jget "status" l);
  sort ← decode_with as_int32 0 (jget "sort" l);
  Some {| im_Label := label; im_Value := value; im_Status := status; im_Sort := sort |}.
Definition items_decode (j : json) : option (option (list Item)) :=
  match j with JArray l => items ← mapM item_decode l; Some (Some items) | _ => None end.
Definition entry_decode (j : json) : option Entry :=
  l ← members j;
  status ← decode_with as_int32 0 (jget "status" l);
  public ← decode_with as_bool false (jget "isPublic" l);
  items ← decode_with items_decode None (jget "items" l);
  Some {| en_Status := status; en_IsPublic := public; en_Items := items |}.

(** Keys the cache owns, with the index itself left out. *)
Definition owned_key (key : string) : bool :=
  (Z.of_nat (String.length keyPrefix) <? Z.of_nat (String.length key)) && HasPrefix key keyPrefix &&
  negb (bool_decide (key = cache_index)).

(** The keys in batches of 200. *)
Fixpoint clear_batches (fuel : nat) (keys : list string) : list (list string) :=
  match fuel, keys with
  | S fuel, _ :: _ => firstn 200 keys :: clear_batches fuel (skipn 200 keys)
  | _, _ => []
  end.
Fixpoint remove_batches (bs : list (list string)) : Prog DictCmd unit :=
  match bs with
  | [] => mret tt
  | b :: bs => _ ← ask (EVAL_REMOVE cache_index b); remove_batches bs
  end.

(** [turns] bounds the pages of the scan; a scan with more pages is still running. *)
Fixpoint clear_scan (turns : nat) (cursor : Z) : Prog DictCmd unit :=
  match turns with
  | O => Spin
  | S turns =>
      page ← ask (SSCAN cache_index cursor);
      let owned := filter (λ key, owned_key key = true) page.1 in
      _ ← remove_batches (clear_batches (length owned) owned);
      if page.2 =? 0 then mret tt else clear_scan turns page.2
  end.
Definition CacheClear (turns : nat) : Prog DictCmd unit := clear_scan turns 0.
Definition CacheInvalidate (code : string) : Prog DictCmd unit := ask (EVAL_REMOVE cache_index [cache_key code]).

Section cache.
Context `{JsonText}.

(** A value that is missing, malformed or has no items is a miss. *)
Definition read_value (value : string) : option Entry :=
  if bool_decide (value = "") then None
  else match Unmarshal value with
       | Some j => e ← entry_decode j; match en_Items e with Some _ => Some e | None => None end
       | None => None
       end.
Definition read_values (codes values : list string) : gmap string Entry :=
  foldl (λ m p, match read_value p.2 with Some e => <[p.1 := e]> m | None => m end) ∅ (zip codes values).
Definition CacheRead (codes : list string) : Prog DictCmd (gmap string Entry) :=
  if bool_decide (codes = []) then mret ∅
  else
    values ← ask (MGET (cache_key <$> codes));
    if bool_decide (length values = length codes) then mret (read_values codes values)
    else raise [Text "invalid dictionary cache response"].

Definition with_items (e : Entry) : Entry := { e with en_Items := Some (default [] (en_Items e)) }.
Definition CachePut (code : string) (e : Entry) : Prog DictCmd unit :=
  ask (EVAL_PUT cache_index (cache_key code) (Marshal (entry_json (with_items e))) TTLSeconds).

(** ** Handlers *)

Definition DictionaryNotFound : string := "system.dictionary.not_found".
Definition DictionaryCodeExists : string := "system.dictionary.code_exists".
Definition DictionaryHasItems : string := "system.dictionary.has_items".
Definition DictionaryItemNotFound : string := "system.dictionary.item_not_found".
Definition DictionaryValueExists : string := "system.dictionary.value_exists".
Definition DictionaryCacheInvalidationFailed : string := "system.dictionary.cache_invalidation_failed".

Definition validDictionaryText (value : string) (max : Z) : bool :=
  negb (bool_decide (TrimSpace value = "")) && (RuneCountInString value <=? max).
Definition validDictionaryFields (name remark : string) : bool :=
  validDictionaryText name 128 && (RuneCountInString remark <=? 500).
Definition invalidDictionaryRequest : Error := status_error codes_InvalidArgument "invalid dictionary request".
Definition dictionaryError (e : Error) : Error :=
  if errors_is e ErrDictionaryNotFound then New DictionaryNotFound "字典不存在"
  else if errors_is e ErrDictionaryCodeExists then New DictionaryCodeExists "字典编码已存在"
  else if errors_is e ErrDictionaryHasItems then New DictionaryHasItems "字典存在字典项，不能删除"
  else if errors_is e ErrDictionaryItemNotFound then New DictionaryItemNotFound "字典项不存在"
  else if errors_is e ErrDictionaryValueExists then New DictionaryValueExists "该字典值已存在"
  else e.
Definition invalidation_failed : Error := New DictionaryCacheInvalidationFailed "数据已保存，但缓存清理失败，请使用刷新缓存重试".
Definition invalidateDictionary (code : string) : Prog DictCmd unit :=
  mapped (λ _, invalidation_failed) (CacheInvalidate code).

Definition require (b : bool) : Prog DictCmd unit := if b then mret tt else raise invalidDictionaryRequest.

Definition CreateDictionaryLogic (name code remark : string) (status : Z) (public : bool) : Prog DictCmd Z :=
  _ ← require (validDictionaryFields name remark && dictionaryCodePattern code && validRecordStatus status);
  id ← mapped dictionaryError (DictionaryCreate (dictionary_row (TrimSpace name) code (TrimSpace remark) (status_of status) public));
  _ ← invalidateDictionary code;
  mret id.
Definition UpdateDictionaryLogic (id : Z) (name remark : string) (public : bool) : Prog DictCmd unit :=
  _ ← require ((0 <? id) && validDictionaryFields name remark);
  current ← mapped dictionaryError (DictionaryFindByID id);
  _ ← mapped dictionaryError (DictionaryUpdate id (TrimSpace name) (TrimSpace remark) public);
  invalidateDictionary (di_Code current).
Definition UpdateDictionaryStatusLogic (id status : Z) : Prog DictCmd unit :=
  _ ← require ((0 <? id) && validRecordStatus status);
  current ← mapped dictionaryError (DictionaryFindByID id);
  _ ← mapped dictionaryError (DictionaryUpdateStatus id (status_of status));
  invalidateDictionary (di_Code current).
Definition DeleteDictionaryLogic (id : Z) : Prog DictCmd unit :=
  _ ← require (0 <? id);
  current ← mapped dictionaryError (DictionaryFindByID id);
  _ ← mapped dictionaryError (DictionaryDelete id);
  invalidateDictionary (di_Code current).
Definition CreateDictionaryItemLogic (dictionaryID : Z) (label value : string) (sort : Z) (remark : string) (status : Z) : Prog DictCmd Z :=
  _ ← require ((0 <? dictionaryID) && validDictionaryFields label remark && validDictionaryText value 128 && (0 <=? sort) &&
               validRecordStatus status);
  dictionary ← mapped dictionaryError (DictionaryFindByID dictionaryID);
  id ← mapped dictionaryError (ItemCreate (item_row dictionaryID (TrimSpace label) (TrimSpace value) sort (TrimSpace remark) (status_of status)));
  _ ← invalidateDictionary (di_Code dictionary);
  mret id.

(** What the other item handlers share: the item and its dictionary are looked up first. *)
Definition change_item (id : Z) (valid : bool) (write : Prog DictCmd unit) : Prog DictCmd unit :=
  _ ← require ((0 <? id) && valid);
  current ← mapped dictionaryError (ItemFindByID id);
  dictionary ← mapped dictionaryError (DictionaryFindByID (dt_DictionaryID current));
  _ ← mapped dictionaryError write;
  invalidateDictionary (di_Code dictionary).
Definition UpdateDictionaryItemLogic (id : Z) (label : string) (sort : Z) (remark : string) : Prog DictCmd unit :=
  change_item id (validDictionaryFields label remark && (0 <=? sort)) (ItemUpdate id (TrimSpace label) sort (TrimSpace remark)).
Definition UpdateDictionaryItemStatusLogic (id status : Z) : Prog DictCmd unit :=
  change_item id (validRecordStatus status) (ItemUpdateStatus id (status_of status)).
Definition DeleteDictionaryItemLogic (id : Z) : Prog DictCmd unit := change_item id true (ItemDelete id).
Definition ClearDictionaryCacheLogic (turns : nat) : Prog DictCmd unit := CacheClear turns.

Definition GetDictionaryLogic (id : Z) : Prog DictCmd Dictionary :=
  _ ← require (0 <? id); mapped dictionaryError (DictionaryFindByID id).
Definition GetDictionaryItemLogic (id : Z) : Prog DictCmd DictionaryItem :=
  _ ← require (0 <? id); mapped dictionaryError (ItemFindByID id).
Definition ListDictionariesLogic : Prog DictCmd (list (Z * Dictionary)) := mapped dictionaryError DictionaryList.
Definition ListDictionaryItemsLogic (dictionaryID : Z) : Prog DictCmd (list (Z * DictionaryItem)) :=
  _ ← require (0 <? dictionaryID);
  _ ← mapped dictionaryError (DictionaryFindByID dictionaryID);
  mapped dictionaryError (ItemListByDictionaryIDs [dictionaryID]).

(** ** Reading dictionaries through the cache *)

Definition status_code (s : RecordStatus) : Z :=
  match s with RecordStatusDisabled => 0 | RecordStatusEnabled => 1 | RecordStatusCode c => c end.
Definition item_of (i : DictionaryItem) : Item :=
  {| im_Label := dt_Label i; im_Value := dt_Value i; im_Status := status_code (dt_Status i); im_Sort := dt_Sort i |}.

(** The first occurrences of the codes. *)
Fixpoint distinct (seen : gset string) (codes : list string) : list string :=
  match codes with
  | [] => []
  | c :: codes => if bool_decide (c ∈ seen) then distinct seen codes else c :: distinct ({[c]} ∪ seen) codes
  end.

(** The rows read from the database, as entries. *)
Definition add_dictionary (m : gmap string Entry) (r : Z * Dictionary) : gmap string Entry :=
  <[di_Code r.2 := {| en_Status := status_code (di_Status r.2); en_IsPublic := di_IsPublic r.2; en_Items := Some [] |}]> m.
Definition add_item (byID : gmap Z string) (m : gmap string Entry) (r : Z * DictionaryItem) : gmap string Entry :=
  let code := default "" (byID !! dt_DictionaryID r.2) in
  let entry := default zero_entry (m !! code) in
  <[code := { entry with en_Items := Some (default [] (en_Items entry) ++ [item_of r.2]) }]> m.
Definition codes_by_id (ds : list (Z * Dictionary)) : gmap Z string := foldl (λ m r, <[r.1 := di_Code r.2]> m) ∅ ds.

(** A cache that cannot be filled is only logged. *)
Fixpoint fill (entries : gmap string Entry) (ds : list (Z * Dictionary)) : Prog DictCmd unit :=
  match ds with
  | [] => mret tt
  | d :: ds => _ <~ CachePut (di_Code d.2) (default zero_entry (entries !! di_Code d.2)); fill entries ds
  end.
Definition load_missing (entries : gmap string Entry) (missing : list string) : Prog DictCmd (gmap string Entry) :=
  ds ← mapped dictionaryError (DictionaryFindByCodes missing);
  items ← mapped dictionaryError (ItemListByDictionaryIDs ds.*1);
  let entries := foldl (add_item (codes_by_id ds)) (foldl add_dictionary entries ds) items in
  _ ← fill entries ds;
  mret entries.

(** One entry of the answer; [None] when the dictionary is omitted. *)
Definition option_of (publicOnly : bool) (entries : gmap string Entry) (code : string) : option (string * Z * list Item) :=
  entry ← entries !! code;
  if publicOnly && negb (en_IsPublic entry) then None else Some (code, en_Status entry, default [] (en_Items entry)).

Definition ReadDictionariesLogic (codes : list string) (publicOnly : bool) : Prog DictCmd (list (string * Z * list Item)) :=
  _ ← require (bool_decide (codes ≠ []) && (length codes <=? 50)%nat);
  _ ← require (forallb dictionaryCodePattern codes);
  let codes := distinct ∅ codes in
  r <~ CacheRead codes;
  let entries := match r with Ok m => m | Fail _ => ∅ end in
  let missing := filter (λ c, entries !! c = None) codes in
  entries ← (if bool_decide (missing = []) then mret entries else load_missing entries missing);
  mret (omap (option_of publicOnly entries) codes).
End cache.
