(* ===== verification/DictionaryCache.v ===== *)
(** * The dictionary cache serves what the database holds

    Dictionaries.v against a reference that reads the tables alone.  Concurrent readers and a
    Redis that fails at any command never make an answer wrong, and a change that is
    acknowledged has removed what the cache held, as long as no reader runs beside it. *)

From S2P Require Import Sessions SessionsInv SessionsDemo.
From S2P Require Import Prelude GoLib GoText Tx Model JobRepo RpcErrors Redis SysModel UserRepo Accounts SysLogic Dictionaries.

Open Scope string_scope.
Open Scope list_scope.
Open Scope Z_scope.

(** ** The reference *)

Definition entry_for (t : Tables) (id : Z) (d : Dictionary) : Entry :=
  {| en_Status := status_code (di_Status d); en_IsPublic := di_IsPublic d;
     en_Items := Some (item_of <$> (listed_items (λ i, dt_DictionaryID i =? id) t).*2) |}.

(** What the tables hold under a code. *)
Definition fresh (t : Tables) (code : string) : option Entry :=
  match filter (λ r, di_Code r.2 = code) (live_dictionaries t) with
  | (id, d) :: _ => Some (entry_for t id d)
  | [] => None
  end.

(** The answer to a request, from the tables alone. *)
Definition answers (t : Tables) (codes : list string) (publicOnly : bool) : list (string * Z * list Item) :=
  omap (λ code, e ← fresh t code;
                if publicOnly && negb (en_IsPublic e) then None else Some (code, en_Status e, default [] (en_Items e)))
       (distinct ∅ codes).

Record tables_ok (t : Tables) : Prop := {
  ok_codes : ∀ i j d e, dictionaries t !! i = Some d → dictionaries t !! j = Some e →
    live_dictionary d = true → live_dictionary e = true → di_Code d = di_Code e → i = j;
  ok_dictionary : ∀ i d, dictionaries t !! i = Some d → dictionary_error d = None;
  ok_item : ∀ i x, dictionary_items t !! i = Some x → item_error x = None;
}.

Lemma elem_of_live_dictionaries t r :
  r ∈ live_dictionaries t ↔ dictionaries t !! r.1 = Some r.2 ∧ live_dictionary r.2 = true.
Proof. destruct r as [i d]. unfold live_dictionaries. rewrite list_elem_of_filter, elem_of_rows. naive_solver. Qed.
Lemma NoDup_fmap_filter {A B} (f : A → B) (P : A → Prop) `{!∀ x, Decision (P x)} l : NoDup (f <$> l) → NoDup (f <$> filter P l).
Proof. intros Hnd. eapply sublist_NoDup; [exact Hnd|]. by apply fmap_sublist, sublist_filter. Qed.
Lemma NoDup_live_dictionaries t : NoDup (live_dictionaries t).*1.
Proof. apply NoDup_fmap_filter, NoDup_rows. Qed.

Lemma fresh_Some t code e : tables_ok t →
  fresh t code = Some e ↔ ∃ id d, (id, d) ∈ live_dictionaries t ∧ di_Code d = code ∧ e = entry_for t id d.
Proof.
  intros Hok. unfold fresh. destruct (filter _ _) as [|[i d] l] eqn:El.
  - split; [done|]. intros (id & d & Hin & Hc & _). exfalso.
    assert ((id, d) ∈ filter (λ r, di_Code r.2 = code) (live_dictionaries t)) as Hf by (by apply list_elem_of_filter).
    rewrite El in Hf. by apply elem_of_nil in Hf.
  - assert ((i, d) ∈ filter (λ r, di_Code r.2 = code) (live_dictionaries t)) as [Hc Hin]%list_elem_of_filter by (rewrite El; by left).
    split; [intros [= <-]; eauto|]. intros (j & x & Hx & Hxc & ->). simpl in Hc.
    pose proof Hin as [H1 H2]%elem_of_live_dictionaries. pose proof Hx as [H3 H4]%elem_of_live_dictionaries. simpl in *.
    assert (i = j) as <- by (eapply (ok_codes _ Hok); [done..|]; congruence). congruence.
Qed.

Lemma fresh_None t code : tables_ok t → fresh t code = None ↔ ∀ r, r ∈ live_dictionaries t → di_Code r.2 ≠ code.
Proof.
  intros Hok. rewrite eq_None_not_Some. split.
  - intros Hn [i d] Hr Hc. apply Hn. exists (entry_for t i d). apply fresh_Some; eauto.
  - intros Hn [e (i & d & Hr & Hc & _)%fresh_Some]; [|done]. by eapply (Hn (i, d)).
Qed.

(** ** Entries of rows and their texts *)

Definition entry_valid (e : Entry) : Prop :=
  in_int32 (en_Status e) = true ∧
  ∃ l, en_Items e = Some l ∧ Forall (λ i, in_int32 (im_Status i) = true ∧ in_int32 (im_Sort i) = true) l.

Lemma fresh_valid t code e : tables_ok t → fresh t code = Some e → entry_valid e.
Proof.
  intros Hok (id & d & [Hd _]%elem_of_live_dictionaries & _ & ->)%fresh_Some; [|done]. simpl in Hd. split; simpl.
  - pose proof (ok_dictionary _ Hok _ _ Hd) as He. unfold dictionary_error in He.
    assert (unless (one_of (di_Status d)) (check_violation "sys_dictionary_status_check") = None) as Hs%unless_None
      by (eapply first_error_None; [exact He|set_solver]).
    by destruct (di_Status d).
  - eexists. split; [done|]. apply Forall_fmap, Forall_fmap, Forall_forall. intros [i x] Hx. simpl.
    unfold listed_items in Hx. rewrite elem_of_order_by, list_elem_of_filter, elem_of_rows in Hx. destruct Hx as [_ Hx].
    pose proof (ok_item _ Hok _ _ Hx) as He. unfold item_error in He. split.
    + assert (unless (one_of (dt_Status x)) (check_violation "sys_dictionary_item_status_check") = None) as Hs%unless_None
        by (eapply first_error_None; [exact He|set_solver]). by destruct (dt_Status x).
    + eapply (unless_None _ [PgError "22003" ""]), first_error_None; [exact He|set_solver].
Qed.

Lemma item_round i : in_int32 (im_Status i) = true → in_int32 (im_Sort i) = true → item_decode (item_json i) = Some i.
Proof.
  intros H1 H2. unfold item_decode, item_json. simpl members. jget_simpl. simpl. unfold as_int32, as_int. rewrite H1, H2. simpl. by destruct i.
Qed.
#[local] Arguments item_json : simpl never.
#[local] Arguments item_decode : simpl never.
Lemma items_round l : Forall (λ i, in_int32 (im_Status i) = true ∧ in_int32 (im_Sort i) = true) l → mapM item_decode (item_json <$> l) = Some l.
Proof. induction 1 as [|i l [H1 H2] Hl IH]; simpl; [done|]. rewrite item_round by done. simpl. by rewrite (IH : mapM item_decode (list_fmap _ _ item_json l) = _). Qed.

(** Decoding reads back what was encoded. *)
Lemma entry_round e : entry_valid e → entry_decode (entry_json e) = Some e.
Proof.
  intros (Hs & l & Hl & HF). unfold entry_decode, entry_json. simpl members. jget_simpl. simpl. unfold as_int32, as_int. rewrite Hs. simpl.
  rewrite Hl. simpl. rewrite items_round by done. simpl. destruct e; simpl in *. by subst.
Qed.
Lemma with_items_valid e : entry_valid e → with_items e = e.
Proof. intros (_ & l & Hl & _). unfold with_items. destruct e; simpl in *. by subst. Qed.

(** ** Rows read into entries *)

Lemma filter_order_by {A} (key : A → Z * Z) (P : A → Prop) `{!∀ x, Decision (P x)} l :
  NoDup (key <$> l) → filter P (order_by key l) = order_by key (filter P l).
Proof.
  intros Hnd. eapply (StronglySorted_unique_strong (key_lt key)).
  - intros x y _ _ Hxy Hyx. destruct (key_lt_irrefl key x). by etrans.
  - by apply StronglySorted_filter, order_by_strict.
  - by apply order_by_strict, NoDup_fmap_filter.
  - by rewrite !order_by_perm.
Qed.

Lemma NoDup_item_keys l : NoDup l.*1 → NoDup (item_key <$> l).
Proof. intros Hnd. apply (NoDup_fmap_1 snd). rewrite <-list_fmap_compose. exact Hnd. Qed.

(** The items of one of the dictionaries that were asked for. *)
Lemma listed_items_of t (ids : list Z) id : id ∈ ids →
  filter (λ r, dt_DictionaryID r.2 = id) (listed_items (λ i, bool_decide (dt_DictionaryID i ∈ ids)) t) =
  listed_items (λ i, dt_DictionaryID i =? id) t.
Proof.
  intros Hid. unfold listed_items. rewrite filter_order_by.
  - f_equal. rewrite list_filter_filter. apply list_filter_iff. intros [i x]. simpl.
    rewrite !andb_true_iff, bool_decide_eq_true, Z.eqb_eq. split; [naive_solver|]. intros [? ->]. done.
  - apply NoDup_item_keys, NoDup_fmap_filter, NoDup_rows.
Qed.

Lemma codes_by_id_lookup (ds : list (Z * Dictionary)) (m : gmap Z string) i : NoDup ds.*1 →
  foldl (λ m r, <[r.1 := di_Code r.2]> m) m ds !! i =
  match filter (λ r, r.1 = i) ds with r :: _ => Some (di_Code r.2) | [] => m !! i end.
Proof.
  revert m. induction ds as [|[j d] ds IH]; intros m Hnd; simpl; [done|]. apply NoDup_cons in Hnd as [Hj Hnd].
  rewrite IH by done. rewrite filter_cons. simpl. case_decide as Hji.
  - subst j. destruct (filter _ ds) as [|r l] eqn:El; [by rewrite lookup_insert_eq|]. destruct Hj.
    assert (r ∈ filter (λ r, r.1 = i) ds) as [Hr Hin]%list_elem_of_filter by (rewrite El; by left).
    rewrite <-Hr. apply list_elem_of_fmap. by exists r.
  - destruct (filter _ ds); [by rewrite lookup_insert_ne by done|done].
Qed.
Lemma codes_by_id_Some (ds : list (Z * Dictionary)) i c : NoDup ds.*1 → codes_by_id ds !! i = Some c ↔ ∃ d, (i, d) ∈ ds ∧ di_Code d = c.
Proof.
  intros Hnd. unfold codes_by_id. rewrite codes_by_id_lookup by done. destruct (filter _ ds) as [|[j d] l] eqn:El.
  - split; [done|]. intros (d & Hin & _). exfalso.
    assert ((i, d) ∈ filter (λ r : Z * Dictionary, r.1 = i) ds) as Hf by (by apply list_elem_of_filter). rewrite El in Hf. by apply elem_of_nil in Hf.
  - assert ((j, d) ∈ filter (λ r : Z * Dictionary, r.1 = i) ds) as [Hj Hin]%list_elem_of_filter by (rewrite El; by left). simpl in Hj. subst j. simpl.
    split; [intros [= <-]; eauto|]. intros (x & Hx & <-). f_equal. f_equal.
    apply (elem_of_list_to_map (M := gmap Z)) in Hx, Hin; [|done..]. congruence.
Qed.

Lemma add_dictionaries_lookup (ds : list (Z * Dictionary)) m c :
  (∀ r q, r ∈ ds → q ∈ ds → di_Code r.2 = di_Code q.2 → r = q) → NoDup ds →
  foldl add_dictionary m ds !! c =
  match filter (λ r, di_Code r.2 = c) ds with
  | r :: _ => Some {| en_Status := status_code (di_Status r.2); en_IsPublic := di_IsPublic r.2; en_Items := Some [] |}
  | [] => m !! c
  end.
Proof.
  revert m. induction ds as [|r ds IH]; intros m Hu Hnd; simpl; [done|]. apply NoDup_cons in Hnd as [Hr Hnd].
  rewrite IH by (done || set_solver). rewrite filter_cons. unfold add_dictionary. case_decide as Hc.
  - destruct (filter _ ds) as [|q l] eqn:El; [by rewrite Hc, lookup_insert_eq|]. destruct Hr.
    assert (q ∈ filter (λ r, di_Code r.2 = c) ds) as [Hq Hin]%list_elem_of_filter by (rewrite El; by left).
    rewrite (Hu r q); [done|by left|by right|congruence].
  - destruct (filter _ ds); [by rewrite lookup_insert_ne|done].
Qed.

Lemma add_items_lookup byID c id l m e l0 :
  (∀ r, r ∈ l → is_Some (byID !! dt_DictionaryID r.2)) → (∀ i, byID !! i = Some c ↔ i = id) →
  m !! c = Some e → en_Items e = Some l0 →
  foldl (add_item byID) m l !! c =
  Some { e with en_Items := Some (l0 ++ (item_of <$> (filter (λ r, dt_DictionaryID r.2 = id) l).*2)) }.
Proof.
  revert m e l0. induction l as [|r l IH]; intros m e l0 Hl Hid Hm He; simpl.
  - rewrite app_nil_r, Hm. destruct e; simpl in *. by subst.
  - destruct (Hl r ltac:(by left)) as [c' Hc']. rewrite filter_cons. unfold add_item at 2. rewrite Hc'. simpl. case_decide as Hr.
    + assert (c' = c) as -> by (rewrite Hr, (proj2 (Hid id) eq_refl) in Hc'; by injection Hc').
      erewrite IH; [|set_solver|done|by rewrite lookup_insert_eq|simpl; done]. rewrite Hm. simpl. rewrite He. simpl. by rewrite <-app_assoc.
    + assert (c' ≠ c) as Hne by (intros ->; by apply Hr, Hid). rewrite (IH _ e l0); [done|set_solver|done|by rewrite lookup_insert_ne|done].
Qed.
Lemma add_items_other byID c l m :
  (∀ r, r ∈ l → is_Some (byID !! dt_DictionaryID r.2)) → (∀ i, byID !! i ≠ Some c) →
  foldl (add_item byID) m l !! c = m !! c.
Proof.
  revert m. induction l as [|r l IH]; intros m Hl Hid; simpl; [done|]. destruct (Hl r ltac:(by left)) as [c' Hc'].
  rewrite IH by (done || set_solver). unfold add_item. rewrite Hc'. simpl. rewrite lookup_insert_ne; [done|]. intros ->. by apply (Hid (dt_DictionaryID r.2)).
Qed.

(** A well-formed code is text the database accepts. *)
Lemma ascii_runes l : Forall (λ b, (b <? 128) = true) l → forallb (λ r : option Z * list Z, bool_decide (is_Some r.1)) (runes l) = true.
Proof. induction 1 as [|b l Hb Hl IH]; [done|]. cbn [runes]. rewrite Hb. simpl. by rewrite IH. Qed.
Lemma code_byte_range b : between 97 122 b || code_byte b = true → (b <? 128) = true ∧ (0 =? b) = false.
Proof. unfold code_byte, is_digit, between. lia. Qed.
Lemma code_text code : dictionaryCodePattern code = true → pg_text code = true.
Proof.
  unfold dictionaryCodePattern, pg_text, ValidString, ContainsNul. destruct (bytes code) as [|b l]; [done|].
  intros [[Hb Hl]%andb_true_iff _]%andb_true_iff. pose proof (code_byte_range b ltac:(by rewrite Hb)) as [Hb1 Hb2].
  assert (Forall (λ b, (b <? 128) = true ∧ (0 =? b) = false) l) as HF.
  { apply Forall_forall. intros x Hx. apply code_byte_range. rewrite forallb_forall in Hl. rewrite Hl; [by rewrite orb_true_r|]. by apply list_elem_of_In. }
  rewrite ascii_runes by (constructor; [done|]; by eapply Forall_impl; [exact HF|intros ? []]). cbn [existsb andb]. rewrite Hb2. cbn [orb].
  apply negb_true_iff. apply not_true_is_false. intros (x & Hx%list_elem_of_In & Hz)%existsb_exists. eapply Forall_forall in HF; [|done]. destruct HF. congruence.
Qed.

(** ** What a statement changes *)

(** From [t] to [t'] only the entry under [c] may differ. *)
Definition touches (c : string) (t t' : Tables) : Prop := tables_ok t' ∧ ∀ c', c' ≠ c → fresh t' c' = fresh t c'.

Lemma touches_intro c t t' : tables_ok t → tables_ok t' →
  (∀ c' i d, c' ≠ c → di_Code d = c' → (i, d) ∈ live_dictionaries t' ↔ (i, d) ∈ live_dictionaries t) →
  (∀ i d, di_Code d ≠ c → (i, d) ∈ live_dictionaries t' → entry_for t' i d = entry_for t i d) → touches c t t'.
Proof.
  intros Hok Hok' Hin He. split; [done|]. intros c' Hc. apply option_eq. intros e. rewrite !fresh_Some by done. split.
  - intros (i & d & Hd & Hcd & ->). exists i, d. split_and!; [by eapply Hin|done|]. apply He; [by rewrite Hcd|done].
  - intros (i & d & Hd & Hcd & ->). assert ((i, d) ∈ live_dictionaries t') as Hd' by (by eapply Hin).
    exists i, d. split_and!; [done|done|]. symmetry. apply He; [by rewrite Hcd|done].
Qed.

Lemma put_dictionary_touches id d t t' n : tables_ok t → (∀ d0, dictionaries t !! id = Some d0 → di_Code d0 = di_Code d) →
  put_dictionary id d t = (t', Ok n) → touches (di_Code d) t t'.
Proof.
  intros Hok Hold. unfold put_dictionary. destruct (dictionary_error d) eqn:Ee; [done|]. destruct (dictionary_conflict id d t) eqn:Ec; [done|].
  intros [= <- _].
  assert (∀ k b, dictionaries t !! k = Some b → live_dictionary b = true → live_dictionary d = true → di_Code b = di_Code d → k = id) as Hfree.
  { intros k b Hk Hlb Hld Hcd. unfold dictionary_conflict in Ec. rewrite Hld in Ec. eapply taken_false; [exact Ec|exact Hk|].
    simpl. by rewrite Hlb, bool_decide_eq_true_2. }
  apply touches_intro; [done|split|..].
  - simpl. intros i j x y Hi Hj Hx Hy Hxy. rewrite lookup_insert in Hi, Hj. repeat case_decide; simplify_eq; [done|..].
    + by eapply Hfree.
    + symmetry. by eapply Hfree.
    + by eapply (ok_codes _ Hok).
  - simpl. intros i x Hi. rewrite lookup_insert in Hi. case_decide; [by simplify_eq|by eapply (ok_dictionary _ Hok)].
  - apply (ok_item _ Hok).
  - intros c' i x Hne Hx. rewrite !elem_of_live_dictionaries. simpl. rewrite lookup_insert. case_decide as Hi; [|done]. subst i.
    split; intros [H1 H2]; exfalso; [by simplify_eq|]. apply Hne. rewrite <-Hx. by apply Hold.
  - done.
Qed.

Lemma listed_items_put P id x t : (∀ x0, dictionary_items t !! id = Some x0 → P x0 = false) → P x = false →
  listed_items P { t with dictionary_items := <[id := x]> (dictionary_items t) } = listed_items P t.
Proof.
  intros Hold Hx. unfold listed_items. simpl.
  eapply (StronglySorted_unique_strong (key_lt item_key)).
  - intros a b _ _ Hab Hba. destruct (key_lt_irrefl item_key a). by etrans.
  - apply order_by_strict, NoDup_item_keys, NoDup_fmap_filter, NoDup_rows.
  - apply order_by_strict, NoDup_item_keys, NoDup_fmap_filter, NoDup_rows.
  - rewrite !order_by_perm. apply NoDup_Permutation.
    + apply NoDup_filter, (NoDup_fmap_1 fst), NoDup_rows.
    + apply NoDup_filter, (NoDup_fmap_1 fst), NoDup_rows.
    + intros [i y]. rewrite !list_elem_of_filter, !elem_of_rows, lookup_insert. simpl. rewrite !andb_true_iff. case_decide as Hi; [|done].
      subst i. split; intros [[H1 H2] H3]; [simplify_eq; congruence|]. rewrite (Hold _ H3) in H2. done.
Qed.

Lemma put_item_touches id x t t' n c : tables_ok t →
  (∀ x0, dictionary_items t !! id = Some x0 → dt_DictionaryID x0 = dt_DictionaryID x) →
  (∀ d, dictionaries t !! dt_DictionaryID x = Some d → live_dictionary d = true → di_Code d = c) →
  put_item id x t = (t', Ok n) → touches c t t'.
Proof.
  intros Hok Hold Hdict. unfold put_item. destruct (item_error x) eqn:Ee; [done|]. destruct (item_conflict id x t); [done|].
  intros [= <- _]. apply touches_intro; [done|split|..].
  - apply (ok_codes _ Hok).
  - apply (ok_dictionary _ Hok).
  - simpl. intros i y Hi. rewrite lookup_insert in Hi. case_decide; [by simplify_eq|by eapply (ok_item _ Hok)].
  - done.
  - intros i d Hc [H1 H2]%elem_of_live_dictionaries. simpl in *. unfold entry_for. do 2 f_equal. f_equal. f_equal.
    assert (dt_DictionaryID x ≠ i) as Hne by (intros <-; apply Hc; by apply Hdict).
    apply listed_items_put; [|by apply Z.eqb_neq]. intros x0 H0. apply Z.eqb_neq. by rewrite (Hold _ H0).
Qed.

Lemma bump_touches c t t' n m : touches c t t' → touches c t { t' with next_dictionary := n; next_dictionary_item := m }.
Proof. intros [[H1 H2 H3] Hf]. split; [by split|]. exact Hf. Qed.

(** The statement either fails and changes nothing, or changes what is under [c]; an update
    that affects no row changes nothing. *)
Definition stmt_touches (c : string) (inserts : bool) (stmt : Time → Tables → Tables * Result Z) (t : Tables) : Prop :=
  ∀ now, match (stmt now t).2 with
         | Ok n => touches c t (stmt now t).1 ∧ (inserts = false → n ≤ 0 → (stmt now t).1 = t)
         | Fail _ => (stmt now t).1 = t
         end.

Lemma touches_refl c t : tables_ok t → touches c t t.
Proof. by split. Qed.

Lemma insert_dictionary_touches t row c : tables_ok t → (∀ now, di_Code (row now) = c) → stmt_touches c true (λ now, insert_dictionary (row now)) t.
Proof.
  intros Hok Hc now. unfold insert_dictionary. case_bool_decide as Hn; [done|]. destruct (put_dictionary _ _ _) as [t' [n|e]] eqn:Ep; simpl.
  - split; [|done]. rewrite <-(Hc now). apply (bump_touches _ _ t' _ (next_dictionary_item t')). eapply put_dictionary_touches; [done| |exact Ep].
    intros d0 Hd. destruct Hn. by eexists.
  - unfold put_dictionary in Ep. by repeat case_match; simplify_eq.
Qed.
Lemma update_dictionary_touches t id P upd c : tables_ok t → (∀ d, live_dictionary_row t id = Some d → di_Code d = c) →
  (∀ now d, di_Code (upd now d) = di_Code d) → stmt_touches c false (λ now t, update_dictionary id (P t) (upd now) t) t.
Proof.
  intros Hok Hc Hu now. unfold update_dictionary. destruct (live_dictionary_row t id) as [d|] eqn:El; [|by split; [apply touches_refl|]].
  destruct (P t); [|by split; [apply touches_refl|]].
  assert (dictionaries t !! id = Some d) as Hd by (unfold live_dictionary_row in El; destruct (dictionaries t !! id); simpl in El; [|done]; by case_match).
  destruct (put_dictionary _ _ _) as [t' [n|e]] eqn:Ep; simpl.
  - split.
    + rewrite <-(Hc _ eq_refl), <-(Hu now d). eapply put_dictionary_touches; [done| |exact Ep]. intros d0 H0. rewrite Hu. congruence.
    + intros _ Hn. unfold put_dictionary in Ep. repeat case_match; simplify_eq; lia.
  - unfold put_dictionary in Ep. by repeat case_match; simplify_eq.
Qed.
Lemma insert_item_touches t row D c : tables_ok t → (∀ now, dt_DictionaryID (row now) = D) →
  (∀ d, live_dictionary_row t D = Some d → di_Code d = c) → stmt_touches c true (λ now, insert_item (row now)) t.
Proof.
  intros Hok HD Hc now. unfold insert_item. case_bool_decide as Hn; [done|]. destruct (put_item _ _ _) as [t' [n|e]] eqn:Ep; simpl.
  - split; [|done]. apply (bump_touches _ _ t' (next_dictionary t')). eapply put_item_touches; [done|..|exact Ep].
    + intros x0 Hx. destruct Hn. by eexists.
    + intros d Hd Hl. apply Hc. rewrite <-(HD now). unfold live_dictionary_row. rewrite Hd. simpl. by rewrite Hl.
  - unfold put_item in Ep. by repeat case_match; simplify_eq.
Qed.
Lemma update_item_touches t id upd x c : tables_ok t → live_item_row t id = Some x →
  (∀ d, live_dictionary_row t (dt_DictionaryID x) = Some d → di_Code d = c) →
  (∀ now y, dt_DictionaryID (upd now y) = dt_DictionaryID y) → stmt_touches c false (λ now, update_item id (upd now)) t.
Proof.
  intros Hok Hx Hc Hu now. unfold update_item. rewrite Hx.
  assert (dictionary_items t !! id = Some x) as Hi by (unfold live_item_row in Hx; destruct (dictionary_items t !! id); simpl in Hx; [|done]; by case_match).
  destruct (put_item _ _ _) as [t' [n|e]] eqn:Ep; simpl.
  - split.
    + eapply put_item_touches; [done|..|exact Ep]; [intros x0 H0; rewrite Hu; congruence|].
      intros d Hd Hl. apply Hc. rewrite Hu in Hd. unfold live_dictionary_row. rewrite Hd. simpl. by rewrite Hl.
    + intros _ Hn. unfold put_item in Ep. repeat case_match; simplify_eq; lia.
  - unfold put_item in Ep. by repeat case_match; simplify_eq.
Qed.

(** ** What commands do to the cached texts *)

Definition value_at (r : Redis) (key : string) : string := match redis_get r key with Ok (Some v) => v | _ => "" end.

Lemma value_at_find r r' key : find r' key = find r key → value_at r' key = value_at r key.
Proof. intros Hf. unfold value_at, redis_get. by rewrite Hf. Qed.
Lemma value_at_put r key v d : expired r d = false → value_at (put r key (RString v) d) key = v.
Proof. intros Hd. unfold value_at, redis_get. by rewrite find_put_live. Qed.
Lemma value_at_del r keys key : key ∈ keys → value_at (redis_del r keys) key = "".
Proof. intros Hk. unfold value_at, redis_get. by rewrite find_del, bool_decide_eq_true_2. Qed.

Lemma find_sadd r index member key : key ≠ index → find (redis_sadd r index member).1 key = find r key.
Proof. intros Hk. unfold redis_sadd. destruct (find r index) as [[[t|m|m] d]|]; simpl; [done| |done|]; by rewrite find_put_ne. Qed.
Lemma find_srem r index member key : key ≠ index → find (redis_srem r index member).1 key = find r key.
Proof.
  intros Hk. unfold redis_srem. destruct (find r index) as [[[t|m|m] d]|]; simpl; try done. case_bool_decide; [|by rewrite find_put_ne].
  rewrite find_del, bool_decide_eq_false_2; [done|]. set_solver.
Qed.

Lemma putScript_value r index key payload k : k ≠ index →
  let s := (putScript r index key payload TTLSeconds).1 in
  value_at s k = value_at r k ∨ (k = key ∧ value_at s k = payload).
Proof.
  intros Hk s. subst s. unfold putScript. pose proof (value_at_find _ _ _ (find_sadd r index key k Hk)) as Hv.
  destruct (redis_sadd r index key) as [r1 [u|e]]; simpl in *; [|by left]. unfold redis_setex. simpl.
  destruct (decide (k = key)) as [->|Hne]; [right; split; [done|]; by apply value_at_put, fresh_deadline|].
  left. rewrite <-Hv. by apply value_at_find, find_put_ne.
Qed.

Lemma removeScript_value index keys r k : k ≠ index →
  let s := removeScript r index keys in
  (value_at s.1 k = value_at r k ∨ value_at s.1 k = "") ∧ (s.2 = Ok tt → k ∈ keys → value_at s.1 k = "") ∧
  (value_at r k = "" → value_at s.1 k = "").
Proof.
  intros Hk. revert r. induction keys as [|key keys IH]; intros r; simpl; [split_and!; [by left|by intros _ ?%elem_of_nil|done]|].
  pose proof (value_at_find _ _ _ (find_srem (redis_del r [key]) index key k Hk)) as Hv.
  assert (value_at (redis_del r [key]) k = value_at r k ∨ value_at (redis_del r [key]) k = "") as Hd.
  { destruct (decide (k = key)) as [->|Hne]; [right; apply value_at_del; set_solver|]. left. apply value_at_find.
    rewrite find_del, bool_decide_eq_false_2; set_solver. }
  destruct (redis_srem (redis_del r [key]) index key) as [r1 [u|e]]; simpl in *.
  - destruct (IH r1) as (H1 & H2 & H3). rewrite Hv in *. split_and!.
    + destruct H1 as [->|?]; [done|by right].
    + intros Ho [->|Hin]%elem_of_cons; [|by auto]. apply H3, value_at_del. set_solver.
    + intros Hr. apply H3. destruct Hd as [->|?]; [done|done].
  - rewrite Hv. split_and!; [done|done|]. intros Hr. destruct Hd as [->|?]; done.
Qed.

Lemma cache_key_inj c c' : cache_key c = cache_key c' → c = c'.
Proof. apply (inj (String.append keyPrefix)). Qed.
Lemma cache_key_index c : dictionaryCodePattern c = true → cache_key c ≠ cache_index.
Proof. intros Hc Heq%cache_key_inj. by subst c. Qed.

Lemma triple_require {X A} (rely : Stores → Stores → Prop) (holds : X → Stores → Prop) x b (k : unit → Prog DictCmd A) φ :
  (∀ x a b, rely a b → holds x a → holds x b) →
  (b = true → triple dict_effect rely holds x (k tt) φ) → (b = false → φ (Fail invalidDictionaryRequest) x) →
  triple dict_effect rely holds x (require b ≫= k) φ.
Proof. intros Hr Ht Hf. destruct b; [by apply Ht|]. apply triple_ret; [done|]. by apply Hf. Qed.

(** ** Cached entries *)

Section cache.
Context `{JsonText}.

Definition cached_entry (s : Stores) (code : string) : option Entry := read_value (value_at (st_redis s) (cache_key code)).

(** Every entry of the cache is what the tables [t] hold, except for the codes of [C]. *)
Definition coherent_but (C : gset string) (t : Tables) (s : Stores) : Prop :=
  ∀ c e, dictionaryCodePattern c = true → c ∉ C → cached_entry s c = Some e → fresh t c = Some e.
Abbreviation coherent s := (coherent_but ∅ (st_tables s) s).

(** What may happen around a change: entries vanish. *)
Definition quiet (s s' : Stores) : Prop :=
  st_tables s' = st_tables s ∧ ∀ c e, dictionaryCodePattern c = true → cached_entry s' c = Some e → cached_entry s c = Some e.

(** What may happen around a reader: entries vanish, or appear as the tables hold them. *)
Definition steady (s s' : Stores) : Prop :=
  st_tables s' = st_tables s ∧
  ∀ c e, dictionaryCodePattern c = true → cached_entry s' c = Some e → cached_entry s c = Some e ∨ fresh (st_tables s) c = Some e.

Lemma read_values_lookup (f : string → string) (codes : list string) (m : gmap string Entry) c :
  foldl (λ m p, match read_value p.2 with Some e => <[p.1 := e]> m | None => m end) m (zip codes (f <$> codes)) !! c =
  if bool_decide (c ∈ codes) then match read_value (f c) with Some e => Some e | None => m !! c end else m !! c.
Proof.
  revert m. induction codes as [|x codes IH]; intros m; simpl; [done|]. rewrite IH. destruct (decide (c = x)) as [->|Hne].
  - rewrite (bool_decide_eq_true_2 (x ∈ x :: codes)) by (by left).
    destruct (read_value (f x)) as [e|]; [|by case_bool_decide]. case_bool_decide; [done|by rewrite lookup_insert_eq].
  - rewrite (bool_decide_ext (c ∈ x :: codes) (c ∈ codes)) by set_solver.
    destruct (read_value (f x)) as [e|]; [by rewrite lookup_insert_ne|done].
Qed.

(** ** Readers *)

Context (Hjson : ∀ j, Unmarshal (Marshal j) = Some j).

Lemma read_value_fresh t code e : tables_ok t → fresh t code = Some e → ∀ e', read_value (Marshal (entry_json (with_items e))) = Some e' → e' = e.
Proof.
  intros Hok Hf e'. pose proof (fresh_valid _ _ _ Hok Hf) as Hv. rewrite with_items_valid by done. unfold read_value. case_bool_decide; [done|].
  rewrite Hjson. change (entry_decode (entry_json e) ≫= (λ e, match en_Items e with Some _ => Some e | None => None end) = Some e' → e' = e).
  rewrite entry_round by done. destruct Hv as (_ & l & Hl & _). simpl. rewrite Hl. by intros [= <-].
Qed.

Section reader.
Context (t : Tables) (Hok : tables_ok t).

Definition serving (_ : unit) (s : Stores) : Prop := st_tables s = t ∧ coherent_but ∅ t s.
Lemma serving_steady x a b : steady a b → serving x a → serving x b.
Proof.
  intros [Ht Hc] [Ha Hcoh]. split; [congruence|]. intros c e Hp Hn He. destruct (Hc c e Hp He) as [?|Hf]; [by apply Hcoh|]. by rewrite Ha in Hf.
Qed.

Abbreviation reads := (triple dict_effect steady serving tt).

Lemma reads_query {X} (f : Tables → Result X) : reads (query f) (λ r _, r = f t ∨ r = lost).
Proof.
  apply triple_ask; [exact serving_steady|]. intros s s1 r [Ht Hc] [(now & -> & ->)|[-> [->|(r' & now & -> & ->)]]]; exists tt; simpl;
    (split; [by split|]); try (by right). left. by rewrite Ht.
Qed.

Lemma reads_get codes : Forall (λ c, dictionaryCodePattern c = true) codes →
  reads (CacheRead codes) (λ r _, ∀ m, r = Ok m → ∀ c e, m !! c = Some e → fresh t c = Some e).
Proof.
  intros HF. unfold CacheRead. case_bool_decide; [apply triple_ret; [exact serving_steady|]; by intros m [= <-]|].
  eapply (triple_seq _ _ _ serving_steady _ _ _ (λ r _, ∀ vs, r = Ok vs → ∃ v, vs = v <$> codes ∧ ∀ c e, c ∈ codes → read_value (v c) = Some e → fresh t c = Some e)).
  - apply triple_ask; [exact serving_steady|]. intros s s1 r Hs Hp. exists tt.
    destruct Hp as [[-> ->]|[-> [->|(r' & -> & ->)]]]; (split; [done|]); try done. intros vs [= <-].
    exists (λ c, value_at (st_redis s) (cache_key c)). split; [unfold redis_mget; by rewrite <-list_fmap_compose|].
    intros c e Hc He. destruct Hs as [_ Hs]. apply Hs; [by eapply Forall_forall in HF|set_solver|done].
  - intros vs y Hv. destruct (Hv _ eq_refl) as (v & -> & Hc). case_bool_decide as El; [|by apply triple_ret; [exact serving_steady|]].
    apply triple_ret; [exact serving_steady|]. intros m [= <-] c e. unfold read_values. rewrite read_values_lookup.
    case_bool_decide as Hin; [|done]. destruct (read_value (v c)) as [e'|] eqn:Ev; [|done]. intros [= <-]. by apply Hc.
  - done.
Qed.

Lemma reads_put code e : fresh t code = Some e → reads (CachePut code e) (λ _ _, True).
Proof.
  intros Hf. assert (∀ s, serving tt s →
    serving tt { s with st_redis := (putScript (st_redis s) cache_index (cache_key code) (Marshal (entry_json (with_items e))) TTLSeconds).1 }) as Hput.
  { intros s [Ht Hc]. split; [done|]. intros c e' Hp Hn. unfold cached_entry. simpl.
    destruct (putScript_value (st_redis s) cache_index (cache_key code) (Marshal (entry_json (with_items e))) (cache_key c) (cache_key_index c Hp))
      as [->|[Hk ->]]; [by apply Hc|]. intros He. apply cache_key_inj in Hk as ->. by rewrite (read_value_fresh _ _ _ Hok Hf _ He). }
  apply triple_ask; [exact serving_steady|]. intros s s1 r Hs [[-> ->]|[-> [->|(r' & -> & ->)]]]; exists tt; (split; [|done]); by auto.
Qed.

Lemma reads_fill entries ds : (∀ r, r ∈ ds → ∃ e, entries !! di_Code r.2 = Some e ∧ fresh t (di_Code r.2) = Some e) →
  reads (fill entries ds) (λ r _, r = Ok tt).
Proof.
  induction ds as [|d ds IH]; intros Hd; cbn [fill]; [by apply triple_ret; [exact serving_steady|]|].
  destruct (Hd d ltac:(by left)) as (e & -> & Hf). eapply triple_bind; [by apply reads_put|]. intros _ [] _. apply IH. set_solver.
Qed.

(** The entries after the rows [ds] and their items were read into them. *)
Lemma loaded_entries (missing : list string) m c : (∀ c, c ∈ missing → m !! c = None) →
  let ds := filter (λ r, di_Code r.2 ∈ missing) (live_dictionaries t) in
  let items := listed_items (λ i, bool_decide (dt_DictionaryID i ∈ ds.*1)) t in
  foldl (add_item (codes_by_id ds)) (foldl add_dictionary m ds) items !! c = if bool_decide (c ∈ missing) then fresh t c else m !! c.
Proof.
  intros Hm ds items.
  assert (NoDup ds.*1) as Hnd by (apply NoDup_fmap_filter, NoDup_live_dictionaries).
  assert (∀ r, r ∈ ds ↔ di_Code r.2 ∈ missing ∧ r ∈ live_dictionaries t) as Hds by (intros r; unfold ds; by rewrite list_elem_of_filter).
  assert (∀ r q, r ∈ ds → q ∈ ds → di_Code r.2 = di_Code q.2 → r = q) as Hu.
  { intros [i d] [j x] [_ [H1 H2]%elem_of_live_dictionaries]%Hds [_ [H3 H4]%elem_of_live_dictionaries]%Hds Hc. simpl in *.
    assert (i = j) as <- by (by eapply (ok_codes _ Hok)). congruence. }
  assert (∀ r, r ∈ items → is_Some (codes_by_id ds !! dt_DictionaryID r.2)) as Hit.
  { intros r Hr. subst items. unfold listed_items in Hr. rewrite elem_of_order_by, list_elem_of_filter in Hr. destruct Hr as [[_ Hr%bool_decide_eq_true]%andb_true_iff _].
    apply list_elem_of_fmap in Hr as ([i d] & -> & Hin). exists (di_Code d). apply codes_by_id_Some; eauto. }
  pose proof (add_dictionaries_lookup ds m c Hu (NoDup_fmap_1 fst _ Hnd)) as Hadd.
  destruct (filter (λ r, di_Code r.2 = c) ds) as [|[i d] l] eqn:El.
  - assert (∀ r, r ∈ ds → di_Code r.2 ≠ c) as Hno.
    { intros r Hr Hc. assert (r ∈ filter (λ r, di_Code r.2 = c) ds) as Hf by (by apply list_elem_of_filter). rewrite El in Hf. by apply elem_of_nil in Hf. }
    rewrite add_items_other; [|done|]; [rewrite Hadd; case_bool_decide as Hc; [|done]; rewrite (Hm _ Hc); symmetry; apply fresh_None; [done|]|].
    + intros r Hr Hrc. apply (Hno r); [|done]. apply Hds. by rewrite Hrc.
    + intros i (d & Hin & Hc)%codes_by_id_Some; [|done]. by apply (Hno _ Hin).
  - assert ((i, d) ∈ filter (λ r, di_Code r.2 = c) ds) as [Hc Hin]%list_elem_of_filter by (rewrite El; by left). simpl in Hc.
    pose proof Hin as [Hcm Hlive]%Hds. simpl in Hcm. erewrite (add_items_lookup _ c i); [|done| |done|done].
    + rewrite bool_decide_eq_true_2 by congruence. symmetry. simpl. unfold items.
      rewrite (listed_items_of t ds.*1 i) by (apply list_elem_of_fmap; by exists (i, d)). apply fresh_Some; eauto.
    + intros j. rewrite codes_by_id_Some by done. split; [|intros ->; eauto]. intros (x & Hx & Hxc).
      assert ((j, x) = (i, d)) as [=] by (apply Hu; simpl; congruence). done.
Qed.

Lemma reads_mapped {X} (f : Tables → Result X) : reads (mapped dictionaryError (query f))
  (λ r _, (∀ a, r = Ok a → f t = Ok a) ∧ (∀ e, r = Fail e → e = [Driver] ∨ ∃ e0, f t = Fail e0)).
Proof.
  unfold mapped. eapply triple_bind; [apply reads_query|]. intros r y Hr. apply triple_ret; [exact serving_steady|].
  destruct Hr as [->| ->]; [|split; [done|]; intros e [= <-]; by left]. destruct (f t) as [a|e]; (split; [|by eauto]); by intros ? [= <-].
Qed.

Lemma reads_load m missing : (∀ c, c ∈ missing → m !! c = None) → Forall (λ c, dictionaryCodePattern c = true) missing → missing ≠ [] →
  reads (load_missing m missing)
    (λ r _, (∀ m', r = Ok m' → ∀ c, m' !! c = if bool_decide (c ∈ missing) then fresh t c else m !! c) ∧ (∀ e, r = Fail e → e = [Driver])).
Proof.
  intros Hm HF Hne. unfold load_missing, DictionaryFindByCodes. rewrite bool_decide_eq_false_2 by done.
  assert (forallb pg_text missing = true) as Htext.
  { apply forallb_forall. intros c Hc%list_elem_of_In. apply code_text. by eapply Forall_forall in HF. }
  eapply (triple_seq _ _ _ serving_steady); [apply reads_mapped|..].
  - intros ds [] [Hds _]. specialize (Hds _ eq_refl). rewrite Htext in Hds. injection Hds as <-. set (ds := filter _ _).
    eapply (triple_seq _ _ _ serving_steady _ _ _ (λ r _, (∀ l, r = Ok l → l = listed_items (λ i, bool_decide (dt_DictionaryID i ∈ ds.*1)) t) ∧
      (∀ e, r = Fail e → e = [Driver]))).
    + unfold ItemListByDictionaryIDs. case_bool_decide as Hnil.
      * apply triple_ret; [exact serving_steady|]. split; [|done]. intros l [= <-]. unfold listed_items. symmetry.
        rewrite filter_none; [done|]. intros r _. rewrite Hnil.
        rewrite bool_decide_eq_false_2 by (by intros ?%elem_of_nil). by rewrite andb_false_r.
      * eapply triple_mono; [|apply reads_mapped]. intros r y [H1 H2]. split; [intros l Hl; by injection (H1 _ Hl) as <-|].
        intros e He. by destruct (H2 _ He) as [?|[? ?]].
    + intros items [] [Hi _]. rewrite (Hi _ eq_refl). pose proof (λ c, loaded_entries missing m c Hm) as Hall. cbv zeta in Hall. fold ds in Hall.
      eapply (triple_seq _ _ _ serving_steady _ _ _ (λ r _, r = Ok tt)).
      * apply reads_fill. intros r [Hr Hlive]%list_elem_of_filter. rewrite Hall, bool_decide_eq_true_2 by done.
        exists (entry_for t r.1 r.2). destruct r as [i d]. split; apply fresh_Some; eauto.
      * intros u y _. apply triple_ret; [exact serving_steady|]. split; [|done]. by intros m' [= <-].
      * done.
    + intros e y [_ He]. split; [done|]. intros ? [= <-]. by apply He.
  - intros e y [_ He]. split; [done|]. intros ? [= <-]. destruct (He _ eq_refl) as [?|[e0 Hf]]; [done|]. by rewrite Htext in Hf.
Qed.

Lemma elem_of_distinct seen codes c : c ∈ distinct seen codes → c ∈ codes.
Proof.
  revert seen. induction codes as [|x codes IH]; intros seen; simpl; [done|]. case_bool_decide.
  - intros Hc%IH. by right.
  - intros [->|Hc%IH]%elem_of_cons; [by left|by right].
Qed.

Definition valid_request (codes : list string) : bool :=
  bool_decide (codes ≠ []) && (length codes <=? 50)%nat && forallb dictionaryCodePattern codes.

Lemma answers_from m codes publicOnly : (∀ c, c ∈ distinct ∅ codes → m !! c = fresh t c) →
  omap (option_of publicOnly m) (distinct ∅ codes) = answers t codes publicOnly.
Proof.
  intros Hm. unfold answers. apply list_omap_ext, Forall_Forall2_diag, Forall_forall. intros c Hc. unfold option_of. by rewrite Hm.
Qed.

(** A reader among readers. *)
Lemma reads_answer codes publicOnly : reads (ReadDictionariesLogic codes publicOnly)
  (λ r _, (∀ l, r = Ok l → l = answers t codes publicOnly) ∧ (valid_request codes = true → ∀ e, r = Fail e → e = [Driver])).
Proof.
  unfold ReadDictionariesLogic, valid_request. apply triple_require; [exact serving_steady| |by intros ->].
  intros ->. apply triple_require; [exact serving_steady| |by intros ->]. intros E2.
  assert (Forall (λ c, dictionaryCodePattern c = true) (distinct ∅ codes)) as HF.
  { apply Forall_forall. intros c Hc%elem_of_distinct. rewrite forallb_forall in E2. apply E2. by apply list_elem_of_In. }
  eapply triple_bind; [exact (reads_get _ HF)|]. intros r y Hr.
  set (m := match r with Ok m => m | Fail _ => ∅ end).
  assert (∀ c e, m !! c = Some e → fresh t c = Some e) as Hm by (destruct r as [m0|e0]; [by apply Hr|done]).
  set (missing := filter (λ c, m !! c = None) (distinct ∅ codes)).
  assert (∀ c, c ∈ distinct ∅ codes → c ∉ missing → m !! c = fresh t c) as Hhit.
  { intros c Hc Hn. destruct (m !! c) as [e|] eqn:Em; [by rewrite (Hm _ _ Em)|]. destruct Hn. by apply list_elem_of_filter. }
  eapply (triple_seq _ _ _ serving_steady _ _ _ (λ r _, (∀ m', r = Ok m' → ∀ c, c ∈ distinct ∅ codes → m' !! c = fresh t c) ∧ (∀ e, r = Fail e → e = [Driver]))).
  - case_bool_decide as Hnil.
    + apply triple_ret; [exact serving_steady|]. split; [|done]. intros m' [= <-] c Hc. apply Hhit; [done|]. rewrite Hnil. by intros ?%elem_of_nil.
    + destruct y. eapply triple_mono; [|apply reads_load; [| |exact Hnil]].
      * intros r' y' [H1 H2]. split; [|done]. intros m' Hm' c Hc. rewrite (H1 _ Hm'). case_bool_decide; [done|by apply Hhit].
      * by intros c [? _]%list_elem_of_filter.
      * apply Forall_forall. intros c [_ Hc]%list_elem_of_filter. by eapply Forall_forall in HF.
  - intros m' y' [H1 _]. apply triple_ret; [exact serving_steady|]. split; [|done]. intros l [= <-]. apply answers_from. by apply H1.
  - intros e y' [_ H2]. split; [done|]. intros _ ? [= <-]. by apply H2.
Qed.
End reader.

(** ** Writers *)

(** The tables are [y.1], and the cache agrees with them but for the codes [y.2]. *)
Definition behind (y : Tables * gset string) (s : Stores) : Prop := st_tables s = y.1 ∧ tables_ok y.1 ∧ coherent_but y.2 y.1 s.
Lemma behind_quiet y a b : quiet a b → behind y a → behind y b.
Proof. intros [Ht Hc] (Ha & Hok & Hcoh). split_and!; [congruence|done|]. intros c e Hp Hn He. by eapply Hcoh, Hc. Qed.

Abbreviation writes := (triple dict_effect quiet behind).

(** A failure other than a lost answer or a failed invalidation. *)
Definition settled {A} (r : Result A) : Prop := match r with Ok _ => True | Fail e => e ≠ [Driver] ∧ e ≠ invalidation_failed end.

Lemma writes_query {X} y (f : Tables → Result X) : writes y (query f) (λ r y', y' = y ∧ (r = f y.1 ∨ r = lost)).
Proof.
  apply triple_ask; [exact behind_quiet|]. intros s s1 r Hs Hp. pose proof Hs as [Ht _].
  exists y. destruct Hp as [(now & -> & ->)|[-> [->|(r' & now & -> & ->)]]]; (split; [done|split; [done|]]); [left|by right..]. by rewrite Ht.
Qed.
Lemma writes_find {X} y (f : Tables → Result X) :
  writes y (mapped dictionaryError (query f)) (λ r y', y' = y ∧ ∀ a, r = Ok a → f y.1 = Ok a).
Proof.
  unfold mapped. eapply triple_bind; [apply writes_query|]. intros r y' [-> Hr]. apply triple_ret; [exact behind_quiet|].
  split; [done|]. intros a Ha. destruct Hr as [->| ->]; [|done]. by destruct (f y.1); simplify_eq.
Qed.

Section writer.
Context (t : Tables) (Hok : tables_ok t).

(** A statement that changes what is under [c]. *)
Definition wrote (c : string) (inserts : bool) (r : Result Z) (y : Tables * gset string) : Prop :=
  match r with
  | Ok n => y.2 ⊆ {[c]} ∧ (inserts = false → n ≤ 0 → y.2 = ∅)
  | Fail e => y.2 = ∅ ∨ e = [Driver]
  end.

Lemma touched c t' s : touches c t t' → behind (t, ∅) s → behind (t', {[c]}) { s with st_tables := t' }.
Proof.
  intros [Hok' Hf] (Ht & _ & Hc). split_and!; [done|done|]. intros c' e Hp Hn He. simpl in *.
  rewrite Hf by set_solver. by apply Hc.
Qed.

Lemma same_tables s u : st_tables s = u → { s with st_tables := u } = s.
Proof. intros <-. by destruct s. Qed.

Lemma writes_exec c inserts stmt : stmt_touches c inserts stmt t → writes (t, ∅) (exec stmt) (wrote c inserts).
Proof.
  intros Hst. apply triple_ask; [exact behind_quiet|]. intros s s1 r Hs Hp. pose proof Hs as [Ht _]. simpl in Ht.
  assert (∀ now, let s1 := { s with st_tables := (stmt now (st_tables s)).1 } in
    ∃ y, behind y s1 ∧ wrote c inserts (stmt now (st_tables s)).2 y) as Heff.
  { intros now. simpl. rewrite Ht. specialize (Hst now). destruct (stmt now t) as [t' [n|e]]; simpl in *.
    - destruct Hst as [Htou H0]. destruct inserts; [exists (t', {[c]}); split; [by apply touched|done]|].
      destruct (decide (n ≤ 0)) as [Hn|Hn]; [|exists (t', {[c]}); split; [by apply touched|done]].
      exists (t, ∅). rewrite (H0 eq_refl Hn), (same_tables _ _ Ht). split; [done|]. split; [apply empty_subseteq|done].
    - exists (t, ∅). rewrite Hst, (same_tables _ _ Ht). split; [done|by left]. }
  destruct Hp as [(now & -> & ->)|[-> [->|(r' & now & -> & _)]]]; [apply Heff|exists (t, ∅); split; [done|by right]|].
  destruct (Heff now) as (y & Hy & _). exists y. split; [done|by right].
Qed.

(** The error maps of the repositories leave a lost answer what it is. *)
Lemma writes_mapped {A} (g : Error → Error) (p : Prog DictCmd A) (φ : Result A → Tables * gset string → Prop) y :
  g [Driver] = [Driver] → writes y p φ → (∀ e y, φ (Fail e) y → y.2 = ∅ ∨ e = [Driver]) →
  writes y (mapped g p) (λ r y, match r with Ok a => φ (Ok a) y | Fail e => y.2 = ∅ ∨ e = [Driver] end).
Proof.
  intros Hg Hp Hφ. unfold mapped. eapply triple_bind; [exact Hp|]. intros [a|e] y' Hr; (apply triple_ret; [exact behind_quiet|]); [done|].
  destruct (Hφ e y' Hr) as [?| ->]; [by left|by right].
Qed.

(** What a repository call that changes the entry under [c] leaves. *)
Definition changed {A} (c : string) (r : Result A) (y : Tables * gset string) : Prop :=
  match r with Ok _ => y.2 ⊆ {[c]} | Fail e => y.2 = ∅ ∨ e = [Driver] end.

Lemma writes_dictionary c stmt : stmt_touches c false stmt t → writes (t, ∅) (dictionaryWriteResult (exec stmt)) (changed c).
Proof.
  intros Hst. eapply triple_seq; [exact behind_quiet|apply writes_mapped; [done|by apply writes_exec|by intros e y]|..].
  - intros n y [Hc Hn]. destruct (n =? 0) eqn:E; (apply triple_ret; [exact behind_quiet|]); [|done]. left. apply Hn; [done|]. apply Z.eqb_eq in E. lia.
  - by intros e y.
Qed.
Lemma writes_item c stmt : stmt_touches c false stmt t → writes (t, ∅) (dictionaryItemWriteResult (exec stmt)) (changed c).
Proof.
  intros Hst. eapply triple_seq; [exact behind_quiet|apply writes_mapped; [done|by apply writes_exec|by intros e y]|..].
  - intros n y [Hc Hn]. destruct (n =? 0) eqn:E; (apply triple_ret; [exact behind_quiet|]); [|done]. left. apply Hn; [done|]. apply Z.eqb_eq in E. lia.
  - by intros e y.
Qed.
Lemma writes_insert c g stmt : g [Driver] = [Driver] → stmt_touches c true stmt t → writes (t, ∅) (mapped g (exec stmt)) (changed c).
Proof.
  intros Hg Hst. eapply triple_mono; [|apply writes_mapped; [done|by apply writes_exec|by intros e y]]. intros [n|e] y; [|done]. by intros [? _].
Qed.
End writer.

(** The cache is behind at most for [c] and the entry under [c] is removed. *)
Lemma writes_invalidate t (C : gset string) c : dictionaryCodePattern c = true → C ⊆ {[c]} →
  writes (t, C) (invalidateDictionary c) (λ r y, match r with Ok _ => y.2 = ∅ | Fail e => e = invalidation_failed end).
Proof.
  intros Hp HC. unfold invalidateDictionary, mapped, CacheInvalidate.
  assert (∀ s, behind (t, C) s → let p := removeScript (st_redis s) cache_index [cache_key c] in
    let s1 := { s with st_redis := p.1 } in behind (t, C) s1 ∧ (p.2 = Ok tt → behind (t, ∅) s1)) as Hrem.
  { intros s (Ht & Hok & Hcoh). simpl in Ht, Hok, Hcoh. cbv zeta. set (p := removeScript _ _ _).
    assert (∀ c' e, dictionaryCodePattern c' = true → cached_entry { s with st_redis := p.1 } c' = Some e → cached_entry s c' = Some e ∧ (p.2 = Ok tt → c' ≠ c)) as Hc.
    { intros c' e Hp'. pose proof (removeScript_value cache_index [cache_key c] (st_redis s) _ (cache_key_index _ Hp')) as (H1 & H2 & _). fold p in H1, H2.
      unfold cached_entry. simpl. destruct H1 as [H1|H1]; [|by rewrite H1]. intros Hrv. split; [by rewrite <-H1|].
      intros Ho ->. rewrite H2 in Hrv; [done|done|]. by left. }
    split; [|intros Ho]; (split_and!; [done|done|]); intros c' e Hp' Hn He; destruct (Hc _ _ Hp' He) as [Hs Hne]; apply Hcoh; [done|done|done|done| |done].
    simpl. specialize (Hne Ho). set_solver. }
  eapply (triple_bind _ _ _ _ _ _ (λ r y, r = Ok tt → y.2 = ∅)).
  - apply triple_ask; [exact behind_quiet|]. intros s s1 r Hs Hpf. destruct (Hrem s Hs) as [H1 H2].
    destruct Hpf as [[-> ->]|[-> [->|(r' & -> & ->)]]]; [|by exists (t, C)..].
    destruct (removeScript _ _ _) as [r1 [[]|e]]; simpl in *; [exists (t, ∅); split; [by apply H2|done]|by exists (t, C)].
  - intros [[]|e] y Hr; (apply triple_ret; [exact behind_quiet|]); [by apply Hr|done].
Qed.

(** The requests that change dictionaries. *)
Inductive Change :=
| ChangeCreate (name code remark : string) (status : Z) (public : bool)
| ChangeUpdate (id : Z) (name remark : string) (public : bool)
| ChangeStatus (id status : Z)
| ChangeDelete (id : Z)
| ChangeItemCreate (dictionaryID : Z) (label value : string) (sort : Z) (remark : string) (status : Z)
| ChangeItemUpdate (id : Z) (label : string) (sort : Z) (remark : string)
| ChangeItemStatus (id status : Z)
| ChangeItemDelete (id : Z).
Definition change_request (c : Change) : Prog DictCmd unit :=
  match c with
  | ChangeCreate name code remark status public => _ ← CreateDictionaryLogic name code remark status public; mret tt
  | ChangeUpdate id name remark public => UpdateDictionaryLogic id name remark public
  | ChangeStatus id status => UpdateDictionaryStatusLogic id status
  | ChangeDelete id => DeleteDictionaryLogic id
  | ChangeItemCreate dictionaryID label value sort remark status =>
      _ ← CreateDictionaryItemLogic dictionaryID label value sort remark status; mret tt
  | ChangeItemUpdate id label sort remark => UpdateDictionaryItemLogic id label sort remark
  | ChangeItemStatus id status => UpdateDictionaryItemStatusLogic id status
  | ChangeItemDelete id => DeleteDictionaryItemLogic id
  end.

Definition kept {A} (r : Result A) (y : Tables * gset string) : Prop := settled r → y.2 = ∅.
Lemma kept_refused {A} e (y : Tables * gset string) : y.2 = ∅ ∨ e = [Driver] ∨ e = invalidation_failed → kept (A := A) (Fail e) y.
Proof. unfold kept. simpl. intros [?|[->| ->]] [? ?]; done. Qed.

Lemma code_of_row t id d : tables_ok t → dictionaries t !! id = Some d → dictionaryCodePattern (di_Code d) = true.
Proof.
  intros Hok Hd. pose proof (ok_dictionary _ Hok _ _ Hd) as He. unfold dictionary_error in He.
  assert (unless (dictionaryCodePattern (di_Code d)) (check_violation "sys_dictionary_code_check") = None) as Hs%unless_None; [|done].
  eapply first_error_None; [exact He|set_solver].
Qed.
Lemma live_dictionary_row_Some t id d : live_dictionary_row t id = Some d → dictionaries t !! id = Some d.
Proof. unfold live_dictionary_row. destruct (dictionaries t !! id); simpl; [|done]. case_match; [by intros [= ->]|done]. Qed.

(** The end of every handler: the entry is removed before the change is acknowledged. *)
Lemma writes_last t (C : gset string) c : dictionaryCodePattern c = true → C ⊆ {[c]} → writes (t, C) (invalidateDictionary c) kept.
Proof.
  intros Hc HC. eapply triple_mono; [|by apply writes_invalidate]. intros [a|e] y Hy; [by intros _|]. apply kept_refused. by right; right.
Qed.
Lemma writes_last_id {A} t (C : gset string) c (a : A) : dictionaryCodePattern c = true → C ⊆ {[c]} →
  writes (t, C) (_ ← invalidateDictionary c; mret a) kept.
Proof.
  intros Hc HC. eapply triple_seq; [exact behind_quiet|by apply writes_invalidate|..].
  - intros [] y Hy. by apply triple_ret; [exact behind_quiet|intros _].
  - intros e y ->. apply kept_refused. by right; right.
Qed.

(** A change of the entry under [c], and what follows it. *)
Lemma writes_then {A B} t (p : Prog DictCmd A) c (k : A → Prog DictCmd B) :
  writes (t, ∅) p (changed c) → (∀ a t' C, C ⊆ {[c]} → writes (t', C) (k a) kept) →
  writes (t, ∅) (a ← mapped dictionaryError p; k a) kept.
Proof.
  intros Hp Hk. eapply triple_seq; [exact behind_quiet|apply writes_mapped; [done|exact Hp|by intros e y]|..].
  - intros a [t' C] HC. by apply Hk.
  - intros e y [?| ->]; apply kept_refused; tauto.
Qed.

(** Look up a dictionary first. *)
Lemma writes_found {B} t id (k : Dictionary → Prog DictCmd B) : tables_ok t →
  (∀ d, live_dictionary_row t id = Some d → dictionaryCodePattern (di_Code d) = true → writes (t, ∅) (k d) kept) →
  writes (t, ∅) (d ← mapped dictionaryError (DictionaryFindByID id); k d) kept.
Proof.
  intros Hok Hk. eapply triple_seq; [exact behind_quiet|apply writes_find|..].
  - intros d y [-> Hd]. specialize (Hd _ eq_refl). simpl in Hd. destruct (live_dictionary_row t id) as [d'|] eqn:El; [|done]. injection Hd as ->.
    apply Hk; [done|]. by eapply code_of_row, live_dictionary_row_Some.
  - intros e y [-> _]. by apply kept_refused; left.
Qed.

Lemma writes_refused {A} t b (k : unit → Prog DictCmd A) : (b = true → writes (t, ∅) (k tt) kept) → writes (t, ∅) (require b ≫= k) kept.
Proof. intros Hk. apply triple_require; [exact behind_quiet|exact Hk|]. intros _. by apply kept_refused; left. Qed.

(** The item handlers. *)
Lemma writes_change_item t id valid upd : tables_ok t → (∀ now y, dt_DictionaryID (upd now y) = dt_DictionaryID y) →
  writes (t, ∅) (change_item id valid (dictionaryItemWriteResult (exec (λ now, update_item id (upd now))))) kept.
Proof.
  intros Hok Hu. apply writes_refused. intros _. eapply triple_seq; [exact behind_quiet|apply writes_find|..].
  - intros x y [-> Hx]. specialize (Hx _ eq_refl). simpl in Hx. destruct (live_item_row t id) as [x'|] eqn:El; [|done]. injection Hx as ->.
    apply writes_found; [done|]. intros d Hd Hc. eapply writes_then.
    + apply (writes_item t Hok (di_Code d)). eapply update_item_touches; [done|done| |done]. intros d' Hd'. congruence.
    + intros a t' C HC. by apply writes_last.
  - intros e y [-> _]. by apply kept_refused; left.
Qed.

(** A request of a writer that nobody disturbs. *)
Lemma writes_request t c : tables_ok t → writes (t, ∅) (change_request c) kept.
Proof.
  intros Hok.
  assert (∀ {A} (p : Prog DictCmd A), writes (t, ∅) p kept → writes (t, ∅) (_ ← p; mret tt) kept) as Hdrop.
  { intros A p Hp. eapply triple_seq; [exact behind_quiet|exact Hp|..]; [|done]. intros a y Hy. apply triple_ret; [exact behind_quiet|]. by intros _; apply Hy. }
  destruct c; simpl change_request.
  - apply Hdrop, writes_refused. intros [[_ Hc]%andb_true_iff _]%andb_true_iff. eapply writes_then.
    + apply (writes_insert t Hok code); [done|]. by apply insert_dictionary_touches.
    + intros a t' C HC. by apply writes_last_id.
  - apply writes_refused. intros _. apply writes_found; [done|]. intros d Hd Hc. eapply writes_then.
    + apply (writes_dictionary t Hok (di_Code d)). apply (update_dictionary_touches t id (λ _, true)); [done| |done]. congruence.
    + intros a t' C HC. by apply writes_last.
  - apply writes_refused. intros _. apply writes_found; [done|]. intros d Hd Hc. eapply writes_then.
    + apply (writes_dictionary t Hok (di_Code d)). apply (update_dictionary_touches t id (λ _, true)); [done| |done]. congruence.
    + intros a t' C HC. by apply writes_last.
  - apply writes_refused. intros _. apply writes_found; [done|]. intros d Hd Hc. apply (writes_then _ _ (di_Code d)); [|by intros a t' C HC; apply writes_last].
    eapply triple_seq; [exact behind_quiet|apply (writes_exec t Hok (di_Code d) false)|..].
    + apply (update_dictionary_touches t id (λ t, negb (has_items id t))); [done| |done]. congruence.
    + intros n y [HC Hn]. destruct (0 <? n) eqn:En; [by apply triple_ret; [exact behind_quiet|]|].
      apply Z.ltb_ge in En. eapply triple_seq; [exact behind_quiet|apply writes_query|..].
      * intros d' y' [-> _]. apply triple_ret; [exact behind_quiet|]. left. by apply Hn.
      * intros e y' [-> _]. left. by apply Hn.
    + by intros e y.
  - apply Hdrop, writes_refused. intros _. apply writes_found; [done|]. intros d Hd Hc. eapply writes_then.
    + apply (writes_insert t Hok (di_Code d)); [done|]. apply (insert_item_touches t _ dictionaryID); [done|done|]. congruence.
    + intros a t' C HC. by apply writes_last_id.
  - by apply writes_change_item.
  - by apply writes_change_item.
  - by apply writes_change_item.
Qed.

(** ** Histories without a reader beside a change *)

(** What happens outside the requests is quiet: time passes, and keys are cleared. *)
Lemma time_quiet s us : 0 ≤ us → quiet s { s with st_redis := { st_redis s with rd_us := rd_us (st_redis s) + us } }.
Proof.
  intros Hus. split; [done|]. intros c e _. unfold cached_entry. simpl. set (r' := { st_redis s with rd_us := _ }).
  assert (find r' (cache_key c) = find (st_redis s) (cache_key c) ∨ find r' (cache_key c) = None) as Hf.
  { unfold find. simpl. destruct (rd_keys (st_redis s) !! cache_key c) as [[v d]|]; [|by left].
    assert (expired (st_redis s) d = true → expired r' d = true) as Hx.
    { destruct d as [d|]; simpl; [|done]. unfold rd_ms. simpl. rewrite !Z.ltb_lt. intros Hd.
      assert (rd_us (st_redis s) `div` 1000 ≤ (rd_us (st_redis s) + us) `div` 1000) by (apply Z.div_le_mono; lia). lia. }
    destruct (expired r' d); [by right|]. destruct (expired (st_redis s) d); [by specialize (Hx eq_refl)|by left]. }
  destruct Hf as [Hf|Hf]; [by rewrite (value_at_find _ _ _ Hf)|]. unfold value_at at 1, redis_get. by rewrite Hf.
Qed.
Lemma remove_quiet keys s : quiet s { s with st_redis := (removeScript (st_redis s) cache_index keys).1 }.
Proof.
  split; [done|]. intros c e Hp. unfold cached_entry. simpl.
  destruct (removeScript_value cache_index keys (st_redis s) _ (cache_key_index _ Hp)) as ([->| ->] & _ & _); done.
Qed.

(** Stores reached from an empty cache by complete reads and changes, one change at a time and
    no reader beside it; a change may fail, except that its invalidation fails or an answer of
    the database is lost. *)
Inductive Served : Stores → Prop :=
| Served_start s : tables_ok (st_tables s) → (∀ c, dictionaryCodePattern c = true → cached_entry s c = None) → Served s
| Served_quiet s s' : Served s → quiet s s' → Served s'
| Served_read s codes publicOnly log r s' :
    Served s → Run dict_effect steady (ReadDictionariesLogic codes publicOnly) s log r s' → Served s'
| Served_change s c log r s' : Served s → Run dict_effect quiet (change_request c) s log r s' → settled r → Served s'.

Lemma served_behind s : Served s → behind (st_tables s, ∅) s.
Proof.
  induction 1 as [s Hok Hc|s s' Hs IH Hq|s codes publicOnly log r s' Hs IH Hr|s c log r s' Hs IH Hr Hset].
  - split_and!; [done|done|]. intros c e Hp _ He. by rewrite Hc in He.
  - pose proof (behind_quiet _ _ _ Hq IH) as (Ht & Hok & Hcoh). simpl in Ht. rewrite Ht. by split_and!.
  - destruct IH as (_ & Hok & Hcoh).
    destruct (reads_answer _ Hok codes publicOnly s log r s' (conj eq_refl Hcoh) Hr) as [(y & [Ht Hc] & _) _].
    simpl in Ht. rewrite Ht. by split_and!.
  - pose proof IH as (_ & Hok & _). destruct (writes_request _ c Hok s log r s' IH Hr) as [([t' C] & (Ht & Hok' & Hc) & Hk) _].
    specialize (Hk Hset). simpl in *. subst C. rewrite Ht. by split_and!.
Qed.

(** C36: A read of dictionaries through the cache refines a read of the tables alone.  From any
    served store, with any other readers beside it and whatever Redis command fails or loses its
    answer, the answer is exactly what the database holds for the distinct requested codes, in
    their order, private dictionaries left out of a public request; a valid request fails only
    when the database does; and every moment leaves the tables alone and the cache in agreement
    with them, which is what the other readers rely on.  Served stores come from reads and from
    changes whose invalidation went through and whose database answer was not lost: after any
    other change an old entry may be read until it expires. *)
Theorem dictionary_reads_current codes publicOnly s log r s' :
  Served s → Run dict_effect steady (ReadDictionariesLogic codes publicOnly) s log r s' →
  (∀ l, r = Ok l → l = answers (st_tables s) codes publicOnly) ∧
  (valid_request codes = true → ∀ e, r = Fail e → e = [Driver]) ∧
  Forall (λ m, st_tables (mo_state m) = st_tables s ∧ coherent_but ∅ (st_tables s) (mo_state m)) log.
Proof.
  intros (_ & Hok & Hcoh)%served_behind Hr.
  destruct (reads_answer _ Hok codes publicOnly s log r s' (conj eq_refl Hcoh) Hr) as [(y & _ & H1 & H2) HF].
  split_and!; [done|done|]. eapply Forall_impl; [exact HF|]. by intros m (? & ?).
Qed.
End cache.

(** ** A small deployment *)

(** Runs in which every command is answered; [env n] acts before the [n]-th command. *)
Definition answer {X} (q : DictCmd X) : Stores → Stores * Result X :=
  match q in DictCmd X return Stores → Stores * Result X with
  | SQL stmt => λ s, let p := stmt 1 (st_tables s) in ({ s with st_tables := p.1 }, p.2)
  | MGET keys => λ s, (s, Ok (redis_mget (st_redis s) keys))
  | EVAL_PUT index key payload seconds => λ s, let p := putScript (st_redis s) index key payload seconds in ({ s with st_redis := p.1 }, p.2)
  | EVAL_REMOVE index keys => λ s, let p := removeScript (st_redis s) index keys in ({ s with st_redis := p.1 }, p.2)
  | SSCAN _ _ => λ s, (s, lost)
  end.
Fixpoint drive {A} (env : nat → Stores → Stores) (n : nat) (p : Prog DictCmd A) (s : Stores) : option (Result A * Stores) :=
  match p with
  | Ret a => Some (a, s)
  | Spin => None
  | Do q k => let a := answer q (env n s) in drive env (S n) (k a.2) a.1
  end.

Lemma drive_run {A} (rely : Stores → Stores → Prop) env n (p : Prog DictCmd A) s r s' :
  (∀ n s, rely s (env n s)) → drive env n p s = Some (r, s') → ∃ log, Run dict_effect rely p s log r s'.
Proof.
  intros He. revert n s. induction p as [a| |X q k IH]; intros n s; simpl; [intros [= -> ->]; eexists; constructor|done|].
  intros Hd. destruct (IH _ _ _ Hd) as [log Hr]. eexists. eapply Run_env; [apply (He n)|]. eapply Run_do; [|exact Hr].
  destruct q; simpl; [left; by exists 1|by left|by left|by left|by right; split; [|left]].
Qed.

#[local] Existing Instances demo_json demo_times demo_parse demo_crypto.

Definition demo_dictionary : Dictionary :=
  {| di_Name := "Source"; di_Code := "source"; di_Remark := ""; di_Status := RecordStatusEnabled; di_IsPublic := true;
     di_CreatedAt := 0; di_UpdatedAt := 0; di_DeletedAt := None |}.
Definition demo_item (value : string) (sort : Z) : DictionaryItem :=
  {| dt_DictionaryID := 1; dt_Label := value; dt_Value := value; dt_Sort := sort; dt_Remark := ""; dt_Status := RecordStatusEnabled;
     dt_CreatedAt := 0; dt_UpdatedAt := 0; dt_DeletedAt := None |}.
Definition demo_tables : Tables :=
  {| dictionaries := {[1 := demo_dictionary]}; dictionary_items := <[1 := demo_item "web" 2]> {[2 := demo_item "fair" 1]};
     next_dictionary := 2; next_dictionary_item := 3 |}.
Definition demo_stores : Stores := {| st_tables := demo_tables; st_redis := {| rd_keys := ∅; rd_us := 0 |} |}.

Lemma demo_served : Served demo_stores.
Proof.
  apply Served_start; [|done]. split.
  - simpl. intros i j d e Hi Hj _ _ _. apply lookup_singleton_Some in Hi as [<- _], Hj as [<- _]. done.
  - simpl. intros i d [<- <-]%lookup_singleton_Some. by vm_compute.
  - simpl. intros i x [[<- <-]|[_ [<- <-]%lookup_singleton_Some]]%lookup_insert_Some; by vm_compute.
Qed.

Definition run_alone {A} (p : Prog DictCmd A) (s : Stores) : option (Result A * Stores) := drive (λ _ s, s) 0 p s.
Definition store_after {A} (p : Prog DictCmd A) (s : Stores) : Stores := default s (snd <$> run_alone p s).

(** A read, a change of the dictionary's status, and another read. *)
Definition demo_read : Prog DictCmd (list (string * Z * list Item)) := ReadDictionariesLogic ["source"; "none"; "source"] true.
Definition demo_filled : Stores := store_after demo_read demo_stores.
Definition demo_change : Prog DictCmd unit := change_request (ChangeStatus 1 0).
Definition demo_changed : Stores := store_after demo_change demo_filled.
Definition demo_items : list Item :=
  [{| im_Label := "fair"; im_Value := "fair"; im_Status := 1; im_Sort := 1 |}; {| im_Label := "web"; im_Value := "web"; im_Status := 1; im_Sort := 2 |}].

Lemma quiet_refl `{JsonText} s : quiet s s.
Proof. by split. Qed.
Lemma steady_refl `{JsonText} s : steady s s.
Proof. split; [done|]. by left. Qed.

Lemma demo_changed_served : Served demo_changed.
Proof.
  assert (run_alone demo_read demo_stores = Some (Ok [("source", 1, demo_items)], demo_filled)) as H1 by (by vm_compute).
  assert (run_alone demo_change demo_filled = Some (Ok tt, demo_changed)) as H2 by (by vm_compute).
  destruct (drive_run steady _ _ _ _ _ _ (λ _, steady_refl) H1) as [l1 R1]. destruct (drive_run quiet _ _ _ _ _ _ (λ _, quiet_refl) H2) as [l2 R2].
  eapply Served_change; [|exact R2|done]. eapply Served_read; [exact demo_served|exact R1].
Qed.

(** Witness: the read after the change answers the new status from the database. *)
Lemma dictionary_reads_current_witness :
  ∃ log s', Run dict_effect steady demo_read demo_changed log (Ok [("source", 0, demo_items)]) s' ∧
    [("source", 0, demo_items)] = answers (st_tables demo_changed) ["source"; "none"; "source"] true.
Proof.
  assert (run_alone demo_read demo_changed = Some (Ok [("source", 0, demo_items)], store_after demo_read demo_changed)) as H1 by (by vm_compute).
  destruct (drive_run steady _ _ _ _ _ _ (λ _, steady_refl) H1) as [log R1]. exists log, (store_after demo_read demo_changed). split; [exact R1|].
  exact (proj1 (dictionary_reads_current (marshal_reads auth_demo_documented) _ _ _ _ _ _ demo_changed_served R1) _ eq_refl).
Defined.

(** The accepted limit of the cache: a reader that read the tables before a change and fills
    the cache after the change was acknowledged leaves the old entry behind. *)
Definition late_change (n : nat) (s : Stores) : Stores := if (n =? 3)%nat then store_after demo_change s else s.
Definition others_change (s s' : Stores) : Prop := s' = s ∨ ∃ r, run_alone demo_change s = Some (r, s').

Theorem late_fill_stays : ∃ log r s' old new, Run dict_effect others_change demo_read demo_stores log r s' ∧
  cached_entry s' "source" = Some old ∧ fresh (st_tables s') "source" = Some new ∧ en_Status old = 1 ∧ en_Status new = 0.
Proof.
  assert (∀ n s, others_change s (late_change n s)) as He.
  { intros n s. unfold late_change. case_match; [|by left]. unfold store_after, others_change.
    destruct (run_alone demo_change s) as [[r s1]|]; simpl; [|by left]. right. by exists r. }
  set (end_ := match drive late_change 0 demo_read demo_stores with Some p => p | None => (lost, demo_stores) end).
  assert (drive late_change 0 demo_read demo_stores = Some end_) as Hd by (by vm_compute).
  destruct end_ as [r s'] eqn:Ee. destruct (drive_run _ _ _ _ _ _ _ He Hd) as [log Hr].
  exists log, r, s', {| en_Status := 1; en_IsPublic := true; en_Items := Some demo_items |}, {| en_Status := 0; en_IsPublic := true; en_Items := Some demo_items |}.
  split; [exact Hr|]. apply (f_equal snd) in Ee. simpl in Ee. subst s'. split_and!; [by vm_compute..|done|done].
Qed.
